(* ===== verification/_CoqProject ===== *)
-Q . S2P
Prelude.v
APInt.v
Expr.v
ExprOrder.v
ExprSem.v
ExprCreate.v
ExprCreateSound.v
ExprRebuildSound.v
ExprTyping.v
ExprBuilder.v
ExprVisitor.v
ExprEvaluator.v
ExprUtil.v
ExprClosure.v
ExprSafe.v
ExprReplaceVisitor.v
IndependentElementSet.v
FactorIndex.v
ConstraintFactors.v
FactorDelete.v
FactorBook.v
ConstraintManager.v
ImmutableTree.v
MapOfSets.v
Bits.v
Solver.v
IncompleteSolver.v
CachingSolver.v
SolverAssignment.v
ValidatingSolver.v
SymbolicObjects.v
CexCachingSolver.v
IndependentSolver.v
IndependentValues.v
BitBounds.v
IntEvaluation.v
ValueRange.v
ExprRangeEvaluator.v
FastCexSolver.v
SolverChain.v
BitArray.v
ArrayCache.v
Memory.v
MemorySound.v
MemoryRefine.v
ObjectStates.v
AddressSpace.v
CopyOnWrite.v
RNG.v
PTree.v
Searcher.v
SearcherSound.v
Scheduling.v
ConstantDivision.v
STPBuilder.v
STPConstruct.v
STPConstructSound.v
STPSolver.v
STPSolverSound.v
TimingSolver.v
AddressResolve.v
AddressResolveSound.v
KTest.v
Replay.v
ReplaySound.v
Serialize.v
TreeStream.v
