(* ===== verification/Prelude.v ===== *)
(** * Execution Reconstruction (ER): expressions, constraints, solvers, memory, scheduling and replay

    ER is a symbolic virtual machine derived from KLEE.  It interprets LLVM
    bitcode on symbolic inputs (src/lib/Core), builds expressions over symbolic
    arrays for the values it computes (src/lib/Expr), collects branch conditions
    as constraints, and asks a chain of solvers (src/lib/Solver) for their
    satisfiability or for a model.  Every answer rests on the expressions: they
    are canonicalized when they are built, rewritten by visitors, kept in
    ordered and hashed containers, and evaluated under the assignments a solver
    returns; every solver of the chain answers from the answers of the next one.
    The memory of the interpreted program is objects whose bytes are concrete,
    cached expressions, or updates of a symbolic array, shared between execution
    states and copied on write.  Searchers choose the state that runs next.
    To reconstruct a recorded failure, the executor replays the branches of the recorded
    run and collects their conditions.  This
    library models that core and proves that
    none of these steps changes what an expression means, that every solver
    of the chain gives right answers when the one below it does, down to the
    translation for STP, that the
    memory behaves as separate arrays of bytes, that no state is lost, and that the
    constraints a replay collects describe exactly the recorded path.

    ** Files and the code they model

    - [Prelude] (this file): w-bit integers as [Z] with [wrap] and [signed], the
      shared lemmas on them, tactics and hint databases.
    - [APInt]: the operations of [llvm::APInt] that [ConstantExpr] calls, as the
      class [APIntOps] with the laws [APIntSpec].  LLVM is not part of the
      sources, so it stays a parameter; [apint_ref] is an instance of the class
      that computes, and the witnesses run on it.
    - [Expr]: the classes of include/klee/Expr/Expr.h as mutually inductive
      types ([Expr], [UpdateNode]; [Array] and [UpdateList] are records), widths,
      kinds, the 32-bit hashes, and [Expr::compare] with the comparisons of
      update nodes and lists (lib/Expr/Expr.cpp, lib/Expr/Updates.cpp).
    - [ExprOrder]: [compare] is a total order whose 0 is equality.
    - [ExprSem]: the meaning [eval rho e] of an expression, partial, and the
      preorder [e ⊑ e'] ("[e'] has the value of [e] wherever [e] has one") with
      its [Proper] instances.
    - [ExprCreate]: [ConstantExpr] arithmetic and every [X::create] with its
      static helpers, [createFromKind], [rebuild] (lib/Expr/Expr.cpp).
    - [ExprCreateSound], [ExprRebuildSound]: all of them are sound, and those
      that recurse through rebuilt expressions terminate.
    - [ExprBuilder]: the builders of lib/Expr/ExprBuilder.cpp against the
      contract [BuilderSound].
    - [ExprVisitor]: the traversal of lib/Expr/ExprVisitor.cpp in a state monad,
      with triples for partial and total correctness.
    - [ExprTyping]: the constructors keep expressions well typed.
    - [ExprEvaluator]: lib/Expr/ExprEvaluator.cpp and
      include/klee/Expr/Assignment.h.
    - [ExprUtil]: the worklist [findReads] of lib/Expr/ExprUtil.cpp.
    - [ExprClosure]: the properties of expressions that pass to the nodes the
      constructors return, and [ExprSafe]: the expressions that have a value at
      all contents of the arrays.
    - [ExprReplaceVisitor]: the visitors that replace expressions by what they
      are known to equal (lib/Expr/ExprReplaceVisitor.cpp).
    - [IndependentElementSet]: the array bytes a constraint depends on
      (lib/Expr/IndependentElementSet.cpp).
    - [FactorIndex], [ConstraintFactors], [FactorDelete]: the factors of the
      constraint manager, that is, its partition into independent sets of
      constraints, with the index from array bytes to factors
      (lib/Expr/Constraints.cpp); the first is the index, the second
      construction, addition and copy, the third deletion.
    - [FactorBook]: what the manager relies on of the factors, as the class
      [FactorLaws], and the instance [book] the code implements.
    - [ConstraintManager]: [addConstraint] and the functions it calls
      (lib/Expr/Constraints.cpp), proved against [FactorLaws].
    - [ImmutableTree]: include/klee/Internal/ADT/ImmutableTree.h and the map and
      set over it, which hold the address space of every execution state.
    - [MapOfSets]: include/klee/Internal/ADT/MapOfSets.h, the index of the
      counterexample cache.
    - [Bits]: the bit tricks of include/klee/util/Bits.h.
    - [Solver]: queries, the interface [SolverImpl] as a record of operations in a
      state and failure monad, the front end of lib/Solver/Solver.cpp, and the
      contract [SolverSpec] between the solvers of the chain.
    - [IncompleteSolver], [CachingSolver], [CexCachingSolver],
      [IndependentSolver] with [IndependentValues], [ValidatingSolver]: the
      solvers of the files of the same names in lib/Solver (the last one with
      AssignmentValidatingSolver.cpp), each proved against [SolverSpec].
    - [SolverAssignment]: assignments as the byte contents a solver found.
    - [SymbolicObjects]: the finders of arrays of lib/Expr/ExprUtil.cpp.
    - [BitBounds]: the bounds [minOR] ... [maxAND] of bitwise operations on
      ranges, [IntEvaluation]: the arithmetic on machine words of
      include/klee/Internal/Support/IntEvaluation.h, [ValueRange]: the ranges and
      their operations, [ExprRangeEvaluator]: the evaluation of expressions to
      ranges (include/klee/Expr/ExprRangeEvaluator.h).
    - [FastCexSolver]: the solver of lib/Solver/FastCexSolver.cpp, which narrows
      ranges of array bytes by propagation.
    - [SolverChain]: [constructSolverChain] (lib/Solver/ConstructSolverChain.cpp)
      puts the solvers on top of each other as the options say.
    - [BitArray] (include/klee/util/BitArray.h) and [ArrayCache]
      (lib/Expr/ArrayCache.cpp), which the memory uses.
    - [Memory]: [MemoryObject] and [ObjectState] of lib/Core/Memory.h and
      lib/Core/Memory.cpp.  [MemorySound] has the class invariant and the
      abstraction to bytes ([represents]), [MemoryRefine] the theorems on reads
      and writes, [ObjectStates] those on construction, and a small object the
      witnesses run on.
    - [AddressSpace]: the map of lib/Core/AddressSpace.cpp over [ImmutableTree],
      with the object states in a heap because maps share them; [CopyOnWrite]
      proves the sharing invisible.
    - [RNG]: the random numbers of lib/Support/RNG.cpp.
    - [PTree]: the process tree (lib/Core/PTree.cpp) and the walk of random path
      search; [Searcher]: the searchers of lib/Core/Searcher.cpp and their
      construction (lib/Core/UserSearcher.cpp); [SearcherSound]: what they promise
      about the states they hold; [Scheduling]: the part of lib/Core/Executor.cpp that
      keeps the execution states, with its main loop.
    - [ConstantDivision]: the constants of lib/Solver/ConstantDivision.cpp;
      [STPBuilder]: shifts and arithmetic by constants of lib/Solver/STPBuilder.cpp over the
      C interface of STP ([VCOps], with its meaning [VCSpec]); [STPConstruct]: the
      translation of expressions with its tables (also
      include/klee/Expr/ArrayExprHash.h), [STPConstructSound]: its meaning;
      [STPSolver]: lib/Solver/STPSolver.cpp, [STPSolverSound]: its answers.
    - [TimingSolver]: the executor's questions to the chain
      (lib/Core/TimingSolver.cpp); [AddressResolve]: the objects a pointer may point
      into (lib/Core/AddressSpace.cpp), [AddressResolveSound]: that none is missed.
    - [KTest]: the files that inputs are written to and read from (lib/Basic/KTest.cpp).
    - [Replay]: branches in lib/Core/Executor.cpp: [fork], the recording of directions
      and their replay, the constraints of a state and the oracle that checks them
      (lib/Expr/OracleEvaluator.cpp); [ReplaySound]: what a replay reconstructs.
    - [Serialize]: the entries of recorded streams as bytes
      (include/klee/Internal/Support/Serialize.h); [TreeStream]: the streams of all
      states in one file (lib/Support/TreeStream.cpp,
      include/klee/Internal/ADT/TreeStream.h) and the path files that are saved from them and
      loaded for a replay (tools/klee/main.cpp).

    ** What the theorems show

    - Expressions: [create_preserves_meaning] (each constructor returns an
      expression with the value of the plain node), [builders_sound] (so do the
      builders, over every base builder that does), [compare_total_order].
    - Termination: [AddSubExpr'create_eq], [ExtractConcat'create_eq] and
      [builders_unroll] show that the fuel the definitions give themselves is
      enough, in the form of the recursive equations of the source.
    - Evaluation: [Assignment_evaluate_sound] (partial evaluation keeps the
      value for all contents that agree with the bindings),
      [Assignment_evaluate_complete] (without free values the result is the
      constant), [Assignment_satisfies_correct],
      [createConstraintsFromAssignment_exact], and [evaluate_opaque_constant],
      the case in which an opaque constant is left as it is.
    - Replacement: [replace_preserves_value], [replace_absent],
      [visitUpdateNode_recursion].
    - Solvers: [solver_answers] and [getRange_tight] (the front end answers what
      its documentation says), [staged_solver_correct],
      [caching_solver_correct], [cex_caching_solver_correct],
      [independent_solver_correct] and [validating_solver_correct] (each solver
      meets the contract over one that does, and keeps the invariant of its own
      state), [validating_solver_guards] and [assignment_validating_guards]
      (what they let through is right whatever they wrap),
      [solver_chain_correct] (the chain answers right for every choice of the
      options, over any core solver that does);
      [experimental_truth_fails] and [cache_never_refined] are the runs in which
      two of them fall short.
    - STP: [construct_exact] (the term built for an expression has the value of the
      expression), [constant_arithmetic_exact] and [variable_shifts_exact] (so do the
      parts STP does not compute itself), [stp_solver_correct] (the answers and the bytes read back
      are right); [array_names_collide], [shared_node_confuses_arrays],
      [shift_amount_truncated], [overshift_loses_sign], [division_by_constant_zero],
      [whole_object_not_read] and [error_counts_as_valid] are the inputs on which the code falls short.
    - Ranges: [bitwise_bounds] and [ints_are_bitvectors] (the bit tricks and the
      arithmetic of machine words compute what they should),
      [range_evaluation_sound] (the range of an expression holds its value),
      [fast_cex_sound] (what the fast solver answers is right) with
      [fast_cex_aborts]; [constant_read_imprecise], [wide_concat_unsound] and
      [signed_64_undefined] are the limits of the evaluation.
    - Constraints: [addConstraint_keeps_models] and [addConstraint_iteration]
      (no solution is lost, and none is won unless a constraint can divide by zero), [factors_are_components] (the factors
      are the connected components of the constraints that share bytes) with
      [updateIndependentSetAdd_keeps_components] and
      [updateIndependentSetDelete_keeps_components],
      [factors_decide_satisfiability]; [intersects_misses_overlap],
      [delete_splits_factor] and [rewrite_alternate_odd] are inputs on which the
      code fails.
    - Memory: [read_refines], [write_refines] and [read_after_write] (an object
      state with its masks, caches and lazily flushed updates is an array of
      bytes, at constant and symbolic offsets and in both byte orders),
      [object_states_start] (constructors establish the invariant),
      [array_cache_conses], [cow_refines_copies] (states that share objects and
      copy them on write behave as if every fork had copied everything);
      [forced_write_aborts], [stale_after_external_call],
      [BitArray_length_overflow] and [cached_array_ignores_range] are the runs in
      which the code falls short.
    - Reconstruction: [replay_reproduces] (the constraints at the end of a replay are
      satisfied exactly by the inputs that take the recorded branches),
      [fork_partitions] (a fork splits the inputs of a state), [oracle_inputs_survive];
      [max_depth_null] and [constant_true_refused] are the cases in which the code falls short.
    - Pointers: [resolve_exact] and [resolveOne_exact] (resolving a pointer finds the
      objects that contain one of its addresses under the path constraints, asking about few
      of them); [limit_of_one_ignored] and [empty_object_not_found] are the cases in which the code does
      not do what its comments say.
    - Streams: [streams_separate] (the streams of all states in one file read back as
      what each state and its ancestors recorded), [recorded_path_loads] (and so do the path files);
      [long_frame_is_fork] is the bound on what can be recorded.
    - Test files: [ktest_roundtrip] (what is written is read back, and truncated files are
      rejected); [empty_object_not_written] and [long_string_overflows] are the exceptions.
    - Scheduling: [executor_keeps_states] (the searchers hold exactly the living
      states, and the main loop never fails an assert), [bfs_fair] (breadth first search gets to
      every state); [paused_state_chosen] and [batch_counter_truncated] are the runs in which
      options or long runs break this.
    - Random numbers: [generator_is_recurrence].
    - Containers: the tree keeps its invariant, refines sorted lists, obeys the
      laws of finite maps, stays low enough for its [unsigned] heights and its
      iterators visit the sorted list in both directions; the map of sets obeys
      insert/lookup laws and its subset and superset queries are sound and
      complete.

    ** Conventions

    - An [assert] of the source is a hypothesis of the theorems, or, where the
      meaning is partial, the place where [eval] has no value.
    - A [ref<T>] is the value it points to.  Reference counts, the provenance
      fields [kinst] and [flags], statistics and debug output are left out.
      Pointer comparisons that only save work are comparisons of contents.
    - Fuel.  [AddExpr::create]/[SubExpr::create] get the number of nodes of their
      arguments, [ExtractExpr::create]/[ConcatExpr::create] a linear function of
      it, the builders the bound [cf_fuel]; the equations above hold at
      these amounts.  [ExprVisitor.visit] takes its fuel from the caller and
      returns [None] when it is used up; the evaluator's theorems give
      an amount for which that does not happen.  [addConstraint] takes a bound on
      its iterations and on the depth of its visits; its theorems are about the
      runs that end, and the theorem on a single iteration has no such bound;
      the theorems on branches say that nothing but this call can fail to return.
    - A solver is correct with respect to contents of bytes: [satisfies] ranges
      over array contents whose elements are bytes.  Its contract has three
      parameters: the queries it may be asked, the lists of objects it may be
      asked for, and whether it may fail.  Statistics, logs and timeouts
      are left out.
    - Memory is compared with bytes under a valuation [rho] of the symbolic
      arrays: an object state [represents] a list of bytes when every cache
      it may answer from has the value of the byte.  Reads at offsets that [rho]
      puts out of bounds are not constrained, as the executor checks the bounds first.
    - Terms of STP are related to their values by [bv], [fm] and [arr], under contents of
      the variables; the theorems on the translation hold for every instance of [VCSpec].
      Addresses of update nodes, the answers of STP and the fate of its child processes
      are arguments.  Loops over the bits of a word have fuel for each bit.
    - Execution states are their addresses.  The update of nested searchers has
      the depth of the nesting as fuel; clock readings and what an instruction
      does to the set of states are arbitrary.
    - Hashes and lengths are taken modulo 2^32 where the source stores them in
      [unsigned].

    ** Not modelled

    The KQuery parser and the printers, the array optimizer, the interpreter and
    its passes over LLVM IR (their meaning is LLVM's), the translation to Z3 and
    metaSMT (the same work over other interfaces; the chain is proved over any core solver that
    meets its contract), query logging, the memory manager and its allocator, the searchers with
    floating-point weights and the merging searcher, seeds, threads, the recording of data,
    statistics, tools and the C runtime. *)

From stdpp Require Export base numbers list option sets.
From Stdlib Require Export ZArith Lia Bool.
From Stdlib Require Import Btauto.

#[global] Open Scope Z_scope.

(** ** Outcomes

    A computation of the source returns, fails an assert (or does what C++ leaves
    undefined), or exceeds the bound of the model. *)

Inductive outcome (X : Type) := Done (x : X) | Abort | OutOfFuel.
Arguments Done {_} _.
Arguments Abort {_}.
Arguments OutOfFuel {_}.

#[export] Instance outcome_ret : MRet outcome := fun X x => Done x.
#[export] Instance outcome_bind : MBind outcome := fun X Y k m =>
  match m with Done x => k x | Abort => Abort | OutOfFuel => OutOfFuel end.

Definition or_abort {X} (o : option X) : outcome X := match o with Some x => Done x | None => Abort end.
Definition or_fuel {X} (o : option X) : outcome X := match o with Some x => Done x | None => OutOfFuel end.

(** [assert(b)] *)
Definition check (b : bool) : outcome unit := if b then Done tt else Abort.

Lemma outcome_bind_done {X Y} (m : outcome X) (k : X -> outcome Y) y :
  (m ≫= k) = Done y <-> exists x, m = Done x /\ k x = Done y.
Proof. destruct m; cbn; naive_solver. Qed.

(** ** Fixed-width integers

    A [w]-bit value is the unsigned integer [0 <= x < 2 ^ w].  [wrap] is the
    reduction every wrapping C++ or APInt operation performs; [signed] is the
    two's-complement reading of the same bits. *)

Module BV.

Definition wrap (w x : Z) : Z := x mod 2 ^ w.

Definition signed (w x : Z) : Z := if x <? 2 ^ (w - 1) then x else x - 2 ^ w.

Definition in_range (w x : Z) : bool := (0 <? w) && (0 <=? x) && (x <? 2 ^ w).

Lemma pow2_pos w : 0 <= w -> 0 < 2 ^ w.
Proof. intros. apply Z.pow_pos_nonneg; lia. Qed.

Lemma in_range_spec w x : in_range w x = true <-> 0 < w /\ 0 <= x < 2 ^ w.
Proof. unfold in_range. rewrite !andb_true_iff, !Z.ltb_lt, Z.leb_le. tauto. Qed.

Lemma wrap_range w x : 0 <= w -> 0 <= wrap w x < 2 ^ w.
Proof. intros. apply Z.mod_pos_bound, pow2_pos; lia. Qed.

Lemma wrap_in_range w x : 0 < w -> in_range w (wrap w x) = true.
Proof. intros. apply in_range_spec. split; [lia|]. apply wrap_range; lia. Qed.

Lemma wrap_small w x : 0 <= x < 2 ^ w -> wrap w x = x.
Proof. apply Z.mod_small. Qed.

Lemma wrap_wrap w x : wrap w (wrap w x) = wrap w x.
Proof. apply Zmod_mod. Qed.

Lemma wrap_wrap_le w v x : 0 <= w <= v -> wrap w (wrap v x) = wrap w x.
Proof.
  intros. unfold wrap. apply Z.mod_mod_divide.
  exists (2 ^ (v - w)). rewrite <- Z.pow_add_r by lia. f_equal; lia.
Qed.

Lemma wrap_add_l w x y : wrap w (wrap w x + y) = wrap w (x + y).
Proof. apply Zplus_mod_idemp_l. Qed.
Lemma wrap_add_r w x y : wrap w (x + wrap w y) = wrap w (x + y).
Proof. apply Zplus_mod_idemp_r. Qed.
Lemma wrap_sub_l w x y : wrap w (wrap w x - y) = wrap w (x - y).
Proof. apply Zminus_mod_idemp_l. Qed.
Lemma wrap_sub_r w x y : wrap w (x - wrap w y) = wrap w (x - y).
Proof. apply Zminus_mod_idemp_r. Qed.
Lemma wrap_mul_l w x y : wrap w (wrap w x * y) = wrap w (x * y).
Proof. apply Zmult_mod_idemp_l. Qed.
Lemma wrap_mul_r w x y : wrap w (x * wrap w y) = wrap w (x * y).
Proof. apply Zmult_mod_idemp_r. Qed.

Lemma signed_range w x :
  0 < w -> 0 <= x < 2 ^ w -> - 2 ^ (w - 1) <= signed w x < 2 ^ (w - 1).
Proof.
  intros Hw Hx. unfold signed.
  replace w with (1 + (w - 1)) in Hx at 1 by lia.
  replace (2 ^ w) with (2 * 2 ^ (w - 1))
    by (rewrite <- Z.pow_succ_r by lia; f_equal; lia).
  rewrite Z.pow_add_r in Hx by lia. change (2 ^ 1) with 2 in Hx.
  destruct (Z.ltb_spec x (2 ^ (w - 1))); lia.
Qed.

Lemma wrap_signed w x : 0 <= x < 2 ^ w -> wrap w (signed w x) = x.
Proof.
  intros. unfold signed. destruct (_ <? _).
  - now apply wrap_small.
  - unfold wrap. rewrite <- (Z_mod_plus_full _ 1). rewrite <- (Z.mod_small x (2 ^ w)) at 2 by lia.
    f_equal; lia.
Qed.

Lemma signed_wrap w x :
  0 < w -> - 2 ^ (w - 1) <= x < 2 ^ (w - 1) -> signed w (wrap w x) = x.
Proof.
  intros Hw Hx. pose proof (pow2_pos (w - 1) ltac:(lia)).
  assert (Hp : 2 ^ w = 2 * 2 ^ (w - 1))
    by (rewrite <- Z.pow_succ_r by lia; f_equal; lia).
  unfold signed, wrap. destruct (Z.le_gt_cases 0 x).
  - rewrite Z.mod_small by lia. destruct (Z.ltb_spec x (2 ^ (w - 1))); lia.
  - replace (x mod 2 ^ w) with (x + 2 ^ w).
    + destruct (Z.ltb_spec (x + 2 ^ w) (2 ^ (w - 1))); lia.
    + rewrite <- (Z_mod_plus_full _ 1), Z.mul_1_l. symmetry. apply Z.mod_small. lia.
Qed.

Lemma testbit_wrap w x i :
  0 <= w -> Z.testbit (wrap w x) i = (i <? w) && Z.testbit x i.
Proof.
  intros. unfold wrap. destruct (Z.ltb_spec i w).
  - now rewrite Z.mod_pow2_bits_low.
  - rewrite Z.mod_pow2_bits_high by lia. reflexivity.
Qed.

Lemma testbit_high w x i : 0 <= w -> 0 <= x < 2 ^ w -> w <= i -> Z.testbit x i = false.
Proof. intros. rewrite <- (wrap_small w x) by lia. rewrite testbit_wrap by lia.
  now rewrite (proj2 (Z.ltb_ge i w)) by lia. Qed.

Lemma bitwise_range w x :
  0 <= w -> 0 <= x -> (forall i, w <= i -> Z.testbit x i = false) -> 0 <= x < 2 ^ w.
Proof.
  intros Hw Hx H. replace x with (wrap w x); [now apply wrap_range|].
  apply Z.bits_inj'. intros i Hi. rewrite testbit_wrap by lia.
  destruct (Z.ltb_spec i w); [reflexivity|]. now rewrite H by lia.
Qed.

Lemma land_range w x y : 0 <= w -> 0 <= x < 2 ^ w -> 0 <= y < 2 ^ w -> 0 <= Z.land x y < 2 ^ w.
Proof.
  intros. apply bitwise_range; [lia|apply Z.land_nonneg; lia|].
  intros i Hi. now rewrite Z.land_spec, (testbit_high w x) by lia.
Qed.
Lemma lor_range w x y : 0 <= w -> 0 <= x < 2 ^ w -> 0 <= y < 2 ^ w -> 0 <= Z.lor x y < 2 ^ w.
Proof.
  intros. apply bitwise_range; [lia|apply Z.lor_nonneg; lia|].
  intros i Hi. now rewrite Z.lor_spec, (testbit_high w x), (testbit_high w y) by lia.
Qed.
Lemma lxor_range w x y : 0 <= w -> 0 <= x < 2 ^ w -> 0 <= y < 2 ^ w -> 0 <= Z.lxor x y < 2 ^ w.
Proof.
  intros. apply bitwise_range; [lia|apply Z.lxor_nonneg; lia|].
  intros i Hi. now rewrite Z.lxor_spec, (testbit_high w x), (testbit_high w y) by lia.
Qed.

Lemma div_pow2_range w x n : 0 <= n -> 0 <= x < 2 ^ w -> 0 <= x / 2 ^ n < 2 ^ w.
Proof.
  intros. pose proof (pow2_pos n ltac:(lia)). split.
  - apply Z.div_pos; lia.
  - apply Z.div_lt_upper_bound; [lia|]. nia.
Qed.

Lemma concat_range wl wr x y :
  0 <= wl -> 0 <= wr -> 0 <= x < 2 ^ wl -> 0 <= y < 2 ^ wr ->
  0 <= x * 2 ^ wr + y < 2 ^ (wl + wr).
Proof. intros. rewrite Z.pow_add_r by lia. nia. Qed.

(** *** Bits of shifted, concatenated and sign-extended values *)

Lemma testbit_div n x i : 0 <= n -> 0 <= i -> Z.testbit (x / 2 ^ n) i = Z.testbit x (i + n).
Proof. intros. now apply Z.div_pow2_bits. Qed.

Lemma testbit_concat n x y i :
  0 <= n -> 0 <= y < 2 ^ n -> 0 <= i ->
  Z.testbit (x * 2 ^ n + y) i = if i <? n then Z.testbit y i else Z.testbit x (i - n).
Proof.
  intros Hn Hy Hi. destruct (Z.ltb_spec i n).
  - rewrite <- (Z.mod_pow2_bits_low _ n i) by lia.
    rewrite Z.add_comm, Z_mod_plus_full, Z.mod_small by lia. done.
  - replace i with ((i - n) + n) at 1 by lia. rewrite <- Z.div_pow2_bits by lia.
    rewrite Z.add_comm, Z.div_add, Z.div_small by (pose proof (pow2_pos n); lia). done.
Qed.

Lemma testbit_signed w x i :
  0 < w -> 0 <= x < 2 ^ w -> 0 <= i ->
  Z.testbit (signed w x) i = Z.testbit x (Z.min i (w - 1)).
Proof.
  intros Hw Hx Hi. rewrite <- (wrap_signed w x Hx) at 2. rewrite testbit_wrap by lia.
  rewrite (proj2 (Z.ltb_lt _ w)) by lia. cbn.
  destruct (Z.le_gt_cases i (w - 1)) as [Hle|Hgt]; [f_equal; lia|].
  rewrite Z.min_r by lia. pose proof (signed_range w x Hw Hx) as Hs.
  pose proof (pow2_pos (w - 1) ltac:(lia)).
  assert (Hhigh : forall j, w - 1 <= j -> Z.testbit (signed w x) j = (signed w x <? 0)).
  { intros j Hj. destruct (Z.ltb_spec (signed w x) 0).
    - rewrite <- (Z.lnot_involutive (signed w x)). rewrite Z.lnot_spec by lia.
      rewrite (testbit_high (w - 1)); [done|lia| |lia]. unfold Z.lnot. lia.
    - apply (testbit_high (w - 1)); lia. }
  now rewrite !Hhigh by lia.
Qed.

End BV.

(** Rewriting database that removes inner reductions modulo [2 ^ w]; [bv_ring]
    closes equalities of wrapped linear or ring terms. *)
Create HintDb bv discriminated.
Create Rewrite HintDb bv.
#[export] Hint Rewrite BV.wrap_wrap BV.wrap_add_l BV.wrap_add_r BV.wrap_sub_l BV.wrap_sub_r
  BV.wrap_mul_l BV.wrap_mul_r : bv.
#[export] Hint Resolve BV.wrap_in_range BV.wrap_range BV.land_range BV.lor_range BV.lxor_range
  BV.pow2_pos : bv.

(** Equality of values bit by bit. *)
Ltac bv_bits :=
  apply Z.bits_inj'; intros;
  repeat first [rewrite BV.testbit_wrap by lia | rewrite BV.testbit_div by lia
    | rewrite BV.testbit_concat by lia | rewrite BV.testbit_signed by lia].

Ltac bv_ring := autorewrite with bv; f_equal; ring.

(** Case analysis on the boolean integer tests of a goal or of the hypotheses. *)
Ltac zcases :=
  repeat match goal with
  | |- context [?a =? ?b] => destruct (Z.eqb_spec a b)
  | |- context [?a <? ?b] => destruct (Z.ltb_spec a b)
  | |- context [?a <=? ?b] => destruct (Z.leb_spec a b)
  | H : context [?a =? ?b] |- _ => destruct (Z.eqb_spec a b)
  | H : context [?a <? ?b] |- _ => destruct (Z.ltb_spec a b)
  | H : context [?a <=? ?b] |- _ => destruct (Z.leb_spec a b)
  end.

(** ** Options *)

Lemma guard_true_bind {A} (b : bool) (k : option A) v :
  (if b then k else None) = Some v <-> b = true /\ k = Some v.
Proof. destruct b; split; intros; intuition congruence. Qed.

(** ** Propositions *)

Lemma and_iff_compat_l' (P Q R : Prop) : (P -> Q <-> R) -> P /\ Q <-> P /\ R.
Proof. tauto. Qed.
