(* ===== verification/APInt.v ===== *)
(** * The interface of LLVM's [APInt]

    [ConstantExpr] (src/include/klee/Expr/Expr.h) stores an [llvm::APInt] and
    delegates its arithmetic to it.  LLVM is not part of the repository, so its
    operations are the methods of the class [APIntOps] and their documented
    results the laws of [APIntSpec]; an [APInt] itself is observed through its
    bit width and its unsigned value.  The laws refer to the bit-vector
    reference functions [arith_sem] and [cmp_sem], which also give the
    semantics of the expressions. *)

From S2P Require Import Prelude.

(** The bit-vector view of an [llvm::APInt]. *)
Record apint := APInt { ap_width : Z; ap_val : Z }.
Add Printing Constructor apint.

#[export] Instance apint_eq_dec : EqDecision apint.
Proof. solve_decision. Defined.

Definition ap_valid (a : apint) : bool := BV.in_range (ap_width a) (ap_val a).

Lemma ap_valid_spec a : ap_valid a = true <-> 0 < ap_width a /\ 0 <= ap_val a < 2 ^ ap_width a.
Proof. apply BV.in_range_spec. Qed.

(** The binary kinds of [Expr::Kind]: arithmetic and bit operations
    (Add .. AShr) and comparisons (Eq .. Sge). *)
Inductive ArithKind :=
| Add | Sub | Mul | UDiv | SDiv | URem | SRem
| And | Or | Xor | Shl | LShr | AShr.

Inductive CmpKind := Eq | Ne | Ult | Ule | Ugt | Uge | Slt | Sle | Sgt | Sge.

Inductive CastKind := ZExt | SExt.

#[export] Instance ArithKind_eq_dec : EqDecision ArithKind.
Proof. solve_decision. Defined.
#[export] Instance CmpKind_eq_dec : EqDecision CmpKind.
Proof. solve_decision. Defined.
#[export] Instance CastKind_eq_dec : EqDecision CastKind.
Proof. solve_decision. Defined.

(** ** Bit-vector reference semantics

    Division and remainder by zero have no value.  A shift by at least the
    width yields 0, except that an arithmetic right shift fills with the sign. *)

Definition arith_sem (k : ArithKind) (w x y : Z) : option Z :=
  match k with
  | Add => Some (BV.wrap w (x + y))
  | Sub => Some (BV.wrap w (x - y))
  | Mul => Some (BV.wrap w (x * y))
  | UDiv => if y =? 0 then None else Some (x / y)
  | SDiv => if y =? 0 then None else Some (BV.wrap w (Z.quot (BV.signed w x) (BV.signed w y)))
  | URem => if y =? 0 then None else Some (x mod y)
  | SRem => if y =? 0 then None else Some (BV.wrap w (Z.rem (BV.signed w x) (BV.signed w y)))
  | And => Some (Z.land x y)
  | Or => Some (Z.lor x y)
  | Xor => Some (Z.lxor x y)
  | Shl => Some (if y <? w then BV.wrap w (x * 2 ^ y) else 0)
  | LShr => Some (if y <? w then x / 2 ^ y else 0)
  | AShr => Some (BV.wrap w (BV.signed w x / 2 ^ Z.min y w))
  end.

Definition cmp_sem (k : CmpKind) (w x y : Z) : bool :=
  let sx := BV.signed w x in let sy := BV.signed w y in
  match k with
  | Eq => x =? y
  | Ne => negb (x =? y)
  | Ult => x <? y
  | Ule => x <=? y
  | Ugt => y <? x
  | Uge => y <=? x
  | Slt => sx <? sy
  | Sle => sx <=? sy
  | Sgt => sy <? sx
  | Sge => sy <=? sx
  end.

Definition cast_sem (k : CastKind) (from to x : Z) : Z :=
  match k with
  | ZExt => BV.wrap to x
  | SExt => BV.wrap to (BV.signed from x)
  end.

Definition b2z (b : bool) : Z := if b then 1 else 0.

(** ** The operations [ConstantExpr] calls *)

Class APIntOps := {
  ap_make : Z -> Z -> apint;             (* APInt(width, uint64_t) *)
  ap_add : apint -> apint -> apint;
  ap_sub : apint -> apint -> apint;
  ap_mul : apint -> apint -> apint;
  ap_udiv : apint -> apint -> apint;
  ap_sdiv : apint -> apint -> apint;
  ap_urem : apint -> apint -> apint;
  ap_srem : apint -> apint -> apint;
  ap_and : apint -> apint -> apint;
  ap_or : apint -> apint -> apint;
  ap_xor : apint -> apint -> apint;
  ap_shl : apint -> apint -> apint;
  ap_lshr : apint -> apint -> apint;
  ap_ashr : apint -> apint -> apint;
  ap_neg : apint -> apint;
  ap_not : apint -> apint;
  ap_shl_amt : apint -> Z -> apint;      (* operator<<=(unsigned) *)
  ap_ashr_amt : apint -> Z -> apint;     (* ashr(unsigned) *)
  ap_zext : apint -> Z -> apint;         (* zext(unsigned) *)
  ap_zextOrTrunc : apint -> Z -> apint;
  ap_sextOrTrunc : apint -> Z -> apint;
  ap_eq : apint -> apint -> bool;
  ap_ult : apint -> apint -> bool;
  ap_ule : apint -> apint -> bool;
  ap_slt : apint -> apint -> bool;
  ap_sle : apint -> apint -> bool;
  ap_ugt : apint -> apint -> bool;
  ap_uge : apint -> apint -> bool;
  ap_sgt : apint -> apint -> bool;
  ap_sge : apint -> apint -> bool;
  ap_isMinValue : apint -> bool;
  ap_isAllOnesValue : apint -> bool;
  ap_getBoolValue : apint -> bool;
  ap_getZExtValue : apint -> Z;
  ap_getLimitedValue : apint -> Z -> Z;
  ap_hash_value : apint -> Z;            (* llvm::hash_value(const APInt &) *)
}.

(** The APInt operator behind each arithmetic and comparison kind. *)
Definition ap_arith `{APIntOps} (k : ArithKind) : apint -> apint -> apint :=
  match k with
  | Add => ap_add | Sub => ap_sub | Mul => ap_mul
  | UDiv => ap_udiv | SDiv => ap_sdiv | URem => ap_urem | SRem => ap_srem
  | And => ap_and | Or => ap_or | Xor => ap_xor
  | Shl => ap_shl | LShr => ap_lshr | AShr => ap_ashr
  end.

Definition ap_cmp `{APIntOps} (k : CmpKind) (a b : apint) : bool :=
  match k with
  | Eq => ap_eq a b | Ne => negb (ap_eq a b)
  | Ult => ap_ult a b | Ule => ap_ule a b | Ugt => ap_ugt a b | Uge => ap_uge a b
  | Slt => ap_slt a b | Sle => ap_sle a b | Sgt => ap_sgt a b | Sge => ap_sge a b
  end.

(** Documented behaviour, on well-formed operands of one width. *)
Class APIntSpec (A : APIntOps) : Prop := {
  ap_make_spec w v : 0 < w -> 0 <= v < 2 ^ 64 -> ap_make w v = APInt w (BV.wrap w v);
  ap_arith_spec k a b z :
    ap_valid a = true -> ap_valid b = true -> ap_width a = ap_width b ->
    arith_sem k (ap_width a) (ap_val a) (ap_val b) = Some z ->
    ap_arith k a b = APInt (ap_width a) z;
  (* the result has the operands' width, also where its value is not specified
     (a division by zero) *)
  ap_arith_width k a b :
    ap_valid a = true -> ap_valid b = true -> ap_width a = ap_width b ->
    ap_valid (ap_arith k a b) = true /\ ap_width (ap_arith k a b) = ap_width a;
  ap_cmp_spec k a b :
    ap_valid a = true -> ap_valid b = true -> ap_width a = ap_width b ->
    ap_cmp k a b = cmp_sem k (ap_width a) (ap_val a) (ap_val b);
  ap_neg_spec a : ap_valid a = true -> ap_neg a = APInt (ap_width a) (BV.wrap (ap_width a) (- ap_val a));
  ap_not_spec a :
    ap_valid a = true -> ap_not a = APInt (ap_width a) (2 ^ ap_width a - 1 - ap_val a);
  ap_shl_amt_spec a n :
    ap_valid a = true -> 0 <= n <= ap_width a ->
    ap_shl_amt a n = APInt (ap_width a) (BV.wrap (ap_width a) (ap_val a * 2 ^ n));
  ap_ashr_amt_spec a n :
    ap_valid a = true -> 0 <= n <= ap_width a ->
    ap_ashr_amt a n =
      APInt (ap_width a) (BV.wrap (ap_width a) (BV.signed (ap_width a) (ap_val a) / 2 ^ n));
  ap_zext_spec a w : ap_valid a = true -> ap_width a < w -> ap_zext a w = APInt w (ap_val a);
  ap_zextOrTrunc_spec a w :
    ap_valid a = true -> 0 < w ->
    ap_zextOrTrunc a w = APInt w (cast_sem ZExt (ap_width a) w (ap_val a));
  ap_sextOrTrunc_spec a w :
    ap_valid a = true -> 0 < w ->
    ap_sextOrTrunc a w = APInt w (cast_sem SExt (ap_width a) w (ap_val a));
  ap_isMinValue_spec a : ap_valid a = true -> ap_isMinValue a = (ap_val a =? 0);
  ap_isAllOnesValue_spec a :
    ap_valid a = true -> ap_isAllOnesValue a = (ap_val a =? 2 ^ ap_width a - 1);
  ap_getBoolValue_spec a : ap_valid a = true -> ap_getBoolValue a = negb (ap_val a =? 0);
  ap_getZExtValue_spec a :
    ap_valid a = true -> ap_width a <= 64 -> ap_getZExtValue a = ap_val a;
  ap_getLimitedValue_spec a l :
    ap_valid a = true -> 0 <= l < 2 ^ 64 -> ap_getLimitedValue a l = Z.min (ap_val a) l;
}.

(** ** A concrete instance: the reference semantics itself. *)

Definition ref_arith (k : ArithKind) (a b : apint) : apint :=
  APInt (ap_width a) (default 0 (arith_sem k (ap_width a) (ap_val a) (ap_val b))).
Definition ref_cmp (k : CmpKind) (a b : apint) : bool :=
  cmp_sem k (ap_width a) (ap_val a) (ap_val b).

Definition apint_ref : APIntOps := {|
  ap_make w v := APInt w (BV.wrap w v);
  ap_add := ref_arith Add; ap_sub := ref_arith Sub; ap_mul := ref_arith Mul;
  ap_udiv := ref_arith UDiv; ap_sdiv := ref_arith SDiv;
  ap_urem := ref_arith URem; ap_srem := ref_arith SRem;
  ap_and := ref_arith And; ap_or := ref_arith Or; ap_xor := ref_arith Xor;
  ap_shl := ref_arith Shl; ap_lshr := ref_arith LShr; ap_ashr := ref_arith AShr;
  ap_neg a := APInt (ap_width a) (BV.wrap (ap_width a) (- ap_val a));
  ap_not a := APInt (ap_width a) (2 ^ ap_width a - 1 - ap_val a);
  ap_shl_amt a n := APInt (ap_width a) (BV.wrap (ap_width a) (ap_val a * 2 ^ n));
  ap_ashr_amt a n :=
    APInt (ap_width a) (BV.wrap (ap_width a) (BV.signed (ap_width a) (ap_val a) / 2 ^ n));
  ap_zext a w := APInt w (ap_val a);
  ap_zextOrTrunc a w := APInt w (cast_sem ZExt (ap_width a) w (ap_val a));
  ap_sextOrTrunc a w := APInt w (cast_sem SExt (ap_width a) w (ap_val a));
  ap_eq := ref_cmp Eq; ap_ult := ref_cmp Ult; ap_ule := ref_cmp Ule;
  ap_slt := ref_cmp Slt; ap_sle := ref_cmp Sle; ap_ugt := ref_cmp Ugt;
  ap_uge := ref_cmp Uge; ap_sgt := ref_cmp Sgt; ap_sge := ref_cmp Sge;
  ap_isMinValue a := ap_val a =? 0;
  ap_isAllOnesValue a := ap_val a =? 2 ^ ap_width a - 1;
  ap_getBoolValue a := negb (ap_val a =? 0);
  ap_getZExtValue a := ap_val a;
  ap_getLimitedValue a l := Z.min (ap_val a) l;
  ap_hash_value a := BV.wrap 64 (ap_val a);
|}.

(** ** Facts about the reference semantics *)

Lemma arith_sem_range k w x y z :
  0 < w -> 0 <= x < 2 ^ w -> 0 <= y < 2 ^ w -> arith_sem k w x y = Some z -> 0 <= z < 2 ^ w.
Proof.
  intros Hw Hx Hy. pose proof (BV.pow2_pos w ltac:(lia)).
  destruct k; cbn; zcases; intros; simplify_eq; try lia;
    try (apply BV.wrap_range; lia);
    try (first [apply BV.land_range | apply BV.lor_range | apply BV.lxor_range]; lia).
  - split; [apply Z.div_pos; lia|]. apply Z.div_lt_upper_bound; nia.
  - pose proof (Z.mod_pos_bound x y ltac:(lia)). lia.
  - apply BV.div_pow2_range; lia.
Qed.

Lemma cast_sem_range k f t x : 0 < t -> 0 <= cast_sem k f t x < 2 ^ t.
Proof. intros. destruct k; apply BV.wrap_range; lia. Qed.

Lemma b2z_range b : 0 <= b2z b < 2 ^ 1.
Proof. destruct b; cbn; lia. Qed.

Lemma apint_ref_spec : APIntSpec apint_ref.
Proof.
  assert (E : forall k a b, ap_arith (H:=apint_ref) k a b = ref_arith k a b) by (now intros []).
  constructor; intros; try reflexivity; rewrite E; unfold ref_arith.
  - now rewrite H2.
  - rewrite ap_valid_spec in *. cbn. split; [split; [lia|]|done].
    destruct (arith_sem _ _ _ _) eqn:Es; cbn; [|lia].
    eapply arith_sem_range; [..|exact Es]; try lia. now rewrite H1.
Qed.
