(* ===== verification/Expr.v ===== *)
(** * Expressions: data, widths, hashes and the structural order

    The class hierarchy of src/include/klee/Expr/Expr.h as mutually inductive
    types, the hash functions of src/lib/Expr/Expr.cpp and
    src/lib/Expr/Updates.cpp on 32-bit words, and [Expr::compare],
    [UpdateNode::compare] and [UpdateList::compare].

    A [ref<T>] is the value it points to; a null [ref<UpdateNode>] is
    [un_null].  The provenance fields ([kinst], [flags]) and the reference
    counts are not part of the data: no operation modelled here reads them.
    An [Array] is identified by its address [arr_addr]. *)

From stdpp Require Import strings.
From Stdlib Require Import Ascii.
From S2P Require Import Prelude APInt.

Record Array := mkArray {
  arr_addr : Z;
  name : string;
  size : Z;
  domain : Z;
  range : Z;
  constantValues : list apint
}.

#[export] Instance Array_eq_dec : EqDecision Array.
Proof. solve_decision. Defined.

Definition isConstantArray (a : Array) : bool :=
  match constantValues a with [] => false | _ => true end.
Definition isSymbolicArray (a : Array) : bool := negb (isConstantArray a).

Inductive Expr :=
| ConstantExpr (value : apint)
| NotOptimizedExpr (src : Expr)
| ReadExpr (root : Array) (head : UpdateNode) (index : Expr)
| SelectExpr (cond trueExpr falseExpr : Expr)
| ConcatExpr (left right : Expr)
| ExtractExpr (expr : Expr) (offset width : Z)
| CastExpr (k : CastKind) (src : Expr) (width : Z)
| NotExpr (expr : Expr)
| BinaryExpr (k : ArithKind) (left right : Expr)
| CmpExpr (k : CmpKind) (left right : Expr)
with UpdateNode :=
| un_null
| un_node (next : UpdateNode) (index value : Expr).

Scheme Expr_mut := Induction for Expr Sort Prop
  with UpdateNode_mut := Induction for UpdateNode Sort Prop.
Combined Scheme Expr_UpdateNode_ind from Expr_mut, UpdateNode_mut.

Fixpoint Expr_dec (a b : Expr) : {a = b} + {a <> b}
with UpdateNode_dec (a b : UpdateNode) : {a = b} + {a <> b}.
Proof. all: decide equality; apply decide; apply _. Defined.

#[export] Instance Expr_eq_dec : EqDecision Expr := Expr_dec.
#[export] Instance UpdateNode_eq_dec : EqDecision UpdateNode := UpdateNode_dec.

(** An update list: the array and its most recent update. *)
Record UpdateList := mkUpdateList { ul_root : Array; ul_head : UpdateNode }.

Definition Bool : Z := 1.
Definition Int8 : Z := 8.
Definition Int16 : Z := 16.
Definition Int32 : Z := 32.
Definition Int64 : Z := 64.
Definition Fl80 : Z := 80.

(** [Expr::getWidth] *)
Fixpoint getWidth (e : Expr) : Z :=
  match e with
  | ConstantExpr c => ap_width c
  | NotOptimizedExpr s => getWidth s
  | ReadExpr r _ _ => range r
  | SelectExpr _ t _ => getWidth t
  | ConcatExpr l r => getWidth l + getWidth r
  | ExtractExpr _ _ w => w
  | CastExpr _ _ w => w
  | NotExpr x => getWidth x
  | BinaryExpr _ l _ => getWidth l
  | CmpExpr _ _ _ => Bool
  end.

(** [Expr::Kind]: the value of the enumerator.  [Read = NotOptimized + 2]. *)
Definition arith_kind (k : ArithKind) : Z :=
  match k with
  | Add => 10 | Sub => 11 | Mul => 12 | UDiv => 13 | SDiv => 14 | URem => 15 | SRem => 16
  | And => 17 | Or => 18 | Xor => 19 | Shl => 20 | LShr => 21 | AShr => 22
  end.

Definition cmp_kind (k : CmpKind) : Z :=
  match k with
  | Eq => 23 | Ne => 24 | Ult => 25 | Ule => 26 | Ugt => 27 | Uge => 28
  | Slt => 29 | Sle => 30 | Sgt => 31 | Sge => 32
  end.

Definition cast_kind (k : CastKind) : Z := match k with ZExt => 7 | SExt => 8 end.

Definition getKind (e : Expr) : Z :=
  match e with
  | ConstantExpr _ => 0
  | NotOptimizedExpr _ => 1
  | ReadExpr _ _ _ => 3
  | SelectExpr _ _ _ => 4
  | ConcatExpr _ _ => 5
  | ExtractExpr _ _ _ => 6
  | CastExpr k _ _ => cast_kind k
  | NotExpr _ => 9
  | BinaryExpr k _ _ => arith_kind k
  | CmpExpr k _ _ => cmp_kind k
  end.

(** [UpdateNode::getSize] (the [size] field the constructor computes) and
    [UpdateList::getSize]. *)
Fixpoint un_size (u : UpdateNode) : Z :=
  match u with un_null => 0 | un_node n _ _ => 1 + un_size n end.

(** ** Hashing *)

Definition MAGIC_HASH_CONSTANT : Z := 39.

Definition u32 (x : Z) : Z := BV.wrap 32 x.

Fixpoint name_hash (s : string) (res : Z) : Z :=
  match s with
  | EmptyString => res
  | String c s =>
    let ch := Z.of_N (N_of_ascii c) in
    (* char is signed *)
    name_hash s (u32 (res * MAGIC_HASH_CONSTANT + (if ch <? 128 then ch else ch - 256)))
  end.

(** [Array::computeHash] *)
Definition Array_computeHash (a : Array) : Z :=
  u32 (name_hash (name a) 0 * MAGIC_HASH_CONSTANT + size a).

Section Hash.
Context `{APIntOps}.

(** [ConstantExpr::computeHash] *)
Definition ConstantExpr_computeHash (c : apint) : Z :=
  let w := ap_width c in
  if w <=? 64
  then u32 (Z.lxor (ap_getLimitedValue c (2 ^ 64 - 1)) (u32 (w * MAGIC_HASH_CONSTANT)))
  else u32 (Z.lxor (ap_hash_value c) (u32 (w * MAGIC_HASH_CONSTANT))).

(** The body of [Expr::computeHash]'s loop over the kids. *)
Definition hash_kid (res kid_hash : Z) : Z :=
  Z.lxor (u32 (Z.shiftl res 1)) (u32 (kid_hash * MAGIC_HASH_CONSTANT)).

(** [computeHash] of every class; [UpdateNode::computeHash], and
    [UpdateList::hash] inlined in the [ReadExpr] case. *)
Fixpoint hash (e : Expr) : Z :=
  match e with
  | ConstantExpr c => ConstantExpr_computeHash c
  | NotOptimizedExpr s => hash_kid (u32 (getKind e * MAGIC_HASH_CONSTANT)) (hash s)
  | ReadExpr r h i =>
    Z.lxor (u32 (hash i * MAGIC_HASH_CONSTANT))
           (match h with
            | un_null => name_hash (name r) 0
            | _ => Z.lxor (name_hash (name r) 0) (un_hash h)
            end)
  | SelectExpr c t f =>
    hash_kid (hash_kid (hash_kid (u32 (getKind e * MAGIC_HASH_CONSTANT)) (hash c)) (hash t)) (hash f)
  | ConcatExpr l r | BinaryExpr _ l r | CmpExpr _ l r =>
    hash_kid (hash_kid (u32 (getKind e * MAGIC_HASH_CONSTANT)) (hash l)) (hash r)
  | ExtractExpr x o w =>
    Z.lxor (Z.lxor (u32 (o * MAGIC_HASH_CONSTANT)) (u32 (w * MAGIC_HASH_CONSTANT)))
           (u32 (hash x * MAGIC_HASH_CONSTANT))
  | CastExpr _ s w =>
    Z.lxor (u32 (w * MAGIC_HASH_CONSTANT)) (u32 (hash s * MAGIC_HASH_CONSTANT))
  | NotExpr x => u32 (hash x * MAGIC_HASH_CONSTANT * 9)
  end
with un_hash (u : UpdateNode) : Z :=
  match u with
  | un_null => 0
  | un_node n i v =>
    match n with
    | un_null => Z.lxor (hash i) (hash v)
    | _ => Z.lxor (Z.lxor (hash i) (hash v)) (un_hash n)
    end
  end.

(** ** The structural order

    [cmpZ] is the [a < b ? -1 : 1] idiom on distinct integers; [lex] is
    [if (int res = ...) return res;]. *)

Definition cmpZ (a b : Z) : Z := if a =? b then 0 else if a <? b then -1 else 1.
Definition lex (r : Z) (k : Z) : Z := if r =? 0 then k else r.

(** [ConstantExpr::compareContents] *)
Definition ConstantExpr_compareContents (a b : apint) : Z :=
  if negb (ap_width a =? ap_width b) then (if ap_width a <? ap_width b then -1 else 1)
  else if ap_eq a b then 0
  else if ap_ult a b then -1 else 1.

(** [std::string] comparison: lexicographic on unsigned characters. *)
Fixpoint string_cmp (a b : string) : Z :=
  match a, b with
  | EmptyString, EmptyString => 0
  | EmptyString, _ => -1
  | _, EmptyString => 1
  | String x a, String y b =>
    lex (cmpZ (Z.of_N (N_of_ascii x)) (Z.of_N (N_of_ascii y))) (string_cmp a b)
  end.

(** The root part of [UpdateList::compare]: names, then object identity. *)
Definition root_compare (a b : Array) : Z :=
  lex (string_cmp (name a) (name b))
      (if decide (a = b) then 0 else if arr_addr a <? arr_addr b then -1 else 1).

(** [Expr::compare_internal] and [UpdateNode::compare].  The shortcuts for
    identical pointers and for pairs in the equivalence caches answer 0 on
    nodes that are structurally equal, as this function does. *)
Fixpoint compare (a b : Expr) {struct a} : Z :=
  match a, b with
  | ConstantExpr x, ConstantExpr y => ConstantExpr_compareContents x y
  | _, _ =>
    lex (cmpZ (getKind a) (getKind b)) (
    lex (cmpZ (hash a) (hash b)) (
    match a, b with
    | NotOptimizedExpr x, NotOptimizedExpr y => compare x y
    | ReadExpr r h i, ReadExpr r' h' i' =>
      lex (lex (root_compare r r') (lex (cmpZ (un_size h) (un_size h')) (un_compare h h')))
          (compare i i')
    | SelectExpr c t f, SelectExpr c' t' f' =>
      lex (compare c c') (lex (compare t t') (compare f f'))
    | ConcatExpr l r, ConcatExpr l' r' =>
      lex (cmpZ (getWidth a) (getWidth b)) (lex (compare l l') (compare r r'))
    | ExtractExpr x o w, ExtractExpr x' o' w' =>
      lex (lex (cmpZ o o') (cmpZ w w')) (compare x x')
    | CastExpr _ x w, CastExpr _ x' w' => lex (cmpZ w w') (compare x x')
    | NotExpr x, NotExpr x' => compare x x'
    | BinaryExpr _ l r, BinaryExpr _ l' r' => lex (compare l l') (compare r r')
    | CmpExpr _ l r, CmpExpr _ l' r' => lex (compare l l') (compare r r')
    | _, _ => 0
    end))
  end
with un_compare (a b : UpdateNode) {struct a} : Z :=
  match a, b with
  | un_node n i v, un_node n' i' v' =>
    lex (cmpZ (un_hash a) (un_hash b)) (
    lex (compare i i') (
    lex (compare v v') (
    lex (cmpZ (un_size a) (un_size b)) (un_compare n n'))))
  | un_null, un_null => 0
  | un_null, un_node _ _ _ => -1
  | un_node _ _ _, un_null => 1
  end.

(** [UpdateList::compare] *)
Definition UpdateList_compare (a b : UpdateList) : Z :=
  lex (root_compare (ul_root a) (ul_root b))
      (lex (cmpZ (un_size (ul_head a)) (un_size (ul_head b)))
           (un_compare (ul_head a) (ul_head b))).

(** [operator==] and [operator<] on expressions and on [ref<Expr>]. *)
Definition Expr_eqb (a b : Expr) : bool := compare a b =? 0.
Definition Expr_ltb (a b : Expr) : bool := compare a b <? 0.

End Hash.
