(* ===== verification/ExprOrder.v ===== *)
(** * [Expr::compare] is a total order whose 0 is structural equality

    Expressions are kept in [std::set]s and [std::map]s ordered by
    [Expr::compare] and tested with [operator==]; this file shows that the
    comparison is lawful: 0 exactly on equal expressions, antisymmetric and
    transitive. *)

From stdpp Require Import strings.
From Stdlib Require Import Ascii.
From S2P Require Import Prelude APInt Expr.

(** Every constant of the expression is well formed. *)
Fixpoint wf_consts (e : Expr) : bool :=
  match e with
  | ConstantExpr c => ap_valid c
  | NotOptimizedExpr x | ExtractExpr x _ _ | CastExpr _ x _ | NotExpr x => wf_consts x
  | ReadExpr _ h i => un_wf_consts h && wf_consts i
  | SelectExpr c t f => wf_consts c && wf_consts t && wf_consts f
  | ConcatExpr l r | BinaryExpr _ l r | CmpExpr _ l r => wf_consts l && wf_consts r
  end
with un_wf_consts (u : UpdateNode) : bool :=
  match u with
  | un_null => true
  | un_node n i v => un_wf_consts n && wf_consts i && wf_consts v
  end.

(** The arrays an expression mentions. *)
Fixpoint arrays (e : Expr) : list Array :=
  match e with
  | ConstantExpr _ => []
  | NotOptimizedExpr x | ExtractExpr x _ _ | CastExpr _ x _ | NotExpr x => arrays x
  | ReadExpr r h i => r :: un_arrays h ++ arrays i
  | SelectExpr c t f => arrays c ++ arrays t ++ arrays f
  | ConcatExpr l r | BinaryExpr _ l r | CmpExpr _ l r => arrays l ++ arrays r
  end
with un_arrays (u : UpdateNode) : list Array :=
  match u with
  | un_null => []
  | un_node n i v => un_arrays n ++ arrays i ++ arrays v
  end.

(** One array object per address. *)
Definition one_per_address (l : list Array) : Prop :=
  forall a b, a ∈ l -> b ∈ l -> arr_addr a = arr_addr b -> a = b.

Lemma one_per_address_incl l l' : l ⊆ l' -> one_per_address l' -> one_per_address l.
Proof. intros Hs H a b Ha Hb. apply H; auto. Qed.

(** ** Lexicographic combination

    [Tri x y z] relates the results of comparing [a] with [b], [b] with [c]
    and [a] with [c] when the comparison is transitive on them. *)

Definition Tri (x y z : Z) : Prop :=
  (x = 0 -> z = y) /\ (y = 0 -> z = x) /\ (x < 0 -> y < 0 -> z < 0) /\ (0 < x -> 0 < y -> 0 < z).

Lemma lex_0 r k : lex r k = 0 <-> r = 0 /\ k = 0.
Proof. unfold lex. destruct (Z.eqb_spec r 0); lia. Qed.

Lemma cmpZ_0 a b : cmpZ a b = 0 <-> a = b.
Proof. unfold cmpZ. zcases; lia. Qed.

Lemma cmpZ_opp a b : cmpZ b a = - cmpZ a b.
Proof. unfold cmpZ. zcases; lia. Qed.

Lemma lex_opp r k r' k' : r' = - r -> (r = 0 -> k' = - k) -> lex r' k' = - lex r k.
Proof. unfold lex. zcases; intros; try lia; auto. Qed.

Lemma Tri_cmpZ a b c : Tri (cmpZ a b) (cmpZ b c) (cmpZ a c).
Proof. unfold Tri, cmpZ. zcases; lia. Qed.

Lemma Tri_lex x y z x' y' z' :
  Tri x y z -> (x = 0 -> y = 0 -> Tri x' y' z') -> Tri (lex x x') (lex y y') (lex z z').
Proof. unfold Tri, lex. intros. zcases; lia. Qed.

Lemma string_cmp_eq a b : string_cmp a b = 0 <-> a = b.
Proof.
  revert b; induction a as [|x a IH]; intros [|y b]; cbn; try (split; [lia || done|done]).
  rewrite lex_0, cmpZ_0, IH. split; [|intros [= -> ->]; done].
  intros [H ->]. f_equal. rewrite <- (ascii_N_embedding x), <- (ascii_N_embedding y). f_equal. lia.
Qed.

Lemma string_cmp_opp a b : string_cmp b a = - string_cmp a b.
Proof.
  revert b; induction a as [|x a IH]; intros [|y b]; cbn; try done.
  apply lex_opp; [apply cmpZ_opp|auto].
Qed.

Lemma Tri_string a b c : Tri (string_cmp a b) (string_cmp b c) (string_cmp a c).
Proof.
  revert b c; induction a as [|x a IH]; intros [|y b] [|z c]; cbn; try (unfold Tri; lia).
  apply Tri_lex; [apply Tri_cmpZ|auto].
Qed.

Lemma root_compare_eq a b : root_compare a b = 0 <-> a = b.
Proof.
  unfold root_compare. rewrite lex_0, string_cmp_eq. case_decide; [naive_solver|].
  destruct (_ <? _); naive_solver lia.
Qed.

Lemma root_compare_addr a b :
  (arr_addr a = arr_addr b -> a = b) ->
  root_compare a b = lex (string_cmp (name a) (name b)) (cmpZ (arr_addr a) (arr_addr b)).
Proof.
  intros. unfold root_compare, cmpZ. f_equal. case_decide as Heq.
  - rewrite Heq. now rewrite Z.eqb_refl.
  - destruct (Z.eqb_spec (arr_addr a) (arr_addr b)); naive_solver.
Qed.

Lemma root_compare_opp a b :
  (arr_addr a = arr_addr b -> a = b) -> root_compare b a = - root_compare a b.
Proof.
  intros H. rewrite !root_compare_addr by naive_solver.
  apply lex_opp; [apply string_cmp_opp|]. intros. apply cmpZ_opp.
Qed.

Lemma Tri_root a b c :
  one_per_address [a; b; c] -> Tri (root_compare a b) (root_compare b c) (root_compare a c).
Proof.
  intros H. rewrite !root_compare_addr by (apply H; set_solver).
  apply Tri_lex; [apply Tri_string|]. intros. apply Tri_cmpZ.
Qed.

(** ** The comparison of expressions *)

Lemma arith_kind_inj k k' : arith_kind k = arith_kind k' -> k = k'.
Proof. destruct k, k'; done. Qed.
Lemma cmp_kind_inj k k' : cmp_kind k = cmp_kind k' -> k = k'.
Proof. destruct k, k'; done. Qed.
Lemma cast_kind_inj k k' : cast_kind k = cast_kind k' -> k = k'.
Proof. destruct k, k'; done. Qed.

(** Equal kinds give equal constructors. *)
Definition same_ctor (a b : Expr) : Prop :=
  match a, b with
  | ConstantExpr _, ConstantExpr _ | NotOptimizedExpr _, NotOptimizedExpr _
  | ReadExpr _ _ _, ReadExpr _ _ _ | SelectExpr _ _ _, SelectExpr _ _ _
  | ConcatExpr _ _, ConcatExpr _ _ | ExtractExpr _ _ _, ExtractExpr _ _ _
  | NotExpr _, NotExpr _ => True
  | CastExpr k _ _, CastExpr k' _ _ => k = k'
  | BinaryExpr k _ _, BinaryExpr k' _ _ => k = k'
  | CmpExpr k _ _, CmpExpr k' _ _ => k = k'
  | _, _ => False
  end.

Lemma getKind_same_ctor a b : getKind a = getKind b -> same_ctor a b.
Proof.
  destruct a, b; cbn; try done;
    auto using arith_kind_inj, cmp_kind_inj, cast_kind_inj;
    repeat match goal with
    | k : ArithKind |- _ => destruct k
    | k : CmpKind |- _ => destruct k
    | k : CastKind |- _ => destruct k
    end; done.
Qed.

Section Order.
Context `{A : APIntOps} {AS : APIntSpec A}.

Lemma contents_eq x y :
  ap_valid x = true -> ap_valid y = true -> ConstantExpr_compareContents x y = 0 <-> x = y.
Proof.
  intros Hx Hy. unfold ConstantExpr_compareContents.
  destruct (Z.eqb_spec (ap_width x) (ap_width y)) as [E|]; cbn;
    [|split; [destruct (_ <? _); lia|congruence]].
  pose proof (ap_cmp_spec Eq x y Hx Hy E) as HE. cbn in HE. rewrite HE.
  destruct (Z.eqb_spec (ap_val x) (ap_val y)).
  - split; [|done]. destruct x, y; cbn in *; congruence.
  - split; [destruct (ap_ult x y); lia|]. intros ->. done.
Qed.

Lemma contents_cmp x y :
  ap_valid x = true -> ap_valid y = true ->
  ConstantExpr_compareContents x y =
  lex (cmpZ (ap_width x) (ap_width y)) (cmpZ (ap_val x) (ap_val y)).
Proof.
  intros Hx Hy. unfold ConstantExpr_compareContents, lex, cmpZ.
  destruct (Z.eqb_spec (ap_width x) (ap_width y)) as [E|]; cbn; [|destruct (_ <? _); done].
  pose proof (ap_cmp_spec Eq x y Hx Hy E) as HE. pose proof (ap_cmp_spec Ult x y Hx Hy E) as HU.
  cbn in HE, HU. now rewrite HE, HU.
Qed.

(** The comparison of attributes and kids that [compare] reaches on two
    expressions of one kind and hash. *)
Definition kid_compare (a b : Expr) : Z :=
  match a, b with
  | NotOptimizedExpr x, NotOptimizedExpr y => compare x y
  | ReadExpr r h i, ReadExpr r' h' i' =>
    lex (lex (root_compare r r') (lex (cmpZ (un_size h) (un_size h')) (un_compare h h')))
        (compare i i')
  | SelectExpr c t f, SelectExpr c' t' f' =>
    lex (compare c c') (lex (compare t t') (compare f f'))
  | ConcatExpr l r, ConcatExpr l' r' =>
    lex (cmpZ (getWidth a) (getWidth b)) (lex (compare l l') (compare r r'))
  | ExtractExpr x o w, ExtractExpr x' o' w' => lex (lex (cmpZ o o') (cmpZ w w')) (compare x x')
  | CastExpr _ x w, CastExpr _ x' w' => lex (cmpZ w w') (compare x x')
  | NotExpr x, NotExpr x' => compare x x'
  | BinaryExpr _ l r, BinaryExpr _ l' r' => lex (compare l l') (compare r r')
  | CmpExpr _ l r, CmpExpr _ l' r' => lex (compare l l') (compare r r')
  | _, _ => 0
  end.

Definition is_const (e : Expr) : bool := match e with ConstantExpr _ => true | _ => false end.

Lemma compare_lex a b :
  is_const a && is_const b = false ->
  compare a b = lex (cmpZ (getKind a) (getKind b)) (lex (cmpZ (hash a) (hash b)) (kid_compare a b)).
Proof. destruct a, b; reflexivity || discriminate. Qed.

Ltac split_wf :=
  repeat match goal with
  | H : _ && _ = true |- _ => apply andb_true_iff in H as [??]
  end.

Lemma compare_eq_mut :
  (forall a b, wf_consts a = true -> wf_consts b = true -> compare a b = 0 -> a = b) /\
  (forall u v, un_wf_consts u = true -> un_wf_consts v = true -> un_compare u v = 0 -> u = v).
Proof.
  apply Expr_UpdateNode_ind.
  { intros c b Hc Hb. destruct (is_const b) eqn:Eb.
    - destruct b; try done. intros H. f_equal. now apply contents_eq.
    - rewrite compare_lex by (now rewrite Eb). rewrite lex_0, cmpZ_0.
      intros [Hk _]. apply getKind_same_ctor in Hk. destruct b; done. }
  10: { intros [] ??; [done|cbn; lia]. }
  10: { intros n IHn i IHi v IHv [] Hu Hv; [cbn; lia|].
        cbn [un_compare un_wf_consts] in *. split_wf. rewrite !lex_0.
        intros. destruct_and?. f_equal; auto. }
  all: intros; match goal with H : compare _ _ = 0 |- _ => revert H end;
    rewrite compare_lex by done; rewrite !lex_0, !cmpZ_0;
    intros (Hk & _ & Hc); apply getKind_same_ctor in Hk;
    match goal with |- _ = ?b => destruct b; try done end;
    cbn [wf_consts same_ctor kid_compare] in *; split_wf;
    rewrite ?lex_0, ?cmpZ_0, ?root_compare_eq in Hc; destruct_and?; subst; f_equal; auto.
Qed.

Lemma compare_refl_mut :
  (forall a, wf_consts a = true -> compare a a = 0) /\
  (forall u, un_wf_consts u = true -> un_compare u u = 0).
Proof.
  apply Expr_UpdateNode_ind.
  { intros c Hc. now apply contents_eq. }
  10: done.
  10: { intros n IHn i IHi v IHv H. cbn [un_compare un_wf_consts] in *. split_wf.
        rewrite !lex_0, !cmpZ_0. split_and!; auto. }
  all: intros; rewrite compare_lex by done; rewrite !lex_0, !cmpZ_0; split_and!; [done|done|];
    cbn [wf_consts kid_compare] in *; split_wf;
    rewrite ?lex_0, ?cmpZ_0, ?root_compare_eq; split_and?; auto.
Qed.

Lemma Expr_eqb_eq a b :
  wf_consts a = true -> wf_consts b = true -> Expr_eqb a b = true <-> a = b.
Proof.
  intros Ha Hb. unfold Expr_eqb. rewrite Z.eqb_eq. split.
  - now apply compare_eq_mut.
  - intros ->. now apply compare_refl_mut.
Qed.


(** Antisymmetry and transitivity, by lexicographic combination. *)
Lemma compare_opp_mut :
  (forall a b, wf_consts a = true -> wf_consts b = true ->
     one_per_address (arrays a ++ arrays b) -> compare b a = - compare a b) /\
  (forall u v, un_wf_consts u = true -> un_wf_consts v = true ->
     one_per_address (un_arrays u ++ un_arrays v) -> un_compare v u = - un_compare u v).
Proof.
  apply Expr_UpdateNode_ind.
  { intros c b Hc Hb _. destruct (is_const b) eqn:Eb.
    - destruct b; try done. cbn in *. rewrite !contents_cmp by done.
      apply lex_opp; intros; apply cmpZ_opp.
    - rewrite !compare_lex by (cbn; now rewrite ?Eb). apply lex_opp; [apply cmpZ_opp|].
      rewrite cmpZ_0. intros Hk. apply getKind_same_ctor in Hk. destruct b; done. }
  10: { intros []; done. }
  10: { intros n IHn i IHi v IHv [] Hu Hv Ho; [done|].
        cbn [un_compare un_wf_consts un_arrays] in *. split_wf.
        repeat first [apply lex_opp; [try apply cmpZ_opp|intros _]
          | match goal with IH : _ |- _ => apply IH; [done|done|] end].
        all: eapply one_per_address_incl, Ho; set_solver. }
  all: intros; match goal with H : one_per_address _ |- compare ?b ?a = _ =>
         rename H into Ho; rewrite !(compare_lex a b), !(compare_lex b a) by (cbn; now rewrite ?andb_false_r) end;
    apply lex_opp; [apply cmpZ_opp|]; rewrite cmpZ_0; intros Hk; apply getKind_same_ctor in Hk;
    apply lex_opp; [apply cmpZ_opp|intros _];
    match goal with |- kid_compare ?b _ = _ => destruct b; try done end;
    cbn [wf_consts same_ctor kid_compare arrays] in *; split_wf;
    repeat first [apply cmpZ_opp
      | apply root_compare_opp; apply Ho; set_solver
      | apply lex_opp; [|intros _]
      | match goal with IH : _ |- _ => apply IH; [done|done|] end];
    eapply one_per_address_incl, Ho; set_solver.
Qed.


Lemma compare_kind a b : compare a b = lex (cmpZ (getKind a) (getKind b)) (compare a b).
Proof.
  destruct (is_const a && is_const b) eqn:E.
  - destruct a, b; done.
  - rewrite compare_lex by done. unfold lex. now destruct (cmpZ _ _ =? 0).
Qed.

Lemma Tri_same_ctor a b c :
  (same_ctor a b -> same_ctor b c -> Tri (compare a b) (compare b c) (compare a c)) ->
  Tri (compare a b) (compare b c) (compare a c).
Proof.
  intros H. rewrite (compare_kind a b), (compare_kind b c), (compare_kind a c).
  apply Tri_lex; [apply Tri_cmpZ|]. rewrite !cmpZ_0. auto using getKind_same_ctor.
Qed.

Lemma compare_Tri_mut :
  (forall a b c, wf_consts a = true -> wf_consts b = true -> wf_consts c = true ->
     one_per_address (arrays a ++ arrays b ++ arrays c) ->
     Tri (compare a b) (compare b c) (compare a c)) /\
  (forall u v t, un_wf_consts u = true -> un_wf_consts v = true -> un_wf_consts t = true ->
     one_per_address (un_arrays u ++ un_arrays v ++ un_arrays t) ->
     Tri (un_compare u v) (un_compare v t) (un_compare u t)).
Proof.
  apply Expr_UpdateNode_ind.
  1: { intros x b c Hx Hb Hc Ho. apply Tri_same_ctor.
    destruct b; try done; destruct c; try done. intros _ _. cbn in *. rewrite !contents_cmp by done.
    apply Tri_lex; intros; apply Tri_cmpZ. }
  10: { intros [] []; cbn; unfold Tri; lia. }
  10: { intros n IHn i IHi v IHv [] [] Hu Hv Ht Ho; try (cbn; unfold Tri; lia).
        cbn [un_compare un_wf_consts un_arrays] in *. split_wf.
        repeat first [apply Tri_cmpZ | apply Tri_lex; [|intros _ _]
          | match goal with IH : _ |- _ => apply IH; [done|done|done|] end].
        all: eapply one_per_address_incl, Ho; set_solver. }
  all: intros; match goal with H : one_per_address _ |- _ => rename H into Ho end;
    apply Tri_same_ctor;
    match goal with |- _ -> _ -> Tri _ (compare ?b ?c) _ =>
      destruct b; try done; destruct c; try done end;
    intros Hk Hk'; rewrite !compare_lex by done;
    apply Tri_lex; [apply Tri_cmpZ|intros _ _]; apply Tri_lex; [apply Tri_cmpZ|intros _ _];
    cbn [wf_consts kid_compare arrays] in *; split_wf;
    repeat first [apply Tri_cmpZ
      | apply Tri_root; eapply one_per_address_incl, Ho; set_solver
      | apply Tri_lex; [|intros _ _]
      | match goal with IH : _ |- _ => apply IH; [done|done|done|] end];
    eapply one_per_address_incl, Ho; set_solver.
Qed.

(** C11: on expressions with well-formed constants over one object per array
    address, [Expr::compare] returns 0 exactly on structurally equal
    expressions, negates when its operands are swapped, and its "less than" is
    transitive, so it is a lawful ordering for [std::set] and [std::map]. *)
Theorem compare_total_order (a b c : Expr) :
  wf_consts a = true -> wf_consts b = true -> wf_consts c = true ->
  one_per_address (arrays a ++ arrays b ++ arrays c) ->
  (compare a b = 0 <-> a = b) /\ compare b a = - compare a b /\
  (compare a b < 0 -> compare b c < 0 -> compare a c < 0).
Proof.
  intros Ha Hb Hc Ho. split_and!.
  - rewrite <- Z.eqb_eq. now apply Expr_eqb_eq.
  - apply compare_opp_mut; [done|done|]. eapply one_per_address_incl, Ho; set_solver.
  - now apply compare_Tri_mut.
Qed.

End Order.

Lemma compare_total_order_witness :
  let arr := mkArray 16 "a" 4 32 8 [] in
  let i n := ConstantExpr (APInt 32 n) in
  let a := ReadExpr arr un_null (i 0) in
  let b := ReadExpr arr un_null (i 1) in
  let c := ReadExpr arr (un_node un_null (i 0) (ConstantExpr (APInt 8 7))) (i 2) in
  @compare apint_ref a b <> 0 /\
  @compare apint_ref b a = - @compare apint_ref a b /\
  (@compare apint_ref a b < 0 -> @compare apint_ref b c < 0 -> @compare apint_ref a c < 0).
Proof.
  intros arr i a b c.
  destruct (@compare_total_order apint_ref apint_ref_spec a b c) as (H1 & H2 & H3);
    [reflexivity..| |].
  - intros x y Hx Hy _. cbn in Hx, Hy.
    set_solver.
  - split; [|split; assumption]. intros H. apply H1 in H. discriminate H.
Defined.
