(* ===== verification/ExprSem.v ===== *)
(** * Meaning of expressions

    [eval rho e] is the bit-vector value of [e] when the initial contents of
    the arrays are given by [rho].  It is undefined ([None]) on expressions
    whose operands have mismatching widths (or a narrowing cast), on divisions by zero and on reads
    of a constant array outside its bounds, so an expression with a value is in
    particular well typed.

    [refines e e'] says that [e'] has the value of [e] wherever [e] has one:
    the contract of every routine that rewrites or canonicalizes expressions.
    It is a preorder compatible with every constructor. *)

From Stdlib Require Import Morphisms RelationClasses.
From stdpp Require Import strings.
From S2P Require Import Prelude APInt Expr ExprOrder.

(** Initial contents of the arrays. *)
Definition valuation := Array -> Z -> Z.

(** The checks of the [Array] constructor: every initial value has the width
    of the range, one value per element; [size] is a 32-bit [unsigned], an index has at most
    64 bits (the assert of [ReadExpr::create]) and the elements of a constant array are
    addressable with an index of the domain's width. *)
Definition array_ok (a : Array) : bool :=
  (0 <? range a) && (0 <? domain a) && (domain a <=? 64) && (0 <=? size a) && (size a <? 2 ^ 32) &&
  (isSymbolicArray a ||
   ((Z.of_nat (length (constantValues a)) =? size a) && (size a <=? 2 ^ domain a))) &&
  forallb (fun c => ap_valid c && (ap_width c =? range a)) (constantValues a).

(** The value of element [i] before any update: the constant of a constant
    array, the valuation for a symbolic one. *)
Definition initial_value (rho : valuation) (a : Array) (i : Z) : option Z :=
  if isConstantArray a
  then ap_val <$> constantValues a !! Z.to_nat i
  else Some (BV.wrap (range a) (rho a i)).

(** The most recent update at index [i], in a list of evaluated updates. *)
Fixpoint read_updates (us : list (Z * Z)) (i : Z) : option Z :=
  match us with
  | [] => None
  | (j, v) :: us => if i =? j then Some v else read_updates us i
  end.

Definition read_value (rho : valuation) (a : Array) (us : list (Z * Z)) (i : Z) : option Z :=
  match read_updates us i with Some v => Some v | None => initial_value rho a i end.

Definition eval_arith (k : ArithKind) (x y : apint) : option apint :=
  if ap_width x =? ap_width y
  then APInt (ap_width x) <$> arith_sem k (ap_width x) (ap_val x) (ap_val y) else None.

Definition eval_cmp (k : CmpKind) (x y : apint) : option apint :=
  if ap_width x =? ap_width y
  then Some (APInt 1 (b2z (cmp_sem k (ap_width x) (ap_val x) (ap_val y)))) else None.

Definition eval_cast (k : CastKind) (w : Z) (x : apint) : option apint :=
  if ap_width x <=? w then Some (APInt w (cast_sem k (ap_width x) w (ap_val x))) else None.

Definition eval_extract (o w : Z) (x : apint) : option apint :=
  if (0 <=? o) && (0 <? w) && (o + w <=? ap_width x)
  then Some (APInt w (BV.wrap w (ap_val x / 2 ^ o))) else None.

Definition eval_concat (x y : apint) : apint :=
  APInt (ap_width x + ap_width y) (ap_val x * 2 ^ ap_width y + ap_val y).

Definition eval_not (x : apint) : apint :=
  APInt (ap_width x) (2 ^ ap_width x - 1 - ap_val x).

Definition eval_select (c t f : apint) : option apint :=
  if (ap_width c =? 1) && (ap_width t =? ap_width f)
  then Some (if ap_val c =? 0 then f else t) else None.

Definition eval_read (rho : valuation) (r : Array) (us : list (Z * Z)) (i : apint) : option apint :=
  if array_ok r && (ap_width i =? domain r)
  then APInt (range r) <$> read_value rho r us (ap_val i) else None.

Fixpoint eval (rho : valuation) (e : Expr) : option apint :=
  match e with
  | ConstantExpr c => if ap_valid c then Some c else None
  | NotOptimizedExpr x => eval rho x
  | ReadExpr r h i =>
    us ← eval_updates rho r h; iv ← eval rho i; eval_read rho r us iv
  | SelectExpr c t f =>
    cv ← eval rho c; tv ← eval rho t; fv ← eval rho f; eval_select cv tv fv
  | ConcatExpr l r => x ← eval rho l; y ← eval rho r; Some (eval_concat x y)
  | ExtractExpr x o w => v ← eval rho x; eval_extract o w v
  | CastExpr k x w => v ← eval rho x; eval_cast k w v
  | NotExpr x => v ← eval rho x; Some (eval_not v)
  | BinaryExpr k l r => x ← eval rho l; y ← eval rho r; eval_arith k x y
  | CmpExpr k l r => x ← eval rho l; y ← eval rho r; eval_cmp k x y
  end
with eval_updates (rho : valuation) (r : Array) (u : UpdateNode) : option (list (Z * Z)) :=
  match u with
  | un_null => Some []
  | un_node n i v =>
    us ← eval_updates rho r n; iv ← eval rho i; vv ← eval rho v;
    if (ap_width iv =? domain r) && (ap_width vv =? range r)
    then Some ((ap_val iv, ap_val vv) :: us) else None
  end.

(** Inversion of the evaluation hypotheses. *)
Ltac inv_eval :=
  repeat match goal with
  | H : mbind _ ?x = Some _ |- _ =>
    let a := fresh "v" in let E := fresh "E" in apply bind_Some in H as (a & E & H)
  | H : (if ?b then _ else None) = Some _ |- _ =>
    let E := fresh "G" in destruct b eqn:E; [|discriminate H]
  | H : Some _ = Some _ |- _ => injection H as H; try subst
  | H : _ && _ = true |- _ => apply andb_true_iff in H as [??]
  | H : (_ =? _) = true |- _ => apply Z.eqb_eq in H
  | H : (_ <? _) = true |- _ => apply Z.ltb_lt in H
  | H : (_ <=? _) = true |- _ => apply Z.leb_le in H
  end.

(** ** Values are well formed and have the static width *)

Lemma array_ok_const r i c :
  array_ok r = true -> constantValues r !! i = Some c ->
  ap_valid c = true /\ ap_width c = range r.
Proof.
  unfold array_ok. intros H E. inv_eval.
  apply list_elem_of_lookup_2, list_elem_of_In in E.
  match goal with H : forallb _ _ = true |- _ => rewrite forallb_forall in H; apply H in E end.
  now inv_eval.
Qed.

Lemma array_ok_range r : array_ok r = true -> 0 < range r.
Proof. unfold array_ok. intros. inv_eval. done. Qed.

Lemma array_ok_domain r : array_ok r = true -> domain r <= 64.
Proof. unfold array_ok. intros. inv_eval. done. Qed.

Lemma initial_value_range rho r i v :
  array_ok r = true -> initial_value rho r i = Some v -> 0 <= v < 2 ^ range r.
Proof.
  intros Hr. unfold initial_value. pose proof (array_ok_range r Hr).
  destruct (isConstantArray r).
  - destruct (constantValues r !! _) eqn:E; cbn; [|done]. intros [= <-].
    destruct (array_ok_const _ _ _ Hr E) as [Hv <-]. now apply ap_valid_spec in Hv.
  - intros [= <-]. apply BV.wrap_range; lia.
Qed.

Definition updates_ok (r : Array) (us : list (Z * Z)) : Prop :=
  Forall (fun p => 0 <= snd p < 2 ^ range r) us.

Lemma read_value_range rho r us i v :
  array_ok r = true -> updates_ok r us -> read_value rho r us i = Some v ->
  0 <= v < 2 ^ range r.
Proof.
  intros Hr Hu. unfold read_value.
  enough (H : forall v, read_updates us i = Some v -> 0 <= v < 2 ^ range r).
  { destruct (read_updates us i) eqn:E; [intros [= <-]; auto|now apply initial_value_range]. }
  clear v. induction Hu as [|[j v] us Hj Hu IH]; cbn; [done|]. intros v'.
  destruct (i =? j); [intros [= <-]; done|auto].
Qed.

(** Each operation on values returns a well-formed value. *)
Lemma eval_arith_inv k x y v :
  ap_valid x = true -> ap_valid y = true -> eval_arith k x y = Some v ->
  ap_valid v = true /\ ap_width v = ap_width x /\ ap_width x = ap_width y /\
  arith_sem k (ap_width x) (ap_val x) (ap_val y) = Some (ap_val v).
Proof.
  unfold eval_arith. rewrite !ap_valid_spec. intros Hx Hy H. inv_eval.
  destruct (arith_sem _ _ _ _) eqn:E; cbn in H; [|done]. simplify_eq. cbn. split_and!; auto.
  - lia.
  - eapply arith_sem_range; [..|exact E]; lia || (rewrite G; lia).
  - eapply arith_sem_range; [..|exact E]; lia || (rewrite G; lia).
Qed.

Lemma eval_cmp_inv k x y v :
  eval_cmp k x y = Some v -> ap_width x = ap_width y /\
  v = APInt 1 (b2z (cmp_sem k (ap_width x) (ap_val x) (ap_val y))).
Proof. unfold eval_cmp. intros. inv_eval. done. Qed.

Lemma b2z_valid b : ap_valid (APInt 1 (b2z b)) = true.
Proof. now destruct b. Qed.

Lemma eval_cast_inv k w x v :
  ap_valid x = true -> eval_cast k w x = Some v ->
  ap_width x <= w /\ v = APInt w (cast_sem k (ap_width x) w (ap_val x)) /\ ap_valid v = true.
Proof.
  unfold eval_cast. rewrite ap_valid_spec. intros. inv_eval. split_and!; auto.
  apply ap_valid_spec. cbn. split; [lia|]. apply cast_sem_range. lia.
Qed.

Lemma eval_extract_inv o w x v :
  eval_extract o w x = Some v ->
  0 <= o /\ 0 < w /\ o + w <= ap_width x /\
  v = APInt w (BV.wrap w (ap_val x / 2 ^ o)) /\ ap_valid v = true.
Proof.
  unfold eval_extract. intros. inv_eval. split_and!; auto. now apply BV.wrap_in_range.
Qed.

Lemma eval_concat_valid x y :
  ap_valid x = true -> ap_valid y = true -> ap_valid (eval_concat x y) = true.
Proof.
  rewrite !ap_valid_spec. intros. cbn. split; [lia|]. apply BV.concat_range; lia.
Qed.

Lemma eval_not_valid x : ap_valid x = true -> ap_valid (eval_not x) = true.
Proof. rewrite !ap_valid_spec. cbn. lia. Qed.

Lemma eval_select_inv c t f v :
  eval_select c t f = Some v ->
  ap_width c = 1 /\ ap_width t = ap_width f /\ v = if ap_val c =? 0 then f else t.
Proof. unfold eval_select. intros. inv_eval. done. Qed.

Lemma eval_read_inv rho r us i v :
  eval_read rho r us i = Some v ->
  array_ok r = true /\ ap_width i = domain r /\ ap_width v = range r /\
  read_value rho r us (ap_val i) = Some (ap_val v).
Proof.
  unfold eval_read. intros H. inv_eval. destruct (read_value _ _ _ _); cbn in H; [|done].
  now simplify_eq.
Qed.

Lemma eval_valid_mut rho :
  (forall e v, eval rho e = Some v -> ap_valid v = true /\ getWidth e = ap_width v) /\
  (forall u r us, eval_updates rho r u = Some us -> updates_ok r us).
Proof.
  apply Expr_UpdateNode_ind; cbn [eval eval_updates getWidth]; intros; inv_eval;
    repeat match goal with
    | IH : forall v, eval rho ?e = Some v -> _, H : eval rho ?e = Some _ |- _ =>
      apply IH in H as [??]; clear IH
    | IH : forall r us, eval_updates rho r ?e = Some us -> _, H : eval_updates rho _ ?e = Some _ |- _ =>
      apply IH in H; clear IH
    end; auto.
  - match goal with H : eval_read _ _ _ _ = _ |- _ => apply eval_read_inv in H as (? & ? & Hw & Hr) end.
    split; [|done]. apply ap_valid_spec. rewrite Hw. split; [now apply array_ok_range|].
    eapply read_value_range; eauto.
  - match goal with H : eval_select _ _ _ = _ |- _ => apply eval_select_inv in H as (? & ? & ->) end.
    case_match; split; auto. congruence.
  - split; [now apply eval_concat_valid|]. cbn. congruence.
  - match goal with H : eval_extract _ _ _ = _ |- _ => apply eval_extract_inv in H as (? & ? & ? & -> & ?) end. auto.
  - match goal with H : eval_cast _ _ _ = _ |- _ => apply eval_cast_inv in H as (? & -> & ?); [|done] end. auto.
  - split; [now apply eval_not_valid|done].
  - match goal with H : eval_arith _ _ _ = _ |- _ => apply eval_arith_inv in H as (? & ? & ? & ?); [|done..] end.
    split; congruence.
  - match goal with H : eval_cmp _ _ _ = _ |- _ => apply eval_cmp_inv in H as (? & ->) end.
    split; [apply b2z_valid|done].
  - constructor.
  - constructor; [|done]. cbn.
    match goal with H : ap_width ?v = range _, V : ap_valid ?v = true |- _ =>
      apply ap_valid_spec in V; rewrite <- H end. lia.
Qed.

Lemma eval_valid rho e v : eval rho e = Some v -> ap_valid v = true.
Proof. apply eval_valid_mut. Qed.
Lemma eval_width rho e v : eval rho e = Some v -> getWidth e = ap_width v.
Proof. apply eval_valid_mut. Qed.
Lemma eval_updates_ok rho r u us : eval_updates rho r u = Some us -> updates_ok r us.
Proof. apply eval_valid_mut. Qed.

Lemma eval_wf_mut rho :
  (forall e v, eval rho e = Some v -> wf_consts e = true) /\
  (forall u r us, eval_updates rho r u = Some us -> un_wf_consts u = true).
Proof.
  apply Expr_UpdateNode_ind; cbn [eval eval_updates wf_consts un_wf_consts]; intros; inv_eval;
    rewrite ?andb_true_iff; split_and?; eauto.
Qed.

Lemma eval_wf rho e v : eval rho e = Some v -> wf_consts e = true.
Proof. apply eval_wf_mut. Qed.

(** ** Refinement *)

Definition refines (e e' : Expr) : Prop :=
  forall rho v, eval rho e = Some v -> eval rho e' = Some v.

Definition un_refines (u u' : UpdateNode) : Prop :=
  forall rho r us, eval_updates rho r u = Some us -> eval_updates rho r u' = Some us.

Declare Scope expr_scope.
Delimit Scope expr_scope with expr.
Notation "e ⊑ e'" := (refines e e') (at level 70) : expr_scope.
#[global] Open Scope expr_scope.

#[export] Instance refines_preorder : PreOrder refines.
Proof. split; unfold refines; red; auto. Qed.
#[export] Instance un_refines_preorder : PreOrder un_refines.
Proof. split; unfold un_refines; red; auto. Qed.

Ltac solve_refines :=
  unfold refines, un_refines in *; intros; cbn [eval eval_updates] in *; inv_eval;
  repeat match goal with
  | H : forall rho v, eval rho ?e = Some v -> _, E : eval _ ?e = Some _ |- _ =>
    apply H in E
  | H : forall rho r v, eval_updates rho r ?e = Some v -> _, E : eval_updates _ _ ?e = Some _ |- _ =>
    apply H in E
  | E : eval _ ?e = Some _ |- context [eval _ ?e] => rewrite E; cbn [mbind option_bind]
  | E : eval_updates _ _ ?e = Some _ |- context [eval_updates _ _ ?e] =>
    rewrite E; cbn [mbind option_bind]
  end; auto.

#[export] Instance NotOptimizedExpr_proper : Proper (refines ==> refines) NotOptimizedExpr.
Proof. intros ? ? H. exact H. Qed.
#[export] Instance ReadExpr_proper :
  Proper (eq ==> un_refines ==> refines ==> refines) ReadExpr.
Proof. intros r ? <- h h' Hh i i' Hi. solve_refines. Qed.
#[export] Instance SelectExpr_proper :
  Proper (refines ==> refines ==> refines ==> refines) SelectExpr.
Proof. intros ? ? Hc ? ? Ht ? ? Hf. solve_refines. Qed.
#[export] Instance ConcatExpr_proper : Proper (refines ==> refines ==> refines) ConcatExpr.
Proof. intros ? ? Hl ? ? Hr. solve_refines. Qed.
#[export] Instance ExtractExpr_proper :
  Proper (refines ==> eq ==> eq ==> refines) ExtractExpr.
Proof. intros ? ? H ? ? <- ? ? <-. solve_refines. Qed.
#[export] Instance CastExpr_proper : Proper (eq ==> refines ==> eq ==> refines) CastExpr.
Proof. intros ? ? <- ? ? H ? ? <-. solve_refines. Qed.
#[export] Instance NotExpr_proper : Proper (refines ==> refines) NotExpr.
Proof. intros ? ? H. solve_refines. Qed.
#[export] Instance BinaryExpr_proper :
  Proper (eq ==> refines ==> refines ==> refines) BinaryExpr.
Proof. intros ? ? <- ? ? Hl ? ? Hr. solve_refines. Qed.
#[export] Instance BinaryExpr_flip_proper :
  Proper (eq ==> flip refines ==> flip refines ==> flip refines) BinaryExpr.
Proof. intros ? ? <- ? ? Hl ? ? Hr. unfold flip in *. now apply BinaryExpr_proper. Qed.
#[export] Instance NotExpr_flip_proper : Proper (flip refines ==> flip refines) NotExpr.
Proof. intros ? ? H. unfold flip in *. now apply NotExpr_proper. Qed.
#[export] Instance CmpExpr_proper : Proper (eq ==> refines ==> refines ==> refines) CmpExpr.
Proof. intros ? ? <- ? ? Hl ? ? Hr. solve_refines. Qed.
#[export] Instance un_node_proper :
  Proper (un_refines ==> refines ==> refines ==> un_refines) un_node.
Proof.
  intros ? ? Hn ? ? Hi ? ? Hv. solve_refines.
  repeat match goal with H : ap_width ?x = _ |- context [ap_width ?x] => rewrite H end.
  now rewrite !Z.eqb_refl.
Qed.

(** To refine an operation, give its result on the operands' values. *)
Lemma refines_binary k l r e' :
  (forall rho x y v, eval rho l = Some x -> eval rho r = Some y ->
     ap_valid x = true -> ap_valid y = true -> ap_width y = ap_width x ->
     getWidth l = ap_width x -> getWidth r = ap_width x ->
     arith_sem k (ap_width x) (ap_val x) (ap_val y) = Some v ->
     eval rho e' = Some (APInt (ap_width x) v)) ->
  BinaryExpr k l r ⊑ e'.
Proof.
  intros H rho v Hv. cbn in Hv. inv_eval.
  pose proof (eval_valid _ _ _ E). pose proof (eval_valid _ _ _ E0).
  apply eval_arith_inv in Hv as (Hv & Hw & Hwe & Hs); [|done..].
  destruct v as [w n]; cbn in *; subst.
  eapply H; eauto using eval_width.
  rewrite Hwe. now apply eval_width in E0.
Qed.

Lemma refines_cmp k l r e' :
  (forall rho x y, eval rho l = Some x -> eval rho r = Some y ->
     ap_valid x = true -> ap_valid y = true -> ap_width y = ap_width x ->
     getWidth l = ap_width x -> getWidth r = ap_width x ->
     eval rho e' = Some (APInt 1 (b2z (cmp_sem k (ap_width x) (ap_val x) (ap_val y))))) ->
  CmpExpr k l r ⊑ e'.
Proof.
  intros H rho v Hv. cbn in Hv. inv_eval.
  pose proof (eval_valid _ _ _ E). pose proof (eval_valid _ _ _ E0).
  apply eval_cmp_inv in Hv as (Hw & ->).
  eapply H; eauto using eval_width. rewrite Hw. now apply eval_width in E0.
Qed.

Lemma eval_const rho c : ap_valid c = true -> eval rho (ConstantExpr c) = Some c.
Proof. intros H. cbn. now rewrite H. Qed.

Lemma eval_const_inv rho c v : eval rho (ConstantExpr c) = Some v -> v = c /\ ap_valid c = true.
Proof. cbn. intros. inv_eval. done. Qed.

Lemma eval_binary rho k l r x y v :
  eval rho l = Some x -> eval rho r = Some y -> ap_width x = ap_width y ->
  arith_sem k (ap_width x) (ap_val x) (ap_val y) = Some v ->
  eval rho (BinaryExpr k l r) = Some (APInt (ap_width x) v).
Proof.
  intros El Er Hw Hs. cbn. rewrite El, Er. cbn. unfold eval_arith.
  now rewrite Hw, Z.eqb_refl, <- Hw, Hs.
Qed.

Lemma eval_compare rho k l r x y :
  eval rho l = Some x -> eval rho r = Some y -> ap_width x = ap_width y ->
  eval rho (CmpExpr k l r) =
  Some (APInt 1 (b2z (cmp_sem k (ap_width x) (ap_val x) (ap_val y)))).
Proof.
  intros El Er Hw. cbn. rewrite El, Er. cbn. unfold eval_cmp. now rewrite Hw, Z.eqb_refl.
Qed.

(** Inversion of evaluations, with the facts about the operands. *)
Lemma eval_binary_inv rho k l r v :
  eval rho (BinaryExpr k l r) = Some v ->
  exists x y, eval rho l = Some x /\ eval rho r = Some y /\
    ap_valid x = true /\ ap_valid y = true /\ ap_width y = ap_width x /\ ap_width v = ap_width x /\
    arith_sem k (ap_width x) (ap_val x) (ap_val y) = Some (ap_val v).
Proof.
  cbn. intros (x & Ex & H)%bind_Some. apply bind_Some in H as (y & Ey & H).
  pose proof (eval_valid _ _ _ Ex). pose proof (eval_valid _ _ _ Ey).
  apply eval_arith_inv in H as (? & ? & ? & ?); [|done..]. exists x, y. split_and!; auto.
Qed.

Lemma eval_compare_inv rho k l r v :
  eval rho (CmpExpr k l r) = Some v ->
  exists x y, eval rho l = Some x /\ eval rho r = Some y /\
    ap_valid x = true /\ ap_valid y = true /\ ap_width y = ap_width x /\
    v = APInt 1 (b2z (cmp_sem k (ap_width x) (ap_val x) (ap_val y))).
Proof.
  cbn. intros (x & Ex & H)%bind_Some. apply bind_Some in H as (y & Ey & H).
  apply eval_cmp_inv in H as [? ->]. exists x, y. split_and!; eauto using eval_valid.
Qed.

Lemma eval_cast_expr_inv rho k e w v :
  eval rho (CastExpr k e w) = Some v ->
  exists x, eval rho e = Some x /\ ap_valid x = true /\ ap_width x <= w /\
    v = APInt w (cast_sem k (ap_width x) w (ap_val x)).
Proof.
  cbn. intros (x & Ex & H)%bind_Some. pose proof (eval_valid _ _ _ Ex).
  apply eval_cast_inv in H as (? & -> & ?); [|done]. exists x. split_and!; auto.
Qed.

Lemma eval_read_expr_inv rho r h i v :
  eval rho (ReadExpr r h i) = Some v ->
  exists us iv, eval_updates rho r h = Some us /\ eval rho i = Some iv /\ ap_valid iv = true /\
    array_ok r = true /\ ap_width iv = domain r /\ ap_width v = range r /\
    read_value rho r us (ap_val iv) = Some (ap_val v).
Proof.
  cbn. intros (us & Eu & H)%bind_Some. apply bind_Some in H as (iv & Ei & H).
  pose proof (eval_valid _ _ _ Ei).
  apply eval_read_inv in H as (? & ? & ? & ?). exists us, iv. split_and!; auto.
Qed.

Lemma eval_read_expr rho r h i us iv v :
  eval_updates rho r h = Some us -> eval rho i = Some iv -> array_ok r = true ->
  ap_width iv = domain r -> read_value rho r us (ap_val iv) = Some v ->
  eval rho (ReadExpr r h i) = Some (APInt (range r) v).
Proof.
  intros Eu Ei Hr Hw Hv. cbn. rewrite Eu, Ei. cbn. unfold eval_read.
  now rewrite Hr, Hw, Z.eqb_refl, Hv.
Qed.

Lemma eval_binary_at rho k l r w a b v :
  eval rho l = Some (APInt w a) -> eval rho r = Some (APInt w b) ->
  arith_sem k w a b = Some v -> eval rho (BinaryExpr k l r) = Some (APInt w v).
Proof. intros Hl Hr Hs. exact (eval_binary rho k l r _ _ v Hl Hr eq_refl Hs). Qed.

Lemma eval_compare_at rho k l r w a b :
  eval rho l = Some (APInt w a) -> eval rho r = Some (APInt w b) ->
  eval rho (CmpExpr k l r) = Some (APInt 1 (b2z (cmp_sem k w a b))).
Proof. intros Hl Hr. exact (eval_compare rho k l r _ _ Hl Hr eq_refl). Qed.

(** Proves a linear law between nested [Add] and [Sub] nodes: evaluate the
    leaves, then compare the wrapped sums. *)
Ltac lin_law :=
  let rho := fresh "rho" in let v := fresh "v" in intros rho v ?;
  repeat match goal with
  | H : eval rho (BinaryExpr _ _ _) = Some _ |- _ =>
    apply eval_binary_inv in H as ([??] & [??] & ? & ? & _ & _ & ? & ? & ?)
  end;
  destruct v; cbn [ap_width ap_val arith_sem] in *; simplify_eq;
  repeat match goal with H : _ = ?w |- _ => is_var w; subst w | H : ?w = _ |- _ => is_var w; subst w end;
  etransitivity;
  [ repeat first [eassumption | eapply eval_binary_at | reflexivity]
  | f_equal; f_equal; bv_ring ].
