(* ===== verification/ExprCreate.v ===== *)
(** * Construction of canonical expressions

    The constant operations of [ConstantExpr] and the [create] methods of
    every expression class (src/lib/Expr/Expr.cpp).  [X'create] is the method
    [X::create]; [X_create], [X_createPartial] and [X_createPartialR] are the
    static helpers of the same names.  Asserts are the hypotheses of the
    theorems.  [AddExpr]/[SubExpr] and [ConcatExpr]/[ExtractExpr] recurse on
    rebuilt expressions; they take fuel, and [AddExpr'create_eq],
    [SubExpr'create_eq], [ExtractExpr'create_eq] and [ConcatExpr'create_eq]
    prove that the amount given suffices: the equations of the source hold. *)

From stdpp Require Import strings.
From S2P Require Import Prelude APInt Expr ExprOrder ExprSem.

(** The command-line option -const-array-opt. *)
Class ExprOptions := { ConstArrayOpt : bool }.

(** ** Constants *)
Section Constants.
Context `{A : APIntOps}.

Definition ConstantExpr'alloc (v w : Z) : apint := ap_make w v.
Definition ConstantExpr'create (v w : Z) : apint := ConstantExpr'alloc v w.

Definition isZero (c : apint) : bool := ap_isMinValue c.
Definition isOne (c : apint) : bool := ap_getLimitedValue c (2 ^ 64 - 1) =? 1.
Definition isTrue (c : apint) : bool := (ap_width c =? Bool) && eqb (ap_getBoolValue c) true.
Definition isFalse (c : apint) : bool := (ap_width c =? Bool) && eqb (ap_getBoolValue c) false.
Definition isAllOnes (c : apint) : bool := ap_isAllOnesValue c.
Definition getZExtValue (c : apint) : Z := ap_getZExtValue c.

Definition ConstantExpr_Concat (l r : apint) : apint :=
  let W := ap_width l + ap_width r in
  let Tmp := ap_zext l W in
  let Tmp := ap_shl_amt Tmp (ap_width r) in
  ap_or Tmp (ap_zext r W).

Definition ConstantExpr_Extract (c : apint) (Offset W : Z) : apint :=
  ap_zextOrTrunc (ap_ashr_amt c Offset) W.

Definition ConstantExpr_ZExt (c : apint) (W : Z) : apint := ap_zextOrTrunc c W.
Definition ConstantExpr_SExt (c : apint) (W : Z) : apint := ap_sextOrTrunc c W.
Definition ConstantExpr_Neg (c : apint) : apint := ap_neg c.
Definition ConstantExpr_Not (c : apint) : apint := ap_not c.

(** [Add] .. [AShr] and [Eq] .. [Sge] of [ConstantExpr]. *)
Definition ConstantExpr_arith (k : ArithKind) (l r : apint) : apint := ap_arith k l r.
Definition ConstantExpr_cmp (k : CmpKind) (l r : apint) : apint :=
  ConstantExpr'alloc (b2z (ap_cmp k l r)) Bool.

(** [operator==] on [ref<ConstantExpr>]. *)
Definition ConstantExpr_eqb (a b : apint) : bool := ConstantExpr_compareContents a b =? 0.

(** [Expr::isTrue] and [Expr::isFalse] *)
Definition Expr_isTrue (e : Expr) : bool :=
  match e with ConstantExpr c => isTrue c | _ => false end.
Definition Expr_isFalse (e : Expr) : bool :=
  match e with ConstantExpr c => isFalse c | _ => false end.
Definition Expr_isZero (e : Expr) : bool :=
  match e with ConstantExpr c => isZero c | _ => false end.

End Constants.

(** ** The BCREATE and CMPCREATE macros *)

Definition BCREATE_R (op : apint -> apint -> apint) (partialL : Expr -> apint -> Expr)
    (partialR : apint -> Expr -> Expr) (create : Expr -> Expr -> Expr) (l r : Expr) : Expr :=
  match l with
  | ConstantExpr cl =>
    match r with
    | ConstantExpr cr => ConstantExpr (op cl cr)
    | _ => partialR cl r
    end
  | _ =>
    match r with
    | ConstantExpr cr => partialL l cr
    | _ => create l r
    end
  end.

Definition BCREATE (op : apint -> apint -> apint) (create : Expr -> Expr -> Expr)
    (l r : Expr) : Expr :=
  match l, r with
  | ConstantExpr cl, ConstantExpr cr => ConstantExpr (op cl cr)
  | _, _ => create l r
  end.

Section Create.
Context `{A : APIntOps} `{Opts : ExprOptions}.

(** ** And, Or *)

Definition AndExpr_createPartial (l : Expr) (cr : apint) : Expr :=
  if isAllOnes cr then l
  else if isZero cr then ConstantExpr cr
  else BinaryExpr And l (ConstantExpr cr).
Definition AndExpr_createPartialR (cl : apint) (r : Expr) : Expr := AndExpr_createPartial r cl.
Definition AndExpr_create (l r : Expr) : Expr := BinaryExpr And l r.
Definition AndExpr'create : Expr -> Expr -> Expr :=
  BCREATE_R (ConstantExpr_arith And) AndExpr_createPartial AndExpr_createPartialR AndExpr_create.

Definition OrExpr_createPartial (l : Expr) (cr : apint) : Expr :=
  if isAllOnes cr then ConstantExpr cr
  else if isZero cr then l
  else BinaryExpr Or l (ConstantExpr cr).
Definition OrExpr_createPartialR (cl : apint) (r : Expr) : Expr := OrExpr_createPartial r cl.
Definition OrExpr_create (l r : Expr) : Expr := BinaryExpr Or l r.
Definition OrExpr'create : Expr -> Expr -> Expr :=
  BCREATE_R (ConstantExpr_arith Or) OrExpr_createPartial OrExpr_createPartialR OrExpr_create.

(** ** Eq *)

Definition EqExpr_create (l r : Expr) : Expr :=
  if Expr_eqb l r then ConstantExpr (ConstantExpr'alloc 1 Bool) else CmpExpr Eq l r.

(** The loop of [TryConstArrayOpt]: [None] once more than 100 elements match.
    [eqIndex c] is [EqExpr::create(rd->index, c)]. *)
Fixpoint TryConstArrayOpt_loop (eqIndex : apint -> Expr) (iw : Z) (cl : apint)
    (values : list apint) (i numMatches : Z) (res : Expr) : option Expr :=
  match values with
  | [] => Some res
  | v :: values =>
    if ConstantExpr_eqb cl v then
      if 100 <? numMatches + 1 then None
      else
        let mayBe := eqIndex (ConstantExpr'alloc i iw) in
        TryConstArrayOpt_loop eqIndex iw cl values (i + 1) (numMatches + 1) (OrExpr'create res mayBe)
    else TryConstArrayOpt_loop eqIndex iw cl values (i + 1) numMatches res
  end.

Definition TryConstArrayOpt (eqIndex : apint -> Expr) (cl : apint)
    (root : Array) (head : UpdateNode) (index : Expr) : Expr :=
  let rd := ReadExpr root head index in
  if isSymbolicArray root || negb (un_size head =? 0) then EqExpr_create (ConstantExpr cl) rd
  else
    match TryConstArrayOpt_loop eqIndex (getWidth index) cl (constantValues root) 0 0
            (ConstantExpr (ConstantExpr'alloc 0 Bool)) with
    | Some res => res
    | None => EqExpr_create (ConstantExpr cl) rd
    end.

Fixpoint EqExpr_createPartialR (cl : apint) (r : Expr) {struct r} : Expr :=
  let width := ap_width cl in
  if width =? Bool then
    if isTrue cl then r
    else
      (* 0 == ... *)
      match r with
      | CmpExpr Eq (ConstantExpr CE) b =>
        (* 0 == (0 == A) => A *)
        if (ap_width CE =? Bool) && isFalse CE then b
        else EqExpr_create (ConstantExpr cl) r
      | BinaryExpr Or a b =>
        (* not(or(a,b)) to and(not a, not b); the kids are Expr::createIsZero *)
        let zl := ConstantExpr'create 0 (getWidth a) in
        let zr := ConstantExpr'create 0 (getWidth b) in
        AndExpr'create
          (match a with
           | ConstantExpr c => ConstantExpr (ConstantExpr_cmp Eq c zl)
           | _ => EqExpr_createPartialR zl a
           end)
          (match b with
           | ConstantExpr c => ConstantExpr (ConstantExpr_cmp Eq c zr)
           | _ => EqExpr_createPartialR zr b
           end)
      | _ => EqExpr_create (ConstantExpr cl) r
      end
  else
    match r with
    | CastExpr SExt src _ =>
      let trunc := ConstantExpr_ZExt cl (getWidth src) in
      if ConstantExpr_eqb cl (ConstantExpr_SExt trunc width) then
        match src with
        | ConstantExpr c => ConstantExpr (ConstantExpr_cmp Eq c trunc)
        | _ => EqExpr_createPartialR trunc src
        end
      else ConstantExpr (ConstantExpr'create 0 Bool)
    | CastExpr ZExt src _ =>
      let trunc := ConstantExpr_ZExt cl (getWidth src) in
      if ConstantExpr_eqb cl (ConstantExpr_ZExt trunc width) then
        match src with
        | ConstantExpr c => ConstantExpr (ConstantExpr_cmp Eq c trunc)
        | _ => EqExpr_createPartialR trunc src
        end
      else ConstantExpr (ConstantExpr'create 0 Bool)
    | BinaryExpr Add (ConstantExpr c1) b =>
      (* c0 = c1 + b => c0 - c1 = b *)
      EqExpr_createPartialR (ConstantExpr_arith Sub cl c1) b
    | BinaryExpr Sub (ConstantExpr c1) b =>
      (* c0 = c1 - b => c1 - c0 = b *)
      EqExpr_createPartialR (ConstantExpr_arith Sub c1 cl) b
    | ReadExpr root head index =>
      if ConstArrayOpt then
        TryConstArrayOpt
          (fun c => match index with
                    | ConstantExpr ci => ConstantExpr (ConstantExpr_cmp Eq ci c)
                    | _ => EqExpr_createPartialR c index
                    end) cl root head index
      else EqExpr_create (ConstantExpr cl) r
    | _ => EqExpr_create (ConstantExpr cl) r
    end.

Definition EqExpr_createPartial (l : Expr) (cr : apint) : Expr := EqExpr_createPartialR cr l.

Definition EqExpr'create : Expr -> Expr -> Expr :=
  BCREATE_R (ConstantExpr_cmp Eq) EqExpr_createPartial EqExpr_createPartialR EqExpr_create.

Definition createIsZero (e : Expr) : Expr :=
  EqExpr'create e (ConstantExpr (ConstantExpr'create 0 (getWidth e))).

Definition createImplies (hyp conc : Expr) : Expr := OrExpr'create (createIsZero hyp) conc.

(** ** Xor, Mul *)

Definition XorExpr_createPartialR (cl : apint) (r : Expr) : Expr :=
  if isZero cl then r
  else if ap_width cl =? Bool then EqExpr_createPartial r (ConstantExpr'create 0 Bool)
  else BinaryExpr Xor (ConstantExpr cl) r.
Definition XorExpr_createPartial (l : Expr) (cr : apint) : Expr := XorExpr_createPartialR cr l.
Definition XorExpr_create (l r : Expr) : Expr := BinaryExpr Xor l r.
Definition XorExpr'create : Expr -> Expr -> Expr :=
  BCREATE_R (ConstantExpr_arith Xor) XorExpr_createPartial XorExpr_createPartialR XorExpr_create.

Definition MulExpr_createPartialR (cl : apint) (r : Expr) : Expr :=
  if ap_width cl =? Bool then AndExpr_createPartialR cl r
  else if isOne cl then r
  else if isZero cl then ConstantExpr cl
  else BinaryExpr Mul (ConstantExpr cl) r.
Definition MulExpr_createPartial (l : Expr) (cr : apint) : Expr := MulExpr_createPartialR cr l.
Definition MulExpr_create (l r : Expr) : Expr :=
  if getWidth l =? Bool then BinaryExpr And l r else BinaryExpr Mul l r.
Definition MulExpr'create : Expr -> Expr -> Expr :=
  BCREATE_R (ConstantExpr_arith Mul) MulExpr_createPartial MulExpr_createPartialR MulExpr_create.

(** ** Add, Sub *)

Fixpoint AddExpr_createPartialR (cl : apint) (r : Expr) {struct r} : Expr :=
  if ap_width cl =? Bool then XorExpr_createPartialR cl r
  else if isZero cl then r
  else
    match r with
    | BinaryExpr Add (ConstantExpr c) b =>
      (* A + (B+c) == (A+B) + c *)
      let s := ConstantExpr_arith Add cl c in
      match b with
      | ConstantExpr cr => ConstantExpr (ConstantExpr_arith Add s cr)
      | _ => AddExpr_createPartialR s b
      end
    | BinaryExpr Sub (ConstantExpr c) b =>
      (* A + (B-c) == (A+B) - c *)
      let s := ConstantExpr_arith Add cl c in
      match b with
      | ConstantExpr cr => ConstantExpr (ConstantExpr_arith Sub s cr)
      | _ => SubExpr_createPartialR s b
      end
    | _ => BinaryExpr Add (ConstantExpr cl) r
    end
with SubExpr_createPartialR (cl : apint) (r : Expr) {struct r} : Expr :=
  if ap_width cl =? Bool then XorExpr_createPartialR cl r
  else
    match r with
    | BinaryExpr Add (ConstantExpr c) b =>
      (* A - (B+c) == (A-B) - c *)
      let s := ConstantExpr_arith Sub cl c in
      match b with
      | ConstantExpr cr => ConstantExpr (ConstantExpr_arith Sub s cr)
      | _ => SubExpr_createPartialR s b
      end
    | BinaryExpr Sub (ConstantExpr c) b =>
      (* A - (B-c) == (A-B) + c *)
      let s := ConstantExpr_arith Sub cl c in
      match b with
      | ConstantExpr cr => ConstantExpr (ConstantExpr_arith Add s cr)
      | _ => AddExpr_createPartialR s b
      end
    | _ => BinaryExpr Sub (ConstantExpr cl) r
    end.

Definition AddExpr_createPartial (l : Expr) (cr : apint) : Expr := AddExpr_createPartialR cr l.

(** l - c => l + (-c) *)
Definition SubExpr_createPartial (l : Expr) (cr : apint) : Expr :=
  AddExpr_createPartial l (ConstantExpr_arith Sub (ConstantExpr'alloc 0 (ap_width cr)) cr).

(** [AddExpr::create(k, x)], [SubExpr::create(k, x)] and
    [SubExpr::create(x, k)] for a constant [k]. *)
Definition AddExpr'create_constL (k : apint) (x : Expr) : Expr :=
  match x with
  | ConstantExpr c => ConstantExpr (ConstantExpr_arith Add k c)
  | _ => AddExpr_createPartialR k x
  end.
Definition SubExpr'create_constL (k : apint) (x : Expr) : Expr :=
  match x with
  | ConstantExpr c => ConstantExpr (ConstantExpr_arith Sub k c)
  | _ => SubExpr_createPartialR k x
  end.
Definition SubExpr'create_constR (x : Expr) (k : apint) : Expr :=
  match x with
  | ConstantExpr c => ConstantExpr (ConstantExpr_arith Sub c k)
  | _ => SubExpr_createPartial x k
  end.

(** The test [e->getKind() == k && isa<ConstantExpr>(e->getKid(0))], with the
    two kids. *)
Definition const_left (k : ArithKind) (e : Expr) : option (apint * Expr) :=
  match e with
  | BinaryExpr k' (ConstantExpr c) b => if decide (k = k') then Some (c, b) else None
  | _ => None
  end.

(** The bodies of [AddExpr_create] and [SubExpr_create] over the functions
    their recursive calls go to. *)
Definition AddExpr_create_body (addF subF : Expr -> Expr -> Expr) (l r : Expr) : Expr :=
  if getWidth l =? Bool then XorExpr_create l r
  else
    match const_left Add l with
    | Some (k, a) => AddExpr'create_constL k (addF a r)     (* (k+a)+b = k+(a+b) *)
    | None =>
    match const_left Sub l with
    | Some (k, a) => AddExpr'create_constL k (subF r a)     (* (k-a)+b = k+(b-a) *)
    | None =>
    match const_left Add r with
    | Some (k, b) => AddExpr'create_constL k (addF l b)     (* a + (k+b) = k+(a+b) *)
    | None =>
    match const_left Sub r with
    | Some (k, b) => AddExpr'create_constL k (subF l b)     (* a + (k-b) = k+(a-b) *)
    | None => BinaryExpr Add l r
    end end end end.

Definition SubExpr_create_body (addF subF : Expr -> Expr -> Expr) (l r : Expr) : Expr :=
  if getWidth l =? Bool then XorExpr_create l r
  else if Expr_eqb l r then ConstantExpr (ConstantExpr'alloc 0 (getWidth l))
  else
    match const_left Add l with
    | Some (k, a) => AddExpr'create_constL k (subF a r)     (* (k+a)-b = k+(a-b) *)
    | None =>
    match const_left Sub l with
    | Some (k, a) => SubExpr'create_constL k (addF a r)     (* (k-a)-b = k-(a+b) *)
    | None =>
    match const_left Add r with
    | Some (k, b) => SubExpr'create_constR (subF l b) k     (* a - (k+b) = (a-b) - k *)
    | None =>
    match const_left Sub r with
    | Some (k, b) => SubExpr'create_constR (addF l b) k     (* a - (k-b) = (a+b) - k *)
    | None => BinaryExpr Sub l r
    end end end end.

(** [AddExpr::create] and [SubExpr::create] with fuel for that recursion. *)
Fixpoint AddExpr'create_fuel (n : nat) : Expr -> Expr -> Expr :=
  BCREATE_R (ConstantExpr_arith Add) AddExpr_createPartial AddExpr_createPartialR
    match n with
    | O => BinaryExpr Add
    | S n => AddExpr_create_body (AddExpr'create_fuel n) (SubExpr'create_fuel n)
    end
with SubExpr'create_fuel (n : nat) : Expr -> Expr -> Expr :=
  BCREATE_R (ConstantExpr_arith Sub) SubExpr_createPartial SubExpr_createPartialR
    match n with
    | O => BinaryExpr Sub
    | S n => SubExpr_create_body (AddExpr'create_fuel n) (SubExpr'create_fuel n)
    end.

(** Number of nodes, the bound of the recursions. *)
Fixpoint esize (e : Expr) : nat :=
  match e with
  | ConstantExpr _ => 1
  | NotOptimizedExpr x | ExtractExpr x _ _ | CastExpr _ x _ | NotExpr x => S (esize x)
  | ReadExpr _ h i => S (un_esize h + esize i)
  | SelectExpr c t f => S (esize c + esize t + esize f)
  | ConcatExpr l r | BinaryExpr _ l r | CmpExpr _ l r => S (esize l + esize r)
  end
with un_esize (u : UpdateNode) : nat :=
  match u with
  | un_null => 0
  | un_node n i v => S (un_esize n + esize i + esize v)
  end.

Definition AddExpr'create (l r : Expr) : Expr := AddExpr'create_fuel (esize l + esize r) l r.
Definition SubExpr'create (l r : Expr) : Expr := SubExpr'create_fuel (esize l + esize r) l r.

(** The static helpers [AddExpr_create] and [SubExpr_create], with the calls of
    the source; [AddExpr'create_eq] and [SubExpr'create_eq] relate them to the
    functions above. *)
Definition AddExpr_create (l r : Expr) : Expr :=
  if getWidth l =? Bool then XorExpr_create l r
  else
    match const_left Add l with
    | Some (k, a) => AddExpr'create (ConstantExpr k) (AddExpr'create a r)
    | None =>
    match const_left Sub l with
    | Some (k, a) => AddExpr'create (ConstantExpr k) (SubExpr'create r a)
    | None =>
    match const_left Add r with
    | Some (k, b) => AddExpr'create (ConstantExpr k) (AddExpr'create l b)
    | None =>
    match const_left Sub r with
    | Some (k, b) => AddExpr'create (ConstantExpr k) (SubExpr'create l b)
    | None => BinaryExpr Add l r
    end end end end.

Definition SubExpr_create (l r : Expr) : Expr :=
  if getWidth l =? Bool then XorExpr_create l r
  else if Expr_eqb l r then ConstantExpr (ConstantExpr'alloc 0 (getWidth l))
  else
    match const_left Add l with
    | Some (k, a) => AddExpr'create (ConstantExpr k) (SubExpr'create a r)
    | None =>
    match const_left Sub l with
    | Some (k, a) => SubExpr'create (ConstantExpr k) (AddExpr'create a r)
    | None =>
    match const_left Add r with
    | Some (k, b) => SubExpr'create (SubExpr'create l b) (ConstantExpr k)
    | None =>
    match const_left Sub r with
    | Some (k, b) => SubExpr'create (AddExpr'create l b) (ConstantExpr k)
    | None => BinaryExpr Sub l r
    end end end end.

(** ** Division, remainder and shifts *)

Definition UDivExpr_create (l r : Expr) : Expr :=
  if getWidth l =? Bool then l (* r must be 1 *) else BinaryExpr UDiv l r.
Definition SDivExpr_create (l r : Expr) : Expr :=
  if getWidth l =? Bool then l else BinaryExpr SDiv l r.
Definition URemExpr_create (l r : Expr) : Expr :=
  if getWidth l =? Bool then ConstantExpr (ConstantExpr'create 0 Bool) else BinaryExpr URem l r.
Definition SRemExpr_create (l r : Expr) : Expr :=
  if getWidth l =? Bool then ConstantExpr (ConstantExpr'create 0 Bool) else BinaryExpr SRem l r.
Definition ShlExpr_create (l r : Expr) : Expr :=
  if getWidth l =? Bool then AndExpr'create l (createIsZero r) else BinaryExpr Shl l r.
Definition LShrExpr_create (l r : Expr) : Expr :=
  if getWidth l =? Bool then AndExpr'create l (createIsZero r) else BinaryExpr LShr l r.
Definition AShrExpr_create (l r : Expr) : Expr :=
  if getWidth l =? Bool then l else BinaryExpr AShr l r.

Definition UDivExpr'create : Expr -> Expr -> Expr := BCREATE (ConstantExpr_arith UDiv) UDivExpr_create.
Definition SDivExpr'create : Expr -> Expr -> Expr := BCREATE (ConstantExpr_arith SDiv) SDivExpr_create.
Definition URemExpr'create : Expr -> Expr -> Expr := BCREATE (ConstantExpr_arith URem) URemExpr_create.
Definition SRemExpr'create : Expr -> Expr -> Expr := BCREATE (ConstantExpr_arith SRem) SRemExpr_create.
Definition ShlExpr'create : Expr -> Expr -> Expr := BCREATE (ConstantExpr_arith Shl) ShlExpr_create.
Definition LShrExpr'create : Expr -> Expr -> Expr := BCREATE (ConstantExpr_arith LShr) LShrExpr_create.
Definition AShrExpr'create : Expr -> Expr -> Expr := BCREATE (ConstantExpr_arith AShr) AShrExpr_create.

(** ** Comparisons *)

Definition NeExpr'create (l r : Expr) : Expr :=
  EqExpr'create (ConstantExpr (ConstantExpr'create 0 Bool)) (EqExpr'create l r).

Definition UltExpr_create (l r : Expr) : Expr :=
  if getWidth l =? Bool then AndExpr'create (createIsZero l) r else CmpExpr Ult l r.
Definition UleExpr_create (l r : Expr) : Expr :=
  if getWidth l =? Bool then OrExpr'create (createIsZero l) r else CmpExpr Ule l r.
Definition SltExpr_create (l r : Expr) : Expr :=
  if getWidth l =? Bool then AndExpr'create l (createIsZero r) else CmpExpr Slt l r.
Definition SleExpr_create (l r : Expr) : Expr :=
  if getWidth l =? Bool then OrExpr'create l (createIsZero r) else CmpExpr Sle l r.

Definition UltExpr'create : Expr -> Expr -> Expr := BCREATE (ConstantExpr_cmp Ult) UltExpr_create.
Definition UleExpr'create : Expr -> Expr -> Expr := BCREATE (ConstantExpr_cmp Ule) UleExpr_create.
Definition SltExpr'create : Expr -> Expr -> Expr := BCREATE (ConstantExpr_cmp Slt) SltExpr_create.
Definition SleExpr'create : Expr -> Expr -> Expr := BCREATE (ConstantExpr_cmp Sle) SleExpr_create.

Definition UgtExpr'create (l r : Expr) : Expr := UltExpr'create r l.
Definition UgeExpr'create (l r : Expr) : Expr := UleExpr'create r l.
Definition SgtExpr'create (l r : Expr) : Expr := SltExpr'create r l.
Definition SgeExpr'create (l r : Expr) : Expr := SleExpr'create r l.

(** ** Not, NotOptimized, Select *)

Definition NotExpr'create (e : Expr) : Expr :=
  match e with
  | ConstantExpr c => ConstantExpr (ConstantExpr_Not c)
  | _ => NotExpr e
  end.

Definition NotOptimizedExpr'create (src : Expr) : Expr := NotOptimizedExpr src.

Definition SelectExpr'create (c t f : Expr) : Expr :=
  let kt := getWidth t in
  match c with
  | ConstantExpr CE => if isTrue CE then t else f
  | _ =>
    if Expr_eqb t f then t
    else if kt =? Bool then
      (* c ? t : f  <=> (c and t) or (not c and f) *)
      match t with
      | ConstantExpr CE =>
        if isTrue CE then OrExpr'create c f else AndExpr'create (createIsZero c) f
      | _ =>
        match f with
        | ConstantExpr CE =>
          if isTrue CE then OrExpr'create (createIsZero c) t else AndExpr'create c t
        | _ => SelectExpr c t f
        end
      end
    else SelectExpr c t f
  end.

(** ** Concat, Extract, ZExt, SExt *)

(** [ZExtExpr::create] and [SExtExpr::create], which truncate with
    [ExtractExpr::create] (the parameter). *)
Definition ZExtExpr'create_with (extract : Expr -> Z -> Z -> Expr) (e : Expr) (w : Z) : Expr :=
  let kBits := getWidth e in
  if w =? kBits then e
  else if w <? kBits then extract e 0 w
  else match e with
       | ConstantExpr CE => ConstantExpr (ConstantExpr_ZExt CE w)
       | _ => CastExpr ZExt e w
       end.

Fixpoint ExtractExpr'create_fuel (n : nat) (expr : Expr) (off w : Z) : Expr :=
  match n with
  | O => ExtractExpr expr off w
  | S n =>
    if w =? getWidth expr then expr
    else
      match expr with
      | ConstantExpr CE => ConstantExpr (ConstantExpr_Extract CE off w)
      | ConcatExpr l r =>
        (* if the extract skips the right side of the concat *)
        if getWidth r <=? off then ExtractExpr'create_fuel n l (off - getWidth r) w
        (* if the extract skips the left side of the concat *)
        else if off + w <=? getWidth r then ExtractExpr'create_fuel n r off w
        (* E(C(x,y)) = C(E(x), E(y)) *)
        else ConcatExpr'create_fuel n
               (ExtractExpr'create_fuel n l 0 (w - getWidth r + off))
               (ExtractExpr'create_fuel n r off (getWidth r - off))
      | CastExpr _ src _ =>
        if off + w <=? getWidth src then
          if (off =? 0) && (w =? getWidth src) then src
          else ExtractExpr'create_fuel n src off w
        else ExtractExpr expr off w
      | _ => ExtractExpr expr off w
      end
  end
with ConcatExpr'create_fuel (n : nat) (l r : Expr) : Expr :=
  match n with
  | O => ConcatExpr l r
  | S n =>
    let w := getWidth l + getWidth r in
    let merge :=
      match l, r with
      | ExtractExpr le lo lw, ExtractExpr re ro rw =>
        (* Merge contiguous Extracts *)
        if Expr_eqb le re && (ro + rw =? lo) then ExtractExpr'create_fuel n le ro w
        else ConcatExpr l r
      | _, _ => ConcatExpr l r
      end in
    match l with
    | ConstantExpr lCE =>
      match r with
      | ConstantExpr rCE => ConstantExpr (ConstantExpr_Concat lCE rCE)
      | _ =>
        if isZero lCE && (getWidth r <? w)
        then ZExtExpr'create_with (ExtractExpr'create_fuel n) r w (* concat 0 x -> zext x *)
        else merge
      end
    | _ => merge
    end
  end.

Definition ExtractExpr'create (expr : Expr) (off w : Z) : Expr :=
  ExtractExpr'create_fuel (2 * esize expr) expr off w.
Definition ConcatExpr'create (l r : Expr) : Expr :=
  ConcatExpr'create_fuel (2 * (esize l + esize r)) l r.

Definition ZExtExpr'create (e : Expr) (w : Z) : Expr := ZExtExpr'create_with ExtractExpr'create e w.

Definition SExtExpr'create (e : Expr) (w : Z) : Expr :=
  let kBits := getWidth e in
  if w =? kBits then e
  else if w <? kBits then ExtractExpr'create e 0 w
  else match e with
       | ConstantExpr CE => ConstantExpr (ConstantExpr_SExt CE w)
       | _ => CastExpr SExt e w
       end.

(** [ConcatExpr::createN]; [None] is the failing assert on no kids. *)
Fixpoint ConcatExpr'createN (kids : list Expr) : option Expr :=
  match kids with
  | [] => None
  | [k] => Some k
  | k :: ks => ConcatExpr'create k <$> ConcatExpr'createN ks
  end.

Definition ConcatExpr'create4 (kid1 kid2 kid3 kid4 : Expr) : Expr :=
  ConcatExpr'create kid1 (ConcatExpr'create kid2 (ConcatExpr'create kid3 kid4)).

Definition ConcatExpr'create8 (kid1 kid2 kid3 kid4 kid5 kid6 kid7 kid8 : Expr) : Expr :=
  ConcatExpr'create kid1 (ConcatExpr'create kid2 (ConcatExpr'create kid3
    (ConcatExpr'create kid4 (ConcatExpr'create4 kid5 kid6 kid7 kid8)))).

(** ** Read *)

(** The loop of [ReadExpr::create]: a value written at the index ([inl]), or
    the update it stops at and whether that update's index is symbolic. *)
Fixpoint ReadExpr'rollback (index : Expr) (un : UpdateNode) : Expr + (UpdateNode * bool) :=
  match un with
  | un_null => inr (un_null, false)
  | un_node next ui uv =>
    match EqExpr'create index ui with
    | ConstantExpr CE => if isTrue CE then inl uv else ReadExpr'rollback index next
    | _ => inr (un, true)
    end
  end.

Definition ReadExpr'create (ul : UpdateList) (index : Expr) : Expr :=
  match ReadExpr'rollback index (ul_head ul) with
  | inl value => value
  | inr (un, updateListHasSymbolicWrites) =>
    (* Try to remove any most recent but unimportant updates *)
    let shortened :=
      match index with
      | ConstantExpr CE =>
        if getZExtValue CE <? size (ul_root ul) then ReadExpr (ul_root ul) un index
        else ReadExpr (ul_root ul) (ul_head ul) index
      | _ => ReadExpr (ul_root ul) (ul_head ul) index
      end in
    if isConstantArray (ul_root ul) && negb updateListHasSymbolicWrites then
      match index with
      | ConstantExpr CE =>
        let concreteIndex := getZExtValue CE in
        if concreteIndex <? size (ul_root ul) then
          match constantValues (ul_root ul) !! Z.to_nat concreteIndex with
          | Some c => ConstantExpr c
          | None => shortened
          end
        else shortened
      | _ => shortened
      end
    else shortened
  end.

(** [Expr::createTempRead]; [None] is the assert on other widths. *)
Definition createTempRead (array : Array) (w : Z) : option Expr :=
  let ul := mkUpdateList array un_null in
  let rd i := ReadExpr'create ul (ConstantExpr (ConstantExpr'alloc i Int32)) in
  if w =? Bool then Some (ZExtExpr'create (rd 0) Bool)
  else if w =? Int8 then Some (rd 0)
  else if w =? Int16 then Some (ConcatExpr'create (rd 1) (rd 0))
  else if w =? Int32 then Some (ConcatExpr'create4 (rd 3) (rd 2) (rd 1) (rd 0))
  else if w =? Int64 then
    Some (ConcatExpr'create8 (rd 7) (rd 6) (rd 5) (rd 4) (rd 3) (rd 2) (rd 1) (rd 0))
  else None.

(** [Expr::createFromKind] on the argument shapes it accepts; [None] is the
    assert on the other kinds. *)
Inductive CreateKind :=
| K_NotOptimized | K_Select | K_Concat | K_Not | K_Read | K_Extract | K_Constant
| K_Cast (k : CastKind) | K_Arith (k : ArithKind) | K_Cmp (k : CmpKind).
Inductive CreateArg := CA_expr (e : Expr) | CA_width (w : Z).

Definition Arith'create (k : ArithKind) : Expr -> Expr -> Expr :=
  match k with
  | Add => AddExpr'create | Sub => SubExpr'create | Mul => MulExpr'create
  | UDiv => UDivExpr'create | SDiv => SDivExpr'create
  | URem => URemExpr'create | SRem => SRemExpr'create
  | And => AndExpr'create | Or => OrExpr'create | Xor => XorExpr'create
  | Shl => ShlExpr'create | LShr => LShrExpr'create | AShr => AShrExpr'create
  end.

Definition Cmp'create (k : CmpKind) : Expr -> Expr -> Expr :=
  match k with
  | Eq => EqExpr'create | Ne => NeExpr'create
  | Ult => UltExpr'create | Ule => UleExpr'create | Ugt => UgtExpr'create | Uge => UgeExpr'create
  | Slt => SltExpr'create | Sle => SleExpr'create | Sgt => SgtExpr'create | Sge => SgeExpr'create
  end.

Definition Cast'create (k : CastKind) : Expr -> Z -> Expr :=
  match k with ZExt => ZExtExpr'create | SExt => SExtExpr'create end.

Definition createFromKind (k : CreateKind) (args : list CreateArg) : option Expr :=
  match k, args with
  | K_NotOptimized, [CA_expr e] => Some (NotOptimizedExpr'create e)
  | K_Select, [CA_expr c; CA_expr t; CA_expr f] => Some (SelectExpr'create c t f)
  | K_Concat, [CA_expr l; CA_expr r] => Some (ConcatExpr'create l r)
  | K_Cast c, [CA_expr e; CA_width w] => Some (Cast'create c e w)
  | K_Arith a, [CA_expr l; CA_expr r] => Some (Arith'create a l r)
  | K_Cmp c, [CA_expr l; CA_expr r] => Some (Cmp'create c l r)
  | _, _ => None
  end.

(** [rebuild(kids)] of every class: the same constructor over new kids.  For a
    read the updates are kept. *)
Definition rebuild (e : Expr) (kids : list Expr) : option Expr :=
  match e, kids with
  | NotOptimizedExpr _, [x] => Some (NotOptimizedExpr'create x)
  | ReadExpr r h _, [i] => Some (ReadExpr'create (mkUpdateList r h) i)
  | SelectExpr _ _ _, [c; t; f] => Some (SelectExpr'create c t f)
  | ConcatExpr _ _, [l; r] => Some (ConcatExpr'create l r)
  | ExtractExpr _ o w, [x] => Some (ExtractExpr'create x o w)
  | CastExpr k _ w, [x] => Some (Cast'create k x w)
  | NotExpr _, [x] => Some (NotExpr'create x)
  | BinaryExpr k _ _, [l; r] => Some (Arith'create k l r)
  | CmpExpr k _ _, [l; r] => Some (Cmp'create k l r)
  | _, _ => None
  end.

(** [UpdateList::extend] *)
Definition UpdateList'extend (ul : UpdateList) (index value : Expr) : UpdateList :=
  mkUpdateList (ul_root ul) (un_node (ul_head ul) index value).

End Create.
