(* ===== verification/ExprCreateSound.v ===== *)
(** * The canonicalizing constructors preserve meaning

    For every operation, the expression returned by [X::create] has the value
    of the plain node wherever that node has one.  The proofs are equational:
    algebraic laws of the nodes ([xor_bool_not], [add_assoc], ...), rewriting
    under the [Proper] instances, and one lemma per static helper. *)

From Stdlib Require Import Morphisms RelationClasses.
From stdpp Require Import strings.
From S2P Require Import Prelude APInt Expr ExprOrder ExprSem ExprCreate.

Section Sound.
Context `{A : APIntOps} {AS : APIntSpec A} `{Opts : ExprOptions}.

(** ** Constants *)

Lemma make_valid v w : 0 < w -> 0 <= v < 2 ^ 64 -> ap_valid (ConstantExpr'alloc v w) = true.
Proof. intros. unfold ConstantExpr'alloc. rewrite ap_make_spec by done. now apply BV.wrap_in_range. Qed.

Lemma make_zero w : 0 < w -> ConstantExpr'alloc 0 w = APInt w 0.
Proof. intros. unfold ConstantExpr'alloc. rewrite ap_make_spec by lia. f_equal. Qed.

Lemma make_one w : 0 < w -> ConstantExpr'alloc 1 w = APInt w 1.
Proof.
  intros. unfold ConstantExpr'alloc. rewrite ap_make_spec by lia. f_equal.
  apply BV.wrap_small. pose proof (Z.pow_gt_1 2 w). lia.
Qed.

Lemma make_bool b : ConstantExpr'alloc (b2z b) Bool = APInt 1 (b2z b).
Proof. destruct b; [now apply make_one|now apply make_zero]. Qed.

Lemma zero_valid w : 0 < w -> ap_valid (APInt w 0) = true.
Proof. intros. apply ap_valid_spec. cbn. pose proof (BV.pow2_pos w). lia. Qed.

Lemma isZero_spec c : ap_valid c = true -> isZero c = (ap_val c =? 0).
Proof. apply ap_isMinValue_spec. Qed.
Lemma isOne_spec c : ap_valid c = true -> isOne c = (ap_val c =? 1).
Proof.
  intros H. unfold isOne. rewrite ap_getLimitedValue_spec by (done || lia).
  zcases; lia.
Qed.
Lemma isAllOnes_spec c : ap_valid c = true -> isAllOnes c = (ap_val c =? 2 ^ ap_width c - 1).
Proof. apply ap_isAllOnesValue_spec. Qed.
Lemma isTrue_spec c :
  ap_valid c = true -> isTrue c = (ap_width c =? 1) && negb (ap_val c =? 0).
Proof. intros H. unfold isTrue, Bool. rewrite ap_getBoolValue_spec by done.
  now destruct (_ =? 1), (_ =? 0). Qed.
Lemma isFalse_spec c : ap_valid c = true -> isFalse c = (ap_width c =? 1) && (ap_val c =? 0).
Proof. intros H. unfold isFalse, Bool. rewrite ap_getBoolValue_spec by done.
  now destruct (_ =? 1), (_ =? 0). Qed.

Lemma ConstantExpr_eqb_eq a b :
  ap_valid a = true -> ap_valid b = true -> ConstantExpr_eqb a b = true <-> a = b.
Proof. intros. unfold ConstantExpr_eqb. rewrite Z.eqb_eq. now apply contents_eq. Qed.

Lemma const_arith k a b :
  BinaryExpr k (ConstantExpr a) (ConstantExpr b) ⊑ ConstantExpr (ConstantExpr_arith k a b).
Proof.
  apply refines_binary. intros rho x y v Hx Hy Vx Vy Hw _ _ Hs.
  apply eval_const_inv in Hx as [-> _]. apply eval_const_inv in Hy as [-> _].
  unfold ConstantExpr_arith. erewrite ap_arith_spec by eauto.
  apply eval_const, ap_valid_spec. cbn. apply ap_valid_spec in Vx, Vy. split; [lia|].
  eapply arith_sem_range; [..|exact Hs]; try lia. rewrite <- Hw; lia.
Qed.

Lemma const_cmp k a b :
  CmpExpr k (ConstantExpr a) (ConstantExpr b) ⊑ ConstantExpr (ConstantExpr_cmp k a b).
Proof.
  apply refines_cmp. intros rho x y Hx Hy Vx Vy Hw _ _.
  apply eval_const_inv in Hx as [-> _]. apply eval_const_inv in Hy as [-> _].
  unfold ConstantExpr_cmp. rewrite make_bool, ap_cmp_spec by auto.
  apply eval_const, b2z_valid.
Qed.

Lemma const_arith_eval rho k a b v :
  ap_valid a = true -> ap_valid b = true -> ap_width a = ap_width b ->
  arith_sem k (ap_width a) (ap_val a) (ap_val b) = Some v ->
  eval rho (ConstantExpr (ConstantExpr_arith k a b)) = Some (APInt (ap_width a) v).
Proof.
  intros. apply const_arith. eapply eval_binary; eauto using eval_const.
Qed.

(** ** Algebraic laws of the nodes *)

Definition commutes (k : ArithKind) : bool :=
  match k with Add | Mul | And | Or | Xor => true | _ => false end.

Lemma arith_comm k l r : commutes k = true -> BinaryExpr k l r ⊑ BinaryExpr k r l.
Proof.
  intros Hk. apply refines_binary. intros rho x y v Hx Hy _ _ Hw _ _ Hs. rewrite <- Hw.
  eapply eval_binary; eauto. rewrite Hw. rewrite <- Hs.
  destruct k; try done; cbn;
    rewrite ?(Z.add_comm (ap_val y)), ?(Z.mul_comm (ap_val y)), ?(Z.land_comm (ap_val y)),
      ?(Z.lor_comm (ap_val y)), ?(Z.lxor_comm (ap_val y)); done.
Qed.

Lemma eq_comm l r : CmpExpr Eq l r ⊑ CmpExpr Eq r l.
Proof.
  apply refines_cmp. intros rho x y Hx Hy _ _ Hw _ _.
  erewrite eval_compare by eauto. cbn. now rewrite Z.eqb_sym.
Qed.

Lemma BCREATE_R_arith k pl pr cr l r :
  (forall l c, BinaryExpr k l (ConstantExpr c) ⊑ pl l c) ->
  (forall c r, BinaryExpr k (ConstantExpr c) r ⊑ pr c r) ->
  (forall l r, BinaryExpr k l r ⊑ cr l r) ->
  BinaryExpr k l r ⊑ BCREATE_R (ConstantExpr_arith k) pl pr cr l r.
Proof. intros. unfold BCREATE_R. destruct l, r; auto using const_arith. Qed.

Lemma BCREATE_arith k cr l r :
  (forall l r, BinaryExpr k l r ⊑ cr l r) ->
  BinaryExpr k l r ⊑ BCREATE (ConstantExpr_arith k) cr l r.
Proof. intros. unfold BCREATE. destruct l, r; auto using const_arith. Qed.

Lemma BCREATE_cmp k cr l r :
  (forall l r, CmpExpr k l r ⊑ cr l r) -> CmpExpr k l r ⊑ BCREATE (ConstantExpr_cmp k) cr l r.
Proof. intros. unfold BCREATE. destruct l, r; auto using const_cmp. Qed.

(** Opens the values of the operands: ranges, widths, and the constants. *)
Ltac open_values :=
  repeat match goal with
  | H : eval _ (ConstantExpr _) = Some _ |- _ => apply eval_const_inv in H as [-> ?]
  | H : ap_valid _ = true |- _ => apply ap_valid_spec in H as [??]
  end.

(** ** And, Or *)

Lemma and_ones w x : 0 <= w -> 0 <= x < 2 ^ w -> Z.land x (2 ^ w - 1) = x.
Proof.
  intros. replace (2 ^ w - 1) with (Z.ones w) by (rewrite Z.ones_equiv; lia).
  rewrite Z.land_ones by lia. now apply Z.mod_small.
Qed.

Lemma or_ones w x : 0 <= w -> 0 <= x < 2 ^ w -> Z.lor x (2 ^ w - 1) = 2 ^ w - 1.
Proof.
  intros Hw Hx. replace (2 ^ w - 1) with (Z.ones w) by (rewrite Z.ones_equiv; lia).
  apply Z.bits_inj'. intros i Hi. rewrite Z.lor_spec. destruct (Z.lt_ge_cases i w).
  - now rewrite Z.ones_spec_low, orb_true_r by lia.
  - rewrite Z.ones_spec_high by lia. now rewrite (BV.testbit_high w x) by lia.
Qed.

Lemma AndExpr_createPartial_sound l c :
  BinaryExpr And l (ConstantExpr c) ⊑ AndExpr_createPartial l c.
Proof.
  unfold AndExpr_createPartial. apply refines_binary. intros rho x y v Hx Hy Vx Vy Hw _ _ Hs.
  apply eval_const_inv in Hy as [-> Hc]. cbn in Hs. injection Hs as <-.
  rewrite isAllOnes_spec, isZero_spec by done. rewrite Hw. apply ap_valid_spec in Vx.
  destruct (Z.eqb_spec (ap_val c) (2 ^ ap_width x - 1)) as [->|].
  { rewrite and_ones by lia. rewrite Hx. now destruct x. }
  destruct (Z.eqb_spec (ap_val c) 0) as [E|].
  { rewrite E, Z.land_0_r. rewrite eval_const by done. destruct c; cbn in *; congruence. }
  eapply eval_binary; eauto using eval_const.
Qed.

Lemma AndExpr'create_sound l r : BinaryExpr And l r ⊑ AndExpr'create l r.
Proof.
  apply BCREATE_R_arith; try reflexivity; intros.
  - apply AndExpr_createPartial_sound.
  - unfold AndExpr_createPartialR. rewrite arith_comm by done. apply AndExpr_createPartial_sound.
Qed.

Lemma OrExpr_createPartial_sound l c :
  BinaryExpr Or l (ConstantExpr c) ⊑ OrExpr_createPartial l c.
Proof.
  unfold OrExpr_createPartial. apply refines_binary. intros rho x y v Hx Hy Vx Vy Hw _ _ Hs.
  apply eval_const_inv in Hy as [-> Hc]. cbn in Hs. injection Hs as <-.
  rewrite isAllOnes_spec, isZero_spec by done. rewrite Hw. apply ap_valid_spec in Vx.
  destruct (Z.eqb_spec (ap_val c) (2 ^ ap_width x - 1)) as [E|].
  { rewrite E, or_ones by lia. rewrite eval_const by done. destruct c; cbn in *; congruence. }
  destruct (Z.eqb_spec (ap_val c) 0) as [->|].
  { rewrite Z.lor_0_r, Hx. now destruct x. }
  eapply eval_binary; eauto using eval_const.
Qed.

Lemma OrExpr'create_sound l r : BinaryExpr Or l r ⊑ OrExpr'create l r.
Proof.
  apply BCREATE_R_arith; try reflexivity; intros.
  - apply OrExpr_createPartial_sound.
  - unfold OrExpr_createPartialR. rewrite arith_comm by done. apply OrExpr_createPartial_sound.
Qed.

(** ** Eq *)

Lemma width1_cases x : ap_valid x = true -> ap_width x = 1 -> ap_val x = 0 \/ ap_val x = 1.
Proof. intros H Hw. apply ap_valid_spec in H. rewrite Hw in H. lia. Qed.

Lemma EqExpr_create_sound l r : CmpExpr Eq l r ⊑ EqExpr_create l r.
Proof.
  apply refines_cmp. intros rho x y Hx Hy Vx Vy Hw _ _. unfold EqExpr_create.
  destruct (Expr_eqb l r) eqn:E.
  - apply Expr_eqb_eq in E; [|eauto using eval_wf..]. subst r.
    assert (x = y) as <- by congruence.
    rewrite make_one by (unfold Bool; lia). cbn. now rewrite Z.eqb_refl.
  - now apply eval_compare.
Qed.

Lemma eq_true_l c r : isTrue c = true -> CmpExpr Eq (ConstantExpr c) r ⊑ r.
Proof.
  intros Hc. apply refines_cmp. intros rho x y Hx Hy Vx Vy Hw _ _.
  apply eval_const_inv in Hx as [-> _]. rewrite isTrue_spec in Hc by done. inv_eval.
  rewrite Hy. f_equal. rewrite negb_true_iff, Z.eqb_neq in H0. cbn.
  destruct y as [w v]. destruct (width1_cases c) as [Ec|Ec], (width1_cases (APInt w v)) as [Ev|Ev];
    cbn in *; try done; try congruence; subst; rewrite Ec; cbn; congruence.
Qed.

Lemma eq_double_negation c c' r :
  ap_width c = 1 -> isTrue c = false -> isFalse c' = true ->
  CmpExpr Eq (ConstantExpr c) (CmpExpr Eq (ConstantExpr c') r) ⊑ r.
Proof.
  intros Hwc Hc Hc' rho v Hv.
  apply eval_compare_inv in Hv as (x & y & Hx & Hy & Vx & _ & _ & ->).
  apply eval_compare_inv in Hy as (x' & v & Hx' & Hv & Vx' & Vv & Hw & ->).
  apply eval_const_inv in Hx as [-> _]. apply eval_const_inv in Hx' as [-> _].
  rewrite isTrue_spec, Hwc in Hc by done. cbn in Hc. rewrite negb_false_iff, Z.eqb_eq in Hc.
  rewrite isFalse_spec in Hc' by done. inv_eval. rewrite Hv. f_equal. cbn. rewrite Hc, H0.
  destruct v as [w n]. destruct (width1_cases (APInt w n) Vv) as [E|E]; cbn in *; subst;
    cbn; congruence.
Qed.

Lemma eq_not_or c a b :
  ap_width c = 1 -> isTrue c = false ->
  CmpExpr Eq (ConstantExpr c) (BinaryExpr Or a b) ⊑
  BinaryExpr And (CmpExpr Eq a (ConstantExpr (ConstantExpr'create 0 (getWidth a))))
                 (CmpExpr Eq b (ConstantExpr (ConstantExpr'create 0 (getWidth b)))).
Proof.
  intros Hwc Hc rho v Hv.
  apply eval_compare_inv in Hv as (x & o & Hx & Ho & Vx & _ & Hw & ->).
  apply eval_binary_inv in Ho as (va & vb & Ha & Hb & Va & Vb & Hab & Hwo & Hs).
  apply eval_const_inv in Hx as [-> _].
  rewrite isTrue_spec, Hwc in Hc by done. cbn in Hc. rewrite negb_false_iff, Z.eqb_eq in Hc.
  assert (Wa : ap_width va = 1) by congruence. assert (Wb : ap_width vb = 1) by congruence.
  unfold ConstantExpr'create. rewrite (eval_width _ _ _ Ha), (eval_width _ _ _ Hb), Wa, Wb, make_zero by lia.
  cbn in Hs. injection Hs as Hs.
  rewrite (eval_binary _ And _ _ (APInt 1 (b2z (ap_val va =? 0))) (APInt 1 (b2z (ap_val vb =? 0)))
             (b2z ((ap_val va =? 0) && (ap_val vb =? 0)))).
  - unfold cmp_sem. rewrite Hc, <- Hs.
    destruct (width1_cases va) as [E1|E1], (width1_cases vb) as [E2|E2]; try done;
      now rewrite E1, E2.
  - erewrite eval_compare; eauto using eval_const. done.
  - erewrite eval_compare; eauto using eval_const. done.
  - done.
  - cbn. now destruct (ap_val va =? 0), (ap_val vb =? 0).
Qed.

Lemma wrap_cast k f t x : 0 < f <= t -> 0 <= x < 2 ^ f -> BV.wrap f (cast_sem k f t x) = x.
Proof.
  intros. destruct k; cbn; rewrite BV.wrap_wrap_le by lia.
  - now apply BV.wrap_small.
  - now apply BV.wrap_signed.
Qed.

Definition ConstantExpr_cast (k : CastKind) : apint -> Z -> apint :=
  match k with ZExt => ConstantExpr_ZExt | SExt => ConstantExpr_SExt end.

Lemma ConstantExpr_cast_spec k a w :
  ap_valid a = true -> 0 < w ->
  ConstantExpr_cast k a w = APInt w (cast_sem k (ap_width a) w (ap_val a)).
Proof. intros. destruct k; [now apply ap_zextOrTrunc_spec|now apply ap_sextOrTrunc_spec]. Qed.

Lemma cast_valid k f t x : 0 < t -> ap_valid (APInt t (cast_sem k f t x)) = true.
Proof. intros. apply ap_valid_spec. split; [done|]. now apply cast_sem_range. Qed.

(** (ext(a,T)==c) == (a==trunc c), when c is the extension of some value. *)
Lemma eq_cast k c src w :
  CmpExpr Eq (ConstantExpr c) (CastExpr k src w) ⊑
  (let trunc := ConstantExpr_ZExt c (getWidth src) in
   if ConstantExpr_eqb c (ConstantExpr_cast k trunc (ap_width c))
   then CmpExpr Eq src (ConstantExpr trunc)
   else ConstantExpr (ConstantExpr'create 0 Bool)).
Proof.
  intros rho v Hv. apply eval_compare_inv in Hv as (x & y & Hx & Hy & Vx & _ & Hw & ->).
  apply eval_cast_expr_inv in Hy as (s & Hs & Vs & Hle & ->). cbn in Hw.
  apply eval_const_inv in Hx as [-> _]. cbn zeta. rewrite (eval_width _ _ _ Hs).
  apply ap_valid_spec in Vs as Rs. apply ap_valid_spec in Vx as Rc.
  unfold ConstantExpr_ZExt. rewrite ap_zextOrTrunc_spec by (done || lia). cbn [cast_sem].
  rewrite ConstantExpr_cast_spec by (try apply BV.wrap_in_range; lia).
  cbn [ap_width ap_val].
  destruct (ConstantExpr_eqb _ _) eqn:E.
  - apply ConstantExpr_eqb_eq in E; [|done|apply cast_valid; lia].
    erewrite eval_compare; [|exact Hs|apply eval_const, BV.wrap_in_range; lia|done].
    do 3 f_equal. cbn. destruct (Z.eqb_spec (ap_val s) (BV.wrap (ap_width s) (ap_val c))) as [Heq|Heq].
    + symmetry. apply Z.eqb_eq. apply (f_equal ap_val) in E. cbn in E. rewrite E at 1. now rewrite <- Heq, Hw.
    + symmetry. apply Z.eqb_neq. contradict Heq. rewrite Heq. symmetry. apply wrap_cast; lia.
  - unfold ConstantExpr'create. rewrite make_zero by (unfold Bool; lia).
    rewrite eval_const by done. do 2 f_equal. cbn.
    destruct (Z.eqb_spec (ap_val c) (cast_sem k (ap_width s) w (ap_val s))) as [Heq|]; [|done].
    exfalso. enough (ConstantExpr_eqb c (APInt (ap_width c)
       (cast_sem k (ap_width s) (ap_width c) (BV.wrap (ap_width s) (ap_val c)))) = true) by congruence.
    apply ConstantExpr_eqb_eq; [done|apply cast_valid; lia|].
    destruct c as [cw cv]; cbn in *. subst. f_equal. f_equal. symmetry. apply wrap_cast; lia.
Qed.

Lemma wrap_eq_add w a b c :
  0 <= a < 2 ^ w -> 0 <= b < 2 ^ w -> (a =? BV.wrap w (c + b)) = (BV.wrap w (a - c) =? b).
Proof.
  intros. apply eq_true_iff_eq. rewrite !Z.eqb_eq. split; [intros ->|intros <-].
  - autorewrite with bv. rewrite <- (BV.wrap_small w b) at 2 by lia. f_equal; lia.
  - autorewrite with bv. rewrite <- (BV.wrap_small w a) at 1 by lia. f_equal; lia.
Qed.

Lemma wrap_eq_sub w a b c :
  0 <= a < 2 ^ w -> 0 <= b < 2 ^ w -> (a =? BV.wrap w (c - b)) = (BV.wrap w (c - a) =? b).
Proof.
  intros. apply eq_true_iff_eq. rewrite !Z.eqb_eq. split; [intros ->|intros <-].
  - autorewrite with bv. rewrite <- (BV.wrap_small w b) at 2 by lia. f_equal; lia.
  - autorewrite with bv. rewrite <- (BV.wrap_small w a) at 1 by lia. f_equal; lia.
Qed.

Lemma eq_add_const c0 c1 b :
  CmpExpr Eq (ConstantExpr c0) (BinaryExpr Add (ConstantExpr c1) b) ⊑
  CmpExpr Eq (ConstantExpr (ConstantExpr_arith Sub c0 c1)) b.
Proof.
  intros rho v Hv. apply eval_compare_inv in Hv as (x & y & Hx & Hy & Vx & _ & Hw & ->).
  apply eval_binary_inv in Hy as (x1 & vb & Hx1 & Hb & V1 & Vb & Hwb & Hwy & Hs).
  apply eval_const_inv in Hx as [-> _]. apply eval_const_inv in Hx1 as [-> _].
  cbn in Hs. injection Hs as Hs. apply ap_valid_spec in Vb as Rb. apply ap_valid_spec in Vx as R0.
  erewrite eval_compare; [|eapply const_arith_eval; eauto; try congruence; reflexivity|exact Hb|cbn; congruence].
  cbn. rewrite <- Hs. do 3 f_equal. replace (ap_width c1) with (ap_width c0) by congruence.
  symmetry. apply wrap_eq_add; [lia|]. replace (ap_width c0) with (ap_width vb) by congruence. lia.
Qed.

Lemma eq_sub_const c0 c1 b :
  CmpExpr Eq (ConstantExpr c0) (BinaryExpr Sub (ConstantExpr c1) b) ⊑
  CmpExpr Eq (ConstantExpr (ConstantExpr_arith Sub c1 c0)) b.
Proof.
  intros rho v Hv. apply eval_compare_inv in Hv as (x & y & Hx & Hy & Vx & _ & Hw & ->).
  apply eval_binary_inv in Hy as (x1 & vb & Hx1 & Hb & V1 & Vb & Hwb & Hwy & Hs).
  apply eval_const_inv in Hx as [-> _]. apply eval_const_inv in Hx1 as [-> _].
  cbn in Hs. injection Hs as Hs. apply ap_valid_spec in Vb as Rb. apply ap_valid_spec in Vx as R0.
  erewrite eval_compare; [|eapply const_arith_eval; eauto; try congruence; reflexivity|exact Hb|cbn; congruence].
  cbn. rewrite <- Hs. do 3 f_equal. replace (ap_width c1) with (ap_width c0) by congruence.
  symmetry. apply wrap_eq_sub; [lia|]. replace (ap_width c0) with (ap_width vb) by congruence. lia.
Qed.

(** The disjunction [TryConstArrayOpt] builds: some element from position [i]
    on holds the constant and is the one the index selects. *)
Fixpoint const_hits (cl : apint) (values : list apint) (i ival : Z) : bool :=
  match values with
  | [] => false
  | v :: values => (ConstantExpr_eqb cl v && (ival =? i)) || const_hits cl values (i + 1) ival
  end.

Lemma const_hits_lookup cl values i ival c :
  i <= ival -> values !! Z.to_nat (ival - i) = Some c ->
  const_hits cl values i ival = ConstantExpr_eqb cl c.
Proof.
  revert i. induction values as [|v values IH]; intros i Hi Hl; [done|]. cbn.
  destruct (Z.eqb_spec ival i) as [->|].
  - rewrite Z.sub_diag in Hl. injection Hl as ->. rewrite andb_true_r.
    enough (const_hits cl values (i + 1) i = false) as -> by now rewrite orb_false_r.
    clear. assert (H : i < i + 1) by lia. revert H. generalize (i + 1) as j.
    induction values as [|v values IH]; intros j Hj; [done|]. cbn.
    rewrite (proj2 (Z.eqb_neq i j)), andb_false_r by lia. apply IH. lia.
  - rewrite andb_false_r, orb_false_l. apply IH; [lia|].
    rewrite <- Hl. replace (Z.to_nat (ival - i)) with (S (Z.to_nat (ival - (i + 1)))) by lia. done.
Qed.

Lemma TryConstArrayOpt_loop_sound eqIndex cl index rho iv values i n res b e :
  (forall c, CmpExpr Eq index (ConstantExpr c) ⊑ eqIndex c) ->
  eval rho index = Some iv -> 0 <= i -> i + Z.of_nat (length values) <= 2 ^ ap_width iv ->
  i + Z.of_nat (length values) < 2 ^ 32 ->
  eval rho res = Some (APInt 1 (b2z b)) ->
  TryConstArrayOpt_loop eqIndex (getWidth index) cl values i n res = Some e ->
  eval rho e = Some (APInt 1 (b2z (b || const_hits cl values i (ap_val iv)))).
Proof.
  intros Heq Hiv. rewrite (eval_width _ _ _ Hiv). pose proof (eval_valid _ _ _ Hiv) as V.
  apply ap_valid_spec in V as R.
  revert i n res b. induction values as [|v values IH]; cbn -[OrExpr'create Z.pow];
    intros i n res b Hi Hl Hl32 Hres He.
  { injection He as <-. now rewrite orb_false_r. }
  destruct (ConstantExpr_eqb cl v); cbn -[OrExpr'create Z.pow].
  - destruct (100 <? n + 1); [done|]. rewrite orb_assoc. eapply IH in He; [exact He|lia..|].
    unfold ConstantExpr'alloc. rewrite ap_make_spec by lia. rewrite BV.wrap_small by lia.
    apply OrExpr'create_sound. eapply eval_binary_at; [exact Hres| |].
    + apply Heq. erewrite eval_compare; [done|exact Hiv|apply eval_const|done].
      apply ap_valid_spec. cbn. lia.
    + cbn. now destruct b, (ap_val iv =? i).
  - eapply IH in He; [exact He|lia..|done].
Qed.

Lemma un_size_nonneg u : 0 <= un_size u.
Proof. induction u; cbn; lia. Qed.

Lemma TryConstArrayOpt_sound eqIndex cl root head index :
  (forall c, CmpExpr Eq index (ConstantExpr c) ⊑ eqIndex c) ->
  CmpExpr Eq (ConstantExpr cl) (ReadExpr root head index) ⊑
  TryConstArrayOpt eqIndex cl root head index.
Proof.
  intros Heq. unfold TryConstArrayOpt.
  destruct (isSymbolicArray root || negb (un_size head =? 0)) eqn:Es; [apply EqExpr_create_sound|].
  apply orb_false_iff in Es as [Es Eh]. apply negb_false_iff in Es, Eh.
  destruct head as [|n i v]; [|cbn in Eh; pose proof (un_size_nonneg n); lia].
  destruct (TryConstArrayOpt_loop _ _ _ _ _ _ _) eqn:El; [|apply EqExpr_create_sound].
  intros rho v Hv. apply eval_compare_inv in Hv as (x & y & Hx & Hy & Vx & Vy & Hw & ->).
  apply eval_const_inv in Hx as [-> _].
  apply eval_read_expr_inv in Hy as (us & iv & Hu & Hi & Vi & Hr & Hdi & Hwy & Hrd).
  cbn in Hu. injection Hu as <-. cbn in Hrd. unfold initial_value in Hrd. rewrite Es in Hrd.
  destruct (constantValues root !! Z.to_nat (ap_val iv)) as [c|] eqn:Ec; [|done].
  cbn in Hrd. injection Hrd as Hrd. destruct (array_ok_const _ _ _ Hr Ec) as [Vc Wc].
  assert (Z.of_nat (length (constantValues root)) <= 2 ^ ap_width iv /\
          Z.of_nat (length (constantValues root)) < 2 ^ 32) as [Hl Hl32].
  { unfold array_ok, isSymbolicArray in Hr. rewrite Es in Hr. cbn in Hr. inv_eval.
    rewrite Hdi. lia. }
  eapply (TryConstArrayOpt_loop_sound _ _ _ rho iv) with (b := false) in El;
    [|done|done|lia|lia|lia|rewrite make_zero by (unfold Bool; lia); now apply eval_const].
  rewrite El. cbn [orb]. do 3 f_equal. apply ap_valid_spec in Vi.
  erewrite const_hits_lookup; [|lia|rewrite Z.sub_0_r; exact Ec].
  cbn. apply eq_true_iff_eq. rewrite ConstantExpr_eqb_eq, Z.eqb_eq by done.
  rewrite <- Hrd. split; [now intros ->|]. destruct cl, c; cbn in *; congruence.
Qed.

(** [EqExpr::create(x, c)] as it appears inside [EqExpr_createPartialR]. *)
Lemma eq_const_r_sound (f : apint -> Expr -> Expr) x c :
  (forall c, CmpExpr Eq (ConstantExpr c) x ⊑ f c x) ->
  CmpExpr Eq x (ConstantExpr c) ⊑
  match x with
  | ConstantExpr cx => ConstantExpr (ConstantExpr_cmp Eq cx c)
  | _ => f c x
  end.
Proof.
  intros H. assert (CmpExpr Eq x (ConstantExpr c) ⊑ f c x) by (rewrite eq_comm; apply H).
  destruct x; auto using const_cmp.
Qed.

Lemma EqExpr_createPartialR_sound r cl :
  CmpExpr Eq (ConstantExpr cl) r ⊑ EqExpr_createPartialR cl r.
Proof.
  revert cl. induction r using Expr_mut with (P0 := fun _ => True); try exact I; intros cl;
    cbn [EqExpr_createPartialR]; unfold Bool;
    destruct (Z.eqb_spec (ap_width cl) 1) as [Hw|Hw];
    try (destruct (isTrue cl) eqn:Ht; [now apply eq_true_l|]); try apply EqExpr_create_sound.
  - destruct ConstArrayOpt; [|apply EqExpr_create_sound].
    apply TryConstArrayOpt_sound. intros c. now apply eq_const_r_sound.
  - rewrite eq_cast. cbn zeta. destruct k; cbn [ConstantExpr_cast];
      destruct (ConstantExpr_eqb _ _); [now apply eq_const_r_sound|reflexivity|now apply eq_const_r_sound|reflexivity].
  - destruct k; try apply EqExpr_create_sound.
    rewrite eq_not_or by done. etransitivity; [|apply AndExpr'create_sound].
    apply BinaryExpr_proper; [done|now apply eq_const_r_sound..].
  - destruct k; try apply EqExpr_create_sound; destruct r1; try apply EqExpr_create_sound.
    + rewrite eq_add_const. auto.
    + rewrite eq_sub_const. auto.
  - destruct k; try apply EqExpr_create_sound; destruct r1; try apply EqExpr_create_sound.
    destruct (_ && _) eqn:E; [|apply EqExpr_create_sound].
    apply andb_true_iff in E as [_ E]. now apply eq_double_negation.
Qed.

Lemma EqExpr'create_sound l r : CmpExpr Eq l r ⊑ EqExpr'create l r.
Proof.
  assert (forall l c, CmpExpr Eq l (ConstantExpr c) ⊑ EqExpr_createPartial l c)
    by (intros; unfold EqExpr_createPartial; rewrite eq_comm; apply EqExpr_createPartialR_sound).
  unfold EqExpr'create, BCREATE_R.
  destruct l, r; auto using const_cmp, EqExpr_createPartialR_sound, EqExpr_create_sound.
Qed.

(** [createIsZero] of a Boolean is its negation. *)
Lemma createIsZero_bool rho e v :
  eval rho e = Some (APInt 1 v) -> eval rho (createIsZero e) = Some (APInt 1 (1 - v)).
Proof.
  intros He. unfold createIsZero, ConstantExpr'create. rewrite (eval_width _ _ _ He).
  cbn [ap_width]. rewrite make_zero by lia. apply EqExpr'create_sound.
  erewrite eval_compare_at; [|exact He|now apply eval_const].
  destruct (width1_cases _ (eval_valid _ _ _ He) eq_refl) as [E|E]; cbn in E; now subst.
Qed.

(** ** Xor, Mul *)

Lemma XorExpr_createPartialR_sound c r :
  BinaryExpr Xor (ConstantExpr c) r ⊑ XorExpr_createPartialR c r.
Proof.
  apply refines_binary. intros rho x y v Hx Hy Vx Vy Hw _ _ Hs.
  apply eval_const_inv in Hx as [-> Vc]. cbn in Hs. injection Hs as <-.
  unfold XorExpr_createPartialR. rewrite isZero_spec by done.
  destruct (Z.eqb_spec (ap_val c) 0) as [E|E].
  { rewrite E, Z.lxor_0_l, Hy, <- Hw. now destruct y. }
  destruct (Z.eqb_spec (ap_width c) Bool) as [E1|]; unfold Bool in *.
  - unfold EqExpr_createPartial, ConstantExpr'create. rewrite make_zero by lia.
    apply EqExpr_createPartialR_sound. destruct y as [w n]; cbn [ap_width ap_val] in *; subst w.
    erewrite eval_compare_at; [|now apply eval_const|rewrite Hy, E1; reflexivity]. rewrite E1. do 2 f_equal.
    destruct (width1_cases _ Vc) as [E2|E2], (width1_cases _ Vy) as [E3|E3]; cbn in *; try done.
    all: rewrite E2; now subst.
  - eapply eval_binary; eauto using eval_const.
Qed.

Lemma XorExpr'create_sound l r : BinaryExpr Xor l r ⊑ XorExpr'create l r.
Proof.
  apply BCREATE_R_arith; try reflexivity; intros; [|apply XorExpr_createPartialR_sound].
  unfold XorExpr_createPartial. rewrite arith_comm by done. apply XorExpr_createPartialR_sound.
Qed.

(** At width 1 addition and subtraction are exclusive or, multiplication is and. *)
Lemma bool_arith l r :
  getWidth l = 1 ->
  BinaryExpr Add l r ⊑ BinaryExpr Xor l r /\ BinaryExpr Sub l r ⊑ BinaryExpr Xor l r /\
  BinaryExpr Mul l r ⊑ BinaryExpr And l r.
Proof.
  intros Hl. split_and!; apply refines_binary; intros rho x y v Hx Hy Vx Vy Hw Wl _ Hs;
    eapply eval_binary; eauto; rewrite <- Hs; rewrite Hl in Wl; symmetry in Wl; rewrite Wl in *;
    destruct (width1_cases _ Vx) as [E|E], (width1_cases _ Vy) as [E'|E']; try done; now rewrite E, E'.
Qed.

Lemma MulExpr_createPartialR_sound c r :
  BinaryExpr Mul (ConstantExpr c) r ⊑ MulExpr_createPartialR c r.
Proof.
  unfold MulExpr_createPartialR. destruct (Z.eqb_spec (ap_width c) Bool) as [E|_].
  { rewrite (proj2 (proj2 (bool_arith (ConstantExpr c) r E))), arith_comm by done.
    apply AndExpr_createPartial_sound. }
  apply refines_binary. intros rho x y v Hx Hy Vx Vy Hw _ _ Hs.
  apply eval_const_inv in Hx as [-> Vc]. cbn in Hs. injection Hs as <-.
  rewrite isOne_spec, isZero_spec by done. apply ap_valid_spec in Vy as Ry. rewrite Hw in Ry.
  destruct (Z.eqb_spec (ap_val c) 1) as [->|].
  { rewrite Z.mul_1_l, BV.wrap_small by lia. rewrite Hy, <- Hw. now destruct y. }
  destruct (Z.eqb_spec (ap_val c) 0) as [E|].
  { rewrite eval_const, E by done. destruct c; cbn in *. now rewrite E. }
  eapply eval_binary; eauto using eval_const.
Qed.

Lemma MulExpr'create_sound l r : BinaryExpr Mul l r ⊑ MulExpr'create l r.
Proof.
  apply BCREATE_R_arith; intros; [|apply MulExpr_createPartialR_sound|].
  - unfold MulExpr_createPartial. rewrite arith_comm by done. apply MulExpr_createPartialR_sound.
  - unfold MulExpr_create. destruct (Z.eqb_spec (getWidth l0) Bool) as [E|]; [|reflexivity].
    now apply bool_arith.
Qed.

(** ** Add, Sub *)

Lemma add_add_l k a b : BinaryExpr Add (BinaryExpr Add k a) b ⊑ BinaryExpr Add k (BinaryExpr Add a b).
Proof. lin_law. Qed.
Lemma add_sub_l k a b : BinaryExpr Add (BinaryExpr Sub k a) b ⊑ BinaryExpr Add k (BinaryExpr Sub b a).
Proof. lin_law. Qed.
Lemma add_add_r k a b : BinaryExpr Add a (BinaryExpr Add k b) ⊑ BinaryExpr Add k (BinaryExpr Add a b).
Proof. lin_law. Qed.
Lemma add_sub_r k a b : BinaryExpr Add a (BinaryExpr Sub k b) ⊑ BinaryExpr Add k (BinaryExpr Sub a b).
Proof. lin_law. Qed.
Lemma sub_add_l k a b : BinaryExpr Sub (BinaryExpr Add k a) b ⊑ BinaryExpr Add k (BinaryExpr Sub a b).
Proof. lin_law. Qed.
Lemma sub_sub_l k a b : BinaryExpr Sub (BinaryExpr Sub k a) b ⊑ BinaryExpr Sub k (BinaryExpr Add a b).
Proof. lin_law. Qed.
Lemma sub_add_r k a b : BinaryExpr Sub a (BinaryExpr Add k b) ⊑ BinaryExpr Sub (BinaryExpr Sub a b) k.
Proof. lin_law. Qed.
Lemma sub_sub_r k a b : BinaryExpr Sub a (BinaryExpr Sub k b) ⊑ BinaryExpr Sub (BinaryExpr Add a b) k.
Proof. lin_law. Qed.
Lemma add_assoc_r a b c : BinaryExpr Add a (BinaryExpr Add b c) ⊑ BinaryExpr Add (BinaryExpr Add a b) c.
Proof. lin_law. Qed.
Lemma add_sub_assoc_r a b c : BinaryExpr Add a (BinaryExpr Sub b c) ⊑ BinaryExpr Sub (BinaryExpr Add a b) c.
Proof. lin_law. Qed.
Lemma sub_add_assoc_r a b c : BinaryExpr Sub a (BinaryExpr Add b c) ⊑ BinaryExpr Sub (BinaryExpr Sub a b) c.
Proof. lin_law. Qed.
Lemma sub_sub_assoc_r a b c : BinaryExpr Sub a (BinaryExpr Sub b c) ⊑ BinaryExpr Add (BinaryExpr Sub a b) c.
Proof. lin_law. Qed.

Lemma add_zero_l c r : isZero c = true -> BinaryExpr Add (ConstantExpr c) r ⊑ r.
Proof.
  intros Hc. apply refines_binary. intros rho x y v Hx Hy Vx Vy Hw _ _ Hs.
  apply eval_const_inv in Hx as [-> _]. rewrite isZero_spec, Z.eqb_eq in Hc by done.
  cbn in Hs. injection Hs as <-. apply ap_valid_spec in Vy. rewrite Hw in Vy.
  rewrite Hc, Z.add_0_l, BV.wrap_small by lia. rewrite Hy, <- Hw. now destruct y.
Qed.

(** A node over a folded constant, as [X::create(const, x)] builds it. *)
Lemma fold_const_l k (f : apint -> Expr -> Expr) c x :
  (forall c, BinaryExpr k (ConstantExpr c) x ⊑ f c x) ->
  BinaryExpr k (ConstantExpr c) x ⊑
  match x with
  | ConstantExpr cx => ConstantExpr (ConstantExpr_arith k c cx)
  | _ => f c x
  end.
Proof. intros H. destruct x; auto using const_arith. Qed.

Lemma AddSubExpr_createPartialR_sound r :
  (forall c, BinaryExpr Add (ConstantExpr c) r ⊑ AddExpr_createPartialR c r) /\
  (forall c, BinaryExpr Sub (ConstantExpr c) r ⊑ SubExpr_createPartialR c r).
Proof.
  induction r using Expr_mut with (P0 := fun _ => True); try exact I; split; intros c;
    cbn [AddExpr_createPartialR SubExpr_createPartialR];
    (destruct (Z.eqb_spec (ap_width c) Bool) as [Hw|Hw];
     [ edestruct (bool_arith (ConstantExpr c)) as (Ha & Hs & _); [exact Hw|];
       first [rewrite Ha | rewrite Hs]; apply XorExpr_createPartialR_sound |]);
    try (destruct (isZero c) eqn:Hz; [now apply add_zero_l|]); try reflexivity.
  all: destruct k; try reflexivity; destruct r1; try reflexivity.
  all: destruct IHr2 as [IHa IHs].
  - rewrite add_assoc_r, const_arith. now apply fold_const_l.
  - rewrite add_sub_assoc_r, const_arith. now apply fold_const_l.
  - rewrite sub_add_assoc_r, const_arith. now apply fold_const_l.
  - rewrite sub_sub_assoc_r, const_arith. now apply fold_const_l.
Qed.

Lemma AddExpr'create_constL_sound c x :
  BinaryExpr Add (ConstantExpr c) x ⊑ AddExpr'create_constL c x.
Proof. apply fold_const_l. intros. apply AddSubExpr_createPartialR_sound. Qed.

Lemma SubExpr'create_constL_sound c x :
  BinaryExpr Sub (ConstantExpr c) x ⊑ SubExpr'create_constL c x.
Proof. apply fold_const_l. intros. apply AddSubExpr_createPartialR_sound. Qed.

Lemma AddExpr_createPartial_sound l c :
  BinaryExpr Add l (ConstantExpr c) ⊑ AddExpr_createPartial l c.
Proof.
  unfold AddExpr_createPartial. rewrite arith_comm by done. apply AddSubExpr_createPartialR_sound.
Qed.

Lemma sub_const l c :
  BinaryExpr Sub l (ConstantExpr c) ⊑
  BinaryExpr Add l (ConstantExpr (ConstantExpr_arith Sub (ConstantExpr'alloc 0 (ap_width c)) c)).
Proof.
  apply refines_binary. intros rho x y v Hx Hy Vx Vy Hw _ _ Hs.
  apply eval_const_inv in Hy as [-> Vc]. apply ap_valid_spec in Vc as Rc.
  assert (V0 : ap_valid (APInt (ap_width c) 0) = true) by (apply zero_valid; lia).
  rewrite make_zero by lia. cbn in Hs. injection Hs as <-. rewrite <- Hw.
  destruct x as [w a]; cbn [ap_width ap_val] in *; subst w.
  erewrite eval_binary_at; [|exact Hx| |reflexivity].
  2: exact (const_arith_eval _ Sub (APInt (ap_width c) 0) c _ V0 Vc eq_refl eq_refl).
  f_equal. f_equal. cbn. bv_ring.
Qed.

Lemma SubExpr_createPartial_sound l c :
  BinaryExpr Sub l (ConstantExpr c) ⊑ SubExpr_createPartial l c.
Proof. unfold SubExpr_createPartial. rewrite sub_const. apply AddExpr_createPartial_sound. Qed.

Lemma SubExpr'create_constR_sound x c :
  BinaryExpr Sub x (ConstantExpr c) ⊑ SubExpr'create_constR x c.
Proof.
  unfold SubExpr'create_constR. destruct x; auto using const_arith, SubExpr_createPartial_sound.
Qed.

Lemma sub_self l r :
  Expr_eqb l r = true -> BinaryExpr Sub l r ⊑ ConstantExpr (ConstantExpr'alloc 0 (getWidth l)).
Proof.
  intros He. apply refines_binary. intros rho x y v Hx Hy Vx Vy Hw Hwl _ Hs.
  apply Expr_eqb_eq in He; [|eauto using eval_wf..]. subst r. assert (x = y) as <- by congruence.
  cbn in Hs. rewrite Z.sub_diag in Hs. injection Hs as <-. apply ap_valid_spec in Vx.
  rewrite Hwl, make_zero by lia. apply eval_const, zero_valid. lia.
Qed.

(** Apply a law, rebuild the inner node, then the outer one. *)
Lemma refines_rebuild k e l l' r r' e' :
  e ⊑ BinaryExpr k l r -> l ⊑ l' -> r ⊑ r' -> BinaryExpr k l' r' ⊑ e' -> e ⊑ e'.
Proof. intros He Hl Hr He'. rewrite He, Hl, Hr. exact He'. Qed.

Lemma const_left_spec k e c b :
  const_left k e = Some (c, b) <-> e = BinaryExpr k (ConstantExpr c) b.
Proof.
  split; [|intros ->; cbn; now rewrite decide_True].
  destruct e; try done. cbn. destruct e1; try done. case_decide; naive_solver.
Qed.

Ltac const_left_cases :=
  repeat match goal with
  | |- context [match const_left ?k ?e with _ => _ end] =>
    let E := fresh "E" in
    destruct (const_left k e) as [[??]|] eqn:E; [apply const_left_spec in E; subst e|clear E]
  end.

Lemma AddExpr_create_body_sound addF subF l r :
  (forall l r, BinaryExpr Add l r ⊑ addF l r) -> (forall l r, BinaryExpr Sub l r ⊑ subF l r) ->
  BinaryExpr Add l r ⊑ AddExpr_create_body addF subF l r.
Proof.
  intros IHa IHs. unfold AddExpr_create_body.
  destruct (Z.eqb_spec (getWidth l) Bool) as [Hw|_]; [now apply bool_arith|].
  const_left_cases; [..|reflexivity];
    (eapply (refines_rebuild Add); [|reflexivity| |apply AddExpr'create_constL_sound]);
    [apply add_add_l|apply IHa|apply add_sub_l|apply IHs
    |apply add_add_r|apply IHa|apply add_sub_r|apply IHs].
Qed.

Lemma SubExpr_create_body_sound addF subF l r :
  (forall l r, BinaryExpr Add l r ⊑ addF l r) -> (forall l r, BinaryExpr Sub l r ⊑ subF l r) ->
  BinaryExpr Sub l r ⊑ SubExpr_create_body addF subF l r.
Proof.
  intros IHa IHs. unfold SubExpr_create_body.
  destruct (Z.eqb_spec (getWidth l) Bool) as [Hw|_]; [now apply bool_arith|].
  destruct (Expr_eqb l r) eqn:He; [now apply sub_self|].
  const_left_cases; [..|reflexivity].
  - eapply (refines_rebuild Add);
      [apply sub_add_l|reflexivity|apply IHs|apply AddExpr'create_constL_sound].
  - eapply (refines_rebuild Sub);
      [apply sub_sub_l|reflexivity|apply IHa|apply SubExpr'create_constL_sound].
  - eapply (refines_rebuild Sub);
      [apply sub_add_r|apply IHs|reflexivity|apply SubExpr'create_constR_sound].
  - eapply (refines_rebuild Sub);
      [apply sub_sub_r|apply IHa|reflexivity|apply SubExpr'create_constR_sound].
Qed.

Lemma AddSubExpr'create_fuel_sound n :
  (forall l r, BinaryExpr Add l r ⊑ AddExpr'create_fuel n l r) /\
  (forall l r, BinaryExpr Sub l r ⊑ SubExpr'create_fuel n l r).
Proof.
  assert (Hp : forall c r, BinaryExpr Add (ConstantExpr c) r ⊑ AddExpr_createPartialR c r)
    by (intros; apply AddSubExpr_createPartialR_sound).
  assert (Hs : forall c r, BinaryExpr Sub (ConstantExpr c) r ⊑ SubExpr_createPartialR c r)
    by (intros; apply AddSubExpr_createPartialR_sound).
  induction n as [|n [IHa IHs]]; split; intros l r; apply BCREATE_R_arith;
    auto using AddExpr_createPartial_sound, SubExpr_createPartial_sound,
      AddExpr_create_body_sound, SubExpr_create_body_sound; reflexivity.
Qed.

Lemma AddExpr'create_sound l r : BinaryExpr Add l r ⊑ AddExpr'create l r.
Proof. apply AddSubExpr'create_fuel_sound. Qed.
Lemma SubExpr'create_sound l r : BinaryExpr Sub l r ⊑ SubExpr'create l r.
Proof. apply AddSubExpr'create_fuel_sound. Qed.

(** ** The fuel of [AddExpr::create] and [SubExpr::create] suffices *)

Lemma BCREATE_R_ext op pl pr f g l r :
  f l r = g l r -> BCREATE_R op pl pr f l r = BCREATE_R op pl pr g l r.
Proof. intros H. unfold BCREATE_R. now destruct l, r. Qed.

Lemma AddExpr'create_fuel_S n l r :
  AddExpr'create_fuel (S n) l r =
  BCREATE_R (ConstantExpr_arith Add) AddExpr_createPartial AddExpr_createPartialR
    (AddExpr_create_body (AddExpr'create_fuel n) (SubExpr'create_fuel n)) l r.
Proof. reflexivity. Qed.
Lemma SubExpr'create_fuel_S n l r :
  SubExpr'create_fuel (S n) l r =
  BCREATE_R (ConstantExpr_arith Sub) SubExpr_createPartial SubExpr_createPartialR
    (SubExpr_create_body (AddExpr'create_fuel n) (SubExpr'create_fuel n)) l r.
Proof. reflexivity. Qed.

Lemma AddSub_body_ext addF subF addF' subF' l r :
  (forall a b, (esize a + esize b < esize l + esize r)%nat ->
     addF a b = addF' a b /\ subF a b = subF' a b) ->
  AddExpr_create_body addF subF l r = AddExpr_create_body addF' subF' l r /\
  SubExpr_create_body addF subF l r = SubExpr_create_body addF' subF' l r.
Proof.
  intros H. split; unfold AddExpr_create_body, SubExpr_create_body;
    const_left_cases; try done; repeat (f_equal; []); cbn [esize] in H; case_match; try done;
    try (case_match; [done|]); f_equal; apply H; lia.
Qed.

Lemma AddSub_fuel_enough n : forall m l r,
  (esize l + esize r <= n)%nat -> (esize l + esize r <= m)%nat ->
  AddExpr'create_fuel n l r = AddExpr'create_fuel m l r /\
  SubExpr'create_fuel n l r = SubExpr'create_fuel m l r.
Proof.
  induction n as [|n IH]; intros m l r Hn Hm.
  { destruct l; cbn in Hn; lia. }
  destruct m as [|m]; [destruct l; cbn in Hm; lia|].
  rewrite !AddExpr'create_fuel_S, !SubExpr'create_fuel_S.
  split; apply BCREATE_R_ext, AddSub_body_ext; intros; apply IH; lia.
Qed.

Lemma AddExpr'create_const_l k x : AddExpr'create (ConstantExpr k) x = AddExpr'create_constL k x.
Proof. now destruct x. Qed.
Lemma SubExpr'create_const_l k x : SubExpr'create (ConstantExpr k) x = SubExpr'create_constL k x.
Proof. now destruct x. Qed.
Lemma SubExpr'create_const_r x k : SubExpr'create x (ConstantExpr k) = SubExpr'create_constR x k.
Proof. now destruct x. Qed.

Lemma AddExpr'create_fuel_eq n l r :
  (esize l + esize r <= n)%nat -> AddExpr'create_fuel n l r = AddExpr'create l r.
Proof. intros. now apply AddSub_fuel_enough. Qed.
Lemma SubExpr'create_fuel_eq n l r :
  (esize l + esize r <= n)%nat -> SubExpr'create_fuel n l r = SubExpr'create l r.
Proof. intros. now apply AddSub_fuel_enough. Qed.

(** C38: [AddExpr::create] and [SubExpr::create] terminate with the fuel they
    are given: both satisfy the recursive equations of the source, where the
    helpers [AddExpr_create] and [SubExpr_create] call the methods again on
    the kids and on the rebuilt expressions. *)
Theorem AddSubExpr'create_eq l r :
  AddExpr'create l r =
    BCREATE_R (ConstantExpr_arith Add) AddExpr_createPartial AddExpr_createPartialR
      AddExpr_create l r /\
  SubExpr'create l r =
    BCREATE_R (ConstantExpr_arith Sub) SubExpr_createPartial SubExpr_createPartialR
      SubExpr_create l r.
Proof.
  unfold AddExpr'create at 1, SubExpr'create at 1.
  destruct (esize l + esize r)%nat as [|n] eqn:En; [destruct l; cbn in En; lia|].
  rewrite AddExpr'create_fuel_S, SubExpr'create_fuel_S.
  edestruct (AddSub_body_ext (AddExpr'create_fuel n) (SubExpr'create_fuel n)
    AddExpr'create SubExpr'create l r) as [Ha Hs].
  { intros. apply AddSub_fuel_enough; lia. }
  split; apply BCREATE_R_ext; [rewrite Ha|rewrite Hs]; unfold AddExpr_create, SubExpr_create,
    AddExpr_create_body, SubExpr_create_body; const_left_cases;
    now rewrite ?AddExpr'create_const_l, ?SubExpr'create_const_l, ?SubExpr'create_const_r.
Qed.

(** ** Division, remainder, shifts *)

(** Facts about operations on one-bit operands. *)
Lemma bool_binary k l r e' :
  getWidth l = 1 ->
  (forall rho a b v, eval rho l = Some (APInt 1 a) -> eval rho r = Some (APInt 1 b) ->
     (a = 0 \/ a = 1) -> (b = 0 \/ b = 1) -> arith_sem k 1 a b = Some v ->
     eval rho e' = Some (APInt 1 v)) ->
  BinaryExpr k l r ⊑ e'.
Proof.
  intros Hl H. apply refines_binary. intros rho [w a] [w' b] v Hx Hy Vx Vy Hw Hwl _ Hs.
  cbn in *. rewrite Hl in Hwl. subst w w'.
  eapply H; eauto; [apply (width1_cases _ Vx eq_refl)|apply (width1_cases _ Vy eq_refl)].
Qed.

Lemma bool_cmp k l r e' :
  getWidth l = 1 ->
  (forall rho a b, eval rho l = Some (APInt 1 a) -> eval rho r = Some (APInt 1 b) ->
     (a = 0 \/ a = 1) -> (b = 0 \/ b = 1) -> eval rho e' = Some (APInt 1 (b2z (cmp_sem k 1 a b)))) ->
  CmpExpr k l r ⊑ e'.
Proof.
  intros Hl H. apply refines_cmp. intros rho [w a] [w' b] Hx Hy Vx Vy Hw Hwl _.
  cbn in *. rewrite Hl in Hwl. subst w w'.
  eapply H; eauto; [apply (width1_cases _ Vx eq_refl)|apply (width1_cases _ Vy eq_refl)].
Qed.

Ltac bool_node :=
  first [apply bool_binary | apply bool_cmp]; [assumption|];
  let rho := fresh "rho" in intros rho a b;
  first [intros v Hx Hy [->| ->] [->| ->] Hs; try discriminate Hs; injection Hs as <-
        | intros Hx Hy [->| ->] [->| ->]].

Lemma UDivExpr'create_sound l r : BinaryExpr UDiv l r ⊑ UDivExpr'create l r.
Proof.
  apply BCREATE_arith. intros. unfold UDivExpr_create.
  destruct (Z.eqb_spec (getWidth l0) Bool); [|reflexivity]. bool_node; exact Hx.
Qed.
Lemma SDivExpr'create_sound l r : BinaryExpr SDiv l r ⊑ SDivExpr'create l r.
Proof.
  apply BCREATE_arith. intros. unfold SDivExpr_create.
  destruct (Z.eqb_spec (getWidth l0) Bool); [|reflexivity]. bool_node; exact Hx.
Qed.
Lemma URemExpr'create_sound l r : BinaryExpr URem l r ⊑ URemExpr'create l r.
Proof.
  apply BCREATE_arith. intros. unfold URemExpr_create, ConstantExpr'create.
  destruct (Z.eqb_spec (getWidth l0) Bool); [|reflexivity].
  rewrite make_zero by (unfold Bool; lia). bool_node; reflexivity.
Qed.
Lemma SRemExpr'create_sound l r : BinaryExpr SRem l r ⊑ SRemExpr'create l r.
Proof.
  apply BCREATE_arith. intros. unfold SRemExpr_create, ConstantExpr'create.
  destruct (Z.eqb_spec (getWidth l0) Bool); [|reflexivity].
  rewrite make_zero by (unfold Bool; lia). bool_node; reflexivity.
Qed.

(** [And] and [Or] nodes built over Boolean operands with known values. *)
Lemma AndExpr'create_bool rho l r a b :
  eval rho l = Some (APInt 1 a) -> eval rho r = Some (APInt 1 b) ->
  eval rho (AndExpr'create l r) = Some (APInt 1 (Z.land a b)).
Proof. intros. apply AndExpr'create_sound. eapply eval_binary_at; eauto. Qed.
Lemma OrExpr'create_bool rho l r a b :
  eval rho l = Some (APInt 1 a) -> eval rho r = Some (APInt 1 b) ->
  eval rho (OrExpr'create l r) = Some (APInt 1 (Z.lor a b)).
Proof. intros. apply OrExpr'create_sound. eapply eval_binary_at; eauto. Qed.

(** Evaluates the Boolean formula a helper builds. *)
Ltac bool_formula :=
  etransitivity;
  [ repeat first [eassumption | eapply AndExpr'create_bool | eapply OrExpr'create_bool
                 | eapply createIsZero_bool]
  | reflexivity ].

Lemma ShlExpr'create_sound l r : BinaryExpr Shl l r ⊑ ShlExpr'create l r.
Proof.
  apply BCREATE_arith. intros. unfold ShlExpr_create.
  destruct (Z.eqb_spec (getWidth l0) Bool); [|reflexivity]. bool_node; bool_formula.
Qed.
Lemma LShrExpr'create_sound l r : BinaryExpr LShr l r ⊑ LShrExpr'create l r.
Proof.
  apply BCREATE_arith. intros. unfold LShrExpr_create.
  destruct (Z.eqb_spec (getWidth l0) Bool); [|reflexivity]. bool_node; bool_formula.
Qed.
Lemma AShrExpr'create_sound l r : BinaryExpr AShr l r ⊑ AShrExpr'create l r.
Proof.
  apply BCREATE_arith. intros. unfold AShrExpr_create.
  destruct (Z.eqb_spec (getWidth l0) Bool); [|reflexivity]. bool_node; exact Hx.
Qed.

Lemma Arith'create_sound k l r : BinaryExpr k l r ⊑ Arith'create k l r.
Proof.
  destruct k; cbn [Arith'create];
  auto using AddExpr'create_sound, SubExpr'create_sound, MulExpr'create_sound,
    UDivExpr'create_sound, SDivExpr'create_sound, URemExpr'create_sound, SRemExpr'create_sound,
    AndExpr'create_sound, OrExpr'create_sound, XorExpr'create_sound, ShlExpr'create_sound,
    LShrExpr'create_sound, AShrExpr'create_sound.
Qed.

(** ** Comparisons *)

Lemma cmp_swap k k' l r :
  (forall w x y, cmp_sem k w x y = cmp_sem k' w y x) -> CmpExpr k l r ⊑ CmpExpr k' r l.
Proof.
  intros Hk. apply refines_cmp. intros rho x y Hx Hy _ _ Hw _ _.
  erewrite eval_compare by eauto. now rewrite Hk, Hw.
Qed.

Lemma NeExpr'create_sound l r : CmpExpr Ne l r ⊑ NeExpr'create l r.
Proof.
  apply refines_cmp. intros rho x y Hx Hy _ _ Hw _ _. unfold NeExpr'create, ConstantExpr'create.
  rewrite make_zero by (unfold Bool; lia). apply EqExpr'create_sound.
  erewrite eval_compare_at; [|now apply eval_const|].
  2: { apply EqExpr'create_sound. eapply eval_compare; eauto. }
  cbn. now destruct (ap_val x =? ap_val y).
Qed.
Lemma UltExpr'create_sound l r : CmpExpr Ult l r ⊑ UltExpr'create l r.
Proof.
  apply BCREATE_cmp. intros. unfold UltExpr_create.
  destruct (Z.eqb_spec (getWidth l0) Bool); [|reflexivity]. bool_node; bool_formula.
Qed.
Lemma UleExpr'create_sound l r : CmpExpr Ule l r ⊑ UleExpr'create l r.
Proof.
  apply BCREATE_cmp. intros. unfold UleExpr_create.
  destruct (Z.eqb_spec (getWidth l0) Bool); [|reflexivity]. bool_node; bool_formula.
Qed.
Lemma SltExpr'create_sound l r : CmpExpr Slt l r ⊑ SltExpr'create l r.
Proof.
  apply BCREATE_cmp. intros. unfold SltExpr_create.
  destruct (Z.eqb_spec (getWidth l0) Bool); [|reflexivity]. bool_node; bool_formula.
Qed.
Lemma SleExpr'create_sound l r : CmpExpr Sle l r ⊑ SleExpr'create l r.
Proof.
  apply BCREATE_cmp. intros. unfold SleExpr_create.
  destruct (Z.eqb_spec (getWidth l0) Bool); [|reflexivity]. bool_node; bool_formula.
Qed.

Lemma Cmp'create_sound k l r : CmpExpr k l r ⊑ Cmp'create k l r.
Proof.
  destruct k; cbn [Cmp'create]; auto using EqExpr'create_sound, NeExpr'create_sound,
    UltExpr'create_sound, UleExpr'create_sound, SltExpr'create_sound, SleExpr'create_sound.
  - rewrite (cmp_swap Ugt Ult) by reflexivity. apply UltExpr'create_sound.
  - rewrite (cmp_swap Uge Ule) by reflexivity. apply UleExpr'create_sound.
  - rewrite (cmp_swap Sgt Slt) by reflexivity. apply SltExpr'create_sound.
  - rewrite (cmp_swap Sge Sle) by reflexivity. apply SleExpr'create_sound.
Qed.

(** ** Not, Select *)

Lemma NotExpr'create_sound e : NotExpr e ⊑ NotExpr'create e.
Proof.
  unfold NotExpr'create. destruct e; try reflexivity. intros rho v Hv. cbn in Hv. inv_eval.
  unfold ConstantExpr_Not. rewrite ap_not_spec by done. apply eval_const.
  change (APInt _ _) with (eval_not v0). subst. now apply eval_not_valid.
Qed.

Lemma eval_select_expr_inv rho c t f v :
  eval rho (SelectExpr c t f) = Some v ->
  exists a tv fv, eval rho c = Some (APInt 1 a) /\ (a = 0 \/ a = 1) /\ eval rho t = Some tv /\
    eval rho f = Some fv /\ ap_width tv = ap_width fv /\ v = if a =? 0 then fv else tv.
Proof.
  cbn. intros (cv & Ec & H)%bind_Some. apply bind_Some in H as (tv & Et & H).
  apply bind_Some in H as (fv & Ef & H). apply eval_select_inv in H as (Hc & Hw & ->).
  destruct cv as [w a]. cbn in Hc. subst w. exists a, tv, fv. split_and!; auto.
  apply (width1_cases _ (eval_valid _ _ _ Ec) eq_refl).
Qed.


Lemma SelectExpr'create_sound c t f : SelectExpr c t f ⊑ SelectExpr'create c t f.
Proof.
  intros rho v Hv. pose proof Hv as Hv0.
  apply eval_select_expr_inv in Hv as (a & tv & fv & Hc & Ha & Ht & Hf & Hw & ->).
  unfold SelectExpr'create.
  assert (Hn : eval rho (if Expr_eqb t f then t else if getWidth t =? Bool then
      match t with
      | ConstantExpr CE => if isTrue CE then OrExpr'create c f else AndExpr'create (createIsZero c) f
      | _ => match f with
             | ConstantExpr CE => if isTrue CE then OrExpr'create (createIsZero c) t else AndExpr'create c t
             | _ => SelectExpr c t f
             end
      end else SelectExpr c t f) = Some (if a =? 0 then fv else tv)).
  2: { destruct c; try exact Hn. apply eval_const_inv in Hc as [<- Vc]. rewrite isTrue_spec by done.
       cbn. now destruct (a =? 0). }
  destruct (Expr_eqb t f) eqn:E.
  { apply Expr_eqb_eq in E; [|eauto using eval_wf..]. subst f.
    replace fv with tv by congruence. now destruct (a =? 0). }
  destruct (Z.eqb_spec (getWidth t) Bool) as [Hb|]; [|done].
  rewrite (eval_width _ _ _ Ht) in Hb. destruct tv as [wt vt], fv as [wf vf]; cbn in Hw, Hb.
  subst wf. rewrite Hb in *. clear Hb.
  pose proof (width1_cases _ (eval_valid _ _ _ Ht) eq_refl) as Hvt.
  pose proof (width1_cases _ (eval_valid _ _ _ Hf) eq_refl) as Hvf. cbn in Hvt, Hvf.
  assert (Hnt : eval rho match f with
      | ConstantExpr CE => if isTrue CE then OrExpr'create (createIsZero c) t else AndExpr'create c t
      | _ => SelectExpr c t f
      end = Some (if a =? 0 then APInt 1 vf else APInt 1 vt)).
  { destruct f; try exact Hv0. apply eval_const_inv in Hf as [<- Vf]. rewrite isTrue_spec by done.
    destruct Ha as [-> | ->], Hvf as [-> | ->], Hvt as [-> | ->]; cbn; bool_formula. }
  destruct t; try exact Hnt. apply eval_const_inv in Ht as [<- Vt]. rewrite isTrue_spec by done.
  destruct Ha as [-> | ->], Hvf as [-> | ->], Hvt as [-> | ->]; cbn; bool_formula.
Qed.

(** ** Concat, Extract, ZExt, SExt *)

Lemma eval_extract_expr_inv rho e o w v :
  eval rho (ExtractExpr e o w) = Some v ->
  exists x, eval rho e = Some x /\ ap_valid x = true /\ 0 <= o /\ 0 < w /\ o + w <= ap_width x /\
    v = APInt w (BV.wrap w (ap_val x / 2 ^ o)).
Proof.
  cbn. intros (x & Ex & H)%bind_Some. apply eval_extract_inv in H as (? & ? & ? & -> & ?).
  exists x. split_and!; eauto using eval_valid.
Qed.

Lemma eval_extract_expr rho e o w x :
  eval rho e = Some x -> 0 <= o -> 0 < w -> o + w <= ap_width x ->
  eval rho (ExtractExpr e o w) = Some (APInt w (BV.wrap w (ap_val x / 2 ^ o))).
Proof.
  intros He Ho Hw Hle. cbn. rewrite He. cbn. unfold eval_extract.
  rewrite (proj2 (Z.leb_le 0 o)), (proj2 (Z.ltb_lt 0 w)), (proj2 (Z.leb_le _ _)) by lia. done.
Qed.

Lemma eval_concat_expr_inv rho l r v :
  eval rho (ConcatExpr l r) = Some v ->
  exists x y, eval rho l = Some x /\ eval rho r = Some y /\ ap_valid x = true /\ ap_valid y = true /\
    v = eval_concat x y.
Proof.
  cbn. intros (x & Ex & H)%bind_Some. apply bind_Some in H as (y & Ey & H). injection H as <-.
  exists x, y. split_and!; eauto using eval_valid.
Qed.

Lemma eval_concat_expr rho l r x y :
  eval rho l = Some x -> eval rho r = Some y ->
  eval rho (ConcatExpr l r) = Some (eval_concat x y).
Proof. intros El Er. cbn. now rewrite El, Er. Qed.

Lemma extract_full e o w : w = getWidth e -> ExtractExpr e o w ⊑ e.
Proof.
  intros Hw rho v Hv. apply eval_extract_expr_inv in Hv as (x & Hx & Vx & Ho & Hw0 & Hle & ->).
  rewrite (eval_width _ _ _ Hx) in Hw. apply ap_valid_spec in Vx. subst w.
  assert (o = 0) as -> by lia. rewrite Z.div_1_r, BV.wrap_small by lia. rewrite Hx. now destruct x.
Qed.

Lemma const_extract c o w :
  ExtractExpr (ConstantExpr c) o w ⊑ ConstantExpr (ConstantExpr_Extract c o w).
Proof.
  intros rho v Hv. apply eval_extract_expr_inv in Hv as (x & Hx & Vx & Ho & Hw & Hle & ->).
  apply eval_const_inv in Hx as [-> Vc]. apply ap_valid_spec in Vx as R.
  unfold ConstantExpr_Extract. rewrite ap_ashr_amt_spec by (done || lia).
  rewrite ap_zextOrTrunc_spec by (try apply BV.wrap_in_range; lia). cbn [ap_width ap_val cast_sem].
  rewrite eval_const by now apply BV.wrap_in_range. do 2 f_equal. bv_bits. destruct (Z.ltb_spec n w); [|done].
  rewrite (proj2 (Z.ltb_lt _ _)) by lia. cbn. f_equal. lia.
Qed.

Lemma extract_concat_left l r o w :
  getWidth r <= o -> ExtractExpr (ConcatExpr l r) o w ⊑ ExtractExpr l (o - getWidth r) w.
Proof.
  intros Ho rho v Hv. apply eval_extract_expr_inv in Hv as (x & Hx & Vx & Ho' & Hw & Hle & ->).
  apply eval_concat_expr_inv in Hx as (a & b & Ha & Hb & Va & Vb & ->).
  rewrite (eval_width _ _ _ Hb) in *. apply ap_valid_spec in Va, Vb. cbn in Hle.
  erewrite eval_extract_expr; [|exact Ha|lia..]. do 2 f_equal. cbn. bv_bits.
  destruct (Z.ltb_spec n w); [|done]. rewrite (proj2 (Z.ltb_ge _ _)) by lia. cbn. f_equal. lia.
Qed.

Lemma extract_concat_right l r o w :
  o + w <= getWidth r -> ExtractExpr (ConcatExpr l r) o w ⊑ ExtractExpr r o w.
Proof.
  intros Ho rho v Hv. apply eval_extract_expr_inv in Hv as (x & Hx & Vx & Ho' & Hw & Hle & ->).
  apply eval_concat_expr_inv in Hx as (a & b & Ha & Hb & Va & Vb & ->).
  rewrite (eval_width _ _ _ Hb) in *. apply ap_valid_spec in Va, Vb.
  erewrite eval_extract_expr; [|exact Hb|lia..]. do 2 f_equal. cbn. bv_bits.
  destruct (Z.ltb_spec n w); [|done]. rewrite (proj2 (Z.ltb_lt _ _)) by lia. done.
Qed.

Lemma extract_concat_split l r o w :
  o < getWidth r -> getWidth r < o + w ->
  ExtractExpr (ConcatExpr l r) o w ⊑
  ConcatExpr (ExtractExpr l 0 (w - getWidth r + o)) (ExtractExpr r o (getWidth r - o)).
Proof.
  intros Ho Ho2 rho v Hv. apply eval_extract_expr_inv in Hv as (x & Hx & Vx & Ho' & Hw & Hle & ->).
  apply eval_concat_expr_inv in Hx as (a & b & Ha & Hb & Va & Vb & ->).
  rewrite (eval_width _ _ _ Hb) in *. apply ap_valid_spec in Va, Vb. cbn in Hle.
  erewrite eval_concat_expr; [|eapply eval_extract_expr; [exact Ha|lia..]
                             |eapply eval_extract_expr; [exact Hb|lia..]].
  unfold eval_concat. cbn [ap_width ap_val]. f_equal. f_equal; [lia|].
  rewrite Z.div_1_r. pose proof (BV.wrap_range (ap_width b - o) (ap_val b / 2 ^ o) ltac:(lia)).
  bv_bits. zcases; try lia; cbn; rewrite ?BV.testbit_div by lia; try done. f_equal. lia.
Qed.

Lemma extract_cast k s cw o w :
  o + w <= getWidth s -> ExtractExpr (CastExpr k s cw) o w ⊑ ExtractExpr s o w.
Proof.
  intros Ho rho v Hv. apply eval_extract_expr_inv in Hv as (x & Hx & _ & Ho' & Hw & Hle & ->).
  apply eval_cast_expr_inv in Hx as (a & Ha & Va & Hcw & ->). cbn in Hle.
  rewrite (eval_width _ _ _ Ha) in Ho. apply ap_valid_spec in Va.
  erewrite eval_extract_expr; [|exact Ha|lia..]. do 2 f_equal. cbn [ap_val].
  destruct k; cbn [cast_sem]; bv_bits; (destruct (Z.ltb_spec n w); [|done]);
    rewrite (proj2 (Z.ltb_lt _ _)) by lia; cbn; try done.
  f_equal. lia.
Qed.

Lemma concat_extracts e lo lw ro rw :
  ro + rw = lo -> ConcatExpr (ExtractExpr e lo lw) (ExtractExpr e ro rw) ⊑ ExtractExpr e ro (lw + rw).
Proof.
  intros <- rho v Hv. apply eval_concat_expr_inv in Hv as (a & b & Ha & Hb & _ & _ & ->).
  apply eval_extract_expr_inv in Ha as (x & Hx & Vx & ? & ? & ? & ->).
  apply eval_extract_expr_inv in Hb as (x' & Hx' & _ & ? & ? & ? & ->).
  replace x' with x in * by congruence.
  erewrite eval_extract_expr; [|exact Hx|lia..]. unfold eval_concat. cbn. f_equal. f_equal.
  pose proof (BV.wrap_range rw (ap_val x / 2 ^ ro) ltac:(lia)).
  bv_bits. zcases; try lia; cbn; rewrite ?BV.testbit_div by lia; try done. f_equal. lia.
Qed.

Lemma const_concat a b :
  ConcatExpr (ConstantExpr a) (ConstantExpr b) ⊑ ConstantExpr (ConstantExpr_Concat a b).
Proof.
  intros rho v Hv. apply eval_concat_expr_inv in Hv as (x & y & Hx & Hy & Va & Vb & ->).
  apply eval_const_inv in Hx as [-> _]. apply eval_const_inv in Hy as [-> _].
  pose proof (eval_concat_valid _ _ Va Vb) as V.
  apply ap_valid_spec in Va as Ra. apply ap_valid_spec in Vb as Rb. apply ap_valid_spec in V as R.
  cbn in R. set (W := ap_width a + ap_width b) in *.
  assert (Hpa : 2 ^ ap_width a <= 2 ^ W) by (apply Z.pow_le_mono_r; lia).
  assert (Hpb : 2 ^ ap_width b <= 2 ^ W) by (apply Z.pow_le_mono_r; lia).
  unfold ConstantExpr_Concat. fold W. rewrite !ap_zext_spec by (done || lia).
  assert (V1 : ap_valid (APInt W (ap_val a)) = true) by (apply ap_valid_spec; cbn; lia).
  assert (V2 : ap_valid (APInt W (ap_val b)) = true) by (apply ap_valid_spec; cbn; lia).
  rewrite ap_shl_amt_spec by (done || cbn; lia). cbn [ap_width ap_val].
  rewrite BV.wrap_small by lia.
  assert (V3 : ap_valid (APInt W (ap_val a * 2 ^ ap_width b)) = true) by (apply ap_valid_spec; cbn; lia).
  pose proof (ap_arith_spec Or _ _ (Z.lor (ap_val a * 2 ^ ap_width b) (ap_val b)) V3 V2 eq_refl eq_refl)
    as Ho. cbn [ap_arith ap_width] in Ho. rewrite Ho.
  replace (Z.lor _ _) with (ap_val a * 2 ^ ap_width b + ap_val b); [now apply eval_const|].
  bv_bits. rewrite Z.lor_spec, Z.mul_pow2_bits by lia.
  destruct (Z.ltb_spec n (ap_width b)).
  - now rewrite (Z.testbit_neg_r (ap_val a)) by lia.
  - rewrite (BV.testbit_high (ap_width b) (ap_val b)) by lia. now rewrite orb_false_r.
Qed.

Lemma concat_zero a r :
  isZero a = true -> ConcatExpr (ConstantExpr a) r ⊑ CastExpr ZExt r (ap_width a + getWidth r).
Proof.
  intros Hz rho v Hv. apply eval_concat_expr_inv in Hv as (x & y & Hx & Hy & Va & Vb & ->).
  apply eval_const_inv in Hx as [-> _]. rewrite isZero_spec, Z.eqb_eq in Hz by done.
  apply ap_valid_spec in Va, Vb. rewrite (eval_width _ _ _ Hy). cbn. rewrite Hy. cbn.
  unfold eval_cast. rewrite (proj2 (Z.leb_le _ _)) by lia. unfold eval_concat. do 2 f_equal.
  rewrite Hz. cbn. apply BV.wrap_small. assert (2 ^ ap_width y <= 2 ^ (ap_width a + ap_width y))
    by (apply Z.pow_le_mono_r; lia). lia.
Qed.

End Sound.
