(* ===== verification/ExprRebuildSound.v ===== *)
(** * Extract, Concat, casts, reads and [rebuild]

    Soundness of the constructors whose recursion goes through rebuilt
    expressions ([ExtractExpr::create], [ConcatExpr::create]) with the proof
    that their fuel suffices, of [ReadExpr::create] on update lists, and of
    [rebuild], through which visitors reassemble expressions. *)

From Stdlib Require Import Morphisms RelationClasses.
From stdpp Require Import strings.
From S2P Require Import Prelude APInt Expr ExprOrder ExprSem ExprCreate ExprCreateSound.

Section Sound.
Context `{A : APIntOps} {AS : APIntSpec A} `{Opts : ExprOptions}.

(** ** Extract and Concat *)

Lemma ZExtExpr'create_with_sound (ext : Expr -> Z -> Z -> Expr) e w :
  CastExpr ZExt e w ⊑ ZExtExpr'create_with ext e w.
Proof.
  intros rho v Hv. apply eval_cast_expr_inv in Hv as Hc.
  destruct Hc as (x & Hx & Vx & Hle & Hvv).
  unfold ZExtExpr'create_with. rewrite (eval_width _ _ _ Hx). apply ap_valid_spec in Vx as R.
  destruct (Z.eqb_spec w (ap_width x)) as [->|].
  { subst v. cbn. rewrite BV.wrap_small by lia. rewrite Hx. now destruct x. }
  rewrite (proj2 (Z.ltb_ge _ _)) by lia. destruct e; try exact Hv.
  apply eval_const_inv in Hx as [-> _]. unfold ConstantExpr_ZExt.
  rewrite ap_zextOrTrunc_spec by (done || lia). subst v. apply eval_const, (cast_valid ZExt). lia.
Qed.

Lemma ExtractConcat_fuel_sound n :
  (forall e o w, ExtractExpr e o w ⊑ ExtractExpr'create_fuel n e o w) /\
  (forall l r, ConcatExpr l r ⊑ ConcatExpr'create_fuel n l r).
Proof.
  induction n as [|n [IHe IHc]]; [split; reflexivity|]. split.
  - intros e o w. cbn [ExtractExpr'create_fuel].
    destruct (Z.eqb_spec w (getWidth e)); [now apply extract_full|].
    destruct e; try reflexivity; [apply const_extract| |].
    + destruct (Z.leb_spec (getWidth e2) o); [rewrite extract_concat_left by done; apply IHe|].
      destruct (Z.leb_spec (o + w) (getWidth e2)); [rewrite extract_concat_right by done; apply IHe|].
      rewrite extract_concat_split by done. etransitivity; [|apply IHc].
      now apply ConcatExpr_proper.
    + destruct (Z.leb_spec (o + w) (getWidth e)); [|reflexivity].
      rewrite extract_cast by done. destruct (_ && _) eqn:E; [|apply IHe].
      inv_eval. now apply extract_full.
  - intros l r. cbn [ConcatExpr'create_fuel].
    assert (Hm : ConcatExpr l r ⊑ match l, r with
      | ExtractExpr le lo lw, ExtractExpr re ro rw =>
        if Expr_eqb le re && (ro + rw =? lo)
        then ExtractExpr'create_fuel n le ro (getWidth l + getWidth r) else ConcatExpr l r
      | _, _ => ConcatExpr l r
      end).
    { destruct l; try reflexivity. destruct r; try reflexivity.
      destruct (_ && _) eqn:E; [|reflexivity]. inv_eval. intros rho v Hv.
      cbn [getWidth]. apply IHe, (concat_extracts _ offset _ _ _ H0).
      apply eval_concat_expr_inv in Hv as Hc. destruct Hc as (a & b & Ha & Hb & _).
      apply eval_extract_expr_inv in Ha as (? & Ha & _). apply eval_extract_expr_inv in Hb as (? & Hb & _).
      match goal with H : Expr_eqb _ _ = true |- _ => apply Expr_eqb_eq in H; [|eauto using eval_wf..] end.
      now subst. }
    destruct l; try exact Hm. destruct r; try exact Hm; try apply const_concat;
      (destruct (_ && _) eqn:E; [|exact Hm]); inv_eval; rewrite concat_zero by done;
      apply ZExtExpr'create_with_sound.
Qed.

Lemma ExtractExpr'create_sound e o w : ExtractExpr e o w ⊑ ExtractExpr'create e o w.
Proof. apply ExtractConcat_fuel_sound. Qed.
Lemma ConcatExpr'create_sound l r : ConcatExpr l r ⊑ ConcatExpr'create l r.
Proof. apply ExtractConcat_fuel_sound. Qed.

Lemma ZExtExpr'create_sound e w : CastExpr ZExt e w ⊑ ZExtExpr'create e w.
Proof. apply ZExtExpr'create_with_sound. Qed.

Lemma SExtExpr'create_sound e w : CastExpr SExt e w ⊑ SExtExpr'create e w.
Proof.
  intros rho v Hv. apply eval_cast_expr_inv in Hv as Hc.
  destruct Hc as (x & Hx & Vx & Hle & Hvv).
  unfold SExtExpr'create. rewrite (eval_width _ _ _ Hx). apply ap_valid_spec in Vx as R.
  destruct (Z.eqb_spec w (ap_width x)) as [->|].
  { subst v. cbn. rewrite BV.wrap_signed by lia. rewrite Hx. now destruct x. }
  rewrite (proj2 (Z.ltb_ge _ _)) by lia. destruct e; try exact Hv.
  apply eval_const_inv in Hx as [-> _]. unfold ConstantExpr_SExt.
  rewrite ap_sextOrTrunc_spec by (done || lia). subst v. apply eval_const, (cast_valid SExt). lia.
Qed.

Lemma Cast'create_sound k e w : CastExpr k e w ⊑ Cast'create k e w.
Proof. destruct k; [apply ZExtExpr'create_sound|apply SExtExpr'create_sound]. Qed.

(** Below the width of the source, both casts truncate. *)
Lemma Cast'create_trunc k e w :
  w < getWidth e -> ExtractExpr e 0 w ⊑ Cast'create k e w.
Proof.
  intros H. destruct k; cbn [Cast'create]; unfold ZExtExpr'create, ZExtExpr'create_with, SExtExpr'create;
    rewrite (proj2 (Z.eqb_neq _ _)), (proj2 (Z.ltb_lt _ _)) by lia; apply ExtractExpr'create_sound.
Qed.

(** *** The fuel suffices *)

Definition extract_inner (e : Expr) : nat :=
  match e with ExtractExpr x _ _ => esize x | _ => 0 end.

Lemma esize_pos e : (0 < esize e)%nat.
Proof. destruct e; cbn; lia. Qed.

Definition extract_fuel_ok (n : nat) : Prop :=
  forall e o w, (2 * esize e <= n)%nat ->
    (extract_inner (ExtractExpr'create_fuel n e o w) <= esize e)%nat /\
    forall m, (2 * esize e <= m)%nat ->
      ExtractExpr'create_fuel n e o w = ExtractExpr'create_fuel m e o w.

Definition concat_fuel_ok (n : nat) : Prop :=
  forall l r, (2 * extract_inner l + 1 <= n)%nat ->
    (extract_inner (ConcatExpr'create_fuel n l r) <= extract_inner l)%nat /\
    forall m, (2 * extract_inner l + 1 <= m)%nat ->
      ConcatExpr'create_fuel n l r = ConcatExpr'create_fuel m l r.

Lemma extract_fuel_S n : extract_fuel_ok n -> concat_fuel_ok n -> extract_fuel_ok (S n).
Proof.
  intros IHe IHc e o w Hn. split.
  - cbn [ExtractExpr'create_fuel]. destruct (w =? getWidth e); [destruct e; cbn; lia|].
    destruct e; cbn [esize extract_inner] in *; try lia.
    + destruct (_ <=? o); [edestruct (IHe e1); [|etransitivity; [eassumption|]]; lia|].
      destruct (_ <=? _); [edestruct (IHe e2); [|etransitivity; [eassumption|]]; lia|].
      edestruct (IHe e1 0 (w - getWidth e2 + o)) as [H1 _]; [lia|].
      edestruct IHc as [H2 _]; [|etransitivity; [exact H2|]]; lia.
    + destruct (_ <=? _); [|cbn; lia]. destruct (_ && _); [destruct e; cbn; lia|].
      edestruct (IHe e); [|etransitivity; [eassumption|]]; lia.
  - intros [|m] Hm; [pose proof (esize_pos e); lia|]. cbn [ExtractExpr'create_fuel].
    destruct (w =? getWidth e); [done|]. destruct e; cbn [esize] in *; try done.
    + destruct (_ <=? o); [apply IHe; lia|]. destruct (_ <=? _); [apply IHe; lia|].
      destruct (IHe e1 0 (w - getWidth e2 + o)) as [H1 E1]; [lia|].
      destruct (IHe e2 o (getWidth e2 - o)) as [_ E2]; [lia|].
      rewrite <- (E1 m), <- (E2 m) by lia. apply IHc; lia.
    + destruct (_ <=? _); [|done]. destruct (_ && _); [done|]. apply IHe; lia.
Qed.

Lemma concat_fuel_S n : extract_fuel_ok n -> concat_fuel_ok (S n).
Proof.
  intros IHe l r Hn. split.
  - cbn [ConcatExpr'create_fuel].
    destruct l; try (cbn; lia).
    + destruct r; try (cbn; lia); (destruct (_ && _) eqn:E; [|cbn; lia]); inv_eval;
        unfold ZExtExpr'create_with;
        rewrite (proj2 (Z.eqb_neq _ _)), (proj2 (Z.ltb_ge _ _)) by lia; cbn; lia.
    + destruct r; try (cbn; lia). destruct (_ && _); [|cbn; lia].
      cbn [extract_inner] in *. apply IHe. lia.
  - intros [|m] Hm; [lia|]. cbn [ConcatExpr'create_fuel]. destruct l; try done.
    + destruct r; try done; (destruct (_ && _) eqn:E; [|done]); inv_eval;
        unfold ZExtExpr'create_with;
        rewrite (proj2 (Z.eqb_neq _ _)), (proj2 (Z.ltb_ge _ _)) by lia; done.
    + destruct r; try done. destruct (_ && _); [|done].
      cbn [extract_inner] in *. apply IHe; lia.
Qed.

Lemma ExtractConcat_fuel_enough n : extract_fuel_ok n /\ concat_fuel_ok n.
Proof.
  induction n as [|n [IHe IHc]]; [|auto using extract_fuel_S, concat_fuel_S].
  split; [intros e ?? H; pose proof (esize_pos e); lia|intros ???; lia].
Qed.

Lemma extract_inner_le e : (extract_inner e <= esize e)%nat.
Proof. destruct e; cbn; lia. Qed.

Lemma ExtractExpr'create_fuel_eq n e o w :
  (2 * esize e <= n)%nat -> ExtractExpr'create_fuel n e o w = ExtractExpr'create e o w.
Proof. intros. apply ExtractConcat_fuel_enough; lia. Qed.
Lemma ConcatExpr'create_fuel_eq n l r :
  (2 * extract_inner l + 1 <= n)%nat -> ConcatExpr'create_fuel n l r = ConcatExpr'create l r.
Proof.
  intros. apply ExtractConcat_fuel_enough; [lia|].
  pose proof (extract_inner_le l). pose proof (esize_pos r). lia.
Qed.

(** [ExtractExpr::create] and [ConcatExpr::create] terminate with the fuel
    they are given: both satisfy the recursive equations of the source, with
    the calls back to [create] on kids, on casts' sources, on extracted
    halves and on merged extracts. *)
Theorem ExtractConcat'create_eq e o w l r :
  ExtractExpr'create e o w =
    (if w =? getWidth e then e
     else match e with
     | ConstantExpr CE => ConstantExpr (ConstantExpr_Extract CE o w)
     | ConcatExpr x y =>
       if getWidth y <=? o then ExtractExpr'create x (o - getWidth y) w
       else if o + w <=? getWidth y then ExtractExpr'create y o w
       else ConcatExpr'create (ExtractExpr'create x 0 (w - getWidth y + o))
                              (ExtractExpr'create y o (getWidth y - o))
     | CastExpr _ src _ =>
       if o + w <=? getWidth src then
         if (o =? 0) && (w =? getWidth src) then src else ExtractExpr'create src o w
       else ExtractExpr e o w
     | _ => ExtractExpr e o w
     end) /\
  ConcatExpr'create l r =
    (let w := getWidth l + getWidth r in
     let merge :=
       match l, r with
       | ExtractExpr le lo lw, ExtractExpr re ro rw =>
         if Expr_eqb le re && (ro + rw =? lo) then ExtractExpr'create le ro w
         else ConcatExpr l r
       | _, _ => ConcatExpr l r
       end in
     match l with
     | ConstantExpr lCE =>
       match r with
       | ConstantExpr rCE => ConstantExpr (ConstantExpr_Concat lCE rCE)
       | _ => if isZero lCE && (getWidth r <? w) then ZExtExpr'create r w else merge
       end
     | _ => merge
     end).
Proof.
  split.
  - unfold ExtractExpr'create at 1. pose proof (esize_pos e).
    destruct (2 * esize e)%nat as [|n] eqn:En; [lia|]. cbn [ExtractExpr'create_fuel].
    destruct (w =? getWidth e); [done|]. destruct e; cbn [esize] in *; try done.
    + destruct (_ <=? o); [apply ExtractExpr'create_fuel_eq; lia|].
      destruct (_ <=? _); [apply ExtractExpr'create_fuel_eq; lia|].
      rewrite !ExtractExpr'create_fuel_eq by lia. apply ConcatExpr'create_fuel_eq.
      pose proof (proj1 (proj1 (ExtractConcat_fuel_enough _) e1 0 (w - getWidth e2 + o) (le_n _))).
      fold (ExtractExpr'create e1 0 (w - getWidth e2 + o)) in *. lia.
    + destruct (_ <=? _); [|done]. destruct (_ && _); [done|]. apply ExtractExpr'create_fuel_eq; lia.
  - unfold ConcatExpr'create at 1. pose proof (esize_pos l).
    destruct (2 * (esize l + esize r))%nat as [|n] eqn:En; [lia|]. cbn [ConcatExpr'create_fuel].
    destruct l; try done.
    + destruct r; try done; (destruct (_ && _) eqn:E; [|done]); inv_eval;
        unfold ZExtExpr'create, ZExtExpr'create_with;
        rewrite (proj2 (Z.eqb_neq _ _)), (proj2 (Z.ltb_ge _ _)) by lia; done.
    + destruct r; try done. destruct (_ && _); [|done].
      cbn [esize] in *. apply ExtractExpr'create_fuel_eq. lia.
Qed.

(** ** Reads *)

Lemma ReadExpr'rollback_sound rho r index iv un us :
  eval_updates rho r un = Some us -> eval rho index = Some iv -> ap_width iv = domain r ->
  match ReadExpr'rollback index un with
  | inl value => exists v, eval rho value = Some v /\ ap_width v = range r /\
                           read_updates us (ap_val iv) = Some (ap_val v)
  | inr (un', sym) => exists us', eval_updates rho r un' = Some us' /\
                        read_updates us (ap_val iv) = read_updates us' (ap_val iv) /\
                        (sym = false -> un' = un_null)
  end.
Proof.
  revert us. induction un as [|next IH ui uv]; intros us Hus Hiv Hw; cbn [ReadExpr'rollback].
  { exists us. auto. }
  pose proof Hus as Hus0.
  cbn in Hus. apply bind_Some in Hus as (us' & Hn & H). apply bind_Some in H as (wi & Hi & H).
  apply bind_Some in H as (wv & Hv & H). inv_eval.
  assert (He : eval rho (EqExpr'create index ui) = Some (APInt 1 (b2z (ap_val iv =? ap_val wi)))).
  { apply EqExpr'create_sound. erewrite eval_compare; eauto. congruence. }
  destruct (EqExpr'create index ui); try (eexists; split; [exact Hus0|done]).
  apply eval_const_inv in He as [<- _]. rewrite isTrue_spec by apply b2z_valid. cbn.
  destruct (ap_val iv =? ap_val wi) eqn:E; cbn; [eauto|].
  now apply IH.
Qed.

Lemma getZExtValue_spec c : ap_valid c = true -> ap_width c <= 64 -> getZExtValue c = ap_val c.
Proof. apply ap_getZExtValue_spec. Qed.

Lemma ReadExpr'create_sound r h i : ReadExpr r h i ⊑ ReadExpr'create (mkUpdateList r h) i.
Proof.
  intros rho v Hv. pose proof Hv as Hv0.
  apply eval_read_expr_inv in Hv as (us & iv & Hu & Hi & Vi & Hr & Hwi & Hwv & Hrd).
  pose proof (ReadExpr'rollback_sound rho r i iv h us Hu Hi Hwi) as Hb.
  unfold ReadExpr'create. cbn [ul_root ul_head].
  destruct (ReadExpr'rollback i h) as [value|[un sym]].
  { destruct Hb as (x & Hx & Hwx & Hux). unfold read_value in Hrd. rewrite Hux in Hrd.
    rewrite Hx. f_equal. destruct x, v; cbn in *. congruence. }
  destruct Hb as (us' & Hu' & Heq & Hsym).
  assert (Hs : eval rho (ReadExpr r un i) = Some v).
  { destruct v as [w n]. cbn in Hwv, Hrd. subst w. eapply eval_read_expr; eauto.
    unfold read_value in *. now rewrite <- Heq. }
  assert (Hd : eval rho (match i with
      | ConstantExpr CE => if getZExtValue CE <? size r then ReadExpr r un i else ReadExpr r h i
      | _ => ReadExpr r h i end) = Some v) by (destruct i; try done; now destruct (_ <? _)).
  destruct (isConstantArray r && negb sym) eqn:Ec; [|exact Hd].
  destruct i; try exact Hd. destruct (Z.ltb_spec (getZExtValue value) (size r)) as [Hlt|]; [|exact Hd].
  destruct (constantValues r !! Z.to_nat (getZExtValue value)) as [c|] eqn:El; [|exact Hd].
  inv_eval. apply negb_true_iff in H0. specialize (Hsym H0). subst un. cbn in Hu'. injection Hu' as <-.
  apply eval_const_inv in Hi as [-> Vc]. pose proof (array_ok_domain _ Hr).
  rewrite getZExtValue_spec in * by (done || lia).
  unfold read_value in Hrd. rewrite Heq in Hrd. cbn in Hrd. unfold initial_value in Hrd.
  rewrite H, El in Hrd. cbn in Hrd. destruct (array_ok_const _ _ _ Hr El) as [Vcc Wcc].
  rewrite eval_const by done. f_equal. destruct c, v; cbn in *. congruence.
Qed.

(** ** Rebuild *)

(** C2: for every expression class, rebuilding a node through [X::create] from
    its own kids gives an expression with the same value wherever the node has
    one, for all array contents; so the canonicalization applied at
    construction never changes the meaning of an expression. *)
Theorem create_preserves_meaning :
  (forall x, NotOptimizedExpr x ⊑ NotOptimizedExpr'create x) /\
  (forall r h i, ReadExpr r h i ⊑ ReadExpr'create (mkUpdateList r h) i) /\
  (forall c t f, SelectExpr c t f ⊑ SelectExpr'create c t f) /\
  (forall l r, ConcatExpr l r ⊑ ConcatExpr'create l r) /\
  (forall x o w, ExtractExpr x o w ⊑ ExtractExpr'create x o w) /\
  (forall k x w, CastExpr k x w ⊑ Cast'create k x w) /\
  (forall x, NotExpr x ⊑ NotExpr'create x) /\
  (forall k l r, BinaryExpr k l r ⊑ Arith'create k l r) /\
  (forall k l r, CmpExpr k l r ⊑ Cmp'create k l r).
Proof.
  split_and!; auto using ReadExpr'create_sound, SelectExpr'create_sound, ConcatExpr'create_sound,
    ExtractExpr'create_sound, Cast'create_sound, NotExpr'create_sound, Arith'create_sound,
    Cmp'create_sound; reflexivity.
Qed.

End Sound.

(** Folding at construction: [(x + 3) + 4] over a read of a symbolic array. *)
Lemma create_preserves_meaning_witness :
  let opts := {| ConstArrayOpt := false |} in
  let buf := mkArray 1 "buf" 4 Int32 Int8 [] in
  let x := ReadExpr buf un_null (ConstantExpr (APInt Int32 2)) in
  let c n := ConstantExpr (APInt Int8 n) in
  BinaryExpr Add (BinaryExpr Add (c 3) x) (c 4) ⊑
    Arith'create (A:=apint_ref) (Opts:=opts) Add (BinaryExpr Add (c 3) x) (c 4) /\
  Arith'create (A:=apint_ref) (Opts:=opts) Add (BinaryExpr Add (c 3) x) (c 4) = BinaryExpr Add (c 7) x.
Proof.
  split; [apply (create_preserves_meaning (AS:=apint_ref_spec))|reflexivity].
Defined.
