(* ===== verification/ExprTyping.v ===== *)
(** * Widths: the constructors keep expressions well typed

    [has_width w e]: [e] is well formed (operands of matching widths, constants
    that fit theirs, reads and updates of the array's domain and range) and has
    width [w].  The asserts of src/lib/Expr/Expr.cpp state these conditions
    where nodes are built.  [create_well_typed]: from operands that meet the
    asserts of [X::create], the result is well typed and has the width of the
    plain node, so that the asserts of further constructions are met.

    This does not follow from the preservation of values: it also covers
    operands without a value. *)

From stdpp Require Import strings.
From S2P Require Import Prelude APInt Expr ExprOrder ExprSem ExprCreate ExprCreateSound ExprRebuildSound.

Fixpoint well_typed (e : Expr) : bool :=
  match e with
  | ConstantExpr c => ap_valid c
  | NotOptimizedExpr x | NotExpr x => well_typed x
  | ReadExpr r h i => array_ok r && un_well_typed r h && well_typed i && (getWidth i =? domain r)
  | SelectExpr c t f =>
    well_typed c && well_typed t && well_typed f && (getWidth c =? Bool) && (getWidth t =? getWidth f)
  | ConcatExpr l r => well_typed l && well_typed r
  | ExtractExpr x o w => well_typed x && (0 <=? o) && (0 <? w) && (o + w <=? getWidth x)
  | CastExpr _ x w => well_typed x && (getWidth x <=? w)
  | BinaryExpr _ l r | CmpExpr _ l r => well_typed l && well_typed r && (getWidth l =? getWidth r)
  end
with un_well_typed (r : Array) (u : UpdateNode) : bool :=
  match u with
  | un_null => true
  | un_node n i v =>
    un_well_typed r n && well_typed i && well_typed v && (getWidth i =? domain r) && (getWidth v =? range r)
  end.

Definition has_width (w : Z) (e : Expr) : Prop := well_typed e = true /\ getWidth e = w.

Create HintDb typing discriminated.

Ltac split_bools :=
  repeat match goal with
  | H : _ && _ = true |- _ => apply andb_true_iff in H as [??]
  | H : (_ =? _) = true |- _ => apply Z.eqb_eq in H
  | H : (_ <? _) = true |- _ => apply Z.ltb_lt in H
  | H : (_ <=? _) = true |- _ => apply Z.leb_le in H
  end.

Ltac join_bools :=
  repeat match goal with
  | |- _ && _ = true => apply andb_true_iff; split
  | |- (_ =? _) = true => apply Z.eqb_eq
  | |- (_ <? _) = true => apply Z.ltb_lt
  | |- (_ <=? _) = true => apply Z.leb_le
  end.

(** Rules, and their inversions. *)

Ltac has_width_rule := unfold has_width; cbn; intros; destruct_and?; split; [join_bools; auto; lia|lia].

Lemma hw_const w c : ap_valid c = true -> ap_width c = w -> has_width w (ConstantExpr c).
Proof. now split. Qed.
Lemma hw_not_optimized w x : has_width w x -> has_width w (NotOptimizedExpr x).
Proof. done. Qed.
Lemma hw_not w x : has_width w x -> has_width w (NotExpr x).
Proof. done. Qed.
Lemma hw_binary w k l r : has_width w l -> has_width w r -> has_width w (BinaryExpr k l r).
Proof. has_width_rule. Qed.
Lemma hw_cmp w k l r : has_width w l -> has_width w r -> has_width Bool (CmpExpr k l r).
Proof. has_width_rule. Qed.
Lemma hw_select w c t f : has_width Bool c -> has_width w t -> has_width w f -> has_width w (SelectExpr c t f).
Proof. has_width_rule. Qed.
Lemma hw_concat wl wr l r : has_width wl l -> has_width wr r -> has_width (wl + wr) (ConcatExpr l r).
Proof. has_width_rule. Qed.
Lemma hw_extract wx x o w : has_width wx x -> 0 <= o -> 0 < w -> o + w <= wx -> has_width w (ExtractExpr x o w).
Proof. has_width_rule. Qed.
Lemma hw_cast wx k x w : has_width wx x -> wx <= w -> has_width w (CastExpr k x w).
Proof. has_width_rule. Qed.
Lemma hw_read r h i : array_ok r = true -> un_well_typed r h = true -> has_width (domain r) i ->
  has_width (range r) (ReadExpr r h i).
Proof. has_width_rule. Qed.

#[export] Hint Resolve hw_const hw_not_optimized hw_not hw_binary hw_cmp hw_select hw_concat hw_cast hw_read : typing.

Ltac has_width_inv := unfold has_width; cbn; intros [? ?]; split_bools; split_and?; auto; try congruence.

Lemma hw_const_inv w c : has_width w (ConstantExpr c) -> ap_valid c = true /\ ap_width c = w.
Proof. has_width_inv. Qed.
Lemma hw_binary_inv w k l r : has_width w (BinaryExpr k l r) -> has_width w l /\ has_width w r.
Proof. has_width_inv. Qed.
Lemma hw_cmp_inv w k l r : has_width w (CmpExpr k l r) -> w = Bool /\ has_width (getWidth l) l /\ has_width (getWidth l) r.
Proof. has_width_inv. Qed.
Lemma hw_select_inv w c t f : has_width w (SelectExpr c t f) -> has_width Bool c /\ has_width w t /\ has_width w f.
Proof. has_width_inv. Qed.
Lemma hw_concat_inv w l r :
  has_width w (ConcatExpr l r) -> has_width (getWidth l) l /\ has_width (getWidth r) r /\ w = getWidth l + getWidth r.
Proof. has_width_inv. Qed.
Lemma hw_extract_inv w x o w' : has_width w (ExtractExpr x o w') ->
  has_width (getWidth x) x /\ 0 <= o /\ 0 < w /\ o + w <= getWidth x /\ w' = w.
Proof. has_width_inv; lia. Qed.
Lemma hw_cast_inv w k x w' : has_width w (CastExpr k x w') -> has_width (getWidth x) x /\ getWidth x <= w /\ w' = w.
Proof. has_width_inv; lia. Qed.
Lemma hw_not_inv w x : has_width w (NotExpr x) -> has_width w x.
Proof. done. Qed.
Lemma hw_not_optimized_inv w x : has_width w (NotOptimizedExpr x) -> has_width w x.
Proof. done. Qed.
Lemma hw_read_inv w r h i : has_width w (ReadExpr r h i) ->
  array_ok r = true /\ un_well_typed r h = true /\ has_width (domain r) i /\ w = range r.
Proof. has_width_inv. Qed.

Lemma hw_self e : well_typed e = true -> has_width (getWidth e) e.
Proof. done. Qed.
#[export] Hint Resolve hw_self : typing.

(** A width is positive. *)
Lemma has_width_pos w e : has_width w e -> 0 < w.
Proof.
  revert w. induction e; intros w Hw.
  - apply hw_const_inv in Hw as [Hv <-]. now apply ap_valid_spec in Hv.
  - apply IHe. now apply hw_not_optimized_inv.
  - apply hw_read_inv in Hw as (Hr & _ & _ & ->). now apply array_ok_range.
  - apply hw_select_inv in Hw as (_ & Ht & _). auto.
  - apply hw_concat_inv in Hw as (Hl & Hr & ->). pose proof (IHe1 _ Hl). pose proof (IHe2 _ Hr). lia.
  - apply hw_extract_inv in Hw as (_ & _ & ? & _). done.
  - apply hw_cast_inv in Hw as (Hx & ? & _). pose proof (IHe _ Hx). lia.
  - apply IHe. now apply hw_not_inv.
  - apply hw_binary_inv in Hw as [Hl _]. auto.
  - apply hw_cmp_inv in Hw as (-> & _). done.
Qed.

(** Well-typed expressions have well-formed constants. *)
Lemma well_typed_wf_mut :
  (forall e, well_typed e = true -> wf_consts e = true) /\
  (forall u r, un_well_typed r u = true -> un_wf_consts u = true).
Proof.
  apply Expr_UpdateNode_ind; cbn; intros; split_bools; join_bools; eauto.
Qed.

Lemma has_width_wf w e : has_width w e -> wf_consts e = true.
Proof. intros [? _]. now apply well_typed_wf_mut. Qed.

(** An expression with a value is well typed. *)
Lemma eval_well_typed_mut rho :
  (forall e v, eval rho e = Some v -> well_typed e = true) /\
  (forall u r us, eval_updates rho r u = Some us -> un_well_typed r u = true).
Proof.
  apply Expr_UpdateNode_ind; cbn; intros; inv_eval; join_bools; eauto;
    repeat match goal with E : eval rho ?e = Some _ |- context [getWidth ?e] => rewrite (eval_width _ _ _ E) end;
    repeat match goal with
    | H : eval_arith _ _ _ = Some _ |- _ => unfold eval_arith in H; inv_eval
    | H : eval_cmp _ _ _ = Some _ |- _ => unfold eval_cmp in H; inv_eval
    | H : eval_cast _ _ _ = Some _ |- _ => unfold eval_cast in H; inv_eval
    | H : eval_extract _ _ _ = Some _ |- _ => unfold eval_extract in H; inv_eval
    | H : eval_select _ _ _ = Some _ |- _ => unfold eval_select in H; inv_eval
    | H : eval_read _ _ _ _ = Some _ |- _ => unfold eval_read in H; inv_eval
    end; try done.
Qed.

Lemma eval_has_width rho e v : eval rho e = Some v -> has_width (ap_width v) e.
Proof. intros H. split; [eapply eval_well_typed_mut, H|eapply eval_width, H]. Qed.

(** ** The constructors *)

Section Typed.
Context `{A : APIntOps} {AS : APIntSpec A} `{Opts : ExprOptions}.

(** *** Constants *)

Lemma hw_alloc v w : 0 < w -> 0 <= v < 2 ^ 64 -> has_width w (ConstantExpr (ConstantExpr'alloc v w)).
Proof.
  intros. split; [now apply make_valid|]. cbn. unfold ConstantExpr'alloc. now rewrite ap_make_spec.
Qed.

Lemma hw_zero w e : has_width w e -> has_width w (ConstantExpr (ConstantExpr'create 0 (getWidth e))).
Proof. intros H. pose proof (has_width_pos _ _ H). destruct H as [_ ->]. apply hw_alloc; lia. Qed.

Lemma hw_bool_alloc b : has_width Bool (ConstantExpr (ConstantExpr'alloc (b2z b) Bool)).
Proof. apply hw_alloc; [done|]. destruct b; cbn; lia. Qed.

Lemma hw_false : has_width Bool (ConstantExpr (ConstantExpr'create 0 Bool)).
Proof. exact (hw_bool_alloc false). Qed.
Lemma hw_true : has_width Bool (ConstantExpr (ConstantExpr'alloc 1 Bool)).
Proof. exact (hw_bool_alloc true). Qed.

Lemma hw_arith_const w k a b : has_width w (ConstantExpr a) -> has_width w (ConstantExpr b) ->
  has_width w (ConstantExpr (ConstantExpr_arith k a b)).
Proof.
  intros [Va Wa]%hw_const_inv [Vb Wb]%hw_const_inv.
  destruct (ap_arith_width k a b) as [? ?]; [done..|congruence|]. split; [done|]. cbn. unfold ConstantExpr_arith. congruence.
Qed.

Lemma hw_cmp_const k a b : has_width Bool (ConstantExpr (ConstantExpr_cmp k a b)).
Proof. apply hw_bool_alloc. Qed.

(** Folding constants is typed as their values are. *)
Lemma hw_refines e e' rho v : e ⊑ e' -> eval rho e = Some v -> has_width (ap_width v) e'.
Proof. intros H Hv. exact (eval_has_width _ _ _ (H _ _ Hv)). Qed.

Definition no_contents : valuation := fun _ _ => 0.

Lemma hw_cast_const k c w : ap_valid c = true -> 0 < w -> has_width w (ConstantExpr (ConstantExpr_cast k c w)).
Proof. intros. rewrite ConstantExpr_cast_spec by done. split; [now apply cast_valid|done]. Qed.

Lemma hw_extract_const c o w : ap_valid c = true -> 0 <= o -> 0 < w -> o + w <= ap_width c ->
  has_width w (ConstantExpr (ConstantExpr_Extract c o w)).
Proof.
  intros. eapply (hw_refines _ _ no_contents (APInt w _)); [apply const_extract|].
  cbn. rewrite H. cbn. unfold eval_extract.
  rewrite (proj2 (Z.leb_le _ _)), (proj2 (Z.ltb_lt _ _)), (proj2 (Z.leb_le _ _)) by lia. reflexivity.
Qed.

Lemma hw_concat_const a b : ap_valid a = true -> ap_valid b = true ->
  has_width (ap_width a + ap_width b) (ConstantExpr (ConstantExpr_Concat a b)).
Proof.
  intros. eapply (hw_refines _ _ no_contents (APInt _ _)); [apply const_concat|]. cbn. now rewrite H, H0.
Qed.

Lemma hw_not_const w c : has_width w (ConstantExpr c) -> has_width w (ConstantExpr (ConstantExpr_Not c)).
Proof.
  intros [V W]%hw_const_inv. unfold ConstantExpr_Not. rewrite ap_not_spec by done.
  split; [|done]. exact (eval_not_valid _ V).
Qed.

End Typed.

#[export] Hint Resolve hw_zero hw_false hw_true hw_arith_const hw_cmp_const hw_not_const : typing.

Section Typed2.
Context `{A : APIntOps} {AS : APIntSpec A} `{Opts : ExprOptions}.

(** *** Binary operations *)

Lemma hw_BCREATE_R w w' op pl pr cr l r :
  (forall a b, has_width w (ConstantExpr a) -> has_width w (ConstantExpr b) -> has_width w' (ConstantExpr (op a b))) ->
  (forall a c, has_width w a -> has_width w (ConstantExpr c) -> has_width w' (pl a c)) ->
  (forall c b, has_width w (ConstantExpr c) -> has_width w b -> has_width w' (pr c b)) ->
  (forall a b, has_width w a -> has_width w b -> has_width w' (cr a b)) ->
  has_width w l -> has_width w r -> has_width w' (BCREATE_R op pl pr cr l r).
Proof. intros. unfold BCREATE_R. destruct l, r; auto. Qed.

Lemma hw_BCREATE w w' op cr l r :
  (forall a b, has_width w (ConstantExpr a) -> has_width w (ConstantExpr b) -> has_width w' (ConstantExpr (op a b))) ->
  (forall a b, has_width w a -> has_width w b -> has_width w' (cr a b)) ->
  has_width w l -> has_width w r -> has_width w' (BCREATE op cr l r).
Proof. intros. unfold BCREATE. destruct l, r; auto. Qed.

Lemma hw_And_partial w l c : has_width w l -> has_width w (ConstantExpr c) -> has_width w (AndExpr_createPartial l c).
Proof. intros. unfold AndExpr_createPartial. repeat case_match; auto with typing. Qed.
Lemma hw_Or_partial w l c : has_width w l -> has_width w (ConstantExpr c) -> has_width w (OrExpr_createPartial l c).
Proof. intros. unfold OrExpr_createPartial. repeat case_match; auto with typing. Qed.

Lemma hw_And w l r : has_width w l -> has_width w r -> has_width w (AndExpr'create l r).
Proof.
  apply hw_BCREATE_R; auto using hw_And_partial with typing.
  - intros. now apply hw_And_partial.
  - intros. unfold AndExpr_create. auto with typing.
Qed.
Lemma hw_Or w l r : has_width w l -> has_width w r -> has_width w (OrExpr'create l r).
Proof.
  apply hw_BCREATE_R; auto using hw_Or_partial with typing.
  - intros. now apply hw_Or_partial.
  - intros. unfold OrExpr_create. auto with typing.
Qed.

Lemma hw_Eq_create w l r : has_width w l -> has_width w r -> has_width Bool (EqExpr_create l r).
Proof. intros. unfold EqExpr_create. case_match; eauto with typing. Qed.

Lemma hw_TryConstArrayOpt_loop iw eqIndex cl values i n res e :
  0 < iw -> 0 <= i -> i + Z.of_nat (length values) <= 2 ^ 32 ->
  (forall c, has_width iw (ConstantExpr c) -> has_width Bool (eqIndex c)) ->
  has_width Bool res -> TryConstArrayOpt_loop eqIndex iw cl values i n res = Some e -> has_width Bool e.
Proof.
  intros Hw Hi Hl He. revert i n res Hi Hl.
  induction values as [|v l IH]; cbn [TryConstArrayOpt_loop length]; intros i n res Hi Hl Hr.
  { now intros [= <-]. }
  destruct (ConstantExpr_eqb cl v); [|apply IH; auto; lia].
  destruct (100 <? n + 1); [done|]. apply IH; [lia..|].
  apply hw_Or; [done|]. apply He, hw_alloc; lia.
Qed.

Lemma array_values_bound root : array_ok root = true -> Z.of_nat (length (constantValues root)) <= 2 ^ 32.
Proof.
  intros Hok. unfold array_ok in Hok. split_bools. destruct (isSymbolicArray root) eqn:Es.
  - unfold isSymbolicArray, isConstantArray in Es. destruct (constantValues root); [cbn; lia|done].
  - cbn in *. split_bools. lia.
Qed.

Lemma hw_TryConstArrayOpt w eqIndex cl root head index :
  has_width w (ConstantExpr cl) -> has_width w (ReadExpr root head index) ->
  (forall c, has_width (getWidth index) (ConstantExpr c) -> has_width Bool (eqIndex c)) ->
  has_width Bool (TryConstArrayOpt eqIndex cl root head index).
Proof.
  intros Hc Hr He. unfold TryConstArrayOpt. case_match; [eapply hw_Eq_create; eauto|].
  apply hw_read_inv in Hr as Hr'. destruct Hr' as (Hok & _ & Hi & _).
  pose proof (has_width_pos _ _ Hi) as Hpos. destruct Hi as [Hi0 Hi1].
  destruct (TryConstArrayOpt_loop _ _ _ _ _ _ _) as [res|] eqn:E; [|eapply hw_Eq_create; eauto].
  eapply hw_TryConstArrayOpt_loop; [..|exact E]; auto using hw_false; [lia|lia|].
  rewrite Z.add_0_l. now apply array_values_bound.
Qed.

(** [EqExpr::create] of an expression and a constant. *)
Lemma hw_eq_const_r w (f : apint -> Expr -> Expr) c x :
  has_width w (ConstantExpr c) -> has_width w x ->
  (forall w c, has_width w (ConstantExpr c) -> has_width w x -> has_width Bool (f c x)) ->
  has_width Bool (match x with ConstantExpr a => ConstantExpr (ConstantExpr_cmp Eq a c) | _ => f c x end).
Proof. intros Hc Hx Hf. destruct x; eauto with typing. Qed.

Lemma hw_eq_cast_const w cl x (f : apint -> Expr -> Expr) (b : bool) :
  has_width w (ConstantExpr cl) -> has_width (getWidth x) x ->
  (forall w c, has_width w (ConstantExpr c) -> has_width w x -> has_width Bool (f c x)) ->
  has_width Bool
    (if b
     then match x with
          | ConstantExpr a => ConstantExpr (ConstantExpr_cmp Eq a (ConstantExpr_ZExt cl (getWidth x)))
          | _ => f (ConstantExpr_ZExt cl (getWidth x)) x
          end
     else ConstantExpr (ConstantExpr'create 0 Bool)).
Proof.
  intros [V W]%hw_const_inv Hx Hf. destruct b; [|auto with typing].
  pose proof (has_width_pos _ _ Hx). eapply hw_eq_const_r; eauto.
  exact (hw_cast_const ZExt cl (getWidth x) V H).
Qed.

Lemma hw_Eq_partialR w cl r : has_width w (ConstantExpr cl) -> has_width w r ->
  has_width Bool (EqExpr_createPartialR cl r).
Proof.
  revert w cl. induction r using Expr_mut with (P0 := fun _ => True); try exact I; intros w cl Hc Hr;
    cbn [EqExpr_createPartialR];
    pose proof Hc as Hcw; apply hw_const_inv in Hcw as [_ <-];
    destruct (Z.eqb_spec (ap_width cl) Bool) as [Hw|Hw];
    try (destruct (isTrue cl) eqn:Ht; [now rewrite Hw in Hr|]); try (now eapply hw_Eq_create; eauto).
  - destruct ConstArrayOpt; [|now eapply hw_Eq_create; eauto].
    eapply hw_TryConstArrayOpt; [exact Hc|exact Hr|]. intros c Hcc.
    apply hw_read_inv in Hr as (_ & _ & [Hi Hd] & _). eapply hw_eq_const_r; eauto. now rewrite Hd in *.
  - apply hw_cast_inv in Hr as (Hx & _ & _). destruct k; now eapply hw_eq_cast_const; eauto.
  - destruct k; try now eapply hw_Eq_create; eauto.
    apply hw_binary_inv in Hr as [H1 H2]. apply hw_And; eapply hw_eq_const_r; eauto using hw_zero.
  - destruct k; try now eapply hw_Eq_create; eauto.
    all: destruct r1; try now eapply hw_Eq_create; eauto.
    all: apply hw_binary_inv in Hr as [H1 H2]; eapply IHr2; [|exact H2]; auto with typing.
  - destruct k; try now eapply hw_Eq_create; eauto. destruct r1; try now eapply hw_Eq_create; eauto.
    destruct (_ && _) eqn:E; [|now eapply hw_Eq_create; eauto]. split_bools.
    apply hw_cmp_inv in Hr as (_ & H1 & H2). cbn in H2. congruence.
Qed.

Lemma hw_Eq w l r : has_width w l -> has_width w r -> has_width Bool (EqExpr'create l r).
Proof.
  apply hw_BCREATE_R; intros; auto with typing; unfold EqExpr_createPartial;
    eauto using hw_Eq_partialR, hw_Eq_create.
Qed.

Lemma hw_IsZero w e : has_width w e -> has_width Bool (createIsZero e).
Proof. intros. unfold createIsZero. eapply hw_Eq; eauto with typing. Qed.

Lemma hw_Xor_partialR w c r : has_width w (ConstantExpr c) -> has_width w r -> has_width w (XorExpr_createPartialR c r).
Proof.
  intros Hc Hr. unfold XorExpr_createPartialR. case_match; [done|].
  destruct (Z.eqb_spec (ap_width c) Bool) as [E|]; [|auto with typing].
  apply hw_const_inv in Hc as [_ Hw]. rewrite <- Hw, E in *. unfold EqExpr_createPartial.
  eapply hw_Eq_partialR; [apply hw_false|done].
Qed.

Lemma hw_Xor w l r : has_width w l -> has_width w r -> has_width w (XorExpr'create l r).
Proof.
  apply hw_BCREATE_R; intros; unfold XorExpr_createPartial, XorExpr_create; auto using hw_Xor_partialR with typing.
Qed.

Lemma hw_Mul_partialR w c r : has_width w (ConstantExpr c) -> has_width w r -> has_width w (MulExpr_createPartialR c r).
Proof.
  intros. unfold MulExpr_createPartialR, AndExpr_createPartialR.
  repeat case_match; auto using hw_And_partial with typing.
Qed.

Lemma hw_Mul w l r : has_width w l -> has_width w r -> has_width w (MulExpr'create l r).
Proof.
  apply hw_BCREATE_R; intros; unfold MulExpr_createPartial, MulExpr_create;
    repeat case_match; auto using hw_Mul_partialR with typing.
Qed.

(** *** Add and Sub *)

Lemma hw_AddSub_partialR r w c : has_width w (ConstantExpr c) -> has_width w r ->
  has_width w (AddExpr_createPartialR c r) /\ has_width w (SubExpr_createPartialR c r).
Proof.
  revert w c. induction r using Expr_mut with (P0 := fun _ => True); try exact I; intros w c Hc Hr;
    cbn [AddExpr_createPartialR SubExpr_createPartialR];
    (destruct (ap_width c =? Bool); [auto using hw_Xor_partialR|]);
    destruct (isZero c); try (split; auto with typing; fail).
  all: apply hw_binary_inv in Hr as H12; destruct H12 as [H1 H2].
  all: destruct k; try (split; auto with typing; fail); destruct r1; try (split; auto with typing; fail).
  all: pose proof (fun w c => IHr2 w c) as IH.
  all: split; try done; destruct r2; try (eapply IH; [|exact H2]); auto with typing.
Qed.

Lemma hw_AddSub_const w c x : has_width w (ConstantExpr c) -> has_width w x ->
  has_width w (AddExpr'create_constL c x) /\ has_width w (SubExpr'create_constL c x) /\
  has_width w (AddExpr_createPartial x c) /\ has_width w (SubExpr_createPartial x c) /\
  has_width w (SubExpr'create_constR x c).
Proof.
  intros Hc Hx. assert (Hz : has_width w (ConstantExpr (ConstantExpr'alloc 0 (ap_width c)))) by exact (hw_zero _ _ Hc).
  assert (Hp : has_width w (AddExpr_createPartial x c)) by now apply hw_AddSub_partialR.
  assert (Hs : has_width w (SubExpr_createPartial x c))
    by (apply hw_AddSub_partialR; auto with typing).
  unfold AddExpr'create_constL, SubExpr'create_constL, SubExpr'create_constR.
  split_and!; auto; destruct x; try (now apply hw_AddSub_partialR); auto with typing.
Qed.

Definition binary_typed (f : Expr -> Expr -> Expr) : Prop :=
  forall w l r, has_width w l -> has_width w r -> has_width w (f l r).

Lemma hw_const_left w k e c b : const_left k e = Some (c, b) -> has_width w e ->
  has_width w (ConstantExpr c) /\ has_width w b.
Proof. intros ->%const_left_spec H. now apply hw_binary_inv in H. Qed.

Lemma hw_AddSub_body addF subF : binary_typed addF -> binary_typed subF ->
  binary_typed (AddExpr_create_body addF subF) /\ binary_typed (SubExpr_create_body addF subF).
Proof.
  intros Ha Hs. split; intros w l r Hl Hr; unfold AddExpr_create_body, SubExpr_create_body;
    (case_match; [unfold XorExpr_create; auto with typing|]);
    try (case_match; [exact (hw_zero _ _ Hl)|]);
    repeat match goal with |- context [const_left ?k ?e] =>
      let E := fresh "E" in destruct (const_left k e) as [[? ?]|] eqn:E;
      [match goal with H : has_width _ e |- _ =>
         destruct (hw_const_left _ _ _ _ _ E H) as [? ?]; apply hw_AddSub_const; auto end|]
    end; auto with typing.
Qed.

Lemma hw_AddSub_fuel n : binary_typed (AddExpr'create_fuel n) /\ binary_typed (SubExpr'create_fuel n).
Proof.
  induction n as [|n [IHa IHs]]; split; intros w l r Hl Hr; cbn [AddExpr'create_fuel SubExpr'create_fuel];
    (eapply hw_BCREATE_R; [..|exact Hl|exact Hr]); auto with typing; intros;
    try (now apply hw_AddSub_const); try (now apply hw_AddSub_partialR); now apply hw_AddSub_body.
Qed.

(** *** Division, shifts and comparisons *)


(** At width 1 the operand that is returned has the width of the node. *)
Lemma hw_bool_node w e : has_width w e -> (getWidth e =? Bool) = true -> w = Bool.
Proof. intros [_ <-] H. now apply Z.eqb_eq. Qed.

Lemma hw_Arith k : binary_typed (Arith'create k).
Proof.
  intros w l r Hl Hr. destruct k; cbn [Arith'create]; auto using hw_Mul, hw_And, hw_Or, hw_Xor;
    try (now apply hw_AddSub_fuel); revert Hl Hr; apply hw_BCREATE; auto with typing; intros a b Ha Hb;
    unfold UDivExpr_create, SDivExpr_create, URemExpr_create, SRemExpr_create, ShlExpr_create,
      LShrExpr_create, AShrExpr_create;
    destruct (getWidth a =? Bool) eqn:E; auto with typing;
    pose proof (hw_bool_node _ _ Ha E); subst; eauto using hw_And, hw_IsZero, hw_false.
Qed.

Lemma hw_Cmp w k l r : has_width w l -> has_width w r -> has_width Bool (Cmp'create k l r).
Proof.
  intros Hl Hr.
  assert (Hc : forall k w a b, has_width w a -> has_width w b ->
    has_width Bool (match k with Ult => UltExpr'create a b | Ule => UleExpr'create a b
                    | Slt => SltExpr'create a b | _ => SleExpr'create a b end)).
  { clear - AS. intros k w l r Hl Hr. destruct k; revert Hl Hr; apply hw_BCREATE; auto with typing; intros a b Ha Hb;
      unfold UltExpr_create, UleExpr_create, SltExpr_create, SleExpr_create;
      destruct (getWidth a =? Bool) eqn:E; eauto with typing;
      pose proof (hw_bool_node _ _ Ha E); subst; eauto using hw_And, hw_Or, hw_IsZero. }
  destruct k; cbn [Cmp'create]; try (exact (Hc Ult _ _ _ Hl Hr) || exact (Hc Ule _ _ _ Hl Hr) ||
    exact (Hc Slt _ _ _ Hl Hr) || exact (Hc Sle _ _ _ Hl Hr) || exact (Hc Ult _ _ _ Hr Hl) ||
    exact (Hc Ule _ _ _ Hr Hl) || exact (Hc Slt _ _ _ Hr Hl) || exact (Hc Sle _ _ _ Hr Hl)).
  - now eapply hw_Eq; eauto.
  - eapply hw_Eq; [apply hw_false|now eapply hw_Eq; eauto].
Qed.

(** *** Not, Select *)

Lemma hw_Not w e : has_width w e -> has_width w (NotExpr'create e).
Proof. intros. unfold NotExpr'create. destruct e; auto with typing. Qed.

Lemma hw_Select w c t f : has_width Bool c -> has_width w t -> has_width w f ->
  has_width w (SelectExpr'create c t f).
Proof.
  intros Hc Ht Hf. unfold SelectExpr'create. destruct c; try (case_match; done);
    (case_match; [done|]); (destruct (getWidth t =? Bool) eqn:E; [|auto with typing]);
    pose proof (hw_bool_node _ _ Ht E); subst; destruct t; try (destruct f; auto with typing);
    case_match; eauto using hw_And, hw_Or, hw_IsZero.
Qed.

(** *** Extract, Concat, casts *)

Definition extract_typed (f : Expr -> Z -> Z -> Expr) : Prop :=
  forall wx x o w, has_width wx x -> 0 <= o -> 0 < w -> o + w <= wx -> has_width w (f x o w).
Definition concat_typed (f : Expr -> Expr -> Expr) : Prop :=
  forall wl wr l r, has_width wl l -> has_width wr r -> has_width (wl + wr) (f l r).

Lemma hw_ZExt_with ext wx e w :
  extract_typed ext -> has_width wx e -> 0 < w -> has_width w (ZExtExpr'create_with ext e w).
Proof.
  intros Hext He Hw. unfold ZExtExpr'create_with. destruct He as [He Hwe].
  destruct (Z.eqb_spec w (getWidth e)) as [->|]; [done|].
  destruct (Z.ltb_spec w (getWidth e)); [apply (Hext (getWidth e)); auto with typing; lia|].
  destruct e; try (eapply hw_cast; [now split|lia]). apply (hw_cast_const ZExt); [done|lia].
Qed.

Lemma hw_Extract_step ext cat : extract_typed ext -> concat_typed cat ->
  extract_typed (fun x off w =>
    if w =? getWidth x then x
    else match x with
    | ConstantExpr CE => ConstantExpr (ConstantExpr_Extract CE off w)
    | ConcatExpr l r =>
      if getWidth r <=? off then ext l (off - getWidth r) w
      else if off + w <=? getWidth r then ext r off w
      else cat (ext l 0 (w - getWidth r + off)) (ext r off (getWidth r - off))
    | CastExpr _ src _ =>
      if off + w <=? getWidth src then if (off =? 0) && (w =? getWidth src) then src else ext src off w
      else ExtractExpr x off w
    | _ => ExtractExpr x off w
    end).
Proof.
  intros Hext Hcat wx x o w Hx Ho Hw Hle. destruct (Z.eqb_spec w (getWidth x)) as [->|Hne]; [now destruct Hx|].
  assert (Hplain : has_width w (ExtractExpr x o w)) by now eapply hw_extract; eauto.
  destruct x; auto.
  - apply hw_const_inv in Hx as [? <-]. now apply hw_extract_const.
  - apply hw_concat_inv in Hx as (Hl & Hr & ->). repeat case_match; split_bools.
    + eapply Hext; [exact Hl|lia..].
    + eapply Hext; [exact Hr|lia..].
    + apply Z.leb_gt in H, H0. pose proof (has_width_pos _ _ Hr).
      replace w with ((w - getWidth x2 + o) + (getWidth x2 - o)) at 1 by lia.
      apply Hcat; eapply Hext; eauto; lia.
  - apply hw_cast_inv in Hx as (Hx & _ & _). repeat case_match; split_bools; subst; auto.
    eapply Hext; [exact Hx|lia..].
Qed.

Lemma hw_Concat_step ext : extract_typed ext ->
  concat_typed (fun l r =>
    let w := getWidth l + getWidth r in
    let merge := match l, r with
      | ExtractExpr le lo lw, ExtractExpr re ro rw =>
        if Expr_eqb le re && (ro + rw =? lo) then ext le ro w else ConcatExpr l r
      | _, _ => ConcatExpr l r
      end in
    match l with
    | ConstantExpr lCE =>
      match r with
      | ConstantExpr rCE => ConstantExpr (ConstantExpr_Concat lCE rCE)
      | _ => if isZero lCE && (getWidth r <? w) then ZExtExpr'create_with ext r w else merge
      end
    | _ => merge
    end).
Proof.
  intros Hext wl wr l r Hl Hr. cbn zeta.
  assert (Hplain : has_width (wl + wr) (ConcatExpr l r)) by auto with typing.
  pose proof (has_width_pos _ _ Hl). pose proof (has_width_pos _ _ Hr).
  assert (Hz : has_width (wl + wr) (ZExtExpr'create_with ext r (getWidth l + getWidth r))).
  { pose proof Hl as [_ ->]. pose proof Hr as [_ Er]. rewrite Er.
    eapply hw_ZExt_with; [done|exact Hr|lia]. }
  destruct l; try done; [destruct r; try (case_match; done)|destruct r; try done].
  - apply hw_const_inv in Hl as [? <-]. apply hw_const_inv in Hr as [? <-]. now apply hw_concat_const.
  - destruct (_ && _) eqn:E; [|done]. apply andb_true_iff in E as [E1 E2].
    pose proof (has_width_wf _ _ Hl) as W1. pose proof (has_width_wf _ _ Hr) as W2. cbn in W1, W2.
    apply Expr_eqb_eq in E1; [|done..]. subst.
    apply hw_extract_inv in Hl as (Hx & ? & ? & ? & ->). apply hw_extract_inv in Hr as (_ & ? & ? & ? & ->).
    apply Z.eqb_eq in E2. cbn [getWidth]. eapply Hext; [exact Hx|lia..].
Qed.

Lemma hw_ExtractConcat_fuel n : extract_typed (ExtractExpr'create_fuel n) /\ concat_typed (ConcatExpr'create_fuel n).
Proof.
  induction n as [|n [IHe IHc]]; split; intros ? ? *.
  - intros. cbn. now eapply hw_extract; eauto.
  - intros. cbn. auto with typing.
  - exact (hw_Extract_step _ _ IHe IHc _ _ _ _).
  - exact (hw_Concat_step _ IHe _ _ _ _).
Qed.

Lemma hw_Extract : extract_typed ExtractExpr'create.
Proof. intros ????. now apply hw_ExtractConcat_fuel. Qed.
Lemma hw_Concat : concat_typed ConcatExpr'create.
Proof. intros ????. now apply hw_ExtractConcat_fuel. Qed.

Lemma hw_Cast k wx e w : has_width wx e -> 0 < w -> has_width w (Cast'create k e w).
Proof.
  intros He Hw. destruct k; cbn; [now eapply hw_ZExt_with; eauto using hw_Extract|].
  unfold SExtExpr'create. destruct He as [He Hwe].
  destruct (Z.eqb_spec w (getWidth e)) as [->|]; [done|].
  destruct (Z.ltb_spec w (getWidth e)); [apply (hw_Extract (getWidth e)); auto with typing; lia|].
  destruct e; try (eapply hw_cast; [now split|lia]). apply (hw_cast_const SExt); [done|lia].
Qed.

(** *** Reads *)

Lemma hw_rollback r i h : un_well_typed r h = true ->
  match ReadExpr'rollback i h with
  | inl v => has_width (range r) v
  | inr (un, _) => un_well_typed r un = true
  end.
Proof.
  induction h; cbn [ReadExpr'rollback]; [done|]. intros H. pose proof H as H0. cbn in H0. split_bools.
  destruct (EqExpr'create i index); try done. destruct (isTrue _); [now split|now apply IHh].
Qed.

Lemma hw_Read r h i : array_ok r = true -> un_well_typed r h = true -> has_width (domain r) i ->
  has_width (range r) (ReadExpr'create (mkUpdateList r h) i).
Proof.
  intros Hr Hh Hi. unfold ReadExpr'create. cbn [ul_root ul_head].
  pose proof (hw_rollback r i h Hh) as Hb. destruct (ReadExpr'rollback i h) as [v|[un sym]]; [done|].
  assert (Hs : has_width (range r) (match i with
      | ConstantExpr CE => if getZExtValue CE <? size r then ReadExpr r un i else ReadExpr r h i
      | _ => ReadExpr r h i end)).
  { destruct i; auto with typing. case_match; auto with typing. }
  destruct (_ && _); [|exact Hs]. destruct i; try exact Hs. destruct (_ <? _) eqn:E; [|exact Hs].
  destruct (constantValues r !! _) as [c|] eqn:Ec; [|exact Hs].
  destruct (array_ok_const _ _ _ Hr Ec). now apply hw_const.
Qed.


End Typed2.

