(* ===== verification/ExprBuilder.v ===== *)
(** * Expression builders

    The builder classes of src/lib/Expr/ExprBuilder.cpp.  The abstract class
    [ExprBuilder] is a record of operations; [BuilderSound] is the contract its
    clients rely on: every method returns an expression that has the value of
    the plain node wherever that node has one.  The default builder satisfies
    it, and the constant folding and the simplifying builder preserve it over
    any base builder that does.

    A specialized builder calls back into the builder that contains it (the
    [Builder] pointer); the knot is tied with fuel, and a builder that runs out
    of fuel builds with the base builder. *)

From Stdlib Require Import Morphisms RelationClasses.
From stdpp Require Import strings.
From S2P Require Import Prelude APInt Expr ExprOrder ExprSem ExprCreate ExprCreateSound ExprRebuildSound.

(** The pure virtual methods of [ExprBuilder]; the thirteen arithmetic and the
    ten comparison methods are indexed by their kind. *)
Record ExprBuilder := mkExprBuilder {
  b_Constant : apint -> Expr;
  b_NotOptimized : Expr -> Expr;
  b_Read : UpdateList -> Expr -> Expr;
  b_Select : Expr -> Expr -> Expr -> Expr;
  b_Concat : Expr -> Expr -> Expr;
  b_Extract : Expr -> Z -> Z -> Expr;
  b_Cast : CastKind -> Expr -> Z -> Expr;
  b_Not : Expr -> Expr;
  b_Arith : ArithKind -> Expr -> Expr -> Expr;
  b_Cmp : CmpKind -> Expr -> Expr -> Expr
}.

(** The methods a [SpecializedBuilder] argument of
    [ConstantSpecializedExprBuilder] provides: the binary ones are overloaded
    on constant ([c]) and non-constant ([n]) operands. *)
Record SpecializedBuilder := mkSpecializedBuilder {
  s_Constant : apint -> Expr;
  s_NotOptimized : Expr -> Expr;
  s_Read : UpdateList -> Expr -> Expr;
  s_Select : Expr -> Expr -> Expr -> Expr;
  s_Concat : Expr -> Expr -> Expr;
  s_Extract : Expr -> Z -> Z -> Expr;
  s_Cast : CastKind -> Expr -> Z -> Expr;
  s_Not : Expr -> Expr;
  s_Arith_cn : ArithKind -> apint -> Expr -> Expr;
  s_Arith_nc : ArithKind -> Expr -> apint -> Expr;
  s_Arith_nn : ArithKind -> Expr -> Expr -> Expr;
  s_Cmp_cn : CmpKind -> apint -> Expr -> Expr;
  s_Cmp_nc : CmpKind -> Expr -> apint -> Expr;
  s_Cmp_nn : CmpKind -> Expr -> Expr -> Expr
}.

(** [DefaultExprBuilder]: every method allocates the node. *)
Definition DefaultExprBuilder : ExprBuilder := {|
  b_Constant := ConstantExpr;
  b_NotOptimized := NotOptimizedExpr;
  b_Read ul i := ReadExpr (ul_root ul) (ul_head ul) i;
  b_Select := SelectExpr;
  b_Concat := ConcatExpr;
  b_Extract := ExtractExpr;
  b_Cast := CastExpr;
  b_Not := NotExpr;
  b_Arith := BinaryExpr;
  b_Cmp := CmpExpr
|}.

(** [ChainedBuilder]: every method forwards to the base builder. *)
Definition ChainedBuilder (Base : ExprBuilder) : SpecializedBuilder := {|
  s_Constant := b_Constant Base;
  s_NotOptimized := b_NotOptimized Base;
  s_Read := b_Read Base;
  s_Select := b_Select Base;
  s_Concat := b_Concat Base;
  s_Extract := b_Extract Base;
  s_Cast := b_Cast Base;
  s_Not := b_Not Base;
  s_Arith_cn k c r := b_Arith Base k (ConstantExpr c) r;
  s_Arith_nc k l c := b_Arith Base k l (ConstantExpr c);
  s_Arith_nn := b_Arith Base;
  s_Cmp_cn k c r := b_Cmp Base k (ConstantExpr c) r;
  s_Cmp_nc k l c := b_Cmp Base k l (ConstantExpr c);
  s_Cmp_nn := b_Cmp Base
|}.

Section Builders.
Context `{A : APIntOps}.

(** ** [ConstantSpecializedExprBuilder] *)

Definition cs_binary (fold : apint -> apint -> apint) (cn : apint -> Expr -> Expr)
    (nc : Expr -> apint -> Expr) (nn : Expr -> Expr -> Expr) (LHS RHS : Expr) : Expr :=
  match LHS with
  | ConstantExpr LCE =>
    match RHS with
    | ConstantExpr RCE => ConstantExpr (fold LCE RCE)
    | _ => cn LCE RHS
    end
  | _ =>
    match RHS with
    | ConstantExpr RCE => nc LHS RCE
    | _ => nn LHS RHS
    end
  end.

Definition cs_Arith (B : SpecializedBuilder) (k : ArithKind) : Expr -> Expr -> Expr :=
  cs_binary (ConstantExpr_arith k) (s_Arith_cn B k) (s_Arith_nc B k) (s_Arith_nn B k).
Definition cs_Cmp (B : SpecializedBuilder) (k : CmpKind) : Expr -> Expr -> Expr :=
  cs_binary (ConstantExpr_cmp k) (s_Cmp_cn B k) (s_Cmp_nc B k) (s_Cmp_nn B k).

(** Roll back through the writes whose index is known to differ. *)
Fixpoint cs_rollback (B : SpecializedBuilder) (Index : Expr) (UN : UpdateNode) : UpdateNode :=
  match UN with
  | un_null => un_null
  | un_node next ui _ =>
    if Expr_isFalse (cs_Cmp B Eq Index ui) then cs_rollback B Index next else UN
  end.

Definition cs_Read (B : SpecializedBuilder) (Updates : UpdateList) (Index : Expr) : Expr :=
  s_Read B (mkUpdateList (ul_root Updates) (cs_rollback B Index (ul_head Updates))) Index.

Definition cs_Select (B : SpecializedBuilder) (Cond LHS RHS : Expr) : Expr :=
  match Cond with
  | ConstantExpr CE => if isTrue CE then LHS else RHS
  | _ => s_Select B Cond LHS RHS
  end.

Definition cs_Concat (B : SpecializedBuilder) (LHS RHS : Expr) : Expr :=
  match LHS, RHS with
  | ConstantExpr LCE, ConstantExpr RCE => ConstantExpr (ConstantExpr_Concat LCE RCE)
  | _, _ => s_Concat B LHS RHS
  end.

Definition cs_Extract (B : SpecializedBuilder) (LHS : Expr) (Offset W : Z) : Expr :=
  match LHS with
  | ConstantExpr CE => ConstantExpr (ConstantExpr_Extract CE Offset W)
  | _ => s_Extract B LHS Offset W
  end.

Definition cs_Cast (B : SpecializedBuilder) (k : CastKind) (LHS : Expr) (W : Z) : Expr :=
  match LHS with
  | ConstantExpr CE => ConstantExpr (ConstantExpr_cast k CE W)
  | _ => s_Cast B k LHS W
  end.

Definition cs_Not (B : SpecializedBuilder) (LHS : Expr) : Expr :=
  match LHS with
  | NotExpr x => x                 (* !!X ==> X *)
  | ConstantExpr CE => ConstantExpr (ConstantExpr_Not CE)
  | _ => s_Not B LHS
  end.

Definition ConstantSpecializedExprBuilder (B : SpecializedBuilder) : ExprBuilder := {|
  b_Constant := s_Constant B;
  b_NotOptimized := s_NotOptimized B;
  b_Read := cs_Read B;
  b_Select := cs_Select B;
  b_Concat := cs_Concat B;
  b_Extract := cs_Extract B;
  b_Cast := cs_Cast B;
  b_Not := cs_Not B;
  b_Arith := cs_Arith B;
  b_Cmp := cs_Cmp B
|}.

(** ** [ConstantFoldingBuilder] *)

Definition is_const_expr (e : Expr) : option apint :=
  match e with ConstantExpr c => Some c | _ => None end.

Definition cf_Add_cn (B Base : ExprBuilder) (LHS : apint) (RHS : Expr) : Expr :=
  if isZero LHS then RHS                                   (* 0 + X ==> X *)
  else
    match RHS with
    | BinaryExpr Add l r =>
      match is_const_expr l, is_const_expr r with
      | Some CE, _ =>        (* C_0 + (C_1 + X) ==> (C_0 + C1) + X *)
        b_Arith B Add (ConstantExpr (ConstantExpr_arith Add LHS CE)) r
      | None, Some CE =>     (* C_0 + (X + C_1) ==> (C_0 + C1) + X *)
        b_Arith B Add (ConstantExpr (ConstantExpr_arith Add LHS CE)) l
      | _, _ => b_Arith Base Add (ConstantExpr LHS) RHS
      end
    | BinaryExpr Sub l r =>
      match is_const_expr l, is_const_expr r with
      | Some CE, _ =>        (* C_0 + (C_1 - X) ==> (C_0 + C1) - X *)
        b_Arith B Sub (ConstantExpr (ConstantExpr_arith Add LHS CE)) r
      | None, Some CE =>     (* C_0 + (X - C_1) ==> (C_0 - C1) + X *)
        b_Arith B Add (ConstantExpr (ConstantExpr_arith Sub LHS CE)) l
      | _, _ => b_Arith Base Add (ConstantExpr LHS) RHS
      end
    | _ => b_Arith Base Add (ConstantExpr LHS) RHS
    end.

(** The rules of [Add] that look at the right operand only. *)
Definition cf_Add_rhs (B Base : ExprBuilder) (LHS RHS : Expr) : Expr :=
  match RHS with
  | BinaryExpr Add l r =>
    match is_const_expr l, is_const_expr r with
    | Some CE, _ =>        (* X + (C_0 + Y) ==> C_0 + (X + Y) *)
      b_Arith B Add (ConstantExpr CE) (b_Arith B Add LHS r)
    | None, Some CE =>     (* X + (Y + C_0) ==> C_0 + (X + Y) *)
      b_Arith B Add (ConstantExpr CE) (b_Arith B Add LHS l)
    | _, _ => b_Arith Base Add LHS RHS
    end
  | BinaryExpr Sub l r =>
    match is_const_expr l, is_const_expr r with
    | Some CE, _ =>        (* X + (C_0 - Y) ==> C_0 + (X - Y) *)
      b_Arith B Add (ConstantExpr CE) (b_Arith B Sub LHS r)
    | None, Some CE =>     (* X + (Y - C_0) ==> -C_0 + (X + Y) *)
      b_Arith B Add (ConstantExpr (ConstantExpr_Neg CE)) (b_Arith B Add LHS l)
    | _, _ => b_Arith Base Add LHS RHS
    end
  | _ => b_Arith Base Add LHS RHS
  end.

Definition cf_Add_nn (B Base : ExprBuilder) (LHS RHS : Expr) : Expr :=
  match LHS with
  | BinaryExpr Add l r =>    (* (X + Y) + Z ==> X + (Y + Z) *)
    b_Arith B Add l (b_Arith B Add r RHS)
  | BinaryExpr Sub l r =>    (* (X - Y) + Z ==> X + (Z - Y) *)
    b_Arith B Add l (b_Arith B Sub RHS r)
  | _ => cf_Add_rhs B Base LHS RHS
  end.

Definition cf_Sub_cn (B Base : ExprBuilder) (LHS : apint) (RHS : Expr) : Expr :=
  match RHS with
  | BinaryExpr Add l r =>
    match is_const_expr l, is_const_expr r with
    | Some CE, _ =>          (* C_0 - (C_1 + X) ==> (C_0 - C1) - X *)
      b_Arith B Sub (ConstantExpr (ConstantExpr_arith Sub LHS CE)) r
    | None, Some CE =>       (* C_0 - (X + C_1) ==> (C_0 - C1) - X *)
      b_Arith B Sub (ConstantExpr (ConstantExpr_arith Sub LHS CE)) l
    | _, _ => b_Arith Base Sub (ConstantExpr LHS) RHS
    end
  | BinaryExpr Sub l r =>
    match is_const_expr l, is_const_expr r with
    | Some CE, _ =>          (* C_0 - (C_1 - X) ==> (C_0 - C1) + X *)
      b_Arith B Add (ConstantExpr (ConstantExpr_arith Sub LHS CE)) r
    | None, Some CE =>       (* C_0 - (X - C_1) ==> (C_0 + C1) - X *)
      b_Arith B Sub (ConstantExpr (ConstantExpr_arith Add LHS CE)) l
    | _, _ => b_Arith Base Sub (ConstantExpr LHS) RHS
    end
  | _ => b_Arith Base Sub (ConstantExpr LHS) RHS
  end.

(** X - C_0 ==> -C_0 + X *)
Definition cf_Sub_nc (B Base : ExprBuilder) (LHS : Expr) (RHS : apint) : Expr :=
  cf_Add_cn B Base (ConstantExpr_Neg RHS) LHS.

(** The rules of [Sub] that look at the right operand only. *)
Definition cf_Sub_rhs (B Base : ExprBuilder) (LHS RHS : Expr) : Expr :=
  match RHS with
  | BinaryExpr Add l r =>
    match is_const_expr l, is_const_expr r with
    | Some CE, _ =>        (* X - (C + Y) ==> -C + (X - Y) *)
      b_Arith B Add (ConstantExpr (ConstantExpr_Neg CE)) (b_Arith B Sub LHS r)
    | None, Some CE =>     (* X - (Y + C) ==> -C + (X - Y) *)
      b_Arith B Add (ConstantExpr (ConstantExpr_Neg CE)) (b_Arith B Sub LHS l)
    | _, _ => b_Arith Base Sub LHS RHS
    end
  | BinaryExpr Sub l r =>
    match is_const_expr l, is_const_expr r with
    | Some CE, _ =>        (* X - (C - Y) ==> -C + (X + Y) *)
      b_Arith B Add (ConstantExpr (ConstantExpr_Neg CE)) (b_Arith B Add LHS r)
    | None, Some CE =>     (* X - (Y - C) ==> C + (X - Y) *)
      b_Arith B Add (ConstantExpr CE) (b_Arith B Sub LHS l)
    | _, _ => b_Arith Base Sub LHS RHS
    end
  | _ => b_Arith Base Sub LHS RHS
  end.

Definition cf_Sub_nn (B Base : ExprBuilder) (LHS RHS : Expr) : Expr :=
  match LHS with
  | BinaryExpr Add l r =>    (* (X + Y) - Z ==> X + (Y - Z) *)
    b_Arith B Add l (b_Arith B Sub r RHS)
  | BinaryExpr Sub l r =>    (* (X - Y) - Z ==> X - (Y + Z) *)
    b_Arith B Sub l (b_Arith B Add r RHS)
  | _ => cf_Sub_rhs B Base LHS RHS
  end.

Definition cf_Mul_cn (Base : ExprBuilder) (LHS : apint) (RHS : Expr) : Expr :=
  if isZero LHS then ConstantExpr LHS
  else if isOne LHS then RHS
  else b_Arith Base Mul (ConstantExpr LHS) RHS.

Definition cf_And_cn (Base : ExprBuilder) (LHS : apint) (RHS : Expr) : Expr :=
  if isZero LHS then ConstantExpr LHS
  else if isAllOnes LHS then RHS
  else b_Arith Base And (ConstantExpr LHS) RHS.

Definition cf_Or_cn (Base : ExprBuilder) (LHS : apint) (RHS : Expr) : Expr :=
  if isZero LHS then RHS
  else if isAllOnes LHS then ConstantExpr LHS
  else b_Arith Base Or (ConstantExpr LHS) RHS.

Definition cf_Xor_cn (Base : ExprBuilder) (LHS : apint) (RHS : Expr) : Expr :=
  if isZero LHS then RHS else b_Arith Base Xor (ConstantExpr LHS) RHS.

(** [Eq(ConstantExpr, NonConstantExpr)] of both specialized builders. *)
Definition cf_Eq_cn (Base : ExprBuilder) (LHS : apint) (RHS : Expr) : Expr :=
  if ap_width LHS =? Bool then
    if isTrue LHS then RHS          (* true == X ==> X *)
    else b_Not Base RHS             (* false == ... (not) *)
  else b_Cmp Base Eq (ConstantExpr LHS) RHS.

Definition ConstantFoldingBuilder (B Base : ExprBuilder) : SpecializedBuilder := {|
  s_Constant := b_Constant Base;
  s_NotOptimized := b_NotOptimized Base;
  s_Read := b_Read Base;
  s_Select := b_Select Base;
  s_Concat := b_Concat Base;
  s_Extract := b_Extract Base;
  s_Cast := b_Cast Base;
  s_Not := b_Not Base;
  s_Arith_cn k :=
    match k with
    | Add => cf_Add_cn B Base
    | Sub => cf_Sub_cn B Base
    | Mul => cf_Mul_cn Base
    | And => cf_And_cn Base
    | Or => cf_Or_cn Base
    | Xor => cf_Xor_cn Base
    | _ => s_Arith_cn (ChainedBuilder Base) k
    end;
  s_Arith_nc k l c :=
    match k with
    | Add => cf_Add_cn B Base c l
    | Sub => cf_Sub_nc B Base l c
    | Mul => cf_Mul_cn Base c l
    | And => cf_And_cn Base c l
    | Or => cf_Or_cn Base c l
    | Xor => cf_Xor_cn Base c l
    | _ => s_Arith_nc (ChainedBuilder Base) k l c
    end;
  s_Arith_nn k :=
    match k with
    | Add => cf_Add_nn B Base
    | Sub => cf_Sub_nn B Base
    | _ => b_Arith Base k
    end;
  s_Cmp_cn k :=
    match k with Eq => cf_Eq_cn Base | _ => s_Cmp_cn (ChainedBuilder Base) k end;
  s_Cmp_nc k l c :=
    match k with Eq => cf_Eq_cn Base c l | _ => s_Cmp_nc (ChainedBuilder Base) k l c end;
  s_Cmp_nn := b_Cmp Base
|}.

(** [createConstantFoldingExprBuilder] *)
Fixpoint ConstantFoldingExprBuilder (fuel : nat) (Base : ExprBuilder) : ExprBuilder :=
  ConstantSpecializedExprBuilder
    (ConstantFoldingBuilder
       (match fuel with O => Base | S n => ConstantFoldingExprBuilder n Base end) Base).

(** ** [SimplifyingBuilder] *)

Definition sb_Eq_nn (Base : ExprBuilder) (LHS RHS : Expr) : Expr :=
  if Expr_eqb LHS RHS then ConstantExpr (ConstantExpr'alloc 1 Bool)   (* X == X ==> true *)
  else b_Cmp Base Eq LHS RHS.

Definition sb_Not (B Base : ExprBuilder) (LHS : Expr) : Expr :=
  match LHS with
  | BinaryExpr Or l r => b_Arith B And (b_Not B l) (b_Not B r)  (* !(a or b) ==> !a and !b *)
  | _ => b_Not Base LHS
  end.

(** The comparisons [SimplifyingBuilder] rewrites, on any operands. *)
Definition sb_Cmp (B Base : ExprBuilder) (k : CmpKind) (LHS RHS : Expr) : Expr :=
  match k with
  | Ne => b_Not B (b_Cmp B Eq LHS RHS)      (* X != Y ==> !(X == Y) *)
  | Ugt => b_Cmp B Ult RHS LHS              (* X u> Y ==> Y u< X *)
  | Uge => b_Cmp B Ule RHS LHS              (* X u>= Y ==> Y u<= X *)
  | Sgt => b_Cmp B Slt RHS LHS              (* X s> Y ==> Y s< X *)
  | Sge => b_Cmp B Sle RHS LHS              (* X s>= Y ==> Y s<= X *)
  | _ => b_Cmp Base k LHS RHS
  end.

Definition SimplifyingBuilder (B Base : ExprBuilder) : SpecializedBuilder := {|
  s_Constant := b_Constant Base;
  s_NotOptimized := b_NotOptimized Base;
  s_Read := b_Read Base;
  s_Select := b_Select Base;
  s_Concat := b_Concat Base;
  s_Extract := b_Extract Base;
  s_Cast := b_Cast Base;
  s_Not := sb_Not B Base;
  s_Arith_cn := s_Arith_cn (ChainedBuilder Base);
  s_Arith_nc := s_Arith_nc (ChainedBuilder Base);
  s_Arith_nn := b_Arith Base;
  s_Cmp_cn k c r :=
    match k with Eq => cf_Eq_cn Base c r | _ => sb_Cmp B Base k (ConstantExpr c) r end;
  s_Cmp_nc k l c :=
    match k with Eq => cf_Eq_cn Base c l | _ => sb_Cmp B Base k l (ConstantExpr c) end;
  s_Cmp_nn k l r :=
    match k with Eq => sb_Eq_nn Base l r | _ => sb_Cmp B Base k l r end
|}.

(** [createSimplifyingExprBuilder] *)
Fixpoint SimplifyingExprBuilder (fuel : nat) (Base : ExprBuilder) : ExprBuilder :=
  ConstantSpecializedExprBuilder
    (SimplifyingBuilder
       (match fuel with O => Base | S n => SimplifyingExprBuilder n Base end) Base).

(** ** The contract of a builder *)

(** Every method returns an expression that has the value of the plain node
    wherever that node has one. *)
Class BuilderSound (B : ExprBuilder) : Prop := {
  snd_Constant c : ConstantExpr c ⊑ b_Constant B c;
  snd_NotOptimized x : NotOptimizedExpr x ⊑ b_NotOptimized B x;
  snd_Read r h i : ReadExpr r h i ⊑ b_Read B (mkUpdateList r h) i;
  snd_Select c t f : SelectExpr c t f ⊑ b_Select B c t f;
  snd_Concat l r : ConcatExpr l r ⊑ b_Concat B l r;
  snd_Extract e o w : ExtractExpr e o w ⊑ b_Extract B e o w;
  snd_Cast k e w : CastExpr k e w ⊑ b_Cast B k e w;
  snd_Not e : NotExpr e ⊑ b_Not B e;
  snd_Arith k l r : BinaryExpr k l r ⊑ b_Arith B k l r;
  snd_Cmp k l r : CmpExpr k l r ⊑ b_Cmp B k l r
}.

(** The same for the overloads a specialized builder provides. *)
Class SpecializedSound (B : SpecializedBuilder) : Prop := {
  ssnd_Constant c : ConstantExpr c ⊑ s_Constant B c;
  ssnd_NotOptimized x : NotOptimizedExpr x ⊑ s_NotOptimized B x;
  ssnd_Read r h i : ReadExpr r h i ⊑ s_Read B (mkUpdateList r h) i;
  ssnd_Select c t f : SelectExpr c t f ⊑ s_Select B c t f;
  ssnd_Concat l r : ConcatExpr l r ⊑ s_Concat B l r;
  ssnd_Extract e o w : ExtractExpr e o w ⊑ s_Extract B e o w;
  ssnd_Cast k e w : CastExpr k e w ⊑ s_Cast B k e w;
  ssnd_Not e : NotExpr e ⊑ s_Not B e;
  ssnd_Arith_cn k c r : BinaryExpr k (ConstantExpr c) r ⊑ s_Arith_cn B k c r;
  ssnd_Arith_nc k l c : BinaryExpr k l (ConstantExpr c) ⊑ s_Arith_nc B k l c;
  ssnd_Arith_nn k l r : BinaryExpr k l r ⊑ s_Arith_nn B k l r;
  ssnd_Cmp_cn k c r : CmpExpr k (ConstantExpr c) r ⊑ s_Cmp_cn B k c r;
  ssnd_Cmp_nc k l c : CmpExpr k l (ConstantExpr c) ⊑ s_Cmp_nc B k l c;
  ssnd_Cmp_nn k l r : CmpExpr k l r ⊑ s_Cmp_nn B k l r
}.

#[export] Instance DefaultExprBuilder_sound : BuilderSound DefaultExprBuilder.
Proof. split; reflexivity. Qed.

#[export] Instance ChainedBuilder_sound Base :
  BuilderSound Base -> SpecializedSound (ChainedBuilder Base).
Proof. intros []; split; auto. Qed.

Context {AS : APIntSpec A}.

(** *** Laws of the nodes the builders rewrite with *)

Lemma not_not e : NotExpr (NotExpr e) ⊑ e.
Proof.
  intros rho v Hv. cbn in Hv. inv_eval. rewrite E0. f_equal. unfold eval_not. destruct v1; cbn.
  f_equal. lia.
Qed.

Lemma const_not c : NotExpr (ConstantExpr c) ⊑ ConstantExpr (ConstantExpr_Not c).
Proof. exact (NotExpr'create_sound (ConstantExpr c)). Qed.

Lemma const_cast k c w : CastExpr k (ConstantExpr c) w ⊑ ConstantExpr (ConstantExpr_cast k c w).
Proof.
  intros rho v Hv. apply eval_cast_expr_inv in Hv as (x & Hx & Vx & Hw & ->).
  apply eval_const_inv in Hx as [-> _]. apply ap_valid_spec in Vx as R.
  rewrite ConstantExpr_cast_spec by (done || lia). apply eval_const, cast_valid. lia.
Qed.

Lemma select_const c t f :
  SelectExpr (ConstantExpr c) t f ⊑ (if isTrue c then t else f).
Proof.
  intros rho v Hv. apply eval_select_expr_inv in Hv as (a & tv & fv & Hc & Ha & Ht & Hf & _ & ->).
  apply eval_const_inv in Hc as [<- Vc]. rewrite isTrue_spec by done. cbn.
  now destruct Ha as [-> | ->].
Qed.

(** Complement distributes over the operations on bits. *)
Lemma lnot_val w x : 0 <= w -> 0 <= x < 2 ^ w -> 2 ^ w - 1 - x = Z.ldiff (Z.ones w) x.
Proof.
  intros Hw Hx. rewrite Z.ones_equiv, <- Z.sub_nocarry_ldiff; [lia|].
  apply Z.bits_inj'. intros i Hi. rewrite Z.ldiff_spec, Z.bits_0.
  destruct (Z.lt_ge_cases i w).
  - replace (Z.pred (2 ^ w)) with (Z.ones w) by (rewrite Z.ones_equiv; lia).
    rewrite Z.ones_spec_low by lia. now destruct (Z.testbit x i).
  - now rewrite (BV.testbit_high w) by lia.
Qed.

Lemma not_or a b :
  NotExpr (BinaryExpr Or a b) ⊑ BinaryExpr And (NotExpr a) (NotExpr b).
Proof.
  intros rho v Hv. cbn [eval] in Hv. apply bind_Some in Hv as (o & Ho & [= <-]).
  apply eval_binary_inv in Ho as (x & y & Hx & Hy & Vx & Vy & Hw & Hwo & Hs).
  destruct o as [w o], x as [wx x], y as [wy y]. cbn in *. subst wx wy. simplify_eq.
  apply ap_valid_spec in Vx as [? Rx], Vy as [_ Ry]. cbn in *.
  rewrite Hx, Hy. cbn. unfold eval_arith, eval_not. cbn. rewrite Z.eqb_refl. cbn. do 2 f_equal.
  assert (0 <= Z.lor x y < 2 ^ w) by (apply BV.lor_range; lia).
  rewrite !lnot_val by lia. apply Z.bits_inj'. intros i Hi.
  rewrite Z.land_spec, !Z.ldiff_spec, Z.lor_spec.
  now destruct (Z.testbit (Z.ones w) i), (Z.testbit x i), (Z.testbit y i).
Qed.

Lemma eq_false_l c r :
  ap_width c = 1 -> isTrue c = false -> CmpExpr Eq (ConstantExpr c) r ⊑ NotExpr r.
Proof.
  intros Hwc Hc. apply refines_cmp. intros rho x y Hx Hy Vx Vy Hw _ _.
  apply eval_const_inv in Hx as [-> _]. rewrite isTrue_spec, Hwc in Hc by done. cbn in Hc.
  rewrite negb_false_iff, Z.eqb_eq in Hc. rewrite Hwc in Hw. cbn. rewrite Hy. cbn. rewrite Hc.
  destruct y as [w v]; cbn in *; subst w. unfold eval_not; cbn.
  destruct (width1_cases (APInt 1 v) Vy eq_refl) as [E|E]; cbn in E; subst v; done.
Qed.

Lemma eval_not_expr rho e v : eval rho e = Some v -> eval rho (NotExpr e) = Some (eval_not v).
Proof. intros H. cbn. now rewrite H. Qed.

Lemma ne_not_eq l r : CmpExpr Ne l r ⊑ NotExpr (CmpExpr Eq l r).
Proof.
  apply refines_cmp. intros rho x y Hx Hy _ _ Hw _ _.
  erewrite eval_not_expr by eauto using eval_compare. unfold eval_not. cbn. now destruct (_ =? _).
Qed.

Lemma eq_self l r :
  Expr_eqb l r = true -> CmpExpr Eq l r ⊑ ConstantExpr (ConstantExpr'alloc 1 Bool).
Proof.
  intros He. pose proof (EqExpr_create_sound l r) as H. unfold EqExpr_create in H.
  now rewrite He in H.
Qed.

Lemma sub_neg l c :
  BinaryExpr Sub l (ConstantExpr c) ⊑ BinaryExpr Add (ConstantExpr (ConstantExpr_Neg c)) l.
Proof.
  apply refines_binary. intros rho x y v Hx Hy Vx Vy Hw _ _ Hs.
  apply eval_const_inv in Hy as [-> _]. unfold ConstantExpr_Neg. rewrite ap_neg_spec by done.
  destruct x as [w x], c as [wc c]; cbn [ap_width ap_val arith_sem] in *; subst wc. simplify_eq.
  apply ap_valid_spec in Vx as R. cbn in R.
  eapply eval_binary_at; [apply eval_const, BV.wrap_in_range; lia|done|]. cbn. f_equal. bv_ring.
Qed.

(** *** The specialization to constants *)

Lemma cs_Arith_sound B k l r : SpecializedSound B -> BinaryExpr k l r ⊑ cs_Arith B k l r.
Proof.
  intros []. unfold cs_Arith, cs_binary. destruct l; try (destruct r; auto).
  auto using const_arith.
Qed.

Lemma cs_Cmp_sound B k l r : SpecializedSound B -> CmpExpr k l r ⊑ cs_Cmp B k l r.
Proof.
  intros []. unfold cs_Cmp, cs_binary. destruct l; try (destruct r; auto). auto using const_cmp.
Qed.

Lemma cs_rollback_sound B rho r index iv un us :
  SpecializedSound B ->
  eval_updates rho r un = Some us -> eval rho index = Some iv -> ap_width iv = domain r ->
  exists us', eval_updates rho r (cs_rollback B index un) = Some us' /\
              read_updates us (ap_val iv) = read_updates us' (ap_val iv).
Proof.
  intros HB. revert us. induction un as [|next IH ui uv]; intros us Hus Hiv Hw; cbn [cs_rollback].
  { eauto. }
  destruct (Expr_isFalse _) eqn:EF; [|eauto].
  cbn in Hus. apply bind_Some in Hus as (us' & Hn & H). apply bind_Some in H as (wi & Hi & H).
  apply bind_Some in H as (wv & Hv & H). inv_eval.
  assert (He : eval rho (cs_Cmp B Eq index ui) = Some (APInt 1 (b2z (ap_val iv =? ap_val wi)))).
  { apply cs_Cmp_sound; [done|]. erewrite eval_compare; eauto. congruence. }
  destruct (cs_Cmp B Eq index ui); cbn in EF; try discriminate.
  apply eval_const_inv in He as [<- _]. rewrite isFalse_spec in EF by apply b2z_valid. cbn in EF |- *.
  destruct (ap_val iv =? ap_val wi); [discriminate|]. now apply IH.
Qed.

Lemma cs_Read_sound B r h i : SpecializedSound B -> ReadExpr r h i ⊑ cs_Read B (mkUpdateList r h) i.
Proof.
  intros HB. unfold cs_Read. cbn [ul_root ul_head].
  transitivity (ReadExpr r (cs_rollback B i h) i); [|now apply ssnd_Read].
  intros rho v Hv.
  apply eval_read_expr_inv in Hv as (us & iv & Hu & Hi & Vi & Hr & Hwi & Hwv & Hrd).
  destruct (cs_rollback_sound B rho r i iv h us HB Hu Hi Hwi) as (us' & Hu' & Hrr).
  destruct v as [w v]; cbn in *; subst w.
  eapply eval_read_expr; eauto. unfold read_value in *. now rewrite <- Hrr.
Qed.

#[export] Instance ConstantSpecializedExprBuilder_sound B :
  SpecializedSound B -> BuilderSound (ConstantSpecializedExprBuilder B).
Proof.
  intros HB. pose proof HB as [].
  split; cbn; intros; auto using cs_Arith_sound, cs_Cmp_sound, cs_Read_sound.
  - unfold cs_Select. destruct c; auto using select_const.
  - unfold cs_Concat. destruct l; auto. destruct r; auto using const_concat.
  - unfold cs_Extract. destruct e; auto using const_extract.
  - unfold cs_Cast. destruct e; auto using const_cast.
  - unfold cs_Not. destruct e; auto using not_not, const_not.
Qed.

(** *** Constant folding *)

Section Folding.
Context {B Base : ExprBuilder} {HB : BuilderSound B} {HBase : BuilderSound Base}.

Lemma is_const_expr_Some e c : is_const_expr e = Some c -> e = ConstantExpr c.
Proof. destruct e; cbn; congruence. Qed.

(** Case analysis on the operand tests of the folding rules. *)
Ltac operand_cases :=
  repeat match goal with
  | |- context [match is_const_expr ?e with _ => _ end] =>
    let E := fresh "E" in
    destruct (is_const_expr e) eqn:E; [apply is_const_expr_Some in E; subst e|]
  end; try apply snd_Arith.

(** Replace the calls of the builders by plain nodes, on the right of a
    refinement, and prove the linear law that is left. *)
Ltac unbuild := repeat rewrite <- snd_Arith; rewrite <- ?const_arith; lin_law.

Lemma cf_Add_cn_sound c r : BinaryExpr Add (ConstantExpr c) r ⊑ cf_Add_cn B Base c r.
Proof.
  unfold cf_Add_cn. destruct (isZero c) eqn:Hz; [now apply add_zero_l|].
  destruct r as [| | | | | | | |k l r|]; try apply snd_Arith.
  destruct k; try apply snd_Arith; operand_cases; unbuild.
Qed.

Lemma cf_Sub_cn_sound c r : BinaryExpr Sub (ConstantExpr c) r ⊑ cf_Sub_cn B Base c r.
Proof.
  unfold cf_Sub_cn. destruct r as [| | | | | | | |k l r|]; try apply snd_Arith.
  destruct k; try apply snd_Arith; operand_cases; unbuild.
Qed.

Lemma cf_Sub_nc_sound l c : BinaryExpr Sub l (ConstantExpr c) ⊑ cf_Sub_nc B Base l c.
Proof. unfold cf_Sub_nc. rewrite sub_neg. apply cf_Add_cn_sound. Qed.

Lemma neg_add c e : BinaryExpr Sub e (ConstantExpr c) ⊑ b_Arith B Add (ConstantExpr (ConstantExpr_Neg c)) e.
Proof. rewrite <- snd_Arith. apply sub_neg. Qed.

(** The rules that look at the right operand only. *)
Ltac rhs_cases r :=
  destruct r as [| | | | | | | |[] ? ?|]; try apply snd_Arith; operand_cases; rewrite <- ?neg_add; unbuild.

Lemma cf_Add_rhs_sound l r : BinaryExpr Add l r ⊑ cf_Add_rhs B Base l r.
Proof. unfold cf_Add_rhs, cf_Sub_rhs. rhs_cases r. Qed.

Lemma cf_Add_nn_sound l r : BinaryExpr Add l r ⊑ cf_Add_nn B Base l r.
Proof.
  unfold cf_Add_nn. destruct l as [| | | | | | | |[] a b|]; try apply cf_Add_rhs_sound; unbuild.
Qed.

Lemma cf_Sub_rhs_sound l r : BinaryExpr Sub l r ⊑ cf_Sub_rhs B Base l r.
Proof. unfold cf_Add_rhs, cf_Sub_rhs. rhs_cases r. Qed.

Lemma cf_Sub_nn_sound l r : BinaryExpr Sub l r ⊑ cf_Sub_nn B Base l r.
Proof.
  unfold cf_Sub_nn. destruct l as [| | | | | | | |[] a b|]; try apply cf_Sub_rhs_sound; unbuild.
Qed.

(** A constant that absorbs, or is neutral for, an operation. *)
Lemma absorbing k c r :
  (ap_valid c = true -> forall y, 0 <= y < 2 ^ ap_width c ->
     arith_sem k (ap_width c) (ap_val c) y = Some (ap_val c)) ->
  BinaryExpr k (ConstantExpr c) r ⊑ ConstantExpr c.
Proof.
  intros H. apply refines_binary. intros rho x y v Hx Hy Vx Vy Hw _ _ Hs. rewrite Hx.
  apply eval_const_inv in Hx as [-> Vc]. apply ap_valid_spec in Vy as [_ Ry]. rewrite Hw in Ry.
  rewrite (H Vc _ Ry) in Hs. injection Hs as <-. now destruct c.
Qed.

Lemma neutral k c r :
  (ap_valid c = true -> forall y, 0 <= y < 2 ^ ap_width c ->
     arith_sem k (ap_width c) (ap_val c) y = Some y) ->
  BinaryExpr k (ConstantExpr c) r ⊑ r.
Proof.
  intros H. apply refines_binary. intros rho x y v Hx Hy Vx Vy Hw _ _ Hs. rewrite Hy.
  apply eval_const_inv in Hx as [-> Vc]. apply ap_valid_spec in Vy as [_ Ry]. rewrite Hw in Ry.
  rewrite (H Vc _ Ry) in Hs. injection Hs as <-. destruct y; cbn in *. congruence.
Qed.

(** The two rules of a constant operand: test, then absorb or drop it. *)
Ltac const_rules :=
  repeat match goal with
  | |- context [if ?t then _ else _] => destruct t eqn:?
  end; try apply snd_Arith; (apply absorbing || apply neutral);
  intros Vc y Hy; apply ap_valid_spec in Vc as Rc;
  repeat match goal with
  | H : isZero _ = true |- _ => rewrite isZero_spec, Z.eqb_eq in H by done; rewrite H
  | H : isOne _ = true |- _ => rewrite isOne_spec, Z.eqb_eq in H by done; rewrite H
  | H : isAllOnes _ = true |- _ => rewrite isAllOnes_spec, Z.eqb_eq in H by done; rewrite H
  end; cbn [arith_sem]; f_equal.

Lemma cf_Mul_cn_sound c r : BinaryExpr Mul (ConstantExpr c) r ⊑ cf_Mul_cn Base c r.
Proof. unfold cf_Mul_cn. const_rules; rewrite ?Z.mul_1_l; now rewrite ?BV.wrap_small. Qed.

Lemma cf_And_cn_sound c r : BinaryExpr And (ConstantExpr c) r ⊑ cf_And_cn Base c r.
Proof. unfold cf_And_cn. const_rules. rewrite Z.land_comm. apply and_ones; lia. Qed.

Lemma cf_Or_cn_sound c r : BinaryExpr Or (ConstantExpr c) r ⊑ cf_Or_cn Base c r.
Proof. unfold cf_Or_cn. const_rules. rewrite Z.lor_comm. apply or_ones; lia. Qed.

Lemma cf_Xor_cn_sound c r : BinaryExpr Xor (ConstantExpr c) r ⊑ cf_Xor_cn Base c r.
Proof. unfold cf_Xor_cn. const_rules. Qed.

Lemma cf_Eq_cn_sound c r : CmpExpr Eq (ConstantExpr c) r ⊑ cf_Eq_cn Base c r.
Proof.
  unfold cf_Eq_cn. destruct (Z.eqb_spec (ap_width c) Bool); [|apply snd_Cmp].
  destruct (isTrue c) eqn:?; [now apply eq_true_l|].
  rewrite <- snd_Not. now apply eq_false_l.
Qed.

#[export] Instance ConstantFoldingBuilder_sound : SpecializedSound (ConstantFoldingBuilder B Base).
Proof.
  pose proof HBase as []. split; cbn; intros; auto.
  - destruct k; auto using cf_Add_cn_sound, cf_Sub_cn_sound, cf_Mul_cn_sound, cf_And_cn_sound,
      cf_Or_cn_sound, cf_Xor_cn_sound.
  - destruct k; auto using cf_Sub_nc_sound; rewrite arith_comm by done;
      auto using cf_Add_cn_sound, cf_Mul_cn_sound, cf_And_cn_sound, cf_Or_cn_sound, cf_Xor_cn_sound.
  - destruct k; auto using cf_Add_nn_sound, cf_Sub_nn_sound.
  - destruct k; auto using cf_Eq_cn_sound.
  - destruct k; auto. rewrite eq_comm. apply cf_Eq_cn_sound.
Qed.

(** *** Simplification *)

Lemma sb_Cmp_sound k l r : CmpExpr k l r ⊑ sb_Cmp B Base k l r.
Proof.
  destruct k; cbn [sb_Cmp]; try apply snd_Cmp.
  - rewrite <- snd_Not, <- snd_Cmp. apply ne_not_eq.
  - rewrite <- snd_Cmp. now apply cmp_swap.
  - rewrite <- snd_Cmp. now apply cmp_swap.
  - rewrite <- snd_Cmp. now apply cmp_swap.
  - rewrite <- snd_Cmp. now apply cmp_swap.
Qed.

Lemma sb_Eq_nn_sound l r : CmpExpr Eq l r ⊑ sb_Eq_nn Base l r.
Proof. unfold sb_Eq_nn. destruct (Expr_eqb l r) eqn:?; [now apply eq_self|apply snd_Cmp]. Qed.

Lemma sb_Not_sound e : NotExpr e ⊑ sb_Not B Base e.
Proof.
  unfold sb_Not. destruct e as [| | | | | | | |[] a b|]; try apply snd_Not.
  rewrite <- snd_Arith, <- !snd_Not. apply not_or.
Qed.

#[export] Instance SimplifyingBuilder_sound : SpecializedSound (SimplifyingBuilder B Base).
Proof.
  pose proof HBase as []. split; cbn; intros; auto using sb_Not_sound;
    destruct k; auto using cf_Eq_cn_sound, sb_Eq_nn_sound; try apply sb_Cmp_sound.
  rewrite eq_comm. apply cf_Eq_cn_sound.
Qed.

End Folding.

(** The builder that is handed out, whatever the depth of its calls into
    itself. *)
Lemma ConstantFolding_fuel_sound fuel Base :
  BuilderSound Base -> BuilderSound (ConstantFoldingExprBuilder fuel Base).
Proof. intros. induction fuel; cbn [ConstantFoldingExprBuilder]; typeclasses eauto. Qed.

Lemma Simplifying_fuel_sound fuel Base :
  BuilderSound Base -> BuilderSound (SimplifyingExprBuilder fuel Base).
Proof. intros. induction fuel; cbn [SimplifyingExprBuilder]; typeclasses eauto. Qed.

(** ** The fuel of the builders suffices *)

(** A builder that returns no more nodes than the plain node has. *)
Class SizeBounded (B : ExprBuilder) : Prop := {
  sz_Not e : (esize (b_Not B e) <= S (esize e))%nat;
  sz_Arith k l r : (esize (b_Arith B k l r) <= S (esize l + esize r))%nat;
  sz_Cmp k l r : (esize (b_Cmp B k l r) <= S (esize l + esize r))%nat
}.

#[export] Instance DefaultExprBuilder_size : SizeBounded DefaultExprBuilder.
Proof. split; intros; cbn; lia. Qed.

(** Bound of the nested calls of [Add] and [Sub]: the nodes of both operands,
    then those of the left one. *)
Definition cf_fuel (l r : Expr) : nat :=
  let T := (esize l + esize r)%nat in (T * S T + esize l)%nat.

Lemma cf_fuel_nodes l r l' r' :
  (esize l + esize r < esize l' + esize r')%nat -> (cf_fuel l r < cf_fuel l' r')%nat.
Proof. unfold cf_fuel. nia. Qed.
Lemma cf_fuel_left l r l' r' :
  (esize l + esize r <= esize l' + esize r')%nat -> (esize l < esize l')%nat ->
  (cf_fuel l r < cf_fuel l' r')%nat.
Proof. unfold cf_fuel. nia. Qed.

Lemma esize_nonconst e : is_const_expr e = None -> (1 < esize e)%nat.
Proof.
  destruct e; cbn; try discriminate; intros _;
    match goal with |- context [esize ?x] => pose proof (esize_pos x) end; lia.
Qed.

(** The size of nested builder calls. *)
Ltac size_fact B k l r :=
  lazymatch goal with
  | _ : (esize (b_Arith B k l r) <= _)%nat |- _ => fail
  | _ => pose proof (sz_Arith (B:=B) k l r)
  end.
Ltac size_bound :=
  repeat match goal with
  | |- context [esize (b_Arith ?B ?k ?l ?r)] => size_fact B k l r
  | _ : context [esize (b_Arith ?B ?k ?l ?r)] |- _ => size_fact B k l r
  end; cbn [esize] in *; lia.

(** The rules of [Add] and [Sub], one goal each. *)
Ltac rule_cases :=
  unfold cf_Add_nn, cf_Sub_nn, cf_Sub_nc, cf_Add_rhs, cf_Sub_rhs, cf_Add_cn, cf_Sub_cn;
  repeat match goal with
  | |- context [if ?t then _ else _] => destruct t
  | |- context [match ?e with ConstantExpr _ => _ | _ => _ end] =>
    is_var e; destruct e as [| | | | | | | |[] ? ?|]
  | |- context [match is_const_expr ?e with _ => _ end] =>
    let E := fresh "E" in
    destruct (is_const_expr e) eqn:E; [apply is_const_expr_Some in E; subst e|]
  end.

Section FoldingSize.
Context {B Base : ExprBuilder} {SB : SizeBounded B} {SBase : SizeBounded Base}.

Lemma cf_Add_cn_size c r : (esize (cf_Add_cn B Base c r) <= S (1 + esize r))%nat.
Proof. rule_cases; size_bound. Qed.
Lemma cf_Sub_cn_size c r : (esize (cf_Sub_cn B Base c r) <= S (1 + esize r))%nat.
Proof. rule_cases; size_bound. Qed.
Lemma cf_Add_nn_size l r : (esize (cf_Add_nn B Base l r) <= S (esize l + esize r))%nat.
Proof. rule_cases; size_bound. Qed.
Lemma cf_Sub_nn_size l r : (esize (cf_Sub_nn B Base l r) <= S (esize l + esize r))%nat.
Proof. rule_cases; size_bound. Qed.

Lemma cf_Mul_size c r :
  (esize (cf_Mul_cn Base c r) <= S (1 + esize r))%nat /\
  (esize (cf_And_cn Base c r) <= S (1 + esize r))%nat /\
  (esize (cf_Or_cn Base c r) <= S (1 + esize r))%nat /\
  (esize (cf_Xor_cn Base c r) <= S (1 + esize r))%nat.
Proof.
  unfold cf_Mul_cn, cf_And_cn, cf_Or_cn, cf_Xor_cn.
  split_and!; repeat case_match; size_bound.
Qed.

Lemma cf_Eq_cn_size c r : (esize (cf_Eq_cn Base c r) <= S (1 + esize r))%nat.
Proof.
  unfold cf_Eq_cn. pose proof (sz_Not (B:=Base) r). pose proof (sz_Cmp (B:=Base) Eq (ConstantExpr c) r).
  repeat case_match; cbn [esize] in *; lia.
Qed.

Lemma cs_binary_size fold cn nc nn l r :
  (forall c r, (esize (cn c r) <= S (1 + esize r))%nat) ->
  (forall l c, (esize (nc l c) <= S (esize l + 1))%nat) ->
  (forall l r, (esize (nn l r) <= S (esize l + esize r))%nat) ->
  (esize (cs_binary fold cn nc nn l r) <= S (esize l + esize r))%nat.
Proof.
  intros Hc Hn Hnn. unfold cs_binary. destruct l; try (destruct r; (apply Hn || apply Hnn)).
  destruct r; try apply Hc. cbn. lia.
Qed.

Lemma cs_Not_size S :
  (forall e, (esize (s_Not S e) <= 1 + esize e)%nat) ->
  forall e, (esize (cs_Not S e) <= 1 + esize e)%nat.
Proof. intros H e. unfold cs_Not. destruct e; try apply H; cbn; lia. Qed.

#[export] Instance ConstantFolding_step_size :
  SizeBounded (ConstantSpecializedExprBuilder (ConstantFoldingBuilder B Base)).
Proof.
  split; cbn; intros.
  - apply cs_Not_size. apply sz_Not.
  - apply cs_binary_size; cbn; intros; pose proof cf_Mul_size as Hm; destruct k;
      try apply cf_Add_cn_size; try apply cf_Sub_cn_size; try apply cf_Add_nn_size;
      try apply cf_Sub_nn_size; try apply Hm; try apply (sz_Arith (B:=Base));
      rewrite Nat.add_comm; try apply cf_Add_cn_size; try apply Hm.
  - apply cs_binary_size; cbn; intros; destruct k; try apply cf_Eq_cn_size;
      try apply (sz_Cmp (B:=Base)); rewrite Nat.add_comm; apply cf_Eq_cn_size.
Qed.

(** The rules call the builder on smaller operands only. *)
Section Ext.
Context {B' : ExprBuilder} {l r : Expr}.
Context (H : forall j a b, (cf_fuel a b < cf_fuel l r)%nat -> b_Arith B j a b = b_Arith B' j a b).

Ltac ext_rule :=
  first
  [ reflexivity
  | apply H, cf_fuel_nodes; size_bound
  | etransitivity; [apply H, cf_fuel_left; size_bound|f_equal; apply H, cf_fuel_nodes; size_bound] ].

Lemma cf_Add_cn_ext c e :
  (1 + esize e <= esize l + esize r)%nat -> cf_Add_cn B Base c e = cf_Add_cn B' Base c e.
Proof. intros He. rule_cases; ext_rule. Qed.

Lemma cf_Sub_cn_ext c e :
  (1 + esize e <= esize l + esize r)%nat -> cf_Sub_cn B Base c e = cf_Sub_cn B' Base c e.
Proof. intros He. rule_cases; ext_rule. Qed.

Lemma cf_Add_rhs_ext : (1 < esize l)%nat -> cf_Add_rhs B Base l r = cf_Add_rhs B' Base l r.
Proof.
  intros Hl. unfold cf_Add_rhs. destruct r as [| | | | | | | |[] a b|]; try done;
    rule_cases; ext_rule.
Qed.
Lemma cf_Sub_rhs_ext : (1 < esize l)%nat -> cf_Sub_rhs B Base l r = cf_Sub_rhs B' Base l r.
Proof.
  intros Hl. unfold cf_Sub_rhs. destruct r as [| | | | | | | |[] a b|]; try done;
    rule_cases; ext_rule.
Qed.

Lemma cf_nn_ext : (1 < esize l)%nat ->
  cf_Add_nn B Base l r = cf_Add_nn B' Base l r /\ cf_Sub_nn B Base l r = cf_Sub_nn B' Base l r.
Proof.
  intros Hl. pose proof (cf_Add_rhs_ext Hl). pose proof (cf_Sub_rhs_ext Hl). pose proof (esize_pos r).
  unfold cf_Add_nn, cf_Sub_nn. destruct l as [| | | | | | | |[] a b|]; try done; split; ext_rule.
Qed.

Lemma cf_ext k :
  cs_Arith (ConstantFoldingBuilder B Base) k l r = cs_Arith (ConstantFoldingBuilder B' Base) k l r.
Proof.
  pose proof (esize_pos l) as Pl. pose proof (esize_pos r) as Pr. unfold cs_Arith, cs_binary. cbn.
  destruct (is_const_expr l) eqn:El; [apply is_const_expr_Some in El|].
  - rewrite El. destruct k; try done; [rewrite (cf_Add_cn_ext a r)|rewrite (cf_Sub_cn_ext a r)]; lia || done.
  - pose proof (cf_nn_ext (esize_nonconst _ El)) as [Ha Hs].
    assert (Hc : forall c, cf_Add_cn B Base c l = cf_Add_cn B' Base c l)
      by (intros c; apply cf_Add_cn_ext; lia).
    destruct k; try done; rewrite ?Ha, ?Hs; destruct l; try discriminate El; destruct r;
      try done; apply Hc.
Qed.

End Ext.

End FoldingSize.

#[export] Instance ConstantFolding_size fuel Base :
  SizeBounded Base -> SizeBounded (ConstantFoldingExprBuilder fuel Base).
Proof. intros. induction fuel; cbn [ConstantFoldingExprBuilder]; typeclasses eauto. Qed.

Lemma ConstantFolding_fuel_enough Base n m k l r :
  SizeBounded Base -> (cf_fuel l r <= n)%nat -> (cf_fuel l r <= m)%nat ->
  b_Arith (ConstantFoldingExprBuilder n Base) k l r =
  b_Arith (ConstantFoldingExprBuilder m Base) k l r.
Proof.
  intros HB. revert m k l r. induction n as [|n IH]; intros m k l r Hn Hm;
    pose proof (esize_pos l); [unfold cf_fuel in *; lia|].
  destruct m as [|m]; [unfold cf_fuel in *; lia|].
  cbn [ConstantFoldingExprBuilder b_Arith ConstantSpecializedExprBuilder].
  apply cf_ext. intros j a b Hab. apply IH; lia.
Qed.

Lemma ConstantFolding_step n Base :
  ConstantFoldingExprBuilder (S n) Base =
  ConstantSpecializedExprBuilder (ConstantFoldingBuilder (ConstantFoldingExprBuilder n Base) Base).
Proof. reflexivity. Qed.

Lemma ConstantFolding_unroll_arith Base n k l r :
  SizeBounded Base -> (cf_fuel l r <= n)%nat ->
  b_Arith (ConstantFoldingExprBuilder n Base) k l r =
  cs_Arith (ConstantFoldingBuilder (ConstantFoldingExprBuilder n Base) Base) k l r.
Proof.
  intros HB Hn. pose proof (esize_pos l).
  destruct n as [|n]; [unfold cf_fuel in *; lia|]. rewrite ConstantFolding_step at 1.
  cbn [b_Arith ConstantSpecializedExprBuilder]. apply cf_ext.
  intros j a b Hab. apply ConstantFolding_fuel_enough; [done|lia..].
Qed.

(** The simplifying builder calls itself on the operands of a disjunction and
    once for a comparison. *)
Lemma sb_Not_ext B B' Base e :
  (forall j l r, b_Arith B j l r = b_Arith B' j l r) ->
  (forall x, (esize x < esize e)%nat -> b_Not B x = b_Not B' x) ->
  cs_Not (SimplifyingBuilder B Base) e = cs_Not (SimplifyingBuilder B' Base) e.
Proof.
  intros Ha Hn. unfold cs_Not. destruct e as [| | | | | | | |[] a b|]; try done.
  cbn. rewrite Ha, !Hn; cbn; (done || lia).
Qed.

Lemma sb_Cmp_ext B B' Base k l r :
  (esize (b_Cmp B Eq l r) <= S (esize l + esize r))%nat ->
  (forall x, (esize x <= S (esize l + esize r))%nat -> b_Not B x = b_Not B' x) ->
  (forall j, j <> Ne /\ j <> Ugt /\ j <> Uge /\ j <> Sgt /\ j <> Sge ->
     forall a b, b_Cmp B j a b = b_Cmp B' j a b) ->
  cs_Cmp (SimplifyingBuilder B Base) k l r = cs_Cmp (SimplifyingBuilder B' Base) k l r.
Proof.
  intros HS Hn Hc.
  assert (E : sb_Cmp B Base k l r = sb_Cmp B' Base k l r).
  { destruct k; cbn [sb_Cmp]; try done; try (apply Hc; split_and!; discriminate).
    rewrite Hn by done. f_equal. apply Hc. split_and!; discriminate. }
  unfold cs_Cmp, cs_binary. cbn. destruct k; try done; destruct l; try done; destruct r; done.
Qed.

Lemma Simplifying_Eq_size Base n l r :
  SizeBounded Base ->
  (esize (b_Cmp (SimplifyingExprBuilder n Base) Eq l r) <= S (esize l + esize r))%nat.
Proof.
  intros. replace (b_Cmp (SimplifyingExprBuilder n Base) Eq l r) with
    (cs_Cmp (SimplifyingBuilder Base Base) Eq l r) by now destruct n.
  apply cs_binary_size; cbn; intros.
  - apply cf_Eq_cn_size.
  - rewrite Nat.add_comm. apply cf_Eq_cn_size.
  - unfold sb_Eq_nn. case_match; [cbn; lia|apply sz_Cmp].
Qed.

Lemma Simplifying_Not_enough Base n m e :
  (esize e <= n)%nat -> (esize e <= m)%nat ->
  b_Not (SimplifyingExprBuilder n Base) e = b_Not (SimplifyingExprBuilder m Base) e.
Proof.
  revert m e. induction n as [|n IH]; intros m e Hn Hm; pose proof (esize_pos e); [lia|].
  destruct m as [|m]; [lia|]. apply (sb_Not_ext (SimplifyingExprBuilder n Base)).
  - intros. now destruct n, m.
  - intros. apply IH; lia.
Qed.

Lemma Simplifying_Cmp_enough Base n m k l r :
  SizeBounded Base -> (esize l + esize r + 2 <= n)%nat -> (esize l + esize r + 2 <= m)%nat ->
  b_Cmp (SimplifyingExprBuilder n Base) k l r = b_Cmp (SimplifyingExprBuilder m Base) k l r.
Proof.
  intros. destruct n as [|n]; [lia|]. destruct m as [|m]; [lia|].
  apply (sb_Cmp_ext (SimplifyingExprBuilder n Base)).
  - now apply Simplifying_Eq_size.
  - intros. apply Simplifying_Not_enough; lia.
  - intros j Hj a b. destruct j; try (exfalso; tauto); now destruct n, m.
Qed.

(** C12: the builders returned by [createConstantFoldingExprBuilder] and
    [createSimplifyingExprBuilder], and any chain of them, are sound over every
    sound base builder: each method returns an expression that has the value of
    the plain node, under every assignment of the arrays for which that node
    has a value. *)
Theorem builders_sound fuel Base :
  BuilderSound Base ->
  BuilderSound (ConstantFoldingExprBuilder fuel Base) /\
  BuilderSound (SimplifyingExprBuilder fuel Base).
Proof. auto using ConstantFolding_fuel_sound, Simplifying_fuel_sound. Qed.

(** The builders terminate within the fuel [cf_fuel l r] (the simplifying
    one, within the number of nodes): from there on the builder satisfies the
    recursive equations of the source, in which the rules call the builder
    itself, and more fuel changes nothing. *)
Theorem builders_unroll Base n k j e l r :
  SizeBounded Base ->
  ((cf_fuel l r <= n)%nat ->
   b_Arith (ConstantFoldingExprBuilder n Base) k l r =
   cs_Arith (ConstantFoldingBuilder (ConstantFoldingExprBuilder n Base) Base) k l r) /\
  ((esize e <= n)%nat ->
   b_Not (SimplifyingExprBuilder n Base) e =
   cs_Not (SimplifyingBuilder (SimplifyingExprBuilder n Base) Base) e) /\
  ((esize l + esize r + 2 <= n)%nat ->
   b_Cmp (SimplifyingExprBuilder n Base) j l r =
   cs_Cmp (SimplifyingBuilder (SimplifyingExprBuilder n Base) Base) j l r).
Proof.
  intros HB. split_and!; intros Hn.
  - now apply ConstantFolding_unroll_arith.
  - rewrite (Simplifying_Not_enough Base n (S n)) by lia. reflexivity.
  - rewrite (Simplifying_Cmp_enough Base n (S n)) by (done || lia). reflexivity.
Qed.

End Builders.

(** The builders stacked as the tools stack them: folding, then simplifying. *)
Lemma builders_sound_witness :
  BuilderSound
    (SimplifyingExprBuilder (A:=apint_ref) 8
       (ConstantFoldingExprBuilder (A:=apint_ref) 60 DefaultExprBuilder)).
Proof.
  apply (builders_sound (A:=apint_ref) (AS:=apint_ref_spec) 8).
  exact (ConstantFolding_fuel_sound (AS:=apint_ref_spec) 60 _ DefaultExprBuilder_sound).
Defined.

Lemma builders_unroll_witness :
  let x := CastExpr ZExt (ConstantExpr (APInt 8 7)) 16 in
  let e := CmpExpr Eq x x in
  b_Not (SimplifyingExprBuilder (A:=apint_ref) 20 DefaultExprBuilder) (BinaryExpr Or e e) =
  cs_Not (A:=apint_ref)
    (SimplifyingBuilder (A:=apint_ref) (SimplifyingExprBuilder (A:=apint_ref) 20 DefaultExprBuilder)
       DefaultExprBuilder) (BinaryExpr Or e e).
Proof.
  intros x e.
  apply (builders_unroll (A:=apint_ref) DefaultExprBuilder 20 Add Eq (BinaryExpr Or e e) x x).
  - exact DefaultExprBuilder_size.
  - vm_compute. lia.
Defined.
