(* ===== verification/ExprVisitor.v ===== *)
(** * Expression visitors

    src/lib/Expr/ExprVisitor.cpp: the traversal every rewriting of expressions
    is built on.  A visitor is a record of its virtual methods; the methods get
    the visitor's [visit] as an argument, since they call it back.  The state
    holds the [visited] table of the visitor and the two tables of update nodes
    that replacing visitors share (src/lib/Expr/ExprReplaceVisitor.cpp).

    A computation returns [None] when the fuel of [visit] is used up; the
    triples below state, with the flag [total], whether that is excluded.

    Pointer comparisons of update nodes are comparisons of contents here: the
    source allocates a copy of a node when only the pointer of a part changed,
    and that copy has the same contents. *)

From stdpp Require Import strings.
From S2P Require Import Prelude APInt Expr ExprOrder ExprSem ExprCreate ExprCreateSound ExprRebuildSound.

Inductive Action := SkipChildren | DoChildren | ChangeTo (argument : Expr).

Record VState := mkVState {
  visited : list (Expr * Expr);
  visitedUN : list (UpdateNode * UpdateNode);
  replacedUN : list (UpdateNode * UpdateNode)
}.

(** A computation on the tables; [None]: out of fuel. *)
Definition M (X : Type) : Type := VState -> option (X * VState).
#[export] Instance M_ret : MRet M := fun X x st => Some (x, st).
#[export] Instance M_bind : MBind M := fun X Y k m st =>
  match m st with Some (x, st') => k x st' | None => None end.

Definition out_of_fuel {X} : M X := fun _ => None.

(** [getKid(0) .. getKid(getNumKids() - 1)] *)
Definition kids (e : Expr) : list Expr :=
  match e with
  | ConstantExpr _ => []
  | NotOptimizedExpr x | ExtractExpr x _ _ | CastExpr _ x _ | NotExpr x | ReadExpr _ _ x => [x]
  | SelectExpr c t f => [c; t; f]
  | ConcatExpr l r | BinaryExpr _ l r | CmpExpr _ l r => [l; r]
  end.

Section Visitor.
Context `{A : APIntOps} `{Opts : ExprOptions} (UseVisitorHash : bool).

(** *** Tables keyed by expressions and by update nodes *)

Fixpoint map_find {X Y} (eqb : X -> X -> bool) (m : list (X * Y)) (k : X) : option Y :=
  match m with
  | [] => None
  | (k', y) :: m' => if eqb k k' then Some y else map_find eqb m' k
  end.

Definition UpdateNode_eqb (u u' : UpdateNode) : bool := un_compare u u' =? 0.

Definition find_visited (e : Expr) : M (option Expr) := fun st =>
  Some (map_find Expr_eqb (visited st) e, st).

(** [visited.insert(std::make_pair(e, res))]: keeps an entry that is there. *)
Definition insert_visited (e res : Expr) : M unit := fun st =>
  Some (tt, match map_find Expr_eqb (visited st) e with
            | Some _ => st
            | None => mkVState ((e, res) :: visited st) (visitedUN st) (replacedUN st)
            end).

Definition find_visitedUN (u : UpdateNode) : M (option UpdateNode) := fun st =>
  Some (map_find UpdateNode_eqb (visitedUN st) u, st).
Definition set_visitedUN (u u' : UpdateNode) : M unit := fun st =>
  Some (tt, mkVState (visited st) ((u, u') :: visitedUN st) (replacedUN st)).

(** [replacedUN.insert(std::make_pair(newUN, newUN))]: the node already there
    with these contents, or the new one. *)
Definition intern_UN (u : UpdateNode) : M UpdateNode := fun st =>
  match map_find UpdateNode_eqb (replacedUN st) u with
  | Some u' => Some (u', st)
  | None => Some (u, mkVState (visited st) (visitedUN st) ((u, u) :: replacedUN st))
  end.

(** *** The visitor *)

Record ExprVisitor := mkExprVisitor {
  visitExpr : (Expr -> M Expr) -> Expr -> M Action;
  visitKind : (Expr -> M Expr) -> Expr -> M Action;  (* visitAdd, visitRead, ... *)
  visitExprPost : Expr -> Action;
  visitUpdateNode : (Expr -> M Expr) -> UpdateNode -> M UpdateNode;
  recursive : bool
}.

Definition is_constant (e : Expr) : bool := match e with ConstantExpr _ => true | _ => false end.

(** The expression with visited kids, and visited again in recursive mode. *)
Definition visit_rebuilt (V : ExprVisitor) (visit : Expr -> M Expr) (e' : Expr) : M Expr :=
  if recursive V then visit e' else mret e'.

Definition visitChildren (V : ExprVisitor) (visit : Expr -> M Expr) (e : Expr) : M Expr :=
  match e with
  | ReadExpr root head index =>
    index' ← visit index;
    head' ← match head with un_null => mret un_null | _ => visitUpdateNode V visit head end;
    if negb (Expr_eqb index' index) || negb (UpdateNode_eqb head' head)
    then visit_rebuilt V visit (ReadExpr'create (mkUpdateList root head') index')
    else mret e
  | _ =>
    ks ← mapM visit (kids e);
    if existsb (fun p => negb (Expr_eqb p.1 p.2)) (zip ks (kids e))
    then match rebuild e ks with Some e' => visit_rebuilt V visit e' | None => mret e end
    else mret e
  end.

Definition visitActual (V : ExprVisitor) (visit : Expr -> M Expr) (e : Expr) : M Expr :=
  if is_constant e then mret e
  else
    res ← visitExpr V visit e;
    match res with
    | SkipChildren => mret e
    | ChangeTo a => mret a
    | DoChildren =>
      res ← visitKind V visit e;
      match res with
      | SkipChildren => mret e
      | ChangeTo a => mret a
      | DoChildren =>
        e_ret ← visitChildren V visit e;
        mret (if is_constant e_ret then e_ret
              else match visitExprPost V e_ret with ChangeTo a => a | _ => e_ret end)
      end
    end.

Fixpoint visit (fuel : nat) (V : ExprVisitor) (e : Expr) : M Expr :=
  match fuel with
  | O => out_of_fuel
  | S n =>
    if negb UseVisitorHash || is_constant e then visitActual V (visit n V) e
    else
      found ← find_visited e;
      match found with
      | Some r => mret r
      | None =>
        res ← visitActual V (visit n V) e;
        _ ← insert_visited e res;
        mret res
      end
  end.

(** *** The default methods *)
Definition default_visitExpr : (Expr -> M Expr) -> Expr -> M Action := fun _ _ => mret DoChildren.
Definition default_visitKind : (Expr -> M Expr) -> Expr -> M Action := fun _ _ => mret DoChildren.
Definition default_visitUpdateNode : (Expr -> M Expr) -> UpdateNode -> M UpdateNode :=
  fun _ un => mret un.

(** *** Reasoning

    [triple I m Q]: from tables that satisfy [I], [m] gives a result in [Q] and
    tables that satisfy [I]; it may run out of fuel unless [total]. *)
Definition triple (total : bool) (I : VState -> Prop) {X} (m : M X) (Q : X -> Prop) : Prop :=
  forall st, I st ->
  match m st with Some (x, st') => Q x /\ I st' | None => total = false end.

Section Rules.
Context (total : bool) (I : VState -> Prop).

Lemma triple_ret {X} (x : X) (Q : X -> Prop) : Q x -> triple total I (mret x) Q.
Proof. intros H st Hst. cbn. done. Qed.

Lemma triple_bind {X Y} (m : M X) (k : X -> M Y) (R : X -> Prop) (Q : Y -> Prop) :
  triple total I m R -> (forall x, R x -> triple total I (k x) Q) -> triple total I (m ≫= k) Q.
Proof.
  intros Hm Hk st Hst. unfold mbind, M_bind. specialize (Hm st Hst).
  destruct (m st) as [[x st']|]; [|done]. destruct Hm as [Hx Hst']. exact (Hk x Hx st' Hst').
Qed.

Lemma triple_mono {X} (m : M X) (Q Q' : X -> Prop) :
  triple total I m Q -> (forall x, Q x -> Q' x) -> triple total I m Q'.
Proof.
  intros H HQ st Hst. specialize (H st Hst). destruct (m st) as [[x st']|]; [|done].
  destruct H. auto.
Qed.

Lemma triple_mapM {X Y} (f : X -> M Y) (R : X -> Y -> Prop) xs :
  Forall (fun x => triple total I (f x) (R x)) xs -> triple total I (mapM f xs) (fun ys => Forall2 R xs ys).
Proof.
  induction 1 as [|x xs Hx Hxs IH]; cbn; [now apply triple_ret|].
  eapply triple_bind; [exact Hx|]. cbn. intros y Hy.
  eapply triple_bind; [exact IH|]. cbn. intros ys Hys. apply triple_ret. now constructor.
Qed.

End Rules.

(** ** Tables that are right under the array contents [rho] *)

Section Sound.
Context {AS : APIntSpec A} (rho : valuation) (total : bool) (Res : apint -> Expr -> Prop).
Context (Res_eval : forall v r, Res v r -> eval rho r = Some v).

Definition same_value (e e' : Expr) : Prop :=
  exists v, eval rho e = Some v /\ eval rho e' = Some v.

Definition un_same (u u' : UpdateNode) : Prop :=
  forall root us, eval_updates rho root u = Some us -> eval_updates rho root u' = Some us.

Record tables_ok (st : VState) : Prop := {
  visited_ok : Forall (fun p => exists v, eval rho p.1 = Some v /\ Res v p.2) (visited st);
  visitedUN_ok : Forall (fun p => un_wf_consts p.1 = true /\ un_same p.1 p.2) (visitedUN st);
  replacedUN_ok : Forall (fun p => p.1 = p.2 /\ un_wf_consts p.1 = true) (replacedUN st)
}.

Lemma map_find_elem {X Y} (eqb : X -> X -> bool) (m : list (X * Y)) k y :
  map_find eqb m k = Some y -> exists k', (k', y) ∈ m /\ eqb k k' = true.
Proof.
  induction m as [|[k' y'] m IH]; cbn; [done|]. destruct (eqb k k') eqn:E.
  - intros [= ->]. exists k'. split; [now left|done].
  - intros H. destruct (IH H) as (j & ? & ?). exists j. split; [now right|done].
Qed.

Lemma find_visited_ok e v :
  eval rho e = Some v ->
  triple total tables_ok (find_visited e) (fun o => match o with Some r => Res v r | None => True end).
Proof.
  intros He st Hst. cbn. split; [|done]. destruct (map_find _ _ _) as [r|] eqn:E; [|done].
  apply map_find_elem in E as (k & Hk & Ek). pose proof (visited_ok _ Hst) as Hv.
  rewrite Forall_forall in Hv. destruct (Hv _ Hk) as (w & Hw & Hr). cbn in *.
  apply Expr_eqb_eq in Ek as ->; [|eapply eval_wf; eassumption..]. rewrite He in Hw. injection Hw as ->. done.
Qed.

Lemma insert_visited_ok e v r :
  eval rho e = Some v -> Res v r -> triple total tables_ok (insert_visited e r) (fun _ => True).
Proof.
  intros He Hr st [H1 H2 H3]. cbn. split; [done|]. destruct (map_find _ _ _); [done|].
  constructor; cbn; [constructor; [eauto|done]|done..].
Qed.

(** [visit] is right if [visitActual] is. *)
Lemma visit_ok n V e v :
  eval rho e = Some v ->
  triple total tables_ok (visitActual V (visit n V) e) (Res v) ->
  triple total tables_ok (visit (S n) V e) (Res v).
Proof.
  intros He Ha. cbn [visit]. destruct (negb UseVisitorHash || is_constant e); [exact Ha|].
  eapply triple_bind; [exact (find_visited_ok e v He)|]. intros [r|] Hr; [now apply triple_ret|].
  eapply triple_bind; [exact Ha|]. intros r' Hr'.
  eapply triple_bind; [exact (insert_visited_ok e v r' He Hr')|]. intros _ _. now apply triple_ret.
Qed.

(** Rebuilding a node from kids with the same values. *)
Lemma rebuild_ok e ks v :
  (forall r h i, e <> ReadExpr r h i) -> is_constant e = false ->
  eval rho e = Some v -> Forall2 same_value (kids e) ks ->
  exists e', rebuild e ks = Some e' /\ eval rho e' = Some v.
Proof.
  intros Hr Hc He Hks.
  destruct e; cbn [kids] in Hks; try discriminate Hc; try (now edestruct Hr);
    repeat match goal with
    | H : Forall2 _ (_ :: _) _ |- _ => apply Forall2_cons_inv_l in H as (? & ? & (? & ? & ?) & H & ->)
    | H : Forall2 _ [] _ |- _ => apply Forall2_nil_inv_l in H as ->
    end; cbn [rebuild]; eexists; (split; [reflexivity|]).
  - cbn in *. congruence.
  - apply SelectExpr'create_sound. cbn in *. now rewrite H0, H2, H4 in *; rewrite H, H1, H3 in He.
  - apply ConcatExpr'create_sound. cbn in *. now rewrite H0, H2; rewrite H, H1 in He.
  - apply ExtractExpr'create_sound. cbn in *. now rewrite H0; rewrite H in He.
  - apply Cast'create_sound. cbn in *. now rewrite H0; rewrite H in He.
  - apply NotExpr'create_sound. cbn in *. now rewrite H0; rewrite H in He.
  - apply Arith'create_sound. cbn in *. now rewrite H0, H2; rewrite H, H1 in He.
  - apply Cmp'create_sound. cbn in *. now rewrite H0, H2; rewrite H, H1 in He.
Qed.

(** The kids of an expression with a value have values. *)
Lemma kids_defined e v : eval rho e = Some v -> Forall (fun k => exists w, eval rho k = Some w) (kids e).
Proof.
  destruct e; cbn; intros; inv_eval; repeat constructor; eauto.
Qed.

End Sound.

End Visitor.
