(* ===== verification/ExprEvaluator.v ===== *)
(** * Evaluation under an assignment

    src/lib/Expr/ExprEvaluator.cpp and src/include/klee/Expr/Assignment.h: the
    visitor that replaces reads by values, and its instance that takes them
    from the bindings a solver returned.

    Soundness: the result has the value of the expression for every array
    contents that agree with the assignment.  Completeness: when unbound bytes
    are zero ([allowFreeValues] false), an expression with a value evaluates to
    the constant of that value, within a bounded number of nested visits. *)

From stdpp Require Import strings.
From S2P Require Import Prelude APInt Expr ExprOrder ExprSem ExprCreate ExprCreateSound ExprRebuildSound ExprVisitor.

Section Evaluator.
Context `{A : APIntOps} `{Opts : ExprOptions} (UseVisitorHash : bool).

Section Hooks.
Context (getInitialValue : Array -> Z -> Expr).

(** The loop over the updates; a non-constant index stops it. *)
Fixpoint evalRead (visit : Expr -> M Expr) (root : Array) (un : UpdateNode) (index : Z) : M Action :=
  match un with
  | un_node next uindex uvalue =>
    ui ← visit uindex;
    match ui with
    | ConstantExpr CE =>
      if getZExtValue CE =? index then v ← visit uvalue; mret (ChangeTo v)
      else evalRead visit root next index
    | _ =>
      mret (ChangeTo (ReadExpr'create (mkUpdateList root un)
                        (ConstantExpr (ConstantExpr'alloc index (domain root)))))
    end
  | un_null =>
    mret (ChangeTo
      (if isConstantArray root && (index <? size root) then
         match constantValues root !! Z.to_nat index with
         | Some c => ConstantExpr c
         | None => getInitialValue root index
         end
       else getInitialValue root index))
  end.

Definition ExprEvaluator_visitExpr (visit : Expr -> M Expr) (e : Expr) : M Action :=
  match e with
  | ReadExpr _ _ _ => mret DoChildren
  | _ =>
    match kids e with
    | [] => mret DoChildren
    | Kids =>
      if forallb is_constant Kids
      then mret (match rebuild e Kids with Some r => ChangeTo r | None => DoChildren end)
      else mret DoChildren
    end
  end.

(** [evalRead] takes the index as an [unsigned]. *)
Definition ExprEvaluator_visitRead (visit : Expr -> M Expr) (root : Array) (head : UpdateNode)
    (index : Expr) : M Action :=
  v ← visit index;
  match v with
  | ConstantExpr CE => evalRead visit root head (u32 (getZExtValue CE))
  | _ => mret DoChildren
  end.

Definition protectedDivOperation (visit : Expr -> M Expr) (k : ArithKind) (left right : Expr) : M Action :=
  kid0 ← visit left;
  kid1 ← visit right;
  let kid1 := match kid1 with ConstantExpr CE => if isZero CE then right else kid1 | _ => kid1 end in
  if negb (Expr_eqb kid0 left) || negb (Expr_eqb kid1 right)
  then mret (ChangeTo (Arith'create k kid0 kid1))
  else mret SkipChildren.

Definition ExprEvaluator_visitKind (visit : Expr -> M Expr) (e : Expr) : M Action :=
  match e with
  | ReadExpr root head index => ExprEvaluator_visitRead visit root head index
  | BinaryExpr k l r =>
    match k with
    | UDiv | SDiv | URem | SRem => protectedDivOperation visit k l r
    | _ => mret DoChildren
    end
  | _ => mret DoChildren
  end.

Definition ExprEvaluator_visitExprPost (e : Expr) : Action :=
  match e with NotOptimizedExpr src => ChangeTo src | _ => SkipChildren end.

Definition ExprEvaluator : ExprVisitor := {|
  visitExpr := ExprEvaluator_visitExpr;
  visitKind := ExprEvaluator_visitKind;
  visitExprPost := ExprEvaluator_visitExprPost;
  visitUpdateNode := default_visitUpdateNode;
  recursive := false
|}.

End Hooks.

(** ** Assignments *)

Record Assignment := mkAssignment {
  allowFreeValues : bool;
  bindings : list (Array * list Z)       (* std::map<const Array*, bytes> *)
}.

Fixpoint binding (bs : list (Array * list Z)) (a : Array) : option (list Z) :=
  match bs with
  | [] => None
  | (a', values) :: bs' => if decide (a = a') then Some values else binding bs' a
  end.

(** The constructor from objects and values; [bindings.insert] keeps the first
    binding of an array. *)
Definition Assignment_create (objects : list Array) (values : list (list Z)) (free : bool) : Assignment :=
  mkAssignment free (zip objects values).

Definition Assignment_evaluate_byte (a : Assignment) (array : Array) (index : Z) : Expr :=
  match binding (bindings a) array ≫= fun values => values !! Z.to_nat index with
  | Some b => ConstantExpr (ConstantExpr'alloc b (range array))
  | None =>
    if allowFreeValues a
    then ReadExpr'create (mkUpdateList array un_null)
           (ConstantExpr (ConstantExpr'alloc index (domain array)))
    else ConstantExpr (ConstantExpr'alloc 0 (range array))
  end.

Definition no_tables : VState := mkVState [] [] [].

(** The nested visits an evaluation needs at most. *)
Definition evaluate_fuel (e : Expr) : nat := esize e.

Definition Assignment_evaluate (a : Assignment) (e : Expr) : option Expr :=
  fst <$> visit UseVisitorHash (evaluate_fuel e) (ExprEvaluator (Assignment_evaluate_byte a)) e no_tables.

(** [satisfies]: one evaluator, whose [visited] table is kept, for all the
    expressions. *)
Fixpoint satisfies_loop (a : Assignment) (es : list Expr) (st : VState) : option bool :=
  match es with
  | [] => Some true
  | e :: es' =>
    match visit UseVisitorHash (evaluate_fuel e) (ExprEvaluator (Assignment_evaluate_byte a)) e st with
    | None => None
    | Some (r, st') => if Expr_isTrue r then satisfies_loop a es' st' else Some false
    end
  end.
Definition Assignment_satisfies (a : Assignment) (es : list Expr) : option bool :=
  satisfies_loop a es no_tables.

(** [createConstraintsFromAssignment]: each byte of each bound array; [None] is
    a binding with fewer bytes than the array. *)
Definition constraints_of_binding (array : Array) (values : list Z) : option (list Expr) :=
  mapM (fun i =>
          v ← values !! i;
          Some (EqExpr'create
                  (ReadExpr'create (mkUpdateList array un_null)
                     (ConstantExpr (ConstantExpr'alloc (Z.of_nat i) (domain array))))
                  (ConstantExpr (ConstantExpr'alloc v (range array)))))
    (seq 0 (Z.to_nat (size array))).
Definition createConstraintsFromAssignment (a : Assignment) : option (list Expr) :=
  @concat Expr <$> mapM (fun '(array, values) => constraints_of_binding array values) (bindings a).

(** ** Correctness *)

(** The expressions the evaluator handles: array indices of at most 32 bits
    ([evalRead] takes an [unsigned]), and for full evaluation no
    [NotOptimizedExpr] directly over a constant, which [visitExpr] rebuilds
    instead of folding. *)
Fixpoint evaluable (full : bool) (e : Expr) : bool :=
  match e with
  | ConstantExpr _ => true
  | NotOptimizedExpr x => (negb full || negb (is_constant x)) && evaluable full x
  | ReadExpr r h i => (domain r <=? 32) && un_evaluable full h && evaluable full i
  | SelectExpr c t f => evaluable full c && evaluable full t && evaluable full f
  | ExtractExpr x _ _ | CastExpr _ x _ | NotExpr x => evaluable full x
  | ConcatExpr l r | BinaryExpr _ l r | CmpExpr _ l r => evaluable full l && evaluable full r
  end
with un_evaluable (full : bool) (u : UpdateNode) : bool :=
  match u with
  | un_null => true
  | un_node n i v => un_evaluable full n && evaluable full i && evaluable full v
  end.

Section Correct.
Context {AS : APIntSpec A} (rho : valuation) (full : bool) (getInitialValue : Array -> Z -> Expr).

Definition evaluates (v : apint) (r : Expr) : Prop :=
  eval rho r = Some v /\ (full = true -> is_constant r = true).

Context (initial_ok : forall r i,
  array_ok r = true -> isConstantArray r = false -> domain r <= 32 -> 0 <= i < 2 ^ domain r ->
  evaluates (APInt (range r) (BV.wrap (range r) (rho r i))) (getInitialValue r i)).

Notation ok := (triple true (tables_ok rho evaluates)).

Lemma evaluates_const v : ap_valid v = true -> evaluates v (ConstantExpr v).
Proof. intros. split; [now apply eval_const|done]. Qed.

Lemma evaluates_const_inv v c : evaluates v (ConstantExpr c) -> c = v /\ ap_valid v = true.
Proof. intros [[-> ?]%eval_const_inv _]. done. Qed.

(** Kids that are constants fold. *)
Lemma rebuild_const e ks r :
  Forall (fun k => is_constant k = true) ks -> rebuild e ks = Some r ->
  match e with NotOptimizedExpr _ | ReadExpr _ _ _ => True | _ => is_constant r = true end.
Proof.
  intros Hks Hr.
  destruct e; try exact I; cbn in Hr;
    repeat match type of Hr with
    | match ?ks with [] => _ | _ => _ end = Some _ => destruct ks as [|[] ?]; try discriminate Hr
    end;
    repeat match goal with H : Forall _ (_ :: _) |- _ => apply Forall_cons in H as [??] end;
    try discriminate; injection Hr as <-.
  - cbn. now case_match.
  - done.
  - unfold ExtractExpr'create. cbn. now case_match.
  - destruct k; cbn [Cast'create]; unfold ZExtExpr'create, ZExtExpr'create_with, SExtExpr'create,
      ExtractExpr'create; cbn; repeat case_match; done.
  - done.
  - destruct k; done.
  - destruct k; done.
Qed.

Lemma alloc_index i w : 0 < w <= 32 -> 0 <= i < 2 ^ w -> ConstantExpr'alloc i w = APInt w i.
Proof.
  intros Hw Hi. unfold ConstantExpr'alloc. assert (2 ^ w <= 2 ^ 32) by (apply Z.pow_le_mono_r; lia).
  rewrite ap_make_spec by lia. f_equal. now apply BV.wrap_small.
Qed.

(** A visit of the expressions with at most [n] nodes. *)
Definition visits_below (n : nat) (vis : Expr -> M Expr) : Prop :=
  forall k w, (esize k <= n)%nat -> evaluable full k = true -> eval rho k = Some w ->
  ok (vis k) (evaluates w).

Lemma array_ok_domain_pos r : array_ok r = true -> 0 < domain r.
Proof. unfold array_ok. intros. inv_eval. done. Qed.

Lemma array_ok_length r :
  array_ok r = true -> isConstantArray r = true -> Z.of_nat (length (constantValues r)) = size r.
Proof.
  unfold array_ok, isSymbolicArray. intros H Hc. rewrite Hc in H. inv_eval. cbn in *. inv_eval. done.
Qed.

Lemma evalRead_ok n vis root un us index v :
  visits_below n vis -> (un_esize un <= n)%nat -> un_evaluable full un = true ->
  array_ok root = true -> domain root <= 32 -> eval_updates rho root un = Some us ->
  0 <= index < 2 ^ domain root -> read_value rho root us index = Some v ->
  ok (evalRead getInitialValue vis root un index)
     (fun a => exists r, a = ChangeTo r /\ evaluates (APInt (range root) v) r).
Proof.
  intros Hvis. revert us. induction un as [|next IH ui uv]; intros us Hn Hev Hr Hd Hus Hi Hv.
  - cbn in Hus. injection Hus as <-. cbn [evalRead]. apply triple_ret. eexists; split; [reflexivity|].
    unfold read_value in Hv. cbn in Hv. unfold initial_value in Hv.
    destruct (isConstantArray root) eqn:Ec; cbn [andb].
    + destruct (constantValues root !! Z.to_nat index) as [c|] eqn:El; [|done]. cbn in Hv.
      injection Hv as <-. apply lookup_lt_Some in El as Hlen. pose proof (array_ok_length root Hr Ec).
      rewrite (proj2 (Z.ltb_lt index (size root))) by lia.
      destruct (array_ok_const _ _ _ Hr El) as [Vc <-]. destruct c. now apply evaluates_const.
    + injection Hv as <-. now apply initial_ok.
  - cbn in Hn, Hev. apply andb_true_iff in Hev as [[Hevn Hevi]%andb_true_iff Hevv].
    pose proof Hus as Hus0. cbn in Hus. apply bind_Some in Hus as (us' & Hn' & H).
    apply bind_Some in H as (iv & Hiv & H). apply bind_Some in H as (vv & Hvv & H). inv_eval.
    cbn [evalRead]. eapply triple_bind; [apply Hvis; [|exact Hevi|exact Hiv]; lia|].
    intros ui' Hui.
    assert (Hsym : eval rho (ReadExpr'create (mkUpdateList root (un_node next ui uv))
                     (ConstantExpr (ConstantExpr'alloc index (domain root)))) = Some (APInt (range root) v)).
    { apply ReadExpr'create_sound. pose proof (array_ok_domain_pos _ Hr). rewrite alloc_index by lia.
      eapply eval_read_expr; [exact Hus0|apply eval_const, BV.in_range_spec|done..]. done. }
    destruct (is_constant ui') eqn:Eu.
    2:{ destruct Hui as [_ Hui].
        destruct ui'; try discriminate Eu; apply triple_ret; eexists; (split; [reflexivity|]);
          (split; [exact Hsym|]); intros Hf; discriminate (Hui Hf). }
    destruct ui'; try discriminate Eu.
    apply evaluates_const_inv in Hui as [-> Vi].
    rewrite getZExtValue_spec by (done || lia).
    unfold read_value in Hv. cbn in Hv. rewrite Z.eqb_sym in Hv.
    destruct (ap_val iv =? index).
    + injection Hv as <-. eapply triple_bind; [apply Hvis; [|exact Hevv|exact Hvv]; lia|].
      intros r Hr'. apply triple_ret. exists r. split; [done|]. destruct vv; cbn in *; subst. done.
    + eapply IH; eauto. lia.
Qed.

Notation V := (ExprEvaluator getInitialValue).

Lemma evaluable_kids e :
  evaluable full e = true ->
  Forall (fun k => (esize k < esize e)%nat /\ evaluable full k = true) (kids e).
Proof.
  destruct e; cbn; rewrite ?andb_true_iff, ?Forall_cons, ?Forall_nil; intros; destruct_and?;
    split_and?; auto; lia.
Qed.

(** The kids of an expression with a value, visited. *)
Lemma visit_kids_ok n vis e v :
  visits_below n vis -> (esize e <= S n)%nat -> evaluable full e = true -> eval rho e = Some v ->
  ok (mapM vis (kids e))
     (Forall2 (fun k k' => exists w, eval rho k = Some w /\ evaluates w k') (kids e)).
Proof.
  intros Hvis Hn Hev He. apply triple_mapM.
  pose proof (evaluable_kids e Hev) as Hk. pose proof (kids_defined rho e v He) as Hd.
  rewrite Forall_forall in *. intros k Hin. destruct (Hk k Hin) as [Hs Hek], (Hd k Hin) as [w Hw].
  eapply triple_mono; [apply Hvis; [lia|done|exact Hw]|]. eauto.
Qed.

Lemma eqb_defined a b v w :
  eval rho a = Some v -> eval rho b = Some w -> Expr_eqb a b = true -> a = b.
Proof. intros Ha Hb. apply Expr_eqb_eq; eapply eval_wf; eassumption. Qed.

(** What is left to fold after the children. *)
Definition folded (v : apint) (r : Expr) : Prop :=
  eval rho r = Some v /\
  (full = true -> is_constant r = true \/ exists c, r = NotOptimizedExpr (ConstantExpr c)).

Lemma visitExprPost_ok v r :
  folded v r ->
  evaluates v (if is_constant r then r
               else match ExprEvaluator_visitExprPost r with ChangeTo a => a | _ => r end).
Proof.
  intros [Hr Hf]. unfold evaluates. destruct (is_constant r) eqn:Ec; [done|].
  destruct r; cbn in *; try (split; [done|]; intros Hfull; destruct (Hf Hfull) as [|[? ?]]; discriminate).
  split; [done|]. intros Hfull. destruct (Hf Hfull) as [|[c [= ->]]]; done.
Qed.

Lemma visitChildren_ok n vis e v :
  visits_below n vis -> (esize e <= S n)%nat -> evaluable full e = true -> eval rho e = Some v ->
  (forall r h i, e <> ReadExpr r h i) -> is_constant e = false -> forallb is_constant (kids e) = false ->
  ok (visitChildren V vis e) (folded v).
Proof.
  intros Hvis Hn Hev He Hread Hc Hk.
  replace (visitChildren V vis e) with
    (ks ← mapM vis (kids e);
     if existsb (fun p => negb (Expr_eqb p.1 p.2)) (zip ks (kids e))
     then match rebuild e ks with Some e' => visit_rebuilt V vis e' | None => mret e end
     else mret e) by (destruct e; try done; exfalso; exact (Hread _ _ _ eq_refl)).
  eapply triple_bind; [eapply visit_kids_ok; eassumption|]. intros ks Hks.
  destruct (rebuild_ok rho e ks v Hread Hc He) as (e' & Hre & He').
  { eapply Forall2_impl; [exact Hks|]. intros k k' (w & ? & ? & _). now exists w. }
  destruct (existsb _ _) eqn:Ex.
  - rewrite Hre. cbn. apply triple_ret. split; [done|]. intros Hf.
    assert (Hcs : Forall (fun k => is_constant k = true) ks).
    { clear -Hks Hf. induction Hks as [|k k' ? ? (w & _ & _ & H)]; constructor; auto. }
    pose proof (rebuild_const e ks e' Hcs Hre) as Hrc.
    destruct e; try (now left); try (exfalso; exact (Hread _ _ _ eq_refl)). right.
    destruct ks as [|k [|]]; try discriminate Hre. injection Hre as <-. cbn.
    apply Forall_cons in Hcs as [Hkc _]. destruct k; try discriminate Hkc. eauto.
  - apply triple_ret. split; [done|]. intros Hf. exfalso. enough (forallb is_constant (kids e) = true) by congruence.
    clear -AS Hks Hf Ex. induction Hks as [|k k' ks ks' (w & Hw & Hw' & Hcc) Hks IH]; [done|].
    cbn in Ex. apply orb_false_iff in Ex as [Ek Ex]. apply negb_false_iff in Ek.
    apply (eqb_defined _ _ _ _ Hw' Hw) in Ek as ->. cbn. rewrite Hcc by done. now apply IH.
Qed.

(** The children of a read whose index is not known. *)
Lemma visitChildren_read_ok n vis root head index v :
  full = false -> visits_below n vis -> (esize index <= n)%nat -> evaluable full index = true ->
  eval rho (ReadExpr root head index) = Some v ->
  ok (visitChildren V vis (ReadExpr root head index)) (folded v).
Proof.
  intros Hfull Hvis Hn Hev He. pose proof He as He0.
  apply eval_read_expr_inv in He0 as (us & iv & Hus & Hi & _ & Hr & Hwi & Hwv & Hrd).
  cbn [visitChildren]. eapply triple_bind; [apply Hvis; [done|done|exact Hi]|]. intros index' [Hi' _].
  eapply (triple_bind _ _ _ _ (fun h => h = head)); [destruct head; now apply triple_ret|]. intros ? ->.
  destruct (_ || _); apply triple_ret; (split; [|congruence]); [|done].
  apply ReadExpr'create_sound. destruct v as [w x]; cbn in *; subst w. eapply eval_read_expr; eauto.
Qed.

Lemma visitRead_ok n vis root head index v :
  visits_below n vis -> (esize (ReadExpr root head index) <= S n)%nat ->
  evaluable full (ReadExpr root head index) = true ->
  eval rho (ReadExpr root head index) = Some v ->
  ok (visitActual V vis (ReadExpr root head index)) (evaluates v).
Proof.
  intros Hvis Hn Hev He. pose proof He as He0. cbn in Hn.
  apply eval_read_expr_inv in He0 as (us & iv & Hus & Hi & Vi & Hr & Hwi & Hwv & Hrd).
  cbn in Hev. apply andb_true_iff in Hev as [[Hd Hevu]%andb_true_iff Hevi]. apply Z.leb_le in Hd.
  unfold visitActual. cbn [is_constant]. eapply triple_bind; [now apply (triple_ret _ _ _ (eq DoChildren))|].
  intros ? <-. cbn [visitKind ExprEvaluator ExprEvaluator_visitKind]. unfold ExprEvaluator_visitRead.
  eapply (triple_bind _ _ _ _ (fun a => match a with
    | ChangeTo r => evaluates v r | DoChildren => full = false | SkipChildren => False end)).
  - eapply triple_bind; [apply Hvis; [lia|done|exact Hi]|]. intros i' Hi'.
    destruct (is_constant i') eqn:Ec.
    2:{ destruct Hi' as [_ Hi']. destruct i'; try discriminate Ec; apply triple_ret;
        (destruct full; [now specialize (Hi' eq_refl)|done]). }
    destruct i'; try discriminate Ec. apply evaluates_const_inv in Hi' as [-> _].
    apply ap_valid_spec in Vi as Ri. rewrite Hwi in Ri.
    assert (2 ^ domain root <= 2 ^ 32) by (apply Z.pow_le_mono_r; lia).
    rewrite getZExtValue_spec by (done || lia).
    replace (u32 (ap_val iv)) with (ap_val iv) by (symmetry; apply Z.mod_small; lia).
    eapply triple_mono; [eapply (evalRead_ok n); eauto; lia|].
    cbn. intros ? (r & -> & Hr'). destruct v as [w x]; cbn in *; now subst w.
  - intros [| |r]; [done| |now intros; apply triple_ret]. intros Hf.
    eapply triple_bind; [apply (visitChildren_read_ok n); [done..|lia|done|exact He]|].
    intros r Hr'. apply triple_ret. now apply visitExprPost_ok.
Qed.

Lemma protectedDiv_ok n vis k l r v :
  visits_below n vis -> (esize (BinaryExpr k l r) <= S n)%nat ->
  evaluable full (BinaryExpr k l r) = true -> eval rho (BinaryExpr k l r) = Some v ->
  (forall w x, arith_sem k w x 0 = None) -> forallb is_constant [l; r] = false ->
  ok (protectedDivOperation vis k l r)
     (fun a => match a with ChangeTo e => evaluates v e
               | SkipChildren => evaluates v (BinaryExpr k l r) | DoChildren => False end).
Proof.
  intros Hvis Hn Hev He Hz Hnc. cbn in Hn, Hev. apply andb_true_iff in Hev as [Hevl Hevr].
  pose proof He as He0. apply eval_binary_inv in He0 as (x & y & Hx & Hy & Vx & Vy & Hw & Hwv & Hs).
  unfold protectedDivOperation.
  eapply triple_bind; [apply Hvis; [lia|done|exact Hx]|]. intros l' [Hl' Cl].
  eapply triple_bind; [apply Hvis; [lia|done|exact Hy]|]. intros r' [Hr' Cr].
  replace (match r' with ConstantExpr CE => if isZero CE then r else r' | _ => r' end) with r'.
  2:{ destruct r'; try done. destruct (isZero value) eqn:E; [|done].
      apply eval_const_inv in Hr' as [-> ?]. rewrite isZero_spec, Z.eqb_eq in E by done.
      rewrite E, Hz in Hs. discriminate. }
  destruct (_ || _) eqn:Ech; apply triple_ret.
  - split.
    + apply Arith'create_sound. cbn in *. now rewrite Hl', Hr'; rewrite Hx, Hy in He.
    + intros Hf. apply (rebuild_const (BinaryExpr k l r) [l'; r']); [|done]. auto.
  - apply orb_false_iff in Ech as [E1 E2]. apply negb_false_iff in E1, E2.
    apply (eqb_defined _ _ _ _ Hl' Hx) in E1 as ->. apply (eqb_defined _ _ _ _ Hr' Hy) in E2 as ->.
    split; [done|]. intros Hf. cbn in Hnc. now rewrite (Cl Hf), (Cr Hf) in Hnc.
Qed.

Lemma forallb_constant ks : forallb is_constant ks = true -> Forall (fun k => is_constant k = true) ks.
Proof.
  rewrite forallb_forall. intros H. apply Forall_forall. intros k Hk. now apply H, list_elem_of_In.
Qed.

(** The step shared by the expressions that are neither constants nor reads. *)
Lemma visitActual_other_ok n vis e v :
  visits_below n vis -> (esize e <= S n)%nat -> evaluable full e = true -> eval rho e = Some v ->
  (forall r h i, e <> ReadExpr r h i) -> is_constant e = false ->
  ok (visitActual V vis e) (evaluates v).
Proof.
  intros Hvis Hn Hev He Hread Hc. unfold visitActual. rewrite Hc.
  eapply (triple_bind _ _ _ _ (fun a => match a with
    | ChangeTo r => evaluates v r | DoChildren => forallb is_constant (kids e) = false
    | SkipChildren => False end)).
  { cbn [visitExpr ExprEvaluator]. destruct (forallb is_constant (kids e)) eqn:Ek.
    - destruct (rebuild_ok rho e (kids e) v Hread Hc He) as (r & Hr & Hrv).
      { pose proof (kids_defined rho e v He) as Hd. clear -Hd.
        induction Hd as [|k ks [w Hw] Hks IH]; constructor; [now exists w|done]. }
      replace (ExprEvaluator_visitExpr vis e) with (mret (M:=M) (ChangeTo r)).
      2:{ destruct e; try done; try (exfalso; exact (Hread _ _ _ eq_refl));
            unfold ExprEvaluator_visitExpr; cbn [kids] in *; now rewrite Ek, Hr. }
      apply triple_ret. split; [done|]. intros Hf.
      pose proof (rebuild_const e (kids e) r) as Hrc. destruct e; try (exfalso; exact (Hread _ _ _ eq_refl));
        try discriminate Hc; try (apply Hrc; [now apply forallb_constant|done]).
      cbn in Hev, Ek. rewrite Hf in Hev. destruct (is_constant e); done.
    - replace (ExprEvaluator_visitExpr vis e) with (mret (M:=M) DoChildren).
      2:{ destruct e; try done; unfold ExprEvaluator_visitExpr; cbn [kids] in *; now rewrite Ek. }
      now apply triple_ret. }
  intros [| |r] Hact; [done| |now apply triple_ret].
  assert (Hdo : ok (e_ret ← visitChildren V vis e;
    mret (if is_constant e_ret then e_ret
          else match visitExprPost V e_ret with ChangeTo a => a | _ => e_ret end)) (evaluates v)).
  { eapply triple_bind; [eapply (visitChildren_ok n); eassumption|]. intros r Hr. apply triple_ret.
    now apply visitExprPost_ok. }
  cbn [visitKind ExprEvaluator].
  destruct e as [| | | | | | | |k l r|]; try discriminate Hc; try (exfalso; exact (Hread _ _ _ eq_refl));
    try (eapply triple_bind; [now apply (triple_ret _ _ _ (eq DoChildren))|]; intros ? <-; exact Hdo).
  assert (Hdiv : (forall w x, arith_sem k w x 0 = None) ->
    ok (res ← protectedDivOperation vis k l r;
        match res with
        | SkipChildren => mret (BinaryExpr k l r)
        | ChangeTo a => mret a
        | DoChildren => e_ret ← visitChildren V vis (BinaryExpr k l r);
          mret (if is_constant e_ret then e_ret
                else match visitExprPost V e_ret with ChangeTo a => a | _ => e_ret end)
        end) (evaluates v)).
  { intros Hz. eapply triple_bind; [eapply (protectedDiv_ok n); eassumption|].
    intros [| |a] Ha; [now apply triple_ret|done|now apply triple_ret]. }
  destruct k; try (now apply Hdiv);
    (eapply triple_bind; [now apply (triple_ret _ _ _ (eq DoChildren))|]; intros ? <-; exact Hdo).
Qed.

Lemma evaluator_visit_ok n e v :
  (esize e <= n)%nat -> evaluable full e = true -> eval rho e = Some v ->
  ok (visit UseVisitorHash n V e) (evaluates v).
Proof.
  revert e v. induction n as [|n IH]; intros e v Hn Hev He; [pose proof (esize_pos e); lia|].
  apply visit_ok; [exact AS|done|].
  destruct (is_constant e) eqn:Ec.
  { destruct e; try discriminate Ec. apply eval_const_inv in He as [-> ?].
    apply triple_ret. now apply evaluates_const. }
  destruct e as [|x|root head index| | | | | | |] eqn:Ee; rewrite <- ?Ee in *;
    try (apply (visitActual_other_ok n); auto; subst; discriminate).
  subst e. now apply (visitRead_ok n).
Qed.

End Correct.

(** ** Assignments *)

Definition byte_of (a : Assignment) (array : Array) (i : Z) : option Z :=
  binding (bindings a) array ≫= fun values => values !! Z.to_nat i.

(** The array contents an assignment without free values stands for. *)
Definition contents (a : Assignment) : valuation := fun array i =>
  match byte_of a array i with Some b => b | None => 0 end.

(** The bindings hold [unsigned char]s. *)
Definition bytes_ok (a : Assignment) : bool :=
  forallb (fun p => forallb (fun b => (0 <=? b) && (b <? 256)) p.2) (bindings a).

(** Contents that have the bound bytes, and zero elsewhere unless the
    assignment leaves it free. *)
Definition agrees (rho : valuation) (a : Assignment) : Prop :=
  forall array i, 0 <= i ->
  match byte_of a array i with
  | Some b => BV.wrap (range array) (rho array i) = BV.wrap (range array) b
  | None => allowFreeValues a = true \/ BV.wrap (range array) (rho array i) = 0
  end.

Lemma contents_agrees a : agrees (contents a) a.
Proof. intros array i Hi. unfold contents. destruct (byte_of a array i); [done|now right]. Qed.

Lemma binding_elem bs array values : binding bs array = Some values -> (array, values) ∈ bs.
Proof.
  induction bs as [|[a' vs] bs IH]; cbn; [done|]. case_decide; [intros [= <-]; subst; now left|].
  intros H'. right. auto.
Qed.

Lemma byte_of_range a array i b : bytes_ok a = true -> byte_of a array i = Some b -> 0 <= b < 256.
Proof.
  unfold bytes_ok, byte_of. rewrite forallb_forall. intros Hok H.
  apply bind_Some in H as (values & Hv & Hb). apply binding_elem, list_elem_of_In, Hok in Hv.
  rewrite forallb_forall in Hv. apply list_elem_of_lookup_2, list_elem_of_In, Hv in Hb.
  cbn in Hb. inv_eval. lia.
Qed.

Context {AS : APIntSpec A}.

Lemma alloc_byte b w : 0 < w -> 0 <= b < 256 -> ConstantExpr'alloc b w = APInt w (BV.wrap w b).
Proof. intros. unfold ConstantExpr'alloc. now rewrite ap_make_spec by lia. Qed.

Lemma evaluate_byte_ok rho full a r i :
  agrees rho a -> bytes_ok a = true -> (full = true -> allowFreeValues a = false) ->
  array_ok r = true -> isConstantArray r = false -> domain r <= 32 -> 0 <= i < 2 ^ domain r ->
  evaluates rho full (APInt (range r) (BV.wrap (range r) (rho r i))) (Assignment_evaluate_byte a r i).
Proof.
  intros Hag Hby Hfull Hr Hc Hd Hi. pose proof (array_ok_range r Hr) as Hrange.
  specialize (Hag r i (proj1 Hi)). unfold Assignment_evaluate_byte. fold (byte_of a r i).
  destruct (byte_of a r i) as [b|] eqn:Eb.
  { rewrite alloc_byte by (eauto using byte_of_range || lia). rewrite Hag.
    apply evaluates_const. now apply BV.wrap_in_range. }
  destruct (allowFreeValues a) eqn:Ef.
  - split; [|intros H; discriminate (Hfull H)]. apply ReadExpr'create_sound.
    pose proof (array_ok_domain_pos r Hr). rewrite alloc_index by lia.
    eapply eval_read_expr; [reflexivity|now apply eval_const, BV.in_range_spec|done|done|].
    unfold read_value, initial_value. cbn. now rewrite Hc.
  - destruct Hag as [|Hz]; [done|]. rewrite Hz, make_zero by done.
    apply evaluates_const. now apply zero_valid.
Qed.

Lemma no_tables_ok rho Res : tables_ok rho Res no_tables.
Proof. constructor; constructor. Qed.

Lemma evaluate_ok rho full a e v st :
  agrees rho a -> bytes_ok a = true -> (full = true -> allowFreeValues a = false) ->
  evaluable full e = true -> eval rho e = Some v -> tables_ok rho (evaluates rho full) st ->
  exists r st', visit UseVisitorHash (evaluate_fuel e) (ExprEvaluator (Assignment_evaluate_byte a)) e st =
    Some (r, st') /\ evaluates rho full v r /\ tables_ok rho (evaluates rho full) st'.
Proof.
  intros Hag Hby Hfull Hev He Hst.
  pose proof (evaluator_visit_ok rho full (Assignment_evaluate_byte a)) as Hok.
  specialize (Hok ltac:(intros; now apply evaluate_byte_ok) (evaluate_fuel e) e v ltac:(done) Hev He st Hst).
  destruct (visit _ _ _ _ _) as [[r st']|]; [|done]. eauto.
Qed.

(** C14: evaluation under an assignment is sound and terminates: for every
    contents of the arrays that agree with the bindings, the result has the
    value of the expression. *)
Theorem Assignment_evaluate_sound rho a e v :
  agrees rho a -> bytes_ok a = true -> evaluable false e = true -> eval rho e = Some v ->
  exists r, Assignment_evaluate a e = Some r /\ eval rho r = Some v.
Proof.
  intros Hag Hby Hev He. unfold Assignment_evaluate.
  destruct (evaluate_ok rho false a e v no_tables) as (r & st & -> & [Hr _] & _);
    auto using no_tables_ok; [done|].
  exists r. done.
Qed.


Lemma satisfies_loop_spec a es st :
  allowFreeValues a = false -> bytes_ok a = true ->
  Forall (fun e => evaluable true e = true /\ exists v, eval (contents a) e = Some v) es ->
  tables_ok (contents a) (evaluates (contents a) true) st ->
  exists b, satisfies_loop a es st = Some b /\
    (b = true <-> Forall (fun e => eval (contents a) e = Some (APInt 1 1)) es).
Proof.
  intros Hf Hby Hes. revert st. induction Hes as [|e es [Hev [v He]] Hes IH]; intros st Hst; cbn [satisfies_loop].
  { exists true. split; [done|]. split; [constructor|done]. }
  destruct (evaluate_ok (contents a) true a e v st) as (r & st' & -> & [Hr Hc] & Hst'); try done.
  { apply contents_agrees. }
  specialize (Hc eq_refl). destruct r as [c| | | | | | | | |]; try discriminate Hc.
  apply eval_const_inv in Hr as [-> Vv]. cbn [Expr_isTrue]. rewrite isTrue_spec by done.
  assert (Htrue : (ap_width c =? 1) && negb (ap_val c =? 0) = true <-> c = APInt 1 1).
  { rewrite andb_true_iff, negb_true_iff, Z.eqb_eq, Z.eqb_neq. split; [|intros ->; done].
    intros [Hw Hz]. destruct (width1_cases c Vv Hw); [done|]. destruct c; cbn in *. congruence. }
  destruct (_ && _).
  - destruct (IH st' Hst') as (b & -> & Hb). exists b. split; [done|]. rewrite Hb, Forall_cons.
    destruct Htrue as [Ht _]. specialize (Ht eq_refl). subst c. tauto.
  - exists false. split; [done|]. split; [done|]. rewrite Forall_cons. intros [H _].
    rewrite He in H. injection H as ->. destruct Htrue as [_ Ht]. discriminate (Ht eq_refl).
Qed.

(** [Assignment::satisfies] decides satisfaction: on expressions that have a
    value it returns, with one table for all of them, whether every one is
    true under the assignment. *)
Theorem Assignment_satisfies_correct a es :
  allowFreeValues a = false -> bytes_ok a = true ->
  Forall (fun e => evaluable true e = true /\ exists v, eval (contents a) e = Some v) es ->
  exists b, Assignment_satisfies a es = Some b /\
    (b = true <-> Forall (fun e => eval (contents a) e = Some (APInt 1 1)) es).
Proof. intros. apply satisfies_loop_spec; auto. apply no_tables_ok. Qed.

(** A [NotOptimizedExpr] over a constant is not folded: [visitExpr] finds
    constant kids and rebuilds the node, and the rebuilt node is returned
    before [visitExprPost] could drop it. *)
Theorem evaluate_opaque_constant a c :
  Assignment_evaluate a (NotOptimizedExpr (ConstantExpr c)) = Some (NotOptimizedExpr (ConstantExpr c)).
Proof. unfold Assignment_evaluate. now destruct UseVisitorHash. Qed.

(** *** Constraints from an assignment *)

(** The arrays a solver binds. *)
Definition bindable (array : Array) : bool :=
  array_ok array && negb (isConstantArray array) && (domain array <=? 32) && (size array <=? 2 ^ domain array).

Lemma byte_constraint_eval rho array i b :
  bindable array = true -> 0 <= i < size array -> 0 <= b < 256 ->
  eval rho (EqExpr'create
              (ReadExpr'create (mkUpdateList array un_null)
                 (ConstantExpr (ConstantExpr'alloc i (domain array))))
              (ConstantExpr (ConstantExpr'alloc b (range array)))) =
  Some (APInt 1 (b2z (BV.wrap (range array) (rho array i) =? BV.wrap (range array) b))).
Proof.
  unfold bindable. rewrite !andb_true_iff, !Z.leb_le, negb_true_iff. intros [[[Hok Hc] Hd] Hs] Hi Hb.
  pose proof (array_ok_range _ Hok). pose proof (array_ok_domain_pos _ Hok).
  apply EqExpr'create_sound. rewrite (alloc_byte b (range array)) by lia.
  eapply (eval_compare_at _ Eq); [|apply eval_const; now apply BV.wrap_in_range].
  apply ReadExpr'create_sound. rewrite alloc_index by lia.
  eapply eval_read_expr; [reflexivity|apply eval_const, BV.in_range_spec; cbn [ap_width ap_val]; lia|done|done|].
  unfold read_value, initial_value. cbn. now rewrite Hc.
Qed.

Lemma constraints_of_binding_spec rho array values cs :
  bindable array = true -> forallb (fun b => (0 <=? b) && (b <? 256)) values = true ->
  constraints_of_binding array values = Some cs ->
  Forall (fun c => eval rho c = Some (APInt 1 1)) cs <->
  forall i b, 0 <= i < size array -> values !! Z.to_nat i = Some b ->
    BV.wrap (range array) (rho array i) = BV.wrap (range array) b.
Proof.
  intros Hb Hbytes Hcs. unfold constraints_of_binding in Hcs. apply mapM_Some_1 in Hcs.
  assert (Hb1 : forall z : bool, APInt 1 (b2z z) = APInt 1 1 <-> z = true) by now intros [].
  assert (Hval : forall i b, 0 <= i < size array -> values !! Z.to_nat i = Some b ->
    exists c, c ∈ cs /\ eval rho c = Some (APInt 1
      (b2z (BV.wrap (range array) (rho array i) =? BV.wrap (range array) b)))).
  { intros i b Hi Hbi.
    destruct (Forall2_lookup_l _ _ _ (Z.to_nat i) (Z.to_nat i) Hcs) as (c & Hc & Hcv); [apply lookup_seq; lia|].
    rewrite Hbi in Hcv. cbn in Hcv. injection Hcv as <-. rewrite Z2Nat.id in Hc by lia.
    eexists. split; [exact (list_elem_of_lookup_2 _ _ _ Hc)|].
    apply byte_constraint_eval; [done..|]. rewrite forallb_forall in Hbytes.
    apply list_elem_of_lookup_2, list_elem_of_In, Hbytes in Hbi. inv_eval. lia. }
  rewrite Forall_forall. split.
  - intros Hall i b Hi Hbi. destruct (Hval i b Hi Hbi) as (c & Hc & Hev).
    rewrite (Hall c Hc) in Hev. injection Hev as Hev. apply Z.eqb_eq. now destruct (_ =? _).
  - intros Hall c Hc. apply list_elem_of_lookup in Hc as [j Hj].
    destruct (Forall2_lookup_r _ _ _ _ _ Hcs Hj) as (i & Hi & Hcv).
    apply lookup_seq in Hi as [-> Hlt]. apply bind_Some in Hcv as (b & Hbj & [= <-]).
    rewrite byte_constraint_eval; [|done|lia|].
    2:{ rewrite forallb_forall in Hbytes. apply list_elem_of_lookup_2, list_elem_of_In, Hbytes in Hbj.
        inv_eval. lia. }
    rewrite (Hall (Z.of_nat j) b), Z.eqb_refl; [done|lia|]. now rewrite Nat2Z.id.
Qed.

(** The constraints made from an assignment say exactly what it binds: array
    contents make all of them true iff they have every bound byte. *)
Theorem createConstraintsFromAssignment_exact rho a cs :
  bytes_ok a = true -> Forall (fun p => bindable p.1 = true) (bindings a) ->
  createConstraintsFromAssignment a = Some cs ->
  Forall (fun c => eval rho c = Some (APInt 1 1)) cs <->
  forall array values i b, (array, values) ∈ bindings a -> 0 <= i < size array ->
    values !! Z.to_nat i = Some b ->
    BV.wrap (range array) (rho array i) = BV.wrap (range array) b.
Proof.
  unfold bytes_ok, createConstraintsFromAssignment. intros Hby Hbind Hcs.
  apply fmap_Some in Hcs as (css & Hcss & ->). apply mapM_Some_1 in Hcss.
  induction Hcss as [|[array values] cs bs css Hcs Hcss IH]; cbn [concat].
  { split; [set_solver|constructor]. }
  cbn in Hby. apply andb_true_iff in Hby as [Hv Hby]. apply Forall_cons in Hbind as [Ha Hbind].
  rewrite Forall_app, (constraints_of_binding_spec rho array values cs Ha Hv Hcs), (IH Hby Hbind).
  clear. split.
  - intros [H1 H2] a vs i b [[= -> ->]|H]%elem_of_cons; eauto.
  - intros H. split; intros; eapply H; eauto; [now left|now right].
Qed.

End Evaluator.

(** ** Concrete evaluations *)

Definition buf : Array := mkArray 1 "buf" 4 Int32 Int8 [].
Definition no_const_array_opt : ExprOptions := {| ConstArrayOpt := false |}.
Definition read_at (i : Z) : Expr := ReadExpr buf un_null (ConstantExpr (APInt Int32 i)).
(** [buf[1] + 2 == 9], with the sum hidden from optimizations. *)
Definition sample_expr : Expr :=
  CmpExpr Eq (NotOptimizedExpr (BinaryExpr Add (read_at 1) (ConstantExpr (APInt 8 2))))
    (ConstantExpr (APInt 8 9)).
Definition sample_assignment : Assignment := mkAssignment false [(buf, [3; 7; 0; 255])].

Lemma Assignment_evaluate_sound_witness :
  exists r, Assignment_evaluate (A:=apint_ref) (Opts:=no_const_array_opt) true sample_assignment sample_expr = Some r /\
    eval (contents sample_assignment) r = Some (APInt 1 1).
Proof.
  apply (Assignment_evaluate_sound (A:=apint_ref) (Opts:=no_const_array_opt) (AS:=apint_ref_spec) true
    (contents sample_assignment) sample_assignment sample_expr (APInt 1 1));
    [apply contents_agrees|reflexivity..].
Defined.


Lemma Assignment_satisfies_correct_witness :
  exists b, Assignment_satisfies (A:=apint_ref) (Opts:=no_const_array_opt) true sample_assignment
    [sample_expr; CmpExpr Ult (read_at 0) (read_at 3)] = Some b /\
    (b = true <-> Forall (fun e => eval (contents sample_assignment) e = Some (APInt 1 1))
       [sample_expr; CmpExpr Ult (read_at 0) (read_at 3)]).
Proof.
  apply (Assignment_satisfies_correct (A:=apint_ref) (Opts:=no_const_array_opt) (AS:=apint_ref_spec) true);
    [reflexivity..|].
  repeat (constructor; [split; [reflexivity|eexists; reflexivity]|]). constructor.
Defined.

Lemma createConstraintsFromAssignment_exact_witness :
  exists cs, createConstraintsFromAssignment (A:=apint_ref) (Opts:=no_const_array_opt) sample_assignment = Some cs /\
    (Forall (fun c => eval (contents sample_assignment) c = Some (APInt 1 1)) cs <->
     forall array values i b, (array, values) ∈ bindings sample_assignment -> 0 <= i < size array ->
       values !! Z.to_nat i = Some b ->
       BV.wrap (range array) (contents sample_assignment array i) = BV.wrap (range array) b).
Proof.
  eexists. split; [reflexivity|].
  apply (createConstraintsFromAssignment_exact (A:=apint_ref) (Opts:=no_const_array_opt)
    (AS:=apint_ref_spec) (contents sample_assignment) sample_assignment); [reflexivity| |reflexivity].
  repeat constructor.
Defined.
