(* ===== verification/ExprUtil.v ===== *)
(** * The reads of an expression

    [findReads] of src/lib/Expr/ExprUtil.cpp: a depth-first traversal with an
    explicit stack, a set of visited expressions and a set of visited update
    lists.  The sets are lists searched with the comparison the source uses;
    the set of update lists holds pointers there and contents here, which
    differ only for two lists with the same contents, and traversing the second
    one adds nothing, since its expressions are visited already.

    [findReads_spec]: the traversal ends, and returns each read that occurs in
    the expression once. *)

From stdpp Require Import strings.
From S2P Require Import Prelude APInt Expr ExprOrder ExprSem ExprCreate ExprRebuildSound ExprVisitor.

(** [ref<ReadExpr>] *)
Record Read := mkRead { re_root : Array; re_head : UpdateNode; re_index : Expr }.
Add Printing Constructor Read.

Definition read_expr (re : Read) : Expr := ReadExpr (re_root re) (re_head re) (re_index re).

#[export] Instance is_read_dec e : Decision (exists r, read_expr r = e).
Proof.
  destruct e; try (right; intros [[] H]; discriminate H).
  left. now eexists (mkRead _ _ _).
Defined.

Section FindReads.
Context `{A : APIntOps}.

(** [stack] (its top first) and [visited]. *)
Definition Work : Type := list Expr * list Expr.

(** [if (!isa<ConstantExpr>(k) && visited.insert(k).second) stack.push_back(k)] *)
Definition push (w : Work) (k : Expr) : Work :=
  if negb (is_constant k) && negb (existsb (Expr_eqb k) w.2) then (k :: w.1, k :: w.2) else w.

Definition push_all (ks : list Expr) (w : Work) : Work := foldl push w ks.

(** The loop over the update nodes from [un]. *)
Fixpoint push_updates (un : UpdateNode) (w : Work) : Work :=
  match un with
  | un_null => w
  | un_node next index value => push_updates next (push (push w index) value)
  end.

(** The [while] loop; [None] when the fuel is used up. *)
Fixpoint findReads_loop (fuel : nat) (visitUpdates : bool) (w : Work) (updates : list UpdateNode)
    (results : list Read) : option (list Read) :=
  match w.1, fuel with
  | [], _ => Some results
  | _, O => None
  | top :: stack, S n =>
    match top with
    | ReadExpr root head index =>
      let results := results ++ [mkRead root head index] in
      let w := push (stack, w.2) index in
      if visitUpdates && negb (existsb (UpdateNode_eqb head) updates)
      then findReads_loop n visitUpdates (push_updates head w) (head :: updates) results
      else findReads_loop n visitUpdates w updates results
    | _ => findReads_loop n visitUpdates (push_all (kids top) (stack, w.2)) updates results
    end
  end.

(** The number of iterations is at most the number of nodes. *)
Definition findReads (e : Expr) (visitUpdates : bool) : option (list Read) :=
  findReads_loop (esize e) visitUpdates (push ([], []) e) [] [].

(** ** Specification *)

Fixpoint un_exprs (u : UpdateNode) : list Expr :=
  match u with un_null => [] | un_node n i v => i :: v :: un_exprs n end.

(** The operands the traversal descends into. *)
Definition operands (visitUpdates : bool) (e : Expr) : list Expr :=
  match e with
  | ReadExpr _ h i => i :: (if visitUpdates then un_exprs h else [])
  | _ => kids e
  end.

(** [x] occurs in [e]. *)
Inductive occurs (visitUpdates : bool) : Expr -> Expr -> Prop :=
| occurs_refl e : occurs visitUpdates e e
| occurs_operand e k x : k ∈ operands visitUpdates e -> occurs visitUpdates k x -> occurs visitUpdates e x.

Lemma occurs_trans vu a b c : occurs vu a b -> occurs vu b c -> occurs vu a c.
Proof. induction 1; [done|]. intros. econstructor; eauto. Qed.

Lemma un_exprs_arrays u k : k ∈ un_exprs u -> arrays k ⊆ un_arrays u.
Proof. induction u; cbn; set_solver. Qed.

Lemma operands_arrays vu e k : k ∈ operands vu e -> arrays k ⊆ arrays e.
Proof.
  destruct e; cbn; try set_solver. intros [->|Hk]%elem_of_cons; [set_solver|].
  destruct vu; [|set_solver]. apply un_exprs_arrays in Hk. set_solver.
Qed.

Lemma occurs_arrays vu e x : occurs vu e x -> arrays x ⊆ arrays e.
Proof. induction 1 as [|e k x Hk _ IH]; [done|]. apply operands_arrays in Hk. set_solver. Qed.

Lemma un_exprs_wf u : un_wf_consts u = true -> Forall (fun x => wf_consts x = true) (un_exprs u).
Proof.
  induction u; cbn; [constructor|]. rewrite !andb_true_iff. intros [[? ?] ?].
  repeat constructor; auto.
Qed.

Lemma operands_wf vu e : wf_consts e = true -> Forall (fun x => wf_consts x = true) (operands vu e).
Proof.
  destruct e; cbn; rewrite ?andb_true_iff; intros; destruct_and?; repeat constructor; auto.
  destruct vu; [now apply un_exprs_wf|constructor].
Qed.

Lemma occurs_wf vu e x : occurs vu e x -> wf_consts e = true -> wf_consts x = true.
Proof.
  induction 1 as [|e k x Hk _ IH]; [done|]. intros He. apply IH.
  apply (operands_wf vu) in He. rewrite Forall_forall in He. auto.
Qed.

Definition total_size (l : list Expr) : nat := sum_list_with esize l.

Lemma un_exprs_size u : (total_size (un_exprs u) <= un_esize u)%nat.
Proof. unfold total_size. induction u; cbn; lia. Qed.

Lemma operands_size vu e : (total_size (operands vu e) < esize e)%nat.
Proof.
  destruct e; cbn; try lia. unfold total_size. cbn.
  destruct vu; [pose proof (un_exprs_size head); unfold total_size in *; lia|cbn; lia].
Qed.

Lemma push_updates_all u w : push_updates u w = push_all (un_exprs u) w.
Proof. revert w. induction u; intros w; cbn; auto. Qed.

Context {AS : APIntSpec A}.

Lemma existsb_Expr_eqb k l :
  wf_consts k = true -> Forall (fun x => wf_consts x = true) l ->
  existsb (Expr_eqb k) l = true <-> k ∈ l.
Proof.
  intros Hk Hl. rewrite existsb_exists. rewrite Forall_forall in Hl. split.
  - intros (x & Hx & E). apply list_elem_of_In in Hx. apply Expr_eqb_eq in E as ->; auto.
  - intros H. exists k. split; [now apply list_elem_of_In|]. apply Expr_eqb_eq; auto.
Qed.

(** [push_all] adds the operands that are not visited, once each. *)
Lemma push_all_spec ks stk vis :
  Forall (fun x => wf_consts x = true) ks -> Forall (fun x => wf_consts x = true) vis -> NoDup vis ->
  exists new, push_all ks (stk, vis) = (new ++ stk, new ++ vis) /\
    (forall x, x ∈ new -> x ∈ ks /\ is_constant x = false) /\ NoDup (new ++ vis) /\
    (forall x, x ∈ ks -> is_constant x = false -> x ∈ new ++ vis) /\
    (total_size new <= total_size ks)%nat.
Proof.
  intros Hks. revert stk vis. induction Hks as [|k ks Hk Hks IH]; intros stk vis Hv Hn.
  { exists []. cbn. split_and!; auto; set_solver. }
  unfold push_all. cbn [foldl]. unfold push at 2. cbn [fst snd].
  destruct (negb (is_constant k) && negb (existsb (Expr_eqb k) vis)) eqn:E.
  - apply andb_true_iff in E as [E1 E2]. apply negb_true_iff in E1, E2.
    assert (Hni : k ∉ vis) by (intros H; apply existsb_Expr_eqb in H; auto; congruence).
    destruct (IH (k :: stk) (k :: vis)) as (new & Heq & Hin & Hnd & Hall & Hsz);
      [now constructor|now constructor|].
    exists (new ++ [k]). fold (push_all ks (k :: stk, k :: vis)). rewrite Heq, <- !app_assoc. cbn.
    split_and!; auto.
    + intros x [H| ->%list_elem_of_singleton]%elem_of_app; [|split; [now left|done]].
      destruct (Hin x H). split; [now right|done].
    + intros x [->|H]%elem_of_cons Hx; [set_solver|auto].
    + unfold total_size in *. rewrite sum_list_with_app. cbn. lia.
  - destruct (IH stk vis Hv Hn) as (new & Heq & Hin & Hnd & Hall & Hsz). exists new.
    fold (push_all ks (stk, vis)). split_and!; auto.
    + intros x H. destruct (Hin x H). split; [now right|done].
    + intros x [->|H]%elem_of_cons Hx; [|auto]. rewrite Hx in E. cbn in E.
      apply negb_false_iff, existsb_Expr_eqb in E; auto. set_solver.
    + unfold total_size in *. cbn. lia.
Qed.

Lemma push_all_mono ks stack vis : vis ⊆ (push_all ks (stack, vis)).2.
Proof.
  unfold push_all. revert stack vis. induction ks as [|k ks IH]; intros stack vis; cbn; [done|].
  unfold push at 2. cbn. destruct (_ && _); [|apply IH]. etransitivity; [|apply IH]. set_solver.
Qed.

Section Loop.
Context (vu : bool) (e : Expr) (wf_e : wf_consts e = true).

(** The invariant of the loop: what is visited and not on the stack has its
    operands visited, and the results are the reads among it. *)
Record loop_inv (w : Work) (updates : list UpdateNode) (results : list Read) : Prop := {
  stack_visited : w.1 ⊆ w.2;
  visited_occurs x : x ∈ w.2 -> occurs vu e x /\ is_constant x = false;
  visited_once : NoDup w.2;
  stack_once : NoDup w.1;
  processed x k : x ∈ w.2 -> x ∉ w.1 -> k ∈ operands vu x -> is_constant k = false -> k ∈ w.2;
  results_spec r : r ∈ results <-> read_expr r ∈ w.2 /\ read_expr r ∉ w.1;
  results_once : NoDup results;
  updates_wf : Forall (fun u => un_wf_consts u = true) updates;
  updates_done u k : u ∈ updates -> k ∈ un_exprs u -> is_constant k = false -> k ∈ w.2
}.

Lemma visited_wf w us rs : loop_inv w us rs -> Forall (fun x => wf_consts x = true) w.2.
Proof.
  intros H. apply Forall_forall. intros x Hx. eapply occurs_wf; [|exact wf_e].
  now apply (visited_occurs _ _ _ H).
Qed.

(** Popping [top], with its operands [ks] pushed and [new_results] recorded. *)
Lemma loop_inv_step top stack vis us rs us' rs' ks :
  loop_inv (top :: stack, vis) us rs ->
  ks ⊆ operands vu top ->
  (forall k, k ∈ operands vu top -> is_constant k = false -> k ∈ ks \/ k ∈ vis) ->
  (forall r, r ∈ rs' <-> r ∈ rs \/ read_expr r = top) -> NoDup rs' ->
  Forall (fun u => un_wf_consts u = true) us' ->
  (forall u k, u ∈ us' -> k ∈ un_exprs u -> is_constant k = false -> k ∈ ks \/ k ∈ vis) ->
  loop_inv (push_all ks (stack, vis)) us' rs' /\
  (total_size (push_all ks (stack, vis)).1 <= total_size ks + total_size stack)%nat.
Proof.
  intros H Hks Hops Hrs Hnd Hus Hdone.
  assert (Ht : top ∈ vis) by (apply (stack_visited _ _ _ H); cbn; now left).
  destruct (visited_occurs _ _ _ H top Ht) as [Hoc _].
  assert (Hkw : Forall (fun x => wf_consts x = true) ks).
  { apply Forall_forall. intros x Hx. pose proof (operands_wf vu top (occurs_wf _ _ _ Hoc wf_e)) as F.
    rewrite Forall_forall in F. auto. }
  pose proof (visited_wf _ _ _ H) as Hvw. pose proof (visited_once _ _ _ H) as Hvn.
  pose proof (stack_once _ _ _ H) as Hsn. cbn in Hvw, Hvn, Hsn. apply NoDup_cons in Hsn as [Hts Hsn].
  destruct (push_all_spec ks stack vis Hkw Hvw Hvn) as (new & -> & Hin & Hnn & Hall & Hsz).
  assert (Hnv : forall x, x ∈ new -> x ∉ vis) by (apply NoDup_app in Hnn; tauto).
  assert (Hsv : stack ⊆ vis) by (intros x Hx; apply (stack_visited _ _ _ H); now right).
  split; [|cbn; unfold total_size in *; rewrite sum_list_with_app; lia].
  constructor; cbn.
  - set_solver.
  - intros x [Hx|Hx]%elem_of_app; [|now apply (visited_occurs _ _ _ H)].
    destruct (Hin x Hx) as [Hx' Hc]. split; [|done].
    eapply occurs_trans; [exact Hoc|]. econstructor; [apply Hks, Hx'|constructor].
  - done.
  - apply NoDup_app. apply NoDup_app in Hnn as (? & ? & ?). split_and!; auto. set_solver.
  - intros x k Hx Hns Hk Hc. destruct (decide (x = top)) as [->|Hne].
    + destruct (Hops k Hk Hc); [auto|set_solver].
    + apply elem_of_app. right. apply (processed _ _ _ H x k); cbn; auto; set_solver.
  - intros r. rewrite Hrs, (results_spec _ _ _ H). cbn. split.
    + intros [[H1 H2]| ->]; [|set_solver]. split; [set_solver|]. intros [Hx|Hx]%elem_of_app; [|set_solver].
      exact (Hnv _ Hx H1).
    + intros [H1 H2]. destruct (decide (read_expr r = top)); [now right|left]. set_solver.
  - done.
  - done.
  - intros u k Hu Hk Hc. destruct (Hdone u k Hu Hk Hc); [auto|set_solver].
Qed.

Lemma un_eqb_elem h us :
  un_wf_consts h = true -> Forall (fun u => un_wf_consts u = true) us ->
  existsb (UpdateNode_eqb h) us = true -> h ∈ us.
Proof.
  intros Hh Hus (u & Hu & E)%existsb_exists. apply list_elem_of_In in Hu. rewrite Forall_forall in Hus.
  apply Z.eqb_eq, compare_eq_mut in E as ->; auto.
Qed.

Lemma read_results_once w us rs top stack r :
  loop_inv w us rs -> w.1 = top :: stack -> read_expr r = top -> NoDup rs -> NoDup (rs ++ [r]).
Proof.
  intros H Hw Hr Hn. apply NoDup_app. split_and!; [done| |apply NoDup_singleton].
  intros x Hx ->%list_elem_of_singleton. apply (results_spec _ _ _ H) in Hx as [_ Hx].
  apply Hx. rewrite Hw, Hr. now left.
Qed.

Lemma in_results_snoc rs r top : read_expr r = top ->
  forall x, x ∈ rs ++ [r] <-> x ∈ rs \/ read_expr x = top.
Proof.
  intros <- x. rewrite elem_of_app, list_elem_of_singleton. split; [intros [?| ->]; auto|].
  intros [?|E]; [auto|right]. destruct x, r. unfold read_expr in E. cbn in E. now simplify_eq.
Qed.

(** The rest of the loop ends in a state with an empty stack that keeps [vis]. *)
Definition finishes (n : nat) (w : Work) (us : list UpdateNode) (rs : list Read) (vis : list Expr) : Prop :=
  exists rs' w' us', findReads_loop n vu w us rs = Some rs' /\ loop_inv w' us' rs' /\ w'.1 = [] /\ vis ⊆ w'.2.

Lemma iteration n top stack vis us rs us' rs' ks :
  (forall w us rs, loop_inv w us rs -> (total_size w.1 <= n)%nat -> finishes n w us rs w.2) ->
  loop_inv (top :: stack, vis) us rs -> (esize top + total_size stack <= S n)%nat ->
  ks ⊆ operands vu top -> (total_size ks <= total_size (operands vu top))%nat ->
  (forall k, k ∈ operands vu top -> is_constant k = false -> k ∈ ks \/ k ∈ vis) ->
  (forall r, r ∈ rs' <-> r ∈ rs \/ read_expr r = top) -> NoDup rs' ->
  Forall (fun u => un_wf_consts u = true) us' ->
  (forall u k, u ∈ us' -> k ∈ un_exprs u -> is_constant k = false -> k ∈ ks \/ k ∈ vis) ->
  finishes n (push_all ks (stack, vis)) us' rs' vis.
Proof.
  intros IH H Hf Hks Hsk Hops Hrs Hnd Hus Hdone.
  destruct (loop_inv_step top stack vis us rs us' rs' ks) as [Hi Hs]; auto.
  pose proof (operands_size vu top).
  destruct (IH _ us' rs' Hi) as (rs'' & w' & us'' & E & Hi' & He0 & Hsub); [lia|].
  exists rs'', w', us''. split_and!; auto. etransitivity; [exact (push_all_mono ks stack vis)|exact Hsub].
Qed.

Lemma loop_spec fuel w us rs :
  loop_inv w us rs -> (total_size w.1 <= fuel)%nat -> finishes fuel w us rs w.2.
Proof.
  revert w us rs. induction fuel as [|n IH]; intros [[|top stack] vis] us rs H Hf;
    try (exists rs, ([], vis), us; cbn; auto; fail);
    unfold total_size in Hf; cbn in Hf; fold (total_size stack) in Hf;
    [pose proof (operands_size vu top); lia|].
  pose proof (results_once _ _ _ H) as Hro. pose proof (updates_wf _ _ _ H) as Huw.
  destruct (visited_occurs _ _ _ H top) as [Hoc Htc]; [apply (stack_visited _ _ _ H); now left|].
  pose proof (occurs_wf _ _ _ Hoc wf_e) as Hwt.
  assert (Hold : forall (ks : list Expr) u k, u ∈ us -> k ∈ un_exprs u -> is_constant k = false -> k ∈ ks \/ k ∈ vis)
    by (intros ks u k Hu Hk Hc; right; exact (updates_done _ _ _ H u k Hu Hk Hc)).
  unfold finishes. cbn [findReads_loop fst snd].
  destruct (decide (exists r, read_expr r = top)) as [[[root head index] <-]|Hnr].
  - cbn in Hwt. apply andb_true_iff in Hwt as [Hhw Hiw]. unfold read_expr. cbn.
    assert (Hrn : NoDup (rs ++ [mkRead root head index]))
      by (eapply read_results_once; [exact H|reflexivity..|done]).
    change (push (stack, vis) index) with (push_all [index] (stack, vis)).
    destruct (vu && negb (existsb (UpdateNode_eqb head) us)) eqn:E.
    + apply andb_true_iff in E as [Hvu E]. rewrite push_updates_all. unfold push_all at 1 2.
      rewrite <- foldl_app. eapply (iteration n _ _ _ _ _ (head :: us)); [exact IH|exact H|done|..];
        cbn; rewrite ?Hvu; auto.
      * now apply in_results_snoc.
      * intros u k [->|Hu]%elem_of_cons Hk Hc; [left; set_solver|exact (Hold _ u k Hu Hk Hc)].
    + eapply iteration; [exact IH|exact H|done|cbn; set_solver|unfold total_size; cbn; lia| |
        now apply in_results_snoc|done|done|exact (Hold _)].
      cbn. intros k [->|Hk]%elem_of_cons Hc; [left; now left|right]. destruct vu; [|set_solver].
      apply negb_false_iff, un_eqb_elem in E; auto. now apply (updates_done _ _ _ H head).
  - assert (Hgo : finishes n (push_all (operands vu top) (stack, vis)) us rs vis).
    { eapply iteration; [exact IH|exact H|done|done|done|auto| |done|done|exact (Hold _)].
      intros r. split; [auto|]. intros [?|Hr]; [done|]. destruct Hnr. eauto. }
    destruct top; try exact Hgo. destruct Hnr. now exists (mkRead root head top).
Qed.

End Loop.

Lemma loop_inv_done vu e us rs w x :
  loop_inv vu e w us rs -> w.1 = [] -> occurs vu e x -> (e ∈ w.2 \/ is_constant e = true) ->
  is_constant x = false -> x ∈ w.2.
Proof.
  intros H H0 Hx He Hc.
  assert (Hgo : forall a b, occurs vu a b -> a ∈ w.2 \/ is_constant a = true -> is_constant b = false -> b ∈ w.2).
  { clear x Hx He Hc. induction 1 as [a|a k b Hk _ IH]; intros Ha Hc; [destruct Ha; [done|congruence]|].
    apply IH; [|done]. destruct (is_constant k) eqn:Ek; [now right|left].
    destruct Ha as [Ha|Ha]; [|destruct a; discriminate || set_solver].
    apply (processed _ _ _ _ _ H a k); auto. rewrite H0. set_solver. }
  eauto.
Qed.

Lemma findReads_total vu e :
  wf_consts e = true ->
  exists results, findReads e vu = Some results /\ NoDup results /\
    forall r, r ∈ results <-> occurs vu e (read_expr r).
Proof.
  intros He. set (w0 := push ([], []) e).
  assert (Hw : is_constant e = true /\ w0 = ([], []) \/ is_constant e = false /\ w0 = ([e], [e])).
  { unfold w0, push. cbn. destruct (is_constant e); auto. }
  assert (Hi : loop_inv vu e w0 [] []).
  { destruct Hw as [[_ ->]|[Hc ->]]; constructor; cbn; try set_solver; try apply NoDup_nil_2;
      try apply NoDup_singleton; try apply Forall_nil_2.
    intros x ->%list_elem_of_singleton. split; [constructor|done]. }
  destruct (loop_spec vu e He (esize e) w0 [] [] Hi) as (rs & w & us & E & Hi' & H0 & Hsub).
  { destruct Hw as [[_ ->]|[_ ->]]; unfold total_size; cbn; lia. }
  exists rs. split_and!; [exact E|now apply (results_once _ _ _ _ _ Hi')|].
  intros r. rewrite (results_spec _ _ _ _ _ Hi'), H0. split.
  - intros [Hr _]. now apply (visited_occurs _ _ _ _ _ Hi').
  - intros Hr. split; [|set_solver]. eapply loop_inv_done; eauto.
    destruct Hw as [[Hc _]|[Hc Hw]]; [now right|left]. apply Hsub. rewrite Hw. now left.
Qed.

End FindReads.

(** The traversal of [findReads] ends within as many steps as there are
    nodes, and returns exactly the reads that occur in the expression (below
    update lists too when asked), each of them once. *)
Theorem findReads_spec `{A : APIntOps} {AS : APIntSpec A} (visitUpdates : bool) (e : Expr) :
  wf_consts e = true ->
  exists results, findReads e visitUpdates = Some results /\ NoDup results /\
    forall r, r ∈ results <-> occurs visitUpdates e (read_expr r).
Proof. apply findReads_total. Qed.

(** [buf[buf[0]]] with one write at [buf[1]] before it. *)
Definition sample_array : Array := mkArray 1 "buf" 4 Int32 Int8 [].
Definition sample_byte (u : UpdateNode) (i : Expr) : Expr := ReadExpr sample_array u i.
Definition sample_read : Expr :=
  sample_byte (un_node un_null (CastExpr ZExt (sample_byte un_null (ConstantExpr (APInt 32 1))) 32) (ConstantExpr (APInt 8 7)))
    (CastExpr ZExt (sample_byte un_null (ConstantExpr (APInt 32 0))) 32).

Lemma findReads_spec_witness :
  exists results, findReads (A:=apint_ref) sample_read true = Some results /\ length results = 3%nat /\
    NoDup results /\ forall r, r ∈ results <-> occurs true sample_read (read_expr r).
Proof.
  destruct (findReads_spec (A:=apint_ref) (AS:=apint_ref_spec) true sample_read eq_refl) as (rs & H & H').
  exists rs. split; [exact H|]. split; [|exact H'].
  vm_compute in H. injection H as <-. reflexivity.
Defined.
