(* ===== verification/ExprClosure.v ===== *)
(** * Properties of expressions that the constructors keep

    A property of expressions that looks at the nodes one by one (which arrays
    occur, which widths the indices have) is kept by the constructors the
    solvers call, since these only rearrange the nodes of their arguments and
    add comparisons, connectives and constants (src/lib/Expr/Expr.cpp). *)

From S2P Require Import Prelude APInt Expr ExprOrder ExprSem ExprCreate ExprVisitor ExprEvaluator.

(** The operations without a value for some operands. *)
Definition divides (k : ArithKind) : bool := match k with UDiv | SDiv | URem | SRem => true | _ => false end.

(** Divisions are left open: a property may ask more of their operands. *)
Class Structural (P : Expr -> Prop) : Prop := {
  st_const c : P (ConstantExpr c);
  st_binary k a b : divides k = false -> P (BinaryExpr k a b) <-> P a /\ P b;
  st_cmp k a b : P (CmpExpr k a b) <-> P a /\ P b;
  st_cast k a w : P (CastExpr k a w) <-> P a;
  st_read r h i : P (ReadExpr r h i) -> P i
}.

Create HintDb structural.

Section Closed.
Context `{A : APIntOps} `{Opts : ExprOptions} (P : Expr -> Prop) {SP : Structural P}.

Lemma st_BCREATE_R op pl pr cr l r :
  (forall x c, P x -> P (pl x c)) -> (forall c x, P x -> P (pr c x)) -> (forall x y, P x -> P y -> P (cr x y)) ->
  P l -> P r -> P (BCREATE_R op pl pr cr l r).
Proof. intros H1 H2 H3 Hl Hr. destruct l; destruct r; cbn; auto; apply st_const. Qed.

Lemma st_BCREATE op cr l r : (forall x y, P x -> P y -> P (cr x y)) -> P l -> P r -> P (BCREATE op cr l r).
Proof. intros H Hl Hr. destruct l; destruct r; cbn; auto; apply st_const. Qed.

Lemma st_binary_intro k a b : divides k = false -> P a -> P b -> P (BinaryExpr k a b).
Proof. intros. now apply st_binary. Qed.
Lemma st_cmp_intro k a b : P a -> P b -> P (CmpExpr k a b).
Proof. intros. now apply st_cmp. Qed.
Lemma st_constant c : P (ConstantExpr c).
Proof. apply st_const. Qed.
#[local] Hint Resolve st_constant st_binary_intro st_cmp_intro : structural.
#[local] Hint Extern 0 (divides _ = false) => reflexivity : structural.

Lemma st_And_partial x c : P x -> P (AndExpr_createPartial x c).
Proof. intros. unfold AndExpr_createPartial. repeat case_match; auto with structural. Qed.
Lemma st_Or_partial x c : P x -> P (OrExpr_createPartial x c).
Proof. intros. unfold OrExpr_createPartial. repeat case_match; auto with structural. Qed.
#[local] Hint Resolve st_And_partial st_Or_partial : structural.

Lemma st_And l r : P l -> P r -> P (AndExpr'create l r).
Proof. apply st_BCREATE_R; unfold AndExpr_createPartialR, AndExpr_create; auto with structural. Qed.
Lemma st_Or l r : P l -> P r -> P (OrExpr'create l r).
Proof. apply st_BCREATE_R; unfold OrExpr_createPartialR, OrExpr_create; auto with structural. Qed.
#[local] Hint Resolve st_And st_Or : structural.

Lemma st_Eq_create l r : P l -> P r -> P (EqExpr_create l r).
Proof. intros. unfold EqExpr_create. repeat case_match; auto with structural. Qed.
#[local] Hint Resolve st_Eq_create : structural.

Lemma st_TryConstArrayOpt_loop f iw cl vs : (forall c, P (f c)) -> forall i n res e, P res ->
  TryConstArrayOpt_loop f iw cl vs i n res = Some e -> P e.
Proof.
  intros Hf. induction vs as [|v vs IH]; cbn; intros i n res e Hres E; [now injection E as <-|].
  repeat case_match; try done; eauto with structural.
Qed.

Lemma st_Eq_partialR : forall r cl, P r -> P (EqExpr_createPartialR cl r).
Proof.
  induction r; intros cl Hr; cbn [EqExpr_createPartialR]; (destruct (_ =? Bool); [destruct (isTrue cl); [done|]|]);
    auto with structural.
  - pose proof (st_read _ _ _ Hr) as Hi. destruct ConstArrayOpt; [|auto with structural].
    unfold TryConstArrayOpt. case_match; [auto with structural|].
    destruct (TryConstArrayOpt_loop _ _ _ _ _ _ _) eqn:E; [|auto with structural].
    eapply st_TryConstArrayOpt_loop; [|apply st_const|exact E]. intros c. destruct r; auto with structural.
  - apply st_cast in Hr. destruct k; repeat case_match; subst; auto with structural.
  - destruct k; auto with structural. apply st_binary in Hr as [H1 H2]; [|done].
    apply st_And; [destruct r1|destruct r2]; auto with structural.
  - destruct k; auto with structural; destruct r1; auto with structural; apply st_binary in Hr as [H1 H2]; auto with structural.
  - pose proof Hr as Hr0. apply st_cmp in Hr as [H1 H2]. destruct k; auto with structural; destruct r1; auto with structural.
    case_match; auto with structural.
Qed.

Lemma st_Eq l r : P l -> P r -> P (EqExpr'create l r).
Proof. apply st_BCREATE_R; unfold EqExpr_createPartial; auto using st_Eq_partialR with structural. Qed.

Lemma st_IsZero e : P e -> P (createIsZero e).
Proof. intros. apply st_Eq; auto with structural. Qed.

Lemma st_Ne l r : P l -> P r -> P (NeExpr'create l r).
Proof. intros. apply st_Eq; [apply st_const|now apply st_Eq]. Qed.

Lemma st_Ule l r : P l -> P r -> P (UleExpr'create l r).
Proof. apply st_BCREATE. intros. unfold UleExpr_create. case_match; auto using st_IsZero with structural. Qed.

Lemma st_LShr l r : P l -> P r -> P (LShrExpr'create l r).
Proof. apply st_BCREATE. intros. unfold LShrExpr_create. case_match; auto using st_IsZero with structural. Qed.

Lemma st_Ult l r : P l -> P r -> P (UltExpr'create l r).
Proof.
  apply st_BCREATE. intros. unfold UltExpr_create. case_match; [apply st_And; [now apply st_IsZero|done]|now apply st_cmp].
Qed.

Lemma st_Xor_partialR cl r : P r -> P (XorExpr_createPartialR cl r).
Proof. intros. unfold XorExpr_createPartialR. repeat case_match; [done|now apply st_Eq_partialR|auto with structural]. Qed.

Lemma st_AddSub_partialR r : P r -> forall cl, P (AddExpr_createPartialR cl r) /\ P (SubExpr_createPartialR cl r).
Proof.
  induction r; intros Hr cl; cbn [AddExpr_createPartialR SubExpr_createPartialR];
    repeat match goal with |- context [if ?b then _ else _] => destruct b end; auto using st_Xor_partialR with structural;
    destruct k; auto with structural; destruct r1; auto with structural;
    (assert (H2 : P r2) by (apply st_binary in Hr as [_ H2]; done)); destruct r2;
    split; first [exact Hr|apply st_const|now apply st_Xor_partialR|now apply IHr2].
Qed.

Lemma st_Sub_constant x c : P x -> P (SubExpr'create x (ConstantExpr c)).
Proof.
  intros Hx. unfold SubExpr'create. destruct (esize x + _)%nat; cbn [SubExpr'create_fuel]; unfold BCREATE_R;
    destruct x; try apply st_const; unfold SubExpr_createPartial, AddExpr_createPartial; now apply st_AddSub_partialR.
Qed.

Lemma st_AddSub_const k x : P x -> P (AddExpr'create_constL k x) /\ P (SubExpr'create_constL k x) /\ P (SubExpr'create_constR x k).
Proof.
  intros Hx. unfold AddExpr'create_constL, SubExpr'create_constL, SubExpr'create_constR, SubExpr_createPartial, AddExpr_createPartial.
  split_and!; destruct x; try apply st_const; now apply st_AddSub_partialR.
Qed.

Lemma st_const_left k e c x : divides k = false -> P e -> const_left k e = Some (c, x) -> P x.
Proof.
  intros Hk He. unfold const_left. destruct e; try done. destruct e1; try done. case_decide; [|done].
  intros [= <- <-]. subst. now apply st_binary in He as [_ He].
Qed.

Lemma st_AddSub_body (addF subF : Expr -> Expr -> Expr) :
  (forall x y, P x -> P y -> P (addF x y) /\ P (subF x y)) -> forall l r, P l -> P r ->
  P (AddExpr_create_body addF subF l r) /\ P (SubExpr_create_body addF subF l r).
Proof.
  intros HF l r Hl Hr. unfold AddExpr_create_body, SubExpr_create_body, XorExpr_create.
  pose proof (fun k c x H => st_const_left k l c x H Hl) as Cl. pose proof (fun k c x H => st_const_left k r c x H Hr) as Cr.
  destruct (getWidth l =? Bool); [auto with structural|].
  assert (Hc : forall x, P x -> forall k, P (AddExpr'create_constL k x) /\ P (SubExpr'create_constL k x) /\ P (SubExpr'create_constR x k))
    by (intros; now apply st_AddSub_const).
  repeat match goal with |- context [const_left ?k ?e] =>
    let E := fresh "E" in destruct (const_left k e) as [[? ?]|] eqn:E; [apply Cl in E || apply Cr in E; [|done]|clear E] end;
    destruct (Expr_eqb l r); (split; [try (apply Hc, HF; done)|]); auto with structural; apply Hc, HF; done.
Qed.

Lemma st_AddSub_fuel n : forall l r, P l -> P r -> P (AddExpr'create_fuel n l r) /\ P (SubExpr'create_fuel n l r).
Proof.
  induction n as [|n IH]; intros l r Hl Hr; cbn [AddExpr'create_fuel SubExpr'create_fuel].
  all: split; apply st_BCREATE_R; try done; unfold SubExpr_createPartial, AddExpr_createPartial; intros;
    try (now apply st_AddSub_partialR); try (apply st_AddSub_body; auto; fail); auto with structural.
Qed.

Lemma st_Add l r : P l -> P r -> P (AddExpr'create l r).
Proof. intros. now apply st_AddSub_fuel. Qed.
Lemma st_Sub l r : P l -> P r -> P (SubExpr'create l r).
Proof. intros. now apply st_AddSub_fuel. Qed.

Lemma st_Xor l r : P l -> P r -> P (XorExpr'create l r).
Proof.
  apply st_BCREATE_R; unfold XorExpr_createPartial, XorExpr_create; auto using st_Xor_partialR with structural.
Qed.

Lemma st_Mul_partialR cl r : P r -> P (MulExpr_createPartialR cl r).
Proof. intros. unfold MulExpr_createPartialR, AndExpr_createPartialR. repeat case_match; auto with structural. Qed.

Lemma st_Mul l r : P l -> P r -> P (MulExpr'create l r).
Proof.
  apply st_BCREATE_R; unfold MulExpr_createPartial, MulExpr_create; auto using st_Mul_partialR with structural.
  intros. case_match; auto with structural.
Qed.

Lemma st_Shl l r : P l -> P r -> P (ShlExpr'create l r).
Proof. apply st_BCREATE. intros. unfold ShlExpr_create. case_match; auto using st_IsZero with structural. Qed.
Lemma st_AShr l r : P l -> P r -> P (AShrExpr'create l r).
Proof. apply st_BCREATE. intros. unfold AShrExpr_create. case_match; auto with structural. Qed.

Lemma st_Slt l r : P l -> P r -> P (SltExpr'create l r).
Proof. apply st_BCREATE. intros. unfold SltExpr_create. case_match; auto using st_IsZero with structural. Qed.
Lemma st_Sle l r : P l -> P r -> P (SleExpr'create l r).
Proof. apply st_BCREATE. intros. unfold SleExpr_create. case_match; auto using st_IsZero with structural. Qed.

(** Every operation but the divisions, and every comparison. *)
Lemma st_Arith k l r : divides k = false -> P l -> P r -> P (Arith'create k l r).
Proof. destruct k; intros H; try done; cbn [Arith'create]; auto using st_Add, st_Sub, st_Mul, st_And, st_Or, st_Xor, st_Shl, st_LShr, st_AShr. Qed.
Lemma st_Cmp k l r : P l -> P r -> P (Cmp'create k l r).
Proof.
  intros Hl Hr. destruct k; [now apply st_Eq|now apply st_Ne|now apply st_Ult|now apply st_Ule|now apply st_Ult|now apply st_Ule
    |now apply st_Slt|now apply st_Sle|now apply st_Slt|now apply st_Sle].
Qed.

End Closed.

(** ** Instances *)

#[export] Instance evaluable_structural full : Structural (fun e => evaluable full e = true).
Proof.
  constructor; intros; cbn; rewrite ?andb_true_iff; try tauto. cbn in *. now rewrite !andb_true_iff in *.
Qed.

#[export] Instance arrays_structural (U : list Array) : Structural (fun e => arrays e ⊆ U).
Proof. constructor; intros; cbn in *; set_solver. Qed.
