(* ===== verification/ExprSafe.v ===== *)
(** * Expressions that always have a value

    An expression has no value where it divides by zero or reads a constant array
    out of bounds.  [safe] excludes both by the shape of the expression: divisors are
    constants other than zero, and only symbolic arrays are read.  Safe expressions
    have a value at all contents of the arrays ([safe_defined]), and the constructors
    of src/lib/Expr/Expr.cpp keep them safe ([rebuild_safe], [ReadExpr'create_safe]).
    On safe constraints the constraint manager therefore neither loses nor gains
    solutions. *)

From stdpp Require Import strings.
From S2P Require Import Prelude APInt Expr ExprOrder ExprSem ExprCreate ExprTyping ExprVisitor ExprClosure.

Definition nonzero (e : Expr) : bool := match e with ConstantExpr c => negb (ap_val c =? 0) | _ => false end.

Fixpoint safe (e : Expr) : bool :=
  match e with
  | ConstantExpr _ => true
  | NotOptimizedExpr x | ExtractExpr x _ _ | CastExpr _ x _ | NotExpr x => safe x
  | ReadExpr r h i => isSymbolicArray r && un_safe h && safe i
  | SelectExpr c t f => safe c && safe t && safe f
  | ConcatExpr l r | CmpExpr _ l r => safe l && safe r
  | BinaryExpr k l r => safe l && (if divides k then nonzero r else safe r)
  end
with un_safe (u : UpdateNode) : bool :=
  match u with
  | un_null => true
  | un_node n i v => un_safe n && safe i && safe v
  end.

#[export] Instance safe_structural : Structural (fun e => safe e = true).
Proof.
  constructor; cbn; intros; rewrite ?andb_true_iff; try done.
  - now match goal with H : divides _ = false |- _ => rewrite H end.
  - match goal with H : _ = true |- _ => now rewrite !andb_true_iff in H end.
Qed.

(** ** Their values *)

Lemma arith_defined k w x y : (divides k = true -> y <> 0) -> is_Some (arith_sem k w x y).
Proof. intros H. destruct k; cbn; try (now eexists); (destruct (Z.eqb_spec y 0); [now destruct H|now eexists]). Qed.

Lemma read_defined rho r us i : isSymbolicArray r = true -> is_Some (read_value rho r us i).
Proof.
  intros H. unfold read_value. destruct (read_updates us i); [now eexists|]. unfold initial_value.
  apply negb_true_iff in H. rewrite H. now eexists.
Qed.

(** An operand with its value and the width of the value. *)
Ltac take_value IH :=
  let v := fresh "v" in let Hv := fresh "Hv" in let Hw := fresh "Hw" in
  destruct IH as [v Hv]; [done|done|]; pose proof (eval_width _ _ _ Hv) as Hw; rewrite Hv; cbn.

Lemma safe_defined_mut rho :
  (forall e, well_typed e = true -> safe e = true -> is_Some (eval rho e)) /\
  (forall u r, un_well_typed r u = true -> un_safe u = true -> is_Some (eval_updates rho r u)).
Proof.
  apply Expr_UpdateNode_ind; cbn; intros; split_bools.
  - rewrite H. now eexists.
  - auto.
  - destruct (H root) as [us Hus]; [done..|]. rewrite Hus. cbn. take_value H0. unfold eval_read.
    destruct (read_defined rho root us (ap_val v)) as [x ->]; [done|]. match goal with A : array_ok _ = true |- _ => rewrite A end.
    replace (ap_width v =? domain root) with true by (symmetry; apply Z.eqb_eq; congruence). now eexists.
  - take_value H. take_value H0. take_value H1. unfold eval_select, Bool in *.
    replace (ap_width v =? 1) with true by (symmetry; apply Z.eqb_eq; congruence).
    replace (ap_width v0 =? ap_width v1) with true by (symmetry; apply Z.eqb_eq; congruence). now eexists.
  - take_value H. take_value H0. now eexists.
  - take_value H. unfold eval_extract. rewrite <- Hw.
    repeat match goal with |- context [?a <=? ?b] => replace (a <=? b) with true by (symmetry; apply Z.leb_le; lia) end.
    replace (0 <? width) with true by (symmetry; apply Z.ltb_lt; lia). now eexists.
  - take_value H. unfold eval_cast. rewrite <- Hw. replace (getWidth src <=? width) with true by (symmetry; apply Z.leb_le; lia). now eexists.
  - take_value H. now eexists.
  - take_value H. assert (Hr : safe right = true /\ (divides k = true -> nonzero right = true))
      by (destruct (divides k); [split; [now destruct right|done]|done]).
    destruct Hr as [Hr Hn]. take_value H0. unfold eval_arith. replace (ap_width v =? ap_width v0) with true by (symmetry; apply Z.eqb_eq; congruence).
    destruct (arith_defined k (ap_width v) (ap_val v) (ap_val v0)) as [x ->]; [|now eexists].
    intros Hd%Hn. destruct right; try done. cbn in Hd, Hv0. destruct (ap_valid value); [|done]. injection Hv0 as ->.
    now apply negb_true_iff, Z.eqb_neq in Hd.
  - take_value H. take_value H0. unfold eval_cmp. replace (ap_width v =? ap_width v0) with true by (symmetry; apply Z.eqb_eq; congruence). now eexists.
  - now eexists.
  - destruct (H r) as [us Hus]; [done..|]. rewrite Hus. cbn. take_value H0. take_value H1.
    replace (ap_width v =? domain r) with true by (symmetry; apply Z.eqb_eq; congruence).
    replace (ap_width v0 =? range r) with true by (symmetry; apply Z.eqb_eq; congruence). now eexists.
Qed.

Lemma safe_defined rho e : well_typed e = true -> safe e = true -> is_Some (eval rho e).
Proof. apply safe_defined_mut. Qed.

(** ** The constructors *)

Section Create.
Context `{A : APIntOps} `{Opts : ExprOptions}.

Notation Safe e := (safe e = true).

Ltac safe_node := cbn; rewrite ?andb_true_iff; auto.

Lemma NotExpr'create_safe e : Safe e -> Safe (NotExpr'create e).
Proof. now destruct e. Qed.

Lemma SelectExpr'create_safe c t f : Safe c -> Safe t -> Safe f -> Safe (SelectExpr'create c t f).
Proof.
  intros Hc Ht Hf. assert (Hs : Safe (SelectExpr c t f)) by safe_node.
  pose proof (st_IsZero (fun e => Safe e) c Hc) as Hz.
  assert (HO : forall x y, Safe x -> Safe y -> Safe (OrExpr'create x y)) by apply (st_Or (fun e => Safe e)).
  assert (HA : forall x y, Safe x -> Safe y -> Safe (AndExpr'create x y)) by apply (st_And (fun e => Safe e)).
  assert (Hgen : Safe (if Expr_eqb t f then t else if getWidth t =? Bool then
      match t with
      | ConstantExpr CE => if isTrue CE then OrExpr'create c f else AndExpr'create (createIsZero c) f
      | _ => match f with
             | ConstantExpr CE => if isTrue CE then OrExpr'create (createIsZero c) t else AndExpr'create c t
             | _ => SelectExpr c t f
             end
      end else SelectExpr c t f)).
  { destruct (Expr_eqb t f); [done|]. destruct (_ =? _); [|done].
    destruct t; first [destruct (isTrue _); now auto|destruct f; first [exact Hs|destruct (isTrue _); now auto]]. }
  destruct c; try exact Hgen. cbn. now destruct (isTrue _).
Qed.

Lemma ExtractConcat_safe n :
  (forall e o w, Safe e -> Safe (ExtractExpr'create_fuel n e o w)) /\
  (forall l r, Safe l -> Safe r -> Safe (ConcatExpr'create_fuel n l r)).
Proof.
  induction n as [|n [IHe IHc]]; [split; [done|intros; safe_node]|]. split; cbn [ExtractExpr'create_fuel ConcatExpr'create_fuel].
  - intros e o w He. destruct (w =? _); [done|]. destruct e; try exact He; try done.
    + cbn in He. apply andb_true_iff in He as [Hl Hr]. repeat case_match; auto.
    + repeat case_match; try exact He. now apply IHe.
  - intros l r Hl Hr. assert (Hp : Safe (ConcatExpr l r)) by safe_node.
    assert (Hm : Safe (match l, r with
      | ExtractExpr le lo lw, ExtractExpr re ro rw =>
        if Expr_eqb le re && (ro + rw =? lo) then ExtractExpr'create_fuel n le ro (getWidth l + getWidth r) else ConcatExpr l r
      | _, _ => ConcatExpr l r end)).
    { destruct l; try exact Hp. destruct r; try exact Hp. destruct (_ && _); [now apply IHe|exact Hp]. }
    destruct l; try exact Hm. assert (Hz : forall w, Safe (ZExtExpr'create_with (ExtractExpr'create_fuel n) r w)).
    { intros w. unfold ZExtExpr'create_with. destruct (_ =? _); [done|]. destruct (_ <? _); [now apply IHe|]. now destruct r. }
    destruct r; try done; (destruct (_ && _); [apply Hz|exact Hm]).
Qed.

Lemma Cast'create_safe k e w : Safe e -> Safe (Cast'create k e w).
Proof.
  intros He. destruct k; cbn; unfold ZExtExpr'create, ZExtExpr'create_with, SExtExpr'create;
    (destruct (_ =? _); [done|]); (destruct (_ <? _); [now apply ExtractConcat_safe|]); now destruct e.
Qed.

(** A division by a constant other than zero. *)
Lemma division_safe k l r : divides k = true -> Safe l -> nonzero r = true -> Safe (Arith'create k l r).
Proof.
  intros Hk Hl Hr. destruct r as [c| | | | | | | | |]; try done.
  assert (Hp : forall x, Safe x -> Safe (BinaryExpr k x (ConstantExpr c))) by (intros; cbn; rewrite Hk; now apply andb_true_iff).
  destruct k; try done; cbn [Arith'create];
    unfold UDivExpr'create, SDivExpr'create, URemExpr'create, SRemExpr'create, BCREATE,
      UDivExpr_create, SDivExpr_create, URemExpr_create, SRemExpr_create;
    (destruct l; try done; destruct (getWidth _ =? Bool); done || now apply Hp).
Qed.

Lemma Arith'create_safe k l r : Safe (BinaryExpr k l r) -> Safe (Arith'create k l r).
Proof.
  cbn. intros [Hl Hr]%andb_true_iff. destruct (divides k) eqn:Hk; [now apply division_safe|].
  now apply (st_Arith (fun e => Safe e)).
Qed.

Lemma ReadExpr'rollback_safe index un : un_safe un = true ->
  match ReadExpr'rollback index un with inl v => Safe v | inr (un', _) => un_safe un' = true end.
Proof.
  induction un as [|n IH i v]; cbn; [done|]. intros H. pose proof H as H0. rewrite !andb_true_iff in H0. destruct H0 as [[Hn _] Hv].
  destruct (EqExpr'create index i); try exact H. destruct (isTrue _); [exact Hv|exact (IH Hn)].
Qed.

Lemma ReadExpr'create_safe r h i : Safe (ReadExpr r h i) -> Safe (ReadExpr'create (mkUpdateList r h) i).
Proof.
  intros Hs. pose proof Hs as H0. cbn in H0. rewrite !andb_true_iff in H0. destruct H0 as [[Hr Hh] Hi]. unfold ReadExpr'create. cbn.
  pose proof (ReadExpr'rollback_safe i h Hh) as H. destruct (ReadExpr'rollback i h) as [v|[un b]]; [done|].
  assert (Hu : Safe (ReadExpr r un i)) by (cbn; now rewrite Hr, H, Hi).
  pose proof Hr as Hc. apply negb_true_iff in Hc. rewrite Hc. cbn [andb].
  destruct i; try exact Hs. now destruct (_ <? _).
Qed.

(** ** Rebuilding *)

(** What a rewritten operand keeps. *)
Definition keeps (e e' : Expr) : Prop := (Safe e -> Safe e') /\ (is_constant e = true -> e' = e).

Lemma keeps_nonzero e e' : keeps e e' -> nonzero e = true -> nonzero e' = true.
Proof. intros [_ H] Hn. destruct e; try done. now rewrite H. Qed.

Lemma rebuild_safe e ks e' : (forall r h i, e <> ReadExpr r h i) ->
  Forall2 keeps (kids e) ks -> rebuild e ks = Some e' -> Safe e -> Safe e'.
Proof.
  intros Hr Hks E Hs.
  destruct e; cbn [kids] in Hks; try (exfalso; eapply Hr; reflexivity);
    repeat match goal with
    | H : Forall2 _ (_ :: _) _ |- _ => apply Forall2_cons_inv_l in H as (? & ? & ? & H & ->)
    | H : Forall2 _ [] _ |- _ => apply Forall2_nil_inv_l in H as ->
    end; cbn [rebuild] in E; try discriminate E; injection E as <-; cbn in Hs; rewrite ?andb_true_iff in Hs; destruct_and?;
    repeat match goal with H : keeps ?x _ |- _ => pose proof (keeps_nonzero _ _ H); destruct H as [H _] end.
  - auto.
  - apply SelectExpr'create_safe; auto.
  - apply ExtractConcat_safe; auto.
  - apply ExtractConcat_safe; auto.
  - apply Cast'create_safe; auto.
  - apply NotExpr'create_safe; auto.
  - apply Arith'create_safe. cbn. apply andb_true_iff. split; [auto|]. destruct (divides k); auto.
  - apply (st_Cmp (fun e => Safe e)); auto.
Qed.

End Create.
