(* ===== verification/ExprReplaceVisitor.v ===== *)
(** * Replacing visitors

    src/lib/Expr/ExprReplaceVisitor.cpp and
    src/include/klee/Expr/ExprReplaceVisitor.h: the visitors with which the
    constraint manager rewrites expressions by known equalities.  They run in
    recursive mode, share the tables of replaced update nodes, and keep their
    [visited] table between calls.

    At array contents [rho], [rewrites rho e e'] says that [e'] is well typed
    with the width of [e], safe if [e] is, and has the value of [e] if [e] has one.
    The visitors preserve it whenever their replacements satisfy it, in every state of the
    tables that does. *)

From stdpp Require Import strings.
From S2P Require Import Prelude APInt Expr ExprOrder ExprSem ExprCreate ExprCreateSound ExprRebuildSound ExprVisitor ExprTyping ExprUtil ExprClosure ExprSafe.

Section Replace.
Context `{A : APIntOps} `{Opts : ExprOptions} (UseVisitorHash : bool).

(** ** [ExprReplaceVisitorBase::visitUpdateNode] *)

(** An index or value of an update node. *)
Definition visit_operand (visit : Expr -> M Expr) (e : Expr) : M Expr :=
  if is_constant e then mret e else visit e.

(** The branch for a node marked visited: collect the result from [nextUN]. *)
Definition finish (visit : Expr -> M Expr) (n nextUN : UpdateNode) : M UpdateNode :=
  match n with
  | un_null => mret un_null     (* the worklist holds no null pointer *)
  | un_node next n_index n_value =>
    index ← visit_operand visit n_index;
    value ← visit_operand visit n_value;
    if negb (Expr_eqb index n_index) || negb (Expr_eqb value n_value) || negb (UpdateNode_eqb nextUN next)
    then
      newUN ← intern_UN (un_node nextUN index value);
      _ ← set_visitedUN n newUN;
      mret newUN
    else
      _ ← set_visitedUN n n;
      mret n
  end.

(** The loop; [un_worklist] and [local_visited] are one list, the back first. *)
Fixpoint visitUpdateNode_loop (fuel : nat) (visit : Expr -> M Expr)
    (worklist : list (UpdateNode * bool)) (nextUN : UpdateNode) : M UpdateNode :=
  match worklist with
  | [] => mret nextUN
  | (n, local_visited) :: rest =>
    match fuel with
    | O => out_of_fuel
    | S k =>
      if local_visited then
        nextUN ← finish visit n nextUN;
        visitUpdateNode_loop k visit rest nextUN
      else
        find_it ← find_visitedUN n;
        match find_it with
        | Some r => visitUpdateNode_loop k visit rest r
        | None =>
          match n with
          | un_null => visitUpdateNode_loop k visit rest un_null
          | un_node un_null _ _ => visitUpdateNode_loop k visit ((n, true) :: rest) un_null
          | un_node next _ _ => visitUpdateNode_loop k visit ((next, false) :: (n, true) :: rest) nextUN
          end
        end
    end
  end.

Fixpoint un_length (u : UpdateNode) : nat :=
  match u with un_null => O | un_node n _ _ => S (un_length n) end.

Definition Replace_visitUpdateNode (visit : Expr -> M Expr) (un : UpdateNode) : M UpdateNode :=
  visitUpdateNode_loop (2 * un_length un) visit [(un, false)] un_null.

(** ** The two visitors *)

Definition Single_visitExpr (src dst e : Expr) : Action :=
  if Expr_eqb e src then ChangeTo dst else DoChildren.

Definition ExprReplaceVisitorSingle (src dst : Expr) : ExprVisitor := {|
  visitExpr := fun _ e => mret (Single_visitExpr src dst e);
  visitKind := default_visitKind;
  visitExprPost := Single_visitExpr src dst;
  visitUpdateNode := Replace_visitUpdateNode;
  recursive := true
|}.

Definition ExprReplaceVisitorMulti (replacements : list (Expr * Expr)) : ExprVisitor := {|
  visitExpr := default_visitExpr;
  visitKind := default_visitKind;
  visitExprPost := fun e =>
    match map_find Expr_eqb replacements e with Some r => ChangeTo r | None => DoChildren end;
  visitUpdateNode := Replace_visitUpdateNode;
  recursive := true
|}.

Definition replace (fuel : nat) (V : ExprVisitor) (e : Expr) : M Expr := visit UseVisitorHash fuel V e.

Definition resetVisited : M unit := fun st => Some (tt, mkVState [] (visitedUN st) (replacedUN st)).

(** ** The loop is the recursion along [next] *)

Fixpoint replaceUpdates (visit : Expr -> M Expr) (n : UpdateNode) : M UpdateNode :=
  match n with
  | un_null => mret un_null
  | un_node next _ _ =>
    find_it ← find_visitedUN n;
    match find_it with
    | Some r => mret r
    | None => nextUN ← replaceUpdates visit next; finish visit n nextUN
    end
  end.

(** The nodes that wait on the worklist are finished in turn. *)
Fixpoint finish_all (visit : Expr -> M Expr) (rest : list UpdateNode) (nextUN : UpdateNode) : M UpdateNode :=
  match rest with
  | [] => mret nextUN
  | n :: rest => nextUN ← finish visit n nextUN; finish_all visit rest nextUN
  end.

Lemma loop_finish visit rest fuel nextUN st : (length rest <= fuel)%nat ->
  visitUpdateNode_loop fuel visit (map (fun n => (n, true)) rest) nextUN st = finish_all visit rest nextUN st.
Proof.
  revert fuel nextUN st. induction rest as [|n rest IH]; intros [|k] nextUN st Hf; cbn in Hf |- *; try done; [lia|].
  unfold mbind, M_bind. destruct (finish visit n nextUN st) as [[u st']|]; [|done]. apply IH. lia.
Qed.

Lemma loop_recursion visit n rest fuel nextUN st : n <> un_null ->
  (2 * un_length n + length rest <= fuel)%nat ->
  visitUpdateNode_loop fuel visit ((n, false) :: map (fun n => (n, true)) rest) nextUN st =
  (u ← replaceUpdates visit n; finish_all visit rest u) st.
Proof.
  revert rest fuel nextUN st. induction n as [|next IH index value]; intros rest [|k] nextUN st Hn Hf; try done.
  { cbn in Hf. lia. }
  cbn [visitUpdateNode_loop replaceUpdates]. unfold mbind, M_bind, find_visitedUN. cbn in Hf.
  destruct (map_find UpdateNode_eqb (visitedUN st) _) as [r|].
  { cbn. apply loop_finish. lia. }
  destruct next as [|nn ni nv].
  - exact (loop_finish visit (un_node un_null index value :: rest) k un_null st ltac:(cbn in *; lia)).
  - specialize (IH (un_node (un_node nn ni nv) index value :: rest) k nextUN st ltac:(done)).
    cbn [map] in IH. rewrite IH by (cbn in *; lia). unfold mbind, M_bind.
    destruct (replaceUpdates visit (un_node nn ni nv) st) as [[u st']|]; [|done]. done.
Qed.

(** ** Soundness *)

Section Sound.
Context {AS : APIntSpec A} (at_ : valuation -> Prop).

(** The same width, safe if [e] is, and the same value at the array contents [at_]. *)
Definition rewrites (e e' : Expr) : Prop :=
  (has_width (getWidth e) e' /\ keeps e e') /\ forall rho v, at_ rho -> eval rho e = Some v -> eval rho e' = Some v.

Definition un_typed (u : UpdateNode) : Prop := exists r, un_well_typed r u = true.

Definition un_rewrites (u u' : UpdateNode) : Prop :=
  ((forall r, un_well_typed r u = true -> un_well_typed r u' = true) /\ (un_safe u = true -> un_safe u' = true)) /\
  forall rho, at_ rho -> un_same rho u u'.

(** The tables are right at these contents. *)
Record rtables_ok (st : VState) : Prop := {
  rvisited_ok : Forall (fun p => well_typed p.1 = true /\ rewrites p.1 p.2) (visited st);
  rvisitedUN_ok : Forall (fun p => un_typed p.1 /\ un_rewrites p.1 p.2) (visitedUN st);
  rreplacedUN_ok : Forall (fun p => p.1 = p.2 /\ un_typed p.1) (replacedUN st)
}.

Lemma rewrites_refl e : well_typed e = true -> rewrites e e.
Proof. now split. Qed.

Lemma rewrites_trans e e' e'' : rewrites e e' -> rewrites e' e'' -> rewrites e e''.
Proof.
  intros [[[? Hw] [Hs Hc]] ?] [[? [Hs' Hc']] ?]. split; [|eauto]. split; [now rewrite <- Hw|]. split; [auto|].
  intros H'. rewrite Hc' by now rewrite Hc. auto.
Qed.

Lemma un_rewrites_refl u : un_rewrites u u.
Proof. split; [auto|]. intros ?????. done. Qed.

Lemma un_rewrites_typed u u' : un_typed u -> un_rewrites u u' -> un_typed u'.
Proof. intros [r Hr] [[H _] _]. exists r. auto. Qed.

Lemma un_typed_wf u : un_typed u -> un_wf_consts u = true.
Proof. intros [r Hr]. eapply well_typed_wf_mut, Hr. Qed.

Lemma un_eqb_eq u u' : un_typed u -> un_typed u' -> UpdateNode_eqb u u' = true -> u = u'.
Proof. intros H H' E. apply Z.eqb_eq in E. apply compare_eq_mut; auto using un_typed_wf. Qed.

Lemma Expr_eqb_typed e e' : well_typed e = true -> well_typed e' = true -> Expr_eqb e e' = true -> e = e'.
Proof. intros. apply Expr_eqb_eq; auto; now apply well_typed_wf_mut. Qed.

(** The node over rewritten parts. *)
Lemma un_node_rewrites next i v next' i' v' :
  un_rewrites next next' -> rewrites i i' -> rewrites v v' -> un_rewrites (un_node next i v) (un_node next' i' v').
Proof.
  intros [[Hn Sn] Hsn] [[[Hi Wi] [Si _]] Ei] [[[Hv Wv] [Sv _]] Ev]. split; [split|].
  - intros r H. cbn in *. split_bools. join_bools; auto; congruence.
  - cbn. rewrite !andb_true_iff. tauto.
  - intros rho Hrho r us. cbn. intros H. inv_eval.
    repeat match goal with
    | E : eval_updates rho _ next = Some _ |- _ => apply (Hsn rho Hrho) in E; rewrite E; clear E
    | E : eval rho i = Some _ |- _ => apply (Ei rho _ Hrho) in E; rewrite E; clear E
    | E : eval rho v = Some _ |- _ => apply (Ev rho _ Hrho) in E; rewrite E; clear E
    end. cbn. repeat match goal with E : ap_width _ = _ |- _ => rewrite E; clear E end.
    now rewrite !Z.eqb_refl.
Qed.

Notation ok := (triple false rtables_ok).

Lemma find_visitedUN_ok u : un_typed u ->
  ok (find_visitedUN u) (fun o => match o with Some u' => un_rewrites u u' | None => True end).
Proof.
  intros Hu st Hst. cbn. split; [|done]. destruct (map_find _ _ _) as [r|] eqn:E; [|done].
  apply map_find_elem in E as (k & Hk & Ek). pose proof (rvisitedUN_ok _ Hst) as Hv.
  rewrite Forall_forall in Hv. destruct (Hv _ Hk) as [Hty Hr]. cbn in *.
  now rewrite (un_eqb_eq u k).
Qed.

Lemma set_visitedUN_ok u u' : un_typed u -> un_rewrites u u' -> ok (set_visitedUN u u') (fun _ => True).
Proof. intros Hu Hr st [H1 H2 H3]. cbn. split; [done|]. constructor; cbn; auto. Qed.

Lemma intern_UN_ok u : un_typed u -> ok (intern_UN u) (fun u' => u' = u).
Proof.
  intros Hu st Hst. unfold intern_UN. destruct (map_find _ _ _) as [r|] eqn:E.
  - split; [|done]. apply map_find_elem in E as (k & Hk & Ek). pose proof (rreplacedUN_ok _ Hst) as Hv.
    rewrite Forall_forall in Hv. destruct (Hv _ Hk) as [Heq Hty]. cbn in *. subst. symmetry. now apply un_eqb_eq.
  - split; [done|]. destruct Hst. constructor; cbn; auto.
Qed.

Section Hooks.
Context (vis : Expr -> M Expr) (Hvis : forall e, well_typed e = true -> ok (vis e) (rewrites e)).

Lemma visit_operand_ok e : well_typed e = true -> ok (visit_operand vis e) (rewrites e).
Proof.
  intros He. unfold visit_operand. destruct (is_constant e); [|auto].
  apply triple_ret. now apply rewrites_refl.
Qed.

Lemma finish_ok n nextUN : un_typed n ->
  match n with un_null => True | un_node next _ _ => un_rewrites next nextUN end ->
  ok (finish vis n nextUN) (un_rewrites n).
Proof.
  intros Hn Hnext. destruct n as [|next i v]; [apply triple_ret, un_rewrites_refl|]. cbn [finish].
  assert (Hty : well_typed i = true /\ well_typed v = true).
  { destruct Hn as [r Hr]. cbn in Hr. rewrite !andb_true_iff in Hr. tauto. }
  eapply triple_bind; [now apply visit_operand_ok|]. intros i' Hi.
  eapply triple_bind; [now apply visit_operand_ok|]. intros v' Hv.
  pose proof (un_node_rewrites _ _ _ _ _ _ Hnext Hi Hv) as Hnew.
  destruct (_ || _).
  - eapply triple_bind; [apply intern_UN_ok; exact (un_rewrites_typed _ _ Hn Hnew)|]. intros u ->.
    eapply triple_bind; [now apply set_visitedUN_ok|]. intros _ _. now apply triple_ret.
  - eapply triple_bind; [apply set_visitedUN_ok; [done|apply un_rewrites_refl]|]. intros _ _.
    apply triple_ret, un_rewrites_refl.
Qed.

Lemma replaceUpdates_ok n : un_typed n -> ok (replaceUpdates vis n) (un_rewrites n).
Proof.
  induction n as [|next IH i v]; intros Hn; cbn [replaceUpdates]; [apply triple_ret, un_rewrites_refl|].
  eapply triple_bind; [now apply find_visitedUN_ok|]. intros [r|] Hr; [now apply triple_ret|].
  eapply triple_bind; [apply IH|intros u Hu; now apply finish_ok].
  destruct Hn as [r Hn]. exists r. cbn in Hn. rewrite !andb_true_iff in Hn. tauto.
Qed.

Lemma visitUpdateNode_ok n : n <> un_null -> un_typed n -> ok (Replace_visitUpdateNode vis n) (un_rewrites n).
Proof.
  intros Hn Hty st Hst. unfold Replace_visitUpdateNode.
  pose proof (loop_recursion vis n [] (2 * un_length n) un_null st Hn ltac:(cbn; lia)) as E.
  cbn [map] in E. rewrite E. apply (triple_bind false rtables_ok _ _ (un_rewrites n)); [|intros; now apply triple_ret|done].
  now apply replaceUpdates_ok.
Qed.

End Hooks.

(** *** Rebuilding over rewritten kids *)

Lemma rebuild_typed e ks :
  is_constant e = false -> (forall r h i, e <> ReadExpr r h i) -> well_typed e = true ->
  Forall2 (fun k k' => has_width (getWidth k) k') (kids e) ks ->
  exists e', rebuild e ks = Some e' /\ has_width (getWidth e) e'.
Proof.
  intros Hc Hr He Hks. pose proof (hw_self e He) as Hw.
  destruct e; cbn [kids] in Hks; try discriminate Hc; try (now edestruct Hr);
    repeat match goal with
    | H : Forall2 _ (_ :: _) _ |- _ => apply Forall2_cons_inv_l in H as (? & ? & ? & H & ->)
    | H : Forall2 _ [] _ |- _ => apply Forall2_nil_inv_l in H as ->
    end; cbn [rebuild]; eexists; (split; [reflexivity|]).
  - done.
  - apply hw_select_inv in Hw as ([_ E1] & [_ E2] & [_ E3]). rewrite E1, E2, E3 in *. now apply hw_Select.
  - apply hw_concat_inv in Hw as (_ & _ & ->). now apply hw_Concat.
  - apply hw_extract_inv in Hw as (_ & ? & ? & ? & _). cbn in *. now eapply hw_Extract; eauto.
  - pose proof (has_width_pos _ _ Hw). now eapply hw_Cast; eauto.
  - now apply hw_Not.
  - apply hw_binary_inv in Hw as ([_ E1] & [_ E2]). rewrite E1, E2 in *. now apply hw_Arith.
  - apply hw_cmp_inv in Hw as (_ & _ & [_ E2]). rewrite E2 in *. now eapply hw_Cmp; eauto.
Qed.

Lemma kids_typed e : well_typed e = true -> Forall (fun k => well_typed k = true) (kids e).
Proof. destruct e; cbn; intros; split_bools; auto. Qed.

Lemma rebuild_rewrites e ks :
  is_constant e = false -> (forall r h i, e <> ReadExpr r h i) -> well_typed e = true ->
  Forall2 rewrites (kids e) ks -> exists e', rebuild e ks = Some e' /\ rewrites e e'.
Proof.
  intros Hc Hr He Hks. destruct (rebuild_typed e ks) as (e' & E & Hw); auto.
  { eapply Forall2_impl; [exact Hks|]. now intros k k' [[? _] _]. }
  assert (Hk : Forall2 keeps (kids e) ks) by (eapply Forall2_impl; [exact Hks|]; now intros k k' [[_ ?] _]).
  exists e'. split; [done|]. split; [split; [done|split; [now apply (rebuild_safe e ks)|now rewrite Hc]]|]. intros rho v Hrho Hv.
  destruct (rebuild_ok rho e ks v) as (e'' & E' & Hv'); auto; [|congruence].
  pose proof (kids_defined rho e v Hv) as Hd. clear - Hks Hd Hrho.
  induction Hks as [|k k' l l' [_ Hk] Hl IH]; constructor; inversion Hd as [|? ? [w Hw] Hd']; subst; auto.
  exists w. auto.
Qed.

Lemma read_rewrites root head index head' index' :
  well_typed (ReadExpr root head index) = true -> rewrites index index' -> un_rewrites head head' ->
  rewrites (ReadExpr root head index) (ReadExpr'create (mkUpdateList root head') index').
Proof.
  intros He [[Hi [Si _]] Ei] [[Hh Sh] Eh]. pose proof (hw_self _ He) as Hw.
  apply hw_read_inv in Hw as (Hr & Hu & [_ Hd] & _). split; [split; [|split; [|done]]|].
  - cbn. apply hw_Read; auto. now rewrite <- Hd.
  - intros Hs. apply ReadExpr'create_safe. cbn in *. rewrite !andb_true_iff in *. tauto.
  - intros rho v Hrho Hv. apply ReadExpr'create_sound. cbn in Hv |- *. inv_eval.
    repeat match goal with
    | E : eval_updates rho _ head = Some _ |- _ => apply (Eh rho Hrho) in E; rewrite E; clear E
    | E : eval rho index = Some _ |- _ => apply (Ei rho _ Hrho) in E; rewrite E; clear E
    end. done.
Qed.

(** *** The traversal *)

(** A visitor whose replacements are right. *)
Record replacing (V : ExprVisitor) : Prop := {
  rp_visitExpr vis e : well_typed e = true -> is_constant e = false ->
    ok (visitExpr V vis e) (fun a => match a with ChangeTo r => rewrites e r | _ => True end);
  rp_visitKind vis e : visitKind V vis e = mret DoChildren;
  rp_visitExprPost e r : well_typed e = true -> is_constant e = false -> visitExprPost V e = ChangeTo r -> rewrites e r;
  rp_visitUpdateNode : visitUpdateNode V = Replace_visitUpdateNode
}.

Section Visit.
Context (V : ExprVisitor) (HV : replacing V).

Lemma find_rvisited_ok e : well_typed e = true ->
  ok (find_visited e) (fun o => match o with Some r => rewrites e r | None => True end).
Proof.
  intros He st Hst. cbn. split; [|done]. destruct (map_find _ _ _) as [r|] eqn:E; [|done].
  apply map_find_elem in E as (k & Hk & Ek). pose proof (rvisited_ok _ Hst) as Hv.
  rewrite Forall_forall in Hv. destruct (Hv _ Hk) as [Hty Hr]. cbn in *. now rewrite (Expr_eqb_typed e k).
Qed.

Lemma insert_rvisited_ok e r : well_typed e = true -> rewrites e r -> ok (insert_visited e r) (fun _ => True).
Proof.
  intros He Hr st [H1 H2 H3]. cbn. split; [done|]. destruct (map_find _ _ _); [done|].
  constructor; cbn; auto.
Qed.

Lemma visit_rebuilt_ok vis e e' : (forall x, well_typed x = true -> ok (vis x) (rewrites x)) ->
  rewrites e e' -> ok (visit_rebuilt V vis e') (rewrites e).
Proof.
  intros Hvis He. unfold visit_rebuilt. destruct (recursive V); [|now apply triple_ret].
  eapply triple_mono; [apply Hvis; now destruct He as [[[? _] _] _]|]. intros r Hr. exact (rewrites_trans _ _ _ He Hr).
Qed.

Lemma kids_rewrites vis e : (forall x, well_typed x = true -> ok (vis x) (rewrites x)) ->
  well_typed e = true -> ok (mapM vis (kids e)) (fun ks => Forall2 rewrites (kids e) ks).
Proof.
  intros Hvis He. apply triple_mapM. eapply Forall_impl; [now apply kids_typed|]. auto.
Qed.

Lemma children_rewrites vis e : (forall x, well_typed x = true -> ok (vis x) (rewrites x)) ->
  is_constant e = false -> well_typed e = true -> ok (visitChildren V vis e) (rewrites e).
Proof.
  intros Hvis Hc He.
  assert (Hplain : (forall r h i, e <> ReadExpr r h i) ->
    ok (ks ← mapM vis (kids e);
        if existsb (fun p => negb (Expr_eqb p.1 p.2)) (zip ks (kids e))
        then match rebuild e ks with Some e' => visit_rebuilt V vis e' | None => mret e end
        else mret e) (rewrites e)).
  { intros Hr. eapply triple_bind; [now apply kids_rewrites|]. intros ks Hks. cbn beta in Hks.
    destruct (existsb _ _); [|apply triple_ret; now apply rewrites_refl].
    destruct (rebuild_rewrites e ks) as (e' & -> & He'); auto. now apply visit_rebuilt_ok. }
  destruct e; try (apply Hplain; discriminate). clear Hplain. cbn [visitChildren].
  pose proof (hw_self _ He) as Hw. apply hw_read_inv in Hw as (_ & Hu & [Hi _] & _).
  eapply triple_bind; [now apply Hvis|]. intros index' Hi'.
  eapply (triple_bind _ _ _ _ (un_rewrites head)).
  - destruct head; [apply triple_ret, un_rewrites_refl|]. rewrite (rp_visitUpdateNode V HV).
    apply visitUpdateNode_ok; [done|done|now exists root].
  - intros head' Hh'. destruct (_ || _); [|apply triple_ret; now apply rewrites_refl].
    apply visit_rebuilt_ok; [done|]. now apply read_rewrites.
Qed.

Lemma actual_rewrites vis e : (forall x, well_typed x = true -> ok (vis x) (rewrites x)) ->
  well_typed e = true -> ok (visitActual V vis e) (rewrites e).
Proof.
  intros Hvis He. unfold visitActual. destruct (is_constant e) eqn:Hc; [apply triple_ret; now apply rewrites_refl|].
  eapply triple_bind; [now apply (rp_visitExpr V HV)|]. intros [| |a] Ha;
    [apply triple_ret; now apply rewrites_refl| |now apply triple_ret].
  rewrite (rp_visitKind V HV). eapply triple_bind; [apply triple_ret; exact (eq_refl DoChildren)|]. intros ? <-.
  eapply triple_bind; [now apply children_rewrites|]. intros r Hr. apply triple_ret.
  destruct (is_constant r) eqn:Hcr; [done|]. destruct (visitExprPost V r) eqn:E; try done.
  eapply rewrites_trans; [exact Hr|]. apply (rp_visitExprPost V HV); [|done..]. now destruct Hr as [[[? _] _] _].
Qed.

Lemma replace_rewrites fuel e : well_typed e = true -> ok (replace fuel V e) (rewrites e).
Proof.
  unfold replace. revert e. induction fuel as [|n IH]; intros e He; [now intros st Hst|]. cbn [visit].
  destruct (negb UseVisitorHash || is_constant e); [now apply actual_rewrites|].
  eapply triple_bind; [now apply find_rvisited_ok|]. intros [r|] Hr; [now apply triple_ret|].
  eapply triple_bind; [now apply actual_rewrites|]. intros r Hr'.
  eapply triple_bind; [now apply insert_rvisited_ok|]. intros _ _. now apply triple_ret.
Qed.

End Visit.

(** A replacement that is right; constants are never replaced. *)
Definition replacement (p : Expr * Expr) : Prop := well_typed p.1 = true /\ (is_constant p.1 = false -> rewrites p.1 p.2).

Lemma Single_replacing src dst : replacement (src, dst) -> replacing (ExprReplaceVisitorSingle src dst).
Proof.
  intros [Hs Hd]. cbn in Hs, Hd.
  assert (H : forall e, well_typed e = true -> is_constant e = false ->
    match Single_visitExpr src dst e with ChangeTo r => rewrites e r | _ => True end).
  { intros e He Hc. unfold Single_visitExpr. destruct (Expr_eqb e src) eqn:E; [|done].
    assert (e = src) as -> by now apply Expr_eqb_typed. auto. }
  constructor; cbn; try done.
  - intros vis e He Hc. apply triple_ret. exact (H e He Hc).
  - intros e r He Hc E. specialize (H e He Hc). now rewrite E in H.
Qed.

Lemma Multi_replacing reps : Forall replacement reps -> replacing (ExprReplaceVisitorMulti reps).
Proof.
  intros Hs. constructor; cbn; try done.
  intros e r He Hc. destruct (map_find _ _ _) as [r'|] eqn:E; [|done]. intros [= ->].
    apply map_find_elem in E as (k & Hk & Ek). rewrite Forall_forall in Hs. destruct (Hs _ Hk) as [Hty Hr].
    cbn in *. assert (e = k) as -> by now apply Expr_eqb_typed. auto.
Qed.

End Sound.

(** What is right at some contents is right at fewer. *)
Lemma rewrites_sub (P Q : valuation -> Prop) e e' : (forall rho, Q rho -> P rho) -> rewrites P e e' -> rewrites Q e e'.
Proof. intros H [? ?]. split; [done|eauto]. Qed.

Lemma rtables_sub (P Q : valuation -> Prop) st : (forall rho, Q rho -> P rho) -> rtables_ok P st -> rtables_ok Q st.
Proof.
  intros H [H1 H2 H3]. constructor; [| |done].
  - eapply Forall_impl; [exact H1|]. intros p [? ?]. split; [done|]. now apply (rewrites_sub P Q).
  - eapply Forall_impl; [exact H2|]. intros p [? [? Hs]]. split; [done|]. split; [done|]. eauto.
Qed.

(** ** Without an occurrence of a replaced expression nothing happens *)

Section Absent.
Context {AS : APIntSpec A} (V : ExprVisitor).

(** No hook of [V] applies to [x]. *)
Definition untouched (x : Expr) : Prop :=
  (forall vis, visitExpr V vis x = mret DoChildren) /\ (forall vis, visitKind V vis x = mret DoChildren) /\
  (forall r, visitExprPost V x <> ChangeTo r).

Context (HUN : visitUpdateNode V = Replace_visitUpdateNode).

Record identity_tables (st : VState) : Prop := {
  id_visited : Forall (fun p => p.1 = p.2 /\ wf_consts p.1 = true) (visited st);
  id_visitedUN : Forall (fun p => p.1 = p.2 /\ un_wf_consts p.1 = true) (visitedUN st)
}.

Notation same := (triple true identity_tables).

Lemma Expr_eqb_refl e : wf_consts e = true -> Expr_eqb e e = true.
Proof. intros. now apply Expr_eqb_eq. Qed.

Lemma UpdateNode_eqb_refl u : un_wf_consts u = true -> UpdateNode_eqb u u = true.
Proof. intros. apply Z.eqb_eq. now apply compare_refl_mut. Qed.

Lemma finish_same vis next i v :
  un_wf_consts (un_node next i v) = true ->
  (is_constant i = false -> same (vis i) (eq i)) -> (is_constant v = false -> same (vis v) (eq v)) ->
  same (finish vis (un_node next i v) next) (eq (un_node next i v)).
Proof.
  intros Hu Hi Hv. pose proof Hu as Hw. cbn in Hw. rewrite !andb_true_iff in Hw. destruct Hw as [[Hn Hwi] Hwv].
  cbn [finish]. unfold visit_operand.
  eapply (triple_bind _ _ _ _ (eq i)); [destruct (is_constant i); [now apply triple_ret|auto]|]. intros ? <-.
  eapply (triple_bind _ _ _ _ (eq v)); [destruct (is_constant v); [now apply triple_ret|auto]|]. intros ? <-.
  rewrite !Expr_eqb_refl, UpdateNode_eqb_refl by done. cbn [negb orb].
  intros st [H1 H2]. cbn. split; [done|]. constructor; cbn; auto.
Qed.

Lemma replaceUpdates_same vis n :
  un_wf_consts n = true -> (forall k, k ∈ un_exprs n -> is_constant k = false -> same (vis k) (eq k)) ->
  same (replaceUpdates vis n) (eq n).
Proof.
  induction n as [|next IH i v]; intros Hw Hk; cbn [replaceUpdates]; [now apply triple_ret|].
  eapply (triple_bind _ _ _ _ (fun o => o = None \/ o = Some (un_node next i v))).
  - intros st Hst. cbn. split; [|done]. destruct (map_find _ _ _) as [r|] eqn:E; [right|now left].
    apply map_find_elem in E as (k & Hk' & Ek). pose proof (id_visitedUN _ Hst) as Hv.
    rewrite Forall_forall in Hv. destruct (Hv _ Hk') as [Heq Hwk]. cbn in *. subst.
    f_equal. symmetry. apply Z.eqb_eq, compare_eq_mut in Ek; auto.
  - intros o [->| ->]; [|now apply triple_ret]. eapply triple_bind; [apply IH|].
    + cbn in Hw. rewrite !andb_true_iff in Hw. tauto.
    + intros k Hin. apply Hk. cbn. set_solver.
    + intros ? <-. apply finish_same; [done|apply Hk; cbn; set_solver..].
Qed.

Lemma absent_children vis e :
  wf_consts e = true -> (forall k, k ∈ operands true e -> same (vis k) (eq k)) ->
  same (visitChildren V vis e) (eq e).
Proof.
  intros He Hop.
  assert (Hplain : operands true e = kids e ->
    same (ks ← mapM vis (kids e);
        if existsb (fun p => negb (Expr_eqb p.1 p.2)) (zip ks (kids e))
        then match rebuild e ks with Some e' => visit_rebuilt V vis e' | None => mret e end
        else mret e) (eq e)).
  { intros Ek. pose proof (operands_wf true e He) as Hw. rewrite Ek in Hop, Hw.
    eapply triple_bind; [apply triple_mapM, Forall_forall, Hop|]. cbn beta. intros ks Hks.
    assert (ks = kids e) as -> by (clear - Hks; induction Hks; congruence).
    destruct (existsb _ _) eqn:E; [|now apply triple_ret]. exfalso. clear - E Hw AS.
    induction Hw as [|k l Hk Hw IH]; cbn in E; [done|]. rewrite Expr_eqb_refl in E by done. auto. }
  destruct e; try (apply Hplain; reflexivity). clear Hplain. cbn [visitChildren].
  cbn in He. apply andb_true_iff in He as [Hh Hi].
  eapply triple_bind; [apply Hop; now left|]. intros ? <-.
  eapply (triple_bind _ _ _ _ (eq head)).
  - destruct head as [|next i v]; [now apply triple_ret|]. rewrite HUN. intros st Hst.
    unfold Replace_visitUpdateNode.
    pose proof (loop_recursion vis (un_node next i v) [] (2 * un_length (un_node next i v)) un_null st
      ltac:(done) ltac:(cbn; lia)) as E. cbn [map] in E. rewrite E.
    apply (triple_bind true identity_tables _ _ (eq (un_node next i v))); [|intros ? <-; now apply triple_ret|done].
    apply replaceUpdates_same; [done|]. intros k Hk _. apply Hop. now right.
  - intros ? <-. rewrite Expr_eqb_refl, UpdateNode_eqb_refl by done. now apply triple_ret.
Qed.

Lemma absent_visit fuel e :
  (esize e <= fuel)%nat -> wf_consts e = true -> (forall x, occurs true e x -> untouched x) ->
  same (replace fuel V e) (eq e).
Proof.
  unfold replace. revert e. induction fuel as [|n IH]; intros e Hf He Hab; [pose proof (esize_pos e); lia|].
  assert (Hop : forall k, k ∈ operands true e -> same (visit UseVisitorHash n V k) (eq k)).
  { intros k Hk. apply IH.
    - pose proof (operands_size true e). assert (esize k <= total_size (operands true e))%nat; [|lia].
      clear - Hk. induction Hk; unfold total_size in *; cbn; lia.
    - apply (operands_wf true) in He. rewrite Forall_forall in He. auto.
    - intros x Hx. apply Hab. econstructor; eauto. }
  destruct (Hab e (occurs_refl _ _)) as (Hv & Hkd & Hpost). cbn [visit].
  assert (Hact : same (visitActual V (visit UseVisitorHash n V) e) (eq e)).
  { unfold visitActual. destruct (is_constant e) eqn:Hc; [now apply triple_ret|].
    rewrite Hv. eapply triple_bind; [apply triple_ret; exact (eq_refl DoChildren)|]. intros ? <-.
    rewrite Hkd. eapply triple_bind; [apply triple_ret; exact (eq_refl DoChildren)|]. intros ? <-.
    eapply triple_bind; [now apply absent_children|]. intros ? <-. apply triple_ret. rewrite Hc.
    destruct (visitExprPost V e) eqn:E; [done..|]. now edestruct Hpost. }
  destruct (negb UseVisitorHash || is_constant e); [done|].
  eapply (triple_bind _ _ _ _ (fun o => o = None \/ o = Some e)).
  - intros st Hst. cbn. split; [|done]. destruct (map_find _ _ _) as [r|] eqn:E; [right|now left].
    apply map_find_elem in E as (k & Hk & Ek). pose proof (id_visited _ Hst) as Hvis.
    rewrite Forall_forall in Hvis. destruct (Hvis _ Hk) as [Heq Hwk]. cbn in *. subst.
    f_equal. symmetry. now apply Expr_eqb_eq in Ek.
  - intros o [->| ->]; [|now apply triple_ret]. eapply triple_bind; [exact Hact|]. intros ? <-.
    eapply (triple_bind _ _ _ _ (fun _ => True)); [|intros; now apply triple_ret].
    intros st [H1 H2]. cbn. split; [done|]. destruct (map_find _ _ _); [done|]. constructor; cbn; auto.
Qed.

End Absent.
End Replace.

(** ** Claims *)

Section Claims.
Context `{A : APIntOps} {AS : APIntSpec A} `{Opts : ExprOptions} (UseVisitorHash : bool).


(** Replacing ends, and returns the expression itself, when no replaced
    expression occurs in it; as many nested visits as the expression has nodes
    are enough. *)
Theorem replace_absent (fuel : nat) (e : Expr) (replacements : list (Expr * Expr)) :
  wf_consts e = true -> (esize e <= fuel)%nat ->
  (forall x p, occurs true e x -> p ∈ replacements -> Expr_eqb x p.1 = false) ->
  exists st', replace UseVisitorHash fuel (ExprReplaceVisitorMulti replacements) e (mkVState [] [] []) = Some (e, st').
Proof.
  intros He Hf Hab.
  pose proof (absent_visit UseVisitorHash (ExprReplaceVisitorMulti replacements) eq_refl fuel e Hf He) as H.
  specialize (H ltac:(intros x Hx; split_and!; [done|done|]; cbn; intros r; destruct (map_find _ _ _) as [r'|] eqn:E;
    [apply map_find_elem in E as (k & Hk & Ek); specialize (Hab x (k, r') Hx Hk); cbn in Hab; congruence|done])).
  specialize (H (mkVState [] [] []) ltac:(constructor; cbn; auto)).
  destruct (replace _ _ _ _ _) as [[r st']|]; [|done]. destruct H as [<- _]. eauto.
Qed.

(** The worklist of [visitUpdateNode] computes the recursion along the
    chain of updates, with the same reads and writes of the tables in the same
    order, and ends within two steps per node. *)
Theorem visitUpdateNode_recursion (visit : Expr -> M Expr) (un : UpdateNode) (fuel : nat) (st : VState) :
  un <> un_null -> (2 * un_length un <= fuel)%nat ->
  visitUpdateNode_loop fuel visit [(un, false)] un_null st = replaceUpdates visit un st.
Proof.
  intros Hn Hf. rewrite (loop_recursion visit un [] fuel un_null st Hn) by (cbn; lia).
  unfold mbind, M_bind. now destruct (replaceUpdates visit un st) as [[u st']|].
Qed.

End Claims.

(** ** A concrete replacement: [buf[0] + buf[1]] knowing [buf[0] == 5] *)

Definition replace_options : ExprOptions := {| ConstArrayOpt := false |}.
Definition replace_sum : Expr :=
  BinaryExpr Add (sample_byte un_null (ConstantExpr (APInt 32 0))) (sample_byte un_null (ConstantExpr (APInt 32 1))).
Definition replace_facts : list (Expr * Expr) :=
  [(sample_byte un_null (ConstantExpr (APInt 32 0)), ConstantExpr (APInt 8 5))].


(** A read of another array does not occur in [sample_read]. *)
Definition other_read : Expr := ReadExpr (mkArray 2 "other" 4 Int32 Int8 []) un_null (ConstantExpr (APInt 32 0)).

Lemma replace_absent_witness :
  exists st', replace (A:=apint_ref) (Opts:=replace_options) true (esize sample_read)
    (ExprReplaceVisitorMulti (A:=apint_ref) [(other_read, ConstantExpr (APInt 8 9))]) sample_read (mkVState [] [] []) =
    Some (sample_read, st').
Proof.
  apply (replace_absent (A:=apint_ref) (AS:=apint_ref_spec) (Opts:=replace_options) true); [reflexivity|done|].
  intros x p Hx ->%list_elem_of_singleton. cbn [fst]. destruct (Expr_eqb x other_read) eqn:E; [|done].
  apply (Expr_eqb_eq (A:=apint_ref) (AS:=apint_ref_spec)) in E; [|exact (occurs_wf _ _ _ Hx eq_refl)|reflexivity].
  subst x. apply occurs_arrays in Hx. specialize (Hx (mkArray 2 "other" 4 Int32 Int8 []) ltac:(now left)).
  cbn in Hx. set_solver.
Defined.

Lemma visitUpdateNode_recursion_witness :
  let un := un_node un_null (ConstantExpr (APInt 32 1)) (sample_byte un_null (ConstantExpr (APInt 32 0))) in
  let visit := replace (A:=apint_ref) (Opts:=replace_options) true 9 (ExprReplaceVisitorMulti (A:=apint_ref) replace_facts) in
  visitUpdateNode_loop (A:=apint_ref) 2 visit [(un, false)] un_null (mkVState [] [] []) =
    replaceUpdates (A:=apint_ref) visit un (mkVState [] [] []) /\
  fst <$> replaceUpdates (A:=apint_ref) visit un (mkVState [] [] []) =
    Some (un_node un_null (ConstantExpr (APInt 32 1)) (ConstantExpr (APInt 8 5))).
Proof.
  intros un visit. split; [|vm_compute; reflexivity].
  apply (visitUpdateNode_recursion (A:=apint_ref) visit un 2); [discriminate|cbn; lia].
Defined.
