(* ===== verification/IndependentElementSet.v ===== *)
(** * Independent element sets

    src/lib/Expr/IndependentElementSet.cpp and
    src/include/klee/Internal/Support/IndependentElementSet.h: the bytes of the
    symbolic arrays a set of constraints depends on, as single elements of an
    array or as the whole array.  The constraint manager and the independent
    solver use them to split a query into parts that can be solved one by one.

    [ies_ok] is what the solver relies on: the value of every expression of the
    set is determined by the bytes the set covers.  It holds for the set of an
    expression, [add] preserves it, and sets without a common byte are
    satisfiable together when each one is.  [intersects] answers whether two
    sets have a common byte; the theorems at the end say when it is exact and
    that it misses common bytes otherwise. *)

From stdpp Require Import gmap strings.
From S2P Require Import Prelude APInt Expr ExprOrder ExprSem ExprCreate ExprRebuildSound ExprVisitor ExprUtil.

#[export] Instance apint_countable : Countable apint :=
  inj_countable' (fun a => (ap_width a, ap_val a)) (fun p => APInt p.1 p.2) ltac:(now intros []).

#[export] Instance Array_countable : Countable Array.
Proof.
  refine (inj_countable'
    (fun a => (arr_addr a, name a, Expr.size a, domain a, range a, constantValues a))
    (fun p => let '(x1, x2, x3, x4, x5, x6) := p in mkArray x1 x2 x3 x4 x5 x6) _).
  now intros [].
Defined.

(** ** [DenseSet] *)
Module DenseSet.

Definition t := gset Z.

(** [add(const DenseSet &b)]: the union, and whether it is a change. *)
Definition add_one (p : t * bool) (x : Z) : t * bool :=
  let '(s, modified) := p in
  if modified || negb (bool_decide (x ∈ s)) then ({[x]} ∪ s, true) else (s, modified).

Definition add (s b : t) : t * bool := foldl add_one (s, false) (elements b).

Definition count_any (s b : t) : bool := existsb (fun x => bool_decide (x ∈ b)) (elements s).

(** The smaller set is searched in the larger one. *)
Definition intersects (s b : t) : bool :=
  if (base.size b <? base.size s)%nat then count_any b s else count_any s b.

Lemma count_any_spec s b : count_any s b = true <-> exists x, x ∈ s /\ x ∈ b.
Proof.
  unfold count_any. rewrite existsb_exists. split.
  - intros (x & Hx & E). apply list_elem_of_In, elem_of_elements in Hx. apply bool_decide_eq_true in E. eauto.
  - intros (x & Hx & E). exists x. split; [now apply list_elem_of_In, elem_of_elements|].
    now apply bool_decide_eq_true.
Qed.

Lemma intersects_spec s b : intersects s b = true <-> exists x, x ∈ s /\ x ∈ b.
Proof. unfold intersects. destruct (_ <? _)%nat; rewrite count_any_spec; [|done]. naive_solver. Qed.

Lemma add_spec s b : (add s b).1 = s ∪ b /\ ((add s b).2 = true <-> ~ b ⊆ s).
Proof.
  unfold add.
  assert (H : forall l s m, (foldl add_one (s, m) l).1 = s ∪ list_to_set l /\
    ((foldl add_one (s, m) l).2 = true <-> m = true \/ exists x, x ∈ l /\ x ∉ s)).
  { clear. induction l as [|x l IH]; intros s m; cbn [foldl list_to_set].
    - split; [set_solver|]. cbn. set_solver.
    - cbn [add_one]. destruct (m || negb (bool_decide (x ∈ s))) eqn:E.
      + destruct (IH ({[x]} ∪ s) true) as [-> ->]. split; [set_solver|]. split; [|auto]. intros _.
        apply orb_true_iff in E as [->|E]; [now left|right].
        apply negb_true_iff, bool_decide_eq_false in E. exists x. split; [now left|done].
      + apply orb_false_iff in E as [-> E]. apply negb_false_iff, bool_decide_eq_true in E.
        destruct (IH s false) as [-> ->]. split; [set_solver|]. set_solver. }
  destruct (H (elements b) s false) as [H1 H2]. rewrite H1, H2, list_to_set_elements_L.
  clear H H1 H2. split; [done|]. split.
  - intros [?|(x & Hx & Hn)]; [done|]. apply elem_of_elements in Hx. set_solver.
  - intros Hn. right. destruct (set_choose_or_empty (b ∖ s)) as [[x Hx]|He].
    + exists x. rewrite elem_of_elements. now apply elem_of_difference in Hx.
    + destruct Hn. intros x Hx. destruct (decide (x ∈ s)); [done|].
      assert (x ∈ b ∖ s) as Hd by (now apply elem_of_difference). rewrite He in Hd. set_solver.
Qed.

End DenseSet.

(** ** The set *)

Record IndependentElementSet := mkIES {
  ie_elements : gmap Array DenseSet.t;
  ie_wholeObjects : gset Array;
  ie_exprs : list Expr    (* a set, in no particular order *)
}.

Definition no_elements : IndependentElementSet := mkIES ∅ ∅ [].

Section Set_.
Context `{A : APIntOps}.

(** [exprs.insert(e)] *)
Definition insert_expr (l : list Expr) (e : Expr) : list Expr :=
  if existsb (Expr_eqb e) l then l else l ++ [e].

(** The body of the loop of the constructor over the reads. *)
Definition add_read (s : IndependentElementSet) (re : Read) : IndependentElementSet :=
  let array := re_root re in
  if isConstantArray array && (match re_head re with un_null => true | _ => false end) then s
  else if bool_decide (array ∈ ie_wholeObjects s) then s
  else
    match re_index re with
    | ConstantExpr CE =>
      let dis := default ∅ (ie_elements s !! array) in
      mkIES (<[array := {[u32 (getZExtValue CE)]} ∪ dis]> (ie_elements s)) (ie_wholeObjects s) (ie_exprs s)
    | _ => mkIES (delete array (ie_elements s)) ({[array]} ∪ ie_wholeObjects s) (ie_exprs s)
    end.

(** [IndependentElementSet(ref<Expr> e)] *)
Definition IndependentElementSet'create (e : Expr) : option IndependentElementSet :=
  reads ← findReads e true;
  Some (foldl add_read (mkIES ∅ ∅ [e]) reads).

(** The loop over [smallerWholeObjects]. *)
Definition whole_hit (smaller larger : gset Array) (elementsWithlarger : gmap Array DenseSet.t) : bool :=
  existsb (fun array => bool_decide (array ∈ larger) || bool_decide (is_Some (elementsWithlarger !! array)))
    (elements smaller).

(** The loop over [smallerElements]. *)
Definition elements_hit (smaller larger : gmap Array DenseSet.t) (wholeObjectsWithlarger : gset Array) : bool :=
  existsb (fun it : Array * DenseSet.t =>
    bool_decide (it.1 ∈ wholeObjectsWithlarger) ||
    match larger !! it.1 with
    | Some ds => DenseSet.intersects it.2 ds
    | None => false
    end) (map_to_list smaller).

Definition intersects (a b : IndependentElementSet) : bool :=
  (if (base.size (ie_wholeObjects a) <? base.size (ie_wholeObjects b))%nat
   then whole_hit (ie_wholeObjects a) (ie_wholeObjects b) (ie_elements b)
   else whole_hit (ie_wholeObjects b) (ie_wholeObjects a) (ie_elements a)) ||
  (if (base.size (ie_elements a) <? base.size (ie_elements b))%nat
   then elements_hit (ie_elements a) (ie_elements b) (ie_wholeObjects b)
   else elements_hit (ie_elements b) (ie_elements a) (ie_wholeObjects a)).

(** The two loops of [add]; the flag is [modified]. *)
Definition add_whole (p : IndependentElementSet * bool) (array : Array) : IndependentElementSet * bool :=
  let '(s, modified) := p in
  match ie_elements s !! array with
  | Some _ => (mkIES (delete array (ie_elements s)) ({[array]} ∪ ie_wholeObjects s) (ie_exprs s), true)
  | None =>
    if bool_decide (array ∈ ie_wholeObjects s) then (s, modified)
    else (mkIES (ie_elements s) ({[array]} ∪ ie_wholeObjects s) (ie_exprs s), true)
  end.

Definition add_elements (p : IndependentElementSet * bool) (it : Array * DenseSet.t)
    : IndependentElementSet * bool :=
  let '(s, modified) := p in
  if bool_decide (it.1 ∈ ie_wholeObjects s) then (s, modified)
  else
    match ie_elements s !! it.1 with
    | None => (mkIES (<[it.1 := it.2]> (ie_elements s)) (ie_wholeObjects s) (ie_exprs s), true)
    | Some ds =>
      let '(ds', m) := DenseSet.add ds it.2 in
      (mkIES (<[it.1 := ds']> (ie_elements s)) (ie_wholeObjects s) (ie_exprs s), m || modified)
    end.

Definition add (a b : IndependentElementSet) : IndependentElementSet * bool :=
  let a := mkIES (ie_elements a) (ie_wholeObjects a) (foldl insert_expr (ie_exprs a) (ie_exprs b)) in
  let p := foldl add_whole (a, false) (elements (ie_wholeObjects b)) in
  foldl add_elements p (map_to_list (ie_elements b)).

(** ** What a set covers *)

Definition covers (s : IndependentElementSet) (a : Array) (i : Z) : Prop :=
  a ∈ ie_wholeObjects s \/ exists ds, ie_elements s !! a = Some ds /\ i ∈ ds.

(** An array is either whole or has elements; the elements are not empty. *)
Record ies_wf (s : IndependentElementSet) : Prop := {
  whole_no_elements a : a ∈ ie_wholeObjects s -> ie_elements s !! a = None;
  elements_nonempty a ds : ie_elements s !! a = Some ds -> ds <> ∅
}.

Definition overlap (s b : IndependentElementSet) : Prop := exists a i, covers s a i /\ covers b a i.

Lemma covers_insert s a ds i b j :
  ie_elements s !! a = None \/ ds = default ∅ (ie_elements s !! a) ->
  covers (mkIES (<[a := {[i]} ∪ ds]> (ie_elements s)) (ie_wholeObjects s) (ie_exprs s)) b j <->
  covers s b j \/ (b = a /\ (j = i \/ j ∈ ds)).
Proof.
  intros Hds. unfold covers. cbn. destruct (decide (a = b)) as [->|Hne].
  - setoid_rewrite lookup_insert_eq. split.
    + intros [?|(d & [= <-] & Hj)]; [auto|]. set_solver.
    + intros [[?|(d & Hd & Hj)]|[_ Hj]]; [auto|right; exists ({[i]} ∪ ds); split; [done|]..].
      * destruct Hds as [Hds| ->]; [congruence|]. rewrite Hd. cbn. set_solver.
      * set_solver.
  - setoid_rewrite lookup_insert_ne; [|done]. naive_solver.
Qed.

Lemma covers_collapse s a b j :
  covers (mkIES (delete a (ie_elements s)) ({[a]} ∪ ie_wholeObjects s) (ie_exprs s)) b j <->
  covers s b j \/ b = a.
Proof.
  unfold covers. cbn. destruct (decide (b = a)) as [->|Hne]; [set_solver|].
  rewrite lookup_delete_ne by done. set_solver.
Qed.

Lemma collapse_wf s a : ies_wf s ->
  ies_wf (mkIES (delete a (ie_elements s)) ({[a]} ∪ ie_wholeObjects s) (ie_exprs s)).
Proof.
  intros [H1 H2]. constructor; cbn.
  - intros b Hb. destruct (decide (b = a)) as [->|Hne]; [apply lookup_delete_eq|].
    rewrite lookup_delete_ne by done. apply H1. set_solver.
  - intros b ds Hb. apply lookup_delete_Some in Hb as [_ Hb]. eauto.
Qed.

Lemma insert_wf_elements s a ds : ies_wf s -> a ∉ ie_wholeObjects s -> ds <> ∅ ->
  ies_wf (mkIES (<[a := ds]> (ie_elements s)) (ie_wholeObjects s) (ie_exprs s)).
Proof.
  intros [H1 H2] Ha Hds. constructor; cbn.
  - intros b Hb. rewrite lookup_insert_ne by set_solver. auto.
  - intros b d Hb. apply lookup_insert_Some in Hb as [[-> <-]|[_ Hb]]; eauto.
Qed.

(** What one read adds. *)
Definition read_covers (re : Read) (a : Array) (i : Z) : Prop :=
  a = re_root re /\ ~ (isConstantArray a = true /\ re_head re = un_null) /\
  match re_index re with ConstantExpr CE => i = u32 (getZExtValue CE) | _ => True end.

Lemma add_read_covers s re a i :
  ies_wf s -> covers (add_read s re) a i <-> covers s a i \/ read_covers re a i.
Proof.
  intros Hwf. unfold add_read.
  assert (Hskip : isConstantArray (re_root re) && match re_head re with un_null => true | _ => false end = true <->
                  isConstantArray (re_root re) = true /\ re_head re = un_null)
    by (rewrite andb_true_iff; destruct (re_head re); naive_solver).
  destruct (isConstantArray (re_root re) && _) eqn:E.
  { apply proj1 in Hskip. specialize (Hskip eq_refl). unfold read_covers. naive_solver. }
  assert (Hn : ~ (isConstantArray (re_root re) = true /\ re_head re = un_null)) by (rewrite <- Hskip; done).
  destruct (bool_decide (re_root re ∈ ie_wholeObjects s)) eqn:Ew.
  { apply bool_decide_eq_true in Ew. unfold read_covers, covers. naive_solver. }
  unfold read_covers.
  destruct (re_index re) as [CE| | | | | | | | |] eqn:Ei; try (rewrite covers_collapse; naive_solver).
  rewrite covers_insert by auto. destruct (ie_elements s !! re_root re) as [ds|] eqn:Ed; cbn.
  - split; [|naive_solver]. intros [?|(-> & [->|Hd])]; [auto|naive_solver|]. left. right. eauto.
  - split; [|naive_solver]. intros [?|(-> & [->|Hd])]; [auto|naive_solver|set_solver].
Qed.

Lemma add_read_wf s re : ies_wf s -> ies_wf (add_read s re).
Proof.
  intros Hwf. unfold add_read. destruct (_ && _); [done|]. case_bool_decide as Hw; [done|].
  destruct (re_index re); try now apply collapse_wf.
  apply insert_wf_elements; [done|done|set_solver].
Qed.

Lemma add_read_exprs s re : ie_exprs (add_read s re) = ie_exprs s.
Proof. unfold add_read. destruct (_ && _); [done|]. case_bool_decide; [done|]. now destruct (re_index re). Qed.

Lemma add_reads_spec rs s : ies_wf s ->
  ies_wf (foldl add_read s rs) /\ ie_exprs (foldl add_read s rs) = ie_exprs s /\
  forall a i, covers (foldl add_read s rs) a i <-> covers s a i \/ exists re, re ∈ rs /\ read_covers re a i.
Proof.
  revert s. induction rs as [|re rs IH]; intros s Hs; cbn.
  { split_and!; auto. intros a i. set_solver. }
  destruct (IH (add_read s re)) as (? & He & Hc); [now apply add_read_wf|].
  rewrite add_read_exprs in He. split_and!; auto. intros a i. rewrite Hc, add_read_covers by done.
  setoid_rewrite elem_of_cons. naive_solver.
Qed.

Lemma create_covers {AS : APIntSpec A} e : wf_consts e = true ->
  exists s, IndependentElementSet'create e = Some s /\ ies_wf s /\ ie_exprs s = [e] /\
    forall a i, covers s a i <-> exists re, occurs true e (read_expr re) /\ read_covers re a i.
Proof.
  intros He. destruct (findReads_total true e He) as (rs & Hrs & _ & Hin).
  destruct (add_reads_spec rs (mkIES ∅ ∅ [e])) as (Hwf & Hex & Hc); [constructor; cbn; set_solver|].
  exists (foldl add_read (mkIES ∅ ∅ [e]) rs). unfold IndependentElementSet'create. rewrite Hrs.
  split_and!; auto. intros a i. rewrite Hc. setoid_rewrite Hin. split; [|auto].
  intros [[H|(? & H & _)]|?]; [set_solver|cbn in H; now rewrite lookup_empty in H|done].
Qed.

(** ** Values depend on covered bytes only *)

(** Index constants fit the [unsigned] the elements are kept in (the assert of
    [getZExtValue(32)]). *)
Definition narrow (e : Expr) : Prop :=
  forall re, occurs true e (read_expr re) -> domain (re_root re) <= 32.

Lemma narrow_arrays e : forallb (fun a => domain a <=? 32) (arrays e) = true -> narrow e.
Proof.
  rewrite forallb_forall. intros H re Hre. apply occurs_arrays in Hre. apply Z.leb_le, H, list_elem_of_In, Hre.
  cbn. now left.
Qed.

Section Locality.
Context {AS : APIntSpec A} (rho rho' : valuation).

Definition reads_agree (e : Expr) : Prop :=
  forall re i, occurs true e (read_expr re) -> read_covers re (re_root re) i ->
  rho (re_root re) i = rho' (re_root re) i.

Lemma occurs_inv e k : k ∈ operands true e -> narrow e -> reads_agree e -> narrow k /\ reads_agree k.
Proof. intros Hk Hn Ha. split; intros re; [|intros i]; intros; [apply Hn|apply Ha]; auto; econstructor; eauto. Qed.

Lemma eval_read_agree re us v :
  narrow (read_expr re) -> reads_agree (read_expr re) -> eval rho (re_index re) = Some v ->
  eval_read rho (re_root re) us v = eval_read rho' (re_root re) us v.
Proof.
  intros Hn Ha Hv. unfold eval_read. destruct (array_ok _ && _) eqn:E; [|done]. inv_eval.
  f_equal. unfold read_value. destruct (read_updates us _); [done|]. unfold initial_value.
  destruct (isConstantArray _) eqn:Ec; [done|]. do 2 f_equal.
  specialize (Hn re (occurs_refl _ _)).
  apply Ha; [constructor|]. unfold read_covers. split_and!; [done|intros [? _]; congruence|].
  destruct (re_index re) as [c| | | | | | | | |] eqn:Ei; try done.
  apply eval_const_inv in Hv as [-> Hc]. rewrite getZExtValue_spec by (done || lia).
  unfold u32. rewrite BV.wrap_small; [done|]. apply ap_valid_spec in Hc.
  assert (2 ^ ap_width c <= 2 ^ 32) by (apply Z.pow_le_mono_r; lia). lia.
Qed.

Lemma un_exprs_next next i v k : k ∈ un_exprs next -> k ∈ un_exprs (un_node next i v).
Proof. intros. cbn. set_solver. Qed.

Lemma eval_agree_mut :
  (forall e, narrow e -> reads_agree e -> eval rho e = eval rho' e) /\
  (forall u, (forall k, k ∈ un_exprs u -> narrow k /\ reads_agree k) ->
     forall r, eval_updates rho r u = eval_updates rho' r u).
Proof.
  apply Expr_UpdateNode_ind; intros;
    repeat match goal with
    | Hn : narrow ?e, Ha : reads_agree ?e, IH : narrow ?k -> reads_agree ?k -> eval rho ?k = _ |- _ =>
      let Hk := fresh in
      assert (Hk : narrow k /\ reads_agree k) by (apply (occurs_inv e); [cbn; set_solver|done|done]);
      specialize (IH (proj1 Hk) (proj2 Hk)); clear Hk
    end; cbn [eval eval_updates];
    try (repeat match goal with E : eval rho ?k = eval rho' ?k |- _ => rewrite E; clear E end; reflexivity).
  - match goal with IH : _ -> forall r, eval_updates _ _ _ = _ |- _ => rewrite <- IH end.
    2: { intros k Hk. eapply occurs_inv; [|eassumption..]. cbn. set_solver. }
    destruct (eval_updates rho root head) as [us|]; cbn; [|done]. rewrite <- H0.
    destruct (eval rho index) as [v|] eqn:Ev; cbn; [|done].
    now apply (eval_read_agree (mkRead root head index)).
  - rewrite <- H by (intros k Hk; apply H2, un_exprs_next, Hk).
    destruct (H2 index) as [? ?]; [cbn; set_solver|]. destruct (H2 value) as [? ?]; [cbn; set_solver|].
    now rewrite <- H0, <- H1.
Qed.

End Locality.

(** What the clients rely on: the covered bytes determine the expressions. *)
Definition agree_on (s : IndependentElementSet) (rho rho' : valuation) : Prop :=
  forall a i, covers s a i -> rho a i = rho' a i.

Definition ies_ok (s : IndependentElementSet) : Prop :=
  forall e rho rho', e ∈ ie_exprs s -> agree_on s rho rho' -> eval rho e = eval rho' e.

Lemma create_ok {AS : APIntSpec A} e s :
  wf_consts e = true -> narrow e -> IndependentElementSet'create e = Some s -> ies_ok s.
Proof.
  intros He Hn Hs. destruct (create_covers e He) as (s' & Hs' & _ & Hex & Hc).
  rewrite Hs in Hs'. injection Hs' as <-. intros x rho rho' Hx Ha. rewrite Hex in Hx.
  apply list_elem_of_singleton in Hx as ->. apply eval_agree_mut; [done|].
  intros re i Hre Hi. apply Ha, Hc. eauto.
Qed.

(** ** [add] *)

#[export] Instance covers_dec s a i : Decision (covers s a i).
Proof.
  unfold covers. destruct (ie_elements s !! a) as [ds|] eqn:E.
  - destruct (decide (a ∈ ie_wholeObjects s)); [left; auto|].
    destruct (decide (i ∈ ds)); [left; right; eauto|right]. intros [?|(d & [= <-] & ?)]; done.
  - destruct (decide (a ∈ ie_wholeObjects s)); [left; auto|right]. intros [?|(d & ? & ?)]; done.
Defined.

(** One step of a loop of [add]: it covers what it covered and [new], and
    [modified] records whether that is more. *)
Definition grows (s : IndependentElementSet) (m : bool) (p : IndependentElementSet * bool)
    (new : Array -> Z -> Prop) : Prop :=
  ies_wf p.1 /\ ie_exprs p.1 = ie_exprs s /\
  (forall a i, covers p.1 a i <-> covers s a i \/ new a i) /\
  (p.2 = true <-> m = true \/ exists a i, new a i /\ ~ covers s a i).

Lemma grows_fold {X} (f : IndependentElementSet * bool -> X -> IndependentElementSet * bool)
    (new : X -> Array -> Z -> Prop) (l : list X) :
  (forall s m x, x ∈ l -> ies_wf s -> grows s m (f (s, m) x) (new x)) ->
  forall s m, ies_wf s -> grows s m (foldl f (s, m) l) (fun a i => exists x, x ∈ l /\ new x a i).
Proof.
  induction l as [|x l IH]; intros Hf s m Hs; cbn [foldl].
  { split_and!; cbn; [done|done|set_solver|set_solver]. }
  pose proof (Hf s m x ltac:(now left) Hs) as (H1 & H2 & H3 & H4).
  destruct (f (s, m) x) as [s1 m1]. cbn in *.
  destruct (IH ltac:(intros; apply Hf; [now right|done]) s1 m1 H1) as (K1 & K2 & K3 & K4).
  unfold grows. setoid_rewrite elem_of_cons. split_and!; [done|congruence| |].
  - intros a i. rewrite K3, H3. naive_solver.
  - rewrite K4, H4. split.
    + intros [[?|(a & i & ? & ?)]|(a & i & (y & ? & ?) & Hn)]; [auto|right; exists a, i; eauto|].
      right. exists a, i. rewrite H3 in Hn. naive_solver.
    + intros [?|(a & i & (y & [->|Hy] & Hny) & Hn)]; [auto|left; right; eauto|].
      destruct (decide (covers s1 a i)) as [Hc|Hc]; [|right; exists a, i; eauto].
      left. right. exists a, i. apply H3 in Hc. naive_solver.
Qed.

Lemma uncovered s a : ies_wf s -> a ∉ ie_wholeObjects s -> exists i, ~ covers s a i.
Proof.
  intros Hs Ha. exists (fresh (default ∅ (ie_elements s !! a))). intros [?|(ds & E & Hi)]; [done|].
  rewrite E in Hi. cbn in Hi. now apply is_fresh in Hi.
Qed.

Lemma add_whole_grows s m a : ies_wf s -> grows s m (add_whole (s, m) a) (fun b _ => b = a).
Proof.
  intros Hs. unfold grows, add_whole.
  assert (Hnew : a ∉ ie_wholeObjects s -> true = true <-> m = true \/ (exists b i, b = a /\ ~ covers s b i)).
  { intros Ha. split; [|done]. intros _. right. destruct (uncovered s a Hs Ha) as [i Hi]. eauto. }
  destruct (ie_elements s !! a) as [ds|] eqn:E; [|case_bool_decide as Hw]; cbn [fst snd].
  - split_and!; [now apply collapse_wf|done|intros; apply covers_collapse|apply Hnew].
    intros Hw. apply (whole_no_elements _ Hs) in Hw. congruence.
  - split_and!; [done|done|intros b i; unfold covers; naive_solver|].
    split; [auto|]. intros [?|(b & i & -> & Hn)]; [done|]. destruct Hn. now left.
  - assert (Hd : delete a (ie_elements s) = ie_elements s) by (now apply delete_id).
    pose proof (collapse_wf s a Hs) as Hcw. pose proof (covers_collapse s a) as Hcc. rewrite Hd in Hcw, Hcc.
    split_and!; [done|done|intros; apply Hcc|now apply Hnew].
Qed.

Lemma covers_put s a d b i : a ∉ ie_wholeObjects s ->
  covers (mkIES (<[a := d]> (ie_elements s)) (ie_wholeObjects s) (ie_exprs s)) b i <->
  (b <> a /\ covers s b i) \/ (b = a /\ i ∈ d).
Proof.
  intros Ha. unfold covers. cbn. destruct (decide (b = a)) as [->|Hb].
  - rewrite lookup_insert_eq. naive_solver.
  - rewrite lookup_insert_ne by done. naive_solver.
Qed.

Lemma covers_elements s a d b i : a ∉ ie_wholeObjects s -> ie_elements s !! a = Some d ->
  covers s b i <-> (b <> a /\ covers s b i) \/ (b = a /\ i ∈ d).
Proof.
  intros Ha E. destruct (decide (b = a)) as [->|Hb]; [|naive_solver]. unfold covers. rewrite E. naive_solver.
Qed.

Lemma covers_none s a i : a ∉ ie_wholeObjects s -> ie_elements s !! a = None -> covers s a i <-> False.
Proof. intros Ha E. unfold covers. rewrite E. naive_solver. Qed.

Lemma add_elements_grows s m (it : Array * DenseSet.t) :
  ies_wf s -> it.2 <> ∅ -> grows s m (add_elements (s, m) it) (fun b i => b = it.1 /\ i ∈ it.2).
Proof.
  intros Hs Hne. destruct it as [a ds]. cbn in Hne. unfold grows, add_elements. cbn [fst snd].
  case_bool_decide as Hw.
  { split_and!; [done|done|intros b i; unfold covers; naive_solver|].
    split; [auto|]. intros [?|(b & i & [-> _] & Hn)]; [done|]. destruct Hn. now left. }
  destruct (ie_elements s !! a) as [d|] eqn:E.
  - pose proof (DenseSet.add_spec d ds) as [H1 H2]. destruct (DenseSet.add d ds) as [d' m'].
    cbn [fst snd] in *. subst d'.
    split_and!; [apply insert_wf_elements; [done|done|set_solver]|done| |].
    + intros b i. cbn [fst]. rewrite covers_put, (covers_elements s a d) by done. rewrite elem_of_union. naive_solver.
    + rewrite orb_true_iff, H2. split.
      * intros [Hn|?]; [right|auto]. destruct (set_choose_or_empty (ds ∖ d)) as [[i Hi]|He].
        -- exists a, i. split; [set_solver|]. intros [?|(x & Ex & Hx)]; [done|]. rewrite E in Ex. set_solver.
        -- destruct Hn. intros i Hi. destruct (decide (i ∈ d)); [done|].
           assert (Hd : i ∈ ds ∖ d) by (now apply elem_of_difference). rewrite He in Hd. set_solver.
      * intros [?|(b & i & [-> Hi] & Hn)]; [auto|left]. intros Hsub. apply Hn. right. eauto.
  - split_and!; [now apply insert_wf_elements|done| |].
    + intros b i. cbn [fst]. rewrite covers_put by done. destruct (decide (b = a)) as [->|]; [|naive_solver].
      rewrite covers_none by done. naive_solver.
    + cbn. split; [|done]. intros _. right. destruct (set_choose_L ds Hne) as [i Hi]. exists a, i.
      split; [done|]. intros [?|(x & Ex & Hx)]; [done|congruence].
Qed.

Lemma insert_exprs_spec {AS : APIntSpec A} l' l :
  Forall (fun e => wf_consts e = true) l -> Forall (fun e => wf_consts e = true) l' -> NoDup l ->
  (forall e, e ∈ foldl insert_expr l l' <-> e ∈ l \/ e ∈ l') /\ NoDup (foldl insert_expr l l').
Proof.
  intros Hl Hl'. revert l Hl. induction Hl' as [|x l' Hx Hl' IH]; intros l Hl Hn; cbn [foldl].
  { split; [set_solver|done]. }
  unfold insert_expr at 2 4. destruct (existsb (Expr_eqb x) l) eqn:E.
  - apply existsb_Expr_eqb in E; auto. destruct (IH l Hl Hn) as [H1 H2]. split; [|done].
    intros e. rewrite H1, elem_of_cons. naive_solver.
  - destruct (IH (l ++ [x])) as [H1 H2]; [apply Forall_app; auto| |].
    + apply NoDup_app. split_and!; [done| |apply NoDup_singleton].
      intros y Hy ->%list_elem_of_singleton. apply existsb_Expr_eqb in Hy; auto. congruence.
    + split; [|done]. intros e. rewrite H1, elem_of_cons, elem_of_app, list_elem_of_singleton. naive_solver.
Qed.

Lemma add_grows a b : ies_wf a -> ies_wf b ->
  ies_wf (add a b).1 /\ ie_exprs (add a b).1 = foldl insert_expr (ie_exprs a) (ie_exprs b) /\
  (forall x i, covers (add a b).1 x i <-> covers a x i \/ covers b x i) /\
  ((add a b).2 = true <-> exists x i, covers b x i /\ ~ covers a x i).
Proof.
  intros Ha Hb. unfold add.
  set (a0 := mkIES (ie_elements a) (ie_wholeObjects a) (foldl insert_expr (ie_exprs a) (ie_exprs b))).
  assert (Ha0 : ies_wf a0) by (destruct Ha; now constructor).
  destruct (grows_fold add_whole _ (elements (ie_wholeObjects b))
    (fun s m x _ Hs => add_whole_grows s m x Hs) a0 false Ha0) as (W1 & W2 & W3 & W4).
  destruct (foldl add_whole (a0, false) _) as [s1 m1]. cbn [fst snd] in *.
  destruct (grows_fold add_elements _ (map_to_list (ie_elements b))
    (fun s m x Hx Hs => add_elements_grows s m x Hs
       (elements_nonempty _ Hb _ _ (proj1 (elem_of_map_to_list' _ _) Hx))) s1 m1 W1) as (E1 & E2 & E3 & E4).
  assert (Hcov : forall x i, covers b x i <->
    (exists y, y ∈ elements (ie_wholeObjects b) /\ x = y) \/
    (exists y, y ∈ map_to_list (ie_elements b) /\ x = y.1 /\ i ∈ y.2)).
  { intros x i. unfold covers. setoid_rewrite elem_of_elements. split.
    - intros [?|(ds & Hds & ?)]; [eauto|right]. exists (x, ds). now rewrite elem_of_map_to_list.
    - intros [(y & ? & ->)|([y ds] & Hy & -> & ?)]; [auto|right]. apply elem_of_map_to_list in Hy. eauto. }
  split_and!; [done|exact (eq_trans E2 W2)| |].
  - intros x i. rewrite E3, W3, Hcov. change (covers a0 x i) with (covers a x i). tauto.
  - rewrite E4, W4. change (covers a0) with (covers a) in *. split.
    + intros [[?|(x & i & ? & ?)]|(x & i & ? & Hn)]; [done|exists x, i; rewrite Hcov; auto|].
      exists x, i. rewrite Hcov. rewrite W3 in Hn. tauto.
    + intros (x & i & Hc & Hn). apply Hcov in Hc as [Hc|Hc]; [left; right; eauto|].
      destruct (decide (covers s1 x i)) as [Hs|Hs]; [|right; eauto].
      apply W3 in Hs as [?|?]; [done|]. left. right. eauto.
Qed.

Lemma add_ok {AS : APIntSpec A} a b :
  ies_wf a -> ies_wf b -> Forall (fun e => wf_consts e = true) (ie_exprs a) ->
  Forall (fun e => wf_consts e = true) (ie_exprs b) -> NoDup (ie_exprs a) ->
  ies_ok a -> ies_ok b -> ies_ok (add a b).1.
Proof.
  intros Ha Hb Wa Wb Na Oa Ob. destruct (add_grows a b Ha Hb) as (_ & He & Hc & _).
  intros e rho rho' Hin Hag. rewrite He in Hin. apply insert_exprs_spec in Hin as [Hin|Hin]; auto;
    [apply (Oa e)|apply (Ob e)]; auto; intros x i Hx; apply Hag, Hc; auto.
Qed.

(** ** [intersects] *)

Lemma whole_hit_spec smaller larger els :
  whole_hit smaller larger els = true <->
  exists a, a ∈ smaller /\ (a ∈ larger \/ is_Some (els !! a)).
Proof.
  unfold whole_hit. rewrite existsb_exists. setoid_rewrite <- list_elem_of_In.
  setoid_rewrite elem_of_elements. setoid_rewrite orb_true_iff. now setoid_rewrite bool_decide_eq_true.
Qed.

Lemma elements_hit_spec smaller larger whole :
  elements_hit smaller larger whole = true <->
  exists a d, smaller !! a = Some d /\
    (a ∈ whole \/ exists d' i, larger !! a = Some d' /\ i ∈ d /\ i ∈ d').
Proof.
  unfold elements_hit. rewrite existsb_exists. setoid_rewrite <- list_elem_of_In. split.
  - intros ([a d] & Hin & H). apply elem_of_map_to_list in Hin. exists a, d. split; [done|]. cbn in H.
    apply orb_true_iff in H as [H|H]; [left; now apply bool_decide_eq_true in H|right].
    destruct (larger !! a) as [d'|]; [|done]. apply DenseSet.intersects_spec in H as (i & ? & ?). eauto.
  - intros (a & d & Ha & H). exists (a, d). rewrite elem_of_map_to_list. split; [done|]. cbn.
    apply orb_true_iff. destruct H as [H|(d' & i & -> & ? & ?)]; [left; now apply bool_decide_eq_true|right].
    apply DenseSet.intersects_spec. eauto.
Qed.

(** The four ways in which two sets share a byte. *)
Lemma overlap_cases a b : ies_wf a -> ies_wf b -> overlap a b <->
  exists x, x ∈ ie_wholeObjects a /\ x ∈ ie_wholeObjects b \/
    x ∈ ie_wholeObjects a /\ is_Some (ie_elements b !! x) \/
    is_Some (ie_elements a !! x) /\ x ∈ ie_wholeObjects b \/
    exists d d' i, ie_elements a !! x = Some d /\ ie_elements b !! x = Some d' /\ i ∈ d /\ i ∈ d'.
Proof.
  intros Ha Hb. unfold overlap, covers. split.
  - intros (x & i & Hx & Hy). exists x. destruct Hx as [?|(? & ? & ?)], Hy as [?|(? & ? & ?)]; eauto 10.
  - intros [x [[? ?]|[[? [d Hd]]|[[[d Hd] ?]|(d & d' & i & ? & ? & ? & ?)]]]].
    + exists x, 0. auto.
    + destruct (set_choose_L d (elements_nonempty _ Hb _ _ Hd)) as [i Hi]. exists x, i. eauto 10.
    + destruct (set_choose_L d (elements_nonempty _ Ha _ _ Hd)) as [i Hi]. exists x, i. eauto 10.
    + exists x, i. eauto 10.
Qed.

(** Both loops search the same set: the one with fewer whole objects also has
    fewer arrays with elements. *)
Definition same_side (a b : IndependentElementSet) : bool :=
  Bool.eqb (base.size (ie_wholeObjects a) <? base.size (ie_wholeObjects b))%nat
           (base.size (ie_elements a) <? base.size (ie_elements b))%nat.

Lemma intersects_overlap a b : ies_wf a -> ies_wf b ->
  (intersects a b = true -> overlap a b) /\
  (same_side a b = true -> overlap a b -> intersects a b = true).
Proof.
  intros Ha Hb. rewrite overlap_cases by done. unfold intersects, same_side. rewrite orb_true_iff.
  destruct (base.size (ie_wholeObjects a) <? _)%nat, (base.size (ie_elements a) <? _)%nat;
    rewrite whole_hit_spec, elements_hit_spec; (split; [|cbn]).
  all: try (intros [(x & ? & [?|?])|(x & d & ? & [?|(d' & i & ? & ? & ?)])]; exists x; eauto 12; fail).
  all: intros Hside; try discriminate Hside.
  all: intros [x [[? ?]|[[? ?]|[[? ?]|(d & d' & i & ? & ? & ? & ?)]]]]; eauto 10;
    match goal with H : is_Some _ |- _ => destruct H; eauto 10 end.
Qed.

End Set_.

(** ** Satisfiability *)

Definition models (rho : valuation) (l : list Expr) : Prop :=
  Forall (fun e => eval rho e = Some (APInt 1 1)) l.

Lemma models_app rho l l' : models rho (l ++ l') <-> models rho l /\ models rho l'.
Proof. apply Forall_app. Qed.

Lemma models_agree s rho rho' : ies_ok s -> agree_on s rho rho' ->
  models rho (ie_exprs s) -> models rho' (ie_exprs s).
Proof.
  unfold models. rewrite !Forall_forall. intros Hs Ha H e He. rewrite <- (Hs e rho rho'); auto.
Qed.

(** The bytes of [a] from [rho], all others from [rho']. *)
Definition combine (a : IndependentElementSet) (rho rho' : valuation) : valuation :=
  fun x i => if decide (covers a x i) then rho x i else rho' x i.

Lemma combine_models a b rho rho' : ies_ok a -> ies_ok b -> ~ overlap a b ->
  models rho (ie_exprs a) -> models rho' (ie_exprs b) ->
  models (combine a rho rho') (ie_exprs a ++ ie_exprs b).
Proof.
  intros Ha Hb Hn H H'. apply models_app. unfold combine. split.
  - apply (models_agree a rho); [done| |done]. intros x i Hc. now rewrite decide_True.
  - apply (models_agree b rho'); [done| |done]. intros x i Hc. rewrite decide_False; [done|].
    intros Hx. apply Hn. now exists x, i.
Qed.

(** ** Claims *)

Section Claims.
Context `{A : APIntOps} {AS : APIntSpec A}.

(** The constructor of [IndependentElementSet] returns, for an expression
    whose read indices fit 32 bits, a set that covers exactly the bytes its
    reads may access, and array contents that agree on these bytes give the
    expression the same value. *)
Theorem independent_set_of_expression (e : Expr) :
  wf_consts e = true -> narrow e ->
  exists s, IndependentElementSet'create e = Some s /\ ie_exprs s = [e] /\
    (forall a i, covers s a i <-> exists re, occurs true e (read_expr re) /\ read_covers re a i) /\
    forall rho rho', agree_on s rho rho' -> eval rho e = eval rho' e.
Proof.
  intros He Hn. destruct (create_covers e He) as (s & Hs & _ & Hex & Hc). exists s. split_and!; auto.
  intros rho rho' Ha. apply (create_ok e s He Hn Hs); [|done]. rewrite Hex. now left.
Qed.

(** [add] returns the union of the expressions and of the covered bytes,
    and returns true exactly when bytes were added. *)
Theorem independent_set_add (a b : IndependentElementSet) :
  ies_wf a -> ies_wf b -> NoDup (ie_exprs a) ->
  Forall (fun e => wf_consts e = true) (ie_exprs a ++ ie_exprs b) ->
  ies_wf (add a b).1 /\ NoDup (ie_exprs (add a b).1) /\
  (forall e, e ∈ ie_exprs (add a b).1 <-> e ∈ ie_exprs a \/ e ∈ ie_exprs b) /\
  (forall x i, covers (add a b).1 x i <-> covers a x i \/ covers b x i) /\
  ((add a b).2 = true <-> exists x i, covers b x i /\ ~ covers a x i) /\
  (ies_ok a -> ies_ok b -> ies_ok (add a b).1).
Proof.
  intros Ha Hb Hn [Wa Wb]%Forall_app. destruct (add_grows a b Ha Hb) as (? & He & ? & ?).
  destruct (insert_exprs_spec (ie_exprs b) (ie_exprs a)) as [Hin Hnd]; auto.
  rewrite He. split_and!; auto. intros. now apply add_ok.
Qed.

(** Sets of constraints without a common byte can be solved one by one: if
    each one has a model, so have both together, with the bytes of the first
    set taken from the first model and all others from the second.  When both
    loops of [intersects] search the same set, a negative answer of
    [intersects] is enough; a positive one always means a common byte. *)
Theorem independent_sets_satisfiable (a b : IndependentElementSet) :
  ies_wf a -> ies_wf b ->
  (intersects a b = true -> overlap a b) /\
  (same_side a b = true -> overlap a b -> intersects a b = true) /\
  (ies_ok a -> ies_ok b -> ~ overlap a b ->
   forall rho rho', models rho (ie_exprs a) -> models rho' (ie_exprs b) ->
   models (combine a rho rho') (ie_exprs a ++ ie_exprs b)).
Proof.
  intros Ha Hb. destruct (intersects_overlap a b Ha Hb). split_and!; auto.
  intros. now apply combine_models.
Qed.

End Claims.

(** ** A common byte [intersects] misses *)

Definition buf : Array := mkArray 1 "buf" 4 32 8 [].
Definition byte_at (i : Expr) : Expr := ReadExpr buf un_null i.
Definition const (w v : Z) : Expr := ConstantExpr (APInt w v).

(** [buf[0] == 1], and [buf[0] == 0 && buf[buf[0]] == 0]. *)
Definition first_is_one : Expr := CmpExpr Eq (const 8 1) (byte_at (const 32 0)).
Definition first_is_zero : Expr :=
  BinaryExpr And (CmpExpr Eq (const 8 0) (byte_at (const 32 0)))
    (CmpExpr Eq (const 8 0) (byte_at (CastExpr ZExt (byte_at (const 32 0)) 32))).

(** [intersects] answers false in both directions for [buf[0] == 1] and
    [buf[0] == 0 && buf[buf[0]] == 0], although both read [buf[0]]: each
    constraint is satisfiable, and both together are not.  The set with fewer
    whole objects is compared in the first loop and the one with fewer elements
    in the second, so a whole object of the one set is never compared with the
    elements of the other. *)
Theorem intersects_misses_overlap :
  exists s1 s2,
    @IndependentElementSet'create apint_ref first_is_one = Some s1 /\
    @IndependentElementSet'create apint_ref first_is_zero = Some s2 /\
    intersects s1 s2 = false /\ intersects s2 s1 = false /\
    (exists rho, models rho (ie_exprs s1)) /\ (exists rho, models rho (ie_exprs s2)) /\
    ~ exists rho, models rho (ie_exprs s1 ++ ie_exprs s2).
Proof.
  eexists _, _. split_and!; [vm_compute; reflexivity..| | |].
  - exists (fun _ _ => 1). repeat constructor.
  - exists (fun _ _ => 0). repeat constructor.
  - intros [rho H]. apply Forall_cons in H as [H1 [H2 _]%Forall_cons].
    assert (E1 : eval rho first_is_one = Some (APInt 1 (b2z (1 =? BV.wrap 8 (rho buf 0))))) by reflexivity.
    pose proof (eq_trans (eq_sym E1) H1) as H1'. apply eval_binary_inv in H2 as (x & y & Hx & _ & _ & _ & _ & Hv).
    assert (E2 : eval rho (CmpExpr Eq (const 8 0) (byte_at (const 32 0))) =
                 Some (APInt 1 (b2z (0 =? BV.wrap 8 (rho buf 0))))) by reflexivity.
    pose proof (eq_trans (eq_sym E2) Hx) as Hx'. generalize dependent (BV.wrap 8 (rho buf 0)).
    destruct Hv as [_ Hv]. clear - Hv. intros w _ Hw _ Hx. destruct (Z.eqb_spec 1 w) as [E|]; [|done].
    rewrite <- E in Hx. injection Hx as <-. done.
Qed.

(** ** Concrete sets *)

Lemma independent_set_of_expression_witness :
  exists s, IndependentElementSet'create (A:=apint_ref) first_is_zero = Some s /\ ie_exprs s = [first_is_zero] /\
    (forall a i, covers s a i <->
       exists re, occurs true first_is_zero (read_expr re) /\ read_covers (A:=apint_ref) re a i) /\
    forall rho rho', agree_on s rho rho' -> eval rho first_is_zero = eval rho' first_is_zero.
Proof.
  apply (independent_set_of_expression (A:=apint_ref) (AS:=apint_ref_spec) first_is_zero);
    [reflexivity|now apply narrow_arrays].
Defined.

(** [buf[2] == 3]. *)
Definition third_is_three : Expr := CmpExpr Eq (const 8 3) (byte_at (const 32 2)).

Definition set_of (i : Z) (e : Expr) : IndependentElementSet := mkIES {[buf := {[i]}]} ∅ [e].

Lemma set_of_wf i e : ies_wf (set_of i e).
Proof.
  constructor; cbn; [set_solver|]. intros a ds [_ <-]%lookup_singleton_Some. set_solver.
Qed.

Lemma create_first : IndependentElementSet'create (A:=apint_ref) first_is_one = Some (set_of 0 first_is_one).
Proof. reflexivity. Qed.
Lemma create_third : IndependentElementSet'create (A:=apint_ref) third_is_three = Some (set_of 2 third_is_three).
Proof. reflexivity. Qed.

Lemma independent_set_add_witness :
  let s := (add (A:=apint_ref) (set_of 0 first_is_one) (set_of 2 third_is_three)).1 in
  ie_exprs s = [first_is_one; third_is_three] /\
  (forall x i, covers s x i <-> covers (set_of 0 first_is_one) x i \/ covers (set_of 2 third_is_three) x i).
Proof.
  split; [vm_compute; reflexivity|].
  refine (proj1 (proj2 (proj2 (proj2 (independent_set_add (A:=apint_ref) (AS:=apint_ref_spec)
    (set_of 0 first_is_one) (set_of 2 third_is_three) _ _ _ _))))); try apply set_of_wf.
  - apply NoDup_singleton.
  - repeat constructor.
Defined.

Lemma independent_sets_satisfiable_witness :
  models (combine (set_of 0 first_is_one) (fun _ _ => 1) (fun _ _ => 3)) ([first_is_one] ++ [third_is_three]).
Proof.
  destruct (independent_sets_satisfiable (set_of 0 first_is_one) (set_of 2 third_is_three)
    (set_of_wf _ _) (set_of_wf _ _)) as (_ & Hexact & Hmodels).
  apply Hmodels.
  - apply (create_ok (A:=apint_ref) (AS:=apint_ref_spec) first_is_one);
      [reflexivity|now apply narrow_arrays|exact create_first].
  - apply (create_ok (A:=apint_ref) (AS:=apint_ref_spec) third_is_three);
      [reflexivity|now apply narrow_arrays|exact create_third].
  - intros Ho. assert (Hf : intersects (set_of 0 first_is_one) (set_of 2 third_is_three) = false)
      by (vm_compute; reflexivity).
    rewrite Hexact in Hf; [discriminate Hf|vm_compute; reflexivity|exact Ho].
  - repeat constructor.
  - repeat constructor.
Defined.
