(* ===== verification/FactorIndex.v ===== *)
(** * The index of the factors

    The class [IndepElementSetIndexer] of src/include/klee/Expr/Constraints.h
    and src/lib/Expr/Constraints.cpp: it maps each byte of the factors of a
    constraint set to the factor it belongs to.

    An [IndependentElementSet *] is a number, and a map from such numbers is the
    heap.  [None] is a failing assert or an access outside a vector.  The
    unordered containers are traversed in one order here; the lemmas describe
    the result by what the sets cover and do not depend on it.

    [exact] is the invariant of the class.  On an exact index every operation
    returns: no assert fails and no vector is accessed out of range. *)

From stdpp Require Import gmap strings.
From S2P Require Import Prelude APInt Expr ExprOrder ExprSem ExprCreate ExprVisitor ExprUtil IndependentElementSet.

Definition ptr := positive.

(** [IndepElementSetIndexer] *)
Record Indexer := mkIndexer {
  elements_index : gmap Array (list (option ptr));
  wholeObj_index : gmap Array ptr;
  factors : gset ptr
}.

(** [assert(b)] *)
Definition assert (b : bool) : option unit := if b then Some tt else None.

(** A loop whose body may fail. *)
Fixpoint foldM {X Y} (f : X -> Y -> option X) (x : X) (l : list Y) : option X :=
  match l with [] => Some x | y :: l => x' ← f x y; foldM f x' l end.

Definition is_none {X} (o : option X) : bool := match o with None => true | Some _ => false end.

(** [vec[index] = p] *)
Definition vec_set (p : option ptr) (vec : list (option ptr)) (index : Z) : option (list (option ptr)) :=
  _ ← assert ((0 <=? index) && (index <? Z.of_nat (length vec)));
  Some (<[Z.to_nat index := p]> vec).

(** ** The indexer *)

Definition redirect_whole (dst : ptr) (ix : Indexer) (arr : Array) : Indexer :=
  mkIndexer (delete arr (elements_index ix)) (<[arr := dst]> (wholeObj_index ix)) (factors ix).

Definition redirect_elements (dst : ptr) (ix : Indexer) (elem : Array * DenseSet.t) : option Indexer :=
  let arr := elem.1 in
  match wholeObj_index ix !! arr with
  | Some _ => Some (mkIndexer (elements_index ix) (<[arr := dst]> (wholeObj_index ix)) (factors ix))
  | None =>
    let vec := default (replicate (Z.to_nat (Expr.size arr)) None) (elements_index ix !! arr) in
    vec' ← foldM (vec_set (Some dst)) vec (elements elem.2);
    Some (mkIndexer (<[arr := vec']> (elements_index ix)) (wholeObj_index ix) (factors ix))
  end.

Definition redirect (ix : Indexer) (src : IndependentElementSet) (dst : ptr) : option Indexer :=
  let ix := foldl (redirect_whole dst) ix (elements (ie_wholeObjects src)) in
  foldM (redirect_elements dst) ix (map_to_list (ie_elements src)).

(** [insert(indep)], [indep] a pointer to [s]. *)
Definition Indexer_insert (ix : Indexer) (indep : ptr) (s : IndependentElementSet) : option Indexer :=
  ix ← redirect ix s indep;
  Some (mkIndexer (elements_index ix) (wholeObj_index ix) ({[indep]} ∪ factors ix)).

Definition erase_whole (ix : Indexer) (arr : Array) : option Indexer :=
  _ ← assert (is_none (elements_index ix !! arr));
  Some (mkIndexer (elements_index ix) (delete arr (wholeObj_index ix)) (factors ix)).

Definition erase_elements (ix : Indexer) (elem : Array * DenseSet.t) : option Indexer :=
  let arr := elem.1 in
  _ ← assert (is_none (wholeObj_index ix !! arr));
  match elements_index ix !! arr with
  | None => Some ix
  | Some vec =>
    vec' ← foldM (vec_set None) vec (elements elem.2);
    Some (mkIndexer (<[arr := vec']> (elements_index ix)) (wholeObj_index ix) (factors ix))
  end.

Definition Indexer_erase (ix : Indexer) (indep : ptr) (s : IndependentElementSet) : option Indexer :=
  ix ← foldM erase_whole ix (elements (ie_wholeObjects s));
  ix ← foldM erase_elements ix (map_to_list (ie_elements s));
  Some (mkIndexer (elements_index ix) (wholeObj_index ix) (factors ix ∖ {[indep]})).

(** The non-null pointers of a vector. *)
Definition non_null (vec : list (option ptr)) : gset ptr := list_to_set (omap id vec).

Definition intersect_whole (ix : Indexer) (out : gset ptr) (arr : Array) : option (gset ptr) :=
  match wholeObj_index ix !! arr, elements_index ix !! arr with
  | Some p, None => Some ({[p]} ∪ out)
  | Some _, Some _ => None        (* assert(elem_it == elements_index.end()) *)
  | None, Some vec => Some (non_null vec ∪ out)
  | None, None => Some out
  end.

(** [vec[index]], inserted in [out] if it is not null. *)
Definition vec_get (vec : list (option ptr)) (out : gset ptr) (index : Z) : option (gset ptr) :=
  _ ← assert ((0 <=? index) && (index <? Z.of_nat (length vec)));
  match vec !! Z.to_nat index with
  | Some (Some p) => Some ({[p]} ∪ out)
  | _ => Some out
  end.

Definition intersect_elements (ix : Indexer) (out : gset ptr) (item : Array * DenseSet.t) : option (gset ptr) :=
  let arr := item.1 in
  match wholeObj_index ix !! arr, elements_index ix !! arr with
  | Some p, None => Some ({[p]} ∪ out)
  | Some _, Some _ => None
  | None, Some vec => foldM (vec_get vec) out (elements item.2)
  | None, None => Some out
  end.

Definition getIntersection (ix : Indexer) (indep : IndependentElementSet) : option (gset ptr) :=
  out ← foldM (intersect_whole ix) ∅ (elements (ie_wholeObjects indep));
  foldM (intersect_elements ix) out (map_to_list (ie_elements indep)).

(** ** Facts about the loops *)

Lemma assert_Some b (x : unit) : assert b = Some x -> b = true.
Proof. now destruct b. Qed.

Lemma is_none_true {X} (o : option X) : is_none o = true -> o = None.
Proof. now destruct o. Qed.

(** An invariant of a loop with a body that may fail. *)
Lemma foldM_inv {X Y} (I : X -> list Y -> Prop) (f : X -> Y -> option X) l x x' :
  (forall x y l x', I x (y :: l) -> f x y = Some x' -> I x' l) ->
  I x l -> foldM f x l = Some x' -> I x' [].
Proof.
  intros Hf. revert x. induction l as [|y l IH]; cbn; intros x Hx H; [now injection H as <-|].
  apply bind_Some in H as (x1 & E & H). eapply IH; [|exact H]. eapply Hf; eauto.
Qed.

Lemma vec_set_spec p vec i vec' :
  vec_set p vec i = Some vec' -> 0 <= i < Z.of_nat (length vec) /\ vec' = <[Z.to_nat i := p]> vec.
Proof.
  unfold vec_set. intros H. apply bind_Some in H as (x & Ha & H). apply assert_Some in Ha.
  apply andb_true_iff in Ha as [?%Z.leb_le ?%Z.ltb_lt]. now injection H as <-.
Qed.

(** All indices of [l] are set to [p]. *)
Lemma vec_sets_spec p l vec vec' : foldM (vec_set p) vec l = Some vec' ->
  length vec' = length vec /\
  (forall i, i ∈ l -> 0 <= i < Z.of_nat (length vec)) /\
  (forall j, vec' !! j = if decide (Z.of_nat j ∈ l) then Some p else vec !! j).
Proof.
  revert vec. induction l as [|i l IH]; cbn; intros vec H.
  { injection H as <-. split_and!; [done|set_solver|]. intros j. rewrite decide_False by set_solver. done. }
  apply bind_Some in H as (v1 & E & H). apply vec_set_spec in E as [Hi ->].
  destruct (IH _ H) as (Hlen & Hin & Hj). rewrite length_insert in *. split_and!; [done| |].
  - intros k [->|Hk]%elem_of_cons; [lia|auto].
  - intros j. rewrite Hj. destruct (decide (Z.of_nat j ∈ l)); [rewrite decide_True by set_solver; done|].
    destruct (decide (Z.of_nat j = i)) as [<-|Hne].
    + rewrite decide_True by set_solver. rewrite Nat2Z.id. apply list_lookup_insert_eq. lia.
    + rewrite decide_False by set_solver. apply list_lookup_insert_ne. lia.
Qed.

(** ** The index points to factors *)

Definition touches (s : IndependentElementSet) (a : Array) : Prop :=
  a ∈ ie_wholeObjects s \/ is_Some (ie_elements s !! a).

(** The entries of the two indices. *)
Definition whole_entry (ix : Indexer) (a : Array) (p : ptr) : Prop := wholeObj_index ix !! a = Some p.
Definition element_entry (ix : Indexer) (a : Array) (i : nat) (p : ptr) : Prop :=
  exists vec, elements_index ix !! a = Some vec /\ vec !! i = Some (Some p).

Lemma redirect_whole_entries dst l ix :
  let ix' := foldl (redirect_whole dst) ix l in
  factors ix' = factors ix /\
  (forall a p, whole_entry ix' a p -> whole_entry ix a p \/ p = dst /\ a ∈ l) /\
  (forall a i p, element_entry ix' a i p -> element_entry ix a i p).
Proof.
  revert ix. induction l as [|b l IH]; intros ix; cbn; [split_and!; auto|].
  destruct (IH (redirect_whole dst ix b)) as (Hf & Hw & He). cbn in Hf. split_and!; [done| |].
  - intros a p [H|[-> H]]%Hw; [|set_solver]. unfold whole_entry in H. cbn in H.
    apply lookup_insert_Some in H as [[-> <-]|[_ H]]; [right; set_solver|now left].
  - intros a i p (vec & H & ?)%He. cbn in H. apply lookup_delete_Some in H as [_ H]. now exists vec.
Qed.

Lemma redirect_elements_entries dst l ix ix' :
  foldM (redirect_elements dst) ix l = Some ix' ->
  factors ix' = factors ix /\
  (forall a p, whole_entry ix' a p -> whole_entry ix a p \/ p = dst /\ exists ds, (a, ds) ∈ l) /\
  (forall a i p, element_entry ix' a i p ->
     element_entry ix a i p \/ p = dst /\ exists ds, (a, ds) ∈ l /\ Z.of_nat i ∈ ds).
Proof.
  revert ix. induction l as [|[b ds] l IH]; cbn; intros ix H.
  { injection H as <-. split_and!; auto. }
  apply bind_Some in H as (ix1 & E & H). destruct (IH _ H) as (Hf & Hw & He). clear IH H.
  unfold redirect_elements in E. cbn in E. destruct (wholeObj_index ix !! b) as [q|] eqn:Eb.
  - injection E as <-. cbn in Hf. split_and!; [done| |].
    + intros a p [H|(-> & d & H)]%Hw; [|right; split; [done|]; exists d; now right]. unfold whole_entry in H. cbn in H.
      apply lookup_insert_Some in H as [[-> <-]|[_ H]]; [right; split; [done|]; exists ds; now left|now left].
    + intros a i p [H|(-> & d & H & Hi)]%He; [left; exact H|]. right. split; [done|]. exists d. split; [now right|done].
  - apply bind_Some in E as (vec & E & [= <-]). apply vec_sets_spec in E as (_ & _ & Hj). cbn in Hf. split_and!; [done| |].
    + intros a p [H|(-> & d & H)]%Hw; [now left|right]. split; [done|]. exists d. now right.
    + intros a i p [(v & H & Hi)|(-> & d & H & Hi)]%He; [|right; split; [done|]; exists d; split; [now right|done]].
      cbn in H. apply lookup_insert_Some in H as [[-> <-]|[_ H]]; [|left; now exists v].
      rewrite Hj in Hi. destruct (decide _) as [Hin|]; [right|].
      * injection Hi as <-. split; [done|]. exists ds. split; [now left|]. now apply elem_of_elements.
      * left. destruct (elements_index ix !! a) as [v|] eqn:Ea; cbn in Hi; [now exists v|].
        apply lookup_replicate in Hi as [? _]. done.
Qed.

Lemma redirect_entries ix src dst ix' : redirect ix src dst = Some ix' ->
  factors ix' = factors ix /\
  (forall a p, whole_entry ix' a p -> whole_entry ix a p \/ p = dst /\ touches src a) /\
  (forall a i p, element_entry ix' a i p -> element_entry ix a i p \/ p = dst /\ covers src a (Z.of_nat i)).
Proof.
  unfold redirect. intros H. apply redirect_elements_entries in H as (Hf & Hw & He).
  destruct (redirect_whole_entries dst (elements (ie_wholeObjects src)) ix) as (Hf' & Hw' & He').
  cbn zeta in Hf', Hw', He'. split_and!; [congruence| |].
  - intros a p [[H|[-> H]]%Hw'|(-> & ds & H)]%Hw; [auto|right..]; (split; [done|]).
    + left. now apply elem_of_elements.
    + right. apply elem_of_map_to_list in H. eauto.
  - intros a i p [H|(-> & ds & H & Hi)]%He; [left; auto|right]. split; [done|].
    right. exists ds. now apply elem_of_map_to_list in H.
Qed.

Lemma erase_whole_entries l ix ix' : foldM erase_whole ix l = Some ix' ->
  factors ix' = factors ix /\ (forall a, a ∈ l -> elements_index ix' !! a = None) /\
  elements_index ix' = elements_index ix /\
  (forall a p, whole_entry ix' a p <-> whole_entry ix a p /\ a ∉ l).
Proof.
  revert ix. induction l as [|b l IH]; cbn; intros ix H.
  { injection H as <-. split_and!; [done|set_solver|done|set_solver]. }
  apply bind_Some in H as (ix1 & E & H). unfold erase_whole in E. apply bind_Some in E as (? & Ha & [= <-]).
  apply assert_Some in Ha. destruct (IH _ H) as (Hf & Hn & He & Hw). cbn in *. split_and!; [done| |done|].
  - intros a [->|Ha']%elem_of_cons; [|auto]. rewrite He. now apply is_none_true.
  - intros a p. rewrite Hw. unfold whole_entry. cbn. rewrite lookup_delete_Some, not_elem_of_cons. naive_solver.
Qed.

Lemma erase_elements_entries l ix ix' : foldM erase_elements ix l = Some ix' ->
  factors ix' = factors ix /\ wholeObj_index ix' = wholeObj_index ix /\
  (forall a ds, (a, ds) ∈ l -> wholeObj_index ix !! a = None) /\
  (forall a i p, element_entry ix' a i p <->
     element_entry ix a i p /\ ~ exists ds, (a, ds) ∈ l /\ Z.of_nat i ∈ ds).
Proof.
  revert ix. induction l as [|[b ds] l IH]; cbn; intros ix H.
  { injection H as <-. split_and!; [done|done|set_solver|]. intros. split; [|tauto].
    intros. split; [done|]. intros (? & ? & _). set_solver. }
  apply bind_Some in H as (ix1 & E & H). unfold erase_elements in E. cbn in E.
  apply bind_Some in E as (? & Ha & E). apply assert_Some in Ha.
  destruct (IH _ H) as (Hf & Hw & Hn & He). clear IH H.
  assert (Hix1 : factors ix1 = factors ix /\ wholeObj_index ix1 = wholeObj_index ix /\
    (forall a i p, element_entry ix1 a i p <-> element_entry ix a i p /\ ~ (a = b /\ Z.of_nat i ∈ ds))).
  { destruct (elements_index ix !! b) as [vec|] eqn:Eb; [apply bind_Some in E as (vec' & E & [= <-])|injection E as <-].
    - apply vec_sets_spec in E as (_ & _ & Hj). split_and!; [done|done|]. intros a i p. unfold element_entry. cbn.
      destruct (decide (a = b)) as [->|Hab].
      + rewrite lookup_insert_eq, Eb. setoid_rewrite <- elem_of_elements. split.
        * intros (v & [= <-] & Hi). rewrite Hj in Hi. destruct (decide _); [done|]. split; [eauto|tauto].
        * intros [(v & [= <-] & Hi) Hni]. exists vec'. split; [done|]. rewrite Hj, decide_False; [done|].
          intros Hin. apply Hni. now split.
      + rewrite lookup_insert_ne by done. naive_solver.
    - split_and!; [done|done|]. intros a i p. split; [|tauto]. intros (v & Hv & Hi). split; [now exists v|].
      intros [-> _]. congruence. }
  destruct Hix1 as (H1 & H2 & H3). split_and!; [congruence|congruence| |].
  - intros a d [[= -> ->]|Hin]%elem_of_cons; [now apply is_none_true|]. rewrite <- H2. eauto.
  - intros a i p. rewrite He, H3. setoid_rewrite elem_of_cons. naive_solver.
Qed.

Lemma erase_entries ix p s ix' : Indexer_erase ix p s = Some ix' ->
  factors ix' = factors ix ∖ {[p]} /\
  (forall a q, whole_entry ix' a q <-> whole_entry ix a q /\ ~ touches s a) /\
  (forall a i q, element_entry ix' a i q <-> element_entry ix a i q /\ ~ covers s a (Z.of_nat i)).
Proof.
  unfold Indexer_erase. intros H. apply bind_Some in H as (ix1 & E1 & H). apply bind_Some in H as (ix2 & E2 & [= <-]).
  apply erase_whole_entries in E1 as (Hf1 & Hn1 & He1 & Hw1).
  apply erase_elements_entries in E2 as (Hf2 & Hw2 & Hn2 & He2). cbn.
  setoid_rewrite elem_of_map_to_list in Hn2. setoid_rewrite elem_of_map_to_list in He2.
  setoid_rewrite elem_of_elements in Hn1. setoid_rewrite elem_of_elements in Hw1.
  split_and!; [congruence| |].
  - intros a q. unfold whole_entry in *. cbn. rewrite Hw2, Hw1. unfold touches. split.
    + intros [H Ha]. split; [done|]. intros [?|[ds Hds]]; [done|]. specialize (Hn2 _ _ Hds).
      enough (wholeObj_index ix1 !! a = Some q) by congruence. now apply Hw1.
    + naive_solver.
  - intros a i q. unfold covers.
    transitivity (element_entry ix2 a i q); [done|]. rewrite He2.
    assert (Heq : element_entry ix1 a i q <-> element_entry ix a i q) by (unfold element_entry; now rewrite He1).
    rewrite Heq. split; [|naive_solver]. intros [Hx Hn]. split; [done|]. intros [Ha|?]; [|done].
    destruct Hx as (v & Hv & _). rewrite <- He1, (Hn1 _ Ha) in Hv. done.
Qed.

(** *** [getIntersection] collects the entries at the bytes of the set *)

Lemma elem_of_non_null vec p : p ∈ non_null vec <-> exists i, vec !! i = Some (Some p).
Proof.
  unfold non_null. rewrite elem_of_list_to_set, list_elem_of_omap. split.
  - intros (o & Ho & E). apply list_elem_of_lookup in Ho as [i Hi]. exists i. cbn in E. congruence.
  - intros [i Hi]. exists (Some p). split; [|done]. now apply list_elem_of_lookup_2 in Hi.
Qed.

Lemma intersect_whole_entries ix l out out' : foldM (intersect_whole ix) out l = Some out' ->
  forall p, p ∈ out' <-> p ∈ out \/ exists a, a ∈ l /\ (whole_entry ix a p \/ exists i, element_entry ix a i p).
Proof.
  revert out. induction l as [|b l IH]; cbn; intros out H p; [injection H as <-; set_solver|].
  apply bind_Some in H as (o1 & E & H). rewrite (IH _ H). setoid_rewrite elem_of_cons.
  assert (Hb : p ∈ o1 <-> p ∈ out \/ whole_entry ix b p \/ exists i, element_entry ix b i p).
  { unfold whole_entry, element_entry. unfold intersect_whole in E.
    destruct (wholeObj_index ix !! b), (elements_index ix !! b) as [vec|]; simplify_eq.
    - rewrite elem_of_union, elem_of_singleton. naive_solver.
    - rewrite elem_of_union, elem_of_non_null. naive_solver.
    - naive_solver. }
  rewrite Hb. naive_solver.
Qed.

Lemma vec_gets_spec vec l out out' : foldM (vec_get vec) out l = Some out' ->
  forall p, p ∈ out' <-> p ∈ out \/ exists i : nat, Z.of_nat i ∈ l /\ vec !! i = Some (Some p).
Proof.
  revert out. induction l as [|j l IH]; cbn; intros out H p; [injection H as <-; set_solver|].
  apply bind_Some in H as (o1 & E & H). rewrite (IH _ H). setoid_rewrite elem_of_cons.
  unfold vec_get in E. apply bind_Some in E as (? & Ha & E). apply assert_Some in Ha.
  apply andb_true_iff in Ha as [?%Z.leb_le _].
  assert (Hj : p ∈ o1 <-> p ∈ out \/ vec !! Z.to_nat j = Some (Some p)).
  { destruct (vec !! Z.to_nat j) as [[q|]|]; simplify_eq; [rewrite elem_of_union, elem_of_singleton|..]; naive_solver. }
  rewrite Hj. split.
  - intros [[?|Hp]|(i & ? & ?)]; [auto|right; exists (Z.to_nat j)|right; exists i; auto].
    split; [left; lia|done].
  - intros [?|(i & [Hi|Hi] & Hp)]; [auto|left; right|right; eauto]. now rewrite <- Hi, Nat2Z.id.
Qed.

Lemma intersect_elements_entries ix l out out' : foldM (intersect_elements ix) out l = Some out' ->
  forall p, p ∈ out' <-> p ∈ out \/
    (exists a ds, (a, ds) ∈ l /\ whole_entry ix a p) \/
    exists a ds i, (a, ds) ∈ l /\ Z.of_nat i ∈ ds /\ element_entry ix a i p.
Proof.
  revert out. induction l as [|[b ds] l IH]; cbn; intros out H p; [injection H as <-; set_solver|].
  apply bind_Some in H as (o1 & E & H). rewrite (IH _ H). setoid_rewrite elem_of_cons.
  assert (Hb : p ∈ o1 <-> p ∈ out \/ whole_entry ix b p \/ exists i : nat, Z.of_nat i ∈ ds /\ element_entry ix b i p).
  { unfold whole_entry, element_entry. unfold intersect_elements in E. cbn in E.
    destruct (wholeObj_index ix !! b), (elements_index ix !! b) as [vec|]; simplify_eq.
    - rewrite elem_of_union, elem_of_singleton. naive_solver.
    - rewrite (vec_gets_spec _ _ _ _ E). setoid_rewrite elem_of_elements. naive_solver.
    - naive_solver. }
  rewrite Hb. split.
  - intros [[?|[?|(i & ? & ?)]]|[(a & d & ? & ?)|(a & d & i & ? & ? & ?)]]; eauto 12.
  - intros [?|[(a & d & [[= -> ->]|?] & ?)|(a & d & i & [[= -> ->]|?] & ? & ?)]]; eauto 12.
Qed.

Lemma getIntersection_entries ix s out : getIntersection ix s = Some out ->
  forall p, p ∈ out <-> (exists a, touches s a /\ whole_entry ix a p) \/
    exists a i, covers s a (Z.of_nat i) /\ element_entry ix a i p.
Proof.
  unfold getIntersection. intros H p. apply bind_Some in H as (o & E & H).
  rewrite (intersect_elements_entries _ _ _ _ H), (intersect_whole_entries _ _ _ _ E).
  setoid_rewrite elem_of_elements. setoid_rewrite elem_of_map_to_list. unfold touches, covers. split.
  - intros [[?|(a & ? & [?|(i & ?)])]|[(a & d & ? & ?)|(a & d & i & ? & ? & ?)]]; [set_solver|left; eauto|right; eauto|left|right].
    + exists a. split; [right; eauto|done].
    + exists a, i. split; [right; eauto|done].
  - intros [(a & [?|[d ?]] & ?)|(a & i & [?|(d & ? & ?)] & ?)]; eauto 12.
Qed.

(** ** The sets of the index *)

(** [p] is a factor, and points to [s]. *)
Definition fset (h : gmap ptr IndependentElementSet) (ix : Indexer) (p : ptr) (s : IndependentElementSet) : Prop :=
  p ∈ factors ix /\ h !! p = Some s.

Record set_ok (s : IndependentElementSet) : Prop := {
  so_wf : ies_wf s;
  so_nodup : NoDup (ie_exprs s);
  so_consts : Forall (fun e => wf_consts e = true) (ie_exprs s)
}.

Lemma touches_covers s a : ies_wf s -> touches s a <-> exists i, covers s a i.
Proof.
  intros Hs. unfold touches, covers. split.
  - intros [?|[ds Hds]]; [exists 0; auto|]. destruct (set_choose_L ds (elements_nonempty _ Hs _ _ Hds)) as [i Hi]. eauto.
  - intros [i [?|(ds & ? & _)]]; [auto|right; eauto].
Qed.

(** A whole object is an array all of whose indices are covered. *)
Lemma whole_covers s a : ies_wf s -> a ∈ ie_wholeObjects s <-> forall i, covers s a i.
Proof.
  intros Hs. split; [intros Ha i; now left|]. intros H. destruct (decide (a ∈ ie_wholeObjects s)); [done|].
  destruct (uncovered s a Hs) as [i Hi]; [done|]. now destruct (Hi (H i)).
Qed.

(** The bytes of single elements are within the array. *)
Definition in_range (s : IndependentElementSet) : Prop :=
  forall a ds i, ie_elements s !! a = Some ds -> i ∈ ds -> 0 <= i < Expr.size a.

(** The index is exact: it maps every byte of every factor to that factor. *)
Record exact (h : gmap ptr IndependentElementSet) (ix : Indexer) : Prop := {
  ex_heap p : p ∈ factors ix -> exists s, h !! p = Some s /\ set_ok s /\ in_range s;
  ex_exclusive a p : whole_entry ix a p -> elements_index ix !! a = None;
  ex_length a vec : elements_index ix !! a = Some vec -> length vec = Z.to_nat (Expr.size a);
  ex_whole a p : whole_entry ix a p <-> exists s, fset h ix p s /\ a ∈ ie_wholeObjects s;
  ex_element a i p : element_entry ix a i p <->
    exists s, fset h ix p s /\ a ∉ ie_wholeObjects s /\ covers s a (Z.of_nat i)
}.

Lemma fset_fun h ix p s t : fset h ix p s -> fset h ix p t -> s = t.
Proof. intros [_ H] [_ H']. congruence. Qed.

Lemma covers_range s a i : in_range s -> a ∉ ie_wholeObjects s -> covers s a i -> 0 <= i < Expr.size a.
Proof. intros Hr Ha [?|(ds & Hds & Hi)]; [done|]. eauto. Qed.

Lemma exact_set h ix p s : exact h ix -> fset h ix p s -> set_ok s /\ in_range s.
Proof. intros Hx [Hp Hs]. destruct (ex_heap _ _ Hx p Hp) as (s' & Hs' & ? & ?). simplify_eq. done. Qed.

(** Two factors have no common byte. *)
Lemma exact_disjoint h ix p q s t : exact h ix -> fset h ix p s -> fset h ix q t -> overlap s t -> p = q.
Proof.
  intros Hx Hs Ht (a & i & Hc & Hd).
  destruct (exact_set _ _ _ _ Hx Hs) as [_ Rs], (exact_set _ _ _ _ Hx Ht) as [_ Rt].
  assert (Hw : forall r u, fset h ix r u -> a ∈ ie_wholeObjects u -> whole_entry ix a r).
  { intros r u Hu Ha. apply (ex_whole _ _ Hx). eauto. }
  assert (He : forall r u, fset h ix r u -> in_range u -> a ∉ ie_wholeObjects u -> covers u a i ->
             element_entry ix a (Z.to_nat i) r).
  { intros r u Hu Ru Ha Hi. apply (ex_element _ _ Hx). exists u. split_and!; [done..|].
    rewrite Z2Nat.id; [done|]. pose proof (covers_range _ _ _ Ru Ha Hi). lia. }
  assert (Hno : forall r r', whole_entry ix a r -> ~ element_entry ix a (Z.to_nat i) r').
  { intros r r' H (vec & Hv & _). rewrite (ex_exclusive _ _ Hx _ _ H) in Hv. done. }
  destruct (decide (a ∈ ie_wholeObjects s)) as [Hs'|Hs'], (decide (a ∈ ie_wholeObjects t)) as [Ht'|Ht'].
  - pose proof (Hw _ _ Hs Hs') as H1. pose proof (Hw _ _ Ht Ht') as H2. unfold whole_entry in *. congruence.
  - destruct (Hno p q); eauto.
  - destruct (Hno q p); eauto.
  - destruct (He _ _ Hs Rs Hs' Hc) as (v & Hv & Hi), (He _ _ Ht Rt Ht' Hd) as (v' & Hv' & Hi'). congruence.
Qed.

(** *** [getIntersection] on an exact index *)

Lemma foldM_total {X Y} (I : X -> Prop) (f : X -> Y -> option X) l x :
  (forall x y, y ∈ l -> I x -> exists x', f x y = Some x' /\ I x') ->
  I x -> exists x', foldM f x l = Some x' /\ I x'.
Proof.
  revert x. induction l as [|y l IH]; cbn; intros x Hf Hx; [eauto|].
  destruct (Hf x y) as (x1 & -> & H1); [set_solver|done|]. apply IH; [set_solver|done].
Qed.

Lemma assert_bounds i n : 0 <= i < Z.of_nat n -> assert ((0 <=? i) && (i <? Z.of_nat n)) = Some tt.
Proof. intros H. destruct (Z.leb_spec 0 i), (Z.ltb_spec i (Z.of_nat n)); cbn; [done|lia..]. Qed.

Lemma vec_sets_total p l vec : (forall i, i ∈ l -> 0 <= i < Z.of_nat (length vec)) ->
  exists vec', foldM (vec_set p) vec l = Some vec'.
Proof.
  intros Hl. destruct (foldM_total (fun v : list (option ptr) => length v = length vec) (vec_set p) l vec) as (v & Hv & _);
    [|done|eauto].
  intros v i Hi Hlen. unfold vec_set. rewrite assert_bounds by (rewrite Hlen; auto). cbn.
  eexists. split; [done|]. now rewrite length_insert.
Qed.

Lemma exact_exclusive h ix a vec : exact h ix -> elements_index ix !! a = Some vec -> wholeObj_index ix !! a = None.
Proof.
  intros Hx Hv. destruct (wholeObj_index ix !! a) as [p|] eqn:E; [|done].
  rewrite (ex_exclusive _ _ Hx a p E) in Hv. done.
Qed.

Lemma getIntersection_total h ix s : exact h ix -> in_range s -> exists out, getIntersection ix s = Some out.
Proof.
  intros Hx Hr. unfold getIntersection.
  destruct (foldM_total (fun _ => True) (intersect_whole ix) (elements (ie_wholeObjects s)) ∅) as (o & -> & _); [|done|].
  { intros o a _ _. unfold intersect_whole. destruct (elements_index ix !! a) as [vec|] eqn:E; [|destruct (wholeObj_index ix !! a); eauto].
    rewrite (exact_exclusive _ _ _ _ Hx E). eauto. }
  cbn. destruct (foldM_total (fun _ => True) (intersect_elements ix) (map_to_list (ie_elements s)) o) as (o' & -> & _); eauto.
  intros o1 [a ds] Hin _. apply elem_of_map_to_list in Hin. unfold intersect_elements. cbn [fst snd].
  destruct (elements_index ix !! a) as [vec|] eqn:E; [|destruct (wholeObj_index ix !! a); eauto].
  rewrite (exact_exclusive _ _ _ _ Hx E). pose proof (ex_length _ _ Hx _ _ E) as Hlen.
  apply foldM_total; [|done]. intros o2 i Hi _. apply elem_of_elements in Hi. specialize (Hr _ _ _ Hin Hi).
  unfold vec_get. rewrite assert_bounds by lia. cbn. destruct (vec !! Z.to_nat i) as [[q|]|]; eauto.
Qed.

(** It returns the factors that have a byte in common with the set. *)
Lemma getIntersection_exact h ix s out : exact h ix -> ies_wf s -> getIntersection ix s = Some out ->
  forall p, p ∈ out <-> exists t, fset h ix p t /\ overlap s t.
Proof.
  intros Hx Hs Hout p. rewrite (getIntersection_entries _ _ _ Hout). split.
  - intros [(a & Ha & Hp)|(a & i & Hc & Hp)].
    + apply (ex_whole _ _ Hx) in Hp as (t & Ht & Hw). exists t. split; [done|].
      apply touches_covers in Ha as [i Hi]; [|done]. exists a, i. split; [done|now left].
    + apply (ex_element _ _ Hx) in Hp as (t & Ht & _ & Hw). exists t. split; [done|]. exists a, (Z.of_nat i). done.
  - intros (t & Ht & a & i & Hc & Hd). destruct (exact_set _ _ _ _ Hx Ht) as [_ Rt].
    destruct (decide (a ∈ ie_wholeObjects t)) as [Ha|Ha].
    + left. exists a. split; [apply touches_covers; eauto|]. apply (ex_whole _ _ Hx). eauto.
    + right. pose proof (covers_range _ _ _ Rt Ha Hd). exists a, (Z.to_nat i).
      rewrite Z2Nat.id by lia. split; [done|]. apply (ex_element _ _ Hx). exists t. rewrite Z2Nat.id by lia. done.
Qed.

(** *** [redirect] on an exact index *)

Lemma redirect_wholes_at dst l ix a :
  let ix' := foldl (redirect_whole dst) ix l in
  wholeObj_index ix' !! a = (if decide (a ∈ l) then Some dst else wholeObj_index ix !! a) /\
  elements_index ix' !! a = (if decide (a ∈ l) then None else elements_index ix !! a).
Proof.
  revert ix. induction l as [|b l IH]; intros ix; cbn [foldl]; cbn zeta.
  { now rewrite !decide_False by set_solver. }
  destruct (IH (redirect_whole dst ix b)) as [-> ->]. cbn.
  destruct (decide (a ∈ l)); [now rewrite !decide_True by set_solver|].
  destruct (decide (a = b)) as [->|Hab].
  - rewrite !decide_True by set_solver. now rewrite lookup_insert_eq, lookup_delete_eq.
  - rewrite !decide_False by set_solver. now rewrite lookup_insert_ne, lookup_delete_ne by done.
Qed.

(** The effect of [redirect] on the entries of an array with elements. *)
Definition elements_redirected (dst : ptr) (ix ix' : Indexer) (a : Array) (ds : DenseSet.t) : Prop :=
  match wholeObj_index ix !! a with
  | Some _ => wholeObj_index ix' !! a = Some dst /\ elements_index ix' !! a = elements_index ix !! a
  | None => wholeObj_index ix' !! a = None /\ exists vec, elements_index ix' !! a = Some vec /\
      let old := default (replicate (Z.to_nat (Expr.size a)) None) (elements_index ix !! a) in
      length vec = length old /\ forall j, vec !! j = if decide (Z.of_nat j ∈ ds) then Some (Some dst) else old !! j
  end.

Lemma redirect_elements_at dst a ds ix ix' : redirect_elements dst ix (a, ds) = Some ix' ->
  elements_redirected dst ix ix' a ds /\
  forall b, b <> a -> wholeObj_index ix' !! b = wholeObj_index ix !! b /\ elements_index ix' !! b = elements_index ix !! b.
Proof.
  unfold redirect_elements, elements_redirected. cbn. destruct (wholeObj_index ix !! a) eqn:E.
  - intros [= <-]. cbn. rewrite lookup_insert_eq. split; [done|]. intros b Hb. now rewrite lookup_insert_ne.
  - intros H. apply bind_Some in H as (vec & H & [= <-]). cbn. rewrite lookup_insert_eq.
    apply vec_sets_spec in H as (Hlen & _ & Hj). split.
    + split; [done|]. exists vec. split_and!; [done|done|]. intros j. rewrite Hj.
      destruct (decide (Z.of_nat j ∈ elements ds)), (decide (Z.of_nat j ∈ ds)); set_solver.
    + intros b Hb. now rewrite lookup_insert_ne.
Qed.

Lemma redirect_elements_list dst l ix ix' : NoDup l.*1 -> foldM (redirect_elements dst) ix l = Some ix' ->
  (forall a ds, (a, ds) ∈ l -> elements_redirected dst ix ix' a ds) /\
  forall b, b ∉ l.*1 -> wholeObj_index ix' !! b = wholeObj_index ix !! b /\ elements_index ix' !! b = elements_index ix !! b.
Proof.
  revert ix. induction l as [|[a ds] l IH]; cbn; intros ix Hn H; [injection H as <-; split; [set_solver|done]|].
  apply NoDup_cons in Hn as [Ha Hn]. apply bind_Some in H as (ix1 & E & H).
  apply redirect_elements_at in E as [Er Eo]. destruct (IH _ Hn H) as [Hr Ho]. split.
  - intros b d [[= -> ->]|Hin]%elem_of_cons.
    + unfold elements_redirected in *. destruct (Ho a Ha) as [-> ->]. done.
    + assert (b <> a) by (intros ->; apply Ha, list_elem_of_fmap; now exists (a, d)).
      specialize (Hr b d Hin). unfold elements_redirected in *. destruct (Eo b) as [<- <-]; done.
  - intros b [Hb Hl]%not_elem_of_cons. destruct (Ho b Hl) as [-> ->]. now apply Eo.
Qed.

(** The effect of [redirect] on the entries of each array. *)
Lemma redirect_at ix src dst ix' a : ies_wf src -> redirect ix src dst = Some ix' ->
  if decide (a ∈ ie_wholeObjects src) then wholeObj_index ix' !! a = Some dst /\ elements_index ix' !! a = None
  else match ie_elements src !! a with
       | Some ds => elements_redirected dst ix ix' a ds
       | None => wholeObj_index ix' !! a = wholeObj_index ix !! a /\ elements_index ix' !! a = elements_index ix !! a
       end.
Proof.
  intros Hs H. unfold redirect in H. apply redirect_elements_list in H as [Hr Ho]; [|apply NoDup_fst_map_to_list].
  destruct (redirect_wholes_at dst (elements (ie_wholeObjects src)) ix a) as [Hw He]. cbn zeta in Hw, He.
  assert (Hkey : a ∈ (map_to_list (ie_elements src)).*1 <-> is_Some (ie_elements src !! a)).
  { rewrite list_elem_of_fmap. split; [intros ([? ds] & -> & H%elem_of_map_to_list); eauto|].
    intros [ds Hds]. exists (a, ds). split; [done|]. now apply elem_of_map_to_list. }
  setoid_rewrite elem_of_map_to_list in Hr. destruct (decide (a ∈ ie_wholeObjects src)) as [Ha|Ha].
  - rewrite decide_True in Hw by now apply elem_of_elements. rewrite decide_True in He by now apply elem_of_elements.
    destruct (Ho a) as [-> ->]; [|done]. rewrite Hkey, (whole_no_elements _ Hs a Ha). now intros [??].
  - rewrite decide_False in Hw by now rewrite elem_of_elements. rewrite decide_False in He by now rewrite elem_of_elements. rewrite <- Hw, <- He.
    destruct (ie_elements src !! a) as [ds|] eqn:E.
    + specialize (Hr _ _ E). unfold elements_redirected in *. rewrite Hw, He in Hr. done.
    + destruct (Ho a) as [-> ->]; [|done]. rewrite Hkey. now intros [??].
Qed.

Lemma redirect_total h ix src dst : exact h ix -> in_range src -> exists ix', redirect ix src dst = Some ix'.
Proof.
  intros Hx Hr. unfold redirect.
  destruct (foldM_total (fun ix => forall a vec, elements_index ix !! a = Some vec -> length vec = Z.to_nat (Expr.size a))
    (redirect_elements dst) (map_to_list (ie_elements src))
    (foldl (redirect_whole dst) ix (elements (ie_wholeObjects src)))) as (ix' & -> & _); [| |eauto].
  - intros ix1 [a ds] Hin Hlen. apply elem_of_map_to_list in Hin. unfold redirect_elements. cbn [fst snd].
    destruct (wholeObj_index ix1 !! a); [eauto|].
    set (vec := default _ _). assert (Hv : length vec = Z.to_nat (Expr.size a)).
    { unfold vec. destruct (elements_index ix1 !! a) eqn:E; cbn; [eauto|apply length_replicate]. }
    destruct (vec_sets_total (Some dst) (elements ds) vec) as [vec' Hvec'].
    { intros i Hi. apply elem_of_elements in Hi. specialize (Hr _ _ _ Hin Hi). lia. }
    rewrite Hvec'. cbn. eexists. split; [done|]. intros b v. cbn. apply vec_sets_spec in Hvec' as (Hl & _ & _).
    intros [[-> <-]|[_ ?]]%lookup_insert_Some; [congruence|eauto].
  - intros a vec Hv. destruct (redirect_wholes_at dst (elements (ie_wholeObjects src)) ix a) as [_ He].
    cbn zeta in He. rewrite He in Hv. destruct (decide _); [done|]. eapply ex_length; eauto.
Qed.

(** [dst] points to [old], or is a new pointer. *)
Definition old_set (h : gmap ptr IndependentElementSet) (ix : Indexer) (dst : ptr) (old : IndependentElementSet) : Prop :=
  fset h ix dst old \/ dst ∉ factors ix /\ old = no_elements.

Lemma whole_union s t u a : ies_wf s -> ies_wf t -> ies_wf u ->
  (forall b i, covers u b i <-> covers s b i \/ covers t b i) ->
  a ∈ ie_wholeObjects u <-> a ∈ ie_wholeObjects s \/ a ∈ ie_wholeObjects t.
Proof.
  intros Hs Ht Hu H. split.
  - intros Ha. destruct (decide (a ∈ ie_wholeObjects s)); [now left|].
    destruct (decide (a ∈ ie_wholeObjects t)); [now right|].
    set (i := fresh (default ∅ (ie_elements s !! a) ∪ default ∅ (ie_elements t !! a))).
    assert (Hi : i ∉ default ∅ (ie_elements s !! a) ∪ default ∅ (ie_elements t !! a)) by apply is_fresh.
    assert (Hc : covers u a i) by now left.
    apply H in Hc as [[?|(ds & E & Hin)]|[?|(ds & E & Hin)]]; try done; rewrite E in Hi; set_solver.
  - intros Ha. apply whole_covers; [done|]. intros i. apply H. destruct Ha; [left|right]; now left.
Qed.

Section Redirect.
Context (h : gmap ptr IndependentElementSet) (ix ix' : Indexer) (dst : ptr) (src old new : IndependentElementSet).
Context (Hx : exact h ix) (Hsrc : ies_wf src) (Hrange : in_range src)
  (Hold : old_set h ix dst old) (Hnew : set_ok new)
  (Hcov : forall a i, covers new a i <-> covers src a i \/ covers old a i)
  (Hfree : forall q t, fset h ix q t -> q <> dst -> ~ overlap src t)
  (Hred : redirect ix src dst = Some ix').

Lemma old_wf : ies_wf old /\ in_range old.
Proof.
  destruct Hold as [H|[_ ->]].
  - destruct (exact_set _ _ _ _ Hx H) as [[? _ _] ?]. done.
  - split; [constructor; cbn; set_solver|]. intros a ds i. cbn. now rewrite lookup_empty.
Qed.

Lemma old_whole a : whole_entry ix a dst <-> a ∈ ie_wholeObjects old.
Proof.
  rewrite (ex_whole _ _ Hx). destruct Hold as [H|[H ->]].
  - split; [|eauto]. intros (s & Hs & Ha). now rewrite (fset_fun _ _ _ _ _ H Hs).
  - split; [|set_solver]. intros (s & [Hs _] & _). done.
Qed.

Lemma old_element a i : element_entry ix a i dst <-> a ∉ ie_wholeObjects old /\ covers old a (Z.of_nat i).
Proof.
  rewrite (ex_element _ _ Hx). destruct Hold as [H|[H ->]].
  - split; [|eauto]. intros (s & Hs & Ha). now rewrite (fset_fun _ _ _ _ _ H Hs).
  - split; [intros (s & [Hs _] & _); done|]. intros [_ [?|(ds & Hd & _)]]; set_solver.
Qed.

Lemma other_whole a p : touches src a -> p <> dst -> ~ whole_entry ix a p.
Proof.
  intros Ha Hp H. apply (ex_whole _ _ Hx) in H as (t & Ht & Hw). apply (Hfree _ _ Ht Hp).
  apply touches_covers in Ha as [i Hi]; [|done]. exists a, i. split; [done|now left].
Qed.

Lemma other_element a i p : covers src a (Z.of_nat i) -> p <> dst -> ~ element_entry ix a i p.
Proof.
  intros Ha Hp H. apply (ex_element _ _ Hx) in H as (t & Ht & _ & Hw). apply (Hfree _ _ Ht Hp). now exists a, (Z.of_nat i).
Qed.

Lemma new_whole a : a ∈ ie_wholeObjects new <-> a ∈ ie_wholeObjects src \/ a ∈ ie_wholeObjects old.
Proof. apply whole_union; [done|apply old_wf|apply Hnew|apply Hcov]. Qed.

Lemma redirected_whole a p : whole_entry ix' a p <->
  p = dst /\ a ∈ ie_wholeObjects new \/ p <> dst /\ whole_entry ix a p.
Proof.
  rewrite new_whole, <- old_whole. pose proof (redirect_at ix src dst ix' a Hsrc Hred) as H.
  unfold whole_entry in *. destruct (decide (a ∈ ie_wholeObjects src)) as [Ha|Ha].
  - destruct H as [-> _]. split; [intros [= <-]; auto|]. intros [[-> _]|[Hp H]]; [done|].
    destruct (other_whole a p); [now left|done|done].
  - assert (Hunch : wholeObj_index ix' !! a = wholeObj_index ix !! a); [|rewrite Hunch; destruct (decide (p = dst)) as [->|]; naive_solver].
    destruct (ie_elements src !! a) as [ds|] eqn:E; [|tauto]. unfold elements_redirected in H.
    destruct (wholeObj_index ix !! a) as [q|] eqn:Eq; [|tauto]. destruct H as [-> _].
    destruct (decide (q = dst)) as [->|Hq]; [done|]. destruct (other_whole a q); [right; eauto|done|done].
Qed.

Lemma redirected_element a i p : element_entry ix' a i p <->
  p = dst /\ a ∉ ie_wholeObjects new /\ covers new a (Z.of_nat i) \/ p <> dst /\ element_entry ix a i p.
Proof.
  rewrite new_whole, Hcov. pose proof (redirect_at ix src dst ix' a Hsrc Hred) as H.
  destruct (decide (a ∈ ie_wholeObjects src)) as [Ha|Ha].
  { unfold element_entry at 1. destruct H as [_ ->]. split; [naive_solver|]. intros [[_ [? _]]|[Hp H]]; [tauto|].
    destruct (other_element a i p); [now left|done|done]. }
  assert (Hcase : p = dst \/ p <> dst) by (destruct (decide (p = dst)); auto).
  pose proof (old_element a i) as Hoe. pose proof (old_whole a) as How.
  assert (Hunch : elements_index ix' !! a = elements_index ix !! a ->
    element_entry ix' a i p <-> element_entry ix a i p).
  { intros He. unfold element_entry. now rewrite He. }
  destruct (ie_elements src !! a) as [ds|] eqn:E.
  - assert (Hds : covers src a (Z.of_nat i) <-> Z.of_nat i ∈ ds) by (unfold covers; rewrite E; naive_solver).
    unfold elements_redirected in H. destruct (wholeObj_index ix !! a) as [q|] eqn:Eq.
    + destruct (decide (q = dst)) as [->|Hq]; [|destruct (other_whole a q); [right; eauto|done|done]].
      destruct H as [_ H]. rewrite Hunch by done. assert (a ∈ ie_wholeObjects old) by now apply How.
      assert (Hno : ~ element_entry ix a i p).
      { intros (v & Hv & _). rewrite (ex_exclusive _ _ Hx a dst Eq) in Hv. done. }
      naive_solver.
    + destruct H as (_ & vec & Hv & _ & Hj). unfold element_entry at 1. rewrite Hv.
      assert (Hnw : a ∉ ie_wholeObjects old) by (intros Hw; apply How in Hw; unfold whole_entry in Hw; congruence).
      assert (Hentry : default (replicate (Z.to_nat (Expr.size a)) None) (elements_index ix !! a) !! i = Some (Some p) <->
        element_entry ix a i p).
      { unfold element_entry. destruct (elements_index ix !! a) as [v|]; cbn; [naive_solver|].
        rewrite lookup_replicate. naive_solver. }
      transitivity (vec !! i = Some (Some p)); [naive_solver|]. rewrite Hj, Hds.
      destruct (decide (Z.of_nat i ∈ ds)) as [Hin|Hin].
      * split; [intros [= <-]; tauto|]. intros [[-> _]|[Hp H]]; [done|]. destruct (other_element a i p); tauto.
      * rewrite Hentry. destruct Hcase as [->|Hp]; [rewrite Hoe|]; tauto.
  - assert (Hds : ~ covers src a (Z.of_nat i)) by (unfold covers; rewrite E; naive_solver).
    rewrite Hunch by tauto. destruct Hcase as [->|Hp]; [rewrite Hoe|]; tauto.
Qed.

Lemma new_range : in_range new.
Proof.
  destruct old_wf as [Wo Ro]. intros a ds i Hds Hi.
  assert (Ha : a ∉ ie_wholeObjects new).
  { intros Ha. rewrite (whole_no_elements _ (so_wf _ Hnew) _ Ha) in Hds. done. }
  rewrite new_whole in Ha. assert (Hc : covers new a i) by (right; eauto).
  apply Hcov in Hc as [Hc|Hc]; [apply (covers_range src)|apply (covers_range old)]; auto.
Qed.

Lemma redirect_exact :
  exact (<[dst := new]> h) (mkIndexer (elements_index ix') (wholeObj_index ix') ({[dst]} ∪ factors ix)).
Proof.
  set (ix1 := mkIndexer _ _ _).
  assert (Hf : forall p s, fset (<[dst := new]> h) ix1 p s <-> p = dst /\ s = new \/ p <> dst /\ fset h ix p s).
  { intros p s. unfold fset. cbn. rewrite elem_of_union, elem_of_singleton, lookup_insert_Some. naive_solver. }
  assert (Hw : forall a p, whole_entry ix1 a p <-> p = dst /\ a ∈ ie_wholeObjects new \/ p <> dst /\ whole_entry ix a p)
    by apply redirected_whole.
  assert (He : forall a i p, element_entry ix1 a i p <-> p = dst /\ a ∉ ie_wholeObjects new /\ covers new a (Z.of_nat i)
             \/ p <> dst /\ element_entry ix a i p) by apply redirected_element.
  constructor.
  - intros p Hp. destruct (decide (p = dst)) as [->|Hne].
    + exists new. rewrite lookup_insert_eq. split_and!; [done|done|apply new_range].
    + rewrite lookup_insert_ne by done. apply (ex_heap _ _ Hx). cbn in Hp. set_solver.
  - intros a p H. pose proof (redirect_at ix src dst ix' a Hsrc Hred) as Hat.
    change (elements_index ix' !! a = None). change (wholeObj_index ix' !! a = Some p) in H.
    destruct (decide (a ∈ ie_wholeObjects src)); [tauto|].
    destruct (ie_elements src !! a) as [ds|] eqn:E.
    + unfold elements_redirected in Hat. destruct (wholeObj_index ix !! a) as [q|] eqn:Eq.
      * destruct Hat as [_ ->]. eapply ex_exclusive; [exact Hx|exact Eq].
      * destruct Hat as [Hn _]. congruence.
    + destruct Hat as [Hn ->]. eapply ex_exclusive; [exact Hx|]. unfold whole_entry. rewrite <- Hn. exact H.
  - intros a vec. change (elements_index ix1) with (elements_index ix').
    pose proof (redirect_at ix src dst ix' a Hsrc Hred) as Hat.
    destruct (decide (a ∈ ie_wholeObjects src)); [intros; destruct Hat; congruence|].
    destruct (ie_elements src !! a) as [ds|] eqn:E.
    + unfold elements_redirected in Hat. destruct (wholeObj_index ix !! a).
      * destruct Hat as [_ ->]. now apply (ex_length _ _ Hx).
      * destruct Hat as (_ & v & -> & Hl & _). intros [= <-]. rewrite Hl.
        destruct (elements_index ix !! a) eqn:Ea; cbn; [now apply (ex_length _ _ Hx)|apply length_replicate].
    + destruct Hat as [_ ->]. now apply (ex_length _ _ Hx).
  - intros a p. rewrite Hw. setoid_rewrite Hf. rewrite (ex_whole _ _ Hx). naive_solver.
  - intros a i p. rewrite He. setoid_rewrite Hf. rewrite (ex_element _ _ Hx). naive_solver.
Qed.

End Redirect.

(** *** [erase] on an exact index *)

Lemma erase_wholes_total l ix : (forall a, a ∈ l -> elements_index ix !! a = None) ->
  exists ix', foldM erase_whole ix l = Some ix'.
Proof.
  intros Hl. destruct (foldM_total (fun ix' => elements_index ix' = elements_index ix) erase_whole l ix)
    as (ix' & ? & _); [|done|eauto].
  intros ix1 a Ha He. unfold erase_whole. rewrite He, Hl by done. cbn. eauto.
Qed.

Lemma erase_elements_list_total l ix :
  (forall a ds, (a, ds) ∈ l -> wholeObj_index ix !! a = None /\ forall i, i ∈ ds -> 0 <= i < Expr.size a) ->
  (forall a vec, elements_index ix !! a = Some vec -> length vec = Z.to_nat (Expr.size a)) ->
  exists ix', foldM erase_elements ix l = Some ix' /\ wholeObj_index ix' = wholeObj_index ix /\
    (forall a vec, elements_index ix' !! a = Some vec -> length vec = Z.to_nat (Expr.size a)) /\
    (forall a, elements_index ix !! a = None -> elements_index ix' !! a = None).
Proof.
  intros Hl Hlen.
  apply (foldM_total (fun ix' => wholeObj_index ix' = wholeObj_index ix /\
    (forall a vec, elements_index ix' !! a = Some vec -> length vec = Z.to_nat (Expr.size a)) /\
    (forall a, elements_index ix !! a = None -> elements_index ix' !! a = None))); [|done].
  intros ix1 [a ds] Hin (Hw & H1 & H2). destruct (Hl _ _ Hin) as [Ha Hr].
  unfold erase_elements. cbn [fst snd]. rewrite Hw, Ha. cbn.
  destruct (elements_index ix1 !! a) as [vec|] eqn:E; [|eauto].
  destruct (vec_sets_total None (elements ds) vec) as [vec' Hv].
  { intros i Hi%elem_of_elements. specialize (Hr _ Hi). specialize (H1 _ _ E). lia. }
  rewrite Hv. cbn. eexists. split; [done|]. cbn. apply vec_sets_spec in Hv as (Hl' & _ & _). split_and!; [done| |].
  - intros b v [[-> <-]|[_ ?]]%lookup_insert_Some; [rewrite Hl'|]; eauto.
  - intros b Hb. destruct (decide (b = a)) as [->|]; [rewrite H2 in E; done|].
    rewrite lookup_insert_ne by done. auto.
Qed.

Lemma erase_total h ix p s : exact h ix -> fset h ix p s ->
  exists ix', Indexer_erase ix p s = Some ix' /\ exact h ix' /\ factors ix' = factors ix ∖ {[p]}.
Proof.
  intros Hx Hs. destruct (exact_set _ _ _ _ Hx Hs) as [[Ws _ _] Rs].
  destruct (erase_wholes_total (elements (ie_wholeObjects s)) ix) as [ix1 E1].
  { intros a Ha%elem_of_elements. eapply ex_exclusive; [done|]. apply (ex_whole _ _ Hx). eauto. }
  pose proof (erase_whole_entries _ _ _ E1) as (_ & _ & Hel & Hwh).
  destruct (erase_elements_list_total (map_to_list (ie_elements s)) ix1) as (ix2 & E2 & Hw2 & Hl2 & Hn2).
  { intros a ds Hin%elem_of_map_to_list. split; [|eauto]. apply eq_None_not_Some. intros [q Hq].
    apply Hwh in Hq as [Hq _]. destruct (set_choose_L ds (elements_nonempty _ Ws _ _ Hin)) as [i Hi].
    assert (Ha : a ∉ ie_wholeObjects s) by (intros Ha; rewrite (whole_no_elements _ Ws _ Ha) in Hin; done).
    specialize (Rs _ _ _ Hin Hi).
    assert (He : element_entry ix a (Z.to_nat i) p).
    { apply (ex_element _ _ Hx). exists s. rewrite Z2Nat.id by lia. split_and!; [done..|right; eauto]. }
    destruct He as (v & Hv & _). rewrite (ex_exclusive _ _ Hx _ _ Hq) in Hv. done. }
  { rewrite Hel. apply (ex_length _ _ Hx). }
  assert (E : Indexer_erase ix p s = Some (mkIndexer (elements_index ix2) (wholeObj_index ix2) (factors ix2 ∖ {[p]}))).
  { unfold Indexer_erase. rewrite E1. cbn. rewrite E2. done. }
  exists (mkIndexer (elements_index ix2) (wholeObj_index ix2) (factors ix2 ∖ {[p]})). split; [exact E|].
  apply erase_entries in E as (Hf & Hw & He). split; [|exact Hf].
  set (ix' := mkIndexer _ _ _) in *.
  assert (Hfs : forall q t, fset h ix' q t <-> fset h ix q t /\ q <> p) by (intros; unfold fset; rewrite Hf; set_solver).
  assert (Hsep : forall a i q t, fset h ix q t -> q <> p -> covers t a i -> ~ covers s a i).
  { intros a i q t Ht Hq Hc Hd. apply Hq, (exact_disjoint h ix q p t s Hx Ht Hs). now exists a, i. }
  constructor.
  - intros q Hq. apply (ex_heap _ _ Hx). rewrite Hf in Hq. set_solver.
  - intros a q Hq%Hw. apply Hn2. rewrite Hel. eapply ex_exclusive; [done|apply Hq].
  - apply Hl2.
  - intros a q. rewrite Hw, (ex_whole _ _ Hx). setoid_rewrite Hfs. split.
    + intros [(t & Ht & Ha) Hn]. exists t. split_and!; [done| |done]. intros ->.
      rewrite (fset_fun _ _ _ _ _ Ht Hs) in Ha. apply Hn. now left.
    + intros (t & [Ht Hq] & Ha). split; [eauto|]. intros [i Hi]%touches_covers; [|done].
      eapply (Hsep a i); eauto. now left.
  - intros a i q. rewrite He, (ex_element _ _ Hx). setoid_rewrite Hfs. split.
    + intros [(t & Ht & Ha & Hc) Hn]. exists t. split_and!; [done| |done|done]. intros ->.
      rewrite (fset_fun _ _ _ _ _ Ht Hs) in Hc. done.
    + intros (t & [Ht Hq] & Ha & Hc). split; [eauto|]. eauto.
Qed.

Lemma exact_ext h h' ix : (forall p, p ∈ factors ix -> h' !! p = h !! p) -> exact h ix -> exact h' ix.
Proof.
  intros Hh [H1 H2 H3 H4 H5].
  assert (Hf : forall p s, fset h' ix p s <-> fset h ix p s).
  { intros p s. unfold fset. split; intros [Hp Hs]; (split; [done|]); [rewrite <- Hh|rewrite Hh]; done. }
  constructor; [|done|done|..]; intros.
  - rewrite Hh by done. auto.
  - setoid_rewrite Hf. auto.
  - setoid_rewrite Hf. auto.
Qed.

(** ** A weaker invariant: the index points to factors

    It holds also where the index is not exact, as long as no assert fails. *)

Record sound (h : gmap ptr IndependentElementSet) (ix : Indexer) : Prop := {
  sd_heap p : p ∈ factors ix -> exists s, h !! p = Some s /\ set_ok s;
  sd_whole a p : whole_entry ix a p -> exists s, fset h ix p s /\ touches s a;
  sd_element a i p : element_entry ix a i p -> exists s, fset h ix p s /\ covers s a (Z.of_nat i)
}.

Lemma sound_ext h h' ix : (forall p, p ∈ factors ix -> h' !! p = h !! p) -> sound h ix -> sound h' ix.
Proof.
  intros Hh [H1 H2 H3].
  assert (Hf : forall p s, fset h' ix p s <-> fset h ix p s).
  { intros p s. unfold fset. split; intros [Hp Hs]; (split; [done|]); [rewrite <- Hh|rewrite Hh]; done. }
  constructor; intros.
  - rewrite Hh by done. auto.
  - setoid_rewrite Hf. auto.
  - setoid_rewrite Hf. auto.
Qed.

Lemma erase_sound h ix p s ix' : sound h ix -> h !! p = Some s -> Indexer_erase ix p s = Some ix' ->
  sound h ix' /\ factors ix' = factors ix ∖ {[p]}.
Proof.
  intros Hx Hs E. apply erase_entries in E as (Hf & Hw & He). split; [|done].
  assert (Hfs : forall q t, fset h ix q t -> q <> p -> fset h ix' q t) by (intros q t [? ?] ?; split; [set_solver|done]).
  constructor.
  - intros q Hq. apply (sd_heap _ _ Hx). set_solver.
  - intros a q [Hq Hn]%Hw. destruct (sd_whole _ _ Hx _ _ Hq) as (t & Ht & Ha). exists t. split; [|done].
    apply Hfs; [done|]. intros ->. destruct Ht as [_ Ht]. simplify_eq. done.
  - intros a i q [Hq Hn]%He. destruct (sd_element _ _ Hx _ _ _ Hq) as (t & Ht & Ha). exists t. split; [|done].
    apply Hfs; [done|]. intros ->. destruct Ht as [_ Ht]. simplify_eq. done.
Qed.

(** [redirect] to [dst], which holds the bytes of [src] and those it held before. *)
Lemma redirect_sound h ix src dst new ix' : sound h ix -> ies_wf src -> set_ok new ->
  (forall a i, covers src a i -> covers new a i) ->
  (forall old, fset h ix dst old -> forall a i, covers old a i -> covers new a i) ->
  redirect ix src dst = Some ix' ->
  sound (<[dst := new]> h) (mkIndexer (elements_index ix') (wholeObj_index ix') ({[dst]} ∪ factors ix)).
Proof.
  intros Hx Hs Hn Hsrc Hold E. apply redirect_entries in E as (_ & Hw & He). set (ix1 := mkIndexer _ _ _).
  assert (Hdst : fset (<[dst := new]> h) ix1 dst new) by (split; [cbn; set_solver|apply lookup_insert_eq]).
  assert (Hfs : forall p s (P : IndependentElementSet -> Prop), fset h ix p s -> P s ->
    (p = dst -> P s -> P new) -> exists s', fset (<[dst := new]> h) ix1 p s' /\ P s').
  { intros p s P [Hp Hh] HP Hd. destruct (decide (p = dst)) as [->|Hne]; [exists new; auto|].
    exists s. split; [split; [cbn; set_solver|now rewrite lookup_insert_ne]|done]. }
  constructor.
  - intros p Hp. destruct (decide (p = dst)) as [->|Hne]; [exists new; now rewrite lookup_insert_eq|].
    rewrite lookup_insert_ne by done. apply (sd_heap _ _ Hx). cbn in Hp. set_solver.
  - intros a p [H|[-> H]]%Hw.
    + destruct (sd_whole _ _ Hx _ _ H) as (s & Hs' & Ha). apply (Hfs p s (fun s => touches s a)); [done..|].
      intros -> _. destruct (sd_heap _ _ Hx dst) as (s' & E' & Os); [apply Hs'|].
      assert (s' = s) as -> by (destruct Hs'; congruence).
      apply touches_covers in Ha as [i Hi]; [|apply Os]. apply touches_covers; [apply Hn|]. eauto.
    + exists new. split; [done|]. apply touches_covers in H as [i Hi]; [|done]. apply touches_covers; [apply Hn|]. eauto.
  - intros a i p [H|[-> H]]%He.
    + destruct (sd_element _ _ Hx _ _ _ H) as (s & Hs' & Ha). apply (Hfs p s (fun s => covers s a (Z.of_nat i))); [done..|].
      intros -> Hc. eapply Hold; eauto.
    + exists new. auto.
Qed.

Lemma insert_sound h ix p s ix' : sound h ix -> p ∉ factors ix -> set_ok s -> Indexer_insert ix p s = Some ix' ->
  sound (<[p := s]> h) ix' /\ factors ix' = {[p]} ∪ factors ix.
Proof.
  intros Hx Hp Hs H. unfold Indexer_insert in H. apply bind_Some in H as (ix1 & E & [= <-]). cbn [factors].
  pose proof (proj1 (redirect_entries _ _ _ _ E)) as Hf. rewrite Hf. split; [|done].
  apply (redirect_sound h ix s p s ix1); auto; [apply Hs|]. intros old [? _]. done.
Qed.

Lemma intersection_sound h ix s out p : sound h ix -> getIntersection ix s = Some out -> p ∈ out -> p ∈ factors ix.
Proof.
  intros Hx E Hp. apply (getIntersection_entries _ _ _ E) in Hp as [(a & _ & H)|(a & i & _ & H)].
  - destruct (sd_whole _ _ Hx _ _ H) as (t & [? _] & _). done.
  - destruct (sd_element _ _ Hx _ _ _ H) as (t & [? _] & _). done.
Qed.

(** ** What an invariant of the index promises

    [J] is the invariant, [G] a property of the sets of the factors and [sep] a
    relation between the sets of two factors.  When [partial] holds, an operation
    may also end in a failing assert. *)

Definition returns {X} (partial : Prop) (o : option X) (P : X -> Prop) : Prop :=
  match o with Some x => P x | None => partial end.

Lemma returns_bind {X Y} partial (o : option X) (f : X -> option Y) (P : X -> Prop) (Q : Y -> Prop) :
  returns partial o P -> (forall x, P x -> returns partial (f x) Q) -> returns partial (o ≫= f) Q.
Proof. destruct o; cbn; auto. Qed.

Lemma returns_mono {X} partial (o : option X) (P Q : X -> Prop) :
  (forall x, P x -> Q x) -> returns partial o P -> returns partial o Q.
Proof. destruct o; cbn; auto. Qed.

Lemma returns_foldM {X Y} partial (I : X -> list Y -> Prop) (f : X -> Y -> option X) l : forall x,
  (forall x y l, I x (y :: l) -> returns partial (f x y) (fun x' => I x' l)) ->
  I x l -> returns partial (foldM f x l) (fun x' => I x' []).
Proof.
  induction l as [|y l IH]; intros x Hf Hx; [done|]. cbn [foldM]. eapply returns_bind; [exact (Hf _ _ _ Hx)|]. auto.
Qed.

Class IndexInvariant (partial : Prop) (J : gmap ptr IndependentElementSet -> Indexer -> Prop)
    (G : IndependentElementSet -> Prop) (sep : IndependentElementSet -> IndependentElementSet -> Prop) : Prop := {
  iv_sym s t : sep s t -> sep t s;
  iv_ok s : G s -> set_ok s;
  iv_heap h ix p : J h ix -> p ∈ factors ix -> exists s, h !! p = Some s /\ G s;
  iv_disjoint h ix p q s t : J h ix -> fset h ix p s -> fset h ix q t -> p <> q -> sep s t;
  iv_insert h ix p r : J h ix -> p ∉ factors ix -> G r -> (forall q t, fset h ix q t -> sep r t) ->
    returns partial (Indexer_insert ix p r) (fun ix' => J (<[p := r]> h) ix' /\ factors ix' = {[p]} ∪ factors ix);
  iv_erase h ix p s : J h ix -> fset h ix p s ->
    returns partial (Indexer_erase ix p s) (fun ix' => J h ix' /\ factors ix' = factors ix ∖ {[p]})
}.

#[export] Instance sound_invariant : IndexInvariant True sound set_ok (fun _ _ => True).
Proof.
  constructor; auto.
  - intros h ix p Hx Hp. exact (sd_heap _ _ Hx p Hp).
  - intros h ix p r Hx Hp Hr _. destruct (Indexer_insert ix p r) as [ix'|] eqn:E; [|done]. exact (insert_sound _ _ _ _ _ Hx Hp Hr E).
  - intros h ix p s Hx [_ Hs]. destruct (Indexer_erase ix p s) as [ix'|] eqn:E; [|done]. exact (erase_sound _ _ _ _ _ Hx Hs E).
Qed.
