(* ===== verification/ConstraintFactors.v ===== *)
(** * Factors of the constraint set

    The part of src/lib/Expr/Constraints.cpp that keeps the constraints
    partitioned into independent factors: [updateIndependentSetAdd],
    [updateIndependentSetDelete], [getRelatedIndependentElementSets] and the
    constructors of [ConstraintManager].

    The pointers are numbers as in FactorIndex.v; [heap] gives the object, and
    [delete] removes it.  [None] is a failing assert. *)

From stdpp Require Import gmap strings.
From S2P Require Import Prelude APInt Expr ExprOrder ExprSem ExprCreate ExprVisitor ExprUtil IndependentElementSet FactorIndex.

(** The fields of [ConstraintManager] for the factors, with the heap. *)
Record Factors := mkFactors {
  heap : gmap ptr IndependentElementSet;
  indexer : Indexer;
  representative : list (Expr * ptr)
}.

Definition no_factors : Factors := mkFactors ∅ (mkIndexer ∅ ∅ ∅) [].

(** ** The manager's updates *)

Section Updates.
Context `{A : APIntOps}.

(** [representative.find], [representative[e] = p] and [representative.erase]. *)
Definition rep_find (m : list (Expr * ptr)) (e : Expr) : option ptr := map_find Expr_eqb m e.
Definition rep_erase (m : list (Expr * ptr)) (e : Expr) : list (Expr * ptr) :=
  filter (fun p => Expr_eqb e p.1 = false) m.
Definition rep_set (p : ptr) (m : list (Expr * ptr)) (e : Expr) : list (Expr * ptr) := (e, p) :: rep_erase m e.

(** [new IndependentElementSet(...)] *)
Definition new_set (F : Factors) (s : IndependentElementSet) : ptr * Factors :=
  let p := fresh (dom (heap F)) in
  (p, mkFactors (<[p := s]> (heap F)) (indexer F) (representative F)).

(** The case of several intersected sets (or none): merge them. *)
Definition merge_factors (F : Factors) (current : IndependentElementSet) (victims : list ptr) : option Factors :=
  sets ← mapM (fun p => heap F !! p) victims;
  let merged := foldl (fun c s => (add c s).1) current sets in
  let '(p, F) := new_set F merged in
  let rep := foldl (rep_set p) (representative F) (ie_exprs merged) in
  ix ← foldM (fun ix v => Indexer_erase ix v.1 v.2) (indexer F) (zip victims sets);
  ix ← Indexer_insert ix p merged;
  Some (mkFactors (foldl (fun h v => delete v h) (heap F) victims) ix rep).

Definition updateIndependentSetAdd (F : Factors) (e : Expr) : option Factors :=
  current ← IndependentElementSet'create e;
  indep_elemsets ← getIntersection (indexer F) current;
  match elements indep_elemsets with
  | [singleIntersect] =>
    (* the new constraint falls exactly in one existing factor *)
    s ← heap F !! singleIntersect;
    ix ← redirect (indexer F) current singleIntersect;
    Some (mkFactors (<[singleIntersect := (add s current).1]> (heap F)) ix
           (foldl (rep_set singleIntersect) (representative F) (ie_exprs current)))
  | victims => merge_factors F current victims
  end.

(** The loop that merges [current] with the sets of [result] it intersects;
    [rest] are those from index [i] on.  A merged set is replaced by the last. *)
Fixpoint absorb (n : nat) (current : IndependentElementSet) (kept rest : list IndependentElementSet)
    : IndependentElementSet * list IndependentElementSet :=
  match n, rest with
  | S n, r :: rest =>
    if intersects current r then
      let current := (add current r).1 in
      match last rest with
      | Some back => absorb n current kept (back :: removelast rest)
      | None => (current, kept)
      end
    else absorb n current (kept ++ [r]) rest
  | _, _ => (current, kept ++ rest)
  end.

(** The [while (!temp.empty())] loop; [temp] with its back first. *)
Fixpoint regroup (temp result : list IndependentElementSet) : list IndependentElementSet :=
  match temp with
  | [] => result
  | current :: temp =>
    let '(current, result) := absorb (length result) current [] result in
    regroup temp (result ++ [current])
  end.

(** [updateList[indep].insert(e)] *)
Fixpoint ul_insert (ul : list (ptr * list Expr)) (p : ptr) (e : Expr) : list (ptr * list Expr) :=
  match ul with
  | [] => [(p, [e])]
  | (q, es) :: ul => if decide (p = q) then (q, insert_expr es e) :: ul else (q, es) :: ul_insert ul p e
  end.

(** The first loop: the factors to update, with the constraints to delete. *)
Definition collect (st : list (ptr * list Expr) * list (Expr * ptr)) (e : Expr)
    : option (list (ptr * list Expr) * list (Expr * ptr)) :=
  indep ← rep_find st.2 e;
  Some (ul_insert st.1 indep e, rep_erase st.2 e).

(** A set becomes a factor: [indep_indexer.insert] and the [representative] of its
    constraints. *)
Definition insert_set (F : Factors) (r : IndependentElementSet) : option Factors :=
  let '(p, F) := new_set F r in
  ix ← Indexer_insert (indexer F) p r;
  Some (mkFactors (heap F) ix (foldl (rep_set p) (representative F) (ie_exprs r))).

(** The rebuilding of one factor without the deleted constraints. *)
Definition rebuild_factor (F : Factors) (it : ptr * list Expr) : option Factors :=
  s ← heap F !! it.1;
  temp ← mapM IndependentElementSet'create (filter (fun e => existsb (Expr_eqb e) it.2 = false) (ie_exprs s));
  let result := match rev temp with [] => [] | back :: temp => regroup temp [back] end in
  foldM insert_set F result.

Definition updateIndependentSetDelete (F : Factors) (deleteConstraints : list Expr) : option Factors :=
  match deleteConstraints with
  | [] => Some F
  | _ =>
    st ← foldM collect ([], representative F) deleteConstraints;
    let updateList := st.1 in
    ix ← foldM (fun ix it => s ← heap F !! it.1; Indexer_erase ix it.1 s) (indexer F) updateList;
    foldM rebuild_factor (mkFactors (heap F) ix st.2) updateList
  end.

Definition getRelatedIndependentElementSets (F : Factors) (constraints : list Expr) : option (gset ptr) :=
  foldM (fun out e => p ← rep_find (representative F) e; Some ({[p]} ∪ out)) ∅ constraints.

(** *** The constructors *)

(** One of several intersected sets: it is added to [indep], erased and deleted. *)
Definition absorb_factor (indep : ptr) (st : gmap ptr IndependentElementSet * Indexer) (intersect : ptr)
    : option (gmap ptr IndependentElementSet * Indexer) :=
  s ← st.1 !! indep;
  t ← st.1 !! intersect;
  ix ← Indexer_erase st.2 intersect t;
  Some (delete intersect (<[indep := (add s t).1]> st.1), ix).

(** The body of the loop over [init_indep]. *)
Definition init_factor (st : gmap ptr IndependentElementSet * Indexer) (indep : ptr)
    : option (gmap ptr IndependentElementSet * Indexer) :=
  s ← st.1 !! indep;
  intersected ← getIntersection st.2 s;
  match elements intersected with
  | [] => ix ← Indexer_insert st.2 indep s; Some (st.1, ix)
  | [singleIntersect] =>
    t ← st.1 !! singleIntersect;
    ix ← redirect st.2 s singleIntersect;
    Some (delete indep (<[singleIntersect := (add t s).1]> st.1), ix)
  | intersected =>
    st ← foldM (absorb_factor indep) st intersected;
    s ← st.1 !! indep;
    ix ← Indexer_insert st.2 indep s;
    Some (st.1, ix)
  end.

(** [representative[e] = *it] for the constraints of a factor. *)
Definition set_representatives (h : gmap ptr IndependentElementSet) (rep : list (Expr * ptr)) (it : ptr)
    : option (list (Expr * ptr)) :=
  s ← h !! it; Some (foldl (rep_set it) rep (ie_exprs s)).

(** [ConstraintManager(const Constraints_ty &)]; the pointers of the new sets
    are the numbers from 1 on. *)
Definition factors_of (constraints : list Expr) : option Factors :=
  init_indep ← mapM IndependentElementSet'create constraints;
  let ptrs : list ptr := (Pos.of_nat : nat -> ptr) <$> seq 1 (length init_indep) in
  st ← foldM init_factor (list_to_map (zip ptrs init_indep), mkIndexer ∅ ∅ ∅) ptrs;
  rep ← foldM (set_representatives st.1) [] (elements (factors st.2));
  Some (mkFactors st.1 st.2 rep).

(** [ConstraintManager(const ConstraintManager &)] *)
Definition copy_factor (cs F : Factors) (it : ptr) : option Factors :=
  candidate ← heap cs !! it;
  insert_set F candidate.

Definition copy_factors (cs : Factors) : option Factors :=
  foldM (copy_factor cs) no_factors (elements (factors (indexer cs))).

End Updates.

Section Partition.
Context `{A : APIntOps} {AS : APIntSpec A}.

(** *** The map of representatives *)

Lemma rep_find_erase m e x :
  Forall (fun q => wf_consts q.1 = true) m -> wf_consts e = true -> wf_consts x = true ->
  rep_find (rep_erase m e) x = if decide (x = e) then None else rep_find m x.
Proof.
  intros Hm He Hx. induction Hm as [|[k p] m Hk Hm IH]; [now destruct (decide _)|]. cbn in Hk.
  unfold rep_find, rep_erase in *. rewrite filter_cons. cbn [fst].
  destruct (decide (Expr_eqb e k = false)) as [E|E]; cbn [map_find].
  - destruct (Expr_eqb x k) eqn:Ex; [|exact IH]. apply Expr_eqb_eq in Ex as ->; auto.
    rewrite decide_False; [done|]. intros ->. rewrite (proj2 (Expr_eqb_eq e e He He) eq_refl) in E. done.
  - rewrite IH. apply not_false_iff_true, Expr_eqb_eq in E as ->; auto.
    destruct (decide (x = k)) as [->|Hne]; [done|]. destruct (Expr_eqb x k) eqn:Ex; [|done].
    exfalso. apply Hne, Expr_eqb_eq; auto.
Qed.

Lemma rep_erase_keys m e : Forall (fun q => wf_consts q.1 = true) m ->
  Forall (fun q : Expr * ptr => wf_consts q.1 = true) (rep_erase m e).
Proof. intros H. rewrite Forall_forall in *. intros q Hq. apply list_elem_of_filter in Hq as [_ Hq]. auto. Qed.

Lemma rep_find_sets p l m x :
  Forall (fun q => wf_consts q.1 = true) m -> Forall (fun e => wf_consts e = true) l -> wf_consts x = true ->
  rep_find (foldl (rep_set p) m l) x = if decide (x ∈ l) then Some p else rep_find m x.
Proof.
  intros Hm Hl Hx. revert m Hm. induction Hl as [|e l He Hl IH]; intros m Hm; cbn [foldl].
  { now rewrite decide_False by set_solver. }
  rewrite IH by (unfold rep_set; constructor; [done|now apply rep_erase_keys]).
  destruct (decide (x ∈ l)); [now rewrite decide_True by set_solver|].
  unfold rep_set, rep_find. cbn [map_find]. destruct (Expr_eqb x e) eqn:E.
  - apply Expr_eqb_eq in E as ->; auto. now rewrite decide_True by set_solver.
  - assert (x <> e) by (intros ->; rewrite (proj2 (Expr_eqb_eq e e He He) eq_refl) in E; done).
    rewrite decide_False by set_solver. fold (rep_find (rep_erase m e) x).
    rewrite rep_find_erase by done. now rewrite decide_False.
Qed.

Lemma rep_sets_keys p l m :
  Forall (fun q => wf_consts q.1 = true) m -> Forall (fun e => wf_consts e = true) l ->
  Forall (fun q : Expr * ptr => wf_consts q.1 = true) (foldl (rep_set p) m l).
Proof.
  intros Hm Hl. revert m Hm. induction Hl as [|e l He Hl IH]; intros m Hm; cbn; [done|].
  apply IH. constructor; [done|now apply rep_erase_keys].
Qed.

(** *** Merging sets *)

Lemma add_set_ok a b : set_ok a -> set_ok b -> set_ok (add a b).1 /\
  (forall e, e ∈ ie_exprs (add a b).1 <-> e ∈ ie_exprs a \/ e ∈ ie_exprs b) /\
  (forall x i, covers (add a b).1 x i <-> covers a x i \/ covers b x i).
Proof.
  intros [Wa Na Ca] [Wb Nb Cb]. destruct (add_grows a b Wa Wb) as (W & He & Hc & _).
  destruct (insert_exprs_spec (ie_exprs b) (ie_exprs a)) as [Hin Hn]; auto. rewrite <- He in Hin, Hn.
  split_and!; [|done|done]. constructor; [done|done|]. rewrite Forall_forall in *. intros e [?|?]%Hin; auto.
Qed.

Definition merge_sets (c : IndependentElementSet) (sets : list IndependentElementSet) : IndependentElementSet :=
  foldl (fun c s => (add c s).1) c sets.

Lemma merge_sets_ok c sets : set_ok c -> Forall set_ok sets -> set_ok (merge_sets c sets) /\
  (forall e, e ∈ ie_exprs (merge_sets c sets) <-> e ∈ ie_exprs c \/ exists s, s ∈ sets /\ e ∈ ie_exprs s) /\
  (forall x i, covers (merge_sets c sets) x i <-> covers c x i \/ exists s, s ∈ sets /\ covers s x i).
Proof.
  intros Hc Hs. revert c Hc. induction Hs as [|s sets Hs Hsets IH]; intros c Hc; cbn; [set_solver|].
  destruct (add_set_ok c s Hc Hs) as (Ha & He & Hv). destruct (IH _ Ha) as (Hm & He' & Hv'). unfold merge_sets in *.
  split_and!; [done| |]; intros; [rewrite He', He|rewrite Hv', Hv]; set_solver.
Qed.

(** *** Steps that keep the index exact *)

Lemma erase_list h ix (l : list (ptr * IndependentElementSet)) :
  exact h ix -> NoDup l.*1 -> Forall (fun v => fset h ix v.1 v.2) l ->
  exists ix', foldM (fun ix v => Indexer_erase ix v.1 v.2) ix l = Some ix' /\
    exact h ix' /\ factors ix' = factors ix ∖ list_to_set l.*1.
Proof.
  revert ix. induction l as [|[v s] l IH]; intros ix Hx Hn Hl; cbn.
  { exists ix. split_and!; [done|done|set_solver]. }
  apply NoDup_cons in Hn as [Hv Hn]. apply Forall_cons in Hl as [Hs Hl]. cbn in Hs, Hv.
  destruct (erase_total h ix v s Hx Hs) as (ix1 & -> & Hx1 & Hf1). cbn.
  destruct (IH ix1 Hx1 Hn) as (ix2 & -> & Hx2 & Hf2).
  - rewrite Forall_forall in *. intros [w t] Hw. destruct (Hl _ Hw) as [Hin Ht]. split; [|done].
    rewrite Hf1. cbn in *. assert (w ∈ l.*1) by (apply list_elem_of_fmap; now exists (w, t)). set_solver.
  - exists ix2. split_and!; [done|done|]. rewrite Hf2, Hf1. cbn. set_solver.
Qed.

Lemma insert_new h ix p s : exact h ix -> p ∉ factors ix -> set_ok s -> in_range s ->
  (forall q t, fset h ix q t -> ~ overlap s t) ->
  exists ix', Indexer_insert ix p s = Some ix' /\ exact (<[p := s]> h) ix' /\ factors ix' = {[p]} ∪ factors ix.
Proof.
  intros Hx Hp Hs Hr Hfree. destruct (redirect_total h ix s p Hx Hr) as [ix1 E].
  unfold Indexer_insert. rewrite E. cbn. eexists. split; [done|].
  destruct (redirect_entries _ _ _ _ E) as (Hf & _). cbn. rewrite Hf. split; [|done].
  apply (redirect_exact h ix ix1 p s no_elements s); [done|apply Hs|done|now right|done| |eauto|done].
  intros a i. split; [auto|]. intros [?|[?|(ds & ? & _)]]; [done|set_solver..].
Qed.

Lemma redirect_single h ix q t c : exact h ix -> fset h ix q t -> set_ok c -> in_range c ->
  (forall q' t', fset h ix q' t' -> overlap c t' -> q' = q) ->
  exists ix', redirect ix c q = Some ix' /\ exact (<[q := (add t c).1]> h) ix' /\ factors ix' = factors ix.
Proof.
  intros Hx Ht Hc Hr Hfree. destruct (redirect_total h ix c q Hx Hr) as [ix1 E]. exists ix1. split; [done|].
  destruct (redirect_entries _ _ _ _ E) as (Hf & _). split; [|done].
  destruct (exact_set _ _ _ _ Hx Ht) as [Ot _]. destruct (add_set_ok t c Ot Hc) as (On & _ & Hcov).
  assert (Hx' : exact (<[q := (add t c).1]> h) (mkIndexer (elements_index ix1) (wholeObj_index ix1) ({[q]} ∪ factors ix))).
  { apply (redirect_exact h ix ix1 q c t); [done|apply Hc|done|now left|done| | |done].
    - intros a i. rewrite Hcov. tauto.
    - intros q' t' Ht' Hne Ho. apply Hne. eauto. }
  destruct Ht as [Hq _]. replace ({[q]} ∪ factors ix) with (factors ix1) in Hx' by set_solver.
  now destruct ix1.
Qed.

(** *** Connected components *)

(** The sets of two constraints have a common byte. *)
Definition overlapping (x y : Expr) : Prop :=
  exists s t, IndependentElementSet'create x = Some s /\ IndependentElementSet'create y = Some t /\ overlap s t.

Definition linked (l : Expr -> Prop) (x y : Expr) : Prop := l x /\ l y /\ overlapping x y.

(** The constraints of a factor are connected, and their bytes are the bytes of
    the factor. *)
Record component (s : IndependentElementSet) : Prop := {
  co_covers a i : covers s a i <->
    exists e t, e ∈ ie_exprs s /\ IndependentElementSet'create e = Some t /\ covers t a i;
  co_connected x y : x ∈ ie_exprs s -> y ∈ ie_exprs s -> rtc (linked (.∈ ie_exprs s)) x y
}.

Lemma overlapping_sym x y : overlapping x y -> overlapping y x.
Proof. intros (s & t & ? & ? & a & i & ? & ?). exists t, s. split_and!; [done..|]. now exists a, i. Qed.

Lemma linked_mono l l' x y : (forall z, l z -> l' z) -> rtc (linked l) x y -> rtc (linked l') x y.
Proof. intros Hl. apply rtc_subrel. intros u v (? & ? & ?). split_and!; auto. Qed.

Lemma component_create e s : wf_consts e = true -> IndependentElementSet'create e = Some s ->
  set_ok s /\ component s /\ ie_exprs s = [e].
Proof.
  intros He Hs. destruct (create_covers e He) as (s' & Hs' & W & Hex & _). rewrite Hs in Hs'. injection Hs' as <-.
  split_and!; [|constructor|done]; rewrite ?Hex.
  - constructor; rewrite ?Hex; [done|apply NoDup_singleton|repeat constructor; done].
  - intros a i. setoid_rewrite list_elem_of_singleton. naive_solver.
  - intros x y ->%list_elem_of_singleton ->%list_elem_of_singleton. apply rtc_refl.
Qed.

Lemma component_add a b : set_ok a -> set_ok b -> component a -> component b -> overlap a b -> component (add a b).1.
Proof.
  intros Oa Ob Ca Cb (x & i & Ha & Hb). destruct (add_set_ok a b Oa Ob) as (_ & He & Hc).
  assert (Ma : forall y z, rtc (linked (.∈ ie_exprs a)) y z -> rtc (linked (.∈ ie_exprs (add a b).1)) y z)
    by (intros y z; apply linked_mono; intros; apply He; auto).
  assert (Mb : forall y z, rtc (linked (.∈ ie_exprs b)) y z -> rtc (linked (.∈ ie_exprs (add a b).1)) y z)
    by (intros y z; apply linked_mono; intros; apply He; auto).
  apply (co_covers _ Ca) in Ha as (u & s & Hu & Hs & Hus). apply (co_covers _ Cb) in Hb as (v & t & Hv & Ht & Hvt).
  assert (Huv : overlapping u v) by (exists s, t; split_and!; [done..|]; now exists x, i).
  assert (Lab : linked (.∈ ie_exprs (add a b).1) u v) by (split_and!; [apply He; auto..|done]).
  assert (Lba : linked (.∈ ie_exprs (add a b).1) v u) by (split_and!; [apply He; auto..|now apply overlapping_sym]).
  constructor.
  - intros y j. rewrite Hc, (co_covers _ Ca), (co_covers _ Cb). setoid_rewrite He. naive_solver.
  - intros y z [Hy|Hy]%He [Hz|Hz]%He.
    + apply Ma, (co_connected _ Ca); done.
    + etrans; [apply Ma, (co_connected _ Ca y u); done|]. eapply rtc_l; [exact Lab|].
      apply Mb, (co_connected _ Cb); done.
    + etrans; [apply Mb, (co_connected _ Cb y v); done|]. eapply rtc_l; [exact Lba|].
      apply Ma, (co_connected _ Ca); done.
    + apply Mb, (co_connected _ Cb); done.
Qed.

Lemma component_merge c sets : set_ok c -> component c ->
  Forall (fun s => set_ok s /\ component s /\ overlap c s) sets -> component (merge_sets c sets).
Proof.
  intros Oc Cc Hs. revert c Oc Cc Hs. induction sets as [|s sets IH]; intros c Oc Cc Hs; cbn; [done|].
  apply Forall_cons in Hs as [(Os & Cs & Hov) Hs]. destruct (add_set_ok c s Oc Os) as (Oa & _ & Hc).
  apply IH; [done|now apply component_add|]. eapply Forall_impl; [exact Hs|].
  intros t (Ot & Ct & a & i & H1 & H2). split_and!; [done..|]. exists a, i. rewrite Hc. auto.
Qed.

(** *** The invariant *)

(** The reads of [e] at constant indices are inside their arrays. *)
Definition in_bounds (e : Expr) : Prop :=
  forall re, occurs true e (read_expr re) ->
  match re_index re with ConstantExpr CE => u32 (getZExtValue CE) < Expr.size (re_root re) | _ => True end.

Lemma create_range e s : wf_consts e = true -> in_bounds e -> IndependentElementSet'create e = Some s -> in_range s.
Proof.
  intros He Hb Hs a ds i Hds Hi. destruct (create_covers e He) as (s' & Hs' & W & _ & Hc).
  rewrite Hs in Hs'. injection Hs' as <-. assert (Hci : covers s a i) by (right; eauto).
  apply Hc in Hci as (re & Ho & -> & Hn & Hi'). specialize (Hb re Ho). destruct (re_index re) eqn:E;
    try (assert (Hw : re_root re ∈ ie_wholeObjects s) by
           (apply whole_covers; [done|]; intros j; apply Hc; exists re; unfold read_covers; rewrite E; done);
         rewrite (whole_no_elements _ W _ Hw) in Hds; done).
  subst i. split; [|done]. apply Z.mod_pos_bound. lia.
Qed.

(** [representative] maps the constraints of the factors to their factors. *)
Definition rep_ok (F : Factors) : Prop :=
  forall e p, wf_consts e = true -> rep_find (representative F) e = Some p <->
    exists s, fset (heap F) (indexer F) p s /\ e ∈ ie_exprs s.

Record factors_ok (F : Factors) : Prop := {
  fo_exact : exact (heap F) (indexer F);
  fo_keys : Forall (fun q => wf_consts q.1 = true) (representative F);
  fo_rep : rep_ok F;
  fo_component p s : fset (heap F) (indexer F) p s -> component s
}.

(** The constraints that have a factor. *)
Definition managed (F : Factors) (e : Expr) : Prop := is_Some (rep_find (representative F) e).

Lemma managed_factor F e : factors_ok F -> wf_consts e = true ->
  managed F e <-> exists p s, fset (heap F) (indexer F) p s /\ e ∈ ie_exprs s.
Proof. intros HF He. unfold managed, is_Some. now setoid_rewrite (fo_rep _ HF e _ He). Qed.

Lemma exact_empty h : exact h (mkIndexer ∅ ∅ ∅).
Proof.
  constructor; cbn.
  - intros p Hp. set_solver.
  - intros a p. unfold whole_entry. cbn. now rewrite lookup_empty.
  - intros a vec. now rewrite lookup_empty.
  - intros a p. unfold whole_entry, fset. cbn. rewrite lookup_empty. split; [done|]. intros (s & [? _] & _). set_solver.
  - intros a i p. split; [intros (v & Hv & _); cbn in Hv; now rewrite lookup_empty in Hv|].
    intros (s & [Hp _] & _). cbn in Hp. set_solver.
Qed.

Lemma factors_ok_empty_heap h : factors_ok (mkFactors h (mkIndexer ∅ ∅ ∅) []).
Proof.
  constructor; cbn; [apply exact_empty|constructor| |].
  - intros e p _. split; [done|]. intros (s & [Hp _] & _). cbn in Hp. set_solver.
  - intros p s [Hp _]. cbn in Hp. set_solver.
Qed.

(** The step from one state to another that merges the factors [victims] and
    the constraint [e] into [p]. *)
Section Step.
Context (F F' : Factors) (e : Expr) (victims : list ptr) (p : ptr) (merged : IndependentElementSet).
Context (HF : rep_ok F) (He : wf_consts e = true) (Hnew : ~ managed F e).
Context (Hp : p ∈ victims \/ p ∉ factors (indexer F))
  (Hfs : forall q t, fset (heap F') (indexer F') q t <->
    q = p /\ t = merged \/ q ∉ victims /\ q <> p /\ fset (heap F) (indexer F) q t)
  (Hex : forall x, x ∈ ie_exprs merged <->
    x = e \/ exists v t, v ∈ victims /\ fset (heap F) (indexer F) v t /\ x ∈ ie_exprs t)
  (Hrep : forall x, wf_consts x = true -> rep_find (representative F') x =
    if decide (x ∈ ie_exprs merged) then Some p else rep_find (representative F) x).

Lemma step_rep x q : wf_consts x = true -> rep_find (representative F') x = Some q <->
  exists s, fset (heap F') (indexer F') q s /\ x ∈ ie_exprs s.
Proof.
  intros Hx. rewrite Hrep by done. pose proof (HF x) as Hr. setoid_rewrite Hfs.
  destruct (decide (x ∈ ie_exprs merged)) as [Hm|Hm].
  - split; [intros [= <-]; eauto|]. intros (s & [[-> _]|(Hq & _ & Hs)] & Hin); [done|]. exfalso.
    assert (Hxq : rep_find (representative F) x = Some q) by (apply Hr; eauto).
    apply Hex in Hm as [->|(v & t & Hv & Ht & Hxt)]; [destruct Hnew; now exists q|].
    assert (Hxv : rep_find (representative F) x = Some v) by (apply Hr; eauto). congruence.
  - rewrite (Hr q Hx). split.
    + intros (s & Hs & Hin). exists s. split; [right|done]. split_and!; [|intros ->|done].
      * intros Hq. apply Hm, Hex. right. eauto.
      * destruct Hp as [Hv|Hv]; [|now destruct Hs]. apply Hm, Hex. right. eauto.
    + intros (s & [[_ ->]|(_ & _ & Hs)] & Hin); [done|eauto].
Qed.

Lemma step_managed x : wf_consts x = true -> managed F' x <-> managed F x \/ x = e.
Proof.
  intros Hx. unfold managed. rewrite Hrep by done. destruct (decide (x ∈ ie_exprs merged)) as [Hm|Hm].
  - split; [intros _|eauto]. apply Hex in Hm as [->|(v & t & _ & Ht & Hxt)]; [auto|left].
    exists v. apply HF; eauto.
  - split; [auto|]. intros [?| ->]; [done|]. destruct Hm. apply Hex. auto.
Qed.

Lemma step_ok : factors_ok F -> exact (heap F') (indexer F') -> Forall (fun q => wf_consts q.1 = true) (representative F') ->
  component merged -> factors_ok F' /\ forall x, wf_consts x = true -> managed F' x <-> managed F x \/ x = e.
Proof.
  intros HF' Hx Hk Hc. split; [|apply step_managed]. constructor; [done|done|intros x q; apply step_rep|].
  intros q t [[-> ->]|(_ & _ & Ht)]%Hfs; [done|]. exact (fo_component _ HF' _ _ Ht).
Qed.

End Step.

Lemma mapM_sets h ix l : (forall p, p ∈ l -> exists t, fset h ix p t) ->
  exists sets, mapM (fun p => h !! p) l = Some sets /\ Forall (fun v => fset h ix v.1 v.2) (zip l sets) /\
    (zip l sets).*1 = l /\ (zip l sets).*2 = sets.
Proof.
  induction l as [|p l IH]; intros Hl; cbn; [now exists []|].
  destruct (Hl p) as (t & Ht); [set_solver|]. destruct IH as (sets & -> & Hs & H1 & H2); [set_solver|].
  destruct Ht as [Hp Hh]. rewrite Hh. cbn. exists (t :: sets). cbn. split_and!; [done|now constructor|congruence..].
Qed.

Lemma delete_list_lookup (l : list ptr) (h : gmap ptr IndependentElementSet) p :
  foldl (fun h v => delete v h) h l !! p = if decide (p ∈ l) then None else h !! p.
Proof.
  revert h. induction l as [|v l IH]; intros h; cbn; [done|]. rewrite IH.
  destruct (decide (p ∈ l)); [now rewrite decide_True by set_solver|].
  destruct (decide (p = v)) as [->|Hne].
  - rewrite decide_True by set_solver. apply lookup_delete_eq.
  - rewrite decide_False by set_solver. now apply lookup_delete_ne.
Qed.

Lemma fset_factors h ix h' ix' p s : fset h' ix' p s -> p ∈ factors ix -> h' !! p = h !! p -> fset h ix p s.
Proof. intros [_ H] Hp E. split; congruence. Qed.

Lemma in_range_intro u : ies_wf u ->
  (forall a i, covers u a i -> exists s, in_range s /\ covers s a i /\ forall b j, covers s b j -> covers u b j) -> in_range u.
Proof.
  intros W H a ds i Hds Hi. destruct (H a i) as (s & Rs & Hs & Hsub); [right; eauto|].
  apply (covers_range s); [done| |done]. intros Ha.
  assert (Hw : a ∈ ie_wholeObjects u) by (apply whole_covers; [done|]; intros j; apply Hsub; now left).
  rewrite (whole_no_elements _ W _ Hw) in Hds. done.
Qed.

(** [c] and the factors that overlap it. *)
Section Victims.
Context (h : gmap ptr IndependentElementSet) (ix : Indexer) (c : IndependentElementSet) (victims : list ptr).
Context (Hx : exact h ix) (Hcomp : forall p s, fset h ix p s -> component s)
  (Oc : set_ok c) (Rc : in_range c) (Cc : component c)
  (Hv : forall p, p ∈ victims <-> exists t, fset h ix p t /\ overlap c t).

Definition of_victim (P : IndependentElementSet -> Prop) : Prop := exists v t, v ∈ victims /\ fset h ix v t /\ P t.

Lemma victims_merge : exists sets, mapM (fun p => h !! p) victims = Some sets /\
  (zip victims sets).*1 = victims /\ Forall (fun v => fset h ix v.1 v.2) (zip victims sets) /\
  forall t, t ∈ sets <-> of_victim (eq t).
Proof.
  destruct (mapM_sets h ix victims) as (sets & Hm & Hz & H1 & H2).
  { intros p Hp. apply Hv in Hp as (t & ? & _). eauto. }
  exists sets. split_and!; [done..|]. intros t. rewrite <- H2, list_elem_of_fmap. rewrite Forall_forall in Hz. split.
  - intros ([v u] & -> & Hin). exists v, u. split_and!; [|now apply (Hz (v, u))|done].
    rewrite <- H1. apply list_elem_of_fmap. now exists (v, u).
  - intros (v & u & Hin & Hu & ->). rewrite <- H1 in Hin. apply list_elem_of_fmap in Hin as ([v' u'] & -> & Hin).
    exists (v', u'). cbn in *. now rewrite (fset_fun _ _ _ _ _ Hu (Hz _ Hin)).
Qed.

Context (sets : list IndependentElementSet) (Hsets : forall t, t ∈ sets <-> of_victim (eq t)).

Lemma victims_ok : Forall (fun s => set_ok s /\ component s /\ overlap c s) sets.
Proof.
  apply Forall_forall. intros t (v & u & Hin & Hu & <-)%Hsets. apply Hv in Hin as (t' & Ht' & Ho).
  rewrite <- (fset_fun _ _ _ _ _ Hu Ht') in Ho. split_and!; [eapply exact_set; eauto|eauto|done].
Qed.

Lemma merged_ok : set_ok (merge_sets c sets) /\ component (merge_sets c sets) /\ in_range (merge_sets c sets) /\
  (forall x, x ∈ ie_exprs (merge_sets c sets) <-> x ∈ ie_exprs c \/ of_victim (fun t => x ∈ ie_exprs t)) /\
  (forall a i, covers (merge_sets c sets) a i <-> covers c a i \/ of_victim (fun t => covers t a i)).
Proof.
  pose proof victims_ok as Hok. destruct (merge_sets_ok c sets Oc) as (Om & Em & Cm).
  { eapply Forall_impl; [exact Hok|]. naive_solver. }
  assert (Hof : forall P, (exists s, s ∈ sets /\ P s) <-> of_victim P).
  { intros P. setoid_rewrite Hsets. unfold of_victim. naive_solver. }
  split_and!; [done|now apply component_merge| |intros; now rewrite Em, Hof|intros; now rewrite Cm, Hof].
  apply in_range_intro; [apply Om|]. intros a i [Hc|(t & Ht & Hc)]%Cm.
  - exists c. split_and!; [done..|]. intros. apply Cm. auto.
  - exists t. split_and!; [|done|intros; apply Cm; eauto]. apply Hsets in Ht as (v & u & _ & Hu & <-).
    eapply exact_set; eauto.
Qed.

Lemma merged_free q t : fset h ix q t -> q ∉ victims -> ~ overlap (merge_sets c sets) t.
Proof.
  intros Ht Hq (a & i & Hm & Hc). apply merged_ok in Hm as [Hm|(v & u & Hin & Hu & Hm)]; apply Hq.
  - apply Hv. exists t. split; [done|]. now exists a, i.
  - rewrite (exact_disjoint h ix q v t u); [done..|]. now exists a, i.
Qed.

End Victims.

(** [F] with the factors [victims] replaced by the set [merged] at [p]. *)
Definition replaced (F : Factors) (victims : list ptr) (p : ptr) (merged : IndependentElementSet)
    (h' : gmap ptr IndependentElementSet) : Prop :=
  h' !! p = Some merged /\
  forall q, q ∈ factors (indexer F) -> q ∉ victims -> q <> p -> h' !! q = heap F !! q.

Lemma replaced_fset F victims p merged h' ix' : replaced F victims p merged h' ->
  factors ix' = {[p]} ∪ (factors (indexer F) ∖ list_to_set victims) ->
  forall q t, fset h' ix' q t <-> q = p /\ t = merged \/ q ∉ victims /\ q <> p /\ fset (heap F) (indexer F) q t.
Proof.
  intros [Hp Hq] Hf q t. unfold fset. rewrite Hf, elem_of_union, elem_of_difference, elem_of_singleton, elem_of_list_to_set.
  destruct (decide (q = p)) as [->|Hne]; [rewrite Hp; naive_solver|]. split.
  - intros [[?|[Hin Hn]] Hh]; [done|]. rewrite Hq in Hh by done. tauto.
  - intros [[? _]|(Hn & _ & Hin & Hh)]; [done|]. rewrite Hq by done. tauto.
Qed.

(** Several victims, or none: they are merged into a new set. *)
Lemma merge_core F e c victims p : factors_ok F -> wf_consts e = true -> in_bounds e -> ~ managed F e ->
  IndependentElementSet'create e = Some c -> NoDup victims ->
  (forall p, p ∈ victims <-> exists t, fset (heap F) (indexer F) p t /\ overlap c t) ->
  p ∉ factors (indexer F) ->
  exists sets ix1 ix2, let merged := merge_sets c sets in
    mapM (fun p => heap F !! p) victims = Some sets /\
    foldM (fun ix v => Indexer_erase ix v.1 v.2) (indexer F) (zip victims sets) = Some ix1 /\
    Indexer_insert ix1 p merged = Some ix2 /\
    factors ix2 = {[p]} ∪ (factors (indexer F) ∖ list_to_set victims) /\
    forall h', replaced F victims p merged h' ->
      let F' := mkFactors h' ix2 (foldl (rep_set p) (representative F) (ie_exprs merged)) in
      factors_ok F' /\ forall x, wf_consts x = true -> managed F' x <-> managed F x \/ x = e.
Proof.
  intros HF He Hb Hn Hc Hnd Hv Hp. pose proof (fo_exact _ HF) as Hx. pose proof (fo_component _ HF) as Hcomp.
  destruct (component_create e c He Hc) as (Oc & Cc & Ec). pose proof (create_range e c He Hb Hc) as Rc.
  destruct (victims_merge _ _ c victims Hv) as (sets & Hm & H1 & Hz & Hsets).
  destruct (merged_ok _ _ c victims Hx Hcomp Oc Rc Cc Hv sets Hsets) as (Om & Comp & Rm & Em & _).
  pose proof (merged_free _ _ c victims Hx Hcomp Oc Rc Cc Hv sets Hsets) as Hfree.
  set (merged := merge_sets c sets) in *.
  destruct (erase_list (heap F) (indexer F) (zip victims sets)) as (ix1 & E1 & Hx1 & Hf1); [done|now rewrite H1|done|].
  rewrite H1 in Hf1.
  destruct (insert_new (heap F) ix1 p merged) as (ix2 & E2 & Hx2 & Hf2); [done|set_solver|done|done| |].
  { intros q t [Hq Ht]. rewrite Hf1 in Hq. apply (Hfree q); [split; [set_solver|done]|set_solver]. }
  rewrite Hf1 in Hf2. exists sets, ix1, ix2. cbn zeta. split_and!; [done..|]. intros h' Hh'.
  apply (step_ok F _ e victims p merged); cbn [heap indexer representative]; auto using fo_rep.
  - now apply replaced_fset.
  - intros x. rewrite Em, Ec, list_elem_of_singleton. done.
  - intros x Hxc. apply rep_find_sets; [apply (fo_keys _ HF)|apply Om|done].
  - apply (exact_ext (<[p := merged]> (heap F))); [|done]. destruct Hh' as [Hh1 Hh2]. intros q Hq. rewrite Hf2 in Hq.
    destruct (decide (q = p)) as [->|Hne]; [now rewrite lookup_insert_eq|].
    rewrite lookup_insert_ne by done. apply Hh2; set_solver.
  - apply rep_sets_keys; [apply (fo_keys _ HF)|apply Om].
Qed.

(** One victim: the new set is added to it. *)
Lemma single_core F e c p : factors_ok F -> wf_consts e = true -> in_bounds e -> ~ managed F e ->
  IndependentElementSet'create e = Some c ->
  (forall q, q ∈ [p] <-> exists t, fset (heap F) (indexer F) q t /\ overlap c t) ->
  exists t ix1, heap F !! p = Some t /\ redirect (indexer F) c p = Some ix1 /\ factors ix1 = factors (indexer F) /\
    forall h', replaced F [p] p (add t c).1 h' ->
      let F' := mkFactors h' ix1 (foldl (rep_set p) (representative F) (ie_exprs c)) in
      factors_ok F' /\ forall x, wf_consts x = true -> managed F' x <-> managed F x \/ x = e.
Proof.
  intros HF He Hb Hn Hc Hv. pose proof (fo_exact _ HF) as Hx.
  destruct (component_create e c He Hc) as (Oc & Cc & Ec). pose proof (create_range e c He Hb Hc) as Rc.
  destruct (proj1 (Hv p)) as (t & Ht & Ho); [now left|].
  destruct (redirect_single _ _ p t c Hx Ht Oc Rc) as (ix1 & E1 & Hx1 & Hf1).
  { intros q u Hu Hou. assert (Hq : q ∈ [p]) by (apply Hv; eauto). now apply list_elem_of_singleton in Hq. }
  destruct (exact_set _ _ _ _ Hx Ht) as [Ot _]. destruct (add_set_ok t c Ot Oc) as (Om & Em & Cm).
  exists t, ix1. split_and!; [apply Ht|done|done|]. intros h' Hh'. set (merged := (add t c).1) in *.
  assert (Hf1' : factors ix1 = {[p]} ∪ factors (indexer F) ∖ list_to_set [p]).
  { rewrite Hf1. apply set_eq. intros q. destruct Ht. destruct (decide (q = p)); set_solver. }
  assert (Hp : p ∈ [p]) by now left.
  apply (step_ok F _ e [p] p merged); cbn [heap indexer representative]; auto using fo_rep.
  - now apply replaced_fset.
  - intros x. rewrite Em, Ec, list_elem_of_singleton. setoid_rewrite list_elem_of_singleton. split.
    + intros [?| ->]; eauto 8.
    + intros [->|(v & u & -> & Hu & ?)]; [auto|]. rewrite (fset_fun _ _ _ _ _ Ht Hu). auto.
  - intros x Hxc. rewrite rep_find_sets; [|apply (fo_keys _ HF)|apply Oc|done].
    destruct (decide (x ∈ ie_exprs c)); [now rewrite decide_True by (apply Em; auto)|].
    destruct (decide (x ∈ ie_exprs merged)) as [Hxm|]; [|done]. apply Em in Hxm as [Hxt|]; [|done].
    apply (fo_rep _ HF); eauto.
  - apply (exact_ext (<[p := merged]> (heap F))); [|done]. destruct Hh' as [Hh1 Hh2]. intros q Hq. rewrite Hf1 in Hq.
    destruct (decide (q = p)) as [->|Hne]; [now rewrite lookup_insert_eq|].
    rewrite lookup_insert_ne by done. apply Hh2; set_solver.
  - apply rep_sets_keys; [apply (fo_keys _ HF)|apply Oc].
  - apply component_add; auto; [eapply fo_component; eauto|]. destruct Ho as (a & i & ? & ?). now exists a, i.
Qed.

Lemma merge_step F e c victims : factors_ok F -> wf_consts e = true -> in_bounds e -> ~ managed F e ->
  IndependentElementSet'create e = Some c -> NoDup victims ->
  (forall p, p ∈ victims <-> exists t, fset (heap F) (indexer F) p t /\ overlap c t) ->
  exists F', merge_factors F c victims = Some F' /\ factors_ok F' /\
    forall x, wf_consts x = true -> managed F' x <-> managed F x \/ x = e.
Proof.
  intros HF He Hb Hn Hc Hnd Hv. set (p := fresh (dom (heap F))).
  assert (Hp : p ∉ dom (heap F)) by apply is_fresh.
  assert (Hpf : p ∉ factors (indexer F)).
  { intros H. destruct (ex_heap _ _ (fo_exact _ HF) p H) as (s & Hs & _). apply Hp, elem_of_dom. eauto. }
  destruct (merge_core F e c victims p) as (sets & ix1 & ix2 & Hm & E1 & E2 & _ & Hok); [done..|].
  unfold merge_factors. rewrite Hm. cbn. fold (merge_sets c sets). rewrite E1. cbn. fold p. rewrite E2. cbn.
  eexists. split; [done|]. apply Hok. split.
  - rewrite delete_list_lookup, decide_False, lookup_insert_eq; [done|]. intros (t & [? _] & _)%Hv. done.
  - intros q _ Hq Hne. now rewrite delete_list_lookup, decide_False, lookup_insert_ne by done.
Qed.

(** [elements] of the result of [getIntersection]. *)
Lemma intersected_victims F e : factors_ok F -> wf_consts e = true -> in_bounds e ->
  exists c out, IndependentElementSet'create e = Some c /\ getIntersection (indexer F) c = Some out /\
    NoDup (elements out) /\
    forall p, p ∈ elements out <-> exists t, fset (heap F) (indexer F) p t /\ overlap c t.
Proof.
  intros HF He Hb. pose proof (fo_exact _ HF) as Hx. destruct (create_covers e He) as (c & Hc & W & _).
  destruct (getIntersection_total _ _ c Hx (create_range e c He Hb Hc)) as [out Hout].
  exists c, out. split_and!; [done|done|apply NoDup_elements|]. intros p. rewrite elem_of_elements.
  exact (getIntersection_exact _ _ _ _ Hx W Hout p).
Qed.

Lemma updateIndependentSetAdd_ok F e : factors_ok F -> wf_consts e = true -> in_bounds e -> ~ managed F e ->
  exists F', updateIndependentSetAdd F e = Some F' /\ factors_ok F' /\
    forall x, wf_consts x = true -> managed F' x <-> managed F x \/ x = e.
Proof.
  intros HF He Hb Hn. destruct (intersected_victims F e HF He Hb) as (c & out & Hc & Hout & Hnd & Hv).
  unfold updateIndependentSetAdd. rewrite Hc. cbn. rewrite Hout. cbn.
  destruct (elements out) as [|p [|p' l]];
    [exact (merge_step F e c [] HF He Hb Hn Hc Hnd Hv)| |exact (merge_step F e c (p :: p' :: l) HF He Hb Hn Hc Hnd Hv)].
  destruct (single_core F e c p HF He Hb Hn Hc Hv) as (t & ix1 & -> & E1 & _ & Hok). cbn. rewrite E1. cbn.
  eexists. split; [done|]. apply Hok. split; [apply lookup_insert_eq|]. intros q _ _ Hne. now apply lookup_insert_ne.
Qed.

(** *** The constructor *)

Lemma absorb_list h ix p c l sets ix1 : h !! p = Some c -> p ∉ l -> NoDup l -> mapM (fun q => h !! q) l = Some sets ->
  foldM (fun ix v => Indexer_erase ix v.1 v.2) ix (zip l sets) = Some ix1 ->
  exists h', foldM (absorb_factor p) (h, ix) l = Some (h', ix1) /\ h' !! p = Some (merge_sets c sets) /\
    forall q, q ∉ l -> q <> p -> h' !! q = h !! q.
Proof.
  revert h ix c sets. induction l as [|q l IH]; cbn; intros h ix c sets Hc Hp Hnd Hm He.
  { injection Hm as <-. injection He as <-. now exists h. }
  apply bind_Some in Hm as (t & Ht & Hm). apply bind_Some in Hm as (ts & Hm & [= <-]). cbn in He.
  apply bind_Some in He as (ix2 & E2 & He). apply not_elem_of_cons in Hp as [Hpq Hp]. apply NoDup_cons in Hnd as [Hq Hnd].
  unfold absorb_factor at 2. cbn. rewrite Hc, Ht. cbn. rewrite E2. cbn.
  destruct (IH (delete q (<[p := (add c t).1]> h)) ix2 (add c t).1 ts) as (h' & -> & Hp' & Ho); auto.
  - now rewrite lookup_delete_ne, lookup_insert_eq.
  - rewrite <- Hm. apply Forall_mapM_ext, Forall_forall. intros r Hr.
    rewrite lookup_delete_ne, lookup_insert_ne by set_solver. done.
  - exists h'. split_and!; [done..|]. intros r [Hrq Hr]%not_elem_of_cons Hrp. rewrite Ho by done.
    now rewrite lookup_delete_ne, lookup_insert_ne by done.
Qed.

(** The state of the loop over [init_indep]: the sets of the constraints [todo]
    are not yet factors. *)
Definition init_inv (todo : list (ptr * Expr)) (handled : Expr -> Prop)
    (st : gmap ptr IndependentElementSet * Indexer) : Prop :=
  (exists rep, factors_ok (mkFactors st.1 st.2 rep) /\
     forall x, wf_consts x = true -> managed (mkFactors st.1 st.2 rep) x <-> handled x) /\
  forall p e, (p, e) ∈ todo -> p ∉ factors st.2 /\ st.1 !! p = IndependentElementSet'create e.

Lemma init_step p e todo handled st : init_inv ((p, e) :: todo) handled st -> p ∉ todo.*1 ->
  wf_consts e = true -> in_bounds e -> ~ handled e ->
  exists st', init_factor st p = Some st' /\ init_inv todo (fun x => handled x \/ x = e) st'.
Proof.
  destruct st as [h ix]. intros [(rep & HF & Hm) Htodo] Hp He Hb Hh. cbn [fst snd] in *.
  assert (Hn : ~ managed (mkFactors h ix rep) e) by (rewrite Hm; done).
  destruct (intersected_victims _ e HF He Hb) as (c & out & Hc & Hout & Hnd & Hv). cbn [heap indexer] in Hout, Hv.
  destruct (Htodo p e) as [Hpf Hpc]; [now left|]. rewrite Hc in Hpc.
  (* the factors of the next state, for a given heap and index *)
  assert (Hnext : forall h' ix' rep',
    factors_ok (mkFactors h' ix' rep') /\
      (forall x, wf_consts x = true -> managed (mkFactors h' ix' rep') x <-> managed (mkFactors h ix rep) x \/ x = e) ->
    (forall q, q ∈ todo.*1 -> q ∉ factors ix -> q ∉ factors ix' /\ h' !! q = h !! q) ->
    init_inv todo (fun x => handled x \/ x = e) (h', ix')).
  { intros h' ix' rep' [HF' Hm'] Hq. split; [exists rep'; split; [done|]; intros; rewrite Hm', Hm; done|].
    intros q x Hin. destruct (Htodo q x) as [Hqf Hqc]; [now right|]. cbn [fst snd].
    destruct (Hq q) as [? ->]; [apply list_elem_of_fmap; now exists (q, x)|done..]. }
  assert (Hvp : forall l : list ptr, (forall q, q ∈ l <-> exists t, fset h ix q t /\ overlap c t) -> p ∉ l /\ forall q, q ∉ factors ix -> q ∉ l).
  { intros l Hl. split; [|intros q Hq]; intros (t & [? _] & _)%Hl; done. }
  unfold init_factor. cbn [fst snd]. rewrite Hpc. cbn [mbind option_bind fst snd]. rewrite Hout.
  cbn [mbind option_bind fst snd].
  destruct (elements out) as [|q [|q' l]].
  - destruct (merge_core _ e c [] p HF He Hb Hn Hc Hnd Hv Hpf) as (sets & ix1 & ix2 & [= <-] & [= <-] & E2 & Hf & Hok).
    cbn in E2, Hf. rewrite E2. cbn. eexists. split; [done|].
    eapply Hnext; [apply Hok; split; [exact Hpc|done]|]. intros r Hr Hrf. split; [rewrite Hf; set_solver|done].
  - destruct (single_core _ e c q HF He Hb Hn Hc Hv) as (t & ix1 & Ht & E1 & Hf & Hok). cbn in Ht, E1, Hf.
    rewrite Ht. cbn. rewrite E1. cbn. eexists. split; [done|].
    destruct (Hvp _ Hv) as [Hpl Hrl]. eapply Hnext; [apply Hok; split|].
    + rewrite lookup_delete_ne by set_solver. apply lookup_insert_eq.
    + intros r Hr Hrq Hne. cbn in Hr. rewrite lookup_delete_ne by (intros ->; done). now apply lookup_insert_ne.
    + intros r Hr Hrf. specialize (Hrl r Hrf). rewrite lookup_delete_ne, lookup_insert_ne by set_solver.
      split; [congruence|done].
  - destruct (merge_core _ e c (q :: q' :: l) p HF He Hb Hn Hc Hnd Hv Hpf) as (sets & ix1 & ix2 & Hs & E1 & E2 & Hf & Hok).
    cbn [indexer heap] in *. destruct (Hvp _ Hv) as [Hpl Hrl].
    destruct (absorb_list h ix p c _ sets ix1 Hpc Hpl Hnd Hs E1) as (h' & E & Hp' & Ho).
    rewrite E. cbn. rewrite Hp'. cbn. rewrite E2. cbn. eexists. split; [done|]. eapply Hnext; [apply Hok; split|].
    + done.
    + intros r _ Hrl' Hne. now apply Ho.
    + intros r Hr Hrf. split; [rewrite Hf; set_solver|]. apply Ho; [now apply Hrl|]. intros ->. done.
Qed.

Lemma init_loop todo handled st : init_inv todo handled st -> NoDup todo.*1 -> NoDup todo.*2 ->
  Forall (fun e => wf_consts e = true /\ in_bounds e /\ ~ handled e) todo.*2 ->
  exists st', foldM init_factor st todo.*1 = Some st' /\ init_inv [] (fun x => handled x \/ x ∈ todo.*2) st'.
Proof.
  revert handled st. induction todo as [|[p e] todo IH]; intros handled st Hst Hn1 Hn2 Hall; cbn in *.
  { exists st. split; [done|]. destruct Hst as [(rep & HF & Hm) _]. split; [|set_solver].
    exists rep. split; [done|]. intros x Hx. rewrite Hm by done. set_solver. }
  apply NoDup_cons in Hn1 as [Hp Hn1]. apply NoDup_cons in Hn2 as [He2 Hn2]. apply Forall_cons in Hall as [(He & Hb & Hh) Hall].
  destruct (init_step p e todo handled st Hst Hp He Hb Hh) as (st1 & -> & Hst1). cbn.
  destruct (IH _ _ Hst1) as (st2 & -> & [(rep & HF & Hm) _]); [done|done| |].
  - rewrite Forall_forall in *. intros x Hx. destruct (Hall x Hx) as (? & ? & ?). split_and!; [done..|].
    intros [?| ->]; done.
  - exists st2. split; [done|]. split; [|set_solver]. exists rep. split; [done|]. intros x Hx. rewrite Hm by done. set_solver.
Qed.

(** The representatives set from the factors. *)
Lemma set_representatives_ok h ix l rep0 : exact h ix -> (forall p, p ∈ l -> p ∈ factors ix) ->
  Forall (fun q => wf_consts q.1 = true) rep0 ->
  exists rep, foldM (set_representatives h) rep0 l = Some rep /\ Forall (fun q => wf_consts q.1 = true) rep /\
    forall x, wf_consts x = true ->
      (rep_find rep x = rep_find rep0 x /\ ~ exists p s, p ∈ l /\ fset h ix p s /\ x ∈ ie_exprs s) \/
      exists p s, rep_find rep x = Some p /\ p ∈ l /\ fset h ix p s /\ x ∈ ie_exprs s.
Proof.
  intros Hx. revert rep0. induction l as [|p l IH]; intros rep0 Hl Hk; cbn.
  { exists rep0. split_and!; [done|done|]. intros x Hc. left. split; [done|]. intros (p & s & ? & _). set_solver. }
  destruct (ex_heap _ _ Hx p) as (s & Hs & Os & _); [apply Hl; now left|].
  assert (Hf : fset h ix p s) by (split; [apply Hl; now left|done]).
  unfold set_representatives at 2. rewrite Hs. cbn.
  destruct (IH (foldl (rep_set p) rep0 (ie_exprs s))) as (rep & -> & Hk' & Hr); [set_solver|apply rep_sets_keys; [done|apply Os]|].
  exists rep. split_and!; [done|done|]. intros x Hc. destruct (Hr x Hc) as [[E Hno]|(q & t & E & Hq & Ht & Hin)].
  - rewrite rep_find_sets in E; [|done|apply Os|done]. destruct (decide (x ∈ ie_exprs s)) as [Hin|Hin].
    + right. exists p, s. split_and!; [done|now left|done|done].
    + left. split; [done|]. intros (q & t & [->|Hq]%elem_of_cons & Ht & Hxt).
      * rewrite (fset_fun _ _ _ _ _ Ht Hf) in Hxt. done.
      * apply Hno. eauto.
  - right. exists q, t. split_and!; [done|now right|done|done].
Qed.

(** The start of the loop: a pointer for each constraint, and no factor. *)
Lemma init_start es sets : mapM IndependentElementSet'create es = Some sets ->
  let ptrs : list ptr := (Pos.of_nat : nat -> ptr) <$> seq 1 (length sets) in
  NoDup ptrs /\ (zip ptrs es).*1 = ptrs /\ (zip ptrs es).*2 = es /\
  init_inv (zip ptrs es) (fun _ => False) (list_to_map (zip ptrs sets), mkIndexer ∅ ∅ ∅).
Proof.
  intros Hs ptrs. pose proof (mapM_Some_1 _ _ _ Hs) as Hs2. pose proof (Forall2_length _ _ _ Hs2) as Hlen.
  assert (Hplen : length ptrs = length sets) by (unfold ptrs; now rewrite length_fmap, length_seq).
  assert (Hpn : NoDup ptrs).
  { unfold ptrs. apply NoDup_fmap_2_strong; [|apply NoDup_seq]. intros i j Hi%elem_of_seq Hj%elem_of_seq H.
    apply (f_equal Pos.to_nat) in H. rewrite !Nat2Pos.id in H by lia. done. }
  split_and!; [done|apply fst_zip; lia|apply snd_zip; lia|]. split.
  - exists []. split; [apply factors_ok_empty_heap|]. intros x _. split; [intros [? [=]]|done].
  - intros p e Hin. cbn [fst snd factors]. split; [set_solver|].
    apply list_elem_of_lookup in Hin as [i Hi]. apply lookup_zip_Some in Hi as [Hp He].
    destruct (Forall2_lookup_l _ _ _ _ _ Hs2 He) as (c & Hc & Hcr). rewrite Hcr.
    apply elem_of_list_to_map_1; [rewrite fst_zip; [done|]; now rewrite <- Hplen|]. apply list_elem_of_lookup. exists i.
    now apply lookup_zip_Some.
Qed.

Lemma representatives_ok h ix rep0 : factors_ok (mkFactors h ix rep0) ->
  exists rep, foldM (set_representatives h) [] (elements (factors ix)) = Some rep /\ factors_ok (mkFactors h ix rep) /\
    forall x, wf_consts x = true -> rep_find rep x = rep_find rep0 x.
Proof.
  intros HF. destruct (set_representatives_ok h ix (elements (factors ix)) []) as (rep & E & Hk & Hr);
    [exact (fo_exact _ HF)|intros p; now rewrite elem_of_elements|constructor|].
  assert (Hrep : forall x, wf_consts x = true -> rep_find rep x = rep_find rep0 x).
  { intros x Hx. destruct (Hr x Hx) as [[E' Hno]|(p & s & E' & _ & Hs' & Hin)]; rewrite E'.
    - cbn. symmetry. apply eq_None_not_Some. intros [p Hp]. apply (fo_rep _ HF x p Hx) in Hp as (s & Hs' & Hin).
      apply Hno. exists p, s. rewrite elem_of_elements. split_and!; [apply Hs'|done|done].
    - symmetry. apply (fo_rep _ HF x p Hx). eauto. }
  exists rep. split_and!; [done| |done].
  constructor; cbn [heap indexer representative]; [exact (fo_exact _ HF)|done| |exact (fo_component _ HF)].
  intros x p Hx. rewrite Hrep by done. exact (fo_rep _ HF x p Hx).
Qed.

Lemma factors_of_ok es : NoDup es -> Forall (fun e => wf_consts e = true /\ in_bounds e) es ->
  exists F, factors_of es = Some F /\ factors_ok F /\ forall x, wf_consts x = true -> managed F x <-> x ∈ es.
Proof.
  intros Hnd Hall. unfold factors_of.
  assert (Hsets : exists sets, mapM IndependentElementSet'create es = Some sets).
  { apply mapM_is_Some_2. eapply Forall_impl; [exact Hall|]. intros e [He _].
    destruct (create_covers e He) as (c & Hc & _). cbn. eauto. }
  destruct Hsets as [sets Hs]. rewrite Hs. cbn [mbind option_bind].
  destruct (init_start es sets Hs) as (Hpn & Hz1 & Hz2 & Hst). cbn zeta in *.
  destruct (init_loop _ _ _ Hst) as (st & E & [(rep0 & HF & Hm) _]).
  - now rewrite Hz1.
  - now rewrite Hz2.
  - rewrite Hz2. eapply Forall_impl; [exact Hall|]. naive_solver.
  - rewrite Hz1 in E. rewrite E. cbn [mbind option_bind]. rewrite Hz2 in Hm.
    destruct (representatives_ok st.1 st.2 rep0 HF) as (rep & -> & HF' & Hrep).
    cbn [mbind option_bind]. eexists. split_and!; [done|done|]. intros x Hx. unfold managed. cbn [representative].
    rewrite Hrep by done. specialize (Hm x Hx). unfold managed in Hm. cbn in Hm. tauto.
Qed.

(** *** The factors are the connected components *)

Definition known (F : Factors) (e : Expr) : Prop := wf_consts e = true /\ managed F e.

Lemma overlapping_same_factor F x y : factors_ok F -> linked (known F) x y ->
  rep_find (representative F) x = rep_find (representative F) y.
Proof.
  intros HF ((Hx & p & Hp) & (Hy & q & Hq) & s & t & Hs & Ht & a & i & Hc & Hd). rewrite Hp, Hq. f_equal.
  apply (fo_rep _ HF) in Hp as (u & Hu & Hxu); [|done]. apply (fo_rep _ HF) in Hq as (v & Hv & Hyv); [|done].
  apply (exact_disjoint _ _ p q u v (fo_exact _ HF) Hu Hv). exists a, i. split.
  - apply (co_covers _ (fo_component _ HF _ _ Hu)). eauto.
  - apply (co_covers _ (fo_component _ HF _ _ Hv)). eauto.
Qed.

Lemma same_factor_connected F x y : factors_ok F -> known F x -> known F y ->
  rep_find (representative F) x = rep_find (representative F) y <-> rtc (linked (known F)) x y.
Proof.
  intros HF [Hx [p Hp]] [Hy [q Hq]]. split.
  - rewrite Hp, Hq. intros [= <-]. apply (fo_rep _ HF) in Hp as (s & Hs & Hxs); [|done].
    apply (fo_rep _ HF) in Hq as (t & Ht & Hyt); [|done]. rewrite (fset_fun _ _ _ _ _ Ht Hs) in Hyt.
    eapply linked_mono; [|exact (co_connected _ (fo_component _ HF _ _ Hs) _ _ Hxs Hyt)].
    intros z Hz. assert (Hwz : wf_consts z = true).
    { destruct (exact_set _ _ _ _ (fo_exact _ HF) Hs) as [[_ _ Hc] _]. rewrite Forall_forall in Hc. auto. }
    split; [done|]. exists p. apply (fo_rep _ HF); eauto.
  - clear -HF AS. intros H. induction H as [|x y z Hl _ IH]; [done|]. rewrite <- IH. now apply overlapping_same_factor.
Qed.

(** *** Models of the factors *)

Lemma component_ies_ok s : set_ok s -> component s -> (forall e, e ∈ ie_exprs s -> narrow e) -> ies_ok s.
Proof.
  intros Os Cs Hn e rho rho' He Ha. pose proof (so_consts _ Os) as Hc. rewrite Forall_forall in Hc. specialize (Hc e He).
  destruct (create_covers e Hc) as (t & Ht & _ & Hex & _).
  apply (create_ok e t Hc (Hn e He) Ht); [rewrite Hex; now left|].
  intros a i Hcov. apply Ha, (co_covers _ Cs). eauto.
Qed.

(** Pairwise disjoint sets, each with a model, have a common one. *)
Lemma combine_list (l : list IndependentElementSet) :
  Forall ies_ok l -> ForallOrdPairs (fun s t => ~ overlap s t) l ->
  Forall (fun s => exists rho, models rho (ie_exprs s)) l -> exists rho, Forall (fun s => models rho (ie_exprs s)) l.
Proof.
  intros Hok Hd. induction Hd as [|s l Hs Hd IH]; intros Hm; [exists (fun _ _ => 0); constructor|].
  apply Forall_cons in Hok as [Os Ol]. apply Forall_cons in Hm as [[rho Hrho] Hm]. destruct (IH Ol Hm) as [rho' Hrho'].
  exists (combine s rho rho'). constructor.
  - apply (models_agree s rho); [done| |done]. intros a i Hc. unfold combine. now rewrite decide_True.
  - rewrite Forall_forall in *. intros t Ht.
    destruct (proj1 (models_app _ _ _) (combine_models s t rho rho' Os (Ol t Ht) (Hs t Ht) Hrho (Hrho' t Ht))). done.
Qed.

Lemma factor_exprs F e : factors_ok F -> known F e <-> exists p s, fset (heap F) (indexer F) p s /\ e ∈ ie_exprs s.
Proof.
  intros HF. split.
  - intros [He [p Hp]]. apply (fo_rep _ HF) in Hp as (s & ? & ?); eauto.
  - intros (p & s & Hs & He). destruct (exact_set _ _ _ _ (fo_exact _ HF) Hs) as [[_ _ Hc] _].
    rewrite Forall_forall in Hc. split; [auto|]. exists p. apply (fo_rep _ HF); eauto.
Qed.

Lemma factor_list h ix : exact h ix ->
  exists l, (forall t, t ∈ l <-> exists p, fset h ix p t) /\ ForallOrdPairs (fun s t => ~ overlap s t) l.
Proof.
  intros Hx. assert (H : forall ps : list ptr, NoDup ps -> (forall p, p ∈ ps -> p ∈ factors ix) ->
    exists l, (forall t, t ∈ l <-> exists p, p ∈ ps /\ fset h ix p t) /\ ForallOrdPairs (fun s t => ~ overlap s t) l).
  { induction ps as [|p ps IH]; intros Hnd Hps; [exists []; split; [set_solver|constructor]|].
    apply NoDup_cons in Hnd as [Hp Hnd]. destruct IH as (l & Hl & Hd); [done|set_solver|].
    destruct (ex_heap _ _ Hx p) as (s & Hs & _); [apply Hps; now left|].
    assert (Hfs : fset h ix p s) by (split; [apply Hps; now left|done]).
    exists (s :: l). split.
    - intros t. rewrite elem_of_cons, Hl. setoid_rewrite elem_of_cons. split; [intros [->|(q & ? & ?)]; eauto|].
      intros (q & [->|Hq] & Ht); [left; now apply (fset_fun _ _ _ _ _ Ht Hfs)|right; eauto].
    - constructor; [|done]. apply Forall_forall. intros t (q & Hq & Ht)%Hl Ho.
      rewrite (exact_disjoint _ _ p q s t Hx Hfs Ht Ho) in Hp. done. }
  destruct (H (elements (factors ix))) as (l & Hl & Hd); [apply NoDup_elements|intros p; now rewrite elem_of_elements|].
  exists l. split; [|done]. intros t. rewrite Hl. setoid_rewrite elem_of_elements. split; [naive_solver|].
  intros (p & Hp). exists p. split; [apply Hp|done].
Qed.

Lemma factors_satisfiable F : factors_ok F -> (forall e, known F e -> narrow e) ->
  (forall p s, fset (heap F) (indexer F) p s -> exists rho, models rho (ie_exprs s)) ->
  exists rho, forall e, known F e -> eval rho e = Some (APInt 1 1).
Proof.
  intros HF Hn Hm. pose proof (fo_exact _ HF) as Hx.
  destruct (factor_list _ _ Hx) as (l & Hl & Hd). destruct (combine_list l) as [rho Hrho].
  - apply Forall_forall. intros t (p & Ht)%Hl. apply component_ies_ok;
      [eapply exact_set; eauto|eapply fo_component; eauto|]. intros e He. apply Hn, factor_exprs; eauto.
  - done.
  - apply Forall_forall. intros t (p & Ht)%Hl. eauto.
  - exists rho. intros e (p & s & Hs & He)%factor_exprs; [|done]. rewrite Forall_forall in Hrho.
    assert (H : models rho (ie_exprs s)) by (apply Hrho, Hl; eauto). unfold models in H. rewrite Forall_forall in H. auto.
Qed.

(** *** New factors *)

Definition whole_factor (s : IndependentElementSet) : Prop := set_ok s /\ in_range s /\ component s.

Definition exact_components (h : gmap ptr IndependentElementSet) (ix : Indexer) : Prop :=
  exact h ix /\ forall p s, fset h ix p s -> component s.

#[export] Instance exact_invariant : IndexInvariant False exact_components whole_factor (fun s t => ~ overlap s t).
Proof.
  constructor.
  - intros s t H (a & i & ? & ?). apply H. now exists a, i.
  - now intros s [? _].
  - intros h ix p [Hx Hc] Hp. destruct (ex_heap _ _ Hx p Hp) as (s & Hs & Os & Rs). exists s. split; [done|].
    split_and!; [done|done|]. now apply (Hc p).
  - intros h ix p q s t [Hx _] Hs Ht Hne Ho. apply Hne. now apply (exact_disjoint h ix p q s t).
  - intros h ix p r [Hx Hc] Hp (Or & Rr & Cr) Hfree. destruct (insert_new h ix p r Hx Hp Or Rr Hfree) as (ix' & -> & Hx' & Hf).
    cbn. split; [|done]. split; [done|]. intros q t [Hq Ht]. apply lookup_insert_Some in Ht as [[_ <-]|[Hne Ht]]; [done|].
    apply (Hc q). split; [set_solver|done].
  - intros h ix p s [Hx Hc] Hs. destruct (erase_total h ix p s Hx Hs) as (ix' & -> & Hx' & Hf). cbn. split; [|done].
    split; [done|]. intros q t [Hq Ht]. apply (Hc q). split; [set_solver|done].
Qed.

Section NewFactors.
Context {partial J G sep} `{HJ : !IndexInvariant partial J G sep}.

(** The factors when the constraints [pend] have a representative that is not,
    or no longer, a factor. *)
Record part_ok (F : Factors) (pend : ptr -> Expr -> Prop) : Prop := {
  pt_index : J (heap F) (indexer F);
  pt_keys : Forall (fun q => wf_consts q.1 = true) (representative F);
  pt_rep e p : wf_consts e = true -> rep_find (representative F) e = Some p <->
    (exists s, fset (heap F) (indexer F) p s /\ e ∈ ie_exprs s) \/ pend p e
}.

Lemma part_ext F pend pend' : (forall p x, wf_consts x = true -> pend p x <-> pend' p x) -> part_ok F pend -> part_ok F pend'.
Proof. intros Hp [Hx Hk Hr]. constructor; auto. intros e p He. rewrite Hr, Hp by done. done. Qed.

(** [F'] is [F] with the new factor [r] at [p]. *)
Record inserted (F : Factors) (r : IndependentElementSet) (p : ptr) (F' : Factors) : Prop := {
  in_new : p ∉ dom (heap F);
  in_fset q t : fset (heap F') (indexer F') q t <-> q = p /\ t = r \/ fset (heap F) (indexer F) q t;
  in_factors : factors (indexer F') = {[p]} ∪ factors (indexer F);
  in_heap : heap F' = <[p := r]> (heap F);
  in_managed x : wf_consts x = true -> managed F' x <-> managed F x \/ x ∈ ie_exprs r
}.

Lemma insert_set_ok F r pend : part_ok F pend -> G r ->
  (forall q t, fset (heap F) (indexer F) q t -> sep r t /\ forall x, x ∈ ie_exprs r -> x ∉ ie_exprs t) ->
  returns partial (insert_set F r) (fun F' => part_ok F' (fun q x => pend q x /\ x ∉ ie_exprs r) /\ exists p, inserted F r p F').
Proof.
  intros HF Gr Hfree. pose proof (pt_index _ _ HF) as Hx. pose proof (iv_ok r Gr) as Or.
  unfold insert_set. cbn. set (p := fresh (dom (heap F))). assert (Hd : p ∉ dom (heap F)) by apply is_fresh.
  assert (Hp : p ∉ factors (indexer F)).
  { intros H. destruct (iv_heap _ _ p Hx H) as (u & Hu & _). apply Hd, elem_of_dom. eauto. }
  eapply returns_bind; [apply (iv_insert _ _ p r Hx Hp Gr); intros q t Ht; now apply (Hfree q)|].
  intros ix1 [Hx1 Hf1]. cbn. set (F' := mkFactors _ _ _).
  assert (Hfs : forall q t, fset (heap F') (indexer F') q t <-> q = p /\ t = r \/ fset (heap F) (indexer F) q t).
  { intros q t. unfold fset. cbn. rewrite Hf1, elem_of_union, elem_of_singleton, lookup_insert_Some. naive_solver. }
  assert (Hrep : forall x, wf_consts x = true -> rep_find (representative F') x =
    if decide (x ∈ ie_exprs r) then Some p else rep_find (representative F) x).
  { intros x Hxc. apply rep_find_sets; [apply (pt_keys _ _ HF)|apply Or|done]. }
  split; [|exists p; constructor; auto; intros x Hxc; unfold managed; rewrite Hrep by done;
           destruct (decide _); [naive_solver|tauto]].
  constructor; [done|apply rep_sets_keys; [apply (pt_keys _ _ HF)|apply Or]|].
  intros x q Hxc. rewrite Hrep by done. setoid_rewrite Hfs. destruct (decide (x ∈ ie_exprs r)) as [Hxr|Hxr].
  - split; [intros [= <-]; left; eauto|]. intros [(t & [[-> _]|Ht] & Hin)|[_ ?]]; [done| |done].
    destruct (Hfree q t Ht) as [_ Hno]. now destruct (Hno x Hxr).
  - rewrite (pt_rep _ _ HF) by done. naive_solver.
Qed.

End NewFactors.

Lemma factors_part F : factors_ok F <-> part_ok (J:=exact_components) F (fun _ _ => False).
Proof.
  split.
  - intros [Hx Hk Hr Hc]. constructor; [done|done|]. intros e p He. specialize (Hr e p He). tauto.
  - intros [[Hx Hc] Hk Hr]. constructor; [done|done| |done]. intros e p He. specialize (Hr e p He). tauto.
Qed.

(** *** The copy *)

(** The copies of the factors [todo] are missing. *)
Definition copied (cs F : Factors) (todo : list ptr) : Prop :=
  factors_ok F /\
  (forall q t, fset (heap F) (indexer F) q t -> exists p, p ∉ todo /\ fset (heap cs) (indexer cs) p t) /\
  (forall p t, fset (heap cs) (indexer cs) p t -> p ∉ todo -> exists q, fset (heap F) (indexer F) q t).

Lemma copy_step cs F p todo : factors_ok cs -> p ∈ factors (indexer cs) -> NoDup (p :: todo) ->
  copied cs F (p :: todo) -> exists F', copy_factor cs F p = Some F' /\ copied cs F' todo.
Proof.
  intros Hcs Hp Hnd (HF & Hto & Hfrom). apply NoDup_cons in Hnd as [Hpt Hnd]. pose proof (fo_exact _ Hcs) as Hxc.
  destruct (ex_heap _ _ Hxc p Hp) as (s & Hs & Os & Rs). assert (Hfs : fset (heap cs) (indexer cs) p s) by done.
  unfold copy_factor. rewrite Hs. cbn [mbind option_bind].
  assert (Hown : forall r t, fset (heap F) (indexer F) r t -> ~ overlap s t /\ forall x, x ∈ ie_exprs s -> x ∉ ie_exprs t).
  { intros r t Ht. apply Hto in Ht as (p' & Hp' & Ht). split.
    - intros Ho. rewrite (exact_disjoint _ _ _ _ _ _ Hxc Hfs Ht Ho) in Hp'. set_solver.
    - intros x Hx Hxt. assert (Hxw : wf_consts x = true) by (pose proof (so_consts _ Os) as Hc; rewrite Forall_forall in Hc; auto).
      assert (E : rep_find (representative cs) x = Some p) by (apply (fo_rep _ Hcs); eauto).
      assert (E' : rep_find (representative cs) x = Some p') by (apply (fo_rep _ Hcs); eauto). set_solver. }
  pose proof (insert_set_ok (HJ:=exact_invariant) F s (fun _ _ => False) (proj1 (factors_part F) HF)
    (conj Os (conj Rs (fo_component _ Hcs _ _ Hfs))) Hown) as H.
  destruct (insert_set F s) as [F'|]; [|done]. destruct H as (HF' & q & Hin). pose proof (in_fset _ _ _ _ Hin) as Hfs'.
  exists F'. split; [done|]. split_and!.
  - apply factors_part. eapply part_ext; [|exact HF']. naive_solver.
  - intros r t [[-> ->]|Ht]%Hfs'; [eauto|]. apply Hto in Ht as (p' & Hp' & Ht). exists p'. set_solver.
  - intros p' t Ht Hp'. setoid_rewrite Hfs'. destruct (decide (p' = p)) as [->|Hne].
    + rewrite (fset_fun _ _ _ _ _ Ht Hfs). eauto.
    + destruct (Hfrom p' t Ht) as [r Hr]; [set_solver|]. eauto.
Qed.

Lemma copy_factors_ok cs : factors_ok cs -> exists F, copy_factors cs = Some F /\ copied cs F [].
Proof.
  intros Hcs. unfold copy_factors.
  assert (H : forall l F, NoDup l -> (forall p, p ∈ l -> p ∈ factors (indexer cs)) -> copied cs F l ->
    exists F', foldM (copy_factor cs) F l = Some F' /\ copied cs F' []).
  { induction l as [|p l IH]; intros F Hnd Hl HF; cbn; [eauto|].
    destruct (copy_step cs F p l Hcs) as (F1 & -> & H1); [apply Hl; now left|done|done|].
    apply NoDup_cons in Hnd as [_ Hnd]. apply IH; [done|set_solver|done]. }
  apply H; [apply NoDup_elements|intros p; now rewrite elem_of_elements|].
  split_and!; [apply factors_ok_empty_heap|intros q t [Hq _]; cbn in Hq; set_solver|].
  intros p t [Hp _] Hn. rewrite elem_of_elements in Hn. done.
Qed.

End Partition.

(** ** Claims *)

Section Claims.
Context `{A : APIntOps} {AS : APIntSpec A}.

Lemma in_bounds_reads e rs : wf_consts e = true -> findReads e true = Some rs ->
  forallb (fun re => match re_index re with
                     | ConstantExpr CE => u32 (getZExtValue CE) <? Expr.size (re_root re)
                     | _ => true
                     end) rs = true -> in_bounds e.
Proof.
  intros He Hrs H re Ho. destruct (findReads_total true e He) as (rs' & Hrs' & _ & Hin).
  rewrite Hrs in Hrs'. injection Hrs' as <-. rewrite forallb_forall in H.
  specialize (H re (proj1 (list_elem_of_In _ _) (proj2 (Hin re) Ho))). destruct (re_index re); try done.
  now apply Z.ltb_lt.
Qed.

(** C26: the constructor of [ConstraintManager] returns for constraints whose
    constant indices are inside their arrays: no assert fails.  Two constraints
    are then in the same factor exactly when a chain of constraints with common
    bytes leads from one to the other, so the factors are the connected
    components; and [getIntersection] returns exactly the factors that have a
    byte in common with a given set. *)
Theorem factors_are_components (es : list Expr) :
  NoDup es -> Forall (fun e => wf_consts e = true /\ in_bounds e) es ->
  exists F, factors_of es = Some F /\
    (forall x, wf_consts x = true -> managed F x <-> x ∈ es) /\
    (forall x y, x ∈ es -> y ∈ es ->
       rep_find (representative F) x = rep_find (representative F) y <-> rtc (linked (.∈ es)) x y) /\
    (forall s, ies_wf s -> in_range s -> exists out, getIntersection (indexer F) s = Some out /\
       forall p, p ∈ out <-> exists t, p ∈ factors (indexer F) /\ heap F !! p = Some t /\ overlap s t).
Proof.
  intros Hn Hall. destruct (factors_of_ok es Hn Hall) as (F & E & HF & Hm). exists F.
  assert (Hk : forall x, known F x <-> x ∈ es).
  { intros x. rewrite Forall_forall in Hall. split.
    - intros [Hx Hx']. now apply Hm.
    - intros Hx. destruct (Hall x Hx) as [Hc _]. split; [done|]. now apply Hm. }
  split_and!; [done|done| |].
  - intros x y Hx Hy. rewrite same_factor_connected; [|done|now apply Hk..].
    split; apply linked_mono; intros z Hz; now apply Hk.
  - intros s Ws Rs. destruct (getIntersection_total _ _ s (fo_exact _ HF) Rs) as [out Hout]. exists out. split; [done|].
    intros p. rewrite (getIntersection_exact _ _ _ _ (fo_exact _ HF) Ws Hout p). unfold fset. naive_solver.
Qed.

(** C27: [updateIndependentSetAdd] returns for a new constraint and keeps the
    invariant: the index is exact, [representative] is the map from the
    constraints to their factors, and the factors are the connected components,
    now of the old constraints and the new one. *)
Theorem updateIndependentSetAdd_keeps_components (F : Factors) (e : Expr) :
  factors_ok F -> wf_consts e = true -> in_bounds e -> ~ managed F e ->
  exists F', updateIndependentSetAdd F e = Some F' /\ factors_ok F' /\
    (forall x, known F' x <-> known F x \/ x = e) /\
    (forall x y, known F' x -> known F' y ->
       rep_find (representative F') x = rep_find (representative F') y <-> rtc (linked (known F')) x y).
Proof.
  intros HF He Hb Hn. destruct (updateIndependentSetAdd_ok F e HF He Hb Hn) as (F' & E & HF' & Hm).
  exists F'. split_and!; [done|done| |intros; now apply same_factor_connected].
  intros x. unfold known. split; [intros [Hx Hx']; apply Hm in Hx'; tauto|].
  intros [[Hx Hx']| ->]; (split; [done|]); apply Hm; auto.
Qed.


Lemma related_loop (F : Factors) cs : forall out0 : gset ptr,
  match foldM (fun out e => p ← rep_find (representative F) e; Some ({[p]} ∪ out)) out0 cs with
  | Some out => forall p, p ∈ out <-> p ∈ out0 \/ exists e, e ∈ cs /\ rep_find (representative F) e = Some p
  | None => exists e, e ∈ cs /\ ~ managed F e
  end.
Proof.
  induction cs as [|e cs IH]; intros out0; cbn; [set_solver|].
  destruct (rep_find (representative F) e) as [p|] eqn:E; cbn.
  - specialize (IH ({[p]} ∪ out0)). rename IH into H1. destruct (foldM _ _ _) as [out|].
    + intros q. rewrite H1, elem_of_union, elem_of_singleton. setoid_rewrite elem_of_cons. naive_solver.
    + destruct H1 as (x & Hx & Hm). exists x. split; [now right|done].
  - exists e. split; [now left|]. intros [? ?]. congruence.
Qed.

(** [getRelatedIndependentElementSets] returns exactly when all given
    constraints are managed, and then the factors of these constraints; the
    assert fails otherwise. *)
Theorem related_factors (F : Factors) (cs : list Expr) :
  factors_ok F -> Forall (fun e => wf_consts e = true) cs ->
  match getRelatedIndependentElementSets F cs with
  | Some out => Forall (managed F) cs /\
      forall p, p ∈ out <-> exists e s, e ∈ cs /\ p ∈ factors (indexer F) /\ heap F !! p = Some s /\ e ∈ ie_exprs s
  | None => exists e, e ∈ cs /\ ~ managed F e
  end.
Proof.
  intros HF Hc. rewrite Forall_forall in Hc. unfold getRelatedIndependentElementSets.
  assert (Hall : forall out0 out, foldM (fun (out : gset ptr) e => p ← rep_find (representative F) e; Some ({[p]} ∪ out)) out0 cs
            = Some out -> Forall (managed F) cs).
  { clear. induction cs as [|e cs IH]; cbn; intros out0 out H; [constructor|].
    apply bind_Some in H as (o & Hp & H). apply bind_Some in Hp as (p & Hp & _). constructor; [now exists p|eauto]. }
  pose proof (related_loop F cs ∅) as H. destruct (foldM _ _ _) as [out|] eqn:E; [|done]. split; [eauto|].
  intros p. rewrite H. split.
  - intros [?|(e & He & Hp)]; [set_solver|]. apply (fo_rep _ HF) in Hp as (s & [? ?] & ?); [eauto 8|auto].
  - intros (e & s & He & Hp & Hs & Hes). right. exists e. split; [done|]. apply (fo_rep _ HF); [auto|].
    exists s. done.
Qed.

(** The copy constructor returns factors with the invariant that manage the
    same constraints, grouped in the same way. *)
Theorem copy_has_same_factors (cs : Factors) :
  factors_ok cs -> exists F, copy_factors cs = Some F /\ factors_ok F /\
    (forall x, known F x <-> known cs x) /\
    (forall s, (exists p, p ∈ factors (indexer F) /\ heap F !! p = Some s) <->
               (exists p, p ∈ factors (indexer cs) /\ heap cs !! p = Some s)).
Proof.
  intros Hcs. destruct (copy_factors_ok cs Hcs) as (F & E & HF & Hto & Hfrom). exists F.
  assert (Hs : forall s, (exists p, fset (heap F) (indexer F) p s) <-> (exists p, fset (heap cs) (indexer cs) p s)).
  { intros s. split; [intros (p & Hp); apply Hto in Hp as (q & _ & Hq); eauto|].
    intros (p & Hp). apply (Hfrom p s Hp). set_solver. }
  split_and!; [done|done| |exact Hs]. intros x. rewrite !factor_exprs by done. split.
  - intros (p & s & Hp & Hx). destruct (proj1 (Hs s)) as (q & Hq); eauto.
  - intros (p & s & Hp & Hx). destruct (proj2 (Hs s)) as (q & Hq); eauto.
Qed.

End Claims.

(** ** Concrete factors *)

Lemma sample_in_bounds : Forall (fun e => wf_consts e = true /\ in_bounds (A:=apint_ref) e) [first_is_one; third_is_three].
Proof.
  repeat constructor; (eapply (in_bounds_reads (AS:=apint_ref_spec)); [reflexivity..|]); vm_compute; reflexivity.
Qed.

Lemma sample_distinct : NoDup [first_is_one; third_is_three].
Proof. repeat constructor; set_solver. Qed.

Lemma factors_are_components_witness :
  exists F, factors_of (A:=apint_ref) [first_is_one; third_is_three] = Some F /\
    (forall x, wf_consts x = true -> managed (A:=apint_ref) F x <-> x ∈ [first_is_one; third_is_three]).
Proof.
  destruct (factors_are_components (A:=apint_ref) (AS:=apint_ref_spec) [first_is_one; third_is_three]
    sample_distinct sample_in_bounds) as (F & E & Hm & _).
  exists F. split; assumption.
Defined.

(** The factors of [buf[0] == 1]. *)
Definition one_factor : Factors := default no_factors (factors_of (A:=apint_ref) [first_is_one]).

Lemma one_factor_ok : factors_ok (A:=apint_ref) one_factor /\
  forall x, wf_consts x = true -> managed (A:=apint_ref) one_factor x <-> x ∈ [first_is_one].
Proof.
  destruct (factors_of_ok (A:=apint_ref) (AS:=apint_ref_spec) [first_is_one]) as (F & E & HF & Hm);
    [apply NoDup_singleton|apply Forall_singleton, (Forall_inv sample_in_bounds)|].
  unfold one_factor. rewrite E. exact (conj HF Hm).
Qed.

Lemma updateIndependentSetAdd_witness :
  exists F', updateIndependentSetAdd (A:=apint_ref) one_factor third_is_three = Some F' /\
    (forall x, known (A:=apint_ref) F' x <-> known (A:=apint_ref) one_factor x \/ x = third_is_three).
Proof.
  destruct (updateIndependentSetAdd_keeps_components (A:=apint_ref) (AS:=apint_ref_spec) one_factor third_is_three)
    as (F' & E & _ & Hk & _).
  - apply one_factor_ok.
  - reflexivity.
  - apply (Forall_inv (Forall_inv_tail sample_in_bounds)).
  - intros H. apply one_factor_ok in H; [|reflexivity]. now apply list_elem_of_singleton in H.
  - exists F'. split; assumption.
Defined.


Lemma copy_has_same_factors_witness :
  exists F, copy_factors (A:=apint_ref) one_factor = Some F /\
    (forall x, known (A:=apint_ref) F x <-> known (A:=apint_ref) one_factor x).
Proof.
  destruct (copy_has_same_factors (A:=apint_ref) (AS:=apint_ref_spec) one_factor) as (F & E & _ & Hk & _);
    [apply one_factor_ok|].
  exists F. split; assumption.
Defined.

Lemma related_factors_witness :
  match getRelatedIndependentElementSets (A:=apint_ref) one_factor [first_is_one] with
  | Some out => Forall (managed (A:=apint_ref) one_factor) [first_is_one] /\
      forall p, p ∈ out <-> exists e s, e ∈ [first_is_one] /\ p ∈ factors (indexer one_factor) /\
        heap one_factor !! p = Some s /\ e ∈ ie_exprs s
  | None => exists e, e ∈ [first_is_one] /\ ~ managed (A:=apint_ref) one_factor e
  end.
Proof.
  apply (related_factors (A:=apint_ref) (AS:=apint_ref_spec) one_factor [first_is_one]).
  - apply one_factor_ok.
  - apply Forall_singleton. reflexivity.
Defined.
