(* ===== verification/FactorDelete.v ===== *)
(** * Deleting constraints from the factors

    [updateIndependentSetDelete] of src/lib/Expr/Constraints.cpp rebuilds the
    factors of the deleted constraints with [IndependentElementSet::intersects],
    not with the index.  [intersects] may miss a common byte when an array is a
    whole object in one set and has elements in the other; the theorems are
    about arrays that are read in one of the two ways only, and a last one shows
    what happens otherwise. *)

From stdpp Require Import gmap strings.
From S2P Require Import Prelude APInt Expr ExprOrder ExprSem ExprCreate ExprVisitor ExprUtil IndependentElementSet FactorIndex ConstraintFactors.

(** Every array is a whole object ([W]) or has elements, never both. *)
Definition uniform (W : Array -> Prop) (s : IndependentElementSet) : Prop :=
  forall a, (a ∈ ie_wholeObjects s -> W a) /\ (is_Some (ie_elements s !! a) -> ~ W a).

Lemma uniform_intersects W s t : ies_wf s -> ies_wf t -> uniform W s -> uniform W t ->
  intersects s t = true <-> overlap s t.
Proof.
  intros Hs Ht Us Ut. split; [now apply intersects_overlap|]. rewrite overlap_cases by done.
  intros [a H]. destruct (Us a) as [Us1 Us2], (Ut a) as [Ut1 Ut2].
  destruct H as [[H1 H2]|[[H1 H2]|[[H1 H2]|(d & d' & i & H1 & H2 & Hi & Hi')]]]; [|naive_solver..|];
    unfold intersects; apply orb_true_iff.
  - left. destruct (_ <? _)%nat; apply whole_hit_spec; eauto.
  - right. destruct (_ <? _)%nat; apply elements_hit_spec; eauto 10.
Qed.

Lemma NoDup_fst_eq {X Y} (l : list (X * Y)) x y y' : NoDup l.*1 -> (x, y) ∈ l -> (x, y') ∈ l -> y = y'.
Proof.
  induction l as [|[a b] l IH]; intros Hn; [set_solver|]. cbn in Hn. apply NoDup_cons in Hn as [Ha Hn].
  assert (Hkey : forall z, (a, z) ∉ l) by (intros z H; apply Ha, list_elem_of_fmap; now exists (a, z)).
  rewrite !elem_of_cons. intros [E|H] [E'|H']; simplify_eq; [done|now destruct (Hkey y')|now destruct (Hkey y)|auto].
Qed.

Section Delete.
Context `{A : APIntOps} {AS : APIntSpec A}.

Lemma uniform_add W s t : set_ok s -> set_ok t -> uniform W s -> uniform W t -> uniform W (add s t).1.
Proof.
  intros Os Ot Us Ut a. destruct (add_set_ok s t Os Ot) as (Ou & _ & Hc).
  pose proof (whole_union s t (add s t).1 a (so_wf _ Os) (so_wf _ Ot) (so_wf _ Ou) Hc) as Hw.
  split; [intros [?|?]%Hw; [now apply Us|now apply Ut]|].
  intros He. assert (Ha : a ∉ ie_wholeObjects (add s t).1).
  { intros Ha. rewrite (whole_no_elements _ (so_wf _ Ou) _ Ha) in He. now destruct He. }
  assert (Hcov : exists i, covers (add s t).1 a i) by (apply touches_covers; [apply Ou|now right]).
  destruct Hcov as [i [Hi|Hi]%Hc].
  - destruct Hi as [?|(d & Hd & _)]; [exfalso; tauto|]. apply Us. eauto.
  - destruct Hi as [?|(d & Hd & _)]; [exfalso; tauto|]. apply Ut. eauto.
Qed.

(** A set that is a connected component, with its arrays uniform. *)
Record good (W : Array -> Prop) (s : IndependentElementSet) : Prop := {
  gd_ok : set_ok s;
  gd_range : in_range s;
  gd_component : component s;
  gd_uniform : uniform W s
}.

Definition apart (s t : IndependentElementSet) : Prop := ~ overlap s t.

Lemma apart_sym s t : apart s t -> apart t s.
Proof. intros H (a & i & ? & ?). apply H. now exists a, i. Qed.

Lemma good_add W s t : good W s -> good W t -> overlap s t -> good W (add s t).1.
Proof.
  intros [Os Rs Cs Us] [Ot Rt Ct Ut] Ho. destruct (add_set_ok s t Os Ot) as (Ou & _ & Hc). constructor; [done| | |].
  - apply in_range_intro; [apply Ou|]. intros a i [Hi|Hi]%Hc; [exists s|exists t]; split_and!; auto; intros; apply Hc; auto.
  - now apply component_add.
  - now apply uniform_add.
Qed.

(** The sets have pairwise no common byte. *)
Notation separate := (ForallOrdPairs apart).

Lemma separate_app l l' : separate (l ++ l') <->
  separate l /\ separate l' /\ forall s t, s ∈ l -> t ∈ l' -> apart s t.
Proof.
  induction l as [|s l IH]; cbn; [split; [intros; split_and!; [constructor|done|set_solver]|tauto]|].
  split.
  - intros H. inversion H as [|? ? Hs Hl]; subst. apply Forall_app in Hs as [Hs Hs']. apply IH in Hl as (? & ? & ?).
    rewrite Forall_forall in Hs'. split_and!; [now constructor|done|]. intros u t [->|?]%elem_of_cons; eauto.
  - intros (H & H' & Hx). inversion H as [|? ? Hs Hl]; subst. constructor.
    + apply Forall_app. split; [done|]. apply Forall_forall. intros t Ht. apply Hx; [now left|done].
    + apply IH. split_and!; [done|done|]. intros u t ? ?. apply Hx; [now right|done].
Qed.

Lemma separate_perm l l' : l ≡ₚ l' -> separate l -> separate l'.
Proof.
  intros Hp. induction Hp as [|s l l' Hp IH|s t l|]; intros H; auto.
  - inversion H as [|? ? Hs Hl]; subst. constructor; [now rewrite <- Hp|auto].
  - inversion H as [|? ? Hs Hl]; subst. inversion Hl as [|? ? Ht Hl']; subst.
    apply Forall_cons in Hs as [Hts Hs]. constructor; [constructor; [now apply apart_sym|done]|now constructor].
Qed.

(** All constraints of the sets. *)
Definition all_exprs (l : list IndependentElementSet) : list Expr := mjoin (ie_exprs <$> l).

Lemma all_exprs_app l l' : all_exprs (l ++ l') = all_exprs l ++ all_exprs l'.
Proof. unfold all_exprs. now rewrite fmap_app, join_app. Qed.

Lemma elem_of_all_exprs l x : x ∈ all_exprs l <-> exists s, s ∈ l /\ x ∈ ie_exprs s.
Proof. unfold all_exprs. rewrite list_elem_of_join. setoid_rewrite list_elem_of_fmap. naive_solver. Qed.

#[local] Instance all_exprs_perm : Proper ((≡ₚ) ==> (≡ₚ)) all_exprs.
Proof. intros l l' H. unfold all_exprs. now rewrite H. Qed.

Lemma add_exprs s t : set_ok s -> set_ok t -> NoDup (ie_exprs s ++ ie_exprs t) ->
  ie_exprs (add s t).1 ≡ₚ ie_exprs s ++ ie_exprs t.
Proof.
  intros Os Ot Hn. destruct (add_set_ok s t Os Ot) as (Ou & He & _). apply NoDup_Permutation; [apply Ou|done|].
  intros x. rewrite He, elem_of_app. done.
Qed.

Lemma absorb_one W c r kept : good W c -> good W r -> overlap c r ->
  Forall (apart c) kept -> Forall (apart r) kept -> good W (add c r).1 /\ Forall (apart (add c r).1) kept.
Proof.
  intros Hc Hr Ho Hk Hk'. destruct (add_set_ok c r (gd_ok _ _ Hc) (gd_ok _ _ Hr)) as (_ & _ & Hcov).
  split; [now apply good_add|]. rewrite Forall_forall in *. intros t Ht (a & i & [Hi|Hi]%Hcov & Hj).
  - apply (Hk t Ht). now exists a, i.
  - apply (Hk' t Ht). now exists a, i.
Qed.

Lemma removelast_last {X} (l : list X) x : last l = Some x -> l = removelast l ++ [x].
Proof.
  induction l as [|y [|z l] IH]; [done|intros [= ->]; done|]. intros H. cbn [removelast app]. f_equal. now apply IH.
Qed.

(** Merging keeps the constraints, each of them once. *)
Lemma absorb_exprs n : forall current kept rest,
  Forall set_ok (current :: kept ++ rest) -> NoDup (all_exprs (current :: kept ++ rest)) ->
  let '(c, kept') := absorb n current kept rest in
  Forall set_ok (c :: kept') /\ all_exprs (c :: kept') ≡ₚ all_exprs (current :: kept ++ rest).
Proof.
  induction n as [|n IH]; intros current kept [|r rest] Ho Hn; cbn [absorb]; try done.
  pose proof Ho as Ho'. rewrite <- Permutation_middle in Ho', Hn. apply Forall_cons in Ho' as [Oc [Or Ok]%Forall_cons].
  destruct (intersects current r).
  - assert (Hn' : NoDup (ie_exprs current ++ ie_exprs r)).
    { change (NoDup (ie_exprs current ++ ie_exprs r ++ all_exprs (kept ++ rest))) in Hn.
      rewrite app_assoc in Hn. now apply NoDup_app in Hn as [? _]. }
    assert (Hperm : all_exprs ((add current r).1 :: kept ++ rest) ≡ₚ all_exprs (current :: kept ++ r :: rest)).
    { rewrite <- Permutation_middle.
      change (ie_exprs (add current r).1 ++ all_exprs (kept ++ rest) ≡ₚ
              ie_exprs current ++ ie_exprs r ++ all_exprs (kept ++ rest)).
      rewrite add_exprs by done. now rewrite app_assoc. }
    destruct (add_set_ok current r Oc Or) as (Oa & _ & _). destruct (last rest) as [back|] eqn:El.
    + assert (Hp : back :: removelast rest ≡ₚ rest).
      { rewrite (removelast_last rest back El) at 2. now rewrite Permutation_app_comm. }
      assert (Hp' : (add current r).1 :: kept ++ back :: removelast rest ≡ₚ (add current r).1 :: kept ++ rest) by now rewrite Hp.
      specialize (IH (add current r).1 kept (back :: removelast rest)).
      destruct (absorb n _ kept _) as [c kept']. rewrite Hp' in IH. rewrite <- Hperm.
      apply IH; [now constructor|]. rewrite Hperm, <- Permutation_middle. exact Hn.
    + apply last_None in El as ->. rewrite app_nil_r in Hperm, Ok. now split; [constructor|].
  - specialize (IH current (kept ++ [r]) rest). destruct (absorb n _ _ _) as [c kept']. rewrite <- app_assoc in IH. cbn [app] in IH. apply IH; [done|].
    rewrite <- Permutation_middle. exact Hn.
Qed.

Lemma regroup_exprs temp : forall result, Forall set_ok (temp ++ result) -> NoDup (all_exprs (temp ++ result)) ->
  Forall set_ok (regroup temp result) /\ all_exprs (regroup temp result) ≡ₚ all_exprs (temp ++ result).
Proof.
  induction temp as [|c temp IH]; intros result Ho Hn; cbn [regroup app] in *; [done|].
  assert (Hswap : c :: temp ++ result ≡ₚ temp ++ c :: result) by apply Permutation_middle.
  rewrite Hswap in Ho, Hn. rewrite Forall_app in Ho. rewrite all_exprs_app in Hn. apply NoDup_app in Hn as (Nt & Nd & Nr).
  pose proof (absorb_exprs (length result) c [] result (proj2 Ho) Nr) as H.
  destruct (absorb (length result) c [] result) as [c' kept]. destruct H as [Hok Hp]. cbn [app] in Hp.
  assert (Hp' : all_exprs (temp ++ kept ++ [c']) ≡ₚ all_exprs (c :: temp ++ result)).
  { rewrite Hswap, !(all_exprs_app temp), (Permutation_app_comm kept). cbn [app]. now rewrite Hp. }
  destruct (IH (kept ++ [c'])) as [H1 H2].
  - apply Forall_app. split; [tauto|]. rewrite Permutation_app_comm. exact Hok.
  - rewrite Hp', Hswap, all_exprs_app. now apply NoDup_app.
  - split; [done|]. now rewrite H2.
Qed.

(** The loop over [result] merges the sets that overlap [current] and keeps the
    others. *)
Lemma absorb_spec W n : forall current kept rest,
  (length rest <= n)%nat -> good W current -> Forall (good W) (kept ++ rest) ->
  separate (kept ++ rest) -> Forall (apart current) kept ->
  exists absorbed, let c := (absorb n current kept rest).1 in let kept' := (absorb n current kept rest).2 in
    kept' ++ absorbed ≡ₚ kept ++ rest /\ good W c /\ Forall (apart c) kept'.
Proof.
  induction n as [|n IH]; intros current kept [|r rest] Hlen Hc Hg Hsep Hk; cbn in Hlen; [|lia|..];
    try (exists []; cbn; rewrite ?app_nil_r; split_and!; done).
  cbn [absorb]. assert (Hr : good W r) by (rewrite Forall_app, Forall_cons in Hg; tauto).
  apply separate_app in Hsep as (Sk & Sr & Skr). inversion Sr as [|? ? Sr1 Sr2]; subst.
  apply Forall_app in Hg as [Gk Gr]. apply Forall_cons in Gr as [_ Gr].
  destruct (intersects current r) eqn:E.
  - apply (uniform_intersects W) in E; [|apply Hc|apply Hr|apply Hc|apply Hr].
    destruct (absorb_one W current r kept) as (Hc' & Hk'); [done..| |].
    { apply Forall_forall. intros t Ht. apply apart_sym, Skr; [done|now left]. }
    destruct (last rest) as [back|] eqn:El.
    + assert (Hp : back :: removelast rest ≡ₚ rest).
      { rewrite (removelast_last rest back El) at 2. now rewrite Permutation_app_comm. }
      destruct (IH (add current r).1 kept (back :: removelast rest)) as (abs & H1 & H2 & H3).
      * rewrite Hp. lia.
      * done.
      * rewrite Hp. now apply Forall_app.
      * eapply separate_perm; [symmetry; rewrite Hp; reflexivity|]. apply separate_app. split_and!; [done|done|].
        intros. apply Skr; [done|now right].
      * done.
      * exists (r :: abs). cbn zeta. split_and!; [|done|done].
        rewrite <- Permutation_middle, H1, Hp. apply Permutation_middle.
    + apply last_None in El as ->. now exists [r].
  - destruct (IH current (kept ++ [r]) rest) as (abs & H1 & H2 & H3).
    + lia.
    + done.
    + rewrite <- app_assoc. apply Forall_app. split; [done|now constructor].
    + rewrite <- app_assoc. apply separate_app. split_and!; [done|now constructor|done].
    + apply Forall_app. split; [done|]. constructor; [|constructor].
      intros Ho. apply (uniform_intersects W) in Ho; [congruence|apply Hc|apply Hr|apply Hc|apply Hr].
    + rewrite <- app_assoc in H1. now exists abs.
Qed.

(** The loop over [temp]: the sets become the connected components. *)
Lemma regroup_spec W temp : forall result,
  Forall (good W) temp -> Forall (good W) result -> separate result ->
  Forall (good W) (regroup temp result) /\ separate (regroup temp result).
Proof.
  induction temp as [|c temp IH]; intros result Ht Hr Hs; cbn [regroup app]; [done|].
  apply Forall_cons in Ht as [Hc Ht].
  destruct (absorb_spec W (length result) c [] result) as (abs & H1 & H2 & H3); [done..|constructor|].
  cbn [app] in H1. destruct (absorb (length result) c [] result) as [c' kept]. cbn [fst snd] in *.
  assert (Hk : Forall (good W) (kept ++ abs)) by now rewrite H1.
  apply Forall_app in Hk as [Hk _].
  assert (Sk : separate (kept ++ abs)) by (eapply separate_perm; [symmetry; exact H1|done]).
  apply separate_app in Sk as [Sk _].
  apply IH; [done|apply Forall_app; split; [done|now apply Forall_singleton]|].
  apply separate_app. split_and!; [done|repeat constructor|]. rewrite Forall_forall in H3.
  intros s t Hs' ->%list_elem_of_singleton. now apply apart_sym, H3.
Qed.

(** *** Rebuilding the factors *)

(** Constraints whose sets the rebuilt factors are made of. *)
Definition regular (W : Array -> Prop) (e : Expr) : Prop :=
  wf_consts e = true /\ in_bounds e /\ forall s, IndependentElementSet'create e = Some s -> uniform W s.

Definition regrouped (temp : list IndependentElementSet) : list IndependentElementSet :=
  match rev temp with [] => [] | back :: temp => regroup temp [back] end.

Lemma create_list es temp : Forall (fun e => wf_consts e = true) es -> mapM IndependentElementSet'create es = Some temp ->
  Forall set_ok temp /\ all_exprs temp = es.
Proof.
  intros Hw. revert temp. induction Hw as [|e es He Hw IH]; intros temp E; cbn [mapM] in E; [injection E as <-; split; [constructor|done]|].
  apply bind_Some in E as (s & Hs & E). apply bind_Some in E as (ts & Ets & [= <-]).
  destruct (component_create e s He Hs) as (Os & _ & Es). destruct (IH ts Ets) as [Hts Ha]. split; [now constructor|].
  change (ie_exprs s ++ all_exprs ts = e :: es). now rewrite Es, Ha.
Qed.

(** The constraints of the result are those of [temp]. *)
Lemma regrouped_exprs es temp : Forall (fun e => wf_consts e = true) es -> NoDup es ->
  mapM IndependentElementSet'create es = Some temp ->
  Forall set_ok (regrouped temp) /\ all_exprs (regrouped temp) ≡ₚ es.
Proof.
  intros Hw Hn E. destruct (create_list es temp Hw E) as [Ht Ha]. unfold regrouped.
  assert (Hrev : rev temp ≡ₚ temp) by (symmetry; apply Permutation_rev).
  destruct (rev temp) as [|back t]; [split; [constructor|]; rewrite <- Ha, <- Hrev; done|].
  assert (Hp : t ++ [back] ≡ₚ temp) by (rewrite <- Hrev; symmetry; apply Permutation_cons_append).
  destruct (regroup_exprs t [back]) as [H1 H2]; [now rewrite Hp|now rewrite Hp, Ha|].
  split; [done|]. now rewrite H2, Hp, Ha.
Qed.

Lemma regrouped_spec W es : Forall (regular W) es -> NoDup es ->
  exists temp, mapM IndependentElementSet'create es = Some temp /\
    Forall (good W) (regrouped temp) /\ separate (regrouped temp) /\ all_exprs (regrouped temp) ≡ₚ es.
Proof.
  intros Hr Hn.
  assert (Ht : exists temp, mapM IndependentElementSet'create es = Some temp /\ Forall (good W) temp).
  { clear Hn. induction Hr as [|e es (He & Hb & Hu) Hr (temp & Em & Hg)]; [exists []; split; [done|constructor]|].
    destruct (create_covers e He) as (s & Hs & _).
    destruct (component_create e s He Hs) as (Os & Cs & Es). exists (s :: temp). cbn [mapM]. rewrite Hs. cbn [mbind option_bind].
    rewrite Em. split; [done|]. constructor; [|done]. constructor; [done|now apply (create_range e)|done|auto]. }
  destruct Ht as (temp & Em & Hg). exists temp. split; [done|].
  destruct (regrouped_exprs es temp) as [_ Hp]; [eapply Forall_impl; [exact Hr|]; now intros e (? & _)|done|done|].
  assert (Hgs : Forall (good W) (regrouped temp) /\ separate (regrouped temp)); [|tauto].
  unfold regrouped. assert (Hg' : Forall (good W) (rev temp)) by now rewrite <- Permutation_rev.
  destruct (rev temp) as [|back t]; [split; constructor|]. apply Forall_cons in Hg' as [Gb Gt].
  apply regroup_spec; [done|now apply Forall_singleton|repeat constructor].
Qed.

(** A component made of constraints of [s] has only bytes of [s]. *)
Lemma component_sub r s a i : component r -> component s -> (forall x, x ∈ ie_exprs r -> x ∈ ie_exprs s) ->
  covers r a i -> covers s a i.
Proof.
  intros Cr Cs Hsub Hc. apply (co_covers _ Cr) in Hc as (e & t & He & Ht & Hc). apply (co_covers _ Cs). eauto 6.
Qed.

Lemma existsb_elem e l : wf_consts e = true -> Forall (fun x => wf_consts x = true) l ->
  existsb (Expr_eqb e) l = true <-> e ∈ l.
Proof.
  intros He Hl. rewrite Forall_forall in Hl. rewrite existsb_exists. setoid_rewrite <- list_elem_of_In. split.
  - intros (x & Hx & E). apply Expr_eqb_eq in E as ->; auto.
  - intros H. exists e. split; [done|]. now apply Expr_eqb_eq.
Qed.

(** *** Collecting the factors to update *)

(** [updateList] holds the constraints [D] under their representatives. *)
Record updates (rep : list (Expr * ptr)) (D : list Expr) (ul : list (ptr * list Expr)) : Prop := {
  ul_once : NoDup ul.*1;
  ul_nonempty p ds : (p, ds) ∈ ul -> ds <> [];
  ul_consts p ds : (p, ds) ∈ ul -> Forall (fun e => wf_consts e = true) ds;
  ul_exprs p x : (exists ds, (p, ds) ∈ ul /\ x ∈ ds) <-> x ∈ D /\ rep_find rep x = Some p
}.

Lemma insert_expr_elem l e x : Forall (fun e => wf_consts e = true) l -> wf_consts e = true ->
  x ∈ insert_expr l e <-> x ∈ l \/ x = e.
Proof.
  intros Hl He. unfold insert_expr. destruct (existsb (Expr_eqb e) l) eqn:E; [|set_solver].
  apply existsb_elem in E; [|done..]. naive_solver.
Qed.

Lemma ul_insert_keys ul p e q : q ∈ (ul_insert ul p e).*1 <-> q ∈ ul.*1 \/ q = p.
Proof.
  induction ul as [|[r es] ul IH]; cbn [ul_insert]; [cbn; set_solver|].
  destruct (decide (p = r)) as [->|]; cbn; [set_solver|]. rewrite !elem_of_cons, IH. tauto.
Qed.

Lemma ul_insert_elem ul p e : NoDup ul.*1 -> forall q es,
  (q, es) ∈ ul_insert ul p e <->
  (q, es) ∈ ul /\ q <> p \/ q = p /\ (p ∉ ul.*1 /\ es = [e] \/ exists es', (p, es') ∈ ul /\ es = insert_expr es' e).
Proof.
  induction ul as [|[r rs] ul IH]; intros Hn q es; cbn [ul_insert].
  { cbn. rewrite list_elem_of_singleton. split; [intros [= -> ->]; right; set_solver|].
    intros [[? _]|[-> [[_ ->]|(? & ? & _)]]]; set_solver. }
  cbn in Hn. apply NoDup_cons in Hn as [Hr Hn].
  assert (Hkey : forall es', (r, es') ∉ ul) by (intros es' H; apply Hr, list_elem_of_fmap; now exists (r, es')).
  destruct (decide (p = r)) as [->|Hne]; rewrite !elem_of_cons; [|rewrite (IH Hn)]; cbn.
  - split.
    + intros [[= -> ->]|Hin]; [right; split; [done|right]; exists rs; split; [now left|done]|].
      left. split; [now right|]. intros ->. now apply (Hkey es).
    + intros [[[[= -> ->]|Hin] Hq]|[-> [[Hno _]|(es' & [[= ->]|Hin]%elem_of_cons & ->)]]];
        [done|auto|destruct Hno; now left|now left|now destruct (Hkey es')].
  - setoid_rewrite elem_of_cons. split.
    + intros [[= -> ->]|[[? ?]|[-> [[? ->]|(es' & ? & ->)]]]]; [left; split; auto|left; auto|right; split; [done|left]|right; split; [done|right; eauto]].
      split; [set_solver|done].
    + intros [[[[= -> ->]|?] ?]|[-> [[? ->]|(es' & [[= -> ->]|?] & ->)]]]; [auto|auto| |done|right; right; split; [done|right; eauto]].
      right; right. split; [done|left]. split; [set_solver|done].
Qed.

Lemma updates_insert rep D ul p e : Forall (fun x => wf_consts x = true) D -> wf_consts e = true ->
  updates rep D ul -> rep_find rep e = Some p -> updates rep (D ++ [e]) (ul_insert ul p e).
Proof.
  intros HD He [Hn Hne Hc Hx] Hp. pose proof (ul_insert_elem ul p e Hn) as Hin. constructor.
  - clear -Hn AS. induction ul as [|[r rs] ul IH]; cbn [ul_insert]; [apply NoDup_singleton|].
    cbn in Hn. apply NoDup_cons in Hn as [Hr Hn]. destruct (decide (p = r)) as [->|Hne]; cbn; [now constructor|].
    constructor; [|auto]. rewrite ul_insert_keys. naive_solver.
  - intros q ds [[H _]|[-> [[_ ->]|(es' & H & ->)]]]%Hin; [eauto|done|]. unfold insert_expr.
    destruct (existsb _ _); [eauto|]. now destruct es'.
  - intros q ds [[H _]|[-> [[_ ->]|(es' & H & ->)]]]%Hin; [eauto|now apply Forall_singleton|].
    apply Forall_forall. intros x [Hxe|Hxe]%insert_expr_elem; [|subst; done|eauto|done].
    specialize (Hc _ _ H). rewrite Forall_forall in Hc. auto.
  - intros q x. setoid_rewrite Hin. rewrite elem_of_app, list_elem_of_singleton. split.
    + intros (ds & [[H Hq]|[-> [[_ ->]|(es' & H & ->)]]] & Hxd).
      * destruct (proj1 (Hx q x)) as [? ?]; eauto.
      * apply list_elem_of_singleton in Hxd as ->. auto.
      * apply insert_expr_elem in Hxd as [Hxd| ->]; [|auto|eauto|done]. destruct (proj1 (Hx p x)) as [? ?]; eauto.
    + intros [[HxD| ->] Hq].
      * destruct (proj2 (Hx q x)) as (ds & Hds & Hxd); [done|]. destruct (decide (q = p)) as [->|Hqp].
        -- exists (insert_expr ds e). split; [eauto 8|]. apply insert_expr_elem; eauto.
        -- exists ds. auto.
      * assert (q = p) as -> by congruence. destruct (decide (p ∈ ul.*1)) as [Hin'|Hin'].
        -- apply list_elem_of_fmap in Hin' as ([r es'] & -> & Hin'). exists (insert_expr es' e). split; [eauto 8|].
           apply insert_expr_elem; eauto.
        -- exists [e]. split; [auto|now left].
Qed.

Lemma collect_loop rep D : forall D0 st, Forall (fun q => wf_consts q.1 = true) rep ->
  Forall (fun x => wf_consts x = true) (D0 ++ D) -> NoDup (D0 ++ D) ->
  (forall x, x ∈ D -> is_Some (rep_find rep x)) ->
  updates rep D0 st.1 -> Forall (fun q => wf_consts q.1 = true) st.2 ->
  (forall x, wf_consts x = true -> rep_find st.2 x = if decide (x ∈ D0) then None else rep_find rep x) ->
  exists st', foldM collect st D = Some st' /\ updates rep (D0 ++ D) st'.1 /\ Forall (fun q => wf_consts q.1 = true) st'.2 /\
    forall x, wf_consts x = true -> rep_find st'.2 x = if decide (x ∈ D0 ++ D) then None else rep_find rep x.
Proof.
  induction D as [|e D IH]; intros D0 st Hk Hc Hn Hm Hu Hks Hr; cbn [foldM]; [rewrite app_nil_r; eauto|].
  rewrite (cons_middle e D0 D), app_assoc in Hc, Hn |- *.
  assert (He : wf_consts e = true) by (rewrite !Forall_app, Forall_singleton in Hc; tauto).
  assert (HD0 : Forall (fun x => wf_consts x = true) D0) by (rewrite !Forall_app in Hc; tauto).
  assert (HeD : e ∉ D0) by (apply NoDup_app in Hn as [Hn _]; apply NoDup_app in Hn as (_ & Hd & _); intros H; apply (Hd e H); now left).
  destruct (Hm e) as [p Hp]; [now left|]. unfold collect at 2. rewrite Hr, decide_False, Hp by done. cbn [mbind option_bind].
  apply IH; [done|done|done|set_solver|now apply updates_insert|now apply rep_erase_keys|].
  intros x Hx. cbn [snd]. rewrite rep_find_erase by done. rewrite Hr by done.
  destruct (decide (x = e)) as [->|Hxe]; [now rewrite decide_True by set_solver|].
  destruct (decide (x ∈ D0)); [now rewrite decide_True by set_solver|]. now rewrite decide_False by set_solver.
Qed.

(** What the first loop needs to get through. *)
Lemma collect_found D : forall st st', Forall (fun q => wf_consts q.1 = true) st.2 ->
  Forall (fun x => wf_consts x = true) D -> foldM collect st D = Some st' ->
  NoDup D /\ Forall (fun x => is_Some (rep_find st.2 x)) D.
Proof.
  induction D as [|e D IH]; intros st st' Hk HD E; cbn in E; [split; constructor|].
  apply Forall_cons in HD as [He HD]. apply bind_Some in E as (st1 & E & E'). unfold collect in E.
  apply bind_Some in E as (p & Hp & [= <-]). destruct (IH (ul_insert st.1 p e, rep_erase st.2 e) _ (rep_erase_keys _ e Hk) HD E') as [Hn Hm]. cbn [snd] in Hm.
  rewrite Forall_forall in Hm, HD.
  assert (Hne : forall x, x ∈ D -> x <> e /\ is_Some (rep_find st.2 x)).
  { intros x Hx. specialize (Hm x Hx). rewrite rep_find_erase in Hm by auto. destruct (decide (x = e)); [now destruct Hm|done]. }
  split; [constructor; [intros Hx; now destruct (Hne e Hx)|done]|]. constructor; [eauto|].
  apply Forall_forall. intros x Hx. now apply Hne.
Qed.

(** The constraints of the factors that are still to be rebuilt. *)
Definition waiting (h : gmap ptr IndependentElementSet) (todo : list (ptr * list Expr)) (p : ptr) (x : Expr) : Prop :=
  exists ds s, (p, ds) ∈ todo /\ h !! p = Some s /\ x ∈ ie_exprs s /\ x ∉ ds.

(** For every invariant of the index that regrouping and shrinking respect. *)
Section Rebuild.
Context {partial J G sep} `{HJ : !IndexInvariant partial J G sep} (reg : Expr -> Prop).
Context (Hwf : forall e, reg e -> wf_consts e = true)
  (Hregroup : forall es temp, Forall reg es -> NoDup es -> mapM IndependentElementSet'create es = Some temp ->
     Forall G (regrouped temp) /\ ForallOrdPairs sep (regrouped temp))
  (Hshrink : forall r s t, G r -> G s -> (forall x, x ∈ ie_exprs r -> x ∈ ie_exprs s) -> sep s t -> sep r t).

Notation part_ok := (part_ok (J:=J)).

Definition disjoint_from (s t : IndependentElementSet) : Prop :=
  sep s t /\ forall x, x ∈ ie_exprs s -> x ∉ ie_exprs t.

(** The new factors [rs], and nothing else. *)
Record extended (F : Factors) (rs : list IndependentElementSet) (F' : Factors) : Prop := {
  xt_fset q t : fset (heap F') (indexer F') q t -> fset (heap F) (indexer F) q t \/ t ∈ rs;
  xt_old q : q ∈ dom (heap F) ->
    heap F' !! q = heap F !! q /\ (q ∈ factors (indexer F') <-> q ∈ factors (indexer F));
  xt_managed x : wf_consts x = true -> managed F' x <-> managed F x \/ x ∈ all_exprs rs
}.

Lemma insert_results rs : forall F pend, part_ok F pend -> Forall G rs -> ForallOrdPairs sep rs -> NoDup (all_exprs rs) ->
  (forall r q t, r ∈ rs -> fset (heap F) (indexer F) q t -> disjoint_from r t) ->
  returns partial (foldM insert_set F rs) (fun F' => part_ok F' (fun q x => pend q x /\ x ∉ all_exprs rs) /\ extended F rs F').
Proof.
  induction rs as [|r rs IH]; intros F pend HF Hg Hs Hn Hfree; cbn [foldM].
  { cbn. split; [|constructor; [auto|done|cbn; set_solver]]. eapply part_ext; [|exact HF]. intros. cbn. set_solver. }
  apply Forall_cons in Hg as [Hr Hg]. inversion Hs as [|? ? Hs1 Hs2]; subst.
  change (NoDup (ie_exprs r ++ all_exprs rs)) in Hn. apply NoDup_app in Hn as (_ & Hdis & Hn).
  eapply returns_bind; [apply (insert_set_ok F r pend HF Hr); intros q t Ht; apply (Hfree r q t); [now left|done]|].
  intros F1 (HF1 & p & [Hp Hfs Hf Hh Hm1]). eapply returns_mono; [|apply (IH F1 _ HF1 Hg Hs2 Hn)].
  - intros F2 (HF2 & [Hin Hpre Hm2]). split; [|constructor].
    + eapply part_ext; [|exact HF2]. intros q x _. cbn.
      change (all_exprs (r :: rs)) with (ie_exprs r ++ all_exprs rs). rewrite not_elem_of_app. tauto.
    + intros q t [[[-> ->]|Ht]%Hfs|Ht]%Hin; [right; now left|now left|right; now right].
    + intros q Hq. destruct (Hpre q) as [E Ef]; [rewrite Hh, dom_insert; set_solver|]. rewrite E, Ef, Hh, Hf.
      assert (q <> p) by (intros ->; done). rewrite lookup_insert_ne by done. set_solver.
    + intros x Hx. rewrite Hm2, Hm1 by done. change (all_exprs (r :: rs)) with (ie_exprs r ++ all_exprs rs).
      rewrite elem_of_app. tauto.
  - intros r' q t Hr' [[-> ->]|Ht]%Hfs; [|apply (Hfree r' q t); [now right|done]].
    rewrite Forall_forall in Hs1. split; [now apply iv_sym, Hs1|]. intros x Hx Hxr. apply (Hdis x Hxr).
    apply elem_of_all_exprs. eauto.
Qed.

Record rebuilding (F : Factors) (todo : list (ptr * list Expr)) : Prop := {
  rb_part : part_ok F (waiting (heap F) todo);
  rb_set p ds : (p, ds) ∈ todo -> exists s, heap F !! p = Some s /\ G s /\ Forall reg (ie_exprs s) /\
    p ∉ factors (indexer F) /\ Forall (fun e => wf_consts e = true) ds /\
    forall q t, fset (heap F) (indexer F) q t -> disjoint_from s t;
  rb_pairs p ds s q ds' t : (p, ds) ∈ todo -> (q, ds') ∈ todo -> p <> q ->
    heap F !! p = Some s -> heap F !! q = Some t -> disjoint_from s t;
  rb_once : NoDup todo.*1
}.

(** The constraints that remain of a factor. *)
Lemma remaining_elem s ds : set_ok s -> Forall (fun e => wf_consts e = true) ds ->
  forall x, x ∈ filter (fun e => existsb (Expr_eqb e) ds = false) (ie_exprs s) <-> x ∈ ie_exprs s /\ x ∉ ds.
Proof.
  intros Os Hds x. etransitivity; [apply list_elem_of_filter|]. etransitivity; [apply and_comm|].
  apply and_iff_compat_l'. intros Hx. rewrite <- not_true_iff_false, existsb_elem; [done| |done].
  pose proof (so_consts _ Os) as Hc. rewrite Forall_forall in Hc. auto.
Qed.

Lemma rebuild_step F p ds todo : rebuilding F ((p, ds) :: todo) ->
  returns partial (rebuild_factor F (p, ds)) (fun F' => rebuilding F' todo /\
    forall x, wf_consts x = true -> managed F' x <-> managed F x).
Proof.
  intros [HP Hset Hpairs Hnd]. cbn in Hnd. apply NoDup_cons in Hnd as [Hpt Hnd].
  destruct (Hset p ds) as (s & Hs & Gs & Hreg & Hpf & Hds & Hdis); [now left|]. pose proof (iv_ok s Gs) as Os.
  unfold rebuild_factor. cbn [fst snd]. rewrite Hs. cbn [mbind option_bind].
  set (es := filter _ (ie_exprs s)). pose proof (remaining_elem s ds Os Hds) as Hes. fold es in Hes.
  assert (Res : Forall reg es) by (rewrite Forall_forall in *; intros x [Hx _]%Hes; auto).
  assert (Nes : NoDup es) by apply NoDup_filter, Os.
  assert (Wes : Forall (fun e => wf_consts e = true) es) by (eapply Forall_impl; [exact Res|exact Hwf]).
  destruct (mapM IndependentElementSet'create es) as [temp|] eqn:Em.
  2:{ exfalso. apply mapM_None, Exists_exists in Em as (e & He & E). rewrite Forall_forall in Wes.
      destruct (create_covers e (Wes e He)) as (c & Hc & _). congruence. }
  destruct (Hregroup es temp Res Nes Em) as [Hg Hsep]. destruct (regrouped_exprs es temp Wes Nes Em) as [_ Hperm].
  cbn [mbind option_bind]. fold (regrouped temp).
  assert (Hsub : forall r x, r ∈ regrouped temp -> x ∈ ie_exprs r -> x ∈ es).
  { intros r x Hr Hx. rewrite <- Hperm. apply elem_of_all_exprs. eauto. }
  assert (Hdisj : forall r t, r ∈ regrouped temp -> disjoint_from s t -> disjoint_from r t).
  { intros r t Hr [Ha He]. rewrite Forall_forall in Hg. split.
    - apply (Hshrink r s t); auto. intros x Hx. apply Hes. eauto.
    - intros x Hx. apply He, Hes. eauto. }
  eapply returns_mono; [|apply (insert_results (regrouped temp) F _ HP Hg Hsep)].
  2:{ now rewrite Hperm. }
  2:{ intros r q t Hr Ht. apply Hdisj; eauto. }
  intros F' (HP' & [Hin Hpre Hm]).
  assert (Hold : forall q ds', (q, ds') ∈ todo -> q <> p /\ heap F' !! q = heap F !! q /\
            (q ∈ factors (indexer F') <-> q ∈ factors (indexer F))).
  { intros q ds' Hq. split; [intros ->; apply Hpt, list_elem_of_fmap; now exists (p, ds')|].
    destruct (Hset q ds') as (t & Ht & _); [now right|]. apply Hpre, elem_of_dom. eauto. }
  split.
  2:{ intros x Hx. rewrite Hm, Hperm, Hes by done. split; [|auto]. intros [?|[Hxs Hxd]]; [done|]. exists p.
      apply (pt_rep _ _ HP); [done|]. right. exists ds, s. split_and!; [now left|done..]. }
  constructor; [| | |done].
  - eapply part_ext; [|exact HP']. intros q x Hx. cbn. rewrite Hperm, Hes. unfold waiting. split.
    + intros [(ds' & t & [[= -> ->]|Hq]%elem_of_cons & Ht & Hxt & Hxd) Hno]; [rewrite Hs in Ht; simplify_eq; tauto|].
      destruct (Hold _ _ Hq) as (_ & E' & _). exists ds', t. rewrite E'. done.
    + intros (ds' & t & Hq & Ht & Hxt & Hxd). destruct (Hold _ _ Hq) as (Hne & E' & _). rewrite E' in Ht.
      split; [exists ds', t; split_and!; [now right|done..]|]. intros [Hxs _].
      destruct (Hpairs p ds s q ds' t) as [_ Hno]; [now left|now right|done|done|done|]. now apply (Hno x).
  - intros q ds' Hq. destruct (Hold _ _ Hq) as (Hne & E' & Ef). destruct (Hset q ds') as (t & Ht & Gt & Rt & Qf & Qd & Qs); [now right|].
    exists t. rewrite E', Ef. split_and!; [done..|]. intros r u [Hu|Hu]%Hin; [eauto|].
    destruct (Hdisj u t Hu) as [H1 H2]; [apply (Hpairs p ds s q ds' t); [now left|now right|done..]|].
    split; [now apply iv_sym|]. intros x Hx Hxu. now apply (H2 x).
  - intros q d t q' d' t' Hq Hq' Hne Ht Ht'. destruct (Hold _ _ Hq) as (_ & E1 & _), (Hold _ _ Hq') as (_ & E2 & _).
    rewrite E1 in Ht. rewrite E2 in Ht'. apply (Hpairs q d t q' d' t'); [now right|now right|done..].
Qed.

Lemma rebuild_loop todo F : rebuilding F todo ->
  returns partial (foldM rebuild_factor F todo) (fun F' => rebuilding F' [] /\
    forall x, wf_consts x = true -> managed F' x <-> managed F x).
Proof.
  intros HF. apply (returns_foldM partial (fun F' todo => rebuilding F' todo /\
    forall x, wf_consts x = true -> managed F' x <-> managed F x)); [|done].
  intros F1 [p ds] l [H1 Hm]. eapply returns_mono; [|exact (rebuild_step F1 p ds l H1)].
  intros F2 [H2 Hm2]. split; [done|]. intros x Hx. now rewrite Hm2, Hm.
Qed.

Lemma erase_updates {X} h (l : list (ptr * X)) : forall ix, J h ix -> NoDup l.*1 -> (forall p, p ∈ l.*1 -> p ∈ factors ix) ->
  returns partial (foldM (fun ix it => s ← h !! it.1; Indexer_erase ix it.1 s) ix l)
    (fun ix' => J h ix' /\ factors ix' = factors ix ∖ list_to_set l.*1).
Proof.
  induction l as [|[p x] l IH]; intros ix Hx Hn Hl; cbn [foldM].
  { cbn. split; [done|set_solver]. }
  cbn in Hn, Hl. apply NoDup_cons in Hn as [Hp Hn]. destruct (iv_heap h ix p Hx) as (s & Hs & _); [apply Hl; now left|].
  cbn [fst]. rewrite Hs. cbn [mbind option_bind].
  eapply returns_bind; [apply (iv_erase h ix p s Hx); split; [apply Hl; now left|done]|].
  intros ix1 [Hx1 Hf1]. eapply returns_mono; [|apply (IH ix1 Hx1 Hn); intros q Hq; rewrite Hf1; set_solver].
  intros ix2 [Hx2 Hf2]. split; [done|]. rewrite Hf2, Hf1. cbn. set_solver.
Qed.

Notation all_ok F := (part_ok F (fun _ _ => False)).

Lemma part_rep_ok F : all_ok F -> rep_ok F.
Proof. intros HF e p He. rewrite (pt_rep _ _ HF) by done. tauto. Qed.

Lemma factors_disjoint F p s q t : all_ok F -> fset (heap F) (indexer F) p s -> fset (heap F) (indexer F) q t ->
  p <> q -> disjoint_from s t.
Proof.
  intros HF Hs Ht Hne. pose proof (pt_index _ _ HF) as Hx. split; [now apply (iv_disjoint _ _ p q s t Hx)|].
  intros x Hxs Hxt. destruct (iv_heap _ _ p Hx) as (s' & E & Gs); [apply Hs|].
  assert (s' = s) as -> by (destruct Hs; congruence). pose proof (so_consts _ (iv_ok s Gs)) as Hc. rewrite Forall_forall in Hc.
  assert (E1 : rep_find (representative F) x = Some p) by (apply (part_rep_ok F HF); eauto).
  assert (E2 : rep_find (representative F) x = Some q) by (apply (part_rep_ok F HF); eauto). congruence.
Qed.

(** The factors of the deleted constraints are erased, and wait to be rebuilt. *)
Lemma start_rebuilding F D ul rep ix : all_ok F -> (forall x, known F x -> reg x) ->
  updates (representative F) D ul -> Forall (fun q => wf_consts q.1 = true) rep ->
  (forall x, wf_consts x = true -> rep_find rep x = if decide (x ∈ D) then None else rep_find (representative F) x) ->
  J (heap F) ix -> factors ix = factors (indexer F) ∖ list_to_set ul.*1 ->
  Forall (fun x => wf_consts x = true) D -> rebuilding (mkFactors (heap F) ix rep) ul.
Proof.
  intros HF Hreg Hul Hk Hr Hx Hf HD. pose proof (part_rep_ok F HF) as HR.
  assert (Hfac : forall p ds, (p, ds) ∈ ul -> exists s, fset (heap F) (indexer F) p s).
  { intros p ds Hp. pose proof (ul_nonempty _ _ _ Hul _ _ Hp) as Hne. destruct ds as [|y ds]; [done|].
    destruct (proj1 (ul_exprs _ _ _ Hul p y)) as [HyD Hy]; [exists (y :: ds); split; [done|now left]|].
    rewrite Forall_forall in HD. apply HR in Hy as (s & Hs & _); [eauto|auto]. }
  assert (Hkey : forall p : ptr, p ∈ ul.*1 <-> exists ds, (p, ds) ∈ ul).
  { intros p. rewrite list_elem_of_fmap. split; [intros ([? ds] & -> & ?); eauto|]. intros [ds ?]. now exists (p, ds). }
  assert (Hfs : forall p s, fset (heap F) ix p s <-> fset (heap F) (indexer F) p s /\ ~ exists ds, (p, ds) ∈ ul).
  { intros p s. unfold fset. rewrite Hf, elem_of_difference, elem_of_list_to_set, Hkey. tauto. }
  constructor; cbn [heap indexer representative].
  - constructor; cbn [heap indexer representative]; [done|done|].
    intros x p Hxc. rewrite Hr by done. setoid_rewrite Hfs. pose proof (HR x p Hxc) as Hrep.
    pose proof (ul_exprs _ _ _ Hul p x) as Hux. destruct (decide (x ∈ D)) as [HxD|HxD].
    + split; [done|]. intros [(s & [Hs Hno] & Hxs)|(ds & s & Hp & Hs & Hxs & Hxd)].
      * destruct Hno. destruct (proj2 Hux) as (ds & ? & _); [split; [done|apply Hrep; eauto]|eauto].
      * destruct (Hfac _ _ Hp) as (s' & Hs'). assert (s' = s) as -> by (destruct Hs'; congruence).
        destruct (proj2 Hux) as (ds' & Hp' & Hxd'); [split; [done|apply Hrep; eauto]|].
        pose proof (ul_once _ _ _ Hul) as Hn. rewrite (NoDup_fst_eq ul p ds ds' Hn Hp Hp') in Hxd. done.
    + rewrite Hrep. split.
      * intros (s & Hs & Hxs). destruct (decide (p ∈ ul.*1)) as [[ds Hds]%Hkey|Hp]; [right|left; exists s; split; [split; [done|now rewrite <- Hkey]|done]].
        exists ds, s. split_and!; [done|apply Hs|done|]. intros Hxd. apply HxD. apply (proj1 Hux). eauto.
      * intros [(s & [Hs _] & Hxs)|(ds & s & Hp & Hs & Hxs & Hxd)]; [eauto|].
        destruct (Hfac _ _ Hp) as (s' & Hs'). assert (s' = s) as -> by (destruct Hs'; congruence). eauto.
  - intros p ds Hp. destruct (Hfac _ _ Hp) as (s & Hs). destruct (iv_heap _ _ p (pt_index _ _ HF)) as (s' & E & Gs); [apply Hs|].
    assert (s' = s) as -> by (destruct Hs; congruence).
    exists s. split_and!; [apply Hs|done| | |exact (ul_consts _ _ _ Hul _ _ Hp)|].
    + pose proof (so_consts _ (iv_ok s Gs)) as Hc. rewrite Forall_forall in *. intros x Hxs. apply Hreg. split; [auto|].
      exists p. apply HR; eauto.
    + rewrite Hf, elem_of_difference, elem_of_list_to_set, Hkey. intros [_ H]. eauto.
    + intros q t [Ht Hno]%Hfs. apply (factors_disjoint F p s q t); [done..|]. intros ->. eauto.
  - intros p ds s q ds' t Hp Hq Hne Hs Ht. destruct (Hfac _ _ Hp) as (s' & Hs'), (Hfac _ _ Hq) as (t' & Ht').
    assert (s' = s) as -> by (destruct Hs'; congruence). assert (t' = t) as -> by (destruct Ht'; congruence).
    now apply (factors_disjoint F p s q t).
  - apply Hul.
Qed.

Lemma delete_returns F D : all_ok F -> (forall x, known F x -> reg x) -> Forall (fun x => wf_consts x = true) D ->
  (NoDup D /\ Forall (managed F) D) \/ partial ->
  returns partial (updateIndependentSetDelete F D) (fun F' => all_ok F' /\
    forall x, wf_consts x = true -> managed F' x <-> managed F x /\ x ∉ D).
Proof.
  intros HF Hreg HDc Hor. pose proof (part_rep_ok F HF) as HR.
  destruct D as [|d D']; [cbn; split; [done|set_solver]|].
  unfold updateIndependentSetDelete. set (D := d :: D') in *.
  assert (HD : is_Some (foldM collect ([], representative F) D) -> NoDup D /\ Forall (managed F) D).
  { intros [st Hst]. apply (collect_found D ([], representative F) st); [apply (pt_keys _ _ HF)|done|done]. }
  destruct (foldM collect ([], representative F) D) as [st0|] eqn:Est.
  2:{ destruct Hor as [[Hn Hm]|?]; [|done]. exfalso. rewrite Forall_forall in Hm.
      destruct (collect_loop (representative F) D [] ([], representative F)) as (st & Est' & _);
        [apply (pt_keys _ _ HF)|done|done|done|constructor; cbn; [constructor|set_solver..]|apply (pt_keys _ _ HF)|done|].
      congruence. }
  destruct HD as [Hn Hm]; [eauto|]. rewrite Forall_forall in Hm.
  destruct (collect_loop (representative F) D [] ([], representative F)) as (st & Est' & Hul & Hk & Hr);
    [apply (pt_keys _ _ HF)|done|done|done|constructor; cbn; [constructor|set_solver..]|apply (pt_keys _ _ HF)|done|].
  rewrite Est in Est'. injection Est' as ->. cbn [mbind option_bind app] in *.
  eapply returns_bind; [apply (erase_updates (heap F) st.1 (indexer F)); [apply (pt_index _ _ HF)|apply Hul|]|].
  { intros p Hp. apply list_elem_of_fmap in Hp as ([q ds] & -> & Hp). pose proof (ul_nonempty _ _ _ Hul _ _ Hp) as Hne.
    destruct ds as [|y ds]; [done|]. destruct (proj1 (ul_exprs _ _ _ Hul q y)) as [HyD Hy]; [eexists; split; [done|now left]|].
    rewrite Forall_forall in HDc. apply HR in Hy as (s & [? _] & _); auto. }
  intros ix [Hx Hf]. eapply returns_mono; [|apply (rebuild_loop st.1 (mkFactors (heap F) ix st.2)); now apply (start_rebuilding F D)].
  intros F' [HF' Hm']. split.
  - eapply part_ext; [|apply (rb_part _ _ HF')]. intros q x _. split; [|done]. intros (ds & s & H & _). set_solver.
  - intros x Hxc. rewrite Hm' by done. unfold managed. cbn [representative]. rewrite Hr by done.
    destruct (decide (x ∈ D)); [|tauto]. split; [intros [? ?]; done|tauto].
Qed.

End Rebuild.

(** On an exact index it returns, and the index is exact again. *)
Lemma updateIndependentSetDelete_ok W F D : factors_ok F -> (forall x, known F x -> regular W x) ->
  NoDup D -> Forall (known F) D ->
  exists F', updateIndependentSetDelete F D = Some F' /\ factors_ok F' /\
    forall x, wf_consts x = true -> managed F' x <-> managed F x /\ x ∉ D.
Proof.
  intros HF Hreg Hn HD.
  assert (HDc : Forall (fun x => wf_consts x = true) D) by (eapply Forall_impl; [exact HD|]; now intros x [? _]).
  assert (H : returns False (updateIndependentSetDelete F D) (fun F' => part_ok (J:=exact_components) F' (fun _ _ => False) /\
    forall x, wf_consts x = true -> managed F' x <-> managed F x /\ x ∉ D)).
  { apply (delete_returns (HJ:=exact_invariant) (regular W)); [now intros e [? _]| | |now apply factors_part|done|done|].
    - intros es temp Hr Hes Em. destruct (regrouped_spec W es Hr Hes) as (temp' & Em' & Hg & Hs & _).
      rewrite Em in Em'. injection Em' as <-. split; [|done]. eapply Forall_impl; [exact Hg|]. intros r [? ? ? _]. done.
    - intros r s t (_ & _ & Cr) (_ & _ & Cs) Hsub Hst (a & i & Hc & Hd). apply Hst. exists a, i. split; [|done].
      now apply (component_sub r s).
    - left. split; [done|]. eapply Forall_impl; [exact HD|]. now intros x [_ ?]. }
  destruct (updateIndependentSetDelete F D) as [F'|]; [|done]. exists F'. destruct H as [HF' Hm]. split_and!; [done| |done].
  now apply factors_part.
Qed.

(** With the index sound it is sound again, if no assert fails. *)
Lemma updateIndependentSetDelete_sound F D : part_ok (J:=sound) F (fun _ _ => False) ->
  (forall x, known F x -> wf_consts x = true) -> Forall (fun x => wf_consts x = true) D ->
  returns True (updateIndependentSetDelete F D) (fun F' => part_ok (J:=sound) F' (fun _ _ => False) /\
    forall x, wf_consts x = true -> managed F' x <-> managed F x /\ x ∉ D).
Proof.
  intros HF Hk HD. apply (delete_returns (HJ:=sound_invariant) (fun e => wf_consts e = true)); auto.
  intros es temp Hw Hn Em. destruct (regrouped_exprs es temp Hw Hn Em) as [Ho _]. split; [done|].
  clear. induction (regrouped temp); constructor; [|done]. now apply Forall_forall.
Qed.

End Delete.

(** ** Claims *)

Section Claims.
Context `{A : APIntOps} {AS : APIntSpec A}.

(** C28: [updateIndependentSetDelete] returns for constraints that are managed,
    and keeps the invariant: the factors of the remaining constraints are again
    their connected components, and the index is exact.  This needs that every
    array is read at constant indices only or at symbolic ones only. *)
Theorem updateIndependentSetDelete_keeps_components (W : Array -> Prop) (F : Factors) (D : list Expr) :
  factors_ok F -> (forall x, known F x -> regular W x) -> NoDup D -> Forall (known F) D ->
  exists F', updateIndependentSetDelete F D = Some F' /\ factors_ok F' /\
    (forall x, known F' x <-> known F x /\ x ∉ D) /\
    (forall x y, known F' x -> known F' y ->
       rep_find (representative F') x = rep_find (representative F') y <-> rtc (linked (known F')) x y).
Proof.
  intros HF Hr Hn HD. destruct (updateIndependentSetDelete_ok W F D HF Hr Hn HD) as (F' & E & HF' & Hm).
  exists F'. split_and!; [done|done| |intros; now apply same_factor_connected].
  intros x. unfold known. split; [intros [Hx Hx']; apply Hm in Hx'; tauto|].
  intros [[Hx Hx'] Hd]. split; [done|]. apply Hm; auto.
Qed.

End Claims.

(** ** A factor that is split although its constraints have a common byte *)

(** [buf[buf[0]] == 0] and [buf[1] == 0]. *)
Definition zero_at_first : Expr := CmpExpr Eq (const 8 0) (byte_at (CastExpr ZExt (byte_at (const 32 0)) 32)).
Definition second_is_zero : Expr := CmpExpr Eq (const 8 0) (byte_at (const 32 1)).

(** The first byte is 1 and the byte it points to is 0. *)
Lemma second_byte rho : models rho [first_is_one; zero_at_first] -> eval rho second_is_zero = Some (APInt 1 1).
Proof.
  intros H. apply Forall_cons in H as [H1 [H2 _]%Forall_cons].
  assert (E1 : eval rho first_is_one = Some (APInt 1 (b2z (1 =? BV.wrap 8 (rho buf 0))))) by reflexivity.
  pose proof (eq_trans (eq_sym E1) H1) as H1'. destruct (Z.eqb_spec 1 (BV.wrap 8 (rho buf 0))) as [Hw|]; [|done].
  assert (R : eval rho (byte_at (const 32 0)) = Some (APInt 8 (BV.wrap 8 (rho buf 0)))) by reflexivity.
  rewrite <- Hw in R. rewrite <- H2.
  change (eval rho zero_at_first) with
    (y ← (i ← (v ← eval rho (byte_at (const 32 0)); eval_cast ZExt 32 v); eval_read rho buf [] i); eval_cmp Eq (APInt 8 0) y).
  rewrite R. reflexivity.
Qed.

Definition before : Factors :=
  default no_factors (factors_of (A:=apint_ref) [first_is_one; zero_at_first; third_is_three]).
Definition after : Factors :=
  default no_factors (updateIndependentSetDelete (A:=apint_ref) before [third_is_three]).
Definition query_set : IndependentElementSet :=
  default no_elements (IndependentElementSet'create (A:=apint_ref) second_is_zero).
Definition found : gset ptr := default ∅ (getIntersection (indexer after) query_set).

Definition found_ptr : ptr := 3%positive.
Lemma found_factor : found = {[found_ptr]}.
Proof. vm_compute. reflexivity. Qed.
Lemma found_set : heap after !! found_ptr = Some (set_of 0 first_is_one).
Proof. vm_compute. reflexivity. Qed.

(** When an array is read at a constant and at a symbolic index, deleting a
    constraint may split a factor.  From [buf[0] == 1], [buf[buf[0]] == 0] and
    [buf[2] == 3], one factor, the last constraint is deleted.  The other two have
    the common byte [buf[0]] and are in different factors afterwards, and the
    index has lost one of them: [getIntersection] for [buf[1] == 0] returns
    factors that do not imply it, although the constraints do. *)
Theorem delete_splits_factor :
  exists F F' s out,
    factors_of (A:=apint_ref) [first_is_one; zero_at_first; third_is_three] = Some F /\
    updateIndependentSetDelete (A:=apint_ref) F [third_is_three] = Some F' /\
    IndependentElementSet'create (A:=apint_ref) second_is_zero = Some s /\
    getIntersection (indexer F') s = Some out /\
    rep_find (A:=apint_ref) (representative F) first_is_one = rep_find (A:=apint_ref) (representative F) zero_at_first /\
    rep_find (A:=apint_ref) (representative F') first_is_one <> rep_find (A:=apint_ref) (representative F') zero_at_first /\
    (forall rho, models rho [first_is_one; zero_at_first] -> eval rho second_is_zero = Some (APInt 1 1)) /\
    exists rho, (forall p t, p ∈ out -> heap F' !! p = Some t -> models rho (ie_exprs t)) /\
      eval rho second_is_zero = Some (APInt 1 0).
Proof.
  exists before, after, query_set, found. split_and!; [vm_compute; reflexivity..| |exact second_byte|].
  - vm_compute. discriminate.
  - exists (fun _ _ => 1). split; [|reflexivity]. intros p t Hp Ht. rewrite found_factor in Hp.
    apply elem_of_singleton in Hp as ->. rewrite found_set in Ht. injection Ht as <-. repeat constructor.
Qed.

(** ** A concrete deletion *)

Lemma one_byte_regular : forall x, x ∈ [first_is_one; third_is_three] -> regular (A:=apint_ref) (fun _ => False) x.
Proof.
  intros x Hx. pose proof sample_in_bounds as Hb. rewrite Forall_forall in Hb. destruct (Hb x Hx) as [Hc Hi].
  split_and!; [done..|]. intros s Hs a. apply elem_of_cons in Hx as [->|Hx]; [|apply list_elem_of_singleton in Hx as ->];
    rewrite ?create_first, ?create_third in Hs; injection Hs as <-; (split; [set_solver|tauto]).
Qed.

Lemma updateIndependentSetDelete_witness :
  exists F F', factors_of (A:=apint_ref) [first_is_one; third_is_three] = Some F /\
    updateIndependentSetDelete (A:=apint_ref) F [third_is_three] = Some F' /\
    (forall x, known (A:=apint_ref) F' x <-> known (A:=apint_ref) F x /\ x ∉ [third_is_three]).
Proof.
  destruct (factors_of_ok (A:=apint_ref) (AS:=apint_ref_spec) [first_is_one; third_is_three]) as (F & E & HF & Hm);
    [exact sample_distinct|exact sample_in_bounds|].
  destruct (updateIndependentSetDelete_keeps_components (A:=apint_ref) (AS:=apint_ref_spec) (fun _ => False) F [third_is_three])
    as (F' & E' & _ & Hk & _).
  - exact HF.
  - intros x [Hx Hx']. apply one_byte_regular. now apply Hm.
  - apply NoDup_singleton.
  - apply Forall_singleton. split; [reflexivity|]. apply Hm; [reflexivity|].
    apply elem_of_cons; right. now apply list_elem_of_singleton.
  - exists F, F'. split_and!; assumption.
Defined.
