(* ===== verification/FactorBook.v ===== *)
(** * The bookkeeping of the factors

    What the constraint manager relies on in its factors, as an interface: the
    sets it gets from the index hold managed constraints only, and after
    [updateIndependentSetAdd] and [updateIndependentSetDelete] exactly the right
    constraints are managed.  The interface is met without any condition on the
    arrays: also after [updateIndependentSetDelete] has split a factor the index
    points to factors only, as long as no assert fails. *)

From stdpp Require Import gmap strings.
From S2P Require Import Prelude APInt Expr ExprOrder ExprSem ExprCreate ExprVisitor ExprUtil IndependentElementSet FactorIndex ConstraintFactors FactorDelete.

(** [Inv F C]: the factors [F] manage the constraints [C]. *)
Class FactorLaws `{A : APIntOps} (Inv : Factors -> (Expr -> Prop) -> Prop) : Prop := {
  fl_empty : Inv no_factors (fun _ => False);
  fl_ext F C C' : (forall x, C x <-> C' x) -> Inv F C -> Inv F C';
  fl_managed F C e : Inv F C -> wf_consts e = true -> managed F e <-> C e;
  fl_intersection F C s out p t : Inv F C -> getIntersection (indexer F) s = Some out -> p ∈ out ->
    heap F !! p = Some t -> Forall C (ie_exprs t);
  fl_add F C e F' : Inv F C -> wf_consts e = true -> ~ C e -> updateIndependentSetAdd F e = Some F' ->
    Inv F' (fun x => C x \/ x = e);
  fl_delete F C D F' : Inv F C -> Forall C D -> updateIndependentSetDelete F D = Some F' ->
    Inv F' (fun x => C x /\ x ∉ D)
}.

Lemma erase_loop_sound {Y} h (f : Y -> ptr) (g : Indexer -> Y -> option Indexer) (l : list Y) :
  (forall ix y ix', y ∈ l -> g ix y = Some ix' -> exists s, h !! f y = Some s /\ Indexer_erase ix (f y) s = Some ix') ->
  forall ix ix', sound h ix -> foldM g ix l = Some ix' -> sound h ix' /\ factors ix' = factors ix ∖ list_to_set (f <$> l).
Proof.
  induction l as [|y l IH]; intros Hg ix ix' Hx E; cbn in E; [injection E as <-; split; [done|set_solver]|].
  apply bind_Some in E as (ix1 & E & E'). destruct (Hg _ _ _ ltac:(now left) E) as (s & Hs & E1).
  destruct (erase_sound _ _ _ _ _ Hx Hs E1) as [Hx1 Hf1].
  destruct (IH ltac:(intros; eapply Hg; [now right|done]) _ _ Hx1 E') as [? ->]. split; [done|].
  rewrite Hf1. cbn. set_solver.
Qed.

Section Book.
Context `{A : APIntOps} {AS : APIntSpec A}.

Record book (F : Factors) (C : Expr -> Prop) : Prop := {
  bk_sound : sound (heap F) (indexer F);
  bk_keys : Forall (fun q => wf_consts q.1 = true) (representative F);
  bk_rep : rep_ok F;
  bk_known x : C x <-> known F x
}.

Lemma book_set F C p s : book F C -> fset (heap F) (indexer F) p s -> set_ok s /\ Forall C (ie_exprs s).
Proof.
  intros HF Hs. destruct (sd_heap _ _ (bk_sound _ _ HF) p) as (s' & E & Os); [apply Hs|].
  assert (s' = s) as -> by (destruct Hs; congruence). split; [done|]. pose proof (so_consts _ Os) as Hc.
  rewrite Forall_forall in *. intros x Hx. apply (bk_known _ _ HF). split; [auto|]. exists p. apply (bk_rep _ _ HF); eauto.
Qed.

(** *** Adding *)

(** The bookkeeping of a step that merges [victims] and [e] into [p]. *)
Lemma book_step F C F' e (victims : list ptr) p merged : book F C -> wf_consts e = true -> ~ C e ->
  (p ∈ victims \/ p ∉ factors (indexer F)) ->
  (forall q t, fset (heap F') (indexer F') q t <->
    q = p /\ t = merged \/ q ∉ victims /\ q <> p /\ fset (heap F) (indexer F) q t) ->
  (forall x, x ∈ ie_exprs merged <->
    x = e \/ exists v t, v ∈ victims /\ fset (heap F) (indexer F) v t /\ x ∈ ie_exprs t) ->
  (forall x, wf_consts x = true -> rep_find (representative F') x =
    if decide (x ∈ ie_exprs merged) then Some p else rep_find (representative F) x) ->
  sound (heap F') (indexer F') -> Forall (fun q => wf_consts q.1 = true) (representative F') ->
  book F' (fun x => C x \/ x = e).
Proof.
  intros HF He Hn Hp Hfs Hex Hrep Hx Hk. pose proof (bk_rep _ _ HF) as Hr.
  assert (Hm : ~ managed F e) by (intros H; apply Hn, (bk_known _ _ HF); done).
  constructor; [done|done|intros x q; now apply (step_rep F F' e victims p merged)|].
  intros x. rewrite (bk_known _ _ HF). unfold known.
  pose proof (step_managed F F' e victims p merged Hr Hex Hrep x) as Hmx. naive_solver.
Qed.

Lemma merge_book F C e c victims F' : book F C -> wf_consts e = true -> ~ C e ->
  set_ok c -> ie_exprs c = [e] -> NoDup victims -> (forall p, p ∈ victims -> p ∈ factors (indexer F)) ->
  merge_factors F c victims = Some F' -> book F' (fun x => C x \/ x = e).
Proof.
  intros HF He Hn Oc Ec Hnd Hv E. pose proof (bk_sound _ _ HF) as Hx. unfold merge_factors in E.
  apply bind_Some in E as (sets & Hm & E). pose proof (mapM_Some_1 _ _ _ Hm) as Hm2.
  set (merged := foldl _ c sets) in E. cbn in E. set (p := fresh (dom (heap F))) in E.
  apply bind_Some in E as (ix1 & E1 & E). apply bind_Some in E as (ix2 & E2 & [= <-]).
  assert (Hsets : forall t, t ∈ sets <-> exists v, v ∈ victims /\ fset (heap F) (indexer F) v t).
  { intros t. split.
    - intros (i & Hi)%list_elem_of_lookup. destruct (Forall2_lookup_r _ _ _ _ _ Hm2 Hi) as (v & Hvi & Hh).
      apply list_elem_of_lookup_2 in Hvi. exists v. split; [done|]. split; [auto|done].
    - intros (v & (i & Hi)%list_elem_of_lookup & _ & Hh). destruct (Forall2_lookup_l _ _ _ _ _ Hm2 Hi) as (t' & Ht & Hh').
      cbn in Hh'. simplify_eq. now apply list_elem_of_lookup_2 in Ht. }
  assert (Osets : Forall set_ok sets).
  { apply Forall_forall. intros t (v & _ & Ht)%Hsets. exact (proj1 (book_set _ _ _ _ HF Ht)). }
  destruct (merge_sets_ok c sets Oc Osets) as (Om & Em & _).
  change (merge_sets c sets) with merged in Om, Em.
  assert (Hp : p ∉ dom (heap F)) by apply is_fresh.
  assert (Hpf : p ∉ factors (indexer F)).
  { intros H. destruct (sd_heap _ _ Hx p H) as (s & Hs & _). apply Hp, elem_of_dom. eauto. }
  destruct (erase_loop_sound (heap F) fst (fun ix v => Indexer_erase ix v.1 v.2) (zip victims sets)) with (ix := indexer F) (ix' := ix1)
    as [Hx1 Hf1]; [|done|done|].
  { intros ix [v t] ix' Hin E. exists t. split; [|done]. cbn.
    apply list_elem_of_lookup in Hin as [i Hi]. apply lookup_zip_Some in Hi as [H1 H2].
    destruct (Forall2_lookup_l _ _ _ _ _ Hm2 H1) as (t' & H2' & Hh). cbn in Hh. congruence. }
  rewrite fst_zip in Hf1 by (rewrite (Forall2_length _ _ _ Hm2); done).
  destruct (insert_sound (heap F) ix1 p merged ix2 Hx1) as [Hx2 Hf2]; [set_solver|done|done|].
  assert (Hpv : p ∉ victims) by (intros H; apply Hpf; auto).
  apply (book_step F C _ e victims p merged); cbn [heap indexer representative]; auto.
  - intros q t. unfold fset. rewrite Hf2, Hf1, delete_list_lookup.
    rewrite elem_of_union, elem_of_difference, elem_of_singleton, elem_of_list_to_set.
    destruct (decide (q ∈ victims)) as [Hq|Hq]; [naive_solver|]. rewrite lookup_insert_Some. naive_solver.
  - intros x. rewrite Em, Ec, list_elem_of_singleton. setoid_rewrite Hsets. naive_solver.
  - intros x Hxc. apply rep_find_sets; [apply (bk_keys _ _ HF)|apply Om|done].
  - apply (sound_ext (<[p := merged]> (heap F))); [|done]. intros q Hq. rewrite delete_list_lookup.
    rewrite decide_False; [done|]. set_solver.
  - apply rep_sets_keys; [apply (bk_keys _ _ HF)|apply Om].
Qed.

Lemma add_book F C e F' : book F C -> wf_consts e = true -> ~ C e -> updateIndependentSetAdd F e = Some F' ->
  book F' (fun x => C x \/ x = e).
Proof.
  intros HF He Hn E. pose proof (bk_sound _ _ HF) as Hx. unfold updateIndependentSetAdd in E.
  apply bind_Some in E as (c & Hc & E). apply bind_Some in E as (out & Hout & E).
  destruct (component_create e c He Hc) as (Oc & _ & Ec).
  assert (Hv : forall p, p ∈ elements out -> p ∈ factors (indexer F)).
  { intros p Hp%elem_of_elements. exact (intersection_sound _ _ _ _ _ Hx Hout Hp). }
  pose proof (NoDup_elements out) as Hnd. destruct (elements out) as [|p [|p' l]];
    [now apply (merge_book F C e c [])| |now apply (merge_book F C e c (p :: p' :: l))].
  apply bind_Some in E as (t & Ht & E). apply bind_Some in E as (ix1 & E1 & [= <-]).
  assert (Hpf : p ∈ factors (indexer F)) by (apply Hv; now left).
  assert (Hft : fset (heap F) (indexer F) p t) by done. destruct (book_set _ _ _ _ HF Hft) as [Ot _].
  destruct (add_set_ok t c Ot Oc) as (Om & Em & Cm). set (merged := (add t c).1) in *.
  assert (Hf : factors ix1 = factors (indexer F)) by now apply redirect_entries in E1 as (? & _).
  assert (Hx1 : sound (<[p := merged]> (heap F)) ix1).
  { pose proof (redirect_sound (heap F) (indexer F) c p merged ix1 Hx (so_wf _ Oc) Om) as H.
    replace ({[p]} ∪ factors (indexer F)) with (factors ix1) in H by set_solver. destruct ix1. apply H; [| |done].
    - intros a i Hi. apply Cm. auto.
    - intros old Hold a i Hi. apply Cm. rewrite (fset_fun _ _ _ _ _ Hold Hft) in Hi. auto. }
  assert (Hp : p ∈ [p]) by now left.
  apply (book_step F C _ e [p] p merged); cbn [heap indexer representative]; auto.
  - intros q u. unfold fset. rewrite Hf, lookup_insert_Some, list_elem_of_singleton. naive_solver.
  - intros x. rewrite Em, Ec, list_elem_of_singleton. setoid_rewrite list_elem_of_singleton. split.
    + intros [?| ->]; eauto 8.
    + intros [->|(v & u & -> & Hu & ?)]; [auto|]. rewrite (fset_fun _ _ _ _ _ Hft Hu). auto.
  - intros x Hxc. rewrite rep_find_sets; [|apply (bk_keys _ _ HF)|apply Oc|done].
    destruct (decide (x ∈ ie_exprs c)); [now rewrite decide_True by (apply Em; auto)|].
    destruct (decide (x ∈ ie_exprs merged)) as [Hxm|]; [|done]. apply Em in Hxm as [Hxt|]; [|done].
    apply (bk_rep _ _ HF); eauto.
  - apply rep_sets_keys; [apply (bk_keys _ _ HF)|apply Oc].
Qed.

(** *** Deleting *)

Lemma book_part F : part_ok (J:=sound) F (fun _ _ => False) <-> sound (heap F) (indexer F) /\
  Forall (fun q => wf_consts q.1 = true) (representative F) /\ rep_ok F.
Proof.
  split.
  - intros [Hx Hk Hr]. split_and!; [done|done|]. intros e p He. specialize (Hr e p He). tauto.
  - intros (Hx & Hk & Hr). constructor; [done|done|]. intros e p He. specialize (Hr e p He). tauto.
Qed.

Lemma delete_book F C D F' : book F C -> Forall C D -> updateIndependentSetDelete F D = Some F' ->
  book F' (fun x => C x /\ x ∉ D).
Proof.
  intros HF HD E. pose proof (bk_known _ _ HF) as HC.
  assert (HDc : Forall (fun x => wf_consts x = true) D) by (eapply Forall_impl; [exact HD|]; now intros x [? _]%HC).
  pose proof (updateIndependentSetDelete_sound F D) as H. rewrite E in H. destruct H as [HF' Hm].
  - apply book_part. now destruct HF.
  - now intros x [? _].
  - done.
  - apply book_part in HF' as (Hx & Hk & Hr). constructor; [done|done|done|].
    intros x. rewrite HC. unfold known. specialize (Hm x). naive_solver.
Qed.

Lemma book_empty : book no_factors (fun _ => False).
Proof.
  constructor; cbn.
  - constructor; cbn.
    + set_solver.
    + intros a p. unfold whole_entry. cbn. now rewrite lookup_empty.
    + intros a i p (vec & H & _). cbn in H. now rewrite lookup_empty in H.
  - constructor.
  - intros e p _. cbn. split; [done|]. intros (s & [Hp _] & _). cbn in Hp. set_solver.
  - intros x. split; [done|]. now intros [_ [? ?]].
Qed.

(** *** Copying *)

(** The copies of the factors [todo] are missing. *)
Definition copying (cs F : Factors) (todo : list ptr) : Prop :=
  part_ok (J:=sound) F (fun _ _ => False) /\
  (forall q t, fset (heap F) (indexer F) q t -> exists p, p ∉ todo /\ fset (heap cs) (indexer cs) p t) /\
  (forall x, wf_consts x = true -> managed F x <-> exists p s, p ∉ todo /\ fset (heap cs) (indexer cs) p s /\ x ∈ ie_exprs s).

Lemma copy_step_book cs C F p todo F' : book cs C -> NoDup (p :: todo) -> p ∈ factors (indexer cs) ->
  copying cs F (p :: todo) -> copy_factor cs F p = Some F' -> copying cs F' todo.
Proof.
  intros Hcs Hnd Hp (HF & Hto & Hm) E. apply NoDup_cons in Hnd as [Hpt _]. unfold copy_factor in E.
  apply bind_Some in E as (s & Hs & E). assert (Hfs : fset (heap cs) (indexer cs) p s) by done.
  destruct (book_set _ _ _ _ Hcs Hfs) as [Os _].
  assert (Hown : forall x r t, x ∈ ie_exprs s -> fset (heap cs) (indexer cs) r t -> x ∈ ie_exprs t -> r = p).
  { intros x r t Hx Ht Hxt. assert (Hw : wf_consts x = true) by (pose proof (so_consts _ Os) as Hc; rewrite Forall_forall in Hc; auto).
    assert (E1 : rep_find (representative cs) x = Some p) by (apply (bk_rep _ _ Hcs); eauto).
    assert (E2 : rep_find (representative cs) x = Some r) by (apply (bk_rep _ _ Hcs); eauto). congruence. }
  pose proof (insert_set_ok (HJ:=sound_invariant) F s (fun _ _ => False) HF Os) as H. rewrite E in H.
  destruct H as (HF' & q & Hin).
  { intros r t (p' & Hp' & Ht)%Hto. split; [done|]. intros x Hx Hxt. rewrite (Hown x p' t Hx Ht Hxt) in Hp'. set_solver. }
  pose proof (in_fset _ _ _ _ Hin) as Hfs'. split_and!.
  - eapply part_ext; [|exact HF']. naive_solver.
  - intros r t [[-> ->]|Ht]%Hfs'; [eauto|]. apply Hto in Ht as (p' & Hp' & Ht). exists p'. set_solver.
  - intros x Hx. rewrite (in_managed _ _ _ _ Hin x Hx), (Hm x Hx). split.
    + intros [(p' & t & Hp' & Ht)|Hxs]; [exists p', t; set_solver|exists p, s; done].
    + intros (p' & t & Hp' & Ht & Hxt). destruct (decide (p' = p)) as [->|Hne].
      * right. now rewrite (fset_fun _ _ _ _ _ Hfs Ht).
      * left. exists p', t. set_solver.
Qed.

(** The copy constructor, if it returns. *)
Lemma copy_book F C F' : book F C -> copy_factors F = Some F' -> book F' C.
Proof.
  intros HF. unfold copy_factors.
  assert (H : forall l G, NoDup l -> (forall p, p ∈ l -> p ∈ factors (indexer F)) -> copying F G l ->
    foldM (copy_factor F) G l = Some F' -> copying F F' []).
  { induction l as [|p l IH]; intros G Hnd Hl HG E; cbn in E; [now injection E as <-|].
    apply bind_Some in E as (G1 & E1 & E). pose proof (copy_step_book F C G p l G1 HF Hnd ltac:(apply Hl; now left) HG E1) as H1.
    apply NoDup_cons in Hnd as [_ Hnd]. apply (IH G1); [done|set_solver|done..]. }
  intros E. apply H in E as (HF' & _ & Hm); [|apply NoDup_elements|intros p; now rewrite elem_of_elements|].
  - apply book_part in HF' as (Hx & Hk & Hr). constructor; [done..|]. intros x. rewrite (bk_known _ _ HF). unfold known.
    split; intros [Hw Hx']; (split; [done|]).
    + apply (Hm x Hw). destruct Hx' as [p Hp]. apply (bk_rep _ _ HF) in Hp as (s & Hs & Hin); [|done]. exists p, s. set_solver.
    + apply (Hm x Hw) in Hx' as (p & s & _ & Hs & Hin). exists p. apply (bk_rep _ _ HF); eauto.
  - pose proof book_empty as [Hx Hk Hr _]. split_and!.
    + apply book_part. done.
    + intros q t [Hq _]. cbn in Hq. set_solver.
    + intros x Hw. split; [intros [? [=]]|]. intros (p & s & Hn & [Hp _] & _). now rewrite elem_of_elements in Hn.
Qed.

#[export] Instance book_laws : FactorLaws book.
Proof.
  constructor.
  - exact book_empty.
  - intros F C C' H [H1 H2 H3 H4]. constructor; auto. intros x. now rewrite <- H.
  - intros F C e HF He. rewrite (bk_known _ _ HF). unfold known. tauto.
  - intros F C s out p t HF Hout Hp Ht. eapply book_set; [done|].
    split; [exact (intersection_sound _ _ _ _ _ (bk_sound _ _ HF) Hout Hp)|done].
  - intros F C e F' HF He Hn E. now apply (add_book F C e F').
  - intros F C D F' HF HD E. now apply (delete_book F C D F').
Qed.

End Book.
