(* ===== verification/ConstraintManager.v ===== *)
(** * The constraint manager

    [ConstraintManager] of src/lib/Expr/Constraints.cpp: the set of path
    constraints, with the equalities it simplifies new constraints by, the
    rewriting of constraints when an equality with a constant is added, and the
    partition into factors.

    The unordered sets are lists here; where the source iterates over one, the
    order of the list is the order of the iteration.  [toAddConstraints] has its
    back first.  A call of [visit] has a limit on its nesting, and the loop of
    [addConstraint] on its iterations ([OutOfFuel]); [Abort] is a failing assert
    or an iterator past the end. *)

From stdpp Require Import gmap strings.
From S2P Require Import Prelude APInt Expr ExprOrder ExprSem ExprCreate ExprCreateSound ExprTyping ExprVisitor ExprSafe ExprReplaceVisitor ExprUtil IndependentElementSet FactorIndex ConstraintFactors FactorDelete FactorBook.

(** ** State *)

(** [tables]: [visited] of [replaceVisitor], [visitedUN] and [replacedUN]. *)
Record ConstraintManager := mkCM {
  constraints : list Expr;
  cm_factors : Factors;
  equalities : list (Expr * Expr);
  tables : VState
}.

Definition empty_manager : ConstraintManager := mkCM [] no_factors [] (mkVState [] [] []).

(** The options of the command line the manager reads. *)
Class ManagerOptions := {
  RewriteEqualities : bool;
  UseIndependentSolver : bool
}.

Section Manager.
Context `{A : APIntOps} `{Opts : ExprOptions} `{MOpts : ManagerOptions} (UseVisitorHash : bool) (visit_fuel : nat).

(** *** The constructors *)

(** Neither fills [equalities]: the copy simplifies by the constraints added to it. *)
Definition ConstraintManager'create (_constraints : list Expr) : option ConstraintManager :=
  F ← factors_of _constraints; Some (mkCM _constraints F [] (mkVState [] [] [])).

Definition ConstraintManager'copy (cs : ConstraintManager) : option ConstraintManager :=
  F ← copy_factors (cm_factors cs); Some (mkCM (constraints cs) F [] (mkVState [] [] [])).

(** *** Maps keyed by expressions *)

Definition eq_erase (m : list (Expr * Expr)) (k : Expr) : list (Expr * Expr) :=
  filter (fun p => Expr_eqb k p.1 = false) m.
Definition eq_set (m : list (Expr * Expr)) (k v : Expr) : list (Expr * Expr) := (k, v) :: eq_erase m k.

Definition erase_expr (l : list Expr) (e : Expr) : list Expr := filter (fun x => Expr_eqb e x = false) l.

(** *** [simplifyExpr] *)

Definition simplifyExpr (cm : ConstraintManager) (e : Expr) : outcome (Expr * ConstraintManager) :=
  if is_constant e then Done (e, cm)
  else
    r ← or_fuel (replace UseVisitorHash visit_fuel (ExprReplaceVisitorMulti (equalities cm)) e (tables cm));
    Done (r.1, mkCM (constraints cm) (cm_factors cm) (equalities cm) r.2).

(** *** [rewriteConstraints] *)

(** [constraints], [deleteConstraints], [toAddConstraints], [changed], and the
    tables of the given visitor. *)
Record rewriting := mkRW {
  rw_constraints : list Expr;
  rw_delete : list Expr;
  rw_add : list Expr;
  rw_changed : bool;
  rw_tables : VState
}.

(** The replacement of one constraint. *)
Definition rewrite_one (V : ExprVisitor) (rw : rewriting) (e : Expr) : outcome rewriting :=
  r ← or_fuel (replace UseVisitorHash visit_fuel V e (rw_tables rw));
  if negb (Expr_eqb r.1 e)
  then Done (mkRW (erase_expr (rw_constraints rw) e) (rw_delete rw ++ [e]) (r.1 :: rw_add rw) true r.2)
  else Done (mkRW (rw_constraints rw) (rw_delete rw) (rw_add rw) (rw_changed rw) r.2).

Fixpoint rewrite_list (V : ExprVisitor) (rw : rewriting) (l : list Expr) : outcome rewriting :=
  match l with [] => Done rw | e :: l => rw ← rewrite_one V rw e; rewrite_list V rw l end.

(** The loop over [constraints] of the branch without [to_replace]: the iterator
    is incremented in the body and again in the loop's header. *)
Fixpoint rewrite_alternate (V : ExprVisitor) (rw : rewriting) (it : list Expr) : outcome rewriting :=
  match it with
  | [] => Done rw
  | e :: it =>
    rw ← rewrite_one V rw e;
    match it with [] => Abort | _ :: it => rewrite_alternate V rw it end
  end.

Definition rewriteConstraints (F : Factors) (V : ExprVisitor) (to_replace : option IndependentElementSet)
    (rw : rewriting) : outcome rewriting :=
  match to_replace with
  | Some to_replace =>
    _ ← or_abort (assert (length (ie_exprs to_replace) =? 1)%nat);
    indep_elemsets ← or_abort (getIntersection (indexer F) to_replace);
    sets ← or_abort (mapM (fun p => heap F !! p) (elements indep_elemsets));
    rewrite_list V rw (mjoin (ie_exprs <$> sets))
  | None => rewrite_alternate V rw (rw_constraints rw)
  end.

(** *** [updateEqualities] and [updateDeleteAdd] *)

(** The entry a constraint has in [equalities]. *)
Definition equality_of (e : Expr) : Expr * Expr :=
  match e with
  | CmpExpr Eq (ConstantExpr c) rhs => (rhs, ConstantExpr c)
  | _ => (e, ConstantExpr (APInt 1 1))
  end.

Definition updateEqualities (eqs : list (Expr * Expr)) (e : Expr) (deleteConstraints : list Expr) : list (Expr * Expr) :=
  foldl (fun eqs d => eq_erase eqs (equality_of d).1)
    (eq_set eqs (equality_of e).1 (equality_of e).2) deleteConstraints.

(** The null pointer; no factor is looked up without the independent solver. *)
Definition nullptr : ptr := 1%positive.

Definition updateDeleteAdd (F : Factors) (e : Expr) (deleteConstraints : list Expr) : option Factors :=
  rep ← foldM (fun rep d => _ ← rep_find rep d; Some (rep_erase rep d)) (representative F) deleteConstraints;
  Some (mkFactors (heap F) (indexer F) (rep_set nullptr rep e)).

(** *** [addConstraintInternal] *)

(** The end of the cases of [addConstraintInternal] that add [e]. *)
Definition insert_constraint (cm : ConstraintManager) (e : Expr) (deleteConstraints : list Expr) : outcome ConstraintManager :=
  let cs := insert_expr (constraints cm) e in
  let eqs := updateEqualities (equalities cm) e deleteConstraints in
  F ← or_abort (if UseIndependentSolver
                then F ← updateIndependentSetDelete (cm_factors cm) deleteConstraints; updateIndependentSetAdd F e
                else updateDeleteAdd (cm_factors cm) e deleteConstraints);
  Done (mkCM cs F eqs (tables cm)).

(** The rewriting of the constraints by [lhs == rhs]. *)
Definition rewrite_equality (cm : ConstraintManager) (lhs rhs : Expr) (toAdd : list Expr) : outcome rewriting :=
  let V := ExprReplaceVisitorSingle rhs lhs in
  let rw := mkRW (constraints cm) [] toAdd false (mkVState [] [] (replacedUN (tables cm))) in
  if UseIndependentSolver
  then
    to_replace ← or_abort (IndependentElementSet'create rhs);
    rewriteConstraints (cm_factors cm) V (Some to_replace) rw
  else rewriteConstraints (cm_factors cm) V None rw.

Fixpoint addConstraintInternal (e : Expr) (cm : ConstraintManager) (toAdd : list Expr)
    : outcome (ConstraintManager * list Expr * bool) :=
  if (match rep_find (representative (cm_factors cm)) e with Some _ => true | None => false end)
  then Done (cm, toAdd, false)
  else
    match e with
    | ConstantExpr c => _ ← or_abort (assert (isTrue c)); Done (cm, toAdd, false)
    | BinaryExpr And l r =>
      s ← addConstraintInternal l cm toAdd;
      let '(cm, toAdd, changed) := s in
      s ← addConstraintInternal r cm toAdd;
      let '(cm, toAdd, changed') := s in
      Done (cm, toAdd, changed || changed')
    | CmpExpr Eq (ConstantExpr c) rhs =>
      if RewriteEqualities && negb (isFalse c)
      then
        rw ← rewrite_equality cm (ConstantExpr c) rhs toAdd;
        cm ← insert_constraint
               (mkCM (rw_constraints rw) (cm_factors cm) (equalities cm)
                  (mkVState [] (visitedUN (rw_tables rw)) (replacedUN (rw_tables rw)))) e (rw_delete rw);
        Done (cm, rw_add rw, rw_changed rw)
      else cm ← insert_constraint cm e []; Done (cm, toAdd, false)
    | _ => cm ← insert_constraint cm e []; Done (cm, toAdd, false)
    end.

(** *** [addConstraint] *)

(** One iteration of the loop, for the constraint popped from [toAddConstraints]. *)
Inductive iteration := Return (b : bool) (cm : ConstraintManager) | Continue (cm : ConstraintManager) (toAdd : list Expr).

Definition addConstraint_body (cm : ConstraintManager) (toAdd_e : Expr) (toAdd : list Expr) : outcome iteration :=
  r ← simplifyExpr cm toAdd_e;
  let '(simplified, cm) := r in
  if Expr_isFalse simplified then Done (Return false cm)
  else if Expr_isTrue simplified then Done (Continue cm toAdd)
  else
    s ← addConstraintInternal simplified cm toAdd;
    let '(cm, toAdd, _) := s in
    Done (Continue cm toAdd).

Fixpoint addConstraint_loop (fuel : nat) (cm : ConstraintManager) (toAdd : list Expr) : outcome (bool * ConstraintManager) :=
  match toAdd with
  | [] => Done (true, cm)
  | e :: toAdd =>
    match fuel with
    | O => OutOfFuel
    | S fuel =>
      r ← addConstraint_body cm e toAdd;
      match r with
      | Return b cm => Done (b, cm)
      | Continue cm toAdd => addConstraint_loop fuel cm toAdd
      end
    end
  end.

Definition addConstraint (fuel : nat) (cm : ConstraintManager) (e : Expr) : outcome (bool * ConstraintManager) :=
  if (match rep_find (representative (cm_factors cm)) e with Some _ => true | None => false end)
  then Done (true, cm)
  else addConstraint_loop fuel cm [e].

End Manager.

(** ** Correctness *)

Notation true_at rho e := (eval rho e = Some (APInt 1 1)).
Notation has_value rho e := (is_Some (eval rho e)).

Lemma bool_value rho e v : has_width 1 e -> eval rho e = Some v -> v = APInt 1 1 \/ v = APInt 1 0.
Proof.
  intros [_ Hw] Hv. pose proof (eval_valid _ _ _ Hv) as V. rewrite (eval_width _ _ _ Hv) in Hw.
  destruct (width1_cases v V Hw) as [E|E]; destruct v; cbn in *; subst; auto.
Qed.

Lemma and_true rho l r : true_at rho (BinaryExpr And l r) -> true_at rho l /\ true_at rho r.
Proof.
  intros H. pose proof H as H'. apply eval_binary_inv in H as (x & y & Hx & Hy & Vx & Vy & Hw & Hwv & Hs). cbn in Hwv, Hs.
  rewrite Hx, Hy. destruct x as [wx x], y as [wy y]. cbn in *. subst wx wy.
  injection Hs as Hs. destruct (width1_cases _ Vx eq_refl) as [E|E], (width1_cases _ Vy eq_refl) as [E'|E']; cbn in *; subst; done.
Qed.

Lemma and_values rho l r : has_value rho (BinaryExpr And l r) -> has_value rho l /\ has_value rho r.
Proof. intros [v H]. apply eval_binary_inv in H as (x & y & Hx & Hy & _). eauto. Qed.

Lemma true_and rho l r : true_at rho l -> true_at rho r -> true_at rho (BinaryExpr And l r).
Proof. intros Hl Hr. cbn. rewrite Hl, Hr. reflexivity. Qed.

(** What a constraint says is right where the constraint is true. *)
Lemma equality_rewrites (P : valuation -> Prop) c : has_width 1 c -> (forall rho, P rho -> true_at rho c) ->
  replacement P (equality_of c).
Proof.
  intros Hc HP.
  assert (Hgen : replacement P (c, ConstantExpr (APInt 1 1))).
  { split; [apply Hc|]. intros Hnc. split; [split; [split; [reflexivity|symmetry; apply Hc]|split; [done|congruence]]|].
    intros rho v Hrho Hv. cbn [fst snd] in *. rewrite (HP rho Hrho) in Hv. injection Hv as <-. reflexivity. }
  destruct c; try exact Hgen. destruct k; try exact Hgen. destruct c1; try exact Hgen. cbn [equality_of]. clear Hgen.
  apply hw_cmp_inv in Hc as (_ & [Hl Wl] & [Hr Wr]). split; [done|]. intros Hnc.
  split; [split; [now split|split; [done|cbn [fst] in *; congruence]]|].
  cbn [fst snd]. intros rho v Hrho Hv. specialize (HP rho Hrho).
  change ((x ← eval rho (ConstantExpr value); y ← eval rho c2; eval_cmp Eq x y) = Some (APInt 1 1)) in HP.
  apply bind_Some in HP as (x & Hx & HP). apply bind_Some in HP as (y & Hy & HP). rewrite Hv in Hy. injection Hy as <-.
  apply eval_cmp_inv in HP as [Hw Hs]. rewrite Hx. f_equal.
  destruct x as [wx x], v as [wv v]. cbn in *. subst wv. f_equal. destruct (Z.eqb_spec x v); [done|]. done.
Qed.

(** Every other constraint: the ones at even positions. *)
Fixpoint alternate (l : list Expr) : list Expr :=
  match l with [] => [] | e :: l => e :: match l with [] => [] | _ :: l => alternate l end end.

Lemma alternate_sub n : forall l, (length l <= n)%nat -> forall x, x ∈ alternate l -> x ∈ l.
Proof.
  induction n as [|n IH]; intros [|e [|e' l]] Hn x; cbn in *; try lia; try set_solver.
  rewrite !elem_of_cons. intros [?|Hx]; [auto|]. right; right. apply IH; [lia|done].
Qed.

Section Correct.
Context `{A : APIntOps} {AS : APIntSpec A} `{Opts : ExprOptions} `{MOpts : ManagerOptions} (UseVisitorHash : bool) (visit_fuel : nat).
Context {Inv : Factors -> (Expr -> Prop) -> Prop} `{FL : !FactorLaws Inv}.

(** *** Deleting from sets and maps *)

Lemma erase_expr_elem l e x : wf_consts e = true -> Forall (fun x => wf_consts x = true) l ->
  x ∈ erase_expr l e <-> x ∈ l /\ x <> e.
Proof.
  intros He Hl. unfold erase_expr. etransitivity; [apply list_elem_of_filter|]. etransitivity; [apply and_comm|].
  apply and_iff_compat_l'. intros Hx. rewrite Forall_forall in Hl. specialize (Hl x Hx).
  rewrite <- not_true_iff_false, Expr_eqb_eq by done. naive_solver.
Qed.

Lemma eq_erase_elem m k p : p ∈ eq_erase m k -> p ∈ m /\ Expr_eqb k p.1 = false.
Proof. intros H. apply list_elem_of_filter in H. tauto. Qed.

(** The entries after the erasures: the new one or an old one, and none of a
    deleted constraint. *)
Lemma updateEqualities_elem eqs e D p : p ∈ updateEqualities eqs e D ->
  (p = equality_of e \/ p ∈ eqs) /\ forall d, d ∈ D -> Expr_eqb (equality_of d).1 p.1 = false.
Proof.
  unfold updateEqualities.
  assert (H : forall D m, p ∈ foldl (fun eqs d => eq_erase eqs (equality_of d).1) m D ->
    p ∈ m /\ forall d, d ∈ D -> Expr_eqb (equality_of d).1 p.1 = false).
  { clear. induction D as [|d D IH]; cbn; intros m H; [set_solver|]. apply IH in H as [H Hd].
    apply eq_erase_elem in H as [H E]. split; [done|]. intros x [->|Hx]%elem_of_cons; auto. }
  intros [Hp Hd]%H. split; [|done]. unfold eq_set in Hp. apply elem_of_cons in Hp as [->|Hp].
  - left. now destruct (equality_of e).
  - right. now apply eq_erase_elem in Hp.
Qed.

(** *** The invariant *)

(** The constraints of the set have a representative, and no others. *)
Definition tracks (F : Factors) (C : Expr -> Prop) : Prop :=
  if UseIndependentSolver then Inv F C
  else Forall (fun q => wf_consts q.1 = true) (representative F) /\ forall x, wf_consts x = true -> managed F x <-> C x.

Record cm_ok (cm : ConstraintManager) : Prop := {
  ck_typed : Forall (has_width 1) (constraints cm);
  ck_factors : tracks (cm_factors cm) (.∈ constraints cm);
  ck_equalities p : p ∈ equalities cm -> exists c, c ∈ constraints cm /\ p = equality_of c;
  ck_tables : rtables_ok (fun rho => models rho (constraints cm)) (tables cm)
}.

Lemma tracks_managed F C e : tracks F C -> wf_consts e = true -> managed F e <-> C e.
Proof. unfold tracks. destruct UseIndependentSolver; [intros; now eapply fl_managed|intros [_ H]; auto]. Qed.

Lemma tracks_ext F C C' : (forall x, C x <-> C' x) -> tracks F C -> tracks F C'.
Proof.
  intros HC. unfold tracks. destruct UseIndependentSolver; [now apply fl_ext|]. intros [? H]. split; [done|].
  intros x Hx. rewrite <- HC. auto.
Qed.

Lemma empty_manager_ok : cm_ok empty_manager.
Proof.
  constructor; cbn; [constructor| |set_solver|constructor; constructor].
  apply (tracks_ext _ (fun _ => False)); [set_solver|]. unfold tracks. destruct UseIndependentSolver; [apply fl_empty|].
  split; [constructor|]. intros x _. split; [|done]. intros [? [=]].
Qed.

Lemma typed_wf l : Forall (has_width 1) l -> Forall (fun x => wf_consts x = true) l.
Proof. intros H. eapply Forall_impl; [exact H|]. intros x. apply has_width_wf. Qed.

(** The equalities are right where the constraints are true. *)
Lemma equalities_right cm : cm_ok cm ->
  Forall (replacement (fun rho => models rho (constraints cm))) (equalities cm).
Proof.
  intros Hcm. apply Forall_forall. intros p (c & Hc & ->)%(ck_equalities _ Hcm). pose proof (ck_typed _ Hcm) as Ht.
  rewrite Forall_forall in Ht. apply equality_rewrites; [auto|]. intros rho Hrho. unfold models in Hrho.
  rewrite Forall_forall in Hrho. auto.
Qed.

Lemma simplifyExpr_ok cm e e' cm' : cm_ok cm -> has_width 1 e -> simplifyExpr UseVisitorHash visit_fuel cm e = Done (e', cm') ->
  cm_ok cm' /\ constraints cm' = constraints cm /\ cm_factors cm' = cm_factors cm /\
  rewrites (fun rho => models rho (constraints cm)) e e'.
Proof.
  intros Hcm He E. unfold simplifyExpr in E. destruct (is_constant e).
  { injection E as <- <-. split_and!; [done..|]. apply rewrites_refl, He. }
  destruct (replace _ _ _ _ _) as [[r st]|] eqn:Er; [|done]. cbn in E. injection E as <- <-. cbn [constraints cm_factors].
  pose proof (replace_rewrites UseVisitorHash _ _ (Multi_replacing _ _ (equalities_right cm Hcm)) visit_fuel e (proj1 He)
    (tables cm) (ck_tables _ Hcm)) as H. rewrite Er in H. destruct H as [Hr Hst].
  split_and!; [|done..]. destruct Hcm. now constructor.
Qed.

(** *** Rewriting *)

(** [pairs]: the constraints that were rewritten, with their replacements. *)
Record rewritten (P : valuation -> Prop) (from : list Expr) (rw rw' : rewriting) (pairs : list (Expr * Expr)) : Prop := {
  rn_delete : rw_delete rw' = rw_delete rw ++ pairs.*1;
  rn_add : rw_add rw' = rev pairs.*2 ++ rw_add rw;
  rn_pairs : Forall (fun p => p.1 ∈ from /\ rewrites P p.1 p.2) pairs;
  rn_constraints x : x ∈ rw_constraints rw' <-> x ∈ rw_constraints rw /\ x ∉ pairs.*1;
  rn_consts : Forall (fun x => wf_consts x = true) (rw_constraints rw');
  rn_tables : rtables_ok P (rw_tables rw')
}.

Section Rewriting.
Context (P : valuation -> Prop) (V : ExprVisitor) (HV : replacing P V).

Lemma rewritten_refl from rw : Forall (fun x => wf_consts x = true) (rw_constraints rw) -> rtables_ok P (rw_tables rw) ->
  rewritten P from rw rw [].
Proof. intros H1 H2. constructor; auto; cbn; [now rewrite app_nil_r|set_solver]. Qed.

Lemma rewritten_trans from from' rw rw1 rw2 ps qs : rewritten P from rw rw1 ps -> rewritten P from' rw1 rw2 qs ->
  (forall x, x ∈ from -> x ∈ from') -> rewritten P from' rw rw2 (ps ++ qs).
Proof.
  intros [D1 A1 P1 C1 W1 T1] [D2 A2 P2 C2 W2 T2] Hsub. constructor; auto.
  - rewrite D2, D1, fmap_app, app_assoc. done.
  - rewrite A2, A1, fmap_app, rev_app_distr, app_assoc. done.
  - apply Forall_app. split; [|done]. eapply Forall_impl; [exact P1|]. intros p [? ?]. auto.
  - intros x. rewrite C2, C1, fmap_app, not_elem_of_app. tauto.
Qed.

Lemma rewrite_one_ok rw e rw' : Forall (fun x => wf_consts x = true) (rw_constraints rw) -> has_width 1 e ->
  rtables_ok P (rw_tables rw) -> rewrite_one UseVisitorHash visit_fuel V rw e = Done rw' ->
  exists pairs, rewritten P [e] rw rw' pairs.
Proof.
  intros Hc He Ht E. unfold rewrite_one in E. destruct (replace _ _ _ _ _) as [[r st]|] eqn:Er; [|done]. cbn in E.
  pose proof (replace_rewrites UseVisitorHash P V HV visit_fuel e (proj1 He) _ Ht) as H. rewrite Er in H. destruct H as [Hr Hst].
  destruct (negb (Expr_eqb r e)); injection E as <-.
  - exists [(e, r)]. pose proof (has_width_wf _ _ He) as Hwe. constructor; cbn; auto.
    + apply Forall_singleton. split; [now left|done].
    + intros x. rewrite (erase_expr_elem _ _ _ Hwe Hc), not_elem_of_cons. set_solver.
    + rewrite Forall_forall in *. intros x Hx. apply erase_expr_elem in Hx as [Hx _]; [auto|done|now apply Forall_forall].
  - exists []. constructor; cbn; auto; [now rewrite app_nil_r|set_solver].
Qed.

Lemma rewrite_list_ok l : forall rw rw', Forall (fun x => wf_consts x = true) (rw_constraints rw) -> Forall (has_width 1) l ->
  rtables_ok P (rw_tables rw) -> rewrite_list UseVisitorHash visit_fuel V rw l = Done rw' ->
  exists pairs, rewritten P l rw rw' pairs.
Proof.
  induction l as [|e l IH]; intros rw rw' Hc Hl Ht E; cbn in E; [injection E as <-; exists []; now apply rewritten_refl|].
  apply Forall_cons in Hl as [He Hl]. destruct (rewrite_one _ _ _ _ _) as [rw1| |] eqn:E1; try done. cbn in E.
  destruct (rewrite_one_ok _ _ _ Hc He Ht E1) as [ps H1].
  destruct (IH rw1 rw' (rn_consts _ _ _ _ _ H1) Hl (rn_tables _ _ _ _ _ H1) E) as [qs H2]. exists (ps ++ qs).
  apply (rewritten_trans [e] (e :: l) rw rw1 rw'); [done| |set_solver]. destruct H2 as [? ? H2 ? ? ?]. constructor; auto.
  eapply Forall_impl; [exact H2|]. intros p [? ?]. split; [now right|done].
Qed.

Lemma rewrite_alternate_list n : forall l, (length l <= n)%nat -> forall rw rw',
  rewrite_alternate UseVisitorHash visit_fuel V rw l = Done rw' ->
  rewrite_list UseVisitorHash visit_fuel V rw (alternate l) = Done rw'.
Proof.
  induction n as [|n IH]; intros [|e [|e' l]] Hn rw rw' E; cbn in Hn; try lia; try done.
  - cbn in E. destruct (rewrite_one _ _ _ _ _); done.
  - cbn [rewrite_alternate alternate rewrite_list] in *. destruct (rewrite_one _ _ _ _ _) as [rw1| |]; try done.
    cbn [mbind outcome_bind] in *. apply IH; [lia|done].
Qed.

End Rewriting.

(** The rewriting by a new equality [e], in both modes. *)
Lemma rewrite_equality_ok cm c rhs toAdd rw : let e := CmpExpr Eq (ConstantExpr c) rhs in cm_ok cm -> has_width 1 e ->
  rewrite_equality UseVisitorHash visit_fuel cm (ConstantExpr c) rhs toAdd = Done rw ->
  exists pairs, rewritten (fun rho => true_at rho e) (constraints cm)
    (mkRW (constraints cm) [] toAdd false (mkVState [] [] (replacedUN (tables cm)))) rw pairs.
Proof.
  intros e Hcm He E. pose proof (ck_typed _ Hcm) as Ht. pose proof (typed_wf _ Ht) as Hwf.
  assert (HV : replacing (fun rho => true_at rho e) (ExprReplaceVisitorSingle rhs (ConstantExpr c))).
  { apply Single_replacing. now apply (equality_rewrites _ e He). }
  set (rw0 := mkRW _ _ _ _ _) in *.
  assert (Hst : rtables_ok (fun rho => true_at rho e) (rw_tables rw0)).
  { constructor; [constructor..|]. exact (rreplacedUN_ok _ _ (ck_tables _ Hcm)). }
  assert (Hsub : forall l, (forall x, x ∈ l -> x ∈ constraints cm) ->
    rewrite_list UseVisitorHash visit_fuel (ExprReplaceVisitorSingle rhs (ConstantExpr c)) rw0 l = Done rw ->
    exists pairs, rewritten (fun rho => true_at rho e) (constraints cm) rw0 rw pairs).
  { intros l Hl El. destruct (rewrite_list_ok _ _ HV l rw0 rw Hwf) as [ps H]; [|done|done|].
    - rewrite Forall_forall in *. auto.
    - exists ps. destruct H as [? ? H ? ? ?]. constructor; auto. eapply Forall_impl; [exact H|]. intros p [? ?]. auto. }
  unfold rewrite_equality in E. destruct UseIndependentSolver eqn:EI.
  - destruct (IndependentElementSet'create rhs) as [s|]; [|done]. cbn [or_abort mbind outcome_bind rewriteConstraints] in E.
    destruct (assert _); [|done]. cbn [or_abort mbind outcome_bind] in E.
    destruct (getIntersection _ s) as [out|] eqn:Eo; [|done]. cbn [or_abort mbind outcome_bind] in E.
    destruct (mapM _ _) as [sets|] eqn:Em; [|done]. cbn [or_abort mbind outcome_bind] in E.
    eapply Hsub; [|exact E]. intros x Hx. apply list_elem_of_join in Hx as (es & Hx & Hes).
    apply list_elem_of_fmap in Hes as (t & -> & Ht'). apply mapM_Some_1 in Em.
    apply list_elem_of_lookup in Ht' as [i Hi]. destruct (Forall2_lookup_r _ _ _ _ _ Em Hi) as (p & Hp & Hh).
    apply list_elem_of_lookup_2, elem_of_elements in Hp. pose proof (ck_factors _ Hcm) as Hf. unfold tracks in Hf. rewrite EI in Hf.
    pose proof (fl_intersection _ _ _ _ _ _ Hf Eo Hp Hh) as Hall. rewrite Forall_forall in Hall. auto.
  - apply (rewrite_alternate_list _ (length (constraints cm))) in E; [|done].
    eapply Hsub; [|exact E]. exact (alternate_sub (length (constraints cm)) (constraints cm) ltac:(done)).
Qed.

(** *** Inserting *)

Lemma updateDeleteAdd_ok F C e D F' :
  Forall (fun q => wf_consts q.1 = true) (representative F) -> (forall x, wf_consts x = true -> managed F x <-> C x) ->
  wf_consts e = true -> Forall (fun x => wf_consts x = true) D -> updateDeleteAdd F e D = Some F' ->
  Forall (fun q => wf_consts q.1 = true) (representative F') /\
  forall x, wf_consts x = true -> managed F' x <-> (C x /\ x ∉ D) \/ x = e.
Proof.
  intros Hk Hm He HD E. unfold updateDeleteAdd in E. apply bind_Some in E as (rep & E & [= <-]). cbn [representative].
  assert (Hrep : Forall (fun q => wf_consts q.1 = true) rep /\
    forall x, wf_consts x = true -> rep_find rep x = if decide (x ∈ D) then None else rep_find (representative F) x).
  { clear Hm. revert Hk E. generalize (representative F). clear F. induction HD as [|d D Hd HD IH]; intros m Hk E; cbn in E.
    - injection E as <-. split; [done|]. intros x Hx. now rewrite decide_False by set_solver.
    - apply bind_Some in E as (m1 & E & E'). apply bind_Some in E as (q & _ & [= <-]).
      destruct (IH _ (rep_erase_keys _ d Hk) E') as [Hk' Hr]. split; [done|]. intros x Hx. rewrite Hr, rep_find_erase by done.
      destruct (decide (x ∈ D)); [now rewrite decide_True by set_solver|].
      destruct (decide (x = d)) as [->|]; [now rewrite decide_True by set_solver|]. now rewrite decide_False by set_solver. }
  destruct Hrep as [Hk' Hr]. split; [constructor; [done|now apply rep_erase_keys]|].
  intros x Hx. unfold managed. cbn [representative]. change (rep_set nullptr rep e) with (foldl (rep_set nullptr) rep [e]).
  rewrite rep_find_sets; [|done|now apply Forall_singleton|done]. rewrite Hr by done. specialize (Hm x Hx). unfold managed in Hm.
  destruct (decide (x ∈ [e])) as [->%list_elem_of_singleton|Hne]; [split; [auto|eauto]|].
  destruct (decide (x ∈ D)); [split; [intros [? ?]; done|]|]; set_solver.
Qed.

(** The factors after deleting [D] and adding [e]. *)
Lemma update_tracks F C e D F' : tracks F C -> wf_consts e = true -> ~ C e -> Forall C D ->
  Forall (fun x => wf_consts x = true) D ->
  (if UseIndependentSolver then F1 ← updateIndependentSetDelete F D; updateIndependentSetAdd F1 e
   else updateDeleteAdd F e D) = Some F' ->
  tracks F' (fun x => (C x /\ x ∉ D) \/ x = e).
Proof.
  intros HF He Hn HD HDc E. unfold tracks in *. destruct UseIndependentSolver.
  - apply bind_Some in E as (F1 & E1 & E). eapply fl_add; [eapply fl_delete; eauto|done|tauto|done].
  - destruct HF as [Hk Hm]. exact (updateDeleteAdd_ok F C e D F' Hk Hm He HDc E).
Qed.

Lemma insert_constraint_ok C F eqs C1 st e D cm' :
  Forall (has_width 1) C -> has_width 1 e -> e ∉ C -> tracks F (.∈ C) ->
  (forall p, p ∈ eqs -> exists c, c ∈ C /\ p = equality_of c) ->
  (forall x, x ∈ C1 <-> x ∈ C /\ x ∉ D) -> Forall (.∈ C) D ->
  rtables_ok (fun rho => models rho C1 /\ true_at rho e) st ->
  insert_constraint (mkCM C1 F eqs st) e D = Done cm' ->
  cm_ok cm' /\ forall x, x ∈ constraints cm' <-> x ∈ C1 \/ x = e.
Proof.
  intros HC He Hn HF Heq HC1 HD Hst E. unfold insert_constraint in E. cbn [constraints equalities cm_factors tables] in E.
  destruct (if UseIndependentSolver then _ else _) as [F'|] eqn:EF; [|done]. cbn in E. injection E as <-. cbn [constraints].
  pose proof (has_width_wf _ _ He) as Hwe. pose proof (typed_wf _ HC) as HCw.
  assert (HDw : Forall (fun x => wf_consts x = true) D) by (rewrite Forall_forall in *; auto).
  assert (HC1w : Forall (fun x => wf_consts x = true) C1) by (rewrite Forall_forall in *; intros x [? _]%HC1; auto).
  assert (Hin : forall x, x ∈ insert_expr C1 e <-> x ∈ C1 \/ x = e) by (intros; now apply insert_expr_elem).
  split; [|done]. constructor; cbn [constraints cm_factors equalities tables].
  - rewrite Forall_forall in *. intros x [[? _]%HC1| ->]%Hin; auto.
  - apply (tracks_ext _ (fun x => (x ∈ C /\ x ∉ D) \/ x = e)); [intros x; now rewrite Hin, HC1|].
    now apply (update_tracks F (.∈ C) e D).
  - intros p Hp. apply updateEqualities_elem in Hp as [[->|Hp] Hd]; [exists e; split; [apply Hin; auto|done]|].
    apply Heq in Hp as (c & Hc & ->). exists c. split; [|done]. apply Hin. left. apply HC1. split; [done|]. intros HcD.
    specialize (Hd c HcD). rewrite Expr_eqb_refl in Hd; [done|].
    rewrite Forall_forall in HC. destruct (equality_rewrites (fun _ => False) c) as [Hw _]; [auto|done|].
    now apply well_typed_wf_mut.
  - apply (rtables_sub _ (fun rho => models rho (insert_expr C1 e))) in Hst; [done|]. intros rho Hrho. unfold models in *.
    rewrite Forall_forall in *. split; [intros x Hx|]; apply Hrho, Hin; auto.
Qed.

(** *** Adding one simplified constraint *)

Notation all_safe := (Forall (fun c => safe c = true)).

(** The effect of adding [e]: the manager and the constraints still to be added
    have the same models as before together with [e]. *)
Record added (cm : ConstraintManager) (e : Expr) (toAdd : list Expr) (cm' : ConstraintManager) (toAdd' : list Expr) : Prop := {
  ad_ok : cm_ok cm';
  ad_typed : Forall (has_width 1) toAdd -> Forall (has_width 1) toAdd';
  ad_safe : all_safe (constraints cm) -> safe e = true -> all_safe toAdd -> all_safe (constraints cm') /\ all_safe toAdd';
  ad_values rho : Forall (fun c => has_value rho c) (constraints cm) -> has_value rho e ->
    Forall (fun c => has_value rho c) (constraints cm');
  ad_forward rho : models rho (constraints cm) -> true_at rho e -> models rho toAdd ->
    models rho (constraints cm') /\ models rho toAdd';
  ad_backward rho : Forall (fun c => has_value rho c) (constraints cm) -> has_value rho e ->
    models rho (constraints cm') -> models rho toAdd' ->
    models rho (constraints cm) /\ true_at rho e /\ models rho toAdd
}.

Lemma added_nothing cm e toAdd : cm_ok cm ->
  (forall rho, models rho (constraints cm) -> has_value rho e -> true_at rho e) -> added cm e toAdd cm toAdd.
Proof. intros Hcm He. constructor; auto. Qed.

Lemma added_and cm l r toAdd cm1 toAdd1 cm2 toAdd2 : added cm l toAdd cm1 toAdd1 -> added cm1 r toAdd1 cm2 toAdd2 ->
  added cm (BinaryExpr And l r) toAdd cm2 toAdd2.
Proof.
  intros H1 H2. constructor.
  - apply (ad_ok _ _ _ _ _ H2).
  - intros. now apply (ad_typed _ _ _ _ _ H2), (ad_typed _ _ _ _ _ H1).
  - cbn. intros HC [Hl Hr]%andb_true_iff HT. destruct (ad_safe _ _ _ _ _ H1 HC Hl HT). now apply (ad_safe _ _ _ _ _ H2).
  - intros rho HC [Hl Hr]%and_values. apply (ad_values _ _ _ _ _ H2); [|done]. now apply (ad_values _ _ _ _ _ H1).
  - intros rho HC [Hl Hr]%and_true HT. destruct (ad_forward _ _ _ _ _ H1 rho HC Hl HT).
    now apply (ad_forward _ _ _ _ _ H2).
  - intros rho HC [Hl Hr]%and_values HC2 HT2. pose proof (ad_values _ _ _ _ _ H1 rho HC Hl) as HC1.
    destruct (ad_backward _ _ _ _ _ H2 rho HC1 Hr HC2 HT2) as (M1 & Tr & MT1).
    destruct (ad_backward _ _ _ _ _ H1 rho HC Hl M1 MT1) as (M & Tl & MT). split_and!; [done|now apply true_and|done].
Qed.

(** A constraint that is inserted, with the constraints [pairs] rewritten. *)
Lemma added_inserted cm e toAdd cm' pairs (C1 : list Expr) : cm_ok cm' ->
  (forall x, x ∈ constraints cm' <-> x ∈ C1 \/ x = e) ->
  (forall x, x ∈ C1 <-> x ∈ constraints cm /\ x ∉ pairs.*1) ->
  Forall (fun p => has_width 1 p.1 /\ p.1 ∈ constraints cm /\ rewrites (fun rho => true_at rho e) p.1 p.2) pairs ->
  added cm e toAdd cm' (rev pairs.*2 ++ toAdd).
Proof.
  intros Hcm' HC' HC1 Hp. rewrite Forall_forall in Hp.
  assert (Hnew : forall x, x ∈ rev pairs.*2 <-> exists d, (d, x) ∈ pairs).
  { intros x. rewrite <- (Permutation_rev pairs.*2), list_elem_of_fmap. split; [intros ([d y] & -> & ?); eauto|].
    intros [d ?]. now exists (d, x). }
  constructor; [done|..]; unfold models.
  - intros HT. apply Forall_app. split; [|done]. apply Forall_forall. intros x (d & Hd)%Hnew.
    destruct (Hp _ Hd) as ([_ Wd] & _ & [[Hx _] _]). cbn in *. now rewrite <- Wd.
  - intros HC He HT. rewrite ?Forall_forall in *. split.
    + intros x [[? _]%HC1| ->]%HC'; auto.
    + intros x [(d & Hd)%Hnew|Hx]%elem_of_app; [|auto]. destruct (Hp _ Hd) as (_ & HdC & [[_ [Hs _]] _]). cbn in *. auto.
  - intros rho HC He. rewrite Forall_forall in *. intros x [[? _]%HC1| ->]%HC'; auto.
  - intros rho HC He HT. rewrite ?Forall_forall in *. split.
    + intros x [[? _]%HC1| ->]%HC'; auto.
    + intros x [(d & Hd)%Hnew|Hx]%elem_of_app; [|auto]. destruct (Hp _ Hd) as (_ & HdC & [_ Hv]). cbn in *. eauto.
  - intros rho HC _ HM HT. apply Forall_app in HT as [HN HT]. rewrite !Forall_forall in *.
    assert (He : true_at rho e) by (apply HM, HC'; auto). split_and!; [|done|done].
    intros x Hx. destruct (decide (x ∈ pairs.*1)) as [Hd|Hd].
    + apply list_elem_of_fmap in Hd as ([d y] & -> & Hd). cbn in *. destruct (Hp _ Hd) as (_ & _ & [_ Hv]). cbn in Hv.
      destruct (HC d Hx) as [v Ev]. pose proof (Hv rho v He Ev) as Ey. rewrite (HN y) in Ey by (apply Hnew; eauto). congruence.
    + apply HM, HC'. left. now apply HC1.
Qed.

Lemma insert_plain cm e toAdd cm' : cm_ok cm -> has_width 1 e -> e ∉ constraints cm ->
  insert_constraint cm e [] = Done cm' -> added cm e toAdd cm' toAdd.
Proof.
  intros Hcm He Hn E. destruct cm as [C F eqs st]. cbn in Hn. destruct Hcm as [HC HF Heq Hst]. cbn in HC, HF, Heq, Hst.
  destruct (insert_constraint_ok C F eqs C st e [] cm') as [Hcm' HC']; auto; [set_solver| |].
  { apply (rtables_sub (fun rho => models rho C)); [now intros rho [? _]|done]. }
  change (added (mkCM C F eqs st) e toAdd cm' (rev ([] : list (Expr * Expr)).*2 ++ toAdd)).
  apply (added_inserted _ _ _ _ _ C); [done|done|cbn; set_solver|constructor].
Qed.

Lemma insert_equality cm c rhs toAdd rw cm' : let e := CmpExpr Eq (ConstantExpr c) rhs in
  cm_ok cm -> has_width 1 e -> e ∉ constraints cm ->
  rewrite_equality UseVisitorHash visit_fuel cm (ConstantExpr c) rhs toAdd = Done rw ->
  insert_constraint (mkCM (rw_constraints rw) (cm_factors cm) (equalities cm)
    (mkVState [] (visitedUN (rw_tables rw)) (replacedUN (rw_tables rw)))) e (rw_delete rw) = Done cm' ->
  added cm e toAdd cm' (rw_add rw).
Proof.
  intros e Hcm He Hn Erw E. destruct (rewrite_equality_ok cm c rhs toAdd rw Hcm He Erw) as [pairs [HD HA HP HC1 _ Hst]].
  cbn [rw_delete rw_add rw_constraints app] in HD, HA, HC1. rewrite HD in E. rewrite HA.
  pose proof (ck_typed _ Hcm) as Ht. rewrite Forall_forall in HP.
  destruct (insert_constraint_ok (constraints cm) (cm_factors cm) (equalities cm) (rw_constraints rw)
    (mkVState [] (visitedUN (rw_tables rw)) (replacedUN (rw_tables rw))) e pairs.*1 cm') as [Hcm' HC']; auto.
  - apply Hcm.
  - apply Hcm.
  - apply Forall_forall. intros x ([d y] & -> & Hd)%list_elem_of_fmap. now apply (HP (d, y)).
  - destruct Hst as [_ H2 H3]. apply (rtables_sub (fun rho => true_at rho e)); [now intros rho [_ ?]|].
    constructor; [constructor|done|done].
  - apply (added_inserted _ _ _ _ _ (rw_constraints rw)); [done..|]. apply Forall_forall. intros p Hp.
    destruct (HP p Hp) as [? ?]. rewrite Forall_forall in Ht. auto.
Qed.

(** The test for a duplicate. *)
Lemma duplicate_ok cm e : cm_ok cm -> wf_consts e = true ->
  match rep_find (representative (cm_factors cm)) e with Some _ => e ∈ constraints cm | None => e ∉ constraints cm end.
Proof.
  intros Hcm He. pose proof (tracks_managed _ _ _ (ck_factors _ Hcm) He) as H. unfold managed in H.
  destruct (rep_find _ e); [apply H; eauto|]. intros Hin. apply H in Hin as [? ?]. done.
Qed.

Lemma addConstraintInternal_ok e : forall cm toAdd cm' toAdd' b, cm_ok cm -> has_width 1 e ->
  addConstraintInternal UseVisitorHash visit_fuel e cm toAdd = Done (cm', toAdd', b) -> added cm e toAdd cm' toAdd'.
Proof.
  induction e; intros cm toAdd cm' toAdd' b Hcm He E;
    pose proof (duplicate_ok cm _ Hcm (has_width_wf _ _ He)) as Hdup; cbn [addConstraintInternal] in E;
    (destruct (rep_find _ _) as [q|];
     [injection E as <- <- <-; apply added_nothing; [done|]; intros rho HM _;
      unfold models in HM; rewrite Forall_forall in HM; auto|]).
  all: try (destruct (insert_constraint _ _ _) as [cm1| |] eqn:Ei; [|done..]; injection E as <- <- <-; now apply insert_plain).
  - destruct (isTrue value) eqn:Et; [|done]. injection E as <- <- <-. apply added_nothing; [done|].
    intros rho _ [v Hv]. apply eval_const_inv in Hv as [-> V]. rewrite isTrue_spec in Et by done.
    apply andb_true_iff in Et as [Ew%Z.eqb_eq Ev%negb_true_iff]. cbn. rewrite V.
    destruct (width1_cases value V Ew) as [E0|E1]; [rewrite E0 in Ev; done|]. destruct value. cbn in *. congruence.
  - assert (Hplain : (cm1 ← insert_constraint cm (BinaryExpr k e1 e2) []; Done (cm1, toAdd, false)) = Done (cm', toAdd', b) ->
      added cm (BinaryExpr k e1 e2) toAdd cm' toAdd').
    { destruct (insert_constraint _ _ _) as [cm1| |] eqn:Ei; [|done..]. cbn. intros [= <- <- <-]. now apply insert_plain. }
    destruct k; try (now apply Hplain). clear Hplain. apply hw_binary_inv in He as [Hl Hr].
    destruct (addConstraintInternal _ _ e1 cm toAdd) as [[[cm1 toAdd1] b1]| |] eqn:E1; [|done..]. cbn in E.
    destruct (addConstraintInternal _ _ e2 cm1 toAdd1) as [[[cm2 toAdd2] b2]| |] eqn:E2; [|done..]. cbn in E.
    injection E as <- <- <-. pose proof (IHe1 _ _ _ _ _ Hcm Hl E1) as H1.
    exact (added_and _ _ _ _ _ _ _ _ H1 (IHe2 _ _ _ _ _ (ad_ok _ _ _ _ _ H1) Hr E2)).
  - assert (Hplain : (cm1 ← insert_constraint cm (CmpExpr k e1 e2) []; Done (cm1, toAdd, false)) = Done (cm', toAdd', b) ->
      added cm (CmpExpr k e1 e2) toAdd cm' toAdd').
    { destruct (insert_constraint _ _ _) as [cm1| |] eqn:Ei; [|done..]. cbn. intros [= <- <- <-]. now apply insert_plain. }
    destruct k; try (now apply Hplain). destruct e1; try (now apply Hplain). destruct (_ && _); [|now apply Hplain]. clear Hplain.
    destruct (rewrite_equality _ _ _ _ _ _) as [rw| |] eqn:Erw; [|done..]. cbn [mbind outcome_bind] in E.
    destruct (insert_constraint _ _ _) as [cm1| |] eqn:Ei; [|done..]. cbn in E. injection E as <- <- <-.
    now apply (insert_equality cm value e2 toAdd rw).
Qed.

(** *** The loop *)

Lemma addConstraint_body_ok cm e toAdd r : cm_ok cm -> has_width 1 e ->
  addConstraint_body UseVisitorHash visit_fuel cm e toAdd = Done r ->
  match r with
  | Return b cm' => cm_ok cm' /\ constraints cm' = constraints cm /\ b = false /\
      forall rho, models rho (constraints cm) -> has_value rho e -> eval rho e = Some (APInt 1 0)
  | Continue cm' toAdd' => exists e' cm1, simplifyExpr UseVisitorHash visit_fuel cm e = Done (e', cm1) /\
      added cm e' toAdd cm' toAdd' /\ rewrites (fun rho => models rho (constraints cm)) e e'
  end.
Proof.
  intros Hcm He E. unfold addConstraint_body in E. destruct (simplifyExpr _ _ cm e) as [[e' cm1]| |] eqn:Es; [|done..]. cbn in E.
  destruct (simplifyExpr_ok cm e e' cm1 Hcm He Es) as (Hcm1 & HC & HF & Hr).
  assert (He' : has_width 1 e') by (destruct He as [_ <-]; apply Hr).
  assert (Hsame : forall x T cm2 T2, added cm1 x T cm2 T2 -> added cm x T cm2 T2).
  { intros x T cm2 T2 [H1 H2 H3 H4 H5]. rewrite HC in *. now constructor. }
  destruct (Expr_isFalse e') eqn:Ef; [injection E as <-|destruct (Expr_isTrue e') eqn:Et; [injection E as <-|]].
  - split_and!; [done..|]. intros rho HM [v Hv]. destruct e'; try done. cbn in Ef. pose proof (proj2 Hr rho v HM Hv) as Hc.
    apply eval_const_inv in Hc as [-> V]. rewrite isFalse_spec in Ef by done.
    apply andb_true_iff in Ef as [Ew%Z.eqb_eq Ev%Z.eqb_eq]. rewrite Hv. destruct value. cbn in *. congruence.
  - exists e', cm1. split_and!; [done| |done]. apply Hsame, added_nothing; [done|]. intros rho _ [v Hv]. destruct e'; try done. cbn in Et.
    apply eval_const_inv in Hv as [-> V]. rewrite isTrue_spec in Et by done.
    apply andb_true_iff in Et as [Ew%Z.eqb_eq Ev%negb_true_iff]. cbn. rewrite V.
    destruct (width1_cases value V Ew) as [E0|E1]; [rewrite E0 in Ev; done|]. destruct value. cbn in *. congruence.
  - destruct (addConstraintInternal _ _ e' cm1 toAdd) as [[[cm2 T2] b]| |] eqn:Ea; [|done..]. cbn in E. injection E as <-.
    exists e', cm1. split_and!; [done| |done]. apply Hsame. exact (addConstraintInternal_ok _ _ _ _ _ _ Hcm1 He' Ea).
Qed.

Lemma addConstraint_loop_ok fuel : forall cm toAdd b cm', cm_ok cm -> Forall (has_width 1) toAdd ->
  addConstraint_loop UseVisitorHash visit_fuel fuel cm toAdd = Done (b, cm') ->
  cm_ok cm' /\ forall rho, models rho (constraints cm) -> models rho toAdd -> b = true /\ models rho (constraints cm').
Proof.
  induction fuel as [|fuel IH]; intros cm [|e toAdd] b cm' Hcm HT E; cbn [addConstraint_loop] in E; try done;
    try (injection E as <- <-; split; [done|auto]).
  apply Forall_cons in HT as [He HT].
  destruct (addConstraint_body _ _ cm e toAdd) as [r| |] eqn:Eb; [|done..]. cbn [mbind outcome_bind] in E.
  pose proof (addConstraint_body_ok cm e toAdd r Hcm He Eb) as H. destruct r as [b1 cm1|cm1 toAdd1].
  - injection E as <- <-. destruct H as (Hcm1 & HC & -> & Hfalse). split; [done|]. intros rho HM [He' _]%Forall_cons.
    rewrite (Hfalse rho HM) in He'; [done|]. eauto.
  - destruct H as (e' & cm2 & _ & Ha & Hr). destruct (IH cm1 toAdd1 b cm' (ad_ok _ _ _ _ _ Ha) (ad_typed _ _ _ _ _ Ha HT) E) as [Hcm' Hf].
    split; [done|]. intros rho HM [He' HTm]%Forall_cons.
    destruct (ad_forward _ _ _ _ _ Ha rho HM) as [M1 M2]; [now apply (proj2 Hr)|done|]. auto.
Qed.

End Correct.

(** ** Claims *)

Section Claims.
Context `{A : APIntOps} {AS : APIntSpec A} `{Opts : ExprOptions} `{MOpts : ManagerOptions} (UseVisitorHash : bool) (visit_fuel : nat).

(** An iteration of the loop of [addConstraint] loses nothing: where the
    constraints, the popped constraint and its simplified form have a value, the
    new constraints and the new [toAddConstraints] are satisfied exactly by the
    array contents that satisfy the old ones and the popped constraint; and the
    loop ends with false only if the constraints exclude the popped one. *)
Theorem addConstraint_iteration (Inv : Factors -> (Expr -> Prop) -> Prop) (FL : FactorLaws Inv)
    (cm cm1 : ConstraintManager) (toAdd : list Expr) (e simplified : Expr) (r : iteration) :
  cm_ok (Inv:=Inv) cm -> has_width 1 e ->
  simplifyExpr UseVisitorHash visit_fuel cm e = Done (simplified, cm1) ->
  addConstraint_body UseVisitorHash visit_fuel cm e toAdd = Done r ->
  match r with
  | Return b _ => b = false /\ forall rho, models rho (constraints cm) -> eval rho e <> Some (APInt 1 1)
  | Continue cm' toAdd' =>
    forall rho, Forall (fun c => is_Some (eval rho c)) (constraints cm) -> is_Some (eval rho e) -> is_Some (eval rho simplified) ->
      models rho (constraints cm') /\ models rho toAdd' <->
      models rho (constraints cm) /\ eval rho e = Some (APInt 1 1) /\ models rho toAdd
  end.
Proof.
  intros Hcm He Es E. pose proof (addConstraint_body_ok UseVisitorHash visit_fuel cm e toAdd r Hcm He E) as H.
  destruct r as [b cm'|cm' toAdd'].
  - destruct H as (_ & _ & -> & Hf). split; [done|]. intros rho HM Ht. rewrite (Hf rho HM) in Ht; [done|]. eauto.
  - destruct H as (e' & cm2 & Es' & Ha & Hr). rewrite Es in Es'. injection Es' as <- <-.
    intros rho HC [v Hv] Hs. split.
    + intros [M1 M2]. destruct (ad_backward _ _ _ _ _ Ha rho HC Hs M1 M2) as (M & Ht & MT). split_and!; [done| |done].
      rewrite (proj2 Hr rho v M Hv) in Ht. congruence.
    + intros (M & Ht & MT). apply (ad_forward _ _ _ _ _ Ha); [done| |done]. now apply (proj2 Hr).
Qed.

(** On safe constraints the loop neither loses nor gains solutions. *)
Lemma addConstraint_loop_exact (Inv : Factors -> (Expr -> Prop) -> Prop) (FL : FactorLaws Inv) (fuel : nat) :
  forall cm toAdd b cm', cm_ok (Inv:=Inv) cm -> Forall (has_width 1) toAdd ->
  Forall (fun c => safe c = true) (constraints cm) -> Forall (fun c => safe c = true) toAdd ->
  addConstraint_loop UseVisitorHash visit_fuel fuel cm toAdd = Done (b, cm') ->
  Forall (fun c => safe c = true) (constraints cm') /\
  forall rho, b = true /\ models rho (constraints cm') <-> models rho (constraints cm) /\ models rho toAdd.
Proof.
  induction fuel as [|fuel IH]; intros cm [|e toAdd] b cm' Hcm HT SC ST E; cbn [addConstraint_loop] in E; try done;
    try (injection E as <- <-; split; [done|]; intros rho; split; [intros [_ ?]; split; [done|constructor]|now intros []]).
  apply Forall_cons in HT as [He HT]. apply Forall_cons in ST as [Se ST].
  destruct (addConstraint_body _ _ cm e toAdd) as [r| |] eqn:Eb; [|done..]. cbn [mbind outcome_bind] in E.
  pose proof (addConstraint_body_ok UseVisitorHash visit_fuel cm e toAdd r Hcm He Eb) as H. destruct r as [b1 cm1|cm1 toAdd1].
  - injection E as <- <-. destruct H as (_ & HC & -> & Hf). split; [now rewrite HC|]. intros rho. split; [now intros []|].
    intros [HM [Ht _]%Forall_cons]. rewrite (Hf rho HM) in Ht; [done|eauto].
  - destruct H as (e' & cm2 & Es & Ha & Hr). pose proof (proj1 (proj2 (proj1 Hr)) Se) as Se'.
    destruct (ad_safe _ _ _ _ _ Ha SC Se' ST) as [S1 S2].
    destruct (IH cm1 toAdd1 b cm' (ad_ok _ _ _ _ _ Ha) (ad_typed _ _ _ _ _ Ha HT) S1 S2 E) as [S' Hex]. split; [done|].
    intros rho. rewrite Hex. unfold models at 4. rewrite Forall_cons.
    apply (addConstraint_iteration Inv FL cm cm2 toAdd e e' (Continue cm1 toAdd1) Hcm He Es Eb).
    + pose proof (ck_typed _ Hcm) as Ht. rewrite Forall_forall in *. intros c Hc. apply safe_defined; [apply (Ht c Hc)|auto].
    + apply safe_defined; [apply He|done].
    + apply safe_defined; [apply (proj1 Hr)|done].
Qed.

(** What [addConstraint] does, for the clients of the manager. *)
Lemma addConstraint_exact (Inv : Factors -> (Expr -> Prop) -> Prop) (FL : FactorLaws Inv) (fuel : nat)
    (cm cm' : ConstraintManager) (e : Expr) (b : bool) :
  cm_ok (Inv:=Inv) cm -> has_width 1 e -> addConstraint UseVisitorHash visit_fuel fuel cm e = Done (b, cm') ->
  cm_ok (Inv:=Inv) cm' /\
  (forall rho, models rho (constraints cm) -> eval rho e = Some (APInt 1 1) -> b = true /\ models rho (constraints cm')) /\
  (Forall (fun c => safe c = true) (constraints cm) -> safe e = true ->
   Forall (fun c => safe c = true) (constraints cm') /\
   forall rho, b = true /\ models rho (constraints cm') <-> models rho (constraints cm) /\ eval rho e = Some (APInt 1 1)).
Proof.
  intros Hcm He E. unfold addConstraint in E. pose proof (duplicate_ok cm e Hcm (has_width_wf _ _ He)) as Hdup.
  destruct (rep_find _ e).
  - injection E as <- <-. split_and!; [done|auto|]. intros SC Se. split; [done|]. intros rho. split; [|naive_solver].
    intros [_ HM]. split; [done|]. unfold models in HM. rewrite Forall_forall in HM. auto.
  - assert (HT : Forall (has_width 1) [e]) by now apply Forall_singleton.
    destruct (addConstraint_loop_ok UseVisitorHash visit_fuel fuel cm [e] b cm' Hcm HT E) as [Hcm' Hf].
    split_and!; [done|intros rho HM Ht; apply Hf; [done|now apply Forall_singleton]|]. intros SC Se.
    destruct (addConstraint_loop_exact Inv FL fuel cm [e] b cm' Hcm HT SC) as [S' Hex]; [now apply Forall_singleton|done|].
    split; [done|]. intros rho. rewrite Hex. unfold models at 2. now rewrite Forall_singleton.
Qed.


(** Without the independent solver, [rewriteConstraints] increments its
    iterator twice in a round, so with an odd number of constraints it runs past
    the end of the set: it never returns. *)
Theorem rewrite_alternate_odd (V : ExprVisitor) (F : Factors) (rw rw' : rewriting) :
  Nat.odd (length (rw_constraints rw)) = true ->
  rewriteConstraints UseVisitorHash visit_fuel F V None rw <> Done rw'.
Proof.
  cbn [rewriteConstraints]. generalize (rw_constraints rw) as l. intros l. revert rw.
  enough (H : forall n l, (length l <= n)%nat -> forall rw, Nat.odd (length l) = true ->
    rewrite_alternate UseVisitorHash visit_fuel V rw l <> Done rw') by eauto.
  clear. induction n as [|n IH]; intros [|e [|e' l]] Hn rw Hodd; cbn [length] in *; try lia; try done; cbn [rewrite_alternate];
    (destruct (rewrite_one _ _ V rw e); [|done..]); [done|]. apply IH; [lia|done].
Qed.

End Claims.

(** ** Witnesses *)

Definition manager_options : ManagerOptions := {| RewriteEqualities := true; UseIndependentSolver := true |}.
Definition sum_is_small : Expr := CmpExpr Ult (BinaryExpr Add (byte_at (const 32 0)) (byte_at (const 32 1))) (const 8 9).
Definition both : Expr := BinaryExpr And sum_is_small first_is_one.

(** All bytes are one. *)
Definition all_ones : valuation := fun _ _ => 1.

Definition added_both : outcome (bool * ConstraintManager) :=
  addConstraint (A:=apint_ref) (Opts:=replace_options) (MOpts:=manager_options) true 20 20 empty_manager both.
Definition added_first : outcome iteration :=
  addConstraint_body (A:=apint_ref) (Opts:=replace_options) (MOpts:=manager_options) true 20 empty_manager first_is_one [].
Definition simplified_first : outcome (Expr * ConstraintManager) :=
  simplifyExpr (A:=apint_ref) (Opts:=replace_options) true 20 empty_manager first_is_one.

(** The states of the runs, which stay unevaluated in the proofs. *)
Definition manager_of (r : outcome (bool * ConstraintManager)) : ConstraintManager :=
  match r with Done (_, cm) => cm | _ => empty_manager end.
Definition manager_of_iteration (r : outcome iteration) : ConstraintManager :=
  match r with Done (Continue cm _) => cm | _ => empty_manager end.
Definition manager_of_simplified (r : outcome (Expr * ConstraintManager)) : ConstraintManager :=
  match r with Done (_, cm) => cm | _ => empty_manager end.

Lemma manager_of_done r b : (match r with Done (b', _) => Some b' | _ => None end) = Some b -> r = Done (b, manager_of r).
Proof. destruct r as [[? ?]| |]; cbn; congruence. Qed.
Lemma manager_of_continue r l : (match r with Done (Continue _ l') => Some l' | _ => None end) = Some l ->
  r = Done (Continue (manager_of_iteration r) l).
Proof. destruct r as [[| ]| |]; cbn; congruence. Qed.
Lemma manager_of_simplify r e : (match r with Done (e', _) => Some e' | _ => None end) = Some e -> r = Done (e, manager_of_simplified r).
Proof. destruct r as [[? ?]| |]; cbn; congruence. Qed.

Lemma no_constraints_ok : cm_ok (A:=apint_ref) (MOpts:=manager_options) (Inv:=book (A:=apint_ref)) empty_manager.
Proof. exact (empty_manager_ok (A:=apint_ref) (AS:=apint_ref_spec) (MOpts:=manager_options) (FL:=book_laws (A:=apint_ref) (AS:=apint_ref_spec))). Qed.


Lemma addConstraint_iteration_witness :
  added_first = Done (Continue (manager_of_iteration added_first) []) /\
  models all_ones (constraints (manager_of_iteration added_first)).
Proof.
  assert (E : added_first = Done (Continue (manager_of_iteration added_first) []))
    by (apply manager_of_continue; vm_compute; reflexivity).
  assert (Es : simplified_first = Done (first_is_one, manager_of_simplified simplified_first))
    by (apply manager_of_simplify; vm_compute; reflexivity).
  split; [exact E|].
  apply (addConstraint_iteration (A:=apint_ref) (AS:=apint_ref_spec) (Opts:=replace_options) (MOpts:=manager_options)
    true 20 (book (A:=apint_ref)) (book_laws (A:=apint_ref) (AS:=apint_ref_spec)) empty_manager
    (manager_of_simplified simplified_first) [] first_is_one first_is_one (Continue (manager_of_iteration added_first) [])
    no_constraints_ok);
    [split; reflexivity|exact Es|exact E|constructor|eexists; reflexivity|eexists; reflexivity|].
  split; [constructor|]. split; [reflexivity|constructor].
Defined.

Lemma rewrite_alternate_odd_witness :
  Nat.odd (length [first_is_one]) = true /\
  rewriteConstraints (A:=apint_ref) (Opts:=replace_options) true 20 no_factors
    (ExprReplaceVisitorSingle (A:=apint_ref) (byte_at (const 32 0)) (const 8 1)) None
    (mkRW [first_is_one] [] [] false (mkVState [] [] [])) <>
  Done (mkRW [first_is_one] [] [] false (mkVState [] [] [])).
Proof.
  split; [reflexivity|].
  apply (rewrite_alternate_odd (A:=apint_ref) (Opts:=replace_options) true 20
    (ExprReplaceVisitorSingle (A:=apint_ref) (byte_at (const 32 0)) (const 8 1)) no_factors (mkRW [first_is_one] [] [] false (mkVState [] [] []))).
  reflexivity.
Defined.
