(* ===== verification/ImmutableTree.v ===== *)
(** * The immutable balanced tree

    src/include/klee/Internal/ADT/ImmutableTree.h: the persistent AVL tree
    under [ImmutableMap] and [ImmutableSet], which hold the address space of
    every execution state.  A tree is a value here: nodes are immutable in the
    source, so sharing between versions is not observable and the reference
    counts are not modelled.  The terminator, the statically allocated sentinel,
    is [Terminator]; its fields are those its constructor gives it (itself as
    both kids, height 0, a default-constructed value).

    The contract: a tree is well formed (ordered, balanced within 2, with the
    stored heights right), every operation preserves it, and on the in-order
    list of values every operation is the operation on sorted lists. *)

From Stdlib Require Import Sorted.
From S2P Require Import Prelude.

Module AVL.

(** [CMP], a strict weak ordering in the sense of the C++ library. *)
Class StrictWeakOrder {K : Type} (lt : K -> K -> bool) : Prop := {
  lt_irrefl x : lt x x = false;
  lt_trans x y z : lt x y = true -> lt y z = true -> lt x z = true;
  lt_incomp_trans x y z :
    lt x y = false -> lt y x = false -> lt y z = false -> lt z y = false ->
    lt x z = false /\ lt z x = false
}.

Inductive Node (V : Type) : Type :=
| Terminator : Node V
| mkNode : Node V -> V -> Node V -> Z -> Node V.
Arguments Terminator {V}.
Arguments mkNode {V}.

#[export] Instance Node_eq_dec {V} `{EqDecision V} : EqDecision (Node V).
Proof. solve_decision. Defined.

Section Tree.
Context {K V : Type} (key_of_value : V -> K) (key_compare : K -> K -> bool) (default_value : V).

Definition left (n : Node V) : Node V :=
  match n with Terminator => Terminator | mkNode l _ _ _ => l end.
Definition right (n : Node V) : Node V :=
  match n with Terminator => Terminator | mkNode _ _ r _ => r end.
Definition value (n : Node V) : V :=
  match n with Terminator => default_value | mkNode _ v _ _ => v end.
Definition height (n : Node V) : Z :=
  match n with Terminator => 0 | mkNode _ _ _ h => h end.
Definition isTerminator (n : Node V) : bool :=
  match n with Terminator => true | mkNode _ _ _ _ => false end.

(** The constructor [Node(_left, _right, _value)]. *)
Definition new_Node (l r : Node V) (v : V) : Node V := mkNode l v r (Z.max (height l) (height r) + 1).

Definition balance (l : Node V) (v : V) (r : Node V) : Node V :=
  if height r + 2 <? height l then
    let ll := left l in
    let lr := right l in
    if height lr <=? height ll then
      let nlr := new_Node lr r v in
      new_Node ll nlr (value l)
    else
      let lrl := left lr in
      let lrr := right lr in
      let nll := new_Node ll lrl (value l) in
      let nlr := new_Node lrr r v in
      new_Node nll nlr (value lr)
  else if height l + 2 <? height r then
    let rl := left r in
    let rr := right r in
    if height rl <=? height rr then
      let nrl := new_Node l rl v in
      new_Node nrl rr (value r)
    else
      let rll := left rl in
      let rlr := right rl in
      let nrl := new_Node l rll v in
      let nrr := new_Node rlr rr (value r) in
      new_Node nrl nrr (value rl)
  else new_Node l r v.

Fixpoint size (n : Node V) : Z :=
  match n with Terminator => 0 | mkNode l _ r _ => size l + 1 + size r end.

(** The second component is [valueOut]. *)
Fixpoint popMin (n : Node V) : Node V * V :=
  match n with
  | Terminator => (Terminator, default_value)
  | mkNode Terminator v r _ => (r, v)
  | mkNode l v r _ => let '(l', out) := popMin l in (balance l' v r, out)
  end.

Fixpoint popMax (n : Node V) : Node V * V :=
  match n with
  | Terminator => (Terminator, default_value)
  | mkNode l v Terminator _ => (l, v)
  | mkNode l v r _ => let '(r', out) := popMax r in (balance l v r', out)
  end.

Fixpoint insert (n : Node V) (v : V) : Node V :=
  match n with
  | Terminator => new_Node Terminator Terminator v
  | mkNode l x r _ =>
    if key_compare (key_of_value v) (key_of_value x) then balance (insert l v) x r
    else if key_compare (key_of_value x) (key_of_value v) then balance l x (insert r v)
    else n
  end.

Fixpoint replace (n : Node V) (v : V) : Node V :=
  match n with
  | Terminator => new_Node Terminator Terminator v
  | mkNode l x r _ =>
    if key_compare (key_of_value v) (key_of_value x) then balance (replace l v) x r
    else if key_compare (key_of_value x) (key_of_value v) then balance l x (replace r v)
    else new_Node l r v
  end.

Fixpoint remove (n : Node V) (k : K) : Node V :=
  match n with
  | Terminator => Terminator
  | mkNode l x r _ =>
    if key_compare k (key_of_value x) then balance (remove l k) x r
    else if key_compare (key_of_value x) k then balance l x (remove r k)
    else if isTerminator l then r
    else if isTerminator r then l
    else let '(nr, min) := popMin r in balance l min nr
  end.

Fixpoint lookup (n : Node V) (k : K) : option V :=
  match n with
  | Terminator => None
  | mkNode l x r _ =>
    if key_compare k (key_of_value x) then lookup l k
    else if key_compare (key_of_value x) k then lookup r k
    else Some x
  end.

Fixpoint count (n : Node V) (k : K) : Z :=
  match n with
  | Terminator => 0
  | mkNode l x r _ =>
    if key_compare k (key_of_value x) then count l k
    else if key_compare (key_of_value x) k then count r k
    else 1
  end.

(** The loop of [lookup_previous], with its variable [result]. *)
Fixpoint lookup_previous_loop (n : Node V) (result : option V) (k : K) : option V :=
  match n with
  | Terminator => result
  | mkNode l x r _ =>
    if key_compare k (key_of_value x) then lookup_previous_loop l result k
    else if key_compare (key_of_value x) k then lookup_previous_loop r (Some x) k
    else Some x
  end.
Definition lookup_previous (n : Node V) (k : K) : option V := lookup_previous_loop n None k.

(** [min] and [max]; [None] is the failing assertion on an empty tree. *)
Fixpoint min (n : Node V) : option V :=
  match n with
  | Terminator => None
  | mkNode Terminator v _ _ => Some v
  | mkNode l _ _ _ => min l
  end.
Fixpoint max (n : Node V) : option V :=
  match n with
  | Terminator => None
  | mkNode _ v Terminator _ => Some v
  | mkNode _ _ r _ => max r
  end.

(** ** Specification *)

Fixpoint elements (n : Node V) : list V :=
  match n with Terminator => [] | mkNode l v r _ => elements l ++ v :: elements r end.

(** The stored heights are right and siblings differ by at most 2. *)
Fixpoint balanced (n : Node V) : Prop :=
  match n with
  | Terminator => True
  | mkNode l _ r h =>
    balanced l /\ balanced r /\ h = Z.max (height l) (height r) + 1 /\
    height l <= height r + 2 /\ height r <= height l + 2
  end.

Definition before (x y : V) : Prop := key_compare (key_of_value x) (key_of_value y) = true.

Definition ordered (n : Node V) : Prop := StronglySorted before (elements n).

Definition wf (n : Node V) : Prop := ordered n /\ balanced n.

(** The operations on sorted lists. *)
Fixpoint list_insert (xs : list V) (v : V) : list V :=
  match xs with
  | [] => [v]
  | x :: xs' =>
    if key_compare (key_of_value v) (key_of_value x) then v :: xs
    else if key_compare (key_of_value x) (key_of_value v) then x :: list_insert xs' v
    else xs
  end.
Fixpoint list_replace (xs : list V) (v : V) : list V :=
  match xs with
  | [] => [v]
  | x :: xs' =>
    if key_compare (key_of_value v) (key_of_value x) then v :: xs
    else if key_compare (key_of_value x) (key_of_value v) then x :: list_replace xs' v
    else v :: xs'
  end.

Definition same_key (k : K) (x : V) : bool :=
  negb (key_compare k (key_of_value x)) && negb (key_compare (key_of_value x) k).

(** ** Heights and balance *)

Lemma height_nonneg n : balanced n -> 0 <= height n.
Proof. induction n; cbn; [lia|]. intros (? & ? & -> & ? & ?). intuition lia. Qed.

Lemma height_pos l v r h : balanced (mkNode l v r h) -> 1 <= height (mkNode l v r h).
Proof.
  cbn. intros (Hl & Hr & -> & _). apply height_nonneg in Hl, Hr. lia.
Qed.

Lemma new_Node_balanced l r v :
  balanced l -> balanced r -> height l <= height r + 2 -> height r <= height l + 2 ->
  balanced (new_Node l r v).
Proof. cbn. auto. Qed.

(** What [balance] needs and gives: the subtrees are one step out of balance at
    most; the result has the height of the taller one or one more, and the
    height of the plain node when nothing is rotated. *)
Definition near (l r : Node V) : Prop :=
  balanced l /\ balanced r /\ height l <= height r + 3 /\ height r <= height l + 3.

(** Open the subtree a rotation takes apart: it is not the terminator. *)
Ltac open_tall n :=
  destruct n; [cbn in *; lia|]; cbn [left right value height balanced elements] in *; destruct_and?; subst.

Ltac heights :=
  repeat match goal with
  | H : balanced ?n |- _ =>
    lazymatch goal with _ : 0 <= height n |- _ => fail | _ => pose proof (height_nonneg n H) end
  end.

Lemma balance_spec l v r :
  near l r ->
  elements (balance l v r) = elements l ++ v :: elements r /\
  balanced (balance l v r) /\
  Z.max (height l) (height r) <= height (balance l v r) <= Z.max (height l) (height r) + 1 /\
  (height l <= height r + 2 -> height r <= height l + 2 ->
   height (balance l v r) = Z.max (height l) (height r) + 1).
Proof.
  intros (Hl & Hr & H1 & H2). unfold balance. heights.
  repeat match goal with |- context [if ?a <? ?b then _ else _] => destruct (Z.ltb_spec a b) end.
  - open_tall l. heights. destruct (Z.leb_spec (height l2) (height l1)).
    + cbn. rewrite <- app_assoc. split_and!; auto; lia.
    + open_tall l2. heights. cbn. rewrite <- !app_assoc. cbn. rewrite <- !app_assoc.
      split_and!; auto; lia.
  - open_tall r. heights. destruct (Z.leb_spec (height r1) (height r2)).
    + cbn. rewrite <- app_assoc. split_and!; auto; lia.
    + open_tall r1. heights. cbn. rewrite <- !app_assoc. cbn.
      split_and!; auto; lia.
  - cbn. split_and!; auto; lia.
Qed.

(** Rebuilding a node after a kid changed height by at most one. *)
Lemma rebuild_near l l' r r' :
  balanced l -> balanced r -> balanced l' -> balanced r' ->
  height l <= height r + 2 -> height r <= height l + 2 ->
  (height r' = height r /\ height l - 1 <= height l' <= height l + 1 \/
   height l' = height l /\ height r - 1 <= height r' <= height r + 1) -> near l' r'.
Proof. unfold near. intros. split_and!; auto; lia. Qed.

Lemma popMin_spec n :
  balanced n -> isTerminator n = false ->
  balanced (popMin n).1 /\ height n - 1 <= height (popMin n).1 <= height n /\
  elements n = (popMin n).2 :: elements (popMin n).1.
Proof.
  induction n as [|l IH v r _ h]; [done|]. intros Hb _. pose proof Hb as (Hl & Hr & Hh & H1 & H2).
  cbn [popMin]. destruct l as [|ll lv lr lh]; [pose proof (height_nonneg _ Hr); cbn in *; split_and!; auto; lia|].
  destruct IH as (IH1 & IH2 & IH3); [done..|].
  destruct (popMin _) as [l' out]. cbn [fst snd] in *.
  assert (Hn : near l' r) by (apply (rebuild_near (mkNode ll lv lr lh) l' r r); auto; lia).
  destruct (balance_spec l' v r Hn) as (He & Hbal & Hm & Hs).
  cbn [elements] in *. rewrite He, IH3. cbn [height] in *. split_and!; auto; lia.
Qed.

Lemma popMax_spec n :
  balanced n -> isTerminator n = false ->
  balanced (popMax n).1 /\ height n - 1 <= height (popMax n).1 <= height n /\
  elements n = elements (popMax n).1 ++ [(popMax n).2].
Proof.
  induction n as [|l _ v r IH h]; [done|]. intros Hb _. pose proof Hb as (Hl & Hr & Hh & H1 & H2).
  cbn [popMax]. destruct r as [|rl rv rr rh]; [pose proof (height_nonneg _ Hl); cbn in *; split_and!; auto; lia|].
  destruct IH as (IH1 & IH2 & IH3); [done..|].
  destruct (popMax _) as [r' out]. cbn [fst snd] in *.
  assert (Hn : near l r') by (apply (rebuild_near l l (mkNode rl rv rr rh) r'); auto; lia).
  destruct (balance_spec l v r' Hn) as (He & Hbal & Hm & Hs).
  cbn [elements] in *. rewrite He, IH3, <- app_assoc. cbn [height] in *. split_and!; auto; lia.
Qed.

(** ** Sorted lists *)

Context {SWO : StrictWeakOrder key_compare}.

Lemma before_trans x y z : before x y -> before y z -> before x z.
Proof. apply lt_trans. Qed.

Lemma lt_asym x y : key_compare x y = true -> key_compare y x = false.
Proof.
  intros H. destruct (key_compare y x) eqn:E; [|done].
  pose proof (lt_trans _ _ _ H E). now rewrite lt_irrefl in *.
Qed.

(** In a strict weak ordering, [<] is preserved by equivalence. *)
Lemma lt_equiv_l x y z :
  key_compare x y = false -> key_compare y x = false -> key_compare y z = true -> key_compare x z = true.
Proof.
  intros H1 H2 H3. destruct (key_compare x z) eqn:E; [done|].
  destruct (key_compare z x) eqn:E'.
  - pose proof (lt_trans _ _ _ H3 E'). congruence.
  - destruct (lt_incomp_trans y x z); congruence.
Qed.
Lemma lt_equiv_r x y z :
  key_compare y z = false -> key_compare z y = false -> key_compare x y = true -> key_compare x z = true.
Proof.
  intros H1 H2 H3. destruct (key_compare x z) eqn:E; [done|].
  destruct (key_compare z x) eqn:E'.
  - pose proof (lt_trans _ _ _ E' H3). congruence.
  - destruct (lt_incomp_trans x z y); congruence.
Qed.

Lemma sorted_mid l x r :
  StronglySorted before (l ++ x :: r) <->
  StronglySorted before l /\ StronglySorted before r /\
  Forall (fun y => before y x) l /\ Forall (before x) r.
Proof.
  induction l as [|y l IH]; cbn.
  - split; [intros [??]%StronglySorted_inv; split_and!; auto; constructor|intros (_ & ? & _ & ?); now constructor].
  - split.
    + intros [H1 H2]%StronglySorted_inv. apply IH in H1 as (Hl & Hr & Hlx & Hxr).
      apply Forall_app in H2 as [Hy Hyr]. apply Forall_cons in Hyr as [Hyx Hyr].
      split_and!; auto; constructor; auto.
    + intros (Hyl & Hr & Hlx & Hxr). apply StronglySorted_inv in Hyl as [Hl Hyl].
      apply Forall_cons in Hlx as [Hyx Hlx]. constructor; [apply IH; auto|].
      apply Forall_app; split; [done|]. constructor; [done|].
      eapply Forall_impl; [exact Hxr|]. cbn. intros z. now apply before_trans.
Qed.

(** The list operations, at the value of a node. *)
Lemma list_insert_mid l x r v :
  StronglySorted before (l ++ x :: r) ->
  list_insert (l ++ x :: r) v =
  if key_compare (key_of_value v) (key_of_value x) then list_insert l v ++ x :: r
  else if key_compare (key_of_value x) (key_of_value v) then l ++ x :: list_insert r v
  else l ++ x :: r.
Proof.
  intros Hs. apply sorted_mid in Hs as (_ & _ & Hl & _).
  induction Hl as [|y l Hy Hl IH]; cbn [app list_insert]; [done|]. rewrite IH.
  unfold before in Hy.
  destruct (key_compare (key_of_value v) (key_of_value y)) eqn:E1.
  { now rewrite (lt_trans _ _ _ E1 Hy). }
  destruct (key_compare (key_of_value y) (key_of_value v)) eqn:E2.
  { now repeat case_match. }
  now rewrite (lt_equiv_l _ _ _ E1 E2 Hy).
Qed.

Lemma list_replace_mid l x r v :
  StronglySorted before (l ++ x :: r) ->
  list_replace (l ++ x :: r) v =
  if key_compare (key_of_value v) (key_of_value x) then list_replace l v ++ x :: r
  else if key_compare (key_of_value x) (key_of_value v) then l ++ x :: list_replace r v
  else l ++ v :: r.
Proof.
  intros Hs. apply sorted_mid in Hs as (_ & _ & Hl & _).
  induction Hl as [|y l Hy Hl IH]; cbn [app list_replace]; [done|]. rewrite IH.
  unfold before in Hy.
  destruct (key_compare (key_of_value v) (key_of_value y)) eqn:E1.
  { now rewrite (lt_trans _ _ _ E1 Hy). }
  destruct (key_compare (key_of_value y) (key_of_value v)) eqn:E2.
  { now repeat case_match. }
  now rewrite (lt_equiv_l _ _ _ E1 E2 Hy).
Qed.

Definition list_remove (xs : list V) (k : K) : list V :=
  List.filter (fun x => negb (same_key k x)) xs.

Lemma list_remove_none l k :
  Forall (fun y => same_key k y = false) l -> list_remove l k = l.
Proof. induction 1 as [|y l Hy Hl IH]; cbn; [done|]. rewrite Hy. cbn. f_equal. exact IH. Qed.

Lemma same_key_after k x r :
  key_compare k (key_of_value x) = true \/ key_compare k (key_of_value x) = false /\ key_compare (key_of_value x) k = false ->
  Forall (before x) r -> Forall (fun y => same_key k y = false) r.
Proof.
  intros Hk HF. eapply Forall_impl; [exact HF|]. intros y Hy. unfold same_key.
  destruct Hk as [Hk|[Hk1 Hk2]]; [now rewrite (lt_trans _ _ _ Hk Hy)|now rewrite (lt_equiv_l _ _ _ Hk1 Hk2 Hy)].
Qed.

Lemma same_key_before k x l :
  key_compare (key_of_value x) k = true \/ key_compare k (key_of_value x) = false /\ key_compare (key_of_value x) k = false ->
  Forall (fun y => before y x) l -> Forall (fun y => same_key k y = false) l.
Proof.
  intros Hk HF. eapply Forall_impl; [exact HF|]. intros y Hy. unfold same_key.
  destruct Hk as [Hk|[Hk1 Hk2]]; [rewrite (lt_trans _ _ _ Hy Hk)|rewrite (lt_equiv_r _ _ _ Hk2 Hk1 Hy)];
    apply andb_false_r.
Qed.

Lemma list_remove_cons x r k :
  list_remove (x :: r) k = if same_key k x then list_remove r k else x :: list_remove r k.
Proof. unfold list_remove. cbn. now destruct (same_key k x). Qed.

Lemma list_remove_mid l x r k :
  StronglySorted before (l ++ x :: r) ->
  list_remove (l ++ x :: r) k =
  if key_compare k (key_of_value x) then list_remove l k ++ x :: r
  else if key_compare (key_of_value x) k then l ++ x :: list_remove r k
  else l ++ r.
Proof.
  intros Hs. apply sorted_mid in Hs as (_ & _ & Hl & Hr).
  unfold list_remove at 1. rewrite List.filter_app. fold (list_remove l k) (list_remove (x :: r) k).
  rewrite list_remove_cons. unfold same_key.
  destruct (key_compare k (key_of_value x)) eqn:E1; cbn.
  { f_equal. f_equal. apply list_remove_none. eapply same_key_after; eauto. }
  destruct (key_compare (key_of_value x) k) eqn:E2; cbn.
  { f_equal. apply list_remove_none. eapply same_key_before; eauto. }
  f_equal; apply list_remove_none; [eapply same_key_before|eapply same_key_after]; eauto.
Qed.

(** ** The operations refine those on sorted lists *)

(** Descend into one kid: the other parts of the node are unchanged. *)
Lemma ordered_node l v r h :
  ordered (mkNode l v r h) -> ordered l /\ ordered r.
Proof. unfold ordered. cbn. intros H. apply sorted_mid in H. tauto. Qed.

Ltac rebuilt l l' r r' v :=
  let Hn := fresh "Hn" in
  assert (Hn : near l' r') by (apply (rebuild_near l l' r r'); auto; lia);
  destruct (balance_spec l' v r' Hn) as (-> & ? & ? & ?); cbn [height] in *.

Lemma insert_spec n v :
  wf n ->
  elements (insert n v) = list_insert (elements n) v /\
  balanced (insert n v) /\ height n <= height (insert n v) <= height n + 1.
Proof.
  intros [Ho Hb]. induction n as [|l IHl x r IHr h]; [cbn; split_and!; auto; lia|].
  pose proof (ordered_node _ _ _ _ Ho) as [Hol Hor]. pose proof Hb as (Hl & Hr & Hh & H1 & H2).
  destruct (IHl Hol Hl) as (Hel & Hbl & Hhl), (IHr Hor Hr) as (Her & Hbr & Hhr). clear IHl IHr.
  cbn [elements insert]. rewrite (list_insert_mid (elements l) x (elements r) v Ho), <- Hel, <- Her.
  destruct (key_compare _ _); [|destruct (key_compare _ _)].
  - rebuilt l (insert l v) r r x. split_and!; auto; lia.
  - rebuilt l l r (insert r v) x. split_and!; auto; lia.
  - split_and!; auto; lia.
Qed.

Lemma replace_spec n v :
  wf n ->
  elements (replace n v) = list_replace (elements n) v /\
  balanced (replace n v) /\ height n <= height (replace n v) <= height n + 1.
Proof.
  intros [Ho Hb]. induction n as [|l IHl x r IHr h]; [cbn; split_and!; auto; lia|].
  pose proof (ordered_node _ _ _ _ Ho) as [Hol Hor]. pose proof Hb as (Hl & Hr & Hh & H1 & H2).
  destruct (IHl Hol Hl) as (Hel & Hbl & Hhl), (IHr Hor Hr) as (Her & Hbr & Hhr). clear IHl IHr.
  cbn [elements replace]. rewrite (list_replace_mid (elements l) x (elements r) v Ho), <- Hel, <- Her.
  destruct (key_compare _ _); [|destruct (key_compare _ _)].
  - rebuilt l (replace l v) r r x. split_and!; auto; lia.
  - rebuilt l l r (replace r v) x. split_and!; auto; lia.
  - cbn. split_and!; auto; lia.
Qed.

Lemma remove_spec n k :
  wf n ->
  elements (remove n k) = list_remove (elements n) k /\
  balanced (remove n k) /\ height n - 1 <= height (remove n k) <= height n.
Proof.
  intros [Ho Hb]. induction n as [|l IHl x r IHr h]; [cbn; split_and!; auto; lia|].
  pose proof (ordered_node _ _ _ _ Ho) as [Hol Hor]. pose proof Hb as (Hl & Hr & Hh & H1 & H2).
  destruct (IHl Hol Hl) as (Hel & Hbl & Hhl), (IHr Hor Hr) as (Her & Hbr & Hhr). clear IHl IHr.
  cbn [elements remove]. rewrite (list_remove_mid (elements l) x (elements r) k Ho), <- Hel, <- Her.
  destruct (key_compare _ _); [|destruct (key_compare _ _)].
  - rebuilt l (remove l k) r r x. split_and!; auto; lia.
  - rebuilt l l r (remove r k) x. split_and!; auto; lia.
  - heights. destruct (isTerminator l) eqn:El; [destruct l; [|done]; cbn in *; split_and!; auto; lia|].
    destruct (isTerminator r) eqn:Er.
    { destruct r; [|done]. rewrite app_nil_r. cbn [height] in *. split_and!; auto; lia. }
    destruct (popMin_spec r Hr Er) as (Hp & Hph & ->). destruct (popMin r) as [nr m]. cbn [fst snd] in *.
    rebuilt l l r nr m. split_and!; auto; lia.
Qed.

(** The list operations keep the list sorted. *)
Lemma list_insert_bound P xs v : P v -> Forall P xs -> Forall P (list_insert xs v).
Proof.
  intros Hv. induction 1 as [|x xs Hx Hxs IH]; cbn; [auto|].
  repeat case_match; auto.
Qed.
Lemma list_replace_bound P xs v : P v -> Forall P xs -> Forall P (list_replace xs v).
Proof.
  intros Hv. induction 1 as [|x xs Hx Hxs IH]; cbn; [auto|].
  repeat case_match; auto.
Qed.

Lemma before_all v x xs : before v x -> Forall (before x) xs -> Forall (before v) (x :: xs).
Proof.
  intros Hv Hx. constructor; [done|]. eapply Forall_impl; [exact Hx|]. cbn. intros y.
  now apply before_trans.
Qed.

Lemma list_insert_sorted xs v :
  StronglySorted before xs -> StronglySorted before (list_insert xs v).
Proof.
  induction 1 as [|x xs Hs IH Hx]; cbn; [repeat constructor|].
  destruct (key_compare (key_of_value v) _) eqn:E1.
  { constructor; [now constructor|now apply before_all]. }
  destruct (key_compare _ (key_of_value v)) eqn:E2; [|now constructor].
  constructor; [done|]. now apply list_insert_bound.
Qed.

Lemma list_replace_sorted xs v :
  StronglySorted before xs -> StronglySorted before (list_replace xs v).
Proof.
  induction 1 as [|x xs Hs IH Hx]; cbn; [repeat constructor|].
  destruct (key_compare (key_of_value v) _) eqn:E1.
  { constructor; [now constructor|now apply before_all]. }
  destruct (key_compare _ (key_of_value v)) eqn:E2.
  { constructor; [done|]. now apply list_replace_bound. }
  constructor; [done|]. eapply Forall_impl; [exact Hx|]. intros y. now apply lt_equiv_l.
Qed.

Lemma list_remove_sorted xs k :
  StronglySorted before xs -> StronglySorted before (list_remove xs k).
Proof.
  induction 1 as [|x xs Hs IH Hx]; [constructor|]. rewrite list_remove_cons. case_match; [done|].
  constructor; [done|]. unfold list_remove. apply Forall_forall. intros y Hy.
  apply list_elem_of_In, filter_In in Hy as [Hy _]. rewrite Forall_forall in Hx.
  now apply Hx, list_elem_of_In.
Qed.

Lemma insert_wf n v : wf n -> wf (insert n v).
Proof.
  intros H. destruct (insert_spec n v H) as (He & Hb & _). split; [|done].
  unfold ordered. rewrite He. apply list_insert_sorted, H.
Qed.
Lemma replace_wf n v : wf n -> wf (replace n v).
Proof.
  intros H. destruct (replace_spec n v H) as (He & Hb & _). split; [|done].
  unfold ordered. rewrite He. apply list_replace_sorted, H.
Qed.
Lemma remove_wf n k : wf n -> wf (remove n k).
Proof.
  intros H. destruct (remove_spec n k H) as (He & Hb & _). split; [|done].
  unfold ordered. rewrite He. apply list_remove_sorted, H.
Qed.

Lemma popMin_wf n : wf n -> wf (popMin n).1.
Proof.
  intros [Ho Hb]. destruct (isTerminator n) eqn:E; [destruct n; [now split|done]|].
  destruct (popMin_spec n Hb E) as (Hb' & _ & He). split; [|done].
  unfold ordered in *. rewrite He in Ho. now apply StronglySorted_inv in Ho.
Qed.
Lemma popMax_wf n : wf n -> wf (popMax n).1.
Proof.
  intros [Ho Hb]. destruct (isTerminator n) eqn:E; [destruct n; [now split|done]|].
  destruct (popMax_spec n Hb E) as (Hb' & _ & He). split; [|done].
  unfold ordered in *. rewrite He in Ho. now apply sorted_mid in Ho.
Qed.

(** ** Queries *)

Lemma find_none k xs : Forall (fun y => same_key k y = false) xs -> List.find (same_key k) xs = None.
Proof. induction 1 as [|y xs Hy Hxs IH]; cbn; [done|]. now rewrite Hy. Qed.

Lemma find_app {X} (p : X -> bool) xs ys :
  List.find p (xs ++ ys) = match List.find p xs with Some x => Some x | None => List.find p ys end.
Proof. induction xs as [|x xs IH]; cbn; [done|]. now destruct (p x). Qed.

Lemma lookup_spec n k : ordered n -> lookup n k = List.find (same_key k) (elements n).
Proof.
  intros Ho. induction n as [|l IHl x r IHr h]; [done|].
  pose proof (ordered_node _ _ _ _ Ho) as [Hol Hor]. cbn [lookup elements].
  rewrite IHl, IHr, find_app by done. cbn [List.find].
  change (same_key k x) with (negb (key_compare k (key_of_value x)) && negb (key_compare (key_of_value x) k)).
  apply sorted_mid in Ho as (_ & _ & Hl & Hr).
  destruct (key_compare k (key_of_value x)) eqn:E1; cbn.
  { rewrite (find_none k (elements r)) by (eapply same_key_after; eauto). now case_match. }
  destruct (key_compare (key_of_value x) k) eqn:E2; cbn.
  all: now rewrite (find_none k (elements l)) by (eapply same_key_before; eauto).
Qed.

Lemma count_spec n k : count n k = if lookup n k then 1 else 0.
Proof. induction n; cbn; [done|]. now repeat case_match. Qed.

(** The values that are not after [k]. *)
Definition upto (k : K) (xs : list V) : list V :=
  List.filter (fun x => negb (key_compare k (key_of_value x))) xs.

Lemma upto_all k x l :
  key_compare k (key_of_value x) = false -> Forall (fun y => before y x) l -> upto k l = l.
Proof.
  intros Hk. induction 1 as [|y l Hy Hl IH]; cbn; [done|].
  destruct (key_compare k (key_of_value y)) eqn:E; cbn; [|f_equal; exact IH].
  pose proof (lt_trans _ _ _ E Hy). congruence.
Qed.

Lemma upto_none k x r : key_compare k (key_of_value x) = true \/
  key_compare k (key_of_value x) = false /\ key_compare (key_of_value x) k = false ->
  Forall (before x) r -> upto k r = [].
Proof.
  intros Hk. induction 1 as [|y l Hy Hl IH]; cbn; [done|].
  destruct Hk as [Hk|[Hk1 Hk2]]; [rewrite (lt_trans _ _ _ Hk Hy)|rewrite (lt_equiv_l _ _ _ Hk1 Hk2 Hy)];
    exact IH.
Qed.

Lemma upto_mid l x r k :
  StronglySorted before (l ++ x :: r) ->
  upto k (l ++ x :: r) =
  if key_compare k (key_of_value x) then upto k l
  else if key_compare (key_of_value x) k then l ++ x :: upto k r
  else l ++ [x].
Proof.
  intros Hs. apply sorted_mid in Hs as (_ & _ & Hl & Hr).
  unfold upto at 1. rewrite List.filter_app. fold (upto k l). cbn [List.filter]. fold (upto k r).
  destruct (key_compare k (key_of_value x)) eqn:E1; cbn.
  { rewrite (upto_none k x r) by auto. now rewrite app_nil_r. }
  rewrite (upto_all k x l) by done. destruct (key_compare (key_of_value x) k) eqn:E2; [done|].
  now rewrite (upto_none k x r) by auto.
Qed.

Lemma lookup_previous_loop_spec n result k :
  ordered n ->
  lookup_previous_loop n result k =
  match last (upto k (elements n)) with Some y => Some y | None => result end.
Proof.
  intros Ho. revert result. induction n as [|l IHl x r IHr h]; intros result; [done|].
  pose proof (ordered_node _ _ _ _ Ho) as [Hol Hor]. cbn [lookup_previous_loop elements].
  rewrite (upto_mid (elements l) x (elements r) k Ho), IHl, IHr by done.
  destruct (key_compare k (key_of_value x)); [done|].
  destruct (key_compare (key_of_value x) k); [|now rewrite last_snoc].
  rewrite last_app_cons. destruct (upto k (elements r)) as [|y ys]; [done|].
  rewrite last_cons_cons. destruct (last (y :: ys)) eqn:E; [done|]. now apply last_None in E.
Qed.

Lemma min_spec n : min n = head (elements n).
Proof.
  induction n as [|l IH v r _ h]; [done|]. cbn [min elements]. destruct l; [done|].
  rewrite IH. cbn [elements]. now destruct (elements l1).
Qed.
Lemma max_spec n : max n = last (elements n).
Proof.
  induction n as [|l _ v r IH h]; [done|]. cbn [max elements]. destruct r as [|rl rv rr rh].
  - cbn [elements]. now rewrite last_snoc.
  - rewrite IH, last_app_cons. cbn [elements]. now destruct (elements rl).
Qed.
Lemma size_spec n : size n = Z.of_nat (length (elements n)).
Proof. induction n; cbn; [done|]. rewrite length_app. cbn. lia. Qed.

(** ** The height is logarithmic *)

Lemma pow2_step h : 1 <= h -> 2 ^ h = 2 * 2 ^ (h - 1).
Proof. intros. rewrite <- Z.pow_succ_r by lia. f_equal. lia. Qed.

Lemma square_grow a b p : 0 <= a -> 0 <= b -> 0 <= p -> 4 * p <= a * a -> p <= b * b ->
  8 * p <= (a + b) * (a + b).
Proof.
  intros. assert (2 * p <= a * b); [|nia].
  assert ((2 * p) * (2 * p) <= (a * b) * (a * b)) by nia. nia.
Qed.

Lemma height_log n :
  balanced n -> 2 ^ height n <= (size n + 1) * (size n + 1) /\ 0 <= size n.
Proof.
  induction n as [|l IHl v r IHr h]; [cbn; lia|]. intros (Hl & Hr & -> & H1 & H2).
  destruct (IHl Hl) as [Bl Sl], (IHr Hr) as [Br Sr]. clear IHl IHr. heights.
  cbn [size height]. split; [|lia].
  set (m := Z.max (height l) (height r)) in *.
  replace (size l + 1 + size r + 1) with ((size l + 1) + (size r + 1)) by lia.
  destruct (Z.le_gt_cases m 1).
  { assert (m = 0 \/ m = 1) as [->| ->] by lia; [nia|]. change (2 ^ (1 + 1)) with 4. nia. }
  replace (2 ^ (m + 1)) with (8 * 2 ^ (m - 2)).
  2:{ rewrite (pow2_step (m + 1)), (pow2_step (m + 1 - 1)), (pow2_step (m + 1 - 1 - 1)) by lia.
      replace (m + 1 - 1 - 1 - 1) with (m - 2) by lia. lia. }
  assert (Hp : forall x, m - 2 <= x -> 2 ^ (m - 2) <= 2 ^ x) by (intros; apply Z.pow_le_mono_r; lia).
  assert (H4 : forall x, x = m -> 2 ^ x = 4 * 2 ^ (m - 2)).
  { intros x ->. rewrite (pow2_step m), (pow2_step (m - 1)) by lia.
    replace (m - 1 - 1) with (m - 2) by lia. lia. }
  assert (0 < 2 ^ (m - 2)) by (apply Z.pow_pos_nonneg; lia).
  destruct (Z.le_ge_cases (height r) (height l)).
  - apply square_grow; try lia; [rewrite <- (H4 (height l)) by lia|specialize (Hp (height r))]; lia.
  - rewrite (Z.add_comm (size l + 1)).
    apply square_grow; try lia; [rewrite <- (H4 (height r)) by lia|specialize (Hp (height l))]; lia.
Qed.

(** ** Lookup after an update *)

Definition key_equiv (k k' : K) : bool := negb (key_compare k k') && negb (key_compare k' k).

Lemma key_equiv_spec k k' :
  key_equiv k k' = true <-> key_compare k k' = false /\ key_compare k' k = false.
Proof. unfold key_equiv. now rewrite andb_true_iff, !negb_true_iff. Qed.

Lemma key_equiv_l k k' j : key_equiv k k' = true -> key_equiv k j = key_equiv k' j.
Proof.
  rewrite key_equiv_spec. intros [H1 H2]. apply eq_true_iff_eq. rewrite !key_equiv_spec.
  split; intros [H3 H4].
  - apply (lt_incomp_trans k' k j); auto.
  - apply (lt_incomp_trans k k' j); auto.
Qed.

Lemma key_lt_neq k k' : key_compare k k' = true -> key_equiv k k' = false /\ key_equiv k' k = false.
Proof. intros H. unfold key_equiv. rewrite H. cbn. now rewrite andb_false_r. Qed.

Lemma same_key_eq k x : same_key k x = key_equiv k (key_of_value x).
Proof. reflexivity. Qed.

Lemma find_insert xs v k :
  StronglySorted before xs ->
  List.find (same_key k) (list_insert xs v) =
  if key_equiv k (key_of_value v)
  then match List.find (same_key (key_of_value v)) xs with Some y => Some y | None => Some v end
  else List.find (same_key k) xs.
Proof.
  induction 1 as [|x xs Hs IH Hx]; cbn [list_insert List.find]; rewrite ?same_key_eq; [done|].
  destruct (key_compare (key_of_value v) (key_of_value x)) eqn:E1; cbn [List.find]; rewrite ?same_key_eq.
  { destruct (key_equiv k (key_of_value v)) eqn:Ek; [|done].
    pose proof (find_none (key_of_value v) (x :: xs)) as Hf. cbn [List.find] in Hf; rewrite ?same_key_eq in Hf.
    rewrite Hf; [done|]. pose proof (before_all v x xs E1 Hx) as Hb.
    eapply Forall_impl; [exact Hb|]. intros y Hy. apply (key_lt_neq _ _ Hy). }
  destruct (key_compare (key_of_value x) (key_of_value v)) eqn:E2; cbn [List.find]; rewrite ?same_key_eq.
  - destruct (key_lt_neq _ _ E2) as [_ ->]. rewrite IH.
    destruct (key_equiv k (key_of_value v)) eqn:Ek; [|done].
    rewrite (key_equiv_l _ _ _ Ek). now destruct (key_lt_neq _ _ E2) as [_ ->].
  - assert (Hvx : key_equiv (key_of_value v) (key_of_value x) = true) by now apply key_equiv_spec.
    rewrite Hvx. destruct (key_equiv k (key_of_value v)) eqn:Ek; [|done].
    now rewrite (key_equiv_l _ _ _ Ek), Hvx.
Qed.

Lemma find_replace xs v k :
  StronglySorted before xs ->
  List.find (same_key k) (list_replace xs v) =
  if key_equiv k (key_of_value v) then Some v else List.find (same_key k) xs.
Proof.
  induction 1 as [|x xs Hs IH Hx]; cbn [list_replace List.find]; rewrite ?same_key_eq; [done|].
  destruct (key_compare (key_of_value v) (key_of_value x)) eqn:E1; cbn [List.find]; rewrite ?same_key_eq; [done|].
  destruct (key_compare (key_of_value x) (key_of_value v)) eqn:E2; cbn [List.find]; rewrite ?same_key_eq.
  - rewrite IH. destruct (key_equiv k (key_of_value v)) eqn:Ek; [|done].
    rewrite (key_equiv_l _ _ _ Ek). now destruct (key_lt_neq _ _ E2) as [_ ->].
  - assert (Hvx : key_equiv (key_of_value v) (key_of_value x) = true) by now apply key_equiv_spec.
    destruct (key_equiv k (key_of_value v)) eqn:Ek; [done|].
    destruct (key_equiv k (key_of_value x)) eqn:Ex; [|done].
    rewrite (key_equiv_l _ _ _ Ex) in Ek. unfold key_equiv in *. rewrite andb_comm in Ek. congruence.
Qed.

Lemma find_remove xs k k' :
  List.find (same_key k) (list_remove xs k') =
  if key_equiv k k' then None else List.find (same_key k) xs.
Proof.
  induction xs as [|x xs IH]; [cbn; now case_match|].
  rewrite list_remove_cons. cbn [List.find].
  change (same_key k x) with (key_equiv k (key_of_value x)).
  change (same_key k' x) with (key_equiv k' (key_of_value x)).
  destruct (key_equiv k k') eqn:Ek; destruct (key_equiv k' (key_of_value x)) eqn:Ex; auto.
  - cbn [List.find]. change (same_key k x) with (key_equiv k (key_of_value x)).
    now rewrite (key_equiv_l _ _ _ Ek), Ex.
  - destruct (key_equiv k (key_of_value x)) eqn:Exx; [|done].
    rewrite (key_equiv_l _ _ _ Exx) in Ek. unfold key_equiv in *. rewrite andb_comm in Ek. congruence.
  - cbn [List.find]. change (same_key k x) with (key_equiv k (key_of_value x)). now case_match.
Qed.

(** ** Iterators

    An iterator is its root and the [FixedStack] of the nodes on the path to
    the current one, the current one first; the end has an empty stack.  Nodes
    are compared by value where the source compares pointers: two nodes of an
    ordered tree have different keys. *)

Context `{EqDecision V}.

Fixpoint push_left (n : Node V) (stack : list (Node V)) : list (Node V) :=
  match n with Terminator => stack | mkNode l _ _ _ => push_left l (n :: stack) end.
Fixpoint push_right (n : Node V) (stack : list (Node V)) : list (Node V) :=
  match n with Terminator => stack | mkNode _ _ r _ => push_right r (n :: stack) end.

Definition iterator_begin (root : Node V) : list (Node V) := push_left root [].
Definition iterator_end : list (Node V) := [].

(** The loops that leave a subtree; [prev] has just been popped. *)
Fixpoint climb_next (prev : Node V) (stack : list (Node V)) : list (Node V) :=
  match stack with
  | [] => []
  | n :: stack' => if decide (prev = left n) then stack else climb_next n stack'
  end.
Fixpoint climb_prev (prev : Node V) (stack : list (Node V)) : list (Node V) :=
  match stack with
  | [] => []
  | n :: stack' => if decide (prev = right n) then stack else climb_prev n stack'
  end.

(** [operator++]; [None] is the failing assertion at the end. *)
Definition iterator_incr (stack : list (Node V)) : option (list (Node V)) :=
  match stack with
  | [] => None
  | n :: stack' =>
    Some (if isTerminator (right n) then climb_next n stack'
          else push_left (left (right n)) (right n :: stack))
  end.

(** [operator--]; from the end, it moves to the last element. *)
Definition iterator_decr (root : Node V) (stack : list (Node V)) : list (Node V) :=
  match stack with
  | [] => push_right root []
  | n :: stack' =>
    if isTerminator (left n) then climb_prev n stack'
    else push_right (right (left n)) (left n :: stack)
  end.

(** The loop of [lower_bound]; [true] is the early return. *)
Fixpoint lower_bound_loop (n : Node V) (stack : list (Node V)) (k : K) : bool * list (Node V) :=
  match n with
  | Terminator => (false, stack)
  | mkNode l x r _ =>
    if key_compare k (key_of_value x) then lower_bound_loop l (n :: stack) k
    else if key_compare (key_of_value x) k then lower_bound_loop r (n :: stack) k
    else (true, n :: stack)
  end.

Definition lower_bound (root : Node V) (k : K) : option (list (Node V)) :=
  match lower_bound_loop root [] k with
  | (true, it) => Some it
  | (false, it) =>
    match it with
    | [] => Some it
    | last :: _ => if key_compare (key_of_value (value last)) k then iterator_incr it else Some it
    end
  end.

Definition find (root : Node V) (k : K) : option (list (Node V)) :=
  match lower_bound root k with
  | None => None
  | Some [] => Some iterator_end
  | Some (n :: st) => if key_compare k (key_of_value (value n)) then Some iterator_end else Some (n :: st)
  end.

Definition upper_bound (root : Node V) (k : K) : option (list (Node V)) :=
  match lower_bound root k with
  | Some (n :: st) =>
    if negb (key_compare k (key_of_value (value n))) then iterator_incr (n :: st) else Some (n :: st)
  | it => it
  end.

(** The values after the subtree [c] under the path [stack], and those from the
    current position on. *)
Fixpoint rest (c : Node V) (stack : list (Node V)) : list V :=
  match stack with
  | [] => []
  | p :: stack' => (if decide (c = left p) then value p :: elements (right p) else []) ++ rest p stack'
  end.
Definition remaining (stack : list (Node V)) : list V :=
  match stack with [] => [] | n :: stack' => value n :: elements (right n) ++ rest n stack' end.

(** [stack] is the path from [root] down to [c]. *)
Fixpoint path (root c : Node V) (stack : list (Node V)) : Prop :=
  match stack with
  | [] => c = root
  | p :: stack' => isTerminator p = false /\ (c = left p \/ c = right p) /\ path root p stack'
  end.
Definition position (root : Node V) (stack : list (Node V)) : Prop :=
  match stack with [] => True | n :: stack' => isTerminator n = false /\ path root n stack' end.

Lemma path_ordered root c stack : ordered root -> path root c stack -> ordered c.
Proof.
  intros Ho. revert c. induction stack as [|p st IH]; intros c; cbn; [congruence|].
  intros (Hp & Hc & Hpath). apply IH in Hpath. destruct p; [done|].
  apply ordered_node in Hpath as [??]. destruct Hc as [-> | ->]; done.
Qed.

Lemma path_height root c stack :
  balanced root -> path root c stack ->
  balanced c /\ height c + Z.of_nat (length stack) <= height root.
Proof.
  intros Hb. revert c. induction stack as [|p st IH]; intros c; cbn; [intros ->; split; [done|lia]|].
  intros (Hp & Hc & Hpath). apply IH in Hpath as [Hbp Hh]. destruct p; [done|].
  pose proof Hbp as (? & ? & ? & ? & ?). cbn in *. destruct Hc as [-> | ->]; split; (done || lia).
Qed.

Lemma position_bound root stack :
  balanced root -> position root stack -> Z.of_nat (length stack) <= height root.
Proof.
  intros Hb Hp. destruct stack as [|n st]; cbn; [now apply height_nonneg|].
  destruct Hp as [Hn Hp]. apply path_height in Hp as [Hbn Hh]; [|done].
  destruct n; [done|]. apply height_pos in Hbn. lia.
Qed.

(** The kids of a node of an ordered tree differ, unless both are missing. *)
Lemma kids_differ n : ordered n -> isTerminator (right n) = false -> right n <> left n.
Proof.
  destruct n as [|l x r h]; [done|]. cbn. intros Ho Hr ->. destruct l as [|a y b h']; [done|].
  unfold ordered in Ho. cbn [elements] in Ho. apply sorted_mid in Ho as (_ & _ & Hl & Hr').
  apply Forall_app in Hl as [_ Hl], Hr' as [_ Hr']. apply Forall_cons in Hl as [Hl _], Hr' as [Hr' _].
  unfold before in *. rewrite (lt_asym _ _ Hl) in Hr'. discriminate.
Qed.

Lemma kids_differ' n : ordered n -> isTerminator (left n) = false -> left n <> right n.
Proof.
  intros Ho Hl E. destruct (isTerminator (right n)) eqn:Hr; [congruence|].
  now apply (kids_differ n Ho).
Qed.

Lemma push_left_spec root c stack :
  isTerminator c = false -> path root c stack ->
  position root (push_left c stack) /\ remaining (push_left c stack) = elements c ++ rest c stack.
Proof.
  revert stack. induction c as [|l IH x r _ h]; intros stack Hc Hp; [done|]. cbn [push_left].
  destruct l as [|ll y lr lh]; [done|].
  destruct (IH (mkNode (mkNode ll y lr lh) x r h :: stack)) as [H1 H2]; [done|cbn; auto|].
  split; [exact H1|]. rewrite H2. cbn [rest left right value].
  rewrite decide_True by done. cbn [elements]. now rewrite <- !app_assoc.
Qed.

Lemma climb_next_spec root c stack :
  path root c stack ->
  position root (climb_next c stack) /\ remaining (climb_next c stack) = rest c stack.
Proof.
  revert c. induction stack as [|p st IH]; intros c; cbn; [done|]. intros (Hp & Hc & Hpath).
  case_decide; [done|]. now apply IH.
Qed.

Lemma iterator_incr_spec root stack :
  ordered root -> position root stack -> stack <> [] ->
  exists it, iterator_incr stack = Some it /\ position root it /\ remaining it = tail (remaining stack).
Proof.
  intros Ho Hpos Hne. destruct stack as [|n st]; [done|]. destruct Hpos as [Hn Hp].
  eexists; split; [reflexivity|]. cbn [remaining tail].
  destruct (isTerminator (right n)) eqn:Hr.
  - destruct (climb_next_spec root n st Hp) as [H1 ->]. split; [done|]. now destruct (right n).
  - assert (Hr' : path root (right n) (n :: st)) by (cbn; auto).
    destruct (push_left_spec root (right n) (n :: st) Hr Hr') as [H1 H2].
    destruct (right n) as [|rl y rr rh] eqn:Er; [done|].
    split; [exact H1|]. cbn [left]. etransitivity; [exact H2|]. f_equal. cbn [rest].
    rewrite decide_False; [done|].
    rewrite <- Er. apply kids_differ; [now apply (path_ordered root n st)|now rewrite Er].
Qed.

(** The values not before [k]. *)
Definition from (k : K) (xs : list V) : list V :=
  List.filter (fun x => negb (key_compare (key_of_value x) k)) xs.

Lemma from_all k x r :
  key_compare (key_of_value x) k = false -> Forall (before x) r -> from k r = r.
Proof.
  intros Hk. induction 1 as [|y l Hy Hl IH]; cbn; [done|].
  destruct (key_compare (key_of_value y) k) eqn:E; cbn; [|f_equal; exact IH].
  pose proof (lt_trans _ _ _ Hy E). congruence.
Qed.

Lemma from_none k x l : key_compare (key_of_value x) k = true \/
  key_compare k (key_of_value x) = false /\ key_compare (key_of_value x) k = false ->
  Forall (fun y => before y x) l -> from k l = [].
Proof.
  intros Hk. induction 1 as [|y l Hy Hl IH]; cbn; [done|].
  destruct Hk as [Hk|[Hk1 Hk2]]; [rewrite (lt_trans _ _ _ Hy Hk)|rewrite (lt_equiv_r _ _ _ Hk2 Hk1 Hy)];
    exact IH.
Qed.

Lemma from_mid l x r k :
  StronglySorted before (l ++ x :: r) ->
  from k (l ++ x :: r) =
  if key_compare (key_of_value x) k then from k r
  else (if key_compare k (key_of_value x) then from k l else []) ++ x :: r.
Proof.
  intros Hs. apply sorted_mid in Hs as (_ & _ & Hl & Hr).
  unfold from at 1. rewrite List.filter_app. fold (from k l). cbn [List.filter]. fold (from k r).
  destruct (key_compare (key_of_value x) k) eqn:E1; cbn [negb].
  { rewrite (from_none k x l) by auto. done. }
  rewrite (from_all k x r) by done. destruct (key_compare k (key_of_value x)) eqn:E2; [done|].
  now rewrite (from_none k x l) by auto.
Qed.

(** What the loop of [lower_bound] has found in the subtree [n]. *)
Definition bound_at (root n : Node V) (stack : list (Node V)) (k : K) (res : bool * list (Node V)) : Prop :=
  let target := from k (elements n) ++ rest n stack in
  match res with
  | (true, it) => position root it /\ remaining it = target
  | (false, []) => False
  | (false, last :: st) =>
    position root (last :: st) /\
    (if key_compare (key_of_value (value last)) k
     then right last = Terminator /\ rest last st = target else remaining (last :: st) = target)
  end.

Lemma lower_bound_loop_spec root n stack k :
  ordered root -> isTerminator n = false -> path root n stack ->
  bound_at root n stack k (lower_bound_loop n stack k).
Proof.
  intros Ho. revert stack. induction n as [|l IHl x r IHr h]; intros stack Hn Hp; [done|].
  pose proof (path_ordered _ _ _ Ho Hp) as Hon. set (n := mkNode l x r h) in *.
  assert (Hf := from_mid (elements l) x (elements r) k Hon).
  assert (Hl : rest l (n :: stack) = x :: elements r ++ rest n stack)
    by (cbn; now rewrite decide_True).
  assert (Hloop : lower_bound_loop n stack k =
    if key_compare k (key_of_value x) then lower_bound_loop l (n :: stack) k
    else if key_compare (key_of_value x) k then lower_bound_loop r (n :: stack) k
    else (true, n :: stack)) by reflexivity.
  unfold bound_at. rewrite Hloop. change (elements n) with (elements l ++ x :: elements r). rewrite Hf.
  destruct (key_compare k (key_of_value x)) eqn:E1.
  - rewrite (lt_asym _ _ E1). destruct l as [|ll y lr lh].
    + cbn. rewrite (lt_asym _ _ E1). done.
    + rewrite <- app_assoc. change ((x :: elements r) ++ rest n stack) with (x :: elements r ++ rest n stack).
      rewrite <- Hl. apply IHl; [done|cbn; auto].
  - destruct (key_compare (key_of_value x) k) eqn:E2.
    + destruct r as [|rl y rr rh]; [cbn; rewrite E2; done|].
      assert (Hr : rest (mkNode rl y rr rh) (n :: stack) = rest n stack).
      { cbn [rest]. rewrite decide_False; [done|]. now apply (kids_differ n). }
      rewrite <- Hr. apply IHr; [done|cbn; auto].
    + cbn. done.
Qed.

Lemma lower_bound_spec root k :
  ordered root ->
  exists it, lower_bound root k = Some it /\ position root it /\ remaining it = from k (elements root).
Proof.
  intros Ho. unfold lower_bound. destruct (isTerminator root) eqn:Hr.
  { destruct root; [|done]. now exists []. }
  pose proof (lower_bound_loop_spec root root [] k Ho Hr eq_refl) as H.
  destruct (lower_bound_loop root [] k) as [[] it]; unfold bound_at in H; cbn [rest] in H;
    rewrite app_nil_r in H; [eauto|].
  destruct it as [|last st]; [done|]. destruct H as [Hp H]. destruct (key_compare _ k); [|eauto].
  destruct H as [Hl H]. destruct (iterator_incr_spec root (last :: st)) as (it & Hi & Hpi & Hri); [done..|].
  exists it. split_and!; auto. rewrite Hri. cbn [remaining tail]. now rewrite Hl.
Qed.

Lemma remaining_nil stack : remaining stack = [] -> stack = [].
Proof. now destruct stack. Qed.

Lemma head_from k xs y ys :
  from k xs = y :: ys -> key_compare (key_of_value y) k = false.
Proof.
  intros H. assert (Hy : In y (from k xs)) by (rewrite H; now left).
  apply filter_In in Hy as [_ Hy]. now apply negb_true_iff.
Qed.

Lemma find_from k xs :
  StronglySorted before xs ->
  List.find (same_key k) xs =
  match from k xs with y :: _ => if key_compare k (key_of_value y) then None else Some y | [] => None end.
Proof.
  induction 1 as [|x xs Hs IH Hx]; cbn; [done|]. unfold same_key at 1.
  destruct (key_compare (key_of_value x) k) eqn:E1; cbn.
  { now rewrite andb_false_r. }
  rewrite andb_true_r. destruct (key_compare k (key_of_value x)) eqn:E2; cbn; [|done].
  apply find_none. eapply same_key_after; eauto.
Qed.

Lemma find_spec root k :
  ordered root ->
  exists it, find root k = Some it /\ position root it /\
    match it with [] => lookup root k = None | n :: _ => lookup root k = Some (value n) end.
Proof.
  intros Ho. destruct (lower_bound_spec root k Ho) as (it & Hit & Hp & Hr).
  unfold find. rewrite Hit. rewrite lookup_spec by done. rewrite (find_from k _ Ho).
  destruct it as [|n st]; [exists []; cbn in Hr; now rewrite <- Hr|].
  rewrite <- Hr. cbn [remaining]. destruct (key_compare k (key_of_value (value n))); [now exists []|].
  now exists (n :: st).
Qed.

(** The values after [k]. *)
Definition after (k : K) (xs : list V) : list V :=
  List.filter (fun x => key_compare k (key_of_value x)) xs.

Lemma after_from k xs :
  StronglySorted before xs ->
  after k xs =
  match from k xs with
  | y :: ys => if key_compare k (key_of_value y) then y :: ys else ys
  | [] => []
  end.
Proof.
  induction 1 as [|x xs Hs IH Hx]; cbn; [done|].
  assert (Ha : forall b, (b = true -> key_compare k (key_of_value x) = true) ->
    (b = false -> key_compare k (key_of_value x) = false /\ key_compare (key_of_value x) k = false) ->
    after k xs = xs).
  { intros b H1 H2. clear IH Hs. induction Hx as [|y ys Hy Hys IH]; cbn; [done|].
    replace (key_compare k (key_of_value y)) with true; [f_equal; exact IH|]. symmetry.
    destruct b; [exact (lt_trans _ _ _ (H1 eq_refl) Hy)|destruct (H2 eq_refl) as [A1 A2]; exact (lt_equiv_l _ _ _ A1 A2 Hy)]. }
  destruct (key_compare (key_of_value x) k) eqn:E1; cbn.
  { rewrite (lt_asym _ _ E1). exact IH. }
  fold (from k xs) (after k xs). rewrite (from_all k x xs) by done.
  destruct (key_compare k (key_of_value x)) eqn:E2; [f_equal; now apply (Ha true)|now apply (Ha false)].
Qed.

Lemma upper_bound_spec root k :
  ordered root ->
  exists it, upper_bound root k = Some it /\ position root it /\ remaining it = after k (elements root).
Proof.
  intros Ho. destruct (lower_bound_spec root k Ho) as (it & Hit & Hp & Hr).
  unfold upper_bound. rewrite Hit, (after_from k _ Ho), <- Hr.
  destruct it as [|n st]; [eexists; done|]. cbn [remaining].
  destruct (key_compare k _); cbn [negb]; [eexists; done|].
  destruct (iterator_incr_spec root (n :: st)) as (it & ? & ? & ?); [done..|].
  now exists it.
Qed.

(** Moving backwards: the values before the current position. *)
Fixpoint front (c : Node V) (stack : list (Node V)) : list V :=
  match stack with
  | [] => []
  | p :: stack' => front p stack' ++ (if decide (c = right p) then elements (left p) ++ [value p] else [])
  end.
Definition preceding (root : Node V) (stack : list (Node V)) : list V :=
  match stack with [] => elements root | n :: stack' => front n stack' ++ elements (left n) end.

Lemma push_right_spec root c stack :
  isTerminator c = false -> path root c stack ->
  exists n st, push_right c stack = n :: st /\ position root (n :: st) /\
    preceding root (n :: st) ++ [value n] = front c stack ++ elements c.
Proof.
  revert stack. induction c as [|l _ x r IH h]; intros stack Hc Hp; [done|]. cbn [push_right].
  destruct r as [|rl y rr rh].
  { eexists _, _. split_and!; [reflexivity|done..|]. cbn. now rewrite <- app_assoc. }
  destruct (IH (mkNode l x (mkNode rl y rr rh) h :: stack)) as (n & st & H1 & H2 & H3); [done|cbn; auto|].
  exists n, st. split_and!; auto. rewrite H3. cbn [front left right value].
  rewrite decide_True by done. cbn [elements]. now rewrite <- !app_assoc.
Qed.

Lemma climb_prev_spec root c stack :
  path root c stack ->
  match climb_prev c stack with
  | [] => front c stack = []
  | n :: st => position root (n :: st) /\ preceding root (n :: st) ++ [value n] = front c stack
  end.
Proof.
  revert c. induction stack as [|p st IH]; intros c; cbn; [done|]. intros (Hp & Hc & Hpath).
  case_decide; [cbn; now rewrite <- app_assoc|]. rewrite app_nil_r. now apply IH.
Qed.

Lemma iterator_decr_spec root stack :
  ordered root -> position root stack ->
  match iterator_decr root stack with
  | [] => preceding root stack = []
  | n :: st => position root (n :: st) /\ preceding root (n :: st) ++ [value n] = preceding root stack
  end.
Proof.
  intros Ho Hpos. destruct stack as [|n st]; cbn [iterator_decr].
  { destruct (isTerminator root) eqn:Hr; [now destruct root|].
    destruct (push_right_spec root root [] Hr eq_refl) as (n & st & -> & ? & ->). done. }
  destruct Hpos as [Hn Hp]. destruct (isTerminator (left n)) eqn:Hl.
  - pose proof (climb_prev_spec root n st Hp) as Hc.
    replace (preceding root (n :: st)) with (front n st);
      [exact Hc|cbn; destruct (left n); [now rewrite app_nil_r|done]].
  - assert (Hl' : path root (left n) (n :: st)) by (cbn; auto).
    destruct (push_right_spec root (left n) (n :: st) Hl Hl') as (m & st' & H1 & H2 & H3).
    destruct (left n) as [|ll y lr lh] eqn:El; [done|]. cbn [right].
    change (push_right lr (mkNode ll y lr lh :: n :: st)) with (push_right (mkNode ll y lr lh) (n :: st)).
    rewrite H1. split; [done|]. rewrite H3. cbn [preceding front]. rewrite El, decide_False, app_nil_r; [done|].
    rewrite <- El. apply kids_differ'; [now apply (path_ordered root n st)|now rewrite El].
Qed.

(** Both sides of a position make up the tree. *)
Lemma path_split root c stack :
  ordered root -> isTerminator c = false -> path root c stack ->
  elements root = front c stack ++ elements c ++ rest c stack.
Proof.
  intros Ho. revert c. induction stack as [|p st IH]; intros c Hc; cbn [path].
  { intros ->. cbn. now rewrite app_nil_r. }
  intros (Hp & Hcp & Hpath). pose proof (path_ordered _ _ _ Ho Hpath) as Hop.
  rewrite (IH p Hp Hpath). cbn [front rest]. destruct p as [|l x r h]; [done|]. cbn [left right value elements].
  destruct Hcp as [->| ->]; cbn [left right] in *.
  - rewrite (decide_True (P := l = l)), decide_False; [|now apply (kids_differ' (mkNode l x r h))|done].
    now rewrite !app_nil_r, <- !app_assoc.
  - rewrite (decide_True (P := r = r)), decide_False; [|now apply (kids_differ (mkNode l x r h))|done].
    rewrite <- !app_assoc. cbn. now rewrite <- ?app_assoc.
Qed.

Lemma position_split root stack :
  ordered root -> position root stack -> elements root = preceding root stack ++ remaining stack.
Proof.
  intros Ho. destruct stack as [|n st]; cbn [position preceding remaining]; [now rewrite app_nil_r|].
  intros [Hn Hp]. rewrite (path_split root n st Ho Hn Hp). destruct n; [done|]. cbn.
  now rewrite <- !app_assoc.
Qed.


(** C33: the tree implements the sorted list of its values: on the in-order list,
    [insert] adds the value unless its key is there, [replace] overwrites,
    [remove] drops the key, [popMin] and [popMax] take off the ends, and [size],
    [min], [max] and [empty] read it. *)
Theorem tree_refines_sorted_list n v k :
  wf n ->
  elements (insert n v) = list_insert (elements n) v /\
  elements (replace n v) = list_replace (elements n) v /\
  elements (remove n k) = list_remove (elements n) k /\
  (isTerminator n = true <-> elements n = []) /\
  (isTerminator n = false ->
   elements n = (popMin n).2 :: elements (popMin n).1 /\
   elements n = elements (popMax n).1 ++ [(popMax n).2]) /\
  size n = Z.of_nat (length (elements n)) /\ min n = head (elements n) /\ max n = last (elements n).
Proof.
  intros H. pose proof H as [_ Hb].
  split_and!; [now apply insert_spec|now apply replace_spec|now apply remove_spec| | |
    apply size_spec|apply min_spec|apply max_spec].
  - destruct n as [|l x r h]; cbn; [done|]. now destruct (elements l).
  - intros Hn. split; [now apply popMin_spec|now apply popMax_spec].
Qed.

(** The iterator that [begin] returns is the position nothing precedes. *)
Lemma front_nil root c stack : path root c stack -> front c stack = [] -> push_left root [] = push_left c stack.
Proof.
  revert c. induction stack as [|p st IH]; intros c; cbn [path front]; [now intros ->|]. intros (Hp & Hc & Hpath) Hf.
  apply app_eq_nil in Hf as [Hf Hd]. rewrite (IH p Hpath Hf). case_decide as Hr; [now destruct (elements (left p))|].
  destruct Hc as [->|]; [|done]. now destruct p.
Qed.

Lemma begin_spec root : ordered root -> position root (iterator_begin root) /\ remaining (iterator_begin root) = elements root.
Proof.
  intros Ho. destruct (isTerminator root) eqn:Hr; [now destruct root|].
  destruct (push_left_spec root root [] Hr eq_refl) as [H0 H]. split; [exact H0|]. etransitivity; [exact H|apply app_nil_r].
Qed.

Lemma begin_preceding root stack : ordered root -> position root stack -> stack = iterator_begin root <-> preceding root stack = [].
Proof.
  intros Ho Hp. split.
  - intros ->. pose proof (position_split root _ Ho Hp) as E. rewrite (proj2 (begin_spec root Ho)) in E.
    apply (f_equal length) in E. rewrite length_app in E. destruct (preceding _ _); [done|cbn in E; lia].
  - destruct stack as [|n st]; cbn [preceding position] in *.
    + intros E. destruct root as [|l x r h]; [done|]. cbn in E. now destruct (elements l).
    + destruct Hp as [Hn Hpath]. intros [Hf Hl]%app_eq_nil. unfold iterator_begin. rewrite (front_nil root n st Hpath Hf).
      destruct n as [|l x r h]; [done|]. cbn in Hl |- *. destruct l as [|ll y lr lh]; [done|]. cbn in Hl. now destruct (elements ll).
Qed.

Lemma lookup_replace n v k : wf n -> lookup (replace n v) k = if key_equiv k (key_of_value v) then Some v else lookup n k.
Proof.
  intros Hw. pose proof Hw as [Ho _]. pose proof (replace_wf n v Hw) as [Hr _]. rewrite !lookup_spec by done.
  destruct (replace_spec n v Hw) as [-> _]. now apply find_replace.
Qed.

Lemma lookup_remove n k k' : wf n -> lookup (remove n k') k = if key_equiv k k' then None else lookup n k.
Proof.
  intros Hw. pose proof Hw as [Ho _]. pose proof (remove_wf n k' Hw) as [Hr _]. rewrite !lookup_spec by done.
  destruct (remove_spec n k' Hw) as [-> _]. apply find_remove.
Qed.

(** The tree is a finite map from keys, up to the equivalence of the
    ordering: lookups after an update, and [lookup_previous] returns the value
    with the greatest key that is not after the one asked for. *)
Theorem tree_lookup_laws n v k k' :
  wf n ->
  lookup Terminator k = None /\
  lookup (insert n v) k =
    (if key_equiv k (key_of_value v)
     then match lookup n (key_of_value v) with Some y => Some y | None => Some v end
     else lookup n k) /\
  lookup (replace n v) k = (if key_equiv k (key_of_value v) then Some v else lookup n k) /\
  lookup (remove n k') k = (if key_equiv k k' then None else lookup n k) /\
  count n k = (if lookup n k then 1 else 0) /\
  lookup_previous n k = last (upto k (elements n)).
Proof.
  intros H. pose proof H as [Ho _]. pose proof (insert_wf n v H) as [Hi _].
  pose proof (replace_wf n v H) as [Hr _]. pose proof (remove_wf n k' H) as [Hm _].
  split; [done|]. rewrite !lookup_spec by done.
  destruct (insert_spec n v H) as [-> _], (replace_spec n v H) as [-> _], (remove_spec n k' H) as [-> _].
  split_and!; [now apply find_insert|now apply find_replace|apply find_remove| |].
  - rewrite <- lookup_spec by done. apply count_spec.
  - unfold lookup_previous. rewrite lookup_previous_loop_spec by done. now case_match.
Qed.

(** A tree whose number of values fits a [size_t] has a height of at most
    127, so the [unsigned] heights and the sums [height + 2] never wrap. *)
Theorem tree_height_bound n : wf n -> size n < 2 ^ 64 - 1 -> 0 <= height n <= 127.
Proof.
  intros [_ Hb] Hs. pose proof (height_nonneg n Hb). destruct (height_log n Hb) as [Hl Hn].
  split; [done|]. apply Z.lt_succ_r. apply (Z.pow_lt_mono_r_iff 2); [lia..|].
  change (2 ^ Z.succ 127) with (2 ^ 64 * 2 ^ 64). nia.
Qed.

(** Iterators.  [begin] is at the first value; from a position that is
    not the end, [++] is defined and drops the first of the remaining values;
    [--] takes one back (and from the first wraps to the end); the stack never
    outgrows the [root->height] slots it is allocated with. *)
Theorem iterator_traversal root stack :
  wf root -> position root stack ->
  remaining (iterator_begin root) = elements root /\ position root (iterator_begin root) /\
  elements root = preceding root stack ++ remaining stack /\
  (stack <> [] -> exists it, iterator_incr stack = Some it /\ position root it /\
     remaining it = tail (remaining stack)) /\
  (match iterator_decr root stack with
   | [] => preceding root stack = []
   | n :: st => position root (n :: st) /\ preceding root (n :: st) ++ [value n] = preceding root stack
   end) /\
  Z.of_nat (length stack) <= height root.
Proof.
  intros [Ho Hb] Hp.
  assert (Hbg : position root (iterator_begin root) /\ remaining (iterator_begin root) = elements root).
  { destruct (isTerminator root) eqn:Hr; [now destruct root|].
    destruct (push_left_spec root root [] Hr eq_refl) as [H0 H]. split; [exact H0|].
    etransitivity; [exact H|apply app_nil_r]. }
  split_and!; [apply Hbg|apply Hbg|now apply position_split|now apply iterator_incr_spec|
    now apply iterator_decr_spec|now apply position_bound].
Qed.

(** Searching.  [lower_bound], [upper_bound] and [find] are defined on every
    ordered tree; they return the position whose remaining values are those not
    before the key, those after it, and the position of the value [lookup]
    returns, or the end. *)
Theorem iterator_search root k :
  wf root ->
  (exists it, lower_bound root k = Some it /\ position root it /\ remaining it = from k (elements root)) /\
  (exists it, upper_bound root k = Some it /\ position root it /\ remaining it = after k (elements root)) /\
  (exists it, find root k = Some it /\ position root it /\
     match it with [] => lookup root k = None | n :: _ => lookup root k = Some (value n) end).
Proof. intros [Ho _]. auto using lower_bound_spec, upper_bound_spec, find_spec. Qed.

End Tree.

#[export] Instance Z_ltb_order : StrictWeakOrder Z.ltb.
Proof. split; intros; rewrite ?Z.ltb_lt, ?Z.ltb_ge in *; lia. Qed.

End AVL.

(** ** [ImmutableMap] and [ImmutableSet]

    The tree of pairs keyed by the first component, and the tree of the keys
    themselves; every method forwards to the tree. *)
Module ImmutableMap.
Section Map.
Context {K D : Type} (CMP : K -> K -> bool) (default_value : K * D).

Definition Tree := AVL.Node (K * D).
Definition empty (m : Tree) : bool := AVL.isTerminator m.
Definition count (m : Tree) (k : K) : Z := AVL.count fst CMP m k.
Definition lookup (m : Tree) (k : K) : option (K * D) := AVL.lookup fst CMP m k.
Definition lookup_previous (m : Tree) (k : K) : option (K * D) :=
  AVL.lookup_previous fst CMP m k.
Definition insert (m : Tree) (v : K * D) : Tree := AVL.insert fst CMP default_value m v.
Definition replace (m : Tree) (v : K * D) : Tree := AVL.replace fst CMP default_value m v.
Definition remove (m : Tree) (k : K) : Tree := AVL.remove fst CMP default_value m k.

End Map.
End ImmutableMap.

Module ImmutableSet.
Section Set_.
Context {T : Type} (CMP : T -> T -> bool) (default_value : T).

Definition Tree := AVL.Node T.
Definition count (s : Tree) (k : T) : Z := AVL.count id CMP s k.
Definition insert (s : Tree) (v : T) : Tree := AVL.insert id CMP default_value s v.
Definition remove (s : Tree) (k : T) : Tree := AVL.remove id CMP default_value s k.

End Set_.
End ImmutableSet.

(** ** A concrete map *)

Import AVL.

(** A map with five bindings, built by insertion. *)
Definition sample_map : Node (Z * Z) :=
  fold_left (fun m v => ImmutableMap.insert Z.ltb (0, 0) m v) [(5, 50); (1, 10); (3, 30); (7, 70); (9, 90)]
    Terminator.

Lemma sample_map_wf : wf fst Z.ltb sample_map.
Proof. split; [repeat constructor|vm_compute; intuition discriminate]. Qed.


Lemma tree_refines_sorted_list_witness :
  elements (insert fst Z.ltb (0, 0) sample_map (4, 40)) =
  [(1, 10); (3, 30); (4, 40); (5, 50); (7, 70); (9, 90)].
Proof.
  etransitivity;
    [apply (tree_refines_sorted_list fst Z.ltb (0, 0) sample_map (4, 40) 5), sample_map_wf|reflexivity].
Defined.

Lemma tree_lookup_laws_witness : lookup_previous fst Z.ltb sample_map 4 = Some (3, 30).
Proof.
  etransitivity;
    [apply (tree_lookup_laws fst Z.ltb (0, 0) sample_map (0, 0) 4 4), sample_map_wf|reflexivity].
Defined.

Lemma tree_height_bound_witness : 0 <= height sample_map <= 127.
Proof. apply (tree_height_bound fst Z.ltb (0, 0)); [exact sample_map_wf|reflexivity]. Defined.

Lemma iterator_traversal_witness :
  remaining (0, 0) (iterator_begin sample_map) = [(1, 10); (3, 30); (5, 50); (7, 70); (9, 90)].
Proof.
  etransitivity;
    [apply (iterator_traversal fst Z.ltb (0, 0) sample_map []); [exact sample_map_wf|exact I]|reflexivity].
Defined.

Lemma iterator_search_witness :
  exists it, lower_bound fst Z.ltb (0, 0) sample_map 4 = Some it /\
    remaining (0, 0) it = [(5, 50); (7, 70); (9, 90)].
Proof.
  destruct (iterator_search fst Z.ltb (0, 0) sample_map 4 sample_map_wf) as [(it & H1 & _ & H2) _].
  exists it. split; [exact H1|]. rewrite H2. reflexivity.
Defined.
