(* ===== verification/MapOfSets.v ===== *)
(** * The map from sets

    src/include/klee/Internal/ADT/MapOfSets.h, the UBTree behind the
    counterexample cache: a trie whose paths are the sorted elements of a set.
    A [std::set] is its list of elements in increasing order and the
    [std::map] of the children an association list in increasing order of the
    keys, the two orders the source iterates in.  [None] is the null pointer. *)

From Stdlib Require Import Sorted.
From S2P Require Import Prelude.

(** The order of the keys, [operator<] and [operator==] of [K]. *)
Class StrictTotalOrder {K : Type} (lt eq : K -> K -> bool) : Prop := {
  ltk_irrefl x : lt x x = false;
  ltk_trans x y z : lt x y = true -> lt y z = true -> lt x z = true;
  ltk_total x y : lt x y = false -> lt y x = false -> x = y;
  eqk_spec x y : eq x y = true <-> x = y
}.

Module MapOfSets.

Inductive Node (K V : Type) : Type :=
| mkNode (value : V) (isEndOfSet : bool) (children : list (K * Node K V)).
Arguments mkNode {K V}.

Section Ind.
Context {K V : Type} (P : Node K V -> Prop).
Context (H : forall v e cs, Forall (fun kc => P (snd kc)) cs -> P (mkNode v e cs)).

Fixpoint Node_nested_ind (n : Node K V) : P n :=
  match n with
  | mkNode v e cs =>
    H v e cs ((fix all cs : Forall (fun kc => P (snd kc)) cs :=
                 match cs with
                 | [] => Forall_nil_2 _
                 | kc :: cs' => Forall_cons_2 _ kc cs' (Node_nested_ind (snd kc)) (all cs')
                 end) cs)
  end.
End Ind.

Section MapOfSets.
Context {K V : Type} (ltk eqk : K -> K -> bool) (default : V).

Definition value (n : Node K V) : V := match n with mkNode v _ _ => v end.
Definition isEndOfSet (n : Node K V) : bool := match n with mkNode _ e _ => e end.
Definition children (n : Node K V) : list (K * Node K V) := match n with mkNode _ _ cs => cs end.

(** [Node()] *)
Definition new_Node : Node K V := mkNode default false [].

(** [std::map::find] *)
Fixpoint child (cs : list (K * Node K V)) (k : K) : option (Node K V) :=
  match cs with
  | [] => None
  | (k', c) :: cs' => if eqk k k' then Some c else child cs' k
  end.

(** [children.insert(std::make_pair(k, Node()))], then an update of the node it
    returns. *)
Fixpoint update_child (f : Node K V -> Node K V) (cs : list (K * Node K V)) (k : K) :
    list (K * Node K V) :=
  match cs with
  | [] => [(k, f new_Node)]
  | (k', c) :: cs' =>
    if ltk k k' then (k, f new_Node) :: cs
    else if ltk k' k then (k', c) :: update_child f cs' k
    else (k', f c) :: cs'
  end.

Fixpoint insert (n : Node K V) (set : list K) (v : V) : Node K V :=
  match set with
  | [] => mkNode v true (children n)
  | element :: set' =>
    mkNode (value n) (isEndOfSet n) (update_child (fun c => insert c set' v) (children n) element)
  end.

Fixpoint lookup (n : Node K V) (set : list K) : option V :=
  match set with
  | [] => if isEndOfSet n then Some (value n) else None
  | k :: set' => match child (children n) k with None => None | Some c => lookup c set' end
  end.

Definition clear (n : Node K V) : Node K V := mkNode default false [].

(** [std::set::insert] *)
Fixpoint set_insert (s : list K) (k : K) : list K :=
  match s with
  | [] => [k]
  | x :: s' => if ltk k x then k :: s else if ltk x k then x :: set_insert s' k else s
  end.

Definition end_result (n : Node K V) (accum : list K) : list (list K * V) :=
  if isEndOfSet n then [(accum, value n)] else [].

(** The loop of [findSubsets] over [begin .. end]. *)
Fixpoint findSubsets_loop (n : Node K V) (accum : list K) (it : list K) : list (list K * V) :=
  match it with
  | [] => []
  | elt :: it' =>
    match child (children n) elt with
    | Some c =>
      let nacc := set_insert accum elt in
      end_result c nacc ++ findSubsets_loop c nacc it'
    | None => []
    end ++ findSubsets_loop n accum it'
  end.
Definition findSubsets (n : Node K V) (accum it : list K) : list (list K * V) :=
  end_result n accum ++ findSubsets_loop n accum it.
Definition subsets (root : Node K V) (set : list K) : list (list K * V) := findSubsets root [] set.

(** The loops over the children take the recursive call as an argument. *)
Definition findSupersets_all (rec : Node K V -> list K -> list (list K * V)) (accum : list K) :=
  fix loop (cs : list (K * Node K V)) : list (list K * V) :=
    match cs with
    | [] => []
    | (k, c) :: cs' => rec c (set_insert accum k) ++ loop cs'
    end.

Definition findSupersets_at (rec here : Node K V -> list K -> list (list K * V)) (accum : list K)
    (elt : K) :=
  fix loop (cs : list (K * Node K V)) : list (list K * V) :=
    match cs with
    | [] => []
    | (k, c) :: cs' =>
      let nacc := set_insert accum k in
      if eqk elt k then rec c nacc ++ loop cs'
      else if ltk k elt then here c nacc ++ loop cs'
      else []
    end.

Fixpoint findSupersets (n : Node K V) (accum it : list K) : list (list K * V) :=
  match n with
  | mkNode v e cs =>
    match it with
    | [] => end_result n accum ++ findSupersets_all (fun c nacc => findSupersets c nacc it) accum cs
    | elt :: next =>
      findSupersets_at (fun c nacc => findSupersets c nacc next)
        (fun c nacc => findSupersets c nacc it) accum elt cs
    end
  end.
Definition supersets (root : Node K V) (set : list K) : list (list K * V) := findSupersets root [] set.

(** [while ( *it < k) ++it;] *)
Fixpoint skip_before (k : K) (it : list K) : list K :=
  match it with
  | [] => []
  | x :: it' => if ltk x k then skip_before k it' else it
  end.

(** The [for (;;)] of [findSubset] from [kbegin] and [it]: the two inner loops
    advance [it] to the first element not before the key and [kbegin] to the
    first key not before the element. *)
Definition findSubset_loop (rec : Node K V -> list K -> option V) :=
  fix loop (kbegin : list (K * Node K V)) (it : list K) : option V :=
    match kbegin with
    | [] => None
    | (k, c) :: kbegin' =>
      match it with
      | [] => None
      | x :: _ =>
        if ltk k x then loop kbegin' it
        else
          match skip_before k it with
          | [] => None
          | x' :: it' =>
            if eqk x' k then
              match rec c it' with
              | Some res => Some res
              | None => match it' with [] => None | _ => loop kbegin' it' end
              end
            else loop kbegin' (x' :: it')
          end
      end
    end.

Fixpoint findSubset (p : V -> bool) (n : Node K V) (begin : list K) : option V :=
  match n with
  | mkNode v e cs =>
    if e && p v then Some v
    else
      match begin with
      | [] => None
      | _ => findSubset_loop (findSubset p) cs begin
      end
  end.

(** The first child with a result. *)
Definition first_result (rec : Node K V -> option V) :=
  fix loop (cs : list (K * Node K V)) : option V :=
    match cs with
    | [] => None
    | (_, c) :: cs' => match rec c with Some res => Some res | None => loop cs' end
    end.

(** The child [kmid], if its key is [b]. *)
Definition at_kmid (rec : Node K V -> option V) (b : K) :=
  fix loop (cs : list (K * Node K V)) : option V :=
    match cs with
    | [] => None
    | (k, c) :: cs' => if ltk k b then loop cs' else if eqk b k then rec c else None
    end.

Fixpoint findSuperset (p : V -> bool) (n : Node K V) (begin : list K) : option V :=
  match n with
  | mkNode v e cs =>
    match begin with
    | [] =>
      if e && p v then Some v else first_result (fun c => findSuperset p c begin) cs
    | b :: begin' =>
      match first_result (fun c => findSuperset p c begin) cs with
      | Some res => Some res
      | None => at_kmid (fun c => findSuperset p c begin') b cs
      end
    end
  end.

(** ** Specification *)

Definition lt_ (a b : K) : Prop := ltk a b = true.

(** The children are sorted, and the keys grow along every path. *)
Inductive wf : Node K V -> Prop :=
| wf_node v e cs :
  StronglySorted lt_ (map fst cs) ->
  Forall (fun kc => Forall (lt_ (fst kc)) (map fst (children (snd kc))) /\ wf (snd kc)) cs ->
  wf (mkNode v e cs).

Context {STO : StrictTotalOrder ltk eqk}.

Lemma eqk_refl k : eqk k k = true.
Proof. now apply eqk_spec. Qed.
Lemma eqk_neq k k' : k <> k' -> eqk k k' = false.
Proof. intros H. destruct (eqk k k') eqn:E; [|done]. now apply eqk_spec in E. Qed.
Lemma lt_neq a b : lt_ a b -> a <> b.
Proof. intros H ->. unfold lt_ in H. now rewrite ltk_irrefl in H. Qed.
Lemma ltk_asym a b : lt_ a b -> ltk b a = false.
Proof.
  intros H. destruct (ltk b a) eqn:E; [|done]. pose proof (ltk_trans _ _ _ H E).
  now rewrite ltk_irrefl in *.
Qed.
Lemma lt_trans_ a b c : lt_ a b -> lt_ b c -> lt_ a c.
Proof. apply ltk_trans. Qed.

Lemma wf_new : wf new_Node.
Proof. repeat constructor. Qed.

(** *** Children *)

Lemma child_elem cs k c : child cs k = Some c -> (k, c) ∈ cs.
Proof.
  induction cs as [|[k' c'] cs IH]; cbn; [done|]. destruct (eqk k k') eqn:E.
  - apply eqk_spec in E as ->. intros [= ->]. now left.
  - intros H. right. auto.
Qed.

Lemma elem_child cs k c :
  StronglySorted lt_ (map fst cs) -> (k, c) ∈ cs -> child cs k = Some c.
Proof.
  induction cs as [|[k' c'] cs IH]; cbn; [now intros _ ?%elem_of_nil|].
  intros [Hs Hk]%StronglySorted_inv [[= -> ->]|H]%elem_of_cons; [now rewrite eqk_refl|].
  rewrite eqk_neq; [auto|]. intros ->. rewrite Forall_forall in Hk.
  apply (lt_neq k' k'); [|done]. apply Hk. apply list_elem_of_fmap. now exists (k', c).
Qed.

Lemma map_fst_update f cs k : map fst (update_child f cs k) = set_insert (map fst cs) k.
Proof.
  induction cs as [|[k' c] cs IH]; cbn; [done|]. repeat case_match; cbn; congruence.
Qed.

Lemma set_insert_Forall P s k : P k -> Forall P s -> Forall P (set_insert s k).
Proof. intros Hk. induction 1; cbn; [auto|]. repeat case_match; auto. Qed.

Lemma set_insert_sorted s k : StronglySorted lt_ s -> StronglySorted lt_ (set_insert s k).
Proof.
  induction 1 as [|x s Hs IH Hx]; cbn; [repeat constructor|].
  destruct (ltk k x) eqn:E1.
  - constructor; [now constructor|]. constructor; [done|].
    eapply Forall_impl; [exact Hx|]. intros y. now apply lt_trans_.
  - destruct (ltk x k) eqn:E2; [|now constructor]. constructor; [done|]. now apply set_insert_Forall.
Qed.

Lemma child_update f cs k k' :
  StronglySorted lt_ (map fst cs) ->
  child (update_child f cs k) k' =
  if eqk k' k then Some (f (match child cs k with Some c => c | None => new_Node end)) else child cs k'.
Proof.
  induction cs as [|[j c] cs IH]; cbn; [now intros _; destruct (eqk k' k)|].
  intros [Hs Hj]%StronglySorted_inv. destruct (ltk k j) eqn:E1; cbn.
  { destruct (eqk k' k) eqn:Ek; [|done]. rewrite (eqk_neq k j) by now apply lt_neq.
    destruct (child cs k) as [d|] eqn:Ec; [|done]. apply child_elem in Ec.
    rewrite Forall_forall in Hj. assert (Hjk : lt_ j k) by (apply Hj, list_elem_of_fmap; now exists (k, d)).
    apply ltk_asym in Hjk. congruence. }
  destruct (ltk j k) eqn:E2; cbn.
  - rewrite IH by done. rewrite (eqk_neq k j) by (intros ->; now apply (lt_neq j j)).
    destruct (eqk k' j) eqn:Ej; [|done]. apply eqk_spec in Ej as ->.
    now rewrite (eqk_neq j k) by now apply lt_neq.
  - pose proof (ltk_total _ _ E1 E2) as ->. rewrite eqk_refl. now destruct (eqk k' j).
Qed.

Lemma update_child_Forall (P : K * Node K V -> Prop) f cs k :
  Forall P cs -> P (k, f new_Node) -> (forall c, P (k, c) -> P (k, f c)) ->
  Forall P (update_child f cs k).
Proof.
  intros Hcs Hn Hf. induction Hcs as [|[k' c] cs Hc Hcs IH]; cbn; [auto|].
  destruct (ltk k k') eqn:E1; [auto|]. destruct (ltk k' k) eqn:E2; [auto|].
  pose proof (ltk_total _ _ E1 E2) as ->. auto.
Qed.

Lemma insert_keys n s v : map fst (children (insert n s v)) =
  match s with [] => map fst (children n) | k :: _ => set_insert (map fst (children n)) k end.
Proof. destruct s; cbn; [done|]. apply map_fst_update. Qed.

Lemma map_insert_wf n s v : wf n -> StronglySorted lt_ s -> wf (insert n s v).
Proof.
  revert n. induction s as [|k s IH]; intros n Hn Hs; destruct Hn as [w e cs Hcs Hc]; [now constructor|].
  apply StronglySorted_inv in Hs as [Hs Hk]. cbn. constructor.
  { rewrite map_fst_update. now apply set_insert_sorted. }
  assert (Hkeys : forall c, Forall (lt_ k) (map fst (children c)) ->
    Forall (lt_ k) (map fst (children (insert c s v)))).
  { intros c H. rewrite insert_keys. destruct s; [done|]. apply Forall_cons in Hk as [??].
    now apply set_insert_Forall. }
  apply update_child_Forall; [done|split; [apply Hkeys; constructor|apply IH; [exact wf_new|done]]|].
  cbn. intros c [??]. auto.
Qed.

Lemma lookup_new s : lookup new_Node s = None.
Proof. now destruct s. Qed.

Lemma lookup_insert_eq n s v : wf n -> lookup (insert n s v) s = Some v.
Proof.
  revert n. induction s as [|k s IH]; intros n Hn; [done|]. destruct Hn as [w e cs Hcs Hc]. cbn.
  rewrite child_update, eqk_refl by done. destruct (child cs k) as [c|] eqn:E; [|apply IH, wf_new].
  apply IH. apply child_elem in E. rewrite Forall_forall in Hc. now apply Hc in E.
Qed.

Lemma lookup_insert_ne n s s' v : wf n -> s <> s' -> lookup (insert n s v) s' = lookup n s'.
Proof.
  revert n s'. induction s as [|k s IH]; intros n s' Hn Hne; destruct Hn as [w e cs Hcs Hc];
    (destruct s' as [|k' s']; [done|]); cbn; [done|].
  rewrite child_update by done. destruct (eqk k' k) eqn:E; [|done]. apply eqk_spec in E as ->.
  destruct (child cs k) as [c|] eqn:Ec.
  - apply IH; [|congruence]. apply child_elem in Ec. rewrite Forall_forall in Hc. now apply Hc in Ec.
  - rewrite IH; [apply lookup_new|apply wf_new|congruence].
Qed.

(** The sets of the map are sorted. *)
Lemma lookup_sorted n s v :
  wf n -> lookup n s = Some v ->
  StronglySorted lt_ s /\ forall b, Forall (lt_ b) (map fst (children n)) -> Forall (lt_ b) s.
Proof.
  revert n. induction s as [|k s IH]; intros n Hn; [split; constructor|].
  destruct Hn as [w e cs Hcs Hc]. cbn. destruct (child cs k) as [c|] eqn:Ec; [|done]. intros Hl.
  apply child_elem in Ec. pose proof Hc as Hc'. rewrite Forall_forall in Hc'.
  apply Hc' in Ec as H; destruct H as [Hk Hwc]; cbn in *.
  destruct (IH c Hwc Hl) as [Hs Hb]. split; [constructor; auto|].
  intros b Hbk. constructor.
  - rewrite Forall_forall in Hbk. apply Hbk, list_elem_of_fmap. now exists (k, c).
  - eapply Forall_impl; [exact (Hb k Hk)|]. intros x. apply lt_trans_.
    rewrite Forall_forall in Hbk. apply Hbk, list_elem_of_fmap. now exists (k, c).
Qed.

(** *** [findSubset] *)

Lemma skip_before_skip k k' it :
  lt_ k k' -> skip_before k' (skip_before k it) = skip_before k' it.
Proof.
  intros Hk. induction it as [|x it IH]; cbn; [done|]. destruct (ltk x k) eqn:E; [|done].
  rewrite IH. now rewrite (ltk_trans _ _ _ E Hk).
Qed.

(** From the element [k] on, when it is there. *)
Lemma skip_before_in k it :
  StronglySorted lt_ it -> k ∈ it ->
  exists it', skip_before k it = k :: it' /\ StronglySorted lt_ it' /\ forall x, lt_ k x -> x ∈ it -> x ∈ it'.
Proof.
  induction 1 as [|x it Hs IH Hx]; [now intros ?%elem_of_nil|]. intros [->|Hk]%elem_of_cons; cbn.
  - rewrite ltk_irrefl. exists it. split_and!; auto. intros y Hy [->|?]%elem_of_cons; [|done].
    now apply lt_neq in Hy.
  - rewrite Forall_forall in Hx. pose proof (Hx k Hk) as E. unfold lt_ in E. rewrite E.
    destruct (IH Hk) as (it' & ? & ? & Hi). exists it'. split_and!; auto.
    intros y Hy [->|?]%elem_of_cons; [|auto]. apply ltk_asym in Hy. congruence.
Qed.

Lemma skip_before_suffix k it x it' :
  StronglySorted lt_ it -> skip_before k it = x :: it' ->
  x ∈ it /\ it' ⊆ it /\ StronglySorted lt_ (x :: it').
Proof.
  induction 1 as [|y it Hs IH Hy]; cbn; [done|]. destruct (ltk y k).
  - intros H. destruct (IH H) as (? & ? & ?). split_and!; auto; set_solver.
  - intros [= -> ->]. split_and!; [set_solver..|]. now constructor.
Qed.

(** The children the loop looks at, and what is left of the set for them. *)
Lemma findSubset_loop_spec rec cs it :
  StronglySorted lt_ (map fst cs) ->
  match findSubset_loop rec cs it with
  | Some v => exists k c it', (k, c) ∈ cs /\ skip_before k it = k :: it' /\ rec c it' = Some v
  | None => forall k c it', (k, c) ∈ cs -> skip_before k it = k :: it' -> rec c it' = None
  end.
Proof.
  revert it. induction cs as [|[k c] cs IH]; intros it Hs; cbn [findSubset_loop]; [set_solver|].
  apply StronglySorted_inv in Hs as [Hs Hk]. rewrite Forall_forall in Hk.
  assert (Hkey : forall j d, (j, d) ∈ cs -> lt_ k j)
    by (intros j d H; apply Hk, list_elem_of_fmap; now exists (j, d)).
  assert (Hstep : forall it2,
    (forall j, lt_ k j -> skip_before j it2 = skip_before j it) ->
    (forall it', skip_before k it = k :: it' -> rec c it' = None) ->
    match findSubset_loop rec cs it2 with
    | Some v => exists j d it', (j, d) ∈ (k, c) :: cs /\ skip_before j it = j :: it' /\ rec d it' = Some v
    | None => forall j d it', (j, d) ∈ (k, c) :: cs -> skip_before j it = j :: it' -> rec d it' = None
    end).
  { intros it2 Hsk Hc. specialize (IH it2 Hs). destruct (findSubset_loop rec cs it2) as [v|].
    - destruct IH as (j & d & it' & Hj & Hi & Hr). exists j, d, it'.
      split_and!; [now right|rewrite <- Hsk; eauto|done].
    - intros j d it' [[= -> ->]|Hj]%elem_of_cons Hi; [auto|].
      apply (IH j d it' Hj). rewrite Hsk; eauto. }
  destruct it as [|x it]; [intros j d it' _ H; discriminate H|].
  destruct (ltk k x) eqn:Ekx.
  { apply Hstep; [done|]. intros it' H. cbn in H. rewrite (ltk_asym _ _ Ekx) in H.
    injection H as -> _. now rewrite ltk_irrefl in Ekx. }
  destruct (skip_before k (x :: it)) as [|x' it'] eqn:Es.
  { intros j d it' [[= -> ->]|Hj]%elem_of_cons Hi; [congruence|].
    rewrite <- (skip_before_skip k) in Hi by eauto. rewrite Es in Hi. discriminate Hi. }
  assert (Hskip : forall j, lt_ k j -> skip_before j (x' :: it') = skip_before j (x :: it))
    by (intros j Hj; rewrite <- Es; now apply skip_before_skip).
  destruct (eqk x' k) eqn:Ek.
  - apply eqk_spec in Ek as ->. destruct (rec c it') as [v|] eqn:Er.
    { exists k, c, it'. split_and!; auto. now left. }
    destruct it' as [|y it'].
    + intros j d it' [[= -> ->]|Hj]%elem_of_cons Hi; [congruence|].
      rewrite <- Hskip in Hi by eauto. cbn in Hi. rewrite (Hkey j d Hj) in Hi. discriminate Hi.
    + apply Hstep; [|congruence]. intros j Hj. rewrite <- Hskip by done. cbn [skip_before].
      unfold lt_ in Hj. now rewrite Hj.
  - apply Hstep; [done|]. intros it2 H. injection H as -> _. now rewrite eqk_refl in Ek.
Qed.

Lemma findSubset_spec p n s :
  wf n -> StronglySorted lt_ s ->
  match findSubset p n s with
  | Some v => p v = true /\ exists t, t ⊆ s /\ lookup n t = Some v
  | None => forall t v, t ⊆ s -> lookup n t = Some v -> p v = false
  end.
Proof.
  revert s. induction n as [v e cs IH] using Node_nested_ind. intros s Hn Hs. inversion Hn as [? ? ? Hcs Hc]; subst.
  rewrite Forall_forall in IH, Hc. cbn [findSubset].
  destruct (e && p v) eqn:Eep.
  { apply andb_true_iff in Eep as [-> Ep]. split; [done|]. exists []. split; [set_solver|done]. }
  assert (Hnil : forall w, lookup (mkNode v e cs) [] = Some w -> p w = false).
  { cbn. intros w. destruct e; [|done]. now intros [= <-]. }
  destruct s as [|x s]; [intros [|k t] w Ht; [auto|set_solver]|].
  pose proof (findSubset_loop_spec (findSubset p) cs (x :: s) Hcs) as Hl.
  destruct (findSubset_loop (findSubset p) cs (x :: s)) as [w|].
  - destruct Hl as (k & c & it' & Hk & Hsk & Hr).
    destruct (skip_before_suffix _ _ _ _ Hs Hsk) as (Hin & Hsub & [Hs' _]%StronglySorted_inv).
    specialize (IH _ Hk it' (proj2 (Hc _ Hk)) Hs'). cbn in IH. rewrite Hr in IH.
    destruct IH as (Hp & t & Ht & Hlk). split; [done|]. exists (k :: t). split; [set_solver|].
    cbn. now rewrite (elem_child _ _ _ Hcs Hk).
  - intros [|k t] w Ht; [auto|]. intros Hlk. pose proof Hlk as Hlk0. cbn in Hlk.
    destruct (child cs k) as [c|] eqn:Ec; [|done].
    apply child_elem in Ec. destruct (skip_before_in k _ Hs) as (it' & Hsk & Hs' & Hafter); [set_solver|].
    specialize (Hl k c it' Ec Hsk). specialize (IH _ Ec it' (proj2 (Hc _ Ec)) Hs'). cbn in IH.
    rewrite Hl in IH. apply (IH t); [|done].
    apply (lookup_sorted _ _ _ Hn) in Hlk0 as [[_ Hkt]%StronglySorted_inv _].
    rewrite Forall_forall in Hkt. intros y Hy. apply Hafter; [auto|set_solver].
Qed.

(** *** [findSuperset] *)

Lemma first_result_spec rec cs :
  match first_result rec cs with
  | Some v => exists k c, (k, c) ∈ cs /\ rec c = Some v
  | None => forall k c, (k, c) ∈ cs -> rec c = None
  end.
Proof.
  induction cs as [|[k c] cs IH]; cbn; [set_solver|]. destruct (rec c) as [v|] eqn:E.
  - exists k, c. split; [now left|done].
  - destruct (first_result rec cs).
    + destruct IH as (j & d & ? & ?). exists j, d. split; [now right|done].
    + intros j d [[= -> ->]|?]%elem_of_cons; eauto.
Qed.

Lemma at_kmid_spec rec b cs :
  StronglySorted lt_ (map fst cs) ->
  at_kmid rec b cs = match child cs b with Some c => rec c | None => None end.
Proof.
  induction cs as [|[k c] cs IH]; cbn; [done|]. intros [Hs Hk]%StronglySorted_inv.
  destruct (ltk k b) eqn:E.
  - rewrite (eqk_neq b k) by (intros ->; now apply (lt_neq k k)). auto.
  - destruct (eqk b k) eqn:Ek; [done|]. destruct (child cs b) as [d|] eqn:Ec; [|done].
    apply child_elem in Ec. rewrite Forall_forall in Hk.
    assert (H : lt_ k b) by (apply Hk, list_elem_of_fmap; now exists (b, d)). unfold lt_ in H. congruence.
Qed.

(** A superset of [b :: s] that starts below [b] has all of it in its tail. *)
Lemma superset_tail b s k t :
  StronglySorted lt_ (b :: s) -> StronglySorted lt_ (k :: t) -> b :: s ⊆ k :: t ->
  (k = b /\ s ⊆ t) \/ (lt_ k b /\ b :: s ⊆ t).
Proof.
  intros [Hs Hb]%StronglySorted_inv [Ht Hk]%StronglySorted_inv Hsub.
  rewrite Forall_forall in Hb, Hk.
  assert (b ∈ k :: t) as [->|Hbt]%elem_of_cons by set_solver.
  - left. split; [done|]. intros x Hx. assert (x ∈ k :: t) as [->|?]%elem_of_cons by set_solver; [|done].
    now apply Hb, lt_neq in Hx.
  - right. pose proof (Hk b Hbt) as Hkb. split; [done|]. intros x Hx.
    assert (x ∈ k :: t) as [->|?]%elem_of_cons by set_solver; [|done].
    apply elem_of_cons in Hx as [->|Hx]; [done|].
    apply Hb in Hx. apply ltk_asym in Hx. unfold lt_ in Hkb. congruence.
Qed.

Lemma first_result_Some rec cs v :
  first_result rec cs = Some v -> exists k c, (k, c) ∈ cs /\ rec c = Some v.
Proof. intros H. pose proof (first_result_spec rec cs) as Hf. now rewrite H in Hf. Qed.
Lemma first_result_None rec cs k c : first_result rec cs = None -> (k, c) ∈ cs -> rec c = None.
Proof. intros H. pose proof (first_result_spec rec cs) as Hf. rewrite H in Hf. eauto. Qed.

Lemma findSuperset_sound p n s v :
  wf n -> findSuperset p n s = Some v -> p v = true /\ exists t, s ⊆ t /\ lookup n t = Some v.
Proof.
  revert s. induction n as [w e cs IH] using Node_nested_ind. intros s Hn. inversion Hn as [? ? ? Hcs Hc]; subst.
  rewrite Forall_forall in IH, Hc.
  assert (Hfound : forall k c s' s, (k, c) ∈ cs -> (forall t, s' ⊆ t -> s ⊆ k :: t) ->
    findSuperset p c s' = Some v ->
    p v = true /\ exists t, s ⊆ t /\ lookup (mkNode w e cs) t = Some v).
  { intros k c s1 s2 Hk Hsub Hr. destruct (IH _ Hk s1 (proj2 (Hc _ Hk)) Hr) as (Hp & t & Ht & Hl).
    split; [done|]. exists (k :: t). split; [auto|]. cbn. now rewrite (elem_child _ _ _ Hcs Hk). }
  cbn [findSuperset]. destruct s as [|b s].
  - destruct (e && p w) eqn:E.
    + apply andb_true_iff in E as [-> Hp]. intros [= <-]. split; [done|]. exists []. split; [set_solver|done].
    + intros (k & c & Hk & Hr)%first_result_Some. eapply Hfound; [exact Hk| |exact Hr]. set_solver.
  - destruct (first_result _ cs) as [w'|] eqn:E.
    + intros [= ->]. apply first_result_Some in E as (k & c & Hk & Hr).
      eapply Hfound; [exact Hk| |exact Hr]. set_solver.
    + rewrite at_kmid_spec by done. destruct (child cs b) as [c|] eqn:Ec; [|done]. intros Hr.
      apply child_elem in Ec. eapply Hfound; [exact Ec| |exact Hr]. set_solver.
Qed.

Lemma findSuperset_complete p n s t v :
  wf n -> StronglySorted lt_ s -> findSuperset p n s = None -> s ⊆ t -> lookup n t = Some v -> p v = false.
Proof.
  revert s t. induction n as [w e cs IH] using Node_nested_ind. intros s t Hn Hs Hr Hsub Hl.
  pose proof (lookup_sorted _ _ _ Hn Hl) as [Hst _]. inversion Hn as [? ? ? Hcs Hc]; subst.
  rewrite Forall_forall in IH, Hc.
  destruct t as [|k t].
  { destruct s; [|set_solver]. cbn in Hr, Hl. destruct e; [|done]. injection Hl as ->. cbn in Hr.
    now destruct (p v). }
  cbn [lookup children] in Hl. destruct (child cs k) as [c|] eqn:Ec; [|done].
  apply child_elem in Ec as Hk. cbn [findSuperset] in Hr.
  destruct s as [|b s].
  - destruct (e && p w); [done|]. apply (IH _ Hk [] t (proj2 (Hc _ Hk)) Hs); [|set_solver|exact Hl].
    exact (first_result_None _ _ _ _ Hr Hk).
  - destruct (first_result _ cs) as [w'|] eqn:E; [done|]. rewrite at_kmid_spec in Hr by done.
    destruct (superset_tail b s k t Hs Hst Hsub) as [[-> Hs']|[_ Hs']].
    + rewrite Ec in Hr. apply StronglySorted_inv in Hs as [Hs _].
      now apply (IH _ Hk s t (proj2 (Hc _ Hk)) Hs).
    + apply (IH _ Hk (b :: s) t (proj2 (Hc _ Hk)) Hs); [|done..].
      exact (first_result_None _ _ _ _ E Hk).
Qed.

(** *** [subsets] and [supersets] *)

Lemma set_insert_last s k : Forall (fun x => lt_ x k) s -> set_insert s k = s ++ [k].
Proof.
  induction 1 as [|x s Hx Hs IH]; cbn; [done|]. rewrite (ltk_asym _ _ Hx). unfold lt_ in Hx.
  rewrite Hx. now rewrite IH.
Qed.

Lemma end_result_spec n acc t v :
  (t, v) ∈ end_result n acc <-> t = acc /\ lookup n [] = Some v.
Proof.
  unfold end_result. cbn. destruct (isEndOfSet n); [|set_solver].
  rewrite list_elem_of_singleton. naive_solver.
Qed.

Lemma subset_cons_cases x it k t :
  StronglySorted lt_ (x :: it) -> StronglySorted lt_ (k :: t) ->
  k :: t ⊆ x :: it <-> (k = x /\ t ⊆ it) \/ k :: t ⊆ it.
Proof.
  intros [Hit Hx]%StronglySorted_inv [Ht Hk]%StronglySorted_inv. rewrite Forall_forall in Hx, Hk. split.
  - intros Hsub. assert (k ∈ x :: it) as [->|Hki]%elem_of_cons by set_solver.
    + left. split; [done|]. intros y Hy. assert (y ∈ x :: it) as [->|?]%elem_of_cons by set_solver; [|done].
      now apply Hk, lt_neq in Hy.
    + right. intros y Hy. assert (y ∈ x :: it) as [->|?]%elem_of_cons by set_solver; [|done].
      apply elem_of_cons in Hy as [->|Hy]; [done|]. pose proof (ltk_trans _ _ _ (Hx k Hki) (Hk x Hy)).
      now rewrite ltk_irrefl in *.
  - intros [[-> ?]|?]; set_solver.
Qed.

Lemma wf_child n k c :
  wf n -> child (children n) k = Some c -> wf c /\ Forall (lt_ k) (map fst (children c)).
Proof.
  intros [v e cs Hcs Hc] E. apply child_elem in E. rewrite Forall_forall in Hc. now apply Hc in E as [??].
Qed.

Lemma findSubsets_loop_spec n acc it t v :
  wf n -> StronglySorted lt_ it -> Forall (fun a => Forall (lt_ a) it) acc ->
  (t, v) ∈ findSubsets_loop n acc it <->
  exists k t', t = acc ++ k :: t' /\ k :: t' ⊆ it /\ lookup n (k :: t') = Some v.
Proof.
  revert n acc. induction it as [|x it IH]; intros n acc Hn Hs Hacc; cbn [findSubsets_loop]; [set_solver|].
  pose proof Hs as [Hs' Hx]%StronglySorted_inv.
  assert (Hacc' : Forall (fun a => Forall (lt_ a) it) acc)
    by (eapply Forall_impl; [exact Hacc|]; cbn; intros a [_ ?]%Forall_cons; done).
  assert (Hlast : set_insert acc x = acc ++ [x]).
  { apply set_insert_last. eapply Forall_impl; [exact Hacc|]. cbn. intros a [? _]%Forall_cons. done. }
  rewrite elem_of_app, (IH n acc Hn Hs' Hacc'), Hlast.
  transitivity ((exists t', t = acc ++ x :: t' /\ t' ⊆ it /\ lookup n (x :: t') = Some v) \/
    (exists k t', t = acc ++ k :: t' /\ k :: t' ⊆ it /\ lookup n (k :: t') = Some v)).
  - apply or_iff_compat_r. cbn [lookup]. destruct (child (children n) x) as [c|] eqn:Ec; [|set_solver].
    destruct (wf_child _ _ _ Hn Ec) as [Hc _].
    rewrite elem_of_app, end_result_spec, (IH c (acc ++ [x]) Hc Hs')
      by (apply Forall_app; split; [done|now constructor]).
    split.
    + intros [[-> Hl]|(k & t' & -> & Hsub & Hl)]; [exists []; set_solver|].
      exists (k :: t'). now rewrite <- app_assoc.
    + intros ([|k t'] & -> & Hsub & Hl); [now left|right]. exists k, t'. now rewrite <- app_assoc.
  - split.
    + intros [(t' & -> & Hsub & Hl)|(k & t' & -> & Hsub & Hl)]; eexists _, _; split_and!; try done; set_solver.
    + intros (k & t' & -> & Hsub & Hl). pose proof (lookup_sorted _ _ _ Hn Hl) as [Hk _].
      apply subset_cons_cases in Hsub as [[-> Hsub]|Hsub]; [left|right|done..]; eauto.
Qed.

Lemma subsets_spec root s t v :
  wf root -> StronglySorted lt_ s ->
  (t, v) ∈ subsets root s <-> t ⊆ s /\ lookup root t = Some v.
Proof.
  intros Hr Hs. unfold subsets, findSubsets.
  rewrite elem_of_app, end_result_spec, findSubsets_loop_spec by (done || constructor).
  split.
  - intros [[-> Hl]|(k & t' & -> & Hsub & Hl)]; split; (done || set_solver).
  - intros [Hsub Hl]. destruct t as [|k t]; [now left|right]. now exists k, t.
Qed.

(** Where the keys stop: after the wanted element. *)
Lemma superset_cons_cases b s k t :
  StronglySorted lt_ (b :: s) -> StronglySorted lt_ (k :: t) ->
  b :: s ⊆ k :: t <-> (k = b /\ s ⊆ t) \/ (lt_ k b /\ b :: s ⊆ t).
Proof.
  intros Hs Ht. split; [now apply superset_tail|]. intros [[-> ?]|[_ ?]]; set_solver.
Qed.

Lemma findSupersets_all_spec rec acc cs t v :
  (t, v) ∈ findSupersets_all rec acc cs <->
  exists k c, (k, c) ∈ cs /\ (t, v) ∈ rec c (set_insert acc k).
Proof.
  induction cs as [|[k c] cs IH]; cbn; [set_solver|]. rewrite elem_of_app, IH. set_solver.
Qed.

Lemma findSupersets_at_spec rec here acc elt cs t v :
  StronglySorted lt_ (map fst cs) ->
  (t, v) ∈ findSupersets_at rec here acc elt cs <->
  exists k c, (k, c) ∈ cs /\
    (k = elt /\ (t, v) ∈ rec c (set_insert acc k) \/ lt_ k elt /\ (t, v) ∈ here c (set_insert acc k)).
Proof.
  induction cs as [|[k c] cs IH]; cbn; [set_solver|]. intros [Hs Hk]%StronglySorted_inv.
  rewrite Forall_forall in Hk.
  assert (Hkey : forall j d, (j, d) ∈ cs -> lt_ k j)
    by (intros j d H; apply Hk, list_elem_of_fmap; now exists (j, d)).
  destruct (eqk elt k) eqn:Ek; [apply eqk_spec in Ek as ->|].
  - rewrite elem_of_app, (IH Hs). split; [set_solver|].
    intros (j & d & [[= -> ->]|Hj]%elem_of_cons & H); [|set_solver].
    destruct H as [[_ ?]|[H _]]; [now left|]. now apply lt_neq in H.
  - destruct (ltk k elt) eqn:El.
    + rewrite elem_of_app, (IH Hs). split; [set_solver|].
      intros (j & d & [[= -> ->]|Hj]%elem_of_cons & H); [|set_solver].
      destruct H as [[-> _]|[_ ?]]; [now rewrite eqk_refl in Ek|now left].
    + split; [set_solver|]. intros (j & d & [[= -> ->]|Hj]%elem_of_cons & H).
      * destruct H as [[-> _]|[H _]]; [now rewrite eqk_refl in Ek|unfold lt_ in H; congruence].
      * pose proof (Hkey j d Hj) as Hkj. destruct H as [[-> _]|[H _]]; unfold lt_ in *; [congruence|].
        pose proof (ltk_trans _ _ _ Hkj H). congruence.
Qed.

Lemma findSupersets_spec n acc it t v :
  wf n -> StronglySorted lt_ it -> Forall (fun a => Forall (lt_ a) (map fst (children n))) acc ->
  (t, v) ∈ findSupersets n acc it <-> exists t', t = acc ++ t' /\ it ⊆ t' /\ lookup n t' = Some v.
Proof.
  revert acc it. induction n as [w e cs IH] using Node_nested_ind. intros acc it Hn Hit Hacc.
  inversion Hn as [? ? ? Hcs Hc]; subst. rewrite Forall_forall in IH, Hc. cbn [children] in Hacc.
  assert (Hchild : forall k c it', (k, c) ∈ cs -> StronglySorted lt_ it' ->
    (t, v) ∈ findSupersets c (set_insert acc k) it' <->
    exists t', t = acc ++ k :: t' /\ it' ⊆ t' /\ lookup c t' = Some v).
  { intros k c it' Hk Hs'. destruct (Hc _ Hk) as [Hkeys Hwc].
    assert (Hak : Forall (fun a => lt_ a k) acc).
    { eapply Forall_impl; [exact Hacc|]. cbn. intros a. rewrite Forall_forall. intros H.
      apply H, list_elem_of_fmap. now exists (k, c). }
    rewrite set_insert_last by done. rewrite (IH _ Hk (acc ++ [k]) it' Hwc Hs').
    - split; intros (t' & -> & H); exists t'; now rewrite <- app_assoc.
    - apply Forall_app; split; [|now constructor]. eapply Forall_impl; [exact Hak|]. cbn. intros a Ha.
      eapply Forall_impl; [exact Hkeys|]. intros y. now apply lt_trans_. }
  assert (Hcons : forall k t' , lookup (mkNode w e cs) (k :: t') = Some v <->
    exists c, (k, c) ∈ cs /\ lookup c t' = Some v).
  { intros k t'. cbn [lookup children]. destruct (child cs k) as [c|] eqn:Ec.
    - apply child_elem in Ec as Hk. split; [eauto|]. intros (d & Hd & Hl).
      apply (elem_child _ _ _ Hcs) in Hd. congruence.
    - split; [done|]. intros (d & Hd & _). apply (elem_child _ _ _ Hcs) in Hd. congruence. }
  cbn [findSupersets]. destruct it as [|elt next].
  - rewrite elem_of_app, end_result_spec, findSupersets_all_spec. split.
    + intros [[-> Hl]|(k & c & Hk & Ht)]; [exists []; now rewrite app_nil_r|].
      apply (Hchild k c [] Hk Hit) in Ht as (t' & -> & _ & Hl). exists (k :: t').
      split_and!; [done|set_solver|]. apply Hcons. eauto.
    + intros ([|k t'] & -> & _ & Hl); [left; now rewrite app_nil_r|right].
      apply Hcons in Hl as (c & Hk & Hl). exists k, c. split; [done|]. apply (Hchild k c [] Hk Hit).
      exists t'. split_and!; [done|set_solver|done].
  - rewrite findSupersets_at_spec by done. pose proof Hit as [Hnext _]%StronglySorted_inv. split.
    + intros (k & c & Hk & H).
      assert (exists t', t = acc ++ k :: t' /\ (k = elt /\ next ⊆ t' \/ elt :: next ⊆ t') /\
        lookup c t' = Some v) as (t' & -> & Hsub & Hl).
      { destruct H as [[-> H]|[_ H]]; apply (Hchild _ _ _ Hk) in H as (t' & ? & ? & ?); eauto 6. }
      exists (k :: t'). split_and!; [done| |apply Hcons; eauto].
      destruct Hsub as [[-> ?]|?]; set_solver.
    + intros ([|k t'] & -> & Hsub & Hl); [set_solver|].
      pose proof (lookup_sorted _ _ _ Hn Hl) as [Hkt _]. apply Hcons in Hl as (c & Hk & Hl).
      exists k, c. split; [done|].
      apply superset_cons_cases in Hsub as [[-> Hsub]|[Hlt Hsub]]; [left|right|done..];
        (split; [done|]); apply (Hchild _ _ _ Hk); eauto.
Qed.

(** The trie is a map from sorted sets: [insert] makes its set map to the
    value and keeps the others, the empty and the cleared map hold nothing, and
    the invariant (children sorted, keys growing along every path) is kept. *)
Theorem map_insert_lookup n s s' v :
  wf n -> StronglySorted lt_ s ->
  wf (insert n s v) /\ lookup (insert n s v) s = Some v /\
  (s <> s' -> lookup (insert n s v) s' = lookup n s') /\
  wf (clear n) /\ lookup (clear n) s' = None.
Proof.
  intros Hn Hs. split_and!; [now apply map_insert_wf|now apply lookup_insert_eq| |apply wf_new|apply lookup_new].
  intros. now apply lookup_insert_ne.
Qed.

(** C35: [findSubset] and [findSuperset] decide what they search for: a result
    satisfies the predicate and is the value of some subset (superset) of the
    set asked for; without a result, no value of a subset (superset) satisfies
    the predicate. *)
Theorem find_sub_superset p n s :
  wf n -> StronglySorted lt_ s ->
  match findSubset p n s with
  | Some v => p v = true /\ exists t, t ⊆ s /\ lookup n t = Some v
  | None => forall t v, t ⊆ s -> lookup n t = Some v -> p v = false
  end /\
  match findSuperset p n s with
  | Some v => p v = true /\ exists t, s ⊆ t /\ lookup n t = Some v
  | None => forall t v, s ⊆ t -> lookup n t = Some v -> p v = false
  end.
Proof.
  intros Hn Hs. split; [now apply findSubset_spec|].
  destruct (findSuperset p n s) eqn:E; [now apply findSuperset_sound|].
  intros t v. now apply findSuperset_complete.
Qed.

(** [subsets] and [supersets] enumerate exactly the sets of the map that
    are subsets (supersets) of the given one, with their values. *)
Theorem subsets_supersets root s t v :
  wf root -> StronglySorted lt_ s ->
  ((t, v) ∈ subsets root s <-> t ⊆ s /\ lookup root t = Some v) /\
  ((t, v) ∈ supersets root s <-> s ⊆ t /\ lookup root t = Some v).
Proof.
  intros Hr Hs. split; [now apply subsets_spec|]. unfold supersets.
  rewrite findSupersets_spec by (done || constructor). split; [|eauto].
  intros (t' & -> & ?). done.
Qed.

End MapOfSets.

(** *** Keys under an injection

    The operations commute with a map of the keys that keeps their order, so
    that the laws for a total order hold for keys whose order is total only on a
    subset. *)

Section Rename.
Context {K K' V : Type} (f : K -> K') (ltk eqk : K -> K -> bool) (ltk' eqk' : K' -> K' -> bool) (default : V).
Context (Hlt : forall x y, ltk' (f x) (f y) = ltk x y) (Heq : forall x y, eqk' (f x) (f y) = eqk x y).

Fixpoint rename (n : Node K V) : Node K' V :=
  match n with mkNode v e cs => mkNode v e (map (fun kc => (f (fst kc), rename (snd kc))) cs) end.
Definition rename_child (kc : K * Node K V) : K' * Node K' V := (f (fst kc), rename (snd kc)).

Lemma rename_new : rename (new_Node default) = new_Node default.
Proof. done. Qed.
Lemma rename_children n : children (rename n) = map rename_child (children n).
Proof. now destruct n. Qed.
Lemma rename_value n : value (rename n) = value n.
Proof. now destruct n. Qed.
Lemma rename_end n : isEndOfSet (rename n) = isEndOfSet n.
Proof. now destruct n. Qed.

Lemma rename_set_insert s k : set_insert ltk' (map f s) (f k) = map f (set_insert ltk s k).
Proof. induction s as [|x s IH]; cbn; [done|]. rewrite !Hlt. destruct (ltk k x); [done|]. destruct (ltk x k); cbn; [now rewrite IH|done]. Qed.

Lemma rename_child_find cs k : child eqk' (map rename_child cs) (f k) = option_map rename (child eqk cs k).
Proof. induction cs as [|[k' c] cs IH]; cbn; [done|]. rewrite Heq. now destruct (eqk k k'). Qed.

Lemma rename_update_child g g' cs k : (forall c, g' (rename c) = rename (g c)) ->
  update_child ltk' default g' (map rename_child cs) (f k) = map rename_child (update_child ltk default g cs k).
Proof.
  intros Hg. assert (Hn : (f k, g' (new_Node default)) = rename_child (k, g (new_Node default))) by (unfold rename_child; cbn; now rewrite <- Hg).
  induction cs as [|[k' c] cs IH]; cbn; [now rewrite Hn|]. rewrite !Hlt. destruct (ltk k k'); [now rewrite Hn|].
  destruct (ltk k' k); cbn; [now rewrite IH|]. unfold rename_child at 2. cbn. now rewrite Hg.
Qed.

Lemma rename_insert s v : forall n, insert ltk' default (rename n) (map f s) v = rename (insert ltk default n s v).
Proof.
  induction s as [|k s IH]; intros [w e cs]; cbn; [done|]. f_equal. apply rename_update_child. intros c. apply IH.
Qed.

Lemma rename_lookup s : forall n, lookup eqk' (rename n) (map f s) = lookup eqk n s.
Proof.
  induction s as [|k s IH]; intros [w e cs]; [done|]. cbn [map lookup]. rewrite rename_children, rename_child_find. cbn [children].
  destruct (child eqk cs k); cbn; [apply IH|done].
Qed.

Lemma rename_skip_before k it : skip_before ltk' (f k) (map f it) = map f (skip_before ltk k it).
Proof. induction it as [|x it IH]; cbn; [done|]. rewrite Hlt. now destruct (ltk x k). Qed.

Lemma rename_findSubset_loop rec rec' cs : Forall (fun kc => forall it, rec' (rename (snd kc)) (map f it) = rec (snd kc) it) cs ->
  forall it, findSubset_loop ltk' eqk' rec' (map rename_child cs) (map f it) = findSubset_loop ltk eqk rec cs it.
Proof.
  induction 1 as [|[k c] cs Hc Hcs IH]; intros it; [done|]. cbn [map rename_child findSubset_loop fst snd].
  destruct it as [|x it]; [done|]. cbn [map]. rewrite Hlt. destruct (ltk k x); [apply (IH (x :: it))|].
  change (f x :: map f it) with (map f (x :: it)). rewrite rename_skip_before. destruct (skip_before ltk k (x :: it)) as [|x' it']; [done|].
  cbn [map]. rewrite Heq. destruct (eqk x' k); [|apply (IH (x' :: it'))]. cbn [snd] in Hc. rewrite Hc.
  destruct (rec c it'); [done|]. destruct it' as [|y it']; [done|]. apply (IH (y :: it')).
Qed.

Lemma rename_findSubset p n : forall s, findSubset ltk' eqk' p (rename n) (map f s) = findSubset ltk eqk p n s.
Proof.
  induction n as [v e cs IH] using Node_nested_ind. intros s. cbn [rename findSubset]. destruct (e && p v); [done|].
  destruct s as [|x s]; [done|]. cbn [map]. change (f x :: map f s) with (map f (x :: s)). now apply rename_findSubset_loop.
Qed.

Lemma rename_first_result rec rec' cs : Forall (fun kc => rec' (rename (snd kc)) = rec (snd kc)) cs ->
  first_result rec' (map rename_child cs) = first_result (V:=V) rec cs.
Proof. induction 1 as [|[k c] cs Hc Hcs IH]; cbn in *; [done|]. rewrite Hc. destruct (rec c); [done|apply IH]. Qed.

Lemma rename_at_kmid rec rec' b cs : Forall (fun kc => rec' (rename (snd kc)) = rec (snd kc)) cs ->
  at_kmid ltk' eqk' rec' (f b) (map rename_child cs) = at_kmid (V:=V) ltk eqk rec b cs.
Proof.
  induction 1 as [|[k c] cs Hc Hcs IH]; cbn in *; [done|]. rewrite Hlt, Heq. destruct (ltk k b); [apply IH|]. now destruct (eqk b k).
Qed.

Lemma rename_findSuperset p n : forall s, findSuperset ltk' eqk' p (rename n) (map f s) = findSuperset ltk eqk p n s.
Proof.
  induction n as [v e cs IH] using Node_nested_ind. intros s. cbn [rename findSuperset].
  assert (IH' : forall s, Forall (fun kc => findSuperset ltk' eqk' p (rename (snd kc)) (map f s) = findSuperset ltk eqk p (snd kc) s) cs)
    by (intros; eapply Forall_impl; [exact IH|]; cbn; auto).
  change (map (fun kc => (f (fst kc), rename (snd kc))) cs) with (map rename_child cs).
  destruct s as [|b s]; cbn [map].
  - destruct (e && p v); [done|]. exact (rename_first_result _ (fun c => findSuperset ltk' eqk' p c []) cs (IH' [])).
  - rewrite (rename_first_result (fun c => findSuperset ltk eqk p c (b :: s)) (fun c => findSuperset ltk' eqk' p c (f b :: map f s)) cs (IH' (b :: s))).
    destruct (first_result _ cs); [done|]. exact (rename_at_kmid _ (fun c => findSuperset ltk' eqk' p c (map f s)) b cs (IH' s)).
Qed.

End Rename.

End MapOfSets.

(** ** A concrete map *)

#[export] Instance Z_total_order : StrictTotalOrder Z.ltb Z.eqb.
Proof. split; intros; rewrite ?Z.ltb_lt, ?Z.ltb_ge, ?Z.eqb_eq in *; lia. Qed.

Definition sample_sets : MapOfSets.Node Z Z :=
  fold_left (fun m sv => MapOfSets.insert Z.ltb 0 m (fst sv) (snd sv))
    [([1; 3], 13); ([1; 2; 4], 124); ([2], 2); ([], 0)] (MapOfSets.new_Node 0).

Lemma sorted_Z l : Sorted.LocallySorted Z.lt l -> StronglySorted (MapOfSets.lt_ Z.ltb) l.
Proof.
  intros H%Sorted_LocallySorted_iff. apply Sorted_StronglySorted in H; [|intros ???; lia].
  induction H as [|x l Hs IH Hx]; constructor; [done|]. eapply Forall_impl; [exact Hx|].
  intros y Hy. unfold MapOfSets.lt_. now apply Z.ltb_lt.
Qed.

Ltac sorted_list := apply sorted_Z; repeat constructor; lia.

Lemma sample_sets_wf : MapOfSets.wf Z.ltb sample_sets.
Proof.
  unfold sample_sets. cbn [fold_left fst snd].
  repeat (apply (MapOfSets.map_insert_wf Z.ltb Z.eqb 0); [|sorted_list]). apply MapOfSets.wf_new.
Qed.

Lemma map_insert_lookup_witness :
  MapOfSets.lookup Z.eqb (MapOfSets.insert Z.ltb 0 sample_sets [1; 4] 14) [1; 4] = Some 14.
Proof.
  apply (MapOfSets.map_insert_lookup Z.ltb Z.eqb 0 sample_sets [1; 4] [] 14);
    [exact sample_sets_wf|sorted_list].
Defined.

Lemma find_sub_superset_witness :
  MapOfSets.findSubset Z.ltb Z.eqb (Z.leb 3) sample_sets [1; 2; 3] = Some 13 /\
  (exists t, t ⊆ [1; 2; 3] /\ MapOfSets.lookup Z.eqb sample_sets t = Some 13).
Proof.
  split; [reflexivity|].
  apply (MapOfSets.find_sub_superset Z.ltb Z.eqb (Z.leb 3) sample_sets [1; 2; 3]);
    [exact sample_sets_wf|sorted_list].
Defined.

Lemma subsets_supersets_witness :
  ([1; 2; 4], 124) ∈ MapOfSets.supersets Z.ltb Z.eqb sample_sets [1; 4].
Proof.
  apply (MapOfSets.subsets_supersets Z.ltb Z.eqb sample_sets [1; 4] [1; 2; 4] 124);
    [exact sample_sets_wf|sorted_list|split; [set_solver|reflexivity]].
Defined.
