(* ===== verification/Bits.v ===== *)
(** * Bit tricks on machine words

    src/include/klee/util/Bits.h, the namespaces [bits32] and [bits64], which
    differ in the width [w] of the words.  An [assert] is [check]. *)

From S2P Require Import Prelude.

Section Words.
Context (w : Z).

Definition maxValueOfNBits (N : Z) : Z := if N =? 0 then 0 else Z.shiftr (2 ^ w - 1) (w - N).
Definition truncateToNBits (x N : Z) : Z := Z.land x (Z.shiftr (2 ^ w - 1) (w - N)).
Definition withoutRightmostBit (x : Z) : Z := Z.land x (BV.wrap w (x - 1)).
Definition isolateRightmostBit (x : Z) : Z := Z.land x (BV.wrap w (- x)).
Definition isPowerOfTwo (x : Z) : bool := if x =? 0 then false else Z.land x (BV.wrap w (x - 1)) =? 0.

End Words.

(** [assert(N <= 64)] *)
Definition checked_maxValueOfNBits (N : Z) : outcome Z := _ ← check (N <=? 64); Done (maxValueOfNBits 64 N).

Module bits32.

Definition indexOfSingleBit (x : Z) : outcome Z :=
  _ ← check (withoutRightmostBit 32 x =? 0);
  let bit mask n := if Z.land x mask =? 0 then 0 else n in
  let res := bit 0xFFFF0000 16 + bit 0xFF00FF00 8 + bit 0xF0F0F0F0 4 + bit 0xCCCCCCCC 2 + bit 0xAAAAAAAA 1 in
  _ ← check (res <? 32);
  _ ← check (BV.wrap 32 (Z.shiftl 1 res) =? x);
  Done res.

Definition indexOfRightmostBit (x : Z) : outcome Z := indexOfSingleBit (isolateRightmostBit 32 x).

End bits32.

Module bits64.

Definition indexOfSingleBit (x : Z) : outcome Z :=
  _ ← check (Z.land x (BV.wrap 64 (x - 1)) =? 0);
  res ← bits32.indexOfSingleBit (BV.wrap 32 (Z.lor x (Z.shiftr x 32)));
  let res := if Z.land x (Z.shiftl 0xFFFFFFFF 32) =? 0 then res else res + 32 in
  _ ← check (res <? 64);
  _ ← check (BV.wrap 64 (Z.shiftl 1 res) =? x);
  Done res.

Definition indexOfRightmostBit (x : Z) : outcome Z := indexOfSingleBit (isolateRightmostBit 64 x).

End bits64.

(** ** What they compute *)

Lemma maxValueOfNBits_spec w N : 0 <= N <= w -> maxValueOfNBits w N = 2 ^ N - 1.
Proof.
  intros HN. unfold maxValueOfNBits. destruct (Z.eqb_spec N 0) as [->|]; [done|]. rewrite Z.shiftr_div_pow2 by lia.
  replace (2 ^ w) with (2 ^ N * 2 ^ (w - N)) by (rewrite <- Z.pow_add_r by lia; f_equal; lia).
  pose proof (BV.pow2_pos (w - N) ltac:(lia)). pose proof (BV.pow2_pos N ltac:(lia)).
  symmetry. apply (Z.div_unique_pos _ _ _ (2 ^ (w - N) - 1)); lia.
Qed.

Lemma truncateToNBits_spec w x N : 0 < N <= w -> truncateToNBits w x N = BV.wrap N x.
Proof.
  intros HN. unfold truncateToNBits. assert (E : Z.shiftr (2 ^ w - 1) (w - N) = Z.ones N).
  { pose proof (maxValueOfNBits_spec w N ltac:(lia)) as H. unfold maxValueOfNBits in H. destruct (Z.eqb_spec N 0); [lia|].
    rewrite H, Z.ones_equiv. lia. }
  rewrite E. apply Z.land_ones. lia.
Qed.

(** Every positive word is an odd multiple of a power of two. *)
Lemma odd_multiple x : 0 < x -> exists k m, 0 <= k /\ 0 <= m /\ x = 2 ^ k * (2 * m + 1).
Proof.
  intros Hx. assert (H0 : 0 <= x) by lia. revert x H0 Hx.
  apply (Z_lt_induction (fun x => 0 < x -> exists k m, 0 <= k /\ 0 <= m /\ x = 2 ^ k * (2 * m + 1))).
  intros x IH Hx. pose proof (Z_div_mod_eq_full x 2) as E. pose proof (Z.mod_pos_bound x 2 ltac:(lia)).
  destruct (Z.eq_dec (x mod 2) 0) as [E0|E1].
  - destruct (IH (x / 2)) as (k & m & Hk & Hm & E2); [lia..|]. exists (k + 1), m. split_and!; [lia..|]. rewrite Z.pow_add_r by lia. lia.
  - exists 0, (x / 2). split_and!; lia.
Qed.

(** The bits of [2 ^ k * y + r]. *)
Lemma testbit_shifted k y r j : 0 <= k -> 0 <= r < 2 ^ k ->
  Z.testbit (2 ^ k * y + r) j = if j <? k then Z.testbit r j else Z.testbit y (j - k).
Proof.
  intros Hk Hr. destruct (Z.ltb_spec j k) as [Hj|Hj].
  - destruct (Z.ltb_spec j 0) as [Hn|Hn]; [now rewrite !Z.testbit_neg_r by lia|].
    rewrite <- (Z.mod_pow2_bits_low (2 ^ k * y + r) k j) by lia. f_equal.
    replace (2 ^ k * y + r) with (r + y * 2 ^ k) by lia. rewrite Z.mod_add, Z.mod_small by lia. done.
  - replace j with ((j - k) + k) at 1 by lia. rewrite <- Z.div_pow2_bits by lia. f_equal.
    rewrite Z.mul_comm, Z.div_add_l, Z.div_small by lia. lia.
Qed.

(** The two tricks, on an odd multiple of [2 ^ k]. *)
Lemma rightmost_bits w k m : 0 <= k -> 0 <= m -> 0 < w -> 2 ^ k * (2 * m + 1) < 2 ^ w ->
  withoutRightmostBit w (2 ^ k * (2 * m + 1)) = 2 ^ k * (2 * m) /\ isolateRightmostBit w (2 ^ k * (2 * m + 1)) = 2 ^ k.
Proof.
  intros Hk Hm Hw Hx. pose proof (BV.pow2_pos k Hk) as Hp. set (x := 2 ^ k * (2 * m + 1)) in *. assert (0 < x) by (subst x; nia). split.
  - unfold withoutRightmostBit. rewrite BV.wrap_small by lia. replace (x - 1) with (2 ^ k * (2 * m) + (2 ^ k - 1)) by (subst x; lia).
    replace x with (2 ^ k * (2 * m + 1) + 0) by (subst x; lia). replace (2 ^ k * (2 * m)) with (2 ^ k * (2 * m) + 0) at 2 by lia.
    apply Z.bits_inj'. intros j Hj. rewrite Z.land_spec, !testbit_shifted by lia. destruct (Z.ltb_spec j k); [now rewrite Z.bits_0|].
    destruct (Z.eq_dec (j - k) 0) as [->|Hn]; [now rewrite Z.testbit_odd_0, Z.testbit_even_0|].
    replace (j - k) with (Z.succ (j - k - 1)) by lia. rewrite Z.testbit_odd_succ, Z.testbit_even_succ by lia. apply andb_diag.
  - unfold isolateRightmostBit, BV.wrap. replace (- x) with ((2 ^ w - x) + (-1) * 2 ^ w) by lia.
    rewrite Z.mod_add, Z.mod_small by lia. assert (Hkw : k < w).
    { destruct (Z.lt_ge_cases k w); [done|]. assert (2 ^ w <= 2 ^ k) by (apply Z.pow_le_mono_r; lia). subst x. nia. }
    replace (2 ^ w) with (2 ^ k * (2 * 2 ^ (w - k - 1))) in Hx |- * by (rewrite <- Z.pow_succ_r, <- Z.pow_add_r by lia; f_equal; lia).
    replace (2 ^ k * (2 * 2 ^ (w - k - 1)) - x) with (2 ^ k * (2 * (2 ^ (w - k - 1) - m - 1) + 1) + 0) by (subst x; lia).
    replace x with (2 ^ k * (2 * m + 1) + 0) by (subst x; lia). replace (2 ^ k) with (2 ^ k * 1 + 0) at 3 by lia.
    apply Z.bits_inj'. intros j Hj. rewrite Z.land_spec, !testbit_shifted by lia. destruct (Z.ltb_spec j k); [now rewrite Z.bits_0|].
    destruct (Z.eq_dec (j - k) 0) as [->|Hn]; [now rewrite !Z.testbit_odd_0|].
    assert (H1 : Z.testbit 1 (j - k) = false) by (apply (Z.pow2_bits_false 0); lia). rewrite H1.
    replace (j - k) with (Z.succ (j - k - 1)) by lia. rewrite !Z.testbit_odd_succ by lia.
    replace (2 ^ (w - k - 1) - m - 1) with (2 ^ (w - k - 1) - 1 - m) by lia.
    assert (Hmr : 0 <= m < 2 ^ (w - k - 1)) by (subst x; nia). set (n := w - k - 1) in *.
    assert (E : forall j, 0 <= j -> Z.testbit m j && Z.testbit (2 ^ n - 1 - m) j = false); [|apply E; lia].
    intros i Hi. replace (2 ^ n - 1 - m) with (Z.lnot m + 1 * 2 ^ n) by (unfold Z.lnot; lia). destruct (Z.lt_ge_cases i n).
    + rewrite <- (Z.mod_pow2_bits_low (_ + _) n i), Z.mod_add, Z.mod_pow2_bits_low, Z.lnot_spec by lia. now destruct (Z.testbit m i).
    + now rewrite (BV.testbit_high n m i) by lia.
Qed.

Lemma isPowerOfTwo_spec w x : 0 < w -> 0 <= x < 2 ^ w -> isPowerOfTwo w x = true <-> exists k, 0 <= k /\ x = 2 ^ k.
Proof.
  intros Hw Hx. unfold isPowerOfTwo. destruct (Z.eqb_spec x 0) as [->|Hn].
  { split; [done|]. intros (k & Hk & E). pose proof (BV.pow2_pos k Hk). lia. }
  change (Z.land x (BV.wrap w (x - 1))) with (withoutRightmostBit w x).
  destruct (odd_multiple x) as (k & m & Hk & Hm & ->); [lia|]. pose proof (BV.pow2_pos k Hk).
  destruct (rightmost_bits w k m) as [-> _]; [lia..|]. rewrite Z.eqb_eq. split.
  - intros E. exists k. nia.
  - intros (j & Hj & E). destruct (Z.eq_dec m 0) as [->|Hm0]; [lia|]. exfalso.
    destruct (Z.le_gt_cases j k) as [Hjk|Hjk]; [assert (2 ^ j <= 2 ^ k) by (apply Z.pow_le_mono_r; lia); nia|].
    replace j with (k + 1 + (j - k - 1)) in E by lia. rewrite !Z.pow_add_r in E by lia.
    assert (2 * m + 1 = 2 * 2 ^ (j - k - 1)) by nia. lia.
Qed.

Lemma indexOfSingleBit_pow2 k : 0 <= k < 64 -> bits64.indexOfSingleBit (2 ^ k) = Done k.
Proof.
  intros Hk. assert (H : forallb (fun n => match bits64.indexOfSingleBit (2 ^ Z.of_nat n) with Done r => r =? Z.of_nat n | _ => false end) (seq 0 64) = true)
    by (vm_compute; reflexivity).
  rewrite forallb_forall in H. specialize (H (Z.to_nat k)). rewrite Z2Nat.id in H by lia.
  destruct (bits64.indexOfSingleBit (2 ^ k)); [|exfalso; apply diff_false_true, H, in_seq; lia..].
  f_equal. apply Z.eqb_eq, H, in_seq. lia.
Qed.

(** The tricks do what the comments of Bits.h say, on every 64-bit word but
    zero: [indexOfRightmostBit] returns the position of the lowest bit that is
    set, without a failing assert; [isolateRightmostBit] and
    [withoutRightmostBit] split the word into that bit and the rest;
    [isPowerOfTwo] holds exactly when there is no rest.  On zero,
    [indexOfRightmostBit] fails its assert. *)
Theorem rightmost_bit (x : Z) : 0 < x < 2 ^ 64 ->
  exists k, 0 <= k < 64 /\ Z.testbit x k = true /\ (forall j, j < k -> Z.testbit x j = false) /\
    bits64.indexOfRightmostBit x = Done k /\ isolateRightmostBit 64 x = 2 ^ k /\
    withoutRightmostBit 64 x = x - 2 ^ k /\ (isPowerOfTwo 64 x = true <-> x = 2 ^ k) /\
    bits64.indexOfRightmostBit 0 = Abort.
Proof.
  intros Hx. destruct (odd_multiple x) as (k & m & Hk & Hm & E); [lia|]. pose proof (BV.pow2_pos k Hk).
  destruct (rightmost_bits 64 k m) as [E1 E2]; [lia..|]. rewrite <- E in E1, E2.
  assert (Hk64 : k < 64).
  { destruct (Z.lt_ge_cases k 64); [done|]. assert (2 ^ 64 <= 2 ^ k) by (apply Z.pow_le_mono_r; lia). nia. }
  exists k. split_and!; [lia..| | | |done| | |reflexivity].
  - rewrite E. replace (2 ^ k * (2 * m + 1)) with (2 ^ k * (2 * m + 1) + 0) by lia. rewrite testbit_shifted by lia.
    rewrite Z.ltb_irrefl, Z.sub_diag. apply Z.testbit_odd_0.
  - intros j Hj. rewrite E. replace (2 ^ k * (2 * m + 1)) with (2 ^ k * (2 * m + 1) + 0) by lia. rewrite testbit_shifted by lia.
    rewrite (proj2 (Z.ltb_lt j k)) by done. apply Z.bits_0.
  - unfold bits64.indexOfRightmostBit. rewrite E2. now apply indexOfSingleBit_pow2.
  - rewrite E1. lia.
  - rewrite isPowerOfTwo_spec by lia. split; [|eauto]. intros (j & Hj & Ej).
    unfold isolateRightmostBit in E2. assert (Hj64 : j < 64) by (destruct (Z.lt_ge_cases j 64); [done|]; assert (2 ^ 64 <= 2 ^ j) by (apply Z.pow_le_mono_r; lia); lia).
    destruct (rightmost_bits 64 j 0) as [_ E3]; [lia..|]. replace (2 ^ j * (2 * 0 + 1)) with x in E3 by lia.
    unfold isolateRightmostBit in E3. congruence.
Qed.

Lemma rightmost_bit_witness : exists k, Z.testbit 40 k = true /\ bits64.indexOfRightmostBit 40 = Done k /\ k = 3.
Proof.
  destruct (rightmost_bit 40) as (k & Hk & Ht & _ & Hi & _); [lia|]. exists k. split_and!; [exact Ht|exact Hi|].
  assert (E : bits64.indexOfRightmostBit 40 = Done 3) by (vm_compute; reflexivity). rewrite Hi in E. now injection E.
Defined.
