(* ===== verification/Solver.v ===== *)
(** * The solver interface

    src/include/klee/Solver/Solver.h, SolverImpl.h and lib/Solver/Solver.cpp,
    SolverImpl.cpp, DummySolver.cpp: queries, the interface [SolverImpl] that
    every solver of the chain implements and calls, and the front end [Solver].

    A solver implementation is a record of its four operations over the type of
    its state (its caches, and the state of the solver it wraps).  An operation
    returns [None] where the source returns false (the solver failed), and
    [Abort] where an assert fails.

    [SolverSpec] is the contract of the interface, taken from the comments of
    SolverImpl.h; each solver of the chain is proved to meet it when the solver
    it wraps does. *)

From stdpp Require Import gmap strings.
From S2P Require Import Prelude APInt Expr ExprOrder ExprSem ExprCreate ExprCreateSound ExprRebuildSound ExprTyping ExprVisitor ExprEvaluator ExprUtil ExprClosure IndependentElementSet ConstraintManager.

(** ** Computations of a solver *)

Definition SolverM (S X : Type) : Type := S -> outcome (option X * S).

#[export] Instance SolverM_ret S : MRet (SolverM S) := fun X x s => Done (Some x, s).
#[export] Instance SolverM_bind S : MBind (SolverM S) := fun X Y k m s =>
  match m s with
  | Done (Some x, s') => k x s'
  | Done (None, s') => Done (None, s')
  | Abort => Abort
  | OutOfFuel => OutOfFuel
  end.

(** [return false] *)
Definition failure {S X} : SolverM S X := fun s => Done (None, s).

(** An assert that fails. *)
Definition abort {S X} : SolverM S X := fun _ => Abort.

(** [assert(b)] *)
Definition assume {S} (b : bool) : SolverM S unit := fun s => if b then Done (Some tt, s) else Abort.

(** A computation without effects on the state. *)
Definition pure {S X} (o : outcome X) : SolverM S X := fun s =>
  match o with Done x => Done (Some x, s) | Abort => Abort | OutOfFuel => OutOfFuel end.

Definition get {S} : SolverM S S := fun s => Done (Some s, s).
Definition put {S} (s' : S) : SolverM S unit := fun _ => Done (Some tt, s').

(** A computation of the wrapped solver, whose state is the second component. *)
Definition inner {T S X} (m : SolverM S X) : SolverM (T * S) X := fun s =>
  match m s.2 with
  | Done (x, s') => Done (x, (s.1, s'))
  | Abort => Abort
  | OutOfFuel => OutOfFuel
  end.

(** The solver's own state. *)
Definition own {T S} : SolverM (T * S) T := fun s => Done (Some s.1, s).
Definition set_own {T S} (t : T) : SolverM (T * S) unit := fun s => Done (Some tt, (t, s.2)).

(** ** Queries *)

(** [q_all] is [&constraints == &constraintMgr.getAllConstraints()]. *)
Record Query := mkQuery {
  constraintMgr : ConstraintManager;
  q_constraints : list Expr;
  q_all : bool;
  q_expr : Expr;
  q_indep_elemset : option IndependentElementSet
}.

(** [Query(constraintMgr, expr)] *)
Definition Query'create (mgr : ConstraintManager) (e : Expr) : Query := mkQuery mgr (constraints mgr) true e None.

Definition withExpr (q : Query) (e : Expr) : Query :=
  mkQuery (constraintMgr q) (q_constraints q) (q_all q) e (q_indep_elemset q).

Definition false_expr : Expr := ConstantExpr (APInt 1 0).
Definition withFalse (q : Query) : Query := withExpr q false_expr.

Inductive Validity := VTrue | VFalse | VUnknown.

#[export] Instance Validity_eq_dec : EqDecision Validity.
Proof. solve_decision. Defined.

Record SolverImpl (S : Type) := mkImpl {
  computeValidity : Query -> SolverM S Validity;
  computeTruth : Query -> SolverM S bool;
  computeValue : Query -> SolverM S Expr;
  computeInitialValues : Query -> list Array -> SolverM S (option (list (list Z)))
    (* [None] for [hasSolution == false] *)
}.
Arguments mkImpl {S}.
Arguments computeValidity {S}.
Arguments computeTruth {S}.
Arguments computeValue {S}.
Arguments computeInitialValues {S}.

Section Ops.
Context `{A : APIntOps} `{Opts : ExprOptions}.

Definition negateExpr (q : Query) : Query := withExpr q (createIsZero (q_expr q)).

(** The default [SolverImpl::computeValidity]. *)
Definition SolverImpl_computeValidity {S} (truth : Query -> SolverM S bool) (q : Query) : SolverM S Validity :=
  isTrue ← truth q;
  if isTrue : bool then mret VTrue
  else
    isFalse ← truth (negateExpr q);
    mret (if isFalse : bool then VFalse else VUnknown).

(** [DummySolverImpl]: every operation fails. *)
Definition DummySolver : SolverImpl unit :=
  mkImpl (fun _ => failure) (fun _ => failure) (fun _ => failure) (fun _ _ => failure).

(** ** The front end *)

Section FrontEnd.
Context {S : Type} (impl : SolverImpl S).

Definition is_bool (e : Expr) : bool := getWidth e =? Bool.

Definition evaluate (q : Query) : SolverM S Validity :=
  _ ← assume (is_bool (q_expr q));
  match q_expr q with
  | ConstantExpr CE => mret (if isTrue CE then VTrue else VFalse)
  | _ => computeValidity impl q
  end.

Definition mustBeTrue (q : Query) : SolverM S bool :=
  _ ← assume (is_bool (q_expr q));
  match q_expr q with
  | ConstantExpr CE => mret (isTrue CE)
  | _ => computeTruth impl q
  end.

Definition mustBeFalse (q : Query) : SolverM S bool := mustBeTrue (negateExpr q).

Definition mayBeTrue (q : Query) : SolverM S bool := res ← mustBeFalse q; mret (negb res).

Definition mayBeFalse (q : Query) : SolverM S bool := res ← mustBeTrue q; mret (negb res).

Definition getValue (q : Query) : SolverM S apint :=
  match q_expr q with
  | ConstantExpr CE => mret CE
  | _ =>
    tmp ← computeValue impl q;
    match tmp with ConstantExpr c => mret c | _ => abort end    (* cast<ConstantExpr> *)
  end.

(** The values, unless the solver failed or there is no solution. *)
Definition getInitialValues (q : Query) (objects : list Array) : SolverM S (list (list Z)) :=
  r ← computeInitialValues impl q objects;
  match r with Some values => mret values | None => failure end.

(** *** [getRange] *)

(** [assert(success && ...)] *)
Definition must_succeed {X} (m : SolverM S X) : SolverM S X := fun s =>
  match m s with Done (None, _) => Abort | r => r end.

(** The binary search loops: the first [mid] from [lo] on at which [test] is
    true, [hi] if it is false before. *)
Fixpoint search (fuel : nat) (test : Z -> SolverM S bool) (lo hi : Z) : SolverM S Z :=
  if lo <? hi then
    match fuel with
    | O => pure OutOfFuel
    | Datatypes.S fuel =>
      let mid := lo + (hi - lo) / 2 in
      res ← must_succeed (test mid);
      if res : bool then search fuel test lo mid else search fuel test (mid + 1) hi
    end
  else mret lo.

(** [bits64::maxValueOfNBits] *)
Definition maxValueOfNBits (N : Z) : Z := if N =? 0 then 0 else Z.shiftr (2 ^ 64 - 1) (64 - N).

(** Constants of a [uint64_t]. *)
Definition const_of (v width : Z) : Expr := ConstantExpr (ConstantExpr'create v width).

Definition getRange (q : Query) : SolverM S (Expr * Expr) :=
  let e := q_expr q in
  let width := getWidth e in
  minmax ←
    (if width =? 1 then
       result ← must_succeed (evaluate q);
       mret match result with VTrue => (1, 1) | VFalse => (0, 0) | VUnknown => (0, 1) end
     else
       match e with
       | ConstantExpr CE => mret (getZExtValue CE, getZExtValue CE)
       | _ =>
         bits ← search 64 (fun mid => mustBeTrue (withExpr q
           (EqExpr'create (Arith'create LShr e (const_of mid width)) (const_of 0 width)))) 0 width;
         res ← must_succeed (mayBeTrue (withExpr q (EqExpr'create e (const_of 0 width))));
         min ← (if res : bool then mret 0
                else search 64 (fun mid => mayBeTrue (withExpr q (Cmp'create Ule e (const_of mid width))))
                       0 (maxValueOfNBits bits));
         max ← search 64 (fun mid => mustBeTrue (withExpr q (Cmp'create Ule e (const_of mid width))))
                 min (maxValueOfNBits bits);
         mret (min, max)
       end);
  mret (const_of minmax.1 width, const_of minmax.2 width).

End FrontEnd.
End Ops.

(** ** What queries ask *)

(** The array contents an assignment describes: bytes within the size of the
    array, and zero beyond. *)
Definition byte_contents (rho : valuation) : Prop :=
  forall a i, 0 <= rho a i < 256 /\ (~ 0 <= i < Expr.size a -> rho a i = 0).

Definition satisfies (rho : valuation) (C : list Expr) : Prop := byte_contents rho /\ models rho C.
Definition satisfiable (C : list Expr) : Prop := exists rho, satisfies rho C.

(** [constraints(X) && !query(X)] *)
Definition counterexample (q : Query) (rho : valuation) : Prop :=
  satisfies rho (q_constraints q) /\ eval rho (q_expr q) = Some (APInt 1 0).
(** [constraints(X) && query(X)] *)
Definition example (q : Query) (rho : valuation) : Prop :=
  satisfies rho (q_constraints q) /\ eval rho (q_expr q) = Some (APInt 1 1).

Definition valid (q : Query) : Prop := forall rho, ~ counterexample q rho.
Definition refuted (q : Query) : Prop := forall rho, ~ example q rho.

Definition truth_spec (q : Query) (b : bool) : Prop := if b then valid q else exists rho, counterexample q rho.

Definition validity_spec (q : Query) (v : Validity) : Prop :=
  match v with
  | VTrue => valid q
  | VFalse => refuted q
  | VUnknown => (exists rho, example q rho) /\ exists rho, counterexample q rho
  end.

Definition value_spec (q : Query) (r : Expr) : Prop :=
  exists v rho, r = ConstantExpr v /\ satisfies rho (q_constraints q) /\ eval rho (q_expr q) = Some v.

(** The bytes of an array. *)
Definition bytes_of (rho : valuation) (a : Array) : list Z :=
  (fun i => rho a (Z.of_nat i)) <$> seq 0 (Z.to_nat (Expr.size a)).

Definition initial_spec (q : Query) (objects : list Array) (r : option (list (list Z))) : Prop :=
  match r with
  | Some values => exists rho, counterexample q rho /\ values = bytes_of rho <$> objects
  | None => valid q
  end.

(** An expression that has a value for all array contents, whose reads at
    constant indices are inside their arrays, and that the evaluator can
    evaluate; [U] are the arrays of the program. *)
Definition defined (e : Expr) : Prop := forall rho, byte_contents rho -> is_Some (eval rho e).

Definition reads_inside (e : Expr) : Prop := forall re, occurs true e (read_expr re) ->
  match re_index re with ConstantExpr c => ap_val c < Expr.size (re_root re) | _ => True end.

#[export] Instance reads_inside_structural : Structural reads_inside.
Proof.
  assert (Hk : forall e k, k ∈ operands true e -> reads_inside e -> reads_inside k).
  { intros e k Hk He re Hre. apply He. econstructor; eauto. }
  assert (Hi : forall e, (forall re, e <> read_expr re) -> (forall k, k ∈ operands true e -> reads_inside k) -> reads_inside e).
  { intros e Hn He re Hre. inversion Hre; subst; [now destruct (Hn re)|]. eapply He; eauto. }
  constructor.
  - intros c. apply Hi; [now intros [] |]. cbn. set_solver.
  - intros k a b _. split; [intros H; split; eapply Hk; try exact H; cbn; set_solver|]. intros [Ha Hb]. apply Hi; [now intros []|].
    cbn. set_solver.
  - intros k a b. split; [intros H; split; eapply Hk; try exact H; cbn; set_solver|]. intros [Ha Hb]. apply Hi; [now intros []|].
    cbn. set_solver.
  - intros k a w. split; [intros H; eapply Hk; try exact H; cbn; set_solver|]. intros Ha. apply Hi; [now intros []|].
    cbn. set_solver.
  - intros r h i H. eapply Hk; [|exact H]. cbn. set_solver.
Qed.

Lemma read_inside a c : ap_val c < Expr.size a -> reads_inside (ReadExpr a un_null (ConstantExpr c)).
Proof.
  intros Hc re H.
  assert (Hcases : forall x y, occurs true x y -> x = y \/ exists k, k ∈ operands true x /\ occurs true k y)
    by (intros x y []; eauto). apply Hcases in H as [E|(k & Hk & Hx)].
  - destruct re. injection E as <- <- <-. exact Hc.
  - cbn in Hk. apply list_elem_of_singleton in Hk as ->. exact (st_const (P:=reads_inside) _ re Hx).
Qed.

Record expr_ok (U : list Array) (e : Expr) : Prop := {
  eo_typed : well_typed e = true;
  eo_defined : defined e;
  eo_evaluable : evaluable true e = true;
  eo_arrays : arrays e ⊆ U;
  eo_inside : reads_inside e
}.

Definition bool_ok (U : list Array) (e : Expr) : Prop := getWidth e = 1 /\ expr_ok U e.

Lemma false_bool_ok U : bool_ok U false_expr.
Proof.
  split; [done|]. constructor; [done|intros rho _; now eexists|done|cbn; set_solver|apply (st_const (P:=reads_inside))].
Qed.

(** [Constraints_ty] is a set. *)
Definition constraints_ok (U : list Array) (C : list Expr) : Prop := NoDup C /\ Forall (bool_ok U) C.

(** ** The contract *)

(** From a state in [I], [m] returns without a failing assert, to a state in
    [I] and with a result in [P], or fails, which is possible only if [F]. *)
Definition spec {S X} (F : Prop) (I : S -> Prop) (m : SolverM S X) (P : X -> Prop) : Prop :=
  forall s, I s ->
  match m s with
  | Done (Some x, s') => I s' /\ P x
  | Done (None, s') => F /\ I s'
  | _ => False
  end.

(** The queries a solver is asked: a property of the constraints. *)
Class QueryContext (U : list Array) (Ctx : Query -> Prop) : Prop := {
  qc_constraints q : Ctx q -> constraints_ok U (q_constraints q);
  qc_withExpr q e : Ctx q -> Ctx (withExpr q e)
}.

(** Any well-formed set of constraints. *)
Definition plain (U : list Array) (q : Query) : Prop := constraints_ok U (q_constraints q).
#[export] Instance plain_context U : QueryContext U (plain U).
Proof. constructor; done. Qed.

(** The bytes of the objects determine the query. *)
Definition complete_objects (q : Query) (objects : list Array) : Prop :=
  forall rho rho', byte_contents rho -> byte_contents rho' -> (forall a i, a ∈ objects -> rho a i = rho' a i) ->
  forall e, e = q_expr q \/ e ∈ q_constraints q -> eval rho e = eval rho' e.

(** [Ini] are the queries and objects whose initial values are asked for. *)
Class SolverSpec (U : list Array) (Ctx : Query -> Prop) (Ini : Query -> list Array -> Prop) (F : Prop) {S : Type} (I : S -> Prop) (impl : SolverImpl S) : Prop := {
  sp_validity q : Ctx q -> bool_ok U (q_expr q) -> satisfiable (q_constraints q) ->
    spec F I (computeValidity impl q) (validity_spec q);
  sp_truth q : Ctx q -> bool_ok U (q_expr q) -> satisfiable (q_constraints q) ->
    spec F I (computeTruth impl q) (truth_spec q);
  sp_value q : Ctx q -> expr_ok U (q_expr q) -> satisfiable (q_constraints q) ->
    spec F I (computeValue impl q) (value_spec q);
  sp_initial q objects : Ctx q -> Ini q objects -> bool_ok U (q_expr q) -> objects ⊆ U ->
    spec F I (computeInitialValues impl q objects) (initial_spec q objects)
}.

(** *** Rules for computations *)

Lemma spec_ret {S X} F (I : S -> Prop) (x : X) (P : X -> Prop) : P x -> spec F I (mret x) P.
Proof. intros Hx s Hs. now split. Qed.

Lemma spec_bind {S X Y} F (I : S -> Prop) (m : SolverM S X) (k : X -> SolverM S Y) (P : X -> Prop) (Q : Y -> Prop) :
  spec F I m P -> (forall x, P x -> spec F I (k x) Q) -> spec F I (mbind k m) Q.
Proof.
  intros Hm Hk s Hs. specialize (Hm s Hs). unfold mbind, SolverM_bind.
  destruct (m s) as [[[x|] s']| |]; [|done..]. destruct Hm as [Hs' Hx]. exact (Hk x Hx s' Hs').
Qed.

Lemma spec_mono {S X} F (I : S -> Prop) (m : SolverM S X) (P Q : X -> Prop) :
  spec F I m P -> (forall x, P x -> Q x) -> spec F I m Q.
Proof. intros Hm HPQ s Hs. specialize (Hm s Hs). destruct (m s) as [[[x|] s']| |]; naive_solver. Qed.

Lemma spec_weaken {S X} (F F' : Prop) (I : S -> Prop) (m : SolverM S X) P : (F -> F') -> spec F I m P -> spec F' I m P.
Proof. intros HF Hm s Hs. specialize (Hm s Hs). destruct (m s) as [[[x|] s']| |]; naive_solver. Qed.

Lemma spec_failure {S X} (F : Prop) (I : S -> Prop) (P : X -> Prop) : F -> spec F I failure P.
Proof. intros HF s Hs. now split. Qed.

Lemma spec_assume {S} F (I : S -> Prop) b : b = true -> spec F I (assume b) (fun _ => True).
Proof. intros -> s Hs. now split. Qed.

Lemma spec_pure {S X} F (I : S -> Prop) (o : outcome X) x (P : X -> Prop) : o = Done x -> P x -> spec F I (pure o) P.
Proof. intros -> Hx s Hs. now split. Qed.

Lemma spec_inner {T S X} F (J : T -> Prop) (I : S -> Prop) (m : SolverM S X) P :
  spec F I m P -> spec F (fun s => J s.1 /\ I s.2) (inner m) P.
Proof.
  intros Hm [t s] [Ht Hs]. specialize (Hm s Hs). unfold inner. cbn in *.
  destruct (m s) as [[[x|] s']| |]; naive_solver.
Qed.

Lemma spec_own {T S} F (J : T -> Prop) (I : S -> Prop) : spec F (fun s => J s.1 /\ I s.2) own J.
Proof. intros [t s] [Ht Hs]. now split. Qed.

Lemma spec_set_own {T S} F (J : T -> Prop) (I : S -> Prop) t : J t -> spec F (fun s => J s.1 /\ I s.2) (set_own t) (fun _ => True).
Proof. intros Ht [t' s] [_ Hs]. now split. Qed.

Lemma spec_must_succeed {S X} (I : S -> Prop) (m : SolverM S X) P : spec False I m P -> spec False I (must_succeed m) P.
Proof. intros Hm s Hs. specialize (Hm s Hs). unfold must_succeed. destruct (m s) as [[[x|] s']| |]; naive_solver. Qed.

(** *** Negation *)

Section Meaning.
Context `{A : APIntOps} {AS : APIntSpec A} `{Opts : ExprOptions} (U : list Array).

Lemma expr_ok_width e : bool_ok U e -> has_width 1 e.
Proof. intros [? []]. now split. Qed.

Lemma bool_ok_cases e rho : bool_ok U e -> byte_contents rho ->
  eval rho e = Some (APInt 1 1) \/ eval rho e = Some (APInt 1 0).
Proof.
  intros He Hr. destruct (eo_defined _ _ (proj2 He) rho Hr) as [v Hv].
  destruct (bool_value rho e v (expr_ok_width e He) Hv) as [->| ->]; auto.
Qed.

Lemma IsZero_bool_ok e : bool_ok U e -> bool_ok U (createIsZero e).
Proof.
  intros He. pose proof (hw_IsZero 1 e (expr_ok_width e He)) as [Ht Hw]. split; [done|].
  destruct He as [We [H1 H2 H3 H4 H5]]. constructor; [done| |now apply (st_IsZero (fun e => evaluable true e = true))|
    now apply (st_IsZero (fun e => arrays e ⊆ U))|now apply (st_IsZero reads_inside)].
  intros rho Hr. destruct (H2 rho Hr) as [[w v] Hv]. pose proof (eval_width _ _ _ Hv) as Hw'. cbn in Hw'.
  replace w with 1 in Hv by congruence. eexists. exact (createIsZero_bool rho e v Hv).
Qed.

Lemma IsZero_value e rho : bool_ok U e -> byte_contents rho ->
  (eval rho (createIsZero e) = Some (APInt 1 0) <-> eval rho e = Some (APInt 1 1)) /\
  (eval rho (createIsZero e) = Some (APInt 1 1) <-> eval rho e = Some (APInt 1 0)).
Proof.
  intros He Hr. destruct (bool_ok_cases e rho He Hr) as [E|E]; rewrite E, (createIsZero_bool _ _ _ E); split; split; intros H; done.
Qed.

Lemma negate_counterexample q rho : bool_ok U (q_expr q) -> counterexample (negateExpr q) rho <-> example q rho.
Proof. intros He. apply and_iff_compat_l'. intros [Hr _]. now apply IsZero_value. Qed.
Lemma negate_example q rho : bool_ok U (q_expr q) -> example (negateExpr q) rho <-> counterexample q rho.
Proof. intros He. apply and_iff_compat_l'. intros [Hr _]. now apply IsZero_value. Qed.

Lemma negate_valid q : bool_ok U (q_expr q) -> valid (negateExpr q) <-> refuted q.
Proof. intros He. apply forall_proper. intros rho. now rewrite negate_counterexample. Qed.
Lemma negate_refuted q : bool_ok U (q_expr q) -> refuted (negateExpr q) <-> valid q.
Proof. intros He. apply forall_proper. intros rho. now rewrite negate_example. Qed.

Lemma isZero_false : createIsZero false_expr = ConstantExpr (APInt 1 1).
Proof.
  assert (Ez : forall rho, eval rho (createIsZero false_expr) = Some (APInt 1 1)) by (intros; exact (createIsZero_bool _ false_expr 0 eq_refl)).
  unfold createIsZero in *. destruct (EqExpr'create _ _) eqn:E; try (unfold EqExpr'create in E; cbn in E; discriminate).
  specialize (Ez (fun _ _ => 0)). apply eval_const_inv in Ez as [<- _]. done.
Qed.

(** With satisfiable constraints, a valid expression has an example. *)
Lemma valid_example q : bool_ok U (q_expr q) -> satisfiable (q_constraints q) -> valid q -> exists rho, example q rho.
Proof.
  intros He [rho Hs] Hv. exists rho. split; [done|]. destruct (bool_ok_cases _ rho He (proj1 Hs)) as [E|E]; [done|].
  now destruct (Hv rho).
Qed.
Lemma refuted_counterexample q : bool_ok U (q_expr q) -> satisfiable (q_constraints q) -> refuted q ->
  exists rho, counterexample q rho.
Proof.
  intros He [rho Hs] Hv. exists rho. split; [done|]. destruct (bool_ok_cases _ rho He (proj1 Hs)) as [E|E]; [|done].
  now destruct (Hv rho).
Qed.

End Meaning.

(** ** The front end meets its documentation *)

Section FrontEndCorrect.
Context `{A : APIntOps} {AS : APIntSpec A} `{Opts : ExprOptions} (U : list Array) (Ctx : Query -> Prop) (Ini : Query -> list Array -> Prop) {QC : QueryContext U Ctx}.
Context (F : Prop) {S : Type} (I : S -> Prop) (impl : SolverImpl S) {SS : SolverSpec U Ctx Ini F I impl}.

Lemma constant_bool_ok c : bool_ok U (ConstantExpr c) -> c = APInt 1 1 \/ c = APInt 1 0.
Proof.
  intros He. assert (Hr : byte_contents (fun _ _ => 0)) by now intros ? ?.
  destruct (bool_ok_cases U _ _ He Hr) as [E|E]; apply eval_const_inv in E as [E _]; auto.
Qed.

Lemma isTrue_one : isTrue (APInt 1 1) = true.
Proof. now rewrite isTrue_spec. Qed.
Lemma isTrue_zero : isTrue (APInt 1 0) = false.
Proof. now rewrite isTrue_spec. Qed.

(** The answer for a constant expression. *)
Lemma constant_answer q c : q_expr q = ConstantExpr c -> bool_ok U (q_expr q) -> satisfiable (q_constraints q) ->
  if isTrue c then valid q else refuted q /\ exists rho, counterexample q rho.
Proof.
  intros E He Hs. pose proof He as Hc. rewrite E in Hc. destruct (constant_bool_ok c Hc) as [->| ->].
  - rewrite isTrue_one. intros rho [_ Hv]. rewrite E in Hv. done.
  - rewrite isTrue_zero. assert (refuted q) by (intros rho [_ Hv]; rewrite E in Hv; done).
    split; [done|]. now apply (refuted_counterexample U).
Qed.

Lemma is_bool_ok e : bool_ok U e -> is_bool e = true.
Proof. intros [We _]. unfold is_bool. now rewrite We. Qed.

Lemma mustBeTrue_ok q : Ctx q -> bool_ok U (q_expr q) -> satisfiable (q_constraints q) ->
  spec F I (mustBeTrue impl q) (truth_spec q).
Proof.
  intros Hq He Hs. eapply spec_bind; [now apply spec_assume, is_bool_ok|intros _ _].
  destruct (q_expr q) eqn:E; rewrite <- E in He; try now apply sp_truth.
  apply spec_ret. pose proof (constant_answer q _ E He Hs). unfold truth_spec. now destruct (isTrue value).
Qed.

Lemma query_evaluate_ok q : Ctx q -> bool_ok U (q_expr q) -> satisfiable (q_constraints q) ->
  spec F I (evaluate impl q) (validity_spec q).
Proof.
  intros Hq He Hs. eapply spec_bind; [now apply spec_assume, is_bool_ok|intros _ _].
  destruct (q_expr q) eqn:E; rewrite <- E in He; try now apply sp_validity.
  apply spec_ret. pose proof (constant_answer q _ E He Hs). unfold validity_spec. now destruct (isTrue value).
Qed.

(** What [mustBeFalse] answers. *)
Definition falsity_spec (q : Query) (b : bool) : Prop := if b then refuted q else exists rho, example q rho.

Lemma mustBeFalse_ok q : Ctx q -> bool_ok U (q_expr q) -> satisfiable (q_constraints q) ->
  spec F I (mustBeFalse impl q) (falsity_spec q).
Proof.
  intros Hq He Hs. eapply spec_mono; [apply (mustBeTrue_ok (negateExpr q))|].
  - now apply (qc_withExpr (U:=U)).
  - now apply IsZero_bool_ok.
  - done.
  - intros []; unfold truth_spec, falsity_spec; [now apply (negate_valid U)|].
    intros [rho H]. exists rho. now apply (negate_counterexample U).
Qed.

Lemma mayBeTrue_ok q : Ctx q -> bool_ok U (q_expr q) -> satisfiable (q_constraints q) ->
  spec F I (mayBeTrue impl q) (fun b => falsity_spec q (negb b)).
Proof.
  intros. eapply spec_bind; [now apply mustBeFalse_ok|]. intros b Hb. apply spec_ret. now rewrite negb_involutive.
Qed.

Lemma mayBeFalse_ok q : Ctx q -> bool_ok U (q_expr q) -> satisfiable (q_constraints q) ->
  spec F I (mayBeFalse impl q) (fun b => truth_spec q (negb b)).
Proof.
  intros. eapply spec_bind; [now apply mustBeTrue_ok|]. intros b Hb. apply spec_ret. now rewrite negb_involutive.
Qed.

Lemma getValue_ok q : Ctx q -> expr_ok U (q_expr q) -> satisfiable (q_constraints q) ->
  spec F I (getValue impl q) (fun c => value_spec q (ConstantExpr c)).
Proof.
  intros Hq He Hs. unfold getValue.
  assert (Hi : spec F I (tmp ← computeValue impl q; match tmp with ConstantExpr c => mret c | _ => abort end)
    (fun c => value_spec q (ConstantExpr c))).
  { eapply spec_bind; [now apply sp_value|]. intros r Hr. pose proof Hr as (v & rho & -> & _). now apply spec_ret. }
  destruct (q_expr q) eqn:E; try exact Hi. apply spec_ret. destruct Hs as [rho Hs]. exists value, rho. split_and!; [done..|].
  rewrite E. apply eval_const. exact (eo_typed _ _ He).
Qed.

Lemma getInitialValues_ok q objects : Ctx q -> Ini q objects -> bool_ok U (q_expr q) -> objects ⊆ U ->
  spec (F \/ valid q) I (getInitialValues impl q objects) (fun values => initial_spec q objects (Some values)).
Proof.
  intros Hq Hi He Ho s Hs. pose proof (sp_initial q objects Hq Hi He Ho s Hs) as H. unfold getInitialValues, mbind, SolverM_bind.
  destruct (computeInitialValues impl q objects s) as [[[[values|]|] s']| |]; naive_solver.
Qed.


End FrontEndCorrect.

(** ** [getRange] *)

Section Range.
Context `{A : APIntOps} {AS : APIntSpec A} `{Opts : ExprOptions} (U : list Array) (Ctx : Query -> Prop) (Ini : Query -> list Array -> Prop) {QC : QueryContext U Ctx}.
Context {S : Type} (I : S -> Prop) (impl : SolverImpl S) {SS : SolverSpec U Ctx Ini False I impl}.

(** The binary search: where the loop stops the test is true (or the upper end
    is reached), just before it is false (or the lower end is reached). *)
Lemma search_ok (test : Z -> SolverM S bool) (T N : Z -> Prop) fuel : forall lo hi, lo <= hi -> hi - lo < 2 ^ Z.of_nat fuel ->
  (forall mid, lo <= mid < hi -> spec False I (test mid) (fun b => if b : bool then T mid else N mid)) ->
  spec False I (search fuel test lo hi) (fun r => lo <= r <= hi /\ (r = hi \/ T r) /\ (r = lo \/ N (r - 1))).
Proof.
  induction fuel as [|fuel IH]; intros lo hi Hle Hf Ht; cbn [search]; destruct (Z.ltb_spec lo hi);
    try (apply spec_ret; split_and!; [lia..| |]; [left; lia|left; lia]).
  { cbn in Hf. lia. }
  rewrite Nat2Z.inj_succ, Z.pow_succ_r in Hf by lia. set (mid := lo + (hi - lo) / 2).
  assert (Hm : lo <= mid < hi /\ mid - lo < 2 ^ Z.of_nat fuel /\ hi - (mid + 1) < 2 ^ Z.of_nat fuel).
  { subst mid. pose proof (Z.div_mod (hi - lo) 2 ltac:(lia)). pose proof (Z.mod_pos_bound (hi - lo) 2 ltac:(lia)). lia. }
  eapply spec_bind; [now apply spec_must_succeed, Ht|]. intros [] Hb.
  - eapply spec_mono; [apply IH; [lia|lia|intros; apply Ht; lia]|]. cbv beta. intros r (? & [-> |?] & ?); split_and!; auto; lia.
  - eapply spec_mono; [apply IH; [lia|lia|intros; apply Ht; lia]|]. cbv beta. intros r (? & ? & [-> |?]); split_and!; auto; try lia.
    right. now replace (mid + 1 - 1) with mid by lia.
Qed.

Context (q : Query) (Hq : Ctx q) (He : expr_ok U (q_expr q)) (Hs : satisfiable (q_constraints q)).
Context (Hw : 1 <= getWidth (q_expr q) <= 64).
Notation e := (q_expr q).
Notation w := (getWidth (q_expr q)).

Lemma value_range rho v : eval rho e = Some (APInt w v) -> 0 <= v < 2 ^ w.
Proof. intros Ev. apply eval_valid in Ev. now apply BV.in_range_spec in Ev as [_ Ev]. Qed.

(** The values of the expression under the constraints. *)
Definition possible (v : Z) : Prop := exists rho, satisfies rho (q_constraints q) /\ eval rho e = Some (APInt w v).

Lemma possible_value rho : satisfies rho (q_constraints q) -> exists v, eval rho e = Some (APInt w v) /\ possible v /\ 0 <= v < 2 ^ w.
Proof.
  intros Hr. destruct (eo_defined _ _ He rho (proj1 Hr)) as [[w' v] Hv]. pose proof (eval_width _ _ _ Hv) as Ew. cbn in Ew. subst w'.
  exists v. pose proof (value_range rho v Hv). split_and!; [done|now exists rho|apply H..].
Qed.

Lemma const_of_value v : 0 <= v < 2 ^ w -> const_of v w = ConstantExpr (APInt w v).
Proof.
  intros Hv. unfold const_of, ConstantExpr'create, ConstantExpr'alloc.
  assert (2 ^ w <= 2 ^ 64) by (apply Z.pow_le_mono_r; lia). rewrite ap_make_spec by lia. now rewrite BV.wrap_small.
Qed.

Lemma const_of_ok v : 0 <= v < 2 ^ w -> has_width w (const_of v w) /\ expr_ok U (const_of v w).
Proof.
  intros Hv. rewrite const_of_value by done.
  assert (V : ap_valid (APInt w v) = true) by (apply BV.in_range_spec; cbn; lia).
  split; [now split|]. constructor; [done|intros rho _; eexists; now apply eval_const|done|cbn; set_solver|apply (st_const (P:=reads_inside))].
Qed.

(** A comparison of the expression, through a constructor that keeps its meaning. *)
Lemma test_ok (x : Expr) (t : Z -> bool) : has_width 1 x -> evaluable true x = true -> arrays x ⊆ U -> reads_inside x ->
  (forall rho v, eval rho e = Some (APInt w v) -> 0 <= v < 2 ^ w -> eval rho x = Some (APInt 1 (b2z (t v)))) ->
  (spec False I (mustBeTrue impl (withExpr q x))
     (fun b => if b : bool then forall v, possible v -> t v = true else exists v, possible v /\ t v = false)) /\
  (spec False I (mayBeTrue impl (withExpr q x))
     (fun b => if b : bool then exists v, possible v /\ t v = true else forall v, possible v -> t v = false)).
Proof.
  intros Hx Hxe Hxa Hxi Hv.
  assert (Hok : bool_ok U x).
  { destruct Hx as [Tx Wx]. split; [done|]. constructor; [done| |done..]. intros rho Hr.
    destruct (eo_defined _ _ He rho Hr) as [[w' v] Ev]. pose proof (eval_width _ _ _ Ev) as Ew. cbn in Ew. subst w'.
    eexists. apply Hv; [done|]. now apply (value_range rho). }
  assert (Hpos : forall v, possible v -> exists rho, satisfies rho (q_constraints q) /\ eval rho x = Some (APInt 1 (b2z (t v)))).
  { intros v (rho & Hr & Ev). exists rho. split; [done|]. apply Hv; [done|]. now apply (value_range rho). }
  assert (Hneg : forall rho b, satisfies rho (q_constraints q) -> eval rho x = Some (APInt 1 (b2z b)) -> exists v, possible v /\ t v = b).
  { intros rho b Hr Ex. destruct (possible_value rho Hr) as (v & Ev & Hp & Hr'). exists v. split; [done|].
    rewrite (Hv rho v Ev Hr') in Ex. injection Ex as Ex. now destruct (t v), b. }
  pose proof (qc_withExpr (U:=U) q x Hq) as Hqx. split.
  - eapply spec_mono; [now apply (mustBeTrue_ok U Ctx Ini)|]. intros []; cbn; intros H.
    + intros v (rho & Hr & Ex)%Hpos. destruct (t v); [done|]. now destruct (H rho).
    + destruct H as (rho & Hr & Ex). now apply (Hneg rho false).
  - eapply spec_mono; [now apply (mayBeTrue_ok U Ctx Ini)|]. intros []; cbn; intros H.
    + destruct H as (rho & Hr & Ex). now apply (Hneg rho true).
    + intros v (rho & Hr & Ex)%Hpos. destruct (t v); [|done]. now destruct (H rho).
Qed.

(** The three tests: [e >> mid == 0], [e == 0] and [e <= mid]. *)
Lemma e_typed : has_width w e.
Proof. split; [apply He|done]. Qed.

Lemma shift_test mid : 0 <= mid < w ->
  let x := EqExpr'create (Arith'create LShr e (const_of mid w)) (const_of 0 w) in
  spec False I (mustBeTrue impl (withExpr q x))
    (fun b => if b : bool then forall v, possible v -> v < 2 ^ mid else exists v, possible v /\ 2 ^ mid <= v).
Proof.
  intros Hm x. assert (Hp : w < 2 ^ w) by (apply Z.pow_gt_lin_r; lia).
  destruct (const_of_ok mid) as [Wm Om]; [lia|]. destruct (const_of_ok 0) as [W0 O0]; [lia|].
  destruct (test_ok x (fun v => v / 2 ^ mid =? 0)) as [H _].
  - subst x. eapply hw_Eq; [|exact W0]. apply hw_Arith; [apply e_typed|exact Wm].
  - apply (st_Eq (fun e => evaluable true e = true)); [|apply O0]. apply (st_LShr (fun e => evaluable true e = true)); [apply He|apply Om].
  - apply (st_Eq (fun e => arrays e ⊆ U)); [|apply O0]. apply (st_LShr (fun e => arrays e ⊆ U)); [apply He|apply Om].
  - apply (st_Eq reads_inside); [|apply O0]. apply (st_LShr reads_inside); [apply He|apply Om].
  - intros rho v Ev Hv. apply EqExpr'create_sound. rewrite !const_of_value by lia.
    eapply (eval_compare_at rho Eq); [|apply eval_const, BV.in_range_spec; cbn; lia].
    apply Arith'create_sound. eapply eval_binary_at; [exact Ev|apply eval_const, BV.in_range_spec; cbn; lia|]. cbn.
    destruct (Z.ltb_spec mid w); [done|lia].
  - eapply spec_mono; [exact H|]. pose proof (Z.pow_pos_nonneg 2 mid ltac:(lia) ltac:(lia)) as Hpm.
    assert (Hdiv : forall v, possible v -> v / 2 ^ mid = 0 <-> v < 2 ^ mid).
    { intros v (rho & Hr & Ev). pose proof (value_range rho v Ev). rewrite Z.div_small_iff by lia. lia. }
    intros []; cbn; intros Hb.
    + intros v Hv. apply Hdiv; [done|]. now apply Z.eqb_eq, Hb.
    + destruct Hb as (v & Hv & Hb%Z.eqb_neq). exists v. split; [done|]. rewrite Hdiv in Hb by done. lia.
Qed.

Lemma zero_test :
  spec False I (mayBeTrue impl (withExpr q (EqExpr'create e (const_of 0 w))))
    (fun b => if b : bool then possible 0 else True).
Proof.
  destruct (const_of_ok 0) as [W0 O0]; [lia|].
  destruct (test_ok (EqExpr'create e (const_of 0 w)) (fun v => v =? 0)) as [_ H].
  - eapply hw_Eq; [apply e_typed|exact W0].
  - apply (st_Eq (fun e => evaluable true e = true)); [apply He|apply O0].
  - apply (st_Eq (fun e => arrays e ⊆ U)); [apply He|apply O0].
  - apply (st_Eq reads_inside); [apply He|apply O0].
  - intros rho v Ev Hv. apply EqExpr'create_sound. rewrite !const_of_value by lia.
    eapply (eval_compare_at rho Eq); [exact Ev|apply eval_const, BV.in_range_spec; cbn; lia].
  - eapply spec_mono; [exact H|]. intros []; cbn; [|done]. intros (v & Hv & ->%Z.eqb_eq). done.
Qed.

Lemma bound_test mid : 0 <= mid < 2 ^ w -> let x := Cmp'create Ule e (const_of mid w) in
  spec False I (mustBeTrue impl (withExpr q x))
    (fun b => if b : bool then forall v, possible v -> v <= mid else exists v, possible v /\ mid < v) /\
  spec False I (mayBeTrue impl (withExpr q x))
    (fun b => if b : bool then exists v, possible v /\ v <= mid else forall v, possible v -> mid < v).
Proof.
  intros Hm x. destruct (const_of_ok mid) as [Wm Om]; [lia|].
  destruct (test_ok x (fun v => v <=? mid)) as [H1 H2].
  - eapply hw_Cmp; [apply e_typed|exact Wm].
  - apply (st_Ule (fun e => evaluable true e = true)); [apply He|apply Om].
  - apply (st_Ule (fun e => arrays e ⊆ U)); [apply He|apply Om].
  - apply (st_Ule reads_inside); [apply He|apply Om].
  - intros rho v Ev Hv. apply Cmp'create_sound. rewrite !const_of_value by lia.
    eapply (eval_compare_at rho Ule); [exact Ev|apply eval_const, BV.in_range_spec; cbn; lia].
  - split; (eapply spec_mono; [eassumption|]); intros []; cbn; setoid_rewrite Z.leb_le || setoid_rewrite Z.leb_gt; done.
Qed.

Lemma maxValue_small N : 0 <= N <= 64 -> maxValueOfNBits N = 2 ^ N - 1.
Proof.
  intros HN. unfold maxValueOfNBits. destruct (Z.eqb_spec N 0) as [->|]; [done|]. rewrite Z.shiftr_div_pow2 by lia.
  replace (2 ^ 64) with (2 ^ N * 2 ^ (64 - N)) by (rewrite <- Z.pow_add_r by lia; f_equal; lia).
  pose proof (Z.pow_pos_nonneg 2 (64 - N) ltac:(lia) ltac:(lia)). pose proof (Z.pow_pos_nonneg 2 N ltac:(lia) ltac:(lia)).
  symmetry. apply (Z.div_unique_pos _ _ _ (2 ^ (64 - N) - 1)); lia.
Qed.

(** The search for a value: least and greatest possible value. *)
Definition tight (r : Z * Z) : Prop :=
  possible r.1 /\ possible r.2 /\ forall v, possible v -> r.1 <= v <= r.2.

Lemma bits_ok :
  spec False I (search 64 (fun mid => mustBeTrue impl (withExpr q
      (EqExpr'create (Arith'create LShr e (const_of mid w)) (const_of 0 w)))) 0 w)
    (fun bits => 0 <= bits <= w /\ forall v, possible v -> v < 2 ^ bits).
Proof.
  eapply spec_mono; [apply (search_ok _ (fun m => forall v, possible v -> v < 2 ^ m) (fun m => exists v, possible v /\ 2 ^ m <= v))|].
  - lia.
  - cbn. lia.
  - intros mid Hm. now apply shift_test.
  - cbv beta. intros bits (Hb & [-> |Ht] & _); (split; [done|]); [|done]. intros v (rho & Hr & Ev). now apply (value_range rho).
Qed.

Lemma least_ok bits res : 0 <= bits <= w -> (forall v, possible v -> v < 2 ^ bits) -> (res = true -> possible 0) ->
  spec False I
    (if res : bool then mret 0
     else search 64 (fun mid => mayBeTrue impl (withExpr q (Cmp'create Ule e (const_of mid w)))) 0 (maxValueOfNBits bits))
    (fun min => possible min /\ (forall v, possible v -> min <= v) /\ 0 <= min < 2 ^ bits).
Proof.
  intros Hb Hv Hres. destruct Hs as [rho0 Hr0]. destruct (possible_value rho0 Hr0) as (v0 & _ & Hp0 & H0).
  assert (Hnn : forall v, possible v -> 0 <= v) by (intros v (rho & Hr & Ev); apply (value_range rho v Ev)).
  assert (Hpb : 0 < 2 ^ bits) by (apply Z.pow_pos_nonneg; lia).
  assert (Hle : 2 ^ bits <= 2 ^ w) by (apply Z.pow_le_mono_r; lia).
  assert (H64 : 2 ^ w <= 2 ^ 64) by (apply Z.pow_le_mono_r; lia).
  destruct res; [apply spec_ret; split_and!; auto; lia|]. rewrite maxValue_small by lia.
  eapply spec_mono; [apply (search_ok _ (fun m => exists v, possible v /\ v <= m) (fun m => forall v, possible v -> m < v)); [lia|cbn; lia|]|].
  - intros mid Hm. apply bound_test. lia.
  - cbv beta. intros min (Hm & Hup & Hlow).
    assert (Hall : forall v, possible v -> min <= v).
    { intros v Hp. destruct Hlow as [-> |Hlow]; [auto|]. specialize (Hlow v Hp). lia. }
    split_and!; [|done|lia|lia]. assert (Hex : exists v, possible v /\ v <= min).
    { destruct Hup as [-> |Hup]; [|done]. exists v0. specialize (Hv v0 Hp0). split; [done|lia]. }
    destruct Hex as (v & Hp & Hle'). specialize (Hall v Hp). now replace min with v by lia.
Qed.

Lemma greatest_ok bits min : 0 <= bits <= w -> (forall v, possible v -> v < 2 ^ bits) -> possible min -> 0 <= min < 2 ^ bits ->
  spec False I
    (search 64 (fun mid => mustBeTrue impl (withExpr q (Cmp'create Ule e (const_of mid w)))) min (maxValueOfNBits bits))
    (fun max => possible max /\ forall v, possible v -> v <= max).
Proof.
  intros Hb Hv Hp Hm.
  assert (Hle : 2 ^ bits <= 2 ^ w) by (apply Z.pow_le_mono_r; lia).
  assert (H64 : 2 ^ w <= 2 ^ 64) by (apply Z.pow_le_mono_r; lia). rewrite maxValue_small by lia.
  eapply spec_mono; [apply (search_ok _ (fun m => forall v, possible v -> v <= m) (fun m => exists v, possible v /\ m < v)); [lia|cbn; lia|]|].
  - intros mid Hmid. apply bound_test. lia.
  - cbv beta. intros max (Hmax & Hup & Hlow).
    assert (Hall : forall v, possible v -> v <= max).
    { intros v Hpv. destruct Hup as [-> |Hup]; [|auto]. specialize (Hv v Hpv). lia. }
    split; [|done]. destruct Hlow as [-> |(v & Hpv & Hlt)]; [done|]. specialize (Hall v Hpv). now replace max with v by lia.
Qed.

End Range.

Section RangeClaim.
Context `{A : APIntOps} {AS : APIntSpec A} `{Opts : ExprOptions} (U : list Array) (Ctx : Query -> Prop) (Ini : Query -> list Array -> Prop) {QC : QueryContext U Ctx}.
Context {S : Type} (I : S -> Prop) (impl : SolverImpl S) {SS : SolverSpec U Ctx Ini False I impl}.

Definition range_spec (q : Query) (r : Expr * Expr) : Prop :=
  exists min max, r = (ConstantExpr (APInt (getWidth (q_expr q)) min), ConstantExpr (APInt (getWidth (q_expr q)) max)) /\
    tight q (min, max).

Lemma bool_range q : bool_ok U (q_expr q) -> satisfiable (q_constraints q) -> forall v, validity_spec q v ->
  tight q (match v with VTrue => (1, 1) | VFalse => (0, 0) | VUnknown => (0, 1) end).
Proof.
  intros He Hs v Hv. pose proof (proj1 He) as Hw.
  assert (Hex : (exists rho, example q rho) <-> possible q 1).
  { unfold possible. rewrite Hw. done. }
  assert (Hcex : (exists rho, counterexample q rho) <-> possible q 0).
  { unfold possible. rewrite Hw. done. }
  assert (Hcase : forall z, possible q z -> z = 0 \/ z = 1).
  { intros z (rho & [Hr _] & Ev). rewrite Hw in Ev. destruct (bool_ok_cases U _ rho He Hr) as [E|E]; rewrite E in Ev;
      injection Ev as <-; auto. }
  destruct v; cbn in Hv; unfold tight; cbn [fst snd].
  - assert (possible q 1) by (apply Hex; now apply (valid_example U)). split_and!; [done|done|]. intros z Hz.
    destruct (Hcase z Hz) as [->| ->]; [|lia]. apply Hcex in Hz as [rho Hz]. now destruct (Hv rho).
  - assert (possible q 0) by (apply Hcex; now apply (refuted_counterexample U)). split_and!; [done|done|]. intros z Hz.
    destruct (Hcase z Hz) as [->| ->]; [lia|]. apply Hex in Hz as [rho Hz]. now destruct (Hv rho).
  - split_and!; [now apply Hcex|now apply Hex|]. intros z Hz. destruct (Hcase z Hz); lia.
Qed.

(** The constants [getRange] makes of the bounds. *)
Lemma range_result q r : 1 <= getWidth (q_expr q) <= 64 -> tight q r ->
  range_spec q (const_of r.1 (getWidth (q_expr q)), const_of r.2 (getWidth (q_expr q))).
Proof.
  intros Hw Hr. exists r.1, r.2. split; [|now destruct r].
  destruct Hr as ((? & _ & E1%value_range) & (? & _ & E2%value_range) & _). now rewrite !const_of_value by lia.
Qed.

(** [getRange] returns the tight range of the documentation: both bounds
    are values the expression takes under the constraints, and all values it
    takes lie between them.  This holds for expressions of at most 64 bits, over a
    solver that meets its contract and does not fail; the three binary searches
    end within 64 rounds. *)
Theorem getRange_tight (q : Query) :
  Ctx q -> expr_ok U (q_expr q) -> satisfiable (q_constraints q) -> 1 <= getWidth (q_expr q) <= 64 ->
  spec False I (getRange impl q) (range_spec q).
Proof.
  intros Hq He Hs Hw. unfold getRange. eapply (spec_bind _ _ _ _ (tight q)); [|intros r Hr; now apply spec_ret, range_result].
  destruct (Z.eqb_spec (getWidth (q_expr q)) 1) as [H1|H1].
  - eapply spec_bind; [now apply spec_must_succeed, (query_evaluate_ok U Ctx Ini)|]. intros v Hv. now apply spec_ret, bool_range.
  - assert (H : spec False I
      (bits ← search 64 (fun mid => mustBeTrue impl (withExpr q
         (EqExpr'create (Arith'create LShr (q_expr q) (const_of mid (getWidth (q_expr q)))) (const_of 0 (getWidth (q_expr q)))))) 0 (getWidth (q_expr q));
       res ← must_succeed (mayBeTrue impl (withExpr q (EqExpr'create (q_expr q) (const_of 0 (getWidth (q_expr q))))));
       min ← (if res : bool then mret 0
              else search 64 (fun mid => mayBeTrue impl (withExpr q (Cmp'create Ule (q_expr q) (const_of mid (getWidth (q_expr q))))))
                     0 (maxValueOfNBits bits));
       max ← search 64 (fun mid => mustBeTrue impl (withExpr q (Cmp'create Ule (q_expr q) (const_of mid (getWidth (q_expr q)))))) min (maxValueOfNBits bits);
       mret (min, max)) (tight q)).
    { 
      eapply spec_bind; [now apply (bits_ok U Ctx Ini)|]. intros bits [Hb Hv].
      eapply spec_bind; [now apply spec_must_succeed, (zero_test U Ctx Ini)|]. intros res Hres.
      eapply spec_bind; [apply (least_ok U Ctx Ini); [done..|now intros ->]|]. intros min (Hm & Hle & Hr).
      eapply spec_bind; [now apply (greatest_ok U Ctx Ini)|]. intros max [Hmax Hge]. apply spec_ret. split_and!; [done..|]. auto. }
    destruct (q_expr q) eqn:E; try exact H. apply spec_ret. destruct Hs as [rho Hr].
    assert (V : ap_valid value = true) by exact (eo_typed _ _ He).
    rewrite getZExtValue_spec by (done || (cbn in Hw; lia)). rewrite <- E in *.
    assert (Ev : forall rho, eval rho (q_expr q) = Some (APInt (getWidth (q_expr q)) (ap_val value))).
    { intros rho'. rewrite E. cbn [getWidth]. rewrite eval_const by done. now destruct value. }
    assert (Hp : possible q (ap_val value)) by (exists rho; auto). split_and!; [done..|].
    intros v (rho' & _ & Ev'). rewrite Ev in Ev'. injection Ev' as <-. cbn. lia.
Qed.

End RangeClaim.

(** ** A solver for a single byte

    It tries all contents of an array with one element; the theorems about the
    chain are applied to it below. *)

Definition cell : Array := mkArray 1 "cell" 1 32 8 [].

Definition cell_contents (b : Z) : valuation := fun a i => if bool_decide (a = cell) && (i =? 0) then b else 0.

Definition all_bytes : list Z := Z.of_nat <$> seq 0 256.

Definition holds (rho : valuation) (C : list Expr) : bool :=
  forallb (fun e => bool_decide (eval rho e = Some (APInt 1 1))) C.

Definition find_byte (C : list Expr) (p : valuation -> bool) : option Z :=
  List.find (fun b => holds (cell_contents b) C && p (cell_contents b)) all_bytes.

Definition is_value (e : Expr) (v : apint) (rho : valuation) : bool := bool_decide (eval rho e = Some v).

Definition byte_truth (q : Query) : bool :=
  match find_byte (q_constraints q) (is_value (q_expr q) (APInt 1 0)) with Some _ => false | None => true end.

Definition byte_solver : SolverImpl unit := mkImpl
  (fun q => mret (if byte_truth q then VTrue
                  else match find_byte (q_constraints q) (is_value (q_expr q) (APInt 1 1)) with Some _ => VUnknown | None => VFalse end))
  (fun q => mret (byte_truth q))
  (fun q => match find_byte (q_constraints q) (fun _ => true) ≫= fun b => eval (cell_contents b) (q_expr q) with
            | Some v => mret (ConstantExpr v) | None => abort end)
  (fun q objects => mret (match find_byte (q_constraints q) (is_value (q_expr q) (APInt 1 0)) with
                          | Some b => Some (bytes_of (cell_contents b) <$> objects) | None => None end)).

(** The value of an expression depends on the contents of its arrays only. *)
Lemma initial_value_ext rho rho' a i : (isConstantArray a = false -> rho a i = rho' a i) ->
  initial_value rho a i = initial_value rho' a i.
Proof. intros H. unfold initial_value. destruct (isConstantArray a); [done|]. now rewrite H. Qed.

Lemma eval_ext_symbolic rho rho' : forall e, (forall a, a ∈ arrays e -> isConstantArray a = false -> forall i, 0 <= i -> rho a i = rho' a i) -> eval rho e = eval rho' e.
Proof.
  apply (Expr_mut (fun e => (forall a, a ∈ arrays e -> isConstantArray a = false -> forall i, 0 <= i -> rho a i = rho' a i) -> eval rho e = eval rho' e)
    (fun u => forall r, (forall a, a ∈ un_arrays u -> isConstantArray a = false -> forall i, 0 <= i -> rho a i = rho' a i) -> eval_updates rho r u = eval_updates rho' r u));
    intros; cbn [eval eval_updates arrays un_arrays] in *;
    repeat match goal with IH : _ -> eval _ _ = eval _ _ |- _ => rewrite IH by set_solver; clear IH end;
    repeat match goal with IH : forall r, _ -> eval_updates _ _ _ = _ |- _ => rewrite IH by set_solver; clear IH end; try done.
  destruct (eval_updates rho' _ _) as [us|]; [|done]. cbn. destruct (eval rho' _) as [iv|] eqn:Ei; [|done]. cbn.
  apply eval_valid, ap_valid_spec in Ei.
  unfold eval_read, read_value. case_match; [|done]. case_match; [done|].
  erewrite initial_value_ext; [done|]. intros Hc. apply H1; [set_solver|done|lia].
Qed.

Lemma eval_ext rho rho' e : (forall a, a ∈ arrays e -> forall i, rho a i = rho' a i) -> eval rho e = eval rho' e.
Proof. intros H. apply eval_ext_symbolic. auto. Qed.

Lemma cell_byte_contents b : b ∈ all_bytes -> byte_contents (cell_contents b).
Proof.
  intros Hb a i. unfold cell_contents. apply list_elem_of_fmap in Hb as (n & -> & Hn%elem_of_seq).
  destruct (bool_decide_reflect (a = cell)) as [->|]; cbn [andb]; [|lia]. destruct (Z.eqb_spec i 0); cbn; lia.
Qed.

(** Every contents of the array is tried. *)
Lemma byte_contents_cell rho : byte_contents rho -> exists b, b ∈ all_bytes /\ forall i, rho cell i = cell_contents b cell i.
Proof.
  intros Hr. exists (rho cell 0). destruct (Hr cell 0) as [H0 _]. split.
  - apply list_elem_of_fmap. exists (Z.to_nat (rho cell 0)). split; [lia|]. apply elem_of_seq. lia.
  - intros i. unfold cell_contents. rewrite bool_decide_true by done. cbn [andb]. destruct (Z.eqb_spec i 0) as [->|Hi]; [done|].
    apply (Hr cell i). cbn. lia.
Qed.

Lemma find_byte_spec C p : Forall (fun e => arrays e ⊆ [cell]) C ->
  (forall rho rho', (forall i, rho cell i = rho' cell i) -> p rho = p rho') ->
  match find_byte C p with
  | Some b => b ∈ all_bytes /\ satisfies (cell_contents b) C /\ p (cell_contents b) = true
  | None => forall rho, satisfies rho C -> p rho = false
  end.
Proof.
  intros HC Hp. unfold find_byte. destruct (List.find _ all_bytes) as [b|] eqn:E.
  - apply find_some in E as [Hb H]. apply list_elem_of_In in Hb. apply andb_true_iff in H as [H1 H2].
    split_and!; [done|split; [now apply cell_byte_contents|]|done]. unfold holds in H1. rewrite forallb_forall in H1. apply Forall_forall.
    intros e He. apply list_elem_of_In, H1, bool_decide_eq_true in He. exact He.
  - intros rho [Hr HM]. destruct (byte_contents_cell rho Hr) as (b & Hb & Heq).
    assert (Hf : holds (cell_contents b) C && p (cell_contents b) = false) by (apply (find_none _ _ E); now apply list_elem_of_In).
    assert (Hh : holds (cell_contents b) C = true).
    { unfold holds. apply forallb_forall. intros e He%list_elem_of_In. apply bool_decide_eq_true.
      unfold models in HM. rewrite Forall_forall in HM, HC. rewrite <- (HM e He). symmetry. apply eval_ext.
      intros a Ha i. apply (HC e He) in Ha. apply list_elem_of_singleton in Ha as ->. apply Heq. }
    rewrite Hh in Hf. cbn in Hf. rewrite <- Hf. now apply Hp.
Qed.

Lemma is_value_ext e v : arrays e ⊆ [cell] -> forall rho rho', (forall i, rho cell i = rho' cell i) -> is_value e v rho = is_value e v rho'.
Proof.
  intros He rho rho' H. unfold is_value. rewrite (eval_ext rho rho'); [done|]. intros a Ha%He i.
  apply list_elem_of_singleton in Ha as ->. apply H.
Qed.

(** [byte_solver] meets the contract. *)
#[export] Instance byte_solver_spec : SolverSpec [cell] (plain [cell]) (fun _ _ => True) False (fun _ => True) byte_solver.
Proof.
  assert (Hf : forall q v, plain [cell] q -> expr_ok [cell] (q_expr q) ->
    match find_byte (q_constraints q) (is_value (q_expr q) v) with
    | Some b => satisfies (cell_contents b) (q_constraints q) /\ eval (cell_contents b) (q_expr q) = Some v
    | None => forall rho, satisfies rho (q_constraints q) -> eval rho (q_expr q) <> Some v
    end).
  { intros q v [_ HC] He. pose proof (find_byte_spec (q_constraints q) (is_value (q_expr q) v)) as H.
    destruct (find_byte _ _) as [b|].
    - destruct H as (_ & ? & ?%bool_decide_eq_true); [eapply Forall_impl; [exact HC|]; now intros ? [_ []]|apply is_value_ext, He|done].
    - intros rho Hr. assert (Hn : is_value (q_expr q) v rho = false); [apply H; [eapply Forall_impl; [exact HC|]; now intros ? [_ []]|apply is_value_ext, He|done]|now apply bool_decide_eq_false in Hn]. }
  assert (Ht : forall q, plain [cell] q -> expr_ok [cell] (q_expr q) -> truth_spec q (byte_truth q)).
  { intros q Hq He. pose proof (Hf q (APInt 1 0) Hq He) as H. unfold byte_truth. destruct (find_byte _ _) as [b|].
    - now exists (cell_contents b).
    - intros rho [Hr Ev]. now apply (H rho). }
  constructor.
  - intros q Hq [_ He] _. apply spec_ret. pose proof (Ht q Hq He) as H. destruct (byte_truth q); [done|].
    pose proof (Hf q (APInt 1 1) Hq He) as H'. destruct (find_byte _ _) as [b|].
    + split; [now exists (cell_contents b)|done].
    + intros rho [Hr Ev]. now apply (H' rho).
  - intros q Hq [_ He] _. now apply spec_ret, Ht.
  - intros q [_ HC] He [rho Hs]. cbn [computeValue byte_solver].
    pose proof (find_byte_spec (q_constraints q) (fun _ => true)) as H. destruct (find_byte _ _) as [b|].
    + destruct H as (Hb & Hsat & _); [eapply Forall_impl; [exact HC|]; now intros ? [_ []]|done|].
      destruct (eo_defined _ _ He _ (cell_byte_contents b Hb)) as [v Ev]. cbn. rewrite Ev. apply spec_ret. exists v, (cell_contents b). auto.
    + specialize (H ltac:(eapply Forall_impl; [exact HC|]; now intros ? [_ []]) ltac:(done) rho Hs). done.
  - intros q objects Hq _ [_ He] _. apply spec_ret. pose proof (Hf q (APInt 1 0) Hq He) as H. destruct (find_byte _ _) as [b|].
    + exists (cell_contents b). split; [now split|done].
    + intros rho [Hr Ev]. now apply (H rho).
Qed.

(** ** Witnesses *)

Definition cell_byte : Expr := ReadExpr cell un_null (const 32 0).
Definition cell_is_small : Expr := CmpExpr Ult cell_byte (const 8 9).
Definition cell_query (e : Expr) : Query := mkQuery empty_manager [cell_is_small] false e None.

Lemma cell_byte_inside : reads_inside cell_byte.
Proof. apply read_inside. reflexivity. Qed.

Lemma cell_byte_ok : expr_ok [cell] cell_byte.
Proof. constructor; [reflexivity|intros rho _; eexists; reflexivity|reflexivity|intros a Ha; exact Ha|apply cell_byte_inside]. Qed.

Lemma cell_is_small_ok : bool_ok [cell] cell_is_small.
Proof.
  split; [reflexivity|]. constructor; [reflexivity|intros rho _; eexists; reflexivity|reflexivity|intros a Ha; exact Ha|].
  apply st_cmp. split; [apply cell_byte_inside|apply st_const].
Qed.

Lemma cell_query_ok e : plain [cell] (cell_query e).
Proof. split; [apply NoDup_singleton|]. apply Forall_singleton, cell_is_small_ok. Qed.

Lemma cell_satisfiable : satisfiable [cell_is_small].
Proof. exists (cell_contents 3). split; [apply cell_byte_contents, list_elem_of_In; vm_compute; auto|]. apply Forall_singleton. reflexivity. Qed.


Lemma getRange_tight_witness :
  getRange (A:=apint_ref) (Opts:=no_const_array_opt) byte_solver (cell_query cell_byte) tt = Done (Some (const 8 0, const 8 8), tt) /\
  range_spec (cell_query cell_byte) (const 8 0, const 8 8).
Proof.
  pose proof (getRange_tight (A:=apint_ref) (AS:=apint_ref_spec) (Opts:=no_const_array_opt) [cell] (plain [cell]) (fun _ _ => True) (fun _ => True)
    byte_solver (cell_query cell_byte) (cell_query_ok _) cell_byte_ok cell_satisfiable ltac:(split; intros H; discriminate H) tt I) as H.
  assert (E : getRange (A:=apint_ref) (Opts:=no_const_array_opt) byte_solver (cell_query cell_byte) tt =
    Done (Some (const 8 0, const 8 8), tt)) by (vm_compute; reflexivity).
  split; [exact E|]. rewrite E in H. apply H.
Defined.
