(* ===== verification/IncompleteSolver.v ===== *)
(** * Incomplete solvers and staging

    src/include/klee/Solver/IncompleteSolver.h and
    lib/Solver/IncompleteSolver.cpp: partial answers, the interface of solvers
    that may not know, and [StagedSolverImpl], which asks such a solver first
    and a complete one when there is no answer. *)

From S2P Require Import Prelude APInt Expr ExprOrder ExprSem ExprCreate ExprTyping ExprEvaluator ExprClosure IndependentElementSet ConstraintManager Solver.

Inductive PartialValidity := MustBeTrue | MustBeFalse | MayBeTrue | MayBeFalse | TrueOrFalse | PVNone.

#[export] Instance PartialValidity_eq_dec : EqDecision PartialValidity.
Proof. solve_decision. Defined.

Definition negatePartialValidity (pv : PartialValidity) : outcome PartialValidity :=
  match pv with
  | PVNone => Abort      (* assert(0 && "invalid partial validity") *)
  | MustBeTrue => Done MustBeFalse
  | MustBeFalse => Done MustBeTrue
  | MayBeTrue => Done MayBeFalse
  | MayBeFalse => Done MayBeTrue
  | TrueOrFalse => Done TrueOrFalse
  end.

Record IncompleteSolver (S : Type) := mkIncomplete {
  inc_computeValidity : Query -> SolverM S PartialValidity;
  inc_computeTruth : Query -> SolverM S PartialValidity;
  inc_computeValue : Query -> SolverM S Expr;
  inc_computeInitialValues : Query -> list Array -> SolverM S (option (list (list Z)))
}.
Arguments mkIncomplete {S}.
Arguments inc_computeValidity {S}.
Arguments inc_computeTruth {S}.
Arguments inc_computeValue {S}.
Arguments inc_computeInitialValues {S}.

(** A computation of the primary solver, whose state is the first component. *)
Definition primary {T S X} (m : SolverM T X) : SolverM (T * S) X := fun s =>
  match m s.1 with
  | Done (x, t') => Done (x, (t', s.2))
  | Abort => Abort
  | OutOfFuel => OutOfFuel
  end.

(** [if (m) return true; return k;] *)
Definition or_else {S X} (m k : SolverM S X) : SolverM S X := fun s =>
  match m s with Done (None, s') => k s' | r => r end.

Section Staged.
Context `{A : APIntOps} `{Opts : ExprOptions}.

(** The default [IncompleteSolver::computeValidity]. *)
Definition IncompleteSolver_computeValidity {S} (truth : Query -> SolverM S PartialValidity) (q : Query) : SolverM S PartialValidity :=
  trueResult ← truth q;
  if bool_decide (trueResult = MustBeTrue) then mret MustBeTrue
  else
    falseResult ← truth (negateExpr q);
    if bool_decide (falseResult = MustBeTrue) then mret MustBeFalse
    else
      let trueCorrect := negb (bool_decide (trueResult = PVNone)) in
      let falseCorrect := negb (bool_decide (falseResult = PVNone)) in
      mret (if trueCorrect && falseCorrect then TrueOrFalse
            else if trueCorrect then MayBeFalse
            else if falseCorrect then MayBeTrue
            else PVNone).

Definition StagedSolver {T S} (prim : IncompleteSolver T) (secondary : SolverImpl S) : SolverImpl (T * S) := mkImpl
  (fun q =>
     v ← primary (inc_computeValidity prim q);
     match v with
     | MustBeTrue => mret VTrue
     | MustBeFalse => mret VFalse
     | TrueOrFalse => mret VUnknown
     | MayBeTrue =>
       tmp ← inner (computeTruth secondary q);
       mret (if tmp : bool then VTrue else VUnknown)
     | MayBeFalse =>
       tmp ← inner (computeTruth secondary (negateExpr q));
       mret (if tmp : bool then VFalse else VUnknown)
     | PVNone => inner (computeValidity secondary q)
     end)
  (fun q =>
     trueResult ← primary (inc_computeTruth prim q);
     if negb (bool_decide (trueResult = PVNone)) then mret (bool_decide (trueResult = MustBeTrue))
     else inner (computeTruth secondary q))
  (fun q => or_else (primary (inc_computeValue prim q)) (inner (computeValue secondary q)))
  (fun q objects => or_else (primary (inc_computeInitialValues prim q objects)) (inner (computeInitialValues secondary q objects))).

End Staged.

(** ** The contract *)

(** What a partial answer claims. *)
Definition partial_spec (q : Query) (pv : PartialValidity) : Prop :=
  match pv with
  | MustBeTrue => valid q
  | MustBeFalse => refuted q
  | MayBeTrue => exists rho, example q rho
  | MayBeFalse => exists rho, counterexample q rho
  | TrueOrFalse => (exists rho, example q rho) /\ exists rho, counterexample q rho
  | PVNone => True
  end.

(** [computeTruth] answers [MustBeTrue] or [MayBeFalse], or does not know. *)
Definition partial_truth_spec (q : Query) (pv : PartialValidity) : Prop :=
  (pv = MustBeTrue \/ pv = MayBeFalse \/ pv = PVNone) /\ partial_spec q pv.

Class IncompleteSpec (U : list Array) (Ctx : Query -> Prop) (Ini : Query -> list Array -> Prop) {S : Type} (I : S -> Prop) (impl : IncompleteSolver S) : Prop := {
  isp_validity q : Ctx q -> bool_ok U (q_expr q) -> satisfiable (q_constraints q) ->
    spec False I (inc_computeValidity impl q) (partial_spec q);
  isp_truth q : Ctx q -> bool_ok U (q_expr q) -> satisfiable (q_constraints q) ->
    spec False I (inc_computeTruth impl q) (partial_truth_spec q);
  isp_value q : Ctx q -> expr_ok U (q_expr q) -> satisfiable (q_constraints q) ->
    spec True I (inc_computeValue impl q) (value_spec q);
  isp_initial q objects : Ctx q -> Ini q objects -> bool_ok U (q_expr q) -> objects ⊆ U ->
    spec True I (inc_computeInitialValues impl q objects) (initial_spec q objects)
}.

Lemma spec_primary {T S X} F (J : T -> Prop) (I : S -> Prop) (m : SolverM T X) P :
  spec F J m P -> spec F (fun s => J s.1 /\ I s.2) (primary m) P.
Proof.
  intros Hm [t s] [Ht Hs]. specialize (Hm t Ht). unfold primary. cbn in *. destruct (m t) as [[[x|] t']| |]; naive_solver.
Qed.

Lemma spec_or_else {S X} F (I : S -> Prop) (m k : SolverM S X) P : spec True I m P -> spec F I k P -> spec F I (or_else m k) P.
Proof.
  intros Hm Hk s Hs. specialize (Hm s Hs). unfold or_else. destruct (m s) as [[[x|] s']| |]; [done| |done..].
  destruct Hm as [_ Hs']. exact (Hk s' Hs').
Qed.

Section Correct.
Context `{A : APIntOps} {AS : APIntSpec A} `{Opts : ExprOptions} (U : list Array).

Lemma negate_partial q pv pv' : bool_ok U (q_expr q) -> negatePartialValidity pv = Done pv' ->
  partial_spec (negateExpr q) pv <-> partial_spec q pv'.
Proof.
  intros He E.
  assert (Hc : (exists rho, counterexample (negateExpr q) rho) <-> exists rho, example q rho)
    by (split; intros [rho H]; exists rho; now apply (negate_counterexample U)).
  assert (Hx : (exists rho, example (negateExpr q) rho) <-> exists rho, counterexample q rho)
    by (split; intros [rho H]; exists rho; now apply (negate_example U)).
  destruct pv; try discriminate E; injection E as <-; cbn; rewrite ?Hc, ?Hx; try tauto; [now apply (negate_valid U)|now apply (negate_refuted U)].
Qed.

Context (Ctx : Query -> Prop) {QC : QueryContext U Ctx}.

(** The default [computeValidity] from a correct [computeTruth]. *)
Lemma default_validity_ok {S} (I : S -> Prop) truth :
  (forall q, Ctx q -> bool_ok U (q_expr q) -> satisfiable (q_constraints q) -> spec False I (truth q) (partial_truth_spec q)) ->
  forall q, Ctx q -> bool_ok U (q_expr q) -> satisfiable (q_constraints q) ->
  spec False I (IncompleteSolver_computeValidity truth q) (partial_spec q).
Proof.
  intros Ht q Hq He Hs. eapply spec_bind; [now apply Ht|]. intros t [Ht1 Ht2].
  destruct (bool_decide_reflect (t = MustBeTrue)) as [->|Nt]; [now apply spec_ret|].
  eapply spec_bind; [apply Ht; [now apply (qc_withExpr (U:=U))|now apply IsZero_bool_ok|done]|]. intros f [Hf1 Hf2].
  destruct (bool_decide_reflect (f = MustBeTrue)) as [->|Nf].
  { apply spec_ret. now apply (negate_partial q MustBeTrue MustBeFalse). }
  apply spec_ret. destruct Ht1 as [?|[->| ->]]; [done| |]; destruct Hf1 as [?|[->| ->]]; try done; cbn in *.
  - split; [|done]. now apply (negate_partial q MayBeFalse MayBeTrue).
  - now apply (negate_partial q MayBeFalse MayBeTrue).
Qed.

(** Staging: an incomplete solver that meets its contract in front of a
    complete one that meets its own makes a solver that meets the contract; the
    answers of the first are only used as far as they go. *)
Theorem staged_solver_correct {T S} (Ini : Query -> list Array -> Prop) (F : Prop) (J : T -> Prop) (I : S -> Prop) (prim : IncompleteSolver T) (secondary : SolverImpl S) :
  IncompleteSpec U Ctx Ini J prim -> SolverSpec U Ctx Ini F I secondary ->
  SolverSpec U Ctx Ini F (fun s => J s.1 /\ I s.2) (StagedSolver prim secondary).
Proof.
  intros HJ HI. constructor.
  - intros q Hq He Hs. eapply spec_bind; [eapply spec_weaken; [|now apply spec_primary, (isp_validity (U:=U))]; done|].
    intros [] Hv; cbn in Hv; try now apply spec_ret.
    + eapply spec_bind; [now apply spec_inner, (sp_truth (U:=U))|]. intros [] Ht; apply spec_ret; [done|now split].
    + eapply spec_bind; [apply spec_inner, (sp_truth (U:=U)); [now apply (qc_withExpr (U:=U))|now apply IsZero_bool_ok|done]|].
      intros [] Ht; apply spec_ret; [now apply (negate_valid U)|]. split; [|done].
      destruct Ht as [rho Ht]. exists rho. now apply (negate_counterexample U).
    + now apply spec_inner, (sp_validity (U:=U)).
  - intros q Hq He Hs. eapply spec_bind; [eapply spec_weaken; [|now apply spec_primary, (isp_truth (U:=U))]; done|].
    intros t [[->|[->| ->]] Ht]; [now apply spec_ret..|]. now apply spec_inner, (sp_truth (U:=U)).
  - intros q Hq He Hs. apply spec_or_else; [now apply spec_primary, (isp_value (U:=U))|now apply spec_inner, (sp_value (U:=U))].
  - intros q objects Hq Hi He Ho. apply spec_or_else; [now apply spec_primary, (isp_initial (U:=U))|now apply spec_inner, (sp_initial (U:=U))].
Qed.

End Correct.

(** ** Witness *)

(** A solver that tries the contents zero only. *)
Definition zero_refutes (q : Query) : bool :=
  holds (cell_contents 0) (q_constraints q) && is_value (q_expr q) (APInt 1 0) (cell_contents 0).
Definition zero_truth (q : Query) : SolverM unit PartialValidity := mret (if zero_refutes q then MayBeFalse else PVNone).
Definition zero_solver : IncompleteSolver unit := mkIncomplete
  (IncompleteSolver_computeValidity (A:=apint_ref) (Opts:=no_const_array_opt) zero_truth)
  zero_truth
  (fun _ => failure)
  (fun q objects => if zero_refutes q then mret (Some (bytes_of (cell_contents 0) <$> objects)) else failure).

Lemma zero_refutes_ok q : zero_refutes q = true -> counterexample q (cell_contents 0).
Proof.
  intros [Hh Hv]%andb_true_iff. apply bool_decide_eq_true in Hv. split; [|done].
  split; [apply cell_byte_contents, list_elem_of_In; left; reflexivity|]. apply Forall_forall. intros e He%list_elem_of_In.
  unfold holds in Hh. rewrite forallb_forall in Hh. apply Hh, bool_decide_eq_true in He. exact He.
Qed.

#[export] Instance zero_solver_spec : IncompleteSpec [cell] (plain [cell]) (fun _ _ => True) (fun _ => True) zero_solver.
Proof.
  assert (Ht : forall q, spec False (fun _ => True) (zero_truth q) (partial_truth_spec q)).
  { intros q. apply spec_ret. destruct (zero_refutes q) eqn:E; (split; [auto|]); [|done].
    exists (cell_contents 0). now apply zero_refutes_ok. }
  constructor; intros.
  - apply (default_validity_ok (A:=apint_ref) (AS:=apint_ref_spec) [cell] (plain [cell])); auto.
  - apply Ht.
  - now apply spec_failure.
  - cbn. destruct (zero_refutes q) eqn:E; [|now apply spec_failure]. apply spec_ret. exists (cell_contents 0).
    split; [now apply zero_refutes_ok|done].
Qed.

Definition cell_is_one : Expr := CmpExpr Eq (const 8 1) cell_byte.
Lemma cell_is_one_ok : bool_ok [cell] cell_is_one.
Proof.
  split; [reflexivity|]. constructor; [reflexivity|intros rho _; eexists; reflexivity|reflexivity|intros a Ha; exact Ha|].
  apply st_cmp. split; [apply st_const|apply cell_byte_inside].
Qed.

Definition staged_run : outcome (option bool * (unit * unit)) :=
  computeTruth (StagedSolver (A:=apint_ref) (Opts:=no_const_array_opt) zero_solver byte_solver) (cell_query cell_is_one) (tt, tt).

Lemma staged_solver_correct_witness :
  staged_run = Done (Some false, (tt, tt)) /\ exists rho, counterexample (cell_query cell_is_one) rho.
Proof.
  pose proof (staged_solver_correct (A:=apint_ref) (AS:=apint_ref_spec) (Opts:=no_const_array_opt) [cell] (plain [cell])
    (fun _ _ => True) False (fun _ => True) (fun _ => True) zero_solver byte_solver zero_solver_spec byte_solver_spec) as H.
  pose proof (sp_truth (SolverSpec:=H) (cell_query cell_is_one) (cell_query_ok _) cell_is_one_ok cell_satisfiable (tt, tt) (conj I I)) as Ht.
  assert (E : staged_run = Done (Some false, (tt, tt))) by (vm_compute; reflexivity).
  split; [exact E|]. unfold staged_run in E. rewrite E in Ht. apply Ht.
Defined.
