(* ===== verification/CachingSolver.v ===== *)
(** * The branch cache

    [CachingSolver] of src/lib/Solver/CachingSolver.cpp: a cache from
    constraint sets with a query to what is known about the query.  The query is
    stored as itself or as its negation, whichever is smaller in the order of
    expressions.

    The hash map is a list of entries, searched with the comparison of
    [CacheEntry]; the hash only selects a bucket.  The state of the solver is the
    cache with the state of the wrapped solver. *)

From S2P Require Import Prelude APInt Expr ExprOrder ExprSem ExprCreate ExprTyping ExprEvaluator ExprClosure IndependentElementSet FactorDelete ConstraintManager Solver IncompleteSolver.

(** [CacheEntry] *)
Record CacheEntry := mkEntry { ce_constraints : list Expr; ce_query : Expr }.

Definition cache_map : Type := list (CacheEntry * PartialValidity).

Section Caching.
Context `{A : APIntOps} `{Opts : ExprOptions}.

(** [operator==] of the unordered sets of constraints: as many elements, and each
    one found in the other set. *)
Definition constraints_eqb (a b : list Expr) : bool :=
  (length a =? length b)%nat && forallb (fun e => existsb (Expr_eqb e) b) a.

Definition CacheEntry_eqb (a b : CacheEntry) : bool :=
  constraints_eqb (ce_constraints a) (ce_constraints b) && Expr_eqb (ce_query a) (ce_query b).

Fixpoint cache_find (cache : cache_map) (ce : CacheEntry) : option PartialValidity :=
  match cache with
  | [] => None
  | (ce', pv) :: cache => if CacheEntry_eqb ce ce' then Some pv else cache_find cache ce
  end.

(** [cache.insert] keeps an entry that is already there. *)
Definition cache_insert (cache : cache_map) (ce : CacheEntry) (pv : PartialValidity) : cache_map :=
  match cache_find cache ce with Some _ => cache | None => (ce, pv) :: cache end.

(** The canonical query, and [negationUsed]. *)
Definition canonicalizeQuery (originalQuery : Expr) : Expr * bool :=
  let negatedQuery := createIsZero originalQuery in
  if compare originalQuery negatedQuery <? 0 then (originalQuery, false) else (negatedQuery, true).

Definition entry_of (q : Query) : CacheEntry := mkEntry (q_constraints q) (canonicalizeQuery (q_expr q)).1.
Definition negationUsed (q : Query) : bool := (canonicalizeQuery (q_expr q)).2.

Definition cacheLookup {S} (q : Query) : SolverM (cache_map * S) (option PartialValidity) :=
  cache ← own;
  match cache_find cache (entry_of q) with
  | Some pv =>
    result ← pure (if negationUsed q then negatePartialValidity pv else Done pv);
    mret (Some result)
  | None => mret None
  end.

Definition cacheInsert {S} (q : Query) (result : PartialValidity) : SolverM (cache_map * S) unit :=
  cachedResult ← pure (if negationUsed q then negatePartialValidity result else Done result);
  cache ← own;
  set_own (cache_insert cache (entry_of q) cachedResult).

Section Solver.
Context {S : Type} (solver : SolverImpl S).

Definition Caching_computeValidity (q : Query) : SolverM (cache_map * S) Validity :=
  cachedResult ← cacheLookup q;
  match cachedResult with
  | Some MustBeTrue => mret VTrue
  | Some MustBeFalse => mret VFalse
  | Some TrueOrFalse => mret VUnknown
  | Some MayBeTrue =>
    tmp ← inner (computeTruth solver q);
    if tmp : bool
    then _ ← cacheInsert q MustBeTrue; mret VTrue
    else _ ← cacheInsert q TrueOrFalse; mret VUnknown
  | Some MayBeFalse =>
    tmp ← inner (computeTruth solver (negateExpr q));
    if tmp : bool
    then _ ← cacheInsert q MustBeFalse; mret VFalse
    else _ ← cacheInsert q TrueOrFalse; mret VUnknown
  | Some PVNone => abort
  | None =>
    result ← inner (computeValidity solver q);
    _ ← cacheInsert q (match result with VTrue => MustBeTrue | VFalse => MustBeFalse | VUnknown => TrueOrFalse end);
    mret result
  end.

Definition Caching_computeTruth (q : Query) : SolverM (cache_map * S) bool :=
  cachedResult ← cacheLookup q;
  let miss :=
    isValid ← inner (computeTruth solver q);
    cached ← (if isValid : bool then mret MustBeTrue
              else match cachedResult with
                   | Some pv => _ ← assume (bool_decide (pv = MayBeTrue)); mret TrueOrFalse
                   | None => mret MayBeFalse
                   end);
    _ ← cacheInsert q cached;
    mret isValid in
  match cachedResult with
  | Some pv => if negb (bool_decide (pv = MayBeTrue)) then mret (bool_decide (pv = MustBeTrue)) else miss
  | None => miss
  end.

Definition CachingSolver : SolverImpl (cache_map * S) := mkImpl
  Caching_computeValidity
  Caching_computeTruth
  (fun q => inner (computeValue solver q))
  (fun q objects => inner (computeInitialValues solver q objects)).

End Solver.
End Caching.

(** ** Correctness *)

Section Correct.
Context `{A : APIntOps} {AS : APIntSpec A} `{Opts : ExprOptions} (U : list Array) (Ctx : Query -> Prop) {QC : QueryContext U Ctx}.

Lemma bool_ok_wf e : bool_ok U e -> wf_consts e = true.
Proof. intros He. exact (has_width_wf 1 e (expr_ok_width U e He)). Qed.

Lemma constraints_wf C : constraints_ok U C -> Forall (fun e => wf_consts e = true) C.
Proof. intros [_ H]. eapply Forall_impl; [exact H|]. intros e. apply bool_ok_wf. Qed.

Lemma constraints_eqb_elem a b : constraints_ok U a -> constraints_ok U b -> constraints_eqb a b = true -> forall e, e ∈ a <-> e ∈ b.
Proof.
  intros Ha Hb H. apply andb_true_iff in H as [Hl%Nat.eqb_eq H]. rewrite forallb_forall in H.
  pose proof (constraints_wf a Ha) as Wa. pose proof (constraints_wf b Hb) as Wb.
  assert (Hsub : incl a b).
  { intros e He. specialize (H e He). apply list_elem_of_In. apply list_elem_of_In in He. rewrite Forall_forall in Wa.
    apply existsb_elem in H; auto. }
  assert (Hp : Permutation a b).
  { apply NoDup_Permutation_bis; [apply NoDup_ListNoDup, Ha|lia|done]. }
  intros e. now rewrite Hp.
Qed.

Lemma satisfies_elem rho a b : (forall e, e ∈ a <-> e ∈ b) -> satisfies rho a <-> satisfies rho b.
Proof. intros H. unfold satisfies, models. rewrite !Forall_forall. now setoid_rewrite H. Qed.

(** What an answer claims depends on the set of constraints and the expression. *)
Lemma partial_spec_elem q q' pv : (forall e, e ∈ q_constraints q <-> e ∈ q_constraints q') -> q_expr q = q_expr q' ->
  partial_spec q pv -> partial_spec q' pv.
Proof.
  intros HC HE.
  assert (Hc : forall rho, counterexample q rho <-> counterexample q' rho).
  { intros rho. unfold counterexample. now rewrite (satisfies_elem rho _ _ HC), HE. }
  assert (Hx : forall rho, example q rho <-> example q' rho).
  { intros rho. unfold example. now rewrite (satisfies_elem rho _ _ HC), HE. }
  destruct pv; cbn; unfold valid, refuted; setoid_rewrite Hc || setoid_rewrite Hx || idtac; try done. now setoid_rewrite Hx.
Qed.

(** The cache holds right answers. *)
Definition entry_ok (p : CacheEntry * PartialValidity) : Prop :=
  constraints_ok U (ce_constraints p.1) /\ bool_ok U (ce_query p.1) /\ p.2 <> PVNone /\
  forall q, q_constraints q = ce_constraints p.1 -> q_expr q = ce_query p.1 -> partial_spec q p.2.

Definition cache_ok (cache : cache_map) : Prop := Forall entry_ok cache.

Lemma canonical_ok e : bool_ok U e -> bool_ok U (canonicalizeQuery e).1.
Proof. intros He. unfold canonicalizeQuery. case_match; [done|]. now apply IsZero_bool_ok. Qed.

Lemma cache_find_ok cache q pv : cache_ok cache -> Ctx q -> bool_ok U (q_expr q) ->
  cache_find cache (entry_of q) = Some pv -> pv <> PVNone /\ partial_spec (withExpr q (ce_query (entry_of q))) pv.
Proof.
  intros Hc Hq He. induction cache as [|[ce pv'] cache IH]; cbn; [done|]. apply Forall_cons in Hc as [(HC & HE & Hn & Hp) Hc].
  destruct (CacheEntry_eqb (entry_of q) ce) eqn:E; [|auto]. intros [= <-]. split; [done|].
  apply andb_true_iff in E as [E1 E2]. cbn [entry_of ce_constraints ce_query] in E1, E2.
  pose proof (canonical_ok _ He) as Hk. apply Expr_eqb_eq in E2; [|now apply bool_ok_wf..].
  pose proof (constraints_eqb_elem _ _ (qc_constraints q Hq) HC E1) as Hel.
  apply (partial_spec_elem (mkQuery (constraintMgr q) (ce_constraints ce) false (ce_query ce) None)).
  - intros e. cbn. now rewrite Hel.
  - cbn. done.
  - now apply Hp.
Qed.

(** The answer for the query from the answer for the canonical query. *)
Lemma canonical_partial q pv pv' : bool_ok U (q_expr q) ->
  (if negationUsed q then negatePartialValidity pv else Done pv) = Done pv' ->
  partial_spec (withExpr q (ce_query (entry_of q))) pv <-> partial_spec q pv'.
Proof.
  intros He. unfold negationUsed, entry_of. cbn [ce_query]. unfold canonicalizeQuery.
  destruct (compare _ _ <? 0); cbn [fst snd].
  - intros [= <-]. split; apply partial_spec_elem; done.
  - intros E. exact (negate_partial U q pv pv' He E).
Qed.

Lemma negate_defined q pv : pv <> PVNone ->
  exists pv', (if negationUsed q then negatePartialValidity pv else Done pv) = Done pv' /\ pv' <> PVNone.
Proof. intros Hn. destruct (negationUsed q); [|eauto]. destruct pv; try done; eexists; done. Qed.

Section Wrapped.
Context {S : Type} (Ini : Query -> list Array -> Prop) (F : Prop) (I : S -> Prop) (solver : SolverImpl S) {SS : SolverSpec U Ctx Ini F I solver}.
Notation ok := (fun s : cache_map * S => cache_ok s.1 /\ I s.2).

Lemma cacheLookup_ok q : Ctx q -> bool_ok U (q_expr q) ->
  spec F ok (cacheLookup q) (fun r => match r with Some pv => pv <> PVNone /\ partial_spec q pv | None => True end).
Proof.
  intros Hq He. eapply spec_bind; [apply spec_own|]. intros cache Hc.
  destruct (cache_find cache (entry_of q)) as [pv|] eqn:E; [|now apply spec_ret].
  destruct (cache_find_ok cache q pv Hc Hq He E) as [Hn Hp]. destruct (negate_defined q pv Hn) as (pv' & E' & Hn').
  eapply (spec_bind _ _ _ _ (fun pv => pv <> PVNone /\ partial_spec q pv)); [|now intros; apply spec_ret].
  eapply spec_pure; [exact E'|]. split; [done|]. now apply (canonical_partial q pv pv').
Qed.

Lemma cacheInsert_ok q pv : Ctx q -> bool_ok U (q_expr q) -> pv <> PVNone -> partial_spec q pv ->
  spec F ok (cacheInsert q pv) (fun _ => True).
Proof.
  intros Hq He Hn Hp. destruct (negate_defined q pv Hn) as (pv' & E & Hn').
  eapply (spec_bind _ _ _ _ (fun r => r = pv')); [eapply spec_pure; [exact E|reflexivity]|]. intros ? ->.
  eapply spec_bind; [apply spec_own|]. intros cache Hc. apply spec_set_own. unfold cache_insert.
  destruct (cache_find _ _); [done|]. constructor; [|done]. split_and!; cbn.
  - now apply (qc_constraints (U:=U)).
  - now apply canonical_ok.
  - done.
  - intros q' HC' HE'. apply (partial_spec_elem (withExpr q (ce_query (entry_of q)))); [cbn; now rewrite HC'|done|].
    assert (Einv : (if negationUsed q then negatePartialValidity pv' else Done pv') = Done pv).
    { destruct (negationUsed q); [|congruence]. destruct pv; try discriminate E; injection E as <-; done. }
    now apply (canonical_partial q pv' pv).
Qed.

Lemma Caching_computeTruth_ok q : Ctx q -> bool_ok U (q_expr q) -> satisfiable (q_constraints q) ->
  spec F ok (Caching_computeTruth solver q) (truth_spec q).
Proof.
  intros Hq He Hs. eapply spec_bind; [now apply cacheLookup_ok|]. intros r Hr.
  assert (Hmiss : (match r with Some pv => pv = MayBeTrue | None => True end) -> spec F ok
    (isValid ← inner (computeTruth solver q);
     cached ← (if isValid : bool then mret MustBeTrue
               else match r with Some pv => _ ← assume (bool_decide (pv = MayBeTrue)); mret TrueOrFalse | None => mret MayBeFalse end);
     _ ← cacheInsert q cached; mret isValid) (truth_spec q)).
  { intros Hmay. eapply spec_bind; [now apply spec_inner, (sp_truth (U:=U))|]. intros b Hb.
    eapply (spec_bind _ _ _ _ (fun pv => pv <> PVNone /\ partial_spec q pv)).
    - destruct b; [now apply spec_ret|]. destruct r as [pv|]; [|now apply spec_ret].
      subst pv. eapply spec_bind; [now apply spec_assume|]. intros _ _. apply spec_ret. destruct Hr as [_ Hr]. now split.
    - intros pv [Hn Hp]. eapply spec_bind; [now apply cacheInsert_ok|]. intros _ _. now apply spec_ret. }
  destruct r as [pv|]; [|now apply Hmiss]. destruct (bool_decide_reflect (pv = MayBeTrue)); [now apply Hmiss|]. clear Hmiss.
  apply spec_ret. destruct Hr as [Hn Hp]. destruct pv; try done; cbn in *.
  - now apply (refuted_counterexample U).
  - apply Hp.
Qed.

Lemma Caching_computeValidity_ok q : Ctx q -> bool_ok U (q_expr q) -> satisfiable (q_constraints q) ->
  spec F ok (Caching_computeValidity solver q) (validity_spec q).
Proof.
  intros Hq He Hs. eapply spec_bind; [now apply cacheLookup_ok|]. intros r Hr.
  assert (Hins : forall pv v, pv <> PVNone -> partial_spec q pv -> validity_spec q v ->
    spec F ok (_ ← cacheInsert q pv; mret v) (validity_spec q)).
  { intros pv v Hn Hp Hv. eapply spec_bind; [now apply cacheInsert_ok|]. intros _ _. now apply spec_ret. }
  destruct r as [[]|]; try (destruct Hr as [Hn Hp]; cbn in Hp); try now apply spec_ret.
  - eapply spec_bind; [now apply spec_inner, (sp_truth (U:=U))|]. intros [] Hb; now apply Hins.
  - eapply spec_bind; [apply spec_inner, (sp_truth (U:=U)); [now apply (qc_withExpr (U:=U))|now apply IsZero_bool_ok|done]|].
    assert (Hx : (exists rho, counterexample (negateExpr q) rho) -> exists rho, example q rho)
      by (intros [rho H]; exists rho; now apply (negate_counterexample U)).
    intros [] Hb; apply Hins; try done.
    + now apply (negate_valid U).
    + now apply (negate_valid U).
    + split; auto.
    + split; auto.
  - done.
  - eapply spec_bind; [now apply spec_inner, (sp_validity (U:=U))|]. intros v Hv. apply Hins; now destruct v.
Qed.

End Wrapped.

(** An entry is never refined: inserting the better answer that the wrapped
    solver gave for a query with a partial answer changes nothing. *)
Lemma cache_never_refined cache q pv pv' : cache_find cache (entry_of q) = Some pv -> cache_insert cache (entry_of q) pv' = cache.
Proof. intros E. unfold cache_insert. now rewrite E. Qed.

Lemma CachingSolver_spec {S} (Ini : Query -> list Array -> Prop) (F : Prop) (I : S -> Prop) (solver : SolverImpl S) :
  SolverSpec U Ctx Ini F I solver -> SolverSpec U Ctx Ini F (fun s => cache_ok s.1 /\ I s.2) (CachingSolver solver).
Proof.
  intros HS. constructor; intros.
  - now apply (Caching_computeValidity_ok Ini).
  - now apply (Caching_computeTruth_ok Ini).
  - now apply spec_inner, (sp_value (U:=U)).
  - now apply spec_inner, (sp_initial (U:=U)).
Qed.

(** C10: the branch cache: [CachingSolver] meets the contract of a solver when
    the solver it wraps does, from the empty cache on and through every
    sequence of queries; the cache only ever holds right answers, for the
    constraints as a set and for a query and its negation alike, and no assert
    on the cached values fails. *)
Theorem caching_solver_correct {S} (Ini : Query -> list Array -> Prop) (F : Prop) (I : S -> Prop) (solver : SolverImpl S) :
  SolverSpec U Ctx Ini F I solver ->
  cache_ok [] /\ SolverSpec U Ctx Ini F (fun s => cache_ok s.1 /\ I s.2) (CachingSolver solver).
Proof.
  intros HS. split; [constructor|]. now apply CachingSolver_spec.
Qed.

End Correct.

(** ** Witness *)

Definition cached_run : outcome (option bool * (cache_map * unit)) :=
  computeTruth (CachingSolver (A:=apint_ref) (Opts:=no_const_array_opt) byte_solver) (cell_query cell_is_small) ([], tt).
Definition cached_entry : CacheEntry := entry_of (A:=apint_ref) (Opts:=no_const_array_opt) (cell_query cell_is_small).

Lemma caching_solver_correct_witness :
  cached_run = Done (Some true, ([(cached_entry, MustBeFalse)], tt)) /\ valid (cell_query cell_is_small).
Proof.
  destruct (caching_solver_correct (A:=apint_ref) (AS:=apint_ref_spec) (Opts:=no_const_array_opt) [cell] (plain [cell])
    (fun _ _ => True) False (fun _ => True) byte_solver byte_solver_spec) as [H0 H].
  pose proof (sp_truth (SolverSpec:=H) (cell_query cell_is_small) (cell_query_ok _) cell_is_small_ok cell_satisfiable
    ([], tt) (conj H0 I)) as Ht.
  assert (E : cached_run = Done (Some true, ([(cached_entry, MustBeFalse)], tt))) by (vm_compute; reflexivity).
  split; [exact E|]. unfold cached_run in E. rewrite E in Ht. apply Ht.
Defined.
