(* ===== verification/SolverAssignment.v ===== *)
(** * Assignments as answers of solvers

    What the solvers of the chain do with the values they receive: an
    [Assignment] (src/include/klee/Expr/Assignment.h) made from objects and
    values, and the evaluation of constraints under it. *)

From S2P Require Import Prelude APInt Expr ExprOrder ExprSem ExprCreate ExprCreateSound ExprRebuildSound ExprTyping ExprVisitor ExprEvaluator IndependentElementSet Solver.

Lemma evaluable_weaken : forall e, evaluable true e = true -> evaluable false e = true.
Proof.
  apply (Expr_mut (fun e => evaluable true e = true -> evaluable false e = true)
    (fun u => un_evaluable true u = true -> un_evaluable false u = true)); cbn; intros; rewrite ?andb_true_iff in *; naive_solver.
Qed.

Section Values.
Context `{A : APIntOps} {AS : APIntSpec A} `{Opts : ExprOptions} (UseVisitorHash : bool) (U : list Array).

(** Evaluation with free values keeps the value. *)
Lemma evaluate_partial rho a e v : agrees rho a -> bytes_ok a = true -> expr_ok U e -> eval rho e = Some v ->
  exists r, Assignment_evaluate UseVisitorHash a e = Some r /\ eval rho r = Some v.
Proof.
  intros Ha Hb He Hv. unfold Assignment_evaluate.
  destruct (ExprEvaluator.evaluate_ok UseVisitorHash rho false a e v no_tables) as (r & st & -> & [Hr _] & _);
    [done..|apply evaluable_weaken, He|done|apply no_tables_ok|]. exists r. done.
Qed.

(** Evaluation without free values returns the constant. *)
Lemma evaluate_full a e v : bytes_ok a = true -> allowFreeValues a = false -> expr_ok U e -> eval (contents a) e = Some v ->
  Assignment_evaluate UseVisitorHash a e = Some (ConstantExpr v).
Proof.
  intros Hb Hf He Hv. unfold Assignment_evaluate.
  destruct (ExprEvaluator.evaluate_ok UseVisitorHash (contents a) true a e v no_tables) as (r & st & -> & [Hr Hc] & _);
    [apply contents_agrees|done|done|apply He|done|apply no_tables_ok|].
  cbn. specialize (Hc eq_refl). destruct r; try done. apply eval_const_inv in Hr as [-> _]. done.
Qed.

Lemma evaluate_constant a c : Assignment_evaluate UseVisitorHash a (ConstantExpr c) = Some (ConstantExpr c).
Proof. unfold Assignment_evaluate. cbn. now rewrite orb_true_r. Qed.

(** ** Bindings *)

Lemma binding_app bs bs' a : binding (bs ++ bs') a = match binding bs a with Some v => Some v | None => binding bs' a end.
Proof. induction bs as [|[b v] bs IH]; cbn; [done|]. now case_decide. Qed.

(** The bindings made from the bytes of some contents. *)
Lemma binding_values rho objects a : binding (zip objects (bytes_of rho <$> objects)) a =
  if decide (a ∈ objects) then Some (bytes_of rho a) else None.
Proof.
  induction objects as [|b objects IH]; cbn; [done|].
  destruct (decide (a = b)) as [->|Hne]; [now rewrite decide_True by set_solver|]. rewrite IH.
  destruct (decide (a ∈ objects)); [now rewrite decide_True by set_solver|now rewrite decide_False by set_solver].
Qed.

Lemma bytes_of_lookup rho a i : 0 <= i -> bytes_of rho a !! Z.to_nat i = if decide (i < Expr.size a) then Some (rho a i) else None.
Proof.
  intros Hi. unfold bytes_of. rewrite list_lookup_fmap. case_decide.
  - rewrite lookup_seq_lt by lia. cbn. now rewrite Z2Nat.id.
  - now rewrite lookup_seq_ge by lia.
Qed.

Definition bytes_in_range (l : list Z) : bool := forallb (fun b => (0 <=? b) && (b <? 256)) l.

Lemma bytes_of_range rho a : byte_contents rho -> bytes_in_range (bytes_of rho a) = true.
Proof.
  intros Hr. unfold bytes_in_range. apply forallb_forall. intros b Hb%list_elem_of_In. apply list_elem_of_fmap in Hb as (i & -> & _).
  destruct (Hr a (Z.of_nat i)) as [? _]. apply andb_true_iff. rewrite Z.leb_le, Z.ltb_lt. lia.
Qed.

(** An assignment all of whose bindings are the bytes of [rho]. *)
Definition describes (a : Assignment) (rho : valuation) : Prop :=
  forall array values, (array, values) ∈ bindings a -> values = bytes_of rho array.

Lemma describes_bytes_ok a rho : byte_contents rho -> describes a rho -> bytes_ok a = true.
Proof.
  intros Hr Hd. unfold bytes_ok. apply forallb_forall. intros [array values] Hin%list_elem_of_In. cbn. rewrite (Hd _ _ Hin).
  now apply bytes_of_range.
Qed.

Lemma describes_agrees a rho : allowFreeValues a = true -> describes a rho -> agrees rho a.
Proof.
  intros Hf Hd array i Hi. unfold byte_of. destruct (binding (bindings a) array) as [values|] eqn:E; cbn; [|now left].
  rewrite (Hd array values (binding_elem _ _ _ E)), bytes_of_lookup by done. case_decide; [done|now left].
Qed.

(** The contents an assignment without free values stands for. *)
Lemma describes_contents a rho array i : byte_contents rho -> describes a rho -> is_Some (binding (bindings a) array) ->
  0 <= i -> contents a array i = rho array i.
Proof.
  intros Hr Hd [values E] Hi. unfold contents, byte_of. rewrite E. cbn. rewrite (Hd array values (binding_elem _ _ _ E)).
  rewrite bytes_of_lookup by done. case_decide; [done|]. symmetry. apply (Hr array i). lia.
Qed.

End Values.
