(* ===== verification/ValidatingSolver.v ===== *)
(** * The validating solvers

    src/lib/Solver/ValidatingSolver.cpp checks every answer of a solver with a
    second one, the oracle; src/lib/Solver/AssignmentValidatingSolver.cpp
    evaluates the query under the values it was given.  Both end the process on
    a wrong answer.  [sound] is the contract of a solver that may do so: what it
    returns is right. *)

From stdpp Require Import gmap strings.
From S2P Require Import Prelude APInt Expr ExprOrder ExprSem ExprCreate ExprCreateSound ExprRebuildSound ExprTyping ExprVisitor ExprEvaluator ExprUtil ExprClosure IndependentElementSet ConstraintManager Solver SolverAssignment.

#[export] Instance Validity_eq_dec : EqDecision Validity.
Proof. solve_decision. Defined.

Section Validating.
Context `{A : APIntOps} `{Opts : ExprOptions} (UseVisitorHash : bool).

(** The bindings as constraints. *)
Fixpoint binding_constraints (objects : list Array) (values : list (list Z)) : outcome (list Expr) :=
  match values, objects with
  | [], _ => Done []
  | _, [] => Abort
  | v :: values, array :: objects =>
    cs ← or_abort (constraints_of_binding array v);
    rest ← binding_constraints objects values;
    Done (cs ++ rest)
  end.

(** The negated expression and the constraints, as one expression. *)
Definition solution_expr (q : Query) : Expr := foldl AndExpr'create (createIsZero (q_expr q)) (q_constraints q).

Section Oracle.
Context {S : Type} (solver oracle : SolverImpl S).

Definition Validating_computeInitialValues (q : Query) (objects : list Array) : SolverM S (option (list (list Z))) :=
  r ← computeInitialValues solver q objects;
  match r with
  | Some values =>
    bindings ← pure (binding_constraints objects values);
    answer ← computeTruth oracle (mkQuery (constraintMgr q) (foldl insert_expr [] bindings) false (solution_expr q) None);
    _ ← assume answer;
    mret (Some values)
  | None =>
    answer ← computeTruth oracle q;
    _ ← assume answer;
    mret None
  end.

Definition ValidatingSolver : SolverImpl S := mkImpl
  (fun q =>
     result ← computeValidity solver q;
     answer ← computeValidity oracle q;
     _ ← assume (bool_decide (result = answer));
     mret result)
  (fun q =>
     isValid ← computeTruth solver q;
     answer ← computeTruth oracle q;
     _ ← assume (bool_decide (isValid = answer));
     mret isValid)
  (fun q =>
     result ← computeValue solver q;
     answer ← computeTruth oracle (withExpr q (NeExpr'create (q_expr q) result));
     _ ← assume (negb answer);
     mret result)
  Validating_computeInitialValues.

End Oracle.

(** *** Evaluating the answer *)

(** No constraint is left symbolic or is false. *)
Fixpoint check_constraints (assignment : Assignment) (cs : list Expr) : outcome unit :=
  match cs with
  | [] => Done tt
  | c :: cs =>
    r ← or_fuel (Assignment_evaluate UseVisitorHash assignment c);
    match r with
    | ConstantExpr CE => if isFalse CE then Abort else check_constraints assignment cs
    | _ => Abort
    end
  end.

Definition check_assignment (q : Query) (assignment : Assignment) : outcome unit :=
  _ ← check_constraints assignment (q_constraints q);
  r ← or_fuel (Assignment_evaluate UseVisitorHash assignment (q_expr q));
  match r with
  | ConstantExpr CE => if isTrue CE then Abort else Done tt
  | _ => Abort
  end.

(** The source reads [hasSolution] before it looks at [success]; a solver that
    fails is taken to have left [hasSolution] false. *)
Definition AssignmentValidatingSolver {S} (solver : SolverImpl S) : SolverImpl S := mkImpl
  (computeValidity solver) (computeTruth solver) (computeValue solver)
  (fun q objects =>
     r ← computeInitialValues solver q objects;
     match r with
     | None => mret None
     | Some values =>
       _ ← pure (check_assignment q (Assignment_create objects values true));
       mret (Some values)
     end).

End Validating.

(** ** Contracts *)

(** A result, when there is one, is in [P]. *)
Definition sound {S X} (I : S -> Prop) (m : SolverM S X) (P : X -> Prop) : Prop :=
  forall s, I s ->
  match m s with
  | Done (Some x, s') => I s' /\ P x
  | Done (None, s') => I s'
  | _ => True
  end.

Lemma sound_spec {S X} F (I : S -> Prop) (m : SolverM S X) P : spec F I m P -> sound I m P.
Proof. intros H s Hs. specialize (H s Hs). destruct (m s) as [[[x|] s']| |]; tauto. Qed.

Lemma sound_ret {S X} (I : S -> Prop) (x : X) (P : X -> Prop) : P x -> sound I (mret x) P.
Proof. intros Hx s Hs. now split. Qed.

Lemma sound_bind {S X Y} (I : S -> Prop) (m : SolverM S X) (k : X -> SolverM S Y) (P : X -> Prop) (Q : Y -> Prop) :
  sound I m P -> (forall x, P x -> sound I (k x) Q) -> sound I (mbind k m) Q.
Proof.
  intros Hm Hk s Hs. specialize (Hm s Hs). unfold mbind, SolverM_bind. destruct (m s) as [[[x|] s']| |]; [|done..].
  destruct Hm as [Hs' Hx]. exact (Hk x Hx s' Hs').
Qed.

Lemma sound_assume {S} (I : S -> Prop) b : sound I (assume b) (fun _ => b = true).
Proof. intros s Hs. unfold assume. now destruct b. Qed.

Lemma sound_pure {S X} (I : S -> Prop) (o : outcome X) : sound I (pure o) (fun x => o = Done x).
Proof. intros s Hs. unfold pure. now destruct o. Qed.

(** Arrays of bytes that can be bound. *)
Definition byte_array (a : Array) : Prop := bindable a = true /\ range a = 8.

(** Values of the right form: a byte for each element of each object. *)
Definition shaped (objects : list Array) (values : list (list Z)) : Prop :=
  Forall2 (fun a v => length v = Z.to_nat (Expr.size a) /\ bytes_in_range v = true) objects values.

(** A solver whose answers have the right form but may be wrong. *)
Class AnySolver (U : list Array) (Ctx : Query -> Prop) {S : Type} (I : S -> Prop) (impl : SolverImpl S) : Prop := {
  as_validity q : Ctx q -> sound I (computeValidity impl q) (fun _ => True);
  as_truth q : Ctx q -> sound I (computeTruth impl q) (fun _ => True);
  as_value q : Ctx q -> expr_ok U (q_expr q) -> sound I (computeValue impl q)
    (fun r => exists v, r = ConstantExpr v /\ ap_valid v = true /\ ap_width v = getWidth (q_expr q));
  as_initial q objects : Ctx q -> sound I (computeInitialValues impl q objects)
    (fun r => match r with Some values => shaped objects values | None => True end)
}.

(** A solver whose answers are right, when it returns. *)
Class SoundSolver (U : list Array) (Ctx : Query -> Prop) {S : Type} (I : S -> Prop) (impl : SolverImpl S) : Prop := {
  ss_validity q : Ctx q -> bool_ok U (q_expr q) -> satisfiable (q_constraints q) ->
    sound I (computeValidity impl q) (validity_spec q);
  ss_truth q : Ctx q -> bool_ok U (q_expr q) -> satisfiable (q_constraints q) ->
    sound I (computeTruth impl q) (truth_spec q);
  ss_value q : Ctx q -> expr_ok U (q_expr q) -> satisfiable (q_constraints q) ->
    sound I (computeValue impl q) (value_spec q);
  ss_initial q objects : Ctx q -> bool_ok U (q_expr q) -> satisfiable (q_constraints q) -> objects ⊆ U -> NoDup objects ->
    Forall byte_array objects -> sound I (computeInitialValues impl q objects) (initial_spec q objects)
}.

(** ** The expressions of the checks *)

Section Checks.
Context `{A : APIntOps} {AS : APIntSpec A} `{Opts : ExprOptions} (U : list Array).

Lemma And_bool_ok x y : bool_ok U x -> bool_ok U y -> bool_ok U (AndExpr'create x y) /\
  forall rho, byte_contents rho ->
    eval rho (AndExpr'create x y) = Some (APInt 1 1) <-> eval rho x = Some (APInt 1 1) /\ eval rho y = Some (APInt 1 1).
Proof.
  intros Hx Hy. pose proof (hw_And 1 x y (expr_ok_width U x Hx) (expr_ok_width U y Hy)) as [Ht Hw].
  assert (Hv : forall rho, byte_contents rho -> is_Some (eval rho (AndExpr'create x y)) /\
    (eval rho (AndExpr'create x y) = Some (APInt 1 1) <-> eval rho x = Some (APInt 1 1) /\ eval rho y = Some (APInt 1 1))).
  { intros rho Hr. pose proof (AndExpr'create_sound x y rho) as Hs.
    destruct (bool_ok_cases U x rho Hx Hr) as [Ex|Ex], (bool_ok_cases U y rho Hy Hr) as [Ey|Ey];
      cbn in Hs; rewrite Ex, Ey in Hs |- *; cbn in Hs; specialize (Hs _ eq_refl); rewrite Hs; (split; [eauto|]); split; intros; naive_solver. }
  split; [|intros; now apply Hv]. destruct Hx as [_ Hx], Hy as [_ Hy]. split; [done|]. constructor.
  - done.
  - intros rho Hr. now apply Hv.
  - apply (st_And (fun e => evaluable true e = true)); [apply Hx|apply Hy].
  - apply (st_And (fun e => arrays e ⊆ U)); [apply Hx|apply Hy].
  - apply (st_And reads_inside); [apply Hx|apply Hy].
Qed.

Lemma solution_expr_ok q : Forall (bool_ok U) (q_constraints q) -> bool_ok U (q_expr q) ->
  bool_ok U (solution_expr q) /\
  forall rho, byte_contents rho ->
    eval rho (solution_expr q) = Some (APInt 1 1) <-> models rho (q_constraints q) /\ eval rho (q_expr q) = Some (APInt 1 0).
Proof.
  intros HC He. unfold solution_expr.
  assert (H : forall C acc, Forall (bool_ok U) C -> bool_ok U acc -> bool_ok U (foldl AndExpr'create acc C) /\
    forall rho, byte_contents rho ->
      eval rho (foldl AndExpr'create acc C) = Some (APInt 1 1) <-> models rho C /\ eval rho acc = Some (APInt 1 1)).
  { clear HC He. induction C as [|c C IH]; intros acc HC Ha; cbn [foldl].
    - split; [done|]. intros rho Hr. unfold models. split; [intros; split; [constructor|done]|tauto].
    - apply Forall_cons in HC as [Hc HC]. destruct (And_bool_ok acc c Ha Hc) as [Hac Hv]. destruct (IH _ HC Hac) as [Hok Hv'].
      split; [done|]. intros rho Hr. rewrite Hv', Hv by done. unfold models. rewrite Forall_cons. tauto. }
  destruct (H (q_constraints q) _ HC (IsZero_bool_ok U _ He)) as [Hok Hv]. split; [done|]. intros rho Hr.
  rewrite (Hv rho Hr). now rewrite (proj2 (IsZero_value U _ rho He Hr)).
Qed.

(** The binding of a byte. *)
Lemma byte_constraint_ok array i b : array ∈ U -> byte_array array -> 0 <= i < Expr.size array -> 0 <= b < 256 ->
  bool_ok U (EqExpr'create (ReadExpr'create (mkUpdateList array un_null) (ConstantExpr (ConstantExpr'alloc i (domain array))))
              (ConstantExpr (ConstantExpr'alloc b (range array)))).
Proof.
  intros HU [Hb Hr8] Hi Hby. pose proof Hb as Hb'. unfold bindable in Hb'.
  rewrite !andb_true_iff, negb_true_iff, !Z.leb_le in Hb'. destruct Hb' as [[[Hok Hc] Hd] Hs].
  pose proof (array_ok_domain_pos _ Hok) as Hdp. assert (2 ^ domain array <= 2 ^ 32) by (apply Z.pow_le_mono_r; lia).
  assert (Hidx : ConstantExpr'alloc i (domain array) = APInt (domain array) i) by (apply alloc_index; lia).
  assert (Hread : ReadExpr'create (mkUpdateList array un_null) (ConstantExpr (ConstantExpr'alloc i (domain array))) =
    ReadExpr array un_null (ConstantExpr (APInt (domain array) i))).
  { rewrite Hidx. unfold ReadExpr'create. cbn. rewrite Hc. cbn. now destruct (getZExtValue _ <? _). }
  assert (Hri : reads_inside (ReadExpr array un_null (ConstantExpr (APInt (domain array) i)))).
  { apply read_inside. cbn. lia. }
  assert (Hw : has_width 1 (EqExpr'create (ReadExpr'create (mkUpdateList array un_null) (ConstantExpr (ConstantExpr'alloc i (domain array))))
              (ConstantExpr (ConstantExpr'alloc b (range array))))).
  { apply (hw_Eq (range array)); [|apply hw_alloc; lia]. apply hw_Read; [done|done|]. apply hw_alloc; lia. }
  destruct Hw as [Ht Hw]. split; [done|]. constructor.
  - done.
  - intros rho _. rewrite byte_constraint_eval by done. eauto.
  - apply (st_Eq (fun e => evaluable true e = true)); [|done]. rewrite Hread. cbn. now rewrite (proj2 (Z.leb_le _ _)).
  - apply (st_Eq (fun e => arrays e ⊆ U)); [|cbn; set_solver]. rewrite Hread. cbn. set_solver.
  - apply (st_Eq reads_inside); [|apply (st_const (P:=reads_inside))]. now rewrite Hread.
Qed.

Lemma bytes_of_eq rho a v : length v = Z.to_nat (Expr.size a) ->
  v = bytes_of rho a <-> forall i b, 0 <= i < Expr.size a -> v !! Z.to_nat i = Some b -> rho a i = b.
Proof.
  intros Hl. split.
  - intros -> i b Hi. rewrite bytes_of_lookup by lia. rewrite decide_True by lia. congruence.
  - intros H. apply list_eq. intros n. destruct (decide (n < length v)%nat) as [Hn|Hn].
    + destruct (lookup_lt_is_Some_2 v n Hn) as [b Eb]. rewrite Eb. replace n with (Z.to_nat (Z.of_nat n)) in Eb |- * by lia.
      rewrite bytes_of_lookup, decide_True by lia. f_equal. symmetry. apply H; [lia|done].
    + rewrite !lookup_ge_None_2; [done|unfold bytes_of; rewrite length_fmap, length_seq; lia|lia].
Qed.

Lemma constraints_of_binding_ok array v : array ∈ U -> byte_array array -> length v = Z.to_nat (Expr.size array) ->
  bytes_in_range v = true ->
  exists cs, constraints_of_binding array v = Some cs /\ Forall (bool_ok U) cs /\
    forall rho, byte_contents rho -> models rho cs <-> v = bytes_of rho array.
Proof.
  intros HU Ha Hl Hv.
  assert (Hbyte : forall i b, v !! i = Some b -> 0 <= b < 256).
  { intros i b Hi. unfold bytes_in_range in Hv. rewrite forallb_forall in Hv. specialize (Hv b).
    rewrite andb_true_iff, Z.leb_le, Z.ltb_lt in Hv. apply Hv, list_elem_of_In. eapply list_elem_of_lookup_2, Hi. }
  assert (exists cs, constraints_of_binding array v = Some cs) as [cs E].
  { apply mapM_is_Some_2, Forall_forall. intros i Hi%elem_of_seq. destruct (lookup_lt_is_Some_2 v i) as [b Eb]; [lia|].
    unfold compose. rewrite Eb. cbn. eauto. }
  exists cs. split_and!; [done| |].
  - apply mapM_Some_1 in E. apply Forall_forall. intros c [n Hn]%list_elem_of_lookup.
    destruct (Forall2_lookup_r _ _ _ _ _ E Hn) as (i & Hi & Ec). apply lookup_seq in Hi as [-> Hi].
    destruct (v !! _) as [b|] eqn:Eb; [|done]. cbn in Ec. injection Ec as <-.
    apply byte_constraint_ok; [done|done|lia|eauto].
  - intros rho Hr. unfold models. pose proof (constraints_of_binding_spec rho array v cs (proj1 Ha) Hv E) as Hs.
    rewrite Hs, bytes_of_eq by done. destruct Ha as [_ ->].
    assert (forall i b, v !! Z.to_nat i = Some b -> BV.wrap 8 (rho array i) = BV.wrap 8 b <-> rho array i = b).
    { intros i b Hi. rewrite !BV.wrap_small; [done|apply (Hbyte _ _ Hi)|apply Hr]. }
    split; intros Hx i b Hi Hb; specialize (Hx i b Hi Hb); apply H in Hb; tauto.
Qed.

Lemma binding_constraints_ok objects : forall values, objects ⊆ U -> Forall byte_array objects -> shaped objects values ->
  exists cs, binding_constraints objects values = Done cs /\ Forall (bool_ok U) cs /\
    forall rho, byte_contents rho -> models rho cs <-> values = bytes_of rho <$> objects.
Proof.
  induction objects as [|a objects IH]; intros values HU Ha Hs; apply Forall2_cons_inv_l in Hs as H0 || apply Forall2_nil_inv_l in Hs as ->.
  - exists []. split_and!; [done|constructor|]. intros rho _. split; [done|constructor].
  - destruct H0 as (v & values' & [Hl Hv] & Hs' & ->). apply Forall_cons in Ha as [Ha Ha'].
    destruct (constraints_of_binding_ok a v) as (cs & E & Hok & Hm); [set_solver|done..|].
    destruct (IH values') as (cs' & E' & Hok' & Hm'); [set_solver|done..|]. exists (cs ++ cs').
    cbn [binding_constraints]. rewrite E. cbn [or_abort mbind outcome_bind]. rewrite E'. split_and!; [done|now apply Forall_app|].
    intros rho Hr. unfold models in *. rewrite Forall_app, (Hm rho Hr), (Hm' rho Hr). cbn [fmap list_fmap]. split.
    + intros [-> ->]. done.
    + intros [= -> ->]. done.
Qed.

(** Contents with the given values. *)
Definition contents_with (objects : list Array) (values : list (list Z)) : valuation := fun a i =>
  if bool_decide (0 <= i < Expr.size a)
  then default 0 (binding (zip objects values) a ≫= fun v => v !! Z.to_nat i)
  else 0.

Lemma contents_with_ok objects values : NoDup objects -> shaped objects values ->
  byte_contents (contents_with objects values) /\ values = bytes_of (contents_with objects values) <$> objects.
Proof.
  intros Hn Hs.
  assert (Hin : forall a v, (a, v) ∈ zip objects values -> length v = Z.to_nat (Expr.size a) /\ bytes_in_range v = true).
  { intros a v Hz. apply elem_of_lookup_zip_with in Hz as (i & x & y & [= -> ->] & Hx & Hy). exact (Forall2_lookup_lr _ _ _ _ _ _ Hs Hx Hy). }
  split.
  - intros a i. unfold contents_with. case_bool_decide as Hi; [|split; [lia|done]]. split; [|tauto].
    destruct (binding _ a) as [v|] eqn:E; cbn; [|lia]. apply binding_elem, Hin in E as [_ Hv].
    destruct (v !! Z.to_nat i) as [b|] eqn:Eb; cbn; [|lia]. unfold bytes_in_range in Hv. rewrite forallb_forall in Hv.
    specialize (Hv b). rewrite andb_true_iff, Z.leb_le, Z.ltb_lt in Hv. apply Hv, list_elem_of_In. eapply list_elem_of_lookup_2, Eb.
  - apply list_eq. intros n. rewrite list_lookup_fmap. destruct (objects !! n) as [a|] eqn:Ea.
    + destruct (Forall2_lookup_l _ _ _ _ _ Hs Ea) as (v & Ev & Hl & _). rewrite Ev. cbn. f_equal. apply bytes_of_eq; [done|].
      intros i b Hi Hb. unfold contents_with. rewrite bool_decide_true by done.
      assert (Hbind : binding (zip objects values) a = Some v).
      { clear -Hn Ea Ev. revert values n Ea Ev. induction Hn as [|x objects Hx Hn IH]; intros values n Ea Ev; [done|].
        destruct values as [|y values]; [now destruct n|]. destruct n; cbn in *.
        - injection Ea as ->. injection Ev as ->. now rewrite decide_True.
        - rewrite decide_False; [now apply (IH values n)|]. intros ->. apply Hx. eapply list_elem_of_lookup_2, Ea. }
      rewrite Hbind. cbn. now rewrite Hb.
    + apply lookup_ge_None_2. apply lookup_ge_None_1 in Ea. now rewrite <- (Forall2_length _ _ _ Hs).
Qed.

Lemma bytes_of_shaped rho objects : byte_contents rho -> shaped objects (bytes_of rho <$> objects).
Proof.
  intros Hr. unfold shaped. apply Forall2_fmap_r, Forall_Forall2_diag, Forall_forall. intros a _.
  split; [unfold bytes_of; now rewrite length_fmap, length_seq|now apply bytes_of_range].
Qed.

End Checks.

(** ** Correctness *)

Section Correct.
Context `{A : APIntOps} {AS : APIntSpec A} `{Opts : ExprOptions} (UseVisitorHash : bool) (U : list Array).
Context (Ctx : Query -> Prop) {QC : QueryContext U Ctx} {S : Type} (I : S -> Prop).

Lemma context_plain q : Ctx q -> plain U q.
Proof. apply qc_constraints. Qed.

(** The query whose truth says that the values are a solution. *)
Definition solution_query (q : Query) (cs : list Expr) : Query :=
  mkQuery (constraintMgr q) (foldl insert_expr [] cs) false (solution_expr q) None.

Lemma solution_query_ok q (objects : list Array) (values : list (list Z)) cs : Ctx q -> bool_ok U (q_expr q) -> Forall (bool_ok U) cs ->
  (forall rho, byte_contents rho -> models rho cs <-> values = bytes_of rho <$> objects) ->
  plain U (solution_query q cs) /\ bool_ok U (q_expr (solution_query q cs)) /\
  forall rho, satisfies rho (q_constraints (solution_query q cs)) <-> byte_contents rho /\ values = bytes_of rho <$> objects.
Proof.
  intros Hq He Hcs Hv. destruct (context_plain q Hq) as [_ HC]. destruct (solution_expr_ok U q HC He) as [Hse _].
  destruct (insert_exprs_spec cs []) as [Hin Hn]; [constructor| |constructor|].
  { eapply Forall_impl; [exact Hcs|]. intros e [_ Oe]. apply (has_width_wf (getWidth e)). split; [apply Oe|done]. }
  split_and!; [|done|].
  - split; [done|]. apply Forall_forall. cbn. intros e He'%Hin. rewrite Forall_forall in Hcs. set_solver.
  - intros rho. unfold satisfies. apply and_iff_compat_l'. intros Hr. rewrite <- (Hv rho Hr). unfold models. rewrite !Forall_forall.
    cbn. setoid_rewrite Hin. set_solver.
Qed.

(** Contents with the same bytes of all symbolic arrays of the query. *)
Lemma same_values q objects rho rho' : complete_objects q objects -> byte_contents rho -> byte_contents rho' ->
  bytes_of rho <$> objects = bytes_of rho' <$> objects ->
  forall e, e = q_expr q \/ e ∈ q_constraints q -> eval rho e = eval rho' e.
Proof.
  intros Hc Hr Hr' Hb. apply Hc; [done..|]. intros a i [n Hn]%list_elem_of_lookup.
  assert (Hba : bytes_of rho a = bytes_of rho' a).
  { apply (f_equal (fun l => l !! n)) in Hb. rewrite !list_lookup_fmap, Hn in Hb. now injection Hb. }
  destruct (decide (0 <= i < Expr.size a)) as [Hi|Hi].
  - apply (f_equal (fun l => l !! Z.to_nat i)) in Hba. rewrite !bytes_of_lookup, !decide_True in Hba by lia. congruence.
  - now rewrite (proj2 (Hr a i) Hi), (proj2 (Hr' a i) Hi).
Qed.

Lemma solution_valid q (objects : list Array) (values : list (list Z)) cs rho : Ctx q -> bool_ok U (q_expr q) -> Forall (bool_ok U) cs ->
  (forall rho, byte_contents rho -> models rho cs <-> values = bytes_of rho <$> objects) ->
  byte_contents rho -> values = bytes_of rho <$> objects ->
  (valid (solution_query q cs) -> counterexample q rho) /\
  (complete_objects q objects -> counterexample q rho -> valid (solution_query q cs)).
Proof.
  intros Hq He Hcs Hv Hr Eb. destruct (solution_query_ok q objects values cs Hq He Hcs Hv) as (_ & Hse & Hsat).
  destruct (context_plain q Hq) as [_ HC]. destruct (solution_expr_ok U q HC He) as [_ Hval]. split.
  - intros Hvalid. assert (Hs : satisfies rho (q_constraints (solution_query q cs))) by (now apply Hsat).
    destruct (bool_ok_cases U _ rho Hse Hr) as [E|E]; [|now destruct (Hvalid rho)]. apply (Hval rho Hr) in E as [Hm E]. now split.
  - intros Hcomp [[_ Hm] E] rho' [[Hr' Hv']%Hsat E'].
    assert (Hsame : forall e, e = q_expr q \/ e ∈ q_constraints q -> eval rho e = eval rho' e) by (apply (same_values q objects); congruence || done).
    assert (E1 : eval rho' (solution_expr q) = Some (APInt 1 1)); [|cbn in E'; congruence]. apply (Hval rho' Hr'). split.
    + unfold models in *. rewrite Forall_forall in *. intros e Hin. rewrite <- Hsame by auto. auto.
    + rewrite <- Hsame by auto. done.
Qed.

Section Oracle.
Context (Ini' : Query -> list Array -> Prop) (F : Prop) (solver oracle : SolverImpl S) {SO : SolverSpec U (plain U) Ini' F I oracle}.

Lemma oracle_truth q : plain U q -> bool_ok U (q_expr q) -> satisfiable (q_constraints q) -> spec F I (computeTruth oracle q) (truth_spec q).
Proof. apply (sp_truth (U:=U)). Qed.

Lemma Ne_ok q v : expr_ok U (q_expr q) -> ap_valid v = true -> ap_width v = getWidth (q_expr q) ->
  bool_ok U (NeExpr'create (q_expr q) (ConstantExpr v)) /\
  forall rho, byte_contents rho -> eval rho (NeExpr'create (q_expr q) (ConstantExpr v)) = Some (APInt 1 0) <-> eval rho (q_expr q) = Some v.
Proof.
  intros He Hv Hw.
  assert (Hval : forall rho, byte_contents rho -> is_Some (eval rho (NeExpr'create (q_expr q) (ConstantExpr v))) /\
    (eval rho (NeExpr'create (q_expr q) (ConstantExpr v)) = Some (APInt 1 0) <-> eval rho (q_expr q) = Some v)).
  { intros rho Hr. destruct (eo_defined _ _ He rho Hr) as [[w x] Ex]. pose proof (eval_width _ _ _ Ex) as Ew. cbn in Ew. subst w.
    destruct v as [w y]. cbn in Hw. subst w. pose proof (NeExpr'create_sound (q_expr q) (ConstantExpr (APInt (getWidth (q_expr q)) y)) rho) as Hs.
    rewrite (eval_compare_at rho Ne _ _ _ x y Ex) in Hs by (now apply eval_const). specialize (Hs _ eq_refl). rewrite Hs, Ex. split; [eauto|].
    cbn. destruct (Z.eqb_spec x y) as [->|Hn]; cbn; split; intros H; congruence. }
  split; [|intros; now apply Hval].
  pose proof (hw_Cmp (getWidth (q_expr q)) Ne (q_expr q) (ConstantExpr v)) as [Ht Hwd]; [split; [apply He|done]|now apply hw_const|].
  split; [done|]. constructor; [done|intros rho Hr; now apply Hval|..].
  - apply (st_Ne (fun e => evaluable true e = true)); [apply He|done].
  - apply (st_Ne (fun e => arrays e ⊆ U)); [apply He|cbn; set_solver].
  - apply (st_Ne reads_inside); [apply He|apply (st_const (P:=reads_inside))].
Qed.


Lemma truth_unique q b b' : truth_spec q b -> truth_spec q b' -> b = b'.
Proof. destruct b, b'; cbn; intros H H'; try done; [destruct H' as [rho H']; now destruct (H rho)|destruct H as [rho H]; now destruct (H' rho)]. Qed.

Lemma validity_unique q v v' : bool_ok U (q_expr q) -> satisfiable (q_constraints q) -> validity_spec q v -> validity_spec q v' -> v = v'.
Proof.
  intros He Hs. pose proof (valid_example U q He Hs) as Hx. pose proof (refuted_counterexample U q He Hs) as Hc.
  destruct v, v'; cbn; intros H H'; try done; unfold valid, refuted in *; naive_solver.
Qed.

Lemma ValidatingSolver_spec (Ini : Query -> list Array -> Prop) : SolverSpec U Ctx Ini F I solver ->
  SolverSpec U Ctx (fun q objects => Ini q objects /\ satisfiable (q_constraints q) /\ complete_objects q objects /\ Forall byte_array objects)
    F I (ValidatingSolver solver oracle).
Proof.
  intros HS. constructor.
  - intros q Hq He Hs. eapply spec_bind; [now apply (sp_validity (U:=U))|]. intros result Hr.
    eapply spec_bind; [eapply (sp_validity (U:=U)); [now apply context_plain|done..]|]. intros answer Ha.
    eapply spec_bind; [apply spec_assume, bool_decide_eq_true, (validity_unique q); done|]. intros _ _. now apply spec_ret.
  - intros q Hq He Hs. eapply spec_bind; [now apply (sp_truth (U:=U))|]. intros result Hr.
    eapply spec_bind; [apply oracle_truth; [now apply context_plain|done..]|]. intros answer Ha.
    eapply spec_bind; [apply spec_assume, bool_decide_eq_true, (truth_unique q); done|]. intros _ _. now apply spec_ret.
  - intros q Hq He Hs. eapply spec_bind; [now apply (sp_value (U:=U))|]. intros result Hr. pose proof Hr as (v & rho & -> & Hsat & Ev).
    destruct (Ne_ok q v He) as [Hne Hval]; [eapply eval_valid; eauto|symmetry; now apply (eval_width rho)|].
    eapply spec_bind; [apply oracle_truth; [now apply context_plain, qc_withExpr|done..]|]. intros answer Ha.
    eapply spec_bind; [apply spec_assume|intros _ _; now apply spec_ret]. destruct answer; [|done].
    destruct (Ha rho). split; [done|]. now apply Hval; [apply Hsat|].
  - intros q objects Hq (Hi & Hs & Hcomp & Hby) He HU. eapply spec_bind; [now apply (sp_initial (U:=U))|]. intros [values|] Hr.
    + pose proof Hr as (rho & Hc & Eb). assert (Hrb : byte_contents rho) by apply Hc.
      assert (Hsh : shaped objects values) by (rewrite Eb; now apply bytes_of_shaped).
      destruct (binding_constraints_ok U objects values HU Hby Hsh) as (cs & E & Hok & Hm).
      destruct (solution_query_ok q objects values cs Hq He Hok Hm) as (Hp & Hse & Hsat).
      eapply (spec_bind _ _ _ _ (eq cs)); [now apply (spec_pure _ _ _ cs)|]. intros ? <-.
      eapply spec_bind; [apply (oracle_truth (solution_query q cs)); [done|done|]|].
      { exists rho. now apply Hsat. }
      intros answer Ha. eapply spec_bind; [apply spec_assume|intros _ _; now apply spec_ret]. eapply truth_unique; [exact Ha|].
      now apply (solution_valid q objects values cs rho).
    + eapply spec_bind; [apply oracle_truth; [now apply context_plain|done..]|]. intros answer Ha.
      eapply spec_bind; [apply spec_assume, (truth_unique q); done|]. intros _ _. now apply spec_ret.
Qed.

(** With a solver that meets the contract, and queries whose objects include
    all symbolic arrays, the checks of [ValidatingSolver] pass: it meets the
    contract too. *)
Theorem validating_solver_correct (Ini : Query -> list Array -> Prop) : SolverSpec U Ctx Ini F I solver ->
  SolverSpec U Ctx (fun q objects => Ini q objects /\ satisfiable (q_constraints q) /\ complete_objects q objects /\ Forall byte_array objects)
    F I (ValidatingSolver solver oracle).
Proof. apply ValidatingSolver_spec. Qed.

End Oracle.

(** *** The values under evaluation *)

Lemma evaluated_constant a rho e CE : agrees rho a -> bytes_ok a = true -> byte_contents rho -> expr_ok U e ->
  Assignment_evaluate UseVisitorHash a e = Some (ConstantExpr CE) -> eval rho e = Some CE.
Proof.
  intros Ha Hb Hr He E. destruct (eo_defined _ _ He rho Hr) as [v Ev].
  destruct (evaluate_partial UseVisitorHash U rho a e v Ha Hb He Ev) as (r & E' & Er). rewrite E in E'. injection E' as <-.
  apply eval_const_inv in Er as [-> _]. done.
Qed.

Lemma check_constraints_ok a rho cs : agrees rho a -> bytes_ok a = true -> byte_contents rho -> Forall (bool_ok U) cs ->
  check_constraints UseVisitorHash a cs = Done tt -> models rho cs.
Proof.
  intros Ha Hb Hr Hok. unfold models. induction Hok as [|c cs Hc Hok IH]; [constructor|]. cbn [check_constraints].
  destruct (Assignment_evaluate _ a c) as [r|] eqn:E; [|done]. cbn [or_fuel mbind outcome_bind]. destruct r; try done.
  pose proof (evaluated_constant a rho c _ Ha Hb Hr (proj2 Hc) E) as Ev.
  destruct (bool_ok_cases U c rho Hc Hr) as [Ec|Ec]; rewrite Ev in Ec; injection Ec as ->; rewrite isFalse_spec by done; [|done].
  intros H. constructor; [done|]. now apply IH.
Qed.

Lemma check_assignment_ok q a rho : Ctx q -> bool_ok U (q_expr q) -> agrees rho a -> bytes_ok a = true -> byte_contents rho ->
  check_assignment UseVisitorHash q a = Done tt -> counterexample q rho.
Proof.
  intros Hq He Ha Hb Hr H. unfold check_assignment in H. destruct (check_constraints _ _ _) as [[]| |] eqn:E; try done.
  cbn [mbind outcome_bind] in H. destruct (Assignment_evaluate _ a _) as [r|] eqn:Ee; [|done]. cbn [or_fuel mbind outcome_bind] in H.
  split; [split; [done|]|].
  - eapply check_constraints_ok; eauto. apply (context_plain q Hq).
  - destruct r; try done. pose proof (evaluated_constant a rho _ _ Ha Hb Hr (proj2 He) Ee) as Ev.
    destruct (bool_ok_cases U _ rho He Hr) as [Ec|Ec]; [|done]. rewrite Ev in Ec. injection Ec as ->. now rewrite isTrue_one in H.
Qed.

(** Whatever values the wrapped solver returns, the values
    [AssignmentValidatingSolver] returns satisfy all constraints and falsify the
    expression; all other values end the process. *)
Theorem assignment_validating_guards (solver : SolverImpl S) (q : Query) (objects : list Array) :
  AnySolver U Ctx I solver -> Ctx q -> bool_ok U (q_expr q) -> NoDup objects ->
  sound I (computeInitialValues (AssignmentValidatingSolver UseVisitorHash solver) q objects)
    (fun r => match r with Some values => initial_spec q objects (Some values) | None => True end).
Proof.
  intros HA Hq He Hn. eapply sound_bind; [now apply (as_initial (U:=U))|]. intros [values|] Hsh; [|now apply sound_ret].
  destruct (contents_with_ok objects values Hn Hsh) as [Hr Eb].
  eapply sound_bind; [apply sound_pure|]. intros [] Hc. apply sound_ret. exists (contents_with objects values). split; [|done].
  assert (Hd : describes (Assignment_create objects values true) (contents_with objects values)).
  { intros a v Hin. cbn in Hin. apply elem_of_lookup_zip_with in Hin as (i & x & y & [= -> ->] & Hx & Hy).
    apply (f_equal (fun l => l !! i)) in Eb. rewrite list_lookup_fmap, Hx, Hy in Eb. cbn in Eb. congruence. }
  apply (check_assignment_ok q (Assignment_create objects values true)); [done|done|now apply describes_agrees|now apply (describes_bytes_ok _ (contents_with objects values))|done..].
Qed.

End Correct.

(** ** Witnesses *)

(** A solver that claims everything. *)
Definition claims_solver : SolverImpl unit := mkImpl (fun _ => mret VTrue) (fun _ => mret true)
  (fun q => mret (ConstantExpr (APInt (getWidth (q_expr q)) 0))) (fun _ objects => mret (Some ((fun a => replicate (Z.to_nat (Expr.size a)) 0) <$> objects))).

Lemma claims_solver_any : AnySolver [cell] (plain [cell]) (fun _ => True) claims_solver.
Proof.
  constructor.
  - intros q _. now apply sound_ret.
  - intros q _. now apply sound_ret.
  - intros q _ He. apply sound_ret. eexists. split; [done|]. split; [|done]. apply BV.in_range_spec. cbn.
    destruct (eo_defined _ _ He (fun _ _ => 0)) as [v Ev]; [now intros ? ?|]. pose proof (eval_width _ _ _ Ev).
    pose proof (proj1 (ap_valid_spec _) (eval_valid _ _ _ Ev)). assert (0 < 2 ^ getWidth (q_expr q)) by (apply Z.pow_pos_nonneg; lia). lia.
  - intros q objects _. apply sound_ret. unfold shaped. apply Forall2_fmap_r, Forall_Forall2_diag, Forall_forall. intros a _.
    split; [apply length_replicate|]. unfold bytes_in_range. apply forallb_forall. intros b Hb%list_elem_of_In.
    now apply elem_of_replicate in Hb as [-> _].
Qed.

Lemma cell_bytes : Forall byte_array [cell].
Proof. repeat constructor. Qed.


Lemma validating_solver_correct_witness :
  computeInitialValues (ValidatingSolver (A:=apint_ref) (Opts:=no_const_array_opt) byte_solver byte_solver) (cell_query false_expr) [cell] tt =
    Done (Some (Some [[0]]), tt) /\
  initial_spec (cell_query false_expr) [cell] (Some [[0]]).
Proof.
  assert (E : computeInitialValues (ValidatingSolver (A:=apint_ref) (Opts:=no_const_array_opt) byte_solver byte_solver) (cell_query false_expr) [cell] tt =
    Done (Some (Some [[0]]), tt)) by (vm_compute; reflexivity). split; [exact E|].
  pose proof (validating_solver_correct (A:=apint_ref) (AS:=apint_ref_spec) (Opts:=no_const_array_opt) [cell] (plain [cell]) (fun _ => True)
    (fun _ _ => True) False byte_solver byte_solver (fun _ _ => True) byte_solver_spec) as H.
  assert (Hc : complete_objects (cell_query false_expr) [cell]).
  { intros r r' _ _ Hr e [-> | ->%list_elem_of_singleton]; [reflexivity|]. apply eval_ext. intros a Ha i. apply Hr. cbn in Ha. exact Ha. }
  pose proof (sp_initial (SolverSpec:=H) (cell_query false_expr) [cell] (cell_query_ok _)
    (conj I (conj cell_satisfiable (conj Hc cell_bytes))) (false_bool_ok [cell]) (fun _ H => H) tt I) as Ht.
  rewrite E in Ht. apply Ht.
Defined.

Lemma assignment_validating_guards_witness :
  computeInitialValues (AssignmentValidatingSolver (A:=apint_ref) (Opts:=no_const_array_opt) true claims_solver) (cell_query cell_is_small) [cell] tt = Abort /\
  computeInitialValues (AssignmentValidatingSolver (A:=apint_ref) (Opts:=no_const_array_opt) true claims_solver) (cell_query false_expr) [cell] tt =
    Done (Some (Some [[0]]), tt) /\
  initial_spec (cell_query false_expr) [cell] (Some [[0]]).
Proof.
  split; [vm_compute; reflexivity|].
  assert (E : computeInitialValues (AssignmentValidatingSolver (A:=apint_ref) (Opts:=no_const_array_opt) true claims_solver) (cell_query false_expr) [cell] tt =
    Done (Some (Some [[0]]), tt)) by (vm_compute; reflexivity). split; [exact E|].
  pose proof (assignment_validating_guards (A:=apint_ref) (AS:=apint_ref_spec) (Opts:=no_const_array_opt) true [cell] (plain [cell]) (fun _ => True)
    claims_solver (cell_query false_expr) [cell] claims_solver_any (cell_query_ok _) (false_bool_ok [cell]) (NoDup_singleton cell) tt I) as Ht.
  rewrite E in Ht. apply Ht.
Defined.
