(* ===== verification/SymbolicObjects.v ===== *)
(** * The arrays of expressions

    src/lib/Expr/ExprUtil.cpp, [SymbolicObjectFinder] with
    [findSymbolicObjects], and [ConstantArrayFinder]: visitors that collect the
    symbolic (constant) arrays expressions read.  Neither changes an
    expression, so the result of every visit is the expression itself and
    [find_visit] keeps the state only: the visited expressions, and the arrays
    in the order they were found. *)

From stdpp Require Import strings.
From S2P Require Import Prelude APInt Expr ExprOrder ExprSem ExprVisitor.

Section Finder.
Context `{A : APIntOps} (UseVisitorHash : bool) (wanted : Array -> bool).

Record finder := mkFinder { f_visited : list Expr; f_objects : list Array }.

(** [if (results.insert(ul.root).second) objects.push_back(ul.root)] *)
Definition add_root (f : finder) (root : Array) : finder :=
  if wanted root && negb (bool_decide (root ∈ f_objects f))
  then mkFinder (f_visited f) (f_objects f ++ [root]) else f.

Definition mark_visited (e : Expr) (f : finder) : finder :=
  if UseVisitorHash then mkFinder (e :: f_visited f) (f_objects f) else f.

Fixpoint find_visit (e : Expr) (f : finder) : finder :=
  if is_constant e then f
  else if UseVisitorHash && existsb (Expr_eqb e) (f_visited f) then f
  else mark_visited e
    match e with
    | ConstantExpr _ => f
    | ReadExpr root head index => find_visit index (add_root (find_updates head f) root)
    | NotOptimizedExpr x | ExtractExpr x _ _ | CastExpr _ x _ | NotExpr x => find_visit x f
    | SelectExpr c t e => find_visit e (find_visit t (find_visit c f))
    | ConcatExpr l r | BinaryExpr _ l r | CmpExpr _ l r => find_visit r (find_visit l f)
    end
with find_updates (un : UpdateNode) (f : finder) : finder :=
  match un with
  | un_null => f
  | un_node next index value => find_updates next (find_visit value (find_visit index f))
  end.

Definition find_arrays (es : list Expr) : list Array := f_objects (foldl (fun f e => find_visit e f) (mkFinder [] []) es).

End Finder.

Section Finders.
Context `{A : APIntOps} (UseVisitorHash : bool).

Definition findSymbolicObjects (es : list Expr) : list Array := find_arrays UseVisitorHash isSymbolicArray es.
Definition ConstantArrayFinder_results (es : list Expr) : list Array := find_arrays UseVisitorHash isConstantArray es.

End Finders.

(** ** What they find *)

Section Correct.
Context `{A : APIntOps} {AS : APIntSpec A} (UseVisitorHash : bool) (wanted : Array -> bool).

Record finder_ok (f : finder) : Prop := {
  fi_nodup : NoDup (f_objects f);
  fi_visited e : e ∈ f_visited f -> wf_consts e = true /\ forall a, a ∈ arrays e -> wanted a = true -> a ∈ f_objects f
}.

(** The step from [f] to [f'] finds the arrays in [l]. *)
Definition found (l : list Array) (f f' : finder) : Prop :=
  finder_ok f' /\ forall a, a ∈ f_objects f' <-> a ∈ f_objects f \/ wanted a = true /\ a ∈ l.

Lemma found_nothing f : finder_ok f -> found [] f f.
Proof. intros Hf. split; [done|]. set_solver. Qed.

Lemma found_then l l' f f' f'' : found l f f' -> found l' f' f'' -> found (l ++ l') f f''.
Proof. intros [_ H] [Hf H']. split; [done|]. intros a. rewrite H', H, elem_of_app. naive_solver. Qed.

Lemma add_root_found f r : finder_ok f -> found [r] f (add_root wanted f r).
Proof.
  intros Hf. unfold add_root. destruct (wanted r) eqn:Ew; cbn; [case_bool_decide as Hr; cbn|].
  - split; [done|]. set_solver.
  - split; [constructor; cbn|cbn; set_solver].
    + apply NoDup_app. split_and!; [apply Hf|set_solver|apply NoDup_singleton].
    + intros e He. destruct (fi_visited _ Hf e He) as [? ?]. set_solver.
  - split; [done|]. intros a. split; [auto|]. intros [?|[? ->%list_elem_of_singleton]]; congruence.
Qed.

Lemma mark_found e f f' : wf_consts e = true -> found (arrays e) f f' -> found (arrays e) f (mark_visited UseVisitorHash e f').
Proof.
  intros He [Hf H]. unfold mark_visited. destruct UseVisitorHash; [|done]. split; [|done]. constructor; cbn; [apply Hf|].
  intros x [->|Hx]%elem_of_cons; [|now apply Hf]. split; [done|]. intros a Ha Hw. apply H. auto.
Qed.

Lemma visit_found e f k : wf_consts e = true -> finder_ok f -> found (arrays e) f k ->
  found (arrays e) f (if is_constant e then f else if UseVisitorHash && existsb (Expr_eqb e) (f_visited f) then f else mark_visited UseVisitorHash e k).
Proof.
  intros He Hf Hk. destruct (is_constant e) eqn:Ec; [destruct e; try done; now apply found_nothing|].
  destruct (UseVisitorHash && _) eqn:E; [|now apply mark_found]. apply andb_true_iff in E as [_ E].
  apply existsb_exists in E as (x & Hx%list_elem_of_In & E). destruct (fi_visited _ Hf x Hx) as [Hwx Hax].
  apply Expr_eqb_eq in E; [|done..]. subst x. split; [done|]. naive_solver.
Qed.

Lemma found_perm l l' f f' : (forall a, a ∈ l <-> a ∈ l') -> found l f f' -> found l' f f'.
Proof. intros Hl [Hf H]. split; [done|]. intros a. now rewrite H, Hl. Qed.

Lemma find_visit_found : forall e f, wf_consts e = true -> finder_ok f -> found (arrays e) f (find_visit UseVisitorHash wanted e f).
Proof.
  apply (Expr_mut (fun e => forall f, wf_consts e = true -> finder_ok f -> found (arrays e) f (find_visit UseVisitorHash wanted e f))
    (fun u => forall f, un_wf_consts u = true -> finder_ok f -> found (un_arrays u) f (find_updates UseVisitorHash wanted u f))).
  all: intros; match goal with
    | |- found (un_arrays _) _ _ => cbn [find_updates un_arrays]
    | |- _ => apply visit_found; [done..|]; cbn [arrays] end.
  all: match goal with
    | H : wf_consts _ = true |- _ => cbn in H; rewrite ?andb_true_iff in H
    | H : un_wf_consts _ = true |- _ => cbn in H; rewrite ?andb_true_iff in H end.
  all: try (apply found_nothing; done); try (match goal with IH : _ |- _ => now apply IH end).
  (* l then r, where the second step starts from the first's state *)
  all: assert (Hthen : forall l l' g f' f'', found l g f' -> (finder_ok f' -> found l' f' f'') -> found (l ++ l') g f'')
    by (intros; eapply found_then; [eassumption|]; match goal with H : finder_ok _ -> _ |- _ => apply H end;
        match goal with H : found _ _ _ |- _ => apply H end).
  - apply (found_perm ((un_arrays head ++ [root]) ++ arrays index)); [set_solver|].
    eapply Hthen; [eapply Hthen; [now apply H|intros; now apply add_root_found]|]. intros. now apply H0.
  - rewrite app_assoc. eapply Hthen; [eapply Hthen; [now apply H|intros; now apply H0]|]. intros. now apply H1.
  - eapply Hthen; [now apply H|]. intros. now apply H0.
  - eapply Hthen; [now apply H|]. intros. now apply H0.
  - eapply Hthen; [now apply H|]. intros. now apply H0.
  - apply (found_perm ((arrays index ++ arrays value) ++ un_arrays next)); [set_solver|].
    eapply Hthen; [eapply Hthen; [now apply H0|intros; now apply H1]|]. intros. now apply H.
Qed.

Lemma find_arrays_found es : Forall (fun e => wf_consts e = true) es ->
  NoDup (find_arrays UseVisitorHash wanted es) /\
  forall a, a ∈ find_arrays UseVisitorHash wanted es <-> wanted a = true /\ exists e, e ∈ es /\ a ∈ arrays e.
Proof.
  intros Hes. unfold find_arrays.
  assert (H : forall f, finder_ok f -> finder_ok (foldl (fun f e => find_visit UseVisitorHash wanted e f) f es) /\
    forall a, a ∈ f_objects (foldl (fun f e => find_visit UseVisitorHash wanted e f) f es) <->
      a ∈ f_objects f \/ wanted a = true /\ exists e, e ∈ es /\ a ∈ arrays e).
  { induction Hes as [|e es He Hes IH]; intros f Hf; cbn [foldl]; [split; [done|]; set_solver|].
    destruct (find_visit_found e f He Hf) as [Hf' Hv]. destruct (IH _ Hf') as [H1 H2]. split; [done|]. intros a. rewrite H2, Hv.
    setoid_rewrite elem_of_cons. naive_solver. }
  destruct (H (mkFinder [] [])) as [Hf Hin]; [constructor; cbn; [constructor|set_solver]|]. split; [apply Hf|]. intros a.
  rewrite Hin. cbn. set_solver.
Qed.

End Correct.

Section Found.
Context `{A : APIntOps} {AS : APIntSpec A} (UseVisitorHash : bool).

(** [findSymbolicObjects] returns every symbolic array the expressions read,
    directly or in the updates of a read, exactly once and nothing else, with and
    without the visitor's table. *)
Theorem findSymbolicObjects_exact (es : list Expr) : Forall (fun e => wf_consts e = true) es ->
  NoDup (findSymbolicObjects UseVisitorHash es) /\
  forall a, a ∈ findSymbolicObjects UseVisitorHash es <-> isSymbolicArray a = true /\ exists e, e ∈ es /\ a ∈ arrays e.
Proof. apply find_arrays_found. Qed.

End Found.

Lemma findSymbolicObjects_exact_witness :
  let buf := mkArray 1 "buf" 4 Int32 Int8 [] in
  let tab := mkArray 2 "tab" 1 Int32 Int8 [APInt 8 7] in
  let at_ := fun a i => ReadExpr a un_null (ConstantExpr (APInt 32 i)) in
  let es := [BinaryExpr Add (at_ buf 0) (at_ tab 0); ReadExpr tab (un_node un_null (ConstantExpr (APInt 32 0)) (at_ buf 1)) (ConstantExpr (APInt 32 0))] in
  findSymbolicObjects (A:=apint_ref) true es = [buf] /\ NoDup (findSymbolicObjects (A:=apint_ref) true es).
Proof.
  cbv zeta. split; [vm_compute; reflexivity|]. apply (findSymbolicObjects_exact (A:=apint_ref) (AS:=apint_ref_spec) true).
  repeat constructor.
Defined.
