(* ===== verification/CexCachingSolver.v ===== *)
(** * The counterexample cache

    src/lib/Solver/CexCachingSolver.cpp: the sets of constraints whose
    satisfiability is known, with a satisfying assignment or the null pointer,
    in the map of sets; a query is answered from its own entry, from a subset
    without a solution, from a superset with one, or from an assignment that
    happens to satisfy it.

    [None] is the null [Assignment*].  The statistics, the timers and the
    destructor are left out. *)

From Stdlib Require Import Sorted.
From stdpp Require Import gmap strings.
From S2P Require Import Prelude APInt Expr ExprOrder ExprSem ExprCreate ExprCreateSound ExprRebuildSound ExprTyping ExprVisitor ExprEvaluator ExprUtil ExprClosure IndependentElementSet ConstraintManager MapOfSets Solver SolverAssignment SymbolicObjects.

(** The options of the command line. *)
Class CexOptions := {
  CexCacheTryAll : bool;
  CexCacheSuperSet : bool;
  CexCacheExperimental : bool;
  DebugCexCacheCheckBinding : bool
}.

(** ** The order of the assignments *)

(** [std::lexicographical_compare] *)
Fixpoint lex_ltb {X} (lt : X -> X -> bool) (l m : list X) : bool :=
  match l, m with
  | _, [] => false
  | [], _ => true
  | x :: l, y :: m => if lt x y then true else if lt y x then false else lex_ltb lt l m
  end.

(** [operator<] of the pairs of [bindings_ty], keyed by the address. *)
Definition binding_ltb (p q : Array * list Z) : bool :=
  if arr_addr p.1 <? arr_addr q.1 then true
  else if arr_addr q.1 <? arr_addr p.1 then false
  else lex_ltb Z.ltb p.2 q.2.

(** The bindings as a map: in the order of the addresses, without the pairs
    [insert] finds an entry for. *)
Fixpoint map_insert (m : list (Array * list Z)) (p : Array * list Z) : list (Array * list Z) :=
  match m with
  | [] => [p]
  | x :: m' =>
    if arr_addr p.1 <? arr_addr x.1 then p :: m
    else if arr_addr x.1 <? arr_addr p.1 then x :: map_insert m' p
    else m
  end.
Definition bindings_map (a : Assignment) : list (Array * list Z) := foldl map_insert [] (bindings a).

Definition AssignmentLessThan (a b : Assignment) : bool := lex_ltb binding_ltb (bindings_map a) (bindings_map b).

(** [assignmentsTable.insert(binding)], and the element that is in the table
    afterwards. *)
Fixpoint table_insert (t : list Assignment) (a : Assignment) : list Assignment * Assignment :=
  match t with
  | [] => ([a], a)
  | x :: t' =>
    if AssignmentLessThan a x then (a :: t, a)
    else if AssignmentLessThan x a then let r := table_insert t' a in (x :: r.1, r.2)
    else (t, x)
  end.

(** ** The solver *)

(** The cache and the table of its assignments. *)
Record CexCache := mkCex { cache : MapOfSets.Node Expr (option Assignment); assignmentsTable : list Assignment }.

Definition empty_cex : CexCache := mkCex (MapOfSets.new_Node None) [].

Section Cex.
Context `{A : APIntOps} `{Opts : ExprOptions} `{COpts : CexOptions} (UseVisitorHash : bool).

Definition NullAssignment (a : option Assignment) : bool := match a with None => true | Some _ => false end.
Definition NonNullAssignment (a : option Assignment) : bool := match a with None => false | Some _ => true end.

(** [a->satisfies(key.begin(), key.end())] *)
Definition satisfies_key (key : list Expr) (a : Assignment) : bool := bool_decide (Assignment_satisfies UseVisitorHash a key = Some true).
Definition NullOrSatisfyingAssignment (key : list Expr) (a : option Assignment) : bool :=
  match a with None => true | Some a => satisfies_key key a end.

(** [Some r]: the cached result is [r]. *)
Definition searchForAssignment (c : CexCache) (key : list Expr) : option (option Assignment) :=
  match MapOfSets.lookup Expr_eqb (cache c) key with
  | Some result => Some result
  | None =>
    let superset := if CexCacheSuperSet then MapOfSets.findSuperset Expr_ltb Expr_eqb NonNullAssignment (cache c) key else None in
    if CexCacheTryAll then
      match (match superset with Some r => Some r | None => MapOfSets.findSubset Expr_ltb Expr_eqb NullAssignment (cache c) key end) with
      | Some result => Some result
      | None => Some <$> List.find (satisfies_key key) (assignmentsTable c)
      end
    else
      match superset with
      | Some result => Some result
      | None => MapOfSets.findSubset Expr_ltb Expr_eqb (NullOrSatisfyingAssignment key) (cache c) key
      end
  end.

Definition key_of_constraints (cs : list Expr) : list Expr := foldl (MapOfSets.set_insert Expr_ltb) [] cs.

(** The key and the cached result. *)
Definition lookupAssignment (c : CexCache) (q : Query) : list Expr * option (option Assignment) :=
  let key := key_of_constraints (q_constraints q) in
  match createIsZero (q_expr q) with
  | ConstantExpr CE => if isFalse CE then (key, Some None) else (key, searchForAssignment c key)
  | neg => let key := MapOfSets.set_insert Expr_ltb key neg in (key, searchForAssignment c key)
  end.

Section Solver.
Context {S : Type} (solver : SolverImpl S).

Definition getAssignment (q : Query) : SolverM (CexCache * S) (option Assignment) :=
  c ← own;
  let l := lookupAssignment c q in
  match l.2 with
  | Some result => mret result
  | None =>
    let objects := findSymbolicObjects UseVisitorHash l.1 in
    r ← inner (computeInitialValues solver q objects);
    match r with
    | Some values =>
      let ins := table_insert (assignmentsTable c) (Assignment_create objects values false) in
      _ ← assume (negb DebugCexCacheCheckBinding || satisfies_key l.1 ins.2);
      _ ← set_own (mkCex (MapOfSets.insert Expr_ltb None (cache c) l.1 (Some ins.2)) ins.1);
      mret (Some ins.2)
    | None =>
      _ ← set_own (mkCex (MapOfSets.insert Expr_ltb None (cache c) l.1 None) (assignmentsTable c));
      mret None
    end
  end.

(** [assert(a)] *)
Definition the_assignment (a : option Assignment) : SolverM (CexCache * S) Assignment :=
  match a with Some a => mret a | None => abort end.

(** [a->evaluate(e)] with the assert that it is a constant. *)
Definition evaluate_constant_of (a : Assignment) (e : Expr) : SolverM (CexCache * S) apint :=
  r ← pure (or_fuel (Assignment_evaluate UseVisitorHash a e));
  match r with ConstantExpr c => mret c | _ => abort end.

Definition Cex_computeValidity (q : Query) : SolverM (CexCache * S) Validity :=
  a ← getAssignment (withFalse q);
  a ← the_assignment a;
  c ← evaluate_constant_of a (q_expr q);
  if isTrue c then
    a ← getAssignment q;
    mret (match a with None => VTrue | Some _ => VUnknown end)
  else
    a ← getAssignment (negateExpr q);
    mret (match a with None => VFalse | Some _ => VUnknown end).

Definition Cex_computeTruth (q : Query) : SolverM (CexCache * S) bool :=
  c ← own;
  if CexCacheExperimental && match (lookupAssignment c (negateExpr q)).2 with Some None => true | _ => false end
  then failure
  else
    a ← getAssignment q;
    mret (match a with None => true | Some _ => false end).

Definition Cex_computeValue (q : Query) : SolverM (CexCache * S) Expr :=
  a ← getAssignment (withFalse q);
  a ← the_assignment a;
  c ← evaluate_constant_of a (q_expr q);
  mret (ConstantExpr c).

Definition values_of (a : Assignment) (objects : list Array) : list (list Z) :=
  (fun os => match binding (bindings a) os with Some v => v | None => replicate (Z.to_nat (Expr.size os)) 0 end) <$> objects.

Definition Cex_computeInitialValues (q : Query) (objects : list Array) : SolverM (CexCache * S) (option (list (list Z))) :=
  a ← getAssignment q;
  match a with
  | None => mret None
  | Some a => mret (Some (values_of a objects))
  end.

Definition CexCachingSolver : SolverImpl (CexCache * S) :=
  mkImpl Cex_computeValidity Cex_computeTruth Cex_computeValue Cex_computeInitialValues.

End Solver.
End Cex.

(** ** Equal bindings *)

Lemma lex_total {X} (lt : X -> X -> bool) l : forall m,
  (forall x y, x ∈ l -> y ∈ m -> lt x y = false -> lt y x = false -> x = y) ->
  lex_ltb lt l m = false -> lex_ltb lt m l = false -> l = m.
Proof.
  induction l as [|x l IH]; intros [|y m] H; cbn; [done..|]. destruct (lt x y) eqn:E1, (lt y x) eqn:E2; intros H1 H2; try done.
  f_equal; [apply H; set_solver|]. apply IH; [|done..]. intros; apply H; set_solver.
Qed.

Lemma Z_lex_total l m : lex_ltb Z.ltb l m = false -> lex_ltb Z.ltb m l = false -> l = m.
Proof. apply lex_total. intros x y _ _. rewrite !Z.ltb_ge. lia. Qed.

Section Bindings.
Context (U : list Array) (HU : one_per_address U).

Lemma binding_ltb_total p q : p.1 ∈ U -> q.1 ∈ U -> binding_ltb p q = false -> binding_ltb q p = false -> p = q.
Proof.
  intros Hp Hq. unfold binding_ltb. destruct (Z.ltb_spec (arr_addr p.1) (arr_addr q.1)), (Z.ltb_spec (arr_addr q.1) (arr_addr p.1)); try done.
  intros H1 H2. destruct p as [x v], q as [y w]. cbn in *. rewrite (HU x y) by (done || lia). now rewrite (Z_lex_total v w).
Qed.

Definition addr_lt (p q : Array * list Z) : Prop := arr_addr p.1 < arr_addr q.1.

Lemma map_insert_spec m p : StronglySorted addr_lt m -> p.1 ∈ U -> m.*1 ⊆ U ->
  StronglySorted addr_lt (map_insert m p) /\ (forall x, x ∈ map_insert m p -> x ∈ m \/ x = p) /\
  forall a, binding (map_insert m p) a = match binding m a with Some v => Some v | None => binding [p] a end.
Proof.
  intros Hs Hp. induction Hs as [|x m Hs IH Hx]; intros Hm; cbn [map_insert].
  { split_and!; [repeat constructor|set_solver|done]. }
  assert (Hno : addr_lt p x -> binding (x :: m) p.1 = None).
  { intros Hlt. destruct (binding (x :: m) p.1) as [v|] eqn:E; [|done]. apply binding_elem in E.
    assert (Hle : arr_addr x.1 <= arr_addr p.1); [|unfold addr_lt in Hlt; lia].
    apply elem_of_cons in E as [<-|E]; [cbn; lia|]. rewrite Forall_forall in Hx. specialize (Hx _ E). unfold addr_lt in Hx. cbn in Hx. lia. }
  destruct (Z.ltb_spec (arr_addr p.1) (arr_addr x.1)) as [Hlt|Hge].
  - split_and!; [|set_solver|].
    + constructor; [now constructor|]. constructor; [done|]. eapply Forall_impl; [exact Hx|]. unfold addr_lt. intros; lia.
    + intros a. specialize (Hno Hlt). change (p :: x :: m) with ([p] ++ x :: m). rewrite binding_app.
      destruct (binding [p] a) as [v|] eqn:E; [|now destruct (binding (x :: m) a)]. apply binding_elem, list_elem_of_singleton in E. subst p.
      cbn [fst] in Hno. now rewrite Hno.
  - destruct (Z.ltb_spec (arr_addr x.1) (arr_addr p.1)) as [Hlt|Hge'].
    + destruct IH as (H1 & H2 & H3); [set_solver|]. split_and!; [|set_solver|].
      * constructor; [done|]. apply Forall_forall. intros y [Hy| ->]%H2; [rewrite Forall_forall in Hx; auto|done].
      * intros a. destruct x as [y v]. cbn [binding]. destruct (decide (a = y)); [done|apply H3].
    + split_and!; [now constructor|auto|]. assert (p.1 = x.1) by (apply HU; [done|set_solver|lia]).
      intros a. destruct (binding (x :: m) a) eqn:E; [done|]. destruct p as [y v], x as [z w]. cbn in *. subst z.
      now destruct (decide (a = y)).
Qed.

Lemma bindings_map_binding a x : (bindings a).*1 ⊆ U -> binding (bindings_map a) x = binding (bindings a) x.
Proof.
  intros Ha. unfold bindings_map.
  assert (H : forall l m, StronglySorted addr_lt m -> m.*1 ⊆ U -> l.*1 ⊆ U ->
    binding (foldl map_insert m l) x = match binding m x with Some v => Some v | None => binding l x end).
  { induction l as [|p l IH]; intros m Hs Hm Hl; cbn [foldl]; [now destruct (binding m x)|].
    destruct (map_insert_spec m p) as (H1 & H2 & H3); [done|set_solver|done|]. rewrite IH, H3; [|done| |set_solver].
    - destruct (binding m x); [done|]. destruct p as [y v]. cbn. now destruct (decide (x = y)).
    - intros y (z & -> & [Hz| ->]%H2)%list_elem_of_fmap; set_solver. }
  rewrite H; [done|apply SSorted_nil|set_solver|done].
Qed.

Lemma bindings_map_sub a : (bindings a).*1 ⊆ U -> (bindings_map a).*1 ⊆ U.
Proof.
  intros Ha. unfold bindings_map.
  assert (H : forall l m, StronglySorted addr_lt m -> m.*1 ⊆ U -> l.*1 ⊆ U -> (foldl map_insert m l).*1 ⊆ U).
  { induction l as [|p l IH]; intros m Hs Hm Hl; cbn [foldl]; [done|]. destruct (map_insert_spec m p) as (H1 & H2 & H3); [done|set_solver|done|].
    apply IH; [done| |set_solver]. intros y (z & -> & [Hz| ->]%H2)%list_elem_of_fmap; set_solver. }
  apply H; [constructor|set_solver|done].
Qed.

Lemma same_bindings a b x : (bindings a).*1 ⊆ U -> (bindings b).*1 ⊆ U ->
  AssignmentLessThan a b = false -> AssignmentLessThan b a = false -> binding (bindings a) x = binding (bindings b) x.
Proof.
  intros Ha Hb H1 H2. rewrite <- (bindings_map_binding a x Ha), <- (bindings_map_binding b x Hb).
  rewrite (lex_total binding_ltb (bindings_map a) (bindings_map b)); [done| |done..].
  pose proof (bindings_map_sub a Ha). pose proof (bindings_map_sub b Hb). intros p q Hp Hq. apply binding_ltb_total; set_solver.
Qed.

Lemma table_insert_spec t a : Forall (fun x => (bindings x).*1 ⊆ U) t -> (bindings a).*1 ⊆ U ->
  (forall x, x ∈ (table_insert t a).1 -> x ∈ t \/ x = a) /\ (table_insert t a).2 ∈ (table_insert t a).1 /\
  forall x, binding (bindings (table_insert t a).2) x = binding (bindings a) x.
Proof.
  intros Ht Ha. induction Ht as [|x t Hx Ht IH]; cbn [table_insert]; [set_solver|].
  destruct (AssignmentLessThan a x) eqn:E1; [set_solver|]. destruct (AssignmentLessThan x a) eqn:E2; cbn.
  - destruct IH as (H1 & H2 & H3). split_and!; [set_solver..|done].
  - split_and!; [set_solver..|]. intros y. now apply same_bindings.
Qed.

End Bindings.

(** ** Assignments as contents *)

Section Contents.
Context `{A : APIntOps} {AS : APIntSpec A} `{Opts : ExprOptions} (UseVisitorHash : bool) (U : list Array).

(** An assignment of a solver: bytes of some contents for arrays of the program. *)
Record assignment_ok (a : Assignment) : Prop := {
  ao_free : allowFreeValues a = false;
  ao_arrays : (bindings a).*1 ⊆ U;
  ao_bytes : exists rho, byte_contents rho /\ describes a rho
}.

(** The contents it stands for, zero where it has no byte. *)
Definition contents_of (a : Assignment) : valuation := fun array i => if 0 <=? i then contents a array i else 0.

Lemma contents_of_bytes a : assignment_ok a -> byte_contents (contents_of a).
Proof.
  intros [_ _ (rho & Hr & Hd)] x i. unfold contents_of. destruct (Z.leb_spec 0 i) as [Hi|Hi]; [|split; [lia|done]].
  destruct (binding (bindings a) x) as [v|] eqn:E.
  - rewrite (describes_contents a rho x i Hr Hd) by (done || eauto). apply Hr.
  - unfold contents, byte_of. rewrite E. cbn. split; [lia|done].
Qed.

Lemma contents_of_eval a e : eval (contents a) e = eval (contents_of a) e.
Proof.
  apply eval_ext_symbolic. intros x _ _ i Hi. unfold contents_of. now rewrite (proj2 (Z.leb_le 0 i)).
Qed.

Lemma assignment_bytes_ok a : assignment_ok a -> bytes_ok a = true.
Proof. intros [_ _ (rho & Hr & Hd)]. now apply (describes_bytes_ok a rho). Qed.

Lemma evaluate_assignment a e : assignment_ok a -> expr_ok U e ->
  exists v, Assignment_evaluate UseVisitorHash a e = Some (ConstantExpr v) /\ eval (contents_of a) e = Some v.
Proof.
  intros Ha He. destruct (eo_defined _ _ He _ (contents_of_bytes a Ha)) as [v Ev]. exists v. split; [|done].
  apply (evaluate_full UseVisitorHash U); [now apply assignment_bytes_ok|apply Ha|done|now rewrite contents_of_eval].
Qed.

Lemma satisfies_key_spec a key : assignment_ok a -> Forall (bool_ok U) key ->
  satisfies_key UseVisitorHash key a = true <-> models (contents_of a) key.
Proof.
  intros Ha Hk. unfold satisfies_key. rewrite bool_decide_eq_true.
  destruct (satisfies_loop_spec UseVisitorHash a key no_tables) as (b & E & Hb).
  - apply Ha.
  - now apply assignment_bytes_ok.
  - eapply Forall_impl; [exact Hk|]. intros e [_ He]. split; [apply He|]. rewrite contents_of_eval. apply He. now apply contents_of_bytes.
  - apply no_tables_ok.
  - unfold Assignment_satisfies. rewrite E. unfold models. setoid_rewrite contents_of_eval in Hb. rewrite <- Hb. split; [now intros [= ->]|now intros ->].
Qed.

(** The assignment made from an answer. *)
Lemma created_ok rho objects : byte_contents rho -> objects ⊆ U -> assignment_ok (Assignment_create objects (bytes_of rho <$> objects) false).
Proof.
  intros Hr HU. constructor; [done| |].
  - cbn. rewrite fst_zip; [done|]. now rewrite length_fmap.
  - exists rho. split; [done|]. intros x v Hin. cbn in Hin. rewrite zip_with_fmap_r in Hin.
    apply elem_of_lookup_zip_with in Hin as (i & y & z & [= -> ->] & Hy & Hz). congruence.
Qed.

Lemma created_contents rho objects x i : byte_contents rho -> x ∈ objects -> 0 <= i ->
  contents_of (Assignment_create objects (bytes_of rho <$> objects) false) x i = rho x i.
Proof.
  intros Hr Hx Hi. unfold contents_of. rewrite (proj2 (Z.leb_le 0 i)) by done. unfold contents, byte_of. cbn.
  rewrite binding_values, decide_True by done. cbn. rewrite bytes_of_lookup by done. case_decide; [done|]. symmetry. apply Hr. lia.
Qed.

(** Assignments with the same bindings. *)
Lemma same_contents a b x i : (forall x, binding (bindings a) x = binding (bindings b) x) -> contents_of a x i = contents_of b x i.
Proof. intros H. unfold contents_of, contents, byte_of. now rewrite H. Qed.

Lemma values_of_ok a objects : assignment_ok a -> values_of a objects = bytes_of (contents_of a) <$> objects.
Proof.
  intros [_ _ (rho & Hr & Hd)]. apply list_fmap_ext. intros _ x _. destruct (binding (bindings a) x) as [v|] eqn:E.
  - pose proof (binding_elem _ _ _ E) as Hin. rewrite (Hd _ _ Hin). unfold bytes_of. apply list_fmap_ext. intros _ i _.
    unfold contents_of. rewrite (proj2 (Z.leb_le 0 _)) by lia. symmetry. apply describes_contents; [done..|eauto|lia].
  - unfold bytes_of. apply list_eq. intros i. rewrite list_lookup_fmap.
    destruct (decide (i < Z.to_nat (Expr.size x))%nat).
    + rewrite lookup_replicate_2, lookup_seq_lt by done. cbn. unfold contents_of, contents, byte_of. rewrite E. cbn. now destruct (0 <=? _).
    + rewrite lookup_seq_ge by lia. apply lookup_ge_None_2. rewrite length_replicate. lia.
Qed.

End Contents.

(** ** Keys *)

Section Keys.
Context `{A : APIntOps} {AS : APIntSpec A} (U : list Array) (HU : one_per_address U).

(** The expressions on which the order is total. *)
Definition key_ok (e : Expr) : bool := wf_consts e && bool_decide (arrays e ⊆ U).
Definition Key : Type := { e : Expr | Is_true (key_ok e) }.
Definition key_expr (k : Key) : Expr := proj1_sig k.
Definition key_ltb (x y : Key) : bool := Expr_ltb (key_expr x) (key_expr y).
Definition key_eqb (x y : Key) : bool := Expr_eqb (key_expr x) (key_expr y).

Lemma key_wf k : wf_consts (key_expr k) = true /\ arrays (key_expr k) ⊆ U.
Proof. destruct k as [e H]. cbn. apply Is_true_true in H. unfold key_ok in H. now rewrite andb_true_iff, bool_decide_eq_true in H. Qed.

Lemma key_inj x y : key_expr x = key_expr y -> x = y.
Proof. intros H. apply (sig_eq_pi _). exact H. Qed.

#[export] Instance key_order : StrictTotalOrder key_ltb key_eqb.
Proof.
  assert (Hone : forall x y z : Key, one_per_address (arrays (key_expr x) ++ arrays (key_expr y) ++ arrays (key_expr z))).
  { intros x y z. eapply one_per_address_incl, HU. pose proof (key_wf x). pose proof (key_wf y). pose proof (key_wf z). set_solver. }
  assert (Hopp : forall x y : Key, compare (key_expr y) (key_expr x) = - compare (key_expr x) (key_expr y)).
  { intros x y. apply compare_opp_mut; [apply key_wf..|]. eapply one_per_address_incl, (Hone x y x). set_solver. }
  assert (Heq : forall x y : Key, compare (key_expr x) (key_expr y) = 0 <-> x = y).
  { intros x y. rewrite <- Z.eqb_eq. change (compare (key_expr x) (key_expr y) =? 0) with (Expr_eqb (key_expr x) (key_expr y)).
    rewrite (Expr_eqb_eq (key_expr x) (key_expr y)) by apply key_wf. split; [apply key_inj|now intros ->]. }
  constructor; unfold key_ltb, key_eqb, Expr_ltb, Expr_eqb.
  - intros x. rewrite Z.ltb_ge. pose proof (proj2 (Heq x x) eq_refl). lia.
  - intros x y z. rewrite !Z.ltb_lt. apply (proj1 compare_Tri_mut); [apply key_wf..|apply Hone].
  - intros x y. rewrite !Z.ltb_ge. intros H1 H2. apply Heq. specialize (Hopp x y). lia.
  - intros x y. rewrite Z.eqb_eq. apply Heq.
Qed.

Lemma lift_keys l : Forall (fun e => wf_consts e = true /\ arrays e ⊆ U) l -> exists l' : list Key, l = map key_expr l'.
Proof.
  induction 1 as [|e l [H1 H2] Hl [l' ->]]; [now exists []|].
  assert (Hk : Is_true (key_ok e)) by (unfold key_ok; rewrite H1, bool_decide_true; done). now exists ((e ↾ Hk) :: l').
Qed.

(** A set of expressions. *)
Definition sorted_key (key : list Expr) : Prop := exists k : list Key, key = map key_expr k /\ StronglySorted (MapOfSets.lt_ key_ltb) k.

Lemma set_insert_key key e : sorted_key key -> wf_consts e = true -> arrays e ⊆ U ->
  sorted_key (MapOfSets.set_insert Expr_ltb key e) /\ forall x, x ∈ MapOfSets.set_insert Expr_ltb key e <-> x ∈ key \/ x = e.
Proof.
  intros (k & -> & Hs) H1 H2. destruct (lift_keys [e]) as [[|e' [|]] E]; [now constructor|done| |done]. injection E as ->.
  rewrite (MapOfSets.rename_set_insert key_expr key_ltb Expr_ltb) by done. split.
  - eexists. split; [done|]. now apply (MapOfSets.set_insert_sorted key_ltb key_eqb).
  - assert (H : forall z, z ∈ MapOfSets.set_insert key_ltb k e' <-> z ∈ k \/ z = e').
    { clear Hs. induction k as [|y k IH]; intros z; cbn; [set_solver|]. destruct (key_ltb e' y) eqn:E1; [set_solver|].
      destruct (key_ltb y e') eqn:E2; [set_solver|]. rewrite (ltk_total e' y) by done. set_solver. }
    intros x. setoid_rewrite list_elem_of_fmap. split.
    + intros (z & -> & [Hz| ->]%H); eauto.
    + intros [(z & -> & Hz)| ->]; [exists z|exists e']; rewrite H; auto.
Qed.

Lemma key_of_constraints_ok cs : Forall (fun e => wf_consts e = true /\ arrays e ⊆ U) cs ->
  sorted_key (key_of_constraints cs) /\ forall x, x ∈ key_of_constraints cs <-> x ∈ cs.
Proof.
  intros Hcs. unfold key_of_constraints.
  assert (H : forall key, sorted_key key -> sorted_key (foldl (MapOfSets.set_insert Expr_ltb) key cs) /\
    forall x, x ∈ foldl (MapOfSets.set_insert Expr_ltb) key cs <-> x ∈ key \/ x ∈ cs).
  { induction Hcs as [|e cs [H1 H2] Hcs IH]; intros key Hk; cbn [foldl]; [split; [done|set_solver]|].
    destruct (set_insert_key key e Hk H1 H2) as [Hk' Hin]. destruct (IH _ Hk') as [Hs Hx]. split; [done|]. intros x. rewrite Hx, Hin. set_solver. }
  destruct (H []) as [Hs Hx]; [exists []; split; [done|constructor]|]. split; [done|]. intros x. rewrite Hx. set_solver.
Qed.

(** *** The cache *)

(** What an entry claims. *)
Definition entry_ok (key : list Expr) (r : option Assignment) : Prop :=
  match r with
  | None => forall rho, byte_contents rho -> ~ models rho key
  | Some a => assignment_ok U a /\ models (contents_of a) key
  end.

Definition trie_ok (n : MapOfSets.Node Expr (option Assignment)) : Prop :=
  exists n' : MapOfSets.Node Key (option Assignment), n = MapOfSets.rename key_expr n' /\ MapOfSets.wf key_ltb n' /\
    forall s v, MapOfSets.lookup key_eqb n' s = Some v -> entry_ok (map key_expr s) v.

Record cex_ok (c : CexCache) : Prop := {
  cx_trie : trie_ok (cache c);
  cx_table : Forall (assignment_ok U) (assignmentsTable c)
}.

Lemma empty_cex_ok : cex_ok empty_cex.
Proof.
  constructor; [|constructor]. exists (MapOfSets.new_Node None). split_and!; [done|apply MapOfSets.wf_new|].
  intros s v. now rewrite MapOfSets.lookup_new.
Qed.

Lemma trie_insert n key v : trie_ok n -> sorted_key key -> entry_ok key v -> trie_ok (MapOfSets.insert Expr_ltb None n key v).
Proof.
  intros (n' & -> & Hw & He) (k & -> & Hs) Hv. exists (MapOfSets.insert key_ltb None n' k v).
  rewrite (MapOfSets.rename_insert key_expr key_ltb Expr_ltb) by done. split_and!; [done|now apply (MapOfSets.map_insert_wf key_ltb key_eqb None (STO:=key_order))|].
  intros s w. destruct (decide (k = s)) as [<-|Hne].
  - rewrite (MapOfSets.lookup_insert_eq key_ltb key_eqb None (STO:=key_order)) by done. now intros [= <-].
  - rewrite (MapOfSets.lookup_insert_ne key_ltb key_eqb None (STO:=key_order)) by done. apply He.
Qed.

Lemma models_sub rho l l' : l ⊆ l' -> models rho l' -> models rho l.
Proof. unfold models. rewrite !Forall_forall. auto. Qed.

Lemma map_subset (s t : list Key) : s ⊆ t -> map key_expr s ⊆ map key_expr t.
Proof. intros H x (y & -> & Hy)%list_elem_of_fmap. apply list_elem_of_fmap. eauto. Qed.

End Keys.
Arguments key_expr {U}.
Arguments key_ltb {_ U}.
Arguments key_eqb {_ U}.

(** ** Correctness *)

Section Correct.
Context `{A : APIntOps} {AS : APIntSpec A} `{Opts : ExprOptions} `{COpts : CexOptions} (UseVisitorHash : bool).
Context (U : list Array) (HU : one_per_address U).

Lemma subset_unsat key t r : entry_ok U t r -> t ⊆ key -> r = None -> entry_ok U key r.
Proof. intros Ht Hs ->. intros rho Hr Hm. apply (Ht rho Hr). now apply (models_sub rho t key). Qed.

Lemma lookup_search_ok c key r : cex_ok U c -> sorted_key U key -> Forall (bool_ok U) key ->
  searchForAssignment UseVisitorHash c key = Some r -> entry_ok U key r.
Proof.
  intros [(n & En & Hw & He) Ht] (k & -> & Hs) Hok. unfold searchForAssignment. rewrite En.
  rewrite (MapOfSets.rename_lookup key_expr key_eqb Expr_eqb), (MapOfSets.rename_findSuperset key_expr key_ltb key_eqb Expr_ltb Expr_eqb),
    !(MapOfSets.rename_findSubset key_expr key_ltb key_eqb Expr_ltb Expr_eqb) by done.
  destruct (MapOfSets.lookup key_eqb n k) eqn:El; [intros [= <-]; now apply He|].
  assert (Hsup : forall r, MapOfSets.findSuperset key_ltb key_eqb NonNullAssignment n k = Some r -> entry_ok U (map key_expr k) r).
  { intros r' E. apply (MapOfSets.findSuperset_sound key_ltb key_eqb (STO:=key_order U HU)) in E as (Hp & t & Hkt & Hl); [|done].
    specialize (He _ _ Hl). destruct r' as [a|]; [|done]. destruct He as [Ha Hm]. split; [done|].
    eapply models_sub, Hm. now apply map_subset. }
  assert (Hsub : forall p r, MapOfSets.findSubset key_ltb key_eqb p n k = Some r -> p r = true /\ (r = None -> entry_ok U (map key_expr k) r) /\
    forall a, r = Some a -> assignment_ok U a).
  { intros p r' E. pose proof (MapOfSets.findSubset_spec key_ltb key_eqb (STO:=key_order U HU) p n k Hw Hs) as H. rewrite E in H.
    destruct H as (Hp & t & Hkt & Hl). split; [done|]. specialize (He _ _ Hl). split.
    - intros Hr. eapply subset_unsat; [exact He|now apply map_subset|done].
    - intros a ->. apply He. }
  assert (Hsup' : forall r, (if CexCacheSuperSet then MapOfSets.findSuperset key_ltb key_eqb NonNullAssignment n k else None) = Some r ->
    entry_ok U (map key_expr k) r) by (destruct CexCacheSuperSet; [done|congruence]).
  destruct (if CexCacheSuperSet then _ else None) as [r'|]; [destruct CexCacheTryAll; intros [= <-]; now apply Hsup'|].
  destruct CexCacheTryAll.
  - destruct (MapOfSets.findSubset _ _ NullAssignment n k) as [r'|] eqn:E.
    + intros [= <-]. destruct (Hsub _ _ E) as (Hp & Hn & _). apply Hn. now destruct r'.
    + intros (a & Ea & ->)%fmap_Some. apply find_some in Ea as [Hin%list_elem_of_In Hsat]. rewrite Forall_forall in Ht.
      split; [now apply Ht|]. now apply (satisfies_key_spec UseVisitorHash U); [apply Ht| |].
  - intros E. destruct (Hsub _ _ E) as (Hp & Hn & Ha). destruct r as [a|]; [|now apply Hn]. split; [now apply Ha|].
    now apply (satisfies_key_spec UseVisitorHash U); [apply Ha| |].
Qed.

(** *** The key of a query *)

Record key_of (q : Query) (key : list Expr) : Prop := {
  ko_sorted : sorted_key U key;
  ko_ok : Forall (bool_ok U) key;
  ko_models rho : byte_contents rho -> models rho key <-> models rho (q_constraints q) /\ eval rho (q_expr q) = Some (APInt 1 0);
  ko_complete rho rho' : byte_contents rho -> byte_contents rho' -> (forall e, e ∈ key -> eval rho e = eval rho' e) ->
    forall e, e = q_expr q \/ e ∈ q_constraints q -> eval rho e = eval rho' e
}.

Lemma bool_ok_key e : bool_ok U e -> wf_consts e = true /\ arrays e ⊆ U.
Proof. intros [Hw He]. split; [apply (has_width_wf (getWidth e)); split; [apply He|done]|apply He]. Qed.

Lemma IsZero_determines e rho rho' : bool_ok U e -> byte_contents rho -> byte_contents rho' ->
  eval rho (createIsZero e) = eval rho' (createIsZero e) -> eval rho e = eval rho' e.
Proof.
  intros He Hr Hr' E. destruct (bool_ok_cases U e rho He Hr) as [E1|E1], (bool_ok_cases U e rho' He Hr') as [E2|E2];
    rewrite (createIsZero_bool _ _ _ E1), (createIsZero_bool _ _ _ E2) in E; try congruence; discriminate E.
Qed.

Lemma lookup_cases c q : plain U q -> bool_ok U (q_expr q) ->
  (valid q /\ (lookupAssignment UseVisitorHash c q).2 = Some None) \/
  exists key, key_of q key /\ lookupAssignment UseVisitorHash c q = (key, searchForAssignment UseVisitorHash c key).
Proof.
  intros [Hn HC] He. pose proof (IsZero_bool_ok U _ He) as Hz.
  destruct (key_of_constraints_ok U HU (q_constraints q)) as [Hs Hin].
  { eapply Forall_impl; [exact HC|]. apply bool_ok_key. }
  assert (Hok : Forall (bool_ok U) (key_of_constraints (q_constraints q))).
  { rewrite Forall_forall in *. intros e Hx. apply HC. now apply Hin. }
  assert (Hm : forall rho, models rho (key_of_constraints (q_constraints q)) <-> models rho (q_constraints q)).
  { intros rho. unfold models. rewrite !Forall_forall. now setoid_rewrite Hin. }
  assert (Hconst : forall CE, createIsZero (q_expr q) = ConstantExpr CE ->
    (valid q /\ (lookupAssignment UseVisitorHash c q).2 = Some None) \/
    exists key, key_of q key /\ lookupAssignment UseVisitorHash c q = (key, searchForAssignment UseVisitorHash c key)).
  { intros CE Ez. unfold lookupAssignment. rewrite Ez. rewrite Ez in Hz.
    assert (Hval : forall rho, byte_contents rho -> eval rho (createIsZero (q_expr q)) = Some CE).
    { intros rho Hr. rewrite Ez. apply eval_const. destruct (constant_bool_ok U CE Hz) as [->| ->]; done. }
    destruct (constant_bool_ok U CE Hz) as [->| ->]; rewrite isFalse_spec by done; cbn.
    - right. eexists. split; [|done]. constructor; [done..| |].
      + intros rho Hr. rewrite Hm. split; [|tauto]. intros H. split; [done|]. now apply (IsZero_value U _ rho He Hr), Hval.
      + intros rho rho' Hr Hr' Hsame e [->|Hx]; [|apply Hsame; now apply Hin].
        apply IsZero_determines; [done..|]. now rewrite !Hval.
    - left. split; [|done]. intros rho [[Hr _] E]. apply (IsZero_value U _ rho He Hr) in E. rewrite Hval in E by done. done. }
  destruct (createIsZero (q_expr q)) as [CE| | | | | | | | |] eqn:Ez; [now apply (Hconst CE)|..]; right; clear Hconst;
    unfold lookupAssignment; rewrite Ez; rewrite <- Ez in Hz |- *;
    (destruct (set_insert_key U HU (key_of_constraints (q_constraints q)) (createIsZero (q_expr q)) Hs) as [Hs' Hin']; [now apply bool_ok_key..|]);
    (exists (MapOfSets.set_insert Expr_ltb (key_of_constraints (q_constraints q)) (createIsZero (q_expr q))); split; [|done];
     constructor; [done| | |]).
  all: try (apply Forall_forall; intros y [Hx| ->]%Hin'; [rewrite Forall_forall in Hok; auto|done]).
  all: try (intros rho Hr; rewrite <- Hm, <- (proj2 (IsZero_value U _ rho He Hr)); unfold models; rewrite !Forall_forall;
    setoid_rewrite Hin'; naive_solver).
  all: intros rho rho' Hr Hr' Hsame y [->|Hx]; [apply IsZero_determines; [done..|]; apply Hsame, Hin'; auto|apply Hsame, Hin'; left; now apply Hin].
Qed.

(** What [getAssignment] promises. *)
Definition answer_ok (q : Query) (r : option Assignment) : Prop :=
  match r with None => valid q | Some a => assignment_ok U a /\ counterexample q (contents_of a) end.

Lemma entry_answer q key r : key_of q key -> entry_ok U key r -> answer_ok q r.
Proof.
  intros Hk. destruct r as [a|]; cbn.
  - intros [Ha Hm]. split; [done|]. pose proof (contents_of_bytes U a Ha) as Hr. apply (ko_models _ _ Hk _ Hr) in Hm as [? ?]. now split.
  - intros H rho [[Hr Hm] E]. apply (H rho Hr). apply (ko_models _ _ Hk rho Hr). now split.
Qed.

Section Solver.
Context (Ini : Query -> list Array -> Prop) (HIni : forall q objects, complete_objects q objects -> Ini q objects).
Context (F : Prop) {S : Type} (I : S -> Prop) (solver : SolverImpl S) {SS : SolverSpec U (plain U) Ini F I solver}.

Notation ok := (fun s : CexCache * S => cex_ok U s.1 /\ I s.2).

Lemma key_objects key : Forall (bool_ok U) key ->
  findSymbolicObjects UseVisitorHash key ⊆ U /\
  forall e a, e ∈ key -> a ∈ arrays e -> isConstantArray a = false -> a ∈ findSymbolicObjects UseVisitorHash key.
Proof.
  intros Hk. destruct (find_arrays_found UseVisitorHash isSymbolicArray key) as [_ Hin].
  { eapply Forall_impl; [exact Hk|]. apply bool_ok_key. }
  split.
  - intros a (_ & e & He & Ha)%Hin. rewrite Forall_forall in Hk. now apply (bool_ok_key e (Hk e He)).
  - intros e a He Ha Hc. apply Hin. split; [unfold isSymbolicArray; now rewrite Hc|eauto].
Qed.

(** The entry made from an answer of the wrapped solver. *)
Lemma new_entry c q key rho : cex_ok U c -> key_of q key -> counterexample q rho ->
  let objects := findSymbolicObjects UseVisitorHash key in
  let ins := table_insert (assignmentsTable c) (Assignment_create objects (bytes_of rho <$> objects) false) in
  entry_ok U key (Some ins.2) /\ Forall (assignment_ok U) ins.1.
Proof.
  intros Hc Hk [[Hr Hm] E] objects ins. destruct (key_objects key (ko_ok _ _ Hk)) as [Hsub Hall].
  pose proof (created_ok U rho objects Hr Hsub) as Hok.
  destruct (table_insert_spec U HU (assignmentsTable c) (Assignment_create objects (bytes_of rho <$> objects) false)) as (H1 & H2 & H3).
  { eapply Forall_impl; [apply (cx_table _ _ Hc)|]. intros x Hx. apply Hx. }
  { apply Hok. }
  fold ins in H1, H2, H3. assert (Ht : Forall (assignment_ok U) ins.1).
  { apply Forall_forall. intros x [Hx| ->]%H1; [|done]. pose proof (cx_table _ _ Hc) as Ht. rewrite Forall_forall in Ht. auto. }
  split; [|done]. rewrite Forall_forall in Ht. split; [now apply Ht|].
  assert (Hkey : models rho key) by (apply (ko_models _ _ Hk rho Hr); now split).
  unfold models in *. rewrite Forall_forall in *. intros e He. rewrite <- (Hkey e He). apply eval_ext_symbolic. intros a Ha Hs i Hi.
  rewrite (same_contents _ _ a i H3). apply created_contents; [done| |done]. now apply (Hall e).
Qed.

Lemma getAssignment_ok q : plain U q -> bool_ok U (q_expr q) -> spec F ok (getAssignment UseVisitorHash solver q) (answer_ok q).
Proof.
  intros Hq He. eapply spec_bind; [apply (spec_own F (cex_ok U) I)|]. intros c Hc. cbv zeta.
  destruct (lookup_cases c q Hq He) as [[Hv ->]|(key & Hk & El)]; [now apply spec_ret|]. rewrite El. cbn [fst snd].
  destruct (searchForAssignment UseVisitorHash c key) as [r|] eqn:Es.
  { apply spec_ret, (entry_answer q key); [done|]. eapply lookup_search_ok; eauto; apply Hk. }
  destruct (key_objects key (ko_ok _ _ Hk)) as [Hsub Hall].
  eapply spec_bind; [apply (spec_inner F (cex_ok U) I), (sp_initial (U:=U)); [done| |done|exact Hsub]|].
  { apply HIni. intros rho rho' Hr Hr' Hsame. apply (ko_complete _ _ Hk); [done..|]. intros e Hin. apply eval_ext_symbolic.
    intros a Ha Hs i _. apply Hsame. now apply (Hall e). }
  intros [values|] Hr.
  - destruct Hr as (rho & Hcex & ->). destruct (new_entry c q key rho Hc Hk Hcex) as [Hentry Htab].
    eapply spec_bind; [apply spec_assume|].
    { apply orb_true_iff. right. apply (satisfies_key_spec UseVisitorHash U); [apply Hentry|apply Hk|apply Hentry]. }
    intros _ _. eapply spec_bind; [apply (spec_set_own F (cex_ok U) I)|].
    { constructor; [|exact Htab]. apply trie_insert; [done|apply Hc|apply Hk|exact Hentry]. }
    intros _ _. apply spec_ret. now apply (entry_answer q key).
  - assert (Hentry : entry_ok U key None).
    { intros rho Hrho Hm. apply (ko_models _ _ Hk rho Hrho) in Hm as [Hm E]. apply (Hr rho). now split. }
    eapply spec_bind; [apply (spec_set_own F (cex_ok U) I)|].
    { constructor; [|apply Hc]. apply trie_insert; [done|apply Hc|apply Hk|exact Hentry]. }
    intros _ _. now apply spec_ret.
Qed.

(** An assignment for the constraints alone. *)
Lemma some_solution q : plain U q -> satisfiable (q_constraints q) ->
  spec F ok (a ← getAssignment UseVisitorHash solver (withFalse q); the_assignment a)
    (fun a => assignment_ok U a /\ satisfies (contents_of a) (q_constraints q)).
Proof.
  intros Hq [rho Hs]. eapply spec_bind; [apply getAssignment_ok; [done|apply false_bool_ok]|]. intros [a|] Ha.
  - apply spec_ret. split; apply Ha.
  - destruct (Ha rho). now split.
Qed.

Lemma evaluated_ok a e : assignment_ok U a -> expr_ok U e ->
  spec F ok (evaluate_constant_of UseVisitorHash a e) (fun v => eval (contents_of a) e = Some v).
Proof.
  intros Ha He. destruct (evaluate_assignment UseVisitorHash U a e Ha He) as (v & Ev & E).
  eapply (spec_bind _ _ _ _ (eq (ConstantExpr v))); [eapply spec_pure; [now rewrite Ev|done]|]. intros ? <-. now apply spec_ret.
Qed.

Lemma withFalse_first {X} q (k : Assignment -> SolverM (CexCache * S) X) P : plain U q -> satisfiable (q_constraints q) ->
  (forall a, assignment_ok U a -> satisfies (contents_of a) (q_constraints q) -> spec F ok (k a) P) ->
  spec F ok (a ← getAssignment UseVisitorHash solver (withFalse q); a ← the_assignment a; k a) P.
Proof.
  intros Hq Hs Hk s Hs'. pose proof (some_solution q Hq Hs s Hs') as H. unfold mbind, SolverM_bind in *.
  destruct (getAssignment UseVisitorHash solver (withFalse q) s) as [[[a|] s']| |]; try done.
  destruct (the_assignment a s') as [[[a'|] s'']| |]; try done. destruct H as [Hok [Ha Hsat]]. exact (Hk a' Ha Hsat s'' Hok).
Qed.

Lemma Cex_computeValidity_ok q : plain U q -> bool_ok U (q_expr q) -> satisfiable (q_constraints q) ->
  spec F ok (Cex_computeValidity UseVisitorHash solver q) (validity_spec q).
Proof.
  intros Hq He Hs. apply withFalse_first; [done..|]. intros a Ha Hsat.
  eapply spec_bind; [apply evaluated_ok; [done|apply He]|]. intros v Ev. pose proof (contents_of_bytes U a Ha) as Hr.
  destruct (bool_ok_cases U _ _ He Hr) as [E|E]; rewrite Ev in E; injection E as ->; rewrite ?isTrue_one, ?isTrue_zero.
  - eapply spec_bind; [now apply getAssignment_ok|]. intros [b|] Hb; apply spec_ret; [|done].
    split; [exists (contents_of a); now split|exists (contents_of b); apply Hb].
  - eapply spec_bind; [apply getAssignment_ok; [done|now apply (IsZero_bool_ok U)]|]. intros [b|] Hb; apply spec_ret.
    + split; [exists (contents_of b); apply (negate_counterexample U); [done|apply Hb]|exists (contents_of a); now split].
    + now apply (negate_valid U).
Qed.

Lemma Cex_computeTruth_ok q : plain U q -> bool_ok U (q_expr q) -> satisfiable (q_constraints q) ->
  spec (F \/ CexCacheExperimental = true) ok (Cex_computeTruth UseVisitorHash solver q) (truth_spec q).
Proof.
  intros Hq He Hs. eapply spec_bind; [apply (spec_own _ (cex_ok U) I)|]. intros c Hc.
  destruct (CexCacheExperimental && _) eqn:E; [apply andb_true_iff in E as [E _]; apply spec_failure; now right|].
  apply (spec_weaken F); [now left|]. eapply spec_bind; [now apply getAssignment_ok|]. intros [a|] Ha; apply spec_ret; [|done].
  exists (contents_of a). apply Ha.
Qed.

Lemma Cex_computeValue_ok q : plain U q -> expr_ok U (q_expr q) -> satisfiable (q_constraints q) ->
  spec F ok (Cex_computeValue UseVisitorHash solver q) (value_spec q).
Proof.
  intros Hq He Hs. apply withFalse_first; [done..|]. intros a Ha Hsat. eapply spec_bind; [now apply evaluated_ok|]. intros v Ev.
  apply spec_ret. now exists v, (contents_of a).
Qed.

Lemma Cex_computeInitialValues_ok q objects : plain U q -> bool_ok U (q_expr q) ->
  spec F ok (Cex_computeInitialValues UseVisitorHash solver q objects) (initial_spec q objects).
Proof.
  intros Hq He. eapply spec_bind; [now apply getAssignment_ok|]. intros [a|] Ha; apply spec_ret; [|done].
  exists (contents_of a). split; [apply Ha|]. apply (values_of_ok U), Ha.
Qed.

Lemma CexCachingSolver_spec :
  SolverSpec U (plain U) (fun _ _ => True) (F \/ CexCacheExperimental = true) ok (CexCachingSolver UseVisitorHash solver).
Proof.
  constructor; intros.
  - apply (spec_weaken F); [now left|]. now apply Cex_computeValidity_ok.
  - now apply Cex_computeTruth_ok.
  - apply (spec_weaken F); [now left|]. now apply Cex_computeValue_ok.
  - apply (spec_weaken F); [now left|]. now apply Cex_computeInitialValues_ok.
Qed.


End Solver.
End Correct.

(** ** Witness *)

Definition cex_options (exp : bool) : CexOptions :=
  {| CexCacheTryAll := false; CexCacheSuperSet := true; CexCacheExperimental := exp; DebugCexCacheCheckBinding := true |}.

Definition cex_solver (exp : bool) : SolverImpl (CexCache * unit) :=
  CexCachingSolver (A:=apint_ref) (Opts:=no_const_array_opt) (COpts:=cex_options exp) true byte_solver.

Definition cex_run : outcome (option Validity * (CexCache * unit)) :=
  computeValidity (cex_solver false) (cell_query cell_is_small) (empty_cex, tt).


(** With [CexCacheExperimental], a query that is known to be false fails: the
    negation of [cell_is_small] is asked after [cell_is_small] was found valid. *)
Definition negated_small : Expr := createIsZero (A:=apint_ref) (Opts:=no_const_array_opt) cell_is_small.
Definition experimental_run (exp : bool) : outcome (option bool * (CexCache * unit)) :=
  (_ ← computeTruth (cex_solver exp) (cell_query cell_is_small); computeTruth (cex_solver exp) (cell_query negated_small)) (empty_cex, tt).

Lemma experimental_truth_fails :
  (match experimental_run false with Done (r, _) => Some r | _ => None end) = Some (Some false) /\
  (match experimental_run true with Done (r, _) => Some r | _ => None end) = Some None.
Proof. split; vm_compute; reflexivity. Qed.
