(* ===== verification/IndependentSolver.v ===== *)
(** * The independent solver

    src/lib/Solver/IndependentSolver.cpp: a query is answered from the factors
    of the constraint manager that share bytes with it, and initial values are
    computed factor by factor, or for batches of factors, and put together.

    Sets of pointers and of arrays are iterated in the order of [elements]; a
    vector access outside the vector is [Abort], as is a failing assert.  The
    statistics and the checks under [DebugIndependentIntersection] are left out. *)

From stdpp Require Import gmap strings.
From S2P Require Import Prelude APInt Expr ExprOrder ExprSem ExprCreate ExprCreateSound ExprRebuildSound ExprTyping ExprVisitor ExprEvaluator ExprUtil ExprClosure IndependentElementSet FactorIndex ConstraintFactors FactorDelete ConstraintManager Solver CachingSolver.

Inductive IndependentSolverType := PER_FACTOR | BATCH.

(** The options of the command line the solver reads. *)
Class IndependentOptions := {
  UseIndependentSolverType : IndependentSolverType;
  ExprNumThreshold : nat
}.

(** The answers for the arrays. *)
Notation RetMap := (gmap Array (list Z)).

Section Independent.
Context `{A : APIntOps} `{Opts : ExprOptions} `{IOpts : IndependentOptions} (UseVisitorHash : bool).

Definition query_factors (q : Query) : Factors := cm_factors (constraintMgr q).

(** The sets pointers point to. *)
Definition deref (F : Factors) (ps : list ptr) : outcome (list IndependentElementSet) := or_abort (mapM (fun p => heap F !! p) ps).

Definition getIndependentConstraints (q : Query) : outcome (list Expr * IndependentElementSet) :=
  eltsClosure ← or_abort (IndependentElementSet'create (q_expr q));
  indep_elemsets ← or_abort (getIntersection (indexer (query_factors q)) eltsClosure);
  sets ← deref (query_factors q) (elements indep_elemsets);
  Done (foldl insert_expr [] (mjoin (ie_exprs <$> sets)), foldl (fun c s => (IndependentElementSet.add c s).1) eltsClosure sets).

(** The arrays a set refers to. *)
Definition calculateArrayReferences (ie : IndependentElementSet) : gset Array := dom (ie_elements ie) ∪ ie_wholeObjects ie.

(** The query that reaches the wrapped solver. *)
Definition required_query (q : Query) (r : list Expr * IndependentElementSet) : Query :=
  mkQuery (constraintMgr q) r.1 false (q_expr q) (Some r.2).

(** *** Initial values *)

(** The factors of the query's constraints. *)
Definition factors_of_query (q : Query) : outcome (list ptr) :=
  if q_all q then Done (elements (factors (indexer (query_factors q))))
  else out ← or_abort (getRelatedIndependentElementSets (query_factors q) (q_constraints q)); Done (elements out).

(** [( * tempPtr)[index] = tempValues[i][index]] *)
Definition write_byte (temp vec : list Z) (index : Z) : option (list Z) :=
  _ ← FactorIndex.assert ((0 <=? index) && (index <? Z.of_nat (length vec)));
  v ← temp !! Z.to_nat index;
  Some (<[Z.to_nat index := v]> vec).

(** The answer of the wrapped solver for one array enters [retMap]. *)
Definition merge_value (indep : IndependentElementSet) (retMap : RetMap) (answer : Array * list Z) : option RetMap :=
  match retMap !! answer.1 with
  | Some tempPtr =>
    _ ← FactorIndex.assert (length tempPtr =? length answer.2)%nat;
    ds ← ie_elements indep !! answer.1;
    vec ← foldM (write_byte answer.2) tempPtr (elements ds);
    Some (<[answer.1 := vec]> retMap)
  | None => Some (<[answer.1 := answer.2]> retMap)
  end.

(** The same for the answer for several sets. *)
Definition merge_value_batch (p : list IndependentElementSet) (retMap : RetMap) (answer : Array * list Z) : option RetMap :=
  match retMap !! answer.1 with
  | Some tempPtr =>
    _ ← FactorIndex.assert (length tempPtr =? length answer.2)%nat;
    vec ← foldM (fun vec it =>
      match ie_elements it !! answer.1 with
      | Some ds => foldM (write_byte answer.2) vec (elements ds)
      | None => Some vec
      end) tempPtr p;
    Some (<[answer.1 := vec]> retMap)
  | None => Some (<[answer.1 := answer.2]> retMap)
  end.

(** The parts of the batch mode: a part is closed when it has
    [ExprNumThreshold] constraints. *)
Fixpoint split_parts (sets : list IndependentElementSet) (current : list IndependentElementSet) (acc_expr_cnt : nat)
    : list (list IndependentElementSet) :=
  match sets with
  | [] => match current with [] => [] | _ => [current] end
  | indep :: sets =>
    if (ExprNumThreshold <=? acc_expr_cnt)%nat
    then current :: split_parts sets [indep] (length (ie_exprs indep))
    else split_parts sets (current ++ [indep]) (acc_expr_cnt + length (ie_exprs indep))
  end.

(** The values of the requested objects. *)
Definition object_values (retMap : RetMap) (objects : list Array) : list (list Z) :=
  (fun arr => default (replicate (Z.to_nat (Expr.size arr)) 0) (retMap !! arr)) <$> objects.

(** The loop of [assertCreatedPointEvaluatesToTrue] over the constraints. *)
Fixpoint no_constraint_false (assign : Assignment) (cs : list Expr) : outcome bool :=
  match cs with
  | [] => Done true
  | c :: cs =>
    ret ← or_fuel (Assignment_evaluate UseVisitorHash assign c);
    if Expr_isFalse ret then Done false else no_constraint_false assign cs
  end.

Definition assertCreatedPointEvaluatesToTrue (q : Query) (objects : list Array) (values : list (list Z)) (retMap : RetMap) : outcome bool :=
  let assign := mkAssignment true (bindings (Assignment_create objects values true) ++ map_to_list retMap) in
  b ← no_constraint_false assign (q_constraints q);
  if negb b then Done false
  else
    r ← or_fuel (Assignment_evaluate UseVisitorHash assign (createIsZero (q_expr q)));
    match r with ConstantExpr c => Done (isTrue c) | _ => Abort end.

Section Solver.
Context {S : Type} (solver : SolverImpl S).

(** A query for the constraints [cs] alone, with the answer entered by [merge];
    [None] when there is no solution. *)
Definition solve_part (q : Query) (cs : list Expr) (hint : IndependentElementSet) (arraysInFactor : list Array)
    (merge : RetMap -> Array * list Z -> option RetMap) (retMap : RetMap) : SolverM S (option RetMap) :=
  r ← computeInitialValues solver (mkQuery (constraintMgr q) cs false false_expr (Some hint)) arraysInFactor;
  match r with
  | None => mret None
  | Some tempValues =>
    _ ← assume (length tempValues =? length arraysInFactor)%nat;
    retMap ← pure (or_abort (foldM merge retMap (zip arraysInFactor tempValues)));
    mret (Some retMap)
  end.

Fixpoint per_factor_loop (q : Query) (sets : list IndependentElementSet) (retMap : RetMap) : SolverM S (option RetMap) :=
  match sets with
  | [] => mret (Some retMap)
  | indep :: sets =>
    let arraysInFactor := elements (calculateArrayReferences indep) in
    _ ← assume (1 <=? length (ie_exprs indep))%nat;
    match arraysInFactor with
    | [] => per_factor_loop q sets retMap
    | _ =>
      r ← solve_part q (ie_exprs indep) indep arraysInFactor (merge_value indep) retMap;
      match r with None => mret None | Some retMap => per_factor_loop q sets retMap end
    end
  end.

(** The asserts of the loop over a part. *)
Fixpoint part_asserts (p : list IndependentElementSet) (arraysInFactorSet : gset Array) : bool :=
  match p with
  | [] => true
  | indep :: p =>
    let arrays := arraysInFactorSet ∪ calculateArrayReferences indep in
    (1 <=? length (ie_exprs indep))%nat && bool_decide (arrays <> ∅) && part_asserts p arrays
  end.

Fixpoint batch_loop (q : Query) (parts : list (list IndependentElementSet)) (retMap : RetMap) : SolverM S (option RetMap) :=
  match parts with
  | [] => mret (Some retMap)
  | p :: parts =>
    _ ← assume (part_asserts p ∅);
    let arraysInFactorSet := ⋃ (calculateArrayReferences <$> p) in
    let constraints := foldl insert_expr [] (mjoin (ie_exprs <$> p)) in
    let combined := foldl (fun c s => (IndependentElementSet.add c s).1) no_elements p in
    r ← solve_part q constraints combined (elements arraysInFactorSet) (merge_value_batch p) retMap;
    match r with None => mret None | Some retMap => batch_loop q parts retMap end
  end.

Definition Independent_computeInitialValues (q : Query) (objects : list Array) : SolverM S (option (list (list Z))) :=
  ps ← pure (factors_of_query q);
  sets ← pure (deref (query_factors q) ps);
  r ← match UseIndependentSolverType with
      | PER_FACTOR => per_factor_loop q sets ∅
      | BATCH =>
        _ ← assume (forallb (fun s => (1 <=? length (ie_exprs s))%nat) sets);
        batch_loop q (split_parts sets [] 0) ∅
      end;
  match r with
  | None => mret None
  | Some retMap =>
    let values := object_values retMap objects in
    b ← pure (assertCreatedPointEvaluatesToTrue q objects values retMap);
    _ ← assume b;
    mret (Some values)
  end.

Definition IndependentSolver : SolverImpl S := mkImpl
  (fun q => r ← pure (getIndependentConstraints q); computeValidity solver (required_query q r))
  (fun q => r ← pure (getIndependentConstraints q); computeTruth solver (required_query q r))
  (fun q => r ← pure (getIndependentConstraints q); computeValue solver (required_query q r))
  Independent_computeInitialValues.

End Solver.
End Independent.

(** ** Which constraints a query depends on *)

(** The evaluator's condition on indices is the one of the sets. *)
Lemma evaluable_operands full e k : k ∈ operands true e -> evaluable full e = true -> evaluable full k = true.
Proof.
  intros Hk He.
  assert (Hu : forall u, un_evaluable full u = true -> forall x, x ∈ un_exprs u -> evaluable full x = true).
  { induction u as [|n IH i v]; cbn; [set_solver|]. rewrite !andb_true_iff. intros [[? ?] ?] x. rewrite !elem_of_cons. naive_solver. }
  destruct e; cbn in Hk, He; rewrite ?andb_true_iff in He; try set_solver.
Qed.

Lemma evaluable_narrow full e : evaluable full e = true -> narrow e.
Proof.
  intros He re Hre. assert (Hr : evaluable full (read_expr re) = true).
  { remember (read_expr re) as x eqn:E. clear E. induction Hre as [|e k x Hk _ IH]; [done|]. eapply IH, evaluable_operands; eauto. }
  cbn in Hr. rewrite !andb_true_iff in Hr. lia.
Qed.

(** A constant index has the width of the array's domain. *)
Lemma well_typed_operands e k : k ∈ operands true e -> well_typed e = true -> well_typed k = true.
Proof.
  intros Hk He.
  assert (Hu : forall r u, un_well_typed r u = true -> forall x, x ∈ un_exprs u -> well_typed x = true).
  { intros r. induction u as [|n IH i v]; cbn; [set_solver|]. rewrite !andb_true_iff. intros [[[[? ?] ?] _] _] x.
    rewrite !elem_of_cons. naive_solver. }
  destruct e; cbn in Hk, He; rewrite ?andb_true_iff in He; set_solver.
Qed.

Section Facts.
Context `{A : APIntOps} {AS : APIntSpec A} `{Opts : ExprOptions} (U : list Array).

Lemma expr_ok_in_bounds e : expr_ok U e -> in_bounds e.
Proof.
  intros He re Hre. pose proof (evaluable_narrow _ _ (eo_evaluable _ _ He) re Hre) as Hn. pose proof (eo_inside _ _ He re Hre) as Hi.
  assert (Ht : well_typed (read_expr re) = true).
  { pose proof (eo_typed _ _ He) as Ht. remember (read_expr re) as x eqn:E. clear -Hre Ht.
    induction Hre as [|e k x Hk _ IH]; [done|]. eapply IH, well_typed_operands; eauto. }
  destruct re as [r h i]. cbn in *. destruct i as [c| | | | | | | | |]; try done. rewrite !andb_true_iff, Z.eqb_eq in Ht.
  destruct Ht as [[_ V] Hw]. cbn in Hw. rewrite getZExtValue_spec by (done || lia). unfold u32. rewrite BV.wrap_small; [done|].
  apply ap_valid_spec in V. assert (2 ^ ap_width c <= 2 ^ 32) by (apply Z.pow_le_mono_r; lia). lia.
Qed.

Lemma expr_ok_wf e : expr_ok U e -> wf_consts e = true.
Proof. intros He. apply (has_width_wf (getWidth e)). split; [apply He|done]. Qed.

(** The queries the solver is asked: all constraints of a manager whose factors
    are the connected components, each with a constraint, and whose constraints
    each depend on some byte. *)
Record independent_ctx (q : Query) : Prop := {
  ic_constraints : constraints_ok U (q_constraints q);
  ic_factors : factors_ok (query_factors q);
  ic_all e : e ∈ q_constraints q <-> known (query_factors q) e;
  ic_nonempty p s : fset (heap (query_factors q)) (indexer (query_factors q)) p s -> ie_exprs s <> [];
  ic_symbolic e s : e ∈ q_constraints q -> IndependentElementSet'create e = Some s -> exists a i, covers s a i
}.

#[export] Instance independent_context : QueryContext U independent_ctx.
Proof. constructor; [intros q []; done|]. intros q e []. now constructor. Qed.

Section Query.
Context (q : Query) (Hq : independent_ctx q).
Notation F := (query_factors q).
Notation C := (q_constraints q).
Notation factor := (fset (heap F) (indexer F)).

Lemma factor_exprs_elem p s e : factor p s -> e ∈ ie_exprs s -> e ∈ C.
Proof. intros Hs He. apply (ic_all _ Hq), (factor_exprs _ _ (ic_factors _ Hq)). eauto. Qed.

Lemma constraint_factor e : e ∈ C -> exists p s, factor p s /\ e ∈ ie_exprs s.
Proof. intros He. now apply (factor_exprs _ _ (ic_factors _ Hq)), (ic_all _ Hq). Qed.

Lemma constraint_ok e : e ∈ C -> bool_ok U e.
Proof. destruct (ic_constraints _ Hq) as [_ H]. rewrite Forall_forall in H. apply H. Qed.

Lemma factor_set_ok p s : factor p s -> set_ok s /\ in_range s /\ component s /\ ies_ok s.
Proof.
  intros Hs. destruct (exact_set _ _ _ _ (fo_exact _ (ic_factors _ Hq)) Hs) as [Os Rs].
  pose proof (fo_component _ (ic_factors _ Hq) _ _ Hs) as Cs. split_and!; [done..|]. apply component_ies_ok; [done..|].
  intros e He. eapply evaluable_narrow, (constraint_ok e). eapply factor_exprs_elem; eauto.
Qed.

Lemma query_factors_disjoint p p' s t : factor p s -> factor p' t -> overlap s t -> p = p'.
Proof. apply (exact_disjoint _ _ _ _ _ _ (fo_exact _ (ic_factors _ Hq))). Qed.

(** The factors a set of pointers denotes. *)
Lemma deref_ok (ps : list ptr) : (forall p, p ∈ ps -> exists t, factor p t) ->
  exists sets, deref F ps = Done sets /\ (forall t, t ∈ sets <-> exists p, p ∈ ps /\ factor p t).
Proof.
  intros Hps. destruct (mapM_sets _ _ ps Hps) as (sets & E & Hz & H1 & H2). exists sets. unfold deref. rewrite E. split; [done|].
  rewrite Forall_forall in Hz. intros t. split.
  - intros Ht. rewrite <- H2 in Ht. apply list_elem_of_fmap in Ht as ([p t'] & -> & Hin). exists p. split; [|exact (Hz _ Hin)].
    rewrite <- H1. apply list_elem_of_fmap. now exists (p, t').
  - intros (p & Hp & Ht). rewrite <- H1 in Hp. apply list_elem_of_fmap in Hp as ([p' t'] & -> & Hin). rewrite <- H2.
    apply list_elem_of_fmap. exists (p', t'). split; [|done]. exact (fset_fun _ _ _ _ _ Ht (Hz _ Hin)).
Qed.

Lemma factor_list_wf sets : (forall t, t ∈ sets -> exists p, factor p t) ->
  Forall set_ok sets /\ Forall (fun e => wf_consts e = true) (mjoin (ie_exprs <$> sets)) /\
  forall e, e ∈ mjoin (ie_exprs <$> sets) <-> exists t, t ∈ sets /\ e ∈ ie_exprs t.
Proof.
  intros Hsets. assert (Hin : forall e, e ∈ mjoin (ie_exprs <$> sets) <-> exists t, t ∈ sets /\ e ∈ ie_exprs t).
  { intros e. rewrite list_elem_of_join. setoid_rewrite list_elem_of_fmap. naive_solver. }
  split_and!; [|rewrite Forall_forall; intros e (t & Ht & He)%Hin|done].
  - apply Forall_forall. intros t (p & Ht)%Hsets. now apply (factor_set_ok p).
  - apply Hsets in Ht as (p & Ht). apply expr_ok_wf, (constraint_ok e). eapply factor_exprs_elem; eauto.
Qed.

(** *** The required constraints *)

Section Expr.
Context (He : expr_ok U (q_expr q)).

Record required_spec (r : list Expr * IndependentElementSet) : Prop := {
  rq_elem e : e ∈ r.1 -> e ∈ C;
  rq_nodup : NoDup r.1;
  rq_local rho rho' : agree_on r.2 rho rho' ->
    eval rho (q_expr q) = eval rho' (q_expr q) /\ forall e, e ∈ r.1 -> eval rho e = eval rho' e;
  rq_rest e p s : e ∈ C -> e ∉ r.1 -> factor p s -> e ∈ ie_exprs s -> ~ overlap r.2 s
}.

Lemma getIndependentConstraints_ok : exists r, getIndependentConstraints q = Done r /\ required_spec r.
Proof.
  pose proof (expr_ok_wf _ He) as We. destruct (create_covers (q_expr q) We) as (s & Es & Ws & Hex & _).
  destruct (component_create _ _ We Es) as (Os & _ & _).
  pose proof (create_range _ _ We (expr_ok_in_bounds _ He) Es) as Rs.
  pose proof (fo_exact _ (ic_factors _ Hq)) as Hx.
  destruct (getIntersection_total _ _ s Hx Rs) as [out Eo].
  pose proof (getIntersection_exact _ _ s out Hx Ws Eo) as Hout.
  destruct (deref_ok (elements out)) as (sets & Ed & Hsets).
  { intros p Hp%elem_of_elements. apply Hout in Hp as (t & Ht & _). eauto. }
  setoid_rewrite elem_of_elements in Hsets.
  destruct (factor_list_wf sets) as (Osets & Wj & Hj); [intros t (p & _ & Ht)%Hsets; eauto|].
  destruct (insert_exprs_spec (mjoin (ie_exprs <$> sets)) []) as [Hreq Hnd]; [constructor|done|constructor|].
  destruct (merge_sets_ok s sets Os Osets) as (_ & _ & Hcov).
  unfold getIndependentConstraints. rewrite Es. cbn [or_abort mbind outcome_bind]. rewrite Eo. cbn [or_abort mbind outcome_bind].
  rewrite Ed. cbn [mbind outcome_bind]. eexists. split; [done|].
  assert (Hreq' : forall e, e ∈ foldl insert_expr [] (mjoin (ie_exprs <$> sets)) <-> exists t, t ∈ sets /\ e ∈ ie_exprs t).
  { intros e. rewrite Hreq, Hj. set_solver. }
  change (foldl (fun c s => (IndependentElementSet.add c s).1) s sets) with (merge_sets s sets).
  constructor; cbn [fst snd].
  - intros e (t & (p & _ & Ht)%Hsets & Hin)%Hreq'. eapply factor_exprs_elem; eauto.
  - done.
  - intros rho rho' Ha. split.
    + apply (create_ok _ s We (evaluable_narrow _ _ (eo_evaluable _ _ He)) Es); [rewrite Hex; now left|].
      intros a i Hc. apply Ha, Hcov. auto.
    + intros e (t & Ht & Hin)%Hreq'. pose proof Ht as (p & _ & Hf)%Hsets. destruct (factor_set_ok p t Hf) as (_ & _ & _ & Ok).
      apply (Ok e); [done|]. intros a i Hc. apply Ha, Hcov. eauto.
  - intros e p t HeC Hn Ht Hin (a & i & Hc & Hd). apply Hcov in Hc as [Hc|(t' & Ht' & Hc)].
    + apply Hn, Hreq'. exists t. split; [|done]. apply Hsets. exists p. split; [|done]. apply Hout. exists t. split; [done|]. now exists a, i.
    + apply Hn, Hreq'. apply Hsets in Ht' as (p' & Hp' & Hf'). assert (p' = p) as -> by (apply (query_factors_disjoint p' p t' t Hf' Ht); now exists a, i).
      exists t. split; [|done]. apply Hsets. eauto.
Qed.

(** What holds of the expression under the required constraints holds under
    all of them, and conversely. *)
Lemma required_values r v : required_spec r -> satisfiable C ->
  (exists rho, satisfies rho r.1 /\ eval rho (q_expr q) = Some v) <-> (exists rho, satisfies rho C /\ eval rho (q_expr q) = Some v).
Proof.
  intros Hr [rho0 [Hb0 H0]]. split.
  - intros (rho & [Hb Hm] & Ev). exists (combine r.2 rho rho0).
    destruct (rq_local _ Hr (combine r.2 rho rho0) rho) as [Ee Hreq]; [intros a i Hc; unfold combine; now rewrite decide_True|].
    split; [|now rewrite Ee]. split; [intros a i; unfold combine; case_decide; auto|].
    unfold models in *. rewrite !Forall_forall in *. intros e HeC. destruct (decide (e ∈ r.1)) as [Hin|Hin]; [rewrite Hreq by done; auto|].
    destruct (constraint_factor e HeC) as (p & s & Hs & Hes). destruct (factor_set_ok p s Hs) as (_ & _ & _ & Ok).
    rewrite <- (H0 e HeC). apply (Ok e); [done|]. intros a i Hc. unfold combine. rewrite decide_False; [done|].
    intros Hc'. apply (rq_rest _ Hr e p s HeC Hin Hs Hes). now exists a, i.
  - intros (rho & [Hb Hm] & Ev). exists rho. split; [|done]. split; [done|]. unfold models in *. rewrite !Forall_forall in *.
    intros e Hin. apply Hm, (rq_elem _ Hr e Hin).
Qed.

End Expr.
End Query.

(** ** Validity, truth and value *)

Section Answers.
Context (q : Query) (Hq : independent_ctx q) (He : expr_ok U (q_expr q)) (Hs : satisfiable (q_constraints q)).
Context (r : list Expr * IndependentElementSet) (Hr : required_spec q r).

Lemma required_plain : plain U (required_query q r).
Proof.
  split; [apply Hr|]. cbn. apply Forall_forall. intros e Hin. apply (constraint_ok q Hq), (rq_elem _ _ Hr e Hin).
Qed.

Lemma required_satisfiable : satisfiable (q_constraints (required_query q r)).
Proof.
  destruct Hs as [rho [Hb Hm]]. exists rho. split; [done|]. unfold models in *. rewrite !Forall_forall in *. cbn. intros e Hin.
  apply Hm, (rq_elem _ _ Hr e Hin).
Qed.

Lemma required_example : (exists rho, example (required_query q r) rho) <-> exists rho, example q rho.
Proof. exact (required_values q Hq r _ Hr Hs). Qed.
Lemma required_counterexample : (exists rho, counterexample (required_query q r) rho) <-> exists rho, counterexample q rho.
Proof. exact (required_values q Hq r _ Hr Hs). Qed.

Lemma required_truth b : truth_spec (required_query q r) b -> truth_spec q b.
Proof.
  destruct b; cbn; [|apply required_counterexample]. intros Hv rho Hc.
  destruct (proj2 required_counterexample) as [rho' Hc']; [eauto|]. exact (Hv rho' Hc').
Qed.

Lemma required_validity v : validity_spec (required_query q r) v -> validity_spec q v.
Proof.
  destruct v; cbn; [apply (required_truth true)| |].
  - intros Hv rho Hc. destruct (proj2 required_example) as [rho' Hc']; [eauto|]. exact (Hv rho' Hc').
  - intros [Hx Hc]. split; [now apply required_example|now apply required_counterexample].
Qed.

Lemma required_value e : value_spec (required_query q r) e -> value_spec q e.
Proof.
  intros (v & rho & -> & Hsat & Ev). destruct (proj1 (required_values q Hq r v Hr Hs)) as (rho' & Hsat' & Ev'); [eauto|].
  exists v, rho'. done.
Qed.

End Answers.
End Facts.
