(* ===== verification/IndependentValues.v ===== *)
(** * Initial values from independent parts

    The initial values [IndependentSolver] computes: the wrapped solver is asked
    for one factor, or one batch of factors, at a time, and the answers are put
    together byte by byte (src/lib/Solver/IndependentSolver.cpp).  Proved here:
    the values put together satisfy all constraints, and the solver meets the
    contract of the chain. *)

From stdpp Require Import gmap strings.
From S2P Require Import Prelude APInt Expr ExprOrder ExprSem ExprCreate ExprCreateSound ExprRebuildSound ExprTyping ExprVisitor ExprEvaluator ExprUtil ExprClosure IndependentElementSet FactorIndex ConstraintFactors FactorDelete ConstraintManager Solver SolverAssignment IndependentSolver.

(** ** Vectors of bytes *)

Definition bytes_fn (f : Z -> Z) (n : nat) : list Z := (fun i => f (Z.of_nat i)) <$> seq 0 n.

Lemma bytes_of_fn rho a : bytes_of rho a = bytes_fn (rho a) (Z.to_nat (Expr.size a)).
Proof. done. Qed.

Lemma bytes_fn_length f n : length (bytes_fn f n) = n.
Proof. unfold bytes_fn. now rewrite length_fmap, length_seq. Qed.

Lemma bytes_fn_lookup f n i : (i < n)%nat -> bytes_fn f n !! i = Some (f (Z.of_nat i)).
Proof. intros Hi. unfold bytes_fn. rewrite list_lookup_fmap, lookup_seq_lt by done. done. Qed.

Lemma bytes_fn_ext f g n : (forall i, 0 <= i < Z.of_nat n -> f i = g i) -> bytes_fn f n = bytes_fn g n.
Proof.
  intros H. unfold bytes_fn. apply list_fmap_ext. intros i x Hx. apply lookup_seq in Hx as [-> Hx]. apply H. lia.
Qed.

Lemma bytes_fn_insert f n i v : (i < n)%nat ->
  <[i := v]> (bytes_fn f n) = bytes_fn (fun j => if j =? Z.of_nat i then v else f j) n.
Proof.
  intros Hi. apply list_eq. intros j. destruct (decide (j < n)%nat) as [Hj|Hj].
  - rewrite bytes_fn_lookup by done. destruct (decide (j = i)) as [->|Hne].
    + rewrite list_lookup_insert_eq by now rewrite bytes_fn_length. now rewrite Z.eqb_refl.
    + rewrite list_lookup_insert_ne, bytes_fn_lookup by done. destruct (Z.eqb_spec (Z.of_nat j) (Z.of_nat i)); [lia|done].
  - rewrite !lookup_ge_None_2; [done|rewrite bytes_fn_length; lia|rewrite length_insert, bytes_fn_length; lia].
Qed.

Lemma write_byte_ok new n f i : 0 <= i < Z.of_nat n ->
  write_byte (bytes_fn new n) (bytes_fn f n) i = Some (bytes_fn (fun j => if j =? i then new i else f j) n).
Proof.
  intros Hi. unfold write_byte. rewrite bytes_fn_length, assert_bounds by done. cbn [mbind option_bind].
  rewrite bytes_fn_lookup by lia. cbn [mbind option_bind]. rewrite bytes_fn_insert by lia. now rewrite Z2Nat.id by lia.
Qed.

(** The bytes at the indices [l] are replaced. *)
Lemma write_bytes_ok new n l : forall f, (forall i, i ∈ l -> 0 <= i < Z.of_nat n) ->
  foldM (write_byte (bytes_fn new n)) (bytes_fn f n) l =
  Some (bytes_fn (fun j => if bool_decide (j ∈ l) then new j else f j) n).
Proof.
  induction l as [|i l IH]; intros f Hl; cbn [foldM].
  - f_equal; now apply bytes_fn_ext.
  - rewrite write_byte_ok by (apply Hl; now left). cbn [mbind option_bind].
    rewrite IH by (intros j Hj; apply Hl; now right). f_equal. apply bytes_fn_ext. intros j Hj.
    destruct (bool_decide_reflect (j ∈ l)), (bool_decide_reflect (j ∈ i :: l)); try set_solver.
    + destruct (Z.eqb_spec j i) as [->|]; [done|]. set_solver.
    + destruct (Z.eqb_spec j i) as [->|]; [set_solver|done].
Qed.

(** ** Parts *)

Definition part_covers (P : list IndependentElementSet) (a : Array) (i : Z) : bool := existsb (fun t => bool_decide (covers t a i)) P.

Lemma part_covers_true P a i : part_covers P a i = true <-> exists t, t ∈ P /\ covers t a i.
Proof.
  unfold part_covers. rewrite existsb_exists. setoid_rewrite bool_decide_eq_true. setoid_rewrite <- list_elem_of_In. done.
Qed.

Lemma calculateArrayReferences_elem t a : a ∈ calculateArrayReferences t <-> touches t a.
Proof. unfold calculateArrayReferences, touches. rewrite elem_of_union, elem_of_dom. tauto. Qed.

(** A set without the whole array has the bytes of its elements. *)
Lemma element_covers t a i : a ∉ ie_wholeObjects t -> covers t a i <-> exists ds, ie_elements t !! a = Some ds /\ i ∈ ds.
Proof. intros Ha. unfold covers. tauto. Qed.

(** What the two ways of entering an answer do. *)
Record merges (P : list IndependentElementSet) (merge : RetMap -> Array * list Z -> option RetMap) : Prop := {
  mg_new m a v : m !! a = None -> merge m (a, v) = Some (<[a := v]> m);
  mg_old m a f g : m !! a = Some (bytes_fn f (Z.to_nat (Expr.size a))) ->
    (exists t, t ∈ P /\ touches t a) -> (forall t, t ∈ P -> a ∉ ie_wholeObjects t) ->
    merge m (a, bytes_fn g (Z.to_nat (Expr.size a))) =
    Some (<[a := bytes_fn (fun j => if part_covers P a j then g j else f j) (Z.to_nat (Expr.size a))]> m)
}.

Lemma elements_in_range t a ds : in_range t -> ie_elements t !! a = Some ds ->
  forall i, i ∈ elements ds -> 0 <= i < Z.of_nat (Z.to_nat (Expr.size a)).
Proof. intros Hr Hds i Hi%elem_of_elements. specialize (Hr a ds i Hds Hi). lia. Qed.

Lemma merge_value_ok t : in_range t -> merges [t] (merge_value t).
Proof.
  intros Hr. constructor.
  - intros m a v E. unfold merge_value. cbn [fst snd]. now rewrite E.
  - intros m a f g E (t' & Ht' & Htouch) Hw. apply list_elem_of_singleton in Ht' as ->. specialize (Hw t ltac:(now left)).
    destruct Htouch as [?|[ds Hds]]; [done|]. unfold merge_value. cbn [fst snd]. rewrite E, !bytes_fn_length, Nat.eqb_refl.
    cbn [FactorIndex.assert mbind option_bind]. rewrite Hds. cbn [mbind option_bind].
    rewrite write_bytes_ok by now apply (elements_in_range t). cbn [mbind option_bind]. do 2 f_equal.
    apply bytes_fn_ext. intros i _. cbn. rewrite orb_false_r.
    assert (Hiff : i ∈ elements ds <-> covers t a i) by (rewrite element_covers, elem_of_elements by done; naive_solver).
    now rewrite (bool_decide_ext _ _ Hiff).
Qed.

Lemma merge_value_batch_ok P : Forall in_range P -> merges P (merge_value_batch P).
Proof.
  intros Hr. constructor.
  - intros m a v E. unfold merge_value_batch. cbn [fst snd]. now rewrite E.
  - intros m a f g E _ Hw. unfold merge_value_batch. cbn [fst snd]. rewrite E, !bytes_fn_length, Nat.eqb_refl.
    cbn [FactorIndex.assert mbind option_bind]. set (n := Z.to_nat (Expr.size a)).
    assert (H : forall f, foldM (fun vec it => match ie_elements it !! a with
        | Some ds => foldM (write_byte (bytes_fn g n)) vec (elements ds) | None => Some vec end) (bytes_fn f n) P =
      Some (bytes_fn (fun j => if part_covers P a j then g j else f j) n)).
    { clear E f. induction Hr as [|t P Hr HP IH]; intros f; cbn [foldM].
      - f_equal; now apply bytes_fn_ext.
      - specialize (Hw t ltac:(now left)) as Ht. specialize (IH ltac:(intros; apply Hw; now right)).
        assert (Hstep : (match ie_elements t !! a with
            | Some ds => foldM (write_byte (bytes_fn g n)) (bytes_fn f n) (elements ds) | None => Some (bytes_fn f n) end) =
          Some (bytes_fn (fun j => if bool_decide (covers t a j) then g j else f j) n)).
        { destruct (ie_elements t !! a) as [ds|] eqn:Eds.
          - rewrite write_bytes_ok by (intros; eapply elements_in_range; eauto). f_equal. apply bytes_fn_ext. intros i _.
            assert (Hiff : i ∈ elements ds <-> covers t a i) by (rewrite element_covers, elem_of_elements by done; naive_solver).
            now rewrite (bool_decide_ext _ _ Hiff).
          - f_equal. apply bytes_fn_ext. intros i _. rewrite bool_decide_false; [done|]. rewrite element_covers by done. naive_solver. }
        rewrite Hstep. cbn [mbind option_bind]. rewrite IH. f_equal. apply bytes_fn_ext. intros i _. cbn [part_covers existsb].
        fold (part_covers P a i). destruct (part_covers P a i), (bool_decide (covers t a i)); done. }
    rewrite H. done.
Qed.

(** ** Putting answers together *)

(** The parts solved so far have a common solution, whose bytes are the values
    collected for the arrays they refer to. *)
Record solved (done : list IndependentElementSet) (m : RetMap) (rho : valuation) : Prop := {
  sv_bytes : byte_contents rho;
  sv_models t : t ∈ done -> models rho (ie_exprs t);
  sv_values a v : m !! a = Some v -> v = bytes_of rho a;
  sv_arrays a : is_Some (m !! a) <-> exists t, t ∈ done /\ touches t a
}.

Lemma solved_nothing : solved [] ∅ (fun _ _ => 0).
Proof.
  constructor; [now intros|set_solver|intros a v; now rewrite lookup_empty|].
  intros a. rewrite lookup_empty. split; [intros [? ?]; done|]. set_solver.
Qed.

Section Merge.
Context (before P : list IndependentElementSet) (m : RetMap) (rho rho1 : valuation).
Context (Hs : solved before m rho) (H1 : byte_contents rho1) (HP1 : forall t, t ∈ P -> models rho1 (ie_exprs t)).
Context (Hok : forall t, t ∈ before ++ P -> ies_ok t /\ ies_wf t).
Context (Hdis : forall t t', t ∈ before -> t' ∈ P -> ~ overlap t t').
Context (merge : RetMap -> Array * list Z -> option RetMap) (Hm : merges P merge).

(** The bytes of the new part from its own solution, and arrays that are new. *)
Definition merged_contents : valuation := fun a i =>
  match m !! a with None => rho1 a i | Some _ => if part_covers P a i then rho1 a i else rho a i end.

Lemma merged_bytes : byte_contents merged_contents.
Proof. intros a i. unfold merged_contents. destruct (m !! a); [destruct (part_covers P a i)|]; first [apply H1|apply Hs]. Qed.

(** An array that has values already is not a whole object of the new part. *)
Lemma old_not_whole a t : is_Some (m !! a) -> t ∈ P -> a ∉ ie_wholeObjects t.
Proof.
  intros (t' & Ht' & Ha)%(sv_arrays _ _ _ Hs) Ht Hw. destruct (Hok t') as [_ W]; [set_solver|].
  apply touches_covers in Ha as [i Hi]; [|done]. apply (Hdis t' t Ht' Ht). exists a, i. split; [done|now left].
Qed.

Lemma merge_one m' a : m' !! a = m !! a -> (exists t, t ∈ P /\ touches t a) ->
  merge m' (a, bytes_of rho1 a) = Some (<[a := bytes_of merged_contents a]> m').
Proof.
  intros E Ha. destruct (m !! a) as [v|] eqn:Em.
  - pose proof (sv_values _ _ _ Hs a v Em) as Hv. rewrite Hv in E. rewrite !bytes_of_fn in *.
    rewrite (mg_old _ _ Hm m' a (rho a) (rho1 a) E Ha) by (intros t; apply old_not_whole; eauto). do 2 f_equal.
    apply bytes_fn_ext. intros i _. unfold merged_contents. now rewrite Em.
  - rewrite (mg_new _ _ Hm) by done. do 2 f_equal. rewrite !bytes_of_fn. apply bytes_fn_ext. intros i _. unfold merged_contents. now rewrite Em.
Qed.

Lemma merge_all l : NoDup l -> (forall a, a ∈ l -> exists t, t ∈ P /\ touches t a) ->
  exists m', foldM merge m (zip l (bytes_of rho1 <$> l)) = Some m' /\
    forall a, m' !! a = if decide (a ∈ l) then Some (bytes_of merged_contents a) else m !! a.
Proof.
  intros Hn Hl.
  assert (H : forall m0, (forall a, a ∈ l -> m0 !! a = m !! a) -> exists m', foldM merge m0 (zip l (bytes_of rho1 <$> l)) = Some m' /\
    forall a, m' !! a = if decide (a ∈ l) then Some (bytes_of merged_contents a) else m0 !! a).
  { induction Hn as [|a l Ha Hn IH]; intros m0 H0; cbn [zip_with fmap list_fmap foldM].
    - exists m0. split; [done|]. intros b. now rewrite decide_False by set_solver.
    - rewrite merge_one by (auto; set_solver). cbn [mbind option_bind].
      destruct (IH ltac:(set_solver) (<[a := bytes_of merged_contents a]> m0)) as (m' & E & Hm').
      { intros b Hb. rewrite lookup_insert_ne by set_solver. apply H0. set_solver. }
      exists m'. split; [done|]. intros b. rewrite Hm'. destruct (decide (b ∈ l)); [now rewrite decide_True by set_solver|].
      destruct (decide (b = a)) as [->|]; [rewrite decide_True by set_solver; apply lookup_insert_eq|].
      rewrite decide_False by set_solver. now apply lookup_insert_ne. }
  now apply H.
Qed.

Lemma merged_solved m' (l : list Array) : (forall a, a ∈ l <-> exists t, t ∈ P /\ touches t a) ->
  (forall a, m' !! a = if decide (a ∈ l) then Some (bytes_of merged_contents a) else m !! a) ->
  solved (before ++ P) m' merged_contents.
Proof.
  intros Hl Hm'. constructor.
  - apply merged_bytes.
  - intros t [Ht|Ht]%elem_of_app; (destruct (Hok t) as [Ok W]; [set_solver|]).
    + apply (models_agree t rho); [done| |now apply (sv_models _ _ _ Hs)]. intros a i Hc. unfold merged_contents.
      assert (Ha : is_Some (m !! a)) by (apply (sv_arrays _ _ _ Hs); exists t; split; [done|]; apply touches_covers; eauto).
      destruct Ha as [v ->]. destruct (part_covers P a i) eqn:E; [|done]. apply part_covers_true in E as (t' & Ht' & Hc').
      destruct (Hdis t t' Ht Ht'). now exists a, i.
    + apply (models_agree t rho1); [done| |now apply HP1]. intros a i Hc. unfold merged_contents.
      assert (E : part_covers P a i = true) by (apply part_covers_true; eauto). rewrite E. now destruct (m !! a).
  - intros a v. rewrite Hm'. destruct (decide (a ∈ l)) as [|Hn]; [now intros [= <-]|]. intros E. rewrite (sv_values _ _ _ Hs a v E).
    rewrite !bytes_of_fn. apply bytes_fn_ext. intros i _. unfold merged_contents. rewrite E.
    destruct (part_covers P a i) eqn:Ec; [|done]. apply part_covers_true in Ec as (t & Ht & Hc). destruct Hn. apply Hl.
    exists t. split; [done|]. destruct (Hok t) as [_ W]; [set_solver|]. apply touches_covers; eauto.
  - intros a. rewrite Hm'. setoid_rewrite elem_of_app. destruct (decide (a ∈ l)) as [Ha|Ha].
    + apply Hl in Ha as (t & Ht & Ha). split; [eauto|]. intros _. eauto.
    + rewrite (sv_arrays _ _ _ Hs). split; [naive_solver|]. intros (t & [Ht|Ht] & Hta); [eauto|]. destruct Ha. apply Hl. eauto.
Qed.

End Merge.

(** ** The loops *)

Lemma arrays_occur : forall e a, a ∈ arrays e -> exists re, occurs true e (read_expr re) /\ re_root re = a.
Proof.
  apply (Expr_mut (fun e => forall a, a ∈ arrays e -> exists re, occurs true e (read_expr re) /\ re_root re = a)
    (fun u => forall a, a ∈ un_arrays u -> exists x re, x ∈ un_exprs u /\ occurs true x (read_expr re) /\ re_root re = a));
    cbn [arrays un_arrays un_exprs]; intros; rewrite ?elem_of_cons, ?elem_of_app in *; try set_solver;
    destruct_or?; subst; try (match goal with
      | |- exists re, occurs _ (ReadExpr ?r ?h ?i) _ /\ re_root re = ?r => exists (mkRead r h i); split; [constructor|done]
      | IH : forall a, a ∈ arrays ?x -> _, H : _ ∈ arrays ?x |- exists re, _ => destruct (IH _ H) as (re & Hre & <-); exists re; split; [econstructor; [|exact Hre]; cbn; set_solver|done]
      | IH : forall a, a ∈ un_arrays ?x -> _, H : _ ∈ un_arrays ?x |- exists re, _ => destruct (IH _ H) as (x' & re & Hx & Hre & <-); exists re; split; [econstructor; [|exact Hre]; cbn; set_solver|done]
      | IH : forall a, a ∈ un_arrays ?x -> _, H : _ ∈ un_arrays ?x |- exists x re, _ => destruct (IH _ H) as (x' & re & Hx & Hre & <-); exists x', re; set_solver
      | IH : forall a, a ∈ arrays ?x -> _, H : _ ∈ arrays ?x |- exists x re, _ => destruct (IH _ H) as (re & Hre & <-); exists x, re; set_solver
      end).
Qed.

Section Loops.
Context `{A : APIntOps} {AS : APIntSpec A} `{Opts : ExprOptions} `{IOpts : IndependentOptions} (UseVisitorHash : bool) (U : list Array).
Context (q : Query) (Hq : independent_ctx U q).
Context (Ini : Query -> list Array -> Prop) (HIni : forall q objects, q_expr q = false_expr -> complete_objects q objects -> Ini q objects).
Context (F : Prop) {S : Type} (I : S -> Prop) (solver : SolverImpl S) {SS : SolverSpec U (plain U) Ini F I solver}.

Definition is_factor (t : IndependentElementSet) : Prop := exists p, fset (heap (query_factors q)) (indexer (query_factors q)) p t.

Lemma is_factor_ok t : is_factor t -> set_ok t /\ in_range t /\ component t /\ ies_ok t.
Proof. intros [p Hp]. now apply (factor_set_ok U q Hq p). Qed.

(** A factor has a byte, and factors with a common byte are the same. *)
Lemma is_factor_covers t : is_factor t -> exists a i, covers t a i.
Proof.
  intros [p Hp]. destruct (ie_exprs t) as [|e l] eqn:E; [now destruct (ic_nonempty _ _ Hq p t Hp)|].
  assert (He : e ∈ ie_exprs t) by (rewrite E; now left).
  pose proof (factor_exprs_elem U q Hq p t e Hp He) as HC.
  destruct (create_covers e (expr_ok_wf U _ (proj2 (constraint_ok U q Hq e HC)))) as (s & Es & _).
  destruct (ic_symbolic _ _ Hq e s HC Es) as (a & i & Hc). exists a, i.
  apply (co_covers _ (fo_component _ (ic_factors _ _ Hq) _ _ Hp)). eauto.
Qed.

Lemma is_factor_overlap t t' : is_factor t -> is_factor t' -> overlap t t' -> t = t'.
Proof.
  intros [p Hp] [p' Hp'] Ho. pose proof (query_factors_disjoint U q Hq p p' t t' Hp Hp' Ho) as <-. exact (fset_fun _ _ _ _ _ Hp Hp').
Qed.

(** The arrays of a factor occur in its constraints. *)
Lemma factor_arrays t a : is_factor t -> touches t a -> a ∈ U.
Proof.
  intros Ht Ha. destruct (is_factor_ok t Ht) as (Os & _ & Ct & _). apply touches_covers in Ha as [i Hc]; [|apply Os].
  apply (co_covers _ Ct) in Hc as (e & s & He & Es & Hc). destruct Ht as [p Hp].
  pose proof (constraint_ok U q Hq e (factor_exprs_elem U q Hq p t e Hp He)) as [_ Oe].
  destruct (create_covers e (expr_ok_wf U _ Oe)) as (s' & Es' & _ & _ & Hcov). rewrite Es in Es'. injection Es' as <-.
  apply Hcov in Hc as (re & Hre & -> & _). apply (eo_arrays _ _ Oe). apply (occurs_arrays true e _ Hre). cbn. now left.
Qed.

(** The symbolic arrays of a factor's constraints are the factor's. *)
Lemma factor_touches t e a : is_factor t -> e ∈ ie_exprs t -> a ∈ arrays e -> isConstantArray a = false -> touches t a.
Proof.
  intros Ht He Ha Hc. destruct (is_factor_ok t Ht) as (Os & _ & Ct & _). destruct Ht as [p Hp].
  pose proof (constraint_ok U q Hq e (factor_exprs_elem U q Hq p t e Hp He)) as [_ Oe].
  destruct (create_covers e (expr_ok_wf U _ Oe)) as (s & Es & _ & _ & Hcov).
  destruct (arrays_occur e a Ha) as (re & Hre & <-).
  assert (exists i, read_covers re (re_root re) i) as [i Hi].
  { exists (match re_index re with ConstantExpr c => u32 (getZExtValue c) | _ => 0 end). split; [done|]. split; [|now destruct (re_index re)].
    intros [Hc' _]. now rewrite Hc in Hc'. }
  apply touches_covers; [apply Os|]. exists i. apply (co_covers _ Ct). exists e, s. split_and!; [done..|]. apply Hcov. eauto.
Qed.

(** The outcome of a loop: a common solution of the parts, or no solution. *)
Definition parts_spec (parts : list IndependentElementSet) (r : option RetMap) : Prop :=
  match r with Some m => exists rho, solved parts m rho | None => ~ satisfiable (q_constraints q) end.

Lemma solve_part_ok before P m rho cs hint l merge :
  (forall t, t ∈ before ++ P -> is_factor t) -> NoDup (before ++ P) -> solved before m rho -> merges P merge ->
  NoDup cs -> (forall e, e ∈ cs <-> exists t, t ∈ P /\ e ∈ ie_exprs t) ->
  NoDup l -> (forall a, a ∈ l <-> exists t, t ∈ P /\ touches t a) ->
  spec F I (solve_part solver q cs hint l merge m) (parts_spec (before ++ P)).
Proof.
  intros Hf Hnd Hs Hm Hcs Hcs' Hl Hl'.
  assert (HC : forall e, e ∈ cs -> e ∈ q_constraints q).
  { intros e (t & Ht & He)%Hcs'. destruct (Hf t) as [p Hp]; [set_solver|]. exact (factor_exprs_elem U q Hq p t e Hp He). }
  eapply spec_bind.
  { apply (sp_initial (U:=U)).
    - split; [done|]. apply Forall_forall. intros e He. apply (constraint_ok U q Hq), HC, He.
    - apply HIni; [done|]. intros r r' _ _ Hrr e [->|He]; [done|]. apply eval_ext_symbolic. intros a Ha Hc i _. apply Hrr, Hl'.
      apply Hcs' in He as (t & Ht & Het). exists t. split; [done|]. apply (factor_touches t e); [apply Hf; set_solver|done..].
    - apply false_bool_ok.
    - intros a (t & Ht & Ha)%Hl'. apply (factor_arrays t); [apply Hf; set_solver|done]. }
  intros [values|] Hv.
  - destruct Hv as (rho1 & [[Hb1 Hm1] _] & ->). cbn in Hm1.
    eapply spec_bind; [apply spec_assume; rewrite length_fmap; apply Nat.eqb_refl|]. intros _ _.
    assert (HP1 : forall t, t ∈ P -> models rho1 (ie_exprs t)).
    { intros t Ht. unfold models in *. rewrite Forall_forall in *. intros e He. apply Hm1, Hcs'. eauto. }
    assert (Hok : forall t, t ∈ before ++ P -> ies_ok t /\ ies_wf t).
    { intros t Ht. destruct (is_factor_ok t (Hf t Ht)) as (Os & _ & _ & Ok). split; [done|apply Os]. }
    assert (Hdis : forall t t', t ∈ before -> t' ∈ P -> ~ overlap t t').
    { intros t t' Ht Ht' Ho. apply NoDup_app in Hnd as (_ & Hnd & _). apply (Hnd t Ht).
      rewrite (is_factor_overlap t t'); [done|apply Hf; set_solver..|done]. }
    destruct (merge_all before P m rho rho1 Hs Hb1 HP1 Hok Hdis merge Hm l Hl) as (m' & E & Hm'); [intros a; apply Hl'|].
    eapply (spec_bind _ _ _ _ (fun x => x = m')); [eapply spec_pure; [now rewrite E|done]|]. intros ? ->. apply spec_ret.
    exists (merged_contents P m rho rho1). now apply (merged_solved before P m rho rho1 Hs Hb1 HP1 Hok Hdis merge Hm m' l).
  - apply spec_ret. intros [rho' [Hb Hm']]. apply (Hv rho'). split; [|done]. split; [done|]. cbn. unfold models in *.
    rewrite Forall_forall in *. intros e He. auto.
Qed.

Lemma per_factor_ok sets : forall before m rho, (forall t, t ∈ before ++ sets -> is_factor t) -> NoDup (before ++ sets) ->
  solved before m rho -> spec F I (per_factor_loop solver q sets m) (parts_spec (before ++ sets)).
Proof.
  induction sets as [|t sets IH]; intros before m rho Hf Hnd Hs; cbn [per_factor_loop].
  { apply spec_ret. rewrite app_nil_r. now exists rho. }
  assert (Ht : is_factor t) by (apply Hf; set_solver). destruct (is_factor_ok t Ht) as (Os & Rt & _ & _).
  eapply spec_bind.
  { apply spec_assume, Nat.leb_le. destruct Ht as [p Hp]. pose proof (ic_nonempty _ _ Hq p t Hp). destruct (ie_exprs t); [done|cbn; lia]. }
  intros _ _. assert (Hl : forall a, a ∈ elements (calculateArrayReferences t) <-> exists t', t' ∈ [t] /\ touches t' a).
  { intros a. rewrite elem_of_elements, calculateArrayReferences_elem. setoid_rewrite list_elem_of_singleton. naive_solver. }
  pose proof (NoDup_elements (calculateArrayReferences t)) as Hn.
  rewrite (cons_middle t before sets), app_assoc in Hf, Hnd |- *.
  assert (H : spec F I (r ← solve_part solver q (ie_exprs t) t (elements (calculateArrayReferences t)) (merge_value t) m;
      match r with None => mret None | Some m => per_factor_loop solver q sets m end) (parts_spec ((before ++ [t]) ++ sets))).
  { eapply spec_bind.
    - apply (solve_part_ok before [t] m rho); [intros; apply Hf; set_solver|apply NoDup_app in Hnd; tauto|done|now apply merge_value_ok|
        apply Os| |done|done]. intros e. setoid_rewrite list_elem_of_singleton. naive_solver.
    - intros [m'|] Hr; [|now apply spec_ret]. destruct Hr as [rho' Hr]. now apply (IH (before ++ [t]) m' rho'). }
  destruct (elements (calculateArrayReferences t)) as [|a l] eqn:E; [|exact H].
  destruct (is_factor_covers t Ht) as (a & i & Hc). 
  assert (Hin : a ∈ ([] : list Array)) by (apply Hl; exists t; split; [now left|]; apply touches_covers; [apply Os|eauto]).
  now apply not_elem_of_nil in Hin.
Qed.

(** *** Batches *)

Lemma split_parts_join sets : forall current n, mjoin (split_parts sets current n) = current ++ sets.
Proof.
  induction sets as [|t sets IH]; intros current n; cbn [split_parts].
  - rewrite app_nil_r. destruct current; [done|]. cbn. now rewrite app_nil_r.
  - case_match; [cbn; now rewrite IH|]. rewrite IH. now rewrite <- app_assoc.
Qed.

Lemma part_asserts_ok P : Forall is_factor P -> forall X, part_asserts P X = true.
Proof.
  induction 1 as [|t P Ht HP IH]; intros X; cbn [part_asserts]; [done|]. rewrite IH, andb_true_r. apply andb_true_iff. split.
  - apply Nat.leb_le. destruct Ht as [p Hp]. pose proof (ic_nonempty _ _ Hq p t Hp). destruct (ie_exprs t); [done|cbn; lia].
  - apply bool_decide_eq_true. destruct (is_factor_covers t Ht) as (a & i & Hc). destruct (is_factor_ok t Ht) as (Os & _).
    assert (a ∈ calculateArrayReferences t) by (apply calculateArrayReferences_elem, touches_covers; [apply Os|eauto]). set_solver.
Qed.

Lemma batch_ok parts : forall before m rho, (forall t, t ∈ before ++ mjoin parts -> is_factor t) -> NoDup (before ++ mjoin parts) ->
  solved before m rho -> spec F I (batch_loop solver q parts m) (parts_spec (before ++ mjoin parts)).
Proof.
  induction parts as [|P parts IH]; intros before m rho Hf Hnd Hs; cbn [batch_loop].
  { apply spec_ret. cbn. rewrite app_nil_r. now exists rho. }
  cbn [mjoin list_join] in *. rewrite app_assoc in Hf, Hnd |- *.
  assert (HP : Forall is_factor P) by (apply Forall_forall; intros; apply Hf; set_solver).
  assert (Hok : forall t, t ∈ P -> set_ok t /\ in_range t /\ component t /\ ies_ok t).
  { intros t Ht. rewrite Forall_forall in HP. now apply is_factor_ok, HP. }
  eapply spec_bind; [apply spec_assume, part_asserts_ok, HP|]. intros _ _. cbv zeta.
  destruct (factor_list_wf U q Hq P) as (Os & Wj & Hj); [intros t Ht; rewrite Forall_forall in HP; now apply HP|].
  destruct (insert_exprs_spec (mjoin (ie_exprs <$> P)) []) as [Hreq Hn]; [constructor|done|constructor|].
  eapply spec_bind.
  - apply (solve_part_ok before P m rho).
    + intros; apply Hf; set_solver.
    + apply NoDup_app in Hnd. tauto.
    + done.
    + apply merge_value_batch_ok, Forall_forall. intros t Ht. apply (Hok t Ht).
    + done.
    + intros e. rewrite Hreq, Hj. set_solver.
    + apply NoDup_elements.
    + intros a. rewrite elem_of_elements, elem_of_union_list. setoid_rewrite list_elem_of_fmap. split.
      * intros (X & (t & -> & Ht) & Ha). exists t. split; [done|]. now apply calculateArrayReferences_elem.
      * intros (t & Ht & Ha). exists (calculateArrayReferences t). split; [eauto|]. now apply calculateArrayReferences_elem.
  - intros [m'|] Hr; [|now apply spec_ret]. destruct Hr as [rho' Hr]. now apply (IH (before ++ P) m' rho').
Qed.

End Loops.

(** ** The factors of the query *)

Section QueryFactors.
Context `{A : APIntOps} {AS : APIntSpec A} `{Opts : ExprOptions} (U : list Array) (q : Query) (Hq : independent_ctx U q).

Lemma deref_nodup ps sets : NoDup ps -> (forall p, p ∈ ps -> exists t, fset (heap (query_factors q)) (indexer (query_factors q)) p t) ->
  deref (query_factors q) ps = Done sets -> NoDup sets.
Proof.
  intros Hn Hps E. unfold deref in E. destruct (mapM _ ps) as [l|] eqn:Em; [|done]. injection E as <-. apply mapM_Some_1 in Em.
  apply NoDup_alt. intros i j t Hi Hj.
  destruct (Forall2_lookup_r _ _ _ _ _ Em Hi) as (p & Hp & Ep). destruct (Forall2_lookup_r _ _ _ _ _ Em Hj) as (p' & Hp' & Ep').
  rewrite NoDup_alt in Hn. apply (Hn i j p Hp). rewrite Hp'. f_equal.
  assert (Hf : forall p, p ∈ ps -> heap (query_factors q) !! p = Some t -> fset (heap (query_factors q)) (indexer (query_factors q)) p t).
  { intros r Hr Er. destruct (Hps r Hr) as (t' & Ht'). split; [apply Ht'|done]. }
  apply list_elem_of_lookup_2 in Hp, Hp'. specialize (Hf p Hp Ep) as H1. specialize (Hf p' Hp' Ep') as H2.
  destruct (is_factor_covers U q Hq t) as (a & i' & Hc); [now exists p|].
  symmetry. apply (query_factors_disjoint U q Hq p p' t t H1 H2). now exists a, i'.
Qed.

Lemma factors_of_query_ok : exists ps sets, factors_of_query q = Done ps /\ deref (query_factors q) ps = Done sets /\
  NoDup sets /\ forall t, t ∈ sets <-> is_factor q t.
Proof.
  pose proof (fo_exact _ (ic_factors _ _ Hq)) as Hx.
  assert (H : exists ps, factors_of_query q = Done ps /\ NoDup ps /\ forall p, p ∈ ps <-> p ∈ factors (indexer (query_factors q))).
  { unfold factors_of_query. destruct (q_all q).
    - eexists. split_and!; [done|apply NoDup_elements|]. intros p. apply elem_of_elements.
    - unfold getRelatedIndependentElementSets. pose proof (related_loop (query_factors q) (q_constraints q) ∅) as Hr.
      destruct (foldM _ _ _) as [out|].
      + cbn. eexists. split_and!; [done|apply NoDup_elements|]. intros p. rewrite elem_of_elements, Hr. split.
        * intros [?|(e & He & Hp)]; [set_solver|]. apply (fo_rep _ (ic_factors _ _ Hq)) in Hp as (s & [? _] & _); [done|].
          apply (ic_all _ _ Hq e), He.
        * intros Hp. right. destruct (ex_heap _ _ Hx p Hp) as (s & Es & _). assert (Hs : fset (heap (query_factors q)) (indexer (query_factors q)) p s) by done.
          pose proof (ic_nonempty _ _ Hq p s Hs) as Hne. destruct (ie_exprs s) as [|e l] eqn:El; [done|].
          assert (He : e ∈ ie_exprs s) by (rewrite El; now left). pose proof (factor_exprs_elem U q Hq p s e Hs He) as HC.
          exists e. split; [done|]. apply (fo_rep _ (ic_factors _ _ Hq)); [apply (ic_all _ _ Hq e), HC|]. eauto.
      + destruct Hr as (e & He & Hm). destruct Hm. apply (ic_all _ _ Hq e), He. }
  destruct H as (ps & E & Hn & Hps). exists ps.
  assert (Hf : forall p, p ∈ ps -> exists t, fset (heap (query_factors q)) (indexer (query_factors q)) p t).
  { intros p Hp%Hps. destruct (ex_heap _ _ Hx p Hp) as (s & Es & _). now exists s. }
  destruct (deref_ok q ps Hf) as (sets & Ed & Hsets). exists sets. split_and!; [done|done|now apply (deref_nodup ps)|].
  intros t. rewrite Hsets. unfold is_factor. split; [naive_solver|]. intros [p Hp]. exists p. split; [apply Hps, Hp|done].
Qed.

End QueryFactors.

(** ** The values of the objects *)

Section Final.
Context `{A : APIntOps} {AS : APIntSpec A} `{Opts : ExprOptions} `{IOpts : IndependentOptions} (UseVisitorHash : bool) (U : list Array).

(** Arrays without an answer are zero. *)
Definition final_contents (m : RetMap) (rho : valuation) : valuation := fun a i =>
  match m !! a with Some _ => rho a i | None => 0 end.

Lemma final_bytes m rho : byte_contents rho -> byte_contents (final_contents m rho).
Proof. intros H a i. unfold final_contents. destruct (m !! a); [apply H|lia]. Qed.

Lemma final_values m rho sets objects : solved sets m rho -> object_values m objects = bytes_of (final_contents m rho) <$> objects.
Proof.
  intros Hs. unfold object_values. apply list_fmap_ext. intros _ a _. rewrite bytes_of_fn. destruct (m !! a) as [v|] eqn:E; cbn.
  - rewrite (sv_values _ _ _ Hs a v E), bytes_of_fn. apply bytes_fn_ext. intros i _. unfold final_contents. now rewrite E.
  - apply list_eq. intros i. destruct (decide (i < Z.to_nat (Expr.size a))%nat).
    + rewrite lookup_replicate_2, bytes_fn_lookup by done. unfold final_contents. now rewrite E.
    + rewrite !lookup_ge_None_2; [done|rewrite bytes_fn_length; lia|rewrite length_replicate; lia].
Qed.

Context (q : Query) (Hq : independent_ctx U q).

Lemma final_satisfies m rho sets : (forall t, t ∈ sets <-> is_factor q t) -> solved sets m rho ->
  satisfies (final_contents m rho) (q_constraints q).
Proof.
  intros Hsets Hs. split; [apply final_bytes, Hs|]. unfold models. apply Forall_forall. intros e He.
  destruct (constraint_factor U q Hq e He) as (p & t & Ht & Het). destruct (factor_set_ok U q Hq p t Ht) as (Os & _ & _ & Ok).
  assert (Hin : t ∈ sets) by (apply Hsets; now exists p). pose proof (sv_models _ _ _ Hs t Hin) as Hm. unfold models in Hm.
  rewrite Forall_forall in Hm. rewrite <- (Hm e Het). apply (Ok e); [done|]. intros a i Hc. unfold final_contents.
  destruct (proj2 (sv_arrays _ _ _ Hs a)) as [v ->]; [|done]. exists t. split; [done|]. apply touches_covers; [apply Os|eauto].
Qed.

(** The bindings of the assert are bytes of one contents. *)
Lemma created_assignment m rho sets objects : solved sets m rho ->
  describes (mkAssignment true (bindings (Assignment_create objects (bytes_of (final_contents m rho) <$> objects) true) ++ map_to_list m))
    (final_contents m rho).
Proof.
  intros Hs array values Hin. cbn in Hin. apply elem_of_app in Hin as [Hin|Hin].
  - rewrite zip_with_fmap_r in Hin. apply elem_of_lookup_zip_with in Hin as (i & a & b & [= -> ->] & Ha & Hb). congruence.
  - apply elem_of_map_to_list in Hin. rewrite (sv_values _ _ _ Hs array values Hin), !bytes_of_fn. apply bytes_fn_ext.
    intros i _. unfold final_contents. now rewrite Hin.
Qed.

Lemma no_constraint_false_ok assign rho cs : agrees rho assign -> bytes_ok assign = true -> models rho cs ->
  Forall (bool_ok U) cs -> no_constraint_false UseVisitorHash assign cs = Done true.
Proof.
  intros Hag Hby Hm Hok. induction cs as [|c cs IH]; [done|]. cbn [no_constraint_false].
  apply Forall_cons in Hok as [Oc Hok]. apply Forall_cons in Hm as [Hc Hm].
  destruct (evaluate_partial UseVisitorHash U rho assign c _ Hag Hby (proj2 Oc) Hc) as (r & -> & Er). cbn [or_fuel mbind outcome_bind].
  replace (Expr_isFalse r) with false; [now apply IH|]. destruct r; try done. apply eval_const_inv in Er as [<- _].
  cbn [Expr_isFalse]. now rewrite isFalse_spec.
Qed.

(** The assert at the end holds. *)
Lemma created_point_ok m rho sets objects : q_expr q = false_expr -> (forall t, t ∈ sets <-> is_factor q t) -> solved sets m rho ->
  assertCreatedPointEvaluatesToTrue UseVisitorHash q objects (object_values m objects) m = Done true.
Proof.
  intros Ee Hsets Hs. pose proof (final_satisfies m rho sets Hsets Hs) as [Hb Hm]. unfold assertCreatedPointEvaluatesToTrue.
  rewrite (final_values m rho sets objects Hs). cbv zeta. pose proof (created_assignment m rho sets objects Hs) as Hd.
  rewrite (no_constraint_false_ok _ (final_contents m rho));
    [|now apply describes_agrees|now apply (describes_bytes_ok _ (final_contents m rho))|done|apply (ic_constraints _ _ Hq)].
  cbn [mbind outcome_bind negb]. rewrite Ee, isZero_false.
  rewrite evaluate_constant. cbn [or_fuel mbind outcome_bind]. now rewrite isTrue_one.
Qed.

End Final.

(** ** The solver *)

Section Correct.
Context `{A : APIntOps} {AS : APIntSpec A} `{Opts : ExprOptions} `{IOpts : IndependentOptions} (UseVisitorHash : bool) (U : list Array).
Context (Ini : Query -> list Array -> Prop) (HIni : forall q objects, q_expr q = false_expr -> complete_objects q objects -> Ini q objects).
Context (F : Prop) {S : Type} (I : S -> Prop) (solver : SolverImpl S) {SS : SolverSpec U (plain U) Ini F I solver}.

(** The loops of both modes, over all factors. *)
Lemma loops_ok q sets : independent_ctx U q -> NoDup sets -> (forall t, t ∈ sets <-> is_factor q t) ->
  spec F I (match UseIndependentSolverType with
    | PER_FACTOR => per_factor_loop solver q sets ∅
    | BATCH =>
      _ ← assume (forallb (fun s => (1 <=? length (ie_exprs s))%nat) sets);
      batch_loop solver q (split_parts sets [] 0) ∅
    end) (parts_spec q sets).
Proof.
  intros Hq Hnd Hsets. destruct UseIndependentSolverType.
  - apply (per_factor_ok U q Hq Ini HIni F I solver sets [] ∅ (fun _ _ => 0)); [apply Hsets|done|apply solved_nothing].
  - eapply spec_bind.
    { apply spec_assume, forallb_forall. intros t Ht%list_elem_of_In. apply Hsets in Ht as [p Hp]. apply Nat.leb_le.
      pose proof (ic_nonempty _ _ Hq p t Hp). destruct (ie_exprs t); [done|cbn; lia]. }
    intros _ _. pose proof (split_parts_join sets [] 0) as Ej. cbn in Ej.
    pose proof (batch_ok U q Hq Ini HIni F I solver (split_parts sets [] 0) [] ∅ (fun _ _ => 0)) as Hb. cbn [app] in Hb. rewrite Ej in Hb.
    apply Hb; [apply Hsets|done|apply solved_nothing].
Qed.

Lemma Independent_computeInitialValues_ok q objects : independent_ctx U q -> q_expr q = false_expr ->
  spec F I (Independent_computeInitialValues UseVisitorHash solver q objects) (initial_spec q objects).
Proof.
  intros Hq Ee. destruct (factors_of_query_ok U q Hq) as (ps & sets & Ep & Ed & Hnd & Hsets).
  eapply (spec_bind _ _ _ _ (eq ps)); [now apply (spec_pure _ _ _ ps)|]. intros ? <-.
  eapply (spec_bind _ _ _ _ (eq sets)); [now apply (spec_pure _ _ _ sets)|]. intros ? <-.
  eapply spec_bind; [now apply loops_ok|]. intros [m|] Hm; cbn [parts_spec] in Hm.
  - destruct Hm as [rho Hs]. cbv zeta. eapply (spec_bind _ _ _ _ (eq true)).
    { eapply spec_pure; [|done]. now apply (created_point_ok UseVisitorHash U q Hq m rho sets). }
    intros ? <-. eapply spec_bind; [now apply spec_assume|]. intros _ _. apply spec_ret. exists (final_contents m rho).
    split; [|now apply (final_values m rho sets)]. split; [now apply (final_satisfies U q Hq m rho sets)|now rewrite Ee].
  - apply spec_ret. intros rho [Hsat _]. apply Hm. now exists rho.
Qed.

(** A query on the required constraints. *)
Lemma required_ok {X} q (m : Query -> SolverM S X) (P : Query -> X -> Prop) : independent_ctx U q -> expr_ok U (q_expr q) ->
  (forall r, required_spec q r -> spec F I (m (required_query q r)) (P (required_query q r))) ->
  (forall r x, required_spec q r -> P (required_query q r) x -> P q x) ->
  spec F I (r ← pure (getIndependentConstraints q); m (required_query q r)) (P q).
Proof.
  intros Hq He Hm HP. destruct (getIndependentConstraints_ok U q Hq He) as (r & Er & Hr).
  eapply (spec_bind _ _ _ _ (eq r)); [now apply (spec_pure _ _ _ r)|]. intros ? <-. eapply spec_mono; [apply Hm, Hr|]. eauto.
Qed.

Lemma IndependentSolver_spec :
  SolverSpec U (independent_ctx U) (fun q _ => q_expr q = false_expr) F I (IndependentSolver UseVisitorHash solver).
Proof.
  constructor.
  - intros q Hq [Hw He] Hs. apply required_ok; [done..| |].
    + intros r Hr. apply (sp_validity (U:=U)); [now apply required_plain|done|now apply (required_satisfiable q Hs r)].
    + intros r x Hr. now apply (required_validity U q Hq Hs r Hr).
  - intros q Hq [Hw He] Hs. apply required_ok; [done..| |].
    + intros r Hr. apply (sp_truth (U:=U)); [now apply required_plain|done|now apply (required_satisfiable q Hs r)].
    + intros r x Hr. now apply (required_truth U q Hq Hs r Hr).
  - intros q Hq He Hs. apply required_ok; [done..| |].
    + intros r Hr. apply (sp_value (U:=U)); [now apply required_plain|done|now apply (required_satisfiable q Hs r)].
    + intros r x Hr. now apply (required_value U q Hq Hs r Hr).
  - intros q objects Hq Ee _ _. now apply Independent_computeInitialValues_ok.
Qed.


End Correct.

(** ** The queries on a new manager *)

Section Created.
Context `{A : APIntOps} {AS : APIntSpec A} (U : list Array).

Definition no_empty_factor (F : Factors) : bool :=
  forallb (fun x : ptr * IndependentElementSet => match ie_exprs x.2 with [] => false | _ => true end) (map_to_list (heap F)).

Lemma created_context es cm e : constraints_ok U es -> ConstraintManager'create es = Some cm -> no_empty_factor (cm_factors cm) = true ->
  (forall x s, x ∈ es -> IndependentElementSet'create x = Some s -> exists a i, covers s a i) ->
  independent_ctx U (Query'create cm e).
Proof.
  intros [Hn Hok] E Hne Hsy. unfold ConstraintManager'create in E.
  assert (Hwf : Forall (fun e => wf_consts e = true /\ in_bounds e) es).
  { eapply Forall_impl; [exact Hok|]. intros x [_ Hx]. split; [now apply (expr_ok_wf U)|now apply (expr_ok_in_bounds U)]. }
  destruct (factors_of_ok es Hn Hwf) as (F & EF & HF & Hm). rewrite EF in E. injection E as <-. constructor; cbn.
  - done.
  - done.
  - intros x. unfold known. rewrite Forall_forall in Hwf. split.
    + intros Hx. destruct (Hwf x Hx). split; [done|]. now apply Hm.
    + intros [Hx Hx']. now apply Hm.
  - intros p s [_ Hp] E. cbn in Hne. unfold no_empty_factor in Hne. rewrite forallb_forall in Hne.
    specialize (Hne (p, s)). cbn in Hne. rewrite E in Hne. apply diff_false_true, Hne, list_elem_of_In, elem_of_map_to_list, Hp.
  - exact Hsy.
Qed.
End Created.

(** ** Witness *)

Definition cell_manager : ConstraintManager := default empty_manager (ConstraintManager'create (A:=apint_ref) [cell_is_small]).
Definition per_factor : IndependentOptions := {| UseIndependentSolverType := PER_FACTOR; ExprNumThreshold := 1 |}.

Lemma cell_manager_ok e : independent_ctx (A:=apint_ref) [cell] (Query'create cell_manager e).
Proof.
  apply (created_context (A:=apint_ref) (AS:=apint_ref_spec) [cell] [cell_is_small]).
  - exact (cell_query_ok false_expr).
  - vm_compute. reflexivity.
  - vm_compute. reflexivity.
  - intros x s ->%list_elem_of_singleton Es. destruct (create_covers (A:=apint_ref) (AS:=apint_ref_spec) cell_is_small eq_refl) as (s' & Es' & _ & _ & Hc).
    rewrite Es in Es'. injection Es' as <-. exists cell, 0. apply Hc. exists (mkRead cell un_null (const 32 0)).
    split; [|now split]. eapply occurs_operand; [|apply occurs_refl]. cbn. now left.
Qed.

Definition independent_run :=
  computeInitialValues (IndependentSolver (A:=apint_ref) (Opts:=no_const_array_opt) (IOpts:=per_factor) true byte_solver)
    (Query'create cell_manager false_expr) [cell] tt.

