(* ===== verification/BitBounds.v ===== *)
(** * Bounds of the bitwise operators

    src/lib/Solver/FastCexSolver.cpp, the functions [minOR], [maxOR], [minAND]
    and [maxAND] (Hacker's Delight): the bounds of the bitwise operators on two
    ranges of 64-bit words. *)
From S2P Require Import Prelude Bits.

(** [x & m] as a condition, for [m = 1 << k]. *)
Definition masked (x : Z) (k : nat) : bool := negb (Z.land x (2 ^ Z.of_nat k) =? 0).

(** The loops, with [m = 1 << k'] in the iteration for [S k'] *)
Fixpoint minOR_loop (k : nat) (a b c d : Z) : Z :=
  match k with
  | O => Z.lor a c
  | S k' =>
    let m := 2 ^ Z.of_nat k' in
    if masked (Z.land (Z.lnot a) c) k' then
      let temp := Z.land (Z.lor a m) (- m) in
      if temp <=? b then Z.lor temp c else minOR_loop k' a b c d
    else if masked (Z.land a (Z.lnot c)) k' then
      let temp := Z.land (Z.lor c m) (- m) in
      if temp <=? d then Z.lor a temp else minOR_loop k' a b c d
    else minOR_loop k' a b c d
  end.
Definition minOR : Z -> Z -> Z -> Z -> Z := minOR_loop 64.

Fixpoint maxOR_loop (k : nat) (a b c d : Z) : Z :=
  match k with
  | O => Z.lor b d
  | S k' =>
    let m := 2 ^ Z.of_nat k' in
    if masked (Z.land b d) k' then
      let temp := Z.lor (b - m) (m - 1) in
      if a <=? temp then Z.lor temp d
      else
        let temp := Z.lor (d - m) (m - 1) in
        if c <=? temp then Z.lor b temp else maxOR_loop k' a b c d
    else maxOR_loop k' a b c d
  end.
Definition maxOR : Z -> Z -> Z -> Z -> Z := maxOR_loop 64.

Fixpoint minAND_loop (k : nat) (a b c d : Z) : Z :=
  match k with
  | O => Z.land a c
  | S k' =>
    let m := 2 ^ Z.of_nat k' in
    if masked (Z.land (Z.lnot a) (Z.lnot c)) k' then
      let temp := Z.land (Z.lor a m) (- m) in
      if temp <=? b then Z.land temp c
      else
        let temp := Z.land (Z.lor c m) (- m) in
        if temp <=? d then Z.land a temp else minAND_loop k' a b c d
    else minAND_loop k' a b c d
  end.
Definition minAND : Z -> Z -> Z -> Z -> Z := minAND_loop 64.

Fixpoint maxAND_loop (k : nat) (a b c d : Z) : Z :=
  match k with
  | O => Z.land b d
  | S k' =>
    let m := 2 ^ Z.of_nat k' in
    if masked (Z.land b (Z.lnot d)) k' then
      let temp := Z.lor (Z.land b (Z.lnot m)) (m - 1) in
      if a <=? temp then Z.land temp d else maxAND_loop k' a b c d
    else if masked (Z.land (Z.lnot b) d) k' then
      let temp := Z.lor (Z.land d (Z.lnot m)) (m - 1) in
      if c <=? temp then Z.land b temp else maxAND_loop k' a b c d
    else maxAND_loop k' a b c d
  end.
Definition maxAND : Z -> Z -> Z -> Z -> Z := maxAND_loop 64.

(** *** Prefixes

    [x / 2 ^ k] are the bits of [x] from [k] on. *)

Section Prefix.
Context (k : nat).
Notation p := (2 ^ Z.of_nat k).

Lemma p_pos : 0 < p.
Proof. apply BV.pow2_pos. lia. Qed.

Lemma masked_odd x : masked x k = Z.odd (x / p).
Proof.
  unfold masked. rewrite <- Z.bit0_odd, BV.testbit_div by lia. rewrite Z.add_0_l.
  destruct (Z.testbit x (Z.of_nat k)) eqn:E.
  - apply negb_true_iff, Z.eqb_neq. intros H. assert (Ht : Z.testbit (Z.land x p) (Z.of_nat k) = false) by (rewrite H; apply Z.bits_0).
    rewrite Z.land_spec, E, Z.pow2_bits_true in Ht by lia. done.
  - apply negb_false_iff, Z.eqb_eq, Z.bits_inj'. intros j Hj. rewrite Z.land_spec, Z.bits_0.
    destruct (Z.eq_dec (Z.of_nat k) j) as [<-|Hn]; [now rewrite E|]. rewrite Z.pow2_bits_false by done. apply andb_false_r.
Qed.

Lemma masked_land x y : masked (Z.land x y) k = Z.odd (x / p) && Z.odd (y / p).
Proof. rewrite masked_odd, <- !Z.bit0_odd, !BV.testbit_div, Z.land_spec by lia. done. Qed.

Lemma odd_lnot x : Z.odd (Z.lnot x / p) = negb (Z.odd (x / p)).
Proof. rewrite <- !Z.bit0_odd, !BV.testbit_div, Z.lnot_spec by lia. done. Qed.

Lemma lor_prefix x y : Z.lor x y / p = Z.lor (x / p) (y / p).
Proof. rewrite <- !Z.shiftr_div_pow2 by lia. apply Z.shiftr_lor. Qed.
Lemma land_prefix x y : Z.land x y / p = Z.land (x / p) (y / p).
Proof. rewrite <- !Z.shiftr_div_pow2 by lia. apply Z.shiftr_land. Qed.

Lemma clear_low x : Z.land x (- p) = p * (x / p).
Proof.
  replace (- p) with (Z.lnot (Z.ones (Z.of_nat k))) by (unfold Z.lnot; rewrite Z.ones_equiv; lia).
  rewrite <- Z.ldiff_land, Z.ldiff_ones_r by lia. rewrite Z.shiftl_mul_pow2, Z.shiftr_div_pow2 by lia. lia.
Qed.

Lemma set_low x : Z.lor x (p - 1) = p * (x / p) + (p - 1).
Proof.
  pose proof p_pos. rewrite (Z_div_mod_eq_full x p) at 1. pose proof (Z.mod_pos_bound x p p_pos).
  apply Z.bits_inj'. intros j Hj. rewrite Z.lor_spec, !testbit_shifted by lia. replace (p - 1) with (Z.ones (Z.of_nat k)) by (rewrite Z.ones_equiv; lia).
  destruct (Z.ltb_spec j (Z.of_nat k)).
  - rewrite Z.ones_spec_low by lia. apply orb_true_r.
  - rewrite Z.ones_spec_high by lia. apply orb_false_r.
Qed.

Lemma div2_odd x : x = 2 * (x / 2) + Z.b2z (Z.odd x).
Proof. pose proof (Z.div2_odd x) as H. now rewrite Z.div2_div in H. Qed.

(** The least value from [a] on whose bit [k] is set, when [a]'s is not. *)
Lemma raised a : Z.odd (a / p) = false -> Z.land (Z.lor a p) (- p) = p * (a / p + 1).
Proof.
  intros Ho. rewrite clear_low, lor_prefix, Z.div_same by (pose proof p_pos; lia). f_equal.
  rewrite (div2_odd (a / p)), Ho. cbn [Z.b2z]. rewrite Z.add_0_r. apply Z.bits_inj'. intros j Hj. rewrite Z.lor_spec.
  destruct (Z.eq_dec j 0) as [->|Hn]; [now rewrite Z.testbit_even_0, Z.testbit_odd_0|].
  replace j with (Z.succ (j - 1)) by lia. rewrite Z.testbit_even_succ, Z.testbit_odd_succ by lia.
  rewrite (Z.pow2_bits_false 0) by lia. apply orb_false_r.
Qed.

(** The greatest value up to [b] whose bit [k] is not set, when [b]'s is. *)
Lemma lowered b : Z.odd (b / p) = true -> Z.lor (b - p) (p - 1) = p * (b / p) - 1.
Proof.
  intros Ho. rewrite set_low. replace (b - p) with (b + (-1) * p) by lia. rewrite Z.div_add by (pose proof p_pos; lia). lia.
Qed.

Lemma lowered' b : Z.odd (b / p) = true -> Z.lor (Z.land b (Z.lnot p)) (p - 1) = p * (b / p) - 1.
Proof.
  intros Ho. rewrite <- (lowered b Ho), !set_low. do 2 f_equal.
  replace (b - p) with (b + (-1) * p) by lia. rewrite Z.div_add by (pose proof p_pos; lia). rewrite land_prefix.
  apply Z.bits_inj'. intros j Hj. rewrite Z.land_spec. replace (Z.lnot p / p) with (Z.lnot 1).
  2: { apply Z.bits_inj'. intros i Hi. rewrite BV.testbit_div, !Z.lnot_spec by lia. f_equal.
       destruct (Z.eq_dec i 0) as [->|Hn]; [rewrite Z.pow2_bits_true by lia; done|].
       rewrite (Z.pow2_bits_false (Z.of_nat k)) by lia. apply (Z.pow2_bits_false 0). lia. }
  rewrite Z.lnot_spec by done. rewrite (div2_odd (b / p)), Ho. cbn [Z.b2z]. replace (2 * (b / p / 2) + 1 + -1) with (2 * (b / p / 2)) by lia.
  destruct (Z.eq_dec j 0) as [->|Hn]; [now rewrite Z.testbit_even_0, Z.testbit_odd_0|].
  rewrite (Z.pow2_bits_false 0) by lia. rewrite andb_true_r. replace j with (Z.succ (j - 1)) by lia.
  now rewrite Z.testbit_even_succ, Z.testbit_odd_succ by lia.
Qed.

End Prefix.

Lemma div_step k x : x / 2 ^ Z.of_nat (S k) = x / 2 ^ Z.of_nat k / 2.
Proof. rewrite Nat2Z.inj_succ, Z.pow_succ_r, Z.mul_comm, <- Z.div_div by (pose proof (p_pos k); lia). done. Qed.

Lemma lor_half x y : Z.lor x y = 2 * Z.lor (x / 2) (y / 2) + Z.b2z (Z.odd x || Z.odd y).
Proof.
  rewrite (div2_odd (Z.lor x y)) at 1. f_equal.
  - f_equal. exact (lor_prefix 1 x y).
  - now rewrite <- !Z.bit0_odd, Z.lor_spec.
Qed.

Lemma lor_ge x y : 0 <= x -> 0 <= y -> y <= Z.lor x y.
Proof.
  intros Hx Hy. apply (Z.ldiff_le y (Z.lor x y)); [now apply Z.lor_nonneg|]. apply Z.bits_inj'. intros j Hj.
  rewrite Z.ldiff_spec, Z.lor_spec, Z.bits_0. destruct (Z.testbit x j), (Z.testbit y j); done.
Qed.

Section Bounds.
Context (k : nat).
Notation p := (2 ^ Z.of_nat k).

Lemma lor_mod x y : Z.lor x y mod p = Z.lor (x mod p) (y mod p).
Proof.
  rewrite <- !Z.land_ones by lia. apply Z.bits_inj'. intros j Hj. rewrite !Z.land_spec, !Z.lor_spec, !Z.land_spec.
  destruct (Z.testbit x j), (Z.testbit y j), (Z.testbit (Z.ones _) j); done.
Qed.

Lemma le_prefix u v : u / p < v / p \/ u / p = v / p /\ u mod p <= v mod p -> u <= v.
Proof.
  pose proof (p_pos k) as Hp. pose proof (Z_div_mod_eq_full u p). pose proof (Z_div_mod_eq_full v p).
  pose proof (Z.mod_pos_bound u p Hp). pose proof (Z.mod_pos_bound v p Hp). intros [H'|[H' H'']]; nia.
Qed.

Lemma prefix_mono u v : u <= v -> u / p <= v / p.
Proof. apply Z.div_le_mono, p_pos. Qed.

Lemma mod_mono u v : u <= v -> u / p = v / p -> u mod p <= v mod p.
Proof. pose proof (Z_div_mod_eq_full u p). pose proof (Z_div_mod_eq_full v p). nia. Qed.

Lemma raised_prefix x r : 0 <= r < p -> (p * x + r) / p = x /\ (p * x + r) mod p = r.
Proof.
  intros Hr. pose proof (p_pos k). replace (p * x + r) with (r + x * p) by lia. rewrite Z.div_add, Z.div_small, Z.mod_add, Z.mod_small by lia. lia.
Qed.

End Bounds.

(** A value of the operation is the least (the greatest) on two ranges. *)
Definition least (op : Z -> Z -> Z) (a b c d r : Z) : Prop :=
  (exists x y, a <= x <= b /\ c <= y <= d /\ r = op x y) /\ forall x y, a <= x <= b -> c <= y <= d -> r <= op x y.
Definition greatest (op : Z -> Z -> Z) (a b c d r : Z) : Prop :=
  (exists x y, a <= x <= b /\ c <= y <= d /\ r = op x y) /\ forall x y, a <= x <= b -> c <= y <= d -> op x y <= r.

(** *** minOR *)

Lemma minOR_sym k : forall a b c d, minOR_loop k a b c d = minOR_loop k c d a b.
Proof.
  induction k as [|k IH]; intros a b c d; cbn [minOR_loop]; [apply Z.lor_comm|].
  rewrite !masked_land, !odd_lnot. rewrite (Z.lor_comm a (Z.land _ _)), (Z.lor_comm (Z.land _ _) c), !(IH c d a b).
  destruct (Z.odd (a / _)), (Z.odd (c / _)); cbn; done.
Qed.

(** Up to bit [k], no pair of values has a smaller prefix than [a | c], and only
    those with the prefixes of [a] and [c] have the same. *)
Definition low_prefix (k : nat) (a b c d : Z) : Prop := forall x y, a <= x <= b -> c <= y <= d ->
  (x / 2 ^ Z.of_nat k = a / 2 ^ Z.of_nat k /\ y / 2 ^ Z.of_nat k = c / 2 ^ Z.of_nat k) \/
  Z.lor a c / 2 ^ Z.of_nat k < Z.lor x y / 2 ^ Z.of_nat k.

Lemma half_le X A : X / 2 = A / 2 -> A <= X -> X = A \/ Z.odd A = false /\ X = A + 1.
Proof. intros H Hle. pose proof (div2_odd X). pose proof (div2_odd A). destruct (Z.odd X), (Z.odd A); cbn in *; lia. Qed.

Lemma odd_next A : Z.odd A = false -> Z.odd (A + 1) = true.
Proof. intros H. now rewrite Z.add_1_r, Z.odd_succ, <- Z.negb_odd, H. Qed.

Lemma half_succ A : Z.odd A = false -> (A + 1) / 2 = A / 2.
Proof. intros H. pose proof (div2_odd A) as E. rewrite H in E. cbn in E. rewrite E at 1. symmetry. apply (Z.div_unique_pos _ _ _ 1); lia. Qed.

Lemma odd_half X A : X / 2 = A / 2 -> X = A + Z.b2z (Z.odd X) - Z.b2z (Z.odd A).
Proof. intros H. pose proof (div2_odd X). pose proof (div2_odd A). lia. Qed.

Section MinOR.
Context (k : nat).
Notation p := (2 ^ Z.of_nat k).

(** Raising [a] at bit [k], where [c] has a one. *)
Lemma minOR_raise a b c d : 0 <= a <= b -> 0 <= c <= d -> low_prefix (S k) a b c d ->
  Z.odd (a / p) = false -> Z.odd (c / p) = true ->
  let temp := p * (a / p + 1) in
  if temp <=? b then least Z.lor a b c d (Z.lor temp c) else low_prefix k a b c d.
Proof.
  intros Ha Hc Hlow Oa Oc temp. pose proof (p_pos k) as Hp.
  pose proof (Z_div_mod_eq_full a p) as Ea. pose proof (Z.mod_pos_bound a p Hp).
  assert (Hpre : forall x y, a <= x <= b -> c <= y <= d -> (x / p = a / p \/ x / p = a / p + 1 /\ temp <= x) /\ y / p = c / p \/ Z.lor a c / p < Z.lor x y / p).
  { intros x y Hx Hy. destruct (Hlow x y Hx Hy) as [[H1 H2]|Hs]; rewrite !div_step in *.
    - pose proof (prefix_mono k a x ltac:(lia)). pose proof (prefix_mono k c y ltac:(lia)).
      left. destruct (half_le _ _ H1) as [|[_ Hx1]]; [done| |]; (destruct (half_le _ _ H2) as [|[Hc' _]]; [done| |congruence]); split; auto.
      right. split; [done|]. pose proof (Z_div_mod_eq_full x p). pose proof (Z.mod_pos_bound x p Hp). subst temp. nia.
    - right. rewrite !lor_prefix in *. pose proof (div2_odd (Z.lor (a / p) (c / p))). pose proof (div2_odd (Z.lor (x / p) (y / p))).
      unfold Z.b2z in *. repeat case_match; lia. }
  assert (Hsame : forall X Y, X / 2 = a / p / 2 -> Y = c / p -> Z.lor X Y = Z.lor (a / p) (c / p)).
  { intros X Y HX ->. rewrite !(lor_half _ (c / p)), HX, Oc, !orb_true_r. done. }
  destruct (Z.leb_spec temp b) as [Hb|Hb].
  - assert (Htp : temp / p = a / p + 1 /\ temp mod p = 0) by (subst temp; rewrite <- (Z.add_0_r (p * _)); apply (raised_prefix k); lia).
    destruct Htp as [Htp Htm]. split; [exists temp, c; split_and!; subst temp; lia|].
    assert (Hr1 : Z.lor temp c / p = Z.lor (a / p) (c / p)).
    { rewrite lor_prefix. apply Hsame; [|done]. rewrite Htp. now apply half_succ. }
    assert (Hr2 : Z.lor temp c mod p = c mod p) by (rewrite lor_mod; now rewrite Htm, Z.lor_0_l).
    intros x y Hx Hy. apply (le_prefix k). rewrite Hr1, Hr2. destruct (Hpre x y Hx Hy) as [[HX HY]|Hs].
    + right. rewrite lor_prefix. split.
      * symmetry. apply Hsame; [|done]. destruct HX as [->|[-> _]]; [done|]. now apply half_succ.
      * rewrite lor_mod. pose proof (mod_mono k c y ltac:(lia) ltac:(done)) as Hm.
        pose proof (lor_ge (x mod p) (y mod p) ltac:(apply Z.mod_pos_bound; lia) ltac:(apply Z.mod_pos_bound; lia)). lia.
    + left. rewrite lor_prefix in Hs at 1. lia.
  - intros x y Hx Hy. destruct (Hpre x y Hx Hy) as [[[HX|[_ HX]] HY]|Hs]; [left; done|lia|right; done].
Qed.

End MinOR.

Lemma strict_step k u v : u / 2 ^ Z.of_nat (S k) < v / 2 ^ Z.of_nat (S k) -> u / 2 ^ Z.of_nat k < v / 2 ^ Z.of_nat k.
Proof.
  rewrite !div_step. pose proof (div2_odd (u / 2 ^ Z.of_nat k)). pose proof (div2_odd (v / 2 ^ Z.of_nat k)).
  unfold Z.b2z in *. repeat case_match; lia.
Qed.

Lemma low_prefix_same k a b c d : low_prefix (S k) a b c d -> Z.odd (a / 2 ^ Z.of_nat k) = Z.odd (c / 2 ^ Z.of_nat k) -> low_prefix k a b c d.
Proof.
  intros Hlow Hodd x y Hx Hy. destruct (Hlow x y Hx Hy) as [[H1 H2]|Hs]; [|right; now apply strict_step].
  rewrite !div_step in H1, H2. pose proof (prefix_mono k a x ltac:(lia)) as Mx. pose proof (prefix_mono k c y ltac:(lia)) as My.
  destruct (half_le _ _ H1 Mx) as [HX|[Oa HX]], (half_le _ _ H2 My) as [HY|[Oc HY]]; [left; done|..]; right; rewrite !lor_prefix;
    rewrite (lor_half (x / _)), (lor_half (a / _)), H1, H2, HX, HY.
  - rewrite (odd_next _ Oc), Hodd, Oc, orb_true_r. cbn. lia.
  - rewrite (odd_next _ Oa), <- Hodd, Oa. cbn. lia.
  - rewrite (odd_next _ Oa), Oa, Oc. cbn. lia.
Qed.

Lemma minOR_loop_least k : forall a b c d, 0 <= a <= b -> 0 <= c <= d -> low_prefix k a b c d -> least Z.lor a b c d (minOR_loop k a b c d).
Proof.
  induction k as [|k IH]; intros a b c d Ha Hc Hlow; cbn [minOR_loop].
  - split; [exists a, c; split_and!; [lia..|done]|]. intros x y Hx Hy. destruct (Hlow x y Hx Hy) as [[H1 H2]|H]; rewrite !Z.div_1_r in *; [subst; lia|lia].
  - rewrite !masked_land, !odd_lnot. destruct (Z.odd (a / _)) eqn:Oa, (Z.odd (c / _)) eqn:Oc; cbn [andb negb].
    + apply IH; [done..|]. apply low_prefix_same; [done|congruence].
    + rewrite raised by done. assert (Hsym : low_prefix (S k) c d a b).
      { intros x y Hx Hy. rewrite (Z.lor_comm c), (Z.lor_comm x). destruct (Hlow y x Hy Hx); tauto. }
      pose proof (minOR_raise k c d a b Hc Ha Hsym Oc Oa) as H. cbv zeta in H. destruct (_ <=? d).
      * destruct H as [(x & y & Hx & Hy & E) Hle]. rewrite (Z.lor_comm a). split.
        -- exists y, x. rewrite (Z.lor_comm y). done.
        -- intros x' y' Hx' Hy'. rewrite (Z.lor_comm x'). auto.
      * apply IH; [done..|]. intros x y Hx Hy. rewrite (Z.lor_comm a), (Z.lor_comm x). destruct (H y x Hy Hx); tauto.
    + rewrite raised by done. pose proof (minOR_raise k a b c d Ha Hc Hlow Oa Oc) as H. cbv zeta in H. destruct (_ <=? b); [done|]. now apply IH.
    + apply IH; [done..|]. apply low_prefix_same; [done|congruence].
Qed.

(** *** maxOR *)

Definition high_prefix (k : nat) (a b c d : Z) : Prop := forall x y, a <= x <= b -> c <= y <= d ->
  (x / 2 ^ Z.of_nat k = b / 2 ^ Z.of_nat k /\ y / 2 ^ Z.of_nat k = d / 2 ^ Z.of_nat k) \/
  Z.lor x y / 2 ^ Z.of_nat k < Z.lor b d / 2 ^ Z.of_nat k.

Lemma half_ge X B : X / 2 = B / 2 -> X <= B -> X = B \/ Z.odd B = true /\ X = B - 1 /\ Z.odd X = false.
Proof. intros H Hle. pose proof (div2_odd X). pose proof (div2_odd B). destruct (Z.odd X), (Z.odd B); cbn in *; lia. Qed.

(** Lowering [b] at bit [k], where [d] has a one, makes all bits below ones. *)
Lemma maxOR_lower k a b c d : 0 <= a <= b -> 0 <= c <= d -> high_prefix (S k) a b c d ->
  Z.odd (b / 2 ^ Z.of_nat k) = true -> Z.odd (d / 2 ^ Z.of_nat k) = true ->
  let temp := 2 ^ Z.of_nat k * (b / 2 ^ Z.of_nat k) - 1 in
  a <= temp -> greatest Z.lor a b c d (Z.lor temp d).
Proof.
  intros Ha Hc Hhigh Ob Od temp Ht. pose proof (p_pos k) as Hp.
  pose proof (Z_div_mod_eq_full b (2 ^ Z.of_nat k)) as Eb. pose proof (Z.mod_pos_bound b _ Hp).
  split; [exists temp, d; split_and!; subst temp; lia|]. intros x y Hx Hy.
  assert (Htp : temp / 2 ^ Z.of_nat k = b / 2 ^ Z.of_nat k - 1 /\ temp mod 2 ^ Z.of_nat k = 2 ^ Z.of_nat k - 1).
  { replace temp with (2 ^ Z.of_nat k * (b / 2 ^ Z.of_nat k - 1) + (2 ^ Z.of_nat k - 1)) by (subst temp; lia). apply raised_prefix. lia. }
  destruct Htp as [Htp Htm].
  assert (Hr : Z.lor temp d / 2 ^ Z.of_nat k = Z.lor (b / 2 ^ Z.of_nat k) (d / 2 ^ Z.of_nat k)).
  { rewrite lor_prefix, !(lor_half _ (d / _)), Od, !orb_true_r, Htp. do 3 f_equal.
    rewrite <- (half_succ (b / 2 ^ Z.of_nat k - 1)); [f_equal; lia|]. now rewrite Z.sub_1_r, Z.odd_pred, <- Z.negb_odd, Ob. }
  apply (le_prefix k). rewrite Hr. pose proof (div2_odd (Z.lor x y / 2 ^ Z.of_nat k)) as E1.
  assert (Hm : Z.lor x y mod 2 ^ Z.of_nat k <= Z.lor temp d mod 2 ^ Z.of_nat k).
  { rewrite (lor_mod k temp), Htm. pose proof (Z.mod_pos_bound (Z.lor x y) _ Hp).
    pose proof (lor_ge (d mod 2 ^ Z.of_nat k) (2 ^ Z.of_nat k - 1) ltac:(apply Z.mod_pos_bound; lia) ltac:(lia)). rewrite (Z.lor_comm (2 ^ Z.of_nat k - 1)). lia. }
  destruct (Hhigh x y Hx Hy) as [[H1 H2]|Hs].
  - rewrite !div_step in H1, H2. rewrite lor_prefix, (lor_half (x / _)), (lor_half (b / _)), H1, H2, Od, orb_true_r.
    destruct (Z.odd (x / _) || Z.odd (y / _)); cbn; [right; split; [lia|done]|left; lia].
  - apply strict_step in Hs. rewrite (lor_prefix k b d) in Hs. lia.
Qed.

Lemma greatest_sym op a b c d r : (forall x y, op x y = op y x) -> greatest op a b c d r -> greatest op c d a b r.
Proof.
  intros Hop [(x & y & Hx & Hy & E) Hle]. split.
  - exists y, x. rewrite Hop. done.
  - intros x' y' Hx' Hy'. rewrite Hop. auto.
Qed.

Lemma high_prefix_sym k a b c d : high_prefix k a b c d -> high_prefix k c d a b.
Proof. intros H x y Hx Hy. rewrite (Z.lor_comm x), (Z.lor_comm d). destruct (H y x Hy Hx); tauto. Qed.

Lemma maxOR_loop_greatest k : forall a b c d, 0 <= a <= b -> 0 <= c <= d -> high_prefix k a b c d -> greatest Z.lor a b c d (maxOR_loop k a b c d).
Proof.
  induction k as [|k IH]; intros a b c d Ha Hc Hhigh; cbn [maxOR_loop].
  - split; [exists b, d; split_and!; [lia..|done]|]. intros x y Hx Hy. destruct (Hhigh x y Hx Hy) as [[H1 H2]|H]; rewrite !Z.div_1_r in *; [subst; lia|lia].
  - assert (Hnext : (Z.odd (b / 2 ^ Z.of_nat k) = true -> Z.odd (d / 2 ^ Z.of_nat k) = true ->
      2 ^ Z.of_nat k * (b / 2 ^ Z.of_nat k) - 1 < a /\ 2 ^ Z.of_nat k * (d / 2 ^ Z.of_nat k) - 1 < c) -> high_prefix k a b c d).
    { intros Hno x y Hx Hy. destruct (Hhigh x y Hx Hy) as [[H1 H2]|Hs]; [|right; now apply strict_step]. rewrite !div_step in H1, H2.
      pose proof (prefix_mono k x b ltac:(lia)) as Mx. pose proof (prefix_mono k y d ltac:(lia)) as My.
      pose proof (p_pos k) as Hp. pose proof (Z_div_mod_eq_full x (2 ^ Z.of_nat k)). pose proof (Z.mod_pos_bound x _ Hp).
      pose proof (Z_div_mod_eq_full y (2 ^ Z.of_nat k)). pose proof (Z.mod_pos_bound y _ Hp).
      rewrite !lor_prefix, (lor_half (x / _)), (lor_half (b / _)), H1, H2.
      destruct (half_ge _ _ H1 Mx) as [HX|(Ob & HX & Ox)], (half_ge _ _ H2 My) as [HY|(Od & HY & Oy)]; [left; done|..].
      - destruct (Z.odd (b / _)) eqn:Ob; [destruct (Hno eq_refl Od); nia|]. right. rewrite HX, Ob, Oy, Od. cbn. lia.
      - destruct (Z.odd (d / _)) eqn:Od; [destruct (Hno Ob eq_refl); nia|]. right. rewrite HY, Od, Ox, Ob. cbn. lia.
      - destruct (Hno Ob Od). nia. }
    rewrite !masked_land. destruct (Z.odd (b / _)) eqn:Ob, (Z.odd (d / _)) eqn:Od; cbn [andb]; [|apply IH; [done..|now apply Hnext]..].
    rewrite !lowered by done. destruct (Z.leb_spec a (2 ^ Z.of_nat k * (b / 2 ^ Z.of_nat k) - 1)) as [H1|H1]; [now apply maxOR_lower|].
    destruct (Z.leb_spec c (2 ^ Z.of_nat k * (d / 2 ^ Z.of_nat k) - 1)) as [H2|H2].
    + rewrite Z.lor_comm. apply greatest_sym; [apply Z.lor_comm|]. apply maxOR_lower; [done|done|now apply high_prefix_sym|done..].
    + apply IH; [done..|]. now apply Hnext.
Qed.

(** *** The conjunctions, by complement *)

Section Complement.
Context (n : nat).
Definition compl (x : Z) : Z := 2 ^ Z.of_nat n - 1 - x.

Lemma compl_lnot x : compl x = Z.lnot x + 2 ^ Z.of_nat n.
Proof. unfold compl, Z.lnot. lia. Qed.

Lemma compl_lor x y : 0 <= x < 2 ^ Z.of_nat n -> 0 <= y < 2 ^ Z.of_nat n -> compl (Z.land x y) = Z.lor (compl x) (compl y).
Proof.
  intros Hx Hy. pose proof (BV.land_range (Z.of_nat n) x y ltac:(lia) Hx Hy) as Hl. pose proof (p_pos n).
  assert (Hc : forall z, 0 <= z < 2 ^ Z.of_nat n -> 0 <= compl z < 2 ^ Z.of_nat n) by (unfold compl; intros; lia).
  assert (Hbit : forall z j, 0 <= z < 2 ^ Z.of_nat n -> 0 <= j -> Z.testbit (compl z) j = (j <? Z.of_nat n) && negb (Z.testbit z j)).
  { intros z j Hz Hj. destruct (Z.ltb_spec j (Z.of_nat n)) as [Hjn|Hjn]; cbn.
    - rewrite compl_lnot, <- (Z.mod_pow2_bits_low _ (Z.of_nat n) j) by lia. rewrite <- (Z.mul_1_l (2 ^ Z.of_nat n)) at 1.
      rewrite Z.mod_add, Z.mod_pow2_bits_low, Z.lnot_spec by lia. done.
    - apply (BV.testbit_high (Z.of_nat n)); [lia|now apply Hc|done]. }
  apply Z.bits_inj'. intros j Hj. rewrite Z.lor_spec, !Hbit, Z.land_spec by done.
  destruct (j <? Z.of_nat n), (Z.testbit x j), (Z.testbit y j); done.
Qed.

Lemma compl_prefix k x : (k <= n)%nat -> compl x / 2 ^ Z.of_nat k = 2 ^ Z.of_nat (n - k) - 1 - x / 2 ^ Z.of_nat k.
Proof.
  intros Hk. pose proof (p_pos k). unfold compl. replace (2 ^ Z.of_nat n) with (2 ^ Z.of_nat (n - k) * 2 ^ Z.of_nat k)
    by (rewrite <- Z.pow_add_r by lia; f_equal; lia).
  pose proof (Z_div_mod_eq_full x (2 ^ Z.of_nat k)). pose proof (Z.mod_pos_bound x (2 ^ Z.of_nat k) ltac:(lia)).
  symmetry. apply (Z.div_unique_pos _ _ _ (2 ^ Z.of_nat k - 1 - x mod 2 ^ Z.of_nat k)); lia.
Qed.

Lemma compl_odd k x : (k < n)%nat -> Z.odd (compl x / 2 ^ Z.of_nat k) = negb (Z.odd (x / 2 ^ Z.of_nat k)).
Proof.
  intros Hk. rewrite compl_prefix by lia. replace (n - k)%nat with (S (n - k - 1)) by lia. rewrite Nat2Z.inj_succ, Z.pow_succ_r by lia.
  rewrite !Z.odd_sub, Z.odd_mul. cbn. now destruct (Z.odd _).
Qed.

(** Raising is lowering of the complement. *)
Lemma compl_raised k x : (k <= n)%nat ->
  compl (2 ^ Z.of_nat k * (x / 2 ^ Z.of_nat k + 1)) = 2 ^ Z.of_nat k * (compl x / 2 ^ Z.of_nat k) - 1.
Proof.
  intros Hk. rewrite compl_prefix by done. unfold compl. replace (2 ^ Z.of_nat n) with (2 ^ Z.of_nat k * 2 ^ Z.of_nat (n - k))
    by (rewrite <- Z.pow_add_r by lia; f_equal; lia). lia.
Qed.
Lemma compl_lowered k x : (k <= n)%nat ->
  compl (2 ^ Z.of_nat k * (x / 2 ^ Z.of_nat k) - 1) = 2 ^ Z.of_nat k * (compl x / 2 ^ Z.of_nat k + 1).
Proof.
  intros Hk. rewrite compl_prefix by done. unfold compl. replace (2 ^ Z.of_nat n) with (2 ^ Z.of_nat k * 2 ^ Z.of_nat (n - k))
    by (rewrite <- Z.pow_add_r by lia; f_equal; lia). lia.
Qed.

Lemma raised_bound k a b : 0 <= a -> b < 2 ^ Z.of_nat n -> 2 ^ Z.of_nat k * (a / 2 ^ Z.of_nat k + 1) <= b -> 0 <= 2 ^ Z.of_nat k * (a / 2 ^ Z.of_nat k + 1) < 2 ^ Z.of_nat n.
Proof. intros. pose proof (p_pos k). pose proof (Z.div_pos a _ ltac:(lia) (p_pos k)). nia. Qed.

Lemma minAND_compl k : (k <= n)%nat -> forall a b c d, 0 <= a <= b -> b < 2 ^ Z.of_nat n -> 0 <= c <= d -> d < 2 ^ Z.of_nat n ->
  compl (minAND_loop k a b c d) = maxOR_loop k (compl b) (compl a) (compl d) (compl c).
Proof.
  induction k as [|k IH]; intros Hk a b c d Ha Hb Hc Hd; cbn [minAND_loop maxOR_loop]; [apply compl_lor; lia|].
  rewrite !masked_land, !odd_lnot, !compl_odd by lia. destruct (Z.odd (a / _)) eqn:Oa, (Z.odd (c / _)) eqn:Oc; cbn [andb negb]; [apply IH; lia..|].
  rewrite !raised, !lowered by (rewrite ?compl_odd, ?Oa, ?Oc by lia; done).
  rewrite <- !compl_raised by lia. set (t := _ * (a / _ + 1)). set (u := _ * (c / _ + 1)).
  replace (compl b <=? compl t) with (t <=? b) by (unfold compl; destruct (Z.leb_spec t b), (Z.leb_spec (2 ^ Z.of_nat n - 1 - b) (2 ^ Z.of_nat n - 1 - t)); lia).
  replace (compl d <=? compl u) with (u <=? d) by (unfold compl; destruct (Z.leb_spec u d), (Z.leb_spec (2 ^ Z.of_nat n - 1 - d) (2 ^ Z.of_nat n - 1 - u)); lia).
  destruct (Z.leb_spec t b) as [Ht|Ht]; [apply compl_lor; [now apply (raised_bound k a b); lia|lia]|].
  destruct (Z.leb_spec u d) as [Hu|Hu]; [apply compl_lor; [lia|now apply (raised_bound k c d); lia]|]. apply IH; lia.
Qed.

Lemma lowered_bound k a b : 0 <= a -> b < 2 ^ Z.of_nat n -> a <= 2 ^ Z.of_nat k * (b / 2 ^ Z.of_nat k) - 1 -> 0 <= 2 ^ Z.of_nat k * (b / 2 ^ Z.of_nat k) - 1 < 2 ^ Z.of_nat n.
Proof. intros. pose proof (p_pos k). pose proof (Z_div_mod_eq_full b (2 ^ Z.of_nat k)). pose proof (Z.mod_pos_bound b _ (p_pos k)). lia. Qed.

Lemma maxAND_compl k : (k <= n)%nat -> forall a b c d, 0 <= a <= b -> b < 2 ^ Z.of_nat n -> 0 <= c <= d -> d < 2 ^ Z.of_nat n ->
  compl (maxAND_loop k a b c d) = minOR_loop k (compl b) (compl a) (compl d) (compl c).
Proof.
  induction k as [|k IH]; intros Hk a b c d Ha Hb Hc Hd; cbn [maxAND_loop minOR_loop]; [apply compl_lor; lia|].
  rewrite !masked_land, !odd_lnot, !compl_odd, !negb_involutive by lia.
  destruct (Z.odd (b / _)) eqn:Ob, (Z.odd (d / _)) eqn:Od; cbn [andb negb]; [apply IH; lia| | |apply IH; lia].
  - rewrite lowered', raised by (rewrite ?compl_odd, ?Ob by lia; done). rewrite <- compl_lowered by lia. set (t := _ * (b / _) - 1).
    replace (compl t <=? compl a) with (a <=? t) by (unfold compl; destruct (Z.leb_spec a t), (Z.leb_spec (2 ^ Z.of_nat n - 1 - t) (2 ^ Z.of_nat n - 1 - a)); lia).
    destruct (Z.leb_spec a t) as [Ht|Ht]; [apply compl_lor; [now apply (lowered_bound k a b); lia|lia]|]. apply IH; lia.
  - rewrite lowered', raised by (rewrite ?compl_odd, ?Od by lia; done). rewrite <- compl_lowered by lia. set (t := _ * (d / _) - 1).
    replace (compl t <=? compl c) with (c <=? t) by (unfold compl; destruct (Z.leb_spec c t), (Z.leb_spec (2 ^ Z.of_nat n - 1 - t) (2 ^ Z.of_nat n - 1 - c)); lia).
    destruct (Z.leb_spec c t) as [Ht|Ht]; [apply compl_lor; [lia|now apply (lowered_bound k c d); lia]|]. apply IH; lia.
Qed.

Lemma compl_involutive x : compl (compl x) = x.
Proof. unfold compl. lia. Qed.

Lemma compl_least a b c d r : 0 <= a -> b < 2 ^ Z.of_nat n -> 0 <= c -> d < 2 ^ Z.of_nat n ->
  greatest Z.lor (compl b) (compl a) (compl d) (compl c) (compl r) -> least Z.land a b c d r.
Proof.
  intros Ha Hb Hc Hd [(x & y & Hx & Hy & E) Hle]. split.
  - exists (compl x), (compl y). unfold compl in Hx, Hy. split_and!; [unfold compl; lia..|].
    apply (f_equal compl) in E. rewrite compl_involutive in E. rewrite E. rewrite <- (compl_involutive (Z.land _ _)), compl_lor by (unfold compl; lia).
    now rewrite !compl_involutive.
  - intros x' y' Hx' Hy'. specialize (Hle (compl x') (compl y')). rewrite <- compl_lor in Hle by lia. unfold compl in Hle. lia.
Qed.
Lemma compl_greatest a b c d r : 0 <= a -> b < 2 ^ Z.of_nat n -> 0 <= c -> d < 2 ^ Z.of_nat n ->
  least Z.lor (compl b) (compl a) (compl d) (compl c) (compl r) -> greatest Z.land a b c d r.
Proof.
  intros Ha Hb Hc Hd [(x & y & Hx & Hy & E) Hle]. split.
  - exists (compl x), (compl y). unfold compl in Hx, Hy. split_and!; [unfold compl; lia..|].
    apply (f_equal compl) in E. rewrite compl_involutive in E. rewrite E. rewrite <- (compl_involutive (Z.land _ _)), compl_lor by (unfold compl; lia).
    now rewrite !compl_involutive.
  - intros x' y' Hx' Hy'. specialize (Hle (compl x') (compl y')). rewrite <- compl_lor in Hle by lia. unfold compl in Hle. lia.
Qed.

End Complement.

Lemma or_bounds n a b c d : 0 <= a <= b -> b < 2 ^ Z.of_nat n -> 0 <= c <= d -> d < 2 ^ Z.of_nat n ->
  least Z.lor a b c d (minOR_loop n a b c d) /\ greatest Z.lor a b c d (maxOR_loop n a b c d).
Proof.
  intros Ha Hb Hc Hd. split.
  - apply minOR_loop_least; [done..|]. intros x y Hx Hy. left. rewrite !Z.div_small by lia. done.
  - apply maxOR_loop_greatest; [done..|]. intros x y Hx Hy. left. rewrite !Z.div_small by lia. done.
Qed.

Lemma and_bounds n a b c d : 0 <= a <= b -> b < 2 ^ Z.of_nat n -> 0 <= c <= d -> d < 2 ^ Z.of_nat n ->
  least Z.land a b c d (minAND_loop n a b c d) /\ greatest Z.land a b c d (maxAND_loop n a b c d).
Proof.
  intros Ha Hb Hc Hd. destruct (or_bounds n (compl n b) (compl n a) (compl n d) (compl n c)) as [H3 H4]; [unfold compl; lia..|]. split.
  - apply (compl_least n); [lia..|]. now rewrite (minAND_compl n).
  - apply (compl_greatest n); [lia..|]. now rewrite (maxAND_compl n).
Qed.

(** [minOR], [maxOR], [minAND] and [maxAND] return exactly the least and the
    greatest value of the bitwise operators on two ranges of 64-bit words: a
    bound for all pairs of values, reached by one of them. *)
Theorem bitwise_bounds (a b c d : Z) : 0 <= a <= b -> b < 2 ^ 64 -> 0 <= c <= d -> d < 2 ^ 64 ->
  least Z.lor a b c d (minOR a b c d) /\ greatest Z.lor a b c d (maxOR a b c d) /\
  least Z.land a b c d (minAND a b c d) /\ greatest Z.land a b c d (maxAND a b c d).
Proof.
  intros Ha Hb Hc Hd. destruct (or_bounds 64 a b c d Ha Hb Hc Hd) as [H1 H2]. destruct (and_bounds 64 a b c d Ha Hb Hc Hd) as [H3 H4].
  split; [exact H1|]. split; [exact H2|]. split; [exact H3|exact H4].
Qed.

Lemma bitwise_bounds_witness : minOR 5 6 9 12 = 13 /\ least Z.lor 5 6 9 12 13.
Proof.
  assert (E : minOR 5 6 9 12 = 13) by (vm_compute; reflexivity). split; [exact E|].
  rewrite <- E. apply (bitwise_bounds 5 6 9 12); lia.
Defined.
