(* ===== verification/IntEvaluation.v ===== *)
(** * Integers of at most 64 bits in machine words

    src/include/klee/Internal/Support/IntEvaluation.h, the namespace [ints]: the
    operators of [Expr] on [uint64_t] words whose invalid bits are 0.  [Abort] is
    a failing assert of Bits.h and what C++ leaves undefined (a division by
    zero or with an overflow, a shift by 64 or more). *)
From S2P Require Import Prelude APInt Bits.

(** The conversions between [uint64_t] and [int64_t]. *)
Notation int64 x := (BV.signed 64 x).
Notation uint64 x := (BV.wrap 64 x).

(** [bits64::truncateToNBits] with its assert *)
Definition truncate (x N : Z) : outcome Z := _ ← check ((0 <? N) && (N <=? 64)); Done (truncateToNBits 64 x N).

Module ints.

Definition trunc (l outWidth inWidth : Z) : outcome Z := truncate l outWidth.
Definition zext (l outWidth inWidth : Z) : outcome Z := Done l.
Definition sext (l outWidth inWidth : Z) : outcome Z :=
  let numInvalidBits := 64 - inWidth in
  _ ← check ((0 <=? numInvalidBits) && (numInvalidBits <? 64));
  truncate (uint64 (Z.shiftr (int64 (uint64 (Z.shiftl l numInvalidBits))) numInvalidBits)) outWidth.

(** The signed operands. *)
Definition sext2 (l r inWidth : Z) : outcome (Z * Z) :=
  sl ← sext l 64 inWidth; sr ← sext r 64 inWidth; Done (int64 sl, int64 sr).

(** [int64_t] division is undefined when the quotient does not fit. *)
Definition div_defined (sl sr : Z) : bool := negb (sr =? 0) && negb ((sl =? - 2 ^ 63) && (sr =? -1)).

(** [add] .. [lxor] *)
Definition arith (k : ArithKind) (l r inWidth : Z) : outcome Z :=
  match k with
  | Add => truncate (uint64 (l + r)) inWidth
  | Sub => truncate (uint64 (l - r)) inWidth
  | Mul => truncate (uint64 (l * r)) inWidth
  | UDiv => _ ← check (negb (r =? 0)); truncate (l / r) inWidth
  | URem => _ ← check (negb (r =? 0)); truncate (l mod r) inWidth
  | SDiv => '(sl, sr) ← sext2 l r inWidth; _ ← check (div_defined sl sr); truncate (uint64 (Z.quot sl sr)) inWidth
  | SRem => '(sl, sr) ← sext2 l r inWidth; _ ← check (div_defined sl sr); truncate (uint64 (Z.rem sl sr)) inWidth
  | AShr => sl ← sext l 64 inWidth; _ ← check (r <? 64); truncate (uint64 (Z.shiftr (int64 sl) r)) inWidth
  | LShr => _ ← check (r <? 64); Done (Z.shiftr l r)
  | Shl => _ ← check (r <? 64); truncate (uint64 (Z.shiftl l r)) inWidth
  | And => Done (Z.land l r)
  | Or => Done (Z.lor l r)
  | Xor => Done (Z.lxor l r)
  end.

(** [eq] .. [sge] *)
Definition cmp (k : CmpKind) (l r inWidth : Z) : outcome Z :=
  match k with
  | Eq => Done (b2z (l =? r)) | Ne => Done (b2z (negb (l =? r)))
  | Ult => Done (b2z (l <? r)) | Ule => Done (b2z (l <=? r)) | Ugt => Done (b2z (r <? l)) | Uge => Done (b2z (r <=? l))
  | Slt => '(sl, sr) ← sext2 l r inWidth; Done (b2z (sl <? sr))
  | Sle => '(sl, sr) ← sext2 l r inWidth; Done (b2z (sl <=? sr))
  | Sgt => '(sl, sr) ← sext2 l r inWidth; Done (b2z (sr <? sl))
  | Sge => '(sl, sr) ← sext2 l r inWidth; Done (b2z (sr <=? sl))
  end.

Definition cast (k : CastKind) (l outWidth inWidth : Z) : outcome Z :=
  match k with ZExt => zext l outWidth inWidth | SExt => sext l outWidth inWidth end.

End ints.

(** ** They are the operators on bit vectors *)

Lemma truncate_ok x N : 0 < N <= 64 -> truncate x N = Done (BV.wrap N x).
Proof.
  intros HN. unfold truncate. replace ((0 <? N) && (N <=? 64)) with true by (symmetry; rewrite andb_true_iff, Z.ltb_lt, Z.leb_le; lia).
  cbn. now rewrite truncateToNBits_spec.
Qed.

Lemma truncate_wrap x N : 0 < N <= 64 -> truncate (uint64 x) N = Done (BV.wrap N x).
Proof. intros HN. rewrite truncate_ok by done. f_equal. apply BV.wrap_wrap_le. lia. Qed.

(** Shifting up and back down extends the sign. *)
Lemma shift_sign w x : 0 < w <= 64 -> 0 <= x < 2 ^ w ->
  Z.shiftr (int64 (uint64 (Z.shiftl x (64 - w)))) (64 - w) = BV.signed w x.
Proof.
  intros Hw Hx. rewrite Z.shiftl_mul_pow2, Z.shiftr_div_pow2 by lia. set (p := 2 ^ (64 - w)).
  assert (Hp : 0 < p) by (apply BV.pow2_pos; lia). assert (E : 2 ^ 64 = 2 ^ w * p) by (unfold p; rewrite <- Z.pow_add_r by lia; f_equal; lia).
  assert (E' : 2 ^ 63 = 2 ^ (w - 1) * p) by (unfold p; rewrite <- Z.pow_add_r by lia; f_equal; lia).
  rewrite BV.wrap_small by nia. unfold BV.signed. change (64 - 1) with 63. rewrite E, E'.
  destruct (Z.ltb_spec x (2 ^ (w - 1))), (Z.ltb_spec (x * p) (2 ^ (w - 1) * p)); try nia.
  - now rewrite Z.div_mul by lia.
  - replace (x * p - 2 ^ w * p) with ((x - 2 ^ w) * p) by lia. now rewrite Z.div_mul by lia.
Qed.

Lemma sext_ok l out w : 0 < w <= 64 -> 0 < out <= 64 -> 0 <= l < 2 ^ w -> ints.sext l out w = Done (BV.wrap out (BV.signed w l)).
Proof.
  intros Hw Ho Hl. unfold ints.sext. replace ((0 <=? 64 - w) && (64 - w <? 64)) with true by (symmetry; rewrite andb_true_iff, Z.ltb_lt, Z.leb_le; lia).
  cbn -[Z.sub BV.wrap BV.signed Z.shiftl Z.shiftr]. rewrite truncate_wrap by done. now rewrite shift_sign.
Qed.

Lemma int64_sext w x : 0 < w <= 64 -> 0 <= x < 2 ^ w -> int64 (uint64 (BV.signed w x)) = BV.signed w x.
Proof.
  intros Hw Hx. pose proof (BV.signed_range w x ltac:(lia) Hx) as Hb. assert (2 ^ (w - 1) <= 2 ^ 63) by (apply Z.pow_le_mono_r; lia).
  apply BV.signed_wrap; lia.
Qed.

Lemma sext64_ok l w : 0 < w <= 64 -> 0 <= l < 2 ^ w -> exists x, ints.sext l 64 w = Done x /\ int64 x = BV.signed w l.
Proof. intros Hw Hl. rewrite sext_ok by lia. eexists. split; [reflexivity|]. now apply int64_sext. Qed.

Lemma sext2_ok l r w : 0 < w <= 64 -> 0 <= l < 2 ^ w -> 0 <= r < 2 ^ w -> ints.sext2 l r w = Done (BV.signed w l, BV.signed w r).
Proof.
  intros Hw Hl Hr. unfold ints.sext2. destruct (sext64_ok l w Hw Hl) as (x & -> & Ex), (sext64_ok r w Hw Hr) as (y & -> & Ey).
  cbn -[BV.signed]. now rewrite Ex, Ey.
Qed.

(** Where the machine operation is defined although the operator has a value. *)
Definition machine_defined (k : ArithKind) (w x y : Z) : bool :=
  match k with
  | Shl | LShr | AShr => y <? 64
  | SDiv | SRem => negb ((BV.signed w x =? - 2 ^ 63) && (BV.signed w y =? -1))
  | _ => true
  end.

Lemma signed_zero w x : 0 < w -> 0 <= x < 2 ^ w -> (BV.signed w x =? 0) = (x =? 0).
Proof.
  intros Hw Hx. pose proof (BV.pow2_pos (w - 1) ltac:(lia)). unfold BV.signed.
  destruct (Z.ltb_spec x (2 ^ (w - 1))); [done|]. destruct (Z.eqb_spec (x - 2 ^ w) 0), (Z.eqb_spec x 0); lia.
Qed.

(** A shift by at least the width. *)
Lemma wrap_shl_high w x y : 0 < w <= y -> BV.wrap w (x * 2 ^ y) = 0.
Proof.
  intros Hw. unfold BV.wrap. replace y with (y - w + w) by lia. rewrite Z.pow_add_r, Z.mul_assoc by lia. apply Z.mod_mul.
  pose proof (BV.pow2_pos w ltac:(lia)). lia.
Qed.

Lemma signed_div_high w x y : 0 < w <= y -> 0 <= x < 2 ^ w -> BV.signed w x / 2 ^ y = BV.signed w x / 2 ^ w.
Proof.
  intros Hw Hx. pose proof (BV.signed_range w x ltac:(lia) Hx) as Hb.
  assert (2 ^ (w - 1) < 2 ^ w) by (apply Z.pow_lt_mono_r; lia). assert (2 ^ w <= 2 ^ y) by (apply Z.pow_le_mono_r; lia).
  destruct (Z.le_gt_cases 0 (BV.signed w x)).
  - now rewrite !Z.div_small by lia.
  - transitivity (-1); [symmetry; apply (Z.div_unique_pos _ _ _ (BV.signed w x + 2 ^ y))|apply (Z.div_unique_pos _ _ _ (BV.signed w x + 2 ^ w))]; lia.
Qed.

Lemma arith_ok k w x y : 0 < w <= 64 -> 0 <= x < 2 ^ w -> 0 <= y < 2 ^ w ->
  ints.arith k x y w = match arith_sem k w x y with Some z => if machine_defined k w x y then Done z else Abort | None => Abort end.
Proof.
  intros Hw Hx Hy. pose proof (signed_zero w y ltac:(lia) Hy) as E0.
  assert (Hm : 2 ^ w <= 2 ^ 64) by (apply Z.pow_le_mono_r; lia).
  destruct k; cbn [ints.arith arith_sem machine_defined]; rewrite ?truncate_wrap, ?sext2_ok, ?truncate_ok by done; try reflexivity.
  - destruct (Z.eqb_spec y 0); [done|]. cbn -[truncate]. rewrite ?truncate_ok by done. f_equal. apply BV.wrap_small.
    split; [apply Z.div_pos; lia|]. apply Z.div_lt_upper_bound; nia.
  - cbn -[truncate BV.signed BV.wrap Z.opp Z.pow]. unfold ints.div_defined. rewrite E0. destruct (y =? 0); cbn -[truncate BV.signed BV.wrap Z.opp Z.pow]; [done|].
    destruct (_ && _); cbn -[truncate BV.signed BV.wrap]; [done|]. now rewrite ?truncate_wrap.
  - destruct (Z.eqb_spec y 0); [done|]. cbn -[truncate]. rewrite ?truncate_ok by done. f_equal. apply BV.wrap_small.
    pose proof (Z.mod_pos_bound x y ltac:(lia)). lia.
  - cbn -[truncate BV.signed BV.wrap Z.opp Z.pow]. unfold ints.div_defined. rewrite E0. destruct (y =? 0); cbn -[truncate BV.signed BV.wrap Z.opp Z.pow]; [done|].
    destruct (_ && _); cbn -[truncate BV.signed BV.wrap]; [done|]. now rewrite ?truncate_wrap.
  - destruct (Z.ltb_spec y 64); cbn -[truncate BV.wrap Z.shiftl Z.pow]; [|done]. rewrite ?truncate_wrap by done. f_equal.
    rewrite Z.shiftl_mul_pow2 by lia. destruct (Z.ltb_spec y w); [done|]. apply wrap_shl_high. lia.
  - destruct (Z.ltb_spec y 64); cbn -[Z.shiftr Z.pow Z.div]; [|done]. f_equal. rewrite Z.shiftr_div_pow2 by lia.
    destruct (Z.ltb_spec y w); [done|]. apply Z.div_small. assert (2 ^ w <= 2 ^ y) by (apply Z.pow_le_mono_r; lia). lia.
  - destruct (sext64_ok x w Hw Hx) as (s & -> & Es). cbn -[truncate BV.signed BV.wrap Z.shiftr Z.pow Z.div Z.ltb]. rewrite Es.
    destruct (Z.ltb_spec y 64); cbn -[truncate BV.signed BV.wrap Z.shiftr Z.pow Z.div]; [|done]. rewrite ?truncate_wrap by done. do 2 f_equal.
    rewrite Z.shiftr_div_pow2 by lia. destruct (Z.le_gt_cases y w); [now rewrite Z.min_l by lia|]. rewrite Z.min_r by lia. apply signed_div_high; lia.
Qed.

Lemma cmp_ok k w x y : 0 < w <= 64 -> 0 <= x < 2 ^ w -> 0 <= y < 2 ^ w -> ints.cmp k x y w = Done (b2z (cmp_sem k w x y)).
Proof. intros Hw Hx Hy. destruct k; cbn [ints.cmp cmp_sem]; rewrite ?sext2_ok by done; reflexivity. Qed.

Lemma cast_ok k w out x : 0 < w <= out -> out <= 64 -> 0 <= x < 2 ^ w -> ints.cast k x out w = Done (cast_sem k w out x).
Proof.
  intros Hw Ho Hx. destruct k; cbn [ints.cast cast_sem]; [|apply sext_ok; lia]. unfold ints.zext. f_equal. symmetry. apply BV.wrap_small.
  assert (2 ^ w <= 2 ^ out) by (apply Z.pow_le_mono_r; lia). lia.
Qed.

(** The word operations of [ints] are the operators on bit vectors of at
    most 64 bits: on words whose invalid bits are 0, each returns the result of
    its operator, and fails exactly where the operator has no value or the
    machine operation is not defined (a shift by 64 or more, the quotient of
    the least 64-bit integer by -1). *)
Theorem ints_are_bitvectors (w x y : Z) : 0 < w <= 64 -> 0 <= x < 2 ^ w -> 0 <= y < 2 ^ w ->
  (forall k, ints.arith k x y w =
     match arith_sem k w x y with Some z => if machine_defined k w x y then Done z else Abort | None => Abort end) /\
  (forall k, ints.cmp k x y w = Done (b2z (cmp_sem k w x y))) /\
  (forall k out, w <= out <= 64 -> ints.cast k x out w = Done (cast_sem k w out x)) /\
  (forall out, 0 < out <= w -> ints.trunc x out w = Done (BV.wrap out x)).
Proof.
  intros Hw Hx Hy. split_and!.
  - intros k. now apply arith_ok.
  - intros k. now apply cmp_ok.
  - intros k out Ho. apply cast_ok; lia.
  - intros out Ho. apply truncate_ok. lia.
Qed.

Lemma ints_are_bitvectors_witness :
  ints.arith SDiv 0x80 0xFF 8 = Done 0x80 /\ ints.arith SDiv (2 ^ 63) (2 ^ 64 - 1) 64 = Abort /\ ints.cmp Slt 0x80 0x7F 8 = Done 1.
Proof.
  destruct (ints_are_bitvectors 8 0x80 0xFF) as (H & _); [lia..|].
  destruct (ints_are_bitvectors 64 (2 ^ 63) (2 ^ 64 - 1)) as (H' & _); [lia..|].
  destruct (ints_are_bitvectors 8 0x80 0x7F) as (_ & H'' & _); [lia..|].
  split_and!; [exact (H SDiv)|exact (H' SDiv)|exact (H'' Slt)].
Defined.
