(* ===== verification/ValueRange.v ===== *)
(** * Ranges of 64-bit values

    src/lib/Solver/FastCexSolver.cpp, the class [ValueRange]: closed intervals of
    [uint64_t], empty when the minimum is greater than the maximum, with the
    interval versions of the operators.  [Abort] is a failing assert or a shift by
    64 or more, which C++ leaves undefined. *)
From S2P Require Import Prelude APInt Bits BitBounds IntEvaluation.

Record ValueRange := Range { m_min : Z; m_max : Z }.
Add Printing Constructor ValueRange.

#[export] Instance ValueRange_eq_dec : EqDecision ValueRange.
Proof. solve_decision. Defined.

(** [ValueRange()] and [ValueRange(uint64_t)] *)
Definition empty_range : ValueRange := Range 1 0.
Definition single (v : Z) : ValueRange := Range v v.

Definition isEmpty (r : ValueRange) : bool := m_max r <? m_min r.
Definition isFixed (r : ValueRange) : bool := m_min r =? m_max r.
Definition set_intersection (r b : ValueRange) : ValueRange := Range (Z.max (m_min r) (m_min b)) (Z.min (m_max r) (m_max b)).
Definition set_union (r b : ValueRange) : ValueRange := Range (Z.min (m_min r) (m_min b)) (Z.max (m_max r) (m_max b)).
Definition set_difference (r b : ValueRange) : ValueRange :=
  if isEmpty b || (m_max r <? m_min b) || (m_max b <? m_min r) then r
  else if (m_min b <=? m_min r) && (m_max r <=? m_max b) then empty_range
  else if m_min b <=? m_min r then Range (m_max b + 1) (m_max r)
  else Range (m_min r) (m_min b - 1).
Definition intersects (r b : ValueRange) : bool := negb (isEmpty (set_intersection r b)).
Definition isFullRange (r : ValueRange) (bits : Z) : outcome bool :=
  if m_min r =? 0 then (m ← checked_maxValueOfNBits bits; Done (m_max r =? m)) else Done false.

Definition binaryAnd (r b : ValueRange) : outcome ValueRange :=
  _ ← check (negb (isEmpty r) && negb (isEmpty b));
  Done (if isFixed r && isFixed b then single (Z.land (m_min r) (m_min b))
        else Range (minAND (m_min r) (m_max r) (m_min b) (m_max b)) (maxAND (m_min r) (m_max r) (m_min b) (m_max b))).
Definition binaryOr (r b : ValueRange) : outcome ValueRange :=
  _ ← check (negb (isEmpty r) && negb (isEmpty b));
  Done (if isFixed r && isFixed b then single (Z.lor (m_min r) (m_min b))
        else Range (minOR (m_min r) (m_max r) (m_min b) (m_max b)) (maxOR (m_min r) (m_max r) (m_min b) (m_max b))).

(** The loop [while (!isPowerOfTwo(t)) t = withoutRightmostBit(t)]; a word has at
    most 64 bits to remove, and for 0 the loop does not end. *)
Fixpoint top_bit (fuel : nat) (t : Z) : outcome Z :=
  if isPowerOfTwo 64 t then Done t
  else match fuel with O => OutOfFuel | S fuel' => top_bit fuel' (withoutRightmostBit 64 t) end.
Definition binaryXor (r b : ValueRange) : outcome ValueRange :=
  if isFixed r && isFixed b then Done (single (Z.lxor (m_min r) (m_min b)))
  else t ← top_bit 64 (Z.lor (m_max r) (m_max b)); Done (Range 0 (uint64 (uint64 (Z.shiftl t 1) - 1))).

Definition binaryShiftLeft (r : ValueRange) (bits : Z) : outcome ValueRange :=
  _ ← check (bits <? 64); Done (Range (uint64 (Z.shiftl (m_min r) bits)) (uint64 (Z.shiftl (m_max r) bits))).
Definition binaryShiftRight (r : ValueRange) (bits : Z) : outcome ValueRange :=
  _ ← check (bits <? 64); Done (Range (Z.shiftr (m_min r) bits) (Z.shiftr (m_max r) bits)).

Definition concat (r b : ValueRange) (bits : Z) : outcome ValueRange := s ← binaryShiftLeft r bits; binaryOr s b.
Definition extract (r : ValueRange) (lowBit maxBit : Z) : outcome ValueRange :=
  s ← binaryShiftRight r lowBit; m ← checked_maxValueOfNBits (maxBit - lowBit); binaryAnd s (single m).

(** All values of the given width; [add], [sub], [mul], [udiv], [sdiv], [urem]
    and [srem] return it whatever the operands. *)
Definition full_range (width : Z) : outcome ValueRange := m ← checked_maxValueOfNBits width; Done (Range 0 m).

Definition mustEqual_value (r : ValueRange) (b : Z) : bool := (m_min r =? m_max r) && (m_min r =? b).
Definition mustEqual (r b : ValueRange) : bool := isFixed r && isFixed b && (m_min r =? m_min b).
Definition mayEqual (r b : ValueRange) : bool := intersects r b.

(** [min()] and [max()] *)
Definition range_min (r : ValueRange) : outcome Z := _ ← check (negb (isEmpty r)); Done (m_min r).
Definition range_max (r : ValueRange) : outcome Z := _ ← check (negb (isEmpty r)); Done (m_max r).

(** The assert of the signed bounds. *)
Definition check_bits (r : ValueRange) (bits : Z) : outcome unit :=
  _ ← check (bits <? 64); check ((Z.shiftr (m_min r) bits =? 0) && (Z.shiftr (m_max r) bits =? 0)).
Definition minSigned (r : ValueRange) (bits : Z) : outcome Z :=
  _ ← check_bits r bits;
  let smallest := Z.shiftl 1 (bits - 1) in
  if smallest <=? m_max r then (x ← ints.sext smallest 64 bits; Done (int64 x)) else Done (int64 (m_min r)).
Definition maxSigned (r : ValueRange) (bits : Z) : outcome Z :=
  _ ← check_bits r bits;
  let smallest := Z.shiftl 1 (bits - 1) in
  if (m_min r <? smallest) && (smallest <=? m_max r) then Done (int64 (smallest - 1))
  else (x ← ints.sext (m_max r) 64 bits; Done (int64 x)).

(** ** What the operations bound *)

(** [r] is a range of [w]-bit words that contains [v]. *)
Definition covers (w : Z) (r : ValueRange) (v : Z) : Prop := 0 <= m_min r <= v /\ v <= m_max r < 2 ^ w.

(** The operation returns a range that contains [v]. *)
Definition bounds (w : Z) (o : outcome ValueRange) (v : Z) : Prop := exists r, o = Done r /\ covers w r v.

Lemma bounds_done w r v : covers w r v -> bounds w (Done r) v.
Proof. intros H. now exists r. Qed.

Lemma bounds_bind w (m : outcome ValueRange) k v x : (exists r, m = Done r /\ x r) -> (forall r, x r -> bounds w (k r) v) -> bounds w (mbind k m) v.
Proof. intros (r & -> & Hr) Hk. now apply Hk. Qed.

Lemma covers_nonempty w r v : covers w r v -> isEmpty r = false.
Proof. intros [[??][??]]. apply Z.ltb_ge. lia. Qed.

Lemma covers_mono w w' r v : covers w r v -> 0 <= w <= w' -> covers w' r v.
Proof. intros [? [? Hr]] Hw. assert (2 ^ w <= 2 ^ w') by (apply Z.pow_le_mono_r; lia). unfold covers. lia. Qed.

Lemma single_covers w v : 0 <= v < 2 ^ w -> covers w (single v) v.
Proof. unfold covers. cbn. lia. Qed.

Lemma fixed_covers w r v : covers w r v -> isFixed r = true -> m_min r = v.
Proof. intros [[??][??]] E%Z.eqb_eq. lia. Qed.

Lemma union_covers w r b v : covers w r v \/ covers w b v -> 0 <= m_min r -> m_max r < 2 ^ w -> 0 <= m_min b -> m_max b < 2 ^ w ->
  covers w (set_union r b) v.
Proof. unfold covers, set_union. cbn. lia. Qed.

Lemma full_bounds w v : 0 < w <= 64 -> 0 <= v < 2 ^ w -> bounds w (full_range w) v.
Proof.
  intros Hw Hv. unfold full_range, checked_maxValueOfNBits. replace (w <=? 64) with true by (symmetry; apply Z.leb_le; lia).
  cbn -[maxValueOfNBits]. rewrite maxValueOfNBits_spec by lia. apply bounds_done. unfold covers. cbn. lia.
Qed.

Lemma and_range_bounds w r b x y : 0 < w <= 64 -> covers w r x -> covers w b y -> bounds w (binaryAnd r b) (Z.land x y).
Proof.
  intros Hw Hr Hb. unfold binaryAnd. rewrite (covers_nonempty w r x), (covers_nonempty w b y) by done. cbn -[minAND maxAND].
  apply bounds_done. destruct (isFixed r && isFixed b) eqn:Ef.
  - apply andb_true_iff in Ef as [E1 E2]. rewrite (fixed_covers w r x), (fixed_covers w b y) by done.
    apply single_covers, BV.land_range; unfold covers in *; lia.
  - destruct Hr as [H1 H2], Hb as [H3 H4]. assert (2 ^ w <= 2 ^ 64) by (apply Z.pow_le_mono_r; lia).
    destruct (and_bounds 64 (m_min r) (m_max r) (m_min b) (m_max b)) as [[(p & q & Hp & Hq & E) L] [(p' & q' & Hp' & Hq' & E') G]]; [lia..|].
    unfold covers. cbn [m_min m_max]. unfold minAND, maxAND. rewrite E' in *. split; [split|split].
    + rewrite E. apply Z.land_nonneg. lia.
    + apply L; lia.
    + apply G; lia.
    + apply BV.land_range; lia.
Qed.

Lemma or_range_bounds w r b x y : 0 < w <= 64 -> covers w r x -> covers w b y -> bounds w (binaryOr r b) (Z.lor x y).
Proof.
  intros Hw Hr Hb. unfold binaryOr. rewrite (covers_nonempty w r x), (covers_nonempty w b y) by done. cbn -[minOR maxOR].
  apply bounds_done. destruct (isFixed r && isFixed b) eqn:Ef.
  - apply andb_true_iff in Ef as [E1 E2]. rewrite (fixed_covers w r x), (fixed_covers w b y) by done.
    apply single_covers, BV.lor_range; unfold covers in *; lia.
  - destruct Hr as [H1 H2], Hb as [H3 H4]. assert (2 ^ w <= 2 ^ 64) by (apply Z.pow_le_mono_r; lia).
    destruct (or_bounds 64 (m_min r) (m_max r) (m_min b) (m_max b)) as [[(p & q & Hp & Hq & E) L] [(p' & q' & Hp' & Hq' & E') G]]; [lia..|].
    unfold covers. cbn [m_min m_max]. unfold minOR, maxOR. rewrite E' in *. split; [split|split].
    + rewrite E. apply Z.lor_nonneg. lia.
    + apply L; lia.
    + apply G; lia.
    + apply BV.lor_range; lia.
Qed.

(** *** Exclusive or *)

Lemma top_bit_ok n t : 0 < t < 2 ^ 64 -> (exists q, t = 2 ^ (64 - Z.of_nat n) * q) -> (n <= 64)%nat ->
  exists l, top_bit n t = Done (2 ^ l) /\ 0 <= l < 64 /\ 2 ^ l <= t < 2 ^ (l + 1).
Proof.
  revert t. induction n as [|n IH]; intros t Ht [q Eq] Hn.
  { change (64 - Z.of_nat 0) with 64 in Eq. nia. }
  destruct (odd_multiple t) as (k & m & Hk & Hm & E); [lia|]. pose proof (BV.pow2_pos k Hk) as Hp.
  assert (Hk64 : k < 64). { destruct (Z.lt_ge_cases k 64); [done|]. assert (2 ^ 64 <= 2 ^ k) by (apply Z.pow_le_mono_r; lia). nia. }
  cbn [top_bit]. destruct (isPowerOfTwo 64 t) eqn:Ei.
  { apply isPowerOfTwo_spec in Ei as (l & Hl & ->); [|lia..]. exists l.
    assert (2 ^ l < 2 ^ (l + 1)) by (apply Z.pow_lt_mono_r; lia). split; [done|]. split; [split; [done|]|split; [apply Z.le_refl|done]].
    destruct (Z.lt_ge_cases l 64); [done|]. assert (2 ^ 64 <= 2 ^ l) by (apply Z.pow_le_mono_r; lia). lia. }
  assert (Hm0 : 0 < m).
  { destruct (Z.eq_dec m 0) as [->|]; [|lia]. rewrite <- not_true_iff_false in Ei. destruct Ei.
    apply isPowerOfTwo_spec; [lia..|]. exists k. lia. }
  destruct (rightmost_bits 64 k m) as [Ew _]; [lia..|]. rewrite E, Ew.
  (* the number of trailing zeros *)
  assert (Hj : 64 - Z.of_nat (S n) <= k).
  { destruct (Z.le_gt_cases (64 - Z.of_nat (S n)) k); [done|]. exfalso. rewrite E in Eq.
    replace (64 - Z.of_nat (S n)) with (k + 1 + (64 - Z.of_nat (S n) - k - 1)) in Eq by lia. rewrite !Z.pow_add_r in Eq by lia.
    assert (2 * m + 1 = 2 * (2 ^ (64 - Z.of_nat (S n) - k - 1) * q)) by nia. lia. }
  assert (E2 : 2 ^ k * (2 * m) = 2 ^ (k + 1) * m) by (rewrite Z.pow_add_r by lia; lia). rewrite E2.
  assert (Hp1 : 2 ^ (k + 1) = 2 * 2 ^ k) by (rewrite Z.pow_add_r by lia; lia).
  destruct (IH (2 ^ (k + 1) * m)) as (l & -> & Hl & Hb); [nia| |lia|].
  { exists (2 ^ (k + 1 - (64 - Z.of_nat n)) * m). rewrite Z.mul_assoc, <- Z.pow_add_r by lia. do 2 f_equal. lia. }
  exists l. split_and!; [done|lia..|]. assert (k + 1 <= l).
  { destruct (Z.le_gt_cases (k + 1) l); [done|]. assert (2 ^ (l + 1) <= 2 ^ (k + 1)) by (apply Z.pow_le_mono_r; lia). nia. }
  assert (El : 2 ^ (l + 1) = 2 ^ (k + 1) * 2 ^ (l - k)) by (rewrite <- Z.pow_add_r by lia; f_equal; lia). rewrite El in *.
  assert (m + 1 <= 2 ^ (l - k)) by (apply Z.le_succ_l, (Z.mul_lt_mono_pos_l (2 ^ (k + 1))); lia). rewrite Hp1. nia.
Qed.

Lemma lor_bit_bound x y l : 0 <= x -> 0 <= y -> 0 <= l -> Z.lor x y < 2 ^ l -> x < 2 ^ l /\ y < 2 ^ l.
Proof.
  intros Hx Hy Hl H. assert (Hi : forall i, l <= i -> Z.testbit (Z.lor x y) i = false).
  { intros i Hi. apply (BV.testbit_high l); [done|split; [apply Z.lor_nonneg; lia|done]|done]. }
  split; (apply BV.bitwise_range; [done..|]); intros i Hli; specialize (Hi i Hli); rewrite Z.lor_spec in Hi; now apply orb_false_iff in Hi.
Qed.

Lemma xor_range_bounds w r b x y : 0 < w <= 64 -> covers w r x -> covers w b y -> bounds w (binaryXor r b) (Z.lxor x y).
Proof.
  intros Hw Hr Hb. unfold binaryXor. destruct (isFixed r && isFixed b) eqn:Ef.
  - apply andb_true_iff in Ef as [E1 E2]. rewrite (fixed_covers w r x), (fixed_covers w b y) by done.
    apply bounds_done, single_covers, BV.lxor_range; unfold covers in *; lia.
  - destruct Hr as [H1 H2], Hb as [H3 H4]. assert (2 ^ w <= 2 ^ 64) by (apply Z.pow_le_mono_r; lia).
    assert (Hor : 0 <= Z.lor (m_max r) (m_max b) < 2 ^ w) by (apply BV.lor_range; lia).
    assert (Hn : Z.lor (m_max r) (m_max b) <> 0).
    { intros E%Z.lor_eq_0_iff. apply andb_false_iff in Ef as [Ef|Ef]; apply Z.eqb_neq in Ef; lia. }
    destruct (top_bit_ok 64 (Z.lor (m_max r) (m_max b))) as (l & -> & Hl & Hb); [lia|eexists (Z.lor _ _); rewrite Z.mul_1_l; done|lia|].
    cbn -[Z.shiftl BV.wrap Z.pow]. apply bounds_done. rewrite Z.shiftl_mul_pow2, <- Z.pow_add_r by lia.
    assert (Em : uint64 (uint64 (2 ^ (l + 1)) - 1) = 2 ^ (l + 1) - 1).
    { rewrite BV.wrap_sub_l. apply BV.wrap_small. pose proof (BV.pow2_pos (l + 1) ltac:(lia)).
      assert (2 ^ (l + 1) <= 2 ^ 64) by (apply Z.pow_le_mono_r; lia). lia. }
    rewrite Em. destruct (lor_bit_bound (m_max r) (m_max b) (l + 1)) as [L1 L2]; [lia..|].
    assert (Hx : 0 <= Z.lxor x y < 2 ^ (l + 1)) by (apply BV.lxor_range; lia).
    assert (l + 1 <= w). { destruct (Z.le_gt_cases (l + 1) w); [done|]. assert (2 ^ w <= 2 ^ l) by (apply Z.pow_le_mono_r; lia). lia. }
    assert (2 ^ (l + 1) <= 2 ^ w) by (apply Z.pow_le_mono_r; lia). unfold covers. cbn [m_min m_max]. lia.
Qed.

(** *** Concatenation and signed bounds *)

Lemma lor_concat n x y : 0 <= n -> 0 <= y < 2 ^ n -> Z.lor (x * 2 ^ n) y = x * 2 ^ n + y.
Proof.
  intros Hn Hy. apply Z.bits_inj'. intros i Hi. rewrite Z.lor_spec.
  replace (x * 2 ^ n + y) with (2 ^ n * x + y) by lia. replace (x * 2 ^ n) with (2 ^ n * x + 0) by lia.
  rewrite !testbit_shifted by lia. destruct (Z.ltb_spec i n); [now rewrite Z.bits_0|].
  rewrite (BV.testbit_high n y i) by lia. apply orb_false_r.
Qed.

Lemma concat_range_bounds w v r b x y : 0 <= w -> 0 < v < 64 -> w + v <= 64 -> covers w r x -> covers v b y ->
  bounds (w + v) (concat r b v) (x * 2 ^ v + y).
Proof.
  intros Hw Hv Hwn Hr Hb. unfold concat, binaryShiftLeft. destruct Hr as [H1 H2].
  assert (E : 2 ^ (w + v) = 2 ^ w * 2 ^ v) by (apply Z.pow_add_r; lia). pose proof (BV.pow2_pos v ltac:(lia)) as Hp.
  assert (2 ^ (w + v) <= 2 ^ 64) by (apply Z.pow_le_mono_r; lia). assert (2 ^ v <= 2 ^ (w + v)) by (apply Z.pow_le_mono_r; lia).
  replace (v <? 64) with true by (symmetry; apply Z.ltb_lt; lia). cbn -[Z.shiftl BV.wrap binaryOr].
  assert (0 <= m_min r * 2 ^ v <= x * 2 ^ v /\ x * 2 ^ v <= m_max r * 2 ^ v < 2 ^ w * 2 ^ v).
  { split; split; [apply Z.mul_nonneg_nonneg|apply Z.mul_le_mono_nonneg_r|apply Z.mul_le_mono_nonneg_r|apply Z.mul_lt_mono_pos_r]; lia. }
  rewrite !Z.shiftl_mul_pow2, !BV.wrap_small by lia. rewrite <- lor_concat; [|lia|destruct Hb; lia].
  apply or_range_bounds; [lia| |apply (covers_mono v); [done|lia]]. unfold covers. cbn [m_min m_max]. lia.
Qed.

(** The first byte of a concatenation: nothing is shifted. *)
Lemma concat_zero_bounds w n b y : 0 < w <= 64 -> 0 <= n < 64 -> covers w b y -> bounds w (concat (single 0) b n) y.
Proof.
  intros Hw Hn Hb. unfold concat, binaryShiftLeft. replace (n <? 64) with true by (symmetry; apply Z.ltb_lt; lia).
  cbn -[Z.shiftl BV.wrap binaryOr]. rewrite Z.shiftl_0_l. change (uint64 0) with 0. rewrite <- (Z.lor_0_l y).
  apply or_range_bounds; [done| |done]. apply (single_covers w 0). split; [done|]. apply BV.pow2_pos. lia.
Qed.

Lemma check_bits_ok r w v : 0 < w < 64 -> covers w r v -> check_bits r w = Done tt.
Proof.
  intros Hw [H1 H2]. unfold check_bits. replace (w <? 64) with true by (symmetry; apply Z.ltb_lt; lia). cbn -[Z.shiftr].
  rewrite !Z.shiftr_div_pow2, !Z.div_small by lia. done.
Qed.

Lemma signed_bounds w r v : 0 < w < 64 -> covers w r v ->
  exists lo hi, minSigned r w = Done lo /\ maxSigned r w = Done hi /\ lo <= BV.signed w v <= hi.
Proof.
  intros Hw Hc. unfold minSigned, maxSigned. rewrite !(check_bits_ok r w v) by done. cbn -[Z.shiftl ints.sext BV.signed Z.pow Z.leb Z.ltb].
  rewrite Z.shiftl_mul_pow2, Z.mul_1_l by lia. destruct Hc as [H1 H2]. pose proof (BV.pow2_pos (w - 1) ltac:(lia)).
  assert (E : 2 ^ w = 2 * 2 ^ (w - 1)) by (rewrite <- Z.pow_succ_r by lia; f_equal; lia).
  assert (2 ^ (w - 1) <= 2 ^ 62) by (apply Z.pow_le_mono_r; lia).
  assert (Es : forall z, 0 <= z < 2 ^ 63 -> int64 z = z).
  { intros z Hz. unfold BV.signed. change (64 - 1) with 63. now rewrite (proj2 (Z.ltb_lt _ _)) by lia. }
  assert (Hlo : exists lo, (if 2 ^ (w - 1) <=? m_max r then x ← ints.sext (2 ^ (w - 1)) 64 w; Done (int64 x) else Done (int64 (m_min r))) = Done lo /\
    lo <= BV.signed w v).
  { pose proof (BV.signed_range w v ltac:(lia) ltac:(lia)). destruct (Z.leb_spec (2 ^ (w - 1)) (m_max r)).
    - destruct (sext64_ok (2 ^ (w - 1)) w) as (x & -> & Ex); [lia..|]. exists (int64 x). split; [done|]. rewrite Ex.
      unfold BV.signed at 1. rewrite Z.ltb_irrefl. lia.
    - exists (m_min r). rewrite Es by lia. split; [done|]. unfold BV.signed. rewrite (proj2 (Z.ltb_lt _ _)) by lia. lia. }
  assert (Hhi : exists hi, (if (m_min r <? 2 ^ (w - 1)) && (2 ^ (w - 1) <=? m_max r) then Done (int64 (2 ^ (w - 1) - 1))
    else x ← ints.sext (m_max r) 64 w; Done (int64 x)) = Done hi /\ BV.signed w v <= hi).
  { pose proof (BV.signed_range w v ltac:(lia) ltac:(lia)).
    destruct (Z.ltb_spec (m_min r) (2 ^ (w - 1))), (Z.leb_spec (2 ^ (w - 1)) (m_max r)); cbn [andb];
      [eexists; split; [reflexivity|]; rewrite Es by lia; lia|..];
      (destruct (sext64_ok (m_max r) w) as (x & -> & Ex); [lia..|]; exists (int64 x); split; [done|]; rewrite Ex;
       unfold BV.signed; destruct (Z.ltb_spec v (2 ^ (w - 1))), (Z.ltb_spec (m_max r) (2 ^ (w - 1))); lia). }
  destruct Hlo as (lo & -> & ?), Hhi as (hi & -> & ?). exists lo, hi. done.
Qed.
