(* ===== verification/ExprRangeEvaluator.v ===== *)
(** * Ranges of expressions

    src/include/klee/Expr/ExprRangeEvaluator.h, with the ranges of [ValueRange]
    and the initial ranges of [CexRangeEvaluator]
    (src/lib/Solver/FastCexSolver.cpp): an interval for the value of an expression,
    whatever the contents of its arrays. *)
From stdpp Require Import strings.
From S2P Require Import Prelude APInt Expr ExprSem ExprCreate Bits IntEvaluation ValueRange.

Section Evaluator.
Context `{A : APIntOps} (getInitialReadRange : Array -> ValueRange -> outcome ValueRange).

Fixpoint evaluate (e : Expr) : outcome ValueRange :=
  let full := full_range (getWidth e) in
  match e with
  | ConstantExpr c => Done (single (ap_getLimitedValue c (2 ^ 64 - 1)))
  | ReadExpr root head i => index ← evaluate i; evalRead root head index empty_range
  | SelectExpr c t f =>
    cond ← evaluate c;
    if mustEqual_value cond 1 then evaluate t
    else if mustEqual_value cond 0 then evaluate f
    else x ← evaluate t; y ← evaluate f; Done (set_union x y)
  | ConcatExpr l r =>
    x ← evaluate l; res ← concat (single 0) x 8;
    y ← evaluate r; concat res y 8
  | BinaryExpr k l r =>
    match k with
    | Add | Sub | Mul | UDiv | SDiv | URem | SRem => _ ← evaluate l; _ ← evaluate r; full_range (getWidth l)
    | And => x ← evaluate l; y ← evaluate r; binaryAnd x y
    | Or => x ← evaluate l; y ← evaluate r; binaryOr x y
    | Xor => x ← evaluate l; y ← evaluate r; binaryXor x y
    | Shl | LShr | AShr => full
    end
  | CmpExpr k l r =>
    match k with
    | Eq =>
      left ← evaluate l; right ← evaluate r;
      if mustEqual left right then Done (single 1) else if negb (mayEqual left right) then Done (single 0) else full
    | Ult =>
      left ← evaluate l; right ← evaluate r; lmax ← range_max left; rmin ← range_min right;
      if lmax <? rmin then Done (single 1) else
      lmin ← range_min left; rmax ← range_max right;
      if rmax <=? lmin then Done (single 0) else full
    | Ule =>
      left ← evaluate l; right ← evaluate r; lmax ← range_max left; rmin ← range_min right;
      if lmax <=? rmin then Done (single 1) else
      lmin ← range_min left; rmax ← range_max right;
      if rmax <? lmin then Done (single 0) else full
    | Slt =>
      left ← evaluate l; right ← evaluate r; lmax ← maxSigned left (getWidth l); rmin ← minSigned right (getWidth l);
      if lmax <? rmin then Done (single 1) else
      lmin ← minSigned left (getWidth l); rmax ← maxSigned right (getWidth l);
      if rmax <=? lmin then Done (single 0) else full
    | Sle =>
      left ← evaluate l; right ← evaluate r; lmax ← maxSigned left (getWidth l); rmin ← minSigned right (getWidth l);
      if lmax <=? rmin then Done (single 1) else
      lmin ← minSigned left (getWidth l); rmax ← maxSigned right (getWidth l);
      if rmax <? lmin then Done (single 0) else full
    | Ne | Ugt | Uge | Sgt | Sge => Abort
    end
  | NotOptimizedExpr _ | ExtractExpr _ _ _ | CastExpr _ _ _ | NotExpr _ => full
  end
with evalRead (root : Array) (un : UpdateNode) (index res : ValueRange) : outcome ValueRange :=
  match un with
  | un_node next uindex uvalue =>
    ui ← evaluate uindex;
    if mustEqual ui index then v ← evaluate uvalue; Done (set_union res v)
    else if mayEqual ui index then
      v ← evaluate uvalue;
      let res := set_union res v in
      full ← isFullRange res 8;
      if (full : bool) then Done res else evalRead root next index res
    else evalRead root next index res
  | un_null => i ← getInitialReadRange root index; Done (set_union res i)
  end.

End Evaluator.

(** [CexRangeEvaluator::getInitialReadRange] *)
Definition Cex_getInitialReadRange `{A : APIntOps} (array : Array) (index : ValueRange) : outcome ValueRange :=
  if isConstantArray array && isFixed index then
    m ← range_min index;
    if m <? size array then
      c ← or_abort (constantValues array !! Z.to_nat m);
      _ ← check (ap_width c <=? 8);
      Done (single (getZExtValue c))
    else Done (Range 0 255)
  else Done (Range 0 255).

(** ** The expressions it can handle

    The words of a range have 64 bits; reads return bytes and the evaluation of a
    concatenation takes its right part for a byte; the signed bounds shift by
    the width; the kinds that [create] canonicalizes away fail an assert. *)
Fixpoint ranged (e : Expr) : bool :=
  (getWidth e <=? 64) &&
  match e with
  | ConstantExpr _ | NotOptimizedExpr _ | ExtractExpr _ _ _ | CastExpr _ _ _ | NotExpr _ => true
  | ReadExpr root head i => (range root =? 8) && ranged i && ranged_updates head
  | SelectExpr c t f => ranged c && ranged t && ranged f
  | ConcatExpr l r => (getWidth r =? 8) && ranged l && ranged r
  | BinaryExpr k l r => match k with Shl | LShr | AShr => true | _ => ranged l && ranged r end
  | CmpExpr k l r =>
    ranged l && ranged r &&
    match k with Eq | Ult | Ule => true | Slt | Sle => getWidth l <? 64 | Ne | Ugt | Uge | Sgt | Sge => false end
  end
with ranged_updates (un : UpdateNode) : bool :=
  match un with un_null => true | un_node next i v => ranged i && ranged v && ranged_updates next end.

Section Sound.
Context `{A : APIntOps} {AS : APIntSpec A} (getInitialReadRange : Array -> ValueRange -> outcome ValueRange).
Context (rho : valuation).
Context (Hinit : forall a index i, array_ok a = true -> range a = 8 -> covers (domain a) index i ->
  exists r, getInitialReadRange a index = Done r /\ 0 <= m_min r /\ m_max r < 2 ^ 8 /\
    forall v, initial_value rho a i = Some v -> covers 8 r v).

Notation evaluate := (evaluate getInitialReadRange).
Notation evalRead := (evalRead getInitialReadRange).

Lemma ranged_width e : ranged e = true -> getWidth e <= 64.
Proof. destruct e; cbn [ranged]; intros H; apply andb_true_iff in H as [H%Z.leb_le _]; exact H. Qed.

(** A test that decides a comparison. *)
Lemma decided_bounds (b1 b2 : bool) (v : bool) : (b1 = true -> v = true) -> (b2 = true -> v = false) ->
  bounds 1 (if b1 then Done (single 1) else if b2 then Done (single 0) else full_range 1) (b2z v).
Proof.
  intros H1 H2. destruct b1; [rewrite H1 by done; now apply bounds_done, single_covers|].
  destruct b2; [rewrite H2 by done; now apply bounds_done, single_covers|]. apply full_bounds; [lia|]. destruct v; cbn; lia.
Qed.

Lemma mustEqual_covers w r b x y : covers w r x -> covers w b y -> mustEqual r b = true -> x = y.
Proof.
  intros Hr Hb H. unfold mustEqual in H. apply andb_true_iff in H as [H E%Z.eqb_eq]. apply andb_true_iff in H as [H1 H2].
  rewrite <- (fixed_covers w r x), <- (fixed_covers w b y) by done. done.
Qed.

Lemma mayEqual_covers w r b x y : covers w r x -> covers w b y -> mayEqual r b = false -> x <> y.
Proof.
  intros [H1 H2] [H3 H4] H. unfold mayEqual, intersects, isEmpty, set_intersection in H. cbn in H.
  apply negb_false_iff, Z.ltb_lt in H. lia.
Qed.

Lemma value_bound e v : eval rho e = Some v -> 0 < getWidth e /\ 0 <= ap_val v < 2 ^ getWidth e.
Proof. intros E. rewrite (eval_width _ _ _ E). apply ap_valid_spec, (eval_valid _ _ _ E). Qed.

Lemma range_minmax w r v : covers w r v -> range_min r = Done (m_min r) /\ range_max r = Done (m_max r).
Proof. intros H. unfold range_min, range_max. rewrite (covers_nonempty w r v) by done. done. Qed.

(** The cases of [evaluate], from bounds of the operands. *)
Notation in_range e := (forall v, eval rho e = Some v -> ranged e = true -> bounds (getWidth e) (evaluate e) (ap_val v)).

Lemma full_ok e v : eval rho e = Some v -> getWidth e <= 64 -> bounds (getWidth e) (full_range (getWidth e)) (ap_val v).
Proof. intros E Hw. destruct (value_bound e v E). apply full_bounds; [lia|done]. Qed.

Lemma operands k l r v : eval rho (BinaryExpr k l r) = Some v -> exists x y, eval rho l = Some x /\ eval rho r = Some y /\
  getWidth l = getWidth r /\ eval_arith k x y = Some v.
Proof.
  cbn [eval]. intros E. apply bind_Some in E as (x & El & E). apply bind_Some in E as (y & Er & E). exists x, y. split_and!; [done..| |done].
  rewrite (eval_width _ _ _ El), (eval_width _ _ _ Er). unfold eval_arith in E. now inv_eval.
Qed.

Lemma evaluate_arith k l r : in_range l -> in_range r -> in_range (BinaryExpr k l r).
Proof.
  intros Hl Hr v E Hg. pose proof (full_ok _ _ E (ranged_width _ Hg)) as Hf. destruct (operands k l r v E) as (x & y & El & Er & Ew & Ev).
  cbn [getWidth] in Hf |- *. assert (Hw : 0 < getWidth l <= 64) by (split; [apply (value_bound _ _ El)|apply (ranged_width _ Hg)]).
  unfold eval_arith in Ev. rewrite <- (eval_width _ _ _ El), <- (eval_width _ _ _ Er), Ew, Z.eqb_refl in Ev. rewrite <- Ew in Ev.
  assert (Hkids : match k with Shl | LShr | AShr => true | _ => ranged l && ranged r end = true).
  { cbn [ranged] in Hg. apply andb_true_iff in Hg as [_ Hg]. exact Hg. }
  cbn [evaluate]. destruct k; try exact Hf; (apply andb_true_iff in Hkids as [Gl Gr]);
    destruct (Hl x El Gl) as (rl & -> & Cl); cbn [mbind outcome_bind]; destruct (Hr y Er Gr) as (rr & -> & Cr); cbn [mbind outcome_bind]; try exact Hf;
    rewrite <- Ew in Cr; cbn [arith_sem fmap option_fmap option_map] in Ev; injection Ev as <-; cbn [ap_val].
  - now apply and_range_bounds.
  - now apply or_range_bounds.
  - now apply xor_range_bounds.
Qed.

Lemma evaluate_cmp k l r : in_range l -> in_range r -> in_range (CmpExpr k l r).
Proof.
  intros Hl Hr v E Hg. cbn [eval] in E. apply bind_Some in E as (x & El & E). apply bind_Some in E as (y & Er & E). unfold eval_cmp in E.
  destruct (Z.eqb_spec (ap_width x) (ap_width y)) as [Ew|]; [|done]. injection E as <-. cbn [ap_val getWidth].
  cbn [ranged] in Hg. apply andb_true_iff in Hg as [_ Hg]. apply andb_true_iff in Hg as [Hg Hk]. apply andb_true_iff in Hg as [Gl Gr].
  destruct (Hl x El Gl) as (rl & Erl & Cl), (Hr y Er Gr) as (rr & Err & Cr).
  rewrite (eval_width _ _ _ Er), <- Ew, <- (eval_width _ _ _ El) in Cr. rewrite <- (eval_width _ _ _ El).
  destruct (range_minmax _ _ _ Cl) as [Em EM], (range_minmax _ _ _ Cr) as [Em' EM'].
  cbn [evaluate]. rewrite Erl, Err. cbn [mbind outcome_bind]. destruct k; try discriminate Hk; cbn [mbind outcome_bind cmp_sem];
    rewrite ?EM, ?Em'; cbn [mbind outcome_bind]; rewrite ?Em, ?EM'; cbn [mbind outcome_bind].
  - apply decided_bounds.
    + intros H. apply Z.eqb_eq. now apply (mustEqual_covers (getWidth l) rl rr).
    + intros H%negb_true_iff. apply Z.eqb_neq. now apply (mayEqual_covers (getWidth l) rl rr).
  - destruct Cl as [? ?], Cr as [? ?]. apply decided_bounds; intros Hd; [apply Z.ltb_lt in Hd; apply Z.ltb_lt|apply Z.leb_le in Hd; apply Z.ltb_ge]; lia.
  - destruct Cl as [? ?], Cr as [? ?]. apply decided_bounds; intros Hd; [apply Z.leb_le in Hd; apply Z.leb_le|apply Z.ltb_lt in Hd; apply Z.leb_gt]; lia.
  - apply Z.ltb_lt in Hk. destruct (value_bound l x El) as [Hw _].
    destruct (signed_bounds (getWidth l) rl (ap_val x)) as (lo & hi & El' & Eh & B); [lia|done|].
    destruct (signed_bounds (getWidth l) rr (ap_val y)) as (lo' & hi' & El'' & Eh' & B'); [lia|done|].
    rewrite Eh, El''; cbn [mbind outcome_bind]; rewrite El', Eh'; cbn [mbind outcome_bind].
    apply decided_bounds; intros Hd; [apply Z.ltb_lt in Hd; apply Z.ltb_lt|apply Z.leb_le in Hd; apply Z.ltb_ge]; lia.
  - apply Z.ltb_lt in Hk. destruct (value_bound l x El) as [Hw _].
    destruct (signed_bounds (getWidth l) rl (ap_val x)) as (lo & hi & El' & Eh & B); [lia|done|].
    destruct (signed_bounds (getWidth l) rr (ap_val y)) as (lo' & hi' & El'' & Eh' & B'); [lia|done|].
    rewrite Eh, El''; cbn [mbind outcome_bind]; rewrite El', Eh'; cbn [mbind outcome_bind].
    apply decided_bounds; intros Hd; [apply Z.leb_le in Hd; apply Z.leb_le|apply Z.ltb_lt in Hd; apply Z.leb_gt]; lia.
Qed.

Lemma union_bounds w r b v : covers w r v -> 0 <= m_min b -> m_max b < 2 ^ w -> covers w (set_union r b) v /\ covers w (set_union b r) v.
Proof. intros [??] ??. unfold covers, set_union. cbn. lia. Qed.

Lemma evaluate_select c t f : in_range c -> in_range t -> in_range f -> in_range (SelectExpr c t f).
Proof.
  intros Hc Ht Hf v E Hg. cbn [eval] in E. apply bind_Some in E as (cv & Ec & E). apply bind_Some in E as (tv & Et & E).
  apply bind_Some in E as (fv & Ef & E). unfold eval_select in E. inv_eval.
  cbn [ranged] in Hg. apply andb_true_iff in Hg as [_ Hg]. apply andb_true_iff in Hg as [Hg Gf]. apply andb_true_iff in Hg as [Gc Gt].
  destruct (Hc _ Ec Gc) as (rc & Erc & Cc), (Ht _ Et Gt) as (rt & Ert & Ct), (Hf _ Ef Gf) as (rf & Erf & Cf).
  assert (Ew : getWidth f = getWidth t) by (rewrite (eval_width _ _ _ Et), (eval_width _ _ _ Ef); done). rewrite Ew in Cf.
  cbn [evaluate getWidth]. rewrite Erc. cbn [mbind outcome_bind]. unfold mustEqual_value.
  destruct (Z.eqb_spec (m_min rc) (m_max rc)) as [Efx|]; cbn [andb].
  - destruct Cc as [Hc1 Hc2]. assert (Ev : m_min rc = ap_val cv) by lia. rewrite Ev.
    destruct (Z.eqb_spec (ap_val cv) 1) as [E1|]; [rewrite E1; cbn [Z.eqb]; now exists rt|].
    destruct (Z.eqb_spec (ap_val cv) 0) as [E0|]; [now exists rf|]. exfalso.
    pose proof (value_bound c cv Ec) as [_ Hb]. rewrite (eval_width _ _ _ Ec) in Hb. replace (ap_width cv) with 1 in Hb by lia. lia.
  - rewrite Ert, Erf. cbn [mbind outcome_bind]. apply bounds_done. destruct Ct as [Ct1 Ct2], Cf as [Cf1 Cf2].
    destruct (ap_val cv =? 0); unfold covers, set_union; cbn; lia.
Qed.

Lemma evaluate_concat l r : in_range l -> in_range r -> in_range (ConcatExpr l r).
Proof.
  intros Hl Hr v E Hg. cbn [eval] in E. apply bind_Some in E as (x & El & E). apply bind_Some in E as (y & Er & E). injection E as <-.
  pose proof (ranged_width _ Hg) as Hw. cbn [getWidth] in Hw. cbn [ranged] in Hg. apply andb_true_iff in Hg as [_ Hg].
  apply andb_true_iff in Hg as [Hg Gr]. apply andb_true_iff in Hg as [G8%Z.eqb_eq Gl].
  destruct (Hl _ El Gl) as (rl & Erl & Cl), (Hr _ Er Gr) as (rr & Err & Cr). destruct (value_bound l x El) as [Hwl _].
  cbn [evaluate getWidth ap_val eval_concat]. rewrite <- (eval_width _ _ _ Er), G8. rewrite Erl. cbn [mbind outcome_bind].
  destruct (concat_zero_bounds (getWidth l) 8 rl (ap_val x)) as (res & -> & Cres); [lia..|done|]. cbn [mbind outcome_bind].
  rewrite Err. cbn [mbind outcome_bind]. rewrite G8 in Cr. apply (concat_range_bounds (getWidth l) 8); [lia..|done|done].
Qed.

(** The loop over the updates: [v] is in the range collected so far, or it is the
    value of the rest of the list at the index [i]. *)
Definition read_range un : Prop := forall root us index i res v, eval_updates rho root un = Some us -> ranged_updates un = true ->
  array_ok root = true -> range root = 8 -> covers (domain root) index i -> 0 <= m_min res -> m_max res < 2 ^ 8 -> 0 <= v < 2 ^ 8 ->
  covers 8 res v \/ read_value rho root us i = Some v -> bounds 8 (evalRead root un index res) v.

Lemma read_range_null : read_range un_null.
Proof.
  intros root us index i res v E _ Ha H8 Hi Hr1 Hr2 Hv Hd. cbn [eval_updates] in E. injection E as <-. cbn in Hd. cbn [evalRead].
  destruct (Hinit root index i Ha H8 Hi) as (r & -> & Hm & HM & Cr). cbn [mbind outcome_bind]. apply bounds_done.
  destruct Hd as [Hd|Hd]; [now apply (union_bounds 8 res r v)|]. now apply (union_bounds 8 r res v); [apply Cr|..].
Qed.

Lemma read_value_next root j x us i v : i <> j -> read_value rho root ((j, x) :: us) i = v -> read_value rho root us i = v.
Proof. intros Hn. unfold read_value. cbn. now rewrite (proj2 (Z.eqb_neq i j) Hn). Qed.

Lemma evalRead_node next i' v' root index res : evalRead root (un_node next i' v') index res =
  (ui ← evaluate i';
   if mustEqual ui index then v ← evaluate v'; Done (set_union res v)
   else if mayEqual ui index then
     v ← evaluate v'; full ← isFullRange (set_union res v) 8;
     if (full : bool) then Done (set_union res v) else evalRead root next index (set_union res v)
   else evalRead root next index res).
Proof. reflexivity. Qed.

Lemma isFullRange_8 r : exists b, isFullRange r 8 = Done b /\ (b = true -> m_min r = 0 /\ m_max r = 255).
Proof.
  unfold isFullRange. destruct (Z.eqb_spec (m_min r) 0) as [E|]; [|now exists false].
  exists (m_max r =? 255). split; [done|]. now intros H%Z.eqb_eq.
Qed.

Lemma read_range_node next i' v' : read_range next -> in_range i' -> in_range v' -> read_range (un_node next i' v').
Proof.
  intros IH Hi' Hv' root us0 index i res v E Hg Ha H8 Hi Hr1 Hr2 Hv Hd. cbn [eval_updates] in E.
  apply bind_Some in E as (us & Eu & E). apply bind_Some in E as (iv & Ei & E). apply bind_Some in E as (vv & Ev & E). inv_eval.
  cbn [ranged_updates] in Hg. apply andb_true_iff in Hg as [Hg Gn]. apply andb_true_iff in Hg as [Gi Gv].
  destruct (Hi' _ Ei Gi) as (ri & Eri & Ci), (Hv' _ Ev Gv) as (rv & Erv & Cv).
  rewrite (eval_width _ _ _ Ei) in Ci. replace (ap_width iv) with (domain root) in Ci by lia.
  rewrite (eval_width _ _ _ Ev) in Cv. replace (ap_width vv) with 8 in Cv by lia. pose proof Cv as [Cv1 Cv2].
  (* the value is that of this update, or it is still to come *)
  assert (Hd' : covers 8 (set_union res rv) v \/ read_value rho root us i = Some v /\ i <> ap_val iv).
  { destruct Hd as [Hd|Hd]; [left; apply (union_bounds 8 res rv v); [done|lia..]|].
    destruct (Z.eq_dec i (ap_val iv)) as [->|Hn]; [left|right; split; [now apply (read_value_next root (ap_val iv) (ap_val vv))|done]].
    unfold read_value in Hd. cbn in Hd. rewrite Z.eqb_refl in Hd. injection Hd as <-. now apply (union_bounds 8 rv res). }
  rewrite evalRead_node, Eri. cbn [mbind outcome_bind]. destruct (mustEqual ri index) eqn:Em.
  { rewrite Erv. cbn [mbind outcome_bind]. apply bounds_done. pose proof (mustEqual_covers _ _ _ _ _ Ci Hi Em). destruct Hd' as [|[_ ?]]; [done|congruence]. }
  destruct (mayEqual ri index) eqn:Ey.
  - rewrite Erv. cbn [mbind outcome_bind]. destruct (isFullRange_8 (set_union res rv)) as (b & -> & Hb). cbn [mbind outcome_bind]. destruct b.
    + apply bounds_done. destruct (Hb eq_refl). unfold covers. lia.
    + apply (IH root us index i); [done..| | | |tauto]; unfold set_union; cbn; lia.
  - apply (IH root us index i); [done..|]. destruct Hd as [|Hd]; [now left|right]. pose proof (mayEqual_covers _ _ _ _ _ Ci Hi Ey).
    now apply (read_value_next root (ap_val iv) (ap_val vv)); [congruence|].
Qed.

Lemma evaluate_read root h i : read_range h -> in_range i -> in_range (ReadExpr root h i).
Proof.
  intros Hh Hi v E Hg. pose proof E as E0. cbn [eval] in E. apply bind_Some in E as (us & Eu & E). apply bind_Some in E as (iv & Ei & E).
  unfold eval_read in E. destruct (array_ok root && (ap_width iv =? domain root)) eqn:Hc; [|done].
  apply andb_true_iff in Hc as [Ha Hw%Z.eqb_eq]. apply fmap_Some in E as (x & Ex & ->).
  cbn [ranged] in Hg. apply andb_true_iff in Hg as [_ Hg]. apply andb_true_iff in Hg as [Hg Gh]. apply andb_true_iff in Hg as [G8%Z.eqb_eq Gi].
  destruct (Hi _ Ei Gi) as (ri & Eri & Ci). rewrite (eval_width _ _ _ Ei), Hw in Ci.
  cbn [evaluate getWidth ap_val]. rewrite Eri. cbn [mbind outcome_bind]. rewrite G8.
  destruct (value_bound _ _ E0) as [_ Hb]. cbn [getWidth ap_val] in Hb. rewrite G8 in Hb.
  apply (Hh root us ri (ap_val iv)); [done..|cbn; lia|cbn; lia|done|now right].
Qed.

Lemma evaluate_in_range : (forall e, in_range e) /\ (forall un, read_range un).
Proof.
  apply Expr_UpdateNode_ind.
  - intros c v E Hg. cbn [eval] in E. destruct (ap_valid c) eqn:Hc; [|done]. injection E as <-. cbn [evaluate getWidth].
    pose proof (ranged_width _ Hg) as Hw. cbn in Hw. rewrite ap_getLimitedValue_spec by (done || lia). apply ap_valid_spec in Hc as [Hp Hr].
    assert (2 ^ ap_width c <= 2 ^ 64) by (apply Z.pow_le_mono_r; lia). rewrite Z.min_l by lia. now apply bounds_done, single_covers.
  - intros e _ v E Hg. apply (full_ok _ _ E), (ranged_width _ Hg).
  - intros. now apply evaluate_read.
  - intros. now apply evaluate_select.
  - intros. now apply evaluate_concat.
  - intros e _ o w v E Hg. apply (full_ok _ _ E), (ranged_width _ Hg).
  - intros k e _ w v E Hg. apply (full_ok _ _ E), (ranged_width _ Hg).
  - intros e _ v E Hg. apply (full_ok _ _ E), (ranged_width _ Hg).
  - intros. now apply evaluate_arith.
  - intros. now apply evaluate_cmp.
  - exact read_range_null.
  - intros. now apply read_range_node.
Qed.

End Sound.

(** ** With the initial ranges of [CexRangeEvaluator] *)

Section Cex.
Context `{A : APIntOps} {AS : APIntSpec A}.

Definition evalRangeForExpr (e : Expr) : outcome ValueRange := evaluate Cex_getInitialReadRange e.

Lemma Cex_initial_ok rho a index i : array_ok a = true -> range a = 8 -> covers (domain a) index i ->
  exists r, Cex_getInitialReadRange a index = Done r /\ 0 <= m_min r /\ m_max r < 2 ^ 8 /\
    forall v, initial_value rho a i = Some v -> covers 8 r v.
Proof.
  intros Ha H8 Hi. unfold Cex_getInitialReadRange.
  assert (Hany : forall v, initial_value rho a i = Some v -> covers 8 (Range 0 255) v).
  { intros v Hv. unfold initial_value in Hv. unfold covers. cbn. destruct (isConstantArray a).
    - apply fmap_Some in Hv as (c & Ec & ->). destruct (array_ok_const a _ c Ha Ec) as [[_ Hc]%ap_valid_spec Hw]. rewrite Hw, H8 in Hc. lia.
    - injection Hv as <-. pose proof (BV.wrap_range (range a) (rho a i) ltac:(lia)). rewrite H8 in *. lia. }
  destruct (isConstantArray a && isFixed index) eqn:Ec; [|exists (Range 0 255); split_and!; done].
  apply andb_true_iff in Ec as [Ec Ef]. destruct (range_minmax _ _ _ Hi) as [-> _]. cbn [mbind outcome_bind].
  destruct (Z.ltb_spec (m_min index) (size a)) as [Hs|Hs]; [|exists (Range 0 255); split_and!; done].
  rewrite (fixed_covers _ _ _ Hi Ef) in *. destruct Hi as [Hi1 Hi2].
  assert (Hl : Z.of_nat (length (constantValues a)) = size a).
  { unfold array_ok in Ha. inv_eval. unfold isSymbolicArray in *. rewrite Ec in *. cbn [negb orb] in *. inv_eval. done. }
  destruct (lookup_lt_is_Some_2 (constantValues a) (Z.to_nat i)) as [c Elk]; [lia|]. rewrite Elk. cbn [or_abort mbind outcome_bind].
  destruct (array_ok_const a _ c Ha Elk) as [Hv Hw]. rewrite Hw, H8. cbn [Z.leb Z.compare Pos.compare Pos.compare_cont check mbind outcome_bind].
  exists (single (getZExtValue c)). split; [done|]. unfold getZExtValue. rewrite ap_getZExtValue_spec by (done || lia).
  apply ap_valid_spec in Hv as [_ Hv]. rewrite Hw, H8 in Hv. cbn [single m_min m_max]. split_and!; [lia..|].
  intros v Ev. unfold initial_value in Ev. rewrite Ec, Elk in Ev. injection Ev as <-. now apply single_covers.
Qed.

Lemma evalRangeForExpr_ok rho e v : ranged e = true -> eval rho e = Some v -> bounds (getWidth e) (evalRangeForExpr e) (ap_val v).
Proof. intros Hg E. now apply (evaluate_in_range Cex_getInitialReadRange rho (Cex_initial_ok rho)). Qed.

(** Range evaluation is sound and total on the expressions it can handle:
    for an expression of at most 64 bits whose reads are of bytes, whose
    concatenations end in a byte and whose comparisons are canonical and, if
    signed, of fewer than 64 bits, [evaluate] returns a range, without a failing
    assert or an endless loop, and the range contains the value of the
    expression under every array contents. *)
Theorem range_evaluation_sound (e : Expr) (rho : valuation) (v : apint) : ranged e = true -> eval rho e = Some v ->
  exists r, evalRangeForExpr e = Done r /\ m_min r <= ap_val v <= m_max r /\ 0 <= m_min r /\ m_max r < 2 ^ getWidth e.
Proof.
  intros Hg E. destruct (evalRangeForExpr_ok rho e v Hg E) as (r & Er & [H1 H2]). exists r. split_and!; [done|lia..].
Qed.

End Cex.

(** ** Witness, and where it goes wrong *)

Definition bytes : Array := mkArray 1 "bytes" 4 32 8 [].
Definition byte_at (i : Z) : Expr := ReadExpr bytes un_null (ConstantExpr (APInt 32 i)).
Definition table : Array := mkArray 2 "table" 3 32 8 [APInt 8 10; APInt 8 20; APInt 8 30].
(** [(byte 0 & 1) + the second entry of a table] as a 16-bit value *)
Definition small_expr : Expr :=
  ConcatExpr (ReadExpr table un_null (ConstantExpr (APInt 32 1))) (BinaryExpr And (ConstantExpr (APInt 8 1)) (byte_at 0)).

Lemma range_evaluation_sound_witness : exists r, evalRangeForExpr (A:=apint_ref) small_expr = Done r /\ r = Range 256 5121 /\
  m_min r <= 5121 <= m_max r.
Proof.
  destruct (range_evaluation_sound (A:=apint_ref) (AS:=apint_ref_spec) small_expr (fun _ _ => 7) (APInt 16 5121)) as (r & E & H & _);
    [vm_compute; reflexivity..|].
  assert (Er : evalRangeForExpr (A:=apint_ref) small_expr = Done (Range 256 5121)) by (vm_compute; reflexivity).
  exists r. split_and!; [exact E|congruence|apply H..].
Defined.

(** [set_union] does not know the empty range [1, 0] that [evalRead] starts from:
    a read of the constant 20 has the range [1, 20]. *)
Lemma constant_read_imprecise : evalRangeForExpr (A:=apint_ref) (ReadExpr table un_null (ConstantExpr (APInt 32 1))) = Done (Range 1 20).
Proof. vm_compute. reflexivity. Qed.

(** A concatenation whose right part is wider than a byte: its left part is
    shifted by 8 bits all the same, and a value outside of the range is taken to
    be impossible, here [byte 0 : 0x0000 < 0x010000]. *)
Definition wide_expr : Expr := ConcatExpr (byte_at 0) (ConstantExpr (APInt 16 0)).
Definition wide_test : Expr := CmpExpr Ult wide_expr (ConstantExpr (APInt 24 0x10000)).

Lemma wide_concat_unsound :
  evalRangeForExpr (A:=apint_ref) wide_expr = Done (Range 0 0xFF00) /\ eval (fun _ _ => 1) wide_expr = Some (APInt 24 0x10000) /\
  evalRangeForExpr (A:=apint_ref) wide_test = Done (single 1) /\ eval (fun _ _ => 1) wide_test = Some (APInt 1 0).
Proof. split_and!; vm_compute; reflexivity. Qed.

(** A signed comparison of 64-bit values shifts a word by 64. *)
Lemma signed_64_undefined e : ranged e = true -> getWidth e = 64 -> (exists rho v, eval rho e = Some v) ->
  evalRangeForExpr (A:=apint_ref) (CmpExpr Slt e e) = Abort.
Proof.
  intros Hg Hw (rho & v & E). destruct (evalRangeForExpr_ok (A:=apint_ref) (AS:=apint_ref_spec) rho e v Hg E) as (r & Er & _).
  unfold evalRangeForExpr in *. cbn [evaluate]. rewrite Er. cbn [mbind outcome_bind]. now rewrite Hw.
Qed.
