(* ===== verification/FastCexSolver.v ===== *)
(** * The fast counterexample solver

    src/lib/Solver/FastCexSolver.cpp: an incomplete solver that propagates ranges
    of byte values through the constraints.  It keeps two ranges for each byte
    of an array: the possible values, a guess from which a satisfying assignment
    is tried, and the exact values, which the byte must have if all constraints
    hold.  [Abort] is a failing assert, an access outside of a vector or a shift
    that C++ leaves undefined. *)
From stdpp Require Import gmap strings.
From S2P Require Import Prelude APInt Expr ExprOrder ExprSem ExprCreate ExprCreateSound ExprRebuildSound ExprVisitor ExprEvaluator IndependentElementSet ConstraintManager Bits IntEvaluation ValueRange ExprRangeEvaluator Solver IncompleteSolver SolverAssignment ValidatingSolver.


(** ** Ranges of the bytes of the arrays *)

Record CexObjectData := mkCexObject { possibleContents : list ValueRange; exactContents : list ValueRange }.

Definition new_CexObjectData (size : Z) : CexObjectData :=
  mkCexObject (replicate (Z.to_nat size) (Range 0 255)) (replicate (Z.to_nat size) (Range 0 255)).

Definition setPossibleValues (cod : CexObjectData) (index : Z) (values : ValueRange) : CexObjectData :=
  mkCexObject (<[Z.to_nat index := values]> (possibleContents cod)) (exactContents cod).
(** The value is an [unsigned char]. *)
Definition setPossibleValue (cod : CexObjectData) (index value : Z) : CexObjectData := setPossibleValues cod index (single (BV.wrap 8 value)).
Definition setExactValues (cod : CexObjectData) (index : Z) (values : ValueRange) : CexObjectData :=
  mkCexObject (possibleContents cod) (<[Z.to_nat index := values]> (exactContents cod)).

(** The possible ranges are never empty ([possible_ok] below), so the asserts of
    [min()] and [max()] hold. *)
Definition getPossibleValue (cod : CexObjectData) (index : Z) : Z :=
  let cvd := default (Range 0 0) (possibleContents cod !! Z.to_nat index) in
  BV.wrap 8 (m_min cvd + (m_max cvd - m_min cvd) / 2).

(** [std::map<const Array*, CexObjectData*>] *)
Notation CexData := (gmap Array CexObjectData).

(** [getObjectData]: the data of an array, made on the first access. *)
Definition getObjectData (cd : CexData) (array : Array) : CexObjectData := default (new_CexObjectData (size array)) (cd !! array).

(** The boolean value of a [uint64_t], and [!value]. *)
Definition truthy (v : Z) : bool := negb (v =? 0).
Definition falsy (v : Z) : Z := if v =? 0 then 1 else 0.

Section Propagation.
Context `{A : APIntOps}.

(** *** Possible values *)

Definition possible_read (array : Array) (index : Expr) (range : ValueRange) (cd : CexData) : outcome CexData :=
  let cod := getObjectData cd array in
  match index with
  | ConstantExpr CE =>
    let i := getZExtValue CE in
    if i <? size array then
      if isFixed range then Done (<[array := setPossibleValue cod i (m_min range)]> cd)
      else
        cvd ← or_abort (possibleContents cod !! Z.to_nat i);
        let tmp := set_intersection cvd range in
        Done (<[array := if isEmpty tmp then cod else setPossibleValues cod i tmp]> cd)
    else Done (<[array := cod]> cd)
  | _ => Done (<[array := cod]> cd)
  end.

(** [1<<(inBits-1)] is a shift of an [int]. *)
Definition int_shift (bits : Z) : outcome Z := _ ← check ((0 <=? bits) && (bits <? 31)); Done (Z.shiftl 1 bits).

(** The values [SExt] cannot return. *)
Definition sext_gap (inBits outBits : Z) : outcome ValueRange :=
  lo ← int_shift (inBits - 1); maxOut ← checked_maxValueOfNBits outBits; maxIn ← checked_maxValueOfNBits (inBits - 1);
  Done (Range lo (uint64 (maxOut - maxIn - 1))).

(** [ConstantExpr::alloc(v, W)->Sub(CE)->getZExtValue()] *)
Definition minus_constant (v : Z) (CE : apint) : Z := getZExtValue (ConstantExpr_arith Sub (ConstantExpr'alloc v (ap_width CE)) CE).

Fixpoint propogatePossibleValues (e : Expr) (range : ValueRange) (cd : CexData) : outcome CexData :=
  match e with
  | ConstantExpr _ | NotOptimizedExpr _ | ExtractExpr _ _ _ => Done cd
  | ReadExpr array _ index => possible_read array index range cd
  | SelectExpr c t f =>
    cond ← evalRangeForExpr c;
    if isFixed cond then
      if truthy (m_min cond) then propogatePossibleValues t range cd else propogatePossibleValues f range cd
    else cd ← propogatePossibleValues t range cd; propogatePossibleValues f range cd
  | ConcatExpr l r =>
    let LSBWidth := getWidth r in
    let MSBWidth := getWidth r in
    msb ← extract range LSBWidth (LSBWidth + MSBWidth);
    cd ← propogatePossibleValues l msb cd;
    lsb ← extract range 0 LSBWidth;
    propogatePossibleValues r lsb cd
  | CastExpr ZExt src _ =>
    m ← checked_maxValueOfNBits (getWidth src);
    propogatePossibleValues src (set_intersection range (Range 0 m)) cd
  | CastExpr SExt src width =>
    gap ← sext_gap (getWidth src) width;
    m ← checked_maxValueOfNBits (getWidth src);
    input ← binaryAnd (set_difference range gap) (single m);
    propogatePossibleValues src input cd
  | BinaryExpr Add l r =>
    match l with
    | ConstantExpr CE =>
      if (ap_width CE <=? 64) && negb (isEmpty range) then
        let nrange := Range (minus_constant (m_min range) CE) (minus_constant (m_max range) CE) in
        if isEmpty nrange then Done cd else propogatePossibleValues r nrange cd
      else Done cd
    | _ => Done cd
    end
  | BinaryExpr And l r =>
    if (getWidth l =? Bool) && isFixed range then
      left ← evalRangeForExpr l; right ← evalRangeForExpr r;
      if truthy (m_min range) then
        cd ← (if mustEqual_value left 1 then Done cd else propogatePossibleValues l (single 1) cd);
        if mustEqual_value right 1 then Done cd else propogatePossibleValues r (single 1) cd
      else if mustEqual_value left 0 || mustEqual_value right 0 then Done cd
      else
        cd ← propogatePossibleValues l (single 0) cd;
        left ← evalRangeForExpr l;
        if mustEqual_value left 1 then Done cd else propogatePossibleValues r (single 0) cd
    else Done cd
  | BinaryExpr Or l r =>
    if (getWidth l =? Bool) && isFixed range then
      left ← evalRangeForExpr l; right ← evalRangeForExpr r;
      if truthy (m_min range) then
        if mustEqual_value left 1 || mustEqual_value right 1 then Done cd
        else
          cd ← propogatePossibleValues l (single 1) cd;
          left ← evalRangeForExpr l;
          if mustEqual_value left 1 then Done cd else propogatePossibleValues r (single 1) cd
      else
        cd ← (if mustEqual_value left 0 then Done cd else propogatePossibleValues l (single 0) cd);
        if mustEqual_value right 0 then Done cd else propogatePossibleValues r (single 0) cd
    else Done cd
  | BinaryExpr _ _ _ => Done cd
  | CmpExpr Eq l r =>
    match l with
    | ConstantExpr CE =>
      if isFixed range && (ap_width CE <=? 64) then
        let value := getZExtValue CE in
        if truthy (m_min range) then propogatePossibleValues r (single value) cd
        else if value =? 0 then m ← checked_maxValueOfNBits (ap_width CE); propogatePossibleValues r (Range 1 m) cd
        else propogatePossibleValues r (Range 0 (value - 1)) cd
      else Done cd
    | _ => Done cd
    end
  | NotExpr x =>
    if (getWidth x =? Bool) && isFixed range then propogatePossibleValues x (single (falsy (m_min range))) cd else Done cd
  | CmpExpr Ult l r =>
    if isFixed range then
      left ← evalRangeForExpr l; right ← evalRangeForExpr r; maxValue ← checked_maxValueOfNBits (getWidth r);
      if isFixed left then
        propogatePossibleValues r (if truthy (m_min range) then Range (uint64 (m_min left + 1)) maxValue else Range 0 (m_min left)) cd
      else if isFixed right then
        propogatePossibleValues l (if truthy (m_min range) then Range 0 (uint64 (m_min right - 1)) else Range (m_min right) maxValue) cd
      else Done cd
    else Done cd
  | CmpExpr Ule l r =>
    if isFixed range then
      left ← evalRangeForExpr l; right ← evalRangeForExpr r; maxValue ← checked_maxValueOfNBits (getWidth r);
      if isFixed left then
        propogatePossibleValues r (if truthy (m_min range) then Range (m_min left) maxValue else Range 0 (uint64 (m_min left - 1))) cd
      else if isFixed right then
        propogatePossibleValues l (if truthy (m_min range) then Range 0 (m_min right) else Range (uint64 (m_min right + 1)) maxValue) cd
      else Done cd
    else Done cd
  | CmpExpr (Slt | Sle) _ _ => Done cd
  | CmpExpr (Ne | Ugt | Uge | Sgt | Sge) _ _ => Abort
  end.

(** *** Exact values *)

(** The initial read of an array, at the end of the updates. *)
Definition exact_initial (array : Array) (index range : ValueRange) (cd : CexData) : outcome CexData :=
  if isFixed index then
    if isConstantArray array then _ ← or_abort (constantValues array !! Z.to_nat (m_min index)); Done cd
    else
      let cod := getObjectData cd array in
      cvd ← or_abort (exactContents cod !! Z.to_nat (m_min index));
      rmin ← range_min range; cmin ← range_min cvd;
      cvd ← (if cmin <? rmin then cmax ← range_max cvd; _ ← check (rmin <=? cmax); Done (Range rmin cmax) else Done cvd);
      rmax ← range_max range; cmax ← range_max cvd;
      cvd ← (if rmax <? cmax then cmin ← range_min cvd; _ ← check (cmin <=? rmax); Done (Range cmin rmax) else Done cvd);
      Done (<[array := setExactValues cod (m_min index) cvd]> cd)
  else Done cd.

Fixpoint propogateExactValues (e : Expr) (range : ValueRange) (cd : CexData) : outcome CexData :=
  match e with
  | ReadExpr array head index =>
    let cd := <[array := getObjectData cd array]> cd in
    i ← evalRangeForExpr index;
    exact_updates array index head i range cd
  | CmpExpr Eq l r =>
    match l with
    | ConstantExpr CE =>
      if isFixed range && (ap_width CE <=? 64) then
        let value := getZExtValue CE in
        if truthy (m_min range) then propogateExactValues r (single value) cd
        else if getWidth r =? Bool then propogateExactValues r (single (falsy value)) cd
        else Done cd
      else Done cd
    | _ => Done cd
    end
  | NotExpr x =>
    if (getWidth x =? Bool) && isFixed range then propogateExactValues x (single (falsy (m_min range))) cd else Done cd
  | CmpExpr (Ne | Ugt | Uge | Sgt | Sge) _ _ => Abort
  | _ => Done cd
  end
with exact_updates (array : Array) (index : Expr) (un : UpdateNode) (i range : ValueRange) (cd : CexData) : outcome CexData :=
  match un with
  | un_null => exact_initial array i range cd
  | un_node next uindex uvalue =>
    ui ← evalRangeForExpr uindex;
    if mayEqual ui i then
      if mustEqual ui i || Expr_eqb index uindex then propogateExactValues uvalue range cd else Done cd
    else exact_updates array index next i range cd
  end.

End Propagation.

(** ** Evaluation under the ranges *)

Section Evaluators.
Context `{A : APIntOps} `{Opts : ExprOptions} (UseVisitorHash : bool).

(** A read of an initial byte that stays symbolic. *)
Definition initial_read (array : Array) (index : Z) : Expr :=
  ReadExpr'create (mkUpdateList array un_null) (ConstantExpr (ConstantExpr'alloc index (domain array))).

(** [CexPossibleEvaluator::getInitialValue] *)
Definition possible_initialValue (cd : CexData) (array : Array) (index : Z) : Expr :=
  if size array <=? index then initial_read array index
  else ConstantExpr (ConstantExpr'alloc (match cd !! array with None => 127 | Some cod => getPossibleValue cod index end) (range array)).

(** [CexExactEvaluator::getInitialValue] *)
Definition exact_initialValue (cd : CexData) (array : Array) (index : Z) : Expr :=
  if size array <=? index then initial_read array index
  else match cd !! array with
  | None => initial_read array index
  | Some cod =>
    match exactContents cod !! Z.to_nat index with
    | Some cvd => if isFixed cvd then ConstantExpr (ConstantExpr'alloc (m_min cvd) (range array)) else initial_read array index
    | None => initial_read array index
    end
  end.

Definition evaluateWith (getInitialValue : Array -> Z -> Expr) (e : Expr) : outcome Expr :=
  or_fuel (fst <$> visit UseVisitorHash (evaluate_fuel e) (ExprEvaluator getInitialValue) e no_tables).
Definition evaluatePossible (cd : CexData) : Expr -> outcome Expr := evaluateWith (possible_initialValue cd).
Definition evaluateExact (cd : CexData) : Expr -> outcome Expr := evaluateWith (exact_initialValue cd).

(** ** The solver *)

(** The ranges of one expression with the given truth value. *)
Definition propogate (value : Z) (cd : CexData) (e : Expr) : outcome CexData :=
  cd ← propogatePossibleValues e (single value) cd; propogateExactValues e (single value) cd.

Fixpoint propogate_all (value : Z) (es : list Expr) (cd : CexData) : outcome CexData :=
  match es with [] => Done cd | e :: es' => cd ← propogate value cd e; propogate_all value es' cd end.

(** The second loop over the constraints: [true] when a constraint is known to be
    false, else [hasSatisfyingAssignment]. *)
Fixpoint check_all (cd : CexData) (hasSatisfyingAssignment : bool) (es : list Expr) : outcome (bool + bool) :=
  match es with
  | [] => Done (inr hasSatisfyingAssignment)
  | e :: es' =>
    sat ← (if hasSatisfyingAssignment then p ← evaluatePossible cd e; Done (Expr_isTrue p) else Done false);
    x ← evaluateExact cd e;
    if Expr_isFalse x then Done (inl true) else check_all cd sat es'
  end.

(** [propogateValues]: the ranges, and [Some isValid] when the propagation was
    able to prove validity or invalidity. *)
Definition propogateValues (q : Query) (checkExpr : bool) : outcome (CexData * option bool) :=
  cd ← propogate_all 1 (q_constraints q) ∅;
  cd ← (if checkExpr then propogate 0 cd (q_expr q) else Done cd);
  '(sat, proved) ← (if checkExpr then
      p ← evaluatePossible cd (q_expr q); x ← evaluateExact cd (q_expr q); Done (Expr_isFalse p, Expr_isTrue x)
    else Done (true, false));
  if (proved : bool) then Done (cd, Some true)
  else
    r ← check_all cd sat (q_constraints q);
    Done (cd, match r with inl _ => Some true | inr true => Some false | inr false => None end).

Definition fast_truth (q : Query) : outcome PartialValidity :=
  '(_, r) ← propogateValues q true;
  Done (match r with None => PVNone | Some true => MustBeTrue | Some false => MayBeFalse end).

Definition fast_value (q : Query) : outcome (option Expr) :=
  '(cd, r) ← propogateValues q false;
  match r with
  | Some false => value ← evaluatePossible cd (q_expr q); Done (if is_constant value then Some value else None)
  | _ => Done None
  end.

(** The bytes of an object, [None] when one of them is not a constant. *)
Fixpoint possible_bytes (cd : CexData) (array : Array) (indices : list nat) : outcome (option (list Z)) :=
  match indices with
  | [] => Done (Some [])
  | i :: indices' =>
    value ← evaluatePossible cd (ReadExpr'create (mkUpdateList array un_null) (ConstantExpr (ConstantExpr'create (Z.of_nat i) (domain array))));
    match value with
    | ConstantExpr CE =>
      _ ← check (ap_width CE <=? 8);
      rest ← possible_bytes cd array indices';
      Done (option_map (cons (BV.wrap 8 (getZExtValue CE))) rest)
    | _ => Done None
    end
  end.
Fixpoint possible_objects (cd : CexData) (objects : list Array) : outcome (option (list (list Z))) :=
  match objects with
  | [] => Done (Some [])
  | array :: objects' =>
    data ← possible_bytes cd array (seq 0 (Z.to_nat (size array)));
    match data with
    | Some bytes => rest ← possible_objects cd objects'; Done (option_map (cons bytes) rest)
    | None => Done None
    end
  end.

Definition fast_initial (q : Query) (objects : list Array) : outcome (option (option (list (list Z)))) :=
  '(cd, r) ← propogateValues q true;
  match r with
  | None => Done None
  | Some true => Done (Some None)
  | Some false => values ← possible_objects cd objects; Done (option_map Some values)
  end.

(** A result, or [false]. *)
Definition answer {X} (o : outcome (option X)) : SolverM unit X := r ← pure o; match r with Some x => mret x | None => failure end.

Definition FastCexSolver : IncompleteSolver unit := mkIncomplete
  (IncompleteSolver_computeValidity (fun q => pure (fast_truth q)))
  (fun q => pure (fast_truth q))
  (fun q => answer (fast_value q))
  (fun q objects => answer (fast_initial q objects)).

End Evaluators.

(** ** Invariants of the ranges *)

(** Inversion of the computations that return. *)
Ltac inv_done :=
  repeat match goal with
  | H : mbind _ _ = Done _ |- _ => apply outcome_bind_done in H as (? & ? & H)
  | H : Done _ = Done _ |- _ => injection H as H; try subst
  | H : Abort = Done _ |- _ => discriminate H
  | H : (if ?b then _ else _) = Done _ |- _ => destruct b eqn:?
  | H : match ?x with _ => _ end = Done _ |- _ => destruct x eqn:?; try discriminate H
  | H : (let '(_, _) := ?x in _) = Done _ |- _ => destruct x
  | H : check ?b = Done _ |- _ => destruct b eqn:?; [clear H|discriminate H]
  | H : or_abort ?o = Done _ |- _ => destruct o eqn:?; [injection H as H; try subst|discriminate H]
  end.

Section Invariants.
Context `{A : APIntOps}.

(** A property that the reads keep is kept by the propagation. *)
Lemma possible_invariant (Inv : CexData -> Prop) :
  (forall array index range cd cd', Inv cd -> possible_read array index range cd = Done cd' -> Inv cd') ->
  forall e range cd cd', Inv cd -> propogatePossibleValues e range cd = Done cd' -> Inv cd'.
Proof.
  intros Hread. induction e; intros rg cd cd' HI H; cbn [propogatePossibleValues] in H; inv_done;
    repeat match goal with
    | IH : (forall range cd cd', Inv cd -> propogatePossibleValues ?e range cd = Done cd' -> Inv cd'), H : propogatePossibleValues ?e _ _ = Done _ |- _ =>
      apply IH in H; [|assumption]
    end; first [assumption | eapply Hread; [|eassumption]; assumption].
Qed.

Lemma exact_invariant (Inv : CexData -> Prop) :
  (forall array cd, Inv cd -> Inv (<[array := getObjectData cd array]> cd)) ->
  (forall array index range cd cd', Inv cd -> exact_initial array index range cd = Done cd' -> Inv cd') ->
  (forall e range cd cd', Inv cd -> propogateExactValues e range cd = Done cd' -> Inv cd') /\
  (forall un array index i range cd cd', Inv cd -> exact_updates array index un i range cd = Done cd' -> Inv cd').
Proof.
  intros Hget Hinit. apply Expr_UpdateNode_ind; intros; cbn [propogateExactValues exact_updates] in *; inv_done;
    try assumption;
    match goal with
    | H : propogateExactValues _ _ _ = Done _, IH : (forall range cd cd', Inv cd -> propogateExactValues _ range cd = Done cd' -> Inv cd') |- _ =>
      eapply IH; [|exact H]; assumption
    | H : exact_updates _ _ _ _ _ _ = Done _, IH : (forall array index i range cd cd', Inv cd -> exact_updates _ _ _ _ _ cd = Done cd' -> Inv cd') |- _ =>
      eapply IH; [|exact H]; auto
    | H : exact_initial _ _ _ _ = Done _ |- _ => eapply Hinit; [|exact H]; assumption
    end.
Qed.

(** The possible ranges of the bytes are ranges of bytes and not empty. *)
Definition byte_range (r : ValueRange) : Prop := 0 <= m_min r <= m_max r /\ m_max r <= 255.
Definition possible_ok (cd : CexData) : Prop := forall array cod, cd !! array = Some cod ->
  length (possibleContents cod) = Z.to_nat (size array) /\ Forall byte_range (possibleContents cod).

Lemma getObjectData_ok cd array : possible_ok cd -> 
  length (possibleContents (getObjectData cd array)) = Z.to_nat (size array) /\ Forall byte_range (possibleContents (getObjectData cd array)).
Proof.
  intros HI. unfold getObjectData. destruct (cd !! array) eqn:E; cbn; [now apply HI|].
  rewrite length_replicate. split; [done|]. apply Forall_replicate. unfold byte_range. cbn. lia.
Qed.

Lemma possible_ok_insert cd array cod : possible_ok cd ->
  length (possibleContents cod) = Z.to_nat (size array) -> Forall byte_range (possibleContents cod) -> possible_ok (<[array := cod]> cd).
Proof.
  intros HI Hl Hf array' cod' H. destruct (decide (array' = array)) as [->|Hn].
  - rewrite lookup_insert_eq in H. injection H as <-. done.
  - rewrite lookup_insert_ne in H by done. now apply HI.
Qed.

Lemma possible_read_ok array index range cd cd' : possible_ok cd -> possible_read array index range cd = Done cd' -> possible_ok cd'.
Proof.
  intros HI H. destruct (getObjectData_ok cd array HI) as [Hl Hf]. unfold possible_read in H.
  assert (Hset : forall i r, byte_range r -> length (possibleContents (setPossibleValues (getObjectData cd array) i r)) = Z.to_nat (size array) /\
    Forall byte_range (possibleContents (setPossibleValues (getObjectData cd array) i r))).
  { intros i r Hr. cbn. rewrite length_insert. split; [done|]. now apply Forall_insert. }
  assert (Hw : byte_range (single (BV.wrap 8 (m_min range)))).
  { pose proof (BV.wrap_range 8 (m_min range) ltac:(lia)). unfold byte_range. cbn. lia. }
  inv_done; try (now apply possible_ok_insert); [now apply possible_ok_insert; [|apply Hset..]|].
  destruct (isEmpty _) eqn:Ee; [now apply possible_ok_insert|]. apply Z.ltb_ge in Ee. rewrite Forall_forall in Hf.
  match goal with H : _ !! _ = Some ?x |- _ => apply list_elem_of_lookup_2, Hf in H as [Hx1 Hx2] end.
  apply possible_ok_insert; [done|apply Hset..]; unfold byte_range; cbn in *; lia.
Qed.

Lemma exact_initial_possible array index range cd cd' : possible_ok cd -> exact_initial array index range cd = Done cd' -> possible_ok cd'.
Proof.
  intros HI H. destruct (getObjectData_ok cd array HI) as [Hl Hf]. unfold exact_initial in H. inv_done; try done; now apply possible_ok_insert.
Qed.

(** The asserts of [getPossibleValue] hold in every state the propagation
    reaches. *)
Lemma propogation_possible_ok : possible_ok ∅ /\
  (forall e range cd cd', possible_ok cd -> propogatePossibleValues e range cd = Done cd' -> possible_ok cd') /\
  (forall e range cd cd', possible_ok cd -> propogateExactValues e range cd = Done cd' -> possible_ok cd').
Proof.
  split_and!; [intros ?? H; now rewrite lookup_empty in H|apply possible_invariant, possible_read_ok|].
  apply (exact_invariant possible_ok); [|apply exact_initial_possible].
  intros array cd HI. destruct (getObjectData_ok cd array HI). now apply possible_ok_insert.
Qed.

(** The exact ranges contain the bytes of [rho]. *)
Definition within (rho : valuation) (cd : CexData) : Prop := forall array cod i r, cd !! array = Some cod ->
  exactContents cod !! i = Some r -> m_min r <= BV.wrap (range array) (rho array (Z.of_nat i)) <= m_max r.

Lemma within_empty rho : within rho ∅.
Proof. intros ???? H. now rewrite lookup_empty in H. Qed.

Lemma byte_wrap rho a i : byte_contents rho -> 0 <= BV.wrap (range a) (rho a i) <= 255.
Proof.
  intros Hb. specialize (Hb a i). unfold BV.wrap. destruct (Z.lt_ge_cases (range a) 0).
  - rewrite Z.pow_neg_r, Zmod_0_r by done. lia.
  - pose proof (BV.pow2_pos (range a) ltac:(lia)). pose proof (Z.mod_pos_bound (rho a i) (2 ^ range a) ltac:(lia)).
    assert (rho a i mod 2 ^ range a <= rho a i) by (apply Z.mod_le; lia). lia.
Qed.

Section Exact.
Context {AS : APIntSpec A} (rho : valuation) (Hb : byte_contents rho).

Lemma within_object cd array i r : within rho cd -> exactContents (getObjectData cd array) !! i = Some r ->
  m_min r <= BV.wrap (range array) (rho array (Z.of_nat i)) <= m_max r.
Proof.
  intros HI H. unfold getObjectData in H. destruct (cd !! array) as [cod|] eqn:E; cbn in H; [now apply (HI array cod)|].
  apply lookup_replicate in H as [-> _]. now apply byte_wrap.
Qed.

Lemma within_insert cd array cod : within rho cd ->
  (forall i r, exactContents cod !! i = Some r -> m_min r <= BV.wrap (range array) (rho array (Z.of_nat i)) <= m_max r) ->
  within rho (<[array := cod]> cd).
Proof.
  intros HI Hc array' cod' i r H Hr. destruct (decide (array' = array)) as [->|Hn].
  - rewrite lookup_insert_eq in H. injection H as <-. now apply Hc.
  - rewrite lookup_insert_ne in H by done. now apply (HI array' cod').
Qed.

Lemma within_object_insert cd array : within rho cd -> within rho (<[array := getObjectData cd array]> cd).
Proof. intros HI. apply within_insert; [done|]. intros i r. now apply within_object. Qed.

Lemma possible_read_within array index range cd cd' : within rho cd -> possible_read array index range cd = Done cd' -> within rho cd'.
Proof.
  intros HI H. unfold possible_read in H.
  assert (Hset : forall i r, within rho (<[array := setPossibleValues (getObjectData cd array) i r]> cd)).
  { intros i r. apply within_insert; [done|]. cbn. intros i' r'. now apply within_object. }
  inv_done; try (now apply within_object_insert); [apply Hset|]. destruct (isEmpty _); [now apply within_object_insert|apply Hset].
Qed.

(** The reads whose indices the range evaluation can handle. *)
Fixpoint exact_ok (e : Expr) : bool :=
  match e with
  | ReadExpr _ head index => ranged index && exact_ok_updates head
  | CmpExpr _ _ r => exact_ok r
  | NotExpr x => exact_ok x
  | _ => true
  end
with exact_ok_updates (un : UpdateNode) : bool :=
  match un with
  | un_null => true
  | un_node next i v => ranged i && exact_ok v && exact_ok_updates next
  end.

Lemma exact_initial_within array index range' cd cd' i v : within rho cd -> covers (domain array) index i ->
  initial_value rho array i = Some v -> m_min range' <= v <= m_max range' ->
  exact_initial array index range' cd = Done cd' -> within rho cd'.
Proof.
  intros HI Hc Hv Hr H. unfold exact_initial in H. destruct (isFixed index) eqn:Ef; [|inv_done; done].
  rewrite (fixed_covers _ _ _ Hc Ef) in H. destruct Hc as [Hc1 Hc2]. destruct (isConstantArray array) eqn:Ec; [inv_done; done|].
  unfold initial_value in Hv. rewrite Ec in Hv. injection Hv as <-. unfold range_min, range_max in H.
  apply outcome_bind_done in H as (cvd & Hcvd & H). destruct (exactContents _ !! _) eqn:El; [|done]. injection Hcvd as ->.
  pose proof (within_object cd array _ _ HI El) as Hin. rewrite Z2Nat.id in Hin by lia.
  assert (Hset : forall r, m_min r <= BV.wrap (range array) (rho array i) <= m_max r ->
    within rho (<[array := setExactValues (getObjectData cd array) i r]> cd)).
  { intros r Hin'. apply within_insert; [done|]. intros j r' Hj. cbn in Hj. destruct (decide (j = Z.to_nat i)) as [->|Hn].
    - rewrite list_lookup_insert_eq in Hj by (eapply lookup_lt_Some; exact El). injection Hj as <-. rewrite Z2Nat.id by lia. done.
    - rewrite list_lookup_insert_ne in Hj by done. now apply (within_object cd). }
  inv_done; apply Hset; cbn in *; lia.
Qed.

Lemma exact_within :
  (forall e v range' cd cd', eval rho e = Some v -> exact_ok e = true -> m_min range' <= ap_val v <= m_max range' -> within rho cd ->
     propogateExactValues e range' cd = Done cd' -> within rho cd') /\
  (forall un array index i us iv v range' cd cd', eval_updates rho array un = Some us -> exact_ok_updates un = true ->
     eval rho index = Some iv -> covers (domain array) i (ap_val iv) -> read_value rho array us (ap_val iv) = Some v ->
     m_min range' <= v <= m_max range' -> within rho cd -> exact_updates array index un i range' cd = Done cd' -> within rho cd').
Proof.
  apply Expr_UpdateNode_ind; cbn [propogateExactValues exact_ok]; try (intros; inv_done; done).
  - (* read *)
    intros root head IHh index IHi v range' cd cd' E Hg Hr HI H. cbn [eval] in E. apply bind_Some in E as (us & Eu & E).
    apply bind_Some in E as (iv & Ei & E). unfold eval_read in E.
    destruct (array_ok root && (ap_width iv =? domain root)) eqn:Hc; [|done]. apply andb_true_iff in Hc as [_ Hw%Z.eqb_eq].
    apply fmap_Some in E as (x & Ex & ->). apply andb_true_iff in Hg as [Gi Gh].
    destruct (evalRangeForExpr_ok rho index iv Gi Ei) as (ri & Eri & Ci). rewrite (eval_width _ _ _ Ei), Hw in Ci. rewrite Eri in H.
    cbn [mbind outcome_bind] in H. refine (IHh root index ri us iv x range' _ cd' Eu Gh Ei Ci Ex Hr _ H). now apply within_object_insert.
  - (* not *)
    intros x IH v range' cd cd' E Hg Hr HI H. cbn [eval] in E. apply bind_Some in E as (y & Ey & E). injection E as <-.
    inv_done; [|done]. match goal with G : _ && _ = true |- _ => apply andb_true_iff in G as [Hw%Z.eqb_eq Hf%Z.eqb_eq] end.
    eapply (IH y); [done..| |exact HI|exact H]. pose proof (value_bound rho x y Ey) as [_ Hy]. rewrite Hw in Hy. change (2 ^ Bool) with 2 in Hy.
    cbn in Hr. rewrite <- (eval_width _ _ _ Ey), Hw in Hr. change (2 ^ Bool) with 2 in Hr. unfold falsy. cbn.
    destruct (Z.eqb_spec (m_min range') 0); lia.
  - (* comparison *)
    intros k l IHl r IHr v range' cd cd' E Hg Hr HI H. destruct k; try (inv_done; done).
    cbn [eval] in E. apply bind_Some in E as (x & Ex & E). apply bind_Some in E as (y & Ey & E). unfold eval_cmp in E.
    destruct (Z.eqb_spec (ap_width x) (ap_width y)) as [Ew|]; [|done]. injection E as <-. cbn [ap_val cmp_sem] in Hr.
    destruct l as [CE| | | | | | | | |]; try (inv_done; done). apply eval_const_inv in Ex as [-> Vc].
    destruct (isFixed range' && (ap_width CE <=? 64)) eqn:Ef; [|inv_done; done]. apply andb_true_iff in Ef as [Hf%Z.eqb_eq H64%Z.leb_le].
    unfold getZExtValue in H. rewrite ap_getZExtValue_spec in H by done. unfold truthy in H.
    destruct (Z.eqb_spec (m_min range') 0) as [E0|E0]; cbn [negb] in H.
    + destruct (getWidth r =? Bool) eqn:Hw; [|inv_done; done]. apply Z.eqb_eq in Hw.
      eapply (IHr y); [done..| |exact HI|exact H]. pose proof (value_bound rho r y Ey) as [_ Hy]. rewrite Hw in Hy. change (2 ^ Bool) with 2 in Hy.
      apply ap_valid_spec in Vc as [_ Vc]. rewrite Ew, <- (eval_width _ _ _ Ey), Hw in Vc. change (2 ^ Bool) with 2 in Vc.
      unfold falsy. cbn. destruct (Z.eqb_spec (ap_val CE) (ap_val y)); cbn in Hr; [lia|]. destruct (Z.eqb_spec (ap_val CE) 0); lia.
    + eapply (IHr y); [done..| |exact HI|exact H]. destruct (Z.eqb_spec (ap_val CE) (ap_val y)); cbn in Hr |- *; lia.
  - (* no updates *)
    intros array index i us iv v range' cd cd' E _ Ei Ci Hv Hr HI H. cbn in E. injection E as <-.
    cbn [exact_updates] in H. now apply (exact_initial_within array i range' cd cd' (ap_val iv) v).
  - (* update *)
    intros next IHn ui IHi uv IHv array index i us0 iv v range' cd cd' E Hg Ei Ci Hv Hr HI H.
    cbn [eval_updates] in E. apply bind_Some in E as (us & Eu & E). apply bind_Some in E as (uiv & Eui & E). apply bind_Some in E as (uvv & Euv & E).
    inv_eval. cbn [exact_ok_updates] in Hg. apply andb_true_iff in Hg as [Hg Gn]. apply andb_true_iff in Hg as [Gi Gv].
    destruct (evalRangeForExpr_ok rho ui uiv Gi Eui) as (ri & Eri & Cri). rewrite (eval_width _ _ _ Eui) in Cri.
    replace (ap_width uiv) with (domain array) in Cri by lia. cbn [exact_updates] in H. rewrite Eri in H. cbn [mbind outcome_bind] in H.
    destruct (mayEqual ri i) eqn:Em.
    + destruct (mustEqual ri i || Expr_eqb index ui) eqn:Ea; [|inv_done; done].
      assert (Eq : ap_val uiv = ap_val iv).
      { apply orb_true_iff in Ea as [Ea|Ea]; [now apply (mustEqual_covers (domain array) ri i)|].
        rewrite Expr_eqb_eq in Ea by (eapply eval_wf; eassumption). subst. congruence. }
      unfold read_value in Hv. cbn in Hv. rewrite Eq, Z.eqb_refl in Hv. injection Hv as <-. now apply (IHv uvv range' cd cd').
    + eapply (IHn array index i us iv v); [done..| |exact Hr|exact HI|exact H].
      apply (read_value_next rho array (ap_val uiv) (ap_val uvv)); [|done]. pose proof (mayEqual_covers _ _ _ _ _ Cri Ci Em). congruence.
Qed.

End Exact.
End Invariants.

(** ** The answers *)

Section Answers.
Context `{A : APIntOps} {AS : APIntSpec A} `{Opts : ExprOptions} (UseVisitorHash : bool) (U : list Array).

Lemma initial_read_ok rho r i : array_ok r = true -> isConstantArray r = false -> domain r <= 32 -> 0 <= i < 2 ^ domain r ->
  evaluates rho false (APInt (range r) (BV.wrap (range r) (rho r i))) (initial_read r i).
Proof.
  intros Hr Hc Hd Hi. split; [|done]. apply ReadExpr'create_sound. pose proof (array_ok_domain_pos r Hr). rewrite alloc_index by lia.
  eapply eval_read_expr; [reflexivity|now apply eval_const, BV.in_range_spec|done|done|]. unfold read_value, initial_value. cbn. now rewrite Hc.
Qed.

Lemma evaluateWith_ok rho getInitialValue e v :
  (forall r i, array_ok r = true -> isConstantArray r = false -> domain r <= 32 -> 0 <= i < 2 ^ domain r ->
     evaluates rho false (APInt (range r) (BV.wrap (range r) (rho r i))) (getInitialValue r i)) ->
  evaluable false e = true -> eval rho e = Some v ->
  exists r, evaluateWith UseVisitorHash getInitialValue e = Done r /\ eval rho r = Some v.
Proof.
  intros Hinit He Ev. unfold evaluateWith.
  pose proof (evaluator_visit_ok UseVisitorHash rho false getInitialValue Hinit (evaluate_fuel e) e v ltac:(done) He Ev no_tables (no_tables_ok _ _)) as Hok.
  destruct (visit _ _ _ _ _) as [[r st]|]; [|done]. exists r. split; [done|apply Hok].
Qed.

(** The contents made of the possible values. *)
Definition possible_contents (cd : CexData) : valuation := fun array i =>
  if (0 <=? i) && (i <? size array) then match cd !! array with None => 127 | Some cod => getPossibleValue cod i end else 0.

Lemma possible_contents_bytes cd : byte_contents (possible_contents cd).
Proof.
  intros a i. unfold possible_contents. destruct (Z.leb_spec 0 i), (Z.ltb_spec i (size a)); cbn [andb]; split; try lia.
  destruct (cd !! a); [|lia]. unfold getPossibleValue. apply (BV.wrap_range 8). lia.
Qed.

Lemma evaluatePossible_value cd e v : evaluable false e = true -> eval (possible_contents cd) e = Some v ->
  exists r, evaluatePossible UseVisitorHash cd e = Done r /\ eval (possible_contents cd) r = Some v.
Proof.
  intros He Ev. apply evaluateWith_ok; [|done..].
  intros a i Ha Hc Hd Hi. pose proof (possible_contents_bytes cd a i) as [Hb _]. pose proof (array_ok_range a Ha).
  unfold possible_initialValue. destruct (Z.leb_spec (size a) i); [now apply initial_read_ok|].
  assert (E : possible_contents cd a i = match cd !! a with None => 127 | Some cod => getPossibleValue cod i end).
  { unfold possible_contents. now rewrite (proj2 (Z.leb_le 0 i)), (proj2 (Z.ltb_lt i (size a))) by lia. }
  rewrite <- E, alloc_byte by lia. apply evaluates_const. now apply BV.wrap_in_range.
Qed.

Lemma evaluatePossible_ok cd e : expr_ok U e ->
  exists r v, evaluatePossible UseVisitorHash cd e = Done r /\ eval (possible_contents cd) e = Some v /\ eval (possible_contents cd) r = Some v.
Proof.
  intros He. destruct (eo_defined _ _ He _ (possible_contents_bytes cd)) as [v Ev].
  destruct (evaluatePossible_value cd e v) as (r & Er & Hr); [apply evaluable_weaken, He|done|now exists r, v].
Qed.

Lemma evaluateExact_ok rho cd e v : byte_contents rho -> within rho cd -> expr_ok U e -> eval rho e = Some v ->
  exists r, evaluateExact UseVisitorHash cd e = Done r /\ eval rho r = Some v.
Proof.
  intros Hb HI He Ev. apply evaluateWith_ok; [|apply evaluable_weaken, He|done]. intros a i Ha Hc Hd Hi. unfold exact_initialValue.
  destruct (size a <=? i); [now apply initial_read_ok|]. destruct (cd !! a) as [cod|] eqn:Ec; [|now apply initial_read_ok].
  destruct (exactContents cod !! Z.to_nat i) as [r|] eqn:Er; [|now apply initial_read_ok].
  destruct (isFixed r) eqn:Ef; [|now apply initial_read_ok]. apply Z.eqb_eq in Ef.
  pose proof (HI a cod _ r Ec Er) as Hin. rewrite Z2Nat.id in Hin by lia. pose proof (byte_wrap rho a i Hb).
  replace (m_min r) with (BV.wrap (range a) (rho a i)) by lia. pose proof (array_ok_range a Ha). rewrite alloc_byte, BV.wrap_wrap by lia.
  apply evaluates_const. now apply BV.wrap_in_range.
Qed.

(** A boolean that evaluates to a constant. *)
Lemma isTrue_value rho r v : eval rho r = Some v -> Expr_isTrue r = true -> v = APInt 1 1.
Proof.
  intros Ev H. destruct r; try done. apply eval_const_inv in Ev as [-> Vv]. cbn in H. rewrite isTrue_spec in H by done. inv_eval.
  rewrite negb_true_iff, Z.eqb_neq in *. match goal with H : ap_width ?c = 1 |- _ => destruct (width1_cases c Vv H) as [E|E], c; cbn in *; congruence end.
Qed.
Lemma isFalse_value rho r v : eval rho r = Some v -> Expr_isFalse r = true -> v = APInt 1 0.
Proof.
  intros Ev H. destruct r; try done. apply eval_const_inv in Ev as [-> Vv]. cbn in H. rewrite isFalse_spec in H by done. inv_eval.
  match goal with H : ap_width ?c = 1 |- _ => destruct c; cbn in *; congruence end.
Qed.

Lemma propogate_within rho value e v cd cd' : byte_contents rho -> within rho cd -> eval rho e = Some (APInt v value) -> exact_ok e = true ->
  propogate value cd e = Done cd' -> within rho cd'.
Proof.
  intros Hb HI Ev Hx H. unfold propogate in H. apply outcome_bind_done in H as (cd1 & H1 & H2).
  assert (HI1 : within rho cd1) by (eapply (possible_invariant (within rho)); [|exact HI|exact H1]; intros; eapply possible_read_within; eauto).
  refine (proj1 (exact_within rho Hb) e _ _ _ _ Ev Hx _ HI1 H2). cbn. lia.
Qed.

Lemma propogate_all_within rho es cd cd' : byte_contents rho -> within rho cd -> models rho es -> forallb exact_ok es = true ->
  propogate_all 1 es cd = Done cd' -> within rho cd'.
Proof.
  intros Hb. revert cd. induction es as [|e es IH]; intros cd HI Hm Hx H; cbn in H; [now injection H as <-|].
  apply outcome_bind_done in H as (cd1 & H1 & H2). inversion Hm; subst. cbn in Hx. apply andb_true_iff in Hx as [Hx Hxs].
  apply (IH cd1); [|done..]. now apply (propogate_within rho 1 e 1 cd).
Qed.

(** The second loop, for the contents of the possible values and for contents
    within the exact ranges. *)
Lemma check_all_ok cd sat es r : Forall (bool_ok U) es -> check_all UseVisitorHash cd sat es = Done r ->
  match r with
  | inr b => b = true -> sat = true /\ models (possible_contents cd) es
  | inl _ => forall rho, byte_contents rho -> within rho cd -> ~ models rho es
  end.
Proof.
  intros Hes. revert sat. induction Hes as [|e es [_ He] Hes IH]; intros sat H; cbn [check_all] in H.
  { injection H as <-. intros ->. split; [done|constructor]. }
  apply outcome_bind_done in H as (sat1 & H1 & H). apply outcome_bind_done in H as (x & Hx & H). destruct (Expr_isFalse x) eqn:Ef.
  - injection H as <-. intros rho Hb HI Hm. inversion Hm; subst.
    destruct (evaluateExact_ok rho cd e (APInt 1 1)) as (x' & Hx' & Ex); [done..|]. rewrite Hx in Hx'. injection Hx' as <-.
    discriminate (isFalse_value rho x _ Ex Ef).
  - specialize (IH _ H). destruct r as [u|b].
    + intros rho Hb HI Hm. inversion Hm; subst. now apply (IH rho).
    + intros Hbt. destruct (IH Hbt) as [-> Hm]. destruct sat; [|done]. split; [done|]. constructor; [|done].
      apply outcome_bind_done in H1 as (p & Hp & Ep). injection Ep as Ep.
      destruct (evaluatePossible_ok cd e He) as (p' & v & Hp' & Ev & Er). rewrite Hp in Hp'. injection Hp' as <-.
      rewrite Ev. f_equal. now apply (isTrue_value _ _ _ Er).
Qed.

Lemma possible_bytes_ok cd array l bytes : byte_array array -> (forall i, i ∈ l -> Z.of_nat i < size array) ->
  possible_bytes UseVisitorHash cd array l = Done (Some bytes) -> bytes = (fun i => possible_contents cd array (Z.of_nat i)) <$> l.
Proof.
  intros [Hbd H8]. revert bytes. induction l as [|i l IH]; intros bytes Hl H; cbn [possible_bytes] in H; [now injection H as <-|].
  unfold bindable in Hbd. rewrite !andb_true_iff, !Z.leb_le, negb_true_iff in Hbd. destruct Hbd as [[[Hok Hc] Hd] Hs].
  assert (Hi : Z.of_nat i < size array) by (apply Hl; left). pose proof (array_ok_domain_pos _ Hok).
  apply outcome_bind_done in H as (value & Hv & H). unfold ConstantExpr'create in Hv. rewrite alloc_index in Hv by lia.
  assert (Hread : ReadExpr'create (mkUpdateList array un_null) (ConstantExpr (APInt (domain array) (Z.of_nat i))) =
    ReadExpr array un_null (ConstantExpr (APInt (domain array) (Z.of_nat i)))).
  { unfold ReadExpr'create. cbn. rewrite Hc. cbn. now destruct (getZExtValue _ <? _). }
  rewrite Hread in Hv. pose proof (possible_contents_bytes cd array (Z.of_nat i)) as [Hby _].
  destruct (evaluatePossible_value cd (ReadExpr array un_null (ConstantExpr (APInt (domain array) (Z.of_nat i))))
    (APInt 8 (possible_contents cd array (Z.of_nat i)))) as (r & Er & Ev).
  { cbn. now rewrite (proj2 (Z.leb_le _ _)). }
  { replace 8 with (range array) at 1 by lia. eapply eval_read_expr; [reflexivity|apply eval_const, BV.in_range_spec; cbn; lia|done|done|].
    unfold read_value, initial_value. cbn. rewrite Hc, H8. f_equal. apply BV.wrap_small. lia. }
  rewrite Hv in Er. injection Er as <-. destruct value as [CE| | | | | | | | |]; try discriminate H.
  apply eval_const_inv in Ev as [<- Vc]. apply outcome_bind_done in H as (u & _ & H). apply outcome_bind_done in H as (rest & Hrest & H).
  destruct rest as [rest|]; [|done]. injection H as <-. cbn [fmap list_fmap]. f_equal; [|apply IH; [|done]; intros j Hj; apply Hl; now right].
  unfold getZExtValue. rewrite ap_getZExtValue_spec by done. now apply BV.wrap_small.
Qed.

Lemma possible_objects_ok cd objects values : Forall byte_array objects ->
  possible_objects UseVisitorHash cd objects = Done (Some values) -> values = bytes_of (possible_contents cd) <$> objects.
Proof.
  intros Ho. revert values. induction Ho as [|a objects Ha Ho IH]; intros values H; cbn [possible_objects] in H; [now injection H as <-|].
  apply outcome_bind_done in H as ([bytes|] & Hb & H); [|done]. apply outcome_bind_done in H as ([rest|] & Hr & H); [|done].
  injection H as <-. cbn [fmap list_fmap]. f_equal; [|now apply IH]. apply (possible_bytes_ok cd a (seq 0 (Z.to_nat (size a)))); [done| |done].
  intros i Hi%elem_of_seq. lia.
Qed.

Section Query.
Context (q : Query) (Hq : plain U q).

(** The constraints and the expression have the reads that the exact
    propagation handles. *)
Definition exact_query : bool := forallb exact_ok (q_constraints q) && exact_ok (q_expr q).

Lemma propogateValues_ok checkExpr cd r : (checkExpr = true -> bool_ok U (q_expr q)) -> propogateValues UseVisitorHash q checkExpr = Done (cd, r) ->
  match r with
  | None => True
  | Some true => exact_query = true -> if checkExpr then valid q else ~ satisfiable (q_constraints q)
  | Some false => satisfies (possible_contents cd) (q_constraints q) /\
      (checkExpr = true -> eval (possible_contents cd) (q_expr q) = Some (APInt 1 0))
  end.
Proof.
  intros He H. destruct Hq as [_ Hok]. unfold propogateValues in H. apply outcome_bind_done in H as (cd1 & H1 & H).
  apply outcome_bind_done in H as (cd2 & H2 & H). apply outcome_bind_done in H as ([sat proved] & H3 & H).
  assert (Hwithin : forall rho, exact_query = true -> satisfies rho (q_constraints q) ->
    (checkExpr = true -> eval rho (q_expr q) = Some (APInt 1 0)) -> within rho cd2).
  { intros rho [Hx Hxe]%andb_true_iff [Hb Hm] Hf. pose proof (propogate_all_within rho _ _ _ Hb (within_empty rho) Hm Hx H1) as Hw.
    destruct checkExpr; [|now injection H2 as <-]. apply (propogate_within rho 0 (q_expr q) 1 cd1); [done|exact Hw|now apply Hf|done|exact H2]. }
  assert (Hsat : sat = true -> checkExpr = true -> eval (possible_contents cd2) (q_expr q) = Some (APInt 1 0)).
  { intros -> ->. destruct (He eq_refl) as [_ He']. apply outcome_bind_done in H3 as (p & Hp & H3). apply outcome_bind_done in H3 as (x & Hx & H3).
    injection H3 as Ep _. destruct (evaluatePossible_ok cd2 (q_expr q) He') as (p' & v & Hp' & Ev & Er). rewrite Hp in Hp'. injection Hp' as <-.
    rewrite Ev. f_equal. now apply (isFalse_value _ _ _ Er). }
  destruct proved.
  - injection H as <- <-. intros Hx. destruct checkExpr; [|discriminate H3]. intros rho [Hs Ef]. destruct (He eq_refl) as [_ He'].
    apply outcome_bind_done in H3 as (p & Hp & H3). apply outcome_bind_done in H3 as (x & Hx' & H3). injection H3 as _ Ex.
    destruct (evaluateExact_ok rho cd2 (q_expr q) (APInt 1 0)) as (x' & Hx'' & Er); [apply Hs|now apply Hwithin|done|done|].
    rewrite Hx' in Hx''. injection Hx'' as <-. discriminate (isTrue_value rho x _ Er Ex).
  - apply outcome_bind_done in H as (c & Hc & H). injection H as <- <-. pose proof (check_all_ok cd2 sat _ c Hok Hc) as Hck. destruct c as [u|[]].
    + intros Hx. destruct checkExpr; [intros rho [[Hb Hm] Ef]|intros [rho [Hb Hm]]]; (apply (Hck rho); [done| |done]; apply Hwithin; [done|done|now intros]).
    + destruct (Hck eq_refl) as [Es Hm]. split; [split; [apply possible_contents_bytes|done]|]. now apply Hsat.
    + done.
Qed.

(** C39: the answers of the fast counterexample solver are right, whenever it
    returns one: a query it calls false has a counterexample, a value is the
    value of the expression under contents that satisfy the constraints, and
    initial values are those of a counterexample, whatever the ranges it guessed
    from; a query it calls true, or without a solution, is valid if the reads
    through which it propagates exact ranges have indices that range evaluation
    can handle. *)
Theorem fast_cex_sound (objects : list Array) :
  (bool_ok U (q_expr q) -> sound (fun _ => True) (inc_computeTruth (FastCexSolver UseVisitorHash) q) (fun pv =>
     match pv with MayBeFalse => exists rho, counterexample q rho | MustBeTrue => exact_query = true -> valid q | pv => pv = PVNone end)) /\
  (expr_ok U (q_expr q) -> sound (fun _ => True) (inc_computeValue (FastCexSolver UseVisitorHash) q) (value_spec q)) /\
  (bool_ok U (q_expr q) -> Forall byte_array objects ->
     sound (fun _ => True) (inc_computeInitialValues (FastCexSolver UseVisitorHash) q objects) (fun r =>
       match r with Some values => initial_spec q objects (Some values) | None => exact_query = true -> valid q end)).
Proof.
  split_and!.
  - intros He s _. cbn. unfold pure. destruct (fast_truth UseVisitorHash q) as [pv| |] eqn:E; [|done..]. split; [done|]. unfold fast_truth in E.
    apply outcome_bind_done in E as ([cd r] & Hp & E). injection E as <-. pose proof (propogateValues_ok true cd r (fun _ => He) Hp) as H.
    destruct r as [[]|]; [done| |done]. destruct H as [Hs Hf]. exists (possible_contents cd). split; [done|now apply Hf].
  - intros He s _. cbn. unfold answer, pure, mbind, SolverM_bind. destruct (fast_value UseVisitorHash q) as [[x|]| |] eqn:E; [|done..]. split; [done|].
    unfold fast_value in E. apply outcome_bind_done in E as ([cd r] & Hp & E).
    pose proof (propogateValues_ok false cd r (fun H => False_ind _ (diff_false_true H)) Hp) as H. destruct r as [[]|]; try discriminate E.
    destruct H as [Hs _]. apply outcome_bind_done in E as (value & Hv & E). destruct (is_constant value) eqn:Ec; [|done]. injection E as <-.
    destruct value as [c| | | | | | | | |]; try discriminate Ec. destruct (evaluatePossible_ok cd (q_expr q) He) as (r & v & Hr & Ev & Er).
    rewrite Hv in Hr. injection Hr as <-. apply eval_const_inv in Er as [-> _]. now exists c, (possible_contents cd).
  - intros He Ho s _. cbn. unfold answer, pure, mbind, SolverM_bind. destruct (fast_initial UseVisitorHash q objects) as [[x|]| |] eqn:E; [|done..].
    split; [done|]. unfold fast_initial in E. apply outcome_bind_done in E as ([cd r] & Hp & E).
    pose proof (propogateValues_ok true cd r (fun _ => He) Hp) as H. destruct r as [[]|]; [now injection E as <-| |done].
    apply outcome_bind_done in E as ([values|] & Hv & E); [|done]. injection E as <-. destruct H as [Hs Hf]. exists (possible_contents cd).
    split; [split; [done|now apply Hf]|]. now apply possible_objects_ok.
Qed.

End Query.
End Answers.

(** ** Witness, and a run that aborts *)

Definition fast_query : Query := cell_query cell_is_one.

Lemma fast_cex_sound_witness :
  fast_truth (A:=apint_ref) (Opts:=no_const_array_opt) true fast_query = Done MayBeFalse /\ exists rho, counterexample fast_query rho.
Proof.
  destruct (fast_cex_sound (A:=apint_ref) (AS:=apint_ref_spec) (Opts:=no_const_array_opt) true [cell] fast_query (cell_query_ok _) []) as [H _].
  assert (E : fast_truth (A:=apint_ref) (Opts:=no_const_array_opt) true fast_query = Done MayBeFalse) by (vm_compute; reflexivity).
  split; [exact E|]. specialize (H cell_is_one_ok tt I).
  assert (Et : inc_computeTruth (FastCexSolver (A:=apint_ref) (Opts:=no_const_array_opt) true) fast_query tt = Done (Some MayBeFalse, tt))
    by (vm_compute; reflexivity).
  rewrite Et in H. apply H.
Defined.

(** [propogateExactValues] asserts that the ranges it intersects overlap, which
    they do not when a query is valid for this very reason: with [cell == 1] as
    the constraint, asking for [cell != 2] aborts. *)
Definition is_byte (b : Z) : Expr := CmpExpr Eq (const 8 b) cell_byte.
Definition valid_query : Query := mkQuery empty_manager [is_byte 1] false (CmpExpr Eq (const 1 0) (is_byte 2)) None.

Lemma fast_cex_aborts : valid valid_query /\ fast_truth (A:=apint_ref) (Opts:=no_const_array_opt) true valid_query = Abort.
Proof.
  split; [|vm_compute; reflexivity]. intros rho [[_ Hm] Hf]. inversion Hm as [|? ? E _]. subst.
  change (Some (APInt 1 (b2z (1 =? BV.wrap 8 (rho cell 0)))) = Some (APInt 1 1)) in E.
  change (Some (APInt 1 (b2z (0 =? b2z (2 =? BV.wrap 8 (rho cell 0))))) = Some (APInt 1 0)) in Hf.
  destruct (Z.eqb_spec 1 (BV.wrap 8 (rho cell 0))) as [Ew|]; [|discriminate E]. rewrite <- Ew in Hf. discriminate Hf.
Qed.
