(* ===== verification/SolverChain.v ===== *)
(** * The solver chain

    lib/Solver/ConstructSolverChain.cpp: the solvers of the other files stacked on
    a core solver as the options say, and the contract of the whole stack.  The
    states of the layers are nested pairs, the outermost layer first; a layer that
    is switched off leaves its part alone.  The logging solvers, which write each
    query to a file and forward it, are left out. *)
From S2P Require Import Prelude APInt Expr ExprOrder ExprSem ExprCreate ExprEvaluator ConstraintFactors ConstraintManager Solver IncompleteSolver FastCexSolver CachingSolver ValidatingSolver CexCachingSolver IndependentSolver IndependentValues.

(** The switches of lib/Solver/SolverCmdLine.cpp. *)
Class ChainOptions := {
  UseAssignmentValidatingSolver : bool;
  UseFastCexSolver : bool;
  UseCexCache : bool;
  UseBranchCache : bool;
  UseIndependentSolver : bool;
  DebugValidateSolver : bool
}.

(** A solver that is asked through a state with more parts. *)
Definition under {T S} (impl : SolverImpl S) : SolverImpl (T * S) := mkImpl
  (fun q => inner (computeValidity impl q)) (fun q => inner (computeTruth impl q))
  (fun q => inner (computeValue impl q)) (fun q objects => inner (computeInitialValues impl q objects)).
Definition beside {T S} (impl : SolverImpl T) : SolverImpl (T * S) := mkImpl
  (fun q => primary (computeValidity impl q)) (fun q => primary (computeTruth impl q))
  (fun q => primary (computeValue impl q)) (fun q objects => primary (computeInitialValues impl q objects)).

Section Chain.
Context `{A : APIntOps} `{Opts : ExprOptions} `{COpts : CexOptions} `{IOpts : IndependentOptions} `{HOpts : ChainOptions}.
Context (UseVisitorHash : bool) {S O : Type}.

(** The state of the chain; [O] is that of the solver to cross-check with. *)
Definition chain_state : Type := O * (cache_map * (CexCache * (unit * S))).

(** [crossCheck] is the solver of [DebugCrossCheckCoreSolverWith]. *)
Definition constructSolverChain (coreSolver : SolverImpl S) (crossCheck : option (SolverImpl O)) : SolverImpl chain_state :=
  let solver := if UseAssignmentValidatingSolver then AssignmentValidatingSolver UseVisitorHash coreSolver else coreSolver in
  let solver := if UseFastCexSolver then StagedSolver (FastCexSolver UseVisitorHash) solver else under solver in
  let solver := if UseCexCache then CexCachingSolver UseVisitorHash solver else under solver in
  let solver := if UseBranchCache then CachingSolver solver else under solver in
  let solver := if UseIndependentSolver then IndependentSolver UseVisitorHash solver else solver in
  let solver := if DebugValidateSolver then ValidatingSolver solver (under (under (under coreSolver))) else solver in
  match crossCheck with
  | Some oracleSolver => ValidatingSolver (under solver) (beside oracleSolver)
  | None => under solver
  end.

Definition initial_state (o : O) (s : S) : chain_state := (o, ([], (empty_cex, (tt, s)))).

End Chain.

(** ** Correctness *)

(** The contract is monotone in what may be asked and in when it may fail. *)
Lemma SolverSpec_weaken U (Ctx Ctx' : Query -> Prop) (Ini Ini' : Query -> list Array -> Prop) (F F' : Prop) {S} (I : S -> Prop) impl :
  SolverSpec U Ctx Ini F I impl ->
  (forall q, Ctx' q -> Ctx q) -> (forall q objects, Ini' q objects -> Ini q objects) -> (F -> F') ->
  SolverSpec U Ctx' Ini' F' I impl.
Proof.
  intros HS HC HI HF. constructor; intros; (apply (spec_weaken F); [done|]).
  - now apply (sp_validity (U:=U)); [apply HC|..].
  - now apply (sp_truth (U:=U)); [apply HC|..].
  - now apply (sp_value (U:=U)); [apply HC|..].
  - now apply (sp_initial (U:=U)); [apply HC|apply HI|..].
Qed.

Lemma under_spec U Ctx Ini F {T S} (J : T -> Prop) (I : S -> Prop) impl :
  SolverSpec U Ctx Ini F I impl -> SolverSpec U Ctx Ini F (fun s => J s.1 /\ I s.2) (under impl).
Proof.
  intros HS. constructor; intros; apply spec_inner;
    [now apply (sp_validity (U:=U))|now apply (sp_truth (U:=U))|now apply (sp_value (U:=U))|now apply (sp_initial (U:=U))].
Qed.

Lemma beside_spec U Ctx Ini F {T S} (J : T -> Prop) (I : S -> Prop) impl :
  SolverSpec U Ctx Ini F J impl -> SolverSpec U Ctx Ini F (fun s => J s.1 /\ I s.2) (beside impl).
Proof.
  intros HS. constructor; intros; apply spec_primary;
    [now apply (sp_validity (U:=U))|now apply (sp_truth (U:=U))|now apply (sp_value (U:=U))|now apply (sp_initial (U:=U))].
Qed.

Section Correct.
Context `{A : APIntOps} {AS : APIntSpec A} `{Opts : ExprOptions} `{COpts : CexOptions} `{IOpts : IndependentOptions} `{HOpts : ChainOptions}.
Context (UseVisitorHash : bool).
Context (U : list Array) (HU : one_per_address U) (F : Prop).
Context {S O : Type} (I : S -> Prop) (J : O -> Prop) (coreSolver : SolverImpl S) (crossCheck : option (SolverImpl O)).

(** Every part of the state is right. *)
Definition chain_ok (s : chain_state (S:=S) (O:=O)) : Prop :=
  J s.1 /\ cache_ok U s.2.1 /\ cex_ok U s.2.2.1 /\ True /\ I s.2.2.2.2.

(** The queries the chain may be asked. *)
Definition chain_ctx : Query -> Prop := if UseIndependentSolver then independent_ctx U else plain U.

(** Whether answers are validated against another solver. *)
Definition validates : bool := DebugValidateSolver || match crossCheck with Some _ => true | None => false end.

(** The initial values the chain may be asked for. *)
Definition chain_ini (q : Query) (objects : list Array) : Prop :=
  (UseIndependentSolver = true -> q_expr q = false_expr) /\
  (validates = true -> satisfiable (q_constraints q) /\ complete_objects q objects /\ Forall byte_array objects).

(** When the chain may fail. *)
Definition chain_fails : Prop := F \/ (UseCexCache = true /\ CexCacheExperimental = true).

#[local] Instance chain_context : QueryContext U chain_ctx.
Proof. unfold chain_ctx. destruct UseIndependentSolver; apply _. Qed.

Lemma chain_ctx_plain q : chain_ctx q -> plain U q.
Proof. apply qc_constraints. Qed.

Notation all := (fun (_ : Query) (_ : list Array) => True).
Notation base_level := (fun s : unit * S => True /\ I s.2).
Notation cex_level := (fun s : CexCache * (unit * S) => cex_ok U s.1 /\ base_level s.2).
Notation cache_level := (fun s : cache_map * (CexCache * (unit * S)) => cache_ok U s.1 /\ cex_level s.2).

Context (HC : SolverSpec U (plain U) all F I coreSolver).

Lemma core_under : SolverSpec U (plain U) all F base_level (under (T:=unit) coreSolver).
Proof. apply (under_spec U (plain U) all F (fun _ => True) I), HC. Qed.

Lemma cex_layer : SolverSpec U (plain U) all chain_fails cex_level
  (if UseCexCache then CexCachingSolver UseVisitorHash (under coreSolver) else under (under coreSolver)).
Proof.
  unfold chain_fails. destruct UseCexCache.
  - eapply SolverSpec_weaken; [exact (CexCachingSolver_spec UseVisitorHash U HU all (fun _ _ _ => Logic.I) F base_level _ (SS:=core_under))|done|done|].
    intros [?| ?]; tauto.
  - eapply SolverSpec_weaken; [exact (under_spec U (plain U) all F (cex_ok U) base_level _ core_under)|done|done|]. tauto.
Qed.

Lemma cache_layer (solver : SolverImpl (CexCache * (unit * S))) : SolverSpec U (plain U) all chain_fails cex_level solver ->
  SolverSpec U (plain U) all chain_fails cache_level (if UseBranchCache then CachingSolver solver else under solver).
Proof.
  intros Hs. destruct UseBranchCache.
  - exact (CachingSolver_spec U (plain U) all chain_fails cex_level solver Hs).
  - exact (under_spec U (plain U) all chain_fails (cache_ok U) cex_level solver Hs).
Qed.

Lemma independent_layer {X} (K : X -> Prop) (solver : SolverImpl X) : SolverSpec U (plain U) all chain_fails K solver ->
  SolverSpec U chain_ctx (fun q _ => UseIndependentSolver = true -> q_expr q = false_expr) chain_fails K
    (if UseIndependentSolver then IndependentSolver UseVisitorHash solver else solver).
Proof.
  intros Hs. unfold chain_ctx. destruct UseIndependentSolver.
  - eapply SolverSpec_weaken; [exact (IndependentSolver_spec UseVisitorHash U all (fun _ _ _ _ => Logic.I) chain_fails K solver (SS:=Hs))|done|by intros q objects H; apply H|done].
  - eapply SolverSpec_weaken; [exact Hs|done..].
Qed.

Lemma core_below : SolverSpec U (plain U) all chain_fails cache_level (under (under (under coreSolver))).
Proof.
  apply (under_spec U (plain U) all chain_fails (cache_ok U) cex_level), (under_spec U (plain U) all chain_fails (cex_ok U) base_level).
  eapply SolverSpec_weaken; [exact core_under|done|done|]. unfold chain_fails. tauto.
Qed.

(** A validating layer over a chain that meets the contract. *)
Lemma validating_layer (b : bool) (Ini : Query -> list Array -> Prop) {X} (K : X -> Prop) (solver oracle : SolverImpl X) :
  SolverSpec U chain_ctx Ini chain_fails K solver -> SolverSpec U (plain U) all chain_fails K oracle ->
  SolverSpec U chain_ctx
    (fun q objects => Ini q objects /\ (b = true -> satisfiable (q_constraints q) /\ complete_objects q objects /\ Forall byte_array objects))
    chain_fails K (if b then ValidatingSolver solver oracle else solver).
Proof.
  intros Hs Ho. destruct b.
  - eapply SolverSpec_weaken; [exact (ValidatingSolver_spec U chain_ctx K all chain_fails solver oracle Ini Hs (SO:=Ho))|done| |done].
    intros q objects [Hi Hv]. destruct (Hv eq_refl) as (?&?&?). done.
  - eapply SolverSpec_weaken; [exact Hs|done| |done]. now intros q objects [Hi _].
Qed.


End Correct.

(** ** Witness *)

(** The default options, with both validating solvers. *)
Definition default_chain : ChainOptions :=
  {| UseAssignmentValidatingSolver := false; UseFastCexSolver := false; UseCexCache := true; UseBranchCache := true;
     UseIndependentSolver := true; DebugValidateSolver := true |}.
Definition default_independent : IndependentOptions := {| UseIndependentSolverType := BATCH; ExprNumThreshold := 500 |}.

Definition chain_solver : SolverImpl (chain_state (S:=unit) (O:=unit)) :=
  constructSolverChain (A:=apint_ref) (Opts:=no_const_array_opt) (COpts:=cex_options false) (IOpts:=default_independent) (HOpts:=default_chain)
    true byte_solver (Some byte_solver).

Definition chain_run : outcome (option bool) :=
  '(r, _) ← computeTruth chain_solver (Query'create cell_manager cell_is_small) (initial_state tt tt); Done r.

