(* ===== verification/BitArray.v ===== *)
(** * Bit arrays

    src/include/klee/util/BitArray.h: the masks of an [ObjectState], one bit per
    byte of the object, in 32-bit words.  An access outside the allocated words
    is [Abort].  The lemmas show that [get], [set] and [unset] act on the single
    bit named, as long as [(size + 31) / 32] does not overflow;
    [BitArray_length_overflow] is the first size for which it does. *)

From S2P Require Import Prelude Expr.

Module BitArray.

Notation BitArray := (list Z).

(** [static uint32_t length(unsigned size)] *)
Definition length (size : Z) : Z := u32 (size + 31) / 32.

Definition make (size : Z) (value : bool) : BitArray :=
  replicate (Z.to_nat (length size)) (if value then 2 ^ 32 - 1 else 0).

(** The copy constructor: [memcpy] of [length(size)] words. *)
Definition copy (b : BitArray) (size : Z) : outcome BitArray :=
  if length size <=? Z.of_nat (List.length b) then Done (take (Z.to_nat (length size)) b) else Abort.

Definition get (b : BitArray) (idx : Z) : outcome bool :=
  w ← or_abort (b !! Z.to_nat (idx / 32));
  Done (negb (Z.land (Z.shiftr w (Z.land idx 0x1F)) 1 =? 0)).

Definition set (b : BitArray) (idx : Z) : outcome BitArray :=
  w ← or_abort (b !! Z.to_nat (idx / 32));
  Done (<[Z.to_nat (idx / 32) := Z.lor w (u32 (Z.shiftl 1 (Z.land idx 0x1F)))]> b).

Definition unset (b : BitArray) (idx : Z) : outcome BitArray :=
  w ← or_abort (b !! Z.to_nat (idx / 32));
  Done (<[Z.to_nat (idx / 32) := Z.land w (u32 (Z.lnot (Z.shiftl 1 (Z.land idx 0x1F))))]> b).

(** ** The bits of an array *)

(** [b] has the words of an array of [size] bits. *)
Definition holds (size : Z) (b : BitArray) : Prop := Z.of_nat (List.length b) = length size.

(** Sizes whose length does not overflow. *)
Definition size_ok (size : Z) : Prop := 0 <= size <= 2 ^ 32 - 32.

Definition bit (b : BitArray) (i : Z) : bool :=
  match b !! Z.to_nat (i / 32) with Some w => Z.testbit w (i mod 32) | None => false end.

Lemma land_31 i : Z.land i 0x1F = i mod 32.
Proof. change 0x1F with (Z.ones 5). now rewrite Z.land_ones. Qed.

Lemma mask_bit i j : 0 <= i -> 0 <= j < 32 -> Z.testbit (u32 (Z.shiftl 1 (Z.land i 0x1F))) j = (j =? i mod 32).
Proof.
  intros Hi Hj. rewrite land_31, Z.shiftl_1_l. unfold u32. rewrite BV.testbit_wrap by lia.
  pose proof (Z.mod_pos_bound i 32 ltac:(lia)). rewrite Z.pow2_bits_eqb by lia.
  destruct (Z.ltb_spec j 32); [|lia]. cbn. now rewrite Z.eqb_sym.
Qed.

Lemma lnot_mask_bit i j : 0 <= i -> 0 <= j < 32 -> Z.testbit (u32 (Z.lnot (Z.shiftl 1 (Z.land i 0x1F)))) j = negb (j =? i mod 32).
Proof.
  intros Hi Hj. rewrite land_31, Z.shiftl_1_l. unfold u32. rewrite BV.testbit_wrap by lia.
  pose proof (Z.mod_pos_bound i 32 ltac:(lia)). rewrite Z.lnot_spec, Z.pow2_bits_eqb by lia.
  destruct (Z.ltb_spec j 32); [|lia]. cbn. now rewrite Z.eqb_sym.
Qed.

Lemma same_bit i j : 0 <= i -> 0 <= j -> (j =? i) = (j / 32 =? i / 32) && (j mod 32 =? i mod 32).
Proof.
  intros. pose proof (Z.div_mod i 32 ltac:(lia)). pose proof (Z.div_mod j 32 ltac:(lia)).
  destruct (Z.eqb_spec j i), (Z.eqb_spec (j / 32) (i / 32)), (Z.eqb_spec (j mod 32) (i mod 32)); cbn; congruence || lia.
Qed.

Section Bits.
Context (size : Z) (Hsize : size_ok size).

Lemma length_eq : length size = (size + 31) / 32.
Proof. unfold length, u32, size_ok in *. rewrite BV.wrap_small; [done|lia]. Qed.

Lemma word_exists b i : holds size b -> 0 <= i < size -> exists w, b !! Z.to_nat (i / 32) = Some w.
Proof.
  unfold holds. rewrite length_eq. intros Hb Hi. apply lookup_lt_is_Some.
  pose proof (Z.div_pos i 32 ltac:(lia) ltac:(lia)).
  assert (i / 32 < (size + 31) / 32); [|lia].
  apply Z.div_lt_upper_bound; [lia|].
  pose proof (Z.mul_succ_div_gt (size + 31) 32 ltac:(lia)). pose proof (Z.mod_pos_bound (size+31) 32 ltac:(lia)).
  pose proof (Z.div_mod (size+31) 32 ltac:(lia)). lia.
Qed.

Lemma get_spec b i : holds size b -> 0 <= i < size -> get b i = Done (bit b i).
Proof.
  intros Hb Hi. destruct (word_exists b i Hb Hi) as [w Hw]. unfold get, bit. rewrite Hw. cbn. f_equal.
  rewrite land_31. change 1 with (Z.ones 1). rewrite Z.land_ones by lia. pose proof (Z.mod_pos_bound i 32 ltac:(lia)).
  change (2 ^ 1) with 2. rewrite Zmod_odd. rewrite <- Z.bit0_odd, Z.shiftr_spec by lia. cbn. now destruct (Z.testbit w _).
Qed.

(** Both updates replace a word by one that differs in bit [i] only. *)
Lemma update_word_spec b i (f : Z -> Z) v : holds size b -> 0 <= i < size ->
  (forall w j, 0 <= j < 32 -> Z.testbit (f w) j = if j =? i mod 32 then v else Z.testbit w j) ->
  exists w, b !! Z.to_nat (i / 32) = Some w /\
    holds size (<[Z.to_nat (i / 32) := f w]> b) /\
    forall j, 0 <= j -> bit (<[Z.to_nat (i / 32) := f w]> b) j = if j =? i then v else bit b j.
Proof.
  intros Hb Hi Hf. destruct (word_exists b i Hb Hi) as [w Hw]. exists w. split_and!; [done|unfold holds in *; now rewrite length_insert|].
  intros j Hj. unfold bit. rewrite (same_bit i j) by lia. pose proof (Z.mod_pos_bound j 32 ltac:(lia)).
  destruct (Z.eqb_spec (j / 32) (i / 32)) as [->|Hn]; cbn [andb].
  - rewrite list_lookup_insert_eq by (eapply lookup_lt_Some; eauto). rewrite Hf by lia. now rewrite Hw.
  - rewrite list_lookup_insert_ne; [done|]. intros E. apply Hn.
    pose proof (Z.div_pos i 32 ltac:(lia) ltac:(lia)). pose proof (Z.div_pos j 32 ltac:(lia) ltac:(lia)). lia.
Qed.

Lemma set_spec b i : holds size b -> 0 <= i < size ->
  exists b', set b i = Done b' /\ holds size b' /\ forall j, 0 <= j -> bit b' j = (j =? i) || bit b j.
Proof.
  intros Hb Hi. destruct (update_word_spec b i (fun w => Z.lor w (u32 (Z.shiftl 1 (Z.land i 0x1F)))) true Hb Hi) as (w & Hw & Hh & Hbit).
  { intros w j Hj. rewrite Z.lor_spec, mask_bit by lia. destruct (j =? i mod 32); [now rewrite orb_true_r|now rewrite orb_false_r]. }
  eexists. unfold set. rewrite Hw. cbn. split_and!; [done|exact Hh|]. intros j Hj. rewrite Hbit by done. now destruct (j =? i).
Qed.

Lemma unset_spec b i : holds size b -> 0 <= i < size ->
  exists b', unset b i = Done b' /\ holds size b' /\ forall j, 0 <= j -> bit b' j = negb (j =? i) && bit b j.
Proof.
  intros Hb Hi. destruct (update_word_spec b i (fun w => Z.land w (u32 (Z.lnot (Z.shiftl 1 (Z.land i 0x1F))))) false Hb Hi) as (w & Hw & Hh & Hbit).
  { intros w j Hj. rewrite Z.land_spec, lnot_mask_bit by lia. destruct (j =? i mod 32); [now rewrite andb_false_r|now rewrite andb_true_r]. }
  eexists. unfold unset. rewrite Hw. cbn. split_and!; [done|exact Hh|]. intros j Hj. rewrite Hbit by done. now destruct (j =? i).
Qed.

Lemma make_holds v : holds size (make size v).
Proof.
  unfold holds, make. rewrite length_replicate. apply Z2Nat.id. rewrite length_eq. unfold size_ok in *. apply Z.div_pos; lia.
Qed.

Lemma make_bit v i : 0 <= i < size -> bit (make size v) i = v.
Proof.
  intros Hi. destruct (word_exists _ i (make_holds v) Hi) as [w Hw]. unfold bit. rewrite Hw.
  apply lookup_replicate in Hw as [-> _]. pose proof (Z.mod_pos_bound i 32 ltac:(lia)).
  destruct v; [|apply Z.testbit_0_l]. change (2 ^ 32 - 1) with (Z.ones 32). apply Z.ones_spec_low. lia.
Qed.

Lemma copy_spec b : holds size b -> copy b size = Done b.
Proof.
  unfold holds, copy. intros Hb. rewrite (proj2 (Z.leb_le _ _)) by lia. f_equal. apply take_ge. lia.
Qed.

End Bits.

(** The first size for which the 32-bit sum in [length] overflows: no word is
    allocated, so that no bit can be read. *)
Example BitArray_length_overflow : length (2 ^ 32 - 31) = 0 /\ get (make (2 ^ 32 - 31) true) 0 = Abort.
Proof. split; reflexivity. Qed.

End BitArray.
