(* ===== verification/ArrayCache.v ===== *)
(** * The cache of arrays

    src/lib/Expr/ArrayCache.cpp with the constructor of [Array]
    (src/lib/Expr/Expr.cpp).  A symbolic array is stored once for each pair of
    name and size; constant arrays are always new objects.  The addresses of new
    arrays come from the field [next_addr], which stands for the allocator.

    [array_cache_conses]: a symbolic array is found again by its name and size,
    and the arrays handed out stay pairwise distinct objects. *)

From stdpp Require Import strings.
From S2P Require Import Prelude APInt Expr ExprSem.

(** The [unordered_set] of symbolic arrays (its order is not observed), the
    vector of constant arrays, and the next free address. *)
Record ArrayCache := mkArrayCache {
  cachedSymbolicArrays : list Array;
  concreteArrays : list Array;
  next_addr : Z
}.

Definition empty_cache : ArrayCache := mkArrayCache [] [] 0.

(** [Array::Array]: [size] is stored in an [unsigned]; its two asserts. *)
Definition new_Array (addr : Z) (nm : string) (sz : Z) (values : list apint) (dom rng : Z) : outcome Array :=
  let array := mkArray addr nm (u32 sz) dom rng values in
  _ ← check (isSymbolicArray array || (Z.of_nat (length values) =? size array));
  _ ← check (forallb (fun c => ap_width c =? rng) values);
  Done array.

(** [EquivArrayCmpFn] *)
Definition equiv_array (a b : Array) : bool := (size a =? size b) && String.eqb (name a) (name b).

Definition CreateArray (c : ArrayCache) (nm : string) (sz : Z) (values : list apint) (dom rng : Z) : outcome (Array * ArrayCache) :=
  array ← new_Array (next_addr c) nm sz values dom rng;
  if isSymbolicArray array then
    match list_find (fun a => equiv_array a array) (cachedSymbolicArrays c) with
    | None =>
      Done (array, mkArrayCache (array :: cachedSymbolicArrays c) (concreteArrays c) (next_addr c + 1))
    | Some (_, cached) =>
      (* the new object is deleted *)
      _ ← check (isSymbolicArray cached);
      Done (cached, c)
    end
  else Done (array, mkArrayCache (cachedSymbolicArrays c) (concreteArrays c ++ [array]) (next_addr c + 1)).

(** ** The arrays in use *)

Definition arrays (c : ArrayCache) : list Array := cachedSymbolicArrays c ++ concreteArrays c.

Record cache_ok (c : ArrayCache) : Prop := {
  ck_symbolic : Forall (fun a => isSymbolicArray a = true) (cachedSymbolicArrays c);
  ck_constant : Forall (fun a => isConstantArray a = true) (concreteArrays c);
  ck_addrs : NoDup (arr_addr <$> arrays c);
  ck_fresh : Forall (fun a => arr_addr a < next_addr c) (arrays c);
  ck_unique : forall a b, a ∈ cachedSymbolicArrays c -> b ∈ cachedSymbolicArrays c -> equiv_array a b = true -> a = b
}.

Lemma empty_cache_ok : cache_ok empty_cache.
Proof. split; cbn; auto using Forall_nil_2, NoDup_nil_2. intros a b Ha. now apply not_elem_of_nil in Ha. Qed.

Lemma equiv_array_spec a b : equiv_array a b = true <-> size a = size b /\ name a = name b.
Proof. unfold equiv_array. rewrite andb_true_iff, Z.eqb_eq, String.eqb_eq. done. Qed.

Lemma new_Array_ok addr nm sz values dom rng :
  (values = [] \/ Z.of_nat (length values) = u32 sz) -> Forall (fun c => ap_width c = rng) values ->
  new_Array addr nm sz values dom rng = Done (mkArray addr nm (u32 sz) dom rng values).
Proof.
  intros Hl Hw. unfold new_Array, isSymbolicArray, isConstantArray. cbn [constantValues size].
  replace (forallb _ values) with true.
  - destruct Hl as [->|Hl]; [done|]. rewrite (proj2 (Z.eqb_eq _ _) Hl). now rewrite orb_true_r.
  - symmetry. apply forallb_forall. intros x Hx%list_elem_of_In. rewrite Forall_forall in Hw. apply Z.eqb_eq. auto.
Qed.

(** A new array, put at its place in one of the two containers. *)
Lemma cache_add c a syms consts : cache_ok c -> arr_addr a = next_addr c -> syms ++ consts ≡ₚ a :: arrays c ->
  Forall (fun a => isSymbolicArray a = true) syms -> Forall (fun a => isConstantArray a = true) consts ->
  (forall x y, x ∈ syms -> y ∈ syms -> equiv_array x y = true -> x = y) ->
  cache_ok (mkArrayCache syms consts (next_addr c + 1)).
Proof.
  intros Hc Ha Hp Hs Hk Hu. split; cbn [cachedSymbolicArrays concreteArrays next_addr]; try done; unfold arrays; cbn [cachedSymbolicArrays concreteArrays].
  - rewrite Hp. cbn. apply NoDup_cons. split; [|apply Hc]. intros (b & Hb & Hin)%list_elem_of_fmap.
    pose proof (ck_fresh c Hc) as Hf. rewrite Forall_forall in Hf. apply Hf in Hin. lia.
  - rewrite Hp. constructor; [lia|]. eapply Forall_impl; [apply (ck_fresh c Hc)|]. cbn. lia.
Qed.

Lemma CreateArray_constant c nm sz values dom rng :
  cache_ok c -> values <> [] -> Z.of_nat (length values) = u32 sz -> Forall (fun c => ap_width c = rng) values ->
  exists c', CreateArray c nm sz values dom rng = Done (mkArray (next_addr c) nm (u32 sz) dom rng values, c') /\ cache_ok c' /\
    mkArray (next_addr c) nm (u32 sz) dom rng values ∉ arrays c.
Proof.
  intros Hc Hn Hl Hw. unfold CreateArray. rewrite new_Array_ok by auto. cbn [mbind outcome_bind].
  unfold isSymbolicArray, isConstantArray. cbn [constantValues]. destruct values as [|v vs]; [done|]. cbn [negb].
  eexists. split_and!; [done| |].
  - apply (cache_add c (mkArray (next_addr c) nm (u32 sz) dom rng (v :: vs))); try done.
    + unfold arrays. rewrite app_assoc. apply Permutation_app_comm.
    + apply Hc.
    + apply Forall_app. split; [apply Hc|]. now constructor.
    + apply Hc.
  - intros Hin. pose proof (ck_fresh c Hc) as Hf. rewrite Forall_forall in Hf. apply Hf in Hin. cbn in Hin. lia.
Qed.

Lemma CreateArray_symbolic c nm sz dom rng :
  cache_ok c -> exists a c', CreateArray c nm sz [] dom rng = Done (a, c') /\ cache_ok c' /\
    a ∈ cachedSymbolicArrays c' /\ cachedSymbolicArrays c ⊆ cachedSymbolicArrays c' /\ name a = nm /\ size a = u32 sz /\ isSymbolicArray a = true.
Proof.
  intros Hc. unfold CreateArray. rewrite new_Array_ok by auto. cbn [mbind outcome_bind].
  change (isSymbolicArray (mkArray (next_addr c) nm (u32 sz) dom rng [])) with true. cbn match.
  destruct (list_find _ _) as [[i a]|] eqn:E.
  - apply list_find_Some in E as (Hi & He & _). apply Is_true_true, equiv_array_spec in He as [Hs Hn].
    apply list_elem_of_lookup_2 in Hi. pose proof (ck_symbolic c Hc) as Hsym. rewrite Forall_forall in Hsym.
    rewrite (Hsym a Hi). cbn. eexists a, c. split_and!; auto.
  - apply list_find_None in E. eexists _, _. split_and!; [done| |left|set_solver|done..].
    rewrite Forall_forall in E.
    apply (cache_add c (mkArray (next_addr c) nm (u32 sz) dom rng [])); try done.
    + constructor; [done|apply Hc].
    + apply Hc.
    + intros x y Hx Hy Hxy. apply elem_of_cons in Hx as [->|Hx], Hy as [->|Hy]; [done| | |now apply (ck_unique c Hc)].
      * destruct (E y Hy). apply Is_true_true. rewrite equiv_array_spec in *. naive_solver.
      * destruct (E x Hx). now apply Is_true_true.
Qed.

(** The symbolic arrays of a cache are told apart by name and size. *)
Lemma cached_eq c a b : cache_ok c -> a ∈ cachedSymbolicArrays c -> b ∈ cachedSymbolicArrays c ->
  a = b <-> name a = name b /\ size a = size b.
Proof.
  intros Hc Ha Hb. split; [now intros ->|]. intros [Hn Hs]. apply (ck_unique c Hc); try done. now apply equiv_array_spec.
Qed.

(** The cache of arrays returns the same object for the same name and size of a
    symbolic array, and different objects otherwise; what is created in between
    does not matter.  No assert fails, and the invariant of the cache is kept. *)
Theorem array_cache_conses (c : ArrayCache) (nm nm' : string) (sz sz' dom rng : Z) :
  cache_ok c ->
  exists a c1 b c2 c3,
    CreateArray c nm sz [] dom rng = Done (a, c1) /\ CreateArray c1 nm' sz' [] dom rng = Done (b, c2) /\
    CreateArray c2 nm sz [] dom rng = Done (a, c3) /\
    cache_ok c1 /\ cache_ok c2 /\ cache_ok c3 /\ (a = b <-> nm = nm' /\ u32 sz = u32 sz').
Proof.
  intros Hc. destruct (CreateArray_symbolic c nm sz dom rng Hc) as (a & c1 & E1 & H1 & Ha & _ & Hna & Hsa & _).
  destruct (CreateArray_symbolic c1 nm' sz' dom rng H1) as (b & c2 & E2 & H2 & Hb & Hs2 & Hnb & Hsb & _).
  destruct (CreateArray_symbolic c2 nm sz dom rng H2) as (a' & c3 & E3 & H3 & Ha' & Hs3 & Hna' & Hsa' & _).
  assert (a' = a) as -> by (apply (cached_eq c3); auto; split; congruence).
  eexists _, _, _, _, _. split_and!; eauto. rewrite (cached_eq c2 a b H2) by auto. now rewrite Hna, Hnb, Hsa, Hsb.
Qed.

Lemma array_cache_conses_witness :
  exists a c1 b c2 c3,
    CreateArray empty_cache "n" 4 [] 32 8 = Done (a, c1) /\ CreateArray c1 "m" 4 [] 32 8 = Done (b, c2) /\
    CreateArray c2 "n" 4 [] 32 8 = Done (a, c3) /\
    cache_ok c1 /\ cache_ok c2 /\ cache_ok c3 /\ (a = b <-> "n"%string = "m"%string /\ u32 4 = u32 4).
Proof. exact (array_cache_conses empty_cache "n" "m" 4 4 32 8 empty_cache_ok). Defined.

(** The comparison of cached arrays ignores their domain and range: an array of
    words asked for after an array of bytes of the same name and size is the
    array of bytes. *)
Example cached_array_ignores_range :
  match CreateArray empty_cache "n" 4 [] 32 8 with
  | Done (a, c) => exists c', CreateArray c "n" 4 [] 32 32 = Done (a, c') /\ range a = 8
  | _ => False
  end.
Proof. cbn. eexists. split; reflexivity. Qed.
