(* ===== verification/Memory.v ===== *)
(** * Memory objects and their states

    src/lib/Core/Memory.h and src/lib/Core/Memory.cpp.  A [MemoryObject] is a
    region of the address space; an [ObjectState] holds its bytes.  A byte is
    cached as a concrete byte ([concreteStore], [concreteMask]) or as an
    expression ([knownSymbolics]); the update list [updates] holds what was
    flushed for accesses at symbolic offsets, and [flushMask] says which bytes
    the list does not have yet.  The root of the list is created lazily as a constant
    array.

    An access outside the allocated arrays, like a failing assert, is [Abort].
    The [const] methods that change [mutable] fields return the new state. *)

From stdpp Require Import strings pretty.
From S2P Require Import Prelude APInt Expr ExprSem ExprCreate Bits BitArray ArrayCache.

(** ** Loops and accesses to arrays *)

(** A loop over indices. *)
Fixpoint for_each {S} (f : Z -> S -> outcome S) (l : list Z) (s : S) : outcome S :=
  match l with
  | [] => Done s
  | i :: l => s' ← f i s; for_each f l s'
  end.

Definition get_at {X} (l : list X) (i : Z) : outcome X := or_abort (l !! Z.to_nat i).

Definition put_at {X} (l : list X) (i : Z) (x : X) : outcome (list X) :=
  if (0 <=? i) && (i <? Z.of_nat (length l)) then Done (<[Z.to_nat i := x]> l) else Abort.

(** ** Memory objects *)

(** The fields that are read; [mo_allocSite] is an address of an LLVM value. *)
Record MemoryObject := mkMemoryObject {
  mo_id : Z;
  mo_address : Z;
  mo_size : Z;
  mo_isUserSpecified : bool;
  mo_allocSite : Z
}.

#[export] Instance MemoryObject_eq_dec : EqDecision MemoryObject.
Proof. solve_decision. Defined.

(** [Context] and the option [UseConstantArrays]. *)
Class MemoryOptions := {
  isLittleEndian : bool;
  getPointerWidth : Z;
  UseConstantArrays : bool
}.

Section Memory.
Context {A : APIntOps} {Opts : ExprOptions} {MOpts : MemoryOptions}.

Definition getBaseExpr (mo : MemoryObject) : Expr := ConstantExpr (ConstantExpr'create (mo_address mo) getPointerWidth).
Definition getSizeExpr (mo : MemoryObject) : Expr := ConstantExpr (ConstantExpr'create (mo_size mo) getPointerWidth).
Definition getOffsetExpr (mo : MemoryObject) (pointer : Expr) : Expr := SubExpr'create pointer (getBaseExpr mo).

Definition getBoundsCheckOffset (mo : MemoryObject) (offset : Expr) : Expr :=
  if mo_size mo =? 0 then ConstantExpr (ConstantExpr'alloc 0 Bool)
  else UltExpr'create offset (getSizeExpr mo).

Definition getBoundsCheckOffsetBytes (mo : MemoryObject) (offset : Expr) (bytes : Z) : Expr :=
  if bytes <=? mo_size mo
  then UltExpr'create offset (ConstantExpr (ConstantExpr'alloc (u32 (u32 (mo_size mo - bytes) + 1)) getPointerWidth))
  else ConstantExpr (ConstantExpr'alloc 0 Bool).

Definition getBoundsCheckPointer (mo : MemoryObject) (pointer : Expr) : Expr :=
  getBoundsCheckOffset mo (getOffsetExpr mo pointer).
Definition getBoundsCheckPointerBytes (mo : MemoryObject) (pointer : Expr) (bytes : Z) : Expr :=
  getBoundsCheckOffsetBytes mo (getOffsetExpr mo pointer) bytes.

(** [MemoryObject::compare] *)
Definition MemoryObject_compare (a b : MemoryObject) : Z :=
  if mo_id a =? mo_id b then 0
  else if negb (mo_address a =? mo_address b) then (if mo_address a <? mo_address b then -1 else 1)
  else if negb (mo_size a =? mo_size b) then (if mo_size a <? mo_size b then -1 else 1)
  else if negb (mo_allocSite a =? mo_allocSite b) then (if mo_allocSite a <? mo_allocSite b then -1 else 1)
  else 0.

(** ** States of objects *)

(** [kinstStore] holds addresses of instructions, 0 for none. *)
Record ObjectState := mkObjectState {
  copyOnWriteOwner : Z;
  object : MemoryObject;
  concreteStore : list Z;
  flagStore : list Z;
  kinstStore : list Z;
  concreteMask : option (list Z);
  flushMask : option (list Z);
  knownSymbolics : option (list (option Expr));
  updates_root : option Array;
  updates_head : UpdateNode;
  os_size : Z;
  readOnly : bool;
  untaggedWriteCnt : Z
}.

Definition set_owner (os : ObjectState) (x : Z) : ObjectState :=
  mkObjectState x (object os) (concreteStore os) (flagStore os) (kinstStore os) (concreteMask os) (flushMask os)
    (knownSymbolics os) (updates_root os) (updates_head os) (os_size os) (readOnly os) (untaggedWriteCnt os).
Definition set_stores (os : ObjectState) (c f k : list Z) : ObjectState :=
  mkObjectState (copyOnWriteOwner os) (object os) c f k (concreteMask os) (flushMask os)
    (knownSymbolics os) (updates_root os) (updates_head os) (os_size os) (readOnly os) (untaggedWriteCnt os).
Definition set_concreteMask (os : ObjectState) (m : option (list Z)) : ObjectState :=
  mkObjectState (copyOnWriteOwner os) (object os) (concreteStore os) (flagStore os) (kinstStore os) m (flushMask os)
    (knownSymbolics os) (updates_root os) (updates_head os) (os_size os) (readOnly os) (untaggedWriteCnt os).
Definition set_flushMask (os : ObjectState) (m : option (list Z)) : ObjectState :=
  mkObjectState (copyOnWriteOwner os) (object os) (concreteStore os) (flagStore os) (kinstStore os) (concreteMask os) m
    (knownSymbolics os) (updates_root os) (updates_head os) (os_size os) (readOnly os) (untaggedWriteCnt os).
Definition set_knownSymbolics (os : ObjectState) (k : option (list (option Expr))) : ObjectState :=
  mkObjectState (copyOnWriteOwner os) (object os) (concreteStore os) (flagStore os) (kinstStore os) (concreteMask os) (flushMask os)
    k (updates_root os) (updates_head os) (os_size os) (readOnly os) (untaggedWriteCnt os).
Definition set_updates (os : ObjectState) (r : option Array) (h : UpdateNode) : ObjectState :=
  mkObjectState (copyOnWriteOwner os) (object os) (concreteStore os) (flagStore os) (kinstStore os) (concreteMask os) (flushMask os)
    (knownSymbolics os) r h (os_size os) (readOnly os) (untaggedWriteCnt os).
Definition setReadOnly (os : ObjectState) (ro : bool) : ObjectState :=
  mkObjectState (copyOnWriteOwner os) (object os) (concreteStore os) (flagStore os) (kinstStore os) (concreteMask os) (flushMask os)
    (knownSymbolics os) (updates_root os) (updates_head os) (os_size os) ro (untaggedWriteCnt os).
Definition set_untagged (os : ObjectState) (n : Z) : ObjectState :=
  mkObjectState (copyOnWriteOwner os) (object os) (concreteStore os) (flagStore os) (kinstStore os) (concreteMask os) (flushMask os)
    (knownSymbolics os) (updates_root os) (updates_head os) (os_size os) (readOnly os) n.

(** The cache of arrays and the static counters of array names. *)
Record World := mkWorld {
  w_arrays : ArrayCache;
  tmp_arr_id : Z;
  const_arr_id : Z
}.

Definition FLAG_INTERNAL : Z := 4.
Definition FLAG_INITIALIZATION : Z := 8.

Definition utostr (n : Z) : string := pretty (Z.to_N n).

(** ** The masks *)

Definition isByteConcrete (os : ObjectState) (offset : Z) : outcome bool :=
  match concreteMask os with None => Done true | Some m => BitArray.get m offset end.

Definition isByteFlushed (os : ObjectState) (offset : Z) : outcome bool :=
  match flushMask os with None => Done false | Some m => b ← BitArray.get m offset; Done (negb b) end.

(** The cached expression of a byte. *)
Definition known (os : ObjectState) (offset : Z) : outcome (option Expr) :=
  match knownSymbolics os with None => Done None | Some ks => get_at ks offset end.

Definition isByteKnownSymbolic (os : ObjectState) (offset : Z) : outcome bool :=
  k ← known os offset; Done (match k with Some _ => true | None => false end).

Definition markByteConcrete (offset : Z) (os : ObjectState) : outcome ObjectState :=
  match concreteMask os with
  | None => Done os
  | Some m => m' ← BitArray.set m offset; Done (set_concreteMask os (Some m'))
  end.

Definition markByteSymbolic (offset : Z) (os : ObjectState) : outcome ObjectState :=
  let m := default (BitArray.make (os_size os) true) (concreteMask os) in
  m' ← BitArray.unset m offset; Done (set_concreteMask os (Some m')).

Definition markByteUnflushed (offset : Z) (os : ObjectState) : outcome ObjectState :=
  match flushMask os with
  | None => Done os
  | Some m => m' ← BitArray.set m offset; Done (set_flushMask os (Some m'))
  end.

Definition markByteFlushed (offset : Z) (os : ObjectState) : outcome ObjectState :=
  match flushMask os with
  | None => Done (set_flushMask os (Some (BitArray.make (os_size os) false)))
  | Some m => m' ← BitArray.unset m offset; Done (set_flushMask os (Some m'))
  end.

Definition setKnownSymbolic (offset : Z) (value : option Expr) (os : ObjectState) : outcome ObjectState :=
  match knownSymbolics os with
  | Some ks => ks' ← put_at ks offset value; Done (set_knownSymbolics os (Some ks'))
  | None =>
    match value with
    | None => Done os
    | Some _ =>
      ks' ← put_at (replicate (Z.to_nat (os_size os)) None) offset value;
      Done (set_knownSymbolics os (Some ks'))
    end
  end.

(** ** The update list *)

(** [updates.extend]: the asserts hold only once there is a root. *)
Definition extend (os : ObjectState) (index value : Expr) : outcome ObjectState :=
  _ ← match updates_root os with
      | None => Done tt
      | Some r => _ ← check (domain r =? getWidth index); check (range r =? getWidth value)
      end;
  Done (set_updates os (updates_root os) (un_node (updates_head os) index value)).

(** The list of writes, the oldest first. *)
Fixpoint Writes (un : UpdateNode) (acc : list (Expr * Expr)) : list (Expr * Expr) :=
  match un with
  | un_null => acc
  | un_node next index value => Writes next ((index, value) :: acc)
  end.

(** The loop that pulls concrete writes into the constant array. *)
Fixpoint pull_constants (writes : list (Expr * Expr)) (Contents : list apint) : outcome (list apint * list (Expr * Expr)) :=
  match writes with
  | (ConstantExpr Index, ConstantExpr Value) :: rest =>
    Contents' ← put_at Contents (getZExtValue Index) Value;
    pull_constants rest Contents'
  | _ => Done (Contents, writes)
  end.

Fixpoint extend_all (writes : list (Expr * Expr)) (os : ObjectState) : outcome ObjectState :=
  match writes with
  | [] => Done os
  | (index, value) :: rest => os' ← extend os index value; extend_all rest os'
  end.

Definition getUpdates (os : ObjectState) (w : World) : outcome (UpdateList * ObjectState * World) :=
  match updates_root os with
  | Some r => Done (mkUpdateList r (updates_head os), os, w)
  | None =>
    let zeros := replicate (Z.to_nat (os_size os)) (ConstantExpr'create 0 Int8) in
    '(Contents, rest) ← pull_constants (Writes (updates_head os) []) zeros;
    let id := u32 (const_arr_id w + 1) in
    '(array, arrays') ← CreateArray (w_arrays w) ("const_arr" +:+ utostr id) (os_size os) Contents Int32 Int8;
    os' ← extend_all rest (set_updates os (Some array) un_null);
    Done (mkUpdateList array (updates_head os'), os', mkWorld arrays' (tmp_arr_id w) id)
  end.

Definition makeConcrete (os : ObjectState) : ObjectState :=
  set_knownSymbolics (set_flushMask (set_concreteMask os None) None) None.

Definition makeSymbolic (os : ObjectState) : outcome ObjectState :=
  _ ← check (match updates_head os with un_null => true | _ => false end);
  for_each (fun i os => os1 ← markByteSymbolic i os; os2 ← setKnownSymbolic i None os1; markByteFlushed i os2)
    (seqZ 0 (os_size os)) os.

Definition fill (n x : Z) : list Z := replicate (Z.to_nat n) x.

Definition initializeToZero (os : ObjectState) : ObjectState :=
  let os := makeConcrete os in
  set_stores os (fill (os_size os) 0) (fill (os_size os) FLAG_INITIALIZATION) (fill (os_size os) 0).

Definition initializeToRandom (os : ObjectState) : ObjectState :=
  let os := makeConcrete os in
  set_stores os (fill (os_size os) 0xAB) (fill (os_size os) FLAG_INITIALIZATION) (fill (os_size os) 0).

(** ** Constructors *)

Definition blank (mo : MemoryObject) (root : option Array) : ObjectState :=
  mkObjectState 0 mo (fill (mo_size mo) 0) (fill (mo_size mo) FLAG_INTERNAL) (fill (mo_size mo) 0)
    None None None root un_null (mo_size mo) false 0.

(** [ObjectState(mo)] *)
Definition new_concrete (mo : MemoryObject) (w : World) : outcome (ObjectState * World) :=
  if UseConstantArrays then Done (blank mo None, w)
  else
    let id := u32 (tmp_arr_id w + 1) in
    '(array, arrays') ← CreateArray (w_arrays w) ("tmp_arr" +:+ utostr id) (mo_size mo) [] Int32 Int8;
    Done (blank mo (Some array), mkWorld arrays' id (const_arr_id w)).

(** [ObjectState(mo, array)] *)
Definition new_symbolic (mo : MemoryObject) (array : Array) : outcome ObjectState := makeSymbolic (blank mo (Some array)).

Definition copy_mask (m : option (list Z)) (size : Z) : outcome (option (list Z)) :=
  match m with None => Done None | Some b => b' ← BitArray.copy b size; Done (Some b') end.

(** [ObjectState(os)] *)
Definition copy (os : ObjectState) : outcome ObjectState :=
  _ ← check (negb (readOnly os));
  cm ← copy_mask (concreteMask os) (os_size os);
  fm ← copy_mask (flushMask os) (os_size os);
  Done (mkObjectState 0 (object os) (concreteStore os) (flagStore os) (kinstStore os) cm fm (knownSymbolics os)
    (updates_root os) (updates_head os) (os_size os) false 0).

(** ** Flushing *)

Definition byte_const (offset : Z) : Expr := ConstantExpr (ConstantExpr'create offset Int32).

Definition fastRangeCheckOffset (os : ObjectState) (offset : Expr) : Z * Z := (0, os_size os).

(** The value pushed to the update list for an unflushed byte. *)
Definition flush_value (os : ObjectState) (offset : Z) (concrete : bool) : outcome Expr :=
  if concrete then
    b ← get_at (concreteStore os) offset; Done (ConstantExpr (ConstantExpr'create b Int8))
  else
    k ← known os offset;
    match k with Some e => Done e | None => Abort (* the assert on isByteKnownSymbolic *) end.

Definition with_flushMask (os : ObjectState) : ObjectState :=
  match flushMask os with
  | None => set_flushMask os (Some (BitArray.make (os_size os) true))
  | Some _ => os
  end.

(** [flushMask->unset(offset)] *)
Definition unset_flush (offset : Z) (os : ObjectState) : outcome ObjectState :=
  match flushMask os with
  | None => Abort
  | Some m => m' ← BitArray.unset m offset; Done (set_flushMask os (Some m'))
  end.

Definition flush_byte_for_read (offset : Z) (os : ObjectState) : outcome ObjectState :=
  flushed ← isByteFlushed os offset;
  if flushed : bool then Done os
  else
    concrete ← isByteConcrete os offset;
    v ← flush_value os offset concrete;
    os' ← extend os (byte_const offset) v;
    unset_flush offset os'.

Definition flushRangeForRead (rangeBase rangeSize : Z) (os : ObjectState) : outcome ObjectState :=
  for_each flush_byte_for_read (seqZ rangeBase rangeSize) (with_flushMask os).

Definition flush_byte_for_write (offset : Z) (os : ObjectState) : outcome ObjectState :=
  flushed ← isByteFlushed os offset;
  concrete ← isByteConcrete os offset;
  if flushed : bool then
    if concrete : bool then markByteSymbolic offset os
    else
      k ← isByteKnownSymbolic os offset;
      if k : bool then setKnownSymbolic offset None os else Done os
  else
    v ← flush_value os offset concrete;
    os1 ← extend os (byte_const offset) v;
    os2 ← (if concrete : bool then markByteSymbolic offset os1 else setKnownSymbolic offset None os1);
    unset_flush offset os2.

Definition flushRangeForWrite (rangeBase rangeSize : Z) (os : ObjectState) : outcome ObjectState :=
  for_each flush_byte_for_write (seqZ rangeBase rangeSize) (with_flushMask os).

(** ** Reading and writing bytes *)

Definition isConstant (e : Expr) : bool := match e with ConstantExpr _ => true | _ => false end.

Definition read8 (offset : Z) (os : ObjectState) (w : World) : outcome (Expr * ObjectState * World) :=
  concrete ← isByteConcrete os offset;
  if concrete : bool then
    b ← get_at (concreteStore os) offset;
    Done (ConstantExpr (ConstantExpr'create b Int8), os, w)
  else
    k ← known os offset;
    match k with
    | Some e => Done (e, os, w)
    | None =>
      flushed ← isByteFlushed os offset;
      _ ← check flushed;
      '(ul, os', w') ← getUpdates os w;
      Done (ReadExpr'create ul (byte_const offset), os', w')
    end.

Definition read8_at (offset : Expr) (os : ObjectState) (w : World) : outcome (Expr * ObjectState * World) :=
  _ ← check (negb (isConstant offset));
  let '(base, size) := fastRangeCheckOffset os offset in
  os1 ← flushRangeForRead base size os;
  '(ul, os2, w') ← getUpdates os1 w;
  Done (ReadExpr'create ul (ZExtExpr'create offset Int32), os2, w').

Definition increaseUntaggedWriteCnt (flags kinst : Z) (os : ObjectState) : ObjectState :=
  if (Z.land flags FLAG_INITIALIZATION =? 0) && (kinst =? 0)
  then set_untagged os (u32 (untaggedWriteCnt os + 1)) else os.

Definition write8 (offset value flags kinst : Z) (os : ObjectState) : outcome ObjectState :=
  let os := increaseUntaggedWriteCnt flags kinst os in
  c ← put_at (concreteStore os) offset value;
  f ← put_at (flagStore os) offset flags;
  k ← put_at (kinstStore os) offset kinst;
  os1 ← setKnownSymbolic offset None (set_stores os c f k);
  os2 ← markByteConcrete offset os1;
  markByteUnflushed offset os2.

(** [write8(unsigned, ref<Expr>)] *)
Definition write8_expr (offset : Z) (value : Expr) (flags kinst : Z) (os : ObjectState) : outcome ObjectState :=
  match value with
  | ConstantExpr CE =>
    _ ← check (ap_width CE <=? 8);
    write8 offset (BV.wrap 8 (getZExtValue CE)) flags kinst os
  | _ =>
    let os := increaseUntaggedWriteCnt flags kinst os in
    os1 ← setKnownSymbolic offset (Some value) os;
    f ← put_at (flagStore os1) offset flags;
    k ← put_at (kinstStore os1) offset kinst;
    os2 ← markByteSymbolic offset (set_stores os1 (concreteStore os1) f k);
    markByteUnflushed offset os2
  end.

(** [write8(ref<Expr>, ref<Expr>)] *)
Definition write8_at (offset value : Expr) (flags kinst : Z) (os : ObjectState) : outcome ObjectState :=
  let os := increaseUntaggedWriteCnt flags kinst os in
  _ ← check (negb (isConstant offset));
  let '(base, size) := fastRangeCheckOffset os offset in
  os1 ← flushRangeForWrite base size os;
  extend os1 (ZExtExpr'create offset Int32) value.

(** ** Reading and writing values *)

(** The offset of the [i]-th byte, from the least significant one. *)
Definition byte_index (NumBytes i : Z) : Z := if isLittleEndian then i else NumBytes - i - 1.

(** The loop shared by the two [read]s: [byte idx] reads the byte at the index. *)
Definition read_loop (byte : Z -> ObjectState -> World -> outcome (Expr * ObjectState * World)) (NumBytes : Z)
    (os : ObjectState) (w : World) : outcome (Expr * ObjectState * World) :=
  '(Res, os', w') ← for_each (fun i '(Res, os, w) =>
    '(Byte, os', w') ← byte (byte_index NumBytes i) os w;
    Done (Some (match Res with None => Byte | Some r => ConcatExpr'create Byte r end), os', w'))
    (seqZ 0 NumBytes) (None, os, w);
  Res ← or_abort Res;
  Done (Res, os', w').

(** [read(unsigned, Width)] *)
Definition read_const (offset width : Z) (os : ObjectState) (w : World) : outcome (Expr * ObjectState * World) :=
  if width =? Bool then
    '(b, os', w') ← read8 offset os w;
    Done (ExtractExpr'create b 0 Bool, os', w')
  else
    let NumBytes := width / 8 in
    _ ← check (width =? NumBytes * 8);
    read_loop (fun idx => read8 (u32 (offset + idx))) NumBytes os w.

(** [read(ref<Expr>, Width)] *)
Definition read (offset : Expr) (width : Z) (os : ObjectState) (w : World) : outcome (Expr * ObjectState * World) :=
  match ZExtExpr'create offset Int32 with
  | ConstantExpr CE =>
    _ ← check (ap_width CE <=? 32);
    read_const (u32 (getZExtValue CE)) width os w
  | offset =>
    if width =? Bool then
      '(b, os', w') ← read8_at offset os w;
      Done (ExtractExpr'create b 0 Bool, os', w')
    else
      let NumBytes := width / 8 in
      _ ← check (width =? NumBytes * 8);
      read_loop (fun idx => read8_at (AddExpr'create offset (byte_const idx))) NumBytes os w
  end.

(** [write16], [write32], [write64]: the loop over [NumBytes] bytes of a word. *)
Definition write_word (NumBytes offset value flags kinst : Z) (os : ObjectState) : outcome ObjectState :=
  for_each (fun i => write8 (u32 (offset + byte_index NumBytes i)) (BV.wrap 8 (Z.shiftr value (8 * i))) flags kinst)
    (seqZ 0 NumBytes) os.
Definition write16 (offset value : Z) := write_word 2 offset (BV.wrap 16 value).
Definition write32 (offset value : Z) := write_word 4 offset (BV.wrap 32 value).
Definition write64 (offset value : Z) := write_word 8 offset (BV.wrap 64 value).

(** The general case of the two [write]s. *)
Definition write_loop (byte : Z -> Expr -> ObjectState -> outcome ObjectState) (value : Expr) (os : ObjectState) : outcome ObjectState :=
  let w := getWidth value in
  let NumBytes := w / 8 in
  _ ← check (w =? NumBytes * 8);
  for_each (fun i => byte (byte_index NumBytes i) (ExtractExpr'create value (8 * i) Int8)) (seqZ 0 NumBytes) os.

Definition write_slow (offset : Z) (value : Expr) (flags kinst : Z) (os : ObjectState) : outcome ObjectState :=
  if getWidth value =? Bool then write8_expr offset (ZExtExpr'create value Int8) flags kinst os
  else write_loop (fun idx v => write8_expr (u32 (offset + idx)) v flags kinst) value os.

(** [write(unsigned, ref<Expr>)] *)
Definition write_const (offset : Z) (value : Expr) (flags kinst : Z) (os : ObjectState) : outcome ObjectState :=
  match value with
  | ConstantExpr CE =>
    let w := ap_width CE in
    if (w <=? 64) && isPowerOfTwo 64 w then
      let val := getZExtValue CE in
      if w =? Bool then write8 offset (BV.wrap 8 val) flags kinst os
      else if w =? Int8 then write8 offset (BV.wrap 8 val) flags kinst os
      else if w =? Int16 then write16 offset val flags kinst os
      else if w =? Int32 then write32 offset val flags kinst os
      else if w =? Int64 then write64 offset val flags kinst os
      else Abort
    else write_slow offset value flags kinst os
  | _ => write_slow offset value flags kinst os
  end.

(** [write(ref<Expr>, ref<Expr>)] *)
Definition write (offset value : Expr) (flags kinst : Z) (os : ObjectState) : outcome ObjectState :=
  match ZExtExpr'create offset Int32 with
  | ConstantExpr CE =>
    _ ← check (ap_width CE <=? 32);
    write_const (u32 (getZExtValue CE)) value flags kinst os
  | offset =>
    if getWidth value =? Bool then write8_at offset (ZExtExpr'create value Int8) flags kinst os
    else write_loop (fun idx v => write8_at (AddExpr'create offset (byte_const idx)) v flags kinst) value os
  end.

End Memory.
