(* ===== verification/MemorySound.v ===== *)
(** * The bytes an object state stands for

    The abstract state of an object is its list of bytes, for given contents
    [rho] of the symbolic arrays.  [represents rho os bs] relates it to an
    [ObjectState]: a byte that is cached (concrete, or known as an expression)
    has the cached value, and a byte that is flushed has the value the update
    list gives it, so that a byte which is both has it twice.

    [os_wf] is the invariant of the class, which includes the comment "Cache
    Invariants" of src/lib/Core/Memory.cpp. *)

From stdpp Require Import strings.
From S2P Require Import Prelude APInt Expr ExprSem ExprCreate ExprCreateSound ExprRebuildSound ExprTyping Bits BitArray ArrayCache Memory.

(** ** Loops *)

(** A loop over [a], [a + 1], ..., with an invariant indexed by the position. *)
Lemma for_each_range {S} (f : Z -> S -> outcome S) (P : Z -> S -> Prop) a n s :
  0 <= n -> P a s -> (forall i s, a <= i < a + n -> P i s -> exists s', f i s = Done s' /\ P (i + 1) s') ->
  exists s', for_each f (seqZ a n) s = Done s' /\ P (a + n) s'.
Proof.
  intros Hn. revert a s. pattern n. apply natlike_ind; [| |done].
  - intros a s Hs _. exists s. split; [done|]. now rewrite Z.add_0_r.
  - clear n Hn. intros n Hn IH a s Hs Hf. rewrite seqZ_cons by lia. cbn [for_each].
    destruct (Hf a s ltac:(lia) Hs) as (s' & -> & Hs'). cbn [mbind outcome_bind].
    replace (Z.pred (Z.succ n)) with n by lia. replace (Z.succ a) with (a + 1) by lia.
    destruct (IH (a + 1) s' Hs') as (s'' & E & H'').
    { intros i t Hi. apply Hf. lia. }
    exists s''. split; [done|]. now replace (a + Z.succ n) with (a + 1 + n) by lia.
Qed.

Lemma get_at_ok {X} (l : list X) i : 0 <= i < Z.of_nat (length l) -> exists x, l !! Z.to_nat i = Some x /\ get_at l i = Done x.
Proof.
  intros Hi. destruct (lookup_lt_is_Some_2 l (Z.to_nat i)) as [x Hx]; [lia|]. exists x. unfold get_at. now rewrite Hx.
Qed.

Lemma put_at_ok {X} (l : list X) i x : 0 <= i < Z.of_nat (length l) -> put_at l i x = Done (<[Z.to_nat i := x]> l).
Proof.
  intros Hi. unfold put_at. rewrite (proj2 (Z.leb_le _ _)), (proj2 (Z.ltb_lt _ _)) by lia. done.
Qed.

Section Sound.
Context {A : APIntOps} {AS : APIntSpec A} {Opts : ExprOptions} {MOpts : MemoryOptions}.

Lemma byte_const_eval rho i : 0 <= i < 2 ^ 32 -> eval rho (byte_const i) = Some (APInt 32 i).
Proof.
  intros Hi. unfold byte_const, ConstantExpr'create, ConstantExpr'alloc. rewrite ap_make_spec by (unfold Int32; lia).
  unfold Int32. rewrite BV.wrap_small by lia. cbn. unfold ap_valid. cbn. now rewrite (proj2 (BV.in_range_spec 32 i)) by lia.
Qed.

Lemma byte_const_width i : 0 <= i < 2 ^ 32 -> has_width 32 (byte_const i).
Proof. intros. apply (hw_alloc i 32); lia. Qed.

Lemma byte_value b : 0 <= b < 256 -> ConstantExpr'create b Int8 = APInt 8 b.
Proof.
  intros. unfold ConstantExpr'create, ConstantExpr'alloc, Int8. rewrite ap_make_spec by lia. now rewrite BV.wrap_small by lia.
Qed.

Lemma byte_valid b : 0 <= b < 256 -> ap_valid (APInt 8 b) = true.
Proof. intros. apply ap_valid_spec. cbn. lia. Qed.

(** ** The invariant *)

Definition concrete (os : ObjectState) (i : Z) : bool :=
  match concreteMask os with None => true | Some m => BitArray.bit m i end.
Definition flushed (os : ObjectState) (i : Z) : bool :=
  match flushMask os with None => false | Some m => negb (BitArray.bit m i) end.
Definition symbolic (os : ObjectState) (i : Z) : option Expr :=
  match knownSymbolics os with None => None | Some ks => mjoin (ks !! Z.to_nat i) end.

(** The array of the update list; before it is created, the zeros it stands for. *)
Definition zero_array (size : Z) : Array := mkArray 0 "" size 32 8 (replicate (Z.to_nat size) (APInt 8 0)).
Definition os_array (os : ObjectState) : Array := default (zero_array (os_size os)) (updates_root os).

Definition mask_ok (size : Z) (m : option (list Z)) : Prop := forall b, m = Some b -> BitArray.holds size b.

Definition known_ok (size : Z) (ks : option (list (option Expr))) : Prop :=
  forall l, ks = Some l -> Z.of_nat (length l) = size /\ forall i e, l !! i = Some (Some e) -> has_width 8 e.

(** Constant indices lie inside the object. *)
Fixpoint indices_inside (size : Z) (u : UpdateNode) : Prop :=
  match u with
  | un_null => True
  | un_node n i _ => indices_inside size n /\ match i with ConstantExpr c => ap_val c < size | _ => True end
  end.

Definition root_ok (size : Z) (r : option Array) : Prop :=
  forall a, r = Some a -> array_ok a = true /\ domain a = 32 /\ range a = 8 /\ (isConstantArray a = true -> size <= Expr.size a).

Definition byte_list (n : Z) (l : list Z) : Prop := Z.of_nat (length l) = n /\ Forall (fun b => 0 <= b < 256) l.

Record os_wf (os : ObjectState) : Prop := {
  wf_size : BitArray.size_ok (os_size os);
  wf_store : byte_list (os_size os) (concreteStore os);
  wf_flags : Z.of_nat (length (flagStore os)) = os_size os;
  wf_kinsts : Z.of_nat (length (kinstStore os)) = os_size os;
  wf_cmask : mask_ok (os_size os) (concreteMask os);
  wf_fmask : mask_ok (os_size os) (flushMask os);
  wf_known : known_ok (os_size os) (knownSymbolics os);
  wf_exclusive : forall i, 0 <= i < os_size os -> symbolic os i <> None -> concrete os i = false;
  wf_unflushed : forall i, 0 <= i < os_size os -> flushed os i = false -> concrete os i = true \/ symbolic os i <> None;
  wf_root : root_ok (os_size os) (updates_root os);
  wf_head : un_well_typed (os_array os) (updates_head os) = true;
  wf_indices : indices_inside (os_size os) (updates_head os)
}.

(** ** The bytes *)

Record represents (rho : valuation) (os : ObjectState) (bs : list Z) : Prop := {
  rep_length : Z.of_nat (length bs) = os_size os;
  rep_updates : exists us, eval_updates rho (os_array os) (updates_head os) = Some us /\
    forall i b, 0 <= i -> bs !! Z.to_nat i = Some b -> flushed os i = true -> read_value rho (os_array os) us i = Some b;
  rep_concrete : forall i b, 0 <= i -> bs !! Z.to_nat i = Some b -> concrete os i = true -> concreteStore os !! Z.to_nat i = Some b;
  rep_symbolic : forall i b e, 0 <= i -> bs !! Z.to_nat i = Some b -> symbolic os i = Some e -> eval rho e = Some (APInt 8 b)
}.

(** [os'] holds the bytes of [os]. *)
Definition keeps (os os' : ObjectState) : Prop :=
  os_wf os' /\ os_size os' = os_size os /\ forall rho bs, represents rho os bs -> represents rho os' bs.

Lemma keeps_refl os : os_wf os -> keeps os os.
Proof. now unfold keeps. Qed.
Lemma keeps_trans a b c : keeps a b -> keeps b c -> keeps a c.
Proof. intros (? & ? & ?) (? & ? & ?). unfold keeps. split_and!; auto. congruence. Qed.

(** ** The masks *)

Section Masks.
Context (os : ObjectState) (Hsize : BitArray.size_ok (os_size os)) (i : Z) (Hi : 0 <= i < os_size os).

Lemma isByteConcrete_ok : mask_ok (os_size os) (concreteMask os) -> isByteConcrete os i = Done (concrete os i).
Proof. intros Hm. unfold isByteConcrete, concrete. destruct (concreteMask os); [|done]. now apply (BitArray.get_spec (os_size os)), Hi; auto. Qed.

Lemma isByteFlushed_ok : mask_ok (os_size os) (flushMask os) -> isByteFlushed os i = Done (flushed os i).
Proof.
  intros Hm. unfold isByteFlushed, flushed. destruct (flushMask os); [|done].
  rewrite (BitArray.get_spec (os_size os)); auto.
Qed.

Lemma known_ok_at : known_ok (os_size os) (knownSymbolics os) -> known os i = Done (symbolic os i).
Proof.
  intros Hk. unfold known, symbolic. destruct (knownSymbolics os) as [ks|]; [|done]. destruct (Hk ks eq_refl) as [Hl _].
  destruct (get_at_ok ks i ltac:(lia)) as (x & -> & ->). done.
Qed.

Lemma isByteKnownSymbolic_ok : known_ok (os_size os) (knownSymbolics os) ->
  isByteKnownSymbolic os i = Done (match symbolic os i with Some _ => true | None => false end).
Proof. intros Hk. unfold isByteKnownSymbolic. now rewrite known_ok_at. Qed.

Lemma markByteConcrete_ok : mask_ok (os_size os) (concreteMask os) ->
  exists m, markByteConcrete i os = Done (set_concreteMask os m) /\ mask_ok (os_size os) m /\
    forall j, 0 <= j -> concrete (set_concreteMask os m) j = (j =? i) || concrete os j.
Proof.
  intros Hm. unfold markByteConcrete, concrete. cbn [concreteMask set_concreteMask]. destruct (concreteMask os) as [b|] eqn:E.
  - destruct (BitArray.set_spec (os_size os) Hsize b i) as (b' & -> & Hh & Hb); auto. exists (Some b').
    split_and!; [done|now intros ? [= <-]|done].
  - exists None. split_and!; [|done|intros; now rewrite orb_true_r]. f_equal. unfold set_concreteMask. rewrite <- E. now destruct os.
Qed.

Lemma markByteSymbolic_ok : mask_ok (os_size os) (concreteMask os) ->
  exists m, markByteSymbolic i os = Done (set_concreteMask os m) /\ mask_ok (os_size os) m /\
    forall j, 0 <= j < os_size os -> concrete (set_concreteMask os m) j = negb (j =? i) && concrete os j.
Proof.
  intros Hm. unfold markByteSymbolic. set (b := default _ _).
  assert (Hb : BitArray.holds (os_size os) b /\ forall j, 0 <= j < os_size os -> BitArray.bit b j = concrete os j).
  { unfold b, concrete. destruct (concreteMask os); cbn; [auto|]. split; [now apply BitArray.make_holds|]. intros. now apply BitArray.make_bit. }
  destruct (BitArray.unset_spec (os_size os) Hsize b i) as (b' & -> & Hh & Hb'); [apply Hb|done|]. exists (Some b').
  split_and!; [done|now intros ? [= <-]|]. intros j Hj. unfold concrete at 1. cbn. rewrite Hb' by lia. f_equal. apply Hb. lia.
Qed.

Lemma markByteUnflushed_ok : mask_ok (os_size os) (flushMask os) ->
  exists m, markByteUnflushed i os = Done (set_flushMask os m) /\ mask_ok (os_size os) m /\
    forall j, 0 <= j -> flushed (set_flushMask os m) j = negb (j =? i) && flushed os j.
Proof.
  intros Hm. unfold markByteUnflushed, flushed. cbn [flushMask set_flushMask]. destruct (flushMask os) as [b|] eqn:E.
  - destruct (BitArray.set_spec (os_size os) Hsize b i) as (b' & -> & Hh & Hb); auto. exists (Some b').
    split_and!; [done|now intros ? [= <-]|]. intros j Hj. rewrite Hb by done. apply negb_orb.
  - exists None. split_and!; [|done|intros; now rewrite andb_false_r]. f_equal. unfold set_flushMask. rewrite <- E. now destruct os.
Qed.

Lemma unset_flush_ok b : flushMask os = Some b -> BitArray.holds (os_size os) b ->
  exists m, unset_flush i os = Done (set_flushMask os (Some m)) /\ BitArray.holds (os_size os) m /\
    forall j, 0 <= j -> flushed (set_flushMask os (Some m)) j = (j =? i) || flushed os j.
Proof.
  intros E Hb. unfold unset_flush, flushed. rewrite E. cbn [flushMask set_flushMask].
  destruct (BitArray.unset_spec (os_size os) Hsize b i) as (b' & -> & Hh & Hb'); auto. exists b'.
  split_and!; [done..|]. intros j Hj. rewrite Hb' by done. now rewrite negb_andb, negb_involutive.
Qed.

Lemma setKnownSymbolic_ok v : known_ok (os_size os) (knownSymbolics os) -> (forall e, v = Some e -> has_width 8 e) ->
  exists ks, setKnownSymbolic i v os = Done (set_knownSymbolics os ks) /\ known_ok (os_size os) ks /\
    forall j, 0 <= j -> symbolic (set_knownSymbolics os ks) j = if j =? i then v else symbolic os j.
Proof.
  intros Hk Hv. set (l := default (replicate (Z.to_nat (os_size os)) None) (knownSymbolics os)).
  assert (Hl : Z.of_nat (length l) = os_size os /\ (forall j e, l !! j = Some (Some e) -> has_width 8 e) /\
    forall j, 0 <= j -> mjoin (l !! Z.to_nat j) = symbolic os j).
  { unfold l, symbolic. destruct (knownSymbolics os) as [ks|]; cbn; [destruct (Hk ks eq_refl); auto|].
    rewrite length_replicate. split_and!; [lia| |].
    - now intros j e [? ?]%lookup_replicate.
    - intros j _. destruct (_ !! _) as [x|] eqn:E; [|done]. now apply lookup_replicate in E as [-> _]. }
  destruct Hl as (Hl & Hw & Hj).
  assert (Hnew : known_ok (os_size os) (Some (<[Z.to_nat i := v]> l)) /\
    forall j, 0 <= j -> symbolic (set_knownSymbolics os (Some (<[Z.to_nat i := v]> l))) j = if j =? i then v else symbolic os j).
  { split.
    - intros ? [= <-]. rewrite length_insert. split; [done|]. intros j e Hje.
      apply list_lookup_insert_Some in Hje as [(_ & Ev & _)|[_ Hje]]; eauto.
    - intros j Hj0. unfold symbolic at 1. cbn. destruct (Z.eqb_spec j i) as [->|Hn].
      + now rewrite list_lookup_insert_eq by lia.
      + rewrite list_lookup_insert_ne by lia. auto. }
  unfold setKnownSymbolic. unfold l in *. destruct (knownSymbolics os) as [ks|] eqn:E; cbn [default from_option id] in *.
  - rewrite put_at_ok by lia. eexists. split; [done|exact Hnew].
  - destruct v.
    + rewrite put_at_ok by lia. eexists. split; [done|exact Hnew].
    + exists None. split_and!; [|done|].
      * f_equal. unfold set_knownSymbolics. rewrite <- E. now destruct os.
      * intros j Hj0. unfold symbolic. cbn. rewrite E. now destruct (j =? i).
Qed.

End Masks.

(** ** The update list *)

Lemma zero_array_ok n : BitArray.size_ok n -> array_ok (zero_array n) = true.
Proof.
  unfold BitArray.size_ok. intros Hn. unfold array_ok, zero_array. cbn [range domain Expr.size constantValues]. rewrite length_replicate.
  join_bools; try lia; cbn.
  - apply orb_true_iff. right. join_bools; lia.
  - apply forallb_forall. intros c Hc. apply list_elem_of_In, list_elem_of_lookup in Hc as [j Hj].
    now apply lookup_replicate in Hj as [-> _].
Qed.

Lemma os_array_ok os : os_wf os -> array_ok (os_array os) = true /\ domain (os_array os) = 32 /\ range (os_array os) = 8.
Proof.
  intros Hwf. unfold os_array. destruct (updates_root os) as [r|] eqn:E; cbn.
  - destruct (wf_root os Hwf r E) as (? & ? & ? & _). done.
  - split; [|done]. apply zero_array_ok, Hwf.
Qed.

(** Evaluation of updates reads the domain and the range of the array only. *)
Lemma eval_updates_array rho r r' u : domain r = domain r' -> range r = range r' -> eval_updates rho r u = eval_updates rho r' u.
Proof. intros Hd Hr. induction u as [|u IH i v]; [done|]. cbn [eval_updates]. now rewrite IH, Hd, Hr. Qed.

Lemma well_typed_array r r' u : domain r = domain r' -> range r = range r' -> un_well_typed r u = un_well_typed r' u.
Proof. intros Hd Hr. induction u as [|u IH i v]; [done|]. cbn [un_well_typed]. now rewrite IH, Hd, Hr. Qed.

Lemma extend_ok os index value : os_wf os -> has_width 32 index -> has_width 8 value ->
  extend os index value = Done (set_updates os (updates_root os) (un_node (updates_head os) index value)).
Proof.
  intros Hwf [_ Hi] [_ Hv]. unfold extend. destruct (updates_root os) as [r|] eqn:E; [|done].
  destruct (wf_root os Hwf r E) as (_ & -> & -> & _). rewrite Hi, Hv. done.
Qed.

Lemma read_value_cons rho a j v us i : read_value rho a ((j, v) :: us) i = if i =? j then Some v else read_value rho a us i.
Proof. unfold read_value. cbn. now destruct (i =? j). Qed.

(** The value of the list at [i] is [b]. *)
Definition listed (rho : valuation) (os : ObjectState) (i b : Z) : Prop :=
  exists us, eval_updates rho (os_array os) (updates_head os) = Some us /\ read_value rho (os_array os) us i = Some b.

Lemma listed_flushed rho os bs i b : represents rho os bs -> 0 <= i -> bs !! Z.to_nat i = Some b -> flushed os i = true -> listed rho os i b.
Proof. intros Hr Hi Hb Hf. destruct (rep_updates _ _ _ Hr) as (us & E & Hus). exists us. eauto. Qed.

Lemma represents_in rho os bs i : represents rho os bs -> 0 <= i < os_size os -> exists b, bs !! Z.to_nat i = Some b.
Proof. intros Hr Hi. apply lookup_lt_is_Some. pose proof (rep_length _ _ _ Hr). lia. Qed.

(** ** Flushing a byte *)

(** The fields that flushing leaves alone. *)
Definition same_frame (os os' : ObjectState) : Prop :=
  os_size os' = os_size os /\ concreteStore os' = concreteStore os /\ flagStore os' = flagStore os /\
  kinstStore os' = kinstStore os /\ updates_root os' = updates_root os.

(** Byte [i] is in the list of [os'], the rest of which agrees with that of [os]; its
    cached value stays or is dropped. *)
Lemma flush_keeps os os' i :
  os_wf os -> 0 <= i < os_size os -> same_frame os os' ->
  mask_ok (os_size os) (concreteMask os') -> mask_ok (os_size os) (flushMask os') -> known_ok (os_size os) (knownSymbolics os') ->
  un_well_typed (os_array os) (updates_head os') = true -> indices_inside (os_size os) (updates_head os') ->
  (forall j, 0 <= j < os_size os -> flushed os' j = (j =? i) || flushed os j) ->
  (forall j, 0 <= j < os_size os -> (concrete os' j = concrete os j /\ symbolic os' j = symbolic os j) \/
     (j = i /\ concrete os' j = false /\ symbolic os' j = None)) ->
  (forall rho bs b, represents rho os bs -> bs !! Z.to_nat i = Some b -> exists us us',
     eval_updates rho (os_array os) (updates_head os) = Some us /\ eval_updates rho (os_array os) (updates_head os') = Some us' /\
     forall j, read_value rho (os_array os) us' j = if j =? i then Some b else read_value rho (os_array os) us j) ->
  keeps os os'.
Proof.
  intros Hwf Hi (Esz & Est & Efl & Eki & Ert) Hcm Hfm Hkn Hty Hin Hflush Hcache Hlist.
  assert (Earr : os_array os' = os_array os) by (unfold os_array; now rewrite Ert, Esz).
  split_and!; [|done|].
  - destruct Hwf. split; rewrite ?Esz, ?Est, ?Efl, ?Eki, ?Ert, ?Earr; try done.
    + intros j Hj Hs. destruct (Hcache j Hj) as [[-> E]|(_ & -> & _)]; [|done]. rewrite E in Hs. auto.
    + intros j Hj. rewrite Hflush by done. intros [Hn Hf]%orb_false_iff.
      destruct (Hcache j Hj) as [[-> ->]|(-> & _)]; [auto|]. now rewrite Z.eqb_refl in Hn.
  - intros rho bs Hr. destruct (represents_in rho os bs i Hr Hi) as [b Hb].
    destruct (Hlist rho bs b Hr Hb) as (us & us' & E & E' & Hread). pose proof (rep_length _ _ _ Hr) as Hlen.
    assert (Hrange : forall j c, 0 <= j -> bs !! Z.to_nat j = Some c -> 0 <= j < os_size os).
    { intros j c Hj Hc. apply lookup_lt_Some in Hc. lia. }
    split; rewrite ?Esz, ?Est, ?Earr; [done| | |].
    + exists us'. split; [done|]. intros j c Hj Hc. rewrite Hflush by eauto. rewrite Hread. destruct (Z.eqb_spec j i) as [->|]; [intros _; congruence|].
      cbn. intros Hf. destruct (rep_updates _ _ _ Hr) as (us0 & E0 & Hus0). rewrite E in E0. injection E0 as <-. eauto.
    + intros j c Hj Hc. destruct (Hcache j ltac:(eauto)) as [[-> _]|(_ & -> & _)]; [|done]. eapply rep_concrete; eauto.
    + intros j c e Hj Hc. destruct (Hcache j ltac:(eauto)) as [[_ ->]|(_ & _ & ->)]; [|done]. eapply rep_symbolic; eauto.
Qed.

Lemma flush_value_ok os i : os_wf os -> 0 <= i < os_size os -> flushed os i = false ->
  exists v, flush_value os i (concrete os i) = Done v /\ has_width 8 v /\
    forall rho bs b, represents rho os bs -> bs !! Z.to_nat i = Some b -> eval rho v = Some (APInt 8 b).
Proof.
  intros Hwf Hi Hf. unfold flush_value. destruct (concrete os i) eqn:Ec.
  - destruct (wf_store os Hwf) as [Hl Hb]. destruct (get_at_ok (concreteStore os) i ltac:(lia)) as (x & Hx & ->). cbn.
    rewrite Forall_forall in Hb. pose proof (Hb x (list_elem_of_lookup_2 _ _ _ Hx)) as Hr. rewrite byte_value by done.
    eexists. split_and!; [done|apply hw_const; [now apply byte_valid|done]|]. intros rho bs b Hrep Hib.
    pose proof (rep_concrete _ _ _ Hrep i b ltac:(lia) Hib Ec) as E. assert (x = b) as -> by congruence. cbn. now rewrite byte_valid.
  - rewrite known_ok_at by (done || apply Hwf). cbn. destruct (wf_unflushed os Hwf i Hi Hf) as [?|Hs]; [congruence|].
    destruct (symbolic os i) as [e|] eqn:Es; [|done]. exists e. split_and!; [done| |].
    + unfold symbolic in Es. destruct (knownSymbolics os) as [ks|] eqn:Ek; [|done]. destruct (wf_known os Hwf ks Ek) as [_ Hw].
      apply (Hw (Z.to_nat i)). revert Es. destruct (ks !! Z.to_nat i); cbn; congruence.
    + intros rho bs b Hrep Hib. eapply rep_symbolic; eauto. lia.
Qed.

(** The list after the push of byte [i]. *)
Lemma push_list rho os i v us b : 0 <= i < 2 ^ 32 -> os_wf os -> eval rho v = Some (APInt 8 b) -> eval_updates rho (os_array os) (updates_head os) = Some us ->
  eval_updates rho (os_array os) (un_node (updates_head os) (byte_const i) v) = Some ((i, b) :: us).
Proof.
  intros Hi Hwf Hv E. destruct (os_array_ok os Hwf) as (_ & Hd & Hr). cbn [eval_updates].
  rewrite E, byte_const_eval, Hv by done. cbn. now rewrite Hd, Hr.
Qed.

Lemma push_typed os i v : 0 <= i < os_size os -> os_wf os -> has_width 8 v ->
  un_well_typed (os_array os) (un_node (updates_head os) (byte_const i) v) = true /\
  indices_inside (os_size os) (un_node (updates_head os) (byte_const i) v).
Proof.
  intros Hi Hwf [Hv Hvw]. destruct (os_array_ok os Hwf) as (_ & Hd & Hr). pose proof (wf_size os Hwf) as Hs. unfold BitArray.size_ok in Hs.
  destruct (byte_const_width i ltac:(lia)) as [Hc Hcw]. split.
  - cbn [un_well_typed]. rewrite Hd, Hr, Hc, Hcw, Hv, Hvw. now rewrite (wf_head os Hwf).
  - cbn [indices_inside]. split; [apply Hwf|]. unfold byte_const, ConstantExpr'create, ConstantExpr'alloc, Int32.
    rewrite ap_make_spec by lia. cbn. rewrite BV.wrap_small by lia. lia.
Qed.

Lemma flush_byte_for_read_ok os i : os_wf os -> 0 <= i < os_size os -> flushMask os <> None ->
  exists os', flush_byte_for_read i os = Done os' /\ keeps os os' /\ flushMask os' <> None /\
    forall j, 0 <= j < os_size os -> flushed os' j = (j =? i) || flushed os j.
Proof.
  intros Hwf Hi Hm. pose proof (wf_size os Hwf) as Hs. unfold flush_byte_for_read. rewrite isByteFlushed_ok by (done || apply Hwf). cbn [mbind outcome_bind].
  destruct (flushed os i) eqn:Ef.
  { exists os. split_and!; [done|now apply keeps_refl|done|]. intros j Hj. destruct (Z.eqb_spec j i) as [->|]; [now rewrite Ef|done]. }
  rewrite isByteConcrete_ok by (done || apply Hwf). cbn [mbind outcome_bind].
  destruct (flush_value_ok os i Hwf Hi Ef) as (v & -> & Hv & Heval). cbn [mbind outcome_bind].
  rewrite extend_ok; [|done|apply byte_const_width; unfold BitArray.size_ok in Hs; lia|done]. cbn [mbind outcome_bind].
  set (os1 := set_updates _ _ _). destruct (flushMask os) as [m|] eqn:Em; [|done].
  destruct (unset_flush_ok os1 Hs i Hi m) as (m' & -> & Hm' & Hfl); [done|now apply (wf_fmask os Hwf)|].
  assert (Hfl' : forall j, 0 <= j < os_size os -> flushed (set_flushMask os1 (Some m')) j = (j =? i) || flushed os j) by (intros; now apply Hfl).
  exists (set_flushMask os1 (Some m')). split_and!; [done| |done|done].
  destruct (push_typed os i v Hi Hwf Hv) as [Hty Hin].
  apply (flush_keeps os _ i); try done; try apply Hwf.
  - now intros ? [= <-].
  - auto.
  - intros rho bs b Hrep Hb. destruct (rep_updates _ _ _ Hrep) as (us & E & _). exists us, ((i, b) :: us).
    split_and!; [done| |apply read_value_cons]. apply push_list; auto. unfold BitArray.size_ok in Hs. lia. eauto.
Qed.

(** For a write the cached value is dropped as well. *)
Definition dropped (os os' : ObjectState) (i : Z) : Prop := forall j, 0 <= j < os_size os ->
  flushed os' j = (j =? i) || flushed os j /\ concrete os' j = negb (j =? i) && concrete os j /\
  symbolic os' j = if j =? i then None else symbolic os j.

Lemma drop_keeps os os' i : os_wf os -> 0 <= i < os_size os -> same_frame os os' ->
  mask_ok (os_size os) (concreteMask os') -> mask_ok (os_size os) (flushMask os') -> known_ok (os_size os) (knownSymbolics os') ->
  dropped os os' i ->
  (flushed os i = true /\ updates_head os' = updates_head os) \/
  (exists v, has_width 8 v /\ updates_head os' = un_node (updates_head os) (byte_const i) v /\
     forall rho bs b, represents rho os bs -> bs !! Z.to_nat i = Some b -> eval rho v = Some (APInt 8 b)) ->
  keeps os os'.
Proof.
  intros Hwf Hi Hfr Hc Hf Hk Hd Hcase. pose proof (wf_size os Hwf) as Hs. unfold BitArray.size_ok in Hs.
  assert (Hty : un_well_typed (os_array os) (updates_head os') = true /\ indices_inside (os_size os) (updates_head os')).
  { destruct Hcase as [[_ ->]|(v & Hv & -> & _)]; [split; apply Hwf|now apply push_typed]. }
  apply (flush_keeps os _ i); try done; try apply Hty.
  - intros j Hj. apply Hd. done.
  - intros j Hj. destruct (Hd j Hj) as (_ & -> & ->). destruct (Z.eqb_spec j i); auto.
  - intros rho bs b Hrep Hb. destruct (rep_updates _ _ _ Hrep) as (us & E & Hus). destruct Hcase as [[Hfl ->]|(v & Hv & -> & Heval)].
    + exists us, us. split_and!; [done..|]. intros j. destruct (Z.eqb_spec j i) as [->|]; [|done]. apply Hus; auto. lia.
    + exists us, ((i, b) :: us). split_and!; [done| |apply read_value_cons]. apply push_list; eauto. lia.
Qed.

Lemma concrete_not_symbolic os i : os_wf os -> 0 <= i < os_size os -> concrete os i = true -> symbolic os i = None.
Proof.
  intros Hwf Hi Hc. destruct (symbolic os i) eqn:E; [|done]. rewrite (wf_exclusive os Hwf i Hi) in Hc; [done|]. now rewrite E.
Qed.

(** Dropping the cached value of a byte, without the masks of flushed bytes. *)
Lemma drop_cache_ok os os1 i : os_wf os -> 0 <= i < os_size os -> os_size os1 = os_size os -> concreteMask os1 = concreteMask os ->
  knownSymbolics os1 = knownSymbolics os -> exists m ks,
  (if concrete os i then markByteSymbolic i os1 else setKnownSymbolic i None os1) = Done (set_knownSymbolics (set_concreteMask os1 m) ks) /\
  mask_ok (os_size os) m /\ known_ok (os_size os) ks /\
  forall j, 0 <= j < os_size os -> concrete (set_knownSymbolics (set_concreteMask os1 m) ks) j = negb (j =? i) && concrete os j /\
    symbolic (set_knownSymbolics (set_concreteMask os1 m) ks) j = if j =? i then None else symbolic os j.
Proof.
  intros Hwf Hi Es Ec Ek. pose proof (wf_size os Hwf) as Hs. destruct (concrete os i) eqn:E.
  - destruct (markByteSymbolic_ok os1) with (i := i) as (m & -> & Hm & Hc); rewrite ?Es, ?Ec; try done; try apply Hwf.
    rewrite Es in *. exists m, (knownSymbolics os1). split_and!; [now destruct os1|done|rewrite Ek; apply Hwf|]. intros j Hj. split.
    + change (concrete (set_concreteMask os1 m) j = negb (j =? i) && concrete os j). rewrite Hc by done. unfold concrete. now rewrite Ec.
    + unfold symbolic. cbn. rewrite Ek. destruct (Z.eqb_spec j i) as [->|]; [|done]. now apply (concrete_not_symbolic os i).
  - destruct (setKnownSymbolic_ok os1) with (i := i) (v := @None Expr) as (ks & -> & Hk & Hc); rewrite ?Es, ?Ek; try done; try apply Hwf.
    rewrite Es in *. exists (concreteMask os1), ks. split_and!; [now destruct os1|rewrite Ec; apply Hwf|done|]. intros j Hj. split.
    + unfold concrete at 1. cbn. rewrite Ec. fold (concrete os j). destruct (Z.eqb_spec j i) as [->|]; [now rewrite E|done].
    + change (symbolic (set_knownSymbolics os1 ks) j = if j =? i then None else symbolic os j). rewrite Hc by lia. unfold symbolic. now rewrite Ek.
Qed.

Lemma flush_byte_for_write_ok os i : os_wf os -> 0 <= i < os_size os -> flushMask os <> None ->
  exists os', flush_byte_for_write i os = Done os' /\ keeps os os' /\ flushMask os' <> None /\ dropped os os' i.
Proof.
  intros Hwf Hi Hm. pose proof (wf_size os Hwf) as Hs. unfold flush_byte_for_write.
  rewrite isByteFlushed_ok, isByteConcrete_ok by (done || apply Hwf). cbn [mbind outcome_bind]. destruct (flushed os i) eqn:Ef.
  - rewrite isByteKnownSymbolic_ok by (done || apply Hwf). cbn [mbind outcome_bind].
    assert (Hrun : exists m ks, (if concrete os i then markByteSymbolic i os
        else if match symbolic os i with Some _ => true | None => false end then setKnownSymbolic i None os else Done os) =
        Done (set_knownSymbolics (set_concreteMask os m) ks) /\ mask_ok (os_size os) m /\ known_ok (os_size os) ks /\
        dropped os (set_knownSymbolics (set_concreteMask os m) ks) i).
    { destruct (drop_cache_ok os os i Hwf Hi) as (m & ks & Hrun & Hm' & Hk & Hd); [done..|].
      assert (Hdrop : dropped os (set_knownSymbolics (set_concreteMask os m) ks) i).
      { intros j Hj. split; [|now apply Hd]. unfold flushed. cbn. fold (flushed os j). destruct (Z.eqb_spec j i) as [->|]; [done|done]. }
      destruct (concrete os i) eqn:Ec; [now exists m, ks|]. destruct (symbolic os i) eqn:Es; [now exists m, ks|].
      exists (concreteMask os), (knownSymbolics os). split_and!; [now destruct os|apply Hwf..|]. intros j Hj.
      unfold flushed, concrete, symbolic. cbn. fold (flushed os j) (concrete os j) (symbolic os j).
      destruct (Z.eqb_spec j i) as [->|]; [|done]. now rewrite Ef, Ec, Es. }
    destruct Hrun as (m & ks & -> & Hm' & Hk & Hd). eexists. split_and!; [done| |done|done].
    apply (drop_keeps os _ i); try done; try apply Hwf. now left.
  - destruct (flush_value_ok os i Hwf Hi Ef) as (v & -> & Hv & Heval). cbn [mbind outcome_bind].
    rewrite extend_ok; [|done|apply byte_const_width; unfold BitArray.size_ok in Hs; lia|done]. cbn [mbind outcome_bind].
    set (os1 := set_updates _ _ _). destruct (drop_cache_ok os os1 i Hwf Hi) as (m & ks & -> & Hm' & Hk & Hd); [done..|].
    cbn [mbind outcome_bind]. set (os2 := set_knownSymbolics _ _). destruct (flushMask os) as [b|] eqn:Eb; [|done].
    destruct (unset_flush_ok os2 Hs i Hi b) as (b' & -> & Hb' & Hfl); [done|now apply (wf_fmask os Hwf)|].
    assert (Hdrop : dropped os (set_flushMask os2 (Some b')) i).
    { intros j Hj. split; [now apply Hfl|]. now apply Hd. }
    eexists. split_and!; [done| |done|done]. apply (drop_keeps os _ i); try done; [now intros ? [= <-]|]. right. eauto.
Qed.

(** ** Flushing a range *)

Lemma with_flushMask_ok os : os_wf os -> keeps os (with_flushMask os) /\ flushMask (with_flushMask os) <> None /\
  (forall j, 0 <= j < os_size os -> flushed (with_flushMask os) j = flushed os j) /\ os_size (with_flushMask os) = os_size os.
Proof.
  intros Hwf. unfold with_flushMask. destruct (flushMask os) as [m|] eqn:E.
  { split_and!; [now apply keeps_refl|congruence|done|done]. }
  pose proof (wf_size os Hwf) as Hs.
  assert (Hf : forall j, 0 <= j < os_size os -> flushed (set_flushMask os (Some (BitArray.make (os_size os) true))) j = flushed os j).
  { intros j Hj. unfold flushed. cbn. rewrite E. rewrite BitArray.make_bit; auto. }
  split_and!; [|done|done|done]. split_and!; [|done|].
  - destruct Hwf. split; try done.
    + intros ? [= <-]. now apply BitArray.make_holds.
    + intros j Hj Hx. rewrite Hf in Hx by done. exact (wf_unflushed0 j Hj Hx).
  - intros rho bs [Hl (us & Eu & Hus) Hc Hsy]. split; try done. exists us. split; [done|].
    intros j b Hj Hb. rewrite Hf; [eauto|]. apply lookup_lt_Some in Hb. lia.
Qed.

Lemma flushRangeForRead_ok os : os_wf os -> exists os', flushRangeForRead 0 (os_size os) os = Done os' /\ keeps os os' /\
  forall j, 0 <= j < os_size os -> flushed os' j = true.
Proof.
  intros Hwf. destruct (with_flushMask_ok os Hwf) as (Hk & Hm & _ & Es). unfold flushRangeForRead. pose proof (wf_size os Hwf) as Hs. unfold BitArray.size_ok in Hs.
  destruct (for_each_range flush_byte_for_read (fun i o => keeps os o /\ flushMask o <> None /\ forall j, 0 <= j < i -> flushed o j = true)
    0 (os_size os) (with_flushMask os)) as (os' & E & Hk' & _ & Hf); [lia| | |].
  - split_and!; auto. lia.
  - intros i o Hi ((Hwo & Eo & Ho) & Hmo & Hfo).
    destruct (flush_byte_for_read_ok o i Hwo) as (o' & E & Hk' & Hm' & Hf'); [lia|done|]. exists o'. split_and!; [done| |done|].
    + eapply keeps_trans; [|exact Hk']. now split_and!.
    + intros j Hj. rewrite Hf' by lia. destruct (Z.eqb_spec j i); [done|]. apply Hfo. lia.
  - exists os'. split_and!; [done|done|]. intros j Hj. apply Hf. lia.
Qed.

Lemma flushRangeForWrite_ok os : os_wf os -> exists os', flushRangeForWrite 0 (os_size os) os = Done os' /\ keeps os os' /\
  forall j, 0 <= j < os_size os -> flushed os' j = true /\ concrete os' j = false /\ symbolic os' j = None.
Proof.
  intros Hwf. destruct (with_flushMask_ok os Hwf) as (Hk & Hm & _ & Es). unfold flushRangeForWrite. pose proof (wf_size os Hwf) as Hs. unfold BitArray.size_ok in Hs.
  destruct (for_each_range flush_byte_for_write (fun i o => keeps os o /\ flushMask o <> None /\
      forall j, 0 <= j < i -> flushed o j = true /\ concrete o j = false /\ symbolic o j = None)
    0 (os_size os) (with_flushMask os)) as (os' & E & Hk' & _ & Hf); [lia| | |].
  - split_and!; auto. lia.
  - intros i o Hi ((Hwo & Eo & Ho) & Hmo & Hfo).
    destruct (flush_byte_for_write_ok o i Hwo) as (o' & E & Hk' & Hm' & Hd); [lia|done|]. exists o'. split_and!; [done| |done|].
    + eapply keeps_trans; [|exact Hk']. now split_and!.
    + intros j Hj. destruct (Hd j ltac:(lia)) as (-> & -> & ->). destruct (Z.eqb_spec j i); [done|]. apply Hfo. lia.
  - exists os'. split_and!; [done|done|]. intros j Hj. apply Hf. lia.
Qed.

(** ** The constant array *)

Definition push (u : UpdateNode) (w : Expr * Expr) : UpdateNode := un_node u w.1 w.2.
Definition pushes (u : UpdateNode) (ws : list (Expr * Expr)) : UpdateNode := foldl push u ws.

Definition write_ok (size : Z) (w : Expr * Expr) : Prop :=
  has_width 32 w.1 /\ has_width 8 w.2 /\ match w.1 with ConstantExpr c => ap_val c < size | _ => True end.

Lemma pushes_Writes u acc : pushes un_null (Writes u acc) = pushes u acc.
Proof. revert acc. induction u as [|u IH i v]; intros acc; [done|]. cbn [Writes]. now rewrite IH. Qed.

(** A list that is typed and inside, as a list of writes. *)
Definition list_ok (size : Z) (a : Array) (u : UpdateNode) : Prop := un_well_typed a u = true /\ indices_inside size u.

Lemma list_ok_push size a u w : domain a = 32 -> range a = 8 -> list_ok size a (push u w) <-> list_ok size a u /\ write_ok size w.
Proof.
  intros Hd Hr. unfold list_ok, write_ok, has_width. cbn [push un_well_typed indices_inside]. rewrite Hd, Hr, !andb_true_iff, !Z.eqb_eq. tauto.
Qed.

Lemma list_ok_Writes size a u acc : domain a = 32 -> range a = 8 -> list_ok size a u -> Forall (write_ok size) acc ->
  Forall (write_ok size) (Writes u acc).
Proof.
  intros Hd Hr. revert acc. induction u as [|u IH i v]; intros acc Hu Ha; [done|]. cbn [Writes].
  apply (list_ok_push size a u (i, v) Hd Hr) in Hu as [Hu Hw]. apply IH; auto.
Qed.

Lemma list_ok_pushes size a u ws : domain a = 32 -> range a = 8 -> list_ok size a u -> Forall (write_ok size) ws -> list_ok size a (pushes u ws).
Proof.
  intros Hd Hr. revert u. induction ws as [|w ws IH]; intros u Hu Hws; [done|]. inversion_clear Hws. cbn.
  apply IH; [|done]. now apply list_ok_push.
Qed.

Lemma extend_all_ok a ws : domain a = 32 -> range a = 8 -> forall os, updates_root os = Some a -> Forall (write_ok (os_size os)) ws ->
  extend_all ws os = Done (set_updates os (Some a) (pushes (updates_head os) ws)).
Proof.
  intros Hd Hr. induction ws as [|[i v] ws IH]; intros os Ha Hws; cbn [extend_all].
  - f_equal. unfold set_updates. rewrite <- Ha. now destruct os.
  - inversion_clear Hws as [|? ? [[_ Hi] [[_ Hv] _]] Hrest]. cbn in Hi, Hv. unfold extend. rewrite Ha, Hd, Hr, Hi, Hv, !Z.eqb_refl. cbn [mbind outcome_bind check].
    now rewrite IH.
Qed.

Lemma read_updates_app us us' i : read_updates (us ++ us') i = match read_updates us i with Some v => Some v | None => read_updates us' i end.
Proof. induction us as [|[j v] us IH]; [done|]. cbn. now destruct (i =? j). Qed.

(** The oldest write is the last one looked at. *)
Lemma eval_pushes rho a u ws us : eval_updates rho a (pushes u ws) = Some us ->
  exists us1 us2, eval_updates rho a (pushes un_null ws) = Some us1 /\ eval_updates rho a u = Some us2 /\ us = us1 ++ us2.
Proof.
  revert us. induction ws as [|[i v] ws IH] using rev_ind; intros us; unfold pushes.
  - cbn. intros E. exists [], us. auto.
  - rewrite !foldl_app. fold (pushes u ws) (pushes un_null ws). cbn [foldl push fst snd eval_updates]. intros E. inv_eval. destruct (IH _ E0) as (us1 & us2 & -> & -> & ->).
    cbn [mbind option_bind]. rewrite E1, E2. cbn [mbind option_bind]. 
    repeat match goal with H : ap_width _ = _ |- _ => rewrite H end. rewrite !Z.eqb_refl. cbn. eauto.
Qed.

Definition read_contents (C : list apint) (us : list (Z * Z)) (i : Z) : option Z :=
  match read_updates us i with Some v => Some v | None => ap_val <$> C !! Z.to_nat i end.

Definition contents_ok (size : Z) (C : list apint) : Prop :=
  Z.of_nat (length C) = size /\ Forall (fun c => ap_valid c = true /\ ap_width c = 8) C.

Lemma pull_constants_ok size a ws : domain a = 32 -> range a = 8 -> forall C, contents_ok size C -> Forall (write_ok size) ws ->
  exists C' rest, pull_constants ws C = Done (C', rest) /\ contents_ok size C' /\ Forall (write_ok size) rest /\
    forall rho us, eval_updates rho a (pushes un_null ws) = Some us ->
      exists us', eval_updates rho a (pushes un_null rest) = Some us' /\
        forall i, 0 <= i < size -> read_contents C' us' i = read_contents C us i.
Proof.
  intros Hd Hr. induction ws as [|[i v] ws IH]; intros C HC Hws.
  { exists C, []. split_and!; eauto. }
  assert (Hstop : exists C' rest, Done (C, (i, v) :: ws) = Done (C', rest) /\ contents_ok size C' /\ Forall (write_ok size) rest /\
    forall rho us, eval_updates rho a (pushes un_null ((i, v) :: ws)) = Some us ->
      exists us', eval_updates rho a (pushes un_null rest) = Some us' /\ forall i, 0 <= i < size -> read_contents C' us' i = read_contents C us i).
  { exists C, ((i, v) :: ws). split_and!; auto. eauto. }
  cbn [pull_constants]. destruct i; try exact Hstop. destruct v as [cv| | | | | | | | |]; try exact Hstop. clear Hstop. rename value into ci.
  inversion_clear Hws as [|? ? [Hwi [Hwv Hin]] Hrest]. cbn [fst snd] in *.
  apply hw_const_inv in Hwi as [Hvi Hwi], Hwv as [Hvv Hwv]. pose proof Hvi as Hvi'. apply ap_valid_spec in Hvi' as [_ Hri].
  rewrite getZExtValue_spec by (done || lia). destruct HC as [HlC HvC]. rewrite put_at_ok by lia. cbn [mbind outcome_bind].
  destruct (IH (<[Z.to_nat (ap_val ci) := cv]> C)) as (C' & rest & -> & HC' & Hrest' & Hread); [|done|].
  { split; [now rewrite length_insert|]. now apply Forall_insert. }
  exists C', rest. split_and!; [done..|]. intros rho us E. change (pushes un_null ((ConstantExpr ci, ConstantExpr cv) :: ws))
    with (pushes (un_node un_null (ConstantExpr ci) (ConstantExpr cv)) ws) in E.
  apply eval_pushes in E as (us1 & us2 & E1 & E2 & ->). destruct (Hread rho us1 E1) as (us' & E' & Hrd). exists us'. split; [done|].
  cbn in E2. rewrite Hvi, Hvv in E2. cbn in E2. rewrite Hd, Hr, Hwi, Hwv in E2. cbn in E2. injection E2 as <-.
  intros j Hj. rewrite Hrd by done. unfold read_contents. rewrite read_updates_app. destruct (read_updates us1 j); [done|]. cbn [read_updates].
  destruct (Z.eqb_spec j (ap_val ci)) as [->|Hn]; [rewrite list_lookup_insert_eq by lia; done|].
  rewrite list_lookup_insert_ne by lia. done.
Qed.

Definition world_ok (w : World) : Prop := cache_ok (w_arrays w).

Lemma constant_array_ok addr nm size C : 0 < size -> BitArray.size_ok size -> contents_ok size C ->
  let a := mkArray addr nm (u32 size) 32 8 C in array_ok a = true /\ isConstantArray a = true /\ Expr.size a = size.
Proof.
  intros Hpos Hs [Hl Hv] a. unfold BitArray.size_ok in Hs. assert (Eu : u32 size = size) by (apply BV.wrap_small; lia).
  assert (Hc : isConstantArray a = true) by (unfold a, isConstantArray; cbn; destruct C; [cbn in Hl; lia|done]).
  split_and!; [|done|done]. unfold array_ok. rewrite orb_comm. cbn [range domain Expr.size constantValues a]. rewrite Eu.
  join_bools; try lia.
  apply forallb_forall. intros c Hc'%list_elem_of_In. rewrite Forall_forall in Hv. destruct (Hv c Hc'). join_bools; done.
Qed.

Lemma getUpdates_ok os w : os_wf os -> world_ok w -> 0 < os_size os -> exists a h w',
  getUpdates os w = Done (mkUpdateList a h, set_updates os (Some a) h, w') /\ world_ok w' /\ keeps os (set_updates os (Some a) h).
Proof.
  intros Hwf Hw Hpos. unfold getUpdates. destruct (updates_root os) as [r|] eqn:Er.
  { assert (E : set_updates os (Some r) (updates_head os) = os) by (unfold set_updates; rewrite <- Er; now destruct os).
    exists r, (updates_head os), w. rewrite E. split_and!; [done..|now apply keeps_refl]. }
  assert (Earr : os_array os = zero_array (os_size os)) by (unfold os_array; now rewrite Er).
  pose proof (wf_size os Hwf) as Hs. rewrite (byte_value 0) by lia. set (zeros := replicate _ _).
  assert (Hz : contents_ok (os_size os) zeros).
  { split; [unfold zeros; rewrite length_replicate; lia|]. apply Forall_replicate. now split. }
  destruct (pull_constants_ok (os_size os) (zero_array (os_size os)) (Writes (updates_head os) [])) with (C := zeros)
    as (C & rest & -> & HC & Hrest & Hread); try done.
  { apply (list_ok_Writes _ (zero_array (os_size os))); try done. rewrite <- Earr. split; apply Hwf. }
  cbn [mbind outcome_bind]. destruct (CreateArray_constant (w_arrays w) ("const_arr" +:+ utostr (u32 (const_arr_id w + 1))) (os_size os) C Int32 Int8)
    as (c' & -> & Hc' & _); [done| | | |].
  { destruct HC as [HC _]. intros ->. cbn in HC. lia. }
  { destruct HC as [-> _]. symmetry. apply BV.wrap_small. unfold BitArray.size_ok in Hs. lia. }
  { eapply Forall_impl; [apply HC|]. now intros ? [_ ?]. }
  cbn [mbind outcome_bind]. set (a := mkArray _ _ _ _ _ _). assert (Hfacts : array_ok a = true /\ isConstantArray a = true /\ Expr.size a = os_size os) by exact (constant_array_ok _ _ _ _ Hpos Hs HC).
  destruct Hfacts as (Ha & Hca & Hsz).
  rewrite (extend_all_ok a) by done. cbn [mbind outcome_bind]. eexists a, (pushes un_null rest), _. split_and!; [done..|].
  destruct (list_ok_pushes (os_size os) a un_null rest) as [Hty Hin]; [done..|].
  split_and!; [|done|].
  - destruct Hwf. split; try done. intros ? [= <-]. split_and!; [done..|]. rewrite Hsz. cbn. lia.
  - intros rho bs Hrep. pose proof (rep_length _ _ _ Hrep) as Hlen. split; try apply Hrep. destruct (rep_updates _ _ _ Hrep) as (us & E & Hus).
    rewrite Earr in E, Hus. rewrite <- (pushes_Writes (updates_head os) []) in E at 1. destruct (Hread rho us E) as (us' & E' & Hrd).
    exists us'. split; [rewrite <- E'; now apply eval_updates_array|]. intros i b Hi Hb Hf. specialize (Hus i b Hi Hb Hf).
    assert (Hir : 0 <= i < os_size os) by (apply lookup_lt_Some in Hb; lia). specialize (Hrd i Hir).
    unfold read_value, initial_value in Hus |- *. cbn [os_array set_updates updates_root default from_option id]. rewrite Hca.
    cbn [constantValues a]. change (read_contents C us' i = Some b). rewrite Hrd. rewrite <- Hus. unfold read_contents.
    destruct (read_updates us i); [done|]. unfold isConstantArray, zero_array. cbn [constantValues]. fold zeros.
    destruct zeros eqn:Ez; [|done]. destruct Hz as [Hz _]. cbn in Hz. lia.
Qed.

End Sound.
