(* ===== verification/MemoryRefine.v ===== *)
(** * Object states refine arrays of bytes

    The operations of [ObjectState] against loads and stores on a list of
    bytes, for every contents of the symbolic arrays: [read_refines],
    [write_refines] and [read_after_write].  The theorems also say that the
    asserts of src/lib/Core/Memory.cpp hold and that no access leaves the
    object's arrays. *)

From stdpp Require Import strings.
From S2P Require Import Prelude APInt Expr ExprSem ExprCreate ExprCreateSound ExprRebuildSound ExprTyping Bits BitArray ArrayCache Memory MemorySound.

Section Refine.
Context {A : APIntOps} {AS : APIntSpec A} {Opts : ExprOptions} {MOpts : MemoryOptions}.

(** ** Bytes *)

Lemma eval_list rho os us idx i b : os_wf os -> eval_updates rho (os_array os) (updates_head os) = Some us -> eval rho idx = Some (APInt 32 i) ->
  read_value rho (os_array os) us i = Some b -> eval rho (ReadExpr'create (mkUpdateList (os_array os) (updates_head os)) idx) = Some (APInt 8 b).
Proof.
  intros Hwf Eu Ei Eb. apply ReadExpr'create_sound. destruct (os_array_ok os Hwf) as (Ha & Hd & Hr).
  cbn [eval]. rewrite Eu, Ei. cbn. unfold eval_read. rewrite Ha, Hd, Hr. cbn. now rewrite Eb.
Qed.

Lemma list_width os idx : os_wf os -> has_width 32 idx -> has_width 8 (ReadExpr'create (mkUpdateList (os_array os) (updates_head os)) idx).
Proof.
  intros Hwf Hi. destruct (os_array_ok os Hwf) as (Ha & Hd & Hr). rewrite <- Hr. apply hw_Read; [done|apply Hwf|now rewrite Hd].
Qed.

Lemma read8_ok os w i : os_wf os -> world_ok w -> 0 <= i < os_size os -> exists e os' w',
  read8 i os w = Done (e, os', w') /\ keeps os os' /\ world_ok w' /\ has_width 8 e /\
  forall rho bs b, represents rho os bs -> bs !! Z.to_nat i = Some b -> eval rho e = Some (APInt 8 b).
Proof.
  intros Hwf Hw Hi. pose proof (wf_size os Hwf) as Hs. unfold read8. rewrite isByteConcrete_ok by (done || apply Hwf). cbn [mbind outcome_bind].
  destruct (flushed os i) eqn:Ef.
  2: { destruct (flush_value_ok os i Hwf Hi Ef) as (v & Ev & Hv & Heval). unfold flush_value in Ev. destruct (concrete os i).
    - destruct (get_at _ _); [|done..]. cbn in *. injection Ev as <-. eexists _, os, w. split_and!; [done|now apply keeps_refl|done..].
    - destruct (known os i) as [[e|]| |]; [|done..]. cbn in *. injection Ev as <-. eexists _, os, w. split_and!; [done|now apply keeps_refl|done..]. }
  destruct (concrete os i) eqn:Ec.
  { destruct (wf_store os Hwf) as [Hl Hb]. destruct (get_at_ok (concreteStore os) i ltac:(lia)) as (x & Hx & ->). cbn.
    rewrite Forall_forall in Hb. pose proof (Hb x (list_elem_of_lookup_2 _ _ _ Hx)) as Hr. rewrite byte_value by done.
    eexists _, os, w. split_and!; [done|now apply keeps_refl|done|apply hw_const; [now apply byte_valid|done]|]. intros rho bs b Hrep Hib.
    pose proof (rep_concrete _ _ _ Hrep i b ltac:(lia) Hib Ec) as E. assert (x = b) as -> by congruence. cbn. now rewrite byte_valid. }
  rewrite known_ok_at by (done || apply Hwf). cbn [mbind outcome_bind]. destruct (symbolic os i) as [e|] eqn:Es.
  { eexists _, os, w. split_and!; [done|now apply keeps_refl|done| |].
    - unfold symbolic in Es. destruct (knownSymbolics os) as [ks|] eqn:Ek; [|done]. destruct (wf_known os Hwf ks Ek) as [_ Hk].
      apply (Hk (Z.to_nat i)). revert Es. destruct (ks !! Z.to_nat i); cbn; congruence.
    - intros rho bs b Hrep Hb. eapply rep_symbolic; eauto. lia. }
  rewrite isByteFlushed_ok by (done || apply Hwf). rewrite Ef. cbn [mbind outcome_bind check].
  destruct (getUpdates_ok os w Hwf Hw ltac:(lia)) as (a & h & w' & -> & Hw' & Hk). cbn [mbind outcome_bind].
  pose proof Hk as (Hwf' & _ & Hrep'). unfold BitArray.size_ok in Hs. eexists _, _, _. split_and!; [done|done|done| |].
  - exact (list_width _ _ Hwf' (byte_const_width i ltac:(lia))).
  - intros rho bs b Hrep%Hrep' Hb. destruct (rep_updates _ _ _ Hrep) as (us & E & Hus).
    apply (eval_list rho _ us (byte_const i) i b Hwf' E); [apply byte_const_eval; lia|]. apply Hus; [lia|done|exact Ef].
Qed.

Lemma ZExt_same e : getWidth e = 32 -> ZExtExpr'create e Int32 = e.
Proof. intros He. unfold ZExtExpr'create, ZExtExpr'create_with, Int32. now rewrite He. Qed.

Lemma read8_at_ok os w offset : os_wf os -> world_ok w -> 0 < os_size os -> has_width 32 offset -> isConstant offset = false -> exists e os' w',
  read8_at offset os w = Done (e, os', w') /\ keeps os os' /\ world_ok w' /\ has_width 8 e /\
  forall rho bs o b, represents rho os bs -> eval rho offset = Some (APInt 32 o) -> bs !! Z.to_nat o = Some b -> eval rho e = Some (APInt 8 b).
Proof.
  intros Hwf Hw Hpos Ho Hc. unfold read8_at. rewrite Hc. cbn [negb check mbind outcome_bind fastRangeCheckOffset].
  destruct (flushRangeForRead_ok os Hwf) as (os1 & -> & Hk1 & Hf). cbn [mbind outcome_bind]. pose proof Hk1 as (Hwf1 & Es1 & Hrep1).
  destruct (getUpdates_ok os1 w Hwf1 Hw ltac:(lia)) as (a & h & w' & -> & Hw' & Hk). cbn [mbind outcome_bind].
  pose proof Hk as (Hwf' & _ & Hrep'). rewrite ZExt_same by apply Ho. eexists _, _, _. split_and!; [done|eapply keeps_trans; eauto|done| |].
  - exact (list_width _ _ Hwf' Ho).
  - intros rho bs o b Hrep Eo Hb. pose proof (Hrep' _ _ (Hrep1 _ _ Hrep)) as Hrep2. destruct (rep_updates _ _ _ Hrep2) as (us & E & Hus).
    pose proof (eval_valid _ _ _ Eo) as Hv. apply ap_valid_spec in Hv as [_ Hv]. cbn in Hv.
    apply (eval_list rho _ us offset o b Hwf' E Eo). apply Hus; [lia|done|]. apply (Hf o).
    pose proof (rep_length _ _ _ Hrep). apply lookup_lt_Some in Hb. lia.
Qed.

(** ** Writing a byte at a known offset *)

(** Byte [i] of [os'] is new, cached in one of the two ways and not flushed. *)
Lemma write_keeps os os' i :
  os_wf os -> 0 <= i < os_size os -> os_size os' = os_size os -> updates_root os' = updates_root os -> updates_head os' = updates_head os ->
  byte_list (os_size os) (concreteStore os') -> Z.of_nat (length (flagStore os')) = os_size os -> Z.of_nat (length (kinstStore os')) = os_size os ->
  mask_ok (os_size os) (concreteMask os') -> mask_ok (os_size os) (flushMask os') -> known_ok (os_size os) (knownSymbolics os') ->
  (forall j, 0 <= j < os_size os -> flushed os' j = negb (j =? i) && flushed os j) ->
  (forall j, 0 <= j < os_size os -> j <> i -> concrete os' j = concrete os j /\ symbolic os' j = symbolic os j /\
     concreteStore os' !! Z.to_nat j = concreteStore os !! Z.to_nat j) ->
  (concrete os' i = true /\ symbolic os' i = None) \/ (concrete os' i = false /\ symbolic os' i <> None) ->
  os_wf os' /\ forall rho bs v, represents rho os bs -> (concrete os' i = true -> concreteStore os' !! Z.to_nat i = Some v) ->
    (forall e, symbolic os' i = Some e -> eval rho e = Some (APInt 8 v)) -> represents rho os' (<[Z.to_nat i := v]> bs).
Proof.
  intros Hwf Hi Esz Ert Ehd Hst Hfl Hki Hcm Hfm Hkn Hflush Hsame Hnew.
  assert (Earr : os_array os' = os_array os) by (unfold os_array; now rewrite Ert, Esz).
  split.
  - destruct Hwf. split; rewrite ?Esz, ?Ert, ?Ehd, ?Earr; try done.
    + intros j Hj. destruct (Z.eq_dec j i) as [->|Hn]; [destruct Hnew as [[_ ->]|[-> _]]; done|].
      destruct (Hsame j Hj Hn) as (-> & -> & _). auto.
    + intros j Hj. rewrite Hflush by done. destruct (Z.eqb_spec j i) as [->|Hn]; cbn; [intros _; destruct Hnew as [[-> _]|[_ ?]]; auto|].
      destruct (Hsame j Hj Hn) as (-> & -> & _). auto.
  - intros rho bs v [Hl (us & Eu & Hus) Hc Hs] Hv1 Hv2.
    assert (Hcases : forall j b, 0 <= j -> <[Z.to_nat i := v]> bs !! Z.to_nat j = Some b -> 0 <= j < os_size os /\
      ((j = i /\ b = v) \/ (j <> i /\ bs !! Z.to_nat j = Some b))).
    { intros j b Hj Hb. apply list_lookup_insert_Some in Hb as [(? & -> & ?)|[? Hb]]; [lia|]. apply lookup_lt_Some in Hb as Hlt. split; [lia|right; split; [lia|done]]. }
    split; rewrite ?Esz, ?Ert, ?Ehd, ?Earr; [now rewrite length_insert| | |].
    + exists us. split; [done|]. intros j b Hj Hb. destruct (Hcases j b Hj Hb) as [Hjr [[-> ->]|[Hn Hb']]]; rewrite Hflush by done.
      * now rewrite Z.eqb_refl.
      * destruct (Z.eqb_spec j i); [done|]. cbn. eauto.
    + intros j b Hj Hb. destruct (Hcases j b Hj Hb) as [Hjr [[-> ->]|[Hn Hb']]]; [done|].
      destruct (Hsame j Hjr Hn) as (-> & _ & ->). eauto.
    + intros j b e Hj Hb. destruct (Hcases j b Hj Hb) as [Hjr [[-> ->]|[Hn Hb']]]; [auto|].
      destruct (Hsame j Hjr Hn) as (_ & -> & _). eauto.
Qed.

(** [os'] holds the bytes of [os], changed as [R] says. *)
Definition stores (os os' : ObjectState) (R : valuation -> list Z -> list Z -> Prop) : Prop :=
  os_wf os' /\ os_size os' = os_size os /\ forall rho bs bs', represents rho os bs -> R rho bs bs' -> represents rho os' bs'.

Lemma untagged_same os flags kinst : exists n, increaseUntaggedWriteCnt flags kinst os = set_untagged os n.
Proof. unfold increaseUntaggedWriteCnt. destruct (_ && _); [eauto|]. exists (untaggedWriteCnt os). now destruct os. Qed.

Lemma untagged_ok os n : os_wf os -> os_wf (set_untagged os n).
Proof. now intros []. Qed.
Lemma untagged_represents rho os n bs : represents rho os bs -> represents rho (set_untagged os n) bs.
Proof. now intros []. Qed.

Lemma write8_ok os i v flags kinst : os_wf os -> 0 <= i < os_size os -> 0 <= v < 256 -> exists os',
  write8 i v flags kinst os = Done os' /\ stores os os' (fun _ bs bs' => bs' = <[Z.to_nat i := v]> bs).
Proof.
  intros Hwf Hi Hv. unfold write8. destruct (untagged_same os flags kinst) as [n ->]. pose proof (wf_size os Hwf) as Hs.
  destruct (wf_store os Hwf) as [Hl Hb]. pose proof (wf_flags os Hwf) as Hfl. pose proof (wf_kinsts os Hwf) as Hki.
  cbn [concreteStore flagStore kinstStore set_untagged]. rewrite !put_at_ok by lia. cbn [mbind outcome_bind].
  set (os0 := set_stores _ _ _ _). destruct (setKnownSymbolic_ok os0 Hs i Hi None) as (ks & -> & Hk & Hks); [apply Hwf|done|]. cbn [mbind outcome_bind].
  destruct (markByteConcrete_ok (set_knownSymbolics os0 ks) Hs i Hi) as (m & -> & Hm & Hc); [apply Hwf|]. cbn [mbind outcome_bind].
  destruct (markByteUnflushed_ok (set_concreteMask (set_knownSymbolics os0 ks) m) Hs i Hi) as (f & -> & Hf & Hfs); [apply Hwf|].
  set (os' := set_flushMask _ _). exists os'. split; [done|]. destruct (write_keeps os os' i) as [Hwf' Hrep]; try done.
  - split; cbn; [now rewrite length_insert|now apply Forall_insert].
  - cbn. now rewrite length_insert.
  - cbn. now rewrite length_insert.
  - intros j Hj. apply Hfs. lia.
  - intros j Hj Hn. split_and!.
    + change (concrete (set_concreteMask (set_knownSymbolics os0 ks) m) j = concrete os j). rewrite Hc by lia. now rewrite (proj2 (Z.eqb_neq _ _) Hn).
    + change (symbolic (set_knownSymbolics os0 ks) j = symbolic os j). rewrite Hks by lia. now rewrite (proj2 (Z.eqb_neq _ _) Hn).
    + cbn. now rewrite list_lookup_insert_ne by lia.
  - left. split.
    + change (concrete (set_concreteMask (set_knownSymbolics os0 ks) m) i = true). rewrite Hc by lia. now rewrite Z.eqb_refl.
    + change (symbolic (set_knownSymbolics os0 ks) i = None). rewrite Hks by lia. now rewrite Z.eqb_refl.
  - split_and!; [done..|]. intros rho bs bs' Hr ->. apply Hrep; [done| |].
    + intros _. cbn. now rewrite list_lookup_insert_eq by lia.
    + intros e. change (symbolic os' i) with (symbolic (set_knownSymbolics os0 ks) i). rewrite Hks by lia. now rewrite Z.eqb_refl.
Qed.

Lemma write8_expr_ok os i value flags kinst : os_wf os -> 0 <= i < os_size os -> has_width 8 value -> exists os',
  write8_expr i value flags kinst os = Done os' /\
  stores os os' (fun rho bs bs' => exists v, eval rho value = Some (APInt 8 v) /\ bs' = <[Z.to_nat i := v]> bs).
Proof.
  intros Hwf Hi Hv. destruct (isConstant value) eqn:Ec.
  { destruct value; try done. apply hw_const_inv in Hv as [Hva Hw]. pose proof Hva as Hr. apply ap_valid_spec in Hr as [_ Hr]. rewrite Hw in Hr.
    cbn [write8_expr]. rewrite Hw. cbn [check mbind outcome_bind Z.leb Z.compare Pos.compare Pos.compare_cont].
    rewrite getZExtValue_spec by (done || lia). rewrite BV.wrap_small by lia.
    destruct (write8_ok os i (ap_val value) flags kinst Hwf Hi ltac:(lia)) as (os' & -> & Hwf' & Es & Hrep).
    exists os'. split; [done|]. split_and!; [done..|]. intros rho bs bs' Hrp (v & Ev & ->). cbn in Ev. rewrite Hva in Ev. injection Ev as ->. cbn in *. eauto. }
  assert (E : write8_expr i value flags kinst os =
    let os := increaseUntaggedWriteCnt flags kinst os in
    os1 ← setKnownSymbolic i (Some value) os;
    f ← put_at (flagStore os1) i flags;
    k ← put_at (kinstStore os1) i kinst;
    os2 ← markByteSymbolic i (set_stores os1 (concreteStore os1) f k);
    markByteUnflushed i os2) by now destruct value.
  rewrite E. clear E. destruct (untagged_same os flags kinst) as [n ->]. pose proof (wf_size os Hwf) as Hs. cbv zeta.
  destruct (setKnownSymbolic_ok (set_untagged os n) Hs i Hi (Some value)) as (ks & -> & Hk & Hks); [apply Hwf|now intros ? [= <-]|]. cbn [mbind outcome_bind].
  pose proof (wf_flags os Hwf) as Hfl. pose proof (wf_kinsts os Hwf) as Hki.
  cbn [flagStore kinstStore concreteStore set_knownSymbolics set_untagged]. rewrite !put_at_ok by lia. cbn [mbind outcome_bind]. set (os0 := set_stores _ _ _ _).
  destruct (markByteSymbolic_ok os0 Hs i Hi) as (m & -> & Hm & Hc); [apply Hwf|]. cbn [mbind outcome_bind].
  destruct (markByteUnflushed_ok (set_concreteMask os0 m) Hs i Hi) as (f & -> & Hf & Hfs); [apply Hwf|].
  set (os' := set_flushMask _ _). exists os'. split; [done|].
  assert (Esym : forall j, 0 <= j -> symbolic os' j = if j =? i then Some value else symbolic os j) by exact Hks.
  assert (Econ : forall j, 0 <= j < os_size os -> concrete os' j = negb (j =? i) && concrete os j) by exact Hc.
  destruct (write_keeps os os' i) as [Hwf' Hrep]; try done.
  - apply Hwf.
  - cbn. now rewrite length_insert.
  - cbn. now rewrite length_insert.
  - intros j Hj. apply Hfs. lia.
  - intros j Hj Hn. rewrite Econ, Esym by lia. rewrite (proj2 (Z.eqb_neq _ _) Hn). done.
  - right. rewrite Econ, Esym by lia. now rewrite Z.eqb_refl.
  - split_and!; [done..|]. intros rho bs bs' Hr (v & Ev & ->). apply Hrep; [done| |].
    + rewrite Econ by lia. now rewrite Z.eqb_refl.
    + rewrite Esym by lia. rewrite Z.eqb_refl. now intros e [= <-].
Qed.

(** ** Writing a byte at a symbolic offset *)

Lemma write8_at_ok os offset value flags kinst : os_wf os -> has_width 32 offset -> isConstant offset = false -> has_width 8 value -> exists os',
  write8_at offset value flags kinst os = Done os' /\
  stores os os' (fun rho bs bs' => exists o v, eval rho offset = Some (APInt 32 o) /\ eval rho value = Some (APInt 8 v) /\ bs' = <[Z.to_nat o := v]> bs).
Proof.
  intros Hwf Ho Hc Hv. unfold write8_at. destruct (untagged_same os flags kinst) as [n ->]. rewrite Hc. cbn [negb check mbind outcome_bind fastRangeCheckOffset].
  destruct (flushRangeForWrite_ok (set_untagged os n) (untagged_ok os n Hwf)) as (os1 & -> & (Hwf1 & Es1 & Hrep1) & Hf). cbn [mbind outcome_bind].
  rewrite ZExt_same by apply Ho. rewrite extend_ok by done. set (os' := set_updates _ _ _). exists os'. split; [done|].
  destruct (os_array_ok os1 Hwf1) as (_ & Hd & Hr).
  assert (Hok : list_ok (os_size os1) (os_array os1) (push (updates_head os1) (offset, value))).
  { apply list_ok_push; [done..|]. split; [split; apply Hwf1|]. split_and!; [done..|]. cbn. now destruct offset. }
  split_and!.
  - destruct Hwf1. split; try done; apply Hok.
  - exact Es1.
  - intros rho bs bs' Hrep (o & v & Eo & Ev & ->). pose proof (Hrep1 _ _ (untagged_represents _ _ n _ Hrep)) as Hr1.
    pose proof (eval_valid _ _ _ Eo) as Hvo. apply ap_valid_spec in Hvo as [_ Hvo]. cbn in Hvo.
    pose proof (rep_length _ _ _ Hr1) as Hl1. destruct (rep_updates _ _ _ Hr1) as (us & E & Hus).
    assert (Hin : forall j b, 0 <= j -> <[Z.to_nat o := v]> bs !! Z.to_nat j = Some b -> 0 <= j < os_size os).
    { intros j b Hj Hb. apply lookup_lt_Some in Hb. rewrite length_insert in Hb. cbn in Es1. lia. }
    split.
    + rewrite length_insert. exact Hl1.
    + exists ((o, v) :: us). split.
      * change (eval_updates rho (os_array os1) (un_node (updates_head os1) offset value) = Some ((o, v) :: us)).
        cbn [eval_updates]. rewrite E, Eo, Ev. cbn. now rewrite Hd, Hr.
      * intros j b Hj Hb _. change (os_array os') with (os_array os1). rewrite read_value_cons.
        pose proof (Hin j b Hj Hb) as Hj'. apply list_lookup_insert_Some in Hb as [(E' & -> & _)|[Hn Hb]].
        -- now rewrite (proj2 (Z.eqb_eq _ _)) by lia.
        -- rewrite (proj2 (Z.eqb_neq _ _)) by lia. apply Hus; auto. now apply Hf.
    + intros j b Hj Hb. destruct (Hf j (Hin j b Hj Hb)) as (_ & Hcon & _). change (concrete os' j) with (concrete os1 j). now rewrite Hcon.
    + intros j b e Hj Hb. destruct (Hf j (Hin j b Hj Hb)) as (_ & _ & Hsym). change (symbolic os' j) with (symbolic os1 j). now rewrite Hsym.
Qed.

(** ** Loads and stores on lists of bytes

    The [i]-th byte of a value, from the least significant one, lies at
    [byte_index NumBytes i] from the offset; offsets are 32-bit words. *)

Definition address (NumBytes o i : Z) : nat := Z.to_nat (u32 (o + byte_index NumBytes i)).

(** The value of the [k] least significant bytes. *)
Fixpoint load (NumBytes o : Z) (k : nat) (bs : list Z) : option Z :=
  match k with
  | O => Some 0
  | S k => v ← load NumBytes o k bs; b ← bs !! address NumBytes o (Z.of_nat k); Some (b * 2 ^ (8 * Z.of_nat k) + v)
  end.

Fixpoint store (NumBytes o v : Z) (k : nat) (bs : list Z) : list Z :=
  match k with
  | O => bs
  | S k => <[address NumBytes o (Z.of_nat k) := BV.wrap 8 (v / 2 ^ (8 * Z.of_nat k))]> (store NumBytes o v k bs)
  end.

(** Booleans take a byte. *)
Definition bytes_of_width (w : Z) : Z := if w =? Bool then 1 else w / 8.
Definition load_value (w o : Z) (bs : list Z) : option Z :=
  if w =? Bool then b ← bs !! Z.to_nat o; Some (BV.wrap 1 b) else load (w / 8) o (Z.to_nat (w / 8)) bs.
Definition store_value (w o v : Z) (bs : list Z) : list Z :=
  if w =? Bool then <[Z.to_nat o := v]> bs else store (w / 8) o v (Z.to_nat (w / 8)) bs.

Definition width_ok (w : Z) : Prop := w = Bool \/ (0 < w /\ w = 8 * (w / 8)).

Lemma byte_index_range n i : 0 <= i < n -> 0 <= byte_index n i < n.
Proof. unfold byte_index. destruct isLittleEndian; lia. Qed.

Lemma byte_index_inj n i j : byte_index n i = byte_index n j -> i = j.
Proof. unfold byte_index. destruct isLittleEndian; lia. Qed.

(** *** Reading *)

(** The values the offset may have: [base rho o]. *)
Definition reads_byte (size : Z) (base : valuation -> Z -> Prop) (idx : Z) (byte : ObjectState -> World -> outcome (Expr * ObjectState * World)) : Prop :=
  forall os w, os_wf os -> os_size os = size -> world_ok w -> exists e os' w',
    byte os w = Done (e, os', w') /\ keeps os os' /\ world_ok w' /\ has_width 8 e /\
    forall rho bs o b, represents rho os bs -> base rho o -> bs !! Z.to_nat (u32 (o + idx)) = Some b -> eval rho e = Some (APInt 8 b).

(** A step of [read_loop]. *)
Lemma concat_step rho e r b v i : 0 < i -> eval rho e = Some (APInt 8 b) -> eval rho r = Some (APInt (8 * i) v) ->
  eval rho (ConcatExpr'create e r) = Some (APInt (8 * (i + 1)) (b * 2 ^ (8 * i) + v)).
Proof.
  intros Hi He Hr. apply ConcatExpr'create_sound. rewrite (eval_concat_expr rho e r _ _ He Hr). unfold eval_concat. cbn [ap_width ap_val].
  now replace (8 * (i + 1)) with (8 + 8 * i) by lia.
Qed.

Lemma read_loop_ok os w base n byte : os_wf os -> world_ok w -> 0 < n ->
  (forall idx, 0 <= idx < n -> reads_byte (os_size os) base idx (byte idx)) -> exists e os' w',
  read_loop byte n os w = Done (e, os', w') /\ keeps os os' /\ world_ok w' /\ has_width (8 * n) e /\
  forall rho bs o v, represents rho os bs -> base rho o -> load n o (Z.to_nat n) bs = Some v -> eval rho e = Some (APInt (8 * n) v).
Proof.
  intros Hwf Hw Hn Hbyte. unfold read_loop. set (f := fun i '(Res, os, w) => _).
  destruct (for_each_range f (fun i '(Res, os1, w1) => keeps os os1 /\ world_ok w1 /\
      match Res with
      | None => i = 0
      | Some e => 0 < i /\ has_width (8 * i) e /\ forall rho bs o v, represents rho os bs -> base rho o -> load n o (Z.to_nat i) bs = Some v -> eval rho e = Some (APInt (8 * i) v)
      end) 0 n (None, os, w)) as ([[Res os'] w'] & E & Hk & Hw' & HRes); [lia|split_and!; auto using keeps_refl| |].
  - intros i [[Res os1] w1] Hi (Hk1 & Hw1 & HRes). pose proof Hk1 as (Hwf1 & Es1 & Hrep1). unfold f. cbn beta iota.
    destruct (Hbyte _ (byte_index_range n i ltac:(lia)) os1 w1 Hwf1 Es1 Hw1) as (e & os2 & w2 & -> & Hk2 & Hw2 & He & Heval). cbn [mbind outcome_bind].
    eexists. split; [done|]. cbn beta iota. split_and!; [eapply keeps_trans; eauto|done|lia| |].
    + destruct Res as [r|]; [|now subst i]. destruct HRes as (Hpos & Hr & _). replace (8 * (i + 1)) with (8 + 8 * i) by lia. now apply hw_Concat.
    + intros rho bs o v Hrep Hb Hl. replace (Z.to_nat (i + 1)) with (S (Z.to_nat i)) in Hl by lia. cbn [load] in Hl. rewrite Z2Nat.id in Hl by lia.
      apply bind_Some in Hl as (lo & Hlo & Hl). apply bind_Some in Hl as (b & Hbb & [= <-]).
      pose proof (Heval rho bs o b (Hrep1 _ _ Hrep) Hb Hbb) as Ee.
      destruct Res as [r|]; [destruct HRes as (Hpos & _ & Hr); apply concat_step; eauto|]. subst i. cbn in Hlo. injection Hlo as <-. rewrite Ee. f_equal. f_equal. lia.
  - rewrite E. cbn [mbind outcome_bind]. destruct Res as [e|]; [|lia]. cbn. destruct HRes as (_ & He & Heval). eexists _, _, _. split_and!; eauto.
Qed.

(** *** Writing *)

Definition writes_byte (size : Z) (base : valuation -> Z -> Prop) (idx : Z) (value : Expr) (byte : ObjectState -> outcome ObjectState) : Prop :=
  forall os, os_wf os -> os_size os = size -> exists os', byte os = Done os' /\
    stores os os' (fun rho bs bs' => exists o v, base rho o /\ eval rho value = Some (APInt 8 v) /\ bs' = <[Z.to_nat (u32 (o + idx)) := v]> bs).

Lemma extract_byte value n i : has_width (8 * n) value -> 0 <= i < n ->
  has_width 8 (ExtractExpr'create value (8 * i) Int8) /\
  forall rho x, eval rho value = Some (APInt (8 * n) x) -> eval rho (ExtractExpr'create value (8 * i) Int8) = Some (APInt 8 (BV.wrap 8 (x / 2 ^ (8 * i)))).
Proof.
  intros Hv Hi. split.
  - apply (hw_Extract (8 * n)); unfold Int8; auto; lia.
  - intros rho x E. apply ExtractExpr'create_sound. rewrite (eval_extract_expr rho value (8 * i) Int8 _ E); [done|..]; unfold Int8; cbn; lia.
Qed.

(** A loop that stores the bytes of a value, given as [R]. *)
Lemma store_loop_ok os (base : valuation -> Z -> Prop) (R : valuation -> Z -> Prop) n (f : Z -> ObjectState -> outcome ObjectState) : os_wf os -> 0 <= n ->
  (forall rho o o', base rho o -> base rho o' -> o = o') -> (forall rho x x', R rho x -> R rho x' -> x = x') ->
  (forall i os1, 0 <= i < n -> os_wf os1 -> os_size os1 = os_size os -> exists os2, f i os1 = Done os2 /\
     stores os1 os2 (fun rho bs bs' => exists o x, base rho o /\ R rho x /\ bs' = <[address n o i := BV.wrap 8 (x / 2 ^ (8 * i))]> bs)) ->
  exists os', for_each f (seqZ 0 n) os = Done os' /\
    stores os os' (fun rho bs bs' => exists o x, base rho o /\ R rho x /\ bs' = store n o x (Z.to_nat n) bs).
Proof.
  intros Hwf Hn Hbase HR Hf.
  destruct (for_each_range f (fun i os1 => stores os os1 (fun rho bs bs' => exists o x, base rho o /\ R rho x /\ bs' = store n o x (Z.to_nat i) bs))
    0 n os) as (os' & E & Hs); [lia| | |eauto].
  - split_and!; [done..|]. now intros rho bs bs' Hr (o & x & _ & _ & ->).
  - intros i os1 Hi (Hwf1 & Es1 & Hrep1). destruct (Hf i os1 ltac:(lia) Hwf1 Es1) as (os2 & E & Hwf2 & Es2 & Hrep2). exists os2. split; [done|].
    split_and!; [done|congruence|]. intros rho bs bs' Hr (o & x & Ho & Hx & ->). replace (Z.to_nat (i + 1)) with (S (Z.to_nat i)) by lia. cbn [store].
    rewrite Z2Nat.id by lia. apply (Hrep2 rho (store n o x (Z.to_nat i) bs)); eauto 10.
Qed.

Lemma write_loop_ok os base n value byte : os_wf os -> 0 <= n -> has_width (8 * n) value -> (forall rho o o', base rho o -> base rho o' -> o = o') ->
  (forall idx v, 0 <= idx < n -> has_width 8 v -> writes_byte (os_size os) base idx v (byte idx v)) ->
  exists os', write_loop byte value os = Done os' /\
    stores os os' (fun rho bs bs' => exists o x, base rho o /\ eval rho value = Some (APInt (8 * n) x) /\ bs' = store n o x (Z.to_nat n) bs).
Proof.
  intros Hwf Hn Hv Hbase Hbyte. unfold write_loop. replace (getWidth value) with (8 * n) by (symmetry; apply Hv).
  rewrite (Z.mul_comm 8 n), Z.div_mul, Z.eqb_refl by lia. cbn [check mbind outcome_bind].
  apply (store_loop_ok os base (fun rho x => eval rho value = Some (APInt (n * 8) x))); try done; [congruence|].
  intros i os1 Hi Hwf1 Es1. rewrite <- (Z.mul_comm 8 n) in *. destruct (extract_byte value n i Hv Hi) as [Hw He].
  destruct (Hbyte _ _ (byte_index_range n i Hi) Hw os1 Hwf1 Es1) as (os2 & E & Hwf2 & Es2 & Hrep). exists os2. split; [done|]. split_and!; [done..|].
  intros rho bs bs' Hr (o & x & Ho & Hx & ->). apply (Hrep rho bs); [done|]. exists o, (BV.wrap 8 (x / 2 ^ (8 * i))). auto.
Qed.

(** *** Offsets *)

Definition at_const (c : Z) : valuation -> Z -> Prop := fun _ o => o = c.
Definition at_expr (offset : Expr) : valuation -> Z -> Prop := fun rho o => eval rho offset = Some (APInt 32 o).

Lemma at_expr_fun offset rho o o' : at_expr offset rho o -> at_expr offset rho o' -> o = o'.
Proof. unfold at_expr. congruence. Qed.

Lemma read_byte_const size c n idx : 0 <= c -> c + n <= size -> BitArray.size_ok size -> 0 <= idx < n -> reads_byte size (at_const c) idx (read8 (u32 (c + idx))).
Proof.
  unfold BitArray.size_ok. intros Hc Hn Hs Hi os w Hwf Es Hw. destruct (read8_ok os w (u32 (c + idx)) Hwf Hw) as (e & os' & w' & E & Hk & Hw' & He & Heval).
  { unfold u32. rewrite BV.wrap_small; lia. }
  exists e, os', w'. split_and!; auto. intros rho bs o b Hr ->. eauto.
Qed.

Lemma write_byte_const size c n idx value flags kinst : 0 <= c -> c + n <= size -> BitArray.size_ok size -> 0 <= idx < n -> has_width 8 value ->
  writes_byte size (at_const c) idx value (write8_expr (u32 (c + idx)) value flags kinst).
Proof.
  unfold BitArray.size_ok. intros Hc Hn Hs Hi Hv os Hwf Es. destruct (write8_expr_ok os (u32 (c + idx)) value flags kinst Hwf) as (os' & E & Hwf' & Es' & Hr); auto.
  { unfold u32. rewrite BV.wrap_small; lia. }
  exists os'. split; [done|]. split_and!; auto. intros rho bs bs' Hrep (o & v & -> & Ev & ->). eauto.
Qed.

(** A sum of constants that ends in an expression which is not constant: what is
    left of the rule of src/include/klee/Expr/Expr.h that no expression has
    only constant arguments. *)
Fixpoint ends_symbolic (e : Expr) : bool :=
  match e with
  | ConstantExpr _ => false
  | BinaryExpr Add (ConstantExpr _) b | BinaryExpr Sub (ConstantExpr _) b => ends_symbolic b
  | _ => true
  end.

Lemma ends_symbolic_nonconst e : ends_symbolic e = true -> isConstant e = false.
Proof. now destruct e. Qed.

Lemma partial_nonconst e : forall c, has_width 32 e -> has_width 32 (ConstantExpr c) -> ends_symbolic e = true ->
  isConstant (AddExpr_createPartialR c e) = false /\ isConstant (SubExpr_createPartialR c e) = false.
Proof.
  induction e; intros c He Hc Hs; pose proof Hc as [_ Hcw]; cbn in Hcw; try done;
    cbn [AddExpr_createPartialR SubExpr_createPartialR]; rewrite Hcw; change (32 =? Bool) with false; cbn match; try (split; [now destruct (isZero c)|done]).
  assert (Hz : forall x, isConstant x = false -> isConstant (if isZero c then BinaryExpr k e1 e2 else x) = false) by (intros; now destruct (isZero c)).
  destruct k; try (split; [now apply Hz|done]); destruct e1 as [c1| | | | | | | | |]; try (split; [now apply Hz|done]);
    apply hw_binary_inv in He as [H1' H2']; cbn [ends_symbolic] in Hs;
    pose proof (hw_arith_const 32 Add c c1 Hc H1') as Hadd; pose proof (hw_arith_const 32 Sub c c1 Hc H1') as Hsub;
    destruct (IHe2 _ H2' Hadd Hs), (IHe2 _ H2' Hsub Hs); (split; [apply Hz|]); destruct e2; done.
Qed.

Lemma add_const_nonconst e i : has_width 32 e -> 0 <= i < 2 ^ 32 -> ends_symbolic e = true -> isConstant (AddExpr'create e (byte_const i)) = false.
Proof.
  intros He Hi Hs. destruct (partial_nonconst e (ConstantExpr'create i Int32) He (byte_const_width i Hi) Hs) as [Ha _].
  now destruct e.
Qed.

Lemma add_offset e i rho o : 0 <= i < 2 ^ 32 -> eval rho e = Some (APInt 32 o) -> eval rho (AddExpr'create e (byte_const i)) = Some (APInt 32 (u32 (o + i))).
Proof.
  intros Hi He. apply AddExpr'create_sound. cbn [eval]. rewrite He, byte_const_eval by done. reflexivity.
Qed.

Lemma read_byte_expr size offset n idx : 0 < size -> n <= 2 ^ 32 -> has_width 32 offset -> ends_symbolic offset = true -> 0 <= idx < n ->
  reads_byte size (at_expr offset) idx (read8_at (AddExpr'create offset (byte_const idx))).
Proof.
  intros Hs Hn Ho He Hi os w Hwf Es Hw.
  destruct (read8_at_ok os w (AddExpr'create offset (byte_const idx)) Hwf Hw) as (e & os' & w' & E & Hk & Hw' & Hwe & Heval); [lia| |apply add_const_nonconst; auto; lia|].
  { apply (hw_Arith Add); [done|]. apply byte_const_width. lia. }
  exists e, os', w'. split_and!; auto. intros rho bs o b Hr Hb. apply Heval; auto. apply add_offset; auto. lia.
Qed.

Lemma write_byte_expr size offset n idx value flags kinst : n <= 2 ^ 32 -> has_width 32 offset -> ends_symbolic offset = true -> 0 <= idx < n -> has_width 8 value ->
  writes_byte size (at_expr offset) idx value (write8_at (AddExpr'create offset (byte_const idx)) value flags kinst).
Proof.
  intros Hn Ho He Hi Hv os Hwf Es.
  destruct (write8_at_ok os (AddExpr'create offset (byte_const idx)) value flags kinst Hwf) as (os' & E & Hwf' & Es' & Hr); [|apply add_const_nonconst; auto; lia|done|].
  { apply (hw_Arith Add); [done|]. apply byte_const_width. lia. }
  exists os'. split; [done|]. split_and!; auto. intros rho bs bs' Hrep (o & v & Ho' & Ev & ->). apply (Hr rho bs); [done|].
  exists (u32 (o + idx)), v. split_and!; auto. apply add_offset; auto. lia.
Qed.

(** ** Reads and writes of values *)

(** The access may be made: a constant offset is inside the object. *)
Definition offset_ok (offset : Expr) (bytes size : Z) : Prop :=
  (exists w, has_width w offset) /\ bytes <= 2 ^ 32 /\
  match ZExtExpr'create offset Int32 with
  | ConstantExpr c => ap_val c + bytes <= size
  | t => ends_symbolic t = true
  end.

Lemma truncate_offset offset w rho o : has_width w offset -> eval rho offset = Some (APInt w o) ->
  eval rho (ZExtExpr'create offset Int32) = Some (APInt 32 (u32 o)).
Proof.
  intros Hw E. pose proof (eval_valid _ _ _ E) as Hv. apply ap_valid_spec in Hv as [Hw0 Hv]. cbn in Hv, Hw0. unfold u32, Int32.
  destruct (Z.le_gt_cases w 32) as [Hle|Hgt].
  - apply ZExtExpr'create_sound. cbn [eval]. rewrite E. cbn. unfold eval_cast. cbn. rewrite (proj2 (Z.leb_le _ _)) by lia.
    rewrite (BV.wrap_small 32 o); [done|]. pose proof (Z.pow_le_mono_r 2 w 32). lia.
  - apply (Cast'create_trunc ZExt); [destruct Hw as [_ ->]; lia|]. rewrite (eval_extract_expr rho offset 0 32 _ E); cbn; try lia.
    now rewrite Z.div_1_r.
Qed.

Lemma bool_of_byte e : has_width 8 e -> has_width Bool (ExtractExpr'create e 0 Bool) /\
  forall rho b, eval rho e = Some (APInt 8 b) -> eval rho (ExtractExpr'create e 0 Bool) = Some (APInt Bool (BV.wrap 1 b)).
Proof.
  intros He. split; [apply (hw_Extract 8); unfold Bool; auto; lia|]. intros rho b E. apply ExtractExpr'create_sound.
  rewrite (eval_extract_expr rho e 0 Bool _ E); unfold Bool; cbn; try lia. now rewrite Z.div_1_r.
Qed.

Lemma byte_of_bool e : has_width Bool e -> has_width 8 (ZExtExpr'create e Int8) /\
  forall rho v, eval rho e = Some (APInt Bool v) -> eval rho (ZExtExpr'create e Int8) = Some (APInt 8 v).
Proof.
  intros He. split; [apply (hw_Cast ZExt 1 e 8); auto; lia|]. intros rho v E. apply ZExtExpr'create_sound. cbn [eval]. rewrite E. cbn.
  pose proof (eval_valid _ _ _ E) as Hv. apply ap_valid_spec in Hv as [_ Hv]. cbn in Hv. unfold eval_cast. cbn. rewrite BV.wrap_small; [done|]. unfold Bool in *. change (2 ^ Int8) with 256. change (2 ^ 1) with 2 in Hv. lia.
Qed.

Lemma width_not_bool w : width_ok w -> w <> Bool -> 0 < w / 8 /\ w = 8 * (w / 8).
Proof. unfold width_ok. lia. Qed.

(** The result of a read: an expression for the value loaded, in a state with the same bytes. *)
Definition read_result (base : valuation -> Z -> Prop) (width : Z) (os : ObjectState) (res : outcome (Expr * ObjectState * World)) : Prop :=
  exists e os' w', res = Done (e, os', w') /\ keeps os os' /\ world_ok w' /\ has_width width e /\
    forall rho bs o v, represents rho os bs -> base rho o -> load_value width (u32 o) bs = Some v -> eval rho e = Some (APInt width v).

(** The two [read]s share their cases. *)
Lemma read_cases os w base width (byte0 : ObjectState -> World -> outcome (Expr * ObjectState * World)) byte :
  os_wf os -> world_ok w -> width_ok width -> (forall rho o, base rho o -> 0 <= o < 2 ^ 32) ->
  reads_byte (os_size os) base 0 byte0 -> (forall idx, 0 <= idx < width / 8 -> reads_byte (os_size os) base idx (byte idx)) ->
  read_result base width os
    (if width =? Bool then
       '(b, os', w') ← byte0 os w; Done (ExtractExpr'create b 0 Bool, os', w')
     else
       let NumBytes := width / 8 in
       _ ← check (width =? NumBytes * 8); read_loop byte NumBytes os w).
Proof.
  intros Hwf Hw Hwd Hrange H0' Hb. unfold read_result, load_value. destruct (Z.eqb_spec width Bool) as [->|Hn].
  - destruct (H0' os w Hwf eq_refl Hw) as (e & os' & w' & -> & Hk & Hw' & He & Heval). cbn [mbind outcome_bind]. destruct (bool_of_byte e He) as [He' Hbool].
    eexists _, _, _. split_and!; [done..|]. intros rho bs o v Hr Ho Hl. apply bind_Some in Hl as (b & Hb' & [= <-]). apply Hbool. eapply Heval; eauto.
    rewrite Z.add_0_r. done.
  - destruct (width_not_bool width Hwd Hn) as [Hpos E]. rewrite Z.mul_comm, <- E, Z.eqb_refl. cbn [check mbind outcome_bind].
    destruct (read_loop_ok os w base (width / 8) byte Hwf Hw Hpos Hb) as (e & os' & w' & -> & Hk & Hw' & He & Heval). rewrite <- E in He, Heval.
    eexists _, _, _. split_and!; [done..|]. intros rho bs o v Hr Ho Hl. eapply Heval; eauto. rewrite <- Hl. f_equal. symmetry. apply BV.wrap_small. eauto.
Qed.

Lemma read_const_ok os w c width : os_wf os -> world_ok w -> width_ok width -> 0 <= c -> c + bytes_of_width width <= os_size os ->
  read_result (at_const c) width os (read_const c width os w).
Proof.
  intros Hwf Hw Hwd Hc Hn. pose proof (wf_size os Hwf) as Hs. assert (Hc' : c < 2 ^ 32).
  { unfold BitArray.size_ok, bytes_of_width in *. destruct (Z.eqb_spec width Bool); [lia|]. destruct (width_not_bool width Hwd); lia. }
  apply read_cases; try done.
  - now intros rho o ->.
  - assert (Hb : 0 < bytes_of_width width) by (unfold bytes_of_width; destruct (Z.eqb_spec width Bool); [lia|]; now apply width_not_bool).
    pose proof (read_byte_const (os_size os) c (bytes_of_width width) 0 Hc Hn Hs ltac:(lia)) as Hr.
    rewrite Z.add_0_r in Hr. unfold u32 in Hr. now rewrite BV.wrap_small in Hr by lia.
  - intros idx Hi. apply (read_byte_const (os_size os) c (width / 8)); auto. revert Hn. unfold bytes_of_width. destruct (Z.eqb_spec width Bool) as [->|]; [|lia].
    change (Bool / 8) with 0 in *. lia.
Qed.

Lemma read_at_ok os w offset width : os_wf os -> world_ok w -> width_ok width -> 0 < os_size os -> bytes_of_width width <= 2 ^ 32 ->
  has_width 32 offset -> ends_symbolic offset = true ->
  read_result (at_expr offset) width os
    (if width =? Bool then
       '(b, os', w') ← read8_at offset os w; Done (ExtractExpr'create b 0 Bool, os', w')
     else
       let NumBytes := width / 8 in
       _ ← check (width =? NumBytes * 8); read_loop (fun idx => read8_at (AddExpr'create offset (byte_const idx))) NumBytes os w).
Proof.
  intros Hwf Hw Hwd Hpos Hn Ho He.
  assert (Hrange : forall rho o, at_expr offset rho o -> 0 <= o < 2 ^ 32).
  { intros rho o E. pose proof (eval_valid _ _ _ E) as Hv. apply ap_valid_spec in Hv. cbn in Hv. lia. }
  apply read_cases; try done.
  - intros os1 w1 Hwf1 Es1 Hw1. destruct (read8_at_ok os1 w1 offset Hwf1 Hw1) as (e & os' & w' & E & Hk & Hw' & Hwe & Heval); [lia|done|now apply ends_symbolic_nonconst|].
    exists e, os', w'. split_and!; auto. intros rho bs o b Hr Hb. rewrite Z.add_0_r. unfold u32. rewrite BV.wrap_small by eauto. eauto.
  - intros idx Hi. apply (read_byte_expr (os_size os) offset (width / 8)); auto. revert Hn. unfold bytes_of_width. destruct (width =? Bool) eqn:E; [|done].
    apply Z.eqb_eq in E as ->. change (Bool / 8) with 0 in *. lia.
Qed.

Lemma read_refines_at os w offset wo width : os_wf os -> world_ok w -> width_ok width -> has_width wo offset -> 0 < os_size os ->
  offset_ok offset (bytes_of_width width) (os_size os) ->
  read_result (fun rho o => eval rho offset = Some (APInt wo o)) width os (read offset width os w).
Proof.
  intros Hwf Hw Hwd Hwo Hpos (_ & Hn & Hcase). pose proof (hw_Cast ZExt wo offset 32 Hwo ltac:(lia)) as Ht. cbn [Cast'create] in Ht.
  pose proof (fun rho o => truncate_offset offset wo rho o Hwo) as Htr. unfold Int32 in Htr. change Int32 with 32 in Hcase.
  assert (Hmap : forall base res, (forall rho o, eval rho offset = Some (APInt wo o) -> base rho (u32 o)) -> read_result base width os res ->
    read_result (fun rho o => eval rho offset = Some (APInt wo o)) width os res).
  { intros base res Hb (e & os' & w' & E & Hk & Hw' & He & Heval). exists e, os', w'. split_and!; [done..|]. intros rho bs o v Hr Ho Hl.
    apply (Heval rho bs (u32 o)); auto. unfold u32 at 1. unfold u32. now rewrite BV.wrap_wrap. }
  unfold read. change Int32 with 32. revert Ht Hcase Htr. generalize (ZExtExpr'create offset 32). intros t Ht Hcase Htr.
  destruct t as [c| | | | | | | | |]; try (eapply (Hmap (at_expr _)); [exact Htr|]; now apply read_at_ok).
  apply hw_const_inv in Ht as [Hv Hcw]. pose proof Hv as Hr. apply ap_valid_spec in Hr as [_ Hr]. rewrite Hcw in Hr |- *. cbn [check mbind outcome_bind Z.leb Z.compare Pos.compare Pos.compare_cont].
  rewrite getZExtValue_spec by (done || lia). unfold u32. rewrite BV.wrap_small by lia.
  apply (Hmap (at_const (ap_val c))); [|apply read_const_ok; auto; lia]. intros rho o E. pose proof (Htr rho o E) as E'. cbn in E'. rewrite Hv in E'. now injection E' as ->.
Qed.

(** The result of a write: the bytes of the value are stored. *)
Definition write_result (base : valuation -> Z -> Prop) (width : Z) (value : Expr) (os : ObjectState) (res : outcome ObjectState) : Prop :=
  exists os', res = Done os' /\ stores os os' (fun rho bs bs' => exists o v, base rho o /\ eval rho value = Some (APInt width v) /\ bs' = store_value width (u32 o) v bs).

Lemma write_cases os base value width (byte0 : Expr -> ObjectState -> outcome ObjectState) byte :
  os_wf os -> width_ok width -> has_width width value -> (forall rho o, base rho o -> 0 <= o < 2 ^ 32) -> (forall rho o o', base rho o -> base rho o' -> o = o') ->
  (forall v, has_width 8 v -> writes_byte (os_size os) base 0 v (byte0 v)) ->
  (forall idx v, 0 <= idx < width / 8 -> has_width 8 v -> writes_byte (os_size os) base idx v (byte idx v)) ->
  write_result base width value os (if getWidth value =? Bool then byte0 (ZExtExpr'create value Int8) os else write_loop byte value os).
Proof.
  intros Hwf Hwd Hv Hrange Hfun H0' Hb. unfold write_result, store_value. replace (getWidth value) with width by (symmetry; apply Hv).
  assert (Hu : forall rho o, base rho o -> u32 o = o) by (intros; apply BV.wrap_small; eauto).
  destruct (Z.eqb_spec width Bool) as [->|Hn].
  - destruct (byte_of_bool value Hv) as [Hw He]. destruct (H0' _ Hw os Hwf eq_refl) as (os' & -> & Hwf' & Es & Hr). exists os'. split; [done|]. split_and!; [done..|].
    intros rho bs bs' Hrep (o & v & Ho & Ev & ->). apply (Hr rho bs); [done|]. exists o, v. rewrite Z.add_0_r. auto.
  - destruct (width_not_bool width Hwd Hn) as [Hpos E]. rewrite E in Hv at 1. destruct (write_loop_ok os base (width / 8) value byte Hwf ltac:(lia) Hv Hfun Hb) as (os' & -> & Hwf' & Es & Hr).
    rewrite <- E in Hr. exists os'. split; [done|]. split_and!; [done..|]. intros rho bs bs' Hrep (o & v & Ho & Ev & ->). apply (Hr rho bs); [done|].
    exists o, v. now rewrite (Hu rho o Ho).
Qed.

Lemma bytes_pos width : width_ok width -> 0 < bytes_of_width width /\ width / 8 <= bytes_of_width width.
Proof.
  intros Hwd. unfold bytes_of_width. destruct (Z.eqb_spec width Bool) as [->|Hn]; [now change (Bool / 8) with 0|].
  destruct (width_not_bool width Hwd Hn). lia.
Qed.

Lemma write_slow_ok os c value width flags kinst : os_wf os -> width_ok width -> has_width width value -> 0 <= c -> c + bytes_of_width width <= os_size os ->
  write_result (at_const c) width value os (write_slow c value flags kinst os).
Proof.
  intros Hwf Hwd Hv Hc Hn. pose proof (wf_size os Hwf) as Hs. destruct (bytes_pos width Hwd) as [Hpos Hle]. assert (Hc' : c < 2 ^ 32) by (unfold BitArray.size_ok in Hs; lia).
  apply (write_cases os (at_const c) value width (fun v => write8_expr c v flags kinst)); try done.
  - now intros rho o ->.
  - now intros rho o o' -> ->.
  - intros v Hw. pose proof (write_byte_const (os_size os) c (bytes_of_width width) 0 v flags kinst Hc Hn Hs ltac:(lia) Hw) as Hr.
    rewrite Z.add_0_r in Hr. unfold u32 in Hr. now rewrite BV.wrap_small in Hr by lia.
  - intros idx v Hi Hw. apply (write_byte_const (os_size os) c (width / 8)); auto. lia.
Qed.

(** A word of [n] bytes at a constant offset. *)
Lemma write_word_ok os c n x flags kinst : os_wf os -> 0 <= c -> 0 <= n -> c + n <= os_size os -> exists os',
  write_word n c x flags kinst os = Done os' /\ stores os os' (fun _ bs bs' => bs' = store n c x (Z.to_nat n) bs).
Proof.
  intros Hwf Hc Hn Hle. pose proof (wf_size os Hwf) as Hs. unfold BitArray.size_ok in Hs.
  destruct (store_loop_ok os (at_const c) (fun _ v => v = x) n
    (fun i => write8 (u32 (c + byte_index n i)) (BV.wrap 8 (Z.shiftr x (8 * i))) flags kinst)) as (os' & E & Hwf' & Es & Hr); try done.
  - now intros rho o o' -> ->.
  - now intros rho o o' -> ->.
  - intros i os1 Hi Hwf1 Es1. pose proof (byte_index_range n i Hi). pose proof (BV.wrap_range 8 (Z.shiftr x (8 * i)) ltac:(lia)).
    destruct (write8_ok os1 (u32 (c + byte_index n i)) (BV.wrap 8 (Z.shiftr x (8 * i))) flags kinst Hwf1) as (os2 & E & Hwf2 & Es2 & Hr2).
    { unfold u32. rewrite BV.wrap_small; lia. }
    { lia. }
    exists os2. split; [done|]. split_and!; [done..|]. intros rho bs bs' Hrep (o & v & -> & -> & ->). apply (Hr2 rho bs); [done|].
    rewrite Z.shiftr_div_pow2 by lia. done.
  - exists os'. split; [exact E|]. split_and!; [done..|]. intros rho bs bs' Hrep ->. apply (Hr rho bs); [done|]. now exists c, x.
Qed.

Lemma power_widths w : width_ok w -> w <= 64 -> isPowerOfTwo 64 w = true -> w = 1 \/ w = 8 \/ w = 16 \/ w = 32 \/ w = 64.
Proof.
  intros Hw Hle Hp. assert (Hw0 : 0 < w) by (destruct Hw as [->|]; [done|lia]). apply isPowerOfTwo_spec in Hp as (k & Hk & ->); [|lia..].
  assert (k <= 6) by (apply (Z.pow_le_mono_r_iff 2); lia). assert (Hk' : k = 0 \/ k = 1 \/ k = 2 \/ k = 3 \/ k = 4 \/ k = 5 \/ k = 6) by lia.
  destruct Hw as [E|[_ E]]; unfold Bool in *; destruct Hk' as [-> | [-> | [-> | [-> | [-> | [-> | ->]]]]]]; cbn in *; lia.
Qed.

Lemma write_const_ok os c value width flags kinst : os_wf os -> width_ok width -> has_width width value -> 0 <= c -> c + bytes_of_width width <= os_size os ->
  write_result (at_const c) width value os (write_const c value flags kinst os).
Proof.
  intros Hwf Hwd Hv Hc Hn. pose proof (write_slow_ok os c value width flags kinst Hwf Hwd Hv Hc Hn) as Hslow.
  destruct value as [a| | | | | | | | |]; try exact Hslow. unfold write_const. apply hw_const_inv in Hv as [Hva Hw]. rewrite Hw.
  destruct (_ && _) eqn:Ep; [|exact Hslow]. clear Hslow. apply andb_true_iff in Ep as [Hle%Z.leb_le Hp]. pose proof (wf_size os Hwf) as Hs. unfold BitArray.size_ok in Hs.
  pose proof Hva as Hr. apply ap_valid_spec in Hr as [_ Hr]. rewrite Hw in Hr. rewrite getZExtValue_spec by (done || lia).
  assert (Hword : forall n x, n = width / 8 -> x = ap_val a -> width <> 1 -> write_result (at_const c) width (ConstantExpr a) os (write_word n c x flags kinst os)).
  { intros n x -> -> Hn1. unfold bytes_of_width in Hn. rewrite (proj2 (Z.eqb_neq width Bool)) in Hn by done.
    destruct (width_not_bool width Hwd Hn1). destruct (write_word_ok os c (width / 8) (ap_val a) flags kinst Hwf Hc ltac:(lia) Hn) as (os' & -> & Hwf' & Es & Hr').
    exists os'. split; [done|]. split_and!; [done..|]. intros rho bs bs' Hrep (o & v & -> & Ev & ->). apply (Hr' rho bs); [done|]. cbn in Ev. rewrite Hva in Ev. injection Ev as ->.
    unfold store_value. rewrite (proj2 (Z.eqb_neq width Bool)) by done. unfold u32. rewrite (BV.wrap_small 32 c) by lia. done. }
  assert (H8 : forall x, x = ap_val a -> width = 1 \/ width = 8 -> write_result (at_const c) width (ConstantExpr a) os (write8 c x flags kinst os)).
  { intros x -> H18. pose proof (bytes_pos width Hwd). assert (Hr8 : 0 <= ap_val a < 256).
    { destruct H18 as [-> | ->]; cbn in Hr; lia. }
    destruct (write8_ok os c (ap_val a) flags kinst Hwf ltac:(lia) ltac:(lia)) as (os' & -> & Hwf' & Es & Hr').
    exists os'. split; [done|]. split_and!; [done..|]. intros rho bs bs' Hrep (o & v & -> & Ev & ->). apply (Hr' rho bs); [done|]. cbn in Ev. rewrite Hva in Ev. injection Ev as ->.
    cbn [ap_val] in *. unfold store_value, u32. rewrite (BV.wrap_small 32 c) by lia. destruct H18 as [-> | ->]; [done|].
    change (8 / 8) with 1. change (Z.to_nat 1) with 1%nat. cbn [Z.eqb Pos.eqb Bool store]. unfold address. cbn [Z.of_nat Z.mul]. change (2 ^ 0) with 1. rewrite Z.div_1_r, BV.wrap_small by lia.
    replace (byte_index 1 0) with 0 by (unfold byte_index; now destruct isLittleEndian). rewrite Z.add_0_r. unfold u32. now rewrite BV.wrap_small by lia. }
  cbv zeta. destruct (power_widths width Hwd Hle Hp) as [E|[E|[E|[E|E]]]]; rewrite E in *; cbn [Z.eqb Pos.eqb Bool Int8 Int16 Int32 Int64];
    [apply H8; [apply BV.wrap_small; cbn in Hr; lia|auto].. | | |]; unfold write16, write32, write64; apply Hword; try done; now rewrite BV.wrap_small.
Qed.

Lemma write_at_ok os offset value width flags kinst : os_wf os -> width_ok width -> has_width width value -> bytes_of_width width <= 2 ^ 32 ->
  has_width 32 offset -> ends_symbolic offset = true ->
  write_result (at_expr offset) width value os
    (if getWidth value =? Bool then write8_at offset (ZExtExpr'create value Int8) flags kinst os
     else write_loop (fun idx v => write8_at (AddExpr'create offset (byte_const idx)) v flags kinst) value os).
Proof.
  intros Hwf Hwd Hv Hn Ho He. destruct (bytes_pos width Hwd) as [Hpos Hle].
  assert (Hrange : forall rho o, at_expr offset rho o -> 0 <= o < 2 ^ 32).
  { intros rho o E. pose proof (eval_valid _ _ _ E) as Hva. apply ap_valid_spec in Hva. cbn in Hva. lia. }
  apply (write_cases os (at_expr offset) value width (fun v => write8_at offset v flags kinst)); try done.
  - apply at_expr_fun.
  - intros v Hw os1 Hwf1 Es1. destruct (write8_at_ok os1 offset v flags kinst Hwf1 Ho (ends_symbolic_nonconst _ He) Hw) as (os' & E & Hwf' & Es & Hr).
    exists os'. split; [done|]. split_and!; [done..|]. intros rho bs bs' Hrep (o & x & Ho' & Ev & ->). apply (Hr rho bs); [done|]. exists o, x.
    rewrite Z.add_0_r. unfold u32. rewrite BV.wrap_small by eauto. done.
  - intros idx v Hi Hw. apply (write_byte_expr (os_size os) offset (width / 8)); auto. lia.
Qed.

Lemma write_refines_at os offset wo value width flags kinst : os_wf os -> width_ok width -> has_width wo offset -> has_width width value ->
  offset_ok offset (bytes_of_width width) (os_size os) ->
  write_result (fun rho o => eval rho offset = Some (APInt wo o)) width value os (write offset value flags kinst os).
Proof.
  intros Hwf Hwd Hwo Hv (_ & Hn & Hcase). pose proof (hw_Cast ZExt wo offset 32 Hwo ltac:(lia)) as Ht. cbn [Cast'create] in Ht.
  pose proof (fun rho o => truncate_offset offset wo rho o Hwo) as Htr. unfold Int32 in Htr. change Int32 with 32 in Hcase.
  assert (Hmap : forall base res, (forall rho o, eval rho offset = Some (APInt wo o) -> base rho (u32 o)) -> write_result base width value os res ->
    write_result (fun rho o => eval rho offset = Some (APInt wo o)) width value os res).
  { intros base res Hb (os' & E & Hwf' & Es & Hr). exists os'. split; [done|]. split_and!; [done..|]. intros rho bs bs' Hrep (o & v & Ho & Ev & ->).
    apply (Hr rho bs); [done|]. exists (u32 o), v. split_and!; auto. unfold u32. now rewrite BV.wrap_wrap. }
  unfold write. change Int32 with 32. revert Ht Hcase Htr. generalize (ZExtExpr'create offset 32). intros t Ht Hcase Htr.
  destruct t as [c| | | | | | | | |]; try (eapply (Hmap (at_expr _)); [exact Htr|]; now apply write_at_ok).
  apply hw_const_inv in Ht as [Hva Hcw]. pose proof Hva as Hr. apply ap_valid_spec in Hr as [_ Hr]. rewrite Hcw in Hr |- *. cbn [check mbind outcome_bind Z.leb Z.compare Pos.compare Pos.compare_cont].
  rewrite getZExtValue_spec by (done || lia). unfold u32. rewrite BV.wrap_small by lia.
  apply (Hmap (at_const (ap_val c))); [|apply write_const_ok; auto; lia]. intros rho o E. pose proof (Htr rho o E) as E'. cbn in E'. rewrite Hva in E'. now injection E' as ->.
Qed.

(** *** Loading what was stored *)

Section LoadStore.
Context (n o : Z) (Hn : 0 <= n) (Ho : 0 <= o) (bs : list Z) (Hlen : o + n <= Z.of_nat (length bs)) (Hmax : Z.of_nat (length bs) <= 2 ^ 32).

Lemma address_eq i : 0 <= i < n -> address n o i = Z.to_nat (o + byte_index n i) /\ 0 <= o + byte_index n i < Z.of_nat (length bs).
Proof. intros Hi. pose proof (byte_index_range n i Hi). unfold address, u32. rewrite BV.wrap_small; lia. Qed.

Lemma address_inj i j : 0 <= i < n -> 0 <= j < n -> address n o i = address n o j -> i = j.
Proof.
  intros Hi Hj. destruct (address_eq i Hi) as [-> ?], (address_eq j Hj) as [-> ?]. intros E. apply (byte_index_inj n). lia.
Qed.

Lemma store_length v k : length (store n o v k bs) = length bs.
Proof. induction k; cbn; [done|]. now rewrite length_insert. Qed.

Lemma store_lookup v k j : (j < k)%nat -> Z.of_nat k <= n -> store n o v k bs !! address n o (Z.of_nat j) = Some (BV.wrap 8 (v / 2 ^ (8 * Z.of_nat j))).
Proof.
  induction k as [|k IH]; [lia|]. intros Hj Hk. cbn [store]. destruct (Nat.eq_dec j k) as [->|Hne].
  - rewrite list_lookup_insert_eq; [done|]. rewrite store_length. destruct (address_eq (Z.of_nat k) ltac:(lia)) as [-> ?]. lia.
  - rewrite list_lookup_insert_ne; [apply IH; lia|]. intros E. apply address_inj in E; lia.
Qed.

Lemma load_store_upto v k m : (k <= m)%nat -> Z.of_nat m <= n -> load n o k (store n o v m bs) = Some (BV.wrap (8 * Z.of_nat k) v).
Proof.
  induction k as [|k IH]; intros Hk Hm.
  - cbn. unfold BV.wrap. cbn. now rewrite Z.mod_1_r.
  - cbn [load]. rewrite IH, store_lookup by lia. cbn. f_equal. unfold BV.wrap. replace (8 * Z.of_nat (S k)) with (8 * Z.of_nat k + 8) by lia.
    rewrite Z.pow_add_r, Z.rem_mul_r by lia. lia.
Qed.

End LoadStore.

Lemma load_store_value w o v bs : width_ok w -> 0 <= o -> o + bytes_of_width w <= Z.of_nat (length bs) -> Z.of_nat (length bs) <= 2 ^ 32 ->
  0 <= v < 2 ^ w -> load_value w o (store_value w o v bs) = Some v.
Proof.
  intros Hw Ho Hl Hm Hv. unfold load_value, store_value, bytes_of_width in *. destruct (Z.eqb_spec w Bool) as [->|Hn].
  - rewrite list_lookup_insert_eq by lia. cbn. f_equal. now apply BV.wrap_small.
  - destruct (width_not_bool w Hw Hn) as [Hpos E]. rewrite load_store_upto by lia. f_equal. rewrite Z2Nat.id by lia. rewrite <- E. now apply BV.wrap_small.
Qed.

Lemma store_value_length w o v bs : length (store_value w o v bs) = length bs.
Proof. unfold store_value. destruct (w =? Bool); [apply length_insert|apply store_length]. Qed.

(** C16: [ObjectState::read] at a constant or symbolic offset returns an expression
    whose value is the value loaded from the bytes of the object, in the order of
    the target's endianness, for every contents of the symbolic arrays
    under which the access is in bounds; the asserts hold, the bytes stay the same, and
    the class invariant is kept, although the read may flush bytes and create
    the constant array. *)
Theorem read_refines (os : ObjectState) (w : World) (offset : Expr) (wo width : Z) :
  os_wf os -> world_ok w -> width_ok width -> has_width wo offset -> 0 < os_size os -> offset_ok offset (bytes_of_width width) (os_size os) ->
  exists e os' w', read offset width os w = Done (e, os', w') /\ os_wf os' /\ world_ok w' /\ has_width width e /\
    (forall rho bs, represents rho os bs -> represents rho os' bs) /\
    forall rho bs o v, represents rho os bs -> eval rho offset = Some (APInt wo o) -> load_value width (u32 o) bs = Some v ->
      eval rho e = Some (APInt width v).
Proof.
  intros Hwf Hw Hwd Hwo Hpos Hok. destruct (read_refines_at os w offset wo width) as (e & os' & w' & E & (Hwf' & _ & Hk) & Hw' & He & Heval); auto.
  exists e, os', w'. split_and!; auto.
Qed.

(** C17: [ObjectState::write] at a constant or symbolic offset stores the bytes of
    the value and leaves the others alone, for every contents of the symbolic arrays;
    the asserts hold and the class invariant is kept. *)
Theorem write_refines (os : ObjectState) (offset value : Expr) (wo width flags kinst : Z) :
  os_wf os -> width_ok width -> has_width wo offset -> has_width width value -> offset_ok offset (bytes_of_width width) (os_size os) ->
  exists os', write offset value flags kinst os = Done os' /\ os_wf os' /\ os_size os' = os_size os /\
    forall rho bs o v, represents rho os bs -> eval rho offset = Some (APInt wo o) -> eval rho value = Some (APInt width v) ->
      represents rho os' (store_value width (u32 o) v bs).
Proof.
  intros Hwf Hwd Hwo Hv Hok. destruct (write_refines_at os offset wo value width flags kinst) as (os' & E & Hwf' & Es & Hr); auto.
  exists os'. split_and!; auto. intros rho bs o v Hrep Ho Ev. apply (Hr rho bs); eauto 10.
Qed.

(** C18: what was written is read back: a read of the same width at the same offset
    returns an expression with the value of the one written, wherever the access
    is in bounds. *)
Theorem read_after_write (os : ObjectState) (w : World) (offset value : Expr) (wo width flags kinst : Z) :
  os_wf os -> world_ok w -> width_ok width -> has_width wo offset -> has_width width value -> 0 < os_size os ->
  offset_ok offset (bytes_of_width width) (os_size os) ->
  exists os1 e os2 w', write offset value flags kinst os = Done os1 /\ read offset width os1 w = Done (e, os2, w') /\
    forall rho bs o v, represents rho os bs -> eval rho offset = Some (APInt wo o) -> u32 o + bytes_of_width width <= os_size os ->
      eval rho value = Some v -> eval rho e = Some v.
Proof.
  intros Hwf Hw Hwd Hwo Hv Hpos Hok. destruct (write_refines_at os offset wo value width flags kinst) as (os1 & E & Hwf1 & Es1 & Hr1); auto.
  destruct (read_refines_at os1 w offset wo width) as (e & os2 & w' & E2 & _ & _ & He & Heval); auto; [lia|now rewrite Es1|].
  exists os1, e, os2, w'. split_and!; [done..|]. intros rho bs o v Hrep Ho Hin Ev. destruct v as [wv v].
  assert (wv = width) as -> by (rewrite <- (proj2 Hv); symmetry; exact (eval_width _ _ _ Ev)).
  pose proof (eval_valid _ _ _ Ev) as Hva. apply ap_valid_spec in Hva as [_ Hva]. cbn in Hva. pose proof (rep_length _ _ _ Hrep) as Hl.
  pose proof (wf_size os Hwf) as Hs. unfold BitArray.size_ok in Hs. pose proof (BV.wrap_range 32 o ltac:(lia)).
  apply (Heval rho (store_value width (u32 o) v bs) o); [apply (Hr1 rho bs); eauto 10|done|]. apply load_store_value; auto; unfold u32 in *; lia.
Qed.

End Refine.
