(* ===== verification/ObjectStates.v ===== *)
(** * The construction of object states

    The constructors and initializers of [ObjectState] (src/lib/Core/Memory.cpp)
    establish the class invariant and the bytes they promise:
    [object_states_start] and [copy_keeps_bytes]; witnesses of the refinement theorems
    on a small object. *)

From stdpp Require Import strings.
From S2P Require Import Prelude APInt Expr ExprSem ExprCreate ExprCreateSound ExprRebuildSound ExprTyping Bits BitArray ArrayCache Memory MemorySound MemoryRefine.

Section Start.
Context {A : APIntOps} {AS : APIntSpec A} {Opts : ExprOptions} {MOpts : MemoryOptions}.

Lemma fill_bytes n x : 0 <= n -> 0 <= x < 256 -> byte_list n (fill n x).
Proof. intros. unfold byte_list, fill. rewrite length_replicate. split; [lia|]. now apply Forall_replicate. Qed.

Lemma fill_length n x : 0 <= n -> Z.of_nat (length (fill n x)) = n.
Proof. intros. unfold fill. rewrite length_replicate. lia. Qed.

(** A state whose bytes are all concrete and not flushed. *)
Lemma all_concrete_ok os : BitArray.size_ok (os_size os) -> byte_list (os_size os) (concreteStore os) ->
  Z.of_nat (length (flagStore os)) = os_size os -> Z.of_nat (length (kinstStore os)) = os_size os ->
  concreteMask os = None -> flushMask os = None -> knownSymbolics os = None -> root_ok (os_size os) (updates_root os) ->
  un_well_typed (os_array os) (updates_head os) = true -> indices_inside (os_size os) (updates_head os) ->
  os_wf os /\ forall rho us, eval_updates rho (os_array os) (updates_head os) = Some us -> represents rho os (concreteStore os).
Proof.
  intros Hs Hst Hfl Hki Hc Hf Hk Hr Hh Hi.
  assert (Hcon : forall j, concrete os j = true) by (intros; unfold concrete; now rewrite Hc).
  assert (Hnf : forall j, flushed os j = false) by (intros; unfold flushed; now rewrite Hf).
  assert (Hns : forall j, symbolic os j = None) by (intros; unfold symbolic; now rewrite Hk).
  split.
  - split; try done; try (intros b Hb; congruence).
    intros j _ _. left. apply Hcon.
  - intros rho us E. split; [apply Hst| | |].
    + exists us. split; [done|]. intros j b _ _. now rewrite Hnf.
    + auto.
    + intros j b e _ _. now rewrite Hns.
Qed.

Lemma blank_ok mo root : BitArray.size_ok (mo_size mo) -> root_ok (mo_size mo) root ->
  os_wf (blank mo root) /\ forall rho, represents rho (blank mo root) (fill (mo_size mo) 0).
Proof.
  intros Hs Hr. pose proof Hs as Hs'. unfold BitArray.size_ok in Hs'.
  destruct (all_concrete_ok (blank mo root)) as [Hwf Hrep]; try done; cbn; try (apply fill_length; lia); try (apply fill_bytes; lia).
  split; [done|]. intros rho. now apply (Hrep rho []).
Qed.

(** Every cached array holds bytes, as the default arguments of [CreateArray] have it. *)
Definition byte_arrays (w : World) : Prop :=
  world_ok w /\ Forall (fun a => domain a = 32 /\ range a = 8) (cachedSymbolicArrays (w_arrays w)).

Lemma symbolic_array_ok a : isSymbolicArray a = true -> domain a = 32 -> range a = 8 -> 0 <= Expr.size a < 2 ^ 32 -> array_ok a = true.
Proof.
  intros Ha Hd Hr Hs. unfold array_ok. rewrite Ha, Hd, Hr. unfold isSymbolicArray, isConstantArray in Ha. destruct (constantValues a); [|done]. cbn.
  join_bools; try done; lia.
Qed.

Lemma CreateArray_bytes w nm sz : byte_arrays w -> exists a c, CreateArray (w_arrays w) nm sz [] Int32 Int8 = Done (a, c) /\ cache_ok c /\
  Forall (fun a => domain a = 32 /\ range a = 8) (cachedSymbolicArrays c) /\ isSymbolicArray a = true /\ domain a = 32 /\ range a = 8 /\ Expr.size a = u32 sz.
Proof.
  intros [Hw Hb]. destruct (CreateArray_symbolic (w_arrays w) nm sz Int32 Int8 Hw) as (a & c & E & Hc & Hin & _ & Hn & Hsz & Hsym).
  exists a, c. split; [done|]. split; [done|].
  assert (Hall : Forall (fun a => domain a = 32 /\ range a = 8) (cachedSymbolicArrays c)).
  { revert E. unfold CreateArray. rewrite new_Array_ok by auto. cbn [mbind outcome_bind].
    change (isSymbolicArray (mkArray (next_addr (w_arrays w)) nm (u32 sz) Int32 Int8 [])) with true. cbn match.
    destruct (list_find _ _) as [[i b]|].
    - destruct (isSymbolicArray b); [|done]. cbn. now intros [= _ <-].
    - intros [= _ <-]. cbn. now constructor. }
  split; [done|]. rewrite Forall_forall in Hall. destruct (Hall a Hin). auto.
Qed.

Lemma new_concrete_ok mo w : BitArray.size_ok (mo_size mo) -> byte_arrays w -> exists os w',
  new_concrete mo w = Done (os, w') /\ byte_arrays w' /\ os_wf os /\ forall rho, represents rho os (fill (mo_size mo) 0).
Proof.
  intros Hs Hw. unfold new_concrete. destruct UseConstantArrays.
  { exists (blank mo None), w. split_and!; [done..| |]; now apply blank_ok. }
  destruct (CreateArray_bytes w ("tmp_arr" +:+ utostr (u32 (tmp_arr_id w + 1))) (mo_size mo) Hw) as (a & c & -> & Hc & Hall & Hsym & Hd & Hr & Hsz). cbn [mbind outcome_bind].
  eexists _, _. split; [done|]. split; [now split|]. apply blank_ok; [done|]. intros ? [= <-]. unfold isSymbolicArray in Hsym. split_and!; [|done..|].
  - apply symbolic_array_ok; auto. rewrite Hsz. apply BV.wrap_range. lia.
  - now destruct (isConstantArray a).
Qed.

(** ** Symbolic objects *)

(** After [i] steps of [makeSymbolic]. *)
Record symbolic_upto (os : ObjectState) (i : Z) (os' : ObjectState) : Prop := {
  su_frame : same_frame os os' /\ updates_head os' = updates_head os;
  su_masks : mask_ok (os_size os) (concreteMask os') /\ mask_ok (os_size os) (flushMask os') /\ known_ok (os_size os) (knownSymbolics os');
  su_symbolic : forall j, 0 <= j < os_size os -> symbolic os' j = None;
  su_done : forall j, 0 <= j < i -> concrete os' j = false /\ flushed os' j = true
}.

Lemma makeSymbolic_step os i os1 : BitArray.size_ok (os_size os) -> 0 <= i < os_size os -> symbolic_upto os i os1 -> exists os',
  (a ← markByteSymbolic i os1; b ← setKnownSymbolic i None a; markByteFlushed i b) = Done os' /\ symbolic_upto os (i + 1) os'.
Proof.
  intros Hs Hi [[Hfr Hh] (Hc & Hf & Hk) Hsym Hdone]. destruct Hfr as (Es & Hfr).
  destruct (markByteSymbolic_ok os1) with (i := i) as (m & -> & Hm & Hcon); rewrite ?Es; try done. cbn [mbind outcome_bind].
  destruct (setKnownSymbolic_ok (set_concreteMask os1 m)) with (i := i) (v := @None Expr) as (ks & -> & Hks & Hsy); cbn [os_size set_concreteMask knownSymbolics]; rewrite ?Es; try done. cbn [mbind outcome_bind].
  set (os2 := set_knownSymbolics _ _).
  assert (Hflush : exists f, markByteFlushed i os2 = Done (set_flushMask os2 (Some f)) /\ BitArray.holds (os_size os) f /\
    forall j, 0 <= j < os_size os -> flushed (set_flushMask os2 (Some f)) j = true \/ (j <> i /\ flushed (set_flushMask os2 (Some f)) j = flushed os1 j)).
  { unfold markByteFlushed. cbn [flushMask os2 set_knownSymbolics set_concreteMask os_size]. destruct (flushMask os1) as [b|] eqn:Eb.
    - destruct (BitArray.unset_spec (os_size os) Hs b i) as (b' & -> & Hb' & Hbit); [now apply Hf|done|]. exists b'. split_and!; [done..|].
      intros j Hj. unfold flushed. cbn. rewrite Hbit, Eb by lia. destruct (Z.eqb_spec j i); [now left|now right].
    - rewrite Es. exists (BitArray.make (os_size os) false). split_and!; [done|now apply BitArray.make_holds|]. intros j Hj. left. unfold flushed. cbn.
      now rewrite BitArray.make_bit. }
  destruct Hflush as (f & -> & Hf' & Hfl). eexists. split; [done|]. split.
  - split; [|exact Hh]. split; [exact Es|exact Hfr].
  - cbn. split_and!; [now rewrite <- Es|now intros ? [= <-]|]. rewrite <- Es. exact Hks.
  - intros j Hj. change (symbolic os2 j = None). unfold os2. rewrite Hsy by lia. destruct (j =? i); [done|]. now apply Hsym.
  - intros j Hj. split.
    + change (concrete (set_concreteMask os1 m) j = false). rewrite Hcon by lia. destruct (Z.eqb_spec j i); [done|]. destruct (Hdone j ltac:(lia)) as [-> _]. done.
    + destruct (Hfl j ltac:(lia)) as [?|[Hn ->]]; [done|]. apply Hdone. lia.
Qed.

(** The bytes of a symbolic array. *)
Definition array_bytes (rho : valuation) (a : Array) (n : Z) : list Z := (fun i => BV.wrap 8 (rho a i)) <$> seqZ 0 n.

Lemma new_symbolic_ok mo a : BitArray.size_ok (mo_size mo) -> array_ok a = true -> isSymbolicArray a = true -> domain a = 32 -> range a = 8 ->
  exists os, new_symbolic mo a = Done os /\ os_wf os /\ forall rho, represents rho os (array_bytes rho a (mo_size mo)).
Proof.
  intros Hs Ha Hsym Hd Hr. assert (Hconst : isConstantArray a = false) by (unfold isSymbolicArray in Hsym; now destruct (isConstantArray a)).
  assert (Hroot : root_ok (mo_size mo) (Some a)) by (intros ? [= <-]; split_and!; [done..|congruence]).
  destruct (blank_ok mo (Some a) Hs Hroot) as [Hwf _]. unfold new_symbolic, makeSymbolic. cbn [updates_head blank check mbind outcome_bind os_size].
  destruct (for_each_range (fun i os => os1 ← markByteSymbolic i os; os2 ← setKnownSymbolic i None os1; markByteFlushed i os2)
    (symbolic_upto (blank mo (Some a))) 0 (mo_size mo) (blank mo (Some a))) as (os' & -> & [[Hfr Hh] (Hc & Hf & Hk) Hsy Hdone]).
  - unfold BitArray.size_ok in Hs. lia.
  - split; [done|split_and!; apply Hwf|done|lia].
  - intros i os1 Hi. apply makeSymbolic_step; done.
  - exists os'. split; [done|]. destruct Hfr as (Es & Est & Efl & Eki & Ert). cbn in Es, Ert, Hh.
    assert (Earr : os_array os' = a) by (unfold os_array; now rewrite Ert). split.
    + destruct Hwf. cbn in *. split; rewrite ?Es, ?Est, ?Efl, ?Eki, ?Ert, ?Hh, ?Earr; try done.
      * intros j Hj Hx. now rewrite Hsy in Hx.
      * intros j Hj. destruct (Hdone j ltac:(lia)) as [_ ->]. done.
    + intros rho. assert (Hl : Z.of_nat (length (array_bytes rho a (mo_size mo))) = mo_size mo).
      { unfold array_bytes. rewrite length_fmap, length_seqZ. unfold BitArray.size_ok in Hs. lia. }
      assert (Hin : forall j b, 0 <= j -> array_bytes rho a (mo_size mo) !! Z.to_nat j = Some b -> 0 <= j < mo_size mo /\ b = BV.wrap 8 (rho a j)).
      { intros j b Hj Hb. apply list_lookup_fmap_Some in Hb as (x & -> & Hx). apply lookup_seqZ in Hx as [-> Hx]. split; [lia|]. f_equal. f_equal. lia. }
      split.
      * now rewrite Es.
      * exists []. rewrite Hh, Earr. split; [done|]. intros j b Hj Hb _. destruct (Hin j b Hj Hb) as [_ ->]. unfold read_value, initial_value. cbn. now rewrite Hconst, Hr.
      * intros j b Hj Hb. destruct (Hin j b Hj Hb) as [Hj' _]. destruct (Hdone j ltac:(lia)) as [-> _]. done.
      * intros j b e Hj Hb. destruct (Hin j b Hj Hb) as [Hj' _]. now rewrite Hsy.
Qed.

(** ** Initializers and copies *)

Lemma initialize_ok os x flag : os_wf os -> 0 <= x < 256 ->
  let os' := set_stores (makeConcrete os) (fill (os_size os) x) (fill (os_size os) flag) (fill (os_size os) 0) in
  os_wf os' /\ forall rho bs, represents rho os bs -> represents rho os' (fill (os_size os) x).
Proof.
  intros Hwf Hx os'. pose proof (wf_size os Hwf) as Hs. unfold BitArray.size_ok in Hs.
  destruct (all_concrete_ok os') as [Hwf' Hrep]; try done; cbn; try (apply fill_length; lia); try (apply fill_bytes; lia); try apply Hwf.
  split; [done|]. intros rho bs Hr. destruct (rep_updates _ _ _ Hr) as (us & E & _). now apply (Hrep rho us).
Qed.

Lemma copy_mask_ok size m : BitArray.size_ok size -> mask_ok size m -> copy_mask m size = Done m.
Proof.
  intros Hs Hm. unfold copy_mask. destruct m as [b|]; [|done]. rewrite BitArray.copy_spec; auto.
Qed.

Lemma copy_ok os : os_wf os -> readOnly os = false -> exists os', copy os = Done os' /\ keeps os os' /\ copyOnWriteOwner os' = 0 /\ object os' = object os.
Proof.
  intros Hwf Hro. unfold copy. rewrite Hro. cbn [negb check mbind outcome_bind]. rewrite !copy_mask_ok by apply Hwf. cbn [mbind outcome_bind].
  eexists. split; [done|]. split; [|done]. split_and!; [|done|].
  - now destruct Hwf.
  - now intros rho bs [].
Qed.

(** ** What reads and writes leave alone *)

(** The owner, the object and the protection of a state. *)
Definition identity (os : ObjectState) : Z * MemoryObject * bool := (copyOnWriteOwner os, object os, readOnly os).

Ltac inv_run :=
  repeat match goal with
  | H : mbind _ _ = Done _ |- _ =>
    let x := fresh "x" in let E := fresh "E" in apply outcome_bind_done in H as (x & E & H)
  | x : _ * _ |- _ => destruct x
  | H : Done _ = Done _ |- _ => injection H as H
  | H : (_, _) = (_, _) |- _ => injection H as H
  end.

Lemma for_each_identity {X} (g : X -> Z * MemoryObject * bool) (f : Z -> X -> outcome X) l : (forall i s s', f i s = Done s' -> g s' = g s) ->
  forall s s', for_each f l s = Done s' -> g s' = g s.
Proof.
  intros Hf. induction l as [|i l IH]; cbn [for_each]; intros s s' E; [now injection E as ->|].
  inv_run. transitivity (g x); [now apply IH|eauto].
Qed.

Ltac solve_identity :=
  intros; repeat match goal with
  | H : context [match ?x with _ => _ end] |- _ => destruct x eqn:?; inv_run; simplify_eq
  | _ => progress inv_run; simplify_eq
  end; try done.

Lemma markByteConcrete_identity i os os' : markByteConcrete i os = Done os' -> identity os' = identity os.
Proof. unfold markByteConcrete. solve_identity. Qed.
Lemma markByteSymbolic_identity i os os' : markByteSymbolic i os = Done os' -> identity os' = identity os.
Proof. unfold markByteSymbolic. solve_identity. Qed.
Lemma markByteUnflushed_identity i os os' : markByteUnflushed i os = Done os' -> identity os' = identity os.
Proof. unfold markByteUnflushed. solve_identity. Qed.
Lemma setKnownSymbolic_identity i v os os' : setKnownSymbolic i v os = Done os' -> identity os' = identity os.
Proof. unfold setKnownSymbolic. solve_identity. Qed.
Lemma extend_identity os i v os' : extend os i v = Done os' -> identity os' = identity os.
Proof. unfold extend. intros E. inv_run. now subst. Qed.
Lemma extend_all_identity ws : forall os os', extend_all ws os = Done os' -> identity os' = identity os.
Proof.
  induction ws as [|[i v] ws IH]; cbn [extend_all]; intros os os' E; inv_run; [congruence|].
  transitivity (identity x); [now apply IH|]. eapply extend_identity; eassumption.
Qed.
Lemma unset_flush_identity i os os' : unset_flush i os = Done os' -> identity os' = identity os.
Proof. unfold unset_flush. solve_identity. Qed.

Lemma getUpdates_identity os w ul os' w' : getUpdates os w = Done (ul, os', w') -> identity os' = identity os.
Proof.
  unfold getUpdates. destruct (updates_root os); intros E; inv_run; [congruence|]. subst.
  match goal with H : extend_all _ _ = Done _ |- _ => apply extend_all_identity in H; exact H end.
Qed.

Lemma with_flushMask_identity os : identity (with_flushMask os) = identity os.
Proof. unfold with_flushMask. now destruct (flushMask os). Qed.

Lemma flushRangeForRead_identity a n os os' : flushRangeForRead a n os = Done os' -> identity os' = identity os.
Proof.
  intros E. rewrite <- (with_flushMask_identity os). revert E. apply for_each_identity. clear. intros i os os' E.
  unfold flush_byte_for_read in E. inv_run. destruct x; inv_run; [congruence|].
  etransitivity; [eapply unset_flush_identity|eapply extend_identity]; eauto.
Qed.

Lemma flushRangeForWrite_identity a n os os' : flushRangeForWrite a n os = Done os' -> identity os' = identity os.
Proof.
  intros E. rewrite <- (with_flushMask_identity os). revert E. apply for_each_identity. clear. intros i os os' E.
  unfold flush_byte_for_write in E. inv_run. destruct x.
  - destruct x0; [now apply markByteSymbolic_identity in E|]. inv_run. destruct x; [now apply setKnownSymbolic_identity in E|congruence].
  - inv_run. etransitivity; [eapply unset_flush_identity; eauto|]. etransitivity; [|eapply extend_identity; eauto].
    destruct x0; [eapply markByteSymbolic_identity|eapply setKnownSymbolic_identity]; eauto.
Qed.

Lemma read8_identity i os w e os' w' : read8 i os w = Done (e, os', w') -> identity os' = identity os.
Proof.
  unfold read8. intros E. inv_run. destruct x; inv_run; [congruence|]. destruct x; inv_run; [congruence|].
  subst. eapply getUpdates_identity; eauto.
Qed.
Lemma read8_at_identity i os w e os' w' : read8_at i os w = Done (e, os', w') -> identity os' = identity os.
Proof.
  unfold read8_at, fastRangeCheckOffset. intros E. inv_run. subst. etransitivity; [eapply getUpdates_identity; eauto|]. eapply flushRangeForRead_identity; eauto.
Qed.

Lemma read_loop_identity byte n os w e os' w' : (forall i os w e os' w', byte i os w = Done (e, os', w') -> identity os' = identity os) ->
  read_loop byte n os w = Done (e, os', w') -> identity os' = identity os.
Proof.
  intros Hb E. unfold read_loop in E. inv_run. subst.
  match goal with H : for_each ?f _ _ = Done _ |- _ => apply (for_each_identity (fun '(_, os, _) => identity os)) in H; [exact H|] end.
  clear -Hb. intros i [[r o] v] [[r' o'] v'] E. inv_run. subst. eauto.
Qed.

Lemma read_identity offset width os w e os' w' : read offset width os w = Done (e, os', w') -> identity os' = identity os.
Proof.
  unfold read, read_const. intros E. destruct (ZExtExpr'create offset Int32); inv_run; destruct (width =? Bool); inv_run; subst;
    first [eapply read8_identity; eassumption|eapply read8_at_identity; eassumption|
      eapply read_loop_identity; [|eassumption]; cbn beta; intros; first [eapply read8_identity; eassumption|eapply read8_at_identity; eassumption]].
Qed.

Lemma untagged_identity flags kinst os : identity (increaseUntaggedWriteCnt flags kinst os) = identity os.
Proof. unfold increaseUntaggedWriteCnt. now destruct (_ && _). Qed.

Lemma write8_identity i v f k os os' : write8 i v f k os = Done os' -> identity os' = identity os.
Proof.
  unfold write8. intros E. inv_run. rewrite <- (untagged_identity f k os). etransitivity; [eapply markByteUnflushed_identity; eauto|].
  etransitivity; [eapply markByteConcrete_identity; eauto|]. match goal with H : setKnownSymbolic _ _ _ = _ |- _ => apply setKnownSymbolic_identity in H; exact H end.
Qed.

Lemma write8_expr_identity i v f k os os' : write8_expr i v f k os = Done os' -> identity os' = identity os.
Proof.
  unfold write8_expr. intros E. destruct v; inv_run; try (now apply write8_identity in E);
    (rewrite <- (untagged_identity f k os); etransitivity; [eapply markByteUnflushed_identity; eauto|];
     match goal with H : markByteSymbolic _ _ = _ |- _ => apply markByteSymbolic_identity in H; etransitivity; [exact H|] end;
     match goal with H : setKnownSymbolic _ _ _ = _ |- _ => apply setKnownSymbolic_identity in H; exact H end).
Qed.

Lemma write8_at_identity i v f k os os' : write8_at i v f k os = Done os' -> identity os' = identity os.
Proof.
  unfold write8_at, fastRangeCheckOffset. intros E. inv_run. rewrite <- (untagged_identity f k os).
  etransitivity; [eapply extend_identity; eauto|]. eapply flushRangeForWrite_identity; eauto.
Qed.

Lemma write_loop_identity byte v os os' : (forall i v os os', byte i v os = Done os' -> identity os' = identity os) ->
  write_loop byte v os = Done os' -> identity os' = identity os.
Proof. intros Hb E. unfold write_loop in E. inv_run. revert E. apply for_each_identity. eauto. Qed.

Ltac byte_identity :=
  intros; cbn beta in *;
  first [eapply write8_expr_identity; eassumption|eapply write8_at_identity; eassumption|eapply write8_identity; eassumption].

Lemma write_slow_identity c value f k os os' : write_slow c value f k os = Done os' -> identity os' = identity os.
Proof. unfold write_slow. intros E. destruct (_ =? _); [byte_identity|]. eapply write_loop_identity; [|eassumption]. byte_identity. Qed.

Lemma write_word_identity n c x f k os os' : write_word n c x f k os = Done os' -> identity os' = identity os.
Proof. unfold write_word. apply for_each_identity. byte_identity. Qed.

Lemma write_const_identity c value f k os os' : write_const c value f k os = Done os' -> identity os' = identity os.
Proof.
  unfold write_const, write16, write32, write64. intros E. destruct value; try (now apply write_slow_identity in E).
  repeat case_match; try done; first [now apply write_slow_identity in E|now apply write_word_identity in E|byte_identity].
Qed.

Lemma write_identity offset value f k os os' : write offset value f k os = Done os' -> identity os' = identity os.
Proof.
  unfold write. intros E. destruct (ZExtExpr'create offset Int32); inv_run; [now apply write_const_identity in E|..];
    (destruct (getWidth value =? Bool); [byte_identity|eapply write_loop_identity; [|eassumption]; byte_identity]).
Qed.

(** C32: the constructors and initializers establish the class invariant: an object with
    concrete contents starts with zeros, an object over a symbolic array has the
    bytes of the array, [initializeToZero] and [initializeToRandom] fill the
    object, and a copy of an object state has the same bytes and no owner. *)
Theorem object_states_start (mo : MemoryObject) (a : Array) (w : World) :
  BitArray.size_ok (mo_size mo) -> byte_arrays w -> array_ok a = true -> isSymbolicArray a = true -> domain a = 32 -> range a = 8 ->
  (exists os w', new_concrete mo w = Done (os, w') /\ byte_arrays w' /\ os_wf os /\ forall rho, represents rho os (fill (mo_size mo) 0)) /\
  (exists os, new_symbolic mo a = Done os /\ os_wf os /\ forall rho, represents rho os (array_bytes rho a (mo_size mo))) /\
  (forall os, os_wf os ->
     os_wf (initializeToZero os) /\ os_wf (initializeToRandom os) /\
     (forall rho bs, represents rho os bs -> represents rho (initializeToZero os) (fill (os_size os) 0) /\
        represents rho (initializeToRandom os) (fill (os_size os) 0xAB)) /\
     (readOnly os = false -> exists os', copy os = Done os' /\ os_wf os' /\ copyOnWriteOwner os' = 0 /\
        forall rho bs, represents rho os bs -> represents rho os' bs)).
Proof.
  intros Hs Hw Ha Hsym Hd Hr. split_and!; [now apply new_concrete_ok|now apply new_symbolic_ok|]. intros os Hwf.
  destruct (initialize_ok os 0 FLAG_INITIALIZATION Hwf ltac:(lia)) as [Hz Hzr]. destruct (initialize_ok os 0xAB FLAG_INITIALIZATION Hwf ltac:(lia)) as [Hx Hxr].
  split_and!; [done..| |].
  - intros rho bs Hrep. split; [now apply (Hzr rho bs)|now apply (Hxr rho bs)].
  - intros Hro. destruct (copy_ok os Hwf Hro) as (os' & E & (Hwf' & _ & Hk) & Ho & _). exists os'. split_and!; auto.
Qed.

End Start.

(** ** A small object

    Four bytes of a little-endian target, accessed at an offset read from a symbolic array. *)

#[local] Instance small_target : MemoryOptions := {| isLittleEndian := true; getPointerWidth := 64; UseConstantArrays := true |}.
#[local] Instance no_rewrite : ExprOptions := {| ConstArrayOpt := false |}.
#[local] Existing Instance apint_ref.

Definition four_bytes : MemoryObject := mkMemoryObject 1 4096 4 false 0.
Definition input : Array := mkArray 7 "input" 1 32 8 [].
Definition input_byte : Expr := ReadExpr input un_null (ConstantExpr (APInt 32 0)).
Definition input_offset : Expr := CastExpr ZExt input_byte 64.
Definition new_world : World := mkWorld empty_cache 0 0.
Definition fresh_object : ObjectState := blank four_bytes None.

Lemma fresh_object_wf : os_wf fresh_object.
Proof. apply blank_ok; [cbv; split; discriminate|done]. Qed.

Lemma input_offset_ok : offset_ok input_offset 2 (os_size fresh_object).
Proof. split_and!; [exists 64; now split|done|]. now vm_compute. Qed.

(** Contents in which the first byte of [input] is [b]. *)
Definition input_is (b : Z) : valuation := fun _ i => if i =? 0 then b else 0.

(** The little-endian bytes of 258 stored at offset 1 of zeros, and loaded again. *)
Example store_load_small : store_value 16 1 258 [0; 0; 0; 0] = [0; 2; 1; 0] /\ load_value 16 1 [0; 2; 1; 0] = Some 258.
Proof. now split. Qed.

Lemma read_refines_witness : exists e os' w', read input_offset 16 fresh_object new_world = Done (e, os', w') /\ os_wf os' /\ world_ok w' /\ has_width 16 e /\
  (forall rho bs, represents rho fresh_object bs -> represents rho os' bs) /\
  forall rho bs o v, represents rho fresh_object bs -> eval rho input_offset = Some (APInt 64 o) -> load_value 16 (u32 o) bs = Some v ->
    eval rho e = Some (APInt 16 v).
Proof.
  apply (read_refines (AS:=apint_ref_spec)); [exact fresh_object_wf|exact empty_cache_ok|right; now split|now split|done|exact input_offset_ok].
Defined.

Lemma write_refines_witness : exists os', write input_offset (ConstantExpr (APInt 16 258)) 0 0 fresh_object = Done os' /\ os_wf os' /\ os_size os' = 4 /\
  forall rho bs o v, represents rho fresh_object bs -> eval rho input_offset = Some (APInt 64 o) -> eval rho (ConstantExpr (APInt 16 258)) = Some (APInt 16 v) ->
    represents rho os' (store_value 16 (u32 o) v bs).
Proof.
  apply (write_refines (AS:=apint_ref_spec)); [exact fresh_object_wf|right; now split|now split|now split|exact input_offset_ok].
Defined.

Lemma read_after_write_witness : exists os1 e os2 w', write input_offset (ConstantExpr (APInt 16 258)) 0 0 fresh_object = Done os1 /\
  read input_offset 16 os1 new_world = Done (e, os2, w') /\
  forall rho bs o v, represents rho fresh_object bs -> eval rho input_offset = Some (APInt 64 o) -> u32 o + bytes_of_width 16 <= os_size fresh_object ->
    eval rho (ConstantExpr (APInt 16 258)) = Some v -> eval rho e = Some v.
Proof.
  apply (read_after_write (AS:=apint_ref_spec)); [exact fresh_object_wf|exact empty_cache_ok|right; now split|now split|now split|done|exact input_offset_ok].
Defined.

Lemma object_states_start_witness : exists os, new_symbolic (mkMemoryObject 2 8192 1 false 0) input = Done os /\ os_wf os /\
  forall rho, represents rho os (array_bytes rho input 1).
Proof.
  refine (proj1 (proj2 (object_states_start (mkMemoryObject 2 8192 1 false 0) input new_world _ _ _ _ _ _))); try done.
  split; [exact empty_cache_ok|constructor].
Defined.
