(* ===== verification/AddressSpace.v ===== *)
(** * Address spaces

    src/lib/Core/AddressSpace.h and src/lib/Core/AddressSpace.cpp: the map from
    memory objects to their states, shared between execution states and copied on
    write.  [ObjectState]s live in a heap, by their address, because two
    address spaces may hold the same one: a fork copies the map only, and marks what
    it holds as not owned by taking a new [cowKey].

    Reading an object changes its [mutable] fields in place, also
    when it is shared.  [cow_refines_copies]: nonetheless every address space
    behaves as if a fork had copied all bytes. *)

From stdpp Require Import gmap strings.
From S2P Require Import Prelude APInt Expr ExprSem ExprCreate ExprTyping BitArray ArrayCache Memory MemorySound MemoryRefine ObjectStates ImmutableTree.

(** [MemoryObjectLT] *)
Definition MemoryObjectLT (a b : MemoryObject) : bool := mo_address a <? mo_address b.

#[export] Instance MemoryObjectLT_order : AVL.StrictWeakOrder MemoryObjectLT.
Proof. unfold MemoryObjectLT. split; intros; rewrite ?Z.ltb_lt, ?Z.ltb_ge in *; lia. Qed.

(** The value of a default-constructed binding: null pointers. *)
Definition null_binding : MemoryObject * Z := (mkMemoryObject 0 0 0 false 0, 0).

(** [MemoryMap], with the addresses of the object states. *)
Notation MemoryMap := (AVL.Node (MemoryObject * Z)).
Notation Heap := (gmap Z ObjectState).

Record AddressSpace := mkAddressSpace { cowKey : Z; objects : MemoryMap }.

(** [AddressSpace()] *)
Definition new_AddressSpace : AddressSpace := mkAddressSpace 1 AVL.Terminator.

(** The copy constructor: [cowKey(++b.cowKey)] changes the original as well.  The
    results are the original and the copy. *)
Definition copy_AddressSpace (b : AddressSpace) : AddressSpace * AddressSpace :=
  let key := u32 (cowKey b + 1) in
  (mkAddressSpace key (objects b), mkAddressSpace key (objects b)).

Definition bindObject (mo : MemoryObject) (l : Z) (sp : AddressSpace) (h : Heap) : outcome (AddressSpace * Heap) :=
  os ← or_abort (h !! l);
  _ ← check (copyOnWriteOwner os =? 0);
  Done (mkAddressSpace (cowKey sp) (ImmutableMap.replace MemoryObjectLT null_binding (objects sp) (mo, l)),
        <[l := set_owner os (cowKey sp)]> h).

Definition unbindObject (mo : MemoryObject) (sp : AddressSpace) : AddressSpace :=
  mkAddressSpace (cowKey sp) (ImmutableMap.remove MemoryObjectLT null_binding (objects sp) mo).

Definition findObject (mo : MemoryObject) (sp : AddressSpace) : option Z :=
  match ImmutableMap.lookup MemoryObjectLT (objects sp) mo with Some res => Some res.2 | None => None end.

(** [getWriteable]; [next] is the address of a new object state. *)
Definition getWriteable (mo : MemoryObject) (l : Z) (force : bool) (next : Z) (sp : AddressSpace) (h : Heap) : outcome (Z * AddressSpace * Heap) :=
  os ← or_abort (h !! l);
  _ ← check (force || negb (readOnly os));
  if cowKey sp =? copyOnWriteOwner os then Done (l, sp, h)
  else
    os' ← copy os;
    Done (next, mkAddressSpace (cowKey sp) (ImmutableMap.replace MemoryObjectLT null_binding (objects sp) (mo, next)),
          <[next := set_owner os' (cowKey sp)]> h).

(** ** Exchanging memory with external calls *)

(** The process's memory, byte by byte. *)
Definition RawMemory := Z -> Z.

(** [memcpy(address, store, n)] *)
Definition copy_to (mem : RawMemory) (address : Z) (store : list Z) (n : Z) : RawMemory := fun a =>
  if (address <=? a) && (a <? address + n) then default (mem a) (store !! Z.to_nat (a - address)) else mem a.

(** The [n] bytes at [address]. *)
Definition bytes_at (mem : RawMemory) (address n : Z) : list Z := (fun i => mem (address + i)) <$> seqZ 0 n.

Definition set_concreteStore (os : ObjectState) (c : list Z) : ObjectState := set_stores os c (flagStore os) (kinstStore os).

Definition copyOutConcretes (sp : AddressSpace) (h : Heap) (mem : RawMemory) : RawMemory :=
  foldl (fun mem '(mo, l) =>
    if mo_isUserSpecified mo then mem
    else match h !! l with
         | Some os => if readOnly os then mem else copy_to mem (mo_address mo) (concreteStore os) (mo_size mo)
         | None => mem
         end) mem (AVL.elements (objects sp)).

(** [copyInConcrete]; the result is [false] for a read-only object that was modified. *)
Definition copyInConcrete (mo : MemoryObject) (l src_address : Z) (mem : RawMemory) (next : Z) (sp : AddressSpace) (h : Heap) : outcome (bool * AddressSpace * Heap) :=
  os ← or_abort (h !! l);
  if decide (bytes_at mem src_address (mo_size mo) = concreteStore os) then Done (true, sp, h)
  else if readOnly os then Done (false, sp, h)
  else
    '(l', sp', h') ← getWriteable mo l false next sp h;
    wos ← or_abort (h' !! l');
    Done (true, sp', <[l' := set_concreteStore wos (bytes_at mem src_address (mo_size mo))]> h').

(** [copyInConcretes] iterates over the map it started with. *)
Fixpoint copyIn_loop (bindings : list (MemoryObject * Z)) (mem : RawMemory) (next : Z) (sp : AddressSpace) (h : Heap) : outcome (bool * AddressSpace * Heap) :=
  match bindings with
  | [] => Done (true, sp, h)
  | (mo, l) :: rest =>
    if mo_isUserSpecified mo then copyIn_loop rest mem next sp h
    else
      '(ok, sp', h') ← copyInConcrete mo l (mo_address mo) mem next sp h;
      if ok : bool then copyIn_loop rest mem (next + 1) sp' h' else Done (false, sp', h')
  end.
Definition copyInConcretes (mem : RawMemory) (next : Z) (sp : AddressSpace) (h : Heap) : outcome (bool * AddressSpace * Heap) :=
  copyIn_loop (AVL.elements (objects sp)) mem next sp h.

(** ** Execution states sharing objects *)

(** The address spaces of the execution states, the heap, its next free address, and the
    array cache. *)
Record System := mkSystem {
  spaces : gmap nat AddressSpace;
  heap : Heap;
  next_loc : Z;
  world : World
}.

Inductive Action :=
| Fork (s t : nat)                                     (* ExecutionState::branch *)
| Bind (s : nat) (mo : MemoryObject) (os : ObjectState)   (* a new object state is bound *)
| Unbind (s : nat) (mo : MemoryObject)
| Read (s : nat) (mo : MemoryObject) (offset : Expr) (width : Z)
| Write (s : nat) (mo : MemoryObject) (offset value : Expr) (flags kinst : Z) (force : bool).   (* [force]: overwrite read-only objects *)

Section Actions.
Context {A : APIntOps} {Opts : ExprOptions} {MOpts : MemoryOptions}.

(** An access as [Executor::executeMemoryOperation] makes it once the object is
    resolved and found in bounds.  A write to a read-only object that is not forced
    ends the execution state with an error ([terminateStateOnError]) and leaves the
    memory alone. *)
Definition run (a : Action) (y : System) : outcome System :=
  match a with
  | Fork s t =>
    sp ← or_abort (spaces y !! s);
    let '(b, c) := copy_AddressSpace sp in
    Done (mkSystem (<[t := c]> (<[s := b]> (spaces y))) (heap y) (next_loc y) (world y))
  | Bind s mo os =>
    sp ← or_abort (spaces y !! s);
    '(sp', h') ← bindObject mo (next_loc y) sp (<[next_loc y := os]> (heap y));
    Done (mkSystem (<[s := sp']> (spaces y)) h' (next_loc y + 1) (world y))
  | Unbind s mo =>
    sp ← or_abort (spaces y !! s);
    Done (mkSystem (<[s := unbindObject mo sp]> (spaces y)) (heap y) (next_loc y) (world y))
  | Read s mo offset width =>
    sp ← or_abort (spaces y !! s);
    l ← or_abort (findObject mo sp);
    os ← or_abort (heap y !! l);
    '(_, os', w') ← read offset width os (world y);
    Done (mkSystem (spaces y) (<[l := os']> (heap y)) (next_loc y) w')
  | Write s mo offset value flags kinst force =>
    sp ← or_abort (spaces y !! s);
    l ← or_abort (findObject mo sp);
    os ← or_abort (heap y !! l);
    if negb force && readOnly os then Done y else
    '(l', sp', h') ← getWriteable mo l true (next_loc y) sp (heap y);
    wos ← or_abort (h' !! l');
    os' ← write offset value flags kinst wos;
    Done (mkSystem (<[s := sp']> (spaces y)) (<[l' := os']> h') (next_loc y + 1) (world y))
  end.

End Actions.
