(* ===== verification/CopyOnWrite.v ===== *)
(** * Copy on write

    Execution states that share object states ([AddressSpace]) behave as if
    every fork had copied all bytes: a simulation between [run] and operations
    on separate memories.

    The invariant: a state owned by an address space ([copyOnWriteOwner] equal to
    its [cowKey]) is held by no other one, and owners are never ahead
    of the keys of their holders (the invariant of src/lib/Core/AddressSpace.h). *)

From stdpp Require Import gmap strings.
From S2P Require Import Prelude APInt Expr ExprSem ExprCreate ExprTyping BitArray ArrayCache Memory MemorySound MemoryRefine ObjectStates ImmutableTree AddressSpace.

(** [MemoryObject hack(address)] *)
Definition hack (address : Z) : MemoryObject := mkMemoryObject 0 address 0 false 0.

Lemma key_equiv_address a b : AVL.key_equiv MemoryObjectLT a b = (mo_address a =? mo_address b).
Proof.
  unfold AVL.key_equiv, MemoryObjectLT. destruct (Z.ltb_spec (mo_address a) (mo_address b)), (Z.ltb_spec (mo_address b) (mo_address a)), (Z.eqb_spec (mo_address a) (mo_address b)); cbn; lia || done.
Qed.

(** The binding at an address. *)
Definition binding (sp : AddressSpace) (a : Z) : option (MemoryObject * Z) := ImmutableMap.lookup MemoryObjectLT (objects sp) (hack a).

Definition map_wf (sp : AddressSpace) : Prop := AVL.wf fst MemoryObjectLT (objects sp).

Lemma lookup_binding sp mo : map_wf sp -> ImmutableMap.lookup MemoryObjectLT (objects sp) mo = binding sp (mo_address mo).
Proof.
  intros [Ho _]. unfold binding, ImmutableMap.lookup. rewrite !AVL.lookup_spec by (apply _ || done).
  induction (AVL.elements (objects sp)) as [|x xs IH]; [done|]. cbn [List.find]. rewrite !AVL.same_key_eq, !key_equiv_address. cbn. now destruct (_ =? _).
Qed.

Lemma binding_address sp a mo l : map_wf sp -> binding sp a = Some (mo, l) -> mo_address mo = a.
Proof.
  intros [Ho _]. unfold binding, ImmutableMap.lookup. rewrite AVL.lookup_spec by (apply _ || done). intros [_ E]%find_some.
  rewrite AVL.same_key_eq, key_equiv_address in E. apply Z.eqb_eq in E. now cbn in E.
Qed.

Lemma replace_binding sp key mo l : map_wf sp ->
  let sp' := mkAddressSpace key (ImmutableMap.replace MemoryObjectLT null_binding (objects sp) (mo, l)) in
  map_wf sp' /\ forall a, binding sp' a = if a =? mo_address mo then Some (mo, l) else binding sp a.
Proof.
  intros Hw sp'. split; [now apply AVL.replace_wf; [apply _|]|]. intros a. unfold binding, ImmutableMap.lookup, ImmutableMap.replace. cbn [objects sp'].
  unfold ImmutableMap.replace. rewrite AVL.lookup_replace by (apply _ || done). rewrite key_equiv_address. done.
Qed.

Lemma unbind_binding sp mo : map_wf sp ->
  map_wf (unbindObject mo sp) /\ forall a, binding (unbindObject mo sp) a = if a =? mo_address mo then None else binding sp a.
Proof.
  intros Hw. split; [now apply AVL.remove_wf; [apply _|]|]. intros a. unfold binding, ImmutableMap.lookup, unbindObject, ImmutableMap.remove. cbn [objects].
  rewrite AVL.lookup_remove by (apply _ || done). now rewrite key_equiv_address.
Qed.

Section Cow.
Context {A : APIntOps} {AS : APIntSpec A} {Opts : ExprOptions} {MOpts : MemoryOptions}.

(** ** The invariant *)

(** Space [s] holds the object state at [l], at address [a]. *)
Definition holds_at (y : System) (s : nat) (sp : AddressSpace) (a : Z) (mo : MemoryObject) (l : Z) : Prop :=
  spaces y !! s = Some sp /\ binding sp a = Some (mo, l).

Record sys_ok (y : System) : Prop := {
  ok_spaces : forall s sp, spaces y !! s = Some sp -> map_wf sp /\ 1 <= cowKey sp < 2 ^ 32;
  ok_bound : forall s sp a mo l, holds_at y s sp a mo l -> exists os, heap y !! l = Some os /\ os_wf os /\ 1 <= copyOnWriteOwner os <= cowKey sp;
  ok_shared : forall s t sp sp' a a' mo mo' l os, s <> t -> holds_at y s sp a mo l -> holds_at y t sp' a' mo' l -> heap y !! l = Some os ->
    copyOnWriteOwner os < cowKey sp;
  ok_inj : forall s sp a a' mo mo' l, holds_at y s sp a mo l -> holds_at y s sp a' mo' l -> a = a';
  ok_fresh : forall l os, heap y !! l = Some os -> l < next_loc y;
  ok_world : world_ok (world y)
}.

(** ** Separate memories *)

(** The bytes of the object at each address, for each execution state. *)
Definition Memories := nat -> Z -> option (list Z).

Definition put_bytes (M : Memories) (s : nat) (a : Z) (bs : option (list Z)) : Memories := fun s' a' =>
  if decide (s' = s) then (if a' =? a then bs else M s' a') else M s' a'.

(** The actions on separate memories: a fork copies everything. *)
Inductive abstract_step (rho : valuation) : Action -> Memories -> Memories -> Prop :=
| abstract_fork s t M : abstract_step rho (Fork s t) M (fun s' => if decide (s' = t) then M s else M s')
| abstract_bind s mo os bs M : represents rho os bs -> abstract_step rho (Bind s mo os) M (put_bytes M s (mo_address mo) (Some bs))
| abstract_unbind s mo M : abstract_step rho (Unbind s mo) M (put_bytes M s (mo_address mo) None)
| abstract_read s mo offset width M : abstract_step rho (Read s mo offset width) M M
| abstract_write s mo offset value flags kinst force wo o w v bs M :
    eval rho offset = Some (APInt wo o) -> eval rho value = Some (APInt w v) -> M s (mo_address mo) = Some bs ->
    abstract_step rho (Write s mo offset value flags kinst force) M (put_bytes M s (mo_address mo) (Some (store_value w (u32 o) v bs))).

Definition stands_for (rho : valuation) (y : System) (M : Memories) : Prop := forall s a,
  match M s a with
  | Some bs => exists sp mo l os, holds_at y s sp a mo l /\ heap y !! l = Some os /\ represents rho os bs
  | None => forall sp, spaces y !! s = Some sp -> binding sp a = None
  end.

(** The conditions under which an execution state takes an action. *)
Definition action_ok (y : System) (a : Action) : Prop :=
  match a with
  | Fork s t => spaces y !! t = None /\ exists sp, spaces y !! s = Some sp /\ cowKey sp + 1 < 2 ^ 32
  | Bind s mo os => is_Some (spaces y !! s) /\ os_wf os /\ copyOnWriteOwner os = 0
  | Unbind s mo => is_Some (spaces y !! s)
  | Read s mo offset width => exists sp mo' l os wo, holds_at y s sp (mo_address mo) mo' l /\ heap y !! l = Some os /\
      has_width wo offset /\ width_ok width /\ 0 < os_size os /\ offset_ok offset (bytes_of_width width) (os_size os)
  | Write s mo offset value flags kinst force => exists sp mo' l os wo w, holds_at y s sp (mo_address mo) mo' l /\ heap y !! l = Some os /\
      readOnly os = false /\ has_width wo offset /\ has_width w value /\ width_ok w /\ offset_ok offset (bytes_of_width w) (os_size os)
  end.

Lemma findObject_binding y s sp mo mo' l : sys_ok y -> holds_at y s sp (mo_address mo) mo' l -> findObject mo sp = Some l.
Proof. intros Hy [Hs Hb]. unfold findObject. rewrite lookup_binding by (eapply ok_spaces; eauto). now rewrite Hb. Qed.

(** ** The steps *)

(** An update of the heap that keeps owners and invariants. *)
Lemma heap_update_ok y l os os' next w : sys_ok y -> heap y !! l = Some os -> os_wf os' -> copyOnWriteOwner os' = copyOnWriteOwner os ->
  next_loc y <= next -> world_ok w -> sys_ok (mkSystem (spaces y) (<[l := os']> (heap y)) next w).
Proof.
  intros Hy Hl Hwf Ho Hn Hw. split; cbn [spaces heap next_loc world].
  - apply Hy.
  - intros s sp a mo l' Hh. destruct (ok_bound y Hy s sp a mo l' Hh) as (o & E & Hwo & Hk). destruct (decide (l' = l)) as [->|Hne].
    + exists os'. rewrite lookup_insert_eq. assert (o = os) as -> by congruence. split_and!; auto; lia.
    + exists o. now rewrite lookup_insert_ne.
  - intros s t sp sp' a a' mo mo' l' o Hst H1 H2 E. destruct (decide (l' = l)) as [->|Hne].
    + rewrite lookup_insert_eq in E. injection E as <-. rewrite Ho. eapply (ok_shared y Hy s t); eauto.
    + rewrite lookup_insert_ne in E by done. eapply (ok_shared y Hy s t); eauto.
  - apply Hy.
  - intros l' o E. destruct (decide (l' = l)) as [->|Hne].
    + pose proof (ok_fresh y Hy l os Hl). lia.
    + rewrite lookup_insert_ne in E by done. pose proof (ok_fresh y Hy l' o E). lia.
  - done.
Qed.

Lemma read_step y s mo offset width : sys_ok y -> action_ok y (Read s mo offset width) -> exists y', run (Read s mo offset width) y = Done y' /\ sys_ok y' /\
  forall rho M, stands_for rho y M -> stands_for rho y' M.
Proof.
  intros Hy (sp & mo' & l & os & wo & Hh & Hl & Ho & Hw & Hpos & Hok). unfold run. rewrite (proj1 Hh). cbn [or_abort mbind outcome_bind].
  rewrite (findObject_binding y s sp mo mo' l Hy Hh). cbn [or_abort mbind outcome_bind]. rewrite Hl. cbn [or_abort mbind outcome_bind].
  destruct (ok_bound y Hy _ _ _ _ _ Hh) as (os0 & E0 & Hwf & Hkey). assert (os0 = os) as -> by congruence.
  destruct (read_refines_at os (world y) offset wo width Hwf (ok_world y Hy) Hw Ho Hpos Hok) as (e & os' & w' & E & (Hwf' & _ & Hrep) & Hw' & _ & _).
  rewrite E. cbn [mbind outcome_bind]. eexists. split; [done|]. apply read_identity in E. injection E as Eo _ _.
  split; [apply (heap_update_ok y l os); auto; lia|]. intros rho M HM s' a. specialize (HM s' a). destruct (M s' a) as [bs|]; [|exact HM].
  destruct HM as (sp1 & mo1 & l1 & os1 & Hh1 & Hl1 & Hr1). exists sp1, mo1, l1. cbn [heap]. destruct (decide (l1 = l)) as [->|Hne].
  - exists os'. rewrite lookup_insert_eq. assert (os1 = os) as -> by congruence. auto.
  - exists os1. rewrite lookup_insert_ne by done. auto.
Qed.

(** A new object state, bound by space [s] and owned by it. *)
Lemma install_ok y s sp mo os : sys_ok y -> spaces y !! s = Some sp -> os_wf os -> copyOnWriteOwner os = cowKey sp ->
  let sp' := mkAddressSpace (cowKey sp) (ImmutableMap.replace MemoryObjectLT null_binding (objects sp) (mo, next_loc y)) in
  let y' := mkSystem (<[s := sp']> (spaces y)) (<[next_loc y := os]> (heap y)) (next_loc y + 1) (world y) in
  sys_ok y' /\ forall rho M bs, stands_for rho y M -> represents rho os bs -> stands_for rho y' (put_bytes M s (mo_address mo) (Some bs)).
Proof.
  intros Hy Hs Hwf Ho sp' y'. destruct (ok_spaces y Hy s sp Hs) as [Hm Hk]. destruct (replace_binding sp (cowKey sp) mo (next_loc y) Hm) as [Hm' Hb]. fold sp' in Hm', Hb.
  assert (Hnew : forall t spt a mo' l, holds_at y' t spt a mo' l ->
    (t = s /\ spt = sp' /\ a = mo_address mo /\ l = next_loc y) \/
    (exists spt0, holds_at y t spt0 a mo' l /\ cowKey spt = cowKey spt0 /\ l < next_loc y)).
  { intros t spt a mo' l [Ht Hbt]. cbn [spaces y'] in Ht.
    assert (Hold : forall spt0, holds_at y t spt0 a mo' l -> l < next_loc y).
    { intros spt0 Hh. destruct (ok_bound y Hy _ _ _ _ _ Hh) as (o & E & _). exact (ok_fresh y Hy l o E). }
    destruct (decide (t = s)) as [->|Hn].
    - rewrite lookup_insert_eq in Ht. injection Ht as <-. rewrite Hb in Hbt. destruct (Z.eqb_spec a (mo_address mo)) as [->|].
      + left. now injection Hbt as _ ->.
      + right. exists sp. split_and!; [now split|done|]. apply (Hold sp). now split.
    - rewrite lookup_insert_ne in Ht by done. right. exists spt. split_and!; [now split|done|]. apply (Hold spt). now split. }
  split.
  - split; cbn [heap world next_loc y'].
    + intros t spt Ht. cbn in Ht. destruct (decide (t = s)) as [->|Hn]; [rewrite lookup_insert_eq in Ht; now injection Ht as <-|].
      rewrite lookup_insert_ne in Ht by done. now apply (ok_spaces y Hy t).
    + intros t spt a mo' l Hh. destruct (Hnew _ _ _ _ _ Hh) as [(-> & -> & -> & ->)|(spt0 & H0 & -> & Hl)].
      * exists os. rewrite lookup_insert_eq. cbn. split_and!; auto; lia.
      * destruct (ok_bound y Hy _ _ _ _ _ H0) as (o & E & Hw). exists o. rewrite lookup_insert_ne by lia. done.
    + intros t u spt spu a a' m m' l o Htu H1 H2 E. destruct (Hnew _ _ _ _ _ H1) as [(-> & -> & -> & ->)|(spt0 & H1' & -> & Hl)], (Hnew _ _ _ _ _ H2) as [(-> & -> & -> & Hl')|(spu0 & H2' & _ & Hl')]; try done; try lia.
      rewrite lookup_insert_ne in E by lia. eapply (ok_shared y Hy t u); eauto.
    + intros t spt a a' m m' l H1 H2. destruct (Hnew _ _ _ _ _ H1) as [(-> & -> & -> & ->)|(spt0 & H1' & _ & Hl)], (Hnew _ _ _ _ _ H2) as [(_ & _ & -> & Hl')|(spu0 & H2' & _ & Hl')]; try done; try lia.
      assert (spt0 = spu0) as -> by (destruct H1', H2'; congruence). eapply (ok_inj y Hy); eauto.
    + intros l o E. destruct (decide (l = next_loc y)) as [->|Hn]; [lia|]. rewrite lookup_insert_ne in E by done. pose proof (ok_fresh y Hy l o E). lia.
    + apply Hy.
  - intros rho M bs HM Hr t a. specialize (HM t a). unfold put_bytes. destruct (decide (t = s)) as [->|Hn].
    + destruct (Z.eqb_spec a (mo_address mo)) as [->|Hne].
      * exists sp', mo, (next_loc y), os. cbn [heap y']. rewrite lookup_insert_eq. split_and!; auto. split; [cbn; now rewrite lookup_insert_eq|]. rewrite Hb. now rewrite Z.eqb_refl.
      * destruct (M s a) as [bs'|].
        -- destruct HM as (sp1 & mo1 & l1 & os1 & [Hs1 Hb1] & Hl1 & Hr1). assert (sp1 = sp) as -> by congruence. exists sp', mo1, l1, os1. pose proof (ok_fresh y Hy l1 os1 Hl1).
           cbn [heap y']. rewrite lookup_insert_ne by lia. split_and!; auto. split; [cbn; now rewrite lookup_insert_eq|]. rewrite Hb. now rewrite (proj2 (Z.eqb_neq _ _) Hne).
        -- intros spt Ht. cbn in Ht. rewrite lookup_insert_eq in Ht. injection Ht as <-. rewrite Hb, (proj2 (Z.eqb_neq _ _) Hne). auto.
    + destruct (M t a) as [bs'|].
      * destruct HM as (sp1 & mo1 & l1 & os1 & [Hs1 Hb1] & Hl1 & Hr1). exists sp1, mo1, l1, os1. pose proof (ok_fresh y Hy l1 os1 Hl1).
        cbn [heap y']. rewrite lookup_insert_ne by lia. split_and!; auto. split; [cbn; now rewrite lookup_insert_ne|done].
      * intros spt Ht. cbn in Ht. rewrite lookup_insert_ne in Ht by done. auto.
Qed.

(** A state that is owned is changed in place. *)
Lemma owned_update y s sp a mo l os os' : sys_ok y -> holds_at y s sp a mo l -> heap y !! l = Some os -> copyOnWriteOwner os = cowKey sp ->
  forall rho M bs next w, stands_for rho y M -> represents rho os' bs -> stands_for rho (mkSystem (spaces y) (<[l := os']> (heap y)) next w) (put_bytes M s a (Some bs)).
Proof.
  intros Hy Hh Hl Ho rho M bs next w HM Hr t a'. specialize (HM t a'). unfold put_bytes.
  assert (Hother : forall spt mo' l', holds_at y t spt a' mo' l' -> (t = s /\ a' = a) \/ l' <> l).
  { intros spt mo' l' Hh'. destruct (decide (l' = l)) as [->|]; [|auto]. destruct (decide (t = s)) as [->|Hn].
    - left. split; [done|]. assert (spt = sp) as -> by (destruct Hh, Hh'; congruence). eapply (ok_inj y Hy); eauto.
    - pose proof (ok_shared y Hy s t _ _ _ _ _ _ _ _ ltac:(congruence) Hh Hh' Hl). lia. }
  assert (Hkeep : ~ (t = s /\ a' = a) -> match M t a' with
    | Some bs => exists sp mo l0 os0, holds_at y t sp a' mo l0 /\ <[l := os']> (heap y) !! l0 = Some os0 /\ represents rho os0 bs
    | None => forall sp, spaces y !! t = Some sp -> binding sp a' = None end).
  { intros Hn. destruct (M t a') as [bs'|]; [|exact HM]. destruct HM as (sp1 & mo1 & l1 & os1 & Hh1 & Hl1 & Hr1). exists sp1, mo1, l1, os1.
    destruct (Hother _ _ _ Hh1); [done|]. rewrite lookup_insert_ne; auto. }
  destruct (decide (t = s)) as [->|Hn]; [|apply Hkeep; naive_solver]. destruct (Z.eqb_spec a' a) as [->|Hne]; [|apply Hkeep; naive_solver].
  exists sp, mo, l, os'. cbn [heap]. now rewrite lookup_insert_eq.
Qed.

Lemma write_step y s mo offset value flags kinst force : sys_ok y -> action_ok y (Write s mo offset value flags kinst force) -> exists y',
  run (Write s mo offset value flags kinst force) y = Done y' /\ sys_ok y' /\
  forall rho M wo o w v bs, stands_for rho y M -> eval rho offset = Some (APInt wo o) -> eval rho value = Some (APInt w v) -> M s (mo_address mo) = Some bs ->
    stands_for rho y' (put_bytes M s (mo_address mo) (Some (store_value w (u32 o) v bs))).
Proof.
  intros Hy (sp & mo' & l & os & wo & w & Hh & Hl & Hro & Ho & Hv & Hw & Hok). unfold run. rewrite (proj1 Hh). cbn [or_abort mbind outcome_bind].
  rewrite (findObject_binding y s sp mo mo' l Hy Hh). cbn [or_abort mbind outcome_bind]. unfold getWriteable. rewrite Hl. cbn [or_abort mbind outcome_bind].
  rewrite Hro, andb_false_r. cbn [or_abort mbind outcome_bind orb check].
  destruct (ok_bound y Hy _ _ _ _ _ Hh) as (os0 & E0 & Hwf & Hkey). assert (os0 = os) as -> by congruence.
  assert (Hbytes : forall rho M bs, stands_for rho y M -> M s (mo_address mo) = Some bs -> represents rho os bs).
  { intros rho M bs HM EM. specialize (HM s (mo_address mo)). rewrite EM in HM. destruct HM as (sp1 & mo1 & l1 & os1 & [Hs1 Hb1] & Hl1 & Hr1).
    destruct Hh as [Hs Hb]. assert (sp1 = sp) as -> by congruence. assert (l1 = l) as -> by congruence. congruence. }
  destruct (Z.eqb_spec (cowKey sp) (copyOnWriteOwner os)) as [Eown|Hshared].
  - cbn [mbind outcome_bind]. rewrite Hl. cbn [or_abort mbind outcome_bind].
    destruct (write_refines_at os offset wo value w flags kinst Hwf Hw Ho Hv Hok) as (os' & E & Hwf' & Es & Hr). rewrite E. cbn [mbind outcome_bind].
    apply write_identity in E. injection E as Eo _ _. rewrite (insert_id _ _ _ (proj1 Hh)). eexists. split; [done|]. split.
    + apply (heap_update_ok y l os); auto; [lia|apply Hy].
    + intros rho M wo' o w' v bs HM Eoff Eval EM. apply (owned_update y s sp (mo_address mo) mo' l os os'); auto.
      apply (Hr rho bs); [eauto|]. exists o, v. pose proof (eval_has_width _ _ _ Eoff) as [_ W1]. pose proof (eval_has_width _ _ _ Eval) as [_ W2]. cbn in W1, W2.
      assert (wo' = wo) as -> by (rewrite <- W1; apply Ho). assert (w' = w) as -> by (rewrite <- W2; apply Hv). auto.
  - destruct (copy_ok os Hwf Hro) as (osc & Ec & (Hwfc & Esc & Hrepc) & _ & _). rewrite Ec. cbn [mbind outcome_bind]. rewrite lookup_insert_eq. cbn [or_abort mbind outcome_bind].
    assert (Hwfc' : os_wf (set_owner osc (cowKey sp))) by now destruct Hwfc.
    destruct (write_refines_at (set_owner osc (cowKey sp)) offset wo value w flags kinst Hwfc' Hw Ho Hv) as (os' & E & Hwf' & Es & Hr); [cbn; now rewrite Esc|].
    rewrite E. cbn [mbind outcome_bind]. apply write_identity in E. injection E as Eo _ _. rewrite insert_insert_eq. eexists. split; [done|].
    destruct (install_ok y s sp mo os' Hy (proj1 Hh) Hwf' Eo) as [Hy' Hst]. split; [exact Hy'|].
    intros rho M wo' o w' v bs HM Eoff Eval EM. apply Hst; [done|]. apply (Hr rho bs).
    + pose proof (Hrepc rho bs (Hbytes rho M bs HM EM)) as Hrb. now destruct Hrb.
    + exists o, v. pose proof (eval_has_width _ _ _ Eoff) as [_ W1]. pose proof (eval_has_width _ _ _ Eval) as [_ W2]. cbn in W1, W2.
      assert (wo' = wo) as -> by (rewrite <- W1; apply Ho). assert (w' = w) as -> by (rewrite <- W2; apply Hv). auto.
Qed.

Lemma bind_step y s mo os : sys_ok y -> action_ok y (Bind s mo os) -> exists y', run (Bind s mo os) y = Done y' /\ sys_ok y' /\
  forall rho M bs, stands_for rho y M -> represents rho os bs -> stands_for rho y' (put_bytes M s (mo_address mo) (Some bs)).
Proof.
  intros Hy ([sp Hs] & Hwf & Ho). unfold run. rewrite Hs. cbn [or_abort mbind outcome_bind]. unfold bindObject.
  rewrite lookup_insert_eq. cbn [or_abort mbind outcome_bind]. rewrite Ho. cbn [Z.eqb check mbind outcome_bind]. rewrite insert_insert_eq. eexists. split; [done|].
  assert (Hwf' : os_wf (set_owner os (cowKey sp))) by now destruct Hwf.
  destruct (install_ok y s sp mo (set_owner os (cowKey sp)) Hy Hs Hwf' eq_refl) as [Hy' Hst]. split; [exact Hy'|].
  intros rho M bs HM Hr. apply Hst; [done|]. now destruct Hr.
Qed.

Lemma unbind_step y s mo : sys_ok y -> action_ok y (Unbind s mo) -> exists y', run (Unbind s mo) y = Done y' /\ sys_ok y' /\
  forall rho M, stands_for rho y M -> stands_for rho y' (put_bytes M s (mo_address mo) None).
Proof.
  intros Hy [sp Hs]. unfold run. rewrite Hs. cbn [or_abort mbind outcome_bind]. eexists. split; [done|]. set (y' := mkSystem _ _ _ _).
  destruct (ok_spaces y Hy s sp Hs) as [Hm Hk]. destruct (unbind_binding sp mo Hm) as [Hm' Hb].
  assert (Hold : forall t spt a mo' l, holds_at y' t spt a mo' l -> exists spt0, holds_at y t spt0 a mo' l /\ cowKey spt = cowKey spt0).
  { intros t spt a mo' l [Ht Hbt]. cbn in Ht. destruct (decide (t = s)) as [->|Hn].
    - rewrite lookup_insert_eq in Ht. injection Ht as <-. rewrite Hb in Hbt. destruct (_ =? _); [done|]. exists sp. now split.
    - rewrite lookup_insert_ne in Ht by done. exists spt. now split. }
  split.
  - split; cbn [heap next_loc world y']; try apply Hy.
    + intros t spt Ht. cbn in Ht. destruct (decide (t = s)) as [->|Hn]; [rewrite lookup_insert_eq in Ht; now injection Ht as <-|].
      rewrite lookup_insert_ne in Ht by done. now apply (ok_spaces y Hy t).
    + intros t spt a mo' l Hh. destruct (Hold _ _ _ _ _ Hh) as (spt0 & H0 & ->). now apply (ok_bound y Hy t spt0 a mo').
    + intros t u spt spu a a' m m' l o Htu H1 H2. destruct (Hold _ _ _ _ _ H1) as (spt0 & H1' & ->), (Hold _ _ _ _ _ H2) as (spu0 & H2' & _).
      now apply (ok_shared y Hy t u spt0 spu0 a a' m m').
    + intros t spt a a' m m' l H1 H2. destruct (Hold _ _ _ _ _ H1) as (spt0 & H1' & _), (Hold _ _ _ _ _ H2) as (spu0 & H2' & _).
      assert (spt0 = spu0) as -> by (destruct H1', H2'; congruence). eapply (ok_inj y Hy); eauto.
  - intros rho M HM t a. specialize (HM t a). unfold put_bytes. destruct (decide (t = s)) as [->|Hn].
    + destruct (Z.eqb_spec a (mo_address mo)) as [->|Hne].
      * intros spt Ht. cbn in Ht. rewrite lookup_insert_eq in Ht. injection Ht as <-. rewrite Hb. now rewrite Z.eqb_refl.
      * destruct (M s a) as [bs'|].
        -- destruct HM as (sp1 & mo1 & l1 & os1 & [Hs1 Hb1] & Hl1 & Hr1). assert (sp1 = sp) as -> by congruence. exists (unbindObject mo sp), mo1, l1, os1.
           split_and!; auto. split; [cbn; now rewrite lookup_insert_eq|]. rewrite Hb. now rewrite (proj2 (Z.eqb_neq _ _) Hne).
        -- intros spt Ht. cbn in Ht. rewrite lookup_insert_eq in Ht. injection Ht as <-. rewrite Hb, (proj2 (Z.eqb_neq _ _) Hne). auto.
    + destruct (M t a) as [bs'|].
      * destruct HM as (sp1 & mo1 & l1 & os1 & [Hs1 Hb1] & Hl1 & Hr1). exists sp1, mo1, l1, os1. split_and!; auto. split; [cbn; now rewrite lookup_insert_ne|done].
      * intros spt Ht. cbn in Ht. rewrite lookup_insert_ne in Ht by done. auto.
Qed.

Lemma fork_step y s t : sys_ok y -> action_ok y (Fork s t) -> exists y', run (Fork s t) y = Done y' /\ sys_ok y' /\
  forall rho M, stands_for rho y M -> stands_for rho y' (fun u => if decide (u = t) then M s else M u).
Proof.
  intros Hy (Ht & sp & Hs & Hmax). unfold run. rewrite Hs. cbn [or_abort mbind outcome_bind copy_AddressSpace]. eexists. split; [done|].
  destruct (ok_spaces y Hy s sp Hs) as [Hm Hk]. assert (Ekey : u32 (cowKey sp + 1) = cowKey sp + 1) by (apply BV.wrap_small; lia). rewrite Ekey.
  set (sp' := mkAddressSpace (cowKey sp + 1) (objects sp)). set (y' := mkSystem _ _ _ _). assert (Hst : s <> t) by congruence.
  assert (Hspaces : forall u spu, spaces y' !! u = Some spu -> (u = s \/ u = t) /\ spu = sp' \/ u <> s /\ u <> t /\ spaces y !! u = Some spu).
  { intros u spu Hu. cbn in Hu. destruct (decide (u = t)) as [->|Hut]; [rewrite lookup_insert_eq in Hu; injection Hu as <-; auto|]. rewrite lookup_insert_ne in Hu by done.
    destruct (decide (u = s)) as [->|Hus]; [rewrite lookup_insert_eq in Hu; injection Hu as <-; auto|]. rewrite lookup_insert_ne in Hu by done. auto. }
  assert (Hold : forall u spu a mo l, holds_at y' u spu a mo l -> (u = s \/ u = t) /\ spu = sp' /\ holds_at y s sp a mo l \/ u <> s /\ u <> t /\ holds_at y u spu a mo l).
  { intros u spu a mo l [Hu Hb]. destruct (Hspaces u spu Hu) as [[Hc ->]|(H1 & H2 & H3)]; [left; split_and!; [done..|now split]|right; split_and!; [done..|now split]]. }
  assert (Hnew : forall a mo l, holds_at y s sp a mo l -> forall u, u = s \/ u = t -> holds_at y' u sp' a mo l).
  { intros a mo l [_ Hb] u Hu. split; [|exact Hb]. cbn. destruct Hu as [-> | ->]; [rewrite lookup_insert_ne by done; apply lookup_insert_eq|apply lookup_insert_eq]. }
  split.
  - split; cbn [heap next_loc world y']; try apply Hy.
    + intros u spu Hu. destruct (Hspaces u spu Hu) as [[_ ->]|(_ & _ & H3)]; [split; [exact Hm|cbn; lia]|now apply (ok_spaces y Hy u)].
    + intros u spu a mo l Hh. destruct (Hold _ _ _ _ _ Hh) as [(_ & -> & H0)|(_ & _ & H0)]; [|now apply (ok_bound y Hy u spu a mo)].
      destruct (ok_bound y Hy _ _ _ _ _ H0) as (o & E & Hw & Ho). exists o. split_and!; auto; cbn; lia.
    + intros u v spu spv a a' m m' l o Huv H1 H2 E. destruct (Hold _ _ _ _ _ H1) as [(_ & -> & H1')|(Hus & _ & H1')].
      * destruct (ok_bound y Hy _ _ _ _ _ H1') as (o' & E' & _ & Ho). assert (o' = o) as -> by congruence. cbn. lia.
      * destruct (Hold _ _ _ _ _ H2) as [(_ & -> & H2')|(_ & _ & H2')]; [eapply (ok_shared y Hy u s); eauto|eapply (ok_shared y Hy u v); eauto].
    + intros u spu a a' m m' l H1 H2. destruct (Hold _ _ _ _ _ H1) as [(Hu & _ & H1')|(Hus & Hut & H1')], (Hold _ _ _ _ _ H2) as [(Hu' & _ & H2')|(Hus' & Hut' & H2')];
        first [eapply (ok_inj y Hy); eassumption|exfalso; tauto].
  - intros rho M HM u a. assert (Hcopy : forall u, u = s \/ u = t -> match M s a with
      | Some bs => exists sp mo l os, holds_at y' u sp a mo l /\ heap y' !! l = Some os /\ represents rho os bs
      | None => forall sp, spaces y' !! u = Some sp -> binding sp a = None end).
    { intros u' Hu'. specialize (HM s a). destruct (M s a) as [bs|].
      - destruct HM as (sp1 & mo1 & l1 & os1 & Hh1 & Hl1 & Hr1). assert (sp1 = sp) as -> by (destruct Hh1; congruence). exists sp', mo1, l1, os1. split_and!; auto.
      - intros spu Hu. destruct (Hspaces u' spu Hu) as [[_ ->]|(H1 & H2 & _)]; [exact (HM sp Hs)|naive_solver]. }
    destruct (decide (u = t)) as [->|Hut]; [apply Hcopy; auto|]. destruct (decide (u = s)) as [->|Hus]; [apply Hcopy; auto|]. specialize (HM u a). destruct (M u a) as [bs|].
    + destruct HM as (sp1 & mo1 & l1 & os1 & [Hs1 Hb1] & Hl1 & Hr1). exists sp1, mo1, l1, os1. split_and!; auto. split; [|done]. cbn. now rewrite !lookup_insert_ne.
    + intros spu Hu. destruct (Hspaces u spu Hu) as [[[?|?] _]|(_ & _ & H3)]; [done..|auto].
Qed.

Lemma action_step_ok y a : sys_ok y -> action_ok y a -> exists y', run a y = Done y' /\ sys_ok y' /\
  forall rho M M', stands_for rho y M -> abstract_step rho a M M' -> stands_for rho y' M'.
Proof.
  intros Hy Ha. destruct a.
  - destruct (fork_step y s t Hy Ha) as (y' & E & Hy' & H). exists y'. split_and!; auto. intros rho M M' HM Hs. inversion Hs; subst. now apply H.
  - destruct (bind_step y s mo os Hy Ha) as (y' & E & Hy' & H). exists y'. split_and!; auto. intros rho M M' HM Hs. inversion Hs; subst. now apply H.
  - destruct (unbind_step y s mo Hy Ha) as (y' & E & Hy' & H). exists y'. split_and!; auto. intros rho M M' HM Hs. inversion Hs; subst. now apply H.
  - destruct (read_step y s mo offset width Hy Ha) as (y' & E & Hy' & H). exists y'. split_and!; auto. intros rho M M' HM Hs. inversion Hs; subst. now apply H.
  - destruct (write_step y s mo offset value flags kinst force Hy Ha) as (y' & E & Hy' & H). exists y'. split_and!; auto. intros rho M M' HM Hs. inversion Hs; subst. eapply H; eauto.
Qed.

(** ** Runs *)

(** A sequence of actions each of which may be taken. *)
Inductive actions_run : System -> list Action -> System -> Prop :=
| run_nil y : actions_run y [] y
| run_cons y a y' acts y'' : action_ok y a -> run a y = Done y' -> actions_run y' acts y'' -> actions_run y (a :: acts) y''.

Inductive abstract_run (rho : valuation) : list Action -> Memories -> Memories -> Prop :=
| abstract_nil M : abstract_run rho [] M M
| abstract_cons a M M' acts M'' : abstract_step rho a M M' -> abstract_run rho acts M' M'' -> abstract_run rho (a :: acts) M M''.

(** C15: execution states that share object states copy on write as if every fork had
    copied all bytes: an allowed action succeeds and keeps the
    invariant of the sharing, and over any interleaving of forks, bindings, reads and writes
    of different states the bytes each one sees are those of its own separate
    memory, for every contents of the symbolic arrays. *)
Theorem cow_refines_copies (y : System) : sys_ok y ->
  (forall a, action_ok y a -> exists y', run a y = Done y') /\
  forall acts y', actions_run y acts y' -> sys_ok y' /\
    forall rho M M', stands_for rho y M -> abstract_run rho acts M M' -> stands_for rho y' M'.
Proof.
  intros Hy. split.
  - intros a Ha. destruct (action_step_ok y a Hy Ha) as (y' & E & _). eauto.
  - intros acts y' Hrun. revert Hy. induction Hrun as [y|y a y1 acts y2 Ha E Hrun IH]; intros Hy.
    + split; [done|]. intros rho M M' HM Hs. now inversion Hs; subst.
    + destruct (action_step_ok y a Hy Ha) as (y1' & E' & Hy1 & Hsim). assert (y1' = y1) as -> by congruence. destruct (IH Hy1) as [Hy2 Hst]. split; [done|].
      intros rho M M' HM Hs. inversion Hs; subst. eauto.
Qed.

End Cow.

(** ** A small system

    One execution state binds an object of four bytes, forks, and the new state writes
    at a symbolic offset. *)

#[local] Existing Instance apint_ref.
#[local] Existing Instance small_target.
#[local] Existing Instance no_rewrite.

Definition first_system : System := mkSystem {[ 0%nat := new_AddressSpace ]} ∅ 1 new_world.

Lemma first_system_ok : sys_ok first_system.
Proof.
  assert (Hnone : forall s sp a mo l, ~ holds_at first_system s sp a mo l).
  { intros s sp a mo l [Hs Hb]. cbn in Hs. apply lookup_singleton_Some in Hs as [_ <-]. done. }
  split; cbn; try (intros; exfalso; eapply Hnone; eassumption).
  - intros s sp Hs. apply lookup_singleton_Some in Hs as [_ <-]. split; [|done]. split; [constructor|done].
  - intros l os Hl. now rewrite lookup_empty in Hl.
  - exact empty_cache_ok.
Qed.

Definition small_run : list Action :=
  [Bind 0 four_bytes fresh_object; Fork 0 1; Write 1 four_bytes input_offset (ConstantExpr (APInt 16 258)) 0 7 false].

Definition after_run : System :=
  match run (Bind 0 four_bytes fresh_object) first_system with
  | Done y1 => match run (Fork 0 1) y1 with
    | Done y2 => match run (Write 1 four_bytes input_offset (ConstantExpr (APInt 16 258)) 0 7 false) y2 with Done y3 => y3 | _ => y2 end
    | _ => y1 end
  | _ => first_system
  end.

Lemma cow_refines_copies_witness : sys_ok after_run /\
  forall rho M M', stands_for rho first_system M -> abstract_run rho small_run M M' -> stands_for rho after_run M'.
Proof.
  apply (proj2 (cow_refines_copies (AS:=apint_ref_spec) first_system first_system_ok) small_run after_run). unfold small_run.
  eapply run_cons; [split_and!; [now eexists|exact fresh_object_wf|done]|vm_compute; reflexivity|].
  eapply run_cons; [split; [done|eexists; split; [reflexivity|done]]|vm_compute; reflexivity|].
  eapply run_cons; [|vm_compute; reflexivity|constructor].
  eexists _, _, _, _, 64, 16. split_and!; [split; vm_compute; reflexivity|vm_compute; reflexivity|done|now split|now split|right; now split|exact input_offset_ok].
Defined.

(** ** Where the sharing falls short *)

(** [getWriteable] with [force], as [Executor::executeMemoryOperation] calls it:
    for a read-only object that is not owned it calls the copy constructor, whose
    assert excludes read-only objects. *)
Example forced_write_aborts (mo : MemoryObject) (l next : Z) (sp : AddressSpace) (h : gmap Z ObjectState) (os : ObjectState) :
  h !! l = Some os -> readOnly os = true -> cowKey sp <> copyOnWriteOwner os -> getWriteable mo l true next sp h = Abort.
Proof.
  intros Hl Hro Hk. unfold getWriteable. rewrite Hl. cbn. rewrite (proj2 (Z.eqb_neq _ _) Hk). unfold copy. now rewrite Hro.
Qed.

(** The state after a read at a symbolic offset, and after an external call that set all bytes to 5. *)
Definition flushed_object : ObjectState :=
  match read input_offset 8 fresh_object new_world with Done (_, os, _) => set_owner os 1 | _ => fresh_object end.
Definition after_call : ObjectState :=
  match copyInConcrete four_bytes 1 4096 (fun _ => 5) 2 (mkAddressSpace 1 AVL.Terminator) {[ 1 := flushed_object ]} with
  | Done (_, _, h) => default fresh_object (h !! 1)
  | _ => fresh_object
  end.

Definition value_at (rho : valuation) (offset : Expr) : option apint :=
  match read offset 8 after_call (mkWorld (mkArrayCache [] [] 9) 0 9) with Done (e, _, _) => eval rho e | _ => None end.

(** [copyInConcrete] overwrites the concrete bytes without marking them as unflushed:
    a byte that had been flushed for an access at a symbolic offset is read back as 5
    at a constant offset, and with its old value at a symbolic offset that is
    equal to it. *)
Example stale_after_external_call :
  value_at (input_is 0) (ConstantExpr (APInt 64 0)) = Some (APInt 8 5) /\
  eval (input_is 0) input_offset = Some (APInt 64 0) /\
  value_at (input_is 0) input_offset = Some (APInt 8 0).
Proof. split_and!; vm_compute; reflexivity. Qed.
