(* ===== verification/RNG.v ===== *)
(** * The random number generator

    src/lib/Support/RNG.cpp and src/include/klee/Internal/ADT/RNG.h: the Mersenne
    Twister with its state of 624 words, which are generated a block at a time.

    [generator_is_recurrence]: the numbers it returns are the tempered words
    of the linear recurrence that defines the generator, one after the other across the
    blocks.  The conversions to floating point are left out. *)

From S2P Require Import Prelude.

Module MT.

Definition N : Z := 624.
Definition M : Z := 397.
Definition MATRIX_A : Z := 0x9908b0df.
Definition UPPER_MASK : Z := 0x80000000.
Definition LOWER_MASK : Z := 0x7fffffff.

Record RNG := mkRNG { mt : list Z; mti : Z }.

(** [mt[i]]; every index the code uses is between 0 and [N - 1]. *)
Definition word_at (l : list Z) (i : Z) : Z := l !!! Z.to_nat i.
Definition set_word (l : list Z) (i x : Z) : list Z := <[Z.to_nat i := x]> l.

(** One iteration of the loop of [seed]. *)
Definition seed_word (l : list Z) (i : Z) : list Z :=
  let prev := word_at l (i - 1) in
  set_word l i (Z.land (1812433253 * Z.lxor prev (Z.shiftr prev 30) + i) 0xffffffff).

Definition seed (s : Z) (g : RNG) : RNG :=
  mkRNG (foldl seed_word (set_word (mt g) 0 (Z.land s 0xffffffff)) (seqZ 1 (N - 1))) N.

(** The constructor; the array has no defined contents before [seed]. *)
Definition new_RNG (s : Z) : RNG := seed s (mkRNG (replicate (Z.to_nat N) 0) 0).

Definition mag01 (y : Z) : Z := if Z.land y 1 =? 0 then 0 else MATRIX_A.

(** The word that replaces [mt[kk]], from its successor and the word [M] further. *)
Definition mix (cur next far : Z) : Z :=
  let y := Z.lor (Z.land cur UPPER_MASK) (Z.land next LOWER_MASK) in
  Z.lxor (Z.lxor far (Z.shiftr y 1)) (mag01 y).

(** The three parts of the generation of a block. *)
Definition generate (l : list Z) : list Z :=
  let l := foldl (fun l kk => set_word l kk (mix (word_at l kk) (word_at l (kk + 1)) (word_at l (kk + M)))) l (seqZ 0 (N - M)) in
  let l := foldl (fun l kk => set_word l kk (mix (word_at l kk) (word_at l (kk + 1)) (word_at l (kk + (M - N))))) l (seqZ (N - M) (M - 1)) in
  set_word l (N - 1) (mix (word_at l (N - 1)) (word_at l 0) (word_at l (M - 1))).

Definition temper (y : Z) : Z :=
  let y := Z.lxor y (Z.shiftr y 11) in
  let y := Z.lxor y (Z.land (BV.wrap 32 (Z.shiftl y 7)) 0x9d2c5680) in
  let y := Z.lxor y (Z.land (BV.wrap 32 (Z.shiftl y 15)) 0xefc60000) in
  Z.lxor y (Z.shiftr y 18).

Definition getInt32 (g : RNG) : Z * RNG :=
  let g := if N <=? mti g then mkRNG (generate (mt g)) 0 else g in
  (temper (word_at (mt g) (mti g)), mkRNG (mt g) (mti g + 1)).

Definition getInt31 (g : RNG) : Z * RNG := let '(x, g') := getInt32 g in (Z.shiftr x 1, g').

Definition getBool (g : RNG) : bool * RNG :=
  let '(bits, g') := getInt32 g in
  let bits := Z.lxor bits (Z.shiftr bits 16) in
  let bits := Z.lxor bits (Z.shiftr bits 8) in
  let bits := Z.lxor bits (Z.shiftr bits 4) in
  let bits := Z.lxor bits (Z.shiftr bits 2) in
  let bits := Z.lxor bits (Z.shiftr bits 1) in
  (Z.testbit bits 0, g').

(** ** The recurrence *)

(** The generator looks at the last [n] words: a window that moves by one
    word, whose new word is made of the first, the second and the one at [m]. *)
Section Window.
Context (n m : nat) (f : Z -> Z -> Z -> Z) (Hm : (m < n)%nat) (Hn : (1 < n)%nat).

Definition next_window (w : list Z) : list Z := drop 1 w ++ [f (w !!! 0%nat) (w !!! 1%nat) (w !!! m)].

(** The array of the generator is updated in place, around the end. *)
Definition update_at (a : list Z) (k : nat) : list Z := <[k := f (a !!! k) (a !!! ((k + 1) mod n)%nat) (a !!! ((k + m) mod n)%nat)]> a.

Definition window (k : nat) (a : list Z) : list Z := drop k a ++ take k a.

Lemma next_window_length w : length w = n -> length (next_window w) = n.
Proof. intros E. unfold next_window. rewrite length_app, length_drop. cbn. lia. Qed.

Lemma iter_window_length k w : length w = n -> length (Nat.iter k next_window w) = n.
Proof. intros E. induction k as [|k IH]; [done|]. now apply next_window_length. Qed.

Lemma window_lookup k a i : length a = n -> (k < n)%nat -> (i < n)%nat -> window k a !!! i = a !!! ((k + i) mod n)%nat.
Proof.
  intros E Hk Hi. unfold window. rewrite !list_lookup_total_alt. f_equal. destruct (decide (k + i < n)%nat) as [H|H].
  - rewrite lookup_app_l by (rewrite length_drop; lia). rewrite lookup_drop, Nat.mod_small by lia. done.
  - rewrite lookup_app_r by (rewrite length_drop; lia). rewrite length_drop, lookup_take_lt by lia.
    replace ((k + i) mod n)%nat with (i - (length a - k))%nat; [done|]. replace (k + i)%nat with (i - (length a - k) + 1 * n)%nat by lia.
    rewrite Nat.Div0.mod_add, Nat.mod_small by lia. done.
Qed.

Lemma window_update k a : length a = n -> (k < n)%nat -> window (S k) (update_at a k) = next_window (window k a).
Proof.
  intros E Hk. unfold next_window. rewrite !window_lookup by lia. rewrite Nat.add_0_r, (Nat.mod_small k) by lia.
  unfold update_at. set (v := f _ _ _). unfold window. rewrite drop_insert_lt by lia. rewrite (take_S_r _ k v) by (apply list_lookup_insert_eq; lia).
  rewrite take_insert_ge by lia. rewrite app_assoc. f_equal. rewrite skipn_app, drop_drop.
  replace (1 - length (drop k a))%nat with 0%nat by (rewrite length_drop; lia). rewrite drop_0. f_equal. f_equal; lia.
Qed.

Lemma update_length a k : length (update_at a k) = length a.
Proof. apply length_insert. Qed.

(** A pass over the array moves the window by [n] words. *)
Lemma update_all a : length a = n -> foldl update_at a (seq 0 n) = Nat.iter n next_window a.
Proof.
  intros E. assert (H : forall k, (k <= n)%nat -> length (foldl update_at a (seq 0 k)) = n /\
    window k (foldl update_at a (seq 0 k)) = Nat.iter k next_window a).
  { induction k as [|k IH]; intros Hk; [split; [done|unfold window; cbn; apply app_nil_r]|]. destruct (IH ltac:(lia)) as [El Ew].
    rewrite seq_S, foldl_app. cbn [foldl]. rewrite update_length. split; [done|]. rewrite window_update by lia. rewrite Nat.add_0_l, Ew. done. }
  destruct (H n (Nat.le_refl n)) as [El Ew]. rewrite <- Ew. unfold window. rewrite drop_ge, take_ge by lia. done.
Qed.

(** The words of the recurrence. *)
Definition nth_word (w : list Z) (k : nat) : Z := Nat.iter k next_window w !!! 0%nat.

Lemma iter_lookup w k i : length w = n -> (k + i < n)%nat -> Nat.iter k next_window w !!! i = w !!! (k + i)%nat.
Proof.
  intros E. revert i. induction k as [|k IH]; intros i Hi; [done|]. rewrite Nat.iter_succ. unfold next_window at 1.
  pose proof (iter_window_length k w E) as El. rewrite lookup_total_app_l by (rewrite length_drop; lia). rewrite lookup_total_drop, IH by lia. f_equal. lia.
Qed.

Lemma nth_word_window w k i : length w = n -> (i < n)%nat -> Nat.iter k next_window w !!! i = nth_word w (k + i).
Proof.
  intros E Hi. unfold nth_word. rewrite Nat.add_comm, Nat.iter_add.
  rewrite (iter_lookup (Nat.iter k next_window w)); [f_equal; lia|now apply iter_window_length|lia].
Qed.

Lemma nth_word_low w i : length w = n -> (i < n)%nat -> nth_word w i = w !!! i.
Proof. intros E Hi. exact (eq_sym (nth_word_window w 0 i E Hi)). Qed.

Lemma nth_word_recurrence w k : length w = n -> nth_word w (k + n) = f (nth_word w k) (nth_word w (k + 1)) (nth_word w (k + m)).
Proof.
  intros E. rewrite <- (nth_word_window w k 1), <- (nth_word_window w k m) by lia. unfold nth_word at 2. set (v := Nat.iter k next_window w).
  assert (Ev : length v = n) by now apply iter_window_length. replace (k + n)%nat with (S k + (n - 1))%nat by lia.
  rewrite <- nth_word_window by lia. cbn [Nat.iter nat_rect]. change (nat_rect _ w _ k) with v. unfold next_window.
  rewrite lookup_total_app_r by (rewrite length_drop; lia). rewrite length_drop. replace (n - 1 - (length v - 1))%nat with 0%nat by lia. done.
Qed.
End Window.

(** ** The generator *)

Lemma foldl_congr {X Y} (f g : X -> Y -> X) l a : (forall a x, x ∈ l -> f a x = g a x) -> foldl f a l = foldl g a l.
Proof.
  revert a. induction l as [|x l IH]; intros a H; [done|]. cbn. rewrite (H a x) by set_solver. apply IH. intros b y Hy. apply H. set_solver.
Qed.

Lemma foldl_seqZ {X} (f : X -> Z -> X) (g : X -> nat -> X) k len a : (forall a i, (Z.to_nat k <= i < Z.to_nat k + Z.to_nat len)%nat -> f a (Z.of_nat i) = g a i) -> 0 <= k ->
  foldl f a (seqZ k len) = foldl g a (seq (Z.to_nat k) (Z.to_nat len)).
Proof.
  intros H Hk. assert (E : seqZ k len = Z.of_nat <$> seq (Z.to_nat k) (Z.to_nat len)).
  { unfold seqZ. rewrite <- (Nat.add_0_r (Z.to_nat k)), <- fmap_add_seq, <- list_fmap_compose. apply list_fmap_ext. intros _ i _. cbn. lia. }
  rewrite E. clear E. assert (Hin : forall i, i ∈ seq (Z.to_nat k) (Z.to_nat len) -> forall a, f a (Z.of_nat i) = g a i) by (intros i Hi b; apply H; now apply elem_of_seq).
  revert a. induction (seq _ _) as [|i l IH]; intros a; [done|]. cbn. rewrite Hin by set_solver. apply IH. set_solver.
Qed.

Notation block := (update_at 624 397 mix).
Notation mt_words := (nth_word 397 mix).

Lemma seq_block : seq 0 624 = seq 0 227 ++ seq 227 396 ++ [623%nat].
Proof. vm_compute. reflexivity. Qed.

Lemma generate_block l : length l = 624%nat -> generate l = Nat.iter 624 (next_window 397 mix) l.
Proof.
  intros El. rewrite <- (update_all 624 397 mix), seq_block by (done || lia).
  rewrite !foldl_app. unfold generate. cbn [foldl]. rewrite (foldl_seqZ _ block 0 (N - M)), (foldl_seqZ _ block (N - M) (M - 1)); try (unfold N, M; lia).
  - change (Z.to_nat 0) with 0%nat. change (Z.to_nat (N - M)) with 227%nat. change (Z.to_nat (M - 1)) with 396%nat. generalize (foldl block (foldl block l (seq 0 227)) (seq 227 396)). intros a.
    unfold set_word, word_at, update_at, N, M. reflexivity.
  - intros a i Hi. change (Z.to_nat (N - M)) with 227%nat in Hi. change (Z.to_nat (M - 1)) with 396%nat in Hi. unfold set_word, word_at, update_at, N, M. rewrite Nat2Z.id.
    rewrite (Nat.mod_small (i + 1)) by lia. replace (i + 397)%nat with (i - 227 + 1 * 624)%nat by lia. rewrite Nat.Div0.mod_add, Nat.mod_small by lia.
    do 3 f_equal; lia.
  - intros a i Hi. change (Z.to_nat (N - M)) with 227%nat in Hi. unfold set_word, word_at, update_at, M. rewrite Nat2Z.id, !Nat.mod_small by lia. do 3 f_equal; lia.
Qed.

(** *** Ranges *)

Lemma land_mask x : Z.land x 0xffffffff = BV.wrap 32 x.
Proof. change 0xffffffff with (Z.ones 32). now rewrite Z.land_ones. Qed.

Lemma shiftr_range x k : 0 <= k -> 0 <= x < 2 ^ 32 -> 0 <= Z.shiftr x k < 2 ^ 32.
Proof. intros Hk Hx. rewrite Z.shiftr_div_pow2 by done. now apply BV.div_pow2_range. Qed.

Lemma mix_range cur next far : 0 <= cur < 2 ^ 32 -> 0 <= next < 2 ^ 32 -> 0 <= far < 2 ^ 32 -> 0 <= mix cur next far < 2 ^ 32.
Proof.
  intros Hc Hx Hf. unfold mix, mag01. assert (0 <= Z.lor (Z.land cur UPPER_MASK) (Z.land next LOWER_MASK) < 2 ^ 32).
  { apply BV.lor_range; try lia; apply BV.land_range; unfold UPPER_MASK, LOWER_MASK; lia. }
  repeat apply BV.lxor_range; try lia; try apply shiftr_range; try lia. unfold MATRIX_A. destruct (_ =? _); lia.
Qed.

Lemma temper_range y : 0 <= y < 2 ^ 32 -> 0 <= temper y < 2 ^ 32.
Proof.
  intros Hy. unfold temper. repeat first [apply BV.lxor_range; [lia| |]|apply shiftr_range; [lia|]|apply BV.land_range; [lia|apply BV.wrap_range; lia|lia]|assumption].
Qed.

(** *** Seeding *)

Definition seed_next (prev i : Z) : Z := BV.wrap 32 (1812433253 * Z.lxor prev (Z.shiftr prev 30) + i).

Lemma seed_words s : let l := mt (new_RNG s) in
  length l = 624%nat /\ l !!! 0%nat = BV.wrap 32 s /\ forall i, (1 <= i < 624)%nat -> l !!! i = seed_next (l !!! (i - 1)%nat) (Z.of_nat i).
Proof.
  cbn zeta. unfold new_RNG, seed. cbn [mt]. set (l0 := set_word _ 0 _).
  assert (El : length l0 = 624%nat) by (unfold l0, set_word; rewrite length_insert, length_replicate; reflexivity).
  assert (E0 : l0 !!! 0%nat = BV.wrap 32 s). { unfold l0, set_word. rewrite land_mask. apply list_lookup_total_insert_eq. rewrite length_replicate. unfold N. lia. }
  clearbody l0. rewrite (foldl_seqZ _ (fun l i => seed_word l (Z.of_nat i))) by (done || lia). change (Z.to_nat 1) with 1%nat. change (Z.to_nat (N - 1)) with 623%nat.
  assert (H : forall k, (k <= 623)%nat -> let l := foldl (fun l i => seed_word l (Z.of_nat i)) l0 (seq 1 k) in
    length l = 624%nat /\ l !!! 0%nat = BV.wrap 32 s /\ forall i, (1 <= i <= k)%nat -> l !!! i = seed_next (l !!! (i - 1)%nat) (Z.of_nat i)).
  { induction k as [|k IH]; intros Hk; [cbn; split_and!; auto; lia|]. destruct (IH ltac:(lia)) as (L & Z0 & R). rewrite seq_S, foldl_app. cbn zeta in *. cbn [foldl].
    set (l := foldl _ _ _) in *. unfold seed_word, set_word, word_at. rewrite land_mask, Nat2Z.id. replace (Z.to_nat (Z.of_nat (1 + k) - 1)) with k by lia. rewrite length_insert. split_and!; [done| |].
    - now rewrite list_lookup_total_insert_ne by lia.
    - intros i Hi. destruct (decide (i = (1 + k)%nat)) as [->|Hn].
      + rewrite list_lookup_total_insert_eq by lia. rewrite list_lookup_total_insert_ne by lia. replace (1 + k - 1)%nat with k by lia. done.
      + rewrite !list_lookup_total_insert_ne by lia. apply R. lia. }
  destruct (H 623%nat (Nat.le_refl _)) as (L & Z0 & R). split_and!; auto. intros i Hi. apply R. lia.
Qed.

Lemma new_RNG_seeded s : new_RNG s = mkRNG (mt (new_RNG s)) N.
Proof. unfold new_RNG, seed. cbn [mt]. reflexivity. Qed.

(** *** The numbers it returns *)

Definition after (j : nat) (g : RNG) : RNG := Nat.iter j (fun g => (getInt32 g).2) g.

Notation win := (next_window 397 mix).

(** After [j] numbers the array is a window of the recurrence. *)
Lemma after_window l j : length l = 624%nat -> exists B k, (k <= 624)%nat /\ (B + k = 624 + j)%nat /\ after j (mkRNG l N) = mkRNG (Nat.iter B win l) (Z.of_nat k).
Proof.
  intros El. assert (HI : forall k, length (Nat.iter k win l) = 624%nat) by (intros k; apply iter_window_length; [lia|lia|done]).
  induction j as [|j (B & k & Hk & Hs & E)]; [exists 0%nat, 624%nat; split_and!; [lia|lia|reflexivity]|].
  unfold after in *. rewrite Nat.iter_succ, E. unfold getInt32. cbn [mti mt]. destruct (Z.leb_spec N (Z.of_nat k)) as [Hb|Hb]; unfold N in Hb.
  - exists (624 + B)%nat, 1%nat. split_and!; [lia|lia|]. cbn [snd mt mti]. rewrite generate_block, <- Nat.iter_add by done. reflexivity.
  - exists B, (S k). split_and!; [lia|lia|]. cbn [snd mt mti]. f_equal. lia.
Qed.

Lemma getInt32_word l j : length l = 624%nat -> (getInt32 (after j (mkRNG l N))).1 = temper (mt_words l (624 + j)).
Proof.
  intros El. destruct (after_window l j El) as (B & k & Hk & Hs & ->). unfold getInt32. cbn [mti mt].
  assert (HI : forall k, length (Nat.iter k win l) = 624%nat) by (intros i; apply iter_window_length; [lia|lia|done]).
  destruct (Z.leb_spec N (Z.of_nat k)) as [Hb|Hb]; unfold N in Hb; cbn [fst mt mti]; f_equal; unfold word_at.
  - rewrite generate_block, <- Nat.iter_add by done. change (Z.to_nat 0) with 0%nat. assert (B = j) as -> by lia. unfold nth_word. reflexivity.
  - rewrite Nat2Z.id, (nth_word_window 624) by lia. f_equal. lia.
Qed.

Lemma words_range x : (forall i, (i < 624)%nat -> 0 <= x i < 2 ^ 32) -> (forall k, x (k + 624)%nat = mix (x k) (x (k + 1)%nat) (x (k + 397)%nat)) -> forall k, 0 <= x k < 2 ^ 32.
Proof.
  intros H0 H k. induction (lt_wf k) as [k _ IH]. destruct (decide (k < 624)%nat) as [Hk|Hk]; [auto|].
  replace k with (k - 624 + 624)%nat by lia. rewrite H. apply mix_range; apply IH; lia.
Qed.

(** The numbers [getInt32] returns after seeding with [s] are the tempered words 624,
    625, ... of one sequence: it starts with the words Knuth's generator
    gives for the seed, and goes on by the recurrence of the Mersenne Twister, although the
    code generates 624 words at a time and in place.  All are 32-bit words. *)
Theorem generator_is_recurrence (s : Z) : exists x : nat -> Z,
  x 0%nat = BV.wrap 32 s /\
  (forall i, (1 <= i < 624)%nat -> x i = seed_next (x (i - 1)%nat) (Z.of_nat i)) /\
  (forall k, x (k + 624)%nat = mix (x k) (x (k + 1)%nat) (x (k + 397)%nat)) /\
  forall j, let y := (getInt32 (after j (new_RNG s))).1 in y = temper (x (624 + j)%nat) /\ 0 <= y < 2 ^ 32.
Proof.
  destruct (seed_words s) as (El & E0 & Es). set (l := mt (new_RNG s)) in *. exists (mt_words l).
  assert (Ew : forall i, (i < 624)%nat -> mt_words l i = l !!! i) by (intros i Hi; apply (nth_word_low 624); [lia|lia|exact El|exact Hi]).
  assert (Hrec := fun k => nth_word_recurrence 624 397 mix ltac:(lia) ltac:(lia) l k El).
  assert (Hs : forall i, (1 <= i < 624)%nat -> mt_words l i = seed_next (mt_words l (i - 1)) (Z.of_nat i)) by (intros i Hi; rewrite !Ew by lia; now apply Es).
  split_and!; [now rewrite Ew by lia|exact Hs|exact Hrec|]. intros j y.
  assert (Hy : y = temper (mt_words l (624 + j))) by (unfold y; rewrite (new_RNG_seeded s); exact (getInt32_word l j El)). split; [exact Hy|]. rewrite Hy. apply temper_range, words_range; [|exact Hrec].
  intros i Hi. destruct (decide (i = 0%nat)) as [->|]; [rewrite Ew, E0 by lia; apply BV.wrap_range; lia|]. rewrite Hs by lia. apply BV.wrap_range. lia.
Qed.

(** The first numbers for the default seed. *)
Example first_numbers : (getInt32 (new_RNG 5489)).1 = 3499211612 /\ (getInt32 (after 700 (new_RNG 5489))).1 = 1294739153.
Proof. split; vm_compute; reflexivity. Qed.

End MT.
