(* ===== verification/PTree.v ===== *)
(** * The process tree

    src/lib/Core/PTree.cpp: the tree of forks whose leaves are the execution states.  A node
    owns its children, so the tree is an inductive type, and a pointer to a
    node ([ptreeNode] of an execution state) is the path to it from the root; nodes
    never move, and the parent of a node is the path without its last step.

    [attach_tracks] and [remove_tracks]: attaching and removing keep the leaves in step
    with the live states, and no other state's pointer goes stale; [random_path_ok]:
    the walk from the root ends at a state. *)

From stdpp Require Import gmap.
From S2P Require Import Prelude RNG.

Inductive PTreeNode := mkPTreeNode (state : option Z) (left right : option PTreeNode).

Definition node_state (n : PTreeNode) : option Z := let 'mkPTreeNode s _ _ := n in s.
Definition node_left (n : PTreeNode) : option PTreeNode := let 'mkPTreeNode _ l _ := n in l.
Definition node_right (n : PTreeNode) : option PTreeNode := let 'mkPTreeNode _ _ r := n in r.

(** Paths: [true] is a step to the left. *)
Notation path := (list bool).

Definition child (b : bool) (n : PTreeNode) : option PTreeNode := if b then node_left n else node_right n.
Definition set_child (b : bool) (c : option PTreeNode) (n : PTreeNode) : PTreeNode :=
  let 'mkPTreeNode s l r := n in if b then mkPTreeNode s c r else mkPTreeNode s l c.

Fixpoint node_at (p : path) (n : PTreeNode) : option PTreeNode :=
  match p with
  | [] => Some n
  | b :: p' => c ← child b n; node_at p' c
  end.

(** A new node for a state, and the tree with only the first state. *)
Definition new_PTreeNode (s : Z) : PTreeNode := mkPTreeNode (Some s) None None.

Definition childless (n : PTreeNode) : bool :=
  match n with mkPTreeNode _ None None => true | _ => false end.

(** [PTree::attach]; the nodes of the two states are the children of [node]. *)
Fixpoint attach (node : path) (leftState rightState : Z) (n : PTreeNode) : outcome PTreeNode :=
  match node with
  | [] =>
    _ ← check (childless n);
    Done (mkPTreeNode None (Some (new_PTreeNode leftState)) (Some (new_PTreeNode rightState)))
  | b :: p' =>
    c ← or_abort (child b n);
    c' ← attach p' leftState rightState c;
    Done (set_child b (Some c') n)
  end.

(** The loop of [PTree::remove] goes up from the node and drops every node that has
    no child left.  The result is what stays of the subtree, if anything does. *)
Fixpoint remove_below (node : path) (n : PTreeNode) : outcome (option PTreeNode) :=
  match node with
  | [] => _ ← check (childless n); Done None
  | b :: p' =>
    c ← or_abort (child b n);
    c' ← remove_below p' c;
    let n' := set_child b c' n in
    Done (if childless n' then None else Some n')
  end.

(** The root has no parent that could drop it: it stays, with its state. *)
Definition remove (node : path) (root : PTreeNode) : outcome PTreeNode :=
  r ← remove_below node root;
  Done (match r with Some n => n | None => mkPTreeNode (node_state root) None None end).

(** [RandomPathSearcher::selectState]: the walk from the root to a state. *)
Fixpoint random_path (n : PTreeNode) (flips bits : Z) (g : MT.RNG) : outcome (Z * MT.RNG) :=
  match n with
  | mkPTreeNode (Some s) _ _ => Done (s, g)
  | mkPTreeNode None None None => Abort
  | mkPTreeNode None None (Some r) => random_path r flips bits g
  | mkPTreeNode None (Some l) None => random_path l flips bits g
  | mkPTreeNode None (Some l) (Some r) =>
    let '(flips, bits, g) := if bits =? 0 then let '(x, g') := MT.getInt32 g in (x, 32, g') else (flips, bits, g) in
    let bits := bits - 1 in
    if Z.testbit flips bits then random_path l flips bits g else random_path r flips bits g
  end.

(** ** The invariant *)

(** The states of the tree. *)
Fixpoint tree_states (n : PTreeNode) : list Z :=
  let 'mkPTreeNode s l r := n in
  match s with Some x => [x] | None => [] end ++ match l with Some l => tree_states l | None => [] end ++ match r with Some r => tree_states r | None => [] end.

(** A node has a state, or children. *)
Fixpoint tree_ok (n : PTreeNode) : Prop :=
  match n with
  | mkPTreeNode (Some _) None None => True
  | mkPTreeNode (Some _) _ _ => False
  | mkPTreeNode None l r => ~ (l = None /\ r = None) /\ match l with Some l => tree_ok l | None => True end /\ match r with Some r => tree_ok r | None => True end
  end.

(** Where the states are. *)
Definition leaf_at (root : PTreeNode) (p : path) (s : Z) : Prop := node_at p root = Some (new_PTreeNode s).

Fixpoint PTreeNode_rect' (P : PTreeNode -> Prop)
  (H : forall s l r, (match l with Some l => P l | None => True end) -> (match r with Some r => P r | None => True end) -> P (mkPTreeNode s l r)) (n : PTreeNode) : P n :=
  match n with
  | mkPTreeNode s l r => H s l r
      (match l with Some l => PTreeNode_rect' P H l | None => I end)
      (match r with Some r => PTreeNode_rect' P H r | None => I end)
  end.

(** ** Walking *)

Lemma random_path_ok n : tree_ok n -> forall flips bits g, exists s g', random_path n flips bits g = Done (s, g') /\ s ∈ tree_states n.
Proof.
  induction n as [s l r IHl IHr] using PTreeNode_rect'. intros Hok flips bits g. cbn [random_path].
  assert (Hin : forall c x, c ∈ [l; r] -> match c with Some c => x ∈ tree_states c | None => False end -> x ∈ tree_states (mkPTreeNode s l r)).
  { intros c x Hc Hx. cbn. rewrite !elem_of_app. set_unfold in Hc. destruct Hc as [<- | [<-|[]]]; [right; left|right; right]; now destruct c. }
  destruct s as [x|]; [exists x, g; split; [done|cbn; set_solver]|]. cbn in Hok. destruct Hok as (Hne & Hl & Hr).
  assert (Hgo : forall c, c ∈ [l; r] -> forall c', c = Some c' -> forall flips bits g, exists s g', random_path c' flips bits g = Done (s, g') /\ s ∈ tree_states (mkPTreeNode None l r)).
  { intros c Hc c' -> fl bi g0. assert (H : exists s g', random_path c' fl bi g0 = Done (s, g') /\ s ∈ tree_states c').
    { set_unfold in Hc. destruct Hc as [<- | [<-|[]]]; auto. } destruct H as (x & g' & E & Hx). exists x, g'. split; [done|]. exact (Hin (Some c') x Hc Hx). }
  destruct l as [l|], r as [r|]; try (eapply Hgo; [|reflexivity]; set_solver); [|tauto].
  destruct (if bits =? 0 then _ else _) as [[fl bi] g0]. destruct (Z.testbit _ _); (eapply Hgo; [|reflexivity]; set_solver).
Qed.

(** ** Attaching and removing *)

Lemma node_at_app p q n : node_at (p ++ q) n = c ← node_at p n; node_at q c.
Proof. revert n. induction p as [|b p IH]; intros n; [done|]. cbn. destruct (child b n); [apply IH|done]. Qed.

Lemma child_set_same b c n : child b (set_child b c n) = c.
Proof. now destruct n, b. Qed.
Lemma child_set_other b b' c n : b' <> b -> child b' (set_child b c n) = child b' n.
Proof. now destruct n, b, b'. Qed.

(** A child of a sound node, the node with the child replaced. *)
Lemma tree_ok_child b n c : tree_ok n -> child b n = Some c -> tree_ok c /\ node_state n = None.
Proof. destruct n as [[x|] [l|] [r|]], b; cbn; intros H [= <-]; tauto. Qed.

Lemma tree_ok_set b n c c' : tree_ok n -> child b n = Some c -> tree_ok c' -> tree_ok (set_child b (Some c') n).
Proof. destruct n as [[x|] [l|] [r|]], b; cbn; intros H [= <-] H'; try done; naive_solver. Qed.

Lemma tree_ok_drop b n c : tree_ok n -> child b n = Some c -> childless (set_child b None n) = false -> tree_ok (set_child b None n).
Proof. destruct n as [[x|] [l|] [r|]], b; cbn; intros H [= <-] H'; try done; naive_solver. Qed.

Lemma tree_states_child b n c : child b n = Some c -> exists rest, forall o, tree_states (set_child b o n) ≡ₚ match o with Some c => tree_states c | None => [] end ++ rest.
Proof.
  destruct n as [s l r], b; cbn; intros ->.
  - exists (match s with Some x => [x] | None => [] end ++ match r with Some r => tree_states r | None => [] end). intros [o|]; solve_Permutation.
  - exists (match s with Some x => [x] | None => [] end ++ match l with Some l => tree_states l | None => [] end). intros [o|]; solve_Permutation.
Qed.

Lemma set_child_id b n c : child b n = Some c -> set_child b (Some c) n = n.
Proof. destruct n as [s l r], b; cbn; now intros ->. Qed.

Lemma leaf_at_cons b p n s : leaf_at n (b :: p) s <-> exists c, child b n = Some c /\ leaf_at c p s.
Proof. unfold leaf_at. cbn. destruct (child b n); naive_solver. Qed.

Lemma attach_spec p s l r n : tree_ok n -> leaf_at n p s -> exists n', attach p l r n = Done n' /\ tree_ok n' /\
  (exists rest, tree_states n ≡ₚ s :: rest /\ tree_states n' ≡ₚ l :: r :: rest) /\ leaf_at n' (p ++ [true]) l /\ leaf_at n' (p ++ [false]) r /\
  forall q x, q <> p -> leaf_at n q x -> leaf_at n' q x.
Proof.
  revert n. induction p as [|b p IH]; intros n Hok Hl.
  - unfold leaf_at in Hl. cbn in Hl. injection Hl as ->. eexists. split; [done|]. split_and!; [cbn; naive_solver|exists []; done|done|done|].
    intros [|[] q] x Hq; [done|unfold leaf_at; cbn..]; done.
  - apply leaf_at_cons in Hl as (c & Hc & Hl). destruct (tree_ok_child b n c Hok Hc) as [Hokc _].
    destruct (IH c Hokc Hl) as (c' & E & Hok' & (rest & Hp & Hp') & Hll & Hlr & Hq). cbn [attach]. rewrite Hc. cbn. rewrite E. cbn. eexists. split; [done|].
    destruct (tree_states_child b n c Hc) as [rest' Hrest]. split_and!.
    + eapply tree_ok_set; eauto.
    + exists (rest ++ rest'). split.
      * rewrite <- (set_child_id b n c Hc) at 1. rewrite (Hrest (Some c)), Hp. done.
      * rewrite (Hrest (Some c')), Hp'. done.
    + apply leaf_at_cons. exists c'. now rewrite child_set_same.
    + apply leaf_at_cons. exists c'. now rewrite child_set_same.
    + intros [|b' q] x Hne Hx.
      { unfold leaf_at in Hx. cbn in Hx. injection Hx as ->. now destruct b. }
      apply leaf_at_cons in Hx as (d & Hd & Hx). apply leaf_at_cons. destruct (decide (b' = b)) as [->|Hb].
      * exists c'. rewrite child_set_same. split; [done|]. apply Hq; [congruence|]. congruence.
      * exists d. now rewrite child_set_other.
Qed.

Lemma remove_below_spec p s n : tree_ok n -> leaf_at n p s -> exists o, remove_below p n = Done o /\
  match o with Some n' => tree_ok n' | None => True end /\ tree_states n ≡ₚ s :: match o with Some n' => tree_states n' | None => [] end /\
  forall q x, q <> p -> leaf_at n q x -> exists n', o = Some n' /\ leaf_at n' q x.
Proof.
  revert n. induction p as [|b p IH]; intros n Hok Hl.
  - unfold leaf_at in Hl. cbn in Hl. injection Hl as ->. exists None. split_and!; try done. intros [|[] q] x Hq; [done|unfold leaf_at; cbn..]; done.
  - apply leaf_at_cons in Hl as (c & Hc & Hl). destruct (tree_ok_child b n c Hok Hc) as [Hokc Hns].
    destruct (IH c Hokc Hl) as (o & E & Hok' & Hp & Hq). cbn [remove_below]. rewrite Hc. cbn. rewrite E. cbn. eexists. split; [done|].
    destruct (tree_states_child b n c Hc) as [rest' Hrest]. set (n' := set_child b o n).
    assert (Hstates : tree_states n ≡ₚ s :: tree_states n').
    { rewrite <- (set_child_id b n c Hc) at 1. rewrite (Hrest (Some c)), Hp. unfold n'. rewrite (Hrest o). done. }
    assert (Hleaf : forall q x, q <> b :: p -> leaf_at n q x -> leaf_at n' q x).
    { intros [|b' q] x Hne Hx.
      { unfold leaf_at in Hx. cbn in Hx. injection Hx as ->. now destruct b. }
      apply leaf_at_cons in Hx as (d & Hd & Hx). apply leaf_at_cons. destruct (decide (b' = b)) as [->|Hb].
      - assert (d = c) as -> by congruence. destruct (Hq q x ltac:(congruence) Hx) as (c' & -> & Hx'). exists c'. unfold n'. now rewrite child_set_same.
      - exists d. unfold n'. now rewrite child_set_other. }
    destruct (childless n') eqn:Hcl.
    + assert (Hn' : n' = mkPTreeNode None None None).
      { unfold n' in *. destruct n as [st [l0|] [r0|]], b, o; cbn in *; congruence. }
      split_and!; [done| |].
      * rewrite Hstates, Hn'. done.
      * intros q x Hne Hx. specialize (Hleaf q x Hne Hx). rewrite Hn' in Hleaf. destruct q as [|[] q]; done.
    + split_and!; [|exact Hstates|eauto]. unfold n' in *. destruct o as [c'|]; [eapply tree_ok_set; eauto|eapply tree_ok_drop; eauto].
Qed.

Lemma leaf_state n p s : leaf_at n p s -> s ∈ tree_states n.
Proof.
  revert n. induction p as [|b p IH]; intros n Hl; [unfold leaf_at in Hl; cbn in Hl; injection Hl as ->; cbn; set_solver|].
  apply leaf_at_cons in Hl as (c & Hc & Hl). destruct (tree_states_child b n c Hc) as [rest Hr]. rewrite <- (set_child_id b n c Hc), (Hr (Some c)). set_solver.
Qed.

(** ** The tree and the live states *)

(** The leaves are the states of [L], and every one's pointer leads to its leaf. *)
Record tracks (root : PTreeNode) (ptreeNode : gmap Z path) (L : gset Z) : Prop := {
  tracks_ok : tree_ok root;
  tracks_nodup : NoDup (tree_states root);
  tracks_states : list_to_set (tree_states root) = L;
  tracks_pointer : forall s, s ∈ L -> exists p, ptreeNode !! s = Some p /\ leaf_at root p s
}.

(** The pointers after [attach(node, l, r)]: [PTreeNode::PTreeNode] sets them. *)
Definition attach_pointers (node : path) (l r : Z) (m : gmap Z path) : gmap Z path := <[r := node ++ [false]]> (<[l := node ++ [true]]> m).

Lemma pointer_distinct root m L s s' p p' : tracks root m L -> s ∈ L -> s' ∈ L -> m !! s = Some p -> m !! s' = Some p' -> s <> s' -> p <> p'.
Proof.
  intros T Hs Hs' Hp Hp' Hne ->. destruct (tracks_pointer _ _ _ T s Hs) as (q & E & Hq), (tracks_pointer _ _ _ T s' Hs') as (q' & E' & Hq').
  assert (q = q') as -> by congruence. unfold leaf_at, new_PTreeNode in *. congruence.
Qed.

Lemma attach_tracks root m L s ns p l r : tracks root m L -> s ∈ L -> ns ∉ L -> m !! s = Some p -> (l = ns /\ r = s \/ l = s /\ r = ns) ->
  exists root', attach p l r root = Done root' /\ tracks root' (attach_pointers p l r m) ({[ns]} ∪ L).
Proof.
  intros T Hs Hns Hp Hlr. destruct (tracks_pointer _ _ _ T s Hs) as (p0 & E & Hl). assert (p0 = p) as -> by congruence.
  destruct (attach_spec p s l r root (tracks_ok _ _ _ T) Hl) as (root' & Ea & Hok & (rest & P & P') & Hll & Hlr' & Hq). exists root'. split; [done|].
  assert (P2 : tree_states root' ≡ₚ ns :: tree_states root) by (rewrite P', P; destruct Hlr as [[-> ->]|[-> ->]]; [done|constructor]).
  assert (Hin : forall x, x ∈ tree_states root <-> x ∈ L) by (intros x; rewrite <- (tracks_states _ _ _ T); set_solver).
  assert (Hne : l <> r) by (destruct Hlr as [[-> ->]|[-> ->]]; congruence).
  split.
  - done.
  - rewrite P2. constructor; [rewrite Hin; done|apply T].
  - apply set_eq. intros x. rewrite elem_of_list_to_set, P2, elem_of_cons, Hin. set_solver.
  - intros x Hx. unfold attach_pointers. destruct (decide (x = r)) as [->|Hr]; [exists (p ++ [false]); now rewrite lookup_insert_eq|]. rewrite lookup_insert_ne by done.
    destruct (decide (x = l)) as [->|Hxl]; [exists (p ++ [true]); now rewrite lookup_insert_eq|]. rewrite lookup_insert_ne by done.
    assert (Hx' : x ∈ L) by (destruct Hlr as [[-> ->]|[-> ->]]; set_solver). destruct (tracks_pointer _ _ _ T x Hx') as (q & Eq & Hxq). exists q. split; [done|].
    apply Hq; [|done]. eapply (pointer_distinct root m L x s); eauto. destruct Hlr as [[-> ->]|[-> ->]]; done.
Qed.

Lemma remove_tracks root m L s p : tracks root m L -> s ∈ L -> m !! s = Some p ->
  exists root', remove p root = Done root' /\ (L ∖ {[s]} <> ∅ -> tracks root' m (L ∖ {[s]})).
Proof.
  intros T Hs Hp. destruct (tracks_pointer _ _ _ T s Hs) as (p0 & E & Hl). assert (p0 = p) as -> by congruence.
  destruct (remove_below_spec p s root (tracks_ok _ _ _ T) Hl) as (o & Eo & Hok & P & Hq). unfold remove. rewrite Eo. cbn. eexists. split; [done|]. intros Hne.
  assert (Hin : forall x, x ∈ tree_states root <-> x ∈ L) by (intros x; rewrite <- (tracks_states _ _ _ T); set_solver).
  assert (Ho : exists n', o = Some n'). { apply set_choose_L in Hne as [x Hx]. destruct (tracks_pointer _ _ _ T x ltac:(set_solver)) as (q & Eq & Hxq).
    destruct (Hq q x) as (n' & -> & _); eauto. eapply (pointer_distinct root m L x s); eauto; set_solver. }
  destruct Ho as [n' ->]. pose proof (tracks_nodup _ _ _ T) as Hnd. rewrite P in Hnd. apply NoDup_cons in Hnd as [Hns Hnd]. split.
  - done.
  - done.
  - apply set_eq. intros x. rewrite elem_of_list_to_set, elem_of_difference, elem_of_singleton, <- Hin, P, elem_of_cons. naive_solver.
  - intros x Hx. destruct (tracks_pointer _ _ _ T x ltac:(set_solver)) as (q & Eq & Hxq). exists q. split; [done|].
    destruct (Hq q x) as (n'' & [= <-] & H); [|done|done]. eapply (pointer_distinct root m L x s); eauto; set_solver.
Qed.
