(* ===== verification/Searcher.v ===== *)
(** * Searchers

    src/lib/Core/Searcher.h, src/lib/Core/Searcher.cpp and src/lib/Core/UserSearcher.cpp: the
    strategies that choose which execution state runs next.  Execution states are
    their addresses.  The subclasses of [Searcher] are the constructors of one type,
    and a virtual call is a match on it.

    The weighted random searchers (over [DiscretePDF]) and the merging searcher are left
    out. *)

From stdpp Require Import gmap sorting.
From Stdlib Require Import SpecFloat.
From S2P Require Import Prelude RNG PTree.

(** ** The environment *)

(** The global generator, the readings of the clock in nanoseconds (they come from the system),
    the statistic [stats::instructions], and the fields of [Executor] a
    searcher looks at. *)
Record Env := mkEnv {
  theRNG : MT.RNG;
  wallTimes : nat -> Z;
  readings : nat;
  instructions : Z;
  processTree : PTreeNode;
  executor_states : gset Z
}.

Definition with_rng (e : Env) (g : MT.RNG) : Env := mkEnv g (wallTimes e) (readings e) (instructions e) (processTree e) (executor_states e).

(** [time::getWallTime()] *)
Definition getWallTime (e : Env) : Z * Env :=
  (wallTimes e (readings e), mkEnv (theRNG e) (wallTimes e) (S (readings e)) (instructions e) (processTree e) (executor_states e)).

(** ** The searchers *)

Inductive Searcher :=
| DFSSearcher (states : list Z)
| BFSSearcher (states : list Z)
| RandomSearcher (states : list Z)
| RandomPathSearcher
| BatchingSearcher (baseSearcher : Searcher) (timeBudget instructionBudget : Z) (lastState : option Z) (lastStartTime lastStartInstructions : Z)
| IterativeDeepeningTimeSearcher (baseSearcher : Searcher) (startTime time : Z) (pausedStates : gset Z)
| InterleavedSearcher (searchers : list Searcher) (index : Z).

(** [vector::erase] of the first occurrence *)
Fixpoint erase_first (es : Z) (states : list Z) : option (list Z) :=
  match states with
  | [] => None
  | s :: rest => if es =? s then Some rest else r ← erase_first es rest; Some (s :: r)
  end.

(** The removal of a state by the three searchers that keep a sequence; [back] and
    [front] are not defined on an empty one. *)
Definition erase_dfs (es : Z) (states : list Z) : outcome (list Z) :=
  b ← or_abort (last states);
  if es =? b then Done (removelast states) else or_abort (erase_first es states).
Definition erase_bfs (es : Z) (states : list Z) : outcome (list Z) :=
  f ← or_abort (head states);
  if es =? f then Done (tail states) else or_abort (erase_first es states).
Definition erase_random (es : Z) (states : list Z) : outcome (list Z) := or_abort (erase_first es states).

Fixpoint erase_all (erase : Z -> list Z -> outcome (list Z)) (removedStates states : list Z) : outcome (list Z) :=
  match removedStates with
  | [] => Done states
  | es :: rest => states' ← erase es states; erase_all erase rest states'
  end.

(** [BFSSearcher::update] moves the current state to the end when it forked. *)
Definition bfs_evolve (current : option Z) (addedStates removedStates states : list Z) : outcome (list Z) :=
  match current with
  | Some c =>
    if negb (bool_decide (addedStates = [])) && negb (bool_decide (c ∈ removedStates))
    then states' ← or_abort (erase_first c states); Done (states' ++ [c])
    else Done states
  | None => Done states
  end.

(** [t *= 1.1] on a span: the microseconds as a double, scaled and truncated. *)
Definition double_of (z : Z) : spec_float := binary_normalize 53 1024 z 0 false.
Definition double_1_1 : spec_float := S754_finite false 4953959590107546 (-52).
Definition truncate (f : spec_float) : Z :=
  match f with S754_finite s m e => (if s then -1 else 1) * Z.shiftl (Zpos m) e | _ => 0 end.
Definition scale_1_1 (t : Z) : Z := 1000 * truncate (SFmul 53 1024 (double_of (Z.quot t 1000)) double_1_1).

(** [empty] *)
Fixpoint empty (s : Searcher) (e : Env) : outcome bool :=
  match s with
  | DFSSearcher states | BFSSearcher states | RandomSearcher states => Done (bool_decide (states = []))
  | RandomPathSearcher => Done (bool_decide (executor_states e = ∅))
  | BatchingSearcher base _ _ _ _ _ => empty base e
  | IterativeDeepeningTimeSearcher base _ _ paused => b ← empty base e; Done (b && bool_decide (paused = ∅))
  | InterleavedSearcher (s0 :: _) _ => empty s0 e
  | InterleavedSearcher [] _ => Abort
  end.

(** The test of [BatchingSearcher::selectState]: whether the batch is over. *)
Definition batch_over (timeBudget instructionBudget : Z) (lastState : option Z) (lastStartTime lastStartInstructions : Z) (e : Env) : bool * Env :=
  match lastState with
  | None => (true, e)
  | Some _ =>
    let '(late, e) := if 0 <? timeBudget then let '(now, e) := getWallTime e in (timeBudget <? now - lastStartTime, e) else (false, e) in
    if late : bool then (true, e)
    else ((0 <? instructionBudget) && (instructionBudget <? BV.wrap 64 (instructions e - lastStartInstructions)), e)
  end.

(** *** [selectState] of each class; a base searcher is given by its own [selectState]. *)

Definition dfs_select (states : list Z) (e : Env) : outcome (Z * Searcher * Env) :=
  x ← or_abort (last states); Done (x, DFSSearcher states, e).

Definition bfs_select (states : list Z) (e : Env) : outcome (Z * Searcher * Env) :=
  x ← or_abort (head states); Done (x, BFSSearcher states, e).

Definition random_select (states : list Z) (e : Env) : outcome (Z * Searcher * Env) :=
  let '(r, g) := MT.getInt32 (theRNG e) in
  _ ← check (negb (bool_decide (states = [])));
  x ← or_abort (states !! Z.to_nat (r mod Z.of_nat (length states)));
  Done (x, RandomSearcher states, with_rng e g).

Definition random_path_select (e : Env) : outcome (Z * Searcher * Env) :=
  '(x, g) ← random_path (processTree e) 0 0 (theRNG e);
  Done (x, RandomPathSearcher, with_rng e g).

Definition batching_select (base_select : Env -> outcome (Z * Searcher * Env)) (base : Searcher) (timeBudget instructionBudget : Z) (lastState : option Z) (lastStartTime lastStartInstructions : Z) (e : Env) : outcome (Z * Searcher * Env) :=
  let '(over, e) := batch_over timeBudget instructionBudget lastState lastStartTime lastStartInstructions e in
  match over, lastState with
  | false, Some x => Done (x, BatchingSearcher base timeBudget instructionBudget lastState lastStartTime lastStartInstructions, e)
  | _, _ =>
    let '(budget, e) :=
      match lastState with
      | Some _ => let '(now, e) := getWallTime e in
          let delta := now - lastStartTime in (if scale_1_1 timeBudget <? delta then delta else timeBudget, e)
      | None => (timeBudget, e)
      end in
    '(x, base', e) ← base_select e;
    let '(now, e) := getWallTime e in
    Done (x, BatchingSearcher base' budget instructionBudget (Some x) now (BV.wrap 32 (instructions e)), e)
  end.

Definition deepening_select (base_select : Env -> outcome (Z * Searcher * Env)) (time : Z) (paused : gset Z) (e : Env) : outcome (Z * Searcher * Env) :=
  '(x, base', e) ← base_select e;
  let '(now, e) := getWallTime e in
  Done (x, IterativeDeepeningTimeSearcher base' now time paused, e).

Definition interleaved_select (selects : list (Env -> outcome (Z * Searcher * Env))) (searchers : list Searcher) (index : Z) (e : Env) : outcome (Z * Searcher * Env) :=
  let i := BV.wrap 32 (index - 1) in
  let index' := if i =? 0 then Z.of_nat (length searchers) else i in
  select ← or_abort (selects !! Z.to_nat i);
  '(x, s', e) ← select e;
  Done (x, InterleavedSearcher (<[Z.to_nat i := s']> searchers) index', e).

(** The virtual call. *)
Fixpoint selectState (s : Searcher) (e : Env) : outcome (Z * Searcher * Env) :=
  match s with
  | DFSSearcher states => dfs_select states e
  | BFSSearcher states => bfs_select states e
  | RandomSearcher states => random_select states e
  | RandomPathSearcher => random_path_select e
  | BatchingSearcher base timeBudget instructionBudget lastState lastStartTime lastStartInstructions =>
    batching_select (selectState base) base timeBudget instructionBudget lastState lastStartTime lastStartInstructions e
  | IterativeDeepeningTimeSearcher base _ time paused => deepening_select (selectState base) time paused e
  | InterleavedSearcher searchers index => interleaved_select (map selectState searchers) searchers index e
  end.

(** The removal of paused states from the list handed to the base searcher, in
    [IterativeDeepeningTimeSearcher::update]. *)
Fixpoint drop_paused (removed : list Z) (paused : gset Z) (alt : list Z) : gset Z * list Z :=
  match removed with
  | [] => (paused, alt)
  | es :: rest => if bool_decide (es ∈ paused) then drop_paused rest (paused ∖ {[es]}) (filter (fun x => x <> es) alt) else drop_paused rest paused alt
  end.

(** The elements of a [std::set], in its order. *)
Definition set_elements (X : gset Z) : list Z := merge_sort Z.le (elements X).

(** *** [update] of each class; [upd] is the virtual call, for the base searchers. *)

Definition dfs_update (addedStates removedStates states : list Z) (e : Env) : outcome (Searcher * Env) :=
  st ← erase_all erase_dfs removedStates (states ++ addedStates); Done (DFSSearcher st, e).

Definition bfs_update (current : option Z) (addedStates removedStates states : list Z) (e : Env) : outcome (Searcher * Env) :=
  st ← bfs_evolve current addedStates removedStates states;
  st ← erase_all erase_bfs removedStates (st ++ addedStates); Done (BFSSearcher st, e).

Definition random_update (addedStates removedStates states : list Z) (e : Env) : outcome (Searcher * Env) :=
  st ← erase_all erase_random removedStates (states ++ addedStates); Done (RandomSearcher st, e).

Section Bases.
Context (upd : option Z -> list Z -> list Z -> Searcher -> Env -> outcome (Searcher * Env)).

Definition batching_update (current : option Z) (addedStates removedStates : list Z) (base : Searcher) (timeBudget instructionBudget : Z) (lastState : option Z) (lastStartTime lastStartInstructions : Z) (e : Env) : outcome (Searcher * Env) :=
  let last' := match lastState with Some x => if bool_decide (x ∈ removedStates) then None else lastState | None => None end in
  '(base', e) ← upd current addedStates removedStates base e;
  Done (BatchingSearcher base' timeBudget instructionBudget last' lastStartTime lastStartInstructions, e).

Definition deepening_update (current : option Z) (addedStates removedStates : list Z) (base : Searcher) (startTime time : Z) (paused : gset Z) (e : Env) : outcome (Searcher * Env) :=
  let '(now, e) := getWallTime e in
  let elapsed := now - startTime in
  let '(paused, alt) := drop_paused removedStates paused removedStates in
  '(base, e) ← upd current addedStates alt base e;
  '(base, paused, e) ←
    match current with
    | Some c =>
      if negb (bool_decide (c ∈ removedStates)) && (time <? elapsed)
      then '(base, e) ← upd None [] [c] base e; Done (base, {[c]} ∪ paused, e)
      else Done (base, paused, e)
    | None => Done (base, paused, e)
    end;
  b ← empty base e;
  if b : bool then
    '(base, e) ← upd None (set_elements paused) [] base e;
    Done (IterativeDeepeningTimeSearcher base startTime (2 * time) ∅, e)
  else Done (IterativeDeepeningTimeSearcher base startTime time paused, e).

Fixpoint update_each (current : option Z) (addedStates removedStates : list Z) (searchers : list Searcher) (e : Env) : outcome (list Searcher * Env) :=
  match searchers with
  | [] => Done ([], e)
  | s :: rest =>
    '(s', e) ← upd current addedStates removedStates s e;
    '(rest', e) ← update_each current addedStates removedStates rest e;
    Done (s' :: rest', e)
  end.
Definition interleaved_update (current : option Z) (addedStates removedStates : list Z) (searchers : list Searcher) (index : Z) (e : Env) : outcome (Searcher * Env) :=
  '(searchers', e) ← update_each current addedStates removedStates searchers e;
  Done (InterleavedSearcher searchers' index, e).
End Bases.

(** The virtual call.  A searcher updates its base up to three times, so the depth
    of the nesting is passed as fuel. *)
Fixpoint update_with (fuel : nat) (current : option Z) (addedStates removedStates : list Z) (s : Searcher) (e : Env) {struct fuel} : outcome (Searcher * Env) :=
  match fuel with
  | O => OutOfFuel
  | S fuel =>
    match s with
    | DFSSearcher states => dfs_update addedStates removedStates states e
    | BFSSearcher states => bfs_update current addedStates removedStates states e
    | RandomSearcher states => random_update addedStates removedStates states e
    | RandomPathSearcher => Done (RandomPathSearcher, e)
    | BatchingSearcher base timeBudget instructionBudget lastState lastStartTime lastStartInstructions =>
      batching_update (update_with fuel) current addedStates removedStates base timeBudget instructionBudget lastState lastStartTime lastStartInstructions e
    | IterativeDeepeningTimeSearcher base startTime time paused => deepening_update (update_with fuel) current addedStates removedStates base startTime time paused e
    | InterleavedSearcher searchers index => interleaved_update (update_with fuel) current addedStates removedStates searchers index e
    end
  end.

(** The depth of the nesting. *)
Fixpoint depth (s : Searcher) : nat :=
  match s with
  | BatchingSearcher base _ _ _ _ _ | IterativeDeepeningTimeSearcher base _ _ _ => S (depth base)
  | InterleavedSearcher ss _ => S (foldr (fun s d => Nat.max (depth s) d) 0%nat ss)
  | _ => 1
  end.

Definition update (current : option Z) (addedStates removedStates : list Z) (s : Searcher) (e : Env) : outcome (Searcher * Env) :=
  update_with (depth s) current addedStates removedStates s e.

(** ** Construction *)

Inductive CoreSearchType := DFS | BFS | RandomState | RandomPath.

Record SearchOptions := mkSearchOptions {
  CoreSearch : list CoreSearchType;
  UseBatchingSearch : bool;
  UseIterativeDeepeningTimeSearch : bool;
  BatchTime : Z;
  BatchInstructions : Z
}.

Definition getNewSearcher (type : CoreSearchType) : Searcher :=
  match type with
  | DFS => DFSSearcher []
  | BFS => BFSSearcher []
  | RandomState => RandomSearcher []
  | RandomPath => RandomPathSearcher
  end.

(** [constructUserSearcher], without the option [UseMerge]. *)
Definition constructUserSearcher (o : SearchOptions) : outcome Searcher :=
  match CoreSearch o with
  | [] => Abort
  | t :: rest =>
    let searcher := getNewSearcher t in
    let searcher := match rest with [] => searcher | _ => InterleavedSearcher (searcher :: map getNewSearcher rest) 1 end in
    let searcher := if UseBatchingSearch o then BatchingSearcher searcher (BatchTime o) (BatchInstructions o) None 0 0 else searcher in
    let searcher := if UseIterativeDeepeningTimeSearch o then IterativeDeepeningTimeSearcher searcher 0 1000000000 ∅ else searcher in
    Done searcher
  end.
