(* ===== verification/SearcherSound.v ===== *)
(** * Searchers keep the live states

    What the executor needs of a searcher, whichever options built it: it chooses
    one of the live states, forgets none, and keeps none that ended
    ([searcher_contract]).  [bfs_fair]: breadth first search gets to every state. *)

From stdpp Require Import gmap sorting.
From S2P Require Import Prelude RNG PTree Searcher.

(** ** The contract *)

(** Whether no searcher inside sets states aside, and whether all of them keep
    their own record of the states. *)
Fixpoint immediate (s : Searcher) : bool :=
  match s with
  | BatchingSearcher b _ _ _ _ _ => immediate b
  | IterativeDeepeningTimeSearcher _ _ _ _ => false
  | InterleavedSearcher ss _ => forallb immediate ss
  | _ => true
  end.
Fixpoint listed (s : Searcher) : bool :=
  match s with
  | RandomPathSearcher => false
  | BatchingSearcher b _ _ _ _ _ | IterativeDeepeningTimeSearcher b _ _ _ => listed b
  | InterleavedSearcher ss _ => forallb listed ss
  | _ => true
  end.

(** The searcher is responsible for the states [L]. *)
Inductive holds : gset Z -> Searcher -> Prop :=
| holds_dfs L st : NoDup st -> list_to_set st = L -> holds L (DFSSearcher st)
| holds_bfs L st : NoDup st -> list_to_set st = L -> holds L (BFSSearcher st)
| holds_random L st : NoDup st -> list_to_set st = L -> holds L (RandomSearcher st)
| holds_path L : holds L RandomPathSearcher
| holds_batching L b t i last lt li : immediate b = true -> holds L b -> (forall x, last = Some x -> x ∈ L) -> holds L (BatchingSearcher b t i last lt li)
| holds_deepening L b st t paused : immediate b = true -> listed b = true -> paused ⊆ L -> (L <> ∅ -> L ∖ paused <> ∅) -> holds (L ∖ paused) b ->
    holds L (IterativeDeepeningTimeSearcher b st t paused)
| holds_interleaved L ss i : 1 <= i <= Z.of_nat (length ss) -> Z.of_nat (length ss) < 2 ^ 32 -> Forall (fun s => immediate s = true) ss -> Forall (holds L) ss -> holds L (InterleavedSearcher ss i).

(** The states it may choose from. *)
Definition active (L : gset Z) (s : Searcher) : gset Z := match s with IterativeDeepeningTimeSearcher _ _ _ paused => L ∖ paused | _ => L end.

(** The live states after an update, and the updates the executor makes. *)
Definition changed (L : gset Z) (added removed : list Z) : gset Z := (L ∪ list_to_set added) ∖ list_to_set removed.

Record update_ok (L A : gset Z) (current : option Z) (added removed : list Z) : Prop := {
  upd_added : NoDup added;
  upd_new : forall x, x ∈ added -> x ∉ L;
  upd_removed : NoDup removed;
  upd_known : forall x, x ∈ removed -> x ∈ L \/ x ∈ added;
  upd_current : forall c, current = Some c -> c ∈ A
}.

(** Searchers of the same form, and environments with the same tree. *)
Definition same_form (s s' : Searcher) : Prop := immediate s' = immediate s /\ listed s' = listed s /\ depth s' = depth s.
Definition same_tree (e e' : Env) : Prop := processTree e' = processTree e /\ executor_states e' = executor_states e.

#[export] Instance same_form_pre : PreOrder same_form.
Proof. split; unfold same_form; [intros s; done|intros s1 s2 s3 (? & ? & ?) (? & ? & ?); split_and!; congruence]. Qed.
#[export] Instance same_tree_pre : PreOrder same_tree.
Proof. split; unfold same_tree; [intros e; done|intros e1 e2 e3 [? ?] [? ?]; split; congruence]. Qed.

Lemma wall_same_tree e : same_tree e (getWallTime e).2.
Proof. done. Qed.

(** ** Sequences of states *)

Lemma erase_first_spec es pre post : es ∉ pre -> erase_first es (pre ++ es :: post) = Some (pre ++ post).
Proof.
  induction pre as [|x pre IH]; intros H; cbn; [now rewrite Z.eqb_refl|]. rewrite (proj2 (Z.eqb_neq es x)) by set_solver. rewrite IH by set_solver. done.
Qed.

(** What the three removals have in common. *)
Definition erases (erase : Z -> list Z -> outcome (list Z)) : Prop := forall es pre post, es ∉ pre -> es ∉ post -> erase es (pre ++ es :: post) = Done (pre ++ post).

Lemma erase_dfs_ok : erases erase_dfs.
Proof.
  intros es pre post H1 H2. unfold erase_dfs. destruct post as [|y post] using rev_ind.
  - rewrite last_snoc. cbn. rewrite Z.eqb_refl, app_nil_r. now rewrite removelast_last.
  - clear IHpost. rewrite app_comm_cons, app_assoc, last_snoc. cbn. rewrite (proj2 (Z.eqb_neq es y)) by set_solver.
    rewrite <- app_assoc, <- app_comm_cons, erase_first_spec by done. done.
Qed.

Lemma erase_bfs_ok : erases erase_bfs.
Proof.
  intros es pre post H1 H2. unfold erase_bfs. destruct pre as [|x pre]; cbn; [now rewrite Z.eqb_refl|].
  rewrite (proj2 (Z.eqb_neq es x)) by set_solver. now rewrite erase_first_spec by set_solver.
Qed.

Lemma erase_random_ok : erases erase_random.
Proof. intros es pre post H1 H2. unfold erase_random. now rewrite erase_first_spec. Qed.

Lemma filter_none {X} (P : X -> Prop) `{forall x, Decision (P x)} (l : list X) : (forall x, x ∈ l -> P x) -> filter P l = l.
Proof. induction l as [|x l IH]; intros HP; [done|]. rewrite filter_cons_True by (apply HP; set_solver). rewrite IH by set_solver. done. Qed.

Lemma filter_congr {X} (P Q : X -> Prop) `{forall x, Decision (P x)} `{forall x, Decision (Q x)} (l : list X) : (forall x, x ∈ l -> P x <-> Q x) -> filter P l = filter Q l.
Proof.
  induction l as [|x l IH]; intros E; [done|]. destruct (decide (P x)) as [HP|HP].
  - rewrite (filter_cons_True P), (filter_cons_True Q), IH; [done|set_solver|apply E; set_solver|done].
  - rewrite (filter_cons_False P), (filter_cons_False Q), IH; [done|set_solver|rewrite <- E; set_solver|done].
Qed.

Lemma erase_all_spec erase removed st : erases erase -> NoDup st -> NoDup removed -> (forall x, x ∈ removed -> x ∈ st) ->
  erase_all erase removed st = Done (filter (fun x => x ∉ removed) st).
Proof.
  intros He. revert st. induction removed as [|es removed IH]; intros st Hst Hnd Hin; cbn.
  - rewrite filter_none; [done|]. intros x _. apply not_elem_of_nil.
  - apply NoDup_cons in Hnd as [Hn Hnd]. destruct (list_elem_of_split st es) as (pre & post & ->); [apply Hin; set_solver|].
    apply NoDup_app in Hst as (Hpre & Hd & Hpost). apply NoDup_cons in Hpost as [Hp Hpost]. assert (es ∉ pre) by (intros Hx; apply (Hd es Hx); set_solver).
    rewrite (He es pre post) by done. cbn. rewrite IH; [|apply NoDup_app; set_solver|done|].
    + f_equal. rewrite !filter_app, filter_cons_False by set_solver. f_equal; apply filter_congr; intros x Hx; rewrite not_elem_of_cons; set_solver.
    + intros x Hx. assert (x <> es) by set_solver. pose proof (Hin x ltac:(set_solver)). set_solver.
Qed.

Lemma filter_changed L st added removed : list_to_set st = L -> (list_to_set (filter (fun x => x ∉ removed) (st ++ added)) : gset Z) = changed L added removed.
Proof. intros <-. unfold changed. apply set_eq. intros x. rewrite elem_of_list_to_set, list_elem_of_filter. set_solver. Qed.

(** The update of a sequence. *)
Lemma sequence_update erase L A cur added removed st : erases erase -> NoDup st -> list_to_set st = L -> update_ok L A cur added removed ->
  exists st', erase_all erase removed (st ++ added) = Done st' /\ NoDup st' /\ list_to_set st' = changed L added removed.
Proof.
  intros He Hst HL Hu. exists (filter (fun x => x ∉ removed) (st ++ added)). assert (NoDup (st ++ added)).
  { apply NoDup_app. split_and!; [done| |apply Hu]. intros x Hx Ha. apply (upd_new _ _ _ _ _ Hu x Ha). subst L. set_solver. }
  split_and!; [apply erase_all_spec; auto; [apply Hu|]|now apply NoDup_filter|now apply filter_changed].
  intros x Hx. destruct (upd_known _ _ _ _ _ Hu x Hx); subst L; set_solver.
Qed.

Lemma bfs_evolve_spec L A cur added removed st : A ⊆ L -> NoDup st -> list_to_set st = L -> update_ok L A cur added removed ->
  exists st', bfs_evolve cur added removed st = Done st' /\ NoDup st' /\ list_to_set st' = L.
Proof.
  intros HA Hst HL Hu. destruct cur as [c|]; [|exists st; done]. cbn. destruct (negb _ && negb _); [|exists st; done].
  pose proof (upd_current _ _ _ _ _ Hu c eq_refl) as Hc. destruct (list_elem_of_split st c) as (pre & post & ->); [subst L; set_solver|].
  apply NoDup_app in Hst as (Hpre & Hd & Hpost). apply NoDup_cons in Hpost as [Hp Hpost]. assert (c ∉ pre) by (intros Hx; apply (Hd c Hx); set_solver).
  rewrite erase_first_spec by done. cbn. eexists. split; [done|]. split.
  - apply NoDup_app. split_and!; [apply NoDup_app; set_solver|set_solver|apply NoDup_singleton].
  - subst L. set_solver.
Qed.

(** ** Every searcher *)

(** Induction over the searchers inside. *)
Fixpoint Searcher_nested_ind (P : Searcher -> Prop)
  (Hd : forall st, P (DFSSearcher st)) (Hb : forall st, P (BFSSearcher st)) (Hr : forall st, P (RandomSearcher st)) (Hp : P RandomPathSearcher)
  (Hba : forall b t i l lt li, P b -> P (BatchingSearcher b t i l lt li)) (Hid : forall b st t p, P b -> P (IterativeDeepeningTimeSearcher b st t p))
  (Hin : forall ss i, Forall P ss -> P (InterleavedSearcher ss i)) (s : Searcher) : P s :=
  let go := Searcher_nested_ind P Hd Hb Hr Hp Hba Hid Hin in
  match s with
  | DFSSearcher st => Hd st
  | BFSSearcher st => Hb st
  | RandomSearcher st => Hr st
  | RandomPathSearcher => Hp
  | BatchingSearcher b t i l lt li => Hba b t i l lt li (go b)
  | IterativeDeepeningTimeSearcher b st t p => Hid b st t p (go b)
  | InterleavedSearcher ss i => Hin ss i
      ((fix all (ss : list Searcher) : Forall P ss := match ss with [] => Forall_nil_2 P | s :: ss' => Forall_cons_2 P s ss' (go s) (all ss') end) ss)
  end.

Lemma depth_pos s : (1 <= depth s)%nat.
Proof. destruct s; cbn; lia. Qed.

Lemma immediate_active L s : immediate s = true -> active L s = L.
Proof. now destruct s. Qed.

Lemma empty_set_decide (L : gset Z) st : list_to_set st = L -> bool_decide (st = []) = bool_decide (L = ∅).
Proof. intros <-. apply bool_decide_ext. destruct st; set_solver. Qed.

Lemma empty_spec s L e : holds L s -> listed s = true \/ executor_states e = L -> empty s e = Done (bool_decide (L = ∅)).
Proof.
  revert L. induction s as [st|st|st| |b t i l lt li IH|b st t p IH|ss i IH] using Searcher_nested_ind; intros L H Hl; inversion H; subst; cbn.
  - f_equal. now apply empty_set_decide.
  - f_equal. now apply empty_set_decide.
  - f_equal. now apply empty_set_decide.
  - destruct Hl as [Hl|<-]; [discriminate|done].
  - now apply IH.
  - rewrite (IH (L ∖ p)) by (auto; now left). cbn. f_equal. destruct (decide (L = ∅)) as [->|HL].
    + rewrite !bool_decide_true; [done|done|set_solver|set_solver].
    + rewrite (bool_decide_false (L ∖ p = ∅)) by (match goal with H : _ -> L ∖ p <> ∅ |- _ => exact (H HL) end). now rewrite (bool_decide_false (L = ∅)).
  - destruct ss as [|s0 ss]; [cbn in *; lia|]. inversion IH; subst. match goal with H : Forall (holds L) _ |- _ => inversion H; subst end.
    apply H4; [done|]. destruct Hl as [Hl|Hl]; [left; cbn in Hl; now apply andb_prop in Hl as [? _]|now right].
Qed.

Lemma drop_paused_spec removed : forall paused alt, exists alt', drop_paused removed paused alt = (paused ∖ list_to_set removed, alt') /\
  (NoDup alt -> NoDup alt') /\ forall x, x ∈ alt' <-> x ∈ alt /\ ~ (x ∈ paused /\ x ∈ removed).
Proof.
  induction removed as [|es removed IH]; intros paused alt; cbn.
  - exists alt. split_and!; [f_equal; set_solver|done|set_solver].
  - destruct (bool_decide_reflect (es ∈ paused)) as [Hes|Hes].
    + destruct (IH (paused ∖ {[es]}) (filter (fun x => x <> es) alt)) as (alt' & -> & Hn & Hx). exists alt'. split_and!.
      * f_equal. set_solver.
      * intros H. apply Hn. now apply NoDup_filter.
      * intros x. rewrite Hx, list_elem_of_filter. destruct (decide (x = es)) as [->|]; set_solver.
    + destruct (IH paused alt) as (alt' & -> & Hn & Hx). exists alt'. split_and!; [f_equal; set_solver|done|]. intros x. rewrite Hx. destruct (decide (x = es)) as [->|]; set_solver.
Qed.

Lemma set_elements_spec X : NoDup (set_elements X) /\ forall x, x ∈ set_elements X <-> x ∈ X.
Proof.
  unfold set_elements. split.
  - rewrite merge_sort_Permutation. apply NoDup_elements.
  - intros x. rewrite merge_sort_Permutation. apply elem_of_elements.
Qed.

(** What an update does to every searcher. *)
Definition updates (fuel : nat) : Prop := forall s L cur added removed e, (depth s <= fuel)%nat -> holds L s -> update_ok L (active L s) cur added removed ->
  exists s' e', update_with fuel cur added removed s e = Done (s', e') /\ holds (changed L added removed) s' /\ same_form s s' /\ same_tree e e'.

Lemma depth_Forall ss fuel : (foldr (fun s d => Nat.max (depth s) d) 0%nat ss <= fuel)%nat -> Forall (fun s => (depth s <= fuel)%nat) ss.
Proof. induction ss as [|s ss IH]; cbn; intros H; constructor; [lia|apply IH; lia]. Qed.

Lemma same_form_all ss ss' i i' : Forall2 same_form ss ss' -> same_form (InterleavedSearcher ss i) (InterleavedSearcher ss' i').
Proof.
  intros H. unfold same_form. cbn. induction H as [|s s' ss ss' (H1 & H2 & H3) _ (E1 & E2 & E3)]; [done|]. cbn. split_and!; congruence.
Qed.

Lemma interleaved_update_ok fuel cur added removed L ss i : updates fuel -> holds L (InterleavedSearcher ss i) -> (depth (InterleavedSearcher ss i) <= S fuel)%nat ->
  update_ok L L cur added removed -> forall e, exists s' e', interleaved_update (update_with fuel) cur added removed ss i e = Done (s', e') /\
  holds (changed L added removed) s' /\ same_form (InterleavedSearcher ss i) s' /\ same_tree e e'.
Proof.
  intros Hup Hh Hd Hu e. inversion Hh as [| | | | | |? ? ? Hi Hlen Him Hok]; subst. unfold interleaved_update. cbn [depth] in Hd. apply le_S_n, depth_Forall in Hd.
  assert (H : exists ss' e', update_each (update_with fuel) cur added removed ss e = Done (ss', e') /\ Forall (holds (changed L added removed)) ss' /\ Forall2 same_form ss ss' /\ same_tree e e').
  { clear Hi Hlen Hh. revert e. induction ss as [|s ss IH]; intros e; [exists [], e; done|].
    inversion Hd; inversion Him; inversion Hok; subst. cbn. destruct (Hup s L cur added removed e) as (s' & e' & E & Hs' & Hf & Ht); [done|done|now rewrite immediate_active|].
    rewrite E. cbn. destruct (IH ltac:(done) ltac:(done) ltac:(done) e') as (ss' & e'' & E' & Hss & Hff & Ht'). rewrite E'. cbn. exists (s' :: ss'), e''.
    split_and!; [done|now constructor|now constructor|now transitivity e']. }
  destruct H as (ss' & e' & E & Hss & Hff & Ht). rewrite E. cbn. eexists _, e'. split; [done|]. split_and!; [|now apply same_form_all|done].
  pose proof (Forall2_length _ _ _ Hff) as El. rewrite El in Hi, Hlen. constructor; try done.
  clear -Hff Him. induction Hff as [|s s' ss ss' (Hf & _ & _)]; [done|]. inversion Him; subst. constructor; [congruence|auto].
Qed.

(** The first two updates of the base of a deepening searcher: removal of what ended, and the pause of the current state. *)
Lemma deepening_update_ok fuel cur added removed L b st t paused : updates fuel -> holds L (IterativeDeepeningTimeSearcher b st t paused) -> (depth (IterativeDeepeningTimeSearcher b st t paused) <= S fuel)%nat ->
  update_ok L (L ∖ paused) cur added removed -> forall e, exists s' e', deepening_update (update_with fuel) cur added removed b st t paused e = Done (s', e') /\
  holds (changed L added removed) s' /\ same_form (IterativeDeepeningTimeSearcher b st t paused) s' /\ same_tree e e'.
Proof.
  intros Hup Hh Hd Hu e. inversion Hh as [| | | | |? ? ? ? ? Him Hli Hp Hne Hb|]; subst. unfold deepening_update. cbn [depth] in Hd. apply le_S_n in Hd.
  set (L' := changed L added removed). pose proof (wall_same_tree e) as Hw. destruct (getWallTime e) as [now e0]. cbn [snd] in Hw.
  destruct (drop_paused_spec removed paused removed) as (alt & -> & Hnd & Halt). set (paused1 := paused ∖ list_to_set removed).
  assert (HB : changed (L ∖ paused) added alt = L' ∖ paused1).
  { unfold changed, L', paused1, changed. apply set_eq. intros x. rewrite !elem_of_difference, !elem_of_union, !elem_of_difference, !elem_of_list_to_set, Halt.
    pose proof (upd_new _ _ _ _ _ Hu x) as Hx. specialize (Hp x). destruct (decide (x ∈ removed)), (decide (x ∈ paused)); tauto. }
  assert (HP1 : paused1 ⊆ L') by (unfold paused1, L', changed; set_solver).
  destruct (Hup b (L ∖ paused) cur added alt e0) as (b1 & e1 & E1 & H1 & F1 & T1); [done|done| |].
  { rewrite immediate_active by done. split; [apply Hu| |apply Hnd, Hu| |apply Hu].
    - intros x Hx HL. apply (upd_new _ _ _ _ _ Hu x Hx). set_solver.
    - intros x [Hx Hn]%Halt. destruct (upd_known _ _ _ _ _ Hu x Hx); [left; set_solver|now right]. }
  rewrite E1. cbn. rewrite HB in H1.
  assert (H2 : exists b2 paused2 e2, match cur with
      | Some c => if negb (bool_decide (c ∈ removed)) && (t <? now - st) then '(base, e) ← update_with fuel None [] [c] b1 e1; Done (base, {[c]} ∪ paused1, e) else Done (b1, paused1, e1)
      | None => Done (b1, paused1, e1) end = Done (b2, paused2, e2) /\ paused2 ⊆ L' /\ holds (L' ∖ paused2) b2 /\ same_form b b2 /\ same_tree e e2).
  { assert (T01 : same_tree e e1) by (now transitivity e0). destruct cur as [c|]; [|now exists b1, paused1, e1]. destruct (bool_decide_reflect (c ∈ removed)) as [Hc|Hc]; [now exists b1, paused1, e1|].
    destruct (t <? now - st); [|now exists b1, paused1, e1]. cbn [negb andb]. pose proof (upd_current _ _ _ _ _ Hu c eq_refl) as HcA.
    assert (HcL : c ∈ L' ∖ paused1) by (unfold L', paused1, changed; set_solver).
    destruct (Hup b1 (L' ∖ paused1) None [] [c] e1) as (b2 & e2 & E2 & H2 & F2 & T2); [destruct F1 as (_ & _ & ->); done|done| |].
    { split; [constructor|set_solver|apply NoDup_singleton|set_solver|done]. }
    rewrite E2. cbn. exists b2, ({[c]} ∪ paused1), e2. split_and!; [done|set_solver| |now transitivity b1|now transitivity e1].
    replace (L' ∖ ({[c]} ∪ paused1)) with (changed (L' ∖ paused1) [] [c]); [done|]. unfold changed. set_solver. }
  destruct H2 as (b2 & paused2 & e2 & E2 & HP2 & H2 & F2 & T2). rewrite E2. cbn. clearbody L' paused1.
  assert (F2' : immediate b2 = true /\ listed b2 = true /\ (depth b2 <= fuel)%nat) by (destruct F2 as (-> & -> & ->); done). destruct F2' as (Him2 & Hli2 & Hd2).
  rewrite (empty_spec b2 (L' ∖ paused2)) by auto. cbn. destruct (bool_decide_reflect (L' ∖ paused2 = ∅)) as [Hem|Hem].
  - destruct (set_elements_spec paused2) as [Hnd2 Hel]. destruct (Hup b2 (L' ∖ paused2) None (set_elements paused2) [] e2) as (b3 & e3 & E3 & H3 & F3 & T3); [done|done| |].
    { split; [done|rewrite Hem; set_solver|constructor|set_solver|done]. }
    rewrite E3. cbn. assert (HL : changed (L' ∖ paused2) (set_elements paused2) [] = L').
    { unfold changed. rewrite Hem. apply set_eq. intros x. rewrite elem_of_difference, elem_of_union, elem_of_list_to_set, Hel. split.
      - intros [[H|H] _]; [now apply not_elem_of_empty in H|now apply HP2].
      - intros Hx. split; [right|apply not_elem_of_empty]. destruct (decide (x ∈ paused2)) as [|Hn]; [done|]. exfalso.
        assert (HH : x ∈ L' ∖ paused2) by now apply elem_of_difference. rewrite Hem in HH. now apply not_elem_of_empty in HH. }
    rewrite HL in H3. destruct F3 as (G1 & G2 & G3). destruct F2 as (K1 & K2 & K3). eexists _, e3. split; [done|]. split_and!; [|unfold same_form; cbn; split_and!; [done|congruence|congruence]|now transitivity e2].
    constructor; [congruence|congruence|set_solver|now rewrite difference_empty_L|now rewrite difference_empty_L].
  - eexists _, e2. split; [done|]. destruct F2 as (K1 & K2 & K3). split_and!; [now constructor|unfold same_form; cbn; split_and!; [done|congruence|congruence]|done].
Qed.

Lemma update_spec fuel : updates fuel.
Proof.
  induction fuel as [|fuel IH]; intros s L cur added removed e Hd Hh Hu; [pose proof (depth_pos s); lia|].
  destruct s as [st|st|st| |b t i l lt li|b st t p|ss i]; inversion Hh; subst; cbn [update_with]; unfold dfs_update, bfs_update, random_update, batching_update.
  - destruct (sequence_update erase_dfs (list_to_set st) _ cur added removed st erase_dfs_ok ltac:(done) eq_refl Hu) as (st' & -> & Hn & Hl). cbn. eexists _, e. split; [done|]. now split_and!; [constructor| |].
  - cbn [active] in Hu. destruct (bfs_evolve_spec (list_to_set st) _ cur added removed st ltac:(reflexivity) ltac:(done) eq_refl Hu) as (st1 & -> & Hn1 & Hl1). cbn. rewrite <- Hl1 in Hu |- *.
    destruct (sequence_update erase_bfs (list_to_set st1) _ cur added removed st1 erase_bfs_ok Hn1 eq_refl Hu) as (st' & -> & Hn & Hl). cbn. eexists _, e. split; [done|]. now split_and!; [constructor| |].
  - destruct (sequence_update erase_random (list_to_set st) _ cur added removed st erase_random_ok ltac:(done) eq_refl Hu) as (st' & -> & Hn & Hl). cbn. eexists _, e. split; [done|]. now split_and!; [constructor| |].
  - eexists _, e. split; [done|]. split_and!; [constructor|done|done].
  - cbn [depth] in Hd. destruct (IH b L cur added removed e) as (b' & e' & E & Hb & F & T); [lia|done|now rewrite immediate_active|]. rewrite E. cbn. eexists _, e'. split; [done|].
    destruct F as (F1 & F2 & F3). split_and!; [|unfold same_form; cbn; split_and!; congruence|done]. constructor; [congruence|done|]. intros x. destruct l as [y|]; [|done]. case_bool_decide; [done|]. intros [= <-].
    unfold changed. set_solver.
  - now apply deepening_update_ok.
  - now apply interleaved_update_ok.
Qed.

(** ** Choosing *)

Definition tree_for (e : Env) (L : gset Z) : Prop := tree_ok (processTree e) /\ list_to_set (tree_states (processTree e)) = L.

Lemma tree_for_same e e' L : same_tree e e' -> tree_for e L -> tree_for e' L.
Proof. intros [E _]. unfold tree_for. now rewrite E. Qed.

Definition selects (s : Searcher) : Prop := forall L e, holds L s -> L <> ∅ -> listed s = true \/ tree_for e L ->
  exists x s' e', selectState s e = Done (x, s', e') /\ x ∈ active L s /\ holds L s' /\ active L s' = active L s /\ same_form s s' /\ same_tree e e'.

Lemma batch_over_tree t i l lt li e : same_tree e (batch_over t i l lt li e).2.
Proof. unfold batch_over. destruct l; [|done]. destruct (0 <? t); cbn; [|done]. now destruct (t <? wallTimes e (readings e) - lt). Qed.

Lemma sequence_choice (f : list Z -> option Z) st (L : gset Z) : (st <> [] -> exists x, f st = Some x /\ x ∈ st) -> list_to_set st = L -> L <> ∅ -> exists x, f st = Some x /\ x ∈ L.
Proof. intros Hf <- HL. destruct (Hf ltac:(intros ->; set_solver)) as (x & E & Hx). exists x. set_solver. Qed.

Lemma random_choice st r (L : gset Z) : list_to_set st = L -> L <> ∅ -> exists x, st !! Z.to_nat (r mod Z.of_nat (length st)) = Some x /\ x ∈ L /\ negb (bool_decide (st = [])) = true.
Proof.
  intros <- HL. assert (Hst : st <> []) by (intros ->; set_solver). assert (0 < Z.of_nat (length st)) by (destruct st; [done|cbn; lia]).
  pose proof (Z.mod_pos_bound r (Z.of_nat (length st)) ltac:(lia)). destruct (lookup_lt_is_Some_2 st (Z.to_nat (r mod Z.of_nat (length st)))) as [x Hx]; [lia|].
  exists x. split_and!; [done|apply elem_of_list_to_set; eapply list_elem_of_lookup_2; eauto|now rewrite bool_decide_false].
Qed.

Lemma interleaved_select_ok ss i : Forall selects ss -> selects (InterleavedSearcher ss i).
Proof.
  intros IH L e Hh HL Hl. inversion Hh as [| | | | | |? ? ? Hi Hlen Him Hok]; subst. cbn [selectState]. unfold interleaved_select. rewrite BV.wrap_small by lia.
  destruct (lookup_lt_is_Some_2 ss (Z.to_nat (i - 1))) as [s Es]; [lia|]. rewrite Forall_lookup in IH, Him, Hok.
  change (map selectState ss) with (selectState <$> ss). rewrite list_lookup_fmap, Es. cbn.
  destruct (IH _ _ Es L e (Hok _ _ Es) HL) as (x & s' & e' & E & Hx & Hs' & _ & F & T).
  { destruct Hl as [Hl|]; [left|now right]. cbn in Hl. rewrite forallb_forall in Hl. apply Hl, list_elem_of_In. eapply list_elem_of_lookup_2; eauto. }
  rewrite E. cbn. rewrite immediate_active in Hx by eauto. eexists x, _, e'. split; [done|].
  assert (FF : Forall2 same_form ss (<[Z.to_nat (i - 1) := s']> ss)).
  { apply Forall2_same_length_lookup. split; [now rewrite length_insert|]. intros k a b Ha Hb. destruct (decide (k = Z.to_nat (i - 1))) as [->|Hk].
    - rewrite list_lookup_insert_eq in Hb by lia. congruence.
    - rewrite list_lookup_insert_ne in Hb by done. assert (a = b) as -> by congruence. done. }
  split_and!; [done| |done|now apply same_form_all|done]. constructor; [rewrite length_insert; destruct (Z.eqb_spec (i - 1) 0); lia|now rewrite length_insert| |].
  - apply Forall_insert; [now apply Forall_lookup|]. destruct F as (-> & _). eauto.
  - apply Forall_insert; [now apply Forall_lookup|done].
Qed.

Lemma select_spec s : selects s.
Proof.
  induction s as [st|st|st| |b t i l lt li IH|b st t p IH|ss i IH] using Searcher_nested_ind; intros L e Hh HL Hl; [..|now apply interleaved_select_ok]; inversion Hh; subst; cbn [selectState]; unfold dfs_select, bfs_select, random_select, random_path_select, batching_select, deepening_select.
  - destruct (sequence_choice last st _ ltac:(intros H; destruct (last_is_Some st) as [_ [x Hx]]; [done|exists x; split; [done|now apply last_Some_elem_of]]) eq_refl HL) as (x & -> & Hx). cbn.
    eexists x, _, e. split; [done|]. now split_and!.
  - destruct (sequence_choice head st _ ltac:(intros H; destruct st as [|x st]; [done|exists x; split; [done|set_solver]]) eq_refl HL) as (x & -> & Hx). cbn.
    eexists x, _, e. split; [done|]. now split_and!.
  - destruct (MT.getInt32 (theRNG e)) as [r g]. destruct (random_choice st r _ eq_refl HL) as (x & E & Hx & ->). cbn. rewrite E. cbn. eexists x, _, _. split; [done|]. now split_and!.
  - destruct Hl as [Hl|[Hok Hs]]; [discriminate|]. destruct (random_path_ok _ Hok 0 0 (theRNG e)) as (x & g & -> & Hx). cbn. eexists x, _, _. split; [done|]. split_and!; try done. cbn. set_solver.
  - pose proof (batch_over_tree t i l lt li e) as T1. destruct (batch_over t i l lt li e) as [over e1]. cbn [snd] in T1.
    assert (Hgo : forall e2 budget, same_tree e e2 -> exists x s' e', ('(x, base', e3) ← selectState b e2; let '(now, e4) := getWallTime e3 in
        Done (x, BatchingSearcher base' budget i (Some x) now (BV.wrap 32 (instructions e4)), e4)) = Done (x, s', e') /\
        x ∈ L /\ holds L s' /\ active L s' = L /\ same_form (BatchingSearcher b t i l lt li) s' /\ same_tree e e').
    { intros e2 budget T2. destruct (IH L e2 ltac:(done) HL) as (x & b' & e3 & E & Hx & Hb' & _ & F & T); [destruct Hl as [Hl|Hl]; [now left|right; eapply tree_for_same; eauto]|].
      rewrite E. cbn. rewrite immediate_active in Hx by done. eexists x, _, _. split; [done|]. destruct F as (F1 & F2 & F3). split_and!; [done| |done|unfold same_form; cbn; split_and!; congruence|].
      - constructor; [congruence|done|]. now intros y [= <-].
      - transitivity e3; [now transitivity e2|done]. }
    destruct l as [x|]; [destruct over|].
    + cbn. apply Hgo. transitivity e1; [done|apply wall_same_tree].
    + eexists x, _, e1. split; [done|]. cbn. split_and!; auto. done.
    + destruct over; apply Hgo; done.
  - cbn [listed] in Hl. destruct (IH (L ∖ p) e) as (x & b' & e1 & E & Hx & Hb' & _ & F & T); [done|auto|now left|]. rewrite E. cbn. eexists x, _, _. split; [done|].
    rewrite immediate_active in Hx by done. destruct F as (F1 & F2 & F3). split_and!; [done| |done|unfold same_form; cbn; split_and!; congruence|]. 
    + constructor; [congruence|congruence|done|done|done].
    + transitivity e1; done.
Qed.

(** ** Construction *)

Definition options_ok (o : SearchOptions) : Prop :=
  CoreSearch o <> [] /\ Z.of_nat (length (CoreSearch o)) < 2 ^ 32 /\ (UseIterativeDeepeningTimeSearch o = true -> RandomPath ∉ CoreSearch o).

Lemma new_searcher_holds t : holds ∅ (getNewSearcher t) /\ immediate (getNewSearcher t) = true /\ (t <> RandomPath -> listed (getNewSearcher t) = true).
Proof. destruct t; split_and!; try done; cbn; constructor; (apply NoDup_nil_2 || done). Qed.

Lemma constructed_holds o : options_ok o -> exists s, constructUserSearcher o = Done s /\ holds ∅ s.
Proof.
  intros (Hne & Hlen & Hd). unfold constructUserSearcher. destruct (CoreSearch o) as [|t rest] eqn:Ec; [done|]. eexists. split; [done|].
  set (s1 := match rest with [] => _ | _ => _ end).
  assert (H1 : holds ∅ s1 /\ immediate s1 = true /\ (RandomPath ∉ t :: rest -> listed s1 = true)).
  { destruct (new_searcher_holds t) as (A1 & A2 & A3). unfold s1. destruct rest as [|t' rest]; [split_and!; auto; set_solver|].
    assert (HF : forall l, Forall (holds ∅) (map getNewSearcher l) /\ Forall (fun s => immediate s = true) (map getNewSearcher l) /\ (RandomPath ∉ l -> forallb listed (map getNewSearcher l) = true)).
    { clear. induction l as [|t l (I1 & I2 & I3)]; [done|]. destruct (new_searcher_holds t) as (A1 & A2 & A3). cbn. split_and!; [now constructor|now constructor|]. intros H. rewrite A3, I3 by set_solver. done. }
    destruct (HF (t :: t' :: rest)) as (B1 & B2 & B3). change (getNewSearcher t :: map getNewSearcher (t' :: rest)) with (map getNewSearcher (t :: t' :: rest)).
    split_and!; [constructor; try done; rewrite length_map; cbn in *; lia| |exact B3]. cbn [immediate]. apply forallb_forall. intros s Hs. rewrite Forall_forall in B2. apply B2. now apply list_elem_of_In. }
  destruct H1 as (H1 & I1 & L1). set (s2 := if UseBatchingSearch o then _ else _).
  assert (H2 : holds ∅ s2 /\ immediate s2 = true /\ (RandomPath ∉ t :: rest -> listed s2 = true)) by (unfold s2; destruct (UseBatchingSearch o); [split_and!; [now constructor|done|done]|done]).
  destruct H2 as (H2 & I2 & L2). destruct (UseIterativeDeepeningTimeSearch o); [|done]. apply holds_deepening; [done|auto|set_solver|done|]. replace (∅ ∖ ∅ : gset Z) with (∅ : gset Z) by set_solver. done.
Qed.

(** ** Fairness of breadth first search *)

(** A round: the chosen state runs an instruction, in which states are added and removed. *)
Record Round := mkRound { chosen : Z; round_added : list Z; round_removed : list Z }.

(** The chosen state forked or ended. *)
Definition moved (r : Round) : bool := negb (bool_decide (round_added r = [])) || bool_decide (chosen r ∈ round_removed r).

Inductive rounds : Searcher -> Env -> list Round -> Searcher -> Env -> Prop :=
| rounds_nil s e : rounds s e [] s e
| rounds_cons s e r L x s1 e1 s2 e2 rs s3 e3 : holds L s -> selectState s e = Done (x, s1, e1) -> chosen r = x ->
    update_ok L (active L s) (Some x) (round_added r) (round_removed r) -> update (Some x) (round_added r) (round_removed r) s1 e1 = Done (s2, e2) ->
    rounds s2 e2 rs s3 e3 -> rounds s e (r :: rs) s3 e3.

Lemma filter_lookup_le (P : Z -> Prop) `{forall x, Decision (P x)} (l : list Z) i y : l !! i = Some y -> P y -> exists k, (k <= i)%nat /\ filter P l !! k = Some y.
Proof.
  revert i. induction l as [|x l IH]; intros i Hi Hy; [done|]. destruct i as [|i].
  - injection Hi as ->. exists 0%nat. rewrite filter_cons_True by done. done.
  - destruct (IH i Hi Hy) as (k & Hk & E). destruct (decide (P x)).
    + exists (S k). rewrite filter_cons_True by done. split; [lia|done].
    + exists k. rewrite filter_cons_False by done. split; [lia|done].
Qed.

(** The queue after a round: a state that is not chosen and stays moves towards the front
    when the chosen one moved, and never away from it. *)
Lemma bfs_round st i y x added removed s2 e1 e2 L : NoDup (x :: st) -> list_to_set (x :: st) = L -> update_ok L L (Some x) added removed ->
  update (Some x) added removed (BFSSearcher (x :: st)) e1 = Done (s2, e2) -> st !! i = Some y -> y ∉ removed ->
  exists st2 k, s2 = BFSSearcher st2 /\ st2 !! k = Some y /\ if moved (mkRound x added removed) then (k <= i)%nat else (k <= S i)%nat.
Proof.
  intros Hnd HL Hu Hup Hi Hy. unfold update in Hup. cbn [depth update_with] in Hup. unfold bfs_update in Hup. apply NoDup_cons in Hnd as Hnd'. destruct Hnd' as [Hx Hst].
  destruct (bfs_evolve_spec L L (Some x) added removed (x :: st) ltac:(reflexivity) Hnd HL Hu) as (st1 & E1 & Hn1 & Hl1). rewrite E1 in Hup. cbn in Hup.
  rewrite erase_all_spec in Hup; [|exact erase_bfs_ok| |apply Hu|].
  2: { apply NoDup_app. split_and!; [done| |apply Hu]. intros z Hz Ha. apply (upd_new _ _ _ _ _ Hu z Ha). rewrite <- Hl1. set_solver. }
  2: { intros z Hz. destruct (upd_known _ _ _ _ _ Hu z Hz) as [H|H]; [rewrite <- Hl1 in H; set_solver|set_solver]. }
  cbn in Hup. injection Hup as <- _. unfold moved. cbn [round_added round_removed chosen]. unfold bfs_evolve in E1.
  destruct (bool_decide_reflect (added = [])) as [Ha|Ha], (bool_decide_reflect (x ∈ removed)) as [Hr|Hr]; cbn [negb andb orb] in *; try (injection E1 as <-).
  - rewrite filter_app, filter_cons_False by tauto. destruct (filter_lookup_le (fun z => z ∉ removed) st i y Hi Hy) as (k & Hk & E). eexists _, k. split; [done|]. split; [now apply lookup_app_l_Some|done].
  - destruct (filter_lookup_le (fun z => z ∉ removed) (x :: st) (S i) y Hi Hy) as (k & Hk & E). eexists _, k. split; [done|]. rewrite filter_app. split; [now apply lookup_app_l_Some|done].
  - rewrite filter_app, filter_cons_False by tauto. destruct (filter_lookup_le (fun z => z ∉ removed) st i y Hi Hy) as (k & Hk & E). eexists _, k. split; [done|]. split; [now apply lookup_app_l_Some|done].
  - cbn in E1. rewrite Z.eqb_refl in E1. cbn in E1. injection E1 as <-. rewrite <- app_assoc, filter_app. destruct (filter_lookup_le (fun z => z ∉ removed) st i y Hi Hy) as (k & Hk & E).
    eexists _, k. split; [done|]. split; [now apply lookup_app_l_Some|done].
Qed.

(** How often the chosen state moved. *)
Definition moves (rs : list Round) : nat := length (filter (fun r => moved r = true) rs).

Lemma bfs_fair_from s e rs s' e' : rounds s e rs s' e' -> forall st i y, s = BFSSearcher st -> st !! i = Some y -> (i < moves rs)%nat ->
  exists r, r ∈ rs /\ (chosen r = y \/ y ∈ round_removed r).
Proof.
  induction 1 as [s e|s e r L x s1 e1 s2 e2 rs s3 e3 Hh Hsel Hx Hu Hup Hrun IH]; intros st i y -> Hi Hm; [cbn in Hm; lia|].
  inversion Hh as [|? ? Hnd HL| | | | |]; subst. cbn [selectState] in Hsel. unfold bfs_select in Hsel. destruct st as [|x0 st]; [done|]. cbn in Hsel. injection Hsel as -> <- <-.
  destruct i as [|i]; [injection Hi as <-; exists r; split; [apply list_elem_of_here|now left]|]. cbn in Hi.
  destruct (decide (y ∈ round_removed r)) as [Hyr|Hyr]; [exists r; split; [apply list_elem_of_here|now right]|].
  destruct (bfs_round st i y (chosen r) _ _ s2 _ e2 _ Hnd eq_refl Hu Hup Hi Hyr) as (st2 & k & -> & Hk & Hle).
  destruct (IH st2 k y eq_refl Hk) as (r' & Hr' & Hd).
  - unfold moves in *. destruct r as [c a rm]. cbn [chosen round_added round_removed] in *. destruct (moved (mkRound c a rm)) eqn:Em.
    + rewrite filter_cons_True in Hm by done. cbn in Hm. lia.
    + rewrite filter_cons_False in Hm by congruence. lia.
  - exists r'. split; [now apply list_elem_of_further|done].
Qed.

(** C23: breadth first search is fair: a state at position [i] of the queue is chosen, or
    ends, before more than [i] rounds have gone by in which the chosen state
    forked or ended, whatever states are added and removed meanwhile. *)
Theorem bfs_fair (st : list Z) (e e' : Env) (rs : list Round) (s' : Searcher) (i : nat) (y : Z) :
  rounds (BFSSearcher st) e rs s' e' -> st !! i = Some y -> (i < moves rs)%nat -> exists r, r ∈ rs /\ (chosen r = y \/ y ∈ round_removed r).
Proof. intros Hrun Hi Hm. exact (bfs_fair_from _ _ _ _ _ Hrun st i y eq_refl Hi Hm). Qed.

(** A run of two rounds: the first state forks, the second one ends. *)
Definition still_clock : Env := mkEnv (MT.mkRNG [] 0) (fun _ => 0) 0 0 (new_PTreeNode 1) ∅.

Lemma bfs_fair_witness : exists r, r ∈ [mkRound 1 [4] []; mkRound 2 [] [2]] /\ (chosen r = 2 \/ 2 ∈ round_removed r).
Proof.
  apply (bfs_fair [1; 2; 3] still_clock still_clock [mkRound 1 [4] []; mkRound 2 [] [2]] (BFSSearcher [3; 1; 4]) 1 2); [|reflexivity|vm_compute; lia].
  eapply (rounds_cons _ _ _ {[1; 2; 3]}); [constructor; [repeat constructor; set_solver|set_solver]|reflexivity|reflexivity| |reflexivity|].
  { split; [apply NoDup_singleton|set_solver|constructor|set_solver|intros c [= <-]; set_solver]. }
  eapply (rounds_cons _ _ _ {[2; 3; 1; 4]}); [constructor; [repeat constructor; set_solver|set_solver]|reflexivity|reflexivity| |reflexivity|constructor].
  split; [constructor|set_solver|apply NoDup_singleton|set_solver|intros c [= <-]; set_solver].
Defined.
