(* ===== verification/Scheduling.v ===== *)
(** * Scheduling of execution states

    The part of src/lib/Core/Executor.cpp that keeps the execution states: the main loop
    of [Executor::run] chooses a state with the searcher, runs an instruction of it, in
    which states fork ([Executor::fork], [Executor::branch]) and end
    ([Executor::terminateState]), and brings the set of states, the searcher and the
    process tree up to date ([Executor::updateStates]).  What the instruction itself computes is
    not part of the model: it is a sequence of forks and ends.

    [executor_keeps_states]: whichever options built the searcher, the loop always
    finds a state while one lives, never one that ended, and no assert fails. *)

From stdpp Require Import gmap sorting.
From S2P Require Import Prelude RNG PTree Searcher SearcherSound.

(** The set of states and the tree are in the environment of the searcher. *)
Record Executor := mkExecutor {
  searcher : Searcher;
  addedStates : list Z;
  removedStates : list Z;
  ptreeNode : gmap Z path;
  env : Env
}.

Definition states (x : Executor) : gset Z := executor_states (env x).

Definition with_tree (e : Env) (t : PTreeNode) : Env := mkEnv (theRNG e) (wallTimes e) (readings e) (instructions e) t (executor_states e).
Definition with_states (e : Env) (live : gset Z) : Env := mkEnv (theRNG e) (wallTimes e) (readings e) (instructions e) (processTree e) live.

(** The fork of [parent]: the new state is added, and attached to the tree. *)
Definition fork_state (parent child : Z) (x : Executor) : outcome Executor :=
  node ← or_abort (ptreeNode x !! parent);
  t ← attach node child parent (processTree (env x));
  Done (mkExecutor (searcher x) (addedStates x ++ [child]) (removedStates x) (attach_pointers node child parent (ptreeNode x)) (with_tree (env x) t)).

(** [terminateState]; the test files, the seeds and the report are left out. *)
Definition terminateState (s : Z) (x : Executor) : outcome Executor :=
  match erase_first s (addedStates x) with
  | None => Done (mkExecutor (searcher x) (addedStates x) (removedStates x ++ [s]) (ptreeNode x) (env x))
  | Some added =>
    node ← or_abort (ptreeNode x !! s);
    t ← remove node (processTree (env x));
    Done (mkExecutor (searcher x) added (removedStates x) (ptreeNode x) (with_tree (env x) t))
  end.

(** The loop of [updateStates] over the removed states. *)
Fixpoint remove_states (removed : list Z) (live : gset Z) (m : gmap Z path) (t : PTreeNode) : outcome (gset Z * PTreeNode) :=
  match removed with
  | [] => Done (live, t)
  | es :: rest =>
    _ ← check (bool_decide (es ∈ live));
    node ← or_abort (m !! es);
    t' ← remove node t;
    remove_states rest (live ∖ {[es]}) m t'
  end.

(** [updateStates] *)
Definition updateStates (current : option Z) (x : Executor) : outcome Executor :=
  '(s, e) ← update current (addedStates x) (removedStates x) (searcher x) (env x);
  '(live, t) ← remove_states (removedStates x) (executor_states e ∪ list_to_set (addedStates x)) (ptreeNode x) (processTree e);
  Done (mkExecutor s [] [] (ptreeNode x) (with_tree (with_states e live) t)).

(** The start of [run]: the searcher gets the states. *)
Definition start (o : SearchOptions) (e : Env) (m : gmap Z path) : outcome Executor :=
  s ← constructUserSearcher o;
  '(s, e) ← update None (set_elements (executor_states e)) [] s e;
  Done (mkExecutor s [] [] m e).

(** What an instruction does to the states. *)
Inductive Event := ForkState (parent child : Z) | EndState (s : Z).

Definition do_event (ev : Event) (x : Executor) : outcome Executor :=
  match ev with
  | ForkState parent child => fork_state parent child x
  | EndState s => terminateState s x
  end.
Fixpoint do_events (evs : list Event) (x : Executor) : outcome Executor :=
  match evs with
  | [] => Done x
  | ev :: rest => x' ← do_event ev x; do_events rest x'
  end.

(** An iteration of the main loop, in which the chosen state does [evs]. *)
Definition run_iteration (evs : Z -> list Event) (x : Executor) : outcome (Z * Executor) :=
  '(cur, s, e) ← selectState (searcher x) (env x);
  x' ← do_events (evs cur) (mkExecutor s (addedStates x) (removedStates x) (ptreeNode x) e);
  x'' ← updateStates (Some cur) x';
  Done (cur, x'').

(** ** The invariant *)

(** Between instructions: the searcher is responsible for the states, and the tree
    holds them. *)
Record executor_ok (x : Executor) : Prop := {
  exec_searcher : holds (states x) (searcher x);
  exec_tree : states x <> ∅ -> tracks (processTree (env x)) (ptreeNode x) (states x);
  exec_idle : addedStates x = [] /\ removedStates x = []
}.

(** During one: *)
Record during (x : Executor) : Prop := {
  dur_searcher : holds (states x) (searcher x);
  dur_nonempty : states x <> ∅;
  dur_added : NoDup (addedStates x);
  dur_new : forall s, s ∈ addedStates x -> s ∉ states x;
  dur_removed : NoDup (removedStates x);
  dur_known : forall s, s ∈ removedStates x -> s ∈ states x;
  dur_tree : tracks (processTree (env x)) (ptreeNode x) (states x ∪ list_to_set (addedStates x))
}.

(** The states that are alive. *)
Definition alive (x : Executor) : gset Z := changed (states x) (addedStates x) (removedStates x).

(** Events an instruction can have: living states fork and end, and a new state is at a
    new address. *)
Definition event_ok (x : Executor) (ev : Event) : Prop :=
  match ev with
  | ForkState parent child => parent ∈ alive x /\ child ∉ states x /\ child ∉ addedStates x
  | EndState s => s ∈ alive x
  end.
Fixpoint events_ok (x : Executor) (evs : list Event) : Prop :=
  match evs with
  | [] => True
  | ev :: rest => event_ok x ev /\ forall x', do_event ev x = Done x' -> events_ok x' rest
  end.

(** The living states after events. *)
Definition live_event (L : gset Z) (ev : Event) : gset Z := match ev with ForkState _ child => {[child]} ∪ L | EndState s => L ∖ {[s]} end.
Definition live_after (L : gset Z) (evs : list Event) : gset Z := foldl live_event L evs.

Lemma alive_subset x s : s ∈ alive x -> s ∈ states x \/ s ∈ addedStates x.
Proof. unfold alive, changed. set_solver. Qed.

Lemma fork_during x parent child : during x -> event_ok x (ForkState parent child) ->
  exists x', fork_state parent child x = Done x' /\ during x' /\ (states x' = states x /\ searcher x' = searcher x) /\ alive x' = {[child]} ∪ alive x.
Proof.
  intros H (Hp & Hc & Hc'). apply alive_subset in Hp as Hp'. unfold fork_state.
  assert (HpL : parent ∈ states x ∪ list_to_set (addedStates x)) by set_solver. assert (HcL : child ∉ states x ∪ list_to_set (addedStates x)) by set_solver.
  destruct (tracks_pointer _ _ _ (dur_tree x H) parent HpL) as (node & En & _). rewrite En. cbn.
  destruct (attach_tracks _ _ _ parent child node child parent (dur_tree x H) HpL HcL En ltac:(now left)) as (t & -> & Ht). cbn. eexists. split; [done|].
  split; [|split; [done|]].
  - destruct H as [H1 H2 H3 H4 H5 H6 H7]. split; cbn [addedStates removedStates searcher ptreeNode env processTree with_tree]; try done.
    + apply NoDup_app. split_and!; [done|set_solver|apply NoDup_singleton].
    + intros s Hs. change (s ∉ states x). set_solver.
    + change (tracks t (attach_pointers node child parent (ptreeNode x)) (states x ∪ list_to_set (addedStates x ++ [child]))).
      replace (states x ∪ list_to_set (addedStates x ++ [child])) with ({[child]} ∪ (states x ∪ list_to_set (addedStates x))) by set_solver. done.
  - assert (child ∉ removedStates x) by (intros Hr; now apply (dur_known x H) in Hr). unfold alive, changed. cbn. change (executor_states _) with (states x). set_solver.
Qed.

Lemma terminate_during x s : during x -> event_ok x (EndState s) ->
  exists x', terminateState s x = Done x' /\ during x' /\ (states x' = states x /\ searcher x' = searcher x) /\ alive x' = alive x ∖ {[s]}.
Proof.
  intros H Hs. cbn in Hs. apply alive_subset in Hs as Hs'. unfold terminateState.
  destruct (decide (s ∈ addedStates x)) as [Ha|Ha].
  - destruct (list_elem_of_split _ _ Ha) as (pre & post & Es). pose proof (dur_added x H) as Hnd. rewrite Es in Hnd. apply NoDup_app in Hnd as (Hn1 & Hn2 & Hn3). apply NoDup_cons in Hn3 as [Hn3 Hn4].
    assert (Hpre : s ∉ pre) by (intros Hx; apply (Hn2 s Hx); set_solver). rewrite Es, erase_first_spec by done.
    assert (HsL : s ∈ states x ∪ list_to_set (addedStates x)) by set_solver. destruct (tracks_pointer _ _ _ (dur_tree x H) s HsL) as (node & En & _). rewrite En. cbn.
    destruct (remove_tracks _ _ _ s node (dur_tree x H) HsL En) as (t & -> & Ht). cbn. eexists. split; [done|]. pose proof (dur_new x H s Ha) as Hsn.
    assert (HL : (states x ∪ list_to_set (addedStates x)) ∖ {[s]} = states x ∪ list_to_set (pre ++ post)).
    { rewrite Es. apply set_eq. intros z. rewrite elem_of_difference, !elem_of_union, !elem_of_list_to_set, !elem_of_app, elem_of_cons, elem_of_singleton. destruct (decide (z = s)) as [->|]; naive_solver. }
    rewrite HL in Ht. split; [|split; [done|]].
    + split; cbn [addedStates removedStates searcher ptreeNode env processTree with_tree]; try apply H.
      * apply NoDup_app. set_solver.
      * intros z Hz. apply (dur_new x H z). rewrite Es. set_solver.
      * apply Ht. pose proof (dur_nonempty x H). set_solver.
    + unfold alive, changed. cbn. change (executor_states _) with (states x). rewrite <- HL. set_solver.
  - assert (Ef : erase_first s (addedStates x) = None).
    { clear -Ha. induction (addedStates x) as [|z l IH]; [done|]. cbn. rewrite (proj2 (Z.eqb_neq s z)) by set_solver. now rewrite IH by set_solver. }
    rewrite Ef. eexists. split; [done|]. split; [|split; [done|]].
    + destruct H as [H1 H2 H3 H4 H5 H6 H7]. unfold alive, changed in Hs. split; cbn [addedStates removedStates searcher ptreeNode env]; try done.
      * apply NoDup_app. split_and!; [done|set_solver|apply NoDup_singleton].
      * intros z Hz. change (z ∈ states x). set_solver.
    + unfold alive, changed. cbn. change (executor_states _) with (states x). set_solver.
Qed.

Lemma events_during evs : forall x, during x -> events_ok x evs -> exists x', do_events evs x = Done x' /\ during x' /\ (states x' = states x /\ searcher x' = searcher x) /\ alive x' = live_after (alive x) evs.
Proof.
  induction evs as [|ev evs IH]; intros x H Hev; [exists x; done|]. destruct Hev as [Hev Hrest]. cbn [do_events].
  assert (Hone : exists x', do_event ev x = Done x' /\ during x' /\ (states x' = states x /\ searcher x' = searcher x) /\ alive x' = live_event (alive x) ev).
  { destruct ev as [p c|s]; [now apply fork_during|now apply terminate_during]. }
  destruct Hone as (x1 & E1 & H1 & [S1 K1] & A1). rewrite E1. cbn. destruct (IH x1 H1 (Hrest x1 E1)) as (x2 & E2 & H2 & [S2 K2] & A2). exists x2. split_and!; [done|done|congruence|congruence|].
  rewrite A2, A1. done.
Qed.

Lemma remove_states_spec removed : forall L m t, NoDup removed -> (forall s, s ∈ removed -> s ∈ L) -> tracks t m L ->
  exists t', remove_states removed L m t = Done (L ∖ list_to_set removed, t') /\ (L ∖ list_to_set removed <> ∅ -> tracks t' m (L ∖ list_to_set removed)).
Proof.
  induction removed as [|es removed IH]; intros L m t Hnd Hin Ht; cbn.
  - exists t. replace (L ∖ ∅) with L by set_solver. done.
  - apply NoDup_cons in Hnd as [Hn Hnd]. assert (Hes : es ∈ L) by set_solver. rewrite bool_decide_true by done. cbn.
    destruct (tracks_pointer _ _ _ Ht es Hes) as (node & En & _). rewrite En. cbn. destruct (remove_tracks _ _ _ es node Ht Hes En) as (t1 & -> & Ht1). cbn.
    replace (L ∖ ({[es]} ∪ list_to_set removed)) with (L ∖ {[es]} ∖ list_to_set removed) by set_solver.
    destruct (decide (L ∖ {[es]} = ∅)) as [He|He]; [|apply IH; auto; set_solver].
    destruct removed as [|es' removed]; [|exfalso; assert (es' ∈ L ∖ {[es]}) by set_solver; set_solver].
    exists t1. cbn. rewrite He. replace (∅ ∖ ∅ : gset Z) with (∅ : gset Z) by set_solver. done.
Qed.

Lemma update_states_ok cur x : during x -> cur ∈ active (states x) (searcher x) ->
  exists x', updateStates (Some cur) x = Done x' /\ executor_ok x' /\ states x' = alive x.
Proof.
  intros H Hc. unfold updateStates.
  destruct (update_spec (depth (searcher x)) (searcher x) (states x) (Some cur) (addedStates x) (removedStates x) (env x)) as (s' & e' & E & Hh & Hf & Ht); [lia|apply H| |].
  { destruct H as [H1 H2 H3 H4 H5 H6 H7]. split; auto. now intros c [= <-]. }
  unfold update. rewrite E. cbn. destruct Ht as [Et Es]. rewrite Et, Es. change (executor_states (env x)) with (states x).
  destruct (remove_states_spec (removedStates x) (states x ∪ list_to_set (addedStates x)) _ _ (dur_removed x H) ltac:(intros s Hs; apply (dur_known x H) in Hs; set_solver) (dur_tree x H)) as (t & -> & Htr). cbn.
  eexists. split; [done|]. split; [split; [exact Hh|exact Htr|done]|done].
Qed.


(** ** Small runs *)

(** One state, at the root of the tree; every reading of the clock is two seconds later. *)
Definition first_env : Env := mkEnv (MT.mkRNG [] 0) (fun n => 2000000000 * Z.of_nat n) 0 0 (new_PTreeNode 1) {[1]}.
Definition first_nodes : gmap Z path := {[1 := []]}.

Lemma first_tracks : tracks (processTree first_env) first_nodes (executor_states first_env).
Proof.
  split; [done|apply NoDup_singleton|set_solver|]. intros s Hs. cbn in Hs. apply elem_of_singleton in Hs as ->. exists []. split; [reflexivity|done].
Qed.

(** Breadth first and random path search in turn, in batches. *)
Definition mixed_options : SearchOptions := mkSearchOptions [BFS; RandomPath] true false 5000000000 10000.

Definition result_or {X} (d : X) (o : outcome X) : X := match o with Done x => x | _ => d end.
Definition no_executor : Executor := mkExecutor (DFSSearcher []) [] [] ∅ first_env.
Definition mixed_start : Executor := result_or no_executor (start mixed_options first_env first_nodes).


(** Random path search looks at the process tree only, also at states that the
    deepening searcher has paused: after a state is paused random path search may choose it,
    and its next fork fails the assert of breadth first search.  [constructUserSearcher]
    excludes the combination of random path search with merging, but not this one. *)
Definition deepening_options : SearchOptions := mkSearchOptions [BFS; RandomPath] false true 0 0.
Definition deepening_start : Executor := result_or no_executor (start deepening_options first_env first_nodes).
Definition deepening_paused : Executor := (result_or (0, no_executor) (run_iteration (fun c => [ForkState c 2]) deepening_start)).2.

Example paused_state_chosen :
  match selectState (searcher deepening_paused) (env deepening_paused) with Done (c, IterativeDeepeningTimeSearcher _ _ _ paused, _) => bool_decide (c ∈ paused) | _ => false end = true /\
  run_iteration (fun c => [ForkState c 3]) deepening_paused = Abort.
Proof. split; vm_compute; reflexivity. Qed.

(** The counter of instructions has 64 bits, the start of a batch is stored in 32: past
    2^32 instructions every batch is over when it starts. *)
Example batch_counter_truncated : let e := mkEnv (MT.mkRNG [] 0) (fun _ => 0) 0 (2 ^ 32 + 5) (new_PTreeNode 1) ∅ in
  match selectState (BatchingSearcher (DFSSearcher [1]) 0 10000 None 0 0) e with
  | Done (_, BatchingSearcher _ t i l lt li, e') => (batch_over t i l lt li e').1
  | _ => false
  end = true.
Proof. vm_compute. reflexivity. Qed.
