(* ===== verification/ConstantDivision.v ===== *)
(** * Constants for multiplication and division

    src/lib/Solver/ConstantDivision.cpp: multiplication by a constant as a sum and a difference of
    shifts, and the magic numbers with which a division by a constant is a
    multiplication and shifts.  Words are integers in their range; additions and
    shifts wrap around as the code's do.

    [mult_constants_exact], [udiv_constants_exact], [sdiv_constants_exact]: the constants
    do what they are for, for every 64-bit multiplier and every 32-bit divisor. *)

From S2P Require Import Prelude Bits.

Notation w32 := (BV.wrap 32).
Notation w64 := (BV.wrap 64).

(** [ones], [ldz], [LOG2_CEIL] and [exp_base_2] *)
Definition ones (x : Z) : Z :=
  let x := w32 (x - Z.land (Z.shiftr x 1) 0x55555555) in
  let x := w32 (Z.land (Z.shiftr x 2) 0x33333333 + Z.land x 0x33333333) in
  let x := Z.land (w32 (Z.shiftr x 4 + x)) 0x0f0f0f0f in
  let x := w32 (x + Z.shiftr x 8) in
  let x := w32 (x + Z.shiftr x 16) in
  Z.land x 0x0000003f.

Definition smear (x : Z) : Z :=
  let x := Z.lor x (Z.shiftr x 1) in
  let x := Z.lor x (Z.shiftr x 2) in
  let x := Z.lor x (Z.shiftr x 4) in
  let x := Z.lor x (Z.shiftr x 8) in
  Z.lor x (Z.shiftr x 16).

Definition ldz (x : Z) : Z := w32 (32 - ones (smear x)).

Definition LOG2_CEIL (x : Z) : Z := w32 (32 - ldz (w32 (x - 1))).

(** For [n] = 32 the code shifts 0 by the width of the word, which C++ leaves
    undefined; the value is that of the machine. *)
Definition exp_base_2 (n : Z) : Z :=
  let x := Z.land (w32 (Z.lnot n)) (w32 (n - 32)) in
  w32 (Z.shiftl (Z.shiftr x 31) n).

(** ** Multiplication *)

(** An iteration of the loop of [ComputeMultConstants64]; the state is [x], [add], [sub]. *)
Definition mult_step (x add sub : Z) : outcome (Z * Z * Z) :=
  low ← bits64.indexOfRightmostBit x;
  let lowbit := w64 (Z.shiftl 1 low) in
  let p := w64 (x + lowbit) in
  let q := isolateRightmostBit 64 p in
  high ← (if q =? 0 then Done 64 else bits64.indexOfSingleBit q);
  let '(add, sub) :=
    if high =? low + 1 then (Z.lor add lowbit, sub)
    else
      let '(add, sub) :=
        if negb (low =? 0) && negb (Z.land add (Z.shiftr lowbit 1) =? 0)
        then (Z.lxor add (Z.shiftr lowbit 1), Z.lxor sub (Z.shiftr lowbit 1))
        else (add, Z.lor sub lowbit) in
      (if high =? 64 then add else Z.lor add (w64 (Z.shiftl 1 high)), sub) in
  Done (Z.lxor p q, add, sub).

(** The loop; every iteration clears a bit of [x], so 64 are enough. *)
Fixpoint mult_loop (fuel : nat) (x add sub : Z) : outcome (Z * Z) :=
  if x =? 0 then Done (add, sub)
  else match fuel with
       | O => OutOfFuel
       | S fuel => '(x, add, sub) ← mult_step x add sub; mult_loop fuel x add sub
       end.

Definition ComputeMultConstants64 (multiplicand : Z) : outcome (Z * Z) :=
  '(add, sub) ← mult_loop 64 multiplicand 0 0;
  _ ← check (multiplicand =? w64 (add - sub));
  Done (add, sub).

(** ** Division *)

(** [ComputeUDivConstants32]: [mprime], [sh1] and [sh2]; the division by [d] is not defined for 0. *)
Definition ComputeUDivConstants32 (d : Z) : outcome (Z * Z * Z) :=
  let l := LOG2_CEIL d in
  let mid := w32 (exp_base_2 l - d) in
  _ ← check (negb (d =? 0));
  Done (w32 (w64 (2 ^ 32 * mid) / d + 1), Z.min l 1, Z.max (l - 1) 0).

(** [ComputeSDivConstants32]: [mprime], [dsign] and [shpost] for a signed [d]. *)
Definition ComputeSDivConstants32 (d : Z) : outcome (Z * Z * Z) :=
  let abs_d := if 0 <? d then d else - d in
  let l := Z.max 1 (LOG2_CEIL (w32 abs_d)) in
  let l := if abs_d =? 2 ^ 31 then 31 else l in
  let mid := exp_base_2 (l - 1) in
  _ ← check (negb (abs_d =? 0));
  let m := w64 (w64 (2 ^ 32 * mid) / abs_d + 1) in
  Done (BV.signed 32 (w32 (m - 2 ^ 32)), Z.shiftr d 31, l - 1).

(** ** Logarithms *)

(** [y] has a bit where [x] has one at most [n - 1] places higher. *)
Definition covers (n x y : Z) : Prop := forall i, 0 <= i -> Z.testbit y i = true <-> exists j, 0 <= j < n /\ Z.testbit x (i + j) = true.

Lemma covers_double n x y : 0 < n -> covers n x y -> covers (2 * n) x (Z.lor y (Z.shiftr y n)).
Proof.
  intros Hn H i Hi. rewrite Z.lor_spec, Z.shiftr_spec, orb_true_iff, (H i Hi), (H (i + n)) by lia. split.
  - intros [(j & Hj & E)|(j & Hj & E)]; [exists j; split; [lia|done]|]. exists (n + j). split; [lia|]. now rewrite Z.add_assoc.
  - intros (j & Hj & E). destruct (Z.lt_ge_cases j n); [left; exists j; split; [lia|done]|]. right. exists (j - n). split; [lia|]. rewrite <- E. f_equal. lia.
Qed.

Lemma smear_covers x : covers 32 x (smear x).
Proof.
  unfold smear. do 5 (apply (covers_double); [lia|]). intros i Hi. split.
  - intros E. exists 0. split; [lia|]. now rewrite Z.add_0_r.
  - intros (j & Hj & E). assert (j = 0) as -> by lia. now rewrite Z.add_0_r in E.
Qed.

Lemma smear_length x k : 0 <= k <= 32 -> 0 <= x < 2 ^ k -> (0 < k -> 2 ^ (k - 1) <= x) -> smear x = 2 ^ k - 1.
Proof.
  intros Hk Hx Hlow. replace (2 ^ k - 1) with (Z.ones k) by (rewrite Z.ones_equiv; lia). apply Z.bits_inj'. intros i Hi. apply eq_true_iff_eq. rewrite (smear_covers x i Hi).
  rewrite Z.testbit_ones_nonneg by lia. rewrite Z.ltb_lt. split.
  - intros (j & Hj & E). destruct (Z.lt_ge_cases i k); [done|]. rewrite (BV.testbit_high k) in E by lia. discriminate.
  - intros Hik. exists (k - 1 - i). split; [lia|]. replace (i + (k - 1 - i)) with (k - 1) by lia. specialize (Hlow ltac:(lia)).
    rewrite Z.testbit_true by lia. replace (x / 2 ^ (k - 1)) with 1; [done|].
    assert (E : 2 ^ k = 2 * 2 ^ (k - 1)) by (rewrite <- Z.pow_succ_r by lia; f_equal; lia). apply (Z.div_unique_pos x (2 ^ (k - 1)) 1 (x - 2 ^ (k - 1))); lia.
Qed.

Lemma ones_mask k : 0 <= k <= 32 -> ones (2 ^ k - 1) = k.
Proof.
  intros Hk. assert (H : forallb (fun n => ones (2 ^ Z.of_nat n - 1) =? Z.of_nat n) (seq 0 33) = true) by (vm_compute; reflexivity).
  rewrite forallb_forall in H. specialize (H (Z.to_nat k)). rewrite Z2Nat.id in H by lia. apply Z.eqb_eq, H, in_seq. lia.
Qed.

(** The number of bits of a word. *)
Lemma bit_length x : 0 <= x < 2 ^ 32 -> exists k, 0 <= k <= 32 /\ x < 2 ^ k /\ (0 < k -> 2 ^ (k - 1) <= x).
Proof.
  intros Hx. destruct (Z.eq_dec x 0) as [->|Hn]; [exists 0; split_and!; lia|]. exists (Z.log2 x + 1).
  pose proof (Z.log2_spec x ltac:(lia)) as [H1 H2]. pose proof (Z.log2_nonneg x). assert (Z.log2 x < 32) by (apply Z.log2_lt_pow2; lia).
  split_and!; [lia|lia|exact H2|]. intros _. replace (Z.log2 x + 1 - 1) with (Z.log2 x) by lia. done.
Qed.

(** The least power of two that is not below [d]. *)
Lemma LOG2_CEIL_spec d : 1 <= d < 2 ^ 32 -> let l := LOG2_CEIL d in 0 <= l <= 32 /\ d <= 2 ^ l /\ (0 < l -> 2 ^ (l - 1) < d).
Proof.
  intros Hd. cbn zeta. unfold LOG2_CEIL, ldz. rewrite (BV.wrap_small 32 (d - 1)) by lia. destruct (bit_length (d - 1)) as (k & Hk & H1 & H2); [lia|].
  rewrite (smear_length (d - 1) k) by lia. rewrite ones_mask by lia. rewrite (BV.wrap_small 32 (32 - k)) by lia.
  rewrite BV.wrap_small by lia. replace (32 - (32 - k)) with k by lia. split_and!; lia.
Qed.

Lemma exp_base_2_spec n : 0 <= n <= 32 -> exp_base_2 n = w32 (2 ^ n).
Proof.
  intros Hn. assert (H : forallb (fun n => exp_base_2 (Z.of_nat n) =? w32 (2 ^ Z.of_nat n)) (seq 0 33) = true) by (vm_compute; reflexivity).
  rewrite forallb_forall in H. specialize (H (Z.to_nat n)). rewrite Z2Nat.id in H by lia. apply Z.eqb_eq, H, in_seq. lia.
Qed.

(** ** Division *)

(** A multiplication by [m], a little more than [K / d], and a division by [K] is a division by
    [d], as long as the error stays below one. *)
Lemma magic_div d m K e n : 0 < d -> 0 < K -> m * d = K + e -> 0 < e -> 0 <= n -> n * e < K -> n * m / K = n / d.
Proof.
  intros Hd HK Hm He Hn Hs. pose proof (Z_div_mod_eq_full n d) as En. pose proof (Z.mod_pos_bound n d Hd) as Hr. set (q := n / d) in *. set (r := n mod d) in *.
  symmetry. apply (Z.div_unique_pos (n * m) K q (n * m - K * q)); [|lia].
  assert (Hnm : n * m * d = d * (K * q) + r * K + n * e) by (rewrite <- Z.mul_assoc, Hm, En at 1; rewrite En at 1; ring_simplify; nia).
  split; nia.
Qed.

(** The same for negative numbers, rounded towards minus infinity. *)
Lemma magic_div_neg d m K e a : 0 < d -> 0 < K -> m * d = K + e -> 0 < e -> 0 < a -> a * e <= K -> - a * m / K + 1 = - (a / d).
Proof.
  intros Hd HK Hm He Ha Hs. pose proof (Z_div_mod_eq_full a d) as En. pose proof (Z.mod_pos_bound a d Hd) as Hr. set (q := a / d) in *. set (r := a mod d) in *.
  assert (Hq : - q - 1 = - a * m / K); [|lia]. apply (Z.div_unique_pos _ _ _ (- a * m - K * (- q - 1))); [|lia].
  assert (Ham : a * m * d = d * (K * q) + r * K + a * e) by (rewrite <- Z.mul_assoc, Hm; rewrite En at 1; nia).
  split; nia.
Qed.

(** The quotient computed from the constants, as the comments of src/lib/Solver/STPBuilder.cpp give it. *)
Definition udiv_formula (mprime sh1 sh2 n : Z) : Z :=
  let t1 := mprime * n / 2 ^ 32 in Z.shiftr (w32 (Z.shiftr (w32 (n - t1)) sh1 + t1)) sh2.

Lemma udiv_constants_exact d n : 1 <= d < 2 ^ 32 -> 0 <= n < 2 ^ 32 ->
  exists mprime sh1 sh2, ComputeUDivConstants32 d = Done (mprime, sh1, sh2) /\ 0 <= mprime < 2 ^ 32 /\ 0 <= sh1 < 32 /\ 0 <= sh2 < 32 /\ udiv_formula mprime sh1 sh2 n = n / d.
Proof.
  intros Hd Hn. destruct (LOG2_CEIL_spec d Hd) as (Hl & Hu & Hlow). unfold ComputeUDivConstants32. set (l := LOG2_CEIL d) in *.
  rewrite (proj2 (Z.eqb_neq d 0)) by lia. cbn [negb check mbind outcome_bind]. eexists _, _, _. split; [done|].
  assert (H2l : 2 ^ l < 2 * d). { destruct (Z.eq_dec l 0) as [->|]; [lia|]. specialize (Hlow ltac:(lia)). replace l with (1 + (l - 1)) by lia. rewrite Z.pow_add_r by lia. lia. }
  assert (Emid : w32 (exp_base_2 l - d) = 2 ^ l - d). { rewrite exp_base_2_spec, BV.wrap_sub_l by lia. apply BV.wrap_small. lia. }
  rewrite Emid, (BV.wrap_small 64) by lia. set (f := 2 ^ 32 * (2 ^ l - d) / d).
  assert (Hf : 0 <= f < 2 ^ 32 - 1).
  { split; [apply Z.div_pos; nia|]. apply Z.div_lt_upper_bound; [lia|]. nia. }
  rewrite BV.wrap_small by lia. split; [lia|]. split; [lia|]. split; [lia|].
  assert (Hm : exists e, (2 ^ 32 + (f + 1)) * d = 2 ^ 32 * 2 ^ l + e /\ 0 < e <= d).
  { exists (d - (2 ^ 32 * (2 ^ l - d)) mod d). pose proof (Z_div_mod_eq_full (2 ^ 32 * (2 ^ l - d)) d) as E. pose proof (Z.mod_pos_bound (2 ^ 32 * (2 ^ l - d)) d ltac:(lia)). fold f in E. split; lia. }
  destruct Hm as (e & Hm & He). pose proof (BV.pow2_pos l ltac:(lia)) as Hpl.
  unfold udiv_formula. set (t1 := (f + 1) * n / 2 ^ 32).
  assert (Ht : 0 <= t1 <= n). { unfold t1. split; [apply Z.div_pos; nia|]. apply Z.div_le_upper_bound; nia. }
  assert (Et : (2 ^ 32 + (f + 1)) * n / 2 ^ 32 = n + t1). { unfold t1. replace ((2 ^ 32 + (f + 1)) * n) with (n * 2 ^ 32 + (f + 1) * n) by lia. rewrite Z.div_add_l by lia. done. }
  assert (Eq : (n + t1) / 2 ^ l = n / d).
  { rewrite <- Et, Z.div_div by lia. rewrite Z.mul_comm. apply (magic_div d _ _ e n); nia. }
  rewrite <- Eq, !Z.shiftr_div_pow2 by lia. rewrite (BV.wrap_small 32 (n - t1)) by lia. destruct (Z.eq_dec l 0) as [El|Hl0].
  - assert (Et0 : t1 = 0). { assert (d = 1) as -> by (rewrite El in Hu; cbn in Hu; lia). unfold t1, f. rewrite El. cbn -[Z.div]. rewrite Z.div_0_l by lia. apply Z.div_small. lia. }
    rewrite El, Et0. cbn. rewrite !Z.div_1_r, Z.sub_0_r, !Z.add_0_r. apply BV.wrap_small. lia.
  - rewrite Z.min_r, Z.max_l by lia. change (2 ^ 1) with 2.
    assert (Eh : (n - t1) / 2 + t1 = (n + t1) / 2) by (replace (n + t1) with (t1 * 2 + (n - t1)) by lia; rewrite Z.div_add_l by lia; lia).
    rewrite Eh, BV.wrap_small by (split; [apply Z.div_pos; lia|apply Z.div_lt_upper_bound; lia]).
    rewrite Z.div_div by (try lia; apply BV.pow2_pos; lia). f_equal. rewrite <- Z.pow_succ_r by lia. f_equal. lia.
Qed.

(** The signed quotient: [mulsh] is the upper half of the product, and [n >> 31] is -1 for negative [n]. *)
Definition sdiv_formula (mprime dsign shpost n : Z) : Z :=
  let q0 := BV.signed 32 (w32 (n + mprime * n / 2 ^ 32)) in
  let q0 := Z.shiftr q0 shpost - Z.shiftr n 31 in
  Z.lxor q0 dsign - dsign.

Lemma shiftr_sign n : - 2 ^ 31 <= n < 2 ^ 31 -> Z.shiftr n 31 = if n <? 0 then -1 else 0.
Proof.
  intros Hn. rewrite Z.shiftr_div_pow2 by lia. destruct (Z.ltb_spec n 0); symmetry; [apply (Z.div_unique_pos n (2 ^ 31) (-1) (n + 2 ^ 31)); lia|apply (Z.div_unique_pos n (2 ^ 31) 0 n); lia].
Qed.

Lemma sdiv_constants_exact d n : 2 <= Z.abs d -> - 2 ^ 31 <= d < 2 ^ 31 -> - 2 ^ 31 <= n < 2 ^ 31 ->
  exists mprime dsign shpost, ComputeSDivConstants32 d = Done (mprime, dsign, shpost) /\ - 2 ^ 31 <= mprime < 2 ^ 31 /\ 0 <= shpost < 31 /\ dsign = Z.shiftr d 31 /\
    - 2 ^ 31 <= n + mprime * n / 2 ^ 32 < 2 ^ 31 /\ sdiv_formula mprime dsign shpost n = Z.quot n d.
Proof.
  intros Ha Hd Hn. unfold ComputeSDivConstants32. set (a := if 0 <? d then d else - d). assert (Ea : a = Z.abs d) by (unfold a; destruct (Z.ltb_spec 0 d); lia).
  rewrite (BV.wrap_small 32 a) by lia. destruct (LOG2_CEIL_spec a ltac:(lia)) as (Hl & Hu & Hlow). set (l0 := LOG2_CEIL a) in *.
  assert (Hl0 : 1 <= l0). { destruct (Z.eq_dec l0 0) as [E|]; [rewrite E in Hu; cbn in Hu; lia|lia]. } specialize (Hlow ltac:(lia)).
  assert (Hl31 : l0 <= 31). { destruct (Z.le_gt_cases l0 31); [done|]. assert (2 ^ 31 <= 2 ^ (l0 - 1)) by (apply Z.pow_le_mono_r; lia). lia. }
  assert (El : (if a =? 2 ^ 31 then 31 else Z.max 1 l0) = l0).
  { destruct (Z.eqb_spec a (2 ^ 31)) as [E|]; [|lia]. destruct (Z.eq_dec l0 31); [done|]. exfalso. assert (2 ^ l0 <= 2 ^ 30) by (apply Z.pow_le_mono_r; lia). lia. }
  rewrite El. rewrite exp_base_2_spec by lia. assert (Hp : 0 < 2 ^ (l0 - 1) <= 2 ^ 30) by (split; [apply BV.pow2_pos; lia|apply Z.pow_le_mono_r; lia]).
  rewrite (BV.wrap_small 32 (2 ^ (l0 - 1))) by lia. rewrite (proj2 (Z.eqb_neq a 0)) by lia. cbn [negb check mbind outcome_bind]. rewrite (BV.wrap_small 64 (2 ^ 32 * 2 ^ (l0 - 1))) by lia.
  set (K := 2 ^ 32 * 2 ^ (l0 - 1)). set (f := K / a). assert (E2l : 2 ^ l0 = 2 * 2 ^ (l0 - 1)) by (rewrite <- Z.pow_succ_r by lia; f_equal; lia).
  assert (Hf : 2 ^ 31 <= f < 2 ^ 32). { unfold f, K. split; [apply Z.div_le_lower_bound; lia|apply Z.div_lt_upper_bound; lia]. }
  rewrite (BV.wrap_small 64) by lia. eexists _, _, _. split; [done|].
  assert (Em : BV.signed 32 (w32 (f + 1 - 2 ^ 32)) = f + 1 - 2 ^ 32) by (apply BV.signed_wrap; lia). rewrite Em. split; [lia|]. split; [lia|]. split; [done|].
  assert (Hm : exists e, (f + 1) * a = K + e /\ 0 < e <= a).
  { exists (a - K mod a). pose proof (Z_div_mod_eq_full K a) as E. pose proof (Z.mod_pos_bound K a ltac:(lia)). fold f in E. split; lia. }
  destruct Hm as (e & Hm & He).
  assert (Eq0 : n + (f + 1 - 2 ^ 32) * n / 2 ^ 32 = n * (f + 1) / 2 ^ 32). { rewrite <- Z.div_add_l by lia. f_equal. lia. }
  assert (Hr : - 2 ^ 31 <= n * (f + 1) / 2 ^ 32 < 2 ^ 31). { split; [apply Z.div_le_lower_bound; nia|apply Z.div_lt_upper_bound; nia]. }
  rewrite Eq0. split; [exact Hr|]. unfold sdiv_formula. rewrite Eq0, BV.signed_wrap by lia. rewrite Z.shiftr_div_pow2, Z.div_div by lia. fold K. rewrite !shiftr_sign by lia.
  assert (Hq : n * (f + 1) / K - (if n <? 0 then -1 else 0) = Z.sgn n * (Z.abs n / a)).
  { destruct (Z.ltb_spec n 0) as [Hneg|Hpos].
    - pose proof (magic_div_neg a (f + 1) K e (- n) ltac:(lia) ltac:(unfold K; lia) Hm ltac:(lia) ltac:(lia) ltac:(unfold K; nia)) as H. rewrite Z.opp_involutive in H. rewrite Z.abs_neq, Z.sgn_neg by lia. lia.
    - rewrite (magic_div a (f + 1) K e n ltac:(lia) ltac:(unfold K; lia) Hm ltac:(lia) Hpos) by (unfold K; nia). destruct (Z.eq_dec n 0) as [->|]; [now rewrite Z.div_0_l by lia|]. rewrite Z.abs_eq, Z.sgn_pos by lia. lia. }
  rewrite Hq. rewrite Z.quot_div by lia. rewrite <- Ea. destruct (Z.ltb_spec d 0) as [Hdn|Hdp].
  - rewrite Z.lxor_m1_r. rewrite (Z.sgn_neg d) by lia. unfold Z.lnot. lia.
  - rewrite Z.lxor_0_r, (Z.sgn_pos d) by lia. lia.
Qed.

(** ** Multiplication *)

Lemma lor_pow2 a k : 0 <= k -> 0 <= a < 2 ^ k -> Z.lor a (2 ^ k) = a + 2 ^ k.
Proof.
  intros Hk Ha. replace (a + 2 ^ k) with (2 ^ k * 1 + a) by lia. apply Z.bits_inj'. intros i Hi. rewrite Z.lor_spec, Z.pow2_bits_eqb, testbit_shifted by lia.
  destruct (Z.ltb_spec i k).
  - rewrite (proj2 (Z.eqb_neq k i)) by lia. apply orb_false_r.
  - rewrite (BV.testbit_high k a i) by lia. cbn. destruct (Z.eqb_spec k i) as [->|]; [now rewrite Z.sub_diag|]. symmetry. apply (Z.pow2_bits_false 0). lia.
Qed.

Lemma lxor_pow2 a k : 0 <= k -> 0 <= a < 2 ^ (k + 1) ->
  if Z.testbit a k then Z.lxor a (2 ^ k) = a - 2 ^ k /\ 2 ^ k <= a else Z.lxor a (2 ^ k) = a + 2 ^ k /\ a < 2 ^ k.
Proof.
  intros Hk Ha. rewrite Z.pow_add_r in Ha by lia. change (2 ^ 1) with 2 in Ha. pose proof (BV.pow2_pos k Hk). destruct (Z.lt_ge_cases a (2 ^ k)) as [Hlt|Hge].
  - rewrite (BV.testbit_high k a k) by lia. split; [|lia]. rewrite <- lor_pow2 by lia. apply Z.bits_inj'. intros i Hi. rewrite Z.lxor_spec, Z.lor_spec, Z.pow2_bits_eqb by lia.
    destruct (Z.eqb_spec k i) as [<-|]; [now rewrite (BV.testbit_high k a k) by lia|]. now destruct (Z.testbit a i).
  - set (r := a - 2 ^ k). assert (E : a = Z.lor r (2 ^ k)) by (rewrite lor_pow2 by lia; lia). assert (Ht : Z.testbit a k = true) by (rewrite E, Z.lor_spec, Z.pow2_bits_true by lia; apply orb_true_r).
    rewrite Ht. split; [|lia]. fold r. apply Z.bits_inj'. intros i Hi. rewrite E, Z.lxor_spec, Z.lor_spec, Z.pow2_bits_eqb by lia.
    destruct (Z.eqb_spec k i) as [<-|]; [now rewrite (BV.testbit_high k r k) by lia|]. now destruct (Z.testbit r i).
Qed.

Lemma land_pow2 a k : 0 <= k -> (Z.land a (2 ^ k) =? 0) = negb (Z.testbit a k).
Proof.
  intros Hk. destruct (Z.testbit a k) eqn:E; cbn.
  - apply Z.eqb_neq. intros H0. assert (Z.testbit (Z.land a (2 ^ k)) k = false) by now rewrite H0, Z.bits_0. rewrite Z.land_spec, E, Z.pow2_bits_true in H by done. discriminate.
  - apply Z.eqb_eq, Z.bits_inj'. intros i Hi. rewrite Z.land_spec, Z.pow2_bits_eqb, Z.bits_0 by done. destruct (Z.eqb_spec k i) as [<-|]; [now rewrite E|apply andb_false_r].
Qed.

Definition disjoint (a b : Z) : Prop := forall i, 0 <= i -> Z.testbit a i && Z.testbit b i = false.

(** Between iterations: the bits below [t] have been processed. *)
Record mult_inv (t x add sub : Z) : Prop := {
  inv_t : 0 <= t <= 64;
  inv_x : 0 <= x < 2 ^ 64 /\ exists y, x = 2 ^ t * y;
  inv_add : 0 <= add < 2 ^ t;
  inv_sub : 0 <= sub < 2 ^ t;
  inv_disjoint : disjoint add sub
}.

(** The rightmost run of ones of a word: it goes from [low] to [high]. *)
Lemma rightmost_run t x : 0 <= t -> 0 < x < 2 ^ 64 -> (exists y, x = 2 ^ t * y) -> exists low high x1, t <= low < high /\ high <= 64 /\
  bits64.indexOfRightmostBit x = Done low /\ w64 (x + 2 ^ low) = (if high =? 64 then 0 else x1 + 2 ^ high) /\ isolateRightmostBit 64 (w64 (x + 2 ^ low)) = (if high =? 64 then 0 else 2 ^ high) /\
  Z.lxor (w64 (x + 2 ^ low)) (isolateRightmostBit 64 (w64 (x + 2 ^ low))) = x1 /\ x = x1 + 2 ^ high - 2 ^ low /\ 0 <= x1 < 2 ^ 64 /\ (high = 64 -> x1 = 0) /\ exists y, x1 = 2 ^ (high + 1) * y.
Proof.
  intros Ht Hx [y Ey]. destruct (odd_multiple x) as (low & m & Hlow & Hm & Ex); [lia|]. pose proof (BV.pow2_pos low Hlow) as Hpl.
  assert (Hl64 : low < 64). { destruct (Z.lt_ge_cases low 64); [done|]. assert (2 ^ 64 <= 2 ^ low) by (apply Z.pow_le_mono_r; lia). nia. }
  assert (Htl : t <= low).
  { destruct (Z.le_gt_cases t low); [done|]. exfalso. replace t with (low + 1 + (t - low - 1)) in Ey by lia. rewrite !Z.pow_add_r in Ey by lia.
    assert (E2 : 2 ^ low * (2 * m + 1) = 2 ^ low * (2 * (2 ^ (t - low - 1) * y))) by lia. apply Z.mul_reg_l in E2; lia. }
  destruct (rightmost_bits 64 low m) as [_ Ei]; [lia..|]. rewrite <- Ex in Ei.
  assert (Eidx : bits64.indexOfRightmostBit x = Done low) by (unfold bits64.indexOfRightmostBit; rewrite Ei; apply indexOfSingleBit_pow2; lia).
  destruct (odd_multiple (m + 1)) as (j & k & Hj & Hk & Em); [lia|]. set (high := low + 1 + j).
  assert (Ep : x + 2 ^ low = 2 ^ high * (2 * k + 1)). { unfold high. rewrite !Z.pow_add_r by lia. replace x with (2 ^ low * (2 * m + 1)) by lia. nia. }
  pose proof (BV.pow2_pos high ltac:(lia)) as Hph. assert (Hle : x + 2 ^ low <= 2 ^ 64).
  { assert (E64 : 2 ^ 64 = 2 ^ low * (2 * 2 ^ (63 - low))) by (rewrite <- Z.pow_succ_r, <- Z.pow_add_r by lia; f_equal; lia).
    assert (2 * m + 1 < 2 * 2 ^ (63 - low)) by (apply (Z.mul_lt_mono_pos_l (2 ^ low)); lia). rewrite E64. replace x with (2 ^ low * (2 * m + 1)) by lia.
    rewrite <- (Z.mul_1_r (2 ^ low)) at 2. rewrite <- Z.mul_add_distr_l. apply Z.mul_le_mono_nonneg_l; lia. }
  assert (Hh64 : high <= 64). { destruct (Z.le_gt_cases high 64); [done|]. assert (2 ^ 65 <= 2 ^ high) by (apply Z.pow_le_mono_r; lia). nia. }
  destruct (Z.eq_dec high 64) as [Eh|Hn].
  - assert (Ek : k = 0) by (rewrite Eh in Ep; nia). assert (E0 : w64 (x + 2 ^ low) = 0) by (rewrite Ep, Eh, Ek; reflexivity).
    assert (Ex64 : x = 0 + 2 ^ 64 - 2 ^ low) by (rewrite Eh, Ek in Ep; lia).
    exists low, high, 0. rewrite E0, Eh. split_and!; [lia|lia|lia|exact Eidx|done|done|done|exact Ex64|lia|lia|done|exists 0; lia].
  - assert (Hlt : x + 2 ^ low < 2 ^ 64). { assert (x + 2 ^ low <> 2 ^ 64); [|lia]. intros E. rewrite Ep in E. replace 64 with (high + 1 + (63 - high)) in E by lia. rewrite !Z.pow_add_r in E by lia.
      assert (E2 : 2 ^ high * (2 * k + 1) = 2 ^ high * (2 * 2 ^ (63 - high))) by lia. apply Z.mul_reg_l in E2; lia. }
    destruct (rightmost_bits 64 high k) as [_ Eq]; [lia..|]. rewrite <- Ep in Eq.
    exists low, high, (2 ^ (high + 1) * k). rewrite (BV.wrap_small 64 (x + 2 ^ low)) by lia. rewrite Eq. rewrite (proj2 (Z.eqb_neq high 64)) by lia. rewrite Z.pow_add_r by lia. split_and!; try lia; try done.
    + rewrite Ep. replace (2 ^ high * (2 * k + 1)) with (2 ^ high * (2 * k + 1) + 0) by lia. replace (2 ^ high * 2 ^ 1 * k) with (2 ^ high * (2 * k) + 0) by lia.
      apply Z.bits_inj'. intros i Hi. rewrite Z.lxor_spec, Z.pow2_bits_eqb, !testbit_shifted by lia. destruct (Z.ltb_spec i high).
      * rewrite (proj2 (Z.eqb_neq high i)) by lia. apply xorb_false_r.
      * destruct (Z.eqb_spec high i) as [<-|Hne]; [now rewrite Z.sub_diag, Z.testbit_odd_0, Z.testbit_even_0|].
        replace (i - high) with (Z.succ (i - high - 1)) by lia. rewrite Z.testbit_odd_succ, Z.testbit_even_succ by lia. apply xorb_false_r.
    + exists k. lia.
Qed.

Lemma disjoint_lor_l a b k : 0 <= k -> disjoint a b -> Z.testbit b k = false -> disjoint (Z.lor a (2 ^ k)) b.
Proof.
  intros Hk H Hb i Hi. rewrite Z.lor_spec, Z.pow2_bits_eqb by done. destruct (Z.eqb_spec k i) as [<-|]; [now rewrite Hb, andb_false_r|]. rewrite orb_false_r. now apply H.
Qed.
Lemma disjoint_sym a b : disjoint a b -> disjoint b a.
Proof. intros H i Hi. rewrite andb_comm. now apply H. Qed.
Lemma disjoint_move a b k : 0 <= k -> disjoint a b -> Z.testbit a k = true -> disjoint (Z.lxor a (2 ^ k)) (Z.lxor b (2 ^ k)).
Proof.
  intros Hk H Ha i Hi. rewrite !Z.lxor_spec, !Z.pow2_bits_eqb by done. destruct (Z.eqb_spec k i) as [<-|]; [now rewrite Ha|]. rewrite !xorb_false_r. now apply H.
Qed.

Lemma pow2_double k : 0 < k -> 2 ^ k = 2 * 2 ^ (k - 1).
Proof. intros. rewrite <- Z.pow_succ_r by lia. f_equal. lia. Qed.

Lemma pow2_shiftr k : 0 < k -> Z.shiftr (2 ^ k) 1 = 2 ^ (k - 1).
Proof. intros. rewrite Z.shiftr_div_pow2 by lia. rewrite (pow2_double k) by lia. change (2 ^ 1) with 2. rewrite Z.mul_comm. apply Z.div_mul. lia. Qed.

Lemma shiftl_one k : 0 <= k < 64 -> w64 (Z.shiftl 1 k) = 2 ^ k.
Proof. intros. rewrite Z.shiftl_mul_pow2, Z.mul_1_l by lia. apply BV.wrap_small. split; [apply Z.pow_nonneg; lia|]. apply Z.pow_lt_mono_r; lia. Qed.

(** The part of an iteration that rewrites a run of at least two ones as a difference. *)
Lemma mult_borrow t add sub low : 0 <= t <= low -> 0 <= add < 2 ^ t -> 0 <= sub < 2 ^ t -> disjoint add sub ->
  let '(add', sub') := if negb (low =? 0) && negb (Z.land add (Z.shiftr (2 ^ low) 1) =? 0)
    then (Z.lxor add (Z.shiftr (2 ^ low) 1), Z.lxor sub (Z.shiftr (2 ^ low) 1)) else (add, Z.lor sub (2 ^ low)) in
  0 <= add' < 2 ^ low /\ 0 <= sub' < 2 ^ (low + 1) /\ disjoint add' sub' /\ add' - sub' = add - sub - 2 ^ low.
Proof.
  intros Ht Ha Hs Hd. assert (Htl : 2 ^ t <= 2 ^ low) by (apply Z.pow_le_mono_r; lia). assert (E1 : 2 ^ (low + 1) = 2 * 2 ^ low) by (rewrite Z.add_1_r, Z.pow_succ_r by lia; done).
  destruct (negb (low =? 0) && negb (Z.land add (Z.shiftr (2 ^ low) 1) =? 0)) eqn:E.
  - apply andb_prop in E as [El Eb]. assert (Hl : 0 < low) by (destruct (Z.eqb_spec low 0); [discriminate|lia]). rewrite pow2_shiftr in * by lia. rewrite land_pow2, negb_involutive in Eb by lia.
    pose proof (lxor_pow2 add (low - 1) ltac:(lia)) as H1. pose proof (lxor_pow2 sub (low - 1) ltac:(lia)) as H2. replace (low - 1 + 1) with low in * by lia. rewrite Eb in H1.
    assert (Eb' : Z.testbit sub (low - 1) = false) by (pose proof (Hd (low - 1) ltac:(lia)) as H; now rewrite Eb in H). rewrite Eb' in H2.
    destruct H1 as [H1 H1']; [lia|]. destruct H2 as [H2 H2']; [lia|]. pose proof (pow2_double low Hl). split_and!; [lia..| |lia]. apply disjoint_move; [lia|done|done].
  - rewrite lor_pow2 by lia. split_and!; [lia..| |lia]. rewrite <- lor_pow2 by lia. apply disjoint_sym, disjoint_lor_l; [lia|now apply disjoint_sym|]. apply (BV.testbit_high low); lia.
Qed.

Lemma mult_step_ok t x add sub : mult_inv t x add sub -> x <> 0 -> exists t1 x1 add1 sub1, mult_step x add sub = Done (x1, add1, sub1) /\
  t < t1 /\ mult_inv t1 x1 add1 sub1 /\ w64 (add1 - sub1 + x1) = w64 (add - sub + x).
Proof.
  intros [Ht [Hx Hy] Ha Hs Hd] Hn. destruct (rightmost_run t x ltac:(lia) ltac:(lia) Hy) as (low & high & x1 & Hlh & Hh & Ei & Ep & Eq & El & Ex & Hx1 & Hx0 & Hy1).
  unfold mult_step. rewrite Ei. cbn [mbind outcome_bind]. cbn zeta. rewrite shiftl_one by lia. rewrite Eq in *. rewrite El. clear El Ep Eq. assert (Htl : 2 ^ t <= 2 ^ low) by (apply Z.pow_le_mono_r; lia).
  assert (E1 : 2 ^ (low + 1) = 2 * 2 ^ low) by (rewrite Z.add_1_r, Z.pow_succ_r by lia; done). assert (Hlh2 : 2 ^ (low + 1) <= 2 ^ high) by (apply Z.pow_le_mono_r; lia).
  destruct (Z.eq_dec high 64) as [E64|H64].
  - subst high. change (64 =? 64) with true. cbn iota. change (0 =? 0) with true. cbn iota. cbn [mbind outcome_bind]. specialize (Hx0 eq_refl). subst x1. destruct (Z.eqb_spec 64 (low + 1)) as [E|E].
    + assert (low = 63) as -> by lia. eexists 64, 0, _, _. split; [done|]. rewrite lor_pow2 by lia. split; [lia|]. split.
      * split; [lia|split; [lia|exists 0; lia]|lia|lia|]. rewrite <- lor_pow2 by lia. apply disjoint_lor_l; [lia|done|]. apply (BV.testbit_high t); lia.
      * f_equal. lia.
    + pose proof (mult_borrow t add sub low ltac:(lia) Ha Hs Hd) as Hb. destruct (if negb (low =? 0) && _ then _ else _) as [add' sub']. destruct Hb as (B1 & B2 & B3 & B4). eexists 64, 0, add', sub'. split; [done|].
      split; [lia|]. split; [split; [lia|split; [lia|exists 0; lia]|lia|lia|done]|]. replace (add' - sub' + 0) with (add - sub + x + (-1) * 2 ^ 64) by lia. unfold BV.wrap. apply Z_mod_plus_full.
  - rewrite (proj2 (Z.eqb_neq high 64)) in * by lia. rewrite (proj2 (Z.eqb_neq (2 ^ high) 0)) by lia. rewrite indexOfSingleBit_pow2 by lia. cbn [mbind outcome_bind]. rewrite (proj2 (Z.eqb_neq high 64)) by lia.
    assert (E2 : 2 ^ (high + 1) = 2 * 2 ^ high) by (rewrite Z.add_1_r, Z.pow_succ_r by lia; done). destruct (Z.eqb_spec high (low + 1)) as [E|E].
    + subst high. eexists (low + 1 + 1), x1, _, _. split; [done|]. rewrite lor_pow2 by lia. split; [lia|]. split.
      * split; [lia|split; [lia|done]|lia|lia|]. rewrite <- lor_pow2 by lia. apply disjoint_lor_l; [lia|done|]. apply (BV.testbit_high t); lia.
      * f_equal. lia.
    + pose proof (mult_borrow t add sub low ltac:(lia) Ha Hs Hd) as Hb. destruct (if negb (low =? 0) && _ then _ else _) as [add' sub']. destruct Hb as (B1 & B2 & B3 & B4). rewrite shiftl_one by lia.
      eexists (high + 1), x1, _, sub'. split; [done|]. rewrite lor_pow2 by lia. split; [lia|]. split.
      * split; [lia|split; [lia|done]|lia|lia|]. rewrite <- lor_pow2 by lia. apply disjoint_lor_l; [lia|done|]. apply (BV.testbit_high (low + 1)); lia.
      * f_equal. lia.
Qed.

Lemma mult_loop_ok fuel : forall t x add sub, mult_inv t x add sub -> 64 - t <= Z.of_nat fuel -> exists add' sub', mult_loop fuel x add sub = Done (add', sub') /\
  0 <= add' < 2 ^ 64 /\ 0 <= sub' < 2 ^ 64 /\ disjoint add' sub' /\ w64 (add' - sub') = w64 (add - sub + x).
Proof.
  induction fuel as [|fuel IH]; intros t x add sub H Hf; cbn; destruct (Z.eqb_spec x 0) as [->|Hn].
  1, 3: exists add, sub; destruct H as [H1 H2 H3 H4 H5]; assert (2 ^ t <= 2 ^ 64) by (apply Z.pow_le_mono_r; lia); split_and!; try lia; try done; f_equal; lia.
  - destruct H as [H1 [H2 [y Hy]] H3 H4 H5]. exfalso. assert (t = 64) as -> by lia. nia.
  - destruct (mult_step_ok t x add sub H Hn) as (t1 & x1 & add1 & sub1 & -> & Ht & H1 & E1). cbn. destruct (IH t1 x1 add1 sub1 H1 ltac:(lia)) as (a & s & E & B1 & B2 & B3 & B4).
    exists a, s. split; [exact E|]. split_and!; [apply B1|apply B1|apply B2|apply B2|exact B3|]. now rewrite B4.
Qed.

Lemma mult_constants_exact x : 0 <= x < 2 ^ 64 -> exists add sub, ComputeMultConstants64 x = Done (add, sub) /\ 0 <= add < 2 ^ 64 /\ 0 <= sub < 2 ^ 64 /\ disjoint add sub /\ w64 (add - sub) = x.
Proof.
  intros Hx. destruct (mult_loop_ok 64 0 x 0 0) as (add & sub & E & H1 & H2 & H3 & H4).
  - split; [lia|split; [done|exists x; lia]|lia|lia|intros i Hi; now rewrite Z.bits_0].
  - lia.
  - unfold ComputeMultConstants64. rewrite E. cbn [mbind outcome_bind]. assert (E0 : w64 (add - sub) = x) by (rewrite H4; apply BV.wrap_small; lia). rewrite E0, Z.eqb_refl. cbn. exists add, sub. done.
Qed.
