(* ===== verification/STPBuilder.v ===== *)
(** * Arithmetic for STP

    The part of src/lib/Solver/STPBuilder.cpp that does not hand an operation of an expression to
    the solver STP as it is but builds it from simpler ones: shifts (STP shifts by
    constants only), and multiplication and division by constants, with the constants of
    [ConstantDivision].

    STP is not part of the sources: the functions of its C interface are the class
    [VCOps], and what its documentation says they mean is [VCSpec].  [bv e w x]: the term [e] is
    a bit vector of [w] bits with the value [x] (under some assignment of its variables); [fm e b]: the
    formula [e] has the truth value [b]. *)

From stdpp Require Import strings.
From S2P Require Import Prelude Bits ConstantDivision.

Class VCOps := {
  VCExpr : Type;
  VCType : Type;
  vc_bvType : Z -> VCType;
  vc_arrayType : VCType -> VCType -> VCType;
  vc_varExpr : string -> VCType -> VCExpr;
  vc_readExpr : VCExpr -> VCExpr -> VCExpr;
  vc_writeExpr : VCExpr -> VCExpr -> VCExpr -> VCExpr;
  vc_getBVLength : VCExpr -> Z;
  vc_bvConstExprFromInt : Z -> Z -> VCExpr;
  vc_bvConstExprFromLL : Z -> Z -> VCExpr;
  vc_bvPlusExpr : Z -> VCExpr -> VCExpr -> VCExpr;
  vc_bvMinusExpr : Z -> VCExpr -> VCExpr -> VCExpr;
  vc_bvMultExpr : Z -> VCExpr -> VCExpr -> VCExpr;
  vc_bvDivExpr : Z -> VCExpr -> VCExpr -> VCExpr;
  vc_sbvDivExpr : Z -> VCExpr -> VCExpr -> VCExpr;
  vc_bvModExpr : Z -> VCExpr -> VCExpr -> VCExpr;
  vc_sbvRemExpr : Z -> VCExpr -> VCExpr -> VCExpr;
  vc_bvUMinusExpr : VCExpr -> VCExpr;
  vc_bvNotExpr : VCExpr -> VCExpr;
  vc_bvAndExpr : VCExpr -> VCExpr -> VCExpr;
  vc_bvOrExpr : VCExpr -> VCExpr -> VCExpr;
  vc_bvXorExpr : VCExpr -> VCExpr -> VCExpr;
  vc_bvConcatExpr : VCExpr -> VCExpr -> VCExpr;
  vc_bvExtract : VCExpr -> Z -> Z -> VCExpr;
  vc_bvSignExtend : VCExpr -> Z -> VCExpr;
  vc_eqExpr : VCExpr -> VCExpr -> VCExpr;
  vc_bvLtExpr : VCExpr -> VCExpr -> VCExpr;
  vc_bvLeExpr : VCExpr -> VCExpr -> VCExpr;
  vc_sbvLtExpr : VCExpr -> VCExpr -> VCExpr;
  vc_sbvLeExpr : VCExpr -> VCExpr -> VCExpr;
  vc_trueExpr : VCExpr;
  vc_falseExpr : VCExpr;
  vc_notExpr : VCExpr -> VCExpr;
  vc_andExpr : VCExpr -> VCExpr -> VCExpr;
  vc_orExpr : VCExpr -> VCExpr -> VCExpr;
  vc_iffExpr : VCExpr -> VCExpr -> VCExpr;
  vc_iteExpr : VCExpr -> VCExpr -> VCExpr -> VCExpr
}.

(** The meaning of terms when the variable [name] has the contents [env name].  Divisions by zero have
    some value ([make_division_total]). *)
Class VCSpec (V : VCOps) (env : string -> Z -> Z) := {
  bv : VCExpr -> Z -> Z -> Prop;
  fm : VCExpr -> bool -> Prop;
  arr : VCExpr -> Z -> Z -> (Z -> Z) -> Prop;
  bv_range e w x : bv e w x -> 0 < w /\ 0 <= x < 2 ^ w;
  bv_length e w x : bv e w x -> vc_getBVLength e = w;
  fm_det e b b' : fm e b -> fm e b' -> b = b';
  bv_int w x : 0 < w -> 0 <= x < 2 ^ 32 -> x < 2 ^ w -> bv (vc_bvConstExprFromInt w x) w x;
  bv_ll w x : 0 < w <= 64 -> 0 <= x < 2 ^ 64 -> bv (vc_bvConstExprFromLL w x) w (BV.wrap w x);
  bv_plus w a b x y : bv a w x -> bv b w y -> bv (vc_bvPlusExpr w a b) w (BV.wrap w (x + y));
  bv_minus w a b x y : bv a w x -> bv b w y -> bv (vc_bvMinusExpr w a b) w (BV.wrap w (x - y));
  bv_mult w a b x y : bv a w x -> bv b w y -> bv (vc_bvMultExpr w a b) w (BV.wrap w (x * y));
  bv_div w a b x y : bv a w x -> bv b w y -> exists q, bv (vc_bvDivExpr w a b) w q /\ (y <> 0 -> q = x / y);
  bv_sdiv w a b x y : bv a w x -> bv b w y ->
    exists q, bv (vc_sbvDivExpr w a b) w q /\ (y <> 0 -> q = BV.wrap w (Z.quot (BV.signed w x) (BV.signed w y)));
  bv_mod w a b x y : bv a w x -> bv b w y -> exists q, bv (vc_bvModExpr w a b) w q /\ (y <> 0 -> q = x mod y);
  bv_srem w a b x y : bv a w x -> bv b w y ->
    exists q, bv (vc_sbvRemExpr w a b) w q /\ (y <> 0 -> q = BV.wrap w (Z.rem (BV.signed w x) (BV.signed w y)));
  bv_uminus w a x : bv a w x -> bv (vc_bvUMinusExpr a) w (BV.wrap w (- x));
  bv_not w a x : bv a w x -> bv (vc_bvNotExpr a) w (2 ^ w - 1 - x);
  bv_and w a b x y : bv a w x -> bv b w y -> bv (vc_bvAndExpr a b) w (Z.land x y);
  bv_or w a b x y : bv a w x -> bv b w y -> bv (vc_bvOrExpr a b) w (Z.lor x y);
  bv_xor w a b x y : bv a w x -> bv b w y -> bv (vc_bvXorExpr a b) w (Z.lxor x y);
  bv_concat wa wb a b x y : bv a wa x -> bv b wb y -> bv (vc_bvConcatExpr a b) (wa + wb) (x * 2 ^ wb + y);
  bv_extract w a x top bottom : bv a w x -> 0 <= bottom <= top -> top < w ->
    bv (vc_bvExtract a top bottom) (top - bottom + 1) (BV.wrap (top - bottom + 1) (x / 2 ^ bottom));
  bv_sext w a x v : bv a w x -> w <= v -> bv (vc_bvSignExtend a v) v (BV.wrap v (BV.signed w x));
  fm_eq w a b x y : bv a w x -> bv b w y -> fm (vc_eqExpr a b) (x =? y);
  fm_lt w a b x y : bv a w x -> bv b w y -> fm (vc_bvLtExpr a b) (x <? y);
  fm_le w a b x y : bv a w x -> bv b w y -> fm (vc_bvLeExpr a b) (x <=? y);
  fm_slt w a b x y : bv a w x -> bv b w y -> fm (vc_sbvLtExpr a b) (BV.signed w x <? BV.signed w y);
  fm_sle w a b x y : bv a w x -> bv b w y -> fm (vc_sbvLeExpr a b) (BV.signed w x <=? BV.signed w y);
  fm_true : fm vc_trueExpr true;
  fm_false : fm vc_falseExpr false;
  fm_not a p : fm a p -> fm (vc_notExpr a) (negb p);
  fm_and a b p q : fm a p -> fm b q -> fm (vc_andExpr a b) (p && q);
  fm_or a b p q : fm a p -> fm b q -> fm (vc_orExpr a b) (p || q);
  fm_iff a b p q : fm a p -> fm b q -> fm (vc_iffExpr a b) (eqb p q);
  fm_ite c k a b p q : fm c k -> fm a p -> fm b q -> fm (vc_iteExpr c a b) (if k then p else q);
  bv_ite w c k a b x y : fm c k -> bv a w x -> bv b w y -> bv (vc_iteExpr c a b) w (if k then x else y);
  arr_var name d r : 0 < d -> 0 < r ->
    arr (vc_varExpr name (vc_arrayType (vc_bvType d) (vc_bvType r))) d r (fun i => BV.wrap r (env name i));
  arr_write d r a i v f x y : arr a d r f -> bv i d x -> bv v r y -> arr (vc_writeExpr a i v) d r (fun k => if k =? x then y else f k);
  bv_read d r a i f x : arr a d r f -> bv i d x -> bv (vc_readExpr a i) r (f x)
}.

Section Builder.
Context {V : VCOps}.

(** ** Constants and shifts by constants *)

Definition bvConst32 (width value : Z) : VCExpr := vc_bvConstExprFromInt width (w32 value).
Definition bvConst64 (width value : Z) : VCExpr := vc_bvConstExprFromLL width (w64 value).

(** The loop of [bvZExtConst] for more than 64 bits. *)
Fixpoint zext_words (fuel : nat) (width : Z) (expr : VCExpr) : Z * VCExpr :=
  match fuel with
  | O => (width, expr)
  | S fuel => if 64 <? width then zext_words fuel (width - 64) (vc_bvConcatExpr (bvConst64 64 0) expr) else (width, expr)
  end.
Definition bvZExtConst (width value : Z) : VCExpr :=
  if width <=? 64 then bvConst64 width value
  else let '(rest, expr) := zext_words (Z.to_nat width) (width - 64) (bvConst64 64 value) in vc_bvConcatExpr (bvConst64 rest 0) expr.
Definition bvSExtConst (width value : Z) : VCExpr :=
  if width <=? 64 then bvConst64 width value else vc_bvSignExtend (bvConst64 64 value) width.

Definition bvOne (width : Z) : VCExpr := bvZExtConst width 1.
Definition bvZero (width : Z) : VCExpr := bvZExtConst width 0.
Definition bvMinusOne (width : Z) : VCExpr := bvSExtConst width (-1).

Definition bvExtract (expr : VCExpr) (top bottom : Z) : VCExpr := vc_bvExtract expr top bottom.
Definition bvBoolExtract (expr : VCExpr) (bit : Z) : VCExpr := vc_eqExpr (bvExtract expr bit bit) (bvOne 1).
Definition eqExpr (a b : VCExpr) : outcome VCExpr :=
  _ ← check (vc_getBVLength a =? vc_getBVLength b); Done (vc_eqExpr a b).

Definition bvRightShift (expr : VCExpr) (shift : Z) : VCExpr :=
  let width := vc_getBVLength expr in
  if shift =? 0 then expr
  else if width <=? shift then bvZero width
  else vc_bvConcatExpr (bvZero shift) (bvExtract expr (width - 1) shift).

Definition bvLeftShift (expr : VCExpr) (shift : Z) : VCExpr :=
  let width := vc_getBVLength expr in
  if shift =? 0 then expr
  else if width <=? shift then bvZero width
  else vc_bvConcatExpr (bvExtract expr (width - shift - 1) 0) (bvZero shift).

Definition constructAShrByConstant (expr : VCExpr) (shift : Z) (isSigned : VCExpr) : VCExpr :=
  let width := vc_getBVLength expr in
  if shift =? 0 then expr
  else if width <=? shift then bvZero width
  else vc_iteExpr isSigned (vc_bvConcatExpr (bvMinusOne shift) (bvExtract expr (width - 1) shift)) (bvRightShift expr shift).

(** ** Shifts by a variable amount *)

(** The number of bits of [width] ([APInt::getActiveBits]), and the low bits of the amount. *)
Definition active_bits (width : Z) : Z := Z.log2 width + 1.
Definition extractPartialShiftValue (shift : VCExpr) (width : Z) : VCExpr * Z :=
  let shiftBits := active_bits width in (vc_bvExtract shift (shiftBits - 1) 0, shiftBits).

(** The chain of conditionals, one for each amount of the list. *)
Fixpoint shift_cases (by_constant : Z -> VCExpr) (shift_ext : VCExpr) (shiftBits : Z) (amounts : list Z) (res : VCExpr) : outcome VCExpr :=
  match amounts with
  | [] => Done res
  | i :: rest =>
    c ← eqExpr shift_ext (bvConst32 shiftBits i);
    shift_cases by_constant shift_ext shiftBits rest (vc_iteExpr c (by_constant i) res)
  end.

(** The amounts [n - 1], ..., 0. *)
Definition down_from (n : Z) : list Z := reverse (seqZ 0 n).

(** The three shifts differ in the shift by a constant, the first value, and the largest amount. *)
Definition var_shift (by_constant : Z -> VCExpr) (start : VCExpr) (largest : Z) (expr shift : VCExpr) : outcome VCExpr :=
  let width := vc_getBVLength expr in
  let '(shift_ext, shiftBits) := extractPartialShiftValue shift width in
  res ← shift_cases by_constant shift_ext shiftBits (down_from (largest + 1)) start;
  let ex := vc_bvLtExpr shift (bvConst32 (vc_getBVLength shift) width) in
  Done (vc_iteExpr ex res (bvZero width)).

Definition bvVarLeftShift (expr shift : VCExpr) : outcome VCExpr :=
  let width := vc_getBVLength expr in var_shift (bvLeftShift expr) (bvZero width) (width - 1) expr shift.
Definition bvVarRightShift (expr shift : VCExpr) : outcome VCExpr :=
  let width := vc_getBVLength expr in var_shift (bvRightShift expr) (bvZero width) (width - 1) expr shift.
Definition bvVarArithRightShift (expr shift : VCExpr) : outcome VCExpr :=
  let width := vc_getBVLength expr in
  let signedBool := bvBoolExtract expr (width - 1) in
  var_shift (fun i => constructAShrByConstant expr i signedBool) (constructAShrByConstant expr (width - 1) signedBool) (width - 2) expr shift.

(** ** Multiplication and division by constants *)

(** An iteration of the loop of [constructMulByConstant]; [None] is the null [ExprHandle]. *)
Definition mul_bit (expr : VCExpr) (width add sub j : Z) (res : option VCExpr) : outcome (option VCExpr) :=
  let a := Z.testbit add j in let s := Z.testbit sub j in
  if a || s then
    _ ← check (negb (a && s));
    let op := bvLeftShift expr j in
    Done (Some (if a then match res with Some r => vc_bvPlusExpr width r op | None => op end
                else match res with Some r => vc_bvMinusExpr width r op | None => vc_bvUMinusExpr op end))
  else Done res.
Fixpoint mul_bits (expr : VCExpr) (width add sub : Z) (js : list Z) (res : option VCExpr) : outcome (option VCExpr) :=
  match js with
  | [] => Done res
  | j :: rest => res' ← mul_bit expr width add sub j res; mul_bits expr width add sub rest res'
  end.

Definition constructMulByConstant (expr : VCExpr) (width x : Z) : outcome VCExpr :=
  '(add, sub) ← ComputeMultConstants64 x;
  let add := truncateToNBits 64 add width in
  let sub := truncateToNBits 64 sub width in
  res ← mul_bits expr width add sub (down_from 64) None;
  Done (match res with Some r => r | None => bvZero width end).

Definition constructUDivByConstant (expr_n : VCExpr) (width d : Z) : outcome VCExpr :=
  _ ← check (width =? 32);
  '(mprime, sh1, sh2) ← ComputeUDivConstants32 (w32 d);
  let expr_sh1 := bvConst32 32 sh1 in
  let expr_sh2 := bvConst32 32 sh2 in
  let expr_n_64 := vc_bvConcatExpr (bvZero 32) expr_n in
  t1_64bits ← constructMulByConstant expr_n_64 64 mprime;
  let t1 := vc_bvExtract t1_64bits 63 32 in
  let n_minus_t1 := vc_bvMinusExpr width expr_n t1 in
  shift_sh1 ← bvVarRightShift n_minus_t1 expr_sh1;
  let plus_t1 := vc_bvPlusExpr width shift_sh1 t1 in
  bvVarRightShift plus_t1 expr_sh2.

Definition constructSDivByConstant (expr_n : VCExpr) (width d : Z) : outcome VCExpr :=
  _ ← check (width =? 32);
  '(mprime, dsign, shpost) ← ComputeSDivConstants32 (BV.signed 32 (w32 d));
  let expr_dsign := bvConst32 32 dsign in
  let expr_shpost := bvConst32 32 shpost in
  let expr_n_64 := vc_bvSignExtend expr_n 64 in
  mult_64 ← constructMulByConstant expr_n_64 64 (w64 mprime);
  let mulsh := vc_bvExtract mult_64 63 32 in
  let n_plus_mulsh := vc_bvPlusExpr width expr_n mulsh in
  let extend_npm := vc_bvSignExtend n_plus_mulsh 64 in
  shift_npm ← bvVarRightShift extend_npm expr_shpost;
  let shift_shpost := vc_bvExtract shift_npm 31 0 in
  let is_signed := bvBoolExtract expr_n 31 in
  let neg_one := bvMinusOne 32 in
  let xsign_of_n := vc_iteExpr is_signed neg_one (bvZero 32) in
  let q0 := vc_bvMinusExpr width shift_shpost xsign_of_n in
  let q0_xor_dsign := vc_bvXorExpr q0 expr_dsign in
  Done (vc_bvMinusExpr width q0_xor_dsign expr_dsign).
End Builder.

(** ** What they mean *)

Lemma wrap_div_wrap w v s x : 0 <= s -> 0 <= w -> w + s <= v -> BV.wrap w (BV.wrap v x / 2 ^ s) = BV.wrap w (x / 2 ^ s).
Proof.
  intros Hs Hw Hv. apply Z.bits_inj'. intros i Hi. rewrite !BV.testbit_wrap by lia. destruct (Z.ltb_spec i w); [|done]. cbn.
  rewrite !BV.testbit_div, BV.testbit_wrap by lia. now rewrite (proj2 (Z.ltb_lt (i + s) v)) by lia.
Qed.

Lemma wrap_lxor w x y : 0 <= w -> Z.lxor (BV.wrap w x) (BV.wrap w y) = BV.wrap w (Z.lxor x y).
Proof.
  intros Hw. apply Z.bits_inj'. intros i Hi. rewrite Z.lxor_spec, !BV.testbit_wrap, Z.lxor_spec by lia. now destruct (i <? w).
Qed.

Section Meaning.
Context {V : VCOps} {env : string -> Z -> Z} {VS : VCSpec V env}.

Lemma bvConst32_ok w v : 0 < w -> w32 v < 2 ^ w -> bv (bvConst32 w v) w (w32 v).
Proof. intros Hw Hv. apply bv_int; [done| |done]. apply BV.wrap_range. lia. Qed.
Lemma bvConst32_small w v : 0 < w -> 0 <= v < 2 ^ 32 -> v < 2 ^ w -> bv (bvConst32 w v) w v.
Proof. intros Hw Hv Hv'. pose proof (bvConst32_ok w v Hw) as H. rewrite BV.wrap_small in H by done. auto. Qed.
Lemma bvConst64_ok w v : 0 < w <= 64 -> bv (bvConst64 w v) w (BV.wrap w v).
Proof. intros Hw. rewrite <- (BV.wrap_wrap_le w 64 v) by lia. apply bv_ll; [done|]. apply BV.wrap_range. lia. Qed.

Lemma zext_words_ok fuel width expr we v : (Z.to_nat width <= fuel)%nat -> 0 < width -> bv expr we v ->
  let '(rest, expr') := zext_words fuel width expr in 0 < rest <= 64 /\ bv expr' (we + width - rest) v.
Proof.
  revert width expr we. induction fuel as [|fuel IH]; intros width expr we Hf Hw He; cbn; [lia|]. destruct (Z.ltb_spec 64 width).
  - specialize (IH (width - 64) (vc_bvConcatExpr (bvConst64 64 0) expr) (64 + we)). destruct (zext_words _ _ _) as [rest expr']. destruct IH as [H1 H2]; [lia|lia| |].
    + exact (bv_concat 64 we _ _ 0 v (bvConst64_ok 64 0 ltac:(lia)) He).
    + split; [done|]. replace (we + width - rest) with (64 + we + (width - 64) - rest) by lia. done.
  - split; [lia|]. replace (we + width - width) with we by lia. done.
Qed.

Lemma bvZero_ok w : 0 < w -> bv (bvZero w) w 0.
Proof.
  intros Hw. unfold bvZero, bvZExtConst. destruct (Z.leb_spec w 64); [exact (bvConst64_ok w 0 ltac:(lia))|].
  pose proof (zext_words_ok (Z.to_nat w) (w - 64) (bvConst64 64 0) 64 0 ltac:(lia) ltac:(lia) (bvConst64_ok 64 0 ltac:(lia))) as H1.
  destruct (zext_words _ _ _) as [rest expr]. destruct H1 as [H1 H2]. pose proof (bv_concat rest (64 + (w - 64) - rest) _ _ 0 0 (bvConst64_ok rest 0 H1) H2) as H3.
  replace (rest + (64 + (w - 64) - rest)) with w in H3 by lia. done.
Qed.

Lemma bvMinusOne_ok w : 0 < w -> bv (bvMinusOne w) w (2 ^ w - 1).
Proof.
  intros Hw. assert (E : forall v, 0 < v -> BV.wrap v (-1) = 2 ^ v - 1). { intros v Hv. unfold BV.wrap. pose proof (BV.pow2_pos v ltac:(lia)). symmetry. apply (Z.mod_unique_pos _ _ (-1)); lia. }
  unfold bvMinusOne, bvSExtConst. destruct (Z.leb_spec w 64).
  - rewrite <- E by lia. apply bvConst64_ok. lia.
  - rewrite <- (E w) by lia. replace (-1) with (BV.signed 64 (BV.wrap 64 (-1))) at 2 by reflexivity. apply bv_sext; [apply bvConst64_ok; lia|lia].
Qed.

Lemma bvBoolExtract_ok e w x i : bv e w x -> 0 <= i < w -> fm (bvBoolExtract e i) (Z.testbit x i).
Proof.
  intros He Hi. unfold bvBoolExtract, bvExtract. pose proof (bv_extract w e x i i He ltac:(lia) ltac:(lia)) as H1. replace (i - i + 1) with 1 in H1 by lia.
  pose proof (fm_eq 1 _ _ _ _ H1 (bvConst64_ok 1 1 ltac:(lia))) as H2. change (BV.wrap 1 1) with 1 in H2. unfold BV.wrap in H2. change (2 ^ 1) with 2 in H2.
  replace (Z.testbit x i) with ((x / 2 ^ i) mod 2 =? 1); [exact H2|]. apply eq_true_iff_eq. rewrite Z.eqb_eq, Z.testbit_true by lia. done.
Qed.

Lemma bvRightShift_ok e w x s : bv e w x -> 0 <= s -> bv (bvRightShift e s) w (x / 2 ^ s).
Proof.
  intros He Hs. unfold bvRightShift. destruct (bv_range _ _ _ He) as [Hw Hx]. rewrite (bv_length _ _ _ He). destruct (Z.eqb_spec s 0) as [->|Hs0]; [now rewrite Z.div_1_r|].
  destruct (Z.leb_spec w s) as [Hle|Hlt].
  - assert (2 ^ w <= 2 ^ s) by (apply Z.pow_le_mono_r; lia). rewrite Z.div_small by lia. now apply bvZero_ok.
  - pose proof (bv_concat s _ _ _ _ _ (bvZero_ok s ltac:(lia)) (bv_extract w e x (w - 1) s He ltac:(lia) ltac:(lia))) as H1. replace (s + (w - 1 - s + 1)) with w in H1 by lia.
    replace (w - 1 - s + 1) with (w - s) in H1 by lia. rewrite Z.mul_0_l, Z.add_0_l, BV.wrap_small in H1; [exact H1|]. split; [apply Z.div_pos; [lia|apply BV.pow2_pos; lia]|].
    apply Z.div_lt_upper_bound; [apply BV.pow2_pos; lia|]. rewrite <- Z.pow_add_r by lia. replace (s + (w - s)) with w by lia. lia.
Qed.

Lemma bvLeftShift_ok e w x s : bv e w x -> 0 <= s -> bv (bvLeftShift e s) w (BV.wrap w (x * 2 ^ s)).
Proof.
  intros He Hs. unfold bvLeftShift. destruct (bv_range _ _ _ He) as [Hw Hx]. rewrite (bv_length _ _ _ He). destruct (Z.eqb_spec s 0) as [->|Hs0]; [rewrite Z.mul_1_r, BV.wrap_small by lia; done|].
  destruct (Z.leb_spec w s) as [Hle|Hlt].
  - replace (BV.wrap w (x * 2 ^ s)) with 0; [now apply bvZero_ok|]. unfold BV.wrap. replace s with (s - w + w) by lia. rewrite Z.pow_add_r, Z.mul_assoc, Z_mod_mult by lia. done.
  - pose proof (bv_concat _ s _ _ _ _ (bv_extract w e x (w - s - 1) 0 He ltac:(lia) ltac:(lia)) (bvZero_ok s ltac:(lia))) as H1. rewrite Z.div_1_r, Z.add_0_r in H1.
    replace (w - s - 1 - 0 + 1) with (w - s) in H1 by lia. replace (w - s + s) with w in H1 by lia. replace (BV.wrap w (x * 2 ^ s)) with (BV.wrap (w - s) x * 2 ^ s); [exact H1|].
    unfold BV.wrap. replace (2 ^ w) with (2 ^ (w - s) * 2 ^ s) by (rewrite <- Z.pow_add_r by lia; f_equal; lia). rewrite Z.mul_mod_distr_r; [done|..]; apply Z.pow_nonzero; lia.
Qed.

(** The arithmetic shift by an amount below the width; the others give 0. *)
Definition ashr_value (w x s : Z) : Z := if s <? w then BV.wrap w (BV.signed w x / 2 ^ s) else 0.

Lemma constructAShr_ok e w x s c : bv e w x -> 0 <= s -> fm c (Z.testbit x (w - 1)) -> bv (constructAShrByConstant e s c) w (ashr_value w x s).
Proof.
  intros He Hs Hc. unfold constructAShrByConstant, ashr_value. destruct (bv_range _ _ _ He) as [Hw Hx]. rewrite (bv_length _ _ _ He). destruct (Z.eqb_spec s 0) as [->|Hs0].
  { rewrite (proj2 (Z.ltb_lt 0 w)), Z.div_1_r, BV.wrap_signed by lia. done. }
  destruct (Z.leb_spec w s) as [Hle|Hlt]; [rewrite (proj2 (Z.ltb_ge s w)) by lia; now apply bvZero_ok|]. rewrite (proj2 (Z.ltb_lt s w)) by lia.
  pose proof (bv_concat s _ _ _ _ _ (bvMinusOne_ok s ltac:(lia)) (bv_extract w e x (w - 1) s He ltac:(lia) ltac:(lia))) as H1. replace (s + (w - 1 - s + 1)) with w in H1 by lia.
  pose proof (bv_ite w _ _ _ _ _ _ Hc H1 (bvRightShift_ok e w x s He Hs)) as H2. replace (w - 1 - s + 1) with (w - s) in H2 by lia.
  pose proof (BV.pow2_pos s ltac:(lia)) as Hps. pose proof (BV.pow2_pos (w - s) ltac:(lia)) as Hpw. assert (Ew : 2 ^ w = 2 ^ (w - s) * 2 ^ s) by (rewrite <- Z.pow_add_r by lia; f_equal; lia).
  assert (Hd : 0 <= x / 2 ^ s < 2 ^ (w - s)) by (split; [apply Z.div_pos; lia|apply Z.div_lt_upper_bound; lia]). rewrite BV.wrap_small in H2 by lia.
  match goal with H : bv _ w ?a |- bv _ w ?b => replace b with a; [exact H|] end. unfold BV.signed.
  assert (Et : Z.testbit x (w - 1) = negb (x <? 2 ^ (w - 1))).
  { destruct (Z.ltb_spec x (2 ^ (w - 1))); [apply (BV.testbit_high (w - 1)); lia|]. rewrite Z.testbit_true by lia. replace (x / 2 ^ (w - 1)) with 1; [done|].
    pose proof (pow2_double w Hw). apply (Z.div_unique_pos x (2 ^ (w - 1)) 1 (x - 2 ^ (w - 1))); lia. }
  rewrite Et. assert (Hcmp : 2 ^ (w - s) <= 2 ^ w) by (apply Z.pow_le_mono_r; lia). destruct (x <? 2 ^ (w - 1)); cbn [negb].
  - symmetry. apply BV.wrap_small. lia.
  - replace (x - 2 ^ w) with (x + - 2 ^ (w - s) * 2 ^ s) by lia. rewrite Z.div_add by lia. unfold BV.wrap. apply (Z.mod_unique_pos _ _ (-1)); nia.
Qed.

Lemma shift_cases_ok f g e2 sb y w amounts : (forall i, i ∈ amounts -> bv (g i) w (f i)) -> bv e2 sb y -> (forall i, i ∈ amounts -> 0 <= i < 2 ^ sb /\ i < 2 ^ 32) -> forall res v0, bv res w v0 ->
  exists r, shift_cases g e2 sb amounts res = Done r /\ bv r w (if bool_decide (y ∈ amounts) then f y else v0).
Proof.
  intros Hg He Hi. induction amounts as [|i amounts IH]; intros res v0 Hr; [exists res; done|]. cbn [shift_cases]. destruct (bv_range _ _ _ He) as [Hsb Hy].
  destruct (Hi i ltac:(set_solver)) as [H1 H2]. pose proof (bvConst32_small sb i Hsb ltac:(lia) ltac:(lia)) as Hc.
  unfold eqExpr. rewrite (bv_length _ _ _ He), (bv_length _ _ _ Hc), Z.eqb_refl. cbn.
  destruct (IH ltac:(set_solver) ltac:(set_solver) _ _ (bv_ite w _ _ _ _ _ _ (fm_eq _ _ _ _ _ He Hc) (Hg i ltac:(set_solver)) Hr)) as (r & E & Hv). exists r. split; [exact E|].
  destruct (decide (y ∈ amounts)) as [Hin|Hin].
  - rewrite bool_decide_true in Hv by done. rewrite bool_decide_true by set_solver. done.
  - rewrite bool_decide_false in Hv by done. destruct (Z.eqb_spec y i) as [->|Hne]; [rewrite bool_decide_true by set_solver; done|]. rewrite bool_decide_false by set_solver. done.
Qed.

Lemma elem_down_from n i : i ∈ down_from n <-> 0 <= i < n.
Proof. unfold down_from. rewrite elem_of_reverse, elem_of_seqZ. lia. Qed.

(** A shift by a variable amount [sv], given by a term that is wide enough for it. *)
Lemma var_shift_ok f g start v0 largest e w x shift ws sv : bv e w x -> bv shift ws sv -> w < 2 ^ 32 -> active_bits w <= ws -> largest < w ->
  (forall i, 0 <= i <= largest -> bv (g i) w (f i)) -> bv start w v0 ->
  exists r, var_shift g start largest e shift = Done r /\ bv r w (if sv <? w then if sv <=? largest then f sv else v0 else 0).
Proof.
  intros He Hs Hw32 Hab Hl Hg Hst. unfold var_shift, extractPartialShiftValue. rewrite (bv_length _ _ _ He), (bv_length _ _ _ Hs). destruct (bv_range _ _ _ He) as [Hw Hx], (bv_range _ _ _ Hs) as [Hws Hsv].
  assert (Hlog : w < 2 ^ active_bits w) by (unfold active_bits; pose proof (Z.log2_spec w Hw); rewrite Z.add_1_r; lia). pose proof (Z.log2_nonneg w). unfold active_bits in *. set (sb := Z.log2 w + 1) in *.
  pose proof (bv_extract ws shift sv (sb - 1) 0 Hs ltac:(lia) ltac:(lia)) as Hse. replace (sb - 1 - 0 + 1) with sb in Hse by lia. rewrite Z.div_1_r in Hse.
  destruct (shift_cases_ok f g _ sb _ w (down_from (largest + 1)) ltac:(intros i Hi; apply elem_down_from in Hi; apply Hg; lia) Hse ltac:(intros i Hi; apply elem_down_from in Hi; lia) start v0 Hst) as (r & -> & Hr). cbn.
  eexists. split; [done|]. assert (H2 : 2 ^ sb <= 2 ^ ws) by (apply Z.pow_le_mono_r; lia). pose proof (bvConst32_small ws w Hws ltac:(lia) ltac:(lia)) as Hc.
  pose proof (bv_ite w _ _ _ _ _ _ (fm_lt _ _ _ _ _ Hs Hc) Hr (bvZero_ok w Hw)) as H3. destruct (Z.ltb_spec sv w) as [Hlt|Hge]; [|exact H3].
  rewrite BV.wrap_small in H3 by lia. destruct (Z.leb_spec sv largest) as [Hle|Hgt]; [rewrite bool_decide_true in H3 by (apply elem_down_from; lia)|rewrite bool_decide_false in H3 by (rewrite elem_down_from; lia)]; exact H3.
Qed.

Lemma bvVarRightShift_ok e w x shift ws sv : bv e w x -> bv shift ws sv -> w < 2 ^ 32 -> active_bits w <= ws -> exists r, bvVarRightShift e shift = Done r /\ bv r w (x / 2 ^ sv).
Proof.
  intros He Hs Hw Hab. unfold bvVarRightShift. rewrite (bv_length _ _ _ He). destruct (bv_range _ _ _ He) as [Hw0 Hx], (bv_range _ _ _ Hs) as [Hws Hsv].
  destruct (var_shift_ok (fun i => x / 2 ^ i) (bvRightShift e) _ 0 (w - 1) e w x shift ws sv He Hs Hw Hab ltac:(lia) ltac:(intros i Hi; apply bvRightShift_ok; [done|lia]) (bvZero_ok w Hw0)) as (r & E & Hr).
  exists r. split; [exact E|]. destruct (Z.ltb_spec sv w); [rewrite (proj2 (Z.leb_le sv (w - 1))) in Hr by lia; exact Hr|].
  assert (2 ^ w <= 2 ^ sv) by (apply Z.pow_le_mono_r; lia). now rewrite Z.div_small by lia.
Qed.

Lemma bvVarLeftShift_ok e w x shift ws sv : bv e w x -> bv shift ws sv -> w < 2 ^ 32 -> active_bits w <= ws ->
  exists r, bvVarLeftShift e shift = Done r /\ bv r w (BV.wrap w (x * 2 ^ sv)).
Proof.
  intros He Hs Hw Hab. destruct (bv_range _ _ _ He) as [Hw0 Hx], (bv_range _ _ _ Hs) as [Hws Hsv]. unfold bvVarLeftShift. rewrite (bv_length _ _ _ He).
  destruct (var_shift_ok (fun i => BV.wrap w (x * 2 ^ i)) (bvLeftShift e) _ 0 (w - 1) e w x shift ws sv He Hs Hw Hab ltac:(lia) ltac:(intros i Hi; apply bvLeftShift_ok; [done|lia]) (bvZero_ok w Hw0)) as (r & E & Hr).
  exists r. split; [exact E|]. destruct (Z.ltb_spec sv w); [rewrite (proj2 (Z.leb_le sv (w - 1))) in Hr by lia; exact Hr|].
  replace (BV.wrap w (x * 2 ^ sv)) with 0; [exact Hr|]. unfold BV.wrap. replace sv with (sv - w + w) by lia. rewrite Z.pow_add_r, Z.mul_assoc, Z_mod_mult by lia. done.
Qed.

Lemma bvVarArithRightShift_ok e w x shift ws sv : bv e w x -> bv shift ws sv -> w < 2 ^ 32 -> active_bits w <= ws ->
  exists r, bvVarArithRightShift e shift = Done r /\ bv r w (ashr_value w x sv).
Proof.
  intros He Hs Hw Hab. destruct (bv_range _ _ _ He) as [Hw0 Hx], (bv_range _ _ _ Hs) as [Hws Hsv]. unfold bvVarArithRightShift. rewrite (bv_length _ _ _ He).
  pose proof (bvBoolExtract_ok e w x (w - 1) He ltac:(lia)) as Hc.
  destruct (var_shift_ok (ashr_value w x) _ _ _ (w - 2) e w x shift ws sv He Hs Hw Hab ltac:(lia) ltac:(intros i Hi; apply constructAShr_ok; [exact He|lia|exact Hc]) (constructAShr_ok e w x (w - 1) _ He ltac:(lia) Hc)) as (r & E & Hr).
  exists r. split; [exact E|]. destruct (Z.ltb_spec sv w); [|unfold ashr_value; now rewrite (proj2 (Z.ltb_ge sv w)) by lia]. destruct (Z.leb_spec sv (w - 2)); [done|]. now replace sv with (w - 1) by lia.
Qed.

(** The shifts by variable amounts are exact: the chain of shifts by constants that
    is built for a left, a logical or an arithmetic right shift has the shifted value, amounts from the width
    on give 0, and no assert fails, for all values of both operands. *)
Theorem variable_shifts_exact e w x shift ws sv : bv e w x -> bv shift ws sv -> w < 2 ^ 32 -> active_bits w <= ws ->
  (exists r, bvVarLeftShift e shift = Done r /\ bv r w (BV.wrap w (x * 2 ^ sv))) /\
  (exists r, bvVarRightShift e shift = Done r /\ bv r w (x / 2 ^ sv)) /\
  (exists r, bvVarArithRightShift e shift = Done r /\ bv r w (ashr_value w x sv)).
Proof. intros. split_and!; [eapply bvVarLeftShift_ok|eapply bvVarRightShift_ok|eapply bvVarArithRightShift_ok]; eassumption. Qed.

(** ** Multiplication and division by constants *)

Lemma down_from_succ n : 0 <= n -> down_from (n + 1) = n :: down_from n.
Proof.
  intros Hn. unfold down_from. rewrite seqZ_app by lia. replace (seqZ (0 + n) 1) with [n] by (cbn; f_equal; lia). apply reverse_snoc.
Qed.

(** The value of the bits from [n] on. *)
Definition high_part (n x : Z) : Z := 2 ^ n * (x / 2 ^ n).

Lemma high_part_step n x : 0 <= n -> high_part n x = high_part (n + 1) x + (if Z.testbit x n then 2 ^ n else 0).
Proof.
  intros Hn. unfold high_part. rewrite Z.pow_add_r by lia. change (2 ^ 1) with 2. pose proof (BV.pow2_pos n Hn). rewrite <- Z.div_div by lia.
  pose proof (Z_div_mod_eq_full (x / 2 ^ n) 2) as E. assert (Em : (x / 2 ^ n) mod 2 = if Z.testbit x n then 1 else 0).
  { pose proof (Z.mod_pos_bound (x / 2 ^ n) 2 ltac:(lia)). destruct (Z.testbit x n) eqn:Et; [now apply Z.testbit_true|]. apply Z.testbit_false in Et; lia. }
  rewrite Em in E. destruct (Z.testbit x n); nia.
Qed.

Definition partial_ok (w v k : Z) (res : option VCExpr) : Prop := match res with Some r => bv r w (BV.wrap w (v * k)) | None => BV.wrap w (v * k) = 0 end.

Lemma wrap_mul_pow w x s : 0 <= w -> BV.wrap w (BV.wrap w x * s) = BV.wrap w (x * s).
Proof. intros. apply BV.wrap_mul_l. Qed.

Lemma mul_bit_ok e w v add sub j res : bv e w v -> 0 <= j -> disjoint add sub -> partial_ok w v (high_part (j + 1) add - high_part (j + 1) sub) res ->
  exists res', mul_bit e w add sub j res = Done res' /\ partial_ok w v (high_part j add - high_part j sub) res'.
Proof.
  intros He Hj Hd Hp. unfold mul_bit. rewrite !(high_part_step j) by done. set (k := high_part (j + 1) add) in *. set (k' := high_part (j + 1) sub) in *.
  pose proof (Hd j Hj) as Hdj. pose proof (bvLeftShift_ok e w v j He Hj) as Hop. destruct (bv_range _ _ _ He) as [Hw _].
  destruct (Z.testbit add j), (Z.testbit sub j); try discriminate; cbn [orb andb negb check mbind outcome_bind].
  - eexists. split; [done|]. destruct res as [r|]; cbn in Hp |- *.
    + pose proof (bv_plus w _ _ _ _ Hp Hop) as H. rewrite BV.wrap_add_l, BV.wrap_add_r in H. replace (v * (k + 2 ^ j - (k' + 0))) with (v * (k - k') + v * 2 ^ j) by lia. exact H.
    + replace (BV.wrap w (v * (k + 2 ^ j - (k' + 0)))) with (BV.wrap w (v * 2 ^ j)); [exact Hop|]. replace (v * (k + 2 ^ j - (k' + 0))) with (v * (k - k') + v * 2 ^ j) by lia. rewrite <- BV.wrap_add_l, Hp. done.
  - eexists. split; [done|]. destruct res as [r|]; cbn in Hp |- *.
    + pose proof (bv_minus w _ _ _ _ Hp Hop) as H. rewrite BV.wrap_sub_l, BV.wrap_sub_r in H. replace (v * (k + 0 - (k' + 2 ^ j))) with (v * (k - k') - v * 2 ^ j) by lia. exact H.
    + pose proof (bv_uminus w _ _ Hop) as H. replace (v * (k + 0 - (k' + 2 ^ j))) with (v * (k - k') - v * 2 ^ j) by lia. rewrite <- BV.wrap_sub_l, Hp, Z.sub_0_l.
      replace (- BV.wrap w (v * 2 ^ j)) with (0 - BV.wrap w (v * 2 ^ j)) in H by lia. rewrite BV.wrap_sub_r, Z.sub_0_l in H. exact H.
  - exists res. split; [done|]. now rewrite !Z.add_0_r.
Qed.

Lemma mul_bits_ok e w v add sub : bv e w v -> disjoint add sub -> forall n res, partial_ok w v (high_part (Z.of_nat n) add - high_part (Z.of_nat n) sub) res ->
  exists res', mul_bits e w add sub (down_from (Z.of_nat n)) res = Done res' /\ partial_ok w v (add - sub) res'.
Proof.
  intros He Hd. induction n as [|n IH]; intros res Hp.
  - exists res. split; [done|]. unfold high_part in Hp. cbn in Hp. rewrite !Z.div_1_r in Hp. replace (add - sub) with (match add with 0 => 0 | Zpos y => Zpos y | Zneg y => Zneg y end - match sub with 0 => 0 | Zpos y => Zpos y | Zneg y => Zneg y end) by (destruct add, sub; done). exact Hp.
  - rewrite Nat2Z.inj_succ in Hp |- *. unfold Z.succ in *. rewrite down_from_succ by lia. cbn [mul_bits].
    destruct (mul_bit_ok e w v add sub (Z.of_nat n) res He ltac:(lia) Hd Hp) as (res1 & -> & Hp1). cbn. now apply IH.
Qed.

Lemma constructMul_ok e w v x : bv e w v -> w <= 64 -> 0 <= x < 2 ^ 64 -> exists r, constructMulByConstant e w x = Done r /\ bv r w (BV.wrap w (v * x)).
Proof.
  intros He Hw Hx. destruct (bv_range _ _ _ He) as [Hw0 Hv]. unfold constructMulByConstant. destruct (mult_constants_exact x Hx) as (add & sub & -> & Ha & Hs & Hd & Ex). cbn [mbind outcome_bind].
  rewrite !truncateToNBits_spec by lia. set (a := BV.wrap w add). set (s := BV.wrap w sub).
  assert (Hd' : disjoint a s). { intros i Hi. unfold a, s. rewrite !BV.testbit_wrap by lia. destruct (i <? w); [now apply Hd|done]. }
  assert (Ha' : 0 <= a < 2 ^ 64) by (unfold a; pose proof (BV.wrap_range w add ltac:(lia)); assert (2 ^ w <= 2 ^ 64) by (apply Z.pow_le_mono_r; lia); lia).
  assert (Hs' : 0 <= s < 2 ^ 64) by (unfold s; pose proof (BV.wrap_range w sub ltac:(lia)); assert (2 ^ w <= 2 ^ 64) by (apply Z.pow_le_mono_r; lia); lia).
  destruct (mul_bits_ok e w v a s He Hd' 64 None) as (res & E & Hp).
  { unfold partial_ok, high_part. change (Z.of_nat 64) with 64. rewrite !Z.div_small by lia. replace (v * (2 ^ 64 * 0 - 2 ^ 64 * 0)) with 0 by lia. reflexivity. }
  change (Z.of_nat 64) with 64 in E. rewrite E. cbn. eexists. split; [done|].
  assert (Ev : BV.wrap w (v * (a - s)) = BV.wrap w (v * x)).
  { rewrite <- BV.wrap_mul_r. unfold a, s. rewrite BV.wrap_sub_l, BV.wrap_sub_r, <- (BV.wrap_wrap_le w 64 (add - sub)) by lia. rewrite Ex. apply BV.wrap_mul_r. }
  destruct res as [r|]; cbn in Hp; [now rewrite Ev in Hp|]. rewrite Ev in Hp. rewrite Hp. now apply bvZero_ok.
Qed.

Lemma constructUDiv_ok e n d : bv e 32 n -> 1 <= d < 2 ^ 32 -> exists r, constructUDivByConstant e 32 d = Done r /\ bv r 32 (n / d).
Proof.
  intros He Hd. destruct (bv_range _ _ _ He) as [_ Hn]. unfold constructUDivByConstant. rewrite Z.eqb_refl. cbn [check mbind outcome_bind]. rewrite (BV.wrap_small 32 d) by lia.
  destruct (udiv_constants_exact d n Hd Hn) as (mp & sh1 & sh2 & -> & Hmp & Hs1 & Hs2 & Ef). cbn [mbind outcome_bind].
  pose proof (bv_concat 32 32 _ _ _ _ (bvZero_ok 32 ltac:(lia)) He) as H64. rewrite Z.mul_0_l, Z.add_0_l in H64. change (32 + 32) with 64 in H64.
  destruct (constructMul_ok _ 64 n mp H64 ltac:(lia) ltac:(lia)) as (t & -> & Ht). cbn [mbind outcome_bind]. rewrite BV.wrap_small in Ht by nia.
  pose proof (bv_extract 64 t _ 63 32 Ht ltac:(lia) ltac:(lia)) as Ht1. change (63 - 32 + 1) with 32 in Ht1. rewrite BV.wrap_small in Ht1 by (split; [apply Z.div_pos; nia|apply Z.div_lt_upper_bound; nia]).
  rewrite (Z.mul_comm n mp) in Ht1. pose proof (bv_minus 32 _ _ _ _ He Ht1) as Hm.
  assert (Hsh : forall s, 0 <= s < 32 -> bv (bvConst32 32 s) 32 s) by (intros s Hs; apply bvConst32_small; lia).
  destruct (bvVarRightShift_ok _ 32 _ _ 32 _ Hm (Hsh sh1 Hs1) ltac:(lia) ltac:(vm_compute; discriminate)) as (r1 & -> & Hr1). cbn [mbind outcome_bind].
  destruct (bvVarRightShift_ok _ 32 _ _ 32 _ (bv_plus 32 _ _ _ _ Hr1 Ht1) (Hsh sh2 Hs2) ltac:(lia) ltac:(vm_compute; discriminate)) as (r2 & -> & Hr2). exists r2. split; [done|].
  unfold udiv_formula in Ef. rewrite !Z.shiftr_div_pow2 in Ef by lia. now rewrite Ef in Hr2.
Qed.

Lemma constructSDiv_ok e n d : bv e 32 n -> 0 <= d < 2 ^ 32 -> 2 <= Z.abs (BV.signed 32 d) ->
  exists r, constructSDivByConstant e 32 d = Done r /\ bv r 32 (w32 (Z.quot (BV.signed 32 n) (BV.signed 32 d))).
Proof.
  intros He Hd Ha. destruct (bv_range _ _ _ He) as [_ Hn]. unfold constructSDivByConstant. rewrite Z.eqb_refl. cbn [check mbind outcome_bind]. rewrite (BV.wrap_small 32 d) by lia.
  set (sd := BV.signed 32 d) in *. set (sn := BV.signed 32 n). pose proof (BV.signed_range 32 d ltac:(lia) Hd) as Rd. pose proof (BV.signed_range 32 n ltac:(lia) Hn) as Rn. fold sd in Rd. fold sn in Rn. change (32 - 1) with 31 in *.
  assert (En : w32 sn = n) by (apply BV.wrap_signed; lia).
  destruct (sdiv_constants_exact sd sn Ha Rd Rn) as (mp & ds & sp & -> & Hmp & Hsp & -> & Hq & Ef). cbn [mbind outcome_bind].
  pose proof (bv_sext 32 e n 64 He ltac:(lia)) as H64. fold sn in H64. destruct (constructMul_ok _ 64 _ (w64 mp) H64 ltac:(lia) (BV.wrap_range 64 mp ltac:(lia))) as (t & -> & Ht). cbn [mbind outcome_bind].
  rewrite BV.wrap_mul_l, BV.wrap_mul_r in Ht. pose proof (bv_extract 64 t _ 63 32 Ht ltac:(lia) ltac:(lia)) as Hm. change (63 - 32 + 1) with 32 in Hm. rewrite wrap_div_wrap in Hm by lia.
  pose proof (bv_plus 32 _ _ _ _ He Hm) as Hnp. rewrite BV.wrap_add_r in Hnp. rewrite <- En in Hnp at 1. rewrite BV.wrap_add_l, (Z.mul_comm sn mp) in Hnp. set (Q := sn + mp * sn / 2 ^ 32) in *.
  pose proof (bv_sext 32 _ _ 64 Hnp ltac:(lia)) as He2. rewrite BV.signed_wrap in He2 by lia.
  assert (Hsh : bv (bvConst32 32 sp) 32 sp) by (apply bvConst32_small; lia).
  destruct (bvVarRightShift_ok _ 64 _ _ 32 _ He2 Hsh ltac:(lia) ltac:(vm_compute; discriminate)) as (r1 & -> & Hr1). cbn [mbind outcome_bind]. eexists. split; [done|].
  pose proof (bv_extract 64 r1 _ 31 0 Hr1 ltac:(lia) ltac:(lia)) as Hx. change (31 - 0 + 1) with 32 in Hx. rewrite Z.div_1_r, wrap_div_wrap in Hx by lia.
  pose proof (bv_ite 32 _ _ _ _ _ _ (bvBoolExtract_ok e 32 n 31 He ltac:(lia)) (bvMinusOne_ok 32 ltac:(lia)) (bvZero_ok 32 ltac:(lia))) as Hsg.
  assert (Esg : (if Z.testbit n 31 then 2 ^ 32 - 1 else 0) = w32 (Z.shiftr sn 31)).
  { rewrite shiftr_sign by lia. unfold sn, BV.signed. change (32 - 1) with 31. destruct (Z.ltb_spec n (2 ^ 31)) as [Hlt|Hge].
    - rewrite (BV.testbit_high 31 n 31) by lia. now rewrite (proj2 (Z.ltb_ge n 0)) by lia.
    - assert (Et : Z.testbit n 31 = true) by (rewrite Z.testbit_true by lia; replace (n / 2 ^ 31) with 1; [done|apply (Z.div_unique_pos n (2 ^ 31) 1 (n - 2 ^ 31)); lia]). rewrite Et. now rewrite (proj2 (Z.ltb_lt (n - 2 ^ 32) 0)) by lia. }
  rewrite Esg in Hsg. pose proof (bv_minus 32 _ _ _ _ Hx Hsg) as Hq0. rewrite BV.wrap_sub_l, BV.wrap_sub_r in Hq0. pose proof (bvConst32_ok 32 (Z.shiftr sd 31) ltac:(lia) (proj2 (BV.wrap_range 32 _ ltac:(lia)))) as Hds.
  pose proof (bv_minus 32 _ _ _ _ (bv_xor 32 _ _ _ _ Hq0 Hds) Hds) as Hres. rewrite wrap_lxor, BV.wrap_sub_l, BV.wrap_sub_r in Hres by lia.
  unfold sdiv_formula in Ef. fold Q in Ef. rewrite BV.signed_wrap, Z.shiftr_div_pow2 in Ef by lia. now rewrite Ef in Hres.
Qed.

End Meaning.

(** ** An instance

    Terms are their values. *)

Inductive term := Vec (w x : Z) | Form (b : bool) | Arr (d r : Z) (f : Z -> Z).
Inductive vtype := BVType (w : Z) | ArrayType (index value : vtype).

Definition width_of (t : term) : Z := match t with Vec w _ => w | _ => 0 end.
Definition value_of (t : term) : Z := match t with Vec _ x => x | _ => 0 end.
Definition truth_of (t : term) : bool := match t with Form b => b | _ => false end.
Definition contents_of (t : term) : Z -> Z := match t with Arr _ _ f => f | _ => fun _ => 0 end.
Definition signed_of (t : term) : Z := BV.signed (width_of t) (value_of t).

#[export] Instance vc_values (env : string -> Z -> Z) : VCOps := {|
  VCExpr := term;
  VCType := vtype;
  vc_bvType := BVType;
  vc_arrayType := ArrayType;
  vc_varExpr name t :=
    match t with ArrayType (BVType d) (BVType r) => Arr d r (fun i => BV.wrap r (env name i)) | BVType w => Vec w (BV.wrap w (env name 0)) | _ => Form false end;
  vc_readExpr a i := match a with Arr _ r f => Vec r (f (value_of i)) | _ => a end;
  vc_writeExpr a i v := match a with Arr d r f => Arr d r (fun k => if k =? value_of i then value_of v else f k) | _ => a end;
  vc_getBVLength := width_of;
  vc_bvConstExprFromInt w x := Vec w x;
  vc_bvConstExprFromLL w x := Vec w (BV.wrap w x);
  vc_bvPlusExpr w a b := Vec w (BV.wrap w (value_of a + value_of b));
  vc_bvMinusExpr w a b := Vec w (BV.wrap w (value_of a - value_of b));
  vc_bvMultExpr w a b := Vec w (BV.wrap w (value_of a * value_of b));
  vc_bvDivExpr w a b := Vec w (BV.wrap w (value_of a / value_of b));
  vc_sbvDivExpr w a b := Vec w (BV.wrap w (Z.quot (signed_of a) (signed_of b)));
  vc_bvModExpr w a b := Vec w (BV.wrap w (value_of a mod value_of b));
  vc_sbvRemExpr w a b := Vec w (BV.wrap w (Z.rem (signed_of a) (signed_of b)));
  vc_bvUMinusExpr a := Vec (width_of a) (BV.wrap (width_of a) (- value_of a));
  vc_bvNotExpr a := Vec (width_of a) (2 ^ width_of a - 1 - value_of a);
  vc_bvAndExpr a b := Vec (width_of a) (Z.land (value_of a) (value_of b));
  vc_bvOrExpr a b := Vec (width_of a) (Z.lor (value_of a) (value_of b));
  vc_bvXorExpr a b := Vec (width_of a) (Z.lxor (value_of a) (value_of b));
  vc_bvConcatExpr a b := Vec (width_of a + width_of b) (value_of a * 2 ^ width_of b + value_of b);
  vc_bvExtract a top bottom := Vec (top - bottom + 1) (BV.wrap (top - bottom + 1) (value_of a / 2 ^ bottom));
  vc_bvSignExtend a v := Vec v (BV.wrap v (signed_of a));
  vc_eqExpr a b := Form (value_of a =? value_of b);
  vc_bvLtExpr a b := Form (value_of a <? value_of b);
  vc_bvLeExpr a b := Form (value_of a <=? value_of b);
  vc_sbvLtExpr a b := Form (signed_of a <? signed_of b);
  vc_sbvLeExpr a b := Form (signed_of a <=? signed_of b);
  vc_trueExpr := Form true;
  vc_falseExpr := Form false;
  vc_notExpr a := Form (negb (truth_of a));
  vc_andExpr a b := Form (truth_of a && truth_of b);
  vc_orExpr a b := Form (truth_of a || truth_of b);
  vc_iffExpr a b := Form (eqb (truth_of a) (truth_of b));
  vc_iteExpr c a b := if truth_of c then a else b
|}.

Definition vec_value (e : term) (w x : Z) : Prop := e = Vec w x /\ 0 < w /\ 0 <= x < 2 ^ w.
Definition form_value (e : term) (b : bool) : Prop := e = Form b.
Definition arr_value (e : term) (d r : Z) (f : Z -> Z) : Prop :=
  0 < r /\ exists g, e = Arr d r g /\ (forall i, g i = f i) /\ (forall i, 0 <= f i < 2 ^ r).

Lemma vec_wrap w x : 0 < w -> vec_value (Vec w (BV.wrap w x)) w (BV.wrap w x).
Proof. intros Hw. split; [done|]. split; [done|]. apply BV.wrap_range. lia. Qed.

Lemma vec_in w x : 0 < w -> 0 <= x < 2 ^ w -> vec_value (Vec w x) w x.
Proof. done. Qed.
Lemma div_in x y w : 0 <= x < 2 ^ w -> 0 < y -> 0 <= x / y < 2 ^ w.
Proof. intros Hx Hy. pose proof (Z.div_pos x y ltac:(lia) Hy). pose proof (Z.div_le_upper_bound x y x Hy ltac:(nia)). lia. Qed.
Lemma mod_in x y w : 0 <= y < 2 ^ w -> 0 < y -> 0 <= x mod y < 2 ^ w.
Proof. intros Hy Hp. pose proof (Z.mod_pos_bound x y Hp). lia. Qed.

Ltac vec_op := cbn beta; unfold form_value; intros; repeat match goal with H : vec_value _ _ _ |- _ => let E := fresh in let Hw := fresh in let Hx := fresh in destruct H as (E & Hw & Hx); subst end;
  subst; cbn.

#[export, program] Instance vc_values_spec (env : string -> Z -> Z) : VCSpec (vc_values env) env := {|
  bv := vec_value;
  fm := form_value;
  arr := arr_value
|}.
Solve Obligations with (vec_op; first [done | congruence | apply vec_wrap; lia
  | apply vec_in; first [lia | apply BV.land_range; lia | apply BV.lor_range; lia | apply BV.lxor_range; lia | apply BV.concat_range; lia]
  | eexists; split; [apply vec_wrap; done|intros Hy; first [reflexivity | apply BV.wrap_small; first [apply div_in; lia | apply mod_in; lia]]]
  | match goal with |- (if ?k then _ else _) = _ => now destruct k | |- vec_value (if ?k then _ else _) _ _ => destruct k; now apply vec_in end]).
Next Obligation. cbn. intros env name d r _ Hr. split; [done|]. eexists. split; [done|]. split; [done|]. intros i. apply BV.wrap_range. lia. Qed.
Next Obligation.
  cbn. intros env d r a i v f x y (Hr & g & -> & Hg & Hf) (-> & _ & Hx) (-> & _ & Hy). cbn. split; [done|]. eexists. split; [done|]. split; intros k; destruct (k =? x); auto.
Qed.
Next Obligation. cbn. intros env d r a i f x (Hr & g & -> & Hg & Hf) (-> & _ & Hx). cbn. rewrite Hg. now apply vec_in. Qed.

(** ** Witnesses *)

Definition some_env : string -> Z -> Z := fun _ i => i.
Definition term32 (x : Z) : @VCExpr (vc_values some_env) := Vec 32 x.

Lemma variable_shifts_exact_witness :
  bv (term32 (2 ^ 31 + 8)) 32 (2 ^ 31 + 8) /\ bv (term32 2) 32 2 /\
  (exists r, bvVarLeftShift (term32 (2 ^ 31 + 8)) (term32 2) = Done r /\ bv r 32 32) /\
  (exists r, bvVarRightShift (term32 (2 ^ 31 + 8)) (term32 2) = Done r /\ bv r 32 (2 ^ 29 + 2)) /\
  (exists r, bvVarArithRightShift (term32 (2 ^ 31 + 8)) (term32 2) = Done r /\ bv r 32 (2 ^ 31 + 2 ^ 30 + 2 ^ 29 + 2)).
Proof.
  assert (H1 : bv (term32 (2 ^ 31 + 8)) 32 (2 ^ 31 + 8)) by (repeat split; vm_compute; congruence).
  assert (H2 : bv (term32 2) 32 2) by (repeat split; vm_compute; congruence).
  split; [exact H1|]. split; [exact H2|]. exact (variable_shifts_exact _ 32 _ _ 32 2 H1 H2 eq_refl ltac:(vm_compute; discriminate)).
Defined.


(** A division evaluated. *)
Example udiv_evaluates : constructUDivByConstant (term32 1000000007) 32 641 = Done (term32 1560062).
Proof. vm_compute. reflexivity. Qed.
