(* ===== verification/STPConstruct.v ===== *)
(** * Translation of expressions for STP

    [STPBuilder::construct] of src/lib/Solver/STPBuilder.cpp with its tables: expressions of one call
    ([constructed]), arrays and update nodes over the life of the solver
    (src/include/klee/Expr/ArrayExprHash.h).

    The tables of arrays and of update nodes compare pointers.  An array is identified by its
    value; an update node has no address in the model, so the address of the
    node [un] in an update list of [root] is the argument [un_addr root un].

    Where C++ leaves the order of the arguments of a call open, the translation of the first argument
    comes first. *)

From stdpp Require Import strings pretty.
From S2P Require Import Prelude APInt Expr ExprOrder ExprSem ExprCreate ExprCreateSound ExprTyping ExprVisitor Bits ConstantDivision STPBuilder.

Section Construct.
Context `{A : APIntOps} {V : VCOps} (UseConstructHash optimizeDivides : bool) (un_addr : Array -> UpdateNode -> Z).

(** [array_hash] in the order of insertion. *)
Record BState := mkBState {
  constructed : list (Expr * (VCExpr * Z));
  array_hash : list (Array * VCExpr);
  update_node_hash : list (Z * VCExpr)
}.

Definition B (X : Type) : Type := BState -> outcome (X * BState).
#[local] Instance B_ret : MRet B := fun X x st => Done (x, st).
#[local] Instance B_bind : MBind B := fun X Y k m st => '(x, st') ← m st; k x st'.
Definition lift {X} (o : outcome X) : B X := fun st => x ← o; Done (x, st).

(** ** Tables *)

Definition lookupArrayExpr (array : Array) : B (option VCExpr) := fun st =>
  Done (map_find (fun a b => bool_decide (a = b)) (array_hash st) array, st).
Definition hashArrayExpr (array : Array) (exp : VCExpr) : B unit := fun st =>
  Done (tt, mkBState (constructed st) (array_hash st ++ [(array, exp)]) (update_node_hash st)).
Definition lookupUpdateNodeExpr (un : Z) : B (option VCExpr) := fun st =>
  Done (map_find Z.eqb (update_node_hash st) un, st).
Definition hashUpdateNodeExpr (un : Z) (exp : VCExpr) : B unit := fun st =>
  Done (tt, mkBState (constructed st) (array_hash st) ((un, exp) :: update_node_hash st)).
Definition find_constructed (e : Expr) : B (option (VCExpr * Z)) := fun st =>
  Done (map_find Expr_eqb (constructed st) e, st).
Definition insert_constructed (e : Expr) (res : VCExpr * Z) : B unit := fun st =>
  Done (tt, mkBState ((e, res) :: constructed st) (array_hash st) (update_node_hash st)).

Definition clear_constructed : B unit := fun st => Done (tt, mkBState [] (array_hash st) (update_node_hash st)).
Definition array_hash_size : B nat := fun st => Done (length (array_hash st), st).

(** ** Constants *)

(** The words above the first of a constant of more than 64 bits. *)
Fixpoint const_words (fuel : nat) (Tmp : apint) (Res : VCExpr) : VCExpr :=
  match fuel with
  | O => Res
  | S fuel =>
    if 64 <? ap_width Tmp then
      let Tmp := ConstantExpr_Extract Tmp 64 (ap_width Tmp - 64) in
      let Width := Z.min 64 (ap_width Tmp) in
      const_words fuel Tmp (vc_bvConcatExpr (bvConst64 Width (getZExtValue (ConstantExpr_Extract Tmp 0 Width))) Res)
    else Res
  end.

Definition construct_constant (CE : apint) : VCExpr * Z :=
  let width := ap_width CE in
  (if width =? 1 then if isTrue CE then vc_trueExpr else vc_falseExpr
   else if width <=? 32 then bvConst32 width (getZExtValue CE)
   else if width <=? 64 then bvConst64 width (getZExtValue CE)
   else const_words (Z.to_nat width) CE (bvConst64 64 (getZExtValue (ConstantExpr_Extract CE 0 64))), width).

(** ** Arrays *)

Definition itostr (n : nat) : string := pretty (N.of_nat n).

(** The name of the array that is hashed as number [n]. *)
Definition unique_name (root : Array) (n : nat) : string :=
  let unique_id := itostr n in
  let uid_length := Z.of_nat (String.length unique_id) in
  let length := Z.of_nat (String.length (name root)) in
  let space := if w32 (32 - uid_length) <? length then w32 (32 - uid_length) else length in
  String.append (String.substring 0 (Z.to_nat space) (name root)) unique_id.

Definition buildArray (name : string) (indexWidth valueWidth : Z) : VCExpr :=
  vc_varExpr name (vc_arrayType (vc_bvType indexWidth) (vc_bvType valueWidth)).

(** The writes of the values of a constant array. *)
Fixpoint flush_constants (root : Array) (indices : list Z) (array_expr : VCExpr) : outcome VCExpr :=
  match indices with
  | [] => Done array_expr
  | i :: rest =>
    c ← or_abort (constantValues root !! Z.to_nat i);
    flush_constants root rest
      (vc_writeExpr array_expr (construct_constant (ConstantExpr'alloc i (domain root))).1 (construct_constant c).1)
  end.

Definition getInitialArray (root : Array) : B VCExpr :=
  hashed ← lookupArrayExpr root;
  match hashed with
  | Some array_expr => mret array_expr
  | None =>
    n ← array_hash_size;
    let array_expr := buildArray (unique_name root n) (domain root) (range root) in
    array_expr ← lift (if isConstantArray root then flush_constants root (seqZ 0 (size root)) array_expr else Done array_expr);
    _ ← hashArrayExpr root array_expr;
    mret array_expr
  end.

Definition getInitialRead (root : Array) (index : Z) : B VCExpr :=
  array ← getInitialArray root; mret (vc_readExpr array (bvConst32 32 index)).

(** ** The cases of the arithmetic operations

    [left] and [right] translate the operands [le] and [re]. *)

Definition dyn_cast_constant (e : Expr) : option apint := match e with ConstantExpr c => Some c | _ => None end.

(** Both operands, then the width of the second one, which is not [Bool]. *)
Definition both (left right : B (VCExpr * Z)) (build : Z -> VCExpr -> VCExpr -> VCExpr) : B (VCExpr * Z) :=
  '(l, _) ← left; '(r, width) ← right; _ ← lift (check (negb (width =? 1))); mret (build width l r, width).

Definition construct_mul (left right : B (VCExpr * Z)) (le : Expr) : B (VCExpr * Z) :=
  '(r, width) ← right;
  _ ← lift (check (negb (width =? 1)));
  let general := '(l, width) ← left; mret (vc_bvMultExpr width l r, width) in
  match dyn_cast_constant le with
  | Some CE =>
    if ap_width CE <=? 64 then t ← lift (constructMulByConstant r width (getZExtValue CE)); mret (t, width) else general
  | None => general
  end.

Definition construct_udiv (left right : B (VCExpr * Z)) (re : Expr) : B (VCExpr * Z) :=
  '(l, width) ← left;
  _ ← lift (check (negb (width =? 1)));
  let general := '(r, width) ← right; mret (vc_bvDivExpr width l r, width) in
  match dyn_cast_constant re with
  | Some CE =>
    if ap_width CE <=? 64 then
      let divisor := getZExtValue CE in
      if isPowerOfTwo 64 divisor then bits ← lift (bits64.indexOfSingleBit divisor); mret (bvRightShift l bits, width)
      else if optimizeDivides && (width =? 32) then t ← lift (constructUDivByConstant l width (w32 divisor)); mret (t, width)
      else general
    else general
  | None => general
  end.

(** The divisors 1 and -1 are left to STP. *)
Definition construct_sdiv (left right : B (VCExpr * Z)) (re : Expr) : B (VCExpr * Z) :=
  '(l, width) ← left;
  _ ← lift (check (negb (width =? 1)));
  let general := '(r, width) ← right; mret (vc_sbvDivExpr width l r, width) in
  match dyn_cast_constant re with
  | Some CE =>
    if optimizeDivides && negb (ap_eq CE (ap_make (ap_width CE) 1)) && negb (isAllOnes CE) && (width =? 32)
    then t ← lift (constructSDivByConstant l width (getZExtValue CE)); mret (t, width) else general
  | None => general
  end.

Definition construct_urem (left right : B (VCExpr * Z)) (re : Expr) : B (VCExpr * Z) :=
  '(l, width) ← left;
  _ ← lift (check (negb (width =? 1)));
  let general := '(r, width) ← right; mret (vc_bvModExpr width l r, width) in
  match dyn_cast_constant re with
  | Some CE =>
    if ap_width CE <=? 64 then
      let divisor := getZExtValue CE in
      if isPowerOfTwo 64 divisor then
        bits ← lift (bits64.indexOfSingleBit divisor);
        mret (if bits =? 0 then bvZero width else vc_bvConcatExpr (bvZero (width - bits)) (bvExtract l (bits - 1) 0), width)
      else if optimizeDivides && (width =? 32) then
        quotient ← lift (constructUDivByConstant l width (w32 divisor));
        quot_times_divisor ← lift (constructMulByConstant quotient width divisor);
        mret (vc_bvMinusExpr width l quot_times_divisor, width)
      else general
    else general
  | None => general
  end.

(** A constant amount goes through [unsigned]. *)
Definition construct_shift (left right : B (VCExpr * Z)) (re : Expr)
  (by_constant : Z -> VCExpr -> Z -> VCExpr) (by_term : VCExpr -> VCExpr -> outcome VCExpr) : B (VCExpr * Z) :=
  '(l, width) ← left;
  _ ← lift (check (negb (width =? 1)));
  match dyn_cast_constant re with
  | Some CE => mret (by_constant width l (w32 (ap_getLimitedValue CE (2 ^ 64 - 1))), width)
  | None => '(amount, _) ← right; t ← lift (by_term l amount); mret (t, width)
  end.

(** [And], [Or] and [Xor]: formulas or bit vectors. *)
Definition construct_bitwise (left right : B (VCExpr * Z)) (on_bools on_bvs : VCExpr -> VCExpr -> VCExpr) : B (VCExpr * Z) :=
  '(l, _) ← left; '(r, width) ← right; mret (if width =? 1 then on_bools l r else on_bvs l r, width).

Definition construct_arith (k : ArithKind) (le re : Expr) (left right : B (VCExpr * Z)) : B (VCExpr * Z) :=
  match k with
  | Add => both left right vc_bvPlusExpr
  | Sub => both left right vc_bvMinusExpr
  | Mul => construct_mul left right le
  | UDiv => construct_udiv left right re
  | SDiv => construct_sdiv left right re
  | URem => construct_urem left right re
  | SRem => both left right vc_sbvRemExpr
  | And => construct_bitwise left right vc_andExpr vc_bvAndExpr
  | Or => construct_bitwise left right vc_orExpr vc_bvOrExpr
  | Xor => construct_bitwise left right (fun l r => vc_iteExpr l (vc_notExpr r) r) vc_bvXorExpr
  | Shl => construct_shift left right re (fun _ => bvLeftShift) bvVarLeftShift
  | LShr => construct_shift left right re (fun _ => bvRightShift) bvVarRightShift
  | AShr => construct_shift left right re (fun width l s => constructAShrByConstant l s (bvBoolExtract l (width - 1))) bvVarArithRightShift
  end.

(** An order on bit vectors; the result is a formula. *)
Definition ordered (left right : B (VCExpr * Z)) (build : VCExpr -> VCExpr -> VCExpr) : B (VCExpr * Z) :=
  '(l, _) ← left; '(r, width) ← right; _ ← lift (check (negb (width =? 1))); mret (build l r, 1).

Definition construct_eq (left right : B (VCExpr * Z)) (le : Expr) : B (VCExpr * Z) :=
  '(l, _) ← left; '(r, width) ← right;
  mret (if width =? 1
        then (match dyn_cast_constant le with Some CE => if isTrue CE then r else vc_notExpr r | None => vc_iffExpr l r end, width)
        else (vc_eqExpr l r, 1)).

Definition construct_cmp (k : CmpKind) (le : Expr) (left right : B (VCExpr * Z)) : B (VCExpr * Z) :=
  match k with
  | Eq => construct_eq left right le
  | Ult => ordered left right vc_bvLtExpr
  | Ule => ordered left right vc_bvLeExpr
  | Slt => ordered left right vc_sbvLtExpr
  | Sle => ordered left right vc_sbvLeExpr
  | _ => lift Abort
  end.

Definition construct_cast (k : CastKind) (width : Z) (src : B (VCExpr * Z)) : B (VCExpr * Z) :=
  '(s, srcWidth) ← src;
  mret (match k with
        | ZExt => if srcWidth =? 1 then vc_iteExpr s (bvOne width) (bvZero width) else vc_bvConcatExpr (bvZero (width - srcWidth)) s
        | SExt => if srcWidth =? 1 then vc_iteExpr s (bvMinusOne width) (bvZero width) else vc_bvSignExtend s width
        end, width).

(** ** construct *)

(** The body of [construct] around [constructActual]. *)
Definition hash_construct (e : Expr) (actual : B (VCExpr * Z)) : B (VCExpr * Z) :=
  if negb UseConstructHash || is_constant e then actual
  else
    it ← find_constructed e;
    match it with
    | Some res => mret res
    | None => res ← actual; _ ← insert_constructed e res; mret res
    end.

Fixpoint construct (e : Expr) : B (VCExpr * Z) :=
  hash_construct e
    match e with
    | ConstantExpr CE => mret (construct_constant CE)
    | NotOptimizedExpr src => construct src
    | ReadExpr root head index =>
      array ← getArrayForUpdate root head;
      '(i, _) ← construct index;
      mret (vc_readExpr array i, range root)
    | SelectExpr cond trueExpr falseExpr =>
      '(c, _) ← construct cond; '(t, _) ← construct trueExpr; '(f, width) ← construct falseExpr;
      mret (vc_iteExpr c t f, width)
    | ConcatExpr le re =>
      '(r, _) ← construct re; '(l, _) ← construct le;
      mret (vc_bvConcatExpr l r, getWidth le + getWidth re)
    | ExtractExpr expr offset width =>
      '(src, _) ← construct expr;
      mret (if width =? 1 then bvBoolExtract src offset else vc_bvExtract src (offset + width - 1) offset, width)
    | CastExpr k src width => construct_cast k width (construct src)
    | NotExpr expr => '(t, width) ← construct expr; mret (if width =? 1 then vc_notExpr t else vc_bvNotExpr t, width)
    | BinaryExpr k le re => construct_arith k le re (construct le) (construct re)
    | CmpExpr k le re => construct_cmp k le (construct le) (construct re)
    end
with getArrayForUpdate (root : Array) (un : UpdateNode) : B VCExpr :=
  match un with
  | un_null => getInitialArray root
  | un_node next index value =>
    hashed ← lookupUpdateNodeExpr (un_addr root un);
    match hashed with
    | Some un_expr => mret un_expr
    | None =>
      array ← getArrayForUpdate root next;
      '(i, _) ← construct index; '(v, _) ← construct value;
      let un_expr := vc_writeExpr array i v in
      _ ← hashUpdateNodeExpr (un_addr root un) un_expr;
      mret un_expr
    end
  end.

(** The public [construct(e)] forgets the expressions of the call. *)
Definition construct_clear (e : Expr) : B VCExpr :=
  '(res, _) ← construct e;
  _ ← clear_constructed;
  mret res.

(** The loop of [STPSolverImpl::computeInitialValues] over the constraints. *)
Fixpoint construct_all (es : list Expr) : B (list VCExpr) :=
  match es with
  | [] => mret []
  | e :: rest => t ← construct_clear e; ts ← construct_all rest; mret (t :: ts)
  end.

Definition new_BState : BState := mkBState [] [] [].
End Construct.
