(* ===== verification/STPConstructSound.v ===== *)
(** * The translation for STP means what the expression means

    For every well-typed expression in the form the constructors leave ([translatable]) the translation
    returns, and the term has the value of the expression: a formula for width 1, a bit vector
    otherwise.  The tables keep this over any number of calls ([tables_ok]).

    Two assumptions of the code show up: different nodes that are
    translated have different addresses, and the variables of the arrays have the contents
    of the arrays ([agree]).  The examples at the end show that the code does not always ensure them. *)

From stdpp Require Import strings pretty.
From S2P Require Import Prelude APInt Expr ExprOrder ExprSem ExprCreate ExprCreateSound ExprTyping ExprVisitor Bits ConstantDivision STPBuilder STPConstruct.

(** ** Expressions that are translated *)

Definition not_bool (w : Z) : bool := negb (w =? 1).

(** Constant operands on the right: shift amounts fit [unsigned], and a division that is not left to STP is not by 0. *)
Definition constant_operand_ok (optimizeDivides : bool) (k : ArithKind) (re : Expr) : bool :=
  match re with
  | ConstantExpr c =>
    match k with
    | Shl | LShr | AShr => ap_val c <? 2 ^ 32
    | UDiv | SDiv | URem => negb (optimizeDivides && (ap_width c =? 32)) || negb (ap_val c =? 0)
    | _ => true
    end
  | _ => true
  end.

Definition bool_operator (k : ArithKind) : bool := match k with And | Or | Xor => true | _ => false end.

Definition comparison_ok (k : CmpKind) (w : Z) : bool :=
  match k with Eq => true | Ult | Ule | Slt | Sle => not_bool w | _ => false end.

Fixpoint translatable (optimizeDivides : bool) (e : Expr) : bool :=
  (getWidth e <? 2 ^ 31) &&
  match e with
  | ConstantExpr _ => true
  | NotOptimizedExpr x | NotExpr x => translatable optimizeDivides x
  | ReadExpr r h i => not_bool (domain r) && not_bool (range r) && un_translatable optimizeDivides h && translatable optimizeDivides i
  | SelectExpr c t f => translatable optimizeDivides c && translatable optimizeDivides t && translatable optimizeDivides f
  | ConcatExpr l r => translatable optimizeDivides l && translatable optimizeDivides r && not_bool (getWidth l) && not_bool (getWidth r)
  | ExtractExpr x _ _ => translatable optimizeDivides x && not_bool (getWidth x)
  | CastExpr _ x w => translatable optimizeDivides x && (getWidth x <? w)
  | BinaryExpr k l r =>
    translatable optimizeDivides l && translatable optimizeDivides r && (bool_operator k || not_bool (getWidth l)) && constant_operand_ok optimizeDivides k r
  | CmpExpr k l r => translatable optimizeDivides l && translatable optimizeDivides r && comparison_ok k (getWidth l)
  end
with un_translatable (optimizeDivides : bool) (u : UpdateNode) : bool :=
  match u with
  | un_null => true
  | un_node n i v => un_translatable optimizeDivides n && translatable optimizeDivides i && translatable optimizeDivides v
  end.

(** The nodes of the update lists are among the live ones. *)
Fixpoint live_nodes (live : Array -> UpdateNode -> bool) (e : Expr) : bool :=
  match e with
  | ConstantExpr _ => true
  | NotOptimizedExpr x | ExtractExpr x _ _ | CastExpr _ x _ | NotExpr x => live_nodes live x
  | ReadExpr r h i => un_live_nodes live r h && live_nodes live i
  | SelectExpr c t f => live_nodes live c && live_nodes live t && live_nodes live f
  | ConcatExpr l r | BinaryExpr _ l r | CmpExpr _ l r => live_nodes live l && live_nodes live r
  end
with un_live_nodes (live : Array -> UpdateNode -> bool) (r : Array) (u : UpdateNode) : bool :=
  match u with
  | un_null => true
  | un_node n i v => live r u && un_live_nodes live r n && live_nodes live i && live_nodes live v
  end.

(** No arithmetic right shift by the width or more: STP gets 0 for it, [eval] copies of the sign. *)
Definition ashr_in_bounds (rho : valuation) (k : ArithKind) (re : Expr) : bool :=
  match k, eval rho re with AShr, Some y => ap_val y <? ap_width y | _, _ => true end.

Fixpoint in_bounds (rho : valuation) (e : Expr) : bool :=
  match e with
  | ConstantExpr _ => true
  | NotOptimizedExpr x | ExtractExpr x _ _ | CastExpr _ x _ | NotExpr x => in_bounds rho x
  | ReadExpr r h i => un_in_bounds rho h && in_bounds rho i
  | SelectExpr c t f => in_bounds rho c && in_bounds rho t && in_bounds rho f
  | ConcatExpr l r | CmpExpr _ l r => in_bounds rho l && in_bounds rho r
  | BinaryExpr k l r => in_bounds rho l && in_bounds rho r && ashr_in_bounds rho k r
  end
with un_in_bounds (rho : valuation) (u : UpdateNode) : bool :=
  match u with
  | un_null => true
  | un_node n i v => un_in_bounds rho n && in_bounds rho i && in_bounds rho v
  end.

Section Sound.
Context `{A : APIntOps} {AS : APIntSpec A} {V : VCOps} {env : string -> Z -> Z} {VS : VCSpec V env}.
Context (UseConstructHash optimizeDivides : bool) (un_addr : Array -> UpdateNode -> Z) (live : Array -> UpdateNode -> bool) (U : list Array) (rho : valuation).
Hypothesis un_addr_distinct : forall r u r' u', live r u = true -> live r' u' = true -> un_addr r u = un_addr r' u' -> r = r' /\ u = u'.

Notation translatable := (translatable optimizeDivides).
Notation in_bounds := (in_bounds rho).

(** ** Meanings *)

Definition rep (t : VCExpr) (w x : Z) : Prop := if w =? 1 then 0 <= x < 2 /\ fm t (x =? 1) else bv t w x.

(** The variables of the symbolic arrays have the contents of the arrays. *)
Definition agree (st : BState) : Prop :=
  forall n root t, array_hash st !! n = Some (root, t) -> isConstantArray root = false ->
  forall i, 0 <= i < 2 ^ domain root -> BV.wrap (range root) (env (unique_name root n) i) = BV.wrap (range root) (rho root i).

Definition value (st : BState) (e : Expr) (x : Z) : Prop :=
  agree st -> forall v, eval rho e = Some v -> in_bounds e = true -> x = ap_val v.
Definition means (st : BState) (e : Expr) (t : VCExpr) : Prop := exists x, rep t (getWidth e) x /\ value st e x.

Definition array_means (st : BState) (root : Array) (t : VCExpr) : Prop :=
  exists f, arr t (domain root) (range root) f /\
    (agree st -> forall i v, 0 <= i < 2 ^ domain root -> initial_value rho root i = Some v -> f i = v).
Definition updates_mean (st : BState) (root : Array) (un : UpdateNode) (t : VCExpr) : Prop :=
  exists f, arr t (domain root) (range root) f /\
    (agree st -> forall us, eval_updates rho root un = Some us -> un_in_bounds rho un = true ->
     forall i v, 0 <= i < 2 ^ domain root -> read_value rho root us i = Some v -> f i = v).

Record tables_ok (st : BState) : Prop := {
  constructed_ok e t w : (e, (t, w)) ∈ constructed st -> well_typed e = true /\ w = getWidth e /\ means st e t;
  arrays_ok root t : (root, t) ∈ array_hash st -> array_means st root t;
  nodes_ok a t : (a, t) ∈ update_node_hash st -> exists root un, live root un = true /\ a = un_addr root un /\ updates_mean st root un t;
  hashed_in : (array_hash st).*1 ⊆ U;
  hashed_once : NoDup (array_hash st).*1
}.

Definition grows (st st' : BState) : Prop := array_hash st `prefix_of` array_hash st'.

#[local] Instance grows_preorder : PreOrder grows.
Proof. split; [intros ?; exists []; now rewrite app_nil_r|intros x y z [l Hl] [l' Hl']; exists (l ++ l'); rewrite Hl', Hl; now rewrite app_assoc]. Qed.

Lemma agree_grows st st' : grows st st' -> agree st' -> agree st.
Proof. intros [l Hl] H n root t Hn. apply (H n root t). rewrite Hl. now apply lookup_app_l_Some. Qed.
Lemma value_grows st st' e x : grows st st' -> value st e x -> value st' e x.
Proof. intros G H Ag. apply H. now apply agree_grows with st'. Qed.
Lemma means_grows st st' e t : grows st st' -> means st e t -> means st' e t.
Proof. intros G (x & H & Hv). exists x. eauto using value_grows. Qed.
Lemma array_means_grows st st' root t : grows st st' -> array_means st root t -> array_means st' root t.
Proof. intros G (f & H & Hv). exists f. split; [done|]. intros Ag. apply Hv. now apply agree_grows with st'. Qed.
Lemma updates_mean_grows st st' root un t : grows st st' -> updates_mean st root un t -> updates_mean st' root un t.
Proof. intros G (f & H & Hv). exists f. split; [done|]. intros Ag. apply Hv. now apply agree_grows with st'. Qed.

(** ** Computations that keep the tables *)

Definition from {X} (st : BState) (m : B X) (Q : BState -> X -> Prop) : Prop :=
  exists x st', m st = Done (x, st') /\ grows st st' /\ tables_ok st' /\ Q st' x.

Lemma from_bind {X Y} st (m : B X) (k : X -> B Y) Q R :
  from st m Q -> (forall x st', grows st st' -> tables_ok st' -> Q st' x -> from st' (k x) R) -> from st (B_bind X Y k m) R.
Proof.
  intros (x & st1 & E & G & O & Hq) Hk. destruct (Hk x st1 G O Hq) as (y & st2 & E2 & G2 & O2 & H2).
  exists y, st2. unfold B_bind. rewrite E. cbn. split; [done|]. split; [exact (transitivity G G2)|done].
Qed.
Lemma from_ret {X} st (x : X) (Q : BState -> X -> Prop) : tables_ok st -> Q st x -> from st (B_ret X x) Q.
Proof. intros O H. exists x, st. split; [done|]. split; [reflexivity|done]. Qed.
Lemma from_lift {X} st (o : outcome X) x (Q : BState -> X -> Prop) : tables_ok st -> o = Done x -> Q st x -> from st (lift o) Q.
Proof. intros O E H. exists x, st. unfold lift. rewrite E. split; [done|]. split; [reflexivity|done]. Qed.

(** ** Constants *)

Lemma extract_value c o w : ap_valid c = true -> 0 <= o -> 0 < w -> o + w <= ap_width c ->
  ConstantExpr_Extract c o w = APInt w (BV.wrap w (ap_val c / 2 ^ o)).
Proof.
  intros Hc Ho Hw Hle. assert (Ev : eval rho (ExtractExpr (ConstantExpr c) o w) = Some (APInt w (BV.wrap w (ap_val c / 2 ^ o)))).
  { cbn. rewrite Hc. cbn. unfold eval_extract. rewrite (proj2 (Z.leb_le 0 o)), (proj2 (Z.ltb_lt 0 w)), (proj2 (Z.leb_le _ _)) by lia. done. }
  apply const_extract in Ev. now apply eval_const_inv in Ev as [-> _].
Qed.

(** [Tmp] holds the bits of [CE] from [o] on, [Res] those below and the first word of [Tmp]. *)
Lemma const_words_ok fuel CE o Res : ap_valid CE = true -> 0 <= o < ap_width CE -> ap_width CE - o <= Z.of_nat fuel ->
  (let wr := o + Z.min 64 (ap_width CE - o) in bv Res wr (BV.wrap wr (ap_val CE))) ->
  bv (const_words fuel (APInt (ap_width CE - o) (ap_val CE / 2 ^ o)) Res) (ap_width CE) (ap_val CE).
Proof.
  intros HC. apply ap_valid_spec in HC as [Hw Hx]. revert o Res. induction fuel as [|fuel IH]; intros o Res Ho Hf HR; cbv zeta in HR; cbn [const_words ap_width]; [lia|].
  destruct (Z.ltb_spec 64 (ap_width CE - o)) as [Hlt|Hge].
  - rewrite Z.min_l in HR by lia. set (W := ap_width CE) in *. set (x := ap_val CE) in *. pose proof (BV.pow2_pos o ltac:(lia)) as Hpo.
    assert (Hd : forall s, 0 <= s < W -> 0 <= x / 2 ^ s < 2 ^ (W - s)).
    { intros s Hs. pose proof (BV.pow2_pos s ltac:(lia)). split; [apply Z.div_pos; lia|apply Z.div_lt_upper_bound; [lia|]]. rewrite <- Z.pow_add_r by lia. replace (s + (W - s)) with W by lia. lia. }
    rewrite extract_value; [|apply ap_valid_spec; cbn; split; [lia|apply Hd; lia]|lia|cbn;lia|cbn; lia]. cbn [ap_width ap_val].
    rewrite Z.div_div, <- Z.pow_add_r by (try apply BV.pow2_pos; lia). rewrite BV.wrap_small by (replace (W - o - 64) with (W - (o + 64)) by lia; apply Hd; lia).
    replace (W - o - 64) with (W - (o + 64)) by lia. set (m := Z.min 64 (W - (o + 64))). assert (Hm : 0 < m <= 64) by lia.
    rewrite extract_value; [|apply ap_valid_spec; cbn; split; [lia|apply Hd; lia]|lia|lia|cbn; lia]. cbn [ap_width ap_val]. rewrite Z.div_1_r.
    unfold getZExtValue. rewrite ap_getZExtValue_spec; [|apply ap_valid_spec; cbn; split; [lia|apply BV.wrap_range; lia]|cbn; lia]. cbn [ap_val].
    apply IH; [lia|lia|]. cbv zeta. fold m.
    pose proof (bv_concat m (o + 64) _ _ _ _ (bvConst64_ok m (BV.wrap m (x / 2 ^ (o + 64))) Hm) HR) as H1. rewrite BV.wrap_wrap in H1 by lia.
    replace (o + 64 + m) with (m + (o + 64)) by lia. replace (BV.wrap (m + (o + 64)) x) with (BV.wrap m (x / 2 ^ (o + 64)) * 2 ^ (o + 64) + BV.wrap (o + 64) x); [exact H1|].
    unfold BV.wrap. replace (2 ^ (m + (o + 64))) with (2 ^ (o + 64) * 2 ^ m) by (rewrite <- Z.pow_add_r by lia; f_equal; lia).
    pose proof (BV.pow2_pos (o + 64) ltac:(lia)). pose proof (BV.pow2_pos m ltac:(lia)). rewrite Z.rem_mul_r by lia. lia.
  - rewrite Z.min_r in HR by lia. replace (o + (ap_width CE - o)) with (ap_width CE) in HR by lia. rewrite BV.wrap_small in HR by lia. done.
Qed.

Lemma constant_rep CE : ap_valid CE = true -> rep (construct_constant CE).1 (ap_width CE) (ap_val CE).
Proof.
  intros HC. pose proof (proj1 (ap_valid_spec CE) HC) as [Hw Hx]. unfold rep, construct_constant, getZExtValue. cbn [fst]. destruct (Z.eqb_spec (ap_width CE) 1) as [E1|E1].
  { rewrite E1 in Hx. split; [lia|]. rewrite isTrue_spec, E1 by done. cbn [Z.eqb Pos.eqb andb]. destruct (Z.eqb_spec (ap_val CE) 0) as [->|H0]; [apply fm_false|].
    replace (ap_val CE) with 1 by lia. apply fm_true. }
  destruct (Z.leb_spec (ap_width CE) 32) as [H32|H32].
  { rewrite ap_getZExtValue_spec by (done || lia). assert (2 ^ ap_width CE <= 2 ^ 32) by (apply Z.pow_le_mono_r; lia). apply bvConst32_small; lia. }
  destruct (Z.leb_spec (ap_width CE) 64) as [H64|H64].
  { rewrite ap_getZExtValue_spec by (done || lia). pose proof (bvConst64_ok (ap_width CE) (ap_val CE) ltac:(lia)) as H. now rewrite BV.wrap_small in H by lia. }
  pose proof (const_words_ok (Z.to_nat (ap_width CE)) CE 0 (bvConst64 64 (ap_getZExtValue (ConstantExpr_Extract CE 0 64))) HC ltac:(lia) ltac:(lia)) as H.
  rewrite Z.sub_0_r, Z.div_1_r, Z.add_0_l in H. replace (APInt (ap_width CE) (ap_val CE)) with CE in H by now destruct CE. apply H. cbv zeta. rewrite Z.min_l by lia.
  rewrite extract_value, ap_getZExtValue_spec, Z.div_1_r by (first [done|lia|cbn; lia|apply ap_valid_spec; cbn; split; [lia|apply BV.wrap_range; lia]]). cbn [ap_val].
  pose proof (bvConst64_ok 64 (BV.wrap 64 (ap_val CE)) ltac:(lia)) as H1. now rewrite BV.wrap_wrap in H1 by lia.
Qed.

Lemma rep_bv t w x : rep t w x -> w <> 1 -> bv t w x.
Proof. unfold rep. intros H Hw. now rewrite (proj2 (Z.eqb_neq w 1)) in H. Qed.
Lemma bv_rep t w x : bv t w x -> w <> 1 -> rep t w x.
Proof. unfold rep. intros H Hw. now rewrite (proj2 (Z.eqb_neq w 1)). Qed.
Lemma fm_rep t b : fm t b -> rep t 1 (b2z b).
Proof. intros H. split; [destruct b; cbn; lia|]. now destruct b. Qed.
Lemma constant_bv CE : ap_valid CE = true -> ap_width CE <> 1 -> bv (construct_constant CE).1 (ap_width CE) (ap_val CE).
Proof. intros H H1. apply rep_bv; [now apply constant_rep|done]. Qed.

(** ** Arrays *)

Lemma flush_ok root : array_ok root = true -> isConstantArray root = true -> domain root <> 1 -> range root <> 1 ->
  forall indices t f, (forall i, i ∈ indices -> 0 <= i < size root) -> arr t (domain root) (range root) f ->
  exists t' g, flush_constants root indices t = Done t' /\ arr t' (domain root) (range root) g /\
    (forall i, i ∈ indices -> ap_val <$> constantValues root !! Z.to_nat i = Some (g i)) /\ (forall i, i ∉ indices -> g i = f i).
Proof.
  intros Hr Hc Hd1 Hr1. pose proof Hr as Hr'. unfold array_ok, isSymbolicArray in Hr'. rewrite Hc in Hr'. cbn in Hr'. split_bools.
  induction indices as [|i rest IH]; intros t f Hi Ht; cbn [flush_constants].
  { exists t, f. split; [done|]. split; [done|]. split; [|done]. intros i He. now apply elem_of_nil in He. }
  pose proof (Hi i ltac:(now left)) as Hb. destruct (lookup_lt_is_Some_2 (constantValues root) (Z.to_nat i)) as [c Ec]; [lia|]. rewrite Ec. cbn [or_abort mbind outcome_bind].
  destruct (array_ok_const _ _ _ Hr Ec) as [Vc Wc]. unfold ConstantExpr'alloc. rewrite ap_make_spec by lia. rewrite BV.wrap_small by lia.
  assert (Hbi : bv (construct_constant (APInt (domain root) i)).1 (domain root) i) by (apply (constant_bv (APInt (domain root) i)); [apply ap_valid_spec; cbn; lia|done]).
  pose proof (constant_bv c Vc ltac:(lia)) as Hbc. rewrite Wc in Hbc.
  destruct (IH _ _ ltac:(intros j Hj; apply Hi; now right) (arr_write _ _ _ _ _ _ _ _ Ht Hbi Hbc)) as (t' & g & E & Hg & Hin & Hout).
  exists t', g. split; [exact E|]. split; [done|]. split.
  - intros j Hj. destruct (decide (j ∈ rest)); [now apply Hin|]. assert (j = i) as -> by set_solver. rewrite Hout, Z.eqb_refl, Ec by done. done.
  - intros j Hj. rewrite Hout by set_solver. rewrite (proj2 (Z.eqb_neq j i)) by set_solver. done.
Qed.

Lemma agree_snoc st root t : agree (mkBState (constructed st) (array_hash st ++ [(root, t)]) (update_node_hash st)) ->
  isConstantArray root = false ->
  forall i, 0 <= i < 2 ^ domain root -> BV.wrap (range root) (env (unique_name root (length (array_hash st))) i) = BV.wrap (range root) (rho root i).
Proof. intros Ag. apply (Ag _ root t). cbn. now rewrite lookup_app_r, Nat.sub_diag by lia. Qed.

(** New tables with an entry more. *)
Lemma tables_add_array st root t : tables_ok st -> root ∈ U -> root ∉ (array_hash st).*1 ->
  (let st' := mkBState (constructed st) (array_hash st ++ [(root, t)]) (update_node_hash st) in array_means st' root t) ->
  from st (hashArrayExpr root t) (fun st' _ => array_means st' root t).
Proof.
  intros [Hc Ha Hn Hi Ho] HU Hnew Ht. eexists _, _. split; [done|]. set (st' := mkBState _ _ _) in *. assert (G : grows st st') by (exists [(root, t)]; done). split; [done|]. split; [|done].
  split; cbn; [..|rewrite fmap_app; set_solver|rewrite fmap_app; apply NoDup_app; split; [done|]; split; [cbn; set_solver|apply NoDup_singleton]].
  - intros e t' w (H1 & H2 & H3)%Hc. eauto using means_grows.
  - intros root' t' [H|H]%elem_of_app; [eauto using array_means_grows|]. apply list_elem_of_singleton in H as [= -> ->]. done.
  - intros a t' (r & u & Hl & E & H)%Hn. eauto 6 using updates_mean_grows.
Qed.

Lemma tables_add_node st root un t : tables_ok st -> live root un = true -> updates_mean st root un t ->
  from st (hashUpdateNodeExpr (un_addr root un) t) (fun st' _ => updates_mean st' root un t).
Proof.
  intros [Hc Ha Hn Hi Ho] Hl Ht. eexists _, _. split; [done|]. set (st' := mkBState _ _ _) in *. assert (G : grows st st') by (exists []; now rewrite app_nil_r). split; [done|].
  split; [|now apply updates_mean_grows with st]. split; cbn; [..|done|done].
  - intros e t' w (H1 & H2 & H3)%Hc. eauto using means_grows.
  - intros root' t' H%Ha. eauto using array_means_grows.
  - intros a t' [H|H]%elem_of_cons; [injection H as -> ->; eauto 6 using updates_mean_grows|]. apply Hn in H as (r & u & ? & E & H). eauto 6 using updates_mean_grows.
Qed.

Lemma tables_add_expr st e t : tables_ok st -> well_typed e = true -> means st e t ->
  from st (insert_constructed e (t, getWidth e)) (fun st' _ => means st' e t).
Proof.
  intros [Hc Ha Hn Hi Ho] He Ht. eexists _, _. split; [done|]. set (st' := mkBState _ _ _) in *. assert (G : grows st st') by (exists []; now rewrite app_nil_r). split; [done|].
  split; [|now apply means_grows with st]. split; cbn; [..|done|done].
  - intros e' t' w [H|H]%elem_of_cons; [injection H as -> -> ->; eauto using means_grows|]. apply Hc in H as (H1 & H2 & H3). eauto using means_grows.
  - intros root' t' H%Ha. eauto using array_means_grows.
  - intros a t' (r & u & ? & E & H)%Hn. eauto 6 using updates_mean_grows.
Qed.

Lemma map_find_none (m : list (Array * VCExpr)) k : map_find (fun a b => bool_decide (a = b)) m k = None -> k ∉ m.*1.
Proof.
  induction m as [|[k' y] m IH]; cbn; [set_solver|]. case_bool_decide; [done|]. intros H'%IH. set_solver.
Qed.

Lemma getInitialArray_ok st root : tables_ok st -> root ∈ U -> array_ok root = true -> domain root <> 1 -> range root <> 1 ->
  from st (getInitialArray root) (fun st' t => array_means st' root t).
Proof.
  intros O HU Hr Hd1 Hr1. unfold getInitialArray. eapply (from_bind _ _ _ (fun st' h => st' = st /\ h = map_find (fun a b => bool_decide (a = b)) (array_hash st) root)).
  { eexists _, _. split; [done|]. split; [reflexivity|]. done. }
  intros h st' _ _ [-> ->]. destruct (map_find _ _ _) as [t|] eqn:Ef.
  { apply map_find_elem in Ef as (root' & Hin & Heq). apply bool_decide_eq_true in Heq as <-. apply from_ret; [done|]. now apply arrays_ok. }
  eapply (from_bind _ _ _ (fun st' n => st' = st /\ n = length (array_hash st))).
  { eexists _, _. split; [done|]. split; [reflexivity|]. done. }
  intros n st' _ _ [-> ->]. set (nm := unique_name _ _). pose proof (array_ok_range root Hr) as Hr0. assert (Hd0 : 0 < domain root) by (unfold array_ok in Hr; split_bools; done).
  pose proof (arr_var nm (domain root) (range root) Hd0 Hr0) as Hv. fold (buildArray nm (domain root) (range root)) in Hv.
  eapply (from_bind _ _ _ (fun st1 t => st1 = st /\ forall st', st' = mkBState (constructed st) (array_hash st ++ [(root, t)]) (update_node_hash st) -> array_means st' root t)).
  { destruct (isConstantArray root) eqn:Hc.
    - destruct (flush_ok root Hr Hc Hd1 Hr1 (seqZ 0 (size root)) _ _ ltac:(intros i Hi%elem_of_seqZ; lia) Hv) as (t & g & E & Hg & Hin & _). apply (from_lift _ _ t); [done|done|]. split; [done|].
      intros st' _. exists g. split; [done|]. intros _ i v Hi Ei. unfold initial_value in Ei. rewrite Hc in Ei. specialize (Hin i). rewrite Ei in Hin.
      assert (i ∈ seqZ 0 (size root)) as Hs; [|apply Hin in Hs; congruence]. apply elem_of_seqZ. destruct (constantValues root !! Z.to_nat i) eqn:El; [|done]. apply lookup_lt_Some in El.
      unfold array_ok, isSymbolicArray in Hr. rewrite Hc in Hr. cbn in Hr. split_bools. lia.
    - apply (from_lift _ _ (buildArray nm (domain root) (range root))); [done|done|]. split; [done|]. intros st' ->. eexists. split; [exact Hv|]. intros Ag i v Hi Ei. unfold initial_value in Ei. rewrite Hc in Ei.
      injection Ei as <-. now apply (agree_snoc st root _ Ag Hc). }
  intros t st' _ _ [-> Ht]. eapply from_bind; [apply tables_add_array; [done|done|now apply map_find_none|now apply Ht]|]. intros ? st' _ O' H'. now apply from_ret.
Qed.

(** ** Arithmetic *)

Definition translates (e : Expr) (st : BState) (res : VCExpr * Z) : Prop := res.2 = getWidth e /\ means st e res.1.

Definition arith_val (k : ArithKind) (w x y q : Z) : Prop := (k = AShr -> y < w) -> forall v, arith_sem k w x y = Some v -> q = v.

Lemma means_arith st k le re t x y q : getWidth le = getWidth re -> rep t (getWidth le) q -> value st le x -> value st re y ->
  arith_val k (getWidth le) x y q -> means st (BinaryExpr k le re) t.
Proof.
  intros Hw Ht Hx Hy Hq. exists q. split; [done|]. intros Ag v Ev Hb. apply eval_binary_inv in Ev as (vx & vy & Ex & Ey & _ & _ & Ew & _ & Hs).
  cbn [STPConstructSound.in_bounds] in Hb. apply andb_true_iff in Hb as [[Hbl Hbr]%andb_true_iff Hba]. rewrite (Hx Ag vx Ex Hbl), (Hy Ag vy Ey Hbr) in Hq. rewrite (eval_width _ _ _ Ex) in Hq.
  apply Hq; [|done]. intros ->. unfold ashr_in_bounds in Hba. rewrite Ey in Hba. apply Z.ltb_lt in Hba. lia.
Qed.

Lemma value_const st c : ap_valid c = true -> value st (ConstantExpr c) (ap_val c).
Proof. intros Hc _ v [-> _]%eval_const_inv _. done. Qed.

Lemma not_bool_spec w : not_bool w = true <-> w <> 1.
Proof. unfold not_bool. rewrite negb_true_iff, Z.eqb_neq. done. Qed.

Lemma dyn_cast_some e c : dyn_cast_constant e = Some c -> e = ConstantExpr c.
Proof. destruct e; cbn; congruence. Qed.

Section Operands.
Context (k : ArithKind) (le re : Expr) (left right : B (VCExpr * Z)).
Hypothesis left_ok : forall st, tables_ok st -> from st left (translates le).
Hypothesis right_ok : forall st, tables_ok st -> from st right (translates re).
Hypothesis Hwt : well_typed (BinaryExpr k le re) = true.
Hypothesis Htr : translatable (BinaryExpr k le re) = true.

Let Hwidth : getWidth le = getWidth re.
Proof. cbn in Hwt. split_bools. done. Qed.

(** The result of an operation on the constructed operands. *)
Lemma operands_mean st l r t w : means st le l -> means st re r -> w = getWidth le ->
  (forall x y, rep l w x -> rep r w y -> exists q, rep t w q /\ arith_val k w x y q) -> translates (BinaryExpr k le re) st (t, w).
Proof.
  intros (x & Hx & Vx) (y & Hy & Vy) -> H. rewrite <- Hwidth in Hy. destruct (H x y Hx Hy) as (q & Ht & Hq). split; [done|]. cbn. now apply means_arith with x y q.
Qed.
Lemma constant_operand_means st l c t w : means st le l -> re = ConstantExpr c -> w = getWidth le -> ap_valid c = true ->
  (forall x, rep l w x -> exists q, rep t w q /\ arith_val k w x (ap_val c) q) -> translates (BinaryExpr k le re) st (t, w).
Proof.
  intros (x & Hx & Vx) -> -> Hc H. destruct (H x Hx) as (q & Ht & Hq). split; [done|]. cbn. apply means_arith with x (ap_val c) q; auto. now apply value_const.
Qed.

Definition builds (build : Z -> VCExpr -> VCExpr -> VCExpr) : Prop :=
  forall w l r x y, bv l w x -> bv r w y -> exists q, bv (build w l r) w q /\ arith_val k w x y q.

Lemma builds_mean build st l r : builds build -> getWidth le <> 1 -> means st le l -> means st re r -> translates (BinaryExpr k le re) st (build (getWidth re) l r, getWidth re).
Proof.
  intros Hb H1 Ml Mr. rewrite <- Hwidth. apply (operands_mean st l r); auto. intros x y Hx Hy. destruct (Hb _ l r x y (rep_bv _ _ _ Hx H1) (rep_bv _ _ _ Hy H1)) as (q & Hq & Hv).
  exists q. split; [now apply bv_rep|done].
Qed.

Lemma check_width_ok {X} st w (m : B X) Q : tables_ok st -> w <> 1 -> from st m Q -> from st (B_bind unit X (fun _ => m) (lift (check (negb (w =? 1))))) Q.
Proof.
  intros O Hw H. eapply (from_bind _ _ _ (fun st' _ => st' = st)); [|now intros ? ? _ _ ->]. apply (from_lift _ _ tt); [done| |done]. unfold check. now rewrite (proj2 (Z.eqb_neq w 1)).
Qed.

Lemma both_ok build st : tables_ok st -> builds build -> getWidth le <> 1 -> from st (both left right build) (translates (BinaryExpr k le re)).
Proof.
  intros O Hb H1. unfold both. eapply from_bind; [now apply left_ok|]. intros [l w] st1 G1 O1 [Ew Ml]. cbn in Ew, Ml. eapply from_bind; [now apply right_ok|].
  intros [r w'] st2 G2 O2 [Ew' Mr]. cbn in Ew', Mr. subst. apply check_width_ok; [done|congruence|]. apply from_ret; [done|]. apply builds_mean; eauto using means_grows.
Qed.

(** A second operand left to STP, after the first one. *)
Lemma general_ok build st l : tables_ok st -> builds build -> getWidth le <> 1 -> means st le l ->
  from st (B_bind _ _ (fun '(r, width) => B_ret _ (build width l r, width)) right) (translates (BinaryExpr k le re)).
Proof.
  intros O Hb H1 Ml. eapply from_bind; [now apply right_ok|]. intros [r w'] st2 G2 O2 [Ew' Mr]. cbn in Ew', Mr. subst. apply from_ret; [done|]. apply builds_mean; eauto using means_grows.
Qed.

Lemma lift_term_ok st (o : outcome VCExpr) (w : Z) (Q : BState -> VCExpr * Z -> Prop) : tables_ok st -> (exists t, o = Done t /\ Q st (t, w)) ->
  from st (B_bind _ _ (fun t => B_ret _ (t, w)) (lift o)) Q.
Proof.
  intros O (t & E & H). eapply (from_bind _ _ _ (fun st' t' => st' = st /\ t' = t)); [now apply (from_lift _ _ t)|]. intros ? ? _ _ [-> ->]. now apply from_ret.
Qed.

Lemma mul_ok st : k = Mul -> tables_ok st -> getWidth le <> 1 -> from st (construct_mul left right le) (translates (BinaryExpr k le re)).
Proof.
  intros Hk O H1. unfold construct_mul. eapply from_bind; [now apply right_ok|]. intros [r w] st1 G1 O1 [Ew Mr]. cbn in Ew, Mr. subst w. apply check_width_ok; [done|congruence|].
  assert (Hg : from st1 (B_bind _ _ (fun '(l, width) => B_ret _ (vc_bvMultExpr width l r, width)) left) (translates (BinaryExpr k le re))).
  { eapply from_bind; [now apply left_ok|]. intros [l w] st2 G2 O2 [Ew Ml]. cbn in Ew, Ml. subst w. apply from_ret; [done|]. rewrite Hwidth. apply (builds_mean vc_bvMultExpr); eauto using means_grows.
    intros w l' r' x y Hx Hy. eexists. split; [exact (bv_mult _ _ _ _ _ Hx Hy)|]. rewrite Hk. intros _ v [= <-]. done. }
  destruct (dyn_cast_constant le) as [CE|] eqn:Ec; [|exact Hg]. destruct (Z.leb_spec (ap_width CE) 64) as [H64|]; [|exact Hg].
  apply dyn_cast_some in Ec. assert (Vc : ap_valid CE = true) by (rewrite Ec in Hwt; cbn in Hwt; split_bools; done). assert (Wc : ap_width CE = getWidth le) by now rewrite Ec.
  apply lift_term_ok; [done|]. destruct Mr as (y & Hy & Vy). unfold getZExtValue. rewrite ap_getZExtValue_spec by done.
  pose proof (proj1 (ap_valid_spec CE) Vc) as [Hc0 Hc]. assert (2 ^ ap_width CE <= 2 ^ 64) by (apply Z.pow_le_mono_r; lia).
  destruct (constructMul_ok r (getWidth re) y (ap_val CE) (rep_bv _ _ _ Hy ltac:(congruence)) ltac:(lia) ltac:(lia)) as (t & E & Ht).
  exists t. split; [exact E|]. split; [done|]. cbn. rewrite <- Hwidth in Ht. eapply means_arith; [done|apply bv_rep; [exact Ht|done]|rewrite Ec; now apply value_const|exact Vy|]. rewrite Hk. intros _ v [= <-]. now rewrite Z.mul_comm.
Qed.

(** The first operand of a division or a shift, its width checked. *)
Lemma first_ok st (rest : VCExpr -> Z -> B (VCExpr * Z)) : tables_ok st -> getWidth le <> 1 ->
  (forall l st1, tables_ok st1 -> means st1 le l -> from st1 (rest l (getWidth le)) (translates (BinaryExpr k le re))) ->
  from st (B_bind _ _ (fun '(l, width) => B_bind _ _ (fun _ => rest l width) (lift (check (negb (width =? 1))))) left) (translates (BinaryExpr k le re)).
Proof.
  intros O H1 H. eapply from_bind; [now apply left_ok|]. intros [l w] st1 G1 O1 [Ew Ml]. cbn in Ew, Ml. subst w. apply check_width_ok; auto.
Qed.

Let constant_ok c : re = ConstantExpr c -> ap_valid c = true /\ ap_width c = getWidth le /\ constant_operand_ok optimizeDivides k (ConstantExpr c) = true.
Proof. intros E. pose proof Hwidth as Hw. cbn in Hwt, Htr. split_bools. rewrite E in *. done. Qed.

Lemma power_of_two c : ap_valid c = true -> ap_width c <= 64 -> isPowerOfTwo 64 (ap_val c) = true ->
  exists s, 0 <= s < ap_width c /\ ap_val c = 2 ^ s /\ bits64.indexOfSingleBit (ap_val c) = Done s.
Proof.
  intros [Hw Hc]%ap_valid_spec H64 Hp. assert (2 ^ ap_width c <= 2 ^ 64) by (apply Z.pow_le_mono_r; lia). apply isPowerOfTwo_spec in Hp as (s & Hs & E); [|lia|lia].
  assert (s < ap_width c) by (apply (Z.pow_lt_mono_r_iff 2); lia). exists s. rewrite E. split; [lia|]. split; [done|]. apply indexOfSingleBit_pow2. lia.
Qed.

Lemma udiv_ok st : k = UDiv -> tables_ok st -> getWidth le <> 1 -> from st (construct_udiv optimizeDivides left right re) (translates (BinaryExpr k le re)).
Proof.
  intros Hk O H1. unfold construct_udiv. apply first_ok; [done|done|]. intros l st1 O1 Ml.
  assert (Hg : from st1 (B_bind _ _ (fun '(r, width) => B_ret _ (vc_bvDivExpr width l r, width)) right) (translates (BinaryExpr k le re))).
  { apply general_ok; auto. intros w l' r' x y Hx Hy. destruct (bv_div w _ _ _ _ Hx Hy) as (q & Hq & Eq). exists q. split; [done|]. rewrite Hk. intros _ v. cbn. destruct (Z.eqb_spec y 0); [done|]. intros [= <-]. auto. }
  destruct (dyn_cast_constant re) as [CE|] eqn:Ec; [|exact Hg]. apply dyn_cast_some in Ec. destruct (constant_ok CE Ec) as (Vc & Wc & Hco).
  destruct (Z.leb_spec (ap_width CE) 64) as [H64|]; [|exact Hg]. unfold getZExtValue. rewrite ap_getZExtValue_spec by done. destruct (isPowerOfTwo 64 (ap_val CE)) eqn:Hp.
  - destruct (power_of_two CE Vc H64 Hp) as (s & Hs & Es & Ei). eapply (from_bind _ _ _ (fun st' b => st' = st1 /\ b = s)); [now apply (from_lift _ _ s)|]. intros ? ? _ _ [-> ->]. apply from_ret; [done|].
    eapply constant_operand_means; [exact Ml|done|done|done|]. intros x Hx. eexists. split; [apply bv_rep; [exact (bvRightShift_ok _ _ _ s (rep_bv _ _ _ Hx H1) ltac:(lia))|done]|].
    rewrite Hk. intros _ v. cbn. rewrite Es. destruct (Z.eqb_spec (2 ^ s) 0); [done|]. intros [= <-]. done.
  - destruct (optimizeDivides && (getWidth le =? 32)) eqn:Ho; [|exact Hg]. apply andb_true_iff in Ho as [Ho E32%Z.eqb_eq]. rewrite Hk in Hco. cbn in Hco. rewrite Ho, Wc, E32 in Hco. cbn in Hco. apply negb_true_iff, Z.eqb_neq in Hco.
    pose proof (proj1 (ap_valid_spec CE) Vc) as [_ Hc]. rewrite Wc, E32 in Hc. apply lift_term_ok; [done|]. destruct Ml as (x & Hx & Vx). rewrite E32 in Hx |- *.
    destruct (constructUDiv_ok l x (w32 (ap_val CE)) (rep_bv _ _ _ Hx ltac:(lia)) ltac:(rewrite BV.wrap_small; lia)) as (t & E & Ht). rewrite BV.wrap_small in Ht by lia. exists t. split; [exact E|].
    split; [done|]. cbn. rewrite <- E32 in Ht. eapply means_arith; [done|apply bv_rep; [exact Ht|done]|exact Vx|rewrite Ec; now apply value_const|]. rewrite Hk. intros _ v. cbn. rewrite (proj2 (Z.eqb_neq _ _) Hco). intros [= <-]. done.
Qed.

Lemma signed_one w : 0 < w -> w <> 1 -> forall d, 0 <= d < 2 ^ w -> BV.signed w d = 1 -> d = 1.
Proof. intros Hw H1 d Hd E. rewrite <- (BV.wrap_signed w d Hd), E. apply BV.wrap_small. assert (2 ^ 1 < 2 ^ w) by (apply Z.pow_lt_mono_r; lia). lia. Qed.
Lemma signed_minus_one w d : 0 < w -> 0 <= d < 2 ^ w -> BV.signed w d = -1 -> d = 2 ^ w - 1.
Proof. unfold BV.signed. intros Hw Hd. destruct (d <? _); lia. Qed.

Lemma sdiv_ok st : k = SDiv -> tables_ok st -> getWidth le <> 1 -> from st (construct_sdiv optimizeDivides left right re) (translates (BinaryExpr k le re)).
Proof.
  intros Hk O H1. unfold construct_sdiv. apply first_ok; [done|done|]. intros l st1 O1 Ml.
  assert (Hg : from st1 (B_bind _ _ (fun '(r, width) => B_ret _ (vc_sbvDivExpr width l r, width)) right) (translates (BinaryExpr k le re))).
  { apply general_ok; auto. intros w l' r' x y Hx Hy. destruct (bv_sdiv w _ _ _ _ Hx Hy) as (q & Hq & Eq). exists q. split; [done|]. rewrite Hk. intros _ v. cbn. destruct (Z.eqb_spec y 0); [done|]. intros [= <-]. auto. }
  destruct (dyn_cast_constant re) as [CE|] eqn:Ec; [|exact Hg]. apply dyn_cast_some in Ec. destruct (constant_ok CE Ec) as (Vc & Wc & Hco).
  destruct (optimizeDivides && _ && _ && _) eqn:Ho; [|exact Hg]. repeat (apply andb_true_iff in Ho as [Ho ?]). rewrite Hk in Hco. cbn in Hco. split_bools. rewrite Ho, Wc in Hco.
  repeat match goal with H : negb _ = true |- _ => apply negb_true_iff in H end. pose proof (proj1 (ap_valid_spec CE) Vc) as [Hw0 Hc].
  assert (E32 : getWidth le = 32) by done. rewrite E32 in Hco. cbn in Hco. apply negb_true_iff, Z.eqb_neq in Hco. assert (W32 : ap_width CE = 32) by congruence. rewrite W32 in Hc.
  assert (Hn1 : ap_val CE <> 1).
  { match goal with H : ap_eq _ _ = false |- _ => rewrite ap_make_spec, W32 in H by lia; change (ap_eq CE (APInt 32 (BV.wrap 32 1))) with (ap_cmp Eq CE (APInt 32 1)) in H; rewrite ap_cmp_spec in H by (done || (cbn; lia)); cbn in H; now apply Z.eqb_neq in H end. }
  assert (Hm1 : ap_val CE <> 2 ^ 32 - 1). { match goal with H : isAllOnes _ = false |- _ => rewrite isAllOnes_spec, W32 in H by done; now apply Z.eqb_neq in H end. }
  unfold getZExtValue. rewrite ap_getZExtValue_spec by (done || lia). apply lift_term_ok; [done|]. destruct Ml as (x & Hx & Vx). rewrite E32 in Hx.
  assert (Ha : 2 <= Z.abs (BV.signed 32 (ap_val CE))).
  { destruct (Z.eq_dec (BV.signed 32 (ap_val CE)) 0) as [E0|]; [exfalso; apply Hco; rewrite <- (BV.wrap_signed 32 (ap_val CE)), E0 by done; done|].
    destruct (Z.eq_dec (BV.signed 32 (ap_val CE)) 1) as [E1|]; [exfalso; apply Hn1, (signed_one 32); lia|]. destruct (Z.eq_dec (BV.signed 32 (ap_val CE)) (-1)) as [E1|]; [exfalso; apply Hm1, signed_minus_one; lia|]. lia. }
  destruct (constructSDiv_ok l x (ap_val CE) (rep_bv _ _ _ Hx ltac:(lia)) ltac:(lia) Ha) as (t & E & Ht). exists t. rewrite E32. split; [exact E|].
  split; [done|]. cbn. rewrite <- E32 in Ht at 1. eapply means_arith; [done|apply bv_rep; [exact Ht|done]|exact Vx|rewrite Ec; now apply value_const|]. rewrite Hk, E32. intros _ v. cbn. rewrite (proj2 (Z.eqb_neq _ _) Hco). intros [= <-]. done.
Qed.

Lemma mod_pow2_concat l w x s : bv l w x -> 0 <= s < w ->
  bv (if s =? 0 then bvZero w else vc_bvConcatExpr (bvZero (w - s)) (bvExtract l (s - 1) 0)) w (x mod 2 ^ s).
Proof.
  intros Hl Hs. destruct (Z.eqb_spec s 0) as [->|H0]; [rewrite Z.mod_1_r; apply bvZero_ok; lia|].
  pose proof (bv_concat (w - s) _ _ _ _ _ (bvZero_ok (w - s) ltac:(lia)) (bv_extract w l x (s - 1) 0 Hl ltac:(lia) ltac:(lia))) as H. rewrite Z.div_1_r in H. replace (s - 1 - 0 + 1) with s in H by lia.
  replace (w - s + s) with w in H by lia. exact H.
Qed.

Lemma urem_ok st : k = URem -> tables_ok st -> getWidth le <> 1 -> from st (construct_urem optimizeDivides left right re) (translates (BinaryExpr k le re)).
Proof.
  intros Hk O H1. unfold construct_urem. apply first_ok; [done|done|]. intros l st1 O1 Ml.
  assert (Hg : from st1 (B_bind _ _ (fun '(r, width) => B_ret _ (vc_bvModExpr width l r, width)) right) (translates (BinaryExpr k le re))).
  { apply general_ok; auto. intros w l' r' x y Hx Hy. destruct (bv_mod w _ _ _ _ Hx Hy) as (q & Hq & Eq). exists q. split; [done|]. rewrite Hk. intros _ v. cbn. destruct (Z.eqb_spec y 0); [done|]. intros [= <-]. auto. }
  destruct (dyn_cast_constant re) as [CE|] eqn:Ec; [|exact Hg]. apply dyn_cast_some in Ec. destruct (constant_ok CE Ec) as (Vc & Wc & Hco).
  destruct (Z.leb_spec (ap_width CE) 64) as [H64|]; [|exact Hg]. unfold getZExtValue. rewrite ap_getZExtValue_spec by done. destruct (isPowerOfTwo 64 (ap_val CE)) eqn:Hp.
  - destruct (power_of_two CE Vc H64 Hp) as (s & Hs & Es & Ei). eapply (from_bind _ _ _ (fun st' b => st' = st1 /\ b = s)); [now apply (from_lift _ _ s)|]. intros ? ? _ _ [-> ->]. apply from_ret; [done|].
    eapply constant_operand_means; [exact Ml|done|done|done|]. intros x Hx. eexists. split; [apply bv_rep; [exact (mod_pow2_concat l _ x s (rep_bv _ _ _ Hx H1) ltac:(lia))|done]|].
    rewrite Hk. intros _ v. cbn. rewrite Es. destruct (Z.eqb_spec (2 ^ s) 0); [done|]. intros [= <-]. done.
  - destruct (optimizeDivides && (getWidth le =? 32)) eqn:Ho; [|exact Hg]. apply andb_true_iff in Ho as [Ho E32%Z.eqb_eq]. rewrite Hk in Hco. cbn in Hco. rewrite Ho, Wc, E32 in Hco. cbn in Hco. apply negb_true_iff, Z.eqb_neq in Hco.
    pose proof (proj1 (ap_valid_spec CE) Vc) as [_ Hc]. rewrite Wc, E32 in Hc. destruct Ml as (x & Hx & Vx). rewrite E32 in Hx |- *. pose proof (rep_bv _ _ _ Hx ltac:(lia)) as Hbx.
    destruct (constructUDiv_ok l x (w32 (ap_val CE)) Hbx ltac:(rewrite BV.wrap_small; lia)) as (t & E & Ht). rewrite BV.wrap_small in Ht by lia.
    destruct (constructMul_ok t 32 (x / ap_val CE) (ap_val CE) Ht ltac:(lia) ltac:(lia)) as (t2 & E2 & Ht2).
    eapply (from_bind _ _ _ (fun st' b => st' = st1 /\ b = t)); [now apply (from_lift _ _ t)|]. intros ? ? _ _ [-> ->]. eapply (from_bind _ _ _ (fun st' b => st' = st1 /\ b = t2)); [now apply (from_lift _ _ t2)|]. intros ? ? _ _ [-> ->]. apply from_ret; [done|].
    pose proof (bv_minus 32 _ _ _ _ Hbx Ht2) as Hm. rewrite BV.wrap_sub_r in Hm. split; [done|]. cbn. rewrite <- E32 in Hm at 2.
    eapply means_arith; [done|apply bv_rep; [exact Hm|done]|exact Vx|rewrite Ec; now apply value_const|]. rewrite Hk, E32. intros _ v. cbn. rewrite (proj2 (Z.eqb_neq _ _) Hco). intros [= <-].
    rewrite (Z.mul_comm _ (ap_val CE)), <- Z.mod_eq by done. apply BV.wrap_small. pose proof (Z.mod_pos_bound x (ap_val CE) ltac:(lia)). lia.
Qed.

Lemma active_bits_le w : 0 < w -> active_bits w <= w.
Proof. intros Hw. unfold active_bits. pose proof (Z.log2_lt_lin w Hw). lia. Qed.

Lemma shift_ok st by_constant by_term : tables_ok st -> getWidth le <> 1 ->
  (k = Shl \/ k = LShr \/ k = AShr) ->
  (forall w l s x, bv l w x -> 0 <= s < 2 ^ 32 -> exists q, bv (by_constant w l s) w q /\ arith_val k w x s q) ->
  (forall w l r x y, bv l w x -> bv r w y -> w < 2 ^ 32 -> active_bits w <= w -> exists t q, by_term l r = Done t /\ bv t w q /\ arith_val k w x y q) ->
  from st (construct_shift left right re by_constant by_term) (translates (BinaryExpr k le re)).
Proof.
  intros O H1 Hk Hc Ht. unfold construct_shift. apply first_ok; [done|done|]. intros l st1 O1 Ml. destruct (dyn_cast_constant re) as [CE|] eqn:Ec.
  - apply dyn_cast_some in Ec. destruct (constant_ok CE Ec) as (Vc & Wc & Hco). assert (Hs : ap_val CE < 2 ^ 32) by (destruct Hk as [Hk|[Hk|Hk]]; rewrite Hk in Hco; cbn in Hco; now apply Z.ltb_lt).
    pose proof (proj1 (ap_valid_spec CE) Vc) as [_ Hv]. rewrite ap_getLimitedValue_spec, Z.min_l, BV.wrap_small by (done || lia). apply from_ret; [done|].
    eapply constant_operand_means; [exact Ml|done|done|done|]. intros x Hx. destruct (Hc _ l (ap_val CE) x (rep_bv _ _ _ Hx H1) ltac:(lia)) as (q & Hq & Eq). exists q. split; [now apply bv_rep|done].
  - eapply from_bind; [now apply right_ok|]. intros [r w] st2 G2 O2 [Ew Mr]. cbn in Ew, Mr. subst w. apply lift_term_ok; [done|]. apply (means_grows _ _ _ _ G2) in Ml. destruct Ml as (x & Hx & Vx), Mr as (y & Hy & Vy).
    rewrite <- Hwidth in Hy. apply rep_bv in Hx, Hy; [|done..]. destruct (bv_range _ _ _ Hx) as [Hw0 _]. assert (Hfit : getWidth le < 2 ^ 31) by (cbn in Htr; split_bools; done).
    destruct (Ht _ l r x y Hx Hy ltac:(lia) (active_bits_le _ Hw0)) as (t & q & E & Hq & Eq). exists t. split; [exact E|]. split; [done|]. cbn. eapply means_arith; [done|apply bv_rep; [exact Hq|done]|exact Vx|exact Vy|exact Eq].
Qed.

Lemma bitwise_ok st on_bools on_bvs : tables_ok st ->
  (forall l r p q, fm l p -> fm r q -> exists b, fm (on_bools l r) b /\ arith_val k 1 (b2z p) (b2z q) (b2z b)) ->
  (forall w l r x y, bv l w x -> bv r w y -> exists q, bv (on_bvs l r) w q /\ arith_val k w x y q) ->
  from st (construct_bitwise left right on_bools on_bvs) (translates (BinaryExpr k le re)).
Proof.
  intros O Hb Hv. unfold construct_bitwise. eapply from_bind; [now apply left_ok|]. intros [l w] st1 G1 O1 [Ew Ml]. cbn in Ew, Ml. eapply from_bind; [now apply right_ok|].
  intros [r w'] st2 G2 O2 [Ew' Mr]. cbn in Ew', Mr. subst. apply from_ret; [done|]. apply (means_grows _ _ _ _ G2) in Ml. rewrite <- Hwidth. apply (operands_mean st2 l r); auto.
  intros x y Hx Hy. destruct (Z.eqb_spec (getWidth le) 1) as [E1|E1].
  - rewrite E1 in *. destruct Hx as [Rx Hx], Hy as [Ry Hy]. destruct (Hb l r _ _ Hx Hy) as (b & Hq & Eq). exists (b2z b). split; [now apply fm_rep|].
    replace (b2z (x =? 1)) with x in Eq by (destruct (Z.eqb_spec x 1); cbn; lia). replace (b2z (y =? 1)) with y in Eq by (destruct (Z.eqb_spec y 1); cbn; lia). done.
  - destruct (Hv _ l r x y (rep_bv _ _ _ Hx E1) (rep_bv _ _ _ Hy E1)) as (q & Hq & Eq). exists q. split; [now apply bv_rep|done].
Qed.

End Operands.

Lemma overshift_left w x s : 0 < w -> w <= s -> BV.wrap w (x * 2 ^ s) = 0.
Proof. intros Hw Hs. unfold BV.wrap. replace s with (s - w + w) by lia. rewrite Z.pow_add_r, Z.mul_assoc, Z_mod_mult by lia. done. Qed.
Lemma overshift_right w x s : 0 < w -> 0 <= x < 2 ^ w -> w <= s -> x / 2 ^ s = 0.
Proof. intros Hw Hx Hs. assert (2 ^ w <= 2 ^ s) by (apply Z.pow_le_mono_r; lia). apply Z.div_small. lia. Qed.

(** Operations whose second operand may be anything. *)
Ltac exact_op H := eexists; split; [apply H; eassumption|intros _ v [= <-]; done].

Lemma construct_arith_ok k le re left right st :
  (forall st, tables_ok st -> from st left (translates le)) -> (forall st, tables_ok st -> from st right (translates re)) ->
  well_typed (BinaryExpr k le re) = true -> translatable (BinaryExpr k le re) = true -> tables_ok st ->
  from st (construct_arith optimizeDivides k le re left right) (translates (BinaryExpr k le re)).
Proof.
  intros Hl Hr Hwt Htr O. assert (Hnb : bool_operator k = false -> getWidth le <> 1).
  { intros Hk. cbn in Htr. rewrite Hk in Htr. cbn in Htr. split_bools. now apply not_bool_spec. }
  destruct k; cbn [construct_arith]; try (specialize (Hnb eq_refl)).
  - apply both_ok; auto. intros w l r x y Hx Hy. exact_op bv_plus.
  - apply both_ok; auto. intros w l r x y Hx Hy. exact_op bv_minus.
  - now apply mul_ok.
  - now apply udiv_ok.
  - now apply sdiv_ok.
  - now apply urem_ok.
  - apply both_ok; auto. intros w l r x y Hx Hy. destruct (bv_srem w _ _ _ _ Hx Hy) as (q & Hq & Eq). exists q. split; [done|]. intros _ v. cbn. destruct (Z.eqb_spec y 0); [done|]. intros [= <-]. auto.
  - apply bitwise_ok; auto; [|intros w l r x y Hx Hy; exact_op bv_and]. intros l r p q Hp Hq. eexists. split; [apply fm_and; eassumption|]. intros _ v [= <-]. now destruct p, q.
  - apply bitwise_ok; auto; [|intros w l r x y Hx Hy; exact_op bv_or]. intros l r p q Hp Hq. eexists. split; [apply fm_or; eassumption|]. intros _ v [= <-]. now destruct p, q.
  - apply bitwise_ok; auto; [|intros w l r x y Hx Hy; exact_op bv_xor]. intros l r p q Hp Hq. eexists. split; [apply fm_ite; [eassumption|apply fm_not|]; eassumption|]. intros _ v [= <-]. now destruct p, q.
  - apply shift_ok; auto.
    + intros w l s x Hx Hs. eexists. split; [apply bvLeftShift_ok; [eassumption|lia]|]. intros _ v [= <-]. destruct (Z.ltb_spec s w); [done|]. destruct (bv_range _ _ _ Hx). now apply overshift_left.
    + intros w l r x y Hx Hy Hw Ha. destruct (bvVarLeftShift_ok _ _ _ _ _ _ Hx Hy Hw Ha) as (t & E & Ht). eexists _, _. split; [exact E|]. split; [exact Ht|]. intros _ v [= <-]. destruct (Z.ltb_spec y w); [done|]. destruct (bv_range _ _ _ Hx). now apply overshift_left.
  - apply shift_ok; auto.
    + intros w l s x Hx Hs. eexists. split; [apply bvRightShift_ok; [eassumption|lia]|]. intros _ v [= <-]. destruct (Z.ltb_spec s w); [done|]. destruct (bv_range _ _ _ Hx). now apply overshift_right with w.
    + intros w l r x y Hx Hy Hw Ha. destruct (bvVarRightShift_ok _ _ _ _ _ _ Hx Hy Hw Ha) as (t & E & Ht). eexists _, _. split; [exact E|]. split; [exact Ht|]. intros _ v [= <-]. destruct (Z.ltb_spec y w); [done|]. destruct (bv_range _ _ _ Hx). now apply overshift_right with w.
  - apply shift_ok; auto.
    + intros w l s x Hx Hs. destruct (bv_range _ _ _ Hx) as [Hw _]. eexists. split; [apply constructAShr_ok; [exact Hx|lia|apply (bvBoolExtract_ok l w); [exact Hx|lia]]|]. intros Hb v [= <-]. specialize (Hb eq_refl). unfold ashr_value. now rewrite (proj2 (Z.ltb_lt s w)), Z.min_l by lia.
    + intros w l r x y Hx Hy Hw Ha. destruct (bvVarArithRightShift_ok _ _ _ _ _ _ Hx Hy Hw Ha) as (t & E & Ht). eexists _, _. split; [exact E|]. split; [exact Ht|]. intros Hb v [= <-]. specialize (Hb eq_refl). unfold ashr_value. now rewrite (proj2 (Z.ltb_lt y w)), Z.min_l by lia.
Qed.

(** ** The other operations *)

Lemma means_cmp st k le re t x y b : getWidth le = getWidth re -> fm t b -> value st le x -> value st re y ->
  b = cmp_sem k (getWidth le) x y -> means st (CmpExpr k le re) t.
Proof.
  intros Hw Ht Hx Hy ->. eexists. split; [apply fm_rep; exact Ht|]. intros Ag v Ev [Hbl Hbr]%andb_true_iff. apply eval_compare_inv in Ev as (vx & vy & Ex & Ey & _ & _ & Ew & ->).
  rewrite (Hx Ag vx Ex Hbl), (Hy Ag vy Ey Hbr), (eval_width _ _ _ Ex). done.
Qed.

Lemma ordered_ok k le re left right build st :
  (forall st, tables_ok st -> from st left (translates le)) -> (forall st, tables_ok st -> from st right (translates re)) ->
  getWidth le = getWidth re -> getWidth le <> 1 -> (forall w l r x y, bv l w x -> bv r w y -> fm (build l r) (cmp_sem k w x y)) -> tables_ok st ->
  from st (ordered left right build) (translates (CmpExpr k le re)).
Proof.
  intros Hl Hr Hw H1 Hb O. unfold ordered. eapply from_bind; [now apply Hl|]. intros [l w] st1 G1 O1 [Ew Ml]. cbn in Ew, Ml. eapply from_bind; [now apply Hr|]. intros [r w'] st2 G2 O2 [Ew' Mr].
  cbn in Ew', Mr. subst. apply check_width_ok; [done|congruence|]. apply from_ret; [done|]. split; [done|]. cbn. apply (means_grows _ _ _ _ G2) in Ml. destruct Ml as (x & Hx & Vx), Mr as (y & Hy & Vy). rewrite <- Hw in Hy.
  apply rep_bv in Hx, Hy; [|done..]. eapply means_cmp; [done|eapply Hb; [exact Hx|exact Hy]|exact Vx|exact Vy|done].
Qed.

Lemma eq_ok le re left right st :
  (forall st, tables_ok st -> from st left (translates le)) -> (forall st, tables_ok st -> from st right (translates re)) ->
  getWidth le = getWidth re -> well_typed le = true -> tables_ok st -> from st (construct_eq left right le) (translates (CmpExpr Eq le re)).
Proof.
  intros Hl Hr Hw Hwt O. unfold construct_eq. eapply from_bind; [now apply Hl|]. intros [l w] st1 G1 O1 [Ew Ml]. cbn in Ew, Ml. eapply from_bind; [now apply Hr|]. intros [r w'] st2 G2 O2 [Ew' Mr].
  cbn in Ew', Mr. subst. apply from_ret; [done|]. apply (means_grows _ _ _ _ G2) in Ml. destruct Ml as (x & Hx & Vx), Mr as (y & Hy & Vy). rewrite <- Hw in *. destruct (Z.eqb_spec (getWidth le) 1) as [E1|E1].
  - rewrite E1 in Hx, Hy. destruct Hx as [Rx Hx], Hy as [Ry Hy]. split; [done|]. cbn [fst]. destruct (dyn_cast_constant le) as [CE|] eqn:Ec.
    + apply dyn_cast_some in Ec as ->. cbn in Hwt, E1. rewrite isTrue_spec, E1 by done. apply ap_valid_spec in Hwt as Hc. rewrite E1 in Hc. cbn [Z.eqb Pos.eqb andb].
      destruct (Z.eqb_spec (ap_val CE) 0) as [E0|E0]; cbn [negb]; (eapply means_cmp; [done| |now apply value_const|exact Vy|]); [apply fm_not; exact Hy| |exact Hy|]; cbn; rewrite ?E0.
      * destruct (Z.eqb_spec y 1), (Z.eqb_spec 0 y); cbn; lia || done.
      * replace (ap_val CE) with 1 by lia. destruct (Z.eqb_spec y 1), (Z.eqb_spec 1 y); cbn; lia || done.
    + eapply means_cmp; [done|apply fm_iff; [exact Hx|exact Hy]|exact Vx|exact Vy|]. cbn. destruct (Z.eqb_spec x 1), (Z.eqb_spec y 1), (Z.eqb_spec x y); cbn; lia || done.
  - split; [done|]. cbn [fst]. eapply means_cmp; [done|eapply fm_eq; [apply rep_bv; [exact Hx|done]|apply rep_bv; [exact Hy|done]]|exact Vx|exact Vy|done].
Qed.

Lemma construct_cmp_ok k le re left right st :
  (forall st, tables_ok st -> from st left (translates le)) -> (forall st, tables_ok st -> from st right (translates re)) ->
  well_typed (CmpExpr k le re) = true -> translatable (CmpExpr k le re) = true -> tables_ok st ->
  from st (construct_cmp k le left right) (translates (CmpExpr k le re)).
Proof.
  intros Hl Hr Hwt Htr O. cbn in Hwt, Htr. split_bools.
  destruct k; try discriminate; cbn [construct_cmp]; [now apply eq_ok|..]; apply ordered_ok; auto; try (now apply not_bool_spec); intros w l r x y Hx Hy; cbn.
  - eapply fm_lt; eassumption.
  - eapply fm_le; eassumption.
  - eapply fm_slt; eassumption.
  - eapply fm_sle; eassumption.
Qed.

Lemma bvOne_ok w : 1 < w -> bv (bvOne w) w 1.
Proof.
  intros Hw. unfold bvOne, bvZExtConst. destruct (Z.leb_spec w 64).
  - pose proof (bvConst64_ok w 1 ltac:(lia)) as H'. rewrite BV.wrap_small in H'; [done|]. assert (2 ^ 1 < 2 ^ w) by (apply Z.pow_lt_mono_r; lia). lia.
  - pose proof (zext_words_ok (Z.to_nat w) (w - 64) (bvConst64 64 1) 64 1 ltac:(lia) ltac:(lia) (bvConst64_ok 64 1 ltac:(lia))) as H1.
    destruct (zext_words _ _ _) as [rest expr]. destruct H1 as [H1 H2]. pose proof (bv_concat rest (64 + (w - 64) - rest) _ _ 0 1 (bvConst64_ok rest 0 H1) H2) as H3.
    replace (rest + (64 + (w - 64) - rest)) with w in H3 by lia. done.
Qed.

Lemma construct_cast_ok k x w src st : (forall st, tables_ok st -> from st src (translates x)) ->
  well_typed (CastExpr k x w) = true -> translatable (CastExpr k x w) = true -> tables_ok st ->
  from st (construct_cast k w src) (translates (CastExpr k x w)).
Proof.
  intros Hs Hwt Htr O. cbn in Hwt, Htr. split_bools. unfold construct_cast. eapply from_bind; [now apply Hs|]. intros [t w'] st1 G1 O1 [Ew (y & Hy & Vy)]. cbn in Ew. subst w'. apply from_ret; [done|]. split; [done|]. cbn [fst].
  assert (Hgoal : forall t' q, bv t' w q -> q = cast_sem k (getWidth x) w y -> means st1 (CastExpr k x w) t').
  { intros t' q Hq ->. eexists. split; [apply bv_rep; [exact Hq|]|].
    - cbn. pose proof (has_width_pos _ _ (hw_self x ltac:(done))). lia.
    - intros Ag v Ev Hb. apply eval_cast_expr_inv in Ev as (vx & Ex & _ & _ & ->). cbn. now rewrite (Vy Ag vx Ex Hb), (eval_width _ _ _ Ex). }
  pose proof (has_width_pos _ _ (hw_self x ltac:(done))) as Hpos.
  assert (Hone : 2 ^ 1 < 2 ^ w) by (apply Z.pow_lt_mono_r; lia). destruct (Z.eqb_spec (getWidth x) 1) as [E1|E1].
  - cbn [fst] in Hy. rewrite E1 in Hy. destruct Hy as [Ry Hy]. destruct k; (eapply Hgoal; [eapply bv_ite; [exact Hy| |apply bvZero_ok; lia]|]); [apply bvOne_ok; lia| |apply bvMinusOne_ok; lia|]; rewrite E1; cbn.
    + rewrite BV.wrap_small by lia. destruct (Z.eqb_spec y 1); lia.
    + destruct (Z.eqb_spec y 1) as [->|]; [|replace y with 0 by lia; change (BV.signed 1 0) with 0; now rewrite BV.wrap_small by lia]. change (BV.signed 1 1) with (-1). unfold BV.wrap. apply (Z.mod_unique_pos _ _ (-1)); lia.
  - apply rep_bv in Hy; [|done]. cbn [fst] in Hy. destruct (bv_range _ _ _ Hy) as [_ Ry]. destruct k.
    + eapply Hgoal; [pose proof (bv_concat (w - getWidth x) _ _ _ _ _ (bvZero_ok (w - getWidth x) ltac:(lia)) Hy) as H'; replace (w - getWidth x + getWidth x) with w in H' by lia; exact H'|].
      cbn. assert (2 ^ getWidth x < 2 ^ w) by (apply Z.pow_lt_mono_r; lia). now rewrite BV.wrap_small by lia.
    + eapply Hgoal; [apply bv_sext; [exact Hy|lia]|done].
Qed.

Lemma select_ok st c t f tc tt tf : well_typed (SelectExpr c t f) = true -> means st c tc -> means st t tt -> means st f tf ->
  means st (SelectExpr c t f) (vc_iteExpr tc tt tf).
Proof.
  intros Hwt (xc & Hc & Vc) (xt & Ht & Vt) (xf & Hf & Vf). cbn in Hwt. split_bools. unfold Bool in *. rewrite (ltac:(done) : getWidth c = 1) in Hc. destruct Hc as [Rc Hc].
  exists (if xc =? 1 then xt else xf). split.
  - cbn [getWidth]. unfold rep in *. rewrite <- (ltac:(done) : getWidth t = getWidth f) in Hf. destruct (getWidth t =? 1).
    + destruct Ht as [Rt Ht], Hf as [Rf Hf]. split; [destruct (xc =? 1); done|]. pose proof (fm_ite _ _ _ _ _ _ Hc Ht Hf) as H'. now destruct (xc =? 1).
    + now apply bv_ite.
  - intros Ag v Ev Hb. cbn in Ev, Hb. inv_eval. split_bools. match goal with H : eval_select _ _ _ = _ |- _ => apply eval_select_inv in H as (? & ? & ->) end.
    repeat match goal with E : eval rho c = Some ?v |- _ => rewrite (Vc Ag v E ltac:(done)) in *; clear Vc | E : eval rho t = Some ?v |- _ => rewrite (Vt Ag v E ltac:(done)) in *; clear Vt | E : eval rho f = Some ?v |- _ => rewrite (Vf Ag v E ltac:(done)) in *; clear Vf end.
    destruct (Z.eqb_spec (ap_val v0) 1), (Z.eqb_spec (ap_val v0) 0); lia || done.
Qed.

Lemma concat_ok st l r tl tr : well_typed (ConcatExpr l r) = true -> translatable (ConcatExpr l r) = true -> means st l tl -> means st r tr ->
  means st (ConcatExpr l r) (vc_bvConcatExpr tl tr).
Proof.
  intros Hwt Htr (xl & Hl & Vl) (xr & Hr & Vr). cbn in Hwt, Htr. split_bools. apply rep_bv in Hl, Hr; [|now apply not_bool_spec..]. destruct (bv_range _ _ _ Hl), (bv_range _ _ _ Hr).
  exists (xl * 2 ^ getWidth r + xr). split; [apply bv_rep; [apply (bv_concat (getWidth l) (getWidth r)); [exact Hl|exact Hr]|cbn; lia]|]. intros Ag v Ev Hb. cbn in Ev, Hb. inv_eval. split_bools.
  rewrite (Vl Ag _ ltac:(eassumption) ltac:(done)), (Vr Ag _ ltac:(eassumption) ltac:(done)). cbn. now rewrite (eval_width _ _ _ E0).
Qed.

Lemma extract_ok st x o w t : well_typed (ExtractExpr x o w) = true -> translatable (ExtractExpr x o w) = true -> means st x t ->
  means st (ExtractExpr x o w) (if w =? 1 then bvBoolExtract t o else vc_bvExtract t (o + w - 1) o).
Proof.
  intros Hwt Htr (y & Hy & Vy). cbn in Hwt, Htr. split_bools. apply rep_bv in Hy; [|now apply not_bool_spec].
  exists (BV.wrap w (y / 2 ^ o)). split.
  - cbn [getWidth]. destruct (Z.eqb_spec w 1) as [->|E1].
    + pose proof (bvBoolExtract_ok t _ y o Hy ltac:(lia)) as H'. apply fm_rep in H'. replace (BV.wrap 1 (y / 2 ^ o)) with (b2z (Z.testbit y o)); [done|].
      unfold BV.wrap. change (2 ^ 1) with 2. destruct (Z.testbit y o) eqn:Et; cbn; symmetry; [now apply Z.testbit_true|now apply Z.testbit_false].
    + pose proof (bv_extract _ t y (o + w - 1) o Hy ltac:(lia) ltac:(lia)) as H'. replace (o + w - 1 - o + 1) with w in H' by lia. now apply bv_rep.
  - intros Ag v Ev Hb. cbn in Ev, Hb. inv_eval. match goal with H : eval_extract _ _ _ = _ |- _ => apply eval_extract_inv in H as (_ & _ & _ & -> & _) end. cbn. now rewrite (Vy Ag _ ltac:(eassumption) Hb).
Qed.

Lemma not_ok st x t : means st x t -> means st (NotExpr x) (if getWidth x =? 1 then vc_notExpr t else vc_bvNotExpr t).
Proof.
  intros (y & Hy & Vy). exists (2 ^ getWidth x - 1 - y). split.
  - cbn [getWidth]. unfold rep in *. destruct (Z.eqb_spec (getWidth x) 1) as [->|E1]; [|now apply bv_not]. destruct Hy as [Ry Hy]. split; [lia|]. apply fm_not in Hy.
    replace (2 ^ 1 - 1 - y =? 1) with (negb (y =? 1)); [done|]. destruct (Z.eqb_spec y 1), (Z.eqb_spec (2 ^ 1 - 1 - y) 1); cbn; lia || done.
  - intros Ag v Ev Hb. cbn in Ev, Hb. inv_eval. cbn. now rewrite (Vy Ag _ ltac:(eassumption) Hb), (eval_width _ _ _ ltac:(eassumption)).
Qed.

Lemma read_ok st r h i ta ti : well_typed (ReadExpr r h i) = true -> translatable (ReadExpr r h i) = true -> updates_mean st r h ta -> means st i ti ->
  means st (ReadExpr r h i) (vc_readExpr ta ti).
Proof.
  intros Hwt Htr (f & Hf & Vf) (x & Hx & Vx). cbn in Hwt, Htr. split_bools. apply rep_bv in Hx; [|rewrite (ltac:(done) : getWidth i = domain r); now apply not_bool_spec].
  rewrite (ltac:(done) : getWidth i = domain r) in Hx. destruct (bv_range _ _ _ Hx) as [_ Rx]. exists (f x). split; [apply bv_rep; [now apply bv_read with (domain r)|now apply not_bool_spec]|].
  intros Ag v Ev Hb. apply eval_read_expr_inv in Ev as (us & iv & Eu & Ei & _ & _ & _ & _ & Hv). cbn in Hb. split_bools. rewrite (Vx Ag iv Ei ltac:(done)) in *. eapply Vf; eauto.
Qed.

Lemma update_ok st r n i v ta ti tv : un_well_typed r (un_node n i v) = true -> domain r <> 1 -> range r <> 1 -> updates_mean st r n ta -> means st i ti -> means st v tv ->
  updates_mean st r (un_node n i v) (vc_writeExpr ta ti tv).
Proof.
  intros Hwt Hd1 Hr1 (f & Hf & Vf) (x & Hx & Vx) (y & Hy & Vy). cbn in Hwt. split_bools. rewrite (ltac:(done) : getWidth i = domain r) in Hx. rewrite (ltac:(done) : getWidth v = range r) in Hy. apply rep_bv in Hx, Hy; [|done..].
  eexists. split; [eapply arr_write; eassumption|]. intros Ag us Eu Hb j vj Hj Hv. cbn in Eu, Hb. inv_eval. split_bools. rewrite (Vx Ag _ ltac:(eassumption) ltac:(done)), (Vy Ag _ ltac:(eassumption) ltac:(done)).
  unfold read_value in Hv. cbn in Hv. destruct (j =? ap_val v1); [congruence|]. eapply Vf; eauto.
Qed.

(** ** The whole translation *)

Lemma hash_construct_ok e actual st : well_typed e = true -> (forall st, tables_ok st -> from st actual (translates e)) -> tables_ok st ->
  from st (hash_construct UseConstructHash e actual) (translates e).
Proof.
  intros Hwt Ha O. unfold hash_construct. destruct (negb UseConstructHash || is_constant e); [now apply Ha|].
  eapply (from_bind _ _ _ (fun st' it => st' = st /\ it = map_find Expr_eqb (constructed st) e)). { eexists _, _. split; [done|]. split; [reflexivity|]. done. }
  intros it st' _ _ [-> ->]. destruct (map_find _ _ _) as [[t w]|] eqn:Ef.
  - apply map_find_elem in Ef as (e' & Hin & Heq). apply (constructed_ok _ O) in Hin as (Hwt' & -> & Hm). apply Expr_eqb_eq in Heq as <-; [|now apply well_typed_wf_mut..]. now apply from_ret.
  - eapply from_bind; [now apply Ha|]. intros [t w] st1 G1 O1 [Ew Hm]. cbn in Ew, Hm. subst w. eapply from_bind; [now apply tables_add_expr|]. intros ? st2 _ O2 Hm2. now apply from_ret.
Qed.

Lemma app_sub (l k : list Array) : l ++ k ⊆ U -> l ⊆ U /\ k ⊆ U.
Proof. set_solver. Qed.
Lemma cons_sub a (l : list Array) : a :: l ⊆ U -> a ∈ U /\ l ⊆ U.
Proof. set_solver. Qed.
Ltac split_sub := repeat match goal with H : _ ++ _ ⊆ U |- _ => apply app_sub in H as [??] | H : _ :: _ ⊆ U |- _ => apply cons_sub in H as [??] end.

Lemma construct_mut :
  (forall e, well_typed e = true -> translatable e = true -> live_nodes live e = true -> arrays e ⊆ U ->
     forall st, tables_ok st -> from st (construct UseConstructHash optimizeDivides un_addr e) (translates e)) /\
  (forall u root, un_well_typed root u = true -> un_translatable optimizeDivides u = true -> un_live_nodes live root u = true ->
     root ∈ U -> un_arrays u ⊆ U -> array_ok root = true -> domain root <> 1 -> range root <> 1 ->
     forall st, tables_ok st -> from st (getArrayForUpdate UseConstructHash optimizeDivides un_addr root u) (fun st' t => updates_mean st' root u t)).
Proof.
  apply Expr_UpdateNode_ind.
  - intros c Hwt Htr Hl Hsub st O. cbn [construct arrays] in *. split_sub. apply hash_construct_ok; [done| |done]. clear st O. intros st O. apply from_ret; [done|]. split; [done|]. exists (ap_val c). split; [now apply constant_rep|now apply value_const].
  - intros x IH Hwt Htr Hl Hsub st O. cbn [construct arrays] in *. split_sub. apply hash_construct_ok; [done| |done]. clear st O. intros st O. cbn in Htr. split_bools. exact (IH Hwt ltac:(done) Hl Hsub st O).
  - intros r h IHh i IHi Hwt Htr Hl Hsub st O. cbn [construct arrays] in *. split_sub. apply hash_construct_ok; [done| |done]. clear st O. intros st O. pose proof Hwt as Hwt'. pose proof Htr as Htr'. cbn in Hwt', Htr', Hl. split_bools.
    eapply from_bind; [apply IHh; auto; now apply not_bool_spec|]. intros ta st1 G1 O1 Ma. eapply from_bind; [apply IHi; auto|]. intros [ti w] st2 G2 O2 [_ Mi]. cbn in Mi. apply from_ret; [done|]. split; [done|]. cbn [fst].
    apply read_ok; eauto using updates_mean_grows.
  - intros c IHc t IHt f IHf Hwt Htr Hl Hsub st O. cbn [construct arrays] in *. split_sub. apply hash_construct_ok; [done| |done]. clear st O. intros st O. pose proof Hwt as Hwt'. cbn in Hwt', Htr, Hl. split_bools.
    eapply from_bind; [apply IHc; auto|]. intros [tc wc] st1 G1 O1 [_ Mc]. eapply from_bind; [apply IHt; auto|]. intros [tt wt] st2 G2 O2 [_ Mt]. eapply from_bind; [apply IHf; auto|]. intros [tf wf] st3 G3 O3 [Ew Mf].
    cbn in *. subst wf. apply from_ret; [done|]. split; [done|]. cbn [fst]. apply select_ok; eauto using means_grows.
  - intros l IHl r IHr Hwt Htr Hl Hsub st O. cbn [construct arrays] in *. split_sub. apply hash_construct_ok; [done| |done]. clear st O. intros st O. pose proof Hwt as Hwt'. pose proof Htr as Htr'. cbn in Hwt', Htr', Hl. split_bools.
    eapply from_bind; [apply IHr; auto|]. intros [tr wr] st1 G1 O1 [_ Mr]. eapply from_bind; [apply IHl; auto|]. intros [tl wl] st2 G2 O2 [_ Ml]. cbn in Mr, Ml. apply from_ret; [done|]. split; [done|]. cbn [fst].
    apply concat_ok; eauto using means_grows.
  - intros x IH o w Hwt Htr Hl Hsub st O. cbn [construct arrays] in *. split_sub. apply hash_construct_ok; [done| |done]. clear st O. intros st O. pose proof Hwt as Hwt'. pose proof Htr as Htr'. cbn in Hwt', Htr', Hl. split_bools.
    eapply from_bind; [apply IH; auto|]. intros [t w'] st1 G1 O1 [_ M]. cbn in M. apply from_ret; [done|]. split; [done|]. now apply extract_ok.
  - intros k x IH w Hwt Htr Hl Hsub st O. cbn [construct arrays] in *. split_sub. apply hash_construct_ok; [done| |done]. clear st O. intros st O. pose proof Hwt as Hwt'. pose proof Htr as Htr'. cbn in Hwt', Htr', Hl. split_bools. apply construct_cast_ok; auto.
  - intros x IH Hwt Htr Hl Hsub st O. cbn [construct arrays] in *. split_sub. apply hash_construct_ok; [done| |done]. clear st O. intros st O. cbn in Htr. split_bools.
    eapply from_bind; [apply IH; auto|]. intros [t w'] st1 G1 O1 [Ew M]. cbn in Ew, M. subst w'. apply from_ret; [done|]. split; [done|]. now apply not_ok.
  - intros k l IHl r IHr Hwt Htr Hl Hsub st O. cbn [construct arrays] in *. split_sub. apply hash_construct_ok; [done| |done]. clear st O. intros st O. pose proof Hwt as Hwt'. pose proof Htr as Htr'. cbn in Hwt', Htr', Hl. split_bools. apply construct_arith_ok; auto.
  - intros k l IHl r IHr Hwt Htr Hl Hsub st O. cbn [construct arrays] in *. split_sub. apply hash_construct_ok; [done| |done]. clear st O. intros st O. pose proof Hwt as Hwt'. pose proof Htr as Htr'. cbn in Hwt', Htr', Hl. split_bools. apply construct_cmp_ok; auto.
  - intros root _ _ _ HU _ Hr Hd1 Hr1 st O. cbn [getArrayForUpdate]. pose proof (getInitialArray_ok st root O HU Hr Hd1 Hr1) as (t & st' & E & G & O' & (f & Hf & Vf)). exists t, st'. split; [done|]. split; [done|]. split; [done|].
    exists f. split; [done|]. intros Ag us [= <-] _. now apply Vf.
  - intros n IHn i IHi v IHv root Hwt Htr Hl HU Hsub Hr Hd1 Hr1 st O. cbn [getArrayForUpdate un_arrays] in *. split_sub. pose proof Hwt as Hwt'. cbn in Hwt', Htr, Hl. split_bools.
    eapply (from_bind _ _ _ (fun st' it => st' = st /\ it = map_find Z.eqb (update_node_hash st) (un_addr root (un_node n i v)))). { eexists _, _. split; [done|]. split; [reflexivity|]. done. }
    intros it st' _ _ [-> ->]. destruct (map_find _ _ _) as [t|] eqn:Ef.
    + apply map_find_elem in Ef as (a & Hin & Heq). apply Z.eqb_eq in Heq as <-. apply (nodes_ok _ O) in Hin as (root' & un' & Hl' & Ea & Hm). apply un_addr_distinct in Ea as [<- <-]; [|done..]. now apply from_ret.
    + eapply from_bind; [apply IHn; auto|]. intros ta st1 G1 O1 Ma. eapply from_bind; [apply IHi; auto|]. intros [ti wi] st2 G2 O2 [_ Mi]. eapply from_bind; [apply IHv; auto|]. intros [tv wv] st3 G3 O3 [_ Mv]. cbn in Mi, Mv.
      eapply from_bind; [apply (tables_add_node _ root (un_node n i v)); [done|done|apply update_ok; eauto using means_grows, updates_mean_grows]|]. intros ? st4 _ O4 M4. now apply from_ret.
Qed.

(** Expressions the translation accepts. *)
Definition accepted (e : Expr) : Prop := well_typed e = true /\ translatable e = true /\ live_nodes live e = true /\ arrays e ⊆ U.

Lemma construct_clear_ok e st : accepted e -> tables_ok st -> from st (construct_clear UseConstructHash optimizeDivides un_addr e) (fun st' t => means st' e t).
Proof.
  intros (Hwt & Htr & Hl & Hsub) O. unfold construct_clear. eapply from_bind; [now apply (proj1 construct_mut)|]. intros [t w] st1 G1 O1 [_ M]. cbn in M.
  assert (Hc : from st1 clear_constructed (fun st' _ => means st' e t)).
  { eexists _, _. split; [done|]. set (st' := mkBState _ _ _). assert (G : grows st1 st') by (exists []; now rewrite app_nil_r). split; [done|]. destruct O1 as [_ Ha Hn Hi Ho]. split; [|now apply means_grows with st1]. split; cbn; [|..|done|done].
    - intros ? ? ? H%elem_of_nil. done.
    - intros root' t' H%Ha. eauto using array_means_grows.
    - intros a t' (r & u & ? & E & H)%Hn. eauto 6 using updates_mean_grows. }
  eapply from_bind; [exact Hc|]. intros ? st2 _ O2 M2. now apply from_ret.
Qed.

Lemma construct_all_ok es st : Forall accepted es -> tables_ok st -> from st (construct_all UseConstructHash optimizeDivides un_addr es) (fun st' ts => Forall2 (means st') es ts).
Proof.
  intros He. revert st. induction He as [|e es He _ IH]; intros st O; cbn [construct_all]; [now apply from_ret|].
  eapply from_bind; [now apply construct_clear_ok|]. intros t st1 G1 O1 M1. eapply from_bind; [now apply IH|]. intros ts st2 G2 O2 M2. apply from_ret; [done|]. constructor; [now apply means_grows with st1|done].
Qed.

Lemma new_tables_ok : tables_ok new_BState.
Proof. split; cbn; intros; [..|set_solver|constructor]; now apply elem_of_nil in H. Qed.

Lemma means_value st e t v : means st e t -> agree st -> eval rho e = Some v -> in_bounds e = true -> rep t (getWidth e) (ap_val v).
Proof. intros (x & Hx & Vx) Ag Ev Hb. now rewrite <- (Vx Ag v Ev Hb). Qed.
End Sound.

Section Exact.
Context `{A : APIntOps} {AS : APIntSpec A} {V : VCOps} {env : string -> Z -> Z} {VS : VCSpec V env}.
Context (UseConstructHash optimizeDivides : bool) (un_addr : Array -> UpdateNode -> Z) (live : Array -> UpdateNode -> bool) (U : list Array).

End Exact.

(** ** Witness and limits *)

Definition bytes_array (nm : string) (addr : Z) : Array := mkArray addr nm 4 32 8 [].
Definition c8 (x : Z) : Expr := ConstantExpr (APInt 8 x).
Definition c32 (x : Z) : Expr := ConstantExpr (APInt 32 x).
Definition c64 (x : Z) : Expr := ConstantExpr (APInt 64 x).

(** A write of 5 at index 1. *)
Definition a_write : UpdateNode := un_node un_null (c32 1) (c8 5).
Definition read_after (r : Array) (i : Z) : Expr := ReadExpr r a_write (c32 i).

(** [x / 7 < 3] for the byte 2 of the array [a]. *)
Definition small_quotient : Expr := CmpExpr Ult (BinaryExpr UDiv (CastExpr ZExt (read_after (bytes_array "a" 1) 2) 32) (c32 7)) (c32 3).
Definition counting : valuation := fun _ i => i + 18.
Definition counting_env : string -> Z -> Z := fun _ i => i + 18.
Definition is_a_write (r : Array) (u : UpdateNode) : bool := bool_decide (r = bytes_array "a" 1 /\ u = a_write).


(** The names of two arrays, the one hashed as number 11 and the other as number 1, are the same, so STP takes both for one variable. *)
Example array_names_collide : unique_name (bytes_array "x1" 1) 11 = unique_name (bytes_array "x11" 2) 1.
Proof. vm_compute. reflexivity. Qed.

Definition two_arrays : Expr := CmpExpr Eq (read_after (bytes_array "a" 1) 2) (read_after (bytes_array "b" 2) 2).
Definition by_array : valuation := fun r i => arr_addr r + i.
Definition by_name : string -> Z -> Z := fun nm i => if String.eqb nm "a0" then 1 + i else 2 + i.

(** Update nodes with the same contents that two arrays share (the replacing visitors share such nodes): the second array is
    taken for the first one. *)
Example shared_node_confuses_arrays :
  eval by_array two_arrays = Some (APInt 1 0) /\
  (construct (A := apint_ref) (V := vc_values by_name) true true (fun _ u => un_size u) two_arrays new_BState ≫= fun r => Done r.1) = Done (Form true, 1).
Proof. split; vm_compute; reflexivity. Qed.

(** A constant shift amount is cut to 32 bits. *)
Example shift_amount_truncated :
  eval counting (BinaryExpr Shl (c64 1) (c64 (2 ^ 32))) = Some (APInt 64 0) /\
  (construct (A := apint_ref) (V := vc_values counting_env) true true (fun _ _ => 0) (BinaryExpr Shl (c64 1) (c64 (2 ^ 32))) new_BState ≫= fun r => Done r.1) = Done (Vec 64 1, 64).
Proof. split; vm_compute; reflexivity. Qed.

(** An arithmetic shift by the width or more gives 0, also for a negative number. *)
Example overshift_loses_sign :
  eval counting (BinaryExpr AShr (c32 (2 ^ 32 - 2)) (c32 32)) = Some (APInt 32 (2 ^ 32 - 1)) /\
  (construct (A := apint_ref) (V := vc_values counting_env) true true (fun _ _ => 0) (BinaryExpr AShr (c32 (2 ^ 32 - 2)) (c32 32)) new_BState ≫= fun r => Done r.1) = Done (Vec 32 0, 32).
Proof. split; vm_compute; reflexivity. Qed.

(** A 32-bit division by the constant 0 divides by 0 when the constants of the division are computed. *)
Example division_by_constant_zero :
  construct (A := apint_ref) (V := vc_values counting_env) true true (fun _ _ => 0) (BinaryExpr UDiv (CastExpr ZExt (read_after (bytes_array "a" 1) 2) 32) (c32 0)) new_BState = Abort.
Proof. vm_compute. reflexivity. Qed.
