(* ===== verification/STPSolver.v ===== *)
(** * The solver STP

    src/lib/Solver/STPSolver.cpp: the core solver at the bottom of the chain, which translates a query with
    [STPConstruct], asks STP, in a child process or directly, and reads the bytes of a
    counterexample back.

    What STP answers, and what becomes of the child process, are arguments: [vc_query] for the [n]-th
    query, [child_status] for the [n]-th child.  An [exit(1)] and a fatal error are
    [Abort]. *)

From stdpp Require Import gmap strings.
From S2P Require Import Prelude APInt Expr ExprOrder ExprSem ExprCreate ExprCreateSound ExprRebuildSound ExprTyping ExprVisitor ExprEvaluator IndependentElementSet SymbolicObjects Solver SolverAssignment STPBuilder STPConstruct STPConstructSound.

(** The answers 0, 1, 2 and 3 of [vc_query]. *)
Inductive vc_answer (model : Type) := Invalid (m : model) | Valid | Error | Timeout.
Arguments Invalid {_} _.
Arguments Valid {_}.
Arguments Error {_}.
Arguments Timeout {_}.

Class VCQuery (V : VCOps) := {
  vc_model : Type;
  vc_query : nat -> list VCExpr -> VCExpr -> vc_answer vc_model;
  getCounterExample : vc_model -> VCExpr -> Z   (* getBVUnsigned(vc_getCounterExample(vc, e)) *)
}.

(** A formula is valid when the assertions imply it for all contents of the variables; otherwise there are
    contents that the counterexample shows. *)
Class VCQuerySpec (V : VCOps) (Q : VCQuery V) (VS : forall env, VCSpec V env) : Prop := {
  query_valid n asserted q : vc_query n asserted q = Valid ->
    forall env, Forall (fun a => fm (VCSpec := VS env) a true) asserted -> ~ fm (VCSpec := VS env) q false;
  query_invalid n asserted q m : vc_query n asserted q = Invalid m ->
    (forall env, Forall (fun a => exists b, fm (VCSpec := VS env) a b) (q :: asserted)) ->
    exists env, Forall (fun a => fm (VCSpec := VS env) a true) asserted /\ fm (VCSpec := VS env) q false /\
      forall t w x, bv (VCSpec := VS env) t w x -> getCounterExample m t = x
}.

Inductive child := ForkFailed | WaitpidFailed | Killed | TimedOut | Exited.

Inductive SolverRunStatus :=
| SUCCESS_SOLVABLE | SUCCESS_UNSOLVABLE | FAILURE | TIMEOUT | FORK_FAILED | INTERRUPTED | UNEXPECTED_EXIT_CODE | WAITPID_FAILED.

Record STPState `{V : VCOps} := mkSTP { builder : BState; runs : nat; runStatusCode : SolverRunStatus }.

Section STP.
Context `{A : APIntOps} `{Opts : ExprOptions} {V : VCOps} {Q : VCQuery V}.
Context (UseVisitorHash UseConstructHash optimizeDivides useForkedSTP IgnoreSolverFailures : bool).
Context (un_addr : Array -> UpdateNode -> Z) (child_status : nat -> child).

#[local] Existing Instance B_ret.
#[local] Existing Instance B_bind.

Definition building {X} (m : B X) : SolverM STPState X := fun s =>
  match m (builder s) with
  | Done (x, b) => Done (Some x, mkSTP _ b (runs s) (runStatusCode s))
  | Abort => Abort
  | OutOfFuel => OutOfFuel
  end.
Definition next_run : SolverM STPState nat := fun s => Done (Some (runs s), mkSTP _ (builder s) (S (runs s)) (runStatusCode s)).
Definition set_status (st : SolverRunStatus) : SolverM STPState unit := fun s => Done (Some tt, mkSTP _ (builder s) (runs s) st).

(** ** Counterexamples *)

Definition read_byte (m : vc_model) (object : Array) (offset : Z) : B Z :=
  t ← getInitialRead object offset; mret (BV.wrap 8 (getCounterExample m t)).

(** [values[i][offset] = ...] for the offsets. *)
Fixpoint read_offsets (m : vc_model) (object : Array) (offsets : list Z) (vec : list Z) : B (list Z) :=
  match offsets with
  | [] => mret vec
  | offset :: rest =>
    b ← read_byte m object offset;
    _ ← lift (check (bool_decide (0 <= offset < Z.of_nat (length vec))));
    read_offsets m object rest (<[Z.to_nat offset := b]> vec)
  end.

Definition object_values (m : vc_model) (hint : option IndependentElementSet) (object : Array) : B (list Z) :=
  let zeros := replicate (Z.to_nat (Expr.size object)) 0 in
  match hint with
  | Some indep_elemset =>
    match ie_elements indep_elemset !! object with
    | Some offsets => read_offsets m object (elements offsets) zeros
    | None => mret zeros
    end
  | None => read_offsets m object (seqZ 0 (Expr.size object)) zeros
  end.

Fixpoint all_values (one : Array -> B (list Z)) (objects : list Array) : B (list (list Z)) :=
  match objects with
  | [] => mret []
  | object :: rest => v ← one object; vs ← all_values one rest; mret (v :: vs)
  end.

(** In the child: the bytes one after the other into the shared memory. *)
Fixpoint read_all (m : vc_model) (object : Array) (offsets : list Z) : B (list Z) :=
  match offsets with
  | [] => mret []
  | offset :: rest => b ← read_byte m object offset; bs ← read_all m object rest; mret (b :: bs)
  end.

(** ** Running STP *)

(** Any answer but [Invalid] counts as no solution. *)
Definition runAndGetCex (asserted : list VCExpr) (q : VCExpr) (objects : list Array) (hint : option IndependentElementSet) :
  SolverM STPState (SolverRunStatus * option (list (list Z))) :=
  n ← next_run;
  match vc_query n asserted q with
  | Invalid m => values ← building (all_values (object_values m hint) objects); mret (SUCCESS_SOLVABLE, Some values)
  | _ => mret (SUCCESS_UNSOLVABLE, None)
  end.

Definition shared_memory_size : Z := 2 ^ 20.

(** A failure of the child ends the program unless such failures are ignored. *)
Definition child_failed (st : SolverRunStatus) : SolverM STPState (SolverRunStatus * option (list (list Z))) :=
  if IgnoreSolverFailures then mret (st, None) else abort.

(** The child works on a copy of the builder. *)
Definition in_child {X} (m : B X) : SolverM STPState (option X) := fun s =>
  Done (Some (match m (builder s) with Done (x, _) => Some x | _ => None end), s).

Definition runAndGetCexForked (asserted : list VCExpr) (q : VCExpr) (objects : list Array) :
  SolverM STPState (SolverRunStatus * option (list (list Z))) :=
  let sum := foldl (fun s object => BV.wrap 32 (s + Expr.size object)) 0 objects in
  _ ← assume (sum <? shared_memory_size);
  n ← next_run;
  match child_status n with
  | ForkFailed => child_failed FORK_FAILED
  | WaitpidFailed => child_failed WAITPID_FAILED
  | Killed => child_failed INTERRUPTED
  | TimedOut => mret (TIMEOUT, None)
  | Exited =>
    match vc_query n asserted q with
    | Invalid m =>
      values ← in_child (all_values (fun object => read_all m object (seqZ 0 (Expr.size object))) objects);
      match values with Some values => mret (SUCCESS_SOLVABLE, Some values) | None => child_failed INTERRUPTED end
    | Valid => mret (SUCCESS_UNSOLVABLE, None)
    | _ => child_failed UNEXPECTED_EXIT_CODE
    end
  end.

(** ** The operations *)

Definition STP_computeInitialValues (q : Query) (objects : list Array) : SolverM STPState (option (list (list Z))) :=
  _ ← set_status FAILURE;
  asserted ← building (construct_all UseConstructHash optimizeDivides un_addr (q_constraints q));
  stp_e ← building (construct_clear UseConstructHash optimizeDivides un_addr (q_expr q));
  '(status, r) ← (if useForkedSTP then runAndGetCexForked asserted stp_e objects else runAndGetCex asserted stp_e objects (q_indep_elemset q));
  _ ← set_status status;
  if negb useForkedSTP || match status with SUCCESS_SOLVABLE | SUCCESS_UNSOLVABLE => true | _ => false end then mret r else failure.

Definition STP_computeTruth (q : Query) : SolverM STPState bool :=
  r ← STP_computeInitialValues q [];
  mret (match r with Some _ => false | None => true end).

Definition STP_computeValue (q : Query) : SolverM STPState Expr :=
  let objects := findSymbolicObjects UseVisitorHash [q_expr q] in
  r ← STP_computeInitialValues (withFalse q) objects;
  match r with
  | Some values => pure (or_fuel (Assignment_evaluate UseVisitorHash (Assignment_create objects values false) (q_expr q)))
  | None => abort
  end.

Definition STPSolver : SolverImpl STPState :=
  mkImpl (SolverImpl_computeValidity STP_computeTruth) STP_computeTruth STP_computeValue STP_computeInitialValues.

Definition new_STPState : STPState := mkSTP _ new_BState 0 FAILURE.
End STP.
