(* ===== verification/STPSolverSound.v ===== *)
(** * STP answers queries

    Over an STP that answers the queries it is given ([VCQuerySpec]), the core solver
    of src/lib/Solver/STPSolver.cpp meets the contract of a solver on the queries it is meant for. *)

From stdpp Require Import gmap strings.
From S2P Require Import Prelude APInt Expr ExprOrder ExprSem ExprCreate ExprCreateSound ExprRebuildSound ExprTyping ExprVisitor ExprEvaluator ExprClosure IndependentElementSet ConstraintManager SymbolicObjects Solver SolverAssignment STPBuilder STPConstruct STPConstructSound STPSolver.

Section Sound.
Context `{A : APIntOps} {AS : APIntSpec A} `{Opts : ExprOptions} {V : VCOps} {Q : VCQuery V} {VS : forall env, VCSpec V env} {QS : VCQuerySpec V Q VS}.
Context (UseVisitorHash UseConstructHash optimizeDivides useForkedSTP IgnoreSolverFailures : bool).
Context (un_addr : Array -> UpdateNode -> Z) (child_status : nat -> child) (live : Array -> UpdateNode -> bool) (U : list Array).

(** Different nodes have different addresses, and different arrays different variables. *)
Hypothesis un_addr_distinct : forall r u r' u', live r u = true -> live r' u' = true -> un_addr r u = un_addr r' u' -> r = r' /\ u = u'.
Hypothesis names_distinct : forall r r' n n', r ∈ U -> r' ∈ U -> isConstantArray r = false -> isConstantArray r' = false ->
  (n < length U)%nat -> (n' < length U)%nat -> unique_name r n = unique_name r' n' -> r = r'.
Hypothesis arrays_of_bytes : forall r, r ∈ U -> isConstantArray r = false -> domain r = 32 /\ range r = 8.
Hypothesis arrays_well_formed : forall r, r ∈ U -> array_ok r = true.
(** What STP and its child processes do. *)
Hypothesis direct_answers : useForkedSTP = false -> forall n a t, vc_query n a t <> Error /\ vc_query n a t <> Timeout.

Notation tables env rho st := (tables_ok (VS := VS env) un_addr live U rho st).
Notation means env rho := (means (VS := VS env) rho).
Notation agrees_with env rho st := (agree (env := env) rho st).

(** ** Contents of arrays and contents of variables *)

Definition hashed_ok (st : BState) : Prop := (array_hash st).*1 ⊆ U /\ NoDup (array_hash st).*1.

Lemma hashed_length st n p : hashed_ok st -> array_hash st !! n = Some p -> (n < length U)%nat /\ p.1 ∈ U.
Proof.
  intros [Hi Ho] Hn. split; [|apply Hi, list_elem_of_fmap; exists p; split; [done|]; now apply list_elem_of_lookup_2 in Hn]. apply lookup_lt_Some in Hn as Hl.
  apply (NoDup_submseteq _ U Ho) in Hi. apply submseteq_length in Hi. rewrite length_fmap in Hi. lia.
Qed.

(** The contents of the variables for given contents of the arrays, and the other way round. *)
Definition named (st : BState) (nm : string) : option Array :=
  (fun p => p.2.2) <$> list_find (fun p => p.1 = nm /\ isConstantArray p.2 = false) (imap (fun n p => (unique_name p.1 n, p.1)) (array_hash st)).
Definition env_of (rho : valuation) (st : BState) (nm : string) (i : Z) : Z := match named st nm with Some r => rho r i | None => 0 end.
Definition rho_of (env : string -> Z -> Z) (st : BState) (r : Array) (i : Z) : Z :=
  match list_find (fun p => p.1 = r) (array_hash st) with Some (n, _) => BV.wrap 8 (env (unique_name r n) i) | None => 0 end.
Definition clip (rho : valuation) : valuation := fun r i => if (0 <=? i) && (i <? Expr.size r) then rho r i else 0.

Lemma agree_env_of rho st : hashed_ok st -> agrees_with (env_of rho st) rho st.
Proof.
  intros Hh n root t Hn Hs i Hi. f_equal. unfold env_of, named. destruct (hashed_length st n _ Hh Hn) as [Hl HU]. cbn in HU.
  destruct (list_find _ _) as [[k [nm root']]|] eqn:Ef; cbn.
  - apply list_find_Some in Ef as (Ek & [Enm Hs'] & _). rewrite list_lookup_imap in Ek. destruct (array_hash st !! k) as [[r' t']|] eqn:Ek'; cbn in Ek; [|done]. injection Ek as <- <-. cbn in Enm, Hs'.
    destruct (hashed_length st k _ Hh Ek') as [Hl' HU']. cbn in HU'. now rewrite (names_distinct root r' n k).
  - exfalso. apply list_find_None in Ef. rewrite Forall_forall in Ef. apply (Ef (unique_name root n, root)); [|done]. apply list_elem_of_lookup_2 with n. now rewrite list_lookup_imap, Hn.
Qed.

Lemma agree_rho_of env st : hashed_ok st -> agrees_with env (rho_of env st) st.
Proof.
  intros Hh n root t Hn Hs i Hi. destruct (hashed_length st n _ Hh Hn) as [Hl HU]. cbn in HU. destruct (arrays_of_bytes root HU Hs) as [_ ->]. unfold rho_of.
  destruct (list_find _ _) as [[k [r' t']]|] eqn:Ef.
  - apply list_find_Some in Ef as (Ek & Er & _). cbn in Er. subst r'. assert (k = n) as ->; [|now rewrite BV.wrap_wrap by lia]. destruct Hh as [_ Ho]. eapply (NoDup_lookup _ k n root Ho); rewrite list_lookup_fmap; [now rewrite Ek|now rewrite Hn].
  - exfalso. apply list_find_None in Ef. rewrite Forall_forall in Ef. apply (Ef (root, t)); [|done]. now apply list_elem_of_lookup_2 with n.
Qed.

Lemma rho_of_range env st r i : 0 <= rho_of env st r i < 256.
Proof. unfold rho_of. destruct (list_find _ _) as [[]|]; [apply (BV.wrap_range 8); lia|lia]. Qed.
Lemma clip_bytes env st : byte_contents (clip (rho_of env st)).
Proof.
  intros r i. unfold clip. pose proof (rho_of_range env st r i). destruct (Z.leb_spec 0 i), (Z.ltb_spec i (Expr.size r)); cbn; split; lia.
Qed.

(** ** Queries for STP *)

(** The value depends on the elements of arrays only. *)
Definition inside (e : Expr) : Prop := forall rho rho', (forall r i, 0 <= i < Expr.size r -> rho r i = rho' r i) ->
  eval rho e = eval rho' e /\ in_bounds rho e = in_bounds rho' e.

Definition stp_expr (e : Expr) : Prop :=
  bool_ok U e /\ accepted optimizeDivides live U e /\ inside e /\ forall rho, byte_contents rho -> in_bounds rho e = true.
Definition stp_query (q : Query) : Prop := Forall stp_expr (q_constraints q) /\ stp_expr (q_expr q).

Lemma false_stp_expr : stp_expr false_expr.
Proof. split; [apply false_bool_ok|]. split; [|done]. split; [done|]. split; [done|]. split; [done|]. cbn. set_solver. Qed.

Lemma truth_term env rho st e t b : means env rho st e t -> agrees_with env rho st -> getWidth e = 1 -> eval rho e = Some (APInt 1 b) -> in_bounds rho e = true ->
  fm (VCSpec := VS env) t (b =? 1).
Proof. intros Hm Ag Hw Ev Hb. pose proof (means_value rho st e t _ Hm Ag Ev Hb) as H. rewrite Hw in H. apply H. Qed.

Lemma answer_valid n q st asserted t : stp_query q -> hashed_ok st ->
  (forall env rho, Forall2 (means env rho st) (q_constraints q) asserted /\ means env rho st (q_expr q) t) ->
  vc_query n asserted t = Valid -> valid q.
Proof.
  intros [Hc He] Hh Hm Hv rho [[Hb Hs] Ev]. pose proof (agree_env_of rho st Hh) as Ag. destruct (Hm (env_of rho st) rho) as [Hms Hme].
  apply (query_valid n asserted t Hv (env_of rho st)).
  - apply Forall_forall. intros a (i & Ha)%list_elem_of_lookup. destruct (Forall2_lookup_r _ _ _ i a Hms Ha) as (e & Ee & Hme'). rewrite Forall_lookup in Hc. unfold models in Hs. rewrite Forall_lookup in Hs.
    destruct (Hc i e Ee) as ([Hw _] & _ & _ & Hib). exact (truth_term _ _ _ _ _ 1 Hme' Ag Hw (Hs i e Ee) (Hib rho Hb)).
  - destruct He as ([Hw _] & _ & _ & Hib). exact (truth_term _ _ _ _ _ 0 Hme Ag Hw Ev (Hib rho Hb)).
Qed.

(** The truth value of a term is that of its expression for the bytes of the counterexample. *)
Lemma counterexample_value env st e t b : stp_expr e -> agrees_with env (rho_of env st) st -> means env (rho_of env st) st e t -> fm (VCSpec := VS env) t b ->
  eval (clip (rho_of env st)) e = Some (APInt 1 (b2z b)).
Proof.
  intros ([Hw Ho] & _ & Hin & Hib) Ag Hm Hf. pose proof (clip_bytes env st) as Hby. destruct (eo_defined _ _ Ho _ Hby) as [[w x] Ev]. rewrite Ev.
  destruct (Hin (rho_of env st) (clip (rho_of env st))) as [E1 E2].
  { intros r i Hi. unfold clip. rewrite (proj2 (Z.leb_le 0 i)), (proj2 (Z.ltb_lt i (Expr.size r))) by lia. done. }
  pose proof (eval_width _ _ _ Ev) as Ew. cbn in Ew. rewrite Hw in Ew. subst w. pose proof (eval_valid _ _ _ Ev) as Hv. apply ap_valid_spec in Hv as [_ Hv]. cbn in Hv.
  pose proof (truth_term env _ st e t x Hm Ag Hw ltac:(now rewrite E1) ltac:(rewrite E2; auto)) as Hf'. rewrite (fm_det _ _ _ Hf Hf'). do 2 f_equal. destruct (Z.eqb_spec x 1); cbn; lia.
Qed.

Lemma answer_invalid env q st asserted t : stp_query q -> hashed_ok st ->
  (forall env rho, Forall2 (means env rho st) (q_constraints q) asserted /\ means env rho st (q_expr q) t) ->
  Forall (fun a => fm (VCSpec := VS env) a true) asserted -> fm (VCSpec := VS env) t false -> counterexample q (clip (rho_of env st)).
Proof.
  intros [Hc He] Hh Hm Ha Ht. pose proof (agree_rho_of env st Hh) as Ag. destruct (Hm env (rho_of env st)) as [Hms Hme]. split; [split; [apply clip_bytes|]|exact (counterexample_value env st _ _ false He Ag Hme Ht)].
  apply Forall_lookup. intros i e Ee. destruct (Forall2_lookup_l _ _ _ i e Hms Ee) as (a & Ea & Hme'). rewrite Forall_lookup in Hc. rewrite Forall_lookup in Ha. exact (counterexample_value env st e a true (Hc i e Ee) Ag Hme' (Ha i a Ea)).
Qed.

(** ** Reading a counterexample *)

Notation runs_from env rho st m P := (from (VS := VS env) un_addr live U rho st m P).

(** The values the counterexample gives are those of the terms in [env]. *)
Definition shows (env : string -> Z -> Z) (m : vc_model) : Prop := forall t w x, bv (VCSpec := VS env) t w x -> getCounterExample m t = x.

Definition readable (r : Array) : Prop := r ∈ U /\ array_ok r = true /\ isConstantArray r = false.

(** [x] is what [f] says, for the contents that the variables show. *)
Definition read_as {X} (env : string -> Z -> Z) (m : vc_model) (rho : valuation) (f : (Array -> Z -> Z) -> X) (st : BState) (x : X) : Prop :=
  shows env m -> agrees_with env rho st -> x = f (fun r i => BV.wrap 8 (rho r i)).

Lemma read_as_grows {X} env m rho (f : (Array -> Z -> Z) -> X) st st' x : grows st st' -> read_as env m rho f st x -> read_as env m rho f st' x.
Proof. intros G H Hs Ag. apply H; [done|]. now apply (agree_grows rho st st'). Qed.

Lemma read_byte_ok env rho st m r i : tables env rho st -> readable r -> 0 <= i < Expr.size r ->
  runs_from env rho st (read_byte m r i) (read_as env m rho (fun bytes => bytes r i)).
Proof.
  intros O (HU & Hr & Hs) Hi. destruct (arrays_of_bytes r HU Hs) as [Ed Er]. unfold read_byte, getInitialRead.
  eapply from_bind; [eapply from_bind; [apply getInitialArray_ok; first [exact un_addr_distinct|done|lia]|]|].
  - intros ta st1 G1 O1 (f & Hf & Vf). apply from_ret; [done|]. rewrite Ed, Er in Hf. assert (Hb : Expr.size r < 2 ^ 32) by (unfold array_ok in Hr; split_bools; done).
    instantiate (1 := fun st' t => exists x, bv (VCSpec := VS env) t 8 x /\ (agrees_with env rho st' -> x = BV.wrap 8 (rho r i))). cbv beta.
    exists (f i). split; [apply (bv_read 32 8); [done|apply bvConst32_small; lia]|]. intros Ag. apply Vf; [done|rewrite Ed; lia|]. unfold initial_value. now rewrite Hs, Er.
  - cbv beta. intros t st1 G1 O1 (x & Hx & Vx). apply from_ret; [done|]. intros Hm Ag. rewrite (Hm _ _ _ Hx), (Vx Ag). now rewrite BV.wrap_wrap by lia.
Qed.

Lemma read_all_ok env rho m r : readable r -> forall offsets st, (forall i, i ∈ offsets -> 0 <= i < Expr.size r) -> tables env rho st ->
  runs_from env rho st (read_all m r offsets) (read_as env m rho (fun bytes => bytes r <$> offsets)).
Proof.
  intros Hr. induction offsets as [|i rest IH]; intros st Hi O; cbn [read_all]; [now apply from_ret|].
  eapply from_bind; [apply read_byte_ok; [done|done|apply Hi; now left]|]. intros b st1 G1 O1 Hb. eapply from_bind; [apply IH; [intros; apply Hi; now right|done]|]. intros bs st2 G2 O2 Hbs. apply from_ret; [done|].
  intros Hm Ag. cbn. rewrite (Hbs Hm Ag). f_equal. exact (read_as_grows env m rho (fun bytes => bytes r i) st1 st2 _ G2 Hb Hm Ag).
Qed.

Lemma read_offsets_ok env rho m r : readable r -> forall offsets vec st, (forall i, i ∈ offsets -> 0 <= i < Expr.size r) -> Z.of_nat (length vec) = Expr.size r -> tables env rho st ->
  runs_from env rho st (read_offsets m r offsets vec) (fun st' vec' => shows env m -> agrees_with env rho st' ->
    forall k, vec' !! k = if decide (Z.of_nat k ∈ offsets) then Some (BV.wrap 8 (rho r (Z.of_nat k))) else vec !! k).
Proof.
  intros Hr. induction offsets as [|i rest IH]; intros vec st Hi Hl O; cbn [read_offsets]; [now apply from_ret|]. pose proof (Hi i ltac:(now left)) as Hb.
  eapply from_bind; [now apply read_byte_ok|]. intros b st1 G1 O1 Vb. eapply (from_bind _ _ _ _ _ _ _ (fun st' _ => st' = st1)); [apply (from_lift _ _ _ _ _ _ tt); [done| |done]; unfold check; now rewrite bool_decide_true by lia|].
  intros ? ? _ _ ->. destruct (IH (<[Z.to_nat i := b]> vec) st1) as (vec' & st2 & E & G2 & O2 & H2); [intros; apply Hi; now right|now rewrite length_insert|done|]. exists vec', st2. split; [exact E|]. split; [done|]. split; [done|].
  intros Hm Ag k. rewrite (H2 Hm Ag k). destruct (decide (Z.of_nat k ∈ rest)); [now rewrite decide_True by set_solver|]. destruct (decide (Z.to_nat i = k)) as [<-|Hne].
  - rewrite list_lookup_insert_eq by lia. rewrite Z2Nat.id by lia. rewrite decide_True by set_solver. f_equal. exact (read_as_grows env m rho (fun bytes => bytes r i) st1 st2 _ G2 Vb Hm Ag).
  - rewrite list_lookup_insert_ne by done. rewrite decide_False; [done|]. intros [E'|?]%elem_of_cons; [lia|done].
Qed.

Lemma object_values_ok env rho m r st : readable r -> tables env rho st ->
  runs_from env rho st (object_values m None r) (read_as env m rho (fun bytes => bytes r <$> seqZ 0 (Expr.size r))).
Proof.
  intros Hr O. assert (Hs : 0 <= Expr.size r) by (destruct Hr as (_ & Hr & _); unfold array_ok in Hr; split_bools; done).
  destruct (read_offsets_ok env rho m r Hr (seqZ 0 (Expr.size r)) (replicate (Z.to_nat (Expr.size r)) 0) st) as (vec & st' & E & G & O' & H); [intros i Hi%elem_of_seqZ; lia|rewrite length_replicate; lia|done|].
  exists vec, st'. split; [exact E|]. split; [done|]. split; [done|]. intros Hm Ag. apply list_eq. intros k. rewrite (H Hm Ag k), list_lookup_fmap. case_decide as Hk.
  - apply elem_of_seqZ in Hk. rewrite lookup_seqZ_lt by lia. done.
  - rewrite elem_of_seqZ in Hk. rewrite lookup_seqZ_ge by lia. apply lookup_ge_None. rewrite length_replicate. lia.
Qed.

Lemma all_values_ok env rho m one : (forall r st, readable r -> tables env rho st -> runs_from env rho st (one r) (read_as env m rho (fun bytes => bytes r <$> seqZ 0 (Expr.size r)))) ->
  forall objects st, Forall readable objects -> tables env rho st ->
  runs_from env rho st (all_values one objects) (read_as env m rho (fun bytes => (fun r => bytes r <$> seqZ 0 (Expr.size r)) <$> objects)).
Proof.
  intros Hone objects st Ho. revert st. induction Ho as [|r rest Hr _ IH]; intros st O; cbn [all_values]; [now apply from_ret|].
  eapply from_bind; [now apply Hone|]. intros v st1 G1 O1 Hv. eapply from_bind; [now apply IH|]. intros vs st2 G2 O2 Hvs. apply from_ret; [done|].
  intros Hm Ag. cbn. rewrite (Hvs Hm Ag). f_equal. exact (read_as_grows env m rho (fun bytes => bytes r <$> seqZ 0 (Expr.size r)) st1 st2 _ G2 Hv Hm Ag).
Qed.

(** The bytes of the counterexample. *)
Lemma shown_bytes env st (objects : list Array) :
  ((fun r => (fun i => BV.wrap 8 (rho_of env st r i)) <$> seqZ 0 (Expr.size r)) <$> objects) = bytes_of (clip (rho_of env st)) <$> objects.
Proof.
  apply list_fmap_ext. intros _ r _. unfold bytes_of, seqZ. rewrite <- list_fmap_compose. apply list_fmap_ext. intros k i Hk%lookup_seq. cbn. unfold clip.
  rewrite (proj2 (Z.leb_le 0 _)), (proj2 (Z.ltb_lt _ _)) by lia. cbn. rewrite Z.add_0_l || rewrite Z.add_0_r. apply (BV.wrap_small 8). apply rho_of_range.
Qed.

(** ** The operations *)

Definition stp_ok (s : STPState) : Prop := forall env rho, tables env rho (builder s).

Lemma builder_run {X} (m : B X) (P : (string -> Z -> Z) -> valuation -> BState -> X -> Prop) b0 : (forall env rho, tables env rho b0) ->
  (forall env rho st, tables env rho st -> runs_from env rho st m (P env rho)) ->
  exists x b, m b0 = Done (x, b) /\ forall env rho, grows b0 b /\ tables env rho b /\ P env rho b x.
Proof.
  intros Hs Hm. destruct (Hm (fun _ _ => 0) (fun _ _ => 0) _ (Hs _ _)) as (x & b & E & _). exists x, b. split; [exact E|]. intros env rho.
  destruct (Hm env rho _ (Hs env rho)) as (x' & b' & E' & G & O & H). rewrite E in E'. injection E' as <- <-. done.
Qed.

Lemma tables_hashed b : (forall env rho, tables env rho b) -> hashed_ok b.
Proof. intros H. destruct (H (fun _ _ => 0) (fun _ _ => 0)) as [_ _ _ Hi Ho]. done. Qed.

Lemma means_all_grows env rho st st' es ts : grows st st' -> Forall2 (means env rho st) es ts -> Forall2 (means env rho st') es ts.
Proof. intros G H. eapply Forall2_impl; [exact H|]. intros e t. now apply means_grows. Qed.

(** What a run with the translated query gives. *)
Definition run_result (q : Query) (objects : list Array) (r : SolverRunStatus * option (list (list Z))) : Prop :=
  match r.1 with
  | SUCCESS_SOLVABLE | SUCCESS_UNSOLVABLE => initial_spec q objects r.2
  | _ => useForkedSTP = true
  end.

Definition translated (q : Query) (asserted : list VCExpr) (t : VCExpr) (s : STPState) : Prop :=
  stp_ok s /\ forall env rho, Forall2 (means env rho (builder s)) (q_constraints q) asserted /\ means env rho (builder s) (q_expr q) t.

Lemma translated_formulas q asserted t s : stp_query q -> translated q asserted t s -> forall env, Forall (fun a => exists b, fm (VCSpec := VS env) a b) (t :: asserted).
Proof.
  intros [Hc He] [_ Hm] env. assert (Hf : forall e a, stp_expr e -> means env (fun _ _ => 0) (builder s) e a -> exists b, fm (VCSpec := VS env) a b).
  { intros e a [[Hw _] _] (x & Hx & _). rewrite Hw in Hx. destruct Hx as [_ Hx]. eauto. }
  destruct (Hm env (fun _ _ => 0)) as [Hms Hme]. constructor; [now apply (Hf (q_expr q))|]. apply Forall_lookup. intros i a Ha. destruct (Forall2_lookup_r _ _ _ i a Hms Ha) as (e & Ee & Hme'). rewrite Forall_lookup in Hc. now apply (Hf e); [apply (Hc i)|].
Qed.

(** The values read after an answer [Invalid]. *)
Lemma values_answer n q asserted t s m one objects : stp_query q -> translated q asserted t s -> Forall readable objects -> vc_query n asserted t = Invalid m ->
  (forall env rho r st, readable r -> tables env rho st -> runs_from env rho st (one r) (read_as env m rho (fun bytes => bytes r <$> seqZ 0 (Expr.size r)))) ->
  exists values b, all_values one objects (builder s) = Done (values, b) /\ (forall env rho, tables env rho b) /\ initial_spec q objects (Some values).
Proof.
  intros Hq [Hs Hm] Ho Hv Hone.
  destruct (builder_run (all_values one objects) (fun env rho => read_as env m rho (fun bytes => (fun r => bytes r <$> seqZ 0 (Expr.size r)) <$> objects)) (builder s) Hs) as (values & b & E & Hb).
  { intros env rho st O. apply all_values_ok; auto. }
  exists values, b. split; [exact E|]. split; [apply Hb|]. destruct (query_invalid n asserted t m Hv (translated_formulas q asserted t s Hq (conj Hs Hm))) as (env & Ha & Ht & Hsh). pose proof (tables_hashed b ltac:(apply Hb)) as Hh.
  exists (clip (rho_of env b)). split.
  - apply (answer_invalid env q b asserted t); auto. intros env' rho'. destruct (Hb env' rho') as (G & _). destruct (Hm env' rho') as [H1 H2]. split; [now apply means_all_grows with (builder s)|now apply (means_grows rho' (builder s) b)].
  - destruct (Hb env (rho_of env b)) as (_ & _ & Hr). rewrite (Hr Hsh (agree_rho_of env b Hh)). apply shown_bytes.
Qed.

Lemma runAndGetCex_ok q asserted t objects s : stp_query q -> translated q asserted t s -> Forall readable objects ->
  (forall n a t, vc_query n a t <> Error /\ vc_query n a t <> Timeout) ->
  exists r s', runAndGetCex asserted t objects None s = Done (Some r, s') /\ stp_ok s' /\ run_result q objects r.
Proof.
  intros Hq Ht Ho Ha. unfold runAndGetCex, next_run, mbind, SolverM_bind. cbn [builder runs runStatusCode]. destruct (vc_query (runs s) asserted t) as [m| | |] eqn:Ev.
  - destruct (values_answer _ q asserted t s m (object_values m None) objects Hq Ht Ho Ev) as (values & b & E & Hb & Hi); [intros; now apply object_values_ok|].
    unfold building. cbn [builder]. rewrite E. eexists _, _. split; [done|]. split; [exact Hb|exact Hi].
  - eexists _, _. split; [done|]. split; [apply Ht|]. destruct Ht as [Hs Hm]. exact (answer_valid _ q (builder s) asserted t Hq (tables_hashed _ Hs) Hm Ev).
  - now destruct (Ha (runs s) asserted t).
  - now destruct (Ha (runs s) asserted t).
Qed.

(** The failures of the child that are not ignored do not occur. *)
Definition tolerated : Prop := IgnoreSolverFailures = true \/
  forall n, (child_status n = TimedOut \/ child_status n = Exited) /\ forall a t, vc_query n a t <> Error /\ vc_query n a t <> Timeout.

Definition total_size (objects : list Array) : Z := foldl (fun s object => BV.wrap 32 (s + Expr.size object)) 0 objects.

Lemma runAndGetCexForked_ok q asserted t objects s : useForkedSTP = true -> stp_query q -> translated q asserted t s -> Forall readable objects -> total_size objects < 2 ^ 20 -> tolerated ->
  exists r s', runAndGetCexForked IgnoreSolverFailures child_status asserted t objects s = Done (Some r, s') /\ stp_ok s' /\ run_result q objects r.
Proof.
  intros Hf Hq Ht Ho Hsum Htol. unfold runAndGetCexForked, next_run, mbind, SolverM_bind, assume. fold (total_size objects). rewrite (proj2 (Z.ltb_lt (total_size objects) shared_memory_size)) by done. cbn [builder runs runStatusCode].
  assert (Hcf : forall st s', stp_ok s' -> (st <> SUCCESS_SOLVABLE /\ st <> SUCCESS_UNSOLVABLE) -> IgnoreSolverFailures = true ->
    exists r s'', child_failed IgnoreSolverFailures st s' = Done (Some r, s'') /\ stp_ok s'' /\ run_result q objects r).
  { intros st s' Hs' [H1 H2] Hi. unfold child_failed. rewrite Hi. eexists _, _. split; [done|]. split; [done|]. unfold run_result. cbn. now destruct st. }
  set (s1 := mkSTP _ _ _ _). assert (Hs1 : stp_ok s1) by apply Ht.
  destruct (child_status (runs s)) eqn:Ec; try (apply Hcf; [done|done|destruct Htol as [?|Htol]; [done|destruct (Htol (runs s)) as [[?|?] _]; congruence]]).
  - eexists _, _. split; [done|]. split; [done|]. exact Hf.
  - destruct (vc_query (runs s) asserted t) as [m| | |] eqn:Ev; try (apply Hcf; [done|done|destruct Htol as [?|Htol]; [done|destruct (Htol (runs s)) as [_ Hn]; now destruct (Hn asserted t)]]).
    + destruct (values_answer _ q asserted t s m (fun object => read_all m object (seqZ 0 (Expr.size object))) objects Hq Ht Ho Ev) as (values & b & E & Hb & Hi); [intros env rho r st Hr O; apply read_all_ok; [done|intros i Hi%elem_of_seqZ; lia|done]|].
      unfold in_child. cbn [builder s1]. rewrite E. eexists _, _. split; [done|]. split; [done|exact Hi].
    + eexists _, _. split; [done|]. split; [done|]. destruct Ht as [Hs Hm]. exact (answer_valid _ q (builder s) asserted t Hq (tables_hashed _ Hs) Hm Ev).
Qed.

Hypothesis child_answers : useForkedSTP = true -> tolerated.

(** Objects whose bytes can be read: they fit the shared memory, and without a child process there is no hint. *)
Definition stp_objects (q : Query) (objects : list Array) : Prop :=
  Forall readable objects /\ (useForkedSTP = true -> total_size objects < 2 ^ 20) /\ (useForkedSTP = false -> q_indep_elemset q = None).

Notation initial_values := (STP_computeInitialValues UseConstructHash optimizeDivides useForkedSTP IgnoreSolverFailures un_addr child_status).

Lemma stp_initial_ok q objects : stp_query q -> stp_objects q objects -> spec (useForkedSTP = true) stp_ok (initial_values q objects) (initial_spec q objects).
Proof.
  intros Hq (Ho & Hsum & Hhint) s Hs. unfold STP_computeInitialValues, set_status, mbind, SolverM_bind, building. cbn [builder runs runStatusCode].
  destruct (builder_run (construct_all UseConstructHash optimizeDivides un_addr (q_constraints q)) (fun env rho st' ts => Forall2 (means env rho st') (q_constraints q) ts) (builder s) Hs) as (ts & b1 & E1 & H1).
  { intros env rho st O. apply construct_all_ok; [exact un_addr_distinct| |exact O]. destruct Hq as [Hc _]. eapply Forall_impl; [exact Hc|]. now intros e (_ & ? & _). }
  rewrite E1. cbn [builder runs runStatusCode].
  destruct (builder_run (construct_clear UseConstructHash optimizeDivides un_addr (q_expr q)) (fun env rho st' t => means env rho st' (q_expr q) t) b1) as (t & b2 & E2 & H2); [apply H1|intros env rho st O; apply construct_clear_ok; [exact un_addr_distinct|apply Hq|exact O]|].
  rewrite E2. cbn [builder runs runStatusCode]. set (s2 := mkSTP _ b2 _ _).
  assert (Ht : translated q ts t s2). { split; [intros env rho; apply H2|]. intros env rho. destruct (H1 env rho) as (_ & _ & M1), (H2 env rho) as (G2 & _ & M2). split; [now apply means_all_grows with b1|done]. }
  assert (Hrun : exists r s', (if useForkedSTP then runAndGetCexForked IgnoreSolverFailures child_status ts t objects else runAndGetCex ts t objects (q_indep_elemset q)) s2 = Done (Some r, s') /\ stp_ok s' /\ run_result q objects r).
  { destruct (Bool.bool_dec useForkedSTP true) as [Ef|Ef%not_true_is_false]; rewrite Ef; [apply runAndGetCexForked_ok; auto|]. rewrite Hhint by done. apply runAndGetCex_ok; auto. }
  destruct Hrun as ([status r] & s3 & E3 & Hs3 & Hr). rewrite E3. cbn [builder runs runStatusCode]. unfold run_result in Hr. cbn in Hr.
  destruct (negb useForkedSTP || _) eqn:Eb; cbn.
  - split; [exact Hs3|]. destruct status; try done; cbn in Eb; rewrite orb_false_r in Eb; rewrite Hr in Eb; discriminate.
  - split; [|exact Hs3]. apply orb_false_iff in Eb as [Eb _]. now apply negb_false_iff in Eb.
Qed.

Notation truth := (STP_computeTruth UseConstructHash optimizeDivides useForkedSTP IgnoreSolverFailures un_addr child_status).

(** No bytes are read. *)
Definition stp_hint (q : Query) : Prop := useForkedSTP = false -> q_indep_elemset q = None.

Lemma stp_truth_ok q : stp_query q -> stp_hint q -> spec (useForkedSTP = true) stp_ok (truth q) (truth_spec q).
Proof.
  intros Hq Hh. eapply spec_bind; [apply stp_initial_ok; [done|]|].
  - split; [done|]. split; [done|exact Hh].
  - intros [values|] Hv; apply spec_ret; [|exact Hv]. destruct Hv as (rho & Hc & _). now exists rho.
Qed.

Lemma stp_value_ok q : Forall stp_expr (q_constraints q) -> expr_ok U (q_expr q) -> satisfiable (q_constraints q) -> stp_hint q ->
  (useForkedSTP = true -> total_size (findSymbolicObjects UseVisitorHash [q_expr q]) < 2 ^ 20) ->
  spec (useForkedSTP = true) stp_ok (STP_computeValue UseVisitorHash UseConstructHash optimizeDivides useForkedSTP IgnoreSolverFailures un_addr child_status q) (value_spec q).
Proof.
  intros Hc He (rho0 & Hs0) Hh Hsum. unfold STP_computeValue. set (objects := findSymbolicObjects _ _).
  destruct (find_arrays_found UseVisitorHash isSymbolicArray [q_expr q]) as [_ Hfound]; [apply Forall_singleton; apply well_typed_wf_mut, He|]. fold (findSymbolicObjects UseVisitorHash [q_expr q]) in Hfound. fold objects in Hfound.
  eapply spec_bind; [apply (stp_initial_ok (withFalse q)); [split; [exact Hc|apply false_stp_expr]|]|].
  - split; [|split; [done|exact Hh]]. apply Forall_forall. intros r (Hs & e & ->%list_elem_of_singleton & Hin)%Hfound. pose proof (eo_arrays _ _ He r Hin) as HU.
    split; [done|]. split; [now apply arrays_well_formed|]. unfold isSymbolicArray in Hs. now apply negb_true_iff in Hs.
  - intros [values|] Hv; [|destruct (Hv rho0); now split]. destruct Hv as (rho & [[Hb Hm] _] & ->). destruct (eo_defined _ _ He _ Hb) as [v Ev].
    set (a := Assignment_create objects (bytes_of rho <$> objects) false).
    assert (Hd : describes a rho). { intros x vs Hin. cbn in Hin. rewrite zip_with_fmap_r in Hin. apply elem_of_lookup_zip_with in Hin as (i & y & z & [= -> ->] & Hy & Hz). congruence. }
    eapply (spec_pure _ _ _ (ConstantExpr v)); [|exists v, rho; done]. rewrite (evaluate_full UseVisitorHash U a (q_expr q) v); [done|now apply (describes_bytes_ok a rho)|done|done|].
    rewrite <- Ev. apply eval_ext_symbolic. intros x Hin Hs i Hi. apply describes_contents; auto. cbn. rewrite binding_values, decide_True; [eauto|]. apply Hfound. split; [unfold isSymbolicArray; now rewrite Hs|]. exists (q_expr q). split; [now left|done].
Qed.

Lemma stp_validity_ok q : stp_query q -> stp_query (negateExpr q) -> stp_hint q ->
  spec (useForkedSTP = true) stp_ok (SolverImpl_computeValidity truth q) (validity_spec q).
Proof.
  intros Hq Hn Hh. destruct (proj2 Hq) as [He _]. eapply spec_bind; [now apply stp_truth_ok|]. intros [] H1; [now apply spec_ret|]. eapply spec_bind; [now apply (stp_truth_ok (negateExpr q))|]. intros [] H2; apply spec_ret.
  - now apply (negate_valid U).
  - split; [|exact H1]. destruct H2 as [rho H2]. exists rho. now apply (negate_counterexample U).
Qed.

Lemma new_stp_ok : stp_ok new_STPState.
Proof. intros env rho. apply new_tables_ok. exact un_addr_distinct. Qed.

End Sound.

(** ** An instance

    Terms as functions of the contents of the variables, and a solver that knows one candidate for a counterexample. *)

Notation contents_fn := (string -> Z -> Z).

#[export] Instance vc_terms : VCOps := {|
  VCExpr := contents_fn -> term;
  VCType := vtype;
  vc_bvType := BVType;
  vc_arrayType := ArrayType;
  vc_varExpr nm t := fun env => @vc_varExpr (vc_values env) nm t;
  vc_readExpr a i := fun env => @vc_readExpr (vc_values env) (a env) (i env);
  vc_writeExpr a i v := fun env => @vc_writeExpr (vc_values env) (a env) (i env) (v env);
  vc_getBVLength a := width_of (a (fun _ _ => 0));
  vc_bvConstExprFromInt w x := fun env => @vc_bvConstExprFromInt (vc_values env) w x;
  vc_bvConstExprFromLL w x := fun env => @vc_bvConstExprFromLL (vc_values env) w x;
  vc_bvPlusExpr w a b := fun env => @vc_bvPlusExpr (vc_values env) w (a env) (b env);
  vc_bvMinusExpr w a b := fun env => @vc_bvMinusExpr (vc_values env) w (a env) (b env);
  vc_bvMultExpr w a b := fun env => @vc_bvMultExpr (vc_values env) w (a env) (b env);
  vc_bvDivExpr w a b := fun env => @vc_bvDivExpr (vc_values env) w (a env) (b env);
  vc_sbvDivExpr w a b := fun env => @vc_sbvDivExpr (vc_values env) w (a env) (b env);
  vc_bvModExpr w a b := fun env => @vc_bvModExpr (vc_values env) w (a env) (b env);
  vc_sbvRemExpr w a b := fun env => @vc_sbvRemExpr (vc_values env) w (a env) (b env);
  vc_bvUMinusExpr a := fun env => @vc_bvUMinusExpr (vc_values env) (a env);
  vc_bvNotExpr a := fun env => @vc_bvNotExpr (vc_values env) (a env);
  vc_bvAndExpr a b := fun env => @vc_bvAndExpr (vc_values env) (a env) (b env);
  vc_bvOrExpr a b := fun env => @vc_bvOrExpr (vc_values env) (a env) (b env);
  vc_bvXorExpr a b := fun env => @vc_bvXorExpr (vc_values env) (a env) (b env);
  vc_bvConcatExpr a b := fun env => @vc_bvConcatExpr (vc_values env) (a env) (b env);
  vc_bvExtract a top bottom := fun env => @vc_bvExtract (vc_values env) (a env) top bottom;
  vc_bvSignExtend a w := fun env => @vc_bvSignExtend (vc_values env) (a env) w;
  vc_eqExpr a b := fun env => @vc_eqExpr (vc_values env) (a env) (b env);
  vc_bvLtExpr a b := fun env => @vc_bvLtExpr (vc_values env) (a env) (b env);
  vc_bvLeExpr a b := fun env => @vc_bvLeExpr (vc_values env) (a env) (b env);
  vc_sbvLtExpr a b := fun env => @vc_sbvLtExpr (vc_values env) (a env) (b env);
  vc_sbvLeExpr a b := fun env => @vc_sbvLeExpr (vc_values env) (a env) (b env);
  vc_trueExpr := fun env => @vc_trueExpr (vc_values env);
  vc_falseExpr := fun env => @vc_falseExpr (vc_values env);
  vc_notExpr a := fun env => @vc_notExpr (vc_values env) (a env);
  vc_andExpr a b := fun env => @vc_andExpr (vc_values env) (a env) (b env);
  vc_orExpr a b := fun env => @vc_orExpr (vc_values env) (a env) (b env);
  vc_iffExpr a b := fun env => @vc_iffExpr (vc_values env) (a env) (b env);
  vc_iteExpr c a b := fun env => @vc_iteExpr (vc_values env) (c env) (a env) (b env)
|}.

(** A law of the values lifted to functions: it holds at [env], and at every other argument the
    term has the type. *)
Ltac lift_law law := cbn beta; let env := fresh "env" in intros env; intros;
  repeat match goal with H : (_ /\ forall _ : contents_fn, _) |- _ => destruct H end;
  split; [eapply (law env); eassumption|];
  let env' := fresh "env'" in intros env';
  repeat match goal with H : forall _ : contents_fn, exists _, _ |- _ => destruct (H env'); clear H end;
  eexists; eapply (law env'); eassumption.
Ltac lift_division law := cbn beta; let env := fresh "env" in intros env w a b x y [Ha Ta] [Hb Tb];
  destruct (law env w (a env) (b env) x y Ha Hb) as (q & Hq & Eq); exists q; split; [split; [exact Hq|]|exact Eq];
  let env' := fresh "env'" in intros env'; destruct (Ta env') as [x' Ha'], (Tb env') as [y' Hb']; destruct (law env' w (a env') (b env') x' y' Ha' Hb') as (q' & Hq' & _); exists q'; exact Hq'.
Notation law f := (fun env => f (vc_values env) env (vc_values_spec env)).

#[export, program] Instance vc_terms_spec (env : contents_fn) : VCSpec vc_terms env := {|
  bv e w x := vec_value (e env) w x /\ forall env', exists x', vec_value (e env') w x';
  fm e b := form_value (e env) b /\ forall env', exists b', form_value (e env') b';
  arr e d r f := arr_value (e env) d r f /\ forall env', exists f', arr_value (e env') d r f'
|}.
Next Obligation. intros env e w x [H _]. apply H. Qed.
Next Obligation. intros env e w x [_ H]. destruct (H (fun _ _ => 0)) as (x' & Hx & _). cbn. now rewrite Hx. Qed.
Next Obligation. unfold form_value. intros env e b b' [H _] [H' _]. congruence. Qed.
Next Obligation. lift_law (law (@bv_int)). Qed.
Next Obligation. lift_law (law (@bv_ll)). Qed.
Next Obligation. lift_law (law (@bv_plus)). Qed.
Next Obligation. lift_law (law (@bv_minus)). Qed.
Next Obligation. lift_law (law (@bv_mult)). Qed.
Next Obligation. lift_division (law (@bv_div)). Qed.
Next Obligation. lift_division (law (@bv_sdiv)). Qed.
Next Obligation. lift_division (law (@bv_mod)). Qed.
Next Obligation. lift_division (law (@bv_srem)). Qed.
Next Obligation. lift_law (law (@bv_uminus)). Qed.
Next Obligation. lift_law (law (@bv_not)). Qed.
Next Obligation. lift_law (law (@bv_and)). Qed.
Next Obligation. lift_law (law (@bv_or)). Qed.
Next Obligation. lift_law (law (@bv_xor)). Qed.
Next Obligation. lift_law (law (@bv_concat)). Qed.
Next Obligation. lift_law (law (@bv_extract)). Qed.
Next Obligation. lift_law (law (@bv_sext)). Qed.
Next Obligation. lift_law (law (@fm_eq)). Qed.
Next Obligation. lift_law (law (@fm_lt)). Qed.
Next Obligation. lift_law (law (@fm_le)). Qed.
Next Obligation. lift_law (law (@fm_slt)). Qed.
Next Obligation. lift_law (law (@fm_sle)). Qed.
Next Obligation. lift_law (law (@fm_true)). Qed.
Next Obligation. lift_law (law (@fm_false)). Qed.
Next Obligation. lift_law (law (@fm_not)). Qed.
Next Obligation. lift_law (law (@fm_and)). Qed.
Next Obligation. lift_law (law (@fm_or)). Qed.
Next Obligation. lift_law (law (@fm_iff)). Qed.
Next Obligation. lift_law (law (@fm_ite)). Qed.
Next Obligation. lift_law (law (@bv_ite)). Qed.
Next Obligation. lift_law (law (@arr_var)). Qed.
Next Obligation. lift_law (law (@arr_write)). Qed.
Next Obligation. lift_law (law (@bv_read)). Qed.

Definition vc_candidate (c : contents_fn) : VCQuery vc_terms := {|
  vc_model := contents_fn;
  vc_query n asserted q := if forallb (fun a => truth_of (a c)) asserted && negb (truth_of (q c)) then Invalid c else Error;
  getCounterExample m t := value_of (t m)
|}.

Lemma vc_candidate_spec c : VCQuerySpec vc_terms (vc_candidate c) vc_terms_spec.
Proof.
  split.
  - intros n asserted q. cbn. destruct (_ && _); done.
  - intros n asserted q m. cbn. destruct (_ && _) eqn:E; [|done]. intros [= <-] Hf. apply andb_true_iff in E as [Ea Eq%negb_true_iff]. rewrite forallb_forall in Ea. exists c.
    assert (Hfm : forall a, a ∈ q :: asserted -> form_value (a c) (truth_of (a c)) /\ forall env', exists b', form_value (a env') b').
    { intros a Ha. specialize (Hf c). rewrite Forall_forall in Hf. destruct (Hf a Ha) as (b & Hb & Ht). split; [|done]. now rewrite Hb. }
    split; [|split].
    + apply Forall_forall. intros a Ha. destruct (Hfm a ltac:(now right)) as [H1 H2]. rewrite (Ea a) in H1 by now apply list_elem_of_In. done.
    + destruct (Hfm q ltac:(now left)) as [H1 H2]. rewrite Eq in H1. done.
    + intros t w x [(E & _) _]. now rewrite E.
Qed.

(** ** Witness and limits *)

Definition cell_below (k : Z) : Expr := CmpExpr Ult cell_byte (const 8 k).
Definition no_nodes (r : Array) (u : UpdateNode) : bool := false.
Definition at_zero (r : Array) (u : UpdateNode) : Z := 0.

Lemma cell_below_stp k : 0 <= k < 256 -> stp_expr true no_nodes [cell] (cell_below k).
Proof.
  intros Hk. assert (Hv : ap_valid (APInt 8 k) = true) by (apply ap_valid_spec; cbn; lia).
  assert (Ev : forall rho, eval rho (cell_below k) = Some (APInt 1 (b2z (BV.wrap 8 (rho cell 0) <? k)))) by (intros rho; cbn [eval cell_below const cell_byte]; rewrite Hv; reflexivity).
  split; [split; [reflexivity|constructor]|split; [|split]].
  - cbn. now rewrite Hv.
  - intros rho _. rewrite Ev. eauto.
  - reflexivity.
  - done.
  - apply st_cmp. split; [apply cell_byte_inside|apply st_const].
  - split; [cbn; now rewrite Hv|]. split; [reflexivity|]. split; [reflexivity|]. done.
  - intros rho rho' H. rewrite !Ev. split; [|reflexivity]. now rewrite (H cell 0) by (cbn; lia).
  - reflexivity.
Qed.

(** Is a byte below 9 below 4? *)
Definition small_query (hint : option IndependentElementSet) : Query := mkQuery empty_manager [cell_below 9] false (cell_below 4) hint.
Definition five : contents_fn := fun _ _ => 5.

Definition stp_initial (forked : bool) (c : contents_fn) (q : Query) : outcome (option (option (list (list Z)))) :=
  '(r, _) ← STP_computeInitialValues (A := apint_ref) (Q := vc_candidate c) true true forked true at_zero (fun _ => Exited) q [cell] new_STPState; Done r.


(** Without a child process the bytes of an object that the hint has as a whole are not read: the answer is not a counterexample. *)
Example whole_object_not_read :
  stp_initial false five (small_query (Some (mkIES ∅ {[cell]} []))) = Done (Some (Some [[0]])) /\ eval (fun _ _ => 0) (cell_below 4) = Some (APInt 1 1).
Proof. split; vm_compute; reflexivity. Qed.

(** Without a child process an error of STP counts as a proof. *)
Example error_counts_as_valid : stp_initial false (fun _ _ => 100) (small_query None) = Done (Some None) /\ eval (fun _ _ => 5) (cell_below 4) = Some (APInt 1 0).
Proof. split; vm_compute; reflexivity. Qed.
