(* ===== verification/TimingSolver.v ===== *)
(** * The timing solver

    src/lib/Core/TimingSolver.cpp: the executor's way to the solver chain.  A question
    about an execution state is put under the state's constraints; constants are
    answered at once, and other expressions are simplified by the constraint manager
    first, when [simplifyExprs] is set.  Simplifying changes the tables of the manager
    ([mutable] fields), which is why the manager is part of the state here; the
    statistics and [queryCost] are not modelled.

    [Simplifier] states what the timing solver relies on in the manager: the
    simplified expression is again one a solver may be asked, and means the same
    under the constraints.  Without it an answer may be about another expression.
    [no_equalities_simplifier] discharges it for a manager that has no equalities (a
    state just forked: the copy constructor does not copy them). *)

From stdpp Require Import gmap strings.
From S2P Require Import Prelude APInt Expr ExprOrder ExprSem ExprCreate ExprCreateSound ExprTyping ExprVisitor ExprUtil ExprReplaceVisitor ExprClosure ConstraintManager Solver.

Section TimingSolver.
Context `{A : APIntOps} `{Opts : ExprOptions} {S : Type} (impl : SolverImpl S).
Context (simplifyExprs UseVisitorHash : bool) (visit_fuel : Expr -> nat).

(** The constraint manager of the execution state, and the state of the solver. *)
Notation T := (ConstraintManager * S)%type.

(** [if (simplifyExprs) expr = state.constraints.simplifyExpr(expr)] *)
Definition simplified (e : Expr) : SolverM T Expr :=
  if simplifyExprs then
    cm ← own;
    r ← pure (simplifyExpr UseVisitorHash (visit_fuel e) cm e);
    _ ← set_own r.2;
    mret r.1
  else mret e.

(** [Query(state.constraints, expr)] *)
Definition put_query {X} (op : Query -> SolverM S X) (e : Expr) : SolverM T X :=
  cm ← own; inner (op (Query'create cm e)).

Definition TimingSolver_evaluate (e : Expr) : SolverM T Validity :=
  match e with
  | ConstantExpr CE => mret (if isTrue CE then VTrue else VFalse)
  | _ => e' ← simplified e; put_query (evaluate impl) e'
  end.

Definition TimingSolver_mustBeTrue (e : Expr) : SolverM T bool :=
  match e with
  | ConstantExpr CE => mret (isTrue CE)
  | _ => e' ← simplified e; put_query (mustBeTrue impl) e'
  end.

Definition TimingSolver_mustBeFalse (e : Expr) : SolverM T bool := TimingSolver_mustBeTrue (createIsZero e).

Definition TimingSolver_mayBeTrue (e : Expr) : SolverM T bool :=
  res ← TimingSolver_mustBeFalse e; mret (negb res).

Definition TimingSolver_mayBeFalse (e : Expr) : SolverM T bool :=
  res ← TimingSolver_mustBeTrue e; mret (negb res).

Definition TimingSolver_getValue (e : Expr) : SolverM T apint :=
  match e with
  | ConstantExpr CE => mret CE
  | _ => e' ← simplified e; put_query (getValue impl) e'
  end.

(** No objects: [result] stays as it is, empty. *)
Definition TimingSolver_getInitialValues (objects : list Array) : SolverM T (list (list Z)) :=
  match objects with
  | [] => mret []
  | _ => put_query (fun q => getInitialValues impl q objects) (ConstantExpr (ConstantExpr'alloc 0 Bool))
  end.

Definition TimingSolver_getRange (e : Expr) : SolverM T (Expr * Expr) := put_query (getRange impl) e.

(** ** What the manager promises *)

Class Simplifier (U : list Array) (C : list Expr) (K : ConstraintManager -> Prop) : Prop := {
  sf_constraints cm : K cm -> constraints cm = C;
  sf_simplify cm e : K cm -> simplifyExprs = true -> expr_ok U e ->
    exists e' cm', simplifyExpr UseVisitorHash (visit_fuel e) cm e = Done (e', cm') /\ K cm' /\
      expr_ok U e' /\ getWidth e' = getWidth e /\ forall rho, satisfies rho C -> eval rho e' = eval rho e
}.

(** A manager without equalities, whose tables record that nothing was rewritten. *)
Definition no_equalities (C : list Expr) (cm : ConstraintManager) : Prop :=
  constraints cm = C /\ equalities cm = [] /\ identity_tables (tables cm).

#[export] Instance no_equalities_simplifier {AS : APIntSpec A} U C : (forall e, esize e <= visit_fuel e)%nat ->
  Simplifier U C (no_equalities C).
Proof.
  intros Hf. constructor; [now intros cm []|]. intros cm e (HC & HE & Ht) _ He. unfold simplifyExpr.
  destruct (is_constant e); [exists e, cm; split_and!; auto; now split_and!|].
  pose proof (absent_visit UseVisitorHash (ExprReplaceVisitorMulti []) eq_refl (visit_fuel e) e (Hf e)
    (has_width_wf _ _ (conj (eo_typed _ _ He) eq_refl)) ltac:(now intros x _) _ Ht) as H.
  rewrite HE. destruct (replace _ _ _ _ _) as [[r st]|]; [|done]. destruct H as [<- H]. cbn.
  eexists _, _. split_and!; [reflexivity|cbn; done..|exact He|done|done].
Qed.

(** ** The answers *)

Section Answers.
Context {AS : APIntSpec A} (U : list Array) (Ctx : Query -> Prop) {QC : QueryContext U Ctx}.
Context (Ini : Query -> list Array -> Prop) (F : Prop) (I : S -> Prop) {SS : SolverSpec U Ctx Ini F I impl}.
Context (C : list Expr) (K : ConstraintManager -> Prop) {SF : Simplifier U C K}.
Context (HK : forall cm e, K cm -> Ctx (Query'create cm e)) (HC : satisfiable C).

Definition timing_ok (s : T) : Prop := K s.1 /\ I s.2.

Lemma simplified_ok e : expr_ok U e -> spec F timing_ok (simplified e)
  (fun e' => expr_ok U e' /\ getWidth e' = getWidth e /\ forall rho, satisfies rho C -> eval rho e' = eval rho e).
Proof.
  intros He s [HKs HI]. unfold simplified. destruct simplifyExprs eqn:Es; [|now cbn].
  destruct (sf_simplify s.1 e HKs Es He) as (e' & cm' & E & HK' & H).
  unfold mbind, SolverM_bind, own, pure, set_own, mret, SolverM_ret. cbn beta iota. rewrite E. now split.
Qed.

Lemma put_query_ok {X} (op : Query -> SolverM S X) e P :
  (forall cm, K cm -> spec F I (op (Query'create cm e)) P) -> spec F timing_ok (put_query op e) P.
Proof.
  intros Hop s [HKs HI]. pose proof (Hop s.1 HKs s.2 HI) as H.
  unfold put_query, mbind, SolverM_bind, own, inner. destruct (op _ s.2) as [[[x|] s']| |]; try done; destruct H; done.
Qed.

(** What [mustBeTrue] answers. *)
Definition holds_everywhere (e : Expr) (b : bool) : Prop :=
  if b then forall rho, satisfies rho C -> eval rho e = Some (APInt 1 1)
  else exists rho, satisfies rho C /\ eval rho e = Some (APInt 1 0).
(** What [mayBeTrue] answers. *)
Definition holds_somewhere (e : Expr) (b : bool) : Prop :=
  if b then exists rho, satisfies rho C /\ eval rho e = Some (APInt 1 1)
  else forall rho, satisfies rho C -> eval rho e = Some (APInt 1 0).

Lemma simplified_bool e e' : bool_ok U e -> expr_ok U e' -> getWidth e' = getWidth e -> bool_ok U e'.
Proof. intros [We _] He' Ww. split; [congruence|done]. Qed.

Lemma TimingSolver_mustBeTrue_ok e : bool_ok U e -> spec F timing_ok (TimingSolver_mustBeTrue e) (holds_everywhere e).
Proof.
  intros He.
  assert (Hask : spec F timing_ok (e' ← simplified e; put_query (mustBeTrue impl) e') (holds_everywhere e)).
  { eapply spec_bind; [apply simplified_ok, He|]. intros e' (He' & Ww & Ev). apply put_query_ok. intros cm HKc.
    pose proof (simplified_bool e e' He He' Ww) as Hb. pose proof (sf_constraints cm HKc) as EC.
    eapply spec_mono; [apply (mustBeTrue_ok U Ctx Ini F I impl); [now apply HK|exact Hb|cbn; now rewrite EC]|].
    intros []; unfold truth_spec, valid, counterexample; cbn; rewrite EC.
    - intros H rho Hr. rewrite <- Ev by done. destruct (bool_ok_cases U e' rho Hb (proj1 Hr)) as [|E0]; [done|].
      now destruct (H rho).
    - intros (rho & Hr & E0). exists rho. split; [done|]. now rewrite <- Ev. }
  destruct e; try exact Hask. apply spec_ret. unfold holds_everywhere.
  destruct (constant_bool_ok U _ He) as [-> | ->].
  - rewrite isTrue_one. intros rho _. now apply eval_const.
  - rewrite isTrue_zero. destruct HC as [rho Hr]. exists rho. split; [done|]. now apply eval_const.
Qed.

Lemma TimingSolver_mayBeTrue_ok e : bool_ok U e -> spec F timing_ok (TimingSolver_mayBeTrue e) (holds_somewhere e).
Proof.
  intros He. eapply spec_bind; [apply (TimingSolver_mustBeTrue_ok (createIsZero e)); now apply IsZero_bool_ok|].
  intros [] H; apply spec_ret; cbn in *.
  - intros rho Hr. now apply (IsZero_value U e rho He (proj1 Hr)), H.
  - destruct H as (rho & Hr & H). exists rho. split; [done|]. now apply (IsZero_value U e rho He (proj1 Hr)).
Qed.

(** What [evaluate] answers. *)
Definition decides (e : Expr) (v : Validity) : Prop :=
  match v with
  | VTrue => holds_everywhere e true
  | VFalse => holds_somewhere e false
  | VUnknown => holds_somewhere e true /\ holds_everywhere e false
  end.

Lemma TimingSolver_evaluate_ok e : bool_ok U e -> spec F timing_ok (TimingSolver_evaluate e) (decides e).
Proof.
  intros He.
  assert (Hask : spec F timing_ok (e' ← simplified e; put_query (evaluate impl) e') (decides e)).
  { eapply spec_bind; [apply simplified_ok, He|]. intros e' (He' & Ww & Ev). apply put_query_ok. intros cm HKc.
    pose proof (simplified_bool e e' He He' Ww) as Hb. pose proof (sf_constraints cm HKc) as EC.
    eapply spec_mono; [apply (query_evaluate_ok U Ctx Ini F I impl); [now apply HK|exact Hb|cbn; now rewrite EC]|].
    assert (Hcases : forall rho, satisfies rho C -> eval rho e = Some (APInt 1 1) \/ eval rho e = Some (APInt 1 0))
      by (intros rho Hr; rewrite <- Ev by done; apply (bool_ok_cases U e' rho Hb), Hr).
    intros []; unfold validity_spec, valid, refuted, counterexample, example; cbn; rewrite EC.
    - intros H rho Hr. destruct (Hcases rho Hr) as [|E0]; [done|]. destruct (H rho). split; [done|]. now rewrite Ev.
    - intros H rho Hr. destruct (Hcases rho Hr) as [E0|]; [|done]. destruct (H rho). split; [done|]. now rewrite Ev.
    - intros [(r1 & H1 & E1) (r0 & H0 & E0)]. split; [exists r1|exists r0]; (split; [done|]); now rewrite <- Ev. }
  destruct e; try exact Hask. apply spec_ret. destruct (constant_bool_ok U _ He) as [-> | ->].
  - rewrite isTrue_one. intros rho _. now apply eval_const.
  - rewrite isTrue_zero. intros rho _. now apply eval_const.
Qed.

Lemma TimingSolver_getValue_ok e : expr_ok U e ->
  spec F timing_ok (TimingSolver_getValue e) (fun v => exists rho, satisfies rho C /\ eval rho e = Some v).
Proof.
  intros He.
  assert (Hask : spec F timing_ok (e' ← simplified e; put_query (getValue impl) e')
    (fun v => exists rho, satisfies rho C /\ eval rho e = Some v)).
  { eapply spec_bind; [apply simplified_ok, He|]. intros e' (He' & Ww & Ev). apply put_query_ok. intros cm HKc.
    pose proof (sf_constraints cm HKc) as EC.
    eapply spec_mono; [apply (getValue_ok U Ctx Ini F I impl); [now apply HK|exact He'|cbn; now rewrite EC]|].
    intros v (c & rho & [= <-] & Hr & E0). cbn in Hr, E0. rewrite EC in Hr. exists rho. split; [done|]. now rewrite <- Ev. }
  destruct e; try exact Hask. apply spec_ret. destruct HC as [rho Hr]. exists rho. split; [done|].
  apply eval_const. exact (eo_typed _ _ He).
Qed.

End Answers.
End TimingSolver.
