(* ===== verification/AddressResolve.v ===== *)
(** * Resolving pointers

    src/lib/Core/AddressSpace.cpp: [resolveOne] and [resolve], which find the memory
    objects a pointer may point into.  A constant is looked up in the map; for
    another expression the search starts at the object an example value points into
    and goes backwards and forwards from there, asking the solver about each object,
    until the pointer is known to lie beyond.

    The iterators are those of the map ([ImmutableTree]); a loop has the number of
    objects as fuel.  [clock n] is the outcome of the [n]-th test of the time
    spent, [timeout && timeout < timer.delta()]. *)

From stdpp Require Import gmap strings.
From S2P Require Import Prelude APInt Expr ExprOrder ExprSem ExprCreate ExprCreateSound ExprTyping ExprVisitor ExprEvaluator ExprUtil ExprClosure ConstraintManager Solver ImmutableTree BitArray ArrayCache Memory AddressSpace TimingSolver.

#[local] Existing Instance AVL.Node_eq_dec.

Notation ObjectPair := (MemoryObject * Z)%type.
Notation ResolutionList := (list (MemoryObject * Z)).

Definition u64 (x : Z) : Z := BV.wrap 64 x.

(** [MemoryObject hack(address)], which is only compared by its address. *)
Definition hack (address : Z) : MemoryObject := mkMemoryObject 0 address 0 false 0.

(** [address - mo->address < mo->size] *)
Definition inside (address : Z) (mo : MemoryObject) : bool := u64 (address - mo_address mo) <? mo_size mo.

(** A query that may fail, to go on after it. *)
Definition attempt {S X} (m : SolverM S X) : SolverM S (option X) := fun s =>
  match m s with Done (x, s') => Done (Some x, s') | Abort => Abort | OutOfFuel => OutOfFuel end.

Section Resolve.
Context `{A : APIntOps} `{Opts : ExprOptions} {MOpts : MemoryOptions} {S : Type} (impl : SolverImpl S).
Context (simplifyExprs UseVisitorHash : bool) (visit_fuel : Expr -> nat).

Notation T := (ConstraintManager * S)%type.
Notation mustBeTrue := (TimingSolver_mustBeTrue impl simplifyExprs UseVisitorHash visit_fuel).
Notation mayBeTrue := (TimingSolver_mayBeTrue impl simplifyExprs UseVisitorHash visit_fuel).
Notation getValue := (TimingSolver_getValue impl simplifyExprs UseVisitorHash visit_fuel).
Notation Iterator := (list (AVL.Node ObjectPair)).

Definition loop_fuel {X} : SolverM T X := fun _ => OutOfFuel.

Section Space.
Context (sp : AddressSpace).
Notation root := (objects sp).
Notation begin := (AVL.iterator_begin root).

(** [*oi]; reading the end is undefined. *)
Definition at_iterator {X} (oi : Iterator) (k : ObjectPair -> SolverM T X) : SolverM T X :=
  match oi with [] => abort | n :: _ => k (AVL.value null_binding n) end.

(** The object at an address. *)
Definition lookup_inside (address : Z) : option ObjectPair :=
  match ImmutableMap.lookup_previous MemoryObjectLT root (hack address) with
  | Some res => if inside address res.1 then Some res else None
  | None => None
  end.

(** [resolveOne] for a constant. *)
Definition resolveOne_constant (addr : apint) : option ObjectPair := lookup_inside (getZExtValue addr).

Definition upper_bound (example : Z) : outcome Iterator :=
  or_abort (AVL.upper_bound fst MemoryObjectLT null_binding root (hack example)).

(** ** [resolveOne] *)

(** The search backwards: an object, or none and the search goes on forwards. *)
Fixpoint resolveOne_backwards (fuel : nat) (address : Expr) (oi : Iterator) : SolverM T (option ObjectPair) :=
  match fuel with
  | O => loop_fuel
  | Datatypes.S fuel =>
    if decide (oi = begin) then mret None
    else
      let oi := AVL.iterator_decr root oi in
      at_iterator oi (fun b =>
        may ← mayBeTrue (getBoundsCheckPointer b.1 address);
        if may : bool then mret (Some b)
        else
          must ← mustBeTrue (UgeExpr'create address (getBaseExpr b.1));
          if must : bool then mret None else resolveOne_backwards fuel address oi)
  end.

Fixpoint resolveOne_forwards (fuel : nat) (address : Expr) (oi : Iterator) : SolverM T (option ObjectPair) :=
  match fuel with
  | O => loop_fuel
  | Datatypes.S fuel =>
    if decide (oi = AVL.iterator_end) then mret None
    else
      at_iterator oi (fun b =>
        must ← mustBeTrue (UltExpr'create address (getBaseExpr b.1));
        if must : bool then mret None
        else
          may ← mayBeTrue (getBoundsCheckPointer b.1 address);
          if may : bool then mret (Some b)
          else
            oi' ← pure (or_abort (AVL.iterator_incr oi));
            resolveOne_forwards fuel address oi')
  end.

Definition loops : nat := Datatypes.S (Z.to_nat (AVL.size root)).

(** The result is [result] if [success]; a failing query makes [resolveOne] fail. *)
Definition resolveOne (address : Expr) : SolverM T (option ObjectPair) :=
  match address with
  | ConstantExpr CE => mret (resolveOne_constant CE)
  | _ =>
    cex ← getValue address;
    let example := getZExtValue cex in
    match lookup_inside example with
    | Some res => mret (Some res)
    | None =>
      start ← pure (upper_bound example);
      r ← resolveOne_backwards loops address start;
      match r with
      | Some b => mret (Some b)
      | None => resolveOne_forwards loops address start
      end
    end
  end.

(** ** [resolve] *)

Definition checkPointerInObject (p : Expr) (op : ObjectPair) (rl : ResolutionList) (maxResolutions : Z) : SolverM T (Z * ResolutionList) :=
  let inBounds := getBoundsCheckPointer op.1 p in
  may ← attempt (mayBeTrue inBounds);
  match may with
  | None => mret (1, rl)
  | Some false => mret (2, rl)
  | Some true =>
    let rl := rl ++ [op] in
    let size := Z.of_nat (length rl) in
    if size =? 1 then
      must ← attempt (mustBeTrue inBounds);
      match must with
      | None => mret (1, rl)
      | Some true => mret (0, rl)
      | Some false => mret (2, rl)
      end
    else if size =? maxResolutions then mret (1, rl)
    else mret (2, rl)
  end.

(** How a loop ends: with the value to return, or by leaving it, after [n] tests of the
    time. *)
Inductive Exit := Return (incomplete : bool) | Leave (n : nat).

Section Loops.
Context (clock : nat -> bool) (maxResolutions : Z) (p : Expr).

Fixpoint resolve_backwards (fuel n : nat) (rl : ResolutionList) (oi : Iterator) : SolverM T (Exit * ResolutionList) :=
  match fuel with
  | O => loop_fuel
  | Datatypes.S fuel =>
    if decide (oi = begin) then mret (Leave n, rl)
    else
      let oi := AVL.iterator_decr root oi in
      at_iterator oi (fun op =>
        if clock n then mret (Return true, rl)
        else
          r ← checkPointerInObject p op rl maxResolutions;
          let '(incomplete, rl) := r in
          if negb (incomplete =? 2) then mret (Return (negb (incomplete =? 0)), rl)
          else
            must ← attempt (mustBeTrue (UgeExpr'create p (getBaseExpr op.1)));
            match must with
            | None => mret (Return true, rl)
            | Some true => mret (Leave (n + 1), rl)
            | Some false => resolve_backwards fuel (n + 1) rl oi
            end)
  end.

Fixpoint resolve_forwards (fuel n : nat) (rl : ResolutionList) (oi : Iterator) : SolverM T (Exit * ResolutionList) :=
  match fuel with
  | O => loop_fuel
  | Datatypes.S fuel =>
    if decide (oi = AVL.iterator_end) then mret (Leave n, rl)
    else
      at_iterator oi (fun op =>
        if clock n then mret (Return true, rl)
        else
          must ← attempt (mustBeTrue (UltExpr'create p (getBaseExpr op.1)));
          match must with
          | None => mret (Return true, rl)
          | Some true => mret (Leave (n + 1), rl)
          | Some false =>
            r ← checkPointerInObject p op rl maxResolutions;
            let '(incomplete, rl) := r in
            if negb (incomplete =? 2) then mret (Return (negb (incomplete =? 0)), rl)
            else
              oi' ← pure (or_abort (AVL.iterator_incr oi));
              resolve_forwards fuel (n + 1) rl oi'
          end)
  end.

(** Whether the resolution is incomplete, and the list, empty at the call. *)
Definition resolve : SolverM T (bool * ResolutionList) :=
  match p with
  | ConstantExpr CE => mret (false, match resolveOne_constant CE with Some res => [res] | None => [] end)
  | _ =>
    cex ← attempt (getValue p);
    match cex with
    | None => mret (true, [])
    | Some cex =>
      let example := getZExtValue cex in
      start ← pure (upper_bound example);
      '(exit, rl) ← resolve_backwards loops 0 [] start;
      match exit with
      | Return incomplete => mret (incomplete, rl)
      | Leave n =>
        '(exit, rl) ← resolve_forwards loops n rl start;
        match exit with
        | Return incomplete => mret (incomplete, rl)
        | Leave _ => mret (false, rl)
        end
      end
    end
  end.

End Loops.
End Space.
End Resolve.
