(* ===== verification/AddressResolveSound.v ===== *)
(** * What resolving a pointer finds

    [resolve] and [resolveOne] of src/lib/Core/AddressSpace.cpp against the meaning of
    the pointer: the objects that contain one of the addresses it has under the path
    constraints.  The searches ask about few objects; that they miss none depends on
    the objects being disjoint, which the memory manager guarantees
    ([space_ok]). *)

From Stdlib Require Import Sorting.Sorted.
From stdpp Require Import gmap strings.
From S2P Require Import Prelude APInt Expr ImmutableTree BitArray ArrayCache Memory AddressSpace ExprOrder ExprSem ExprCreate ExprCreateSound ExprTyping ExprVisitor ExprEvaluator ExprUtil ExprClosure ConstraintManager Solver TimingSolver AddressResolve.

#[local] Existing Instance AVL.Node_eq_dec.

(** The addresses of an object. *)
Definition contains (mo : MemoryObject) (address : Z) : Prop := mo_address mo <= address < mo_address mo + mo_size mo.

(** [b] ends before [b'] starts. *)
Definition ends_before (b b' : ObjectPair) : Prop :=
  mo_address b.1 < mo_address b'.1 /\ mo_address b.1 + mo_size b.1 <= mo_address b'.1.

Section Sound.
Context `{A : APIntOps} {AS : APIntSpec A} `{Opts : ExprOptions} {MOpts : MemoryOptions}.
Notation W := getPointerWidth.

(** The object is inside the memory a pointer can address. *)
Definition object_fits (b : ObjectPair) : Prop :=
  0 <= mo_address b.1 < 2 ^ W /\ 0 <= mo_size b.1 < 2 ^ 32 /\ mo_address b.1 + mo_size b.1 <= 2 ^ W.

Record space_ok (sp : AddressSpace) : Prop := {
  so_balanced : AVL.balanced (objects sp);
  so_fits : Forall object_fits (AVL.elements (objects sp));
  so_disjoint : StronglySorted ends_before (AVL.elements (objects sp))
}.

Lemma space_ordered sp : space_ok sp -> AVL.ordered fst MemoryObjectLT (objects sp).
Proof.
  intros [_ _ H]. unfold AVL.ordered. induction H as [|b l Hs IH Hb]; constructor; [done|].
  eapply Forall_impl; [exact Hb|]. intros b' [H _]. now apply Z.ltb_lt.
Qed.

Context {S : Type} (impl : SolverImpl S) (simplifyExprs UseVisitorHash : bool) (visit_fuel : Expr -> nat).
Context (U : list Array) (Ctx : Query -> Prop) {QC : QueryContext U Ctx}.
Context (Ini : Query -> list Array -> Prop) (F : Prop) (I : S -> Prop) {SS : SolverSpec U Ctx Ini F I impl}.
Context (C : list Expr) (K : ConstraintManager -> Prop) {SF : Simplifier simplifyExprs UseVisitorHash visit_fuel U C K}.
Context (HK : forall cm e, K cm -> Ctx (Query'create cm e)) (HC : satisfiable C).
Context (HW : 32 <= W <= 64) (sp : AddressSpace) (Hsp : space_ok sp) (p : Expr) (Hp : expr_ok U p) (Wp : getWidth p = W).

Notation ok := (spec F (timing_ok I K)).
Notation mustBeTrue := (TimingSolver_mustBeTrue impl simplifyExprs UseVisitorHash visit_fuel).
Notation mayBeTrue := (TimingSolver_mayBeTrue impl simplifyExprs UseVisitorHash visit_fuel).
Notation getValue := (TimingSolver_getValue impl simplifyExprs UseVisitorHash visit_fuel).
Notation root := (objects sp).
Notation bindings := (AVL.elements (objects sp)).

(** The addresses the pointer has under the constraints. *)
Definition points_to (v : Z) : Prop := exists rho, satisfies rho C /\ eval rho p = Some (APInt W v).
Definition may_point (b : ObjectPair) : Prop := exists v, points_to v /\ contains b.1 v.

Lemma pointer_value rho : satisfies rho C -> exists v, eval rho p = Some (APInt W v) /\ 0 <= v < 2 ^ W.
Proof.
  intros Hr. destruct (eo_defined _ _ Hp rho (proj1 Hr)) as [[w v] Hv]. pose proof (eval_width _ _ _ Hv) as Ew. cbn in Ew.
  replace w with W in Hv by congruence. exists v. split; [done|]. apply eval_valid in Hv. now apply BV.in_range_spec in Hv as [_ Hv].
Qed.

Lemma points_range v : points_to v -> 0 <= v < 2 ^ W.
Proof. intros (rho & Hr & Hv). apply eval_valid in Hv. now apply BV.in_range_spec in Hv as [_ Hv]. Qed.

(** ** The tests *)

Definition word (v : Z) : Expr := ConstantExpr (ConstantExpr'create v W).

Lemma word_value v : 0 <= v < 2 ^ W -> word v = ConstantExpr (APInt W v).
Proof.
  intros Hv. unfold word, ConstantExpr'create, ConstantExpr'alloc.
  assert (2 ^ W <= 2 ^ 64) by (apply Z.pow_le_mono_r; lia). rewrite ap_make_spec by lia. now rewrite BV.wrap_small.
Qed.

Lemma eval_word rho v : 0 <= v < 2 ^ W -> eval rho (word v) = Some (APInt W v).
Proof. intros. rewrite word_value by done. apply eval_const, BV.in_range_spec. cbn. lia. Qed.

Lemma word_ok v : 0 <= v < 2 ^ W -> has_width W (word v).
Proof. intros. rewrite word_value by done. split; [apply BV.in_range_spec; cbn; lia|done]. Qed.

(** A test of the pointer that compares it, or its offset from a base, with a
    constant. *)
Record test_of (x : Expr) (t : Z -> bool) : Prop := {
  to_ok : bool_ok U x;
  to_value rho v : eval rho p = Some (APInt W v) -> 0 <= v < 2 ^ W -> eval rho x = Some (APInt 1 (b2z (t v)))
}.

Lemma test_intro x t : has_width 1 x -> evaluable true x = true -> arrays x ⊆ U -> reads_inside x ->
  (forall rho v, eval rho p = Some (APInt W v) -> 0 <= v < 2 ^ W -> eval rho x = Some (APInt 1 (b2z (t v)))) -> test_of x t.
Proof.
  intros [Tx Wx] H1 H2 H3 Hv. split; [|done]. split; [done|]. constructor; [done| |done..]. intros rho Hr.
  destruct (eo_defined _ _ Hp rho Hr) as [[w v] Ev]. pose proof (eval_width _ _ _ Ev) as Ew. cbn in Ew.
  replace w with W in Ev by congruence. eexists. apply Hv; [done|]. apply eval_valid in Ev. now apply BV.in_range_spec in Ev as [_ Ev].
Qed.

Lemma must_test x t : test_of x t ->
  ok (mustBeTrue x) (fun b => if b : bool then forall v, points_to v -> t v = true else exists v, points_to v /\ t v = false).
Proof.
  intros [Hok Hv]. eapply spec_mono; [now apply (TimingSolver_mustBeTrue_ok impl _ _ _ U Ctx Ini F I C K)|].
  intros []; cbn.
  - intros H v Hpt. pose proof (points_range v Hpt) as Hr. destruct Hpt as (rho & Hs & Ev).
    specialize (H rho Hs). rewrite (Hv rho v Ev Hr) in H. now destruct (t v).
  - intros (rho & Hs & E0). destruct (pointer_value rho Hs) as (v & Ev & Hr). exists v. split; [now exists rho|].
    rewrite (Hv rho v Ev Hr) in E0. now destruct (t v).
Qed.

Lemma may_test x t : test_of x t ->
  ok (mayBeTrue x) (fun b => if b : bool then exists v, points_to v /\ t v = true else forall v, points_to v -> t v = false).
Proof.
  intros [Hok Hv]. eapply spec_mono; [now apply (TimingSolver_mayBeTrue_ok impl _ _ _ U Ctx Ini F I C K)|].
  intros []; cbn.
  - intros (rho & Hs & E0). destruct (pointer_value rho Hs) as (v & Ev & Hr). exists v. split; [now exists rho|].
    rewrite (Hv rho v Ev Hr) in E0. now destruct (t v).
  - intros H v Hpt. pose proof (points_range v Hpt) as Hr. destruct Hpt as (rho & Hs & Ev).
    specialize (H rho Hs). rewrite (Hv rho v Ev Hr) in H. now destruct (t v).
Qed.

Lemma pointer_width : has_width W p.
Proof. split; [apply Hp|done]. Qed.

Lemma above_test b : object_fits b -> test_of (UgeExpr'create p (getBaseExpr b.1)) (fun v => mo_address b.1 <=? v).
Proof.
  intros (Ha & _). change (getBaseExpr b.1) with (word (mo_address b.1)). apply test_intro.
  - exact (hw_Cmp W Uge p _ pointer_width (word_ok _ Ha)).
  - apply (st_Ule (fun e => evaluable true e = true)); [done|apply Hp].
  - apply (st_Ule (fun e => arrays e ⊆ U)); [cbn; set_solver|apply Hp].
  - apply (st_Ule reads_inside); [apply (st_const (P:=reads_inside))|apply Hp].
  - intros rho v Ev Hv. apply (Cmp'create_sound Uge p (word _)).
    exact (eval_compare_at rho Uge _ _ _ _ _ Ev (eval_word rho _ Ha)).
Qed.

Lemma below_test b : object_fits b -> test_of (UltExpr'create p (getBaseExpr b.1)) (fun v => v <? mo_address b.1).
Proof.
  intros (Ha & _). change (getBaseExpr b.1) with (word (mo_address b.1)). apply test_intro.
  - exact (hw_Cmp W Ult p _ pointer_width (word_ok _ Ha)).
  - apply (st_Ult (fun e => evaluable true e = true)); [apply Hp|done].
  - apply (st_Ult (fun e => arrays e ⊆ U)); [apply Hp|cbn; set_solver].
  - apply (st_Ult reads_inside); [apply Hp|apply (st_const (P:=reads_inside))].
  - intros rho v Ev Hv. apply (Cmp'create_sound Ult p (word _)).
    exact (eval_compare_at rho Ult _ _ _ _ _ Ev (eval_word rho _ Ha)).
Qed.

Definition contains_bool (mo : MemoryObject) (v : Z) : bool := (mo_address mo <=? v) && (v <? mo_address mo + mo_size mo).

Lemma contains_iff mo v : contains_bool mo v = true <-> contains mo v.
Proof. unfold contains_bool, contains. rewrite andb_true_iff, Z.leb_le, Z.ltb_lt. done. Qed.

(** An offset that wraps around is beyond the object. *)
Lemma offset_inside n b v : object_fits b -> 0 <= v < 2 ^ W -> W <= n ->
  (BV.wrap n (v - mo_address b.1) <? mo_size b.1) = contains_bool b.1 v.
Proof.
  intros (Ha & Hs & He) Hv Hn. assert (2 ^ W <= 2 ^ n) by (apply Z.pow_le_mono_r; lia). unfold contains_bool.
  destruct (Z.leb_spec (mo_address b.1) v); cbn [andb].
  - rewrite BV.wrap_small by lia. apply eq_true_iff_eq. rewrite !Z.ltb_lt. lia.
  - replace (BV.wrap n _) with (v - mo_address b.1 + 2 ^ n); [apply Z.ltb_ge; lia|].
    unfold BV.wrap. apply (Z.mod_unique _ _ (-1)); lia.
Qed.

Lemma bounds_test b : object_fits b -> test_of (getBoundsCheckPointer b.1 p) (contains_bool b.1).
Proof.
  intros Hb. pose proof Hb as (Ha & Hs & He). unfold getBoundsCheckPointer, getBoundsCheckOffset, getOffsetExpr.
  change (getBaseExpr b.1) with (word (mo_address b.1)). change (getSizeExpr b.1) with (word (mo_size b.1)).
  assert (2 ^ 32 <= 2 ^ W) by (apply Z.pow_le_mono_r; lia).
  destruct (Z.eqb_spec (mo_size b.1) 0) as [E0|Hne].
  { replace (ConstantExpr (ConstantExpr'alloc 0 Bool)) with false_expr
      by (unfold ConstantExpr'alloc; now rewrite ap_make_spec by (unfold Bool; lia)).
    split; [apply false_bool_ok|]. intros rho v Ev Hv. replace (contains_bool b.1 v) with false; [now apply eval_const|].
    symmetry. apply not_true_iff_false. rewrite contains_iff. unfold contains. lia. }
  apply test_intro.
  - refine (hw_Cmp W Ult _ _ _ (word_ok _ _)); [exact (hw_Arith Sub W p _ pointer_width (word_ok _ Ha))|lia].
  - apply (st_Ult (fun e => evaluable true e = true)); [|done]. apply (st_Sub_constant (fun e => evaluable true e = true)), Hp.
  - apply (st_Ult (fun e => arrays e ⊆ U)); [|cbn; set_solver]. apply (st_Sub_constant (fun e => arrays e ⊆ U)), Hp.
  - apply (st_Ult reads_inside); [|apply (st_const (P:=reads_inside))]. apply (st_Sub_constant reads_inside), Hp.
  - intros rho v Ev Hv. rewrite <- (offset_inside W) by (done || lia). apply (Cmp'create_sound Ult).
    refine (eval_compare_at rho Ult _ _ _ _ _ _ (eval_word rho (mo_size b.1) ltac:(lia))).
    apply (Arith'create_sound Sub). now apply (eval_binary_at rho Sub _ _ _ _ _ _ Ev (eval_word rho _ Ha)).
Qed.

(** ** Disjoint objects *)

Lemma sorted_around l1 b l2 : StronglySorted ends_before (l1 ++ b :: l2) ->
  Forall (fun b' => ends_before b' b) l1 /\ Forall (ends_before b) l2.
Proof.
  induction l1 as [|x l1 IH]; cbn; intros H; apply StronglySorted_inv in H as [Hs Hx]; [done|].
  destruct (IH Hs) as [H1 H2]. split; [|done]. constructor; [|done]. apply Forall_app in Hx as [_ Hx]. now inversion Hx.
Qed.

Lemma bindings_around l1 b l2 : bindings = l1 ++ b :: l2 ->
  (forall b', b' ∈ l1 -> ends_before b' b) /\ (forall b', b' ∈ l2 -> ends_before b b').
Proof.
  intros E. pose proof (so_disjoint _ Hsp) as H. rewrite E in H. apply sorted_around in H as [H1 H2].
  now rewrite !Forall_forall in *.
Qed.

Lemma ends_before_irrefl b : ~ ends_before b b.
Proof. intros []. lia. Qed.

Lemma object_at_unique b b' v : b ∈ bindings -> b' ∈ bindings -> contains b.1 v -> contains b'.1 v -> b = b'.
Proof.
  intros Hb Hb' Hv Hv'. apply list_elem_of_split in Hb as (l1 & l2 & E). destruct (bindings_around _ _ _ E) as [H1 H2].
  rewrite E in Hb'. unfold contains in *. apply elem_of_app in Hb' as [Hb'|Hb'%elem_of_cons]; [|destruct Hb' as [->|Hb']; [done|]].
  - destruct (H1 _ Hb'). lia.
  - destruct (H2 _ Hb'). lia.
Qed.

Lemma binding_fits b : b ∈ bindings -> object_fits b.
Proof. intros Hb. pose proof (so_fits _ Hsp) as H. rewrite Forall_forall in H. auto. Qed.

Lemma sorted_last l b b' : StronglySorted ends_before l -> last l = Some b -> b' ∈ l -> b' = b \/ ends_before b' b.
Proof.
  intros Hs Hl Hb'. apply last_Some in Hl as (l' & ->). apply sorted_around in Hs as [H1 _]. rewrite Forall_forall in H1.
  apply elem_of_app in Hb' as [Hb'|Hb'%list_elem_of_singleton]; auto.
Qed.

Lemma sorted_filter (f : ObjectPair -> bool) l : StronglySorted ends_before l -> StronglySorted ends_before (List.filter f l).
Proof.
  induction 1 as [|b l Hs IH Hb]; cbn; [constructor|]. destruct (f b); [|done]. constructor; [done|].
  rewrite Forall_forall in *. intros x [Hx _]%list_elem_of_In%filter_In. apply Hb. now apply list_elem_of_In.
Qed.

(** The lookup of an address finds the object that contains it. *)
Lemma lookup_inside_ok v : 0 <= v < 2 ^ W ->
  match lookup_inside sp v with
  | Some b => b ∈ bindings /\ contains b.1 v
  | None => forall b, b ∈ bindings -> ~ contains b.1 v
  end.
Proof.
  intros Hv. unfold lookup_inside, ImmutableMap.lookup_previous, AVL.lookup_previous.
  rewrite (AVL.lookup_previous_loop_spec fst MemoryObjectLT) by now apply space_ordered.
  assert (Hup : forall b, b ∈ AVL.upto fst MemoryObjectLT (hack v) bindings <-> b ∈ bindings /\ mo_address b.1 <= v).
  { intros b. unfold AVL.upto. rewrite !list_elem_of_In, filter_In. unfold MemoryObjectLT, hack. cbn [mo_address].
    rewrite negb_true_iff, Z.ltb_ge. done. }
  pose proof (sorted_filter (fun x => negb (MemoryObjectLT (hack v) x.1)) _ (so_disjoint _ Hsp)) as Hsort.
  destruct (last _) as [b|] eqn:El.
  - assert (b ∈ bindings /\ mo_address b.1 <= v) as [Hb Ha] by (apply Hup; now apply last_Some_elem_of).
    change (inside v b.1) with (BV.wrap 64 (v - mo_address b.1) <? mo_size b.1).
    rewrite (offset_inside 64 b v (binding_fits b Hb) Hv) by lia. destruct (contains_bool b.1 v) eqn:Ec; [split; [done|]; now apply contains_iff|].
    intros b' Hb' Hc. assert (Hin : b' ∈ AVL.upto fst MemoryObjectLT (hack v) bindings) by (apply Hup; split; [done|apply Hc]).
    destruct (sorted_last _ _ _ Hsort El Hin) as [->|[_ He]].
    + apply contains_iff in Hc. congruence.
    + unfold contains in Hc. lia.
  - apply last_None in El. intros b Hb Hc. assert (b ∈ AVL.upto fst MemoryObjectLT (hack v) bindings) as Hin
      by (apply Hup; split; [done|apply Hc]). rewrite El in Hin. now apply elem_of_nil in Hin.
Qed.

Lemma pointer_address c : (exists rho, satisfies rho C /\ eval rho p = Some c) ->
  points_to (getZExtValue c) /\ 0 <= getZExtValue c < 2 ^ W.
Proof.
  intros (rho & Hr & Ec). destruct (pointer_value rho Hr) as (v & Ev & Hv). rewrite Ev in Ec. injection Ec as <-.
  unfold getZExtValue. rewrite ap_getZExtValue_spec by (cbn; lia || apply BV.in_range_spec; cbn; lia). cbn.
  split; [now exists rho|done].
Qed.

(** ** One object *)

Lemma may_point_test b : (exists v, points_to v /\ contains_bool b.1 v = true) <-> may_point b.
Proof. unfold may_point. now setoid_rewrite contains_iff. Qed.

Lemma not_may_point_test b : (forall v, points_to v -> contains_bool b.1 v = false) -> ~ may_point b.
Proof. intros H (v & Hv & Hc%contains_iff). rewrite H in Hc; done. Qed.

(** Nothing before an object the pointer is not below, and nothing from an object on
    that it is below. *)
Lemma above_none b b' : ends_before b' b -> (forall v, points_to v -> (mo_address b.1 <=? v) = true) -> ~ may_point b'.
Proof. intros [_ He] H (v & Hv & Hc). specialize (H v Hv). apply Z.leb_le in H. unfold contains in Hc. lia. Qed.

Lemma below_none b b' : b' = b \/ ends_before b b' -> (forall v, points_to v -> (v <? mo_address b.1) = true) -> ~ may_point b'.
Proof.
  intros Hb H (v & Hv & Hc). specialize (H v Hv). apply Z.ltb_lt in H. unfold contains in Hc.
  destruct Hb as [->|[Ha _]]; lia.
Qed.

Notation position := (AVL.position root).
Notation preceding := (AVL.preceding null_binding root).
Notation remaining := (AVL.remaining null_binding).

(** A step backwards, and the binding at an iterator. *)
Lemma decr_step oi : position oi -> oi <> AVL.iterator_begin root ->
  exists n st, AVL.iterator_decr root oi = n :: st /\ position (n :: st) /\ preceding oi = preceding (n :: st) ++ [AVL.value null_binding n] /\
    AVL.value null_binding n ∈ bindings /\ forall b, b ∈ preceding (n :: st) -> ends_before b (AVL.value null_binding n).
Proof.
  intros Hp' Hne. pose proof (space_ordered sp Hsp) as Ho.
  pose proof (AVL.iterator_decr_spec fst MemoryObjectLT null_binding root oi Ho Hp') as H.
  pose proof (AVL.position_split fst MemoryObjectLT null_binding root oi Ho Hp') as E.
  destruct (AVL.iterator_decr root oi) as [|n st].
  { destruct Hne. now apply (AVL.begin_preceding fst MemoryObjectLT null_binding). }
  destruct H as [Hpn Hpre]. exists n, st. rewrite <- Hpre, <- app_assoc in E. split_and!; [done..| |].
  - rewrite E. set_solver.
  - now apply (bindings_around _ _ _ E).
Qed.

Lemma incr_step n st : position (n :: st) ->
  exists oi, AVL.iterator_incr (n :: st) = Some oi /\ position oi /\ remaining (n :: st) = AVL.value null_binding n :: remaining oi /\
    AVL.value null_binding n ∈ bindings /\ forall b, b ∈ remaining oi -> ends_before (AVL.value null_binding n) b.
Proof.
  intros Hp'. pose proof (space_ordered sp Hsp) as Ho.
  destruct (AVL.iterator_incr_spec fst MemoryObjectLT null_binding root (n :: st) Ho Hp') as (oi & Hi & Hpo & Hr); [done|].
  pose proof (AVL.position_split fst MemoryObjectLT null_binding root (n :: st) Ho Hp') as E.
  cbn [AVL.remaining tail] in Hr. exists oi. cbn [AVL.remaining] in E |- *. rewrite <- Hr in *. split_and!; [done..| |].
  - rewrite E. set_solver.
  - now apply (bindings_around _ _ _ E).
Qed.

(** ** [resolveOne] *)

Notation resolveOne := (resolveOne impl simplifyExprs UseVisitorHash visit_fuel sp).
Notation resolveOne_backwards := (resolveOne_backwards impl simplifyExprs UseVisitorHash visit_fuel sp).
Notation resolveOne_forwards := (resolveOne_forwards impl simplifyExprs UseVisitorHash visit_fuel).

(** An object the pointer may point into, if there is one among [l]. *)
Definition one_of (l : list ObjectPair) (r : option ObjectPair) : Prop :=
  match r with Some b => b ∈ bindings /\ may_point b | None => forall b, b ∈ l -> ~ may_point b end.

Lemma resolveOne_backwards_ok fuel : forall oi, position oi -> (length (preceding oi) < fuel)%nat ->
  ok (resolveOne_backwards fuel p oi) (one_of (preceding oi)).
Proof.
  induction fuel as [|fuel IH]; intros oi Ho Hf; [lia|]. cbn [AddressResolve.resolveOne_backwards]. case_decide as Hb.
  { apply spec_ret. replace (preceding oi) with (@nil ObjectPair); [intros b Hin; now apply elem_of_nil in Hin|].
    symmetry. apply (AVL.begin_preceding fst MemoryObjectLT null_binding root oi (space_ordered sp Hsp) Ho), Hb. }
  destruct (decr_step oi Ho Hb) as (n & st & -> & Hn & E & Hin & Hbef). set (b := AVL.value null_binding n) in *.
  cbn [at_iterator]. fold b. pose proof (binding_fits b Hin) as Hfit.
  eapply spec_bind; [apply (may_test _ _ (bounds_test b Hfit))|]. intros [] Hmay.
  { apply spec_ret. split; [done|]. now apply may_point_test. }
  apply not_may_point_test in Hmay. eapply spec_bind; [apply (must_test _ _ (above_test b Hfit))|]. rewrite E. intros [] Hmust.
  - apply spec_ret. intros b' [Hb'| ->%list_elem_of_singleton]%elem_of_app; [|done]. apply (above_none b); auto.
  - eapply spec_mono; [apply IH; [done|assert (length [b] = 1%nat) by done; rewrite E, length_app in Hf; lia]|]. intros [r|] Hr; [done|].
    intros b' [Hb'| ->%list_elem_of_singleton]%elem_of_app; [now apply Hr|done].
Qed.

Lemma resolveOne_forwards_ok fuel : forall oi, position oi -> (length (remaining oi) < fuel)%nat ->
  ok (resolveOne_forwards fuel p oi) (one_of (remaining oi)).
Proof.
  induction fuel as [|fuel IH]; intros oi Ho Hf; [lia|]. cbn [AddressResolve.resolveOne_forwards]. destruct oi as [|n st].
  { rewrite decide_True by done. apply spec_ret. intros b Hin. now apply elem_of_nil in Hin. }
  rewrite decide_False by done. destruct (incr_step n st Ho) as (oi & Ei & Hoi & E & Hin & Haft). rewrite E in *. rewrite Ei.
  cbn [at_iterator]. set (b := AVL.value null_binding n) in *. pose proof (binding_fits b Hin) as Hfit.
  eapply spec_bind; [apply (must_test _ _ (below_test b Hfit))|]. intros [] Hmust.
  { apply spec_ret. intros b' Hb'%elem_of_cons. apply (below_none b); [|done]. destruct Hb'; auto. }
  eapply spec_bind; [apply (may_test _ _ (bounds_test b Hfit))|]. intros [] Hmay.
  { apply spec_ret. split; [done|]. now apply may_point_test. }
  apply not_may_point_test in Hmay. eapply spec_bind; [now apply (spec_pure _ _ _ oi (eq oi))|]. intros ? <-.
  eapply spec_mono; [apply IH; [done|rewrite length_cons in Hf; lia]|]. intros [r|] Hr; [done|].
  intros b' [->|Hb']%elem_of_cons; [done|now apply Hr].
Qed.

(** The iterator the searches start from divides the objects. *)
Lemma start_ok v : exists start, upper_bound sp v = Done start /\ position start /\ bindings = preceding start ++ remaining start /\
  (length (preceding start) < loops sp)%nat /\ (length (remaining start) < loops sp)%nat.
Proof.
  pose proof (space_ordered sp Hsp) as Ho.
  destruct (AVL.upper_bound_spec fst MemoryObjectLT null_binding root (hack v) Ho) as (start & E & Hst & _).
  exists start. unfold upper_bound. rewrite E. pose proof (AVL.position_split fst MemoryObjectLT null_binding root start Ho Hst) as Es.
  split_and!; [done..| |]; unfold loops; rewrite AVL.size_spec, Nat2Z.id, Es, length_app; lia.
Qed.

Lemma constant_or_not e : (exists c, e = ConstantExpr c) \/
  forall X (f : apint -> X) (g : X), match e with ConstantExpr c => f c | _ => g end = g.
Proof. destruct e; eauto. Qed.

Lemma constant_points c : p = ConstantExpr c -> points_to (getZExtValue c) /\ forall v, points_to v -> v = getZExtValue c.
Proof.
  intros E. assert (Ev : forall rho, eval rho p = Some c) by (pose proof (eo_typed _ _ Hp) as Ht; intros rho; rewrite E in Ht |- *; now apply eval_const).
  destruct HC as [rho Hr]. split; [apply pointer_address; now exists rho|]. intros v (rho' & _ & Ev'). rewrite Ev in Ev'.
  injection Ev' as ->. unfold getZExtValue. pose proof (eval_valid _ _ _ (Ev rho)) as V. now rewrite ap_getZExtValue_spec by (done || cbn; lia).
Qed.

Lemma lookup_points v : points_to v -> match lookup_inside sp v with
  | Some b => b ∈ bindings /\ may_point b
  | None => forall b, b ∈ bindings -> ~ contains b.1 v
  end.
Proof.
  intros Hv. pose proof (lookup_inside_ok v (points_range v Hv)) as H. destruct (lookup_inside sp v) as [b|]; [|done].
  split; [apply H|]. exists v. now split.
Qed.

Lemma resolveOne_ok : ok (resolveOne p) (one_of bindings).
Proof.
  assert (Hsearch : ok (cex ← getValue p;
    match lookup_inside sp (getZExtValue cex) with
    | Some res => mret (Some res)
    | None =>
      start ← pure (upper_bound sp (getZExtValue cex));
      r ← resolveOne_backwards (loops sp) p start;
      match r with Some b => mret (Some b) | None => resolveOne_forwards (loops sp) p start end
    end) (one_of bindings)).
  { eapply spec_bind; [now apply (TimingSolver_getValue_ok impl _ _ _ U Ctx Ini F I C K)|]. intros c Hc.
    destruct (pointer_address c Hc) as [Hpt Hr]. pose proof (lookup_points _ Hpt) as Hl.
    destruct (lookup_inside sp _) as [b|]; [now apply spec_ret|]. destruct (start_ok (getZExtValue c)) as (start & -> & Hst & E & Hf1 & Hf2).
    eapply spec_bind; [now apply (spec_pure _ _ _ start (eq start))|]. intros ? <-.
    eapply spec_bind; [now apply resolveOne_backwards_ok|]. intros [b|] Hb; [now apply spec_ret|].
    eapply spec_mono; [now apply resolveOne_forwards_ok|]. intros [b|] Hb'; [done|].
    intros b. rewrite E. intros [?|?]%elem_of_app; auto. }
  destruct (constant_or_not p) as [[c Ep]|Hn].
  2: { unfold AddressResolve.resolveOne. rewrite (Hn _ _ _). exact Hsearch. }
  clear Hsearch. unfold AddressResolve.resolveOne. rewrite Ep. apply spec_ret.
  destruct (constant_points _ Ep) as [Hpt Huniq]. unfold resolveOne_constant. pose proof (lookup_points _ Hpt) as Hl.
  destruct (lookup_inside sp _) as [b|]; [done|]. intros b Hb (v & Hv & Hcv). rewrite (Huniq v Hv) in Hcv. now apply (Hl b).
Qed.

(** ** [resolve] *)

Lemma attempt_ok {X} (m : SolverM (ConstraintManager * S) X) P : ok m P ->
  spec False (timing_ok I K) (attempt m) (fun o => match o with Some x => P x | None => F end).
Proof. intros Hm s Hs. specialize (Hm s Hs). unfold attempt. destruct (m s) as [[[x|] s']| |]; tauto. Qed.

Section All.
Context (clock : nat -> bool) (maxResolutions : Z).

(** What [resolve] returns: no object twice, only objects the pointer may point into;
    all of them, unless it says that the resolution is incomplete, for one of the three
    reasons; no more than asked for. *)
Definition resolution (r : bool * ResolutionList) : Prop :=
  NoDup r.2 /\ (forall b, b ∈ r.2 -> b ∈ bindings /\ may_point b) /\
  (if r.1 then F \/ (exists n, clock n = true) \/ 2 <= maxResolutions /\ Z.of_nat (length r.2) = maxResolutions
   else forall b, b ∈ bindings -> may_point b -> b ∈ r.2) /\
  (2 <= maxResolutions -> Z.of_nat (length r.2) <= maxResolutions).

(** The list while the search goes on, after the objects in [D]. *)
Definition progress (D : ObjectPair -> Prop) (rl : ResolutionList) : Prop :=
  NoDup rl /\ (forall b, b ∈ rl <-> b ∈ bindings /\ D b /\ may_point b) /\
  (2 <= maxResolutions -> Z.of_nat (length rl) < maxResolutions).

Lemma progress_ext (D D' : ObjectPair -> Prop) rl : (forall b, b ∈ bindings -> may_point b -> D b <-> D' b) -> progress D rl -> progress D' rl.
Proof.
  intros HD (Hn & Hrl & Hm). split_and!; [done| |done]. intros b. rewrite Hrl. split; intros (H1 & H2 & H3);
    (split_and!; [done| |done]); apply (HD b); done.
Qed.

Lemma progress_incomplete D rl : progress D rl -> F \/ (exists n, clock n = true) -> resolution (true, rl).
Proof. intros (Hn & Hrl & Hm) HF. split_and!; cbn; [done| |tauto|lia]. intros b Hb%Hrl. tauto. Qed.

Lemma progress_complete D rl : progress D rl -> (forall b, b ∈ bindings -> may_point b -> D b) -> resolution (false, rl).
Proof.
  intros (Hn & Hrl & Hm) HD. split_and!; cbn; [done| | |lia]; [intros b Hb%Hrl; tauto|].
  intros b Hb Hmay. apply Hrl. auto.
Qed.

Definition checked (D : ObjectPair -> Prop) (op : ObjectPair) (r : Z * ResolutionList) : Prop :=
  r.1 = 2 /\ progress (fun b => D b \/ b = op) r.2 \/ r.1 = 0 /\ resolution (false, r.2) \/ r.1 = 1 /\ resolution (true, r.2).

Lemma progress_add D op rl : op ∈ bindings -> ~ D op -> may_point op -> progress D rl ->
  NoDup (rl ++ [op]) /\ (forall b, b ∈ rl ++ [op] <-> b ∈ bindings /\ (D b \/ b = op) /\ may_point b) /\
  (2 <= maxResolutions -> Z.of_nat (length (rl ++ [op])) <= maxResolutions).
Proof.
  intros Hin HD Hmay (Hn & Hrl & Hm). split_and!.
  - apply NoDup_app. split_and!; [done| |apply NoDup_singleton]. intros b Hb%Hrl ->%list_elem_of_singleton. tauto.
  - intros b. rewrite elem_of_app, Hrl, list_elem_of_singleton. split; [intros [?| ->]; tauto|tauto].
  - rewrite length_app. cbn. lia.
Qed.

Lemma checkPointerInObject_ok D op rl : op ∈ bindings -> ~ D op -> progress D rl ->
  spec False (timing_ok I K) (checkPointerInObject impl simplifyExprs UseVisitorHash visit_fuel p op rl maxResolutions) (checked D op).
Proof.
  intros Hin HD Hpr. pose proof (binding_fits op Hin) as Hfit. unfold checkPointerInObject.
  eapply spec_bind; [apply attempt_ok, (may_test _ _ (bounds_test op Hfit))|]. intros [[]|] Hmay.
  2: { apply not_may_point_test in Hmay. apply spec_ret. left. split; [done|]. eapply progress_ext; [|exact Hpr].
       intros b _ Hb. split; [now left|]. intros [?| ->]; [done|tauto]. }
  2: { apply spec_ret. right. right. split; [done|]. eapply progress_incomplete; eauto. }
  apply may_point_test in Hmay. destruct (progress_add D op rl Hin HD Hmay Hpr) as (Hn & Hrl & Hm).
  assert (Hcont : (2 <= maxResolutions -> Z.of_nat (length (rl ++ [op])) <> maxResolutions) -> checked D op (2, rl ++ [op])).
  { intros Hne. left. split; [done|]. split_and!; cbn; [done|exact Hrl|lia]. }
  assert (Hinc : F \/ 2 <= maxResolutions /\ Z.of_nat (length (rl ++ [op])) = maxResolutions -> checked D op (1, rl ++ [op])).
  { intros HF. right. right. split; [done|]. split_and!; cbn; [done| |tauto|lia]. intros b Hb%Hrl. tauto. }
  destruct (Z.eqb_spec (Z.of_nat (length (rl ++ [op]))) 1) as [E1|E1].
  - eapply spec_bind; [apply attempt_ok, (must_test _ _ (bounds_test op Hfit))|]. intros [[]|] Hmust; apply spec_ret.
    + right. left. split; [done|]. split_and!; cbn; [done| | |lia]; [intros b Hb%Hrl; tauto|].
      intros b Hb (v & Hv & Hc). apply elem_of_app. right. apply list_elem_of_singleton.
      apply (object_at_unique b op v); [done..|]. apply contains_iff. auto.
    + apply Hcont. lia.
    + auto.
  - destruct (Z.eqb_spec (Z.of_nat (length (rl ++ [op]))) maxResolutions); apply spec_ret; [|auto].
    apply Hinc. rewrite length_app, Nat2Z.inj_add in *. cbn in *. lia.
Qed.

Notation resolve_backwards := (resolve_backwards impl simplifyExprs UseVisitorHash visit_fuel sp clock maxResolutions p).
Notation resolve_forwards := (resolve_forwards impl simplifyExprs UseVisitorHash visit_fuel clock maxResolutions p).

Definition exits (D : ObjectPair -> Prop) (l : list ObjectPair) (r : Exit * ResolutionList) : Prop :=
  match r.1 with Return inc => resolution (inc, r.2) | Leave _ => progress (fun b => D b \/ b ∈ l) r.2 end.

Lemma resolve_backwards_ok fuel : forall n D rl oi, position oi -> (length (preceding oi) < fuel)%nat ->
  (forall b, b ∈ preceding oi -> ~ D b) -> progress D rl -> spec False (timing_ok I K) (resolve_backwards fuel n rl oi) (exits D (preceding oi)).
Proof.
  induction fuel as [|fuel IH]; intros k D rl oi Ho Hf HD Hpr; [lia|]. cbn [AddressResolve.resolve_backwards]. case_decide as Hb.
  { apply spec_ret. replace (preceding oi) with (@nil ObjectPair); [|symmetry;
      apply (AVL.begin_preceding fst MemoryObjectLT null_binding root oi (space_ordered sp Hsp) Ho), Hb].
    eapply progress_ext; [|exact Hpr]. intros b _ _. rewrite elem_of_nil. tauto. }
  destruct (decr_step oi Ho Hb) as (n & st & -> & Hn & E & Hin & Hbef). set (b := AVL.value null_binding n) in *.
  cbn [at_iterator]. fold b. pose proof (binding_fits b Hin) as Hfit. rewrite E in *.
  destruct (clock k) eqn:Ek; [apply spec_ret; eapply progress_incomplete; eauto|].
  eapply spec_bind; [apply (checkPointerInObject_ok D); [done|apply HD; set_solver|done]|].
  intros [code rl'] [[Ec Hpr']|[[Ec Hr]|[Ec Hr]]]; cbn in Ec, Hr || cbn in Ec, Hpr'; subst code; cbn [Z.eqb negb]; try now apply spec_ret.
  eapply spec_bind; [apply attempt_ok, (must_test _ _ (above_test b Hfit))|]. intros [[]|] Hmust.
  - apply spec_ret. eapply progress_ext; [|exact Hpr']. cbn. intros b' _ Hmay. rewrite elem_of_app, list_elem_of_singleton.
    enough (b' ∉ preceding (n :: st)) by tauto. intros Hb'. revert Hmay. apply (above_none b b'); [now apply Hbef|done].
  - eapply spec_mono; [apply (IH _ (fun b' => D b' \/ b' = b)); [done| |intros b' Hb' [H| ->]; [|now apply (ends_before_irrefl b), Hbef]|exact Hpr']|].
    + assert (length [b] = 1%nat) by done. rewrite length_app in Hf. lia.
    + apply (HD b'); [set_solver|done].
    + intros [[inc|j] rl''] Hx; [exact Hx|]. eapply progress_ext; [|exact Hx]. cbv beta. intros b' _ _.
      rewrite elem_of_app, list_elem_of_singleton. tauto.
  - apply spec_ret. eapply progress_incomplete; [exact Hpr'|now left].
Qed.

Lemma resolve_forwards_ok fuel : forall n D rl oi, position oi -> (length (remaining oi) < fuel)%nat ->
  (forall b, b ∈ remaining oi -> ~ D b) -> progress D rl -> spec False (timing_ok I K) (resolve_forwards fuel n rl oi) (exits D (remaining oi)).
Proof.
  induction fuel as [|fuel IH]; intros k D rl oi Ho Hf HD Hpr; [lia|]. cbn [AddressResolve.resolve_forwards]. destruct oi as [|n st].
  { rewrite decide_True by done. apply spec_ret. eapply progress_ext; [|exact Hpr]. intros b _ _. cbn [AVL.remaining]. rewrite elem_of_nil. tauto. }
  rewrite decide_False by done. destruct (incr_step n st Ho) as (oi & Ei & Hoi & E & Hin & Haft). rewrite E in *. rewrite Ei.
  cbn [at_iterator]. set (b := AVL.value null_binding n) in *. pose proof (binding_fits b Hin) as Hfit.
  destruct (clock k) eqn:Ek; [apply spec_ret; eapply progress_incomplete; eauto|].
  eapply spec_bind; [apply attempt_ok, (must_test _ _ (below_test b Hfit))|]. intros [[]|] Hmust.
  - apply spec_ret. eapply progress_ext; [|exact Hpr]. intros b' _ Hmay. split; [now left|]. intros [?|Hb'%elem_of_cons]; [done|].
    exfalso. revert Hmay. apply (below_none b); [destruct Hb'; auto|done].
  - eapply spec_bind; [apply (checkPointerInObject_ok D); [done|apply HD; set_solver|done]|].
    intros [code rl'] [[Ec Hpr']|[[Ec Hr]|[Ec Hr]]]; cbn in Ec, Hr || cbn in Ec, Hpr'; subst code; cbn [Z.eqb negb]; try now apply spec_ret.
    eapply spec_bind; [now apply (spec_pure _ _ _ oi (eq oi))|]. intros ? <-.
    eapply spec_mono; [apply (IH _ (fun b' => D b' \/ b' = b)); [done|rewrite length_cons in Hf; lia|
      intros b' Hb' [H| ->]; [apply (HD b'); [set_solver|done]|now apply (ends_before_irrefl b), Haft]|exact Hpr']|].
    intros [[inc|j] rl''] Hx; [exact Hx|]. eapply progress_ext; [|exact Hx]. cbv beta. intros b' _ _. rewrite elem_of_cons. tauto.
  - apply spec_ret. eapply progress_incomplete; [exact Hpr|now left].
Qed.

Notation resolve := (resolve impl simplifyExprs UseVisitorHash visit_fuel sp clock maxResolutions p).

Lemma resolve_ok : spec False (timing_ok I K) resolve resolution.
Proof.
  destruct (constant_or_not p) as [[c Ep]|Hn]; unfold AddressResolve.resolve.
  - rewrite Ep. apply spec_ret. destruct (constant_points _ Ep) as [Hpt Huniq]. unfold resolveOne_constant.
    pose proof (lookup_points _ Hpt) as Hl. pose proof (lookup_inside_ok _ (points_range _ Hpt)) as Hi.
    destruct (lookup_inside sp _) as [b|]; split_and!; cbn.
    + apply NoDup_singleton.
    + now intros b' ->%list_elem_of_singleton.
    + intros b' Hb' (v & Hv & Hc). apply list_elem_of_singleton. apply (object_at_unique b' b v); [done|apply Hi|done|].
      rewrite (Huniq v Hv). apply Hi.
    + lia.
    + apply NoDup_nil_2.
    + now intros b ?%elem_of_nil.
    + intros b Hb (v & Hv & Hc). rewrite (Huniq v Hv) in Hc. now destruct (Hl b).
    + lia.
  - rewrite (Hn _ _ _). eapply spec_bind; [apply attempt_ok; now apply (TimingSolver_getValue_ok impl _ _ _ U Ctx Ini F I C K)|].
    assert (Hempty : progress (fun _ => False) []).
    { split_and!; [apply NoDup_nil_2| |cbn; lia]. intros b. rewrite elem_of_nil. tauto. }
    intros [c|] Hc; [|apply spec_ret; apply (progress_incomplete _ _ Hempty); now left].
    destruct (start_ok (getZExtValue c)) as (start & -> & Hst & E & Hf1 & Hf2).
    eapply spec_bind; [now apply (spec_pure _ _ _ start (eq start))|]. intros ? <-.
    eapply spec_bind; [apply (resolve_backwards_ok _ _ (fun _ => False)); auto|]. intros [[inc|j] rl] Hx; cbn in Hx; [now apply spec_ret|].
    eapply spec_bind; [apply (resolve_forwards_ok _ _ (fun b => False \/ b ∈ preceding start)); [done..| |exact Hx]|].
    + intros b Hb [[]|Hb']. apply list_elem_of_split in Hb as (l1 & l2 & Er). rewrite Er, app_assoc in E.
      destruct (bindings_around _ _ _ E) as [H1 _]. apply (ends_before_irrefl b), H1. set_solver.
    + intros [[inc|i] rl'] Hx'; cbn in Hx'; apply spec_ret; [done|]. eapply progress_complete; [exact Hx'|].
      intros b Hb _. rewrite E in Hb. apply elem_of_app in Hb. tauto.
Qed.

End All.

(** [resolveOne] finds an object that contains an address the pointer can have under
    the path constraints, and reports none only if no object does; for a constant, this is
    the object at the address.  It fails only if the solver does. *)
Theorem resolveOne_exact (s : ConstraintManager * S) : timing_ok I K s ->
  match resolveOne p s with
  | Done (Some (Some b), s') => timing_ok I K s' /\ b ∈ bindings /\ may_point b
  | Done (Some None, s') => timing_ok I K s' /\ forall b, b ∈ bindings -> ~ may_point b
  | Done (None, s') => F /\ timing_ok I K s'
  | _ => False
  end.
Proof.
  intros Hs. pose proof (resolveOne_ok s Hs) as H. destruct (resolveOne p s) as [[[[b|]|] s']| |]; done.
Qed.
End Sound.

(** ** Witnesses *)

Section Witness.
#[local] Instance amd64 : MemoryOptions := {| isLittleEndian := true; getPointerWidth := 64; UseConstantArrays := true |}.
#[local] Existing Instance apint_ref.
#[local] Existing Instance apint_ref_spec.
#[local] Existing Instance no_const_array_opt.

(** Four objects, the last of them empty, and a pointer to one of the addresses from 4096 to
    4104. *)
Definition object_at (id address size : Z) : ObjectPair := (mkMemoryObject id address size false 0, id).
Definition four_objects : AddressSpace :=
  mkAddressSpace 1 (foldl (ImmutableMap.replace MemoryObjectLT null_binding) AVL.Terminator
    [object_at 1 4090 9; object_at 2 4100 8; object_at 3 4200 4; object_at 4 4300 0]).
Definition some_pointer : Expr := BinaryExpr Add (ConstantExpr (APInt 64 4096)) (CastExpr ZExt cell_byte 64).
Definition small_manager : ConstraintManager := mkCM [cell_is_small] (cm_factors empty_manager) [] (mkVState [] [] []).

Lemma four_objects_ok : space_ok four_objects.
Proof.
  constructor.
  - vm_compute. intuition discriminate.
  - repeat constructor; vm_compute; intuition discriminate.
  - repeat constructor; vm_compute; intuition discriminate.
Qed.

Lemma some_pointer_ok : expr_ok [cell] some_pointer.
Proof.
  constructor; [reflexivity| |reflexivity|intros a Ha; exact Ha|].
  - intros rho _. eexists. reflexivity.
  - apply st_binary; [done|]. split; [apply st_const|]. apply st_cast, cell_byte_inside.
Qed.

Lemma small_manager_ok : timing_ok (fun _ => True) (no_equalities [cell_is_small]) (small_manager, ()).
Proof. split; [|done]. split_and!; [done..|]. constructor; constructor. Qed.

Lemma small_manager_query cm e : no_equalities [cell_is_small] cm -> plain [cell] (Query'create cm e).
Proof. intros (E & _). unfold plain. cbn. rewrite E. exact (cell_query_ok e). Qed.

Notation resolve_some max := (resolve byte_solver true true esize four_objects (fun _ => false) max some_pointer (small_manager, ())).


Lemma resolveOne_exact_witness : exists b s',
  resolveOne byte_solver true true esize four_objects some_pointer (small_manager, ()) = Done (Some (Some b), s') /\
  may_point [cell_is_small] some_pointer b.
Proof.
  pose proof (resolveOne_exact byte_solver true true esize [cell] (plain [cell]) (fun _ _ => True) False (fun _ => True) [cell_is_small]
    (no_equalities [cell_is_small]) (SF:=no_equalities_simplifier true true esize [cell] [cell_is_small] (fun e => le_n _))
    small_manager_query cell_satisfiable ltac:(split; discriminate) four_objects four_objects_ok some_pointer some_pointer_ok eq_refl
    (small_manager, ()) small_manager_ok) as H.
  assert (E : (fun r => match r with Done (Some x, _) => x | _ => None end)
    (resolveOne byte_solver true true esize four_objects some_pointer (small_manager, ())) = Some (object_at 1 4090 9)) by (vm_compute; reflexivity).
  destruct (resolveOne _ _ _ _ _ _ _) as [[[[b|]|] s']| |]; try discriminate E. exists b, s'. split; [done|]. apply H.
Defined.

(** A limit of one is not respected: the first object found is compared with it
    nowhere. *)
Example limit_of_one_ignored : exists s', resolve_some 1 = Done (Some (false, [object_at 1 4090 9; object_at 2 4100 8]), s').
Proof. eexists. vm_compute. reflexivity. Qed.

(** An object of size zero is never found, not even at its address. *)
Example empty_object_not_found : resolveOne_constant four_objects (APInt 64 4300) = None.
Proof. reflexivity. Qed.
End Witness.
