(* ===== verification/KTest.v ===== *)
(** * Test files

    src/lib/Basic/KTest.cpp: the binary format in which inputs of the program are
    written and read back: the magic string, the version, the arguments and the
    objects, strings and objects with their lengths, numbers with the most
    significant byte first.

    A file that is read is the list of the bytes left; a file that is written is the
    list of the bytes written, with the room left on the device.  [fread] and
    [fwrite] of an item of no bytes return 0 items, as C says.  [alloc n] says whether
    memory of [n] bytes can be allocated.  Writing past the end of such memory is
    [Abort]; releasing memory is not modelled.  An array of the struct and its
    length ([numArgs], [numObjects], [numBytes]) are one list. *)

From stdpp Require Import gmap strings.
From S2P Require Import Prelude APInt Expr Solver.

(** ** Data *)

Notation bytes := (list Z).

(** [name] holds the characters before the end of the memory, [numBytes] is the length of
    [obytes]. *)
Record KTestObject := mkKTestObject { name : bytes; obytes : bytes }.

Record KTest := mkKTest {
  version : Z;
  args : list bytes;
  symArgvs : Z;
  symArgvLen : Z;
  kobjects : list KTestObject
}.

#[export] Instance KTestObject_eq_dec : EqDecision KTestObject.
Proof. solve_decision. Defined.
#[export] Instance KTest_eq_dec : EqDecision KTest.
Proof. solve_decision. Defined.

Definition KTEST_VERSION : Z := 3.
Definition KTEST_MAGIC : bytes := [75; 84; 69; 83; 84].
Definition BOUT_MAGIC : bytes := [66; 79; 85; 84; 10].
Definition kTest_getCurrentVersion : Z := KTEST_VERSION.

(** ** Reading *)

Section Reading.
Context (alloc : Z -> bool).

(** [fread(p, n, 1, f)] into memory of [room] bytes, and whether it returns 1. *)
Definition fread (room n : Z) : SolverM bytes bytes := fun f =>
  let stored := Z.min n (Z.of_nat (length f)) in
  if room <? stored then Abort
  else if n =? 0 then Done (None, f)
  else if n <=? Z.of_nat (length f) then Done (Some (take (Z.to_nat n) f), drop (Z.to_nat n) f)
  else Done (None, []).

Definition read_uint32 : SolverM bytes Z :=
  data ← fread 4 4;
  match data with
  | [d0; d1; d2; d3] =>
    mret (u32 (Z.shiftl (Z.shiftl (Z.shiftl d0 8 + d1) 8 + d2) 8 + d3))
  | _ => abort
  end.

Definition malloc (n : Z) : SolverM bytes unit := if alloc n then mret tt else failure.

Definition read_string : SolverM bytes bytes :=
  len ← read_uint32;
  let size := u32 (len + 1) in
  _ ← malloc size;
  fread size len.

Definition kTest_checkHeader : SolverM bytes unit :=
  header ← fread 5 5;
  if decide (header = KTEST_MAGIC) then mret tt
  else if decide (header = BOUT_MAGIC) then mret tt
  else failure.

Definition kTest_isKTestFile (file : option bytes) : outcome bool :=
  match file with
  | None => Done false
  | Some f => r ← kTest_checkHeader f; Done (bool_decide (is_Some r.1))
  end.

Definition read_object : SolverM bytes KTestObject :=
  name ← read_string;
  numBytes ← read_uint32;
  (* [malloc(o->numBytes)] is not checked *)
  bytes ← fread (if alloc numBytes then numBytes else 0) numBytes;
  mret (mkKTestObject name bytes).

(** The loops over the arguments and over the objects. *)
Fixpoint read_times {X} (n : nat) (item : SolverM bytes X) : SolverM bytes (list X) :=
  match n with
  | O => mret []
  | S n => x ← item; xs ← read_times n item; mret (x :: xs)
  end.

(** The sizes are those of [KTest], of [char *] and of [KTestObject]. *)
Definition read_KTest : SolverM bytes KTest :=
  _ ← kTest_checkHeader;
  _ ← malloc 40;
  version ← read_uint32;
  if kTest_getCurrentVersion <? version then failure
  else
    numArgs ← read_uint32;
    _ ← malloc (8 * numArgs);
    args ← read_times (Z.to_nat numArgs) read_string;
    '(symArgvs, symArgvLen) ←
      (if 2 <=? version then symArgvs ← read_uint32; symArgvLen ← read_uint32; mret (symArgvs, symArgvLen)
       else mret (0, 0));
    numObjects ← read_uint32;
    _ ← malloc (24 * numObjects);
    objects ← read_times (Z.to_nat numObjects) read_object;
    mret (mkKTest version args symArgvs symArgvLen objects).

(** [None]: the file cannot be opened, or the null pointer. *)
Definition kTest_fromFile (file : option bytes) : outcome (option KTest) :=
  match file with
  | None => Done None
  | Some f => r ← read_KTest f; Done r.1
  end.

End Reading.

(** ** Writing *)

Record Writer := mkWriter { written : bytes; room : Z }.

Definition fwrite (data : bytes) : SolverM Writer unit := fun w =>
  let n := Z.of_nat (length data) in
  if n =? 0 then Done (None, w)
  else if n <=? room w then Done (Some tt, mkWriter (written w ++ data) (room w - n))
  else Done (None, mkWriter (written w ++ take (Z.to_nat (room w)) data) 0).

Definition byte_of (x : Z) : Z := BV.wrap 8 x.

Definition write_uint32 (value : Z) : SolverM Writer unit :=
  fwrite [byte_of (Z.shiftr value 24); byte_of (Z.shiftr value 16); byte_of (Z.shiftr value 8); byte_of (Z.shiftr value 0)].

(** The characters [strlen] counts. *)
Fixpoint c_string (l : bytes) : bytes :=
  match l with [] => [] | c :: l => if c =? 0 then [] else c :: c_string l end.

Definition write_string (value : bytes) : SolverM Writer unit :=
  let len := u32 (Z.of_nat (length (c_string value))) in
  _ ← write_uint32 len;
  fwrite (take (Z.to_nat len) value).

Definition write_object (o : KTestObject) : SolverM Writer unit :=
  _ ← write_string (name o);
  _ ← write_uint32 (Z.of_nat (length (obytes o)));
  fwrite (obytes o).

Fixpoint write_each {X} (item : X -> SolverM Writer unit) (l : list X) : SolverM Writer unit :=
  match l with [] => mret tt | x :: l => _ ← item x; write_each item l end.

Definition write_KTest (bo : KTest) : SolverM Writer unit :=
  _ ← fwrite KTEST_MAGIC;
  _ ← write_uint32 KTEST_VERSION;
  _ ← write_uint32 (Z.of_nat (length (args bo)));
  _ ← write_each write_string (args bo);
  _ ← write_uint32 (symArgvs bo);
  _ ← write_uint32 (symArgvLen bo);
  _ ← write_uint32 (Z.of_nat (length (kobjects bo)));
  write_each write_object (kobjects bo).

(** The result and the contents of the file. *)
Definition kTest_toFile (bo : KTest) (opened : bool) (room : Z) : outcome (bool * bytes) :=
  if opened then r ← write_KTest bo (mkWriter [] room); Done (bool_decide (is_Some r.1), written r.2)
  else Done (false, []).

Definition kTest_numBytes (bo : KTest) : Z :=
  foldl (fun res o => u32 (res + Z.of_nat (length (obytes o)))) 0 (kobjects bo).

(** ** The format *)

Definition enc_uint32 (v : Z) : bytes :=
  [byte_of (Z.shiftr v 24); byte_of (Z.shiftr v 16); byte_of (Z.shiftr v 8); byte_of (Z.shiftr v 0)].
Definition enc_string (s : bytes) : bytes := enc_uint32 (Z.of_nat (length s)) ++ s.
Definition enc_object (o : KTestObject) : bytes := enc_string (name o) ++ enc_uint32 (Z.of_nat (length (obytes o))) ++ obytes o.
Definition enc_KTest (bo : KTest) : bytes :=
  KTEST_MAGIC ++ enc_uint32 KTEST_VERSION ++
  enc_uint32 (Z.of_nat (length (args bo))) ++ mjoin (enc_string <$> args bo) ++
  enc_uint32 (symArgvs bo) ++ enc_uint32 (symArgvLen bo) ++
  enc_uint32 (Z.of_nat (length (kobjects bo))) ++ mjoin (enc_object <$> kobjects bo).

(** What the format can hold: no empty strings and objects. *)
Definition word_ok (v : Z) : Prop := 0 <= v < 2 ^ 32.
Definition string_ok (s : bytes) : Prop := s <> [] /\ 0 ∉ s /\ Z.of_nat (length s) < 2 ^ 32 - 1.
Definition object_ok (o : KTestObject) : Prop := string_ok (name o) /\ obytes o <> [] /\ word_ok (Z.of_nat (length (obytes o))).
Record ktest_ok (bo : KTest) : Prop := {
  ko_args : Forall string_ok (args bo);
  ko_objects : Forall object_ok (kobjects bo);
  ko_numArgs : word_ok (Z.of_nat (length (args bo)));
  ko_numObjects : word_ok (Z.of_nat (length (kobjects bo)));
  ko_symArgvs : word_ok (symArgvs bo);
  ko_symArgvLen : word_ok (symArgvLen bo)
}.

(** *** What is written *)

(** [m] writes [data] if there is room. *)
Definition emits (m : SolverM Writer unit) (data : bytes) : Prop := forall w, Z.of_nat (length data) <= room w ->
  m w = Done (Some tt, mkWriter (written w ++ data) (room w - Z.of_nat (length data))).

Lemma fwrite_emits data : data <> [] -> emits (fwrite data) data.
Proof.
  intros Hd w Hr. unfold fwrite. destruct (Z.eqb_spec (Z.of_nat (length data)) 0); [now destruct data|].
  destruct (Z.leb_spec (Z.of_nat (length data)) (room w)); [done|lia].
Qed.

Lemma emits_bind m k d d' : emits m d -> emits k d' -> emits (_ ← m; k) (d ++ d').
Proof.
  intros Hm Hk w Hr. rewrite length_app in Hr. unfold mbind, SolverM_bind. rewrite Hm by lia.
  rewrite Hk by (cbn; lia). cbn [written room]. now rewrite <- app_assoc, length_app, Nat2Z.inj_add, Z.sub_add_distr.
Qed.

Lemma emits_each {X} (item : X -> SolverM Writer unit) enc l : Forall (fun x => emits (item x) (enc x)) l ->
  emits (write_each item l) (mjoin (enc <$> l)).
Proof.
  induction 1 as [|x l Hx Hl IH]; cbn [write_each]; [|now apply emits_bind].
  intros w _. cbn. rewrite app_nil_r, Z.sub_0_r. now destruct w.
Qed.

Lemma write_uint32_emits v : emits (write_uint32 v) (enc_uint32 v).
Proof. now apply fwrite_emits. Qed.

Lemma c_string_id s : 0 ∉ s -> c_string s = s.
Proof.
  induction s as [|c s IH]; cbn; [done|]. intros H. rewrite not_elem_of_cons in H. destruct H as [Hc Hs].
  destruct (Z.eqb_spec c 0); [now subst|]. now rewrite IH.
Qed.

Lemma write_string_emits s : string_ok s -> emits (write_string s) (enc_string s).
Proof.
  intros (Hne & H0 & Hl). unfold write_string. rewrite c_string_id by done. unfold u32. rewrite BV.wrap_small by lia.
  apply emits_bind; [apply write_uint32_emits|]. rewrite Nat2Z.id, firstn_all. now apply fwrite_emits.
Qed.

Lemma write_object_emits o : object_ok o -> emits (write_object o) (enc_object o).
Proof.
  intros (Hn & Hb & _). apply emits_bind; [now apply write_string_emits|].
  apply emits_bind; [apply write_uint32_emits|now apply fwrite_emits].
Qed.

Lemma write_KTest_emits bo : ktest_ok bo -> emits (write_KTest bo) (enc_KTest bo).
Proof.
  intros [Ha Ho _ _ _ _].
  repeat first [apply emits_bind | apply write_uint32_emits]; [now apply fwrite_emits|apply emits_each..].
  - eapply Forall_impl; [exact Ha|apply write_string_emits].
  - eapply Forall_impl; [exact Ho|apply write_object_emits].
Qed.

(** *** What is read *)

Section Parsing.
Context (alloc : Z -> bool) (Halloc : forall n, alloc n = true).

(** [m] reads [x] from [data], whatever follows. *)
Definition parses {X} (m : SolverM bytes X) (data : bytes) (x : X) : Prop := forall rest, m (data ++ rest) = Done (Some x, rest).

Lemma parses_ret {X} (x : X) : parses (mret x) [] x.
Proof. done. Qed.

Lemma parses_bind {X Y} (m : SolverM bytes X) (k : X -> SolverM bytes Y) d d' x y :
  parses m d x -> parses (k x) d' y -> parses (m ≫= k) (d ++ d') y.
Proof. intros Hm Hk rest. unfold mbind, SolverM_bind. rewrite <- app_assoc, Hm. apply Hk. Qed.

Lemma parses_last {X Y} (m : SolverM bytes X) (k : X -> SolverM bytes Y) d x y :
  parses m d x -> parses (k x) [] y -> parses (m ≫= k) d y.
Proof. intros Hm Hk. rewrite <- (app_nil_r d). eapply parses_bind; eauto. Qed.

Lemma parses_skip {X Y} (m : SolverM bytes X) (k : X -> SolverM bytes Y) d x y :
  parses m [] x -> parses (k x) d y -> parses (m ≫= k) d y.
Proof. apply (parses_bind m k []). Qed.

Lemma fread_parses room data : data <> [] -> Z.of_nat (length data) <= room -> parses (fread room (Z.of_nat (length data))) data data.
Proof.
  intros Hd Hr rest. unfold fread. rewrite length_app. destruct (Z.ltb_spec room (Z.min (Z.of_nat (length data)) (Z.of_nat (length data + length rest)))); [lia|].
  destruct (Z.eqb_spec (Z.of_nat (length data)) 0); [now destruct data|].
  destruct (Z.leb_spec (Z.of_nat (length data)) (Z.of_nat (length data + length rest))); [|lia].
  rewrite Nat2Z.id. now rewrite take_app_length, drop_app_length.
Qed.

Lemma uint32_bytes v : word_ok v ->
  u32 (Z.shiftl (Z.shiftl (Z.shiftl (byte_of (Z.shiftr v 24)) 8 + byte_of (Z.shiftr v 16)) 8 + byte_of (Z.shiftr v 8)) 8 + byte_of (Z.shiftr v 0)) = v.
Proof.
  intros Hv. unfold word_ok in Hv. unfold u32, byte_of, BV.wrap. rewrite !Z.shiftr_div_pow2, !Z.shiftl_mul_pow2 by lia.
  change (2 ^ 0) with 1. rewrite Z.div_1_r.
  replace (v / 2 ^ 24) with (v / 2 ^ 8 / 2 ^ 8 / 2 ^ 8) by (rewrite !Z.div_div by lia; reflexivity).
  replace (v / 2 ^ 16) with (v / 2 ^ 8 / 2 ^ 8) by (rewrite !Z.div_div by lia; reflexivity).
  set (a := v / 2 ^ 8). set (b := a / 2 ^ 8). set (c := b / 2 ^ 8).
  assert (Hc : 0 <= c < 2 ^ 8).
  { subst c b a. rewrite !Z.div_div by lia. split; [apply Z.div_pos; lia|apply Z.div_lt_upper_bound; lia]. }
  rewrite (Z.mod_small c) by lia.
  assert (v = 2 ^ 8 * a + v mod 2 ^ 8 /\ a = 2 ^ 8 * b + a mod 2 ^ 8 /\ b = 2 ^ 8 * c + b mod 2 ^ 8) by (split_and!; apply Z.div_mod; lia).
  replace (_ + v mod 2 ^ 8) with v by lia. apply Z.mod_small. lia.
Qed.

Lemma read_uint32_parses v : word_ok v -> parses read_uint32 (enc_uint32 v) v.
Proof.
  intros Hv. eapply parses_last; [apply (fread_parses 4 (enc_uint32 v)); [done|cbn; lia]|].
  cbn [enc_uint32]. rewrite uint32_bytes by done. apply parses_ret.
Qed.

Lemma malloc_parses n : parses (malloc alloc n) [] tt.
Proof. unfold malloc. rewrite Halloc. apply parses_ret. Qed.

Lemma read_string_parses s : string_ok s -> parses (read_string alloc) (enc_string s) s.
Proof.
  intros (Hne & _ & Hl). eapply parses_bind; [apply read_uint32_parses; unfold word_ok; lia|].
  cbv zeta. eapply parses_skip; [apply malloc_parses|].
  apply fread_parses; [done|]. unfold u32. rewrite BV.wrap_small; lia.
Qed.

Lemma read_object_parses o : object_ok o -> parses (read_object alloc) (enc_object o) o.
Proof.
  intros (Hn & Hb & Hw). eapply parses_bind; [now apply read_string_parses|]. eapply parses_bind; [now apply read_uint32_parses|].
  rewrite Halloc. destruct o as [nm b]. cbn [obytes name] in *. 
  eapply parses_last; [apply fread_parses; [done|lia]|apply parses_ret].
Qed.

Lemma read_times_parses {X} (item : SolverM bytes X) enc l : Forall (fun x => parses item (enc x) x) l ->
  parses (read_times (length l) item) (mjoin (enc <$> l)) l.
Proof.
  induction 1 as [|x l Hx Hl IH]; cbn [length read_times]; [apply parses_ret|].
  eapply parses_bind; [exact Hx|]. eapply parses_last; [exact IH|apply parses_ret].
Qed.

Lemma checkHeader_parses : parses kTest_checkHeader KTEST_MAGIC tt.
Proof.
  eapply parses_last; [apply (fread_parses 5 KTEST_MAGIC); [done|cbn; lia]|].
  rewrite decide_True by done. apply parses_ret.
Qed.

Lemma read_KTest_parses bo : ktest_ok bo ->
  parses (read_KTest alloc) (enc_KTest bo) (mkKTest KTEST_VERSION (args bo) (symArgvs bo) (symArgvLen bo) (kobjects bo)).
Proof.
  intros [Ha Ho Hna Hno Hs1 Hs2].
  eapply parses_bind; [apply checkHeader_parses|]. eapply parses_skip; [apply malloc_parses|].
  eapply parses_bind; [now apply read_uint32_parses|]. cbn [Z.ltb Z.compare].
  eapply parses_bind; [now apply read_uint32_parses|]. eapply parses_skip; [apply malloc_parses|].
  rewrite Nat2Z.id. eapply parses_bind; [apply read_times_parses; eapply Forall_impl; [exact Ha|apply read_string_parses]|].
  change (2 <=? KTEST_VERSION) with true. cbv iota. rewrite (app_assoc (enc_uint32 (symArgvs bo))).
  eapply parses_bind.
  { eapply parses_bind; [now apply read_uint32_parses|].
    eapply parses_last; [now apply read_uint32_parses|apply parses_ret]. }
  cbv iota. eapply parses_bind; [now apply read_uint32_parses|]. eapply parses_skip; [apply malloc_parses|].
  rewrite Nat2Z.id. eapply parses_last; [apply read_times_parses; eapply Forall_impl; [exact Ho|apply read_object_parses]|]. apply parses_ret.
Qed.
End Parsing.

(** *** Longer files *)

(** More bytes at the end change nothing for a reader that has what it needs. *)
Definition prefix_stable {X} (m : SolverM bytes X) : Prop := forall f t,
  match m f with
  | Done (Some x, rest) => m (f ++ t) = Done (Some x, rest ++ t)
  | Done (None, _) => True
  | Abort => m (f ++ t) = Abort
  | OutOfFuel => False
  end.

Lemma stable_ret {X} (x : X) : prefix_stable (mret x).
Proof. done. Qed.

Lemma stable_failure {X} : prefix_stable (@failure bytes X).
Proof. done. Qed.

Lemma stable_bind {X Y} (m : SolverM bytes X) (k : X -> SolverM bytes Y) :
  prefix_stable m -> (forall x, prefix_stable (k x)) -> prefix_stable (m ≫= k).
Proof.
  intros Hm Hk f t. specialize (Hm f t). unfold mbind, SolverM_bind. destruct (m f) as [[[x|] rest]| |]; [|done| |done].
  - rewrite Hm. apply Hk.
  - now rewrite Hm.
Qed.

Lemma stable_fread room n : 0 <= n -> prefix_stable (fread room n).
Proof.
  intros Hn f t. unfold fread. rewrite length_app.
  destruct (Z.ltb_spec room (Z.min n (Z.of_nat (length f)))).
  - destruct (Z.ltb_spec room (Z.min n (Z.of_nat (length f + length t)))); [done|lia].
  - destruct (Z.eqb_spec n 0); [done|]. destruct (Z.leb_spec n (Z.of_nat (length f))); [|done].
    destruct (Z.ltb_spec room (Z.min n (Z.of_nat (length f + length t)))); [lia|].
    destruct (Z.leb_spec n (Z.of_nat (length f + length t))); [|lia].
    now rewrite take_app_le, drop_app_le by lia.
Qed.

Section Stable.
Context (alloc : Z -> bool).

Lemma stable_uint32_bind {Y} (k : Z -> SolverM bytes Y) : (forall v, 0 <= v -> prefix_stable (k v)) -> prefix_stable (read_uint32 ≫= k).
Proof.
  intros Hk. assert (H : prefix_stable read_uint32).
  { apply stable_bind; [apply stable_fread; lia|]. intros [|? [|? [|? [|? []]]]]; (apply stable_ret || done). }
  intros f t. specialize (H f t). unfold mbind, SolverM_bind. destruct (read_uint32 f) as [[[v|] rest]| |] eqn:E; [|done| |done].
  - rewrite H. apply Hk. unfold read_uint32, mbind, SolverM_bind in E. destruct (fread 4 4 f) as [[[d|] r]| |]; try done.
    destruct d as [|? [|? [|? [|? []]]]]; try done. injection E as <- _. apply Z.mod_pos_bound. lia.
  - now rewrite H.
Qed.

Lemma stable_malloc n : prefix_stable (malloc alloc n).
Proof. unfold malloc. destruct (alloc n); [apply stable_ret|apply stable_failure]. Qed.

Lemma stable_string : prefix_stable (read_string alloc).
Proof. apply stable_uint32_bind. intros v Hv. apply stable_bind; [apply stable_malloc|]. intros _. now apply stable_fread. Qed.

Lemma stable_object : prefix_stable (read_object alloc).
Proof.
  apply stable_bind; [apply stable_string|]. intros s. apply stable_uint32_bind. intros v Hv.
  apply stable_bind; [now apply stable_fread|]. intros b. apply stable_ret.
Qed.

Lemma stable_times {X} n (item : SolverM bytes X) : prefix_stable item -> prefix_stable (read_times n item).
Proof.
  intros Hi. induction n as [|n IH]; cbn [read_times]; [apply stable_ret|].
  apply stable_bind; [done|]. intros x. apply stable_bind; [done|]. intros xs. apply stable_ret.
Qed.

Lemma stable_KTest : prefix_stable (read_KTest alloc).
Proof.
  apply stable_bind.
  { apply stable_bind; [apply stable_fread; lia|]. intros h. repeat case_decide; (apply stable_ret || apply stable_failure). }
  intros _. apply stable_bind; [apply stable_malloc|]. intros _. apply stable_uint32_bind. intros ver _. destruct (_ <? ver); [apply stable_failure|].
  apply stable_uint32_bind. intros n _. apply stable_bind; [apply stable_malloc|]. intros _.
  apply stable_bind; [apply stable_times, stable_string|]. intros a. apply stable_bind.
  { destruct (2 <=? ver); [|apply stable_ret]. apply stable_uint32_bind. intros x _. apply stable_uint32_bind. intros y _. apply stable_ret. }
  intros [x y]. apply stable_uint32_bind. intros n' _. apply stable_bind; [apply stable_malloc|]. intros _.
  apply stable_bind; [apply stable_times, stable_object|]. intros o. apply stable_ret.
Qed.
End Stable.

(** C24: a test whose strings and objects are not empty is written if the device has
    room for it, and reading the file gives it back with the current version,
    whatever follows in the file; a file that was cut off is rejected. *)
Theorem ktest_roundtrip (bo : KTest) (space : Z) (alloc : Z -> bool) :
  ktest_ok bo -> Z.of_nat (length (enc_KTest bo)) <= space -> (forall n, alloc n = true) ->
  exists file, kTest_toFile bo true space = Done (true, file) /\
    (forall rest, kTest_fromFile alloc (Some (file ++ rest)) =
       Done (Some (mkKTest kTest_getCurrentVersion (args bo) (symArgvs bo) (symArgvLen bo) (kobjects bo)))) /\
    (forall cut rest, file = cut ++ rest -> rest <> [] -> kTest_fromFile alloc (Some cut) = Done None).
Proof.
  intros Hok Hsp Hal. exists (enc_KTest bo). split_and!.
  - unfold kTest_toFile. pose proof (write_KTest_emits bo Hok (mkWriter [] space) Hsp) as E. cbn in E |- *. now rewrite E.
  - intros rest. unfold kTest_fromFile. now rewrite (read_KTest_parses alloc Hal bo Hok rest).
  - intros cut rest E Hne. pose proof (read_KTest_parses alloc Hal bo Hok []) as Hp. rewrite app_nil_r, E in Hp.
    pose proof (stable_KTest alloc cut rest) as Hs. unfold kTest_fromFile.
    destruct (read_KTest alloc cut) as [[[k|] left]| |]; [|done|congruence|done].
    rewrite Hs in Hp. injection Hp as _ Hp. apply app_eq_nil in Hp as [_ Hp]. done.
Qed.

(** *** What the format cannot hold *)

(** An empty object cannot be written: [fwrite] of no bytes returns 0. *)
Lemma fwrite_nothing w : fwrite [] w = Done (None, w).
Proof. done. Qed.

Definition two_objects (second : bytes) : KTest :=
  mkKTest 3 [[97]] 0 0 [mkKTestObject [120] [1; 2]; mkKTestObject [121] second].

Example empty_object_not_written : exists file, kTest_toFile (two_objects []) true 100 = Done (false, file).
Proof. eexists. vm_compute. reflexivity. Qed.

(** The length 2^32 - 1 of a string makes the size of its memory wrap around. *)
Example long_string_overflows : kTest_fromFile (fun _ => true) (Some (KTEST_MAGIC ++ enc_uint32 3 ++ enc_uint32 1 ++ [255; 255; 255; 255; 97])) = Abort.
Proof. vm_compute. reflexivity. Qed.

Lemma two_objects_ok : ktest_ok (two_objects [3]).
Proof.
  assert (Hs : forall c, c <> 0 -> string_ok [c]) by (intros c Hc; split_and!; [done|set_solver|cbn; lia]).
  assert (Ho : forall c l, c <> 0 -> (0 < length l < 10)%nat -> object_ok (mkKTestObject [c] l)).
  { intros c l Hc Hl. split_and!; cbn; [now apply Hs|now destruct l; cbn in Hl; [lia|]|unfold word_ok; lia..]. }
  constructor; unfold word_ok; cbn; try lia; repeat apply Forall_cons_2; auto; apply Ho; cbn; lia.
Qed.

Lemma ktest_roundtrip_witness : exists file, kTest_toFile (two_objects [3]) true 100 = Done (true, file) /\
  kTest_fromFile (fun _ => true) (Some file) = Done (Some (two_objects [3])).
Proof.
  destruct (ktest_roundtrip (two_objects [3]) 100 (fun _ => true) two_objects_ok ltac:(vm_compute; discriminate) ltac:(done))
    as (file & Hw & Hr & _).
  exists file. split; [exact Hw|]. specialize (Hr []). rewrite app_nil_r in Hr. exact Hr.
Defined.
