(* ===== verification/Replay.v ===== *)
(** * Branches: forking, recording and replaying

    The heart of the reconstruction, in src/lib/Core/Executor.cpp and Executor.h: at a
    branch the executor asks whether the condition is decided, forks the state if
    not, records the direction that was taken ([PathEntry], one bit), and when it
    replays a recorded path, takes the recorded direction and adds the condition as a
    constraint.  Constraints can be checked against the inputs of a test file
    (src/lib/Expr/OracleEvaluator.cpp).

    The state of an execution is cut down to what branches read and write.  A
    computation of the executor returns [None] where the process exits
    ([klee_error], [exitOnSolverTimeout], [report_fatal_error]); a state that is
    terminated carries the reason.  Three circumstances of a branch are arguments: whether
    the limits on static forks are exceeded, whether forking is inhibited, and the
    random bit.  Seeds and the logs of stacks, constraints and statistics are left out. *)

From stdpp Require Import gmap strings.
From S2P Require Import Prelude APInt Expr ExprOrder ExprSem ExprCreate ExprVisitor ExprEvaluator ConstraintManager Solver TimingSolver KTest.

(** ** Data *)

Inductive PathEntry :=
| FORK (br : bool)
| SWITCH_EXPIDX (switchIndex : Z)
| SWITCH_BBIDX (switchIndex : Z)
| INDIRECTBR (indirectbrIndex : Z)
| DATAREC (IDlen width : Z)
| SCHEDULE (tgtid : Z).

(** Why a state was terminated. *)
Inductive Termination := QueryTimedOut | MaxDepthExceeded | InvalidBranch | InvalidConstraint.

Record ExecutionState := mkState {
  es_constraints : ConstraintManager;
  replayPosition : Z;
  pathOS : list PathEntry;
  isInUserMain : bool;
  isInPOSIX : bool;
  forkDisabled : bool;
  nbranches_rec : Z;
  depth : Z;
  terminated : option Termination
}.

Definition set_es_constraints (es : ExecutionState) (cm : ConstraintManager) : ExecutionState :=
  mkState cm (replayPosition es) (pathOS es) (isInUserMain es) (isInPOSIX es) (forkDisabled es) (nbranches_rec es) (depth es) (terminated es).
Definition set_replayPosition (es : ExecutionState) (n : Z) : ExecutionState :=
  mkState (es_constraints es) n (pathOS es) (isInUserMain es) (isInPOSIX es) (forkDisabled es) (nbranches_rec es) (depth es) (terminated es).
Definition set_pathOS (es : ExecutionState) (p : list PathEntry) : ExecutionState :=
  mkState (es_constraints es) (replayPosition es) p (isInUserMain es) (isInPOSIX es) (forkDisabled es) (nbranches_rec es) (depth es) (terminated es).
Definition set_nbranches_rec (es : ExecutionState) (n : Z) : ExecutionState :=
  mkState (es_constraints es) (replayPosition es) (pathOS es) (isInUserMain es) (isInPOSIX es) (forkDisabled es) n (depth es) (terminated es).
Definition set_depth (es : ExecutionState) (n : Z) : ExecutionState :=
  mkState (es_constraints es) (replayPosition es) (pathOS es) (isInUserMain es) (isInPOSIX es) (forkDisabled es) (nbranches_rec es) n (terminated es).
Definition terminate (es : ExecutionState) (t : Termination) : ExecutionState :=
  mkState (es_constraints es) (replayPosition es) (pathOS es) (isInUserMain es) (isInPOSIX es) (forkDisabled es) (nbranches_rec es) (depth es) (Some t).

Definition shouldRecord (es : ExecutionState) : bool := isInUserMain es && negb (isInPOSIX es).

(** The options, and what the executor replays. *)
Class ReplayOptions := {
  replayPath : option (list PathEntry);
  replayingKTest : bool;          (* [replayKTest] is set *)
  oracleKTest : option KTest;     (* the test of [oracle_eval] *)
  pathWriter : bool;              (* a path is recorded *)
  CallSolver : bool;
  MaxDepth : Z
}.

(** ** The oracle *)

Fixpoint name_bytes (s : string) : list Z :=
  match s with EmptyString => [] | String c s => Z.of_nat (Ascii.nat_of_ascii c) :: name_bytes s end.

Section Replay.
Context `{A : APIntOps} `{Opts : ExprOptions} `{MOpts : ManagerOptions} {S : Type} (impl : SolverImpl S).
Context (simplifyExprs UseVisitorHash : bool) (visit_fuel : Expr -> nat) (manager_fuel add_fuel : nat).

(** [arrayname2idx]: of objects with the same name, the last one. *)
Definition find_object (ktest : KTest) (array : Array) : option KTestObject :=
  last (filter (fun o => name o = name_bytes (Expr.name array)) (kobjects ktest)).

(** The array has bytes as elements, as an assert says. *)
Definition Oracle_getInitialValue (ktest : KTest) (array : Array) (index : Z) : Expr :=
  match find_object ktest array with
  | None => ReadExpr'create (mkUpdateList array un_null) (ConstantExpr (ConstantExpr'alloc index (domain array)))
  | Some kobj =>
    match obytes kobj !! Z.to_nat index with
    | Some b => ConstantExpr (ConstantExpr'alloc b (range array))
    | None => ConstantExpr (ConstantExpr'alloc 0 (range array))      (* index >= kobj.numBytes *)
    end
  end.

Definition OracleEvaluator (ktest : KTest) : ExprVisitor := ExprEvaluator (Oracle_getInitialValue ktest).

(** The state of the solver, and the [visited] table of [oracle_eval]. *)
Notation X := (S * VState)%type.

(** Whether [oracle_eval] lets a constraint pass. *)
Definition oracle_accepts {O : ReplayOptions} (condition : Expr) : SolverM X bool := fun x =>
  match oracleKTest with
  | None => Done (Some true, x)
  | Some ktest =>
    match visit UseVisitorHash (evaluate_fuel condition) (OracleEvaluator ktest) condition x.2 with
    | None => OutOfFuel
    | Some (res, st) => Done (Some (match res with ConstantExpr CE => isTrue CE | _ => false end), (x.1, st))
    end
  end.

(** ** Constraints *)

(** A question to the solver about a state: [None] is the failure of the solver. *)
Definition about {Y} (m : SolverM (ConstraintManager * S) Y) (es : ExecutionState) : SolverM X (option Y * ExecutionState) := fun x =>
  match m (es_constraints es, x.1) with
  | Done (r, (cm, s)) => Done (Some (r, set_es_constraints es cm), (s, x.2))
  | Abort => Abort
  | OutOfFuel => OutOfFuel
  end.

(** The seeds and implied values (which [abort] when enabled) aside. *)
Definition Executor_addConstraint {O : ReplayOptions} (es : ExecutionState) (condition : Expr) : SolverM X (bool * ExecutionState) :=
  match condition with
  | ConstantExpr CE => if isTrue CE then mret (false, es) else failure
  | _ =>
    accepted ← oracle_accepts condition;
    if accepted : bool then
      r ← pure (addConstraint UseVisitorHash manager_fuel add_fuel (es_constraints es) condition);
      mret (r.1, set_es_constraints es r.2)
    else mret (false, es)
  end.

Definition getConstraintFromBool (condition : Expr) (br : bool) : Expr * Validity :=
  if br then (condition, VTrue) else (createIsZero condition, VFalse).

(** ** The recorded path *)

Definition getNextPathEntry {O : ReplayOptions} (es : ExecutionState) : SolverM X (PathEntry * ExecutionState) :=
  path ← pure (or_abort replayPath);
  _ ← assume (replayPosition es <? Z.of_nat (length path));
  pe ← pure (or_abort (path !! Z.to_nat (replayPosition es)));
  mret (pe, set_replayPosition es (u32 (replayPosition es + 1))).

Definition AssertNextBranchTaken {O : ReplayOptions} (es : ExecutionState) (br : bool) : SolverM X ExecutionState :=
  r ← getNextPathEntry es;
  match r.1 with
  | FORK recorded_br => mret (if Bool.eqb br recorded_br then r.2 else terminate r.2 InvalidBranch)
  | _ => failure
  end.

Definition getNextBranchConstraint {O : ReplayOptions} (es : ExecutionState) (condition : Expr) : SolverM X (Expr * Validity * ExecutionState) :=
  r ← getNextPathEntry es;
  match r.1 with
  | FORK br => mret (getConstraintFromBool condition br, r.2)
  | _ => failure
  end.

Definition record1BitAtFork {O : ReplayOptions} (es : ExecutionState) (solvalid : Validity) : ExecutionState :=
  if pathWriter then set_pathOS es (pathOS es ++ [FORK (bool_decide (solvalid = VTrue))]) else es.

(** ** [fork] *)

(** [ExecutionState::branch]: the state and its copy. *)
Definition branch_state (es : ExecutionState) : SolverM X (ExecutionState * ExecutionState) :=
  let es := set_depth es (u32 (depth es + 1)) in
  cm ← pure (or_abort (ConstraintManager'copy (es_constraints es)));
  mret (es, set_es_constraints es cm).

(** The first block: one value of the condition is chosen when too many forks happened
    here. *)
Definition limit_static_forks {O : ReplayOptions} (exceeded : bool) (current : ExecutionState) (condition : Expr) : SolverM X (Expr * ExecutionState) :=
  if negb (is_constant condition) && exceeded then
    r ← about (TimingSolver_getValue impl simplifyExprs UseVisitorHash visit_fuel condition) current;
    match r.1 with
    | None => failure
    | Some value =>
      a ← Executor_addConstraint r.2 (EqExpr'create (ConstantExpr value) condition);
      mret (ConstantExpr value, a.2)
    end
  else mret (condition, current).

(** [None]: the query timed out. *)
Definition decide_branch {O : ReplayOptions} (current : ExecutionState) (condition : Expr) (isInternal : bool) : SolverM X (option Validity * ExecutionState) :=
  if CallSolver || negb (shouldRecord current) || isInternal then
    about (TimingSolver_evaluate impl simplifyExprs UseVisitorHash visit_fuel condition) current
  else
    mret (Some (match condition with ConstantExpr CE => if isTrue CE then VTrue else VFalse | _ => VUnknown end), current).

(** [new_constraint], null at first, and [res]. *)
Definition choose_side {O : ReplayOptions} (inhibited coin : bool) (current : ExecutionState) (condition : Expr) (isInternal : bool) (res : Validity)
    : SolverM X (option Expr * Validity * ExecutionState) :=
  if bool_decide (is_Some replayPath) && negb isInternal then
    match res with
    | VUnknown =>
      _ ← assume (isInUserMain current);
      _ ← assume (negb (isInPOSIX current));
      r ← getNextBranchConstraint current condition;
      mret (Some r.1.1, r.1.2, r.2)
    | _ =>
      es ← (if shouldRecord current then AssertNextBranchTaken current (bool_decide (res = VTrue)) else mret current);
      mret (None, res, es)
    end
  else
    match res with
    | VUnknown =>
      _ ← assume (negb replayingKTest);
      if inhibited || forkDisabled current then
        let r := getConstraintFromBool condition coin in mret (Some r.1, r.2, current)
      else mret (None, res, current)
    | _ => mret (None, res, current)
    end.

Notation StatePair := (option ExecutionState * option ExecutionState)%type.

(** The state goes on with one side of the branch. *)
Definition one_side {O : ReplayOptions} (current : ExecutionState) (new_constraint : option Expr) (res : Validity) (isInternal : bool) : SolverM X StatePair :=
  let current :=
    if negb isInternal && shouldRecord current
    then set_nbranches_rec (record1BitAtFork current res) (u32 (nbranches_rec current + 1)) else current in
  current ← match new_constraint with
            | None => mret current
            | Some e =>
              r ← Executor_addConstraint current e;
              mret (if r.1 : bool then r.2 else terminate r.2 InvalidConstraint)
            end;
  mret (if decide (res = VTrue) then (Some current, None) else (None, Some current)).

(** The state is copied, and each copy goes on with one side. *)
Definition both_sides {O : ReplayOptions} (current : ExecutionState) (condition : Expr) (isInternal : bool) : SolverM X StatePair :=
  '(trueState, falseState) ← branch_state current;
  '(trueState, falseState) ←
    (if negb isInternal && negb (isInPOSIX current) then
       _ ← assume (isInUserMain current);
       mret (record1BitAtFork trueState VTrue, record1BitAtFork falseState VFalse)
     else mret (trueState, falseState));
  t ← Executor_addConstraint trueState condition;
  f ← Executor_addConstraint falseState (createIsZero condition);
  let pair := (if t.1 : bool then Some t.2 else None, if f.1 : bool then Some f.2 else None) in
  if MaxDepth =? 0 then mret pair
  else
    trueState ← pure (or_abort pair.1);
    if MaxDepth <=? depth trueState then
      _ ← pure (or_abort pair.2);
      mret (None, None)
    else mret pair.

Definition fork {O : ReplayOptions} (exceeded inhibited coin : bool) (current : ExecutionState) (condition : Expr) (isInternal : bool) : SolverM X StatePair :=
  '(condition, current) ← limit_static_forks exceeded current condition;
  '(decided, current) ← decide_branch current condition isInternal;
  match decided with
  | None => mret (None, None)
  | Some res =>
    '(new_constraint, res, current) ← choose_side inhibited coin current condition isInternal res;
    if bool_decide (is_Some new_constraint) && isInPOSIX current then failure
    else
      match res with
      | VUnknown => both_sides current condition isInternal
      | _ => one_side current new_constraint res isInternal
      end
  end.

(** A run through branches of which one side is taken, as long as it is not cut short; the
    branches of the program itself. *)
Fixpoint follow {O : ReplayOptions} (current : ExecutionState) (conditions : list Expr) : SolverM X (option ExecutionState) :=
  match conditions with
  | [] => mret (Some current)
  | condition :: conditions =>
    r ← fork false false false current condition false;
    match r with
    | (Some es, None) | (None, Some es) => follow es conditions
    | _ => mret None
    end
  end.
End Replay.
