(* ===== verification/ReplaySound.v ===== *)
(** * What a replay reconstructs

    The branches of a run are recorded as one bit each.  Replaying the record on
    symbolic inputs without a solver adds, for every branch, the condition or its
    negation.  [replay_reproduces]: the constraints that a replay ends with are
    satisfied exactly by the inputs that take the recorded branches.  [fork_partitions]:
    when states are explored instead, a fork splits the inputs of a state between its
    two sides.  [oracle_holds]: constraints checked against an oracle hold for its
    inputs. *)

From stdpp Require Import gmap strings.
From S2P Require Import Prelude APInt Expr ExprOrder ExprSem ExprCreate ExprCreateSound ExprRebuildSound ExprTyping ExprVisitor ExprUtil ExprEvaluator ExprClosure ExprSafe IndependentElementSet ConstraintFactors FactorBook ConstraintManager Solver TimingSolver KTest Replay.

(** The direction a condition takes at given inputs, and the entry of the path. *)
Definition taken (rho : valuation) (c : Expr) : bool := bool_decide (eval rho c = Some (APInt 1 1)).
Definition path_of (rho : valuation) (conditions : list Expr) : list PathEntry := (fun c => FORK (taken rho c)) <$> conditions.

(** The conditions at given inputs, as the recorded run computes them. *)
Definition concrete (rho : valuation) (c : Expr) : Expr := ConstantExpr (APInt 1 (b2z (taken rho c))).

Section ReplaySound.
Context `{A : APIntOps} {AS : APIntSpec A} `{Opts : ExprOptions} `{MOpts : ManagerOptions} {S : Type} (impl : SolverImpl S).
Context (simplifyExprs UseVisitorHash : bool) (visit_fuel : Expr -> nat) (manager_fuel add_fuel : nat).

Notation follow := (follow impl simplifyExprs UseVisitorHash visit_fuel manager_fuel add_fuel).
Notation follow_with O := (Replay.follow impl simplifyExprs UseVisitorHash visit_fuel manager_fuel add_fuel (O:=O)).
Notation fork := (fork impl simplifyExprs UseVisitorHash visit_fuel manager_fuel add_fuel).
Notation add := (addConstraint UseVisitorHash manager_fuel add_fuel).

(** ** The constraints of a path *)

Definition side (rho : valuation) (c : Expr) : Expr := if taken rho c then c else createIsZero c.

(** The branches on symbolic conditions, as constraints. *)
Definition path_condition (rho : valuation) (conditions : list Expr) : list Expr :=
  side rho <$> filter (fun c => is_constant c = false) conditions.

Fixpoint add_all (cm : ConstraintManager) (es : list Expr) : outcome ConstraintManager :=
  match es with
  | [] => Done cm
  | e :: es => r ← add cm e; add_all r.2 es
  end.

(** A condition that has a value at the recorded inputs; negating it does not make it
    a constant. *)
Record condition_ok (rho : valuation) (c : Expr) : Prop := {
  co_width : has_width 1 c;
  co_value : is_Some (eval rho c);
  co_negation : is_constant c = false -> is_constant (createIsZero c) = false
}.

Lemma negation_value rho c : has_width 1 c -> is_Some (eval rho c) ->
  eval rho (createIsZero c) = Some (APInt 1 (b2z (negb (taken rho c)))).
Proof.
  intros Hc [v Hv]. unfold taken.
  destruct (bool_value rho c v Hc Hv) as [-> | ->]; rewrite (createIsZero_bool rho c _ Hv), Hv;
    [rewrite bool_decide_eq_true_2 by done|rewrite bool_decide_eq_false_2 by done]; reflexivity.
Qed.

Lemma side_true rho c : has_width 1 c -> is_Some (eval rho c) -> eval rho (side rho c) = Some (APInt 1 1).
Proof.
  intros Hc Hv. unfold side. pose proof (negation_value rho c Hc Hv) as Hn. unfold taken in *. case_bool_decide; [done|exact Hn].
Qed.

Lemma side_width rho c : has_width 1 c -> has_width 1 (side rho c).
Proof. intros H. unfold side. destruct (taken rho c); [done|]. exact (hw_IsZero 1 c H). Qed.

Lemma side_safe rho c : safe c = true -> safe (side rho c) = true.
Proof. intros. unfold side. destruct (taken rho c); [done|]. now apply (st_IsZero (fun e => safe e = true)). Qed.

(** The side holds exactly where the condition goes the same way. *)
Lemma side_exact rho rho' c : has_width 1 c -> is_Some (eval rho c) -> is_Some (eval rho' c) ->
  eval rho' (side rho c) = Some (APInt 1 1) <-> eval rho' c = eval rho c.
Proof.
  intros Hc [v Hv] [v' Hv']. pose proof (bool_value _ _ _ Hc Hv) as Hb. pose proof (bool_value _ _ _ Hc Hv') as Hb'.
  pose proof (negation_value rho' c Hc (ex_intro _ v' Hv')) as Hn. unfold side, taken in *. rewrite Hv, Hv' in *.
  destruct Hb as [-> | ->], Hb' as [-> | ->]; rewrite ?bool_decide_eq_true_2, ?bool_decide_eq_false_2 in * by done; rewrite ?Hv', ?Hn; done.
Qed.

Section Path.
Context (Inv : Factors -> (Expr -> Prop) -> Prop) {FL : FactorLaws Inv}.
Notation cm_ok := (cm_ok (Inv:=Inv)).
Notation all_safe := (Forall (fun c => safe c = true)).

(** The constraints after a path was added. *)
Lemma add_all_exact es : forall cm cm', cm_ok cm -> Forall (has_width 1) es -> add_all cm es = Done cm' ->
  cm_ok cm' /\ (forall rho, models rho (constraints cm) -> models rho es -> models rho (constraints cm')) /\
  ((exists rho, models rho (constraints cm) /\ models rho es) -> all_safe (constraints cm) -> all_safe es ->
   forall rho, models rho (constraints cm') <-> models rho (constraints cm) /\ models rho es).
Proof.
  induction es as [|e es IH]; intros cm cm' Hcm He E; cbn [add_all] in E.
  { injection E as <-. split_and!; [done|done|]. intros _ _ _ rho. split; [intros; split; [done|constructor]|now intros []]. }
  apply Forall_cons in He as [He Hes]. destruct (add cm e) as [[b cm1]| |] eqn:Ea; [|done..]. cbn in E.
  destruct (addConstraint_exact UseVisitorHash manager_fuel Inv FL add_fuel cm cm1 e b Hcm He Ea) as (Hcm1 & Hf & Hx).
  destruct (IH cm1 cm' Hcm1 Hes E) as (Hcm' & Hf' & Hx'). split_and!; [done| |].
  - intros rho HM [Ht Hts]%Forall_cons. apply Hf'; [|done]. now apply Hf.
  - intros (r0 & HM0 & [Ht0 Hts0]%Forall_cons) SC [Se Ses]%Forall_cons rho. destruct (Hx SC Se) as [S1 Hi].
    destruct (Hf r0 HM0 Ht0) as [-> HM1]. rewrite Hx'; [|now exists r0|done..]. unfold models at 4. rewrite Forall_cons.
    specialize (Hi rho). unfold models in *. tauto.
Qed.

(** ** Recording *)

(** The bits that a run of the program on given inputs records. *)
Lemma recording_path {O : ReplayOptions} rho conditions : replayPath = None -> pathWriter = true -> Forall (has_width 1) conditions ->
  forall es x, shouldRecord es = true ->
  exists es', follow es (concrete rho <$> conditions) x = Done (Some (Some es'), x) /\
    pathOS es' = pathOS es ++ path_of rho conditions /\ shouldRecord es' = true.
Proof.
  intros HR HW. induction 1 as [|c cs Hc Hcs IH]; intros es x Hes; cbn [fmap list_fmap Replay.follow].
  { exists es. now rewrite app_nil_r. }
  set (v := if taken rho c then VTrue else VFalse).
  set (es1 := set_nbranches_rec (record1BitAtFork es v) (u32 (nbranches_rec es + 1))).
  assert (E : fork false false false es (concrete rho c) false x =
    Done (Some (if decide (v = VTrue) then (Some es1, None) else (None, Some es1)), x)).
  { assert (Ht : (if isTrue (APInt 1 (b2z (taken rho c))) then VTrue else VFalse) = v)
      by (subst v; destruct (taken rho c); cbn [b2z]; [now rewrite isTrue_one|now rewrite isTrue_zero]).
    unfold Replay.fork, limit_static_forks, decide_branch, choose_side, concrete, one_side. rewrite HR.
    unfold about, mbind, SolverM_bind, mret, SolverM_ret. cbn [is_constant negb andb TimingSolver_evaluate]. cbn beta iota.
    rewrite Hes. destruct x as [s st]. destruct (CallSolver || _); cbn -[isTrue]; rewrite !Ht; unfold v; destruct (taken rho c); cbn;
      change (shouldRecord (set_es_constraints es (es_constraints es))) with (shouldRecord es); rewrite Hes; destruct es; reflexivity. }
  destruct (IH es1 x) as (es' & E' & Hp & Hr').
  { unfold es1, record1BitAtFork. rewrite HW. exact Hes. }
  exists es'. split_and!; [|rewrite Hp; unfold es1, record1BitAtFork; rewrite HW; cbn; rewrite <- app_assoc; cbn|done].
  - unfold mbind at 1, SolverM_bind at 1. rewrite E. destruct (decide (v = VTrue)); exact E'.
  - do 3 f_equal. unfold v. now destruct (taken rho c).
Qed.

(** ** Replaying *)

(** What a replay does without a solver and without an oracle. *)
Context {O : ReplayOptions} (path : list PathEntry) (HP : replayPath = Some path) (HS : CallSolver = false) (HO : oracleKTest = None).
Context (Hlen : Z.of_nat (length path) < 2 ^ 32).

(** The state after a replayed branch. *)
Definition advance (es : ExecutionState) (d : bool) (cm : ConstraintManager) : ExecutionState :=
  set_es_constraints
    (set_nbranches_rec (record1BitAtFork (set_replayPosition es (replayPosition es + 1)) (if d then VTrue else VFalse))
       (u32 (nbranches_rec es + 1))) cm.

(** The constraints after a replayed branch. *)
Definition constrain (rho : valuation) (cm : ConstraintManager) (c : Expr) : outcome ConstraintManager :=
  if is_constant c then Done cm else r ← add cm (side rho c); Done r.2.

Lemma replay_entry es pe x : 0 <= replayPosition es -> path !! Z.to_nat (replayPosition es) = Some pe ->
  getNextPathEntry (S:=S) es x = Done (Some (pe, set_replayPosition es (replayPosition es + 1)), x).
Proof.
  intros Hpos Hpe. pose proof (lookup_lt_Some _ _ _ Hpe) as Hlt. unfold getNextPathEntry, mbind, SolverM_bind, pure, assume.
  rewrite HP. cbn [or_abort]. rewrite (proj2 (Z.ltb_lt _ _)) by lia. rewrite Hpe. cbn [or_abort]. unfold u32.
  now rewrite BV.wrap_small by lia.
Qed.

Lemma add_side rho es c x : is_constant c = false -> condition_ok rho c -> cm_ok (es_constraints es) -> models rho (constraints (es_constraints es)) ->
  Executor_addConstraint (S:=S) UseVisitorHash manager_fuel add_fuel es (side rho c) x =
  (r ← add (es_constraints es) (side rho c); Done (Some (true, set_es_constraints es r.2), x)).
Proof.
  intros Hnc Hc Hcm HM. assert (Hs : is_constant (side rho c) = false).
  { unfold side. destruct (taken rho c); [done|]. now apply Hc. }
  assert (E : forall e, is_constant e = false -> Executor_addConstraint (S:=S) UseVisitorHash manager_fuel add_fuel es e x =
    (r ← pure (add (es_constraints es) e); mret (r.1, set_es_constraints es r.2)) x).
  { intros [] He; try done; unfold Executor_addConstraint, oracle_accepts; rewrite HO; reflexivity. }
  rewrite E by done. unfold pure, mbind, SolverM_bind. destruct (add _ _) as [[b cm1]| |] eqn:Ea; [|done..]. cbn.
  destruct (addConstraint_exact UseVisitorHash manager_fuel Inv FL add_fuel _ _ _ _ Hcm (side_width rho c (co_width _ _ Hc)) Ea) as (_ & Hf & _).
  destruct (Hf rho HM) as [-> _]; [|done]. apply side_true; apply Hc.
Qed.

(** The decision, and the side that the record chooses. *)
Definition direction (rho : valuation) (c : Expr) : Validity := if taken rho c then VTrue else VFalse.

Lemma replay_decide es c x : shouldRecord es = true ->
  decide_branch impl simplifyExprs UseVisitorHash visit_fuel es c false x =
  Done (Some (Some (match c with ConstantExpr CE => if isTrue CE then VTrue else VFalse | _ => VUnknown end), es), x).
Proof. intros Hes. unfold decide_branch. now rewrite HS, Hes. Qed.

Lemma replay_choose rho es c v x : shouldRecord es = true -> v = VUnknown \/ v = direction rho c ->
  0 <= replayPosition es -> path !! Z.to_nat (replayPosition es) = Some (FORK (taken rho c)) ->
  choose_side (S:=S) false false es c false v x =
  Done (Some (if decide (v = VUnknown) then Some (side rho c) else None, direction rho c,
    set_replayPosition es (replayPosition es + 1)), x).
Proof.
  intros Hes Hv Hpos Hpe. pose proof (replay_entry es _ x Hpos Hpe) as En.
  assert (Hm : isInUserMain es = true /\ isInPOSIX es = false).
  { unfold shouldRecord in Hes. apply andb_true_iff in Hes as [? ?%negb_true_iff]. done. }
  destruct Hm as [Hm Hx]. unfold choose_side. rewrite HP, bool_decide_eq_true_2 by eauto. cbn [negb andb].
  destruct Hv as [->| ->].
  - rewrite Hm, Hx. unfold getNextBranchConstraint, mbind, SolverM_bind, assume. cbn [negb]. rewrite En. cbn [fst snd].
    unfold getConstraintFromBool, direction, side. now destruct (taken rho c).
  - unfold direction. destruct (taken rho c) eqn:Et; rewrite Hes; unfold AssertNextBranchTaken, mbind, SolverM_bind; rewrite En; reflexivity.
Qed.

Lemma replay_side rho es c x : condition_ok rho c -> cm_ok (es_constraints es) -> models rho (constraints (es_constraints es)) ->
  shouldRecord es = true ->
  one_side (S:=S) UseVisitorHash manager_fuel add_fuel es (if is_constant c then None else Some (side rho c)) (direction rho c) false x =
  (cm ← constrain rho (es_constraints es) c;
   let es' := set_es_constraints (set_nbranches_rec (record1BitAtFork es (direction rho c)) (u32 (nbranches_rec es + 1))) cm in
   Done (Some (if taken rho c then (Some es', None) else (None, Some es')), x)).
Proof.
  intros Hc Hcm HM Hes. unfold one_side, constrain. rewrite Hes. cbn [negb andb].
  set (es1 := set_nbranches_rec _ _). assert (Ec : es_constraints es1 = es_constraints es)
    by (unfold es1, record1BitAtFork; now destruct pathWriter).
  assert (Ed : forall es' : ExecutionState, (if decide (direction rho c = VTrue) then (Some es', None) else (None, Some es')) =
    (if taken rho c then (Some es', None) else (None, Some es'))) by (intros; unfold direction; now destruct (taken rho c)).
  destruct (is_constant c) eqn:Hk.
  - cbv beta iota zeta delta [mbind SolverM_bind mret SolverM_ret outcome_bind]. rewrite <- Ec. replace (set_es_constraints es1 (es_constraints es1)) with es1 by now destruct es1. now rewrite Ed.
  - unfold mbind at 1 2, SolverM_bind at 1 2. rewrite (add_side rho es1 c x Hk Hc); rewrite ?Ec; [|done..].
    destruct (add _ _) as [[b cm1]| |]; [|done..]. cbv beta iota zeta delta [mbind mret SolverM_ret outcome_bind fst snd]. now rewrite Ed.
Qed.

Lemma replay_step rho es c x : condition_ok rho c -> cm_ok (es_constraints es) -> models rho (constraints (es_constraints es)) ->
  shouldRecord es = true -> 0 <= replayPosition es -> path !! Z.to_nat (replayPosition es) = Some (FORK (taken rho c)) ->
  fork false false false es c false x =
  (cm ← constrain rho (es_constraints es) c;
   Done (Some (if taken rho c then (Some (advance es (taken rho c) cm), None) else (None, Some (advance es (taken rho c) cm))), x)).
Proof.
  intros Hc Hcm HM Hes Hpos Hpe. set (v := match c with ConstantExpr CE => if isTrue CE then VTrue else VFalse | _ => VUnknown end).
  assert (Hv : (v = VUnknown \/ v = direction rho c) /\ (if decide (v = VUnknown) then Some (side rho c) else None) =
    (if is_constant c then None else Some (side rho c))).
  { destruct c as [b| | | | | | | | |]; try (split; [now left|done]). destruct (co_value _ _ Hc) as [w Hw].
    pose proof (bool_value _ _ _ (co_width _ _ Hc) Hw) as Hb. apply eval_const_inv in Hw as [-> Vb]. unfold direction, taken.
    destruct Hb as [-> | ->]; subst v; rewrite ?isTrue_one, ?isTrue_zero; (split; [right|done]); rewrite (eval_const _ _ Vb);
      [now rewrite bool_decide_eq_true_2|now rewrite bool_decide_eq_false_2]. }
  destruct Hv as [Hv Hn]. pose proof (replay_choose rho es c v x Hes Hv Hpos Hpe) as Ech. rewrite Hn in Ech.
  assert (Hpx : isInPOSIX es = false) by (unfold shouldRecord in Hes; now apply andb_true_iff in Hes as [_ ?%negb_true_iff]).
  unfold Replay.fork, limit_static_forks. rewrite andb_false_r. unfold mbind at 1, SolverM_bind at 1, mret at 1, SolverM_ret at 1.
  unfold mbind at 1, SolverM_bind at 1. rewrite (replay_decide es c x Hes). fold v.
  unfold mbind at 1, SolverM_bind at 1. rewrite Ech. cbn [isInPOSIX set_replayPosition]. rewrite Hpx, andb_false_r.
  transitivity (one_side (S:=S) UseVisitorHash manager_fuel add_fuel (set_replayPosition es (replayPosition es + 1))
    (if is_constant c then None else Some (side rho c)) (direction rho c) false x); [unfold direction; now destruct (taken rho c)|].
  now rewrite (replay_side rho _ c x Hc).
Qed.

(** The state after a replayed path. *)
Definition replayed (es : ExecutionState) (entries : list PathEntry) (cm : ConstraintManager) : ExecutionState :=
  mkState cm (replayPosition es + Z.of_nat (length entries)) (pathOS es ++ if pathWriter then entries else [])
    (isInUserMain es) (isInPOSIX es) (forkDisabled es) (Nat.iter (length entries) (fun n => u32 (n + 1)) (nbranches_rec es))
    (depth es) (terminated es).

Lemma replayed_advance es d entries cm1 cm : replayed (advance es d cm1) entries cm = replayed es (FORK d :: entries) cm.
Proof.
  unfold replayed, advance, record1BitAtFork. 
  destruct pathWriter; cbn -[Nat.iter u32]; rewrite ?app_nil_r, <- ?app_assoc, ?Nat.iter_succ_r; (f_equal; [lia|now destruct d..]).
Qed.

Lemma add_all_cons rho cm c cs : add_all cm (path_condition rho (c :: cs)) =
  (cm1 ← constrain rho cm c; add_all cm1 (path_condition rho cs)).
Proof.
  unfold path_condition, constrain. rewrite filter_cons. destruct (is_constant c) eqn:E; case_decide; try congruence; [done|].
  cbn [fmap list_fmap add_all]. now destruct (add cm (side rho c)) as [[b cm1]| |].
Qed.

Lemma constrain_ok rho cm c cm1 : condition_ok rho c -> cm_ok cm -> models rho (constraints cm) -> constrain rho cm c = Done cm1 ->
  cm_ok cm1 /\ models rho (constraints cm1).
Proof.
  intros Hc Hcm HM. unfold constrain. destruct (is_constant c); [now intros [= <-]|].
  destruct (add _ _) as [[b cm2]| |] eqn:Ea; [|done..]. intros [= <-].
  destruct (addConstraint_exact UseVisitorHash manager_fuel Inv FL add_fuel _ _ _ _ Hcm (side_width rho c (co_width _ _ Hc)) Ea) as (Hcm2 & Hf & _).
  split; [done|]. apply Hf; [done|]. apply side_true; apply Hc.
Qed.

Lemma replay_run rho conditions : Forall (condition_ok rho) conditions -> forall es x rest,
  cm_ok (es_constraints es) -> models rho (constraints (es_constraints es)) -> shouldRecord es = true -> 0 <= replayPosition es ->
  drop (Z.to_nat (replayPosition es)) path = path_of rho conditions ++ rest ->
  follow es conditions x =
  (cm ← add_all (es_constraints es) (path_condition rho conditions); Done (Some (Some (replayed es (path_of rho conditions) cm)), x)).
Proof.
  induction 1 as [|c cs Hc Hcs IH]; intros es x rest Hcm HM Hes Hpos Hd; cbn [Replay.follow].
  { cbn. unfold replayed. cbn. rewrite Z.add_0_r. destruct es, pathWriter; cbn; now rewrite app_nil_r. }
  cbn [path_of fmap list_fmap app] in Hd. assert (Hpe : path !! Z.to_nat (replayPosition es) = Some (FORK (taken rho c))).
  { rewrite <- (Nat.add_0_r (Z.to_nat (replayPosition es))), <- lookup_drop, Hd. reflexivity. }
  rewrite add_all_cons. unfold mbind at 1, SolverM_bind at 1. rewrite (replay_step rho es c x) by done.
  destruct (constrain rho (es_constraints es) c) as [cm1| |] eqn:E1; [|done..].
  destruct (constrain_ok _ _ _ _ Hc Hcm HM E1) as [Hcm1 HM1]. cbn [mbind outcome_bind].
  assert (Ep : replayPosition (advance es (taken rho c) cm1) = replayPosition es + 1).
  { unfold advance, record1BitAtFork. now destruct pathWriter. }
  pose proof (IH (advance es (taken rho c) cm1) x rest Hcm1 HM1) as H.
  transitivity (follow (advance es (taken rho c) cm1) cs x); [now destruct (taken rho c)|]. rewrite H.
  - cbn [es_constraints advance set_es_constraints]. destruct (add_all _ _) as [cm2| |]; [|done..]. cbn. now rewrite replayed_advance.
  - unfold shouldRecord, advance, record1BitAtFork. now destruct pathWriter.
  - rewrite Ep. lia.
  - rewrite Ep. replace (Z.to_nat (replayPosition es + 1)) with (Z.to_nat (replayPosition es) + 1)%nat by lia.
    rewrite <- drop_drop, Hd. reflexivity.
Qed.

End Path.

(** The constraints of a path hold exactly where it is taken. *)
Lemma path_condition_exact rho rho' conditions : Forall (condition_ok rho) conditions -> Forall (fun c => safe c = true) conditions ->
  models rho' (path_condition rho conditions) <-> Forall (fun c => eval rho' c = eval rho c) conditions.
Proof.
  intros Hc Hs. induction Hc as [|c cs Hc Hcs IH]; [split; constructor|]. apply Forall_cons in Hs as [Sc Ss]. specialize (IH Ss).
  unfold path_condition. rewrite filter_cons, Forall_cons, <- IH. unfold path_condition. case_decide as Hk.
  - cbn [fmap list_fmap]. unfold models at 1. rewrite Forall_cons. apply and_iff_compat_r. apply side_exact; [apply Hc..|].
    apply safe_defined; [apply Hc|done].
  - destruct c; try done. split; [|tauto]. intros H. split; [|done]. destruct (co_value _ _ Hc) as [v [-> V]%eval_const_inv].
    now rewrite !eval_const.
Qed.

Lemma path_condition_ok rho conditions : Forall (condition_ok rho) conditions ->
  Forall (has_width 1) (path_condition rho conditions) /\ models rho (path_condition rho conditions) /\
  (Forall (fun c => safe c = true) conditions -> Forall (fun c => safe c = true) (path_condition rho conditions)).
Proof.
  intros Hc. unfold path_condition, models. rewrite !Forall_fmap. split_and!; [| |intros Hs];
    apply Forall_forall; intros c [_ Hin]%list_elem_of_filter; rewrite Forall_forall in *; cbn.
  - now apply side_width, Hc.
  - apply side_true; now apply Hc.
  - now apply side_safe, Hs.
Qed.

(** C1: a run on given inputs is recorded as one bit for each branch of the program, and
    replaying the record on symbolic inputs, without asking the solver, follows it to
    its end: no recorded branch is refused, and what the replay does is to add the
    conditions of the symbolic branches, or their negations, to the constraints one after the
    other (so it returns exactly if [ConstraintManager::addConstraint] does each
    time).  The recorded inputs satisfy the constraints it ends with; and if no
    condition can divide by zero, the inputs that satisfy them are exactly those that
    satisfied the constraints at the start and take the recorded branches.  So any solution
    reproduces the recorded run. *)
Theorem replay_reproduces (Inv : Factors -> (Expr -> Prop) -> Prop) (FL : FactorLaws Inv) (Rec : ReplayOptions)
    (rho : valuation) (conditions : list Expr) (es0 es : ExecutionState) (x0 x : S * VState) :
  replayPath (ReplayOptions:=Rec) = None -> pathWriter (ReplayOptions:=Rec) = true -> shouldRecord es0 = true ->
  shouldRecord es = true -> 0 <= replayPosition es ->
  cm_ok (Inv:=Inv) (es_constraints es) -> models rho (constraints (es_constraints es)) -> Forall (condition_ok rho) conditions ->
  exists es0' path,
    follow_with Rec es0 (concrete rho <$> conditions) x0 = Done (Some (Some es0'), x0) /\
    pathOS es0' = pathOS es0 ++ path /\
    (forall (Rep : ReplayOptions) (before after : list PathEntry),
       replayPath (ReplayOptions:=Rep) = Some (before ++ path ++ after) -> replayPosition es = Z.of_nat (length before) ->
       Z.of_nat (length (before ++ path ++ after)) < 2 ^ 32 ->
       CallSolver (ReplayOptions:=Rep) = false -> oracleKTest (ReplayOptions:=Rep) = None ->
       follow_with Rep es conditions x =
       (cm ← add_all (es_constraints es) (path_condition rho conditions);
        Done (Some (Some (replayed (O:=Rep) es path cm)), x))) /\
    forall cm, add_all (es_constraints es) (path_condition rho conditions) = Done cm ->
      cm_ok (Inv:=Inv) cm /\ models rho (constraints cm) /\
      (Forall (fun c => safe c = true) (constraints (es_constraints es) ++ conditions) ->
       forall rho', models rho' (constraints cm) <->
         models rho' (constraints (es_constraints es)) /\ Forall (fun c => eval rho' c = eval rho c) conditions).
Proof.
  intros HR HW Hes0 Hes Hpos Hcm HM Hc.
  assert (Hw : Forall (has_width 1) conditions) by (eapply Forall_impl; [exact Hc|]; now intros c []).
  destruct (recording_path (O:=Rec) rho conditions HR HW Hw es0 x0 Hes0) as (es0' & E0 & Hp & _).
  exists es0', (path_of rho conditions). split_and!; [done|done| |].
  - intros Rep before after HP Hpb Hlen HS HO. apply (replay_run Inv _ HP HS HO Hlen rho conditions Hc es x after); [done..|].
    rewrite Hpb, Nat2Z.id, drop_app_length. done.
  - intros cm E. destruct (path_condition_ok rho conditions Hc) as (Hpw & HpM & Hps).
    destruct (add_all_exact Inv _ _ _ Hcm Hpw E) as (Hcm' & Hf & Hx). split_and!; [done|now apply Hf|].
    intros [SC Ss]%Forall_app rho'. rewrite Hx; [|now exists rho|done|auto]. now rewrite path_condition_exact.
Qed.

(** ** Exploring *)

Section Explore.
Context (U : list Array) (Ctx : Query -> Prop) {QC : QueryContext U Ctx}.
Context (Ini : Query -> list Array -> Prop) (F : Prop) (I : S -> Prop) {SS : SolverSpec U Ctx Ini F I impl}.
Context (C : list Expr) (K : ConstraintManager -> Prop) {SF : Simplifier simplifyExprs UseVisitorHash visit_fuel U C K}.
Context (HK : forall cm e, K cm -> Ctx (Query'create cm e)) (HC : satisfiable C).
Context (Hcm : forall cm, K cm -> cm_ok (Inv:=book) cm) (HI : UseIndependentSolver = true).
Context {O : ReplayOptions} (HP : replayPath = None) (HS : CallSolver = true) (HO : oracleKTest = None) (HD : MaxDepth = 0) (HT : replayingKTest = false).

(** The state that goes on with one side of a branch that can go both ways: some input
    gets there, none is lost, and none is added unless a condition can divide by
    zero. *)
Record side_of (c : Expr) (d : bool) (es es' : ExecutionState) : Prop := {
  so_reached : exists rho, satisfies rho C /\ eval rho c = Some (APInt 1 (b2z d));
  so_ok : cm_ok (Inv:=book) (es_constraints es');
  so_keeps rho : satisfies rho C -> eval rho c = Some (APInt 1 (b2z d)) -> satisfies rho (constraints (es_constraints es'));
  so_exact : Forall (fun c => safe c = true) (c :: C) ->
    forall rho, satisfies rho (constraints (es_constraints es')) -> satisfies rho C /\ eval rho c = Some (APInt 1 (b2z d));
  so_path : pathOS es' = pathOS es ++ if pathWriter then [FORK d] else []
}.

(** A call of the constraint manager for this branch did not return. *)
Definition manager_stuck (c : Expr) : Prop := exists cm, K cm /\
  (ConstraintManager'copy cm = None \/
   exists cm' e, (cm' = cm \/ ConstraintManager'copy cm = Some cm') /\ (e = c \/ e = createIsZero c) /\ forall r, add cm' e <> Done r).

Lemma manager_copy_ok cm cm' : K cm -> ConstraintManager'copy cm = Some cm' -> constraints cm' = C /\ cm_ok (Inv:=book) cm'.
Proof.
  intros Hk E. unfold ConstraintManager'copy in E. apply bind_Some in E as (G & E & [= <-]). cbn.
  pose proof (sf_constraints _ _ _ cm Hk) as EC. destruct (Hcm cm Hk) as [H1 H2 H3 H4]. split; [done|]. constructor; cbn; [done| |set_solver|].
  - unfold tracks in *. rewrite HI in *. now apply (copy_book (cm_factors cm)).
  - constructor; constructor.
Qed.

(** One side of a branch. *)
Lemma explore_side (c e : Expr) (d : bool) (es0 es : ExecutionState) (x : S * VState) : bool_ok U c -> e = (if d then c else createIsZero c) ->
  (exists rho, satisfies rho C /\ eval rho c = Some (APInt 1 1)) -> (exists rho, satisfies rho C /\ eval rho c = Some (APInt 1 0)) ->
  constraints (es_constraints es) = C -> cm_ok (Inv:=book) (es_constraints es) ->
  pathOS es = pathOS es0 ++ (if pathWriter then [FORK d] else []) ->
  match add (es_constraints es) e with
  | Done (b, cm') => Executor_addConstraint (S:=S) UseVisitorHash manager_fuel add_fuel es e x = Done (Some (true, set_es_constraints es cm'), x) /\
      side_of c d es0 (set_es_constraints es cm')
  | r => Executor_addConstraint (S:=S) UseVisitorHash manager_fuel add_fuel es e x = match r with Abort => Abort | _ => OutOfFuel end
  end.
Proof.
  intros Hc He (r1 & H1 & E1) (r0 & H0 & E0) EC Hok Hpath.
  assert (Hcw : has_width 1 c) by (split; [apply Hc|apply Hc]).
  assert (Hew : has_width 1 e) by (subst e; destruct d; [done|exact (hw_IsZero 1 c Hcw)]).
  assert (Hval : forall rho, is_Some (eval rho c) -> eval rho e = Some (APInt 1 1) <-> eval rho c = Some (APInt 1 (b2z d))).
  { intros rho [v Hv]. pose proof (negation_value rho c Hcw (ex_intro _ v Hv)) as Hn. unfold taken in Hn.
    subst e. destruct d; [done|]. rewrite Hn, Hv. destruct (bool_value rho c v Hcw Hv) as [-> | ->];
      [rewrite bool_decide_eq_true_2 by done|rewrite bool_decide_eq_false_2 by done]; done. }
  assert (Hne : is_constant e = false).
  { destruct e as [ce| | | | | | | | |]; try done. exfalso.
    assert (Hsame : eval r1 (ConstantExpr ce) = eval r0 (ConstantExpr ce)) by done.
    pose proof (Hval r1 ltac:(eauto)) as V1. pose proof (Hval r0 ltac:(eauto)) as V0. rewrite E1 in V1. rewrite E0 in V0. rewrite Hsame in V1.
    destruct d; cbn [b2z] in *; [discriminate (proj1 V0 (proj2 V1 eq_refl))|discriminate (proj1 V1 (proj2 V0 eq_refl))]. }
  assert (Ex : Executor_addConstraint (S:=S) UseVisitorHash manager_fuel add_fuel es e x =
    (r ← pure (add (es_constraints es) e); mret (r.1, set_es_constraints es r.2)) x).
  { destruct e; try done; unfold Executor_addConstraint, oracle_accepts; rewrite HO; reflexivity. }
  rewrite Ex. unfold pure, mbind, SolverM_bind. destruct (add _ e) as [[b cm']| |] eqn:Ea; [|done..]. cbn.
  destruct (addConstraint_exact UseVisitorHash manager_fuel book book_laws add_fuel _ _ _ _ Hok Hew Ea) as (Hok' & Hf & Hx). rewrite EC in *.
  assert (Hreach : exists rho, satisfies rho C /\ eval rho c = Some (APInt 1 (b2z d))) by (destruct d; eauto).
  assert (Hb : b = true).
  { destruct Hreach as (r & Hr & Er). apply (Hf r (proj2 Hr)). apply Hval; [eauto|done]. }
  subst b. split; [done|]. constructor; cbn; [done|done| | |done].
  - intros rho [Hby HM] Ev. split; [done|]. apply Hf; [done|]. apply Hval; [eauto|done].
  - intros [Sc SC]%Forall_cons rho [Hby HM]. destruct (Hx SC) as [_ Hi].
    { subst e. destruct d; [done|]. now apply (st_IsZero (fun e => safe e = true)). }
    destruct (proj1 (Hi rho) (conj eq_refl HM)) as [HMC Hv]. split; [now split|]. apply Hval; [|done]. apply safe_defined; [apply Hcw|done].
Qed.

Lemma both_sides_ok (c : Expr) (es : ExecutionState) (x : S * VState) : bool_ok U c -> K (es_constraints es) -> shouldRecord es = true ->
  (exists rho, satisfies rho C /\ eval rho c = Some (APInt 1 1)) -> (exists rho, satisfies rho C /\ eval rho c = Some (APInt 1 0)) ->
  match both_sides (S:=S) UseVisitorHash manager_fuel add_fuel es c false x with
  | Done (Some (Some t, Some f), x') => x' = x /\ side_of c true es t /\ side_of c false es f
  | Done _ => False
  | _ => manager_stuck c
  end.
Proof.
  intros Hc Hk Hes H1 H0. assert (Hm : isInUserMain es = true /\ isInPOSIX es = false).
  { unfold shouldRecord in Hes. apply andb_true_iff in Hes as [? ?%negb_true_iff]. done. }
  destruct Hm as [Hm Hx]. set (es1 := set_depth es (u32 (depth es + 1))).
  unfold both_sides, branch_state. fold es1. unfold mbind, SolverM_bind, mret, SolverM_ret. cbn beta iota.
  change (es_constraints es1) with (es_constraints es). unfold pure at 1.
  destruct (ConstraintManager'copy (es_constraints es)) as [cm2|] eqn:E2; cbn [or_abort]; [|exists (es_constraints es); auto].
  destruct (manager_copy_ok _ _ Hk E2) as [EC2 Hok2]. rewrite Hm, Hx. cbn [negb andb]. unfold assume. cbn beta iota.
  set (t := record1BitAtFork es1 VTrue). set (f := record1BitAtFork (set_es_constraints es1 cm2) VFalse).
  assert (Ht : es_constraints t = es_constraints es /\ pathOS t = pathOS es ++ if pathWriter then [FORK true] else [])
    by (unfold t, record1BitAtFork; destruct pathWriter; cbn; rewrite ?app_nil_r; done).
  assert (Hf : es_constraints f = cm2 /\ pathOS f = pathOS es ++ if pathWriter then [FORK false] else [])
    by (unfold f, record1BitAtFork; destruct pathWriter; cbn; rewrite ?app_nil_r; done).
  destruct Ht as [Et Pt], Hf as [Ef Pf].
  pose proof (explore_side c c true es t x Hc eq_refl H1 H0) as Lt. rewrite Et in Lt.
  specialize (Lt (sf_constraints _ _ _ _ Hk) (Hcm _ Hk) Pt).
  pose proof (explore_side c (createIsZero c) false es f x Hc eq_refl H1 H0) as Lf. rewrite Ef in Lf. specialize (Lf EC2 Hok2 Pf).
  destruct (add (es_constraints es) c) as [[bt cmt]| |] eqn:Eat.
  2,3: rewrite Lt; exists (es_constraints es); split; [done|]; right; exists (es_constraints es), c; split_and!; auto; intros r; rewrite Eat; done.
  destruct Lt as [-> St]. destruct (add cm2 (createIsZero c)) as [[bf cmf]| |] eqn:Eaf.
  2,3: rewrite Lf; exists (es_constraints es); split; [done|]; right; exists cm2, (createIsZero c); split_and!; auto; intros r; rewrite Eaf; done.
  destruct Lf as [-> Sf]. cbn. rewrite HD. done.
Qed.

End Explore.

(** ** The oracle *)

(** Inputs that have the bytes of the test for the arrays it names, and zeros behind them. *)
Definition oracle_agrees (ktest : KTest) (rho : valuation) : Prop := forall array i, 0 <= i ->
  match find_object ktest array with
  | Some o => BV.wrap (range array) (rho array i) = BV.wrap (range array) (default 0 (obytes o !! Z.to_nat i))
  | None => True
  end.

(** The inputs of the test, with zeros for arrays it does not name. *)
Definition oracle_contents (ktest : KTest) : valuation := fun array i =>
  match find_object ktest array with Some o => default 0 (obytes o !! Z.to_nat i) | None => 0 end.

Lemma oracle_contents_agrees ktest : oracle_agrees ktest (oracle_contents ktest).
Proof. intros array i _. unfold oracle_contents. now destruct (find_object ktest array). Qed.

Definition test_bytes_ok (ktest : KTest) : Prop := Forall (fun o => Forall (fun b => 0 <= b < 256) (obytes o)) (kobjects ktest).

Lemma find_object_bytes ktest array o : test_bytes_ok ktest -> find_object ktest array = Some o -> Forall (fun b => 0 <= b < 256) (obytes o).
Proof.
  unfold test_bytes_ok, find_object. rewrite Forall_forall. intros H Ho. apply H. apply last_Some_elem_of in Ho.
  now apply list_elem_of_filter in Ho as [_ Ho].
Qed.

Lemma oracle_initial_ok ktest rho r i : oracle_agrees ktest rho -> test_bytes_ok ktest ->
  array_ok r = true -> isConstantArray r = false -> domain r <= 32 -> 0 <= i < 2 ^ domain r ->
  evaluates rho false (APInt (range r) (BV.wrap (range r) (rho r i))) (Oracle_getInitialValue ktest r i).
Proof.
  intros Hag Hby Hr Hc Hd Hi. pose proof (array_ok_range r Hr) as Hrange. pose proof (array_ok_domain_pos r Hr).
  specialize (Hag r i (proj1 Hi)). unfold Oracle_getInitialValue. destruct (find_object ktest r) as [o|] eqn:Eo.
  - pose proof (find_object_bytes _ _ _ Hby Eo) as Hbo. rewrite Hag. destruct (obytes o !! Z.to_nat i) as [b|] eqn:Eb; cbn [default].
    + apply (Forall_lookup_1 _ _ _ _ Hbo) in Eb. rewrite alloc_byte by lia. apply evaluates_const. now apply BV.wrap_in_range.
    + rewrite make_zero by done. unfold BV.wrap. rewrite Z.mod_0_l by lia. apply evaluates_const. now apply zero_valid.
  - split; [|done]. apply ReadExpr'create_sound. rewrite alloc_index by lia.
    eapply eval_read_expr; [reflexivity|now apply eval_const, BV.in_range_spec|done|done|].
    unfold read_value, initial_value. cbn. now rewrite Hc.
Qed.

(** C25: with an oracle, [Executor::addConstraint] never loses the inputs of the test: if
    they satisfy the constraints of the state, they do so afterwards, whatever is added.
    A condition that is false for them is refused and leaves the state as it is (a
    constant one ends the program).  The table of the oracle stays right, and the call
    returns unless the constraint manager does not. *)
Theorem oracle_inputs_survive (Inv : Factors -> (Expr -> Prop) -> Prop) (FL : FactorLaws Inv) (O : ReplayOptions) (ktest : KTest)
    (rho : valuation) (es : ExecutionState) (condition : Expr) (v : apint) (x : S * VState) :
  oracleKTest = Some ktest -> test_bytes_ok ktest -> oracle_agrees ktest rho ->
  cm_ok (Inv:=Inv) (es_constraints es) -> models rho (constraints (es_constraints es)) ->
  has_width 1 condition -> evaluable false condition = true -> eval rho condition = Some v ->
  tables_ok rho (evaluates rho false) x.2 ->
  match Executor_addConstraint (S:=S) UseVisitorHash manager_fuel add_fuel es condition x with
  | Done (Some (b, es'), x') => x'.1 = x.1 /\ tables_ok rho (evaluates rho false) x'.2 /\
      cm_ok (Inv:=Inv) (es_constraints es') /\ models rho (constraints (es_constraints es')) /\ (v = APInt 1 0 -> b = false /\ es' = es)
  | Done (None, x') => is_constant condition = true /\ v = APInt 1 0
  | _ => forall r, add (es_constraints es) condition <> Done r
  end.
Proof.
  intros HO Hby Hag Hcm HM Hw Hev Hv Ht.
  destruct (is_constant condition) eqn:Hk.
  { destruct condition as [c| | | | | | | | |]; try done. pose proof (bool_value _ _ _ Hw Hv) as Hb. apply eval_const_inv in Hv as [-> _].
    cbn [Executor_addConstraint]. destruct Hb as [-> | ->]; [rewrite isTrue_one|rewrite isTrue_zero]; cbn; [|done]. now split_and!. }
  assert (E : Executor_addConstraint (S:=S) UseVisitorHash manager_fuel add_fuel es condition x =
    (accepted ← oracle_accepts UseVisitorHash condition;
     if accepted : bool then r ← pure (add (es_constraints es) condition); mret (r.1, set_es_constraints es r.2) else mret (false, es)) x)
    by now destruct condition.
  rewrite E. unfold oracle_accepts, mbind at 1, SolverM_bind at 1. rewrite HO.
  pose proof (evaluator_visit_ok UseVisitorHash rho false (Oracle_getInitialValue ktest) (fun r i => oracle_initial_ok ktest rho r i Hag Hby)
    (evaluate_fuel condition) condition v ltac:(done) Hev Hv x.2 Ht) as H.
  unfold OracleEvaluator. destruct (visit _ _ _ _ _) as [[res st]|]; [|done]. destruct H as [[Hres _] Hst].
  destruct (match res with ConstantExpr CE => isTrue CE | _ => false end) eqn:Ea; cbn beta iota; [|cbn; now split_and!].
  assert (v = APInt 1 1) as ->.
  { destruct res as [c| | | | | | | | |]; try done. apply eval_const_inv in Hres as [-> V]. destruct (bool_value _ _ _ Hw Hv) as [-> | ->]; [done|].
    now rewrite isTrue_zero in Ea. }
  unfold mbind, SolverM_bind, pure. destruct (add _ _) as [[b cm']| |] eqn:Eadd; [|done..]. cbn.
  destruct (addConstraint_exact UseVisitorHash manager_fuel Inv FL add_fuel _ _ _ _ Hcm Hw Eadd) as (Hcm' & Hf & _).
  destruct (Hf rho HM Hv) as [-> HM']. now split_and!.
Qed.
End ReplaySound.
(** ** Witnesses *)

Section Witness.
#[local] Existing Instance apint_ref.
#[local] Existing Instance apint_ref_spec.
#[local] Existing Instance no_const_array_opt.
#[local] Existing Instance manager_options.

Definition user_state : ExecutionState := mkState empty_manager 0 [] true false false 0 0 None.
Definition recorder : ReplayOptions := Build_ReplayOptions None false None true true 0.
Definition replayer (path : list PathEntry) : ReplayOptions := Build_ReplayOptions (Some path) false None false false 0.

(** Three branches, the second on a constant; the recorded byte is 3. *)
Definition cell_is_five : Expr := CmpExpr Eq (ConstantExpr (APInt 8 5)) cell_byte.
Definition three_branches : list Expr := [cell_is_small; ConstantExpr (APInt 1 1); cell_is_five].
Definition three_entries : list PathEntry := [FORK true; FORK true; FORK false].

Lemma user_state_ok : cm_ok (Inv:=book) (es_constraints user_state).
Proof. exact no_constraints_ok. Qed.

Lemma three_branches_ok : Forall (condition_ok (cell_contents 3)) three_branches.
Proof.
  repeat apply Forall_cons_2; [..|constructor];
    (constructor; [split; reflexivity|eexists; reflexivity|intros H; first [reflexivity|discriminate H]]).
Qed.

Definition add_three : outcome ConstraintManager :=
  add_all true 20 20 empty_manager (path_condition (cell_contents 3) three_branches).
Definition manager_after (r : outcome ConstraintManager) : ConstraintManager := match r with Done cm => cm | _ => empty_manager end.

Lemma replay_reproduces_witness :
  follow DummySolver true true esize 20 20 (O:=replayer three_entries) user_state three_branches (tt, no_tables) =
    Done (Some (Some (replayed (O:=replayer three_entries) user_state three_entries (manager_after add_three))), (tt, no_tables)) /\
  forall rho', models rho' (constraints (manager_after add_three)) <->
    models rho' [] /\ Forall (fun c => eval rho' c = eval (cell_contents 3) c) three_branches.
Proof.
  assert (E : add_three = Done (manager_after add_three)).
  { assert (H : match add_three with Done _ => true | _ => false end = true) by (vm_compute; reflexivity). now destruct add_three. }
  destruct (replay_reproduces DummySolver true true esize 20 20 book book_laws recorder (cell_contents 3) three_branches
    user_state user_state (tt, no_tables) (tt, no_tables) eq_refl eq_refl eq_refl eq_refl ltac:(discriminate) user_state_ok
    ltac:(constructor) three_branches_ok) as (es0' & path & E0 & Ep & Hrep & Hend).
  assert (path = three_entries) as ->.
  { assert (H : match follow DummySolver true true esize 20 20 (O:=recorder) user_state (concrete (cell_contents 3) <$> three_branches) (tt, no_tables) with
      | Done (Some (Some es), _) => pathOS es | _ => [] end = three_entries) by (vm_compute; reflexivity).
    rewrite E0, Ep in H. exact H. }
  split.
  - rewrite (Hrep (replayer three_entries) [] [] eq_refl eq_refl eq_refl eq_refl eq_refl).
    change (add_all true 20 20 (es_constraints user_state) (path_condition (cell_contents 3) three_branches)) with add_three.
    rewrite E. reflexivity.
  - destruct (Hend _ E) as (_ & _ & Hx). apply Hx. repeat constructor.
Defined.

(** A state without constraints forks at [cell_is_small]. *)
Definition explorer : ReplayOptions := Build_ReplayOptions None false None true true 0.
Definition fresh_manager (cm : ConstraintManager) : Prop := cm = empty_manager.

#[local] Instance fresh_simplifier : Simplifier false true esize [cell] [] fresh_manager.
Proof. constructor; [now intros cm ->|done]. Qed.

Definition forked := fork byte_solver false true esize 20 20 (O:=explorer) false false false user_state cell_is_small false (tt, no_tables).


(** The test has the byte 3; the condition on 5 is refused. *)
Definition cell_test : KTest := mkKTest 3 [] 0 0 [mkKTestObject [99; 101; 108; 108] [3]].
Definition with_oracle : ReplayOptions := Build_ReplayOptions None false (Some cell_test) true true 0.

Lemma oracle_inputs_survive_witness : exists x',
  Executor_addConstraint true 20 20 (O:=with_oracle) user_state cell_is_five (tt, no_tables) = Done (Some (false, user_state), x').
Proof.
  pose proof (oracle_inputs_survive true 20 20 book book_laws with_oracle cell_test (oracle_contents cell_test) user_state cell_is_five
    (APInt 1 0) (tt, no_tables) eq_refl ltac:(repeat constructor; discriminate) (oracle_contents_agrees cell_test) user_state_ok
    (Forall_nil_2 _) (conj eq_refl eq_refl) eq_refl eq_refl (no_tables_ok _ _)) as H.
  assert (E : match Executor_addConstraint true 20 20 (O:=with_oracle) user_state cell_is_five (tt, no_tables) with
    Done (Some _, _) => true | _ => false end = true) by (vm_compute; reflexivity).
  destruct (Executor_addConstraint _ _ _ _ _ _) as [[[[b es']|] x']| |]; try discriminate E.
  destruct H as (_ & _ & _ & _ & H). destruct (H eq_refl) as [-> ->]. now exists x'.
Defined.

(** A constraint that is the constant true is refused as well. *)
Example constant_true_refused : Executor_addConstraint true 20 20 (O:=explorer) user_state (ConstantExpr (APInt 1 1)) (tt, no_tables) =
  Done (Some (false, user_state), (tt, no_tables)).
Proof. reflexivity. Qed.

(** With a bound on the depth, [fork] uses the pointer to the state it has just set to null: the
    oracle refuses the side on which the condition holds. *)
Definition bounded_oracle : ReplayOptions := Build_ReplayOptions None false (Some cell_test) true true 5.
Example max_depth_null : fork byte_solver false true esize 20 20 (O:=bounded_oracle) false false false user_state cell_is_five false (tt, no_tables) = Abort.
Proof. vm_compute. reflexivity. Qed.
End Witness.
