(* ===== verification/Serialize.v ===== *)
(** * Serialization

    src/include/klee/Internal/Support/Serialize.h and SerializableTypes.h: how the entries of
    recorded streams are written as bytes, read back, and skipped.  Integers are
    stored with the least significant byte first, as on the machines the code
    runs on, and structs of plain data as the bytes of the struct; [junk] is what their padding
    holds.

    A stream that is read is the list of its remaining bytes; [None] means that it has
    ended (the stream is not [good()], and the value is unspecified) or that an entry has no
    known kind.  Seeking beyond the end is no error until the next read. *)

From stdpp Require Import strings.
From S2P Require Import Prelude APInt Expr ExprEvaluator ConstraintManager Solver KTest Replay.

(** ** Bytes of integers *)

Fixpoint le_bytes (n : nat) (v : Z) : list Z :=
  match n with O => [] | S n => BV.wrap 8 v :: le_bytes n (v / 2 ^ 8) end.

Fixpoint le_value (l : list Z) : Z := match l with [] => 0 | b :: l => b + 2 ^ 8 * le_value l end.

Lemma le_bytes_length n v : length (le_bytes n v) = n.
Proof. revert v. induction n as [|n IH]; intros v; cbn; [done|]. now rewrite IH. Qed.

Lemma le_value_bytes n v : 0 <= v < 2 ^ (8 * Z.of_nat n) -> le_value (le_bytes n v) = v.
Proof.
  revert v. induction n as [|n IH]; intros v Hv; cbn [le_bytes le_value]; [change (2 ^ _) with 1 in Hv; lia|].
  replace (2 ^ (8 * Z.of_nat (S n))) with (2 ^ 8 * 2 ^ (8 * Z.of_nat n)) in Hv by (rewrite <- Z.pow_add_r by lia; f_equal; lia).
  rewrite IH; [unfold BV.wrap; pose proof (Z.div_mod v (2 ^ 8)); lia|].
  split; [apply Z.div_pos; lia|apply Z.div_lt_upper_bound; lia].
Qed.

(** [is.read(p, n)] and [is.seekg(n, std::ios::cur)] *)
Definition read_bytes (n : nat) (inp : bytes) : option (bytes * bytes) :=
  if decide (n <= length inp)%nat then Some (take n inp, drop n inp) else None.
Definition seek (n : nat) (inp : bytes) : bytes := drop n inp.

Lemma read_bytes_app n l rest : length l = n -> read_bytes n (l ++ rest) = Some (l, rest).
Proof.
  intros <-. unfold read_bytes. rewrite length_app, decide_True by lia. now rewrite take_app_length, drop_app_length.
Qed.

Lemma seek_app n l rest : length l = n -> seek n (l ++ rest) = rest.
Proof. intros <-. apply drop_app_length. Qed.

(** ** The three functions of a type *)

Class Serializable (T : Type) := {
  serialize : T -> bytes;
  deserialize : bytes -> option (T * bytes);
  skip : bytes -> option bytes
}.

(** What is written is read back or skipped, for the values of the type. *)
Class SerializableLaws (T : Type) {ST : Serializable T} (valid : T -> Prop) : Prop := {
  sl_deserialize x rest : valid x -> deserialize (serialize x ++ rest) = Some (x, rest);
  sl_skip x rest : valid x -> skip (serialize x ++ rest) = Some rest
}.

(** *** Characters *)

Record Char := mkChar { char_byte : Z }.

Definition serialize_char (c : Char) : bytes :=
  [char_byte c].
Definition deserialize_char (inp : bytes) : option (Char * bytes) :=
  r ← read_bytes 1 inp; c ← head r.1; Some (mkChar c, r.2).
Definition skip_char (inp : bytes) : option bytes :=
  Some (seek 1 inp).

#[export] Instance char_serializable : Serializable Char := {|
  serialize := serialize_char; deserialize := deserialize_char; skip := skip_char
|}.

(** *** Integers of [n] bytes *)

Definition serialize_uint (n : nat) (v : Z) : bytes := le_bytes n v.
Definition deserialize_uint (n : nat) (inp : bytes) : option (Z * bytes) := r ← read_bytes n inp; Some (le_value r.1, r.2).
Definition skip_uint (n : nat) (inp : bytes) : option bytes := Some (seek n inp).

(** A signed integer is stored as its two's complement. *)
Definition serialize_int64 (v : Z) : bytes := serialize_uint 8 (BV.wrap 64 v).
Definition deserialize_int64 (inp : bytes) : option (Z * bytes) := r ← deserialize_uint 8 inp; Some (BV.signed 64 r.1, r.2).

(** *** Strings *)

Definition serialize_string (str : bytes) : bytes := serialize_uint 8 (Z.of_nat (length str)) ++ str.
Definition deserialize_string (inp : bytes) : option (bytes * bytes) :=
  r ← deserialize_uint 8 inp; read_bytes (Z.to_nat r.1) r.2.
Definition skip_string (inp : bytes) : option bytes :=
  r ← deserialize_uint 8 inp; Some (seek (Z.to_nat r.1) r.2).

#[export] Instance string_serializable : Serializable bytes := {|
  serialize := serialize_string; deserialize := deserialize_string; skip := skip_string
|}.

(** *** Structs *)

Record ExecutionStats := mkExecutionStats {
  llvm_inst_str : bytes; file_loc : bytes; instructions_cnt : Z; queryCost_us : Z; queryCost_increment_us : Z }.

Definition serialize_ExecutionStats (x : ExecutionStats) : bytes :=
  serialize_string (llvm_inst_str x) ++ serialize_string (file_loc x) ++ serialize_uint 8 (instructions_cnt x) ++
    serialize_int64 (queryCost_us x) ++ serialize_int64 (queryCost_increment_us x).
Definition deserialize_ExecutionStats (inp : bytes) : option (ExecutionStats * bytes) :=
  '(a, inp) ← deserialize_string inp; '(b, inp) ← deserialize_string inp; '(c, inp) ← deserialize_uint 8 inp;
    '(d, inp) ← deserialize_int64 inp; '(e, inp) ← deserialize_int64 inp; Some (mkExecutionStats a b c d e, inp).
Definition skip_ExecutionStats (inp : bytes) : option bytes :=
  inp ← skip_string inp; inp ← skip_string inp; inp ← skip_uint 8 inp; inp ← skip_uint 8 inp; skip_uint 8 inp.

#[export] Instance ExecutionStats_serializable : Serializable ExecutionStats := {|
  serialize := serialize_ExecutionStats; deserialize := deserialize_ExecutionStats; skip := skip_ExecutionStats
|}.

Record StringInstStats := mkStringInstStats { instcnt : Z; str : bytes }.

Definition serialize_StringInstStats (x : StringInstStats) : bytes :=
  serialize_uint 8 (instcnt x) ++ serialize_string (str x).
Definition deserialize_StringInstStats (inp : bytes) : option (StringInstStats * bytes) :=
  '(a, inp) ← deserialize_uint 8 inp; '(b, inp) ← deserialize_string inp; Some (mkStringInstStats a b, inp).
Definition skip_StringInstStats (inp : bytes) : option bytes :=
  inp ← skip_uint 8 inp; skip_string inp.

#[export] Instance StringInstStats_serializable : Serializable StringInstStats := {|
  serialize := serialize_StringInstStats; deserialize := deserialize_StringInstStats; skip := skip_StringInstStats
|}.

Record DataRecEntry := mkDataRecEntry { instUniqueID : bytes; data : Z }.

Definition serialize_DataRecEntry (x : DataRecEntry) : bytes :=
  serialize_uint 8 (data x) ++ serialize_string (instUniqueID x).
Definition deserialize_DataRecEntry (inp : bytes) : option (DataRecEntry * bytes) :=
  '(a, inp) ← deserialize_uint 8 inp; '(b, inp) ← deserialize_string inp; Some (mkDataRecEntry b a, inp).
Definition skip_DataRecEntry (inp : bytes) : option bytes :=
  inp ← skip_uint 8 inp; skip_string inp.

#[export] Instance DataRecEntry_serializable : Serializable DataRecEntry := {|
  serialize := serialize_DataRecEntry; deserialize := deserialize_DataRecEntry; skip := skip_DataRecEntry
|}.

(** [PathEntry] is four bytes: the kind, a byte of padding, and the union. *)
Definition PathEntry_bytes (junk : Z) (pe : PathEntry) : bytes :=
  match pe with
  | FORK br => [0; junk; Z.b2z br; junk]
  | SWITCH_EXPIDX i => [1; junk] ++ le_bytes 2 i
  | SWITCH_BBIDX i => [2; junk] ++ le_bytes 2 i
  | INDIRECTBR i => [3; junk; BV.wrap 8 i; junk]
  | DATAREC IDlen width => [4; junk; BV.wrap 8 IDlen; BV.wrap 8 width]
  | SCHEDULE tgtid => [5; junk] ++ le_bytes 2 tgtid
  end.

Definition PathEntry_of (l : bytes) : option PathEntry :=
  match l with
  | [t; _; a; b] =>
    if t =? 0 then Some (FORK (negb (a =? 0)))
    else if t =? 1 then Some (SWITCH_EXPIDX (le_value [a; b]))
    else if t =? 2 then Some (SWITCH_BBIDX (le_value [a; b]))
    else if t =? 3 then Some (INDIRECTBR a)
    else if t =? 4 then Some (DATAREC a b)
    else if t =? 5 then Some (SCHEDULE (le_value [a; b]))
    else None
  | _ => None
  end.

Definition deserialize_PathEntry (inp : bytes) : option (PathEntry * bytes) :=
  r ← read_bytes 4 inp; pe ← PathEntry_of r.1; Some (pe, r.2).
Definition skip_PathEntry (inp : bytes) : option bytes := Some (seek 4 inp).

#[export] Instance PathEntry_serializable (junk : Z) : Serializable PathEntry := {|
  serialize := PathEntry_bytes junk; deserialize := deserialize_PathEntry; skip := skip_PathEntry
|}.

(** ** Round trips *)

Definition string_fits (s : bytes) : Prop := Z.of_nat (length s) < 2 ^ 64.
Definition u64_fits (v : Z) : Prop := 0 <= v < 2 ^ 64.
Definition i64_fits (v : Z) : Prop := - 2 ^ 63 <= v < 2 ^ 63.

Lemma uint_roundtrip n v rest : 0 <= v < 2 ^ (8 * Z.of_nat n) -> deserialize_uint n (serialize_uint n v ++ rest) = Some (v, rest).
Proof.
  intros Hv. unfold deserialize_uint, serialize_uint. rewrite read_bytes_app by apply le_bytes_length. cbn. now rewrite le_value_bytes.
Qed.

Lemma uint_skip n v rest : skip_uint n (serialize_uint n v ++ rest) = Some rest.
Proof. unfold skip_uint, serialize_uint. now rewrite seek_app by apply le_bytes_length. Qed.

Lemma int64_roundtrip v rest : i64_fits v -> deserialize_int64 (serialize_int64 v ++ rest) = Some (v, rest).
Proof.
  intros Hv. unfold i64_fits in Hv. unfold deserialize_int64, serialize_int64.
  rewrite uint_roundtrip by (unfold BV.wrap; apply Z.mod_pos_bound; lia).
  cbn [mbind option_bind fst snd]. do 2 f_equal. unfold BV.signed, BV.wrap. change (64 - 1) with 63.
  destruct (Z.ltb_spec v 0).
  - rewrite <- (Z.mod_unique v (2 ^ 64) (-1) (v + 2 ^ 64)) by lia. destruct (Z.ltb_spec (v + 2 ^ 64) (2 ^ 63)); lia.
  - rewrite Z.mod_small by lia. destruct (Z.ltb_spec v (2 ^ 63)); lia.
Qed.

Lemma string_roundtrip s rest : string_fits s -> deserialize_string (serialize_string s ++ rest) = Some (s, rest).
Proof.
  intros Hs. unfold string_fits in Hs. unfold deserialize_string, serialize_string. rewrite <- app_assoc, uint_roundtrip by (cbn; lia).
  cbn [mbind option_bind fst snd]. now rewrite Nat2Z.id, read_bytes_app.
Qed.

Lemma string_skip s rest : string_fits s -> skip_string (serialize_string s ++ rest) = Some rest.
Proof.
  intros Hs. unfold string_fits in Hs. unfold skip_string, serialize_string. rewrite <- app_assoc, uint_roundtrip by (cbn; lia).
  cbn [mbind option_bind fst snd]. now rewrite Nat2Z.id, seek_app.
Qed.

Create HintDb serialize.
#[export] Hint Rewrite <- @app_assoc : serialize.
#[export] Hint Rewrite uint_roundtrip uint_skip int64_roundtrip string_roundtrip string_skip using (done || (cbn; lia)) : serialize.

#[export] Instance char_laws : SerializableLaws Char (fun _ => True).
Proof. constructor; intros [c] rest _; cbn [serialize deserialize skip char_serializable]; [|done]. unfold deserialize_char. now rewrite read_bytes_app. Qed.

#[export] Instance string_laws : SerializableLaws bytes string_fits.
Proof. constructor; intros; [now apply string_roundtrip|now apply string_skip]. Qed.

#[export] Instance ExecutionStats_laws : SerializableLaws ExecutionStats (fun x =>
  string_fits (llvm_inst_str x) /\ string_fits (file_loc x) /\ u64_fits (instructions_cnt x) /\ i64_fits (queryCost_us x) /\ i64_fits (queryCost_increment_us x)).
Proof.
  constructor; intros [a b c d e] rest (Ha & Hb & Hc & Hd & He); cbn [serialize deserialize skip ExecutionStats_serializable];
    unfold serialize_ExecutionStats, deserialize_ExecutionStats, skip_ExecutionStats; cbn in Ha, Hb, Hc, Hd, He;
    unfold u64_fits in Hc; cbn [llvm_inst_str file_loc instructions_cnt queryCost_us queryCost_increment_us].
  - do 5 (autorewrite with serialize; cbn [mbind option_bind]). done.
  - unfold serialize_int64. do 5 (autorewrite with serialize; cbn [mbind option_bind]). done.
Qed.

#[export] Instance StringInstStats_laws : SerializableLaws StringInstStats (fun x => u64_fits (instcnt x) /\ string_fits (str x)).
Proof.
  constructor; intros [a b] rest [Ha Hb]; unfold u64_fits in Ha; cbn [instcnt str] in Ha, Hb; cbn [serialize deserialize skip StringInstStats_serializable];
    unfold serialize_StringInstStats, deserialize_StringInstStats, skip_StringInstStats; cbn [instcnt str];
    do 3 (autorewrite with serialize; cbn [mbind option_bind]); done.
Qed.

#[export] Instance DataRecEntry_laws : SerializableLaws DataRecEntry (fun x => u64_fits (data x) /\ string_fits (instUniqueID x)).
Proof.
  constructor; intros [a b] rest [Ha Hb]; unfold u64_fits in Ha; cbn [data instUniqueID] in Ha, Hb; cbn [serialize deserialize skip DataRecEntry_serializable];
    unfold serialize_DataRecEntry, deserialize_DataRecEntry, skip_DataRecEntry; cbn [data instUniqueID];
    do 3 (autorewrite with serialize; cbn [mbind option_bind]); done.
Qed.

(** The fields have the widths of the struct. *)
Definition PathEntry_fits (pe : PathEntry) : Prop :=
  match pe with
  | FORK _ => True
  | SWITCH_EXPIDX i | SWITCH_BBIDX i | SCHEDULE i => 0 <= i < 2 ^ 16
  | INDIRECTBR i => 0 <= i < 2 ^ 8
  | DATAREC l w => 0 <= l < 2 ^ 8 /\ 0 <= w < 2 ^ 8
  end.

Lemma PathEntry_length junk pe : length (PathEntry_bytes junk pe) = 4%nat.
Proof. now destruct pe. Qed.

Lemma PathEntry_roundtrip junk pe : PathEntry_fits pe -> PathEntry_of (PathEntry_bytes junk pe) = Some pe.
Proof.
  destruct pe as [[]|i|i|i|l w|i]; cbn [PathEntry_fits]; intros H; cbn [PathEntry_bytes app le_bytes]; try done; unfold PathEntry_of; cbn [Z.eqb Pos.eqb].
  - do 2 f_equal. exact (le_value_bytes 2 i H).
  - do 2 f_equal. exact (le_value_bytes 2 i H).
  - now rewrite BV.wrap_small.
  - destruct H. now rewrite !BV.wrap_small.
  - do 2 f_equal. exact (le_value_bytes 2 i H).
Qed.

#[export] Instance PathEntry_laws junk : SerializableLaws (ST:=PathEntry_serializable junk) PathEntry PathEntry_fits.
Proof.
  constructor; intros pe rest Hpe; cbn [serialize deserialize skip PathEntry_serializable]; unfold deserialize_PathEntry, skip_PathEntry.
  - rewrite read_bytes_app by apply PathEntry_length. cbn. now rewrite PathEntry_roundtrip.
  - now rewrite seek_app by apply PathEntry_length.
Qed.
