(* ===== verification/TreeStream.v ===== *)
(** * Streams of a tree of states

    src/lib/Support/TreeStream.cpp and src/include/klee/Internal/ADT/TreeStream.h: the recorded
    paths of all execution states in one file.  A state writes to a stream of its own, and
    when it forks, the copy gets a new stream that starts with what has been written
    so far.  The file is a sequence of frames, each eight bytes and some entries: the
    opening of a stream as a child of another, or entries of a stream.  Entries
    of one stream that follow each other are one frame, whose length is put in
    place later ([lastLen_dirty], [flush_lastLen]).  [readStream] finds the ancestors of a stream in a
    first pass over the file and collects their entries in a second.

    The file is the list of its bytes; the device does not fail.  Positions are numbers of
    bytes.  Where a file ends too early the code goes on with indeterminate values; the
    definitions stop with [Abort] there, as where an assertion fails, and the theorems show that it does not
    happen.  [streams_separate]: every stream reads back as what was
    written to it and, before it branched off, to its ancestors.

    The streams of a state become its .path and .path_datarec files
    (src/tools/klee/main.cpp), which a later run loads to replay the path.
    [recorded_path_loads]: it loads what was recorded. *)

From stdpp Require Import gmap strings.
From S2P Require Import Prelude APInt Expr KTest Replay Serialize.

Record TreeOStream := mkOStream { os_id : Z; cnt : Z }.

Record TreeStreamWriter := mkTreeWriter {
  lastID : Z;
  lastLen : Z;
  lastLen_off : nat;
  isWritten : bool;
  lastLen_dirty : bool;
  output : bytes;
  ids : Z
}.

Definition new_TreeStreamWriter : TreeStreamWriter := mkTreeWriter 0 0 0 false false [] 1.

Section TreeStream.
Context {T : Type} {ST : Serializable T}.

(** An [unsigned] as it is written. *)
Definition word4 (v : Z) : bytes := le_bytes 4 v.

Definition put (l : bytes) (w : TreeStreamWriter) : TreeStreamWriter :=
  mkTreeWriter (lastID w) (lastLen w) (lastLen_off w) (isWritten w) (lastLen_dirty w) (output w ++ l) (ids w).

Definition flush_lastLen (w : TreeStreamWriter) : TreeStreamWriter :=
  if lastLen_dirty w then
    mkTreeWriter (lastID w) (lastLen w) (lastLen_off w) (isWritten w) false
      (take (lastLen_off w) (output w) ++ word4 (lastLen w) ++ drop (lastLen_off w + 4) (output w)) (ids w)
  else w.

Definition write_metadata (os : TreeOStream) (w : TreeStreamWriter) : TreeStreamWriter :=
  let w := if isWritten w then flush_lastLen w else w in
  let w := put (word4 (os_id os)) w in
  let off := length (output w) in
  let w := put (word4 0) w in
  mkTreeWriter (os_id os) 0 off true (lastLen_dirty w) (output w) (ids w).

Definition write (os : TreeOStream) (entry : T) (w : TreeStreamWriter) : TreeStreamWriter :=
  let w := if negb (isWritten w) || (isWritten w && negb (os_id os =? lastID w)) then write_metadata os w else w in
  let w := put (serialize entry) w in
  mkTreeWriter (lastID w) (u32 (lastLen w + 1)) (lastLen_off w) (isWritten w) true (output w) (ids w).

(** [operator<<] *)
Definition os_put (os : TreeOStream) (entry : T) (w : TreeStreamWriter) : TreeOStream * TreeStreamWriter :=
  (mkOStream (os_id os) (u32 (cnt os + 1)), write os entry w).

Definition open_at (os : TreeOStream) (w : TreeStreamWriter) : TreeOStream * TreeStreamWriter :=
  let w := flush_lastLen w in
  let id := ids w in
  let w := mkTreeWriter (lastID w) (lastLen w) (lastLen_off w) false (lastLen_dirty w) (output w) (u32 (ids w + 1)) in
  let w := put (word4 (os_id os)) w in
  let w := put (word4 (Z.lor id (2 ^ 31))) w in
  (mkOStream id (cnt os), w).

Definition open (w : TreeStreamWriter) : TreeOStream * TreeStreamWriter := open_at (mkOStream 0 0) w.
Definition branch (os : TreeOStream) (w : TreeStreamWriter) : TreeOStream * TreeStreamWriter := open_at os w.
Definition flush (w : TreeStreamWriter) : TreeStreamWriter := flush_lastLen w.

(** ** [readStream] *)

Definition is_fork (tag : Z) : bool := Z.testbit tag 31.
Definition child_of (tag : Z) : Z := Z.lxor tag (2 ^ 31).

(** The two numbers at the start of a frame. *)
Definition read_header (inp : bytes) : option (Z * Z * bytes) :=
  '(id, inp) ← deserialize_uint 4 inp; '(tag, inp) ← deserialize_uint 4 inp; Some (id, tag, inp).

(** [while (id)]: a parent has a smaller number than its child. *)
Fixpoint ancestors (fuel : nat) (parents : gmap Z Z) (id : Z) : outcome (list Z) :=
  if id =? 0 then Done []
  else match fuel with
       | O => OutOfFuel
       | S fuel => p ← or_abort (parents !! id); l ← ancestors fuel parents p; Done (id :: l)
       end.

Fixpoint skip_entries (n : nat) (inp : bytes) : option bytes :=
  match n with O => Some inp | S n => inp ← skip inp; skip_entries n inp end.

(** The first loop, up to the frame that opens the stream; [roots] in the order in which they are pushed. *)
Fixpoint find_roots (fuel : nat) (streamID : Z) (parents : gmap Z Z) (inp : bytes) : outcome (list Z) :=
  match fuel with
  | O => OutOfFuel
  | S fuel =>
    '(id, tag, inp) ← or_abort (read_header inp);
    if is_fork tag then
      if child_of tag =? streamID then l ← ancestors (Z.to_nat id) parents id; Done (child_of tag :: l)
      else find_roots fuel streamID (match parents !! child_of tag with Some _ => parents | None => <[child_of tag := id]> parents end) inp
    else inp ← or_abort (skip_entries (Z.to_nat tag) inp); find_roots fuel streamID parents inp
  end.

Fixpoint read_entries (n : nat) (inp : bytes) : option (list T * bytes) :=
  match n with
  | O => Some ([], inp)
  | S n => '(x, inp) ← deserialize inp; '(xs, inp) ← read_entries n inp; Some (x :: xs, inp)
  end.

(** The second loop; the last of the [roots] comes first. *)
Fixpoint collect (fuel : nat) (roots : list Z) (out : list T) (inp : bytes) : outcome (list T) :=
  match fuel with
  | O => OutOfFuel
  | S fuel =>
    match read_header inp with
    | None => Done out
    | Some (id, tag, inp) =>
      if is_fork tag then
        match roots with
        | r :: c :: roots' => if (id =? r) && (child_of tag =? c) then collect fuel (c :: roots') out inp else collect fuel roots out inp
        | _ => collect fuel roots out inp
        end
      else
        back ← or_abort (head roots);
        if id =? back then
          '(xs, inp) ← or_abort (read_entries (Z.to_nat tag) inp); collect fuel roots (out ++ xs) inp
        else inp ← or_abort (skip_entries (Z.to_nat tag) inp); collect fuel roots out inp
    end
  end.

Definition readStream (streamID : Z) (w : TreeStreamWriter) : outcome (list T * TreeStreamWriter) :=
  _ ← check ((0 <? streamID) && (streamID <? ids w));
  let w := flush w in
  let fuel := S (length (output w)) in
  roots ← find_roots fuel streamID ∅ (output w);
  out ← collect fuel (rev roots) [] (output w);
  Done (out, w).

(** ** The frames of a file *)

Inductive frame := Fork (parent child : Z) | Data (id : Z) (entries : list T).

Definition enc_entries (es : list T) : bytes := mjoin (serialize <$> es).
Definition enc_frame (f : frame) : bytes :=
  match f with
  | Fork p c => word4 p ++ word4 (Z.lor c (2 ^ 31))
  | Data id es => word4 id ++ word4 (Z.of_nat (length es)) ++ enc_entries es
  end.
Definition enc_log (log : list frame) : bytes := mjoin (enc_frame <$> log).

Lemma enc_log_app l1 l2 : enc_log (l1 ++ l2) = enc_log l1 ++ enc_log l2.
Proof. unfold enc_log. now rewrite fmap_app, join_app. Qed.

Lemma enc_entries_app l1 l2 : enc_entries (l1 ++ l2) = enc_entries l1 ++ enc_entries l2.
Proof. unfold enc_entries. now rewrite fmap_app, join_app. Qed.

(** What the streams contain after the frames of a file. *)
Notation contents := (gmap Z (list T)).
Definition contents_after (m : contents) (f : frame) : contents :=
  match f with
  | Fork p c => <[c := default [] (m !! p)]> m
  | Data id es => <[id := default [] (m !! id) ++ es]> m
  end.

Context (valid : T -> Prop) {SL : SerializableLaws T valid}.

(** A child is new and has a larger number than its parent, which exists or is 0; only
    open streams are written. *)
Definition frame_ok (m : contents) (f : frame) : Prop :=
  match f with
  | Fork p c => 0 <= p < c /\ c < 2 ^ 31 /\ m !! c = None /\ (p = 0 \/ is_Some (m !! p))
  | Data id es => 0 < id < 2 ^ 31 /\ is_Some (m !! id) /\ Forall valid es /\ Z.of_nat (length es) < 2 ^ 31
  end.

Inductive logged : list frame -> contents -> Prop :=
| logged_nil : logged [] ∅
| logged_snoc log m f : logged log m -> frame_ok m f -> logged (log ++ [f]) (contents_after m f).

Definition frame_fits (f : frame) : Prop :=
  match f with
  | Fork p c => 0 <= p < c /\ c < 2 ^ 31
  | Data id es => 0 < id < 2 ^ 31 /\ Forall valid es /\ Z.of_nat (length es) < 2 ^ 31
  end.

Record log_facts (log : list frame) (m : contents) : Prop := {
  lf_fork p c : Fork p c ∈ log -> 0 <= p < c /\ c < 2 ^ 31 /\ is_Some (m !! c);
  lf_parent p c : Fork p c ∈ log -> p = 0 \/ is_Some (m !! p);
  lf_unique p p' c : Fork p c ∈ log -> Fork p' c ∈ log -> p = p';
  lf_opened c : is_Some (m !! c) -> exists p, Fork p c ∈ log;
  lf_frames : Forall frame_fits log
}.

Lemma logged_facts log m : logged log m -> log_facts log m.
Proof.
  induction 1 as [|log m f Hl [H1 Hpa H2 H3 H4] Hf]; [constructor; try set_solver; intros c; rewrite lookup_empty; now intros []|].
  destruct f as [p c|id es]; cbn [frame_ok contents_after] in *.
  - destruct Hf as (Hp & Hc & Hn & Hex).
    assert (Hold : forall p', ~ Fork p' c ∈ log) by (intros p' (_ & _ & [? ?])%H1; congruence). constructor.
    + intros p' c' [H'|[= -> ->]%list_elem_of_singleton]%elem_of_app; [|rewrite lookup_insert_eq; split_and!; [lia..|eauto]].
      destruct (H1 _ _ H') as (? & ? & ?). split_and!; [lia..|]. destruct (decide (c' = c)) as [->|]; [rewrite lookup_insert_eq|rewrite lookup_insert_ne by done]; eauto.
    + assert (Hmono : forall q, is_Some (m !! q) -> is_Some (<[c := default [] (m !! p)]> m !! q)) by (intros; apply lookup_insert_is_Some'; auto).
      intros p' c' [H'|[= -> ->]%list_elem_of_singleton]%elem_of_app; [apply Hpa in H'|]; naive_solver.
    + intros p1 p2 c' [A1|[= -> ->]%list_elem_of_singleton]%elem_of_app [A2|E2%list_elem_of_singleton]%elem_of_app; [eauto| |now apply Hold in A2|congruence].
      injection E2 as -> ->. now apply Hold in A1.
    + intros c' Hc'. destruct (decide (c' = c)) as [->|Hne]; [exists p; set_solver|]. rewrite lookup_insert_ne in Hc' by done.
      destruct (H3 _ Hc') as [p' ?]. exists p'. set_solver.
    + apply Forall_app. split; [done|]. now apply Forall_singleton.
  - destruct Hf as (Hid & Hex & Hv & Hlen). constructor.
    + intros p' c' [H'|?%list_elem_of_singleton]%elem_of_app; [|done]. destruct (H1 _ _ H') as (? & ? & ?). split_and!; [lia..|].
      destruct (decide (c' = id)) as [->|]; [rewrite lookup_insert_eq|rewrite lookup_insert_ne by done]; eauto.
    + assert (Hmono : forall q, is_Some (m !! q) -> is_Some (<[id := default [] (m !! id) ++ es]> m !! q)) by (intros; apply lookup_insert_is_Some'; auto).
      intros p' c' [H'|?%list_elem_of_singleton]%elem_of_app; [apply Hpa in H'; naive_solver|done].
    + intros p1 p2 c' [A1|?%list_elem_of_singleton]%elem_of_app [A2|?%list_elem_of_singleton]%elem_of_app; try done; eauto.
    + intros c' Hc'. destruct (decide (c' = id)) as [->|Hne].
      * destruct (H3 _ Hex) as [p' ?]. exists p'. set_solver.
      * rewrite lookup_insert_ne in Hc' by done. destruct (H3 _ Hc') as [p' ?]. exists p'. set_solver.
    + apply Forall_app. split; [done|]. now apply Forall_singleton.
Qed.

(** ** Reading the frames *)

Lemma read_word v rest : 0 <= v < 2 ^ 32 -> deserialize_uint 4 (word4 v ++ rest) = Some (v, rest).
Proof. intros. now apply (uint_roundtrip 4). Qed.

Lemma fork_tag c : 0 <= c < 2 ^ 31 -> Z.lor c (2 ^ 31) = c + 2 ^ 31 /\ is_fork (Z.lor c (2 ^ 31)) = true /\ child_of (Z.lor c (2 ^ 31)) = c.
Proof.
  intros Hc. assert (Hd : Z.land c (2 ^ 31) = 0).
  { apply Z.bits_inj'. intros n Hn. rewrite Z.land_spec, Z.pow2_bits_eqb, Z.bits_0 by lia. destruct (Z.eqb_spec 31 n) as [<-|]; [|apply andb_false_r].
    rewrite andb_true_r. destruct (Z.eq_dec c 0) as [->|]; [apply Z.bits_0|]. apply Z.bits_above_log2; [lia|]. apply Z.log2_lt_pow2; lia. }
  assert (Hx : Z.lor c (2 ^ 31) = Z.lxor c (2 ^ 31)) by (symmetry; now apply Z.lxor_lor).
  split_and!.
  - rewrite Hx, <- Z.add_nocarry_lxor by done. done.
  - unfold is_fork. rewrite Z.lor_spec, Z.pow2_bits_eqb by lia. apply orb_true_r.
  - unfold child_of. rewrite Hx, Z.lxor_assoc, Z.lxor_nilpotent. apply Z.lxor_0_r.
Qed.

Lemma data_tag n : 0 <= n < 2 ^ 31 -> is_fork n = false.
Proof.
  intros Hn. unfold is_fork. destruct (Z.eq_dec n 0) as [->|]; [apply Z.bits_0|]. apply Z.bits_above_log2; [lia|]. apply Z.log2_lt_pow2; lia.
Qed.

(** A length that needs all 32 bits is taken for the opening of a stream. *)
Lemma long_frame_is_fork n : 2 ^ 31 <= n < 2 ^ 32 -> is_fork n = true.
Proof.
  intros Hn. unfold is_fork. replace 31 with (Z.log2 n); [apply Z.bit_log2; lia|]. apply Z.log2_unique; [lia|]. change (2 ^ Z.succ 31) with (2 ^ 32). lia.
Qed.

Lemma header_fork p c rest : 0 <= p < c -> c < 2 ^ 31 -> read_header (enc_frame (Fork p c) ++ rest) = Some (p, Z.lor c (2 ^ 31), rest).
Proof.
  intros Hp Hc. cbn [enc_frame]. unfold read_header. rewrite <- app_assoc, read_word by lia. cbn [mbind option_bind]. destruct (fork_tag c) as [E _]; [lia|].
  rewrite read_word by (rewrite E; lia). done.
Qed.

Lemma header_data id es rest : 0 < id < 2 ^ 31 -> Z.of_nat (length es) < 2 ^ 31 ->
  read_header (enc_frame (Data id es) ++ rest) = Some (id, Z.of_nat (length es), enc_entries es ++ rest).
Proof.
  intros Hi Hl. cbn [enc_frame]. unfold read_header. rewrite <- !app_assoc, read_word by lia. cbn [mbind option_bind]. now rewrite read_word by lia.
Qed.

Lemma read_entries_enc es rest : Forall valid es -> read_entries (length es) (enc_entries es ++ rest) = Some (es, rest).
Proof.
  induction 1 as [|x es Hx Hes IH]; [done|]. cbn [length read_entries]. change (enc_entries (x :: es)) with (serialize x ++ enc_entries es).
  rewrite <- app_assoc, sl_deserialize by done. cbn. now rewrite IH.
Qed.

Lemma skip_entries_enc es rest : Forall valid es -> skip_entries (length es) (enc_entries es ++ rest) = Some rest.
Proof.
  induction 1 as [|x es Hx Hes IH]; [done|]. cbn [length skip_entries]. change (enc_entries (x :: es)) with (serialize x ++ enc_entries es).
  rewrite <- app_assoc, sl_skip by done. exact IH.
Qed.

(** *** The second loop *)

(** What a frame does to the roots and to the entries found so far. *)
Definition collect_frame (st : list Z * list T) (f : frame) : list Z * list T :=
  match f with
  | Fork p c => match st.1 with r :: c' :: rs => if (p =? r) && (c =? c') then (c' :: rs, st.2) else st | _ => st end
  | Data id es => match st.1 with r :: _ => if id =? r then (st.1, st.2 ++ es) else st | [] => st end
  end.

Lemma enc_frame_long f : (0 < length (enc_frame f))%nat.
Proof. destruct f; cbn; lia. Qed.

Lemma collect_enc log : forall fuel roots out, roots <> [] -> Forall frame_fits log -> (length (enc_log log) < fuel)%nat ->
  collect fuel roots out (enc_log log) = Done (foldl collect_frame (roots, out) log).2.
Proof.
  induction log as [|f log IH]; intros [|fuel] roots out Hr Hlog Hf; [lia|done|lia|].
  apply Forall_cons in Hlog as [Hff Hlog]. change (enc_log (f :: log)) with (enc_frame f ++ enc_log log) in *.
  rewrite length_app in Hf. pose proof (enc_frame_long f). cbn [collect foldl]. destruct f as [p c|id es].
  - destruct Hff as [Hp Hc]. rewrite header_fork by done. destruct (fork_tag c) as (_ & -> & ->); [lia|]. cbn [collect_frame fst snd].
    destruct roots as [|r [|c' rs]]; [done| |].
    + rewrite IH; [done|done|done|lia].
    + destruct ((p =? r) && (c =? c')); (rewrite IH; [done|done|done|lia]).
  - destruct Hff as (Hid & Hv & Hl). rewrite header_data by done. rewrite data_tag by lia. cbn [collect_frame fst snd].
    destruct roots as [|r rs]; [done|]. cbn [head or_abort mbind outcome_bind]. rewrite Nat2Z.id. destruct (id =? r).
    + rewrite read_entries_enc by done. cbn [or_abort mbind outcome_bind]. rewrite IH; [done|done|done|lia].
    + rewrite skip_entries_enc by done. cbn [or_abort mbind outcome_bind]. rewrite IH; [done|done|done|lia].
Qed.

(** Each stream of [rs] was opened as a child of the one before it. *)
Fixpoint chain (log : list frame) (q : Z) (rs : list Z) : Prop :=
  match rs with [] => True | r :: rs => Fork q r ∈ log /\ chain log r rs end.

Lemma chain_parent log q rs c : chain log q rs -> c ∈ rs ->
  (exists rs', rs = c :: rs' /\ Fork q c ∈ log) \/ exists q', q' ∈ rs /\ Fork q' c ∈ log.
Proof.
  revert q. induction rs as [|r rs IH]; intros q; [intros _ H; now apply elem_of_nil in H|].
  cbn. intros [Hq Hc] [->|Hin]%elem_of_cons; [left; eauto|]. right. destruct (IH r Hc Hin) as [(rs' & _ & ?)|(q' & ? & ?)]; [exists r|exists q']; set_solver.
Qed.

Lemma chain_above log m q rs : log_facts log m -> chain log q rs -> Forall (fun c => q < c) rs.
Proof.
  intros Hf. revert q. induction rs as [|r rs IH]; intros q; cbn; [constructor|]. intros [Hq Hc]. destruct (lf_fork _ _ Hf _ _ Hq) as (? & _).
  constructor; [lia|]. eapply Forall_impl; [exact (IH r Hc)|]. cbn. lia.
Qed.

(** The second loop has got to the last ancestor that is open, and has its entries. *)
Record collected (L : list frame) (m : contents) (final : option Z) (st : list Z * list T) : Prop := {
  cl_state : exists a rest, st = (a :: rest, default [] (m !! a)) /\ chain L a rest /\ Forall (fun c => m !! c = None) rest /\
    (m !! a = None -> Fork 0 a ∈ L) /\ last (a :: rest) = final
}.

Lemma collect_frame_ok L M m f final st : log_facts L M -> m !! 0 = None -> frame_ok m f -> f ∈ L -> collected L m final st ->
  collected L (contents_after m f) final (collect_frame st f).
Proof.
  intros HL H0 Hf HfL [(a & rest & -> & Hch & Hrest & Ha & Hlast)]. constructor. rewrite Forall_forall in Hrest.
  destruct f as [p c|id es]; cbn [frame_ok contents_after collect_frame fst snd] in *.
  - destruct Hf as (Hp & Hc & Hn & Hex).
    assert (Hsame : ~ (exists rs, rest = c :: rs /\ p = a) ->
      exists a' rest', (a :: rest, default [] (m !! a)) = (a' :: rest', default [] (<[c:=default [] (m !! p)]> m !! a')) /\ chain L a' rest' /\
        Forall (fun x => <[c:=default [] (m !! p)]> m !! x = None) rest' /\ (<[c:=default [] (m !! p)]> m !! a' = None -> Fork 0 a' ∈ L) /\
        last (a' :: rest') = final).
    { intros Hno. exists a, rest. split_and!; [|done| | |done].
      - f_equal. destruct (decide (a = c)) as [->|Hne]; [|now rewrite lookup_insert_ne].
        rewrite lookup_insert_eq, Hn. cbn. rewrite (lf_unique _ _ HL p 0 c HfL (Ha Hn)), H0. done.
      - apply Forall_forall. intros x Hx. destruct (decide (x = c)) as [->|Hne]; [|rewrite lookup_insert_ne by done; auto]. exfalso.
        destruct (chain_parent L a rest c Hch Hx) as [(rs' & -> & Hq)|(q & Hq & Hqc)].
        + apply Hno. exists rs'. split; [done|]. exact (lf_unique _ _ HL _ _ _ HfL Hq).
        + rewrite (lf_unique _ _ HL _ _ _ HfL Hqc) in *. specialize (Hrest q Hq). destruct Hex as [->|[? ?]]; [|congruence].
          pose proof (chain_above L M a rest HL Hch) as Hab. rewrite Forall_forall in Hab. specialize (Hab 0 Hq).
          destruct rest as [|r rs]; [now apply elem_of_nil in Hq|]. destruct Hch as [Har _]. destruct (lf_fork _ _ HL _ _ Har). lia.
      - intros Hnone. apply Ha. destruct (decide (a = c)) as [->|Hne]; [done|]. now rewrite lookup_insert_ne in Hnone. }
    destruct rest as [|c' rest]; [apply Hsame; now intros (? & ? & _)|].
    destruct (Z.eqb_spec p a) as [->|Hpa]; [|apply Hsame; now intros (? & _ & ?)].
    destruct (Z.eqb_spec c c') as [->|Hcc]; [|apply Hsame; intros (? & [= -> ->] & _); done]. cbn [andb].
    exists c', rest. rewrite !lookup_insert_eq. split_and!; [done|apply Hch| |done|exact Hlast].
    apply Forall_forall. intros x Hx. pose proof (chain_above L M c' rest HL (proj2 Hch)) as Hab. rewrite Forall_forall in Hab. specialize (Hab x Hx).
    rewrite lookup_insert_ne by lia. apply Hrest. now right.
  - destruct Hf as (Hid & [l Hl] & _ & _). assert (Hrest' : Forall (fun x => <[id:=default [] (m !! id) ++ es]> m !! x = None) rest).
    { apply Forall_forall. intros x Hx. specialize (Hrest x Hx). rewrite lookup_insert_ne; [done|congruence]. }
    destruct (Z.eqb_spec id a) as [->|Hne].
    + exists a, rest. rewrite lookup_insert_eq. now split_and!.
    + exists a, rest. rewrite lookup_insert_ne by done. now split_and!.
Qed.

Lemma logged_prefix log1 log2 m : logged (log1 ++ log2) m -> exists m1, logged log1 m1.
Proof.
  revert m. induction log2 as [|f log2 IH] using rev_ind; intros m H; [rewrite app_nil_r in H; eauto|].
  rewrite app_assoc in H. inversion H as [E|log0 m0 f0 H0 _ E]; [symmetry in E; now apply app_nil in E as []|].
  apply app_inj_tail in E as [-> ->]. eauto.
Qed.

Lemma logged_last log f m : logged (log ++ [f]) m -> exists m1, logged log m1 /\ frame_ok m1 f /\ m = contents_after m1 f.
Proof.
  intros H. inversion H as [E|log0 m0 f0 H0 Hf E]; [symmetry in E; now apply app_nil in E as []|].
  apply app_inj_tail in E as [-> ->]. eauto.
Qed.

Lemma contents_zero log m : logged log m -> m !! 0 = None.
Proof.
  intros H%logged_facts. destruct (m !! 0) eqn:E; [|done]. destruct (lf_opened _ _ H 0) as [p Hp]; [eauto|].
  destruct (lf_fork _ _ H _ _ Hp). lia.
Qed.

Lemma collect_log L M log m top rs : log_facts L M -> logged log m -> (forall f, f ∈ log -> f ∈ L) -> chain L 0 (top :: rs) ->
  collected L m (last (top :: rs)) (foldl collect_frame (top :: rs, []) log).
Proof.
  intros HL Hlog. induction Hlog as [|log m f Hlog IH Hf]; intros Hsub Hch.
  - constructor. exists top, rs. rewrite lookup_empty. destruct Hch as [Ht Hch]. split_and!; [done|done| |done|done].
    apply Forall_forall. intros c _. apply lookup_empty.
  - rewrite foldl_app. cbn [foldl]. apply (collect_frame_ok L M); [done|exact (contents_zero _ _ Hlog)|done|set_solver|]. apply IH; [set_solver|done].
Qed.

(** *** The first loop *)

Definition note_parent (parents : gmap Z Z) (f : frame) : gmap Z Z :=
  match f with
  | Fork p c => match parents !! c with Some _ => parents | None => <[c := p]> parents end
  | Data _ _ => parents
  end.

Lemma find_roots_enc s p log2 log1 : forall fuel parents, Forall frame_fits (log1 ++ Fork p s :: log2) ->
  (forall q, Fork q s ∉ log1) -> (length (enc_log (log1 ++ Fork p s :: log2)) < fuel)%nat ->
  find_roots fuel s parents (enc_log (log1 ++ Fork p s :: log2)) =
  (l ← ancestors (Z.to_nat p) (foldl note_parent parents log1) p; Done (s :: l)).
Proof.
  induction log1 as [|f log1 IH]; intros [|fuel] parents Hlog Hno Hf; try lia; cbn [app] in *;
    apply Forall_cons in Hlog as [Hff Hlog]; cbn [find_roots foldl].
  - change (enc_log (Fork p s :: log2)) with (enc_frame (Fork p s) ++ enc_log log2). destruct Hff as [Hp Hs].
    rewrite header_fork by done. cbn [or_abort mbind outcome_bind]. destruct (fork_tag s) as (_ & -> & ->); [lia|]. now rewrite Z.eqb_refl.
  - change (enc_log (f :: log1 ++ Fork p s :: log2)) with (enc_frame f ++ enc_log (log1 ++ Fork p s :: log2)) in *.
    rewrite length_app in Hf. pose proof (enc_frame_long f). destruct f as [q c|id es].
    + destruct Hff as [Hq Hc]. rewrite header_fork by done. cbn [or_abort mbind outcome_bind]. destruct (fork_tag c) as (_ & -> & ->); [lia|].
      destruct (Z.eqb_spec c s) as [->|Hne]; [now destruct (Hno q); left|]. apply IH; [done|set_solver|lia].
    + destruct Hff as (Hid & Hv & Hl). rewrite header_data by done. cbn [or_abort mbind outcome_bind]. rewrite data_tag by lia.
      rewrite Nat2Z.id, skip_entries_enc by done. cbn [or_abort mbind outcome_bind note_parent]. apply IH; [done|set_solver|lia].
Qed.

Lemma parents_noted log m : logged log m -> forall c,
  match foldl note_parent ∅ log !! c with Some p => Fork p c ∈ log | None => m !! c = None end.
Proof.
  induction 1 as [|log m f Hlog IH Hf]; intros c; [now rewrite !lookup_empty|]. rewrite foldl_app. cbn [foldl]. specialize (IH c) as IHc.
  destruct f as [p c'|id es]; cbn [note_parent contents_after frame_ok] in *.
  - destruct (foldl note_parent ∅ log !! c') as [q|] eqn:Ec'.
    + pose proof (IH c') as H'. rewrite Ec' in H'. destruct Hf as (_ & _ & Hn & _). apply logged_facts in Hlog.
      destruct (lf_fork _ _ Hlog _ _ H') as (_ & _ & [? ?]). congruence.
    + destruct (decide (c = c')) as [->|Hne]; [rewrite lookup_insert_eq; set_solver|]. rewrite lookup_insert_ne by done.
      destruct (foldl note_parent ∅ log !! c); [set_solver|]. now rewrite lookup_insert_ne.
  - destruct (foldl note_parent ∅ log !! c); [set_solver|]. destruct Hf as (_ & [l Hl] & _). rewrite lookup_insert_ne; [done|congruence].
Qed.

Lemma ancestors_chain L log m : logged log m -> (forall f, f ∈ log -> f ∈ L) -> forall n id,
  id = 0 \/ is_Some (m !! id) -> (Z.to_nat id <= n)%nat ->
  exists l, ancestors n (foldl note_parent ∅ log) id = Done l /\ forall rs, chain L id rs -> chain L 0 (rev l ++ rs).
Proof.
  intros Hlog Hsub. pose proof (logged_facts _ _ Hlog) as Hfacts. induction n as [|n IH]; intros id Hid Hn.
  - assert (id <= 0) by lia. destruct Hid as [->|Hid]; [exists []; cbn; auto|].
    destruct (lf_opened _ _ Hfacts _ Hid) as [p Hp]. destruct (lf_fork _ _ Hfacts _ _ Hp). lia.
  - cbn [ancestors]. destruct (Z.eqb_spec id 0) as [->|Hne]; [exists []; cbn; auto|]. destruct Hid as [->|Hid]; [done|].
    pose proof (parents_noted _ _ Hlog id) as Hp. destruct (foldl note_parent ∅ log !! id) as [p|]; [|destruct Hid; congruence].
    destruct (lf_fork _ _ Hfacts _ _ Hp) as (Hpid & _). destruct (IH p) as (l & El & Hl); [exact (lf_parent _ _ Hfacts _ _ Hp)|lia|].
    exists (id :: l). cbn [or_abort mbind outcome_bind]. rewrite El. split; [done|]. intros rs Hrs. cbn [rev]. rewrite <- app_assoc. apply Hl. cbn. auto.
Qed.

(** Reading the encoding of the frames gives the contents. *)
Lemma read_log log m s l : logged log m -> m !! s = Some l ->
  exists roots, find_roots (Datatypes.S (length (enc_log log))) s ∅ (enc_log log) = Done roots /\
    collect (Datatypes.S (length (enc_log log))) (rev roots) [] (enc_log log) = Done l.
Proof.
  intros Hlog Hs. pose proof (logged_facts _ _ Hlog) as Hf. destruct (lf_opened _ _ Hf s) as [p Hp]; [eauto|].
  apply list_elem_of_split in Hp as (log1 & log2 & ->).
  assert (H1 : exists m1, logged log1 m1 /\ frame_ok m1 (Fork p s)).
  { destruct (logged_prefix (log1 ++ [Fork p s]) log2 m) as [m2 H2]; [now rewrite <- app_assoc|].
    apply logged_last in H2 as (m1 & ? & ? & _). eauto. }
  destruct H1 as (m1 & Hlog1 & Hps & Hs31 & Hnew & Hpar). pose proof (logged_facts _ _ Hlog1) as Hf1.
  rewrite find_roots_enc; [|apply Hf| |lia].
  2: { intros q Hq. destruct (lf_fork _ _ Hf1 _ _ Hq) as (_ & _ & [? ?]). congruence. }
  destruct (ancestors_chain (log1 ++ Fork p s :: log2) log1 m1 Hlog1 ltac:(set_solver) (Z.to_nat p) p Hpar ltac:(done)) as (al & -> & Hal).
  cbn [mbind outcome_bind]. eexists. split; [reflexivity|]. cbn [rev].
  assert (Hch : chain (log1 ++ Fork p s :: log2) 0 (rev al ++ [s])) by (apply Hal; cbn; split; [set_solver|done]).
  destruct (rev al ++ [s]) as [|top rs] eqn:Er; [now apply app_nil in Er as []|].
  rewrite collect_enc; [|done|apply Hf|lia].
  destruct (collect_log _ m _ m top rs Hf Hlog ltac:(auto) Hch) as [(a & rest & -> & Hca & Hrest & _ & Hlast)].
  assert (rest = []) as ->.
  { destruct rest as [|r rest]; [done|]. destruct Hca as [Hr _]. apply Forall_cons in Hrest as [Hr0 _].
    destruct (lf_fork _ _ Hf _ _ Hr) as (_ & _ & [? ?]). congruence. }
  rewrite <- Er, last_snoc in Hlast. cbn in Hlast. injection Hlast as ->. cbn. now rewrite Hs.
Qed.

(** ** The writer *)

(** The file holds the frames, except that the length of the last one may not be in place. *)
Record writer_ok (w : TreeStreamWriter) (log : list frame) (m : contents) : Prop := {
  wo_ids : 1 <= ids w <= 2 ^ 31;
  wo_opened c : is_Some (m !! c) <-> 0 < c < ids w;
  wo_output :
    if isWritten w then exists log0 es stale, log = log0 ++ [Data (lastID w) es] /\ Z.of_nat (length es) = lastLen w /\
      lastLen_off w = (length (enc_log log0) + 4)%nat /\ length stale = 4%nat /\
      output w = enc_log log0 ++ word4 (lastID w) ++ stale ++ enc_entries es /\
      (lastLen_dirty w = false -> stale = word4 (lastLen w))
    else output w = enc_log log /\ lastLen_dirty w = false
}.

Lemma enc_log_data log id es : enc_log (log ++ [Data id es]) = enc_log log ++ word4 id ++ word4 (Z.of_nat (length es)) ++ enc_entries es.
Proof. rewrite enc_log_app. f_equal; exact (app_nil_r _). Qed.

Lemma enc_log_fork log p c : enc_log (log ++ [Fork p c]) = enc_log log ++ word4 p ++ word4 (Z.lor c (2 ^ 31)).
Proof. rewrite enc_log_app. f_equal; exact (app_nil_r _). Qed.

Lemma word4_length v : length (word4 v) = 4%nat.
Proof. apply le_bytes_length. Qed.

(** [flush_lastLen] puts the length in place. *)
Lemma tree_flush_ok w log m : writer_ok w log m -> writer_ok (flush w) log m /\ output (flush w) = enc_log log /\ lastLen_dirty (flush w) = false.
Proof.
  intros Hw. pose proof Hw as [Hids Hop Hout]. unfold flush, flush_lastLen. destruct (lastLen_dirty w) eqn:Ed.
  - destruct (isWritten w) eqn:Ew; [|now destruct Hout]. destruct Hout as (log0 & es & stale & -> & Hl & Hoff & Hst & Ho & _).
    assert (Hfile : take (lastLen_off w) (output w) ++ word4 (lastLen w) ++ drop (lastLen_off w + 4) (output w) =
      enc_log log0 ++ word4 (lastID w) ++ word4 (lastLen w) ++ enc_entries es).
    { rewrite Hoff, Ho. rewrite (app_assoc (enc_log log0)). rewrite take_app_length' by (rewrite length_app, word4_length; done).
      rewrite (app_assoc _ stale). rewrite drop_app_length' by (rewrite !length_app, word4_length, Hst; lia). now rewrite <- app_assoc. }
    rewrite Hfile. cbn [output lastLen_dirty]. split_and!; [|now rewrite enc_log_data, Hl|done].
    constructor; cbn [ids isWritten lastID lastLen lastLen_off output lastLen_dirty]; [done|done|].
    exists log0, es, (word4 (lastLen w)). now split_and!.
  - split_and!; [done| |done]. destruct (isWritten w); [|now destruct Hout].
    destruct Hout as (log0 & es & stale & -> & Hl & _ & _ & Ho & Hst). rewrite Ho, Hst by done. now rewrite enc_log_data, Hl.
Qed.

(** An entry for [os] goes into the last frame. *)
Definition continues (os : TreeOStream) (w : TreeStreamWriter) : bool := isWritten w && (os_id os =? lastID w).

(** The streams that can be reached: opened at the root or as a branch of another one, and written to. *)
Inductive reachable : TreeStreamWriter -> contents -> Prop :=
| reach_new : reachable new_TreeStreamWriter ∅
| reach_open w m os w' : reachable w m -> ids w < 2 ^ 31 -> open w = (os, w') -> reachable w' (<[os_id os := []]> m)
| reach_branch w m os l os' w' : reachable w m -> ids w < 2 ^ 31 -> m !! os_id os = Some l -> branch os w = (os', w') ->
    reachable w' (<[os_id os' := l]> m)
| reach_put w m os l x os' w' : reachable w m -> m !! os_id os = Some l -> valid x -> (continues os w = true -> lastLen w + 1 < 2 ^ 31) ->
    os_put os x w = (os', w') ->
    reachable w' (<[os_id os := l ++ [x]]> m)
| reach_flush w m : reachable w m -> reachable (flush w) m.

Lemma opened_ok w log m p : logged log m -> writer_ok w log m -> p = 0 \/ is_Some (m !! p) -> ids w < 2 ^ 31 ->
  logged (log ++ [Fork p (ids w)]) (<[ids w := default [] (m !! p)]> m) /\
  writer_ok (open_at (mkOStream p 0) w).2 (log ++ [Fork p (ids w)]) (<[ids w := default [] (m !! p)]> m).
Proof.
  intros Hlog Hw Hp Hids. destruct (tree_flush_ok w log m Hw) as ([Hi Hop _] & Ho & Hd). destruct Hw as [Hi0 Hop0 _].
  assert (Eids : ids (flush w) = ids w) by (unfold flush, flush_lastLen; now destruct (lastLen_dirty w)).
  assert (Hrange : 0 <= p < ids w) by (destruct Hp as [->|Hp]; [lia|]; apply Hop0 in Hp; lia).
  split.
  - apply (logged_snoc log m (Fork p (ids w)) Hlog). cbn. split_and!; [lia..| |done].
    destruct (m !! ids w) eqn:E; [|done]. assert (is_Some (m !! ids w)) as H by eauto. apply Hop0 in H. lia.
  - unfold open_at, put. fold (flush w). cbn [ids isWritten lastID lastLen lastLen_off output lastLen_dirty snd os_id]. rewrite Eids. unfold u32.
    rewrite BV.wrap_small by lia. constructor; cbn [ids isWritten lastID lastLen lastLen_off output lastLen_dirty].
    + lia.
    + intros c. destruct (decide (c = ids w)) as [->|Hne]; [rewrite lookup_insert_eq; split; [lia|eauto]|].
      rewrite lookup_insert_ne by done. rewrite Hop0. lia.
    + rewrite Ho, <- app_assoc. now rewrite enc_log_fork.
Qed.

(** [write_metadata] flushes whenever there is something to flush. *)
Lemma metadata_flushes w log m : writer_ok w log m -> (if isWritten w then flush_lastLen w else w) = flush w.
Proof. intros [_ _ Ho]. unfold flush, flush_lastLen. destruct (isWritten w); [done|]. now destruct Ho as [_ ->]. Qed.

Lemma flush_ids w : ids (flush w) = ids w.
Proof. unfold flush, flush_lastLen. now destruct (lastLen_dirty w). Qed.

Lemma opened_insert (m : contents) (b id : Z) (l : list T) : 0 < id < b ->
  (forall c, is_Some (m !! c) <-> 0 < c < b) -> forall c, is_Some (<[id := l]> m !! c) <-> 0 < c < b.
Proof.
  intros Hid Hop c. destruct (decide (c = id)) as [->|Hne]; [rewrite lookup_insert_eq; split; [lia|eauto]|].
  rewrite lookup_insert_ne by done. apply Hop.
Qed.

Lemma put_new_frame w log m os l x : logged log m -> writer_ok w log m -> m !! os_id os = Some l -> valid x -> continues os w = false ->
  logged (log ++ [Data (os_id os) [x]]) (<[os_id os := l ++ [x]]> m) /\
  writer_ok (write os x w) (log ++ [Data (os_id os) [x]]) (<[os_id os := l ++ [x]]> m).
Proof.
  intros Hlog Hw Hl Hx Hnew. destruct (tree_flush_ok w log m Hw) as (_ & Ho & Hd). pose proof Hw as [Hi Hop _].
  assert (Hr : 0 < os_id os < ids w) by (apply Hop; eauto).
  assert (Ec : <[os_id os := l ++ [x]]> m = contents_after m (Data (os_id os) [x])) by (cbn; now rewrite Hl).
  split; [rewrite Ec; apply logged_snoc; [done|]; cbn; split_and!; [lia|lia|eauto|now repeat constructor|lia]|].
  unfold write. replace (negb _ || _) with true by (unfold continues in Hnew; destruct (isWritten w), (os_id os =? lastID w); done).
  unfold write_metadata. rewrite (metadata_flushes _ _ _ Hw). unfold put.
  constructor; cbn [ids isWritten lastID lastLen lastLen_off output lastLen_dirty]; rewrite ?flush_ids; [done|now apply opened_insert|].
  exists log, [x], (word4 0). rewrite Ho, length_app, word4_length. split_and!; [done|done|done|done| |done].
  rewrite <- !app_assoc. now rewrite <- (app_nil_r (serialize x)).
Qed.

Lemma put_last_frame w log m os l x : logged log m -> writer_ok w log m -> m !! os_id os = Some l -> valid x ->
  continues os w = true -> lastLen w + 1 < 2 ^ 31 ->
  exists log', logged log' (<[os_id os := l ++ [x]]> m) /\ writer_ok (write os x w) log' (<[os_id os := l ++ [x]]> m).
Proof.
  intros Hlog Hw Hl Hx Hc Hlen. pose proof Hw as [Hi Hop Hout]. unfold continues in Hc. apply andb_true_iff in Hc as [Ew Eid].
  rewrite Ew in Hout. destruct Hout as (log0 & es & stale & -> & Hes & Hoff & Hst & Ho & _). apply Z.eqb_eq in Eid.
  apply logged_last in Hlog as (m1 & Hlog0 & Hok & ->). cbn [contents_after] in *. rewrite <- Eid in *. rewrite lookup_insert_eq in Hl. injection Hl as <-.
  rewrite insert_insert_eq, <- app_assoc in *. exists (log0 ++ [Data (os_id os) (es ++ [x])]). destruct Hok as (Hid & Hopen & Hv & _). split.
  - apply (logged_snoc log0 m1 (Data (os_id os) (es ++ [x])) Hlog0). cbn. split_and!; [lia|lia|done| |rewrite length_app; cbn; lia].
    apply Forall_app. now repeat constructor.
  - unfold write. rewrite Ew, <- Eid, Z.eqb_refl. cbn [negb andb orb]. unfold put.
    constructor; cbn [ids isWritten lastID lastLen lastLen_off output lastLen_dirty]; [done| |].
    + intros c. rewrite <- Hop. destruct (decide (c = os_id os)) as [->|Hne]; [now rewrite !lookup_insert_eq|]. now rewrite !lookup_insert_ne.
    + rewrite Ew. exists log0, (es ++ [x]), stale. unfold u32. rewrite BV.wrap_small by lia. rewrite <- Eid. split_and!; [done|rewrite length_app; cbn; lia|done|done| |done].
      rewrite Ho, enc_entries_app, <- !app_assoc. now rewrite <- (app_nil_r (serialize x)).
Qed.

Lemma reachable_logged w m : reachable w m -> exists log, logged log m /\ writer_ok w log m.
Proof.
  induction 1 as [|w m os w' _ (log & Hlog & Hw) Hids E|w m os l os' w' _ (log & Hlog & Hw) Hids Hl E|w m os l x os' w' _ (log & Hlog & Hw) Hl Hx Hlen E|w m _ (log & Hlog & Hw)].
  - exists []. split; [constructor|]. constructor; cbn; [lia| |done]. intros c. rewrite lookup_empty. split; [now intros []|lia].
  - destruct (opened_ok w log m 0 Hlog Hw ltac:(auto) Hids) as [H1 H2]. unfold open in E. rewrite E in H2.
    assert (os_id os = ids w) as -> by (unfold open_at in E; injection E as <- _; cbn; apply flush_ids).
    now rewrite (contents_zero _ _ Hlog) in *; eauto.
  - destruct os as [i n]. cbn [os_id] in *. destruct (opened_ok w log m i Hlog Hw ltac:(eauto) Hids) as [H1 H2].
    assert (os_id os' = ids w) as -> by (unfold branch, open_at in E; injection E as <- _; cbn; apply flush_ids).
    rewrite Hl in *. injection E as _ <-. eauto.
  - injection E as <- <-. destruct (continues os w) eqn:Ec; [eapply put_last_frame; eauto|].
    eexists. eapply put_new_frame; eauto.
  - exists log. split; [done|]. now apply tree_flush_ok.
Qed.

(** Reading only flushes. *)
Lemma read_reachable w m : reachable w m -> forall id l, m !! id = Some l -> readStream id w = Done (l, flush w) /\ reachable (flush w) m.
Proof.
  intros Hr id l Hid. split; [|now apply reach_flush].
  destruct (reachable_logged w m Hr) as (log & Hlog & Hw). destruct (tree_flush_ok w log m Hw) as (_ & Ho & _). destruct Hw as [_ Hop _].
  destruct (read_log log m id l Hlog Hid) as (roots & E1 & E2).
  unfold readStream. assert (0 < id < ids w) by (apply Hop; eauto). replace (_ && _) with true by (symmetry; lia).
  cbn [check mbind outcome_bind]. now rewrite Ho, E1; cbn [mbind outcome_bind]; rewrite E2.
Qed.

(** C21: every stream reads back as what was written to it and, before it branched off, to
    its ancestors, whatever was written to the other streams in between; reading
    only flushes, and can be repeated.  An identifier that is not that of an open stream is refused. *)
Theorem streams_separate w m : reachable w m ->
  (forall id l, m !! id = Some l -> exists w', readStream id w = Done (l, w') /\ reachable w' m) /\
  (forall id, m !! id = None -> readStream id w = Abort).
Proof.
  intros Hr. split; [intros id l Hid; exists (flush w); now apply read_reachable|].
  intros id Hid. destruct (reachable_logged w m Hr) as (log & _ & [_ Hop _]).
  unfold readStream. replace (_ && _) with false; [done|]. symmetry. apply not_true_iff_false. intros H.
  assert (is_Some (m !! id)) as [l Hl] by (apply Hop; lia). congruence.
Qed.

End TreeStream.

(** ** Path files *)

Section PathFile.
Context {T : Type} {ST : Serializable T}.

(** The part of [processTestCase] for one of the two writers: the stream of the state goes into a file. *)
Definition save_stream (streamID : Z) (w : TreeStreamWriter) : outcome (bytes * TreeStreamWriter) :=
  '(entries, w) ← readStream streamID w; Done (mjoin (serialize <$> entries), w).

(** [f.peek(); if (!f.good()) break;] *)
Fixpoint load_entries (fuel : nat) (inp : bytes) : outcome (list T) :=
  match fuel with
  | O => OutOfFuel
  | S fuel =>
    match inp with
    | [] => Done []
    | _ => '(x, inp) ← or_abort (deserialize inp); l ← load_entries fuel inp; Done (x :: l)
    end
  end.

Context (valid : T -> Prop) {SL : SerializableLaws T valid}.

Lemma load_saved (l : list T) : (forall x : T, serialize x <> []) -> Forall valid l -> forall fuel, (length (mjoin (serialize <$> l)) < fuel)%nat ->
  load_entries fuel (mjoin (serialize <$> l)) = Done l.
Proof.
  intros Hne. induction 1 as [|x l Hx Hl IH]; intros [|fuel] Hf; try lia; [done|].
  change (mjoin (serialize <$> x :: l)) with (serialize x ++ mjoin (serialize <$> l)) in *. rewrite length_app in Hf. specialize (Hne x). cbn [load_entries].
  destruct (serialize x ++ mjoin (serialize <$> l)) as [|b f] eqn:E; [now apply app_nil in E as []|]. rewrite <- E, sl_deserialize by done.
  cbn [or_abort mbind outcome_bind]. rewrite IH; [done|]. assert (length (serialize x) <> 0%nat) by (now rewrite length_zero_iff_nil); lia.
Qed.

Lemma reachable_valid w m : reachable valid w m -> map_Forall (fun _ => Forall valid) m.
Proof.
  induction 1 as [|w m os w' _ IH _ _|w m os l os' w' _ IH _ Hl _|w m os l x os' w' _ IH Hl Hx _ _|w m _ IH]; [apply map_Forall_empty|..|done].
  - now apply map_Forall_insert_2.
  - apply map_Forall_insert_2; [exact (IH _ _ Hl)|done].
  - apply map_Forall_insert_2; [|done]. apply Forall_app. split; [exact (IH _ _ Hl)|now constructor].
Qed.
End PathFile.

(** Both files, with two writers: the paths and the recorded data. *)
Definition save_path (junk streamID dataStreamID : Z) (pathWriter pathDataRecWriter : TreeStreamWriter)
    : outcome (bytes * bytes * TreeStreamWriter * TreeStreamWriter) :=
  '(f, pathWriter) ← save_stream (ST:=PathEntry_serializable junk) streamID pathWriter;
  '(data_f, pathDataRecWriter) ← save_stream (T:=DataRecEntry) dataStreamID pathDataRecWriter;
  Done (f, data_f, pathWriter, pathDataRecWriter).

Definition loadPathFile (f data_f : bytes) : outcome (list PathEntry * list DataRecEntry) :=
  buffer ← load_entries (ST:=PathEntry_serializable 0) (S (length f)) f;
  dataRecEntries ← load_entries (S (length data_f)) data_f;
  Done (buffer, dataRecEntries).

Definition DataRecEntry_fits (x : DataRecEntry) : Prop := u64_fits (data x) /\ string_fits (instUniqueID x).

(** C22: the files that are saved for a state, whatever else was recorded, load as the path and the data
    that were recorded for it. *)
Theorem recorded_path_loads junk id did w m wd md path recs :
  reachable (ST:=PathEntry_serializable junk) PathEntry_fits w m -> m !! id = Some path ->
  reachable DataRecEntry_fits wd md -> md !! did = Some recs ->
  exists f data_f w' wd', save_path junk id did w wd = Done (f, data_f, w', wd') /\ loadPathFile f data_f = Done (path, recs).
Proof.
  intros Hw Hid Hwd Hdid. destruct (read_reachable _ _ _ Hw _ _ Hid) as [E _]. destruct (read_reachable _ _ _ Hwd _ _ Hdid) as [Ed _].
  pose proof (reachable_valid _ _ _ Hw _ _ Hid) as Hv. pose proof (reachable_valid _ _ _ Hwd _ _ Hdid) as Hvd.
  unfold save_path, save_stream. rewrite E. cbn [mbind outcome_bind]. rewrite Ed. cbn [mbind outcome_bind].
  do 4 eexists. split; [reflexivity|]. unfold loadPathFile.
  change (load_entries (ST:=PathEntry_serializable 0)) with (load_entries (ST:=PathEntry_serializable junk)).
  rewrite (load_saved PathEntry_fits path) by (try done; lia || (intros [] ?; done)). cbn [mbind outcome_bind].
  rewrite (load_saved DataRecEntry_fits recs) by (try done; lia). done.
Qed.

(** Two paths that part after their first entry. *)
Definition two_paths : TreeStreamWriter :=
  let _ := PathEntry_serializable 0 in
  let '(s1, w) := open new_TreeStreamWriter in
  let '(s1, w) := os_put s1 (FORK true) w in
  let '(s2, w) := branch s1 w in
  let '(s1, w) := os_put s1 (SWITCH_BBIDX 300) w in
  let '(s2, w) := os_put s2 (FORK false) w in
  let '(s1, w) := os_put s1 (INDIRECTBR 7) w in
  w.

Definition two_paths_contents : gmap Z (list PathEntry) :=
  <[1 := [FORK true; SWITCH_BBIDX 300; INDIRECTBR 7]]> (<[2 := [FORK true; FORK false]]> (<[1 := [FORK true; SWITCH_BBIDX 300]]>
    (<[2 := [FORK true]]> (<[1 := [FORK true]]> (<[1 := []]> ∅))))).

Lemma two_paths_reachable : reachable (ST:=PathEntry_serializable 0) PathEntry_fits two_paths two_paths_contents.
Proof.
  pose proof (reach_new (ST:=PathEntry_serializable 0) PathEntry_fits) as H0.
  pose proof (reach_open _ _ _ _ _ H0 ltac:(done) eq_refl) as H1.
  pose proof (reach_put _ _ _ (mkOStream 1 0) [] (FORK true) _ _ H1 eq_refl I ltac:(done) eq_refl) as H2.
  pose proof (reach_branch _ _ _ (mkOStream 1 1) [FORK true] _ _ H2 ltac:(done) eq_refl eq_refl) as H3.
  pose proof (reach_put _ _ _ (mkOStream 1 1) [FORK true] (SWITCH_BBIDX 300) _ _ H3 eq_refl ltac:(done) ltac:(done) eq_refl) as H4.
  pose proof (reach_put _ _ _ (mkOStream 2 1) [FORK true] (FORK false) _ _ H4 eq_refl I ltac:(done) eq_refl) as H5.
  exact (reach_put _ _ _ (mkOStream 1 2) [FORK true; SWITCH_BBIDX 300] (INDIRECTBR 7) _ _ H5 eq_refl ltac:(done) ltac:(done) eq_refl).
Qed.

Lemma streams_separate_witness :
  (exists w', readStream (ST:=PathEntry_serializable 0) 1 two_paths = Done ([FORK true; SWITCH_BBIDX 300; INDIRECTBR 7], w')) /\
  (exists w', readStream (ST:=PathEntry_serializable 0) 2 two_paths = Done ([FORK true; FORK false], w')) /\
  readStream (ST:=PathEntry_serializable 0) 3 two_paths = Abort.
Proof.
  destruct (streams_separate PathEntry_fits two_paths _ two_paths_reachable) as [Hs Hn]. split_and!.
  - destruct (Hs 1 [FORK true; SWITCH_BBIDX 300; INDIRECTBR 7]) as (w' & E & _); [reflexivity|]. now exists w'.
  - destruct (Hs 2 [FORK true; FORK false]) as (w' & E & _); [reflexivity|]. now exists w'.
  - now apply Hn.
Defined.

(** The value 9 of an instruction named "i". *)
Definition one_record : DataRecEntry := mkDataRecEntry [105] 9.

Definition record_writer : TreeStreamWriter := let '(s1, w) := open new_TreeStreamWriter in (os_put s1 one_record w).2.

Lemma recorded_path_loads_witness : exists f data_f w' wd', save_path 0 2 1 two_paths record_writer = Done (f, data_f, w', wd') /\
  loadPathFile f data_f = Done ([FORK true; FORK false], [one_record]).
Proof.
  apply (recorded_path_loads 0 2 1 two_paths two_paths_contents record_writer (<[1 := [one_record]]> (<[1 := []]> ∅)));
    [exact two_paths_reachable|reflexivity| |reflexivity].
  pose proof (reach_open _ _ _ _ _ (reach_new DataRecEntry_fits) ltac:(done) eq_refl) as H1.
  exact (reach_put _ _ _ (mkOStream 1 0) [] one_record _ _ H1 eq_refl ltac:(unfold DataRecEntry_fits, u64_fits, string_fits; cbn; lia) ltac:(done) eq_refl).
Defined.
